(* ===== verification/_CoqProject ===== *)
-Q . S2P
Prelude.v
GoStrings.v
Util.v
Logging.v
Labgob.v
LabgobCheck.v
RaftState.v
RaftHandlers.v
RaftLeader.v
RaftNode.v
RaftRecv.v
RaftSend.v
RaftCluster.v
RaftElection.v
RaftClusterInv.v
RaftLogMatching.v
RaftSteps.v
RaftSafety.v
RaftTree.v
RaftTrans.v
RaftAncestry.v
RaftCompleteness.v
RaftStore.v
RaftCommit.v
RaftProps.v
RaftRuns.v
RaftStateMachine.v
RaftTotal.v
RaftLive.v
RaftAvail.v
RaftMessages.v
OpServer.v
Replicated.v
ReplicatedInv.v
ReplicatedSteps.v
Sessions.v
Labrpc.v
LabrpcProps.v
LabrpcCounts.v
LabNet.v
Clerk.v
KVRaft.v
KVMessages.v
KVLinear.v
ShardCtrler.v
CtrlerMessages.v
ShardCtrlerInv.v
ShardCtrlerOps.v
ShardCtrlerProps.v
CtrlerLinear.v
LabConfig.v
LabConfigProps.v
RaftConfig.v
RaftTester.v
RaftTesterInv.v
RaftTesterProps.v
ShardConfig.v
ShardKV.v
ShardMessages.v
ShardKVSystem.v
ShardKVReplica.v
ShardKVNetProps.v
ShardKVRuns.v
MapReduce.v
MapReduceProps.v
MapReduceJob.v
MapReduceJobProps.v
MRApps.v
MapReduceRuns.v
Bitset.v
Porcupine.v
PorcupineList.v
PorcupineSearch.v
PorcupineOrder.v
PorcupineHist.v
PorcupineProps.v
KVLocality.v
KVCheck.v
PorcupinePartials.v
Visualization.v
