(* ===== verification/Prelude.v ===== *)
(** * Verification of the 6.824 labs

    The repository holds the labs of MIT 6.824 in Go: MapReduce (src/labs/src/mr), the
    Raft consensus library (raft), a replicated key/value server (kvraft), a shard
    controller (shardctrler), a sharded key/value service (shardkv), and what
    they are built and tested with: shared constants (util), an encoder
    (labgob), a simulated network (labrpc), the linearizability checker
    (porcupine) and its key/value model (models).  A service hands every
    operation to Raft ([rf.Start]); Raft delivers committed operations on a
    channel; the service applies them to its state machine and answers the
    waiting RPC handler.  Clerks number their operations and retry; the servers
    recognise repetitions.  The sharded service asks the controller which group
    serves which shard and hands shards over between groups.

    ** Conventions

    The model is a shallow embedding: a Go function is a Rocq function, a struct
    is a record, an enumeration an inductive type.  A method takes the struct and
    returns the new one.  What stops the process (index out of range, nil
    pointer, failed type assertion, [log.Fatalln]) is [None] of the option
    monad.  A critical section, from one acquisition of the mutex to its
    release, is one step; a function that releases the lock around a remote call, a
    channel operation or a wait is split there, and the pieces are the steps of
    the goroutine.  [int] is [Z]: indices, terms and counters do not come near
    64 bits; where the code computes with words (FNV hashing, bitsets) the width
    is written out.  Inputs from outside are arguments: the clock and the random
    numbers ([Env]), the outcome of a remote call, the order in which Go iterates over
    a map ([MapOrder] below), the order of equal elements in an unstable sort
    ([EntrySort]), the order in which goroutines proceed.  encoding/gob (below
    labgob) is a codec whose decoder inverts its encoder ([GobCodec], [GobLaws]
    in Labgob.v, with an instance).  The calls of the log functions are left
    out of the operations; Logging.v and the files of messages model them on their own.

    ** Files

    - Prelude: Go slices and maps, lists, the hint and rewrite databases, the
      tactics [bools] and [runs].
    - GoStrings, Util: strings, strconv and fmt as the code uses them;
      util/common.go.  Logging: util/log.go and raft/util.go.
    - Labgob, LabgobCheck: the codec interface; labgob's own checks of types and
      of the values decoded into ([checkType], [checkDefault1]), and checks of types
      that overlap ([check_step]).
    - Labrpc, LabrpcProps, LabrpcCounts: labrpc/labrpc.go, the simulated
      network as a transition system: ends, [processReq], servers, services,
      the reflective dispatch; its invariants; its statistics; runs.
    - RaftState, RaftHandlers, RaftLeader: raft/raft.go, raft/rpc.go and
      raft/persister.go, one definition per function: state and persistence; the
      RPC handlers; elections, replication and the applier.
    - RaftNode, RaftRecv, RaftSend: well-formed logs and peers
      ([node_wf]), and what every handler does to them.
    - RaftCluster: [n] peers, their goroutines and the calls in flight; [exec] is
      one step, [reachable] the states of all runs with calls delayed,
      reordered and lost, crashes and restarts.
    - RaftElection, RaftClusterInv, RaftLogMatching, RaftSteps: the invariants
      of the cluster (votes and counters; the origin of every log entry) and their
      preservation.
    - RaftTree, RaftTrans, RaftAncestry, RaftCompleteness, RaftCommit,
      RaftStore, RaftStateMachine: all entries ever created are a tree and logs are paths in
      it; what one step does to a peer; acknowledged entries are kept; a
      majority's acknowledgement is final; what commit indices cover; what a step
      does to snapshots in memory and on disk; the theorems on committed entries.
    - RaftSafety, RaftProps, RaftRuns: the theorems on the cluster and on single
      handlers; concrete runs.
    - RaftTotal: what keeps a leader's indices inside its log, so that no step panics.
      RaftLive: from any reachable state, a run that elects a leader.  RaftAvail:
      and one that replicates and commits a new command.
    - RaftMessages, KVMessages, CtrlerMessages, ShardMessages: the [String] and log
      methods of raft, kvraft, shardctrler and shardkv.
    - OpServer: the skeleton that kvraft, shardctrler and shardkv share
      ([processOpL], [waitApplyL], [receiveApplyMsg] with result channels and
      timeouts), over the interface [StateMachine] with its laws.
    - Replicated, ReplicatedInv, ReplicatedSteps: servers of [OpServer], one on each
      peer of a cluster of [RaftCluster], with their RPCs and replies; one sequence
      of operations explains every run.  The interface [Replicas] says what a
      service promises: servers that applied the same operations need not be
      equal, but answer alike.
    - Clerk: kvraft/client.go and shardctrler/client.go.  Sessions: what the numbers
      that clerks give to operations mean in such a sequence.
    - KVRaft: kvraft/server.go as a [StateMachine].  KVLinear: the whole service and
      its clients; linearizability.
    - ShardCtrler, ShardCtrlerInv, ShardCtrlerOps, ShardCtrlerProps:
      shardctrler/server.go; rebalancing; the operations; the theorems.
      CtrlerLinear: the whole service and its clients; linearizability.
    - LabNet, LabConfig, LabConfigProps: kvraft/config.go and shardctrler/config.go:
      servers and clerks on the simulated network, partitions, shutdown and restart.
      ShardConfig: shardkv/config.go.
    - RaftConfig: the network part of raft/config.go.  RaftTester, RaftTesterInv,
      RaftTesterProps: the part that reads the apply channels and asks the peers,
      running with the cluster of [RaftCluster].  The reader of a peer that was
      replaced goes on ([take_old]); a peer is asked, and a log read, at a moment of its
      own.
    - ShardKV, ShardKVSystem: shardkv/server.go and client.go; all groups
      together against one map.  ShardKVReplica, ShardKVNetProps,
      ShardKVRuns: a group as an instance of [Replicas] and all groups, each on a Raft
      cluster, and the hand-offs between them; the simulation by [ShardKVSystem];
      a run.
    - MapReduce, MapReduceProps: mr/coordinator.go and the computation of
      mr/worker.go.  MapReduceJob, MapReduceJobProps: a whole job: the coordinator,
      workers that can die at any point, the files they write; main/mrsequential.go
      as its specification.  Files are texts; encoding/json is the interface [JSON]
      with [JSONLaws] (what [Encode] wrote of valid UTF-8 is read back).  MRApps: the
      applications in mrapps and the jobs that run them.  MapReduceRuns: an instance of
      the interface, runs.
    - Bitset, Porcupine: porcupine/bitset.go, model.go, checker.go, porcupine.go and
      models/kv.go.  PorcupineList: the doubly linked list in its store.
      PorcupineSearch: the search.  PorcupineOrder, PorcupineHist: its result as
      a linearization of the history.  PorcupineProps: the theorems.
      KVLocality: histories split by key.  KVCheck: the checker on the runs of
      KVLinear.  PorcupinePartials: the partial linearizations.
    - Visualization: the data of porcupine/visualization.go and the descriptions of
      models/kv.go.

    ** What the theorems show

    - Raft, for every reachable state: one leader per term
      ([election_safety]), log matching ([log_matching]), leaders only append, and cut
      what a snapshot of their own replaces ([leader_append_only]).  If the service takes
      snapshots of delivered entries only, committed entries are in the logs of all later
      leaders ([leader_completeness]) and peers deliver the same command with
      the same index ([state_machine_safety]), both through crashes, restarts and
      snapshots.  Terms and votes survive crashes
      ([term_never_decreases]), votes are kept within a term up to stepping down
      ([vote_kept]), no step panics unless
      there are two peers ([raft_never_panics]).  From every reachable state a
      majority that is up can elect one of its peers ([leader_electable]) and, with
      snapshots of delivered entries only and three peers or more, commit
      a command ([raft_available]): these give a run, not that every run is
      so.  For single handlers: [RequestVote_correct],
      [AppendEntries_correct], [commit_quorum], [crash_recovery],
      [backtrack_progress], [apply_delivers], [SnapshotL_correct],
      [election_timeout_bounds].  Deviations from Raft: a peer can vote twice
      in a term ([double_vote]; election safety holds all the same); two peers
      cannot commit ([two_peers_panic]); one peer alone never leads
      ([single_peer_no_leader]).
    - Services on Raft: every run is explained by one sequence of the operations that
      arrived, every server is at a prefix of it and every reply OK is a result in it
      ([replicated_service]); the histories of kvraft's and shardctrler's clients
      are linearizable ([kv_linearizable], [ctrler_linearizable]), provided that no
      RPC of an operation arrives after one of a later operation of its client.
    - The tests: no run of Raft makes the readers of raft/config.go stop
      ([tester_accepts]), unless one that takes snapshots reads on after its peer was
      replaced ([stale_reader_stops]); what [one] returns stays committed ([one_agreement]);
      [checkOneLeader] never sees two leaders ([one_leader_found]); peers reach each
      other exactly if both are connected ([net_act_linked]); [partition] separates
      ([partition_connectivity]); the statistics of a test are what the network carried
      ([end_reports]); [make_config_connects], [shutdown_isolates],
      [make_partition_correct], [start_connects].
    - kvraft: a log whose clients number their operations acts on the map once
      per operation ([kv_exactly_once]); OK means applied ([kv_ok_applied]);
      [kv_snapshot_roundtrip]; and three ways it fails: [lost_put],
      [applier_blocks_forever], [stale_duplicate_reapplied].
    - shardctrler: replicas agree whatever the map order ([replicas_agree]);
      operations do what they should ([ctrler_op_correct],
      [configs_append_only]); rebalancing ends, loses nothing and balances
      ([rebalance_correct]); [orphaned_shards], [move_unknown_group_exits].
    - shardkv: one owner per shard ([shardkv_single_owner]); the groups behave as
      one map ([shardkv_refines_map]), and so do their servers on Raft, with
      hand-offs that are delayed, repeated and lost: a run of the servers is one
      of the groups ([shardkv_net_refines]), and the replies OK are those of one
      map ([shardkv_one_map]); [double_append], [followers_keep_handoffs].
    - MapReduce, with keys and values in UTF-8: the output is the reduction of all
      values of every key ([mapreduce_correct]); the coordinator finishes when all tasks are done
      ([mr_done_iff_completed]), unless a task is reported twice
      ([early_done]); a job whose workers die writes what mrsequential writes
      ([mr_job_correct]), the word counts ([wc_job_correct]) or the index
      ([indexer_job_correct]), unless an output file begins with JSON and its task is
      executed again ([null_reduced_again]).
    - labrpc: a call is executed at most once, whatever is delayed or dropped
      ([rpc_at_most_once]); a call that returns true was executed and carries its
      reply ([call_true_executed]); a deleted server answers nothing
      ([deleted_server_silent]); every call can return ([call_returns]); calls of
      the right types do not stop the process ([typed_calls_do_not_exit]), others can
      ([untyped_call_exits]); the
      counters count ([network_statistics]).  labgob's type check ends and warns
      exactly of types that reach a lower-case field ([checkType_correct]), also when
      checks overlap ([concurrent_checks], [concurrent_checks_end]).
    - Messages: a peer that a service names never panics when it logs ([logL_panics],
      [logL_server]); a server and its peer log under one number if the group has
      three digits ([logL_same_number], [logL_other_number]); the clerk and the
      server write the same string of an operation, which tells its client and its
      number ([kv_Op_String_identifies], [ctrler_Op_String_identifies],
      [shardkv_Op_String_identifies]).
    - The checker ends and decides linearizability ([checkSingle_decides]); its
      verdict on a history of the key/value model, which it splits by key, is
      about the whole map ([kv_check_decides]); it never finds a history of kvraft
      illegal ([kv_checker_accepts], with the condition on the order of RPCs); what it reports, killed or not, is legal
      ([checkSingle_partials]); the visualization shows it ([visualization_correct]);
      [kv_partition_correct]; [empty_history_blocks].

    ** Fuel

    Loops that are not structural take fuel, and the theorems say that it is
    enough: the backward searches of Raft get the length of the range they scan;
    [rebalance_loop] gets the sum of the squares of the list lengths, which every
    move decreases; [reduce_runs] the length of the list; [node_length] the
    number of nodes.  For [check_loop] the theorems give a bound from which on
    the result does not change.  [check_fuel] is the number of types and one:
    the check marks a type before it looks into it.

    ** Not modelled

    The encodings of encoding/gob and encoding/json (codecs with laws; MapReduceRuns
    has an instance); the RPC socket of mr; the programs in main other than
    mrsequential (they load a plugin and call what is modelled, or drive packages
    that are not in the repository); the HTML page, the JSON text and the file of
    porcupine/visualization.go.  Of the configurations of
    the tests (config.go): real time, printing, and the random seeds and names (the
    names are arguments). *)

From stdpp Require Export base functions list gmap strings sorting relations.
From Stdlib Require Export ZArith Lia.

#[global] Open Scope Z_scope.

(** ** Go slices

    A Go slice is modelled by the list of its elements.  An operation that the
    Go runtime refuses (an index or a slice bound out of range) panics; a panic
    is the value [None] of the [option] monad, and code that can panic is
    written with stdpp's monadic notation [x ← e; k]. *)

Declare Scope go_scope.
Delimit Scope go_scope with go.

Section slices.
Context {A : Type}.
Implicit Types (l : list A) (i : Z).

(** [len(l)] *)
Definition go_len l : Z := Z.of_nat (length l).

(** [l[i]] *)
Definition go_index l i : option A :=
  if i <? 0 then None else l !! Z.to_nat i.

(** [l[i] = x] *)
Definition go_update l i (x : A) : option (list A) :=
  if (0 <=? i) && (i <? go_len l) then Some (<[Z.to_nat i := x]> l) else None.

(** [l[i:]] *)
Definition slice_from l i : option (list A) :=
  if (0 <=? i) && (i <=? go_len l) then Some (drop (Z.to_nat i) l) else None.

(** [l[:i]].  Go allows a bound up to the capacity; capacities are not
    modelled and a bound beyond the length counts as a failure. *)
Definition slice_to l i : option (list A) :=
  if (0 <=? i) && (i <=? go_len l) then Some (take (Z.to_nat i) l) else None.
End slices.

Notation "l .[ i ]" := (go_index l i) (at level 1, format "l .[ i ]") : go_scope.
#[global] Open Scope go_scope.

Section slice_lemmas.
Context {A : Type}.
Implicit Types (l : list A) (i : Z).

Lemma go_len_nonneg l : 0 <= go_len l.
Proof. unfold go_len; lia. Qed.

Lemma go_len_app l1 l2 : go_len (l1 ++ l2) = go_len l1 + go_len l2.
Proof. unfold go_len; rewrite length_app; lia. Qed.

Lemma go_len_cons x l : go_len (x :: l) = 1 + go_len l.
Proof. unfold go_len; cbn; lia. Qed.

Lemma go_index_lookup l i x : go_index l i = Some x ↔ 0 <= i ∧ l !! Z.to_nat i = Some x.
Proof.
  unfold go_index. destruct (Z.ltb_spec i 0); split; intros; try tauto; try done; lia.
Qed.

Lemma go_index_nat l (n : nat) : go_index l (Z.of_nat n) = l !! n.
Proof.
  unfold go_index. destruct (Z.ltb_spec (Z.of_nat n) 0); [lia|]. by rewrite Nat2Z.id.
Qed.

Lemma go_index_is_Some l i : is_Some (go_index l i) ↔ 0 <= i < go_len l.
Proof.
  unfold go_index, go_len. destruct (Z.ltb_spec i 0).
  - split; [intros [? ?]; done|lia].
  - rewrite lookup_lt_is_Some. lia.
Qed.

Lemma go_index_lt l i : 0 <= i < go_len l → ∃ x, go_index l i = Some x.
Proof. intros H. by apply go_index_is_Some in H. Qed.

Lemma go_index_None l i : go_index l i = None ↔ i < 0 ∨ go_len l <= i.
Proof.
  unfold go_index, go_len. destruct (Z.ltb_spec i 0).
  - split; [lia|done].
  - rewrite lookup_ge_None. lia.
Qed.

Lemma go_index_app_l l1 l2 i :
  i < go_len l1 → go_index (l1 ++ l2) i = go_index l1 i.
Proof.
  unfold go_index, go_len. intros. destruct (Z.ltb_spec i 0); [done|].
  rewrite lookup_app_l; [done|lia].
Qed.

Lemma go_index_app_r l1 l2 i :
  go_len l1 <= i → go_index (l1 ++ l2) i = go_index l2 (i - go_len l1).
Proof.
  unfold go_index, go_len. intros.
  destruct (Z.ltb_spec i 0); destruct (Z.ltb_spec (i - Z.of_nat (length l1)) 0); try lia; try done.
  rewrite lookup_app_r by lia. f_equal; lia.
Qed.

Lemma go_index_take l i n :
  i < Z.of_nat n → go_index (take n l) i = go_index l i.
Proof.
  unfold go_index. intros. destruct (Z.ltb_spec i 0); [done|].
  rewrite lookup_take_lt; [done|lia].
Qed.

Lemma go_index_drop l i n :
  0 <= i → go_index (drop n l) i = go_index l (i + Z.of_nat n).
Proof.
  unfold go_index. intros. destruct (Z.ltb_spec i 0), (Z.ltb_spec (i + Z.of_nat n) 0); try lia.
  rewrite lookup_drop. f_equal; lia.
Qed.

Lemma slice_from_Some l i l' :
  slice_from l i = Some l' ↔ 0 <= i <= go_len l ∧ l' = drop (Z.to_nat i) l.
Proof.
  unfold slice_from. destruct (Z.leb_spec 0 i), (Z.leb_spec i (go_len l)); cbn;
    split; intros; simplify_eq; intuition (lia || congruence || done).
Qed.

Lemma slice_to_Some l i l' :
  slice_to l i = Some l' ↔ 0 <= i <= go_len l ∧ l' = take (Z.to_nat i) l.
Proof.
  unfold slice_to. destruct (Z.leb_spec 0 i), (Z.leb_spec i (go_len l)); cbn;
    split; intros; simplify_eq; intuition (lia || congruence || done).
Qed.

Lemma slice_from_eq l i : 0 <= i <= go_len l → slice_from l i = Some (drop (Z.to_nat i) l).
Proof. intros. by apply slice_from_Some. Qed.

Lemma slice_to_eq l i : 0 <= i <= go_len l → slice_to l i = Some (take (Z.to_nat i) l).
Proof. intros. by apply slice_to_Some. Qed.

Lemma go_update_eq l i x :
  0 <= i < go_len l → go_update l i x = Some (<[Z.to_nat i := x]> l).
Proof.
  unfold go_update. intros. destruct (Z.leb_spec 0 i), (Z.ltb_spec i (go_len l)); (done || lia).
Qed.

Lemma go_index_insert l i j x : 0 <= i < go_len l → 0 <= j →
  go_index (<[Z.to_nat i := x]> l) j = if decide (j = i) then Some x else go_index l j.
Proof.
  unfold go_index, go_len. intros Hi Hj. destruct (Z.ltb_spec j 0); [lia|].
  case_decide as Hd; [subst; by rewrite list_lookup_insert_eq by lia|by rewrite list_lookup_insert_ne by lia].
Qed.

Lemma go_update_Some l i x l' :
  go_update l i x = Some l' ↔ 0 <= i < go_len l ∧ l' = <[Z.to_nat i := x]> l.
Proof.
  unfold go_update. destruct (Z.leb_spec 0 i), (Z.ltb_spec i (go_len l)); cbn;
    split; intros; simplify_eq; intuition (lia || congruence || done).
Qed.
End slice_lemmas.

(** ** Sorted lists *)

Lemma StronglySorted_lookups {A} (R : relation A) l :
  StronglySorted R l ↔ ∀ i j a b, (i < j)%nat → l !! i = Some a → l !! j = Some b → R a b.
Proof.
  split.
  - induction 1 as [|x l Hs IH Hx]; intros i j a b Hij Ha Hb; [done|]. destruct j as [|j]; [lia|].
    destruct i as [|i]; cbn in Ha, Hb; simplify_eq; [|by apply (IH i j); [lia|..]].
    rewrite Forall_forall in Hx. apply Hx. by eapply list_elem_of_lookup_2.
  - induction l as [|x l IH]; intros Hl; constructor.
    + apply IH. intros i j a b Hij Ha Hb. by apply (Hl (S i) (S j) a b); [lia|..].
    + apply Forall_lookup_2. intros i y Hy. by apply (Hl 0%nat (S i) x y); [lia|..].
Qed.

Lemma merge_sort_ordered {A} (R : relation A) `{!∀ x y, Decision (R x y), !Transitive R, !Total R} l i j a b :
  (i < j)%nat → merge_sort R l !! i = Some a → merge_sort R l !! j = Some b → R a b.
Proof. apply StronglySorted_lookups, (StronglySorted_merge_sort R). Qed.

(** ** Lists used as multisets *)

Lemma permutation_indices {A} (l l' : list A) : l ≡ₚ l' →
  ∃ js, js ≡ₚ seq 0 (length l) ∧ Forall2 (λ j x, l !! j = Some x) js l'.
Proof.
  intros Hp. pose proof (Permutation_length Hp) as Hlen. symmetry in Hp. apply Permutation_inj in Hp as [_ (f & Hf & Hl)].
  exists (f <$> seq 0 (length l')). split.
  - apply submseteq_length_Permutation; [|rewrite length_fmap, !length_seq; lia].
    apply NoDup_submseteq; [apply NoDup_fmap_2; [done|apply NoDup_seq]|].
    intros j (i & -> & Hi%elem_of_seq)%list_elem_of_fmap. apply elem_of_seq.
    destruct (lookup_lt_is_Some_2 l' i) as [x Hx]; [lia|]. rewrite Hl in Hx. apply lookup_lt_Some in Hx. lia.
  - apply Forall2_same_length_lookup_2; [by rewrite length_fmap, length_seq|].
    intros i j x Hj Hx. rewrite list_lookup_fmap in Hj. destruct (seq 0 (length l') !! i) as [i'|] eqn:E; [|done].
    apply lookup_seq in E as [-> _]. injection Hj as <-. by rewrite <- Hl.
Qed.

(** Elements of a filtered list are in the order of the list. *)
Lemma filter_positions {A} (P : A → Prop) `{!∀ x, Decision (P x)} (l : list A) (p q : nat) x y :
  (p < q)%nat → filter P l !! p = Some x → filter P l !! q = Some y → ∃ i j : nat, (i < j)%nat ∧ l !! i = Some x ∧ l !! j = Some y.
Proof.
  revert p q. induction l as [|z l IH]; intros p q Hpq Hp Hq; [done|]. rewrite filter_cons in Hp, Hq. destruct (decide (P z)).
  - destruct q as [|q]; [lia|]. destruct p as [|p]; cbn in Hp, Hq.
    + injection Hp as ->. apply list_elem_of_lookup_2, list_elem_of_filter in Hq as [_ [j Hj]%list_elem_of_lookup].
      exists 0%nat, (S j). split_and!; [lia|done|done].
    + destruct (IH p q) as (i & j & ? & ? & ?); [lia|done|done|]. exists (S i), (S j). split_and!; [lia|done|done].
  - destruct (IH p q) as (i & j & ? & ? & ?); [done..|]. exists (S i), (S j). split_and!; [lia|done|done].
Qed.

Lemma submseteq_NoDup {A} (l k : list A) : NoDup k → l ⊆+ k → NoDup l.
Proof. intros Hk (k' & Hl)%submseteq_Permutation. rewrite Hl in Hk. by apply NoDup_app in Hk as [? _]. Qed.

Lemma filter_submseteq {A} (P : A → Prop) `{∀ x, Decision (P x)} (l k : list A) :
  l ⊆+ k → filter P l ⊆+ filter P k.
Proof.
  intros (k' & ->)%submseteq_Permutation. rewrite filter_app. by apply submseteq_inserts_r.
Qed.

Lemma list_delete_out {A} (l : list A) k : l !! k = None → delete k l = l.
Proof.
  revert k. induction l as [|x l IH]; intros [|k]; cbn; intros; try done. f_equal. by apply IH.
Qed.

Lemma elem_of_delete {A} (l : list A) k x : x ∈ delete k l → x ∈ l.
Proof.
  intros H. destruct (l !! k) as [y|] eqn:E.
  - rewrite (delete_Permutation l k y E). by right.
  - by rewrite list_delete_out in H.
Qed.

Lemma elem_of_insert {A} (l : list A) k x y : y ∈ <[k := x]> l → y = x ∨ y ∈ l.
Proof.
  intros [i Hi]%list_elem_of_lookup. destruct (decide (i = k)) as [->|].
  - assert (k < length l)%nat as Hk. { apply lookup_lt_Some in Hi. by rewrite length_insert in Hi. }
    rewrite list_lookup_insert_eq in Hi by done. simplify_eq. by left.
  - rewrite list_lookup_insert_ne in Hi by done. right. by eapply list_elem_of_lookup_2.
Qed.

Section omap.
Context {A B : Type} (f : A → option B).

Lemma omap_insert_same (l : list A) k x y :
  l !! k = Some x → f y = f x → omap f (<[k := y]> l) = omap f l.
Proof.
  revert k. induction l as [|z l IH]; intros [|k] Hk Hf; simplify_eq/=; [by rewrite Hf|].
  by rewrite (IH k).
Qed.

Lemma omap_delete_Permutation (l : list A) k x :
  l !! k = Some x → omap f l ≡ₚ (match f x with Some y => [y] | None => [] end) ++ omap f (delete k l).
Proof.
  intros Hk. rewrite (delete_Permutation l k x Hk) at 1. cbn. by destruct (f x).
Qed.

Lemma omap_delete_submseteq (l : list A) k : omap f (delete k l) ⊆+ omap f l.
Proof.
  destruct (l !! k) as [x|] eqn:E; [|by rewrite list_delete_out].
  rewrite (omap_delete_Permutation l k x E). by apply submseteq_inserts_l.
Qed.
End omap.

(** ** Development automation *)

Create HintDb labs.
Create Rewrite HintDb labs_rw.

(** Turn the boolean tests of the code in the context and the goal into
    propositions that [lia] understands. *)
Ltac bools :=
  repeat match goal with
  | H : _ && _ = true |- _ => apply andb_true_iff in H; destruct H
  | H : _ && _ = false |- _ => apply andb_false_iff in H
  | H : _ || _ = true |- _ => apply orb_true_iff in H
  | H : _ || _ = false |- _ => apply orb_false_iff in H; destruct H
  | H : negb _ = true |- _ => apply negb_true_iff in H
  | H : negb _ = false |- _ => apply negb_false_iff in H
  | H : (_ <? _) = true |- _ => apply Z.ltb_lt in H
  | H : (_ <? _) = false |- _ => apply Z.ltb_ge in H
  | H : (_ <=? _) = true |- _ => apply Z.leb_le in H
  | H : (_ <=? _) = false |- _ => apply Z.leb_gt in H
  | H : (_ =? _) = true |- _ => apply Z.eqb_eq in H
  | H : (_ =? _) = false |- _ => apply Z.eqb_neq in H
  | H : (_ >? _) = true |- _ => rewrite Z.gtb_ltb in H; apply Z.ltb_lt in H
  | H : (_ >? _) = false |- _ => rewrite Z.gtb_ltb in H; apply Z.ltb_ge in H
  | H : (_ >=? _) = true |- _ => rewrite Z.geb_leb in H; apply Z.leb_le in H
  | H : (_ >=? _) = false |- _ => rewrite Z.geb_leb in H; apply Z.leb_gt in H
  | H : bool_decide _ = true |- _ => apply bool_decide_eq_true in H
  | H : bool_decide _ = false |- _ => apply bool_decide_eq_false in H
  end.

(** Split a run of the panic monad that is known to return. *)
Ltac runs :=
  repeat match goal with
  | H : mbind _ ?e = Some _ |- _ =>
      let E := fresh "E" in destruct e eqn:E; cbn [mbind option_bind] in H; [|discriminate H]
  | H : Some _ = Some _ |- _ => injection H as H; subst
  end.

Lemma elem_of_concat {A} (x : A) (ls : list (list A)) : x ∈ concat ls ↔ ∃ l, x ∈ l ∧ l ∈ ls.
Proof.
  induction ls as [|l ls IH]; cbn; [set_solver|]. rewrite elem_of_app, IH. set_solver.
Qed.

(** ** Filters *)

Lemma filter_ext_elem {A} (P Q : A → Prop) (l : list A) `{!∀ x, Decision (P x), !∀ x, Decision (Q x)} :
  (∀ x, x ∈ l → P x ↔ Q x) → filter P l = filter Q l.
Proof.
  induction l as [|x l IH]; intros HPQ; [done|]. rewrite !filter_cons.
  rewrite IH by (intros; apply HPQ; by right). specialize (HPQ x ltac:(by left)).
  case_decide; case_decide; tauto.
Qed.

Section filters.
Context {A : Type}.
Implicit Types (P Q : A → Prop) (l : list A).

Lemma filter_all P l `{!∀ x, Decision (P x)} : (∀ x, x ∈ l → P x) → filter P l = l.
Proof.
  induction l as [|x l IH]; intros Hl; [done|]. rewrite filter_cons, decide_True by (apply Hl; by left).
  f_equal. apply IH. intros y Hy. apply Hl. by right.
Qed.

Lemma filter_fmap_list {B} (f : B → A) P (l : list B) `{!∀ x, Decision (P x)} :
  filter P (f <$> l) = f <$> filter (λ x, P (f x)) l.
Proof.
  induction l as [|x l IH]; [done|]. rewrite fmap_cons, !filter_cons, IH. by case_decide.
Qed.

(** Counting the occurrences of a value is counting their indices. *)
Lemma count_indices `{!EqDecision A} (l : list A) (a : A) s :
  length (filter (λ k, l !! (k - s)%nat = Some a) (seq s (length l))) = length (filter (λ x, x = a) l).
Proof.
  revert s. induction l as [|x l IH]; intros s; [done|]. cbn [length seq].
  rewrite !filter_cons, Nat.sub_diag. cbn [lookup list_lookup].
  assert (length (filter (λ k, (x :: l) !! (k - s)%nat = Some a) (seq (S s) (length l)))
    = length (filter (λ x, x = a) l)) as Hs.
  { rewrite <- (IH (S s)). f_equal. apply filter_ext_elem. intros k Hk%elem_of_seq.
    by replace (k - s)%nat with (S (k - S s)) by lia. }
  case_decide; case_decide; cbn; congruence.
Qed.

(** The order of a filtered list is the order of the list. *)
Lemma filter_order P l l' a x `{!∀ x, Decision (P x)} :
  filter P l = l' ++ [a] → x ∈ l' → ∃ i j : nat, (i <= j)%nat ∧ l !! i = Some x ∧ l !! j = Some a.
Proof.
  revert l'. induction l as [|y l IH]; intros l' Hf Hx; [by destruct l'|].
  rewrite filter_cons in Hf. destruct (decide (P y)).
  - destruct l' as [|z l']; [by apply elem_of_nil in Hx|]. injection Hf as <- Hf.
    apply elem_of_cons in Hx as [->|Hx].
    + assert (a ∈ filter P l) as Ha by (rewrite Hf; apply elem_of_app; right; by left).
      apply list_elem_of_filter in Ha as [_ [j Hj]%list_elem_of_lookup]. exists 0%nat, (S j). split; [lia|done].
    + destruct (IH l' Hf Hx) as (i & j & ? & ? & ?). exists (S i), (S j). split; [lia|done].
  - destruct (IH l' Hf Hx) as (i & j & ? & ? & ?). exists (S i), (S j). split; [lia|done].
Qed.

(** A list has a greatest element, in any total order. *)
Lemma list_greatest {B} (R : B → B → Prop) (l : list B) :
  Transitive R → Total R → l ≠ [] → ∃ x, x ∈ l ∧ ∀ y, y ∈ l → R y x.
Proof.
  intros HT Htot. assert (Reflexive R) as Hrefl by (intros x; by destruct (total R x x)).
  induction l as [|x l IH]; [done|]. intros _. destruct (decide (l = [])) as [->|Hl].
  { exists x. split; [by left|]. by intros y ->%list_elem_of_singleton. }
  destruct (IH Hl) as (z & Hz & Hmax). destruct (total R x z) as [Hxz|Hzx].
  - exists z. split; [by right|]. intros y [->|Hy]%elem_of_cons; auto.
  - exists x. split; [by left|]. intros y [->|Hy]%elem_of_cons; [done|]. etrans; [by apply Hmax|done].
Qed.

(** Adding one element to a predicate adds one to its count. *)
Lemma length_filter_add P Q l a `{!∀ x, Decision (P x), !∀ x, Decision (Q x)} :
  NoDup l → a ∈ l → ¬ Q a → (∀ x, x ∈ l → P x ↔ x = a ∨ Q x) →
  length (filter P l) = S (length (filter Q l)).
Proof.
  intros Hnd Ha HQ HP. apply elem_of_Permutation in Ha as [l' Hl].
  rewrite Hl in Hnd. apply NoDup_cons in Hnd as [Ha _].
  assert (length (filter P l) = length (filter P (a :: l'))) as -> by by rewrite Hl.
  assert (length (filter Q l) = length (filter Q (a :: l'))) as -> by by rewrite Hl.
  rewrite !filter_cons, (decide_False (P := Q a)) by done. rewrite decide_True.
  - cbn. f_equal. f_equal. apply filter_ext_elem. intros x Hx.
    rewrite HP by (rewrite Hl; by right). split; [intros [->|]; done|by right].
  - apply HP; [rewrite Hl; by left|by left].
Qed.

Lemma length_filter_others `{EqDecision A} (l : list A) a :
  NoDup l → a ∈ l → length l = S (length (filter (λ x, x ≠ a) l)).
Proof.
  intros Hnd Ha. rewrite <- (length_filter_add (λ _, True) (λ x, x ≠ a) l a Hnd Ha);
    [|by intros []|by intros x _; destruct (decide (x = a)); tauto].
  clear. induction l as [|x l IH]; [done|]. rewrite filter_cons, decide_True by done. cbn. by rewrite <- IH.
Qed.
End filters.

(** Sorting forgets the order. *)
Lemma merge_sort_perm (l l' : list Z) : l ≡ₚ l' → merge_sort Z.le l = merge_sort Z.le l'.
Proof.
  intros Hp. apply (Sorted_unique Z.le).
  - apply Sorted_merge_sort. intros ??. lia.
  - apply Sorted_merge_sort. intros ??. lia.
  - by rewrite !merge_sort_Permutation.
Qed.

(** ** Iterating over Go maps

    [for k, v := range m] visits the entries in an order that Go leaves open and
    that can differ from one loop to the next: [range t m] is the order of the
    loop numbered [t], any permutation of the entries. *)

Class MapOrder := { range {A : Type} : nat → gmap Z A → list (Z * A) }.
Class MapOrderLaws `{!MapOrder} := {
  range_perm {A : Type} (t : nat) (m : gmap Z A) : range t m ≡ₚ map_to_list m;
}.

(** Two orders, for evaluation. *)
Definition forward_order : MapOrder := {| range A _ m := map_to_list m |}.
Definition backward_order : MapOrder := {| range A _ m := reverse (map_to_list m) |}.

Lemma forward_order_laws : @MapOrderLaws forward_order.
Proof. done. Qed.

Lemma backward_order_laws : @MapOrderLaws backward_order.
Proof. split. intros A t m. apply reverse_Permutation. Qed.

(** ** Loops that can fail

    [for _, x := range l { acc = f(acc, x) }] where the body can panic. *)

Section foldM.
Context {A B : Type} (f : A → B → option A).

Fixpoint foldM (a : A) (l : list B) : option A :=
  match l with
  | [] => Some a
  | x :: l => a ← f a x; foldM a l
  end.

(** A loop ends with its invariant if its body keeps it. *)
Lemma foldM_inv (P : list B → A → Prop) l a :
  P [] a →
  (∀ seen x rest a, l = seen ++ x :: rest → P seen a → ∃ a', f a x = Some a' ∧ P (seen ++ [x]) a') →
  ∃ a', foldM a l = Some a' ∧ P l a'.
Proof.
  intros H0 Hs. assert (∀ seen rest a, l = seen ++ rest → P seen a → ∃ a', foldM a rest = Some a' ∧ P l a') as Hg;
    [|by apply (Hg [])].
  clear a H0. intros seen rest. revert seen. induction rest as [|x rest IH]; intros seen a Hl Ha.
  - rewrite app_nil_r in Hl. subst. by exists a.
  - destruct (Hs _ _ _ _ Hl Ha) as (a' & Hf & Ha'). cbn. rewrite Hf. apply (IH (seen ++ [x])); [|done].
    by rewrite <- (assoc_L (++)).
Qed.
End foldM.
