(* ===== verification/GoStrings.v ===== *)
(** * Strings

    Appending, slicing and searching Go strings; numbers as strings. *)

From stdpp Require Import pretty.
From S2P Require Import Prelude.
From Stdlib Require Import Ascii.

#[global] Open Scope Z_scope.

Lemma append_cons c a b : String.String c a +:+ b = String.String c (a +:+ b).
Proof. reflexivity. Qed.

Lemma append_nil b : "" +:+ b = b.
Proof. reflexivity. Qed.

Ltac appends := repeat (rewrite append_cons || rewrite append_nil); cbn.

Lemma substring_app a b : String.substring 0 (String.length a) (a +:+ b) = a.
Proof. induction a as [|c a IH]; appends; [by destruct b|by rewrite IH]. Qed.

Lemma substring_all b : String.substring 0 (String.length b) b = b.
Proof. induction b as [|c b IH]; cbn; [done|by rewrite IH]. Qed.

Lemma substring_skip a b k : String.substring (String.length a) k (a +:+ b) = String.substring 0 k b.
Proof. induction a as [|c a IH]; appends; done. Qed.

Lemma string_length_app a b : String.length (a +:+ b) = (String.length a + String.length b)%nat.
Proof. induction a as [|c a IH]; appends; congruence. Qed.

Lemma append_assoc a b c : (a +:+ b) +:+ c = a +:+ b +:+ c.
Proof. induction a as [|x a IH]; appends; [done|by rewrite IH]. Qed.

(** The parts of a slice *)
Lemma substring_split s n :
  (n <= String.length s)%nat → s = String.substring 0 n s +:+ String.substring n (String.length s - n) s.
Proof.
  revert n. induction s as [|c s IH]; intros n Hn; cbn in Hn.
  - by assert (n = 0)%nat as -> by lia.
  - destruct n as [|n]; [cbn; by rewrite substring_all|]. cbn. rewrite append_cons. f_equal. apply IH. lia.
Qed.

(** [c] is in [s]. *)
Fixpoint has_char (c : ascii) (s : string) : bool :=
  match s with EmptyString => false | String.String c' s => Ascii.eqb c c' || has_char c s end.

Lemma has_char_app c a b : has_char c (a +:+ b) = has_char c a || has_char c b.
Proof. induction a as [|x a IH]; appends; [done|]. rewrite IH. apply orb_assoc. Qed.

(** The part after the last [c] is unique. *)
Lemma last_char_unique c a b s s' :
  has_char c s = false → has_char c s' = false →
  a +:+ String.String c s = b +:+ String.String c s' → a = b ∧ s = s'.
Proof.
  intros Hs Hs'. revert b. induction a as [|x a IH]; intros [|y b]; rewrite ?append_cons, ?append_nil;
    intros E; [by injection E|injection E as E1 E2; subst..].
  - rewrite has_char_app in Hs. cbn in Hs. rewrite Ascii.eqb_refl in Hs. by destruct (has_char _ b).
  - rewrite has_char_app in Hs'. cbn in Hs'. rewrite Ascii.eqb_refl in Hs'. by destruct (has_char _ a).
  - destruct (IH b) as [-> ->]; done.
Qed.

(** The part before the first [c] is unique. *)
Lemma first_char_unique c a b s s' :
  has_char c a = false → has_char c b = false →
  a +:+ String.String c s = b +:+ String.String c s' → a = b ∧ s = s'.
Proof.
  revert b. induction a as [|x a IH]; intros [|y b] Ha Hb E; rewrite ?append_cons, ?append_nil in E.
  - by injection E.
  - injection E as <- _. cbn in Hb. by rewrite Ascii.eqb_refl in Hb.
  - injection E as -> _. cbn in Ha. by rewrite Ascii.eqb_refl in Ha.
  - injection E as -> E. cbn in Ha, Hb. apply orb_false_iff in Ha as [_ Ha], Hb as [_ Hb].
    by destruct (IH b Ha Hb E) as [-> ->].
Qed.

Lemma append_empty_r a : a +:+ "" = a.
Proof. induction a as [|x a IH]; appends; [done|by rewrite IH]. Qed.

(** The strings one after the other *)
Definition lines (ls : list string) : string := foldr String.append "" ls.

Lemma lines_app a b : lines (a ++ b) = lines a +:+ lines b.
Proof. unfold lines. induction a as [|x a IH]; cbn; [done|]. by rewrite IH, append_assoc. Qed.

(** ** Numbers *)

(** [strconv.Itoa] and [%v] of an [int] *)
Definition Itoa (x : Z) : string := pretty x.

(** A string of digits *)
Definition is_digit (c : ascii) : bool := (48 <=? nat_of_ascii c)%nat && (nat_of_ascii c <=? 57)%nat.
Fixpoint digits (s : string) : bool :=
  match s with EmptyString => true | String c s => is_digit c && digits s end.

Lemma digits_no_char c s : is_digit c = false → digits s = true → has_char c s = false.
Proof.
  intros Hc. induction s as [|x s IH]; cbn; [done|]. intros [Hx Hs]%andb_prop. rewrite IH by done.
  destruct (Ascii.eqb_spec c x); [congruence|done].
Qed.

Definition in_int64 (x : Z) : bool := (- 2 ^ 63 <=? x) && (x <? 2 ^ 63).

(** The number that the digits [s] after the number [acc] spell *)
Fixpoint digits_value (acc : Z) (s : string) : option Z :=
  match s with
  | EmptyString => Some acc
  | String c s => if is_digit c then digits_value (acc * 10 + (Z.of_nat (nat_of_ascii c) - 48)) s else None
  end.

(** An optional sign *)
Definition cut_sign (s : string) : bool * string :=
  match s with
  | String c s' => if Ascii.eqb c "-" then (true, s') else if Ascii.eqb c "+" then (false, s') else (false, s)
  | EmptyString => (false, s)
  end.

(** [strconv.Atoi]: [None] is an error. *)
Definition Atoi (s : string) : option Z :=
  let '(neg, ds) := cut_sign s in
  if String.eqb ds "" then None else
  n ← digits_value 0 ds;
  let n := if (neg : bool) then - n else n in
  if in_int64 n then Some n else None.

(** [fmt.Sscanf] with [%d] at the end of the format: the number at the start of
    [s], after white space; the rest of [s] is not read. *)
Fixpoint skip_space (s : string) : string :=
  match s with
  | String c s' => if existsb (Nat.eqb (nat_of_ascii c)) [9; 11; 12; 13; 32]%nat then skip_space s' else s
  | EmptyString => s
  end.

Fixpoint take_digits (s : string) : string :=
  match s with
  | String c s => if is_digit c then String c (take_digits s) else ""
  | EmptyString => ""
  end.

Definition scan_d (s : string) : option Z :=
  let '(neg, ds) := cut_sign (skip_space s) in
  Atoi ((if (neg : bool) then "-" else "") +:+ take_digits ds).

(** [%0wd]: zeros up to the width [w], which counts the sign. *)
Fixpoint zeros (n : nat) : string := match n with O => "" | S n => "0" +:+ zeros n end.

Definition pad0 (w : nat) (x : Z) : string :=
  let ds := Itoa (Z.abs x) in
  if x <? 0 then "-" +:+ zeros (w - 1 - String.length ds) +:+ ds else zeros (w - String.length ds) +:+ ds.

Lemma pretty_N_digits x s : digits s = true → digits (pretty_N_go x s) = true.
Proof.
  revert s. induction (N.lt_wf_0 x) as [x _ IH]; intros s Hs.
  destruct (decide (x = 0)%N) as [->|Hx]; [by rewrite pretty_N_go_0|]. rewrite pretty_N_go_step by lia.
  apply IH; [apply N.div_lt; lia|]. cbn. rewrite Hs, andb_true_r. unfold pretty_N_char.
  assert (x `mod` 10 < 10)%N as Hm by (apply N.mod_lt; lia).
  destruct (x `mod` 10)%N as [|p]; [done|]. do 4 (destruct p; try done; try lia).
Qed.

Lemma Itoa_digits x : 0 <= x → digits (Itoa x) = true.
Proof.
  intros Hx. destruct x as [|p|p]; [done| |lia].
  change (digits (pretty_N_go (Npos p) "") = true). by apply pretty_N_digits.
Qed.

Lemma Itoa_no_dash x : 0 <= x → has_char "-" (Itoa x) = false.
Proof. intros. by apply digits_no_char, Itoa_digits. Qed.

Lemma Itoa_inj x y : Itoa x = Itoa y → x = y.
Proof. apply (inj pretty). Qed.

Lemma digits_no_slash s : digits s = true → has_char "/" s = false.
Proof. by apply digits_no_char. Qed.

Lemma dash_cons s : "-" +:+ s = String "-" s.
Proof. reflexivity. Qed.

(** ** Reading numbers back *)

Lemma pretty_N_char_value x : (x < 10)%N → is_digit (pretty_N_char x) = true ∧ Z.of_nat (nat_of_ascii (pretty_N_char x)) - 48 = Z.of_N x.
Proof. intros Hx. destruct x as [|p]; [done|]. do 4 (destruct p; try done; try lia). Qed.

Lemma pretty_N_value x s : digits_value 0 (pretty_N_go x s) = digits_value (Z.of_N x) s.
Proof.
  revert s. induction (N.lt_wf_0 x) as [x _ IH]; intros s.
  destruct (decide (x = 0)%N) as [->|Hx]; [by rewrite pretty_N_go_0|]. rewrite pretty_N_go_step by lia.
  rewrite IH by (apply N.div_lt; lia). cbn [digits_value].
  destruct (pretty_N_char_value (x `mod` 10)) as [-> ->]; [apply N.mod_lt; lia|]. f_equal.
  pose proof (N.div_mod x 10 ltac:(lia)). lia.
Qed.

Lemma Itoa_value x : 0 <= x → digits_value 0 (Itoa x) = Some x.
Proof.
  intros Hx. destruct x as [|p|p]; [done| |lia].
  change (digits_value 0 (pretty_N_go (Npos p) "") = Some (Z.pos p)). by rewrite pretty_N_value.
Qed.

Lemma Itoa_ne x : 0 <= x → Itoa x ≠ "".
Proof. intros Hx E. pose proof (Itoa_value x Hx) as Hv. rewrite E in Hv. injection Hv as <-. done. Qed.

(** A number starts with a digit. *)
Lemma Itoa_head x : 0 <= x → ∃ c s, Itoa x = String c s ∧ is_digit c = true.
Proof.
  intros Hx. pose proof (Itoa_ne x Hx). pose proof (Itoa_digits x Hx) as Hd. destruct (Itoa x) as [|c s]; [done|].
  cbn in Hd. apply andb_prop in Hd as [Hc _]. by exists c, s.
Qed.

Lemma digit_not_sign c s : is_digit c = true → cut_sign (String c s) = (false, String c s) ∧ skip_space (String c s) = String c s.
Proof.
  intros Hc. split; cbn.
  - destruct (Ascii.eqb_spec c "-") as [->|_]; [done|]. by destruct (Ascii.eqb_spec c "+") as [->|_].
  - unfold is_digit in Hc. apply andb_prop in Hc as [Hc _]. apply Nat.leb_le in Hc.
    destruct (nat_of_ascii c) as [|n] eqn:E; [lia|]. do 33 (destruct n as [|n]; [lia|]). done.
Qed.

Lemma take_digits_all s : digits s = true → take_digits s = s.
Proof. induction s as [|c s IH]; cbn; [done|]. intros [-> Hs]%andb_prop. by rewrite IH. Qed.

Lemma Atoi_Itoa x : 0 <= x < 2 ^ 63 → Atoi (Itoa x) = Some x.
Proof.
  intros Hx. destruct (Itoa_head x) as (c & s & E & Hc); [lia|]. unfold Atoi. rewrite E. destruct (digit_not_sign c s Hc) as [-> _].
  rewrite <- E. destruct (String.eqb_spec (Itoa x) "") as [Hn|_]; [by rewrite E in Hn|].
  rewrite Itoa_value by lia. cbn [mbind option_bind]. unfold in_int64.
  by rewrite (proj2 (Z.leb_le _ _)), (proj2 (Z.ltb_lt _ _)) by lia.
Qed.

Lemma scan_d_Itoa x : 0 <= x < 2 ^ 63 → scan_d (Itoa x) = Some x.
Proof.
  intros Hx. destruct (Itoa_head x) as (c & s & E & Hc); [lia|]. unfold scan_d. rewrite E. destruct (digit_not_sign c s Hc) as [Hs ->].
  rewrite Hs, <- E, take_digits_all by (apply Itoa_digits; lia). by apply Atoi_Itoa.
Qed.

(** Zeros in front do not change the value. *)
Lemma zeros_value n s : digits_value 0 (zeros n +:+ s) = digits_value 0 s.
Proof. induction n as [|n IH]; [done|]. cbn [zeros]. rewrite append_assoc, append_cons, append_nil. cbn [digits_value]. exact IH. Qed.

Lemma pad0_value w x : 0 <= x → digits_value 0 (pad0 w x) = Some x.
Proof.
  intros Hx. unfold pad0. rewrite (proj2 (Z.ltb_ge _ _)) by lia. rewrite Z.abs_eq by lia. rewrite zeros_value. by apply Itoa_value.
Qed.

Lemma zeros_digits n : digits (zeros n) = true.
Proof. by induction n. Qed.

Lemma digits_app a b : digits (a +:+ b) = digits a && digits b.
Proof. induction a as [|c a IH]; appends; [done|]. rewrite IH. apply andb_assoc. Qed.

Lemma pad0_digits w x : 0 <= x → digits (pad0 w x) = true.
Proof.
  intros Hx. unfold pad0. rewrite (proj2 (Z.ltb_ge _ _)) by lia. rewrite digits_app, zeros_digits.
  apply Itoa_digits. lia.
Qed.

(** ** Values in messages

    What the verb [%v] prints for a [bool] and for a slice or an array of [int]. *)

Definition show_bool (b : bool) : string := if b then "true" else "false".
Definition show_ints (l : list Z) : string := "[" +:+ String.concat " " (Itoa <$> l) +:+ "]".

(** [s[lo:hi]]; [None] is a panic. *)
Definition go_substring (s : string) (lo hi : nat) : option string :=
  if (lo <=? hi)%nat && (hi <=? String.length s)%nat then Some (String.substring lo (hi - lo) s) else None.

Lemma go_substring_None s lo hi : (lo <= hi)%nat → go_substring s lo hi = None ↔ (String.length s < hi)%nat.
Proof.
  intros Hlo. unfold go_substring. rewrite (proj2 (Nat.leb_le _ _) Hlo). cbn.
  destruct (Nat.leb_spec hi (String.length s)); split; intros; try done; lia.
Qed.

(** A part of a string *)
Lemma go_substring_middle a b c :
  go_substring (a +:+ b +:+ c) (String.length a) (String.length a + String.length b) = Some b.
Proof.
  unfold go_substring. rewrite !string_length_app, (proj2 (Nat.leb_le _ _)) by lia.
  rewrite (proj2 (Nat.leb_le _ _)) by lia. cbn [andb]. rewrite substring_skip.
  replace (_ + _ - _)%nat with (String.length b) by lia. by rewrite substring_app.
Qed.

(** Two numbers with a dash between them *)
Lemma pair_inj a b a' b' :
  0 <= a → 0 <= a' → Itoa a +:+ "-" +:+ Itoa b = Itoa a' +:+ "-" +:+ Itoa b' → a = a' ∧ b = b'.
Proof.
  intros Ha Ha' E. apply first_char_unique in E as [E1 E2]; [|by apply Itoa_no_dash..].
  split; by apply Itoa_inj.
Qed.

Lemma Itoa_no_space x : 0 <= x → has_char " " (Itoa x) = false.
Proof. intros. by apply digits_no_char, Itoa_digits. Qed.

(** ... followed by a space and a text *)
Lemma pair_text_inj a b s a' b' s' :
  0 <= a → 0 <= a' → 0 <= b → 0 <= b' →
  Itoa a +:+ "-" +:+ Itoa b +:+ " " +:+ s = Itoa a' +:+ "-" +:+ Itoa b' +:+ " " +:+ s' → a = a' ∧ b = b' ∧ s = s'.
Proof.
  intros Ha Ha' Hb Hb' E. apply first_char_unique in E as [E1 E]; [|by apply Itoa_no_dash..].
  apply first_char_unique in E as [E2 E3]; [|by apply Itoa_no_space..].
  split_and!; [by apply Itoa_inj..|done].
Qed.

Lemma Itoa_pos_length x : (1 <= String.length (Itoa x))%nat.
Proof.
  destruct x as [|p|p]; [cbn; lia| |change (Itoa (Zneg p)) with (String "-" (pretty (Npos p))); cbn [String.length]; lia].
  pose proof (Itoa_ne (Zpos p) ltac:(lia)). destruct (Itoa (Zpos p)); [done|cbn [String.length]; lia].
Qed.

(** ** UTF-8

    [utf8.ValidString]: the byte sequences of the Unicode standard's table of
    well-formed UTF-8, which [unicode/utf8] accepts. *)

Definition byte_in (lo hi : nat) (c : ascii) : bool := (lo <=? nat_of_ascii c)%nat && (nat_of_ascii c <=? hi)%nat.

Fixpoint valid_string (s : string) : bool :=
  match s with
  | EmptyString => true
  | String a s =>
    if byte_in 0 127 a then valid_string s else
    match s with
    | EmptyString => false
    | String b s =>
      if byte_in 194 223 a then byte_in 128 191 b && valid_string s else
      match s with
      | EmptyString => false
      | String c s =>
        if byte_in 224 239 a then
          (if byte_in 224 224 a then byte_in 160 191 b else if byte_in 237 237 a then byte_in 128 159 b else byte_in 128 191 b)
          && byte_in 128 191 c && valid_string s
        else
        match s with
        | EmptyString => false
        | String d s =>
          byte_in 240 244 a
          && (if byte_in 240 240 a then byte_in 144 191 b else if byte_in 244 244 a then byte_in 128 143 b else byte_in 128 191 b)
          && byte_in 128 191 c && byte_in 128 191 d && valid_string s
        end
      end
    end
  end.

Lemma valid_string_app s t : valid_string s = true → valid_string t = true → valid_string (s +:+ t) = true.
Proof.
  intros Hs Ht. revert Hs. remember (String.length s) as k eqn:Hk. revert s Hk.
  induction (lt_wf k) as [k _ IH]. intros s -> Hs.
  destruct s as [|a s]; [done|]. rewrite append_cons. cbn [valid_string] in *.
  destruct (byte_in 0 127 a); [apply (IH (String.length s)); [cbn; lia|done..]|].
  destruct s as [|b s]; [done|]. rewrite append_cons.
  destruct (byte_in 194 223 a).
  { apply andb_true_iff in Hs as [-> Hs]. cbn. apply (IH (String.length s)); [cbn; lia|done..]. }
  destruct s as [|c s]; [done|]. rewrite append_cons.
  destruct (byte_in 224 239 a).
  { apply andb_true_iff in Hs as [-> Hs]. cbn. apply (IH (String.length s)); [cbn; lia|done..]. }
  destruct s as [|d s]; [done|]. rewrite append_cons.
  apply andb_true_iff in Hs as [-> Hs]. cbn. apply (IH (String.length s)); [cbn; lia|done..].
Qed.

Lemma valid_lines ls : Forall (λ s, valid_string s = true) ls → valid_string (lines ls) = true.
Proof. induction 1 as [|s ls Hs _ IH]; [done|]. by apply valid_string_app. Qed.

Example valid_string_examples :
  valid_string "plain" = true
  ∧ valid_string (String "195" (String "169" "")) = true                (* é *)
  ∧ valid_string (String "237" (String "160" (String "128" ""))) = false (* a surrogate *)
  ∧ valid_string (String "255" "") = false.
Proof. by vm_compute. Qed.
