(* ===== verification/Util.v ===== *)
(** * Package [util] (labs/src/util/common.go)

    The constants and the integer helpers shared by every server of the labs. *)

From S2P Require Import Prelude.

(** Not applicable: the nil index, term, peer or vote. *)
Definition NA : Z := -1.

(** Durations are in nanoseconds, as in Go's [time.Duration]. *)
Definition Millisecond : Z := 1000000.
Definition HeartbeatsInterval : Z := 50 * Millisecond.
Definition MinTimeout : Z := 8.
Definition MaxTimeout : Z := 16.

(** The three values of [Raft.role]. *)
Inductive Role := Leader | Candidate | Follower.

#[global] Instance Role_eq_dec : EqDecision Role.
Proof. solve_decision. Defined.

Definition role_eqb (a b : Role) : bool := bool_decide (a = b).

(** The values of type [Err] that servers answer to clients; [ErrNone] is the
    empty string, Go's zero value of a string type. *)
Inductive Err :=
  | ErrNone | OK | ErrWrongLeader | ErrNoKey | ErrNotApplied | ErrTimeout
  | ErrDuplicate | ErrWrongGroup | ErrBehind.

#[global] Instance Err_eq_dec : EqDecision Err.
Proof. solve_decision. Defined.

(** The string constants *)
Definition Err_string (err : Err) : string :=
  match err with
  | ErrNone => "" | OK => "OK" | ErrWrongLeader => "ErrWrongLeader" | ErrNoKey => "ErrNoKey"
  | ErrNotApplied => "ErrNotApplied" | ErrTimeout => "ErrTimeout" | ErrDuplicate => "ErrDuplicate"
  | ErrWrongGroup => "ErrWrongGroup" | ErrBehind => "ErrBehind"
  end.

#[global] Instance Err_string_inj : Inj eq eq Err_string.
Proof. by intros [] [] [=]. Qed.

Definition Min (a b : Z) : Z := if a <? b then a else b.

Definition Max (a b : Z) : Z := if a >? b then a else b.

Fixpoint InSlice (value : Z) (slice : list Z) : bool :=
  match slice with
  | [] => false
  | v :: slice => if v =? value then true else InSlice value slice
  end.

Lemma Min_spec a b : Min a b = Z.min a b.
Proof. unfold Min. destruct (Z.ltb_spec a b); lia. Qed.

Lemma Max_spec a b : Max a b = Z.max a b.
Proof. unfold Max. destruct (a >? b) eqn:E; bools; lia. Qed.

Lemma InSlice_spec v l : InSlice v l = true ↔ v ∈ l.
Proof.
  induction l as [|x l IH]; cbn; [by rewrite elem_of_nil|].
  rewrite elem_of_cons. destruct (Z.eqb_spec x v); [naive_solver|]. rewrite IH. naive_solver.
Qed.

#[export] Hint Rewrite Min_spec Max_spec : labs_rw.

(** ** Mutexes

    [true] is locked.  [Lock] waits ([None]) while the mutex is locked; [Unlock] of
    a mutex that is not locked ends the program. *)
Definition Lock (mu : bool) : option bool := if mu then None else Some true.
Definition Unlock (mu : bool) : option bool := if mu then Some false else None.
