(* ===== verification/Logging.v ===== *)
(** * Log messages (util/log.go, raft/util.go)

    The levels that the environment sets, the functions that decide whether a
    message is printed, and the prefix of a line.  What is printed is the list of
    calls of [log.Printf], each a format with its arguments; the time since the
    start of the program is an argument. *)

From S2P Require Import Prelude GoStrings Util.
From Stdlib Require Import Ascii.

(** ** Verbosity and topics *)

Definition VCrucial : Z := 0.
Definition VBasic : Z := 1.
Definition VVerbose : Z := 2.
Definition VExcessive : Z := 3.
Definition VTemp : Z := 0.
Definition VStale : Z := 10.

Inductive LogTopic :=
  | TLeader | TAppend | TSnapshot | TCandidate | TVote | TDemotion | TTick | TCommit | TApply
  | TLogFail | TLogSuccess | TClient1 | TClient2 | TCtrler1 | TCtrler2 | TKVServer1 | TKVServer2
  | TConfig1 | TConfig2 | TTester | TError | TWarn | TTrace.

(** [string(topic)] *)
Definition topic_string (t : LogTopic) : string :=
  match t with
  | TLeader => "LEAD" | TAppend => "APND" | TSnapshot => "SNAP" | TCandidate => "CAND" | TVote => "VOTE"
  | TDemotion => "DEMO" | TTick => "TICK" | TCommit => "CMIT" | TApply => "APLY"
  | TLogFail => "LOG0" | TLogSuccess => "LOG1" | TClient1 => "CLT1" | TClient2 => "CLT2"
  | TCtrler1 => "CTR1" | TCtrler2 => "CTR2" | TKVServer1 => "KVS1" | TKVServer2 => "KVS2"
  | TConfig1 => "CNF1" | TConfig2 => "CNF2" | TTester => "TSTR" | TError => "ERRO" | TWarn => "WARN" | TTrace => "TRCE"
  end.

(** ** Levels *)

(** The package variables *)
Record LogState := MkLogState {
  verbosity : Z;
  raftVerbosity : Z;
  kvVerbosity : Z;
  ctrlrVerbosity : Z;
  testVerbosity : Z;
  log_flags : Z;
}.

(** [log.Ldate], [log.Ltime], and the flags a program starts with *)
Definition Ldate : Z := 1.
Definition Ltime : Z := 2.
Definition LstdFlags : Z := Z.lor Ldate Ltime.

Definition initial : LogState := MkLogState 0 0 0 0 0 LstdFlags.

(** [os.Getenv] is the empty string for a variable that is not set. *)
Definition Environ := string → string.

(** [getVerbosity] with the variable [verbosity]; [log.Fatalf] is [None]. *)
Definition getVerbosity (verbosity : Z) (environ : Environ) (env : string) : option Z :=
  let v := environ env in
  level ← (if negb (String.eqb v "") then Atoi v else Some 0);
  Some (if negb (level =? 0) then level else verbosity).

(** [init] *)
Definition init (s : LogState) (environ : Environ) : option LogState :=
  v ← getVerbosity (verbosity s) environ "VERBOSE";
  r ← getVerbosity v environ "RV";
  k ← getVerbosity v environ "KV";
  c ← getVerbosity v environ "CV";
  t ← getVerbosity v environ "TV";
  Some (MkLogState v r k c t (Z.ldiff (log_flags s) (Z.lor Ldate Ltime))).

(** ** Printing *)

Section printing.
Context {A : Type} (s : LogState).
(** The calls of [log.Printf] *)
Notation output := (list (string * list A)).

(** The time in microseconds; Go's integer division truncates. *)
Definition timeFlag (time : Z) : string :=
  let sec := Z.quot time 1000000 in
  let milliSec := Z.quot (Z.rem time 1000000) 1000 in
  let microSec := Z.quot (Z.rem time 1000) 100 in
  pad0 3 sec +:+ "." +:+ pad0 3 milliSec +:+ "." +:+ pad0 1 microSec.

Definition log_prefix (time : Z) (role : string) (topic : LogTopic) (peerId term : Z) : string :=
  timeFlag time +:+ " " +:+ topic_string topic +:+ " " +:+ role +:+ pad0 2 peerId +:+ " T" +:+ pad0 2 term +:+ " ".

Definition _log (out : output) (time : Z) (role : string) (topic : LogTopic) (peerId term : Z) (format : string) (a : list A) : output :=
  out ++ [(log_prefix time role topic peerId term +:+ format, a)].

Definition LogRaft (out : output) (time v : Z) (topic : LogTopic) (peerId term : Z) (format : string) (a : list A) : output :=
  if raftVerbosity s >=? v then _log out time "R" topic peerId term format a else out.

Definition LogKV (out : output) (time v : Z) (topic : LogTopic) (peerId : Z) (format : string) (a : list A) : output :=
  if kvVerbosity s >=? v then _log out time "K" topic peerId 0 format a else out.

Definition LogKVClnt (out : output) (time v : Z) (topic : LogTopic) (peerId : Z) (format : string) (a : list A) : output :=
  if kvVerbosity s >=? v then _log out time "C" topic peerId 0 format a else out.

Definition LogCtrler (out : output) (time v : Z) (topic : LogTopic) (peerId : Z) (format : string) (a : list A) : output :=
  if ctrlrVerbosity s >=? v then _log out time "S" topic peerId 0 format a else out.

Definition LogCtrlerClnt (out : output) (time v : Z) (topic : LogTopic) (peerId : Z) (format : string) (a : list A) : output :=
  if ctrlrVerbosity s >=? v then _log out time "C" topic peerId 0 format a else out.

Definition LogTest (out : output) (time v : Z) (topic : LogTopic) (peerId : Z) (format : string) (a : list A) : output :=
  if testVerbosity s >=? v then _log out time "T" topic peerId NA format a else out.

(** raft/util.go *)
Definition Debug : bool := false.
Definition DPrintf (out : output) (format : string) (a : list A) : output :=
  if Debug then out ++ [(format, a)] else out.
End printing.

(** ** What is printed *)

(** The level of a variable of the environment that holds a number, 0 when it is not set *)
Definition level_of (environ : Environ) (env : string) : option Z :=
  if String.eqb (environ env) "" then Some 0 else Atoi (environ env).

Lemma getVerbosity_level v environ env :
  getVerbosity v environ env = (λ l, if l =? 0 then v else l) <$> level_of environ env.
Proof.
  unfold getVerbosity, level_of. destruct (String.eqb (environ env) ""); cbn; [done|].
  destruct (Atoi (environ env)) as [l|]; cbn; [|done]. by destruct (l =? 0).
Qed.

(** A message of Raft is printed when its level is at most RV, or at most VERBOSE
    when RV is not set or is 0; the program ends at its start when one of the
    five variables is not a number. *)
Lemma raft_messages {A : Type} environ s (out : list (string * list A)) time v topic peerId term format a lv lr :
  init initial environ = Some s → level_of environ "VERBOSE" = Some lv → level_of environ "RV" = Some lr →
  LogRaft s out time v topic peerId term format a
  = if v <=? (if lr =? 0 then lv else lr) then out ++ [(log_prefix time "R" topic peerId term +:+ format, a)] else out.
Proof.
  unfold init. rewrite !getVerbosity_level. intros Hi Hv Hr. rewrite Hv in Hi. cbn [fmap option_fmap option_map mbind option_bind] in Hi.
  replace (if lv =? 0 then verbosity initial else lv) with lv in Hi by (destruct (Z.eqb_spec lv 0); done).
  rewrite !getVerbosity_level, Hr in Hi. cbn [fmap option_fmap option_map mbind option_bind] in Hi.
  destruct (level_of environ "KV") as [lk|]; [|done]. destruct (level_of environ "CV") as [lc|]; [|done].
  destruct (level_of environ "TV") as [lt|]; [|done]. injection Hi as <-. unfold LogRaft. cbn [raftVerbosity].
  rewrite Z.geb_leb. done.
Qed.

Lemma init_fails environ env :
  env ∈ ["VERBOSE"; "RV"; "KV"; "CV"; "TV"] → level_of environ env = None → init initial environ = None.
Proof.
  intros Hin Hn. assert (∀ v, getVerbosity v environ env = None) as Hg by (intros; by rewrite getVerbosity_level, Hn).
  unfold init. repeat (apply elem_of_cons in Hin as [->|Hin]; [|]); [..|by apply elem_of_nil in Hin];
    repeat (rewrite Hg || match goal with |- context [getVerbosity ?v environ ?e] => destruct (getVerbosity v environ e) end; cbn); done.
Qed.

(** ** The time on a line

    A line gives the time up to a tenth of a millisecond. *)

Lemma pad0_no_dot w x : 0 <= x → has_char "."%char (pad0 w x) = false.
Proof. intros. by apply digits_no_char, pad0_digits. Qed.

Lemma pad0_inj w x y : 0 <= x → 0 <= y → pad0 w x = pad0 w y → x = y.
Proof. intros Hx Hy E. pose proof (pad0_value w x Hx) as E1. rewrite E, pad0_value in E1 by done. by injection E1. Qed.

Lemma timeFlag_precision t t' : 0 <= t → 0 <= t' → timeFlag t = timeFlag t' → Z.quot t 100 = Z.quot t' 100.
Proof.
  intros Ht Ht' H. unfold timeFlag in H.
  assert (∀ x, 0 <= x → Z.quot x 100 = Z.quot x 1000000 * 10000 + Z.quot (Z.rem x 1000000) 1000 * 10 + Z.quot (Z.rem x 1000) 100) as Hsplit.
  { intros x Hx. Z.to_euclidean_division_equations. lia. }
  assert (∀ x, 0 <= x → 0 <= Z.quot x 1000000 ∧ 0 <= Z.quot (Z.rem x 1000000) 1000 ∧ 0 <= Z.quot (Z.rem x 1000) 100) as Hpos.
  { intros x Hx. Z.to_euclidean_division_equations. lia. }
  destruct (Hpos t Ht) as (Ha & Hb & Hc), (Hpos t' Ht') as (Ha' & Hb' & Hc'). rewrite (Hsplit t Ht), (Hsplit t' Ht').
  apply first_char_unique in H as [H1 H]; [|by apply pad0_no_dot..].
  apply first_char_unique in H as [H2 H3]; [|by apply pad0_no_dot..].
  apply pad0_inj in H1; [|done..]. apply pad0_inj in H2; [|done..]. apply pad0_inj in H3; [|done..].
  by rewrite H1, H2, H3.
Qed.

Example flag_of_a_second : timeFlag 1203456 = "001.203.4".
Proof. vm_compute. reflexivity. Qed.
