(* ===== verification/Labgob.v ===== *)
(** * Package [labgob] (labs/src/labgob/labgob.go): the codec interface

    [labgob] wraps the encoder and the decoder of Go's [encoding/gob].  The
    wire format of gob is not part of the sources: clients of the package are
    verified against the interface below, a pair of functions and the laws that
    gob documents for the types the labs send (registered, with exported
    fields).  [countable_codec] shows that the interface has implementations. *)

From S2P Require Import Prelude.
From stdpp Require Import countable.
From Stdlib Require Import Strings.Byte.

Abbreviation bytes := (list Byte.byte).

(** [Encode] into a fresh buffer and [Decode] from it; a decoding error is
    [None]. *)
Class GobCodec (A : Type) := {
  gob_encode : A → bytes;
  gob_decode : bytes → option A;
}.

(** What the callers rely on: decoding an encoded value yields it back, and an
    encoding is never empty (the callers use an empty buffer for "no state"). *)
Class GobLaws (A : Type) `{!GobCodec A} := {
  gob_roundtrip x : gob_decode (gob_encode x) = Some x;
  gob_nonempty x : gob_encode x ≠ [];
}.

(** ** An implementation for every countable type *)

Section countable_codec.
Context {A : Type} `{Countable A}.

Fixpoint pos_to_bytes (p : positive) : bytes :=
  match p with
  | xH => [x01]
  | xO p => x02 :: pos_to_bytes p
  | xI p => x03 :: pos_to_bytes p
  end.

Fixpoint bytes_to_pos (b : bytes) : option positive :=
  match b with
  | [x01] => Some xH
  | x02 :: b => xO <$> bytes_to_pos b
  | x03 :: b => xI <$> bytes_to_pos b
  | _ => None
  end.

Lemma bytes_to_pos_to_bytes p : bytes_to_pos (pos_to_bytes p) = Some p.
Proof. induction p as [p IH|p IH|]; cbn; [by rewrite IH|by rewrite IH|done]. Qed.

Definition countable_codec : GobCodec A := {|
  gob_encode x := pos_to_bytes (encode x);
  gob_decode b := p ← bytes_to_pos b; decode p;
|}.

Definition countable_laws : @GobLaws A countable_codec.
Proof.
  split; intros x; cbn.
  - rewrite bytes_to_pos_to_bytes; cbn. apply decode_encode.
  - destruct (encode x); discriminate.
Qed.
End countable_codec.
