(* ===== verification/LabgobCheck.v ===== *)
(** * Package [labgob]: the checks (labs/src/labgob/labgob.go)

    Before it encodes or decodes, [labgob] walks the type of the value and warns
    about fields that are not capitalized, once for each type; before it decodes,
    it walks the value and warns about parts that are not zero.  Types may be
    recursive: they are names in a table [types], and the walk ends because a type
    that is in [checked] is not walked again. *)

From S2P Require Import Prelude Util.

(** ** Types and values *)

(** What [reflect] says of a type: the fields of a struct, the element of a slice, an
    array or a pointer, key and element of a map. *)
Inductive Kind :=
  | Struct (fields : list (string * nat))
  | Elem (t : nat)
  | Map (key elem : nat)
  | Basic.

(** A value with the name of its type at the leaves; [VOther] are the kinds that
    [checkDefault1] does not look at. *)
Inductive GoValue :=
  | VStruct (fields : list (string * GoValue))
  | VNil
  | VPtr (v : GoValue)
  | VBasic (tname : string) (zero : bool)
  | VOther.

(** [checked] and [errorCount], with the warnings that were printed. *)
Record GobState := MkGobState { checked : gset nat; errorCount : Z; printed : list string }.

Section check.
(** The table of types, and [unicode.IsUpper] of the first rune of a name *)
Context (types : gmap nat Kind) (IsUpper : string → bool).
Implicit Types (s : GobState) (t : nat).

Definition kind_of t : Kind := default Basic (types !! t).

Definition warn_field s (f : string) : GobState :=
  if IsUpper f then s else MkGobState (checked s) (errorCount s + 1) (printed s ++ [f]).

(** The loop over the fields, with [check] for the recursive call *)
Fixpoint check_fields (check : nat → GobState → option GobState) (fields : list (string * nat)) s : option GobState :=
  match fields with
  | [] => Some s
  | (f, t) :: fields =>
    s ← check t (warn_field s f);
    check_fields check fields s
  end.

Fixpoint checkType (fuel : nat) t s : option GobState :=
  match fuel with
  | O => None
  | S fuel =>
    if decide (t ∈ checked s) then Some s
    else
      let s := MkGobState ({[t]} ∪ checked s) (errorCount s) (printed s) in
      match kind_of t with
      | Struct fields => check_fields (checkType fuel) fields s
      | Elem e => checkType fuel e s
      | Map k e => s ← checkType fuel e s; checkType fuel k s
      | Basic => Some s
      end
  end.

(** Enough for every walk *)
Definition check_fuel : nat := S (size types).

Definition checkValue t s : option GobState := checkType check_fuel t s.

(** [checkDefault1] at depth [4 - fuel]; the loop over the fields is [walk]. *)
Fixpoint checkDefault1 (fuel : nat) (v : GoValue) (name : string) s : GobState :=
  match fuel with
  | O => s
  | S fuel =>
    match v with
    | VStruct fields =>
      foldl (λ s (fv : string * GoValue),
        let name1 := if bool_decide (name = ""%string) then fv.1 else (name +:+ "." +:+ fv.1) in
        checkDefault1 fuel fv.2 name1 s) s fields
    | VPtr v => checkDefault1 fuel v name s
    | VBasic tname zero =>
      if zero then s
      else
        let what := if bool_decide (name = ""%string) then tname else name in
        MkGobState (checked s) (errorCount s + 1) (if errorCount s <? 1 then printed s ++ [what] else printed s)
    | VNil | VOther => s
    end
  end.

Definition checkDefault (v : GoValue) s : GobState := checkDefault1 3 v "" s.

(** [Encode], [EncodeValue], [Register] and [RegisterName] check the type; [Decode]
    checks both. *)
Definition gob_Encode t s : option GobState := checkValue t s.
Definition gob_Decode t (v : GoValue) s : option GobState := s ← checkValue t s; Some (checkDefault v s).

(** ** The walk of a type *)

Definition succs t : list nat :=
  match kind_of t with
  | Struct fields => fields.*2
  | Elem e => [e]
  | Map k e => [e; k]
  | Basic => []
  end.

(** The names of the fields of [t] that are not capitalized *)
Definition lower_fields t : list string :=
  match kind_of t with Struct fields => filter (λ f, IsUpper f = false) fields.*1 | _ => [] end.

(** [t'] is part of [t]. *)
Definition part_of : relation nat := λ t' t, t' ∈ succs t.
Definition reaches t t' : Prop := rtc (flip part_of) t t'.

(** [s'] comes from [s] by walking the types [new] and warning about [extra]. *)
Record walked s s' (new : list nat) (extra : list string) : Prop := Walked {
  wk_nodup : NoDup new;
  wk_fresh t : t ∈ new → t ∉ checked s;
  wk_checked : checked s' = list_to_set new ∪ checked s;
  wk_count : errorCount s' = errorCount s + go_len (extra ++ concat (lower_fields <$> new));
  wk_printed : printed s' ≡ₚ printed s ++ extra ++ concat (lower_fields <$> new);
  wk_closed t t' : t ∈ new → t' ∈ succs t → t' ∈ checked s';
}.

Lemma walked_refl s : walked s s [] [].
Proof. split; cbn; try set_solver; [constructor|unfold go_len; cbn; lia|by rewrite app_nil_r]. Qed.

Lemma walked_trans s1 s2 s3 new new' ex ex' : walked s1 s2 new ex → walked s2 s3 new' ex' → walked s1 s3 (new ++ new') (ex ++ ex').
Proof.
  intros [N1 F1 C1 E1 P1 K1] [N2 F2 C2 E2 P2 K2]. split.
  - apply NoDup_app. set_solver.
  - set_solver.
  - rewrite C2, C1. rewrite list_to_set_app_L. set_solver.
  - rewrite E2, E1, fmap_app, concat_app. unfold go_len. rewrite !length_app. lia.
  - rewrite P2, P1, fmap_app, concat_app. solve_Permutation.
  - set_solver.
Qed.

Lemma walked_warn s f : walked s (warn_field s f) [] (if IsUpper f then [] else [f]).
Proof.
  unfold warn_field. destruct (IsUpper f); [apply walked_refl|].
  split; cbn; [constructor|set_solver|set_solver|unfold go_len; cbn; lia|done|set_solver].
Qed.

(** The walk of one type, given that of its parts *)
Lemma walked_node s s' t new : t ∉ checked s →
  walked (MkGobState ({[t]} ∪ checked s) (errorCount s) (printed s)) s' new (lower_fields t) →
  (∀ t', t' ∈ succs t → t' ∈ checked s') → walked s s' (t :: new) [].
Proof.
  intros Ht [N F C E P K] Hs. cbn in *. split.
  - constructor; [|done]. intros Hin. apply (F t) in Hin. set_solver.
  - set_solver.
  - rewrite C. cbn. set_solver.
  - done.
  - done.
  - intros t1 t2 [->|Hin]%elem_of_cons; [apply Hs|by apply K].
Qed.

Lemma check_fields_walked check fields s s' :
  (∀ t s s', t ∈ fields.*2 → check t s = Some s' → (∃ new, walked s s' new [] ∧ ∀ x, x ∈ new → reaches t x) ∧ t ∈ checked s') →
  check_fields check fields s = Some s' →
  ∃ new, walked s s' new (filter (λ f, IsUpper f = false) fields.*1)
    ∧ (∀ x, x ∈ new → ∃ t, t ∈ fields.*2 ∧ reaches t x) ∧ ∀ t, t ∈ fields.*2 → t ∈ checked s'.
Proof.
  revert s. induction fields as [|[f t] fields IH]; intros s Hc E; cbn in E.
  - simplify_eq. exists []. split; [apply walked_refl|set_solver].
  - apply bind_Some in E as (s1 & E1 & E).
    destruct (Hc _ _ _ ltac:(by left) E1) as [(new1 & Hw1 & Hr1) Ht1].
    destruct (IH s1) as (new & Hw & Hr & Hts); [intros; apply Hc; [by right|done]|done|].
    exists (new1 ++ new). split_and!.
    + rewrite fmap_cons, filter_cons. cbn [fst]. replace (if decide (IsUpper f = false) then _ else _)
        with ((if IsUpper f then [] else [f]) ++ [] ++ filter (λ f, IsUpper f = false) fields.*1) by by destruct (IsUpper f).
      apply (walked_trans s (warn_field s f) s' [] (new1 ++ new)); [apply walked_warn|]. by eapply walked_trans.
    + intros x [Hx|Hx]%elem_of_app; cbn; [exists t; split; [by left|by apply Hr1]|].
      destruct (Hr x Hx) as (t' & ? & ?). exists t'. split; [by right|done].
    + cbn. intros t' [->|Hin]%elem_of_cons; [|by apply Hts]. rewrite (wk_checked _ _ _ _ Hw). set_solver.
Qed.

Lemma reaches_step t t' x : t' ∈ succs t → reaches t' x → reaches t x.
Proof. intros. by eapply rtc_l. Qed.

Lemma checkType_walked fuel t s s' : checkType fuel t s = Some s' →
  (∃ new, walked s s' new [] ∧ ∀ x, x ∈ new → reaches t x) ∧ t ∈ checked s'.
Proof.
  revert t s s'. induction fuel as [|fuel IH]; intros t s s' E; cbn in E; [done|].
  destruct (decide (t ∈ checked s)) as [Ht|Ht]; [simplify_eq; split; [exists []; split; [apply walked_refl|set_solver]|done]|].
  set (s0 := MkGobState ({[t]} ∪ checked s) (errorCount s) (printed s)) in *.
  assert (∃ new, walked s0 s' new (lower_fields t) ∧ (∀ x, x ∈ new → ∃ t', t' ∈ succs t ∧ reaches t' x)
    ∧ ∀ t', t' ∈ succs t → t' ∈ checked s') as (new & Hw & Hr & Hs).
  { unfold lower_fields, succs. destruct (kind_of t) as [fields|e|k e|].
    - apply (check_fields_walked (checkType fuel)); [|done]. intros. by eapply IH.
    - destruct (IH _ _ _ E) as [(new & Hw & Hr) He]. exists new. split_and!; [done| |set_solver].
      intros x Hx. exists e. split; [by left|by apply Hr].
    - apply bind_Some in E as (s1 & E1 & E). destruct (IH _ _ _ E1) as [(new1 & Hw1 & Hr1) He], (IH _ _ _ E) as [(new2 & Hw2 & Hr2) Hk].
      exists (new1 ++ new2). split_and!; [by apply (walked_trans _ s1 _ _ _ [] [])| |].
      + intros x [Hx|Hx]%elem_of_app; [exists e; split; [by left|by apply Hr1]|exists k; split; [by right; left|by apply Hr2]].
      + intros t' [->|[->|[]%elem_of_nil]%elem_of_cons]%elem_of_cons; [|done]. rewrite (wk_checked _ _ _ _ Hw2). set_solver.
    - simplify_eq. exists []. split_and!; [apply walked_refl|set_solver|set_solver]. }
  split; [|rewrite (wk_checked _ _ _ _ Hw); set_solver].
  exists (t :: new). split; [by apply walked_node|].
  intros x [->|Hx]%elem_of_cons; [apply rtc_refl|]. destruct (Hr x Hx) as (t' & ? & ?). by eapply reaches_step.
Qed.

(** ** The walk ends *)

Definition unchecked s : nat := size (dom types ∖ checked s).

Lemma unchecked_mono s s' : checked s ⊆ checked s' → (unchecked s' <= unchecked s)%nat.
Proof. intros. unfold unchecked. apply subseteq_size. set_solver. Qed.

Lemma unchecked_add s t : t ∈ dom types → t ∉ checked s →
  (unchecked (MkGobState ({[t]} ∪ checked s) (errorCount s) (printed s)) < unchecked s)%nat.
Proof. intros. unfold unchecked. apply subset_size. cbn. set_solver. Qed.

Lemma check_fields_total fuel fields s : (unchecked s < fuel)%nat →
  (∀ t s, (unchecked s < fuel)%nat → is_Some (checkType fuel t s)) → is_Some (check_fields (checkType fuel) fields s).
Proof.
  intros Hs Hc. revert s Hs. induction fields as [|[f t] fields IH]; intros s Hs; cbn; [by eexists|].
  assert (unchecked (warn_field s f) = unchecked s) as Hw by (unfold warn_field; by destruct (IsUpper f)).
  destruct (Hc t (warn_field s f) ltac:(lia)) as [s1 E]. rewrite E. cbn. apply IH.
  apply checkType_walked in E as [(new & Hwk & _) _].
  pose proof (unchecked_mono (warn_field s f) s1) as Hm. rewrite (wk_checked _ _ _ _ Hwk) in Hm. specialize (Hm ltac:(set_solver)). lia.
Qed.

Lemma checkType_total fuel t s : (unchecked s < fuel)%nat → is_Some (checkType fuel t s).
Proof.
  revert t s. induction fuel as [|fuel IH]; intros t s Hs; [lia|]. cbn [checkType].
  destruct (decide (t ∈ checked s)) as [|Ht]; [by eexists|].
  destruct (decide (t ∈ dom types)) as [Hd|Hd].
  2:{ unfold kind_of. apply not_elem_of_dom in Hd. rewrite Hd. by eexists. }
  pose proof (unchecked_add s t Hd Ht) as Hlt. set (s0 := MkGobState _ _ _) in *.
  destruct (kind_of t) as [fields|e|k e|]; [by apply check_fields_total; [lia|]|by apply IH; lia| |by eexists].
  destruct (IH e s0 ltac:(lia)) as [s1 E]. rewrite E. cbn. apply IH.
  apply checkType_walked in E as [(new & Hwk & _) _].
  pose proof (unchecked_mono s0 s1) as Hm. rewrite (wk_checked _ _ _ _ Hwk) in Hm. specialize (Hm ltac:(set_solver)). lia.
Qed.

(** The parts of every checked type are checked: so it is between two calls. *)
Definition closed s : Prop := ∀ t t', t ∈ checked s → t' ∈ succs t → t' ∈ checked s.

Lemma closed_reaches s t t' : closed s → reaches t t' → t ∈ checked s → t' ∈ checked s.
Proof. intros Hc Hr. induction Hr as [|t t1 t' Ht _ IH]; [done|]. intros Hin. by apply IH, (Hc t). Qed.

(** C29: the warnings of labgob.  Whatever the types, recursive ones included, the
    check of a type ends; afterwards exactly the types that are part of it have been
    checked in addition; there is one error for each field of these types that is
    not capitalized, and types checked before give none again.  The check is taken as
    one step here; [concurrent_checks] is about checks that overlap. *)
Theorem checkType_correct t s : closed s →
  ∃ s' new, checkValue t s = Some s' ∧ closed s' ∧ NoDup new
    ∧ (∀ x, x ∈ new ↔ reaches t x ∧ x ∉ checked s)
    ∧ checked s' = list_to_set new ∪ checked s
    ∧ errorCount s' = errorCount s + go_len (concat (lower_fields <$> new))
    ∧ printed s' ≡ₚ printed s ++ concat (lower_fields <$> new).
Proof.
  intros Hc. destruct (checkType_total check_fuel t s) as [s' E].
  { unfold check_fuel, unchecked. apply Nat.lt_succ_r. rewrite <- size_dom. apply subseteq_size. set_solver. }
  destruct (checkType_walked _ _ _ _ E) as [(new & Hw & Hr) Ht]. pose proof Hw as [N F C Er P K].
  assert (closed s') as Hc'.
  { intros x y. rewrite C. intros [Hx%elem_of_list_to_set|Hx]%elem_of_union Hy; [by rewrite <- C; eapply K|].
    apply elem_of_union. right. by eapply Hc. }
  exists s', new. split_and!; try done. intros x. split.
  - intros Hx. split; [by apply Hr|by apply F].
  - intros [Hrx Hx]. pose proof (closed_reaches s' t x Hc' Hrx Ht) as Hin. rewrite C in Hin. set_solver.
Qed.

(** ** Checks that overlap

    [checkType] holds the lock while it looks at [checked] and marks the type, and while
    it counts an error, but not in between: goroutines that check types at the same
    time take turns there.  A goroutine is the list of what it has still to do. *)
Inductive Work := WType (t : nat) | WField (f : string).

(** What is left of a type when it is marked *)
Definition parts t : list Work :=
  match kind_of t with
  | Struct fields => concat ((λ ft : string * nat, [WField ft.1; WType ft.2]) <$> fields)
  | Elem e => [WType e]
  | Map k e => [WType e; WType k]
  | Basic => []
  end.

Definition do_work (w : Work) s : list Work * GobState :=
  match w with
  | WType t =>
    if decide (t ∈ checked s) then ([], s) else (parts t, MkGobState ({[t]} ∪ checked s) (errorCount s) (printed s))
  | WField f => ([], warn_field s f)
  end.

Inductive check_step : relation (list (list Work) * GobState) :=
  | check_step_at k w rest ths s : ths !! k = Some (w :: rest) →
      check_step (ths, s) (<[k := (do_work w s).1 ++ rest]> ths, (do_work w s).2).

(** [checkType] is what a goroutine does that nobody interrupts. *)
Lemma check_fields_steps check fields rest s s' :
  (∀ t s s' rest, check t s = Some s' → rtc check_step ([WType t :: rest], s) ([rest], s')) →
  check_fields check fields s = Some s' →
  rtc check_step ([concat ((λ ft : string * nat, [WField ft.1; WType ft.2]) <$> fields) ++ rest], s) ([rest], s').
Proof.
  intros Hc. revert s. induction fields as [|[f t] fields IH]; intros s E; cbn in E; [injection E as ->; apply rtc_refl|].
  apply bind_Some in E as (s1 & E1 & E2). cbn. eapply rtc_l; [by apply (check_step_at 0)|]. cbn.
  etrans; [by apply Hc|]. by apply IH.
Qed.

Lemma checkType_steps fuel t s s' rest : checkType fuel t s = Some s' → rtc check_step ([WType t :: rest], s) ([rest], s').
Proof.
  revert t s s' rest. induction fuel as [|fuel IH]; intros t s s' rest E; cbn in E; [done|].
  eapply rtc_l; [by apply (check_step_at 0)|]. cbn. destruct (decide (t ∈ checked s)); [injection E as ->; apply rtc_refl|].
  cbn. unfold parts. destruct (kind_of t) as [fields|e|k e|]; cbn.
  - by eapply check_fields_steps.
  - by apply IH.
  - apply bind_Some in E as (s1 & E1 & E2). etrans; by apply IH.
  - injection E as <-. apply rtc_refl.
Qed.

Definition warns (ws : list Work) : list string :=
  omap (λ w, match w with WField f => if IsUpper f then None else Some f | WType _ => None end) ws.

Lemma parts_spec t : warns (parts t) = lower_fields t ∧ ∀ t', WType t' ∈ parts t ↔ t' ∈ succs t.
Proof.
  unfold parts, lower_fields, succs. destruct (kind_of t) as [fields|e|k e|]; [|split; [done|set_solver]..].
  induction fields as [|[f t1] fields [IH1 IH2]]; [split; [done|set_solver]|].
  rewrite !fmap_cons. cbn [concat fst snd]. split.
  - rewrite filter_cons, <- IH1. unfold warns. cbn. by destruct (IsUpper f).
  - intros t'. rewrite elem_of_app, IH2, !elem_of_cons, elem_of_nil. naive_solver.
Qed.

(** The checks of [ts] have begun in [s0] and have [pend] to do. *)
Record walking s0 (ts : list nat) s (pend : list Work) (new : list nat) : Prop := {
  wg_nodup : NoDup new;
  wg_fresh t : t ∈ new → t ∉ checked s0;
  wg_checked : checked s = list_to_set new ∪ checked s0;
  wg_count : errorCount s + go_len (warns pend) = errorCount s0 + go_len (concat (lower_fields <$> new));
  wg_printed : printed s ++ warns pend ≡ₚ printed s0 ++ concat (lower_fields <$> new);
  wg_reach t : t ∈ new ∨ WType t ∈ pend → ∃ t0, t0 ∈ ts ∧ reaches t0 t;
  wg_closed t t' : t ∈ new → t' ∈ succs t → t' ∈ checked s ∨ WType t' ∈ pend;
  wg_roots t : t ∈ ts → t ∈ checked s ∨ WType t ∈ pend;
}.

#[local] Instance warns_perm : Proper ((≡ₚ) ==> (≡ₚ)) warns.
Proof. intros l l' H. unfold warns. induction H; cbn; repeat case_match; eauto using perm_skip, perm_swap, perm_trans. Qed.

Lemma walking_perm s0 ts s pend pend' new : pend ≡ₚ pend' → walking s0 ts s pend new → walking s0 ts s pend' new.
Proof.
  intros Hp [N F C E P R K T]. split; try done.
  - unfold go_len in *. by rewrite <- Hp.
  - by rewrite <- Hp.
  - intros t. rewrite <- Hp. apply R.
  - intros t t'. rewrite <- Hp. apply K.
  - intros t. rewrite <- Hp. apply T.
Qed.

Lemma walking_step s0 ts s w rest new : walking s0 ts s (w :: rest) new →
  ∃ new', walking s0 ts (do_work w s).2 ((do_work w s).1 ++ rest) new'.
Proof.
  intros [N F C E P R K T]. destruct w as [t|f]; cbn.
  - destruct (decide (t ∈ checked s)) as [Ht|Ht]; cbn.
    + exists new. split; try done.
      * intros x Hx. apply R. set_solver.
      * intros x y Hx Hy. destruct (K x y Hx Hy) as [?|[[= ->]|?]%elem_of_cons]; auto.
      * intros x Hx. destruct (T x Hx) as [?|[[= ->]|?]%elem_of_cons]; auto.
    + destruct (parts_spec t) as [Hw Hs]. exists (t :: new). cbn in E, P.
      split; cbn [checked errorCount printed].
      * constructor; [set_solver|done].
      * set_solver.
      * rewrite C. cbn. set_solver.
      * unfold warns in *. rewrite omap_app. unfold warns in Hw. rewrite Hw. cbn. unfold go_len in *. rewrite !length_app. lia.
      * unfold warns in *. rewrite omap_app, Hw. cbn. rewrite (Permutation_app_comm (lower_fields t)), (assoc_L (++)), P. solve_Permutation.
      * intros x [[->|Hx]%elem_of_cons|[Hx%Hs|Hx]%elem_of_app].
        -- apply R. right. by left.
        -- apply R. by left.
        -- destruct (R t) as (t0 & ? & ?); [right; by left|]. exists t0. split; [done|]. by eapply rtc_r.
        -- apply R. right. by right.
      * intros x y [->|Hx]%elem_of_cons Hy; [right; apply elem_of_app; left; by apply Hs|].
        destruct (K x y Hx Hy) as [?|[[= ->]|?]%elem_of_cons]; [left; set_solver|left; set_solver|right; set_solver].
      * intros x Hx. destruct (T x Hx) as [?|[[= ->]|?]%elem_of_cons]; [left; set_solver|left; set_solver|right; set_solver].
  - exists new. unfold warn_field.
    assert (warns (WField f :: rest) = (if IsUpper f then [] else [f]) ++ warns rest) as Hw by (unfold warns; cbn; by destruct (IsUpper f)).
    rewrite Hw in E, P.
    assert (∀ x, WType x ∈ WField f :: rest ↔ WType x ∈ rest) as Hx by (intros x; rewrite elem_of_cons; naive_solver).
    destruct (IsUpper f); split; cbn; try done;
      try (intros x; rewrite <- Hx; exact (R x) || exact (T x)); try (intros x y; rewrite <- Hx; exact (K x y)).
    + rewrite go_len_app in E. unfold go_len in E at 1. cbn [length] in E. lia.
    + by rewrite <- (assoc_L (++)).
Qed.

Lemma concat_step (ths : list (list Work)) k w rest new : ths !! k = Some (w :: rest) →
  ∃ others, concat ths ≡ₚ w :: others ∧ concat (<[k := new ++ rest]> ths) ≡ₚ new ++ others.
Proof.
  intros Hk. exists (rest ++ concat (take k ths) ++ concat (drop (S k) ths)).
  pose proof (lookup_lt_Some _ _ _ Hk). rewrite <- (take_drop_middle ths k _ Hk) at 1. rewrite insert_take_drop by done.
  rewrite !concat_app. cbn. split; solve_Permutation.
Qed.

(** Whatever the interleaving, checks that overlap do together what one after the other
    does: when all are through, exactly the types that are part of one of those checked
    have been checked in addition, and there is one error for each of their fields
    that is not capitalized. *)
Theorem concurrent_checks s0 ts ths s : closed s0 →
  rtc check_step ((λ t, [WType t]) <$> ts, s0) (ths, s) → Forall (λ th, th = []) ths →
  ∃ new, NoDup new ∧ (∀ x, x ∈ new ↔ (∃ t, t ∈ ts ∧ reaches t x) ∧ x ∉ checked s0)
    ∧ closed s ∧ checked s = list_to_set new ∪ checked s0
    ∧ errorCount s = errorCount s0 + go_len (concat (lower_fields <$> new))
    ∧ printed s ≡ₚ printed s0 ++ concat (lower_fields <$> new).
Proof.
  intros Hc Hr Hdone.
  assert (∃ new, walking s0 ts s (concat ths) new) as (new & [N F C E P R K T]).
  { remember (ths, s) as c eqn:Ec. assert (∃ new, walking s0 ts c.2 (concat c.1) new) as Hw; [|by rewrite Ec in Hw].
    clear Ec Hdone. revert c Hr. apply (rtc_ind_r (λ c, ∃ new, walking s0 ts c.2 (concat c.1) new)).
    - exists []. cbn. assert (concat ((λ t, [WType t]) <$> ts) = WType <$> ts) as -> by (induction ts as [|t ts' IH]; cbn; [done|by rewrite IH]).
      assert (warns (WType <$> ts) = []) as Hw by (clear; induction ts as [|t ts' IH]; [done|exact IH]).
      split; rewrite ?Hw; try done; [constructor|by intros ? ?%elem_of_nil|set_solver| |by intros ? ? ?%elem_of_nil|].
      + intros t [?%elem_of_nil|(t' & [= ->] & Ht)%list_elem_of_fmap]; [done|]. exists t'. split; [done|apply rtc_refl].
      + intros t Ht. right. by apply list_elem_of_fmap_2.
    - intros c1 c2 _ Hs (new & Hw). destruct Hs as [k w rest ths1 s1 Hk]. cbn in *.
      destruct (concat_step ths1 k w rest (do_work w s1).1 Hk) as (others & H1 & H2).
      destruct (walking_step s0 ts s1 w others new) as [new' Hw']; [by eapply walking_perm|]. exists new'. by eapply walking_perm. }
  assert (concat ths = []) as Hnil by (clear -Hdone; induction Hdone as [|th ths' -> _ IH]; [done|exact IH]). rewrite Hnil in *.
  assert (closed s) as Hc'.
  { intros x y. rewrite C at 1. intros [Hx%elem_of_list_to_set|Hx]%elem_of_union Hy; [by destruct (K x y Hx Hy) as [?|?%elem_of_nil]|].
    rewrite C. apply elem_of_union. right. by eapply Hc. }
  exists new. split_and!; try done.
  - intros x. split; [intros Hx; split; [apply R; by left|by apply F]|]. intros [(t & Ht & Hrx) Hx].
    destruct (T t Ht) as [Hin|?%elem_of_nil]; [|done]. pose proof (closed_reaches s t x Hc' Hrx Hin) as Hin'. rewrite C in Hin'. set_solver.
  - unfold go_len in *. cbn in E. lia.
  - cbn in P. by rewrite app_nil_r in P.
Qed.

(** They end. *)
Theorem concurrent_checks_end c : Acc (flip check_step) c.
Proof.
  remember (unchecked c.2) as u eqn:Hu. revert c Hu. induction (lt_wf u) as [u _ IHu].
  intros [ths s]. remember (length (concat ths)) as m eqn:Hm. revert ths s Hm. induction (lt_wf m) as [m _ IHm].
  intros ths s Hm Hu. cbn in Hu. constructor. intros c' Hs. unfold flip in Hs.
  inversion Hs as [k w rest ths1 s1 Hk]; subst ths1 s1 c'.
  destruct (concat_step ths k w rest (do_work w s).1 Hk) as (others & H1 & H2). apply Permutation_length in H1, H2.
  cbn in H1. rewrite length_app in H2. destruct w as [t|f]; cbn in *.
  - destruct (decide (t ∈ checked s)) as [Ht|Ht]; cbn in *; [eapply IHm; [|done|done]; lia|].
    destruct (decide (t ∈ dom types)) as [Hd|Hd].
    + eapply IHu; [|done]. cbn. rewrite Hu. by apply unchecked_add.
    + assert (parts t = []) as Hp by (unfold parts, kind_of; apply not_elem_of_dom in Hd; by rewrite Hd). rewrite Hp in *. cbn in *.
      eapply IHm; [|done|]; [lia|]. cbn. rewrite Hu. unfold unchecked. f_equal. cbn. set_solver.
  - eapply IHm; [|done|]; [lia|]. rewrite Hu. unfold warn_field. by destruct (IsUpper f).
Qed.

(** ** The walk of a value *)

(** Every part that the walk looks at is zero. *)
Fixpoint zero_value (v : GoValue) : bool :=
  match v with
  | VStruct fields => forallb (λ fv : string * GoValue, zero_value fv.2) fields
  | VPtr v => zero_value v
  | VBasic _ zero => zero
  | VNil | VOther => true
  end.

(** Decoding into a zero variable gives no warning. *)
Lemma checkDefault1_zero fuel v name s : zero_value v = true → checkDefault1 fuel v name s = s.
Proof.
  revert v name s. induction fuel as [|fuel IH]; intros v name s Hz; [done|]. cbn.
  destruct v as [fields| |v|tname zero|]; try done; [|by apply IH|by cbn in Hz; rewrite Hz].
  cbn in Hz. induction fields as [|[f v] fields IHf]; [done|]. cbn in Hz. apply andb_prop in Hz as [H1 H2].
  cbn. rewrite IH by done. by apply IHf.
Qed.
End check.

(** ** The messages of Raft

    The types of raft/rpc.go and raft/raft.go that are sent: their fields are
    capitalized, and checking them gives no warning. *)
Definition first_upper (f : string) : bool :=
  match f with String.String c _ => (65 <=? Ascii.nat_of_ascii c)%nat && (Ascii.nat_of_ascii c <=? 90)%nat | _ => false end.

Definition raft_types : gmap nat Kind := {[
  0 := Basic;
  1 := Struct [("Command", 9); ("Index", 0); ("Term", 0)]%nat;
  2 := Elem 1;
  3 := Struct [("LastIncludedIndex", 0); ("LastIncludedTerm", 0); ("Data", 8)]%nat;
  4 := Struct [("Term", 0); ("CandidateId", 0); ("LastLogIndex", 0); ("LastLogTerm", 0)]%nat;
  5 := Struct [("Term", 0); ("LeaderId", 0); ("PrevLogIndex", 0); ("PrevLogTerm", 0); ("Entries", 2); ("LeaderCommit", 0)]%nat;
  6 := Struct [("Term", 0); ("Success", 0); ("ConflictTerm", 0); ("ConflictFirstIndex", 0)]%nat;
  7 := Struct [("Term", 0); ("LeaderId", 0); ("Snapshot", 3)]%nat;
  8 := Elem 0;
  10 := Struct [("Term", 0); ("VoteGranted", 0)]%nat
]}%nat.

Definition gob_start : GobState := MkGobState ∅ 0 [].

Lemma checkType_correct_witness :
  closed raft_types gob_start
  ∧ ∃ s' new, checkValue raft_types first_upper 5 gob_start = Some s' ∧ errorCount s' = 0 + go_len (concat (lower_fields raft_types first_upper <$> new))
      ∧ (1%nat ∈ new ↔ reaches raft_types 5 1 ∧ 1%nat ∉ checked gob_start).
Proof.
  assert (closed raft_types gob_start) as Hc by (intros t t' []%elem_of_empty).
  split; [exact Hc|].
  destruct (checkType_correct raft_types first_upper 5 gob_start Hc) as (s' & new & E & _ & _ & Hn & _ & Her & _).
  exists s', new. split; [exact E|]. split; [exact Her|apply Hn].
Defined.

Example raft_messages_capitalized :
  errorCount <$> (foldl (λ os t, s ← os; checkValue raft_types first_upper t s) (Some gob_start) [4; 10; 5; 6; 7]%nat) = Some 0.
Proof. vm_compute. reflexivity. Qed.
