(* ===== verification/RaftState.v ===== *)
(** * Package [raft]: data types and the state of a peer

    The types of labs/src/raft/raft.go and rpc.go, the persister, the [Raft]
    struct with one setter per field, and the helper methods that read or trim
    the log.  [C] is the type of the dynamic values stored in a Go
    [interface{}]; [None] is the nil interface. *)

From S2P Require Import Prelude Util Labgob.

(** ** Log entries, snapshots, apply messages *)

Record LogEntry (C : Type) := MkLogEntry {
  Command : option C;
  Index : Z;
  Term : Z;
}.
Arguments MkLogEntry {C} _ _ _.
Arguments Command {C} _.
Arguments Index {C} _.
Arguments Term {C} _.

#[global] Instance LogEntry_eq_dec {C} `{EqDecision C} : EqDecision (LogEntry C).
Proof. solve_decision. Defined.

(** Go's zero value of the struct, which [make([]LogEntry, n)] stores. *)
Definition zeroEntry {C} : LogEntry C := MkLogEntry None 0 0.

Record Snapshot := MkSnapshot {
  LastIncludedIndex : Z;
  LastIncludedTerm : Z;
  Data : bytes;
}.

Record ApplyMsg (C : Type) := MkApplyMsg {
  CommandValid : bool;
  MsgCommand : option C;
  CommandIndex : Z;
  SnapshotValid : bool;
  MsgSnapshot : bytes;
  SnapshotTerm : Z;
  SnapshotIndex : Z;
}.
Arguments MkApplyMsg {C} _ _ _ _ _ _ _.
Arguments CommandValid {C} _.
Arguments MsgCommand {C} _.
Arguments CommandIndex {C} _.
Arguments SnapshotValid {C} _.
Arguments MsgSnapshot {C} _.
Arguments SnapshotTerm {C} _.
Arguments SnapshotIndex {C} _.

(** ** RPC arguments and replies (rpc.go) *)

Record RequestVoteArgs := MkRequestVoteArgs {
  rv_Term : Z;
  rv_CandidateId : Z;
  rv_LastLogIndex : Z;
  rv_LastLogTerm : Z;
}.

Record RequestVoteReply := MkRequestVoteReply {
  rvr_Term : Z;
  rvr_VoteGranted : bool;
}.

Record AppendEntriesArgs (C : Type) := MkAppendEntriesArgs {
  ae_Term : Z;
  ae_LeaderId : Z;
  ae_PrevLogIndex : Z;
  ae_PrevLogTerm : Z;
  ae_Entries : list (LogEntry C);
  ae_LeaderCommit : Z;
}.
Arguments MkAppendEntriesArgs {C} _ _ _ _ _ _.
Arguments ae_Term {C} _.
Arguments ae_LeaderId {C} _.
Arguments ae_PrevLogIndex {C} _.
Arguments ae_PrevLogTerm {C} _.
Arguments ae_Entries {C} _.
Arguments ae_LeaderCommit {C} _.

Record AppendEntriesReply := MkAppendEntriesReply {
  aer_Term : Z;
  aer_Success : bool;
  aer_ConflictTerm : Z;
  aer_ConflictFirstIndex : Z;
}.

Record InstallSnapshotArgs := MkInstallSnapshotArgs {
  is_Term : Z;
  is_LeaderId : Z;
  is_Snapshot : Snapshot;
}.

Record InstallSnapshotReply := MkInstallSnapshotReply {
  isr_Term : Z;
}.

(** ** The persister (persister.go)

    A nil and an empty byte slice are not distinguished: every reader tests the
    length. *)

Record Persister := MkPersister {
  raftstate : bytes;
  psnapshot : bytes;
}.

Definition MakePersister : Persister := MkPersister [] [].
Definition Copy (ps : Persister) : Persister := MkPersister (raftstate ps) (psnapshot ps).
Definition SaveRaftState (ps : Persister) (state : bytes) : Persister :=
  MkPersister state (psnapshot ps).
Definition ReadRaftState (ps : Persister) : bytes := raftstate ps.
Definition RaftStateSize (ps : Persister) : Z := go_len (raftstate ps).
Definition SaveStateAndSnapshot (ps : Persister) (state snapshot : bytes) : Persister :=
  MkPersister state snapshot.
Definition ReadSnapshot (ps : Persister) : bytes := psnapshot ps.
Definition SnapshotSize (ps : Persister) : Z := go_len (psnapshot ps).

(** ** The Raft peer

    [applier] is the program point of the goroutine [apply]; it stands for the
    wait queue of [applyCond] as well: the goroutine is parked on the condition
    variable exactly at [PWait]. *)

Inductive ApplyPC := PTop | PAfterSnapshot | PAfterCommand | PWait | PExit.

#[global] Instance ApplyPC_eq_dec : EqDecision ApplyPC.
Proof. solve_decision. Defined.

Record Raft (C : Type) := MkRaft {
  me : Z;
  nPeers : Z;
  dead : bool;
  persister : Persister;
  currentTerm : Z;
  votedFor : Z;
  log : list (LogEntry C);
  snapshot : Snapshot;
  commitIndex : Z;
  lastApplied : Z;
  nextIndex : list Z;
  matchIndex : list Z;
  role : Role;
  electionTimeout : Z;
  applySnapshot : bool;
  leaderId : Z;
  applier : ApplyPC;
}.
Arguments MkRaft {C} _ _ _ _ _ _ _ _ _ _ _ _ _ _ _ _ _.
Arguments me {C} _.
Arguments nPeers {C} _.
Arguments dead {C} _.
Arguments persister {C} _.
Arguments currentTerm {C} _.
Arguments votedFor {C} _.
Arguments log {C} _.
Arguments snapshot {C} _.
Arguments commitIndex {C} _.
Arguments lastApplied {C} _.
Arguments nextIndex {C} _.
Arguments matchIndex {C} _.
Arguments role {C} _.
Arguments electionTimeout {C} _.
Arguments applySnapshot {C} _.
Arguments leaderId {C} _.
Arguments applier {C} _.

Section setters.
Context {C : Type}.
Implicit Types rf : Raft C.

Definition set_dead rf (x : bool) : Raft C :=
      MkRaft (me rf) (nPeers rf) x (persister rf) (currentTerm rf) (votedFor rf) (log rf)
    (snapshot rf) (commitIndex rf) (lastApplied rf) (nextIndex rf) (matchIndex rf) (role
    rf) (electionTimeout rf) (applySnapshot rf) (leaderId rf) (applier rf).
Definition set_persister rf (x : Persister) : Raft C :=
      MkRaft (me rf) (nPeers rf) (dead rf) x (currentTerm rf) (votedFor rf) (log rf)
    (snapshot rf) (commitIndex rf) (lastApplied rf) (nextIndex rf) (matchIndex rf) (role
    rf) (electionTimeout rf) (applySnapshot rf) (leaderId rf) (applier rf).
Definition set_currentTerm rf (x : Z) : Raft C :=
      MkRaft (me rf) (nPeers rf) (dead rf) (persister rf) x (votedFor rf) (log rf)
    (snapshot rf) (commitIndex rf) (lastApplied rf) (nextIndex rf) (matchIndex rf) (role
    rf) (electionTimeout rf) (applySnapshot rf) (leaderId rf) (applier rf).
Definition set_votedFor rf (x : Z) : Raft C :=
      MkRaft (me rf) (nPeers rf) (dead rf) (persister rf) (currentTerm rf) x (log rf)
    (snapshot rf) (commitIndex rf) (lastApplied rf) (nextIndex rf) (matchIndex rf) (role
    rf) (electionTimeout rf) (applySnapshot rf) (leaderId rf) (applier rf).
Definition set_log rf (x : list (LogEntry C)) : Raft C :=
      MkRaft (me rf) (nPeers rf) (dead rf) (persister rf) (currentTerm rf) (votedFor rf) x
    (snapshot rf) (commitIndex rf) (lastApplied rf) (nextIndex rf) (matchIndex rf) (role
    rf) (electionTimeout rf) (applySnapshot rf) (leaderId rf) (applier rf).
Definition set_snapshot rf (x : Snapshot) : Raft C :=
      MkRaft (me rf) (nPeers rf) (dead rf) (persister rf) (currentTerm rf) (votedFor rf)
    (log rf) x (commitIndex rf) (lastApplied rf) (nextIndex rf) (matchIndex rf) (role rf)
    (electionTimeout rf) (applySnapshot rf) (leaderId rf) (applier rf).
Definition set_commitIndex rf (x : Z) : Raft C :=
      MkRaft (me rf) (nPeers rf) (dead rf) (persister rf) (currentTerm rf) (votedFor rf)
    (log rf) (snapshot rf) x (lastApplied rf) (nextIndex rf) (matchIndex rf) (role rf)
    (electionTimeout rf) (applySnapshot rf) (leaderId rf) (applier rf).
Definition set_lastApplied rf (x : Z) : Raft C :=
      MkRaft (me rf) (nPeers rf) (dead rf) (persister rf) (currentTerm rf) (votedFor rf)
    (log rf) (snapshot rf) (commitIndex rf) x (nextIndex rf) (matchIndex rf) (role rf)
    (electionTimeout rf) (applySnapshot rf) (leaderId rf) (applier rf).
Definition set_nextIndex rf (x : list Z) : Raft C :=
      MkRaft (me rf) (nPeers rf) (dead rf) (persister rf) (currentTerm rf) (votedFor rf)
    (log rf) (snapshot rf) (commitIndex rf) (lastApplied rf) x (matchIndex rf) (role rf)
    (electionTimeout rf) (applySnapshot rf) (leaderId rf) (applier rf).
Definition set_matchIndex rf (x : list Z) : Raft C :=
      MkRaft (me rf) (nPeers rf) (dead rf) (persister rf) (currentTerm rf) (votedFor rf)
    (log rf) (snapshot rf) (commitIndex rf) (lastApplied rf) (nextIndex rf) x (role rf)
    (electionTimeout rf) (applySnapshot rf) (leaderId rf) (applier rf).
Definition set_role rf (x : Role) : Raft C :=
      MkRaft (me rf) (nPeers rf) (dead rf) (persister rf) (currentTerm rf) (votedFor rf)
    (log rf) (snapshot rf) (commitIndex rf) (lastApplied rf) (nextIndex rf) (matchIndex
    rf) x (electionTimeout rf) (applySnapshot rf) (leaderId rf) (applier rf).
Definition set_electionTimeout rf (x : Z) : Raft C :=
      MkRaft (me rf) (nPeers rf) (dead rf) (persister rf) (currentTerm rf) (votedFor rf)
    (log rf) (snapshot rf) (commitIndex rf) (lastApplied rf) (nextIndex rf) (matchIndex
    rf) (role rf) x (applySnapshot rf) (leaderId rf) (applier rf).
Definition set_applySnapshot rf (x : bool) : Raft C :=
      MkRaft (me rf) (nPeers rf) (dead rf) (persister rf) (currentTerm rf) (votedFor rf)
    (log rf) (snapshot rf) (commitIndex rf) (lastApplied rf) (nextIndex rf) (matchIndex
    rf) (role rf) (electionTimeout rf) x (leaderId rf) (applier rf).
Definition set_leaderId rf (x : Z) : Raft C :=
      MkRaft (me rf) (nPeers rf) (dead rf) (persister rf) (currentTerm rf) (votedFor rf)
    (log rf) (snapshot rf) (commitIndex rf) (lastApplied rf) (nextIndex rf) (matchIndex
    rf) (role rf) (electionTimeout rf) (applySnapshot rf) x (applier rf).
Definition set_applier rf (x : ApplyPC) : Raft C :=
      MkRaft (me rf) (nPeers rf) (dead rf) (persister rf) (currentTerm rf) (votedFor rf)
    (log rf) (snapshot rf) (commitIndex rf) (lastApplied rf) (nextIndex rf) (matchIndex
    rf) (role rf) (electionTimeout rf) (applySnapshot rf) (leaderId rf) x.
End setters.

(** What the world gives a handler: the clock and a value of [rand.Int()]. *)
Record Env := MkEnv {
  env_now : Z;
  env_rand : Z;
}.

(** The values [persistL] writes with one encoder. *)
Abbreviation PState C := (Z * Z * list (LogEntry C))%type.

(** ** Helper methods *)

Section helpers.
Context {C : Type} `{!GobCodec (PState C)}.
Implicit Types rf : Raft C.

Definition GetState rf : Z * bool := (currentTerm rf, role_eqb (role rf) Leader).

Definition GetLeaderId rf : Z := leaderId rf.

Definition resetElectionTimeoutL (env : Env) rf (init : bool) : Raft C :=
  let randTimeout := Z.rem (env_rand env) (MaxTimeout - MinTimeout) in
  if init then set_electionTimeout rf (env_now env + randTimeout * HeartbeatsInterval)
  else set_electionTimeout rf (env_now env + (MinTimeout + randTimeout) * HeartbeatsInterval).

Definition lastLogL rf : option (LogEntry C) := go_index (log rf) (go_len (log rf) - 1).

Definition logFirstIndexL rf : option Z :=
  e ← go_index (log rf) 0;
  Some (Index e).

Definition logSliceIndexL rf (index : Z) : option Z :=
  first ← logFirstIndexL rf;
  Some (if index <? first then NA else index - first).

Definition getLogL rf (index : Z) : option (LogEntry C) :=
  i ← logSliceIndexL rf index;
  go_index (log rf) i.

(** [make] panics on a negative length; [copy] fills the prefix that both
    slices have, and the rest of the new slice keeps the zero value. *)
Definition trimLogL rf (index : Z) : option (Raft C) :=
  last ← lastLogL rf;
  first ← logFirstIndexL rf;
  let n := Index last - index + 1 in
  if n <? 0 then None
  else
    src ← slice_from (log rf) (index - first);
    let copied := take (Z.to_nat n) src in
    Some (set_log rf (copied ++ replicate (Z.to_nat n - length copied) zeroEntry)).

Definition updateMatchAndNextL rf (server newMatch : Z) : option (Raft C) :=
  m ← go_index (matchIndex rf) server;
  rf ← (if newMatch >? m
        then ms ← go_update (matchIndex rf) server newMatch; Some (set_matchIndex rf ms)
        else Some rf);
  n ← go_index (nextIndex rf) server;
  if newMatch >=? n
  then ns ← go_update (nextIndex rf) server (newMatch + 1); Some (set_nextIndex rf ns)
  else Some rf.

Definition Kill rf : Raft C := set_dead rf true.
Definition killed rf : bool := dead rf.

(** *** Persistence *)

Definition persistL rf : Raft C :=
  let data := gob_encode (currentTerm rf, votedFor rf, log rf) in
  set_persister rf (SaveStateAndSnapshot (persister rf) data (Data (snapshot rf))).

(** A decoding error is fatal, which is a panic here. *)
Definition readPersist rf (data : bytes) : option (Raft C) :=
  match data with
  | [] => Some rf
  | _ =>
    '(ct, vf, lg) ← gob_decode data;
    let rf := set_log (set_votedFor (set_currentTerm rf ct) vf) lg in
    e ← go_index (log rf) 0;
    let rf := set_snapshot rf (MkSnapshot (Index e) (Term e) (ReadSnapshot (persister rf))) in
    first ← logFirstIndexL rf;
    Some (set_lastApplied (set_commitIndex rf first) first)
  end.

(** *** Creation *)

(** [new_raft] is [initL] up to the call of [readPersist], on the zero struct
    that [Make] allocates. *)
Definition new_raft (env : Env) (n i : Z) (ps : Persister) : Raft C :=
  let rf := MkRaft i n false ps 0 NA [MkLogEntry None 0 0] (MkSnapshot 0 0 [])
              0 0 (replicate (Z.to_nat n) 0) (replicate (Z.to_nat n) 0)
              Follower 0 false NA PTop in
  resetElectionTimeoutL env rf true.

Definition initL (env : Env) (n i : Z) (ps : Persister) : option (Raft C) :=
  rf ← readPersist (new_raft env n i ps) (ReadRaftState ps);
  Some (if currentTerm rf =? 0 then rf else resetElectionTimeoutL env rf false).

(** [Make]: the peer with its applier at the top of its loop
    (the ticker goroutine is stateless between two ticks). *)
Definition Make (env : Env) (n i : Z) (ps : Persister) : option (Raft C) := initL env n i ps.

Definition applySignalL rf : Raft C :=
  match applier rf with PWait => set_applier rf PTop | _ => rf end.

Definition becomeFollowerL rf (term : Z) : Raft C :=
  let rf := set_role rf Follower in
  let rf := set_votedFor rf NA in
  let rf := set_currentTerm rf term in
  persistL rf.
End helpers.
