(* ===== verification/RaftHandlers.v ===== *)
(** * Package [raft]: the RPC handlers of a peer

    [RequestVote], [AppendEntries] and [InstallSnapshot] of raft.go, with the
    loops they run.  A handler takes the lock for its whole body, so it is one
    function from the state and the arguments to the state and the reply.
    [None] is a Go panic. *)

From S2P Require Import Prelude Util Labgob RaftState.

Section handlers.
Context {C : Type} `{!GobCodec (PState C)}.
Implicit Types rf : Raft C.

(** ** RequestVote *)

(** The election restriction of section 5.4.1. *)
Definition upToDate (last : LogEntry C) (args : RequestVoteArgs) : bool :=
  (rv_LastLogTerm args >? Term last)
  || ((rv_LastLogTerm args =? Term last) && (rv_LastLogIndex args >=? Index last)).

Definition RequestVote (env : Env) rf (args : RequestVoteArgs)
    : option (Raft C * RequestVoteReply) :=
  let rf := if rv_Term args >? currentTerm rf then becomeFollowerL rf (rv_Term args) else rf in
  last ← lastLogL rf;
  let term := currentTerm rf in
  if rv_Term args <? currentTerm rf then Some (rf, MkRequestVoteReply term false)
  else if ((votedFor rf =? NA) || (votedFor rf =? rv_CandidateId args)) && upToDate last args then
    let rf := set_votedFor rf (rv_CandidateId args) in
    let rf := persistL rf in
    let rf := resetElectionTimeoutL env rf false in
    Some (rf, MkRequestVoteReply term true)
  else Some (rf, MkRequestVoteReply term false).

(** ** AppendEntries *)

(** The backward search for the first index of the conflicting term, a loop
    whose variable decreases towards the first index of the log. *)
Fixpoint conflictSearch (fuel : nat) rf (conflictTerm index : Z) : option Z :=
  first ← logFirstIndexL rf;
  if index >? first then
    match fuel with
    | O => None
    | S fuel =>
      e ← getLogL rf index;
      if negb (Term e =? conflictTerm) then Some (index + 1)
      else conflictSearch fuel rf conflictTerm (index - 1)
    end
  else Some index.

(** Whether the previous entry conflicts, with [reply.ConflictTerm] and
    [reply.ConflictFirstIndex] (0 when the reply is left untouched). *)
Definition prevLogConflictL rf (args : AppendEntriesArgs C) : option (bool * Z * Z) :=
  last ← lastLogL rf;
  first ← logFirstIndexL rf;
  if Index last <? ae_PrevLogIndex args then Some (true, NA, Index last + 1)
  else if first >? ae_PrevLogIndex args then Some (true, NA, first + 1)
  else
    e ← getLogL rf (ae_PrevLogIndex args);
    if negb (Term e =? ae_PrevLogTerm args) then
      let index := ae_PrevLogIndex args - 1 in
      index ← conflictSearch (Z.to_nat (index - first)) rf (Term e) index;
      Some (true, Term e, index)
    else Some (false, 0, 0).

(** The loop over [args.Entries]: the first entry that the log lacks, or that
    the log has with another term, replaces the tail of the log. *)
Fixpoint appendNewEntries rf (args : AppendEntriesArgs C) (i : Z)
    (entries : list (LogEntry C)) : option (Raft C) :=
  match entries with
  | [] => Some rf
  | entry :: entries =>
    let index := ae_PrevLogIndex args + 1 + i in
    last ← lastLogL rf;
    new ← (if Index last <? index then Some true
           else e ← getLogL rf index; Some (negb (Term entry =? Term e)) : option bool);
    if (new : bool) then
      k ← logSliceIndexL rf index;
      kept ← slice_to (log rf) k;
      added ← slice_from (ae_Entries args) i;
      Some (persistL (set_log rf (kept ++ added)))
    else appendNewEntries rf args (i + 1) entries
  end.

Definition processAppendEntriesL rf (args : AppendEntriesArgs C)
    : option (Raft C * AppendEntriesReply) :=
  _ ← lastLogL rf;
  let term := currentTerm rf in
  if ae_Term args <? currentTerm rf then Some (rf, MkAppendEntriesReply term false 0 0)
  else
    '(conflict, conflictTerm, conflictFirstIndex) ← prevLogConflictL rf args;
    if (conflict : bool)
    then Some (rf, MkAppendEntriesReply term false conflictTerm conflictFirstIndex)
    else
      rf ← appendNewEntries rf args 0 (ae_Entries args);
      last ← lastLogL rf;
      let rf := if ae_LeaderCommit args >? commitIndex rf
                then applySignalL (set_commitIndex rf (Min (ae_LeaderCommit args) (Index last)))
                else rf in
      Some (rf, MkAppendEntriesReply term true 0 0).

Definition AppendEntries (env : Env) rf (args : AppendEntriesArgs C)
    : option (Raft C * AppendEntriesReply) :=
  let rf := if ae_Term args >? currentTerm rf then becomeFollowerL rf (ae_Term args) else rf in
  let rf := if role_eqb (role rf) Candidate && (ae_Term args >=? currentTerm rf)
            then becomeFollowerL rf (ae_Term args) else rf in
  let rf := if ae_Term args >=? currentTerm rf
            then set_leaderId (resetElectionTimeoutL env rf false) (ae_LeaderId args)
            else rf in
  processAppendEntriesL rf args.

(** ** InstallSnapshot *)

Definition InstallSnapshot (env : Env) rf (args : InstallSnapshotArgs)
    : option (Raft C * InstallSnapshotReply) :=
  let rf := if is_Term args >? currentTerm rf then becomeFollowerL rf (is_Term args) else rf in
  let rf := if is_Term args >=? currentTerm rf
            then set_leaderId (resetElectionTimeoutL env rf false) (is_LeaderId args)
            else rf in
  let reply := MkInstallSnapshotReply (currentTerm rf) in
  if is_Term args <? currentTerm rf then Some (rf, reply)
  else
    let snap := is_Snapshot args in
    first ← logFirstIndexL rf;
    if first >=? LastIncludedIndex snap then Some (rf, reply)
    else
      let rf := set_snapshot rf snap in
      last ← lastLogL rf;
      retain ← (if Index last >=? LastIncludedIndex snap
                then e ← getLogL rf (LastIncludedIndex snap);
                     Some (Term e =? LastIncludedTerm snap)
                else Some false : option bool);
      rf ← (if (retain : bool) then trimLogL rf (LastIncludedIndex snap)
            else Some (set_log rf [MkLogEntry None (LastIncludedIndex snap) (LastIncludedTerm snap)]));
      Some (applySignalL (set_applySnapshot rf true), reply).

(** ** The snapshot interface of the service *)

Definition SnapshotL rf (index : Z) (data : bytes) : option (Raft C) :=
  first ← logFirstIndexL rf;
  if index >? first then
    rf ← trimLogL rf index;
    e ← go_index (log rf) 0;
    Some (persistL (set_snapshot rf (MkSnapshot (Index e) (Term e) data)))
  else Some rf.

Definition CondInstallSnapshot rf (lastIncludedTerm lastIncludedIndex : Z) (data : bytes) : bool :=
  true.
End handlers.
