(* ===== verification/RaftLeader.v ===== *)
(** * Package [raft]: elections, replication and the applier

    The goroutines of a peer: the ticker, the candidate that gathers votes, the
    leader that replicates its log, and the applier that delivers committed
    entries.  A goroutine that calls a remote peer releases the lock around the
    call, so it is split there: the part before the call yields the arguments,
    the part after it consumes the reply. *)

From S2P Require Import Prelude Util Labgob RaftState.

(** A goroutine started while a handler runs. *)
Inductive Spawn :=
  | GoRequest (server : Z) (args : RequestVoteArgs)
  | GoAppend (server term : Z).

(** What [append] sends. *)
Inductive LeaderCall (C : Type) :=
  | CallAppend (args : AppendEntriesArgs C)
  | CallInstall (args : InstallSnapshotArgs).
Arguments CallAppend {C} _.
Arguments CallInstall {C} _.

Section leader.
Context {C : Type} `{!GobCodec (PState C)}.
Implicit Types rf : Raft C.

(** The loop [for i := 0; i < rf.nPeers(); i++ { if i != rf.me {...} }]. *)
Definition otherPeers rf : list Z :=
  filter (λ i, i ≠ me rf) (Z.of_nat <$> seq 0 (Z.to_nat (nPeers rf))).

(** ** Leader *)

Definition appendsL rf : list Spawn :=
  (λ i, GoAppend i (currentTerm rf)) <$> otherPeers rf.

Definition heartbeatsL rf : list Spawn := appendsL rf.

(** The loop assigns every slot of the two arrays, which have one slot per
    peer. *)
Definition becomeLeaderL rf : option (Raft C * list Spawn) :=
  last ← lastLogL rf;
  let n := Z.to_nat (nPeers rf) in
  if (go_len (nextIndex rf) <? nPeers rf) || (go_len (matchIndex rf) <? nPeers rf) then None
  else
    let rf := set_nextIndex rf (replicate n (Index last + 1) ++ drop n (nextIndex rf)) in
    let rf := set_matchIndex rf (replicate n 0 ++ drop n (matchIndex rf)) in
    let rf := set_role rf Leader in
    Some (rf, heartbeatsL rf).

Definition makeAppendArgsL rf (server : Z) : option (AppendEntriesArgs C) :=
  next ← go_index (nextIndex rf) server;
  last ← lastLogL rf;
  entries ← (if Index last >=? next
             then k ← logSliceIndexL rf next; slice_from (log rf) k
             else Some []);
  prev ← getLogL rf (next - 1);
  Some (MkAppendEntriesArgs (currentTerm rf) (me rf) (next - 1) (Term prev) entries
          (commitIndex rf)).

Definition installArgsL rf : InstallSnapshotArgs :=
  MkInstallSnapshotArgs (currentTerm rf) (me rf) (snapshot rf).

(** [append] up to the remote call; [Some None] is its early return. *)
Definition append rf (server term : Z) : option (option (LeaderCall C)) :=
  if negb (currentTerm rf =? term) then Some None
  else
    next ← go_index (nextIndex rf) server;
    first ← logFirstIndexL rf;
    if next <=? first then Some (Some (CallInstall (installArgsL rf)))
    else args ← makeAppendArgsL rf server; Some (Some (CallAppend args)).

(** [sort.Ints] on the copy of [matchIndex] ([copy] keeps the zeros of [make]
    beyond the source). *)
Definition setCommitIndexL rf : option (Raft C * bool) :=
  let n := Z.to_nat (nPeers rf) in
  let copied := take n (matchIndex rf) in
  let sorted := merge_sort Z.le (copied ++ replicate (n - length copied) 0) in
  N ← go_index sorted (Z.quot (nPeers rf) 2 + 1);
  if N >? commitIndex rf then
    e ← getLogL rf N;
    if Term e =? currentTerm rf then Some (set_commitIndex rf N, true) else Some (rf, false)
  else Some (rf, false).

(** The backward search of [_processPrevLogConflictL]. *)
Fixpoint matchSearch (fuel : nat) rf (conflictTerm minIndex index : Z) : option Z :=
  if index >=? minIndex then
    match fuel with
    | O => None
    | S fuel =>
      e ← getLogL rf index;
      if Term e =? conflictTerm then Some (index + 1)
      else matchSearch fuel rf conflictTerm minIndex (index - 1)
    end
  else Some index.

Definition processPrevLogConflictL rf (server : Z) (args : AppendEntriesArgs C)
    (reply : AppendEntriesReply) : option (Raft C) :=
  index ← (if (aer_ConflictTerm reply =? NA) || (aer_ConflictTerm reply >? currentTerm rf)
           then Some (aer_ConflictFirstIndex reply)
           else
             first ← logFirstIndexL rf;
             let index := ae_PrevLogIndex args - 1 in
             let minIndex := Max (aer_ConflictFirstIndex reply) (first + 1) in
             matchSearch (Z.to_nat (index - minIndex + 1)) rf (aer_ConflictTerm reply)
               minIndex index);
  ns ← go_update (nextIndex rf) server index;
  Some (set_nextIndex rf ns).

Definition processAppendReplyL rf (server : Z) (args : AppendEntriesArgs C)
    (reply : AppendEntriesReply) : option (Raft C) :=
  if (currentTerm rf =? ae_Term args) && role_eqb (role rf) Leader then
    if aer_Success reply then
      rf ← updateMatchAndNextL rf server (ae_PrevLogIndex args + go_len (ae_Entries args));
      '(rf, ok) ← setCommitIndexL rf;
      Some (if (ok : bool) then applySignalL rf else rf)
    else if aer_Term reply >? currentTerm rf then Some (becomeFollowerL rf (aer_Term reply))
    else processPrevLogConflictL rf server args reply
  else Some rf.

Definition processInstallReplyL rf (server : Z) (args : InstallSnapshotArgs)
    (reply : InstallSnapshotReply) : option (Raft C) :=
  if (currentTerm rf =? is_Term args) && role_eqb (role rf) Leader then
    if isr_Term reply >? currentTerm rf then Some (becomeFollowerL rf (isr_Term reply))
    else updateMatchAndNextL rf server (LastIncludedIndex (is_Snapshot args))
  else Some rf.

(** [Start]: the index, the term and whether the peer is the leader. *)
Definition Start rf (command : option C) : option (Raft C * (Z * Z * bool) * list Spawn) :=
  if role_eqb (role rf) Leader then
    last ← lastLogL rf;
    let index := Index last + 1 in
    let term := currentTerm rf in
    let rf := set_log rf (log rf ++ [MkLogEntry command index term]) in
    let rf := persistL rf in
    Some (rf, (index, term, true), appendsL rf)
  else Some (rf, (NA, NA, false), []).

(** ** Candidate *)

Definition requestsL rf : option (list Spawn) :=
  last ← lastLogL rf;
  let args := MkRequestVoteArgs (currentTerm rf) (me rf) (Index last) (Term last) in
  Some ((λ i, GoRequest i args) <$> otherPeers rf).

Definition becomeCandidateL (env : Env) rf : option (Raft C * list Spawn) :=
  let rf := set_role rf Candidate in
  let rf := set_currentTerm rf (currentTerm rf + 1) in
  let rf := set_votedFor rf (me rf) in
  let rf := set_leaderId rf NA in
  let rf := persistL rf in
  let rf := resetElectionTimeoutL env rf false in
  spawned ← requestsL rf;
  Some (rf, spawned).

(** [votes] is the value of the counter that the goroutines of one election
    share. *)
Definition processRequestReplyL rf (args : RequestVoteArgs) (reply : RequestVoteReply)
    (votes : Z) : option (Raft C * Z * list Spawn) :=
  if (currentTerm rf =? rv_Term args) && role_eqb (role rf) Candidate then
    if rvr_VoteGranted reply then
      let votes := votes + 1 in
      if votes >? Z.quot (nPeers rf) 2
      then '(rf, spawned) ← becomeLeaderL rf; Some (rf, votes, spawned)
      else Some (rf, votes, [])
    else if rvr_Term reply >? currentTerm rf
    then Some (becomeFollowerL rf (rvr_Term reply), votes, [])
    else Some (rf, votes, [])
  else Some (rf, votes, []).

(** ** Ticker *)

Definition tick (env : Env) rf : option (Raft C * list Spawn) :=
  if role_eqb (role rf) Leader then Some (rf, heartbeatsL rf)
  else if env_now env >? electionTimeout rf then becomeCandidateL env rf
  else Some (rf, []).

(** ** Applier

    One step of the goroutine [apply], from one release of the lock (a send on
    [applyCh] or a wait) to the next, with the message it sends if any. *)

Definition applySnapshotL rf : Raft C * option (ApplyMsg C) :=
  let rf := set_applySnapshot rf false in
  let idx := LastIncludedIndex (snapshot rf) in
  if idx >? lastApplied rf then
    let rf := set_lastApplied (set_commitIndex rf idx) idx in
    (rf, Some (MkApplyMsg false None 0 true (Data (snapshot rf)) idx idx))
  else (rf, None).

Definition apply_tail rf : Raft C :=
  if (commitIndex rf <=? lastApplied rf) && negb (applySnapshot rf)
  then set_applier rf PWait else set_applier rf PTop.

Definition apply_command rf : option (Raft C * option (ApplyMsg C)) :=
  if commitIndex rf >? lastApplied rf then
    let rf := set_lastApplied rf (lastApplied rf + 1) in
    first ← logFirstIndexL rf;
    if lastApplied rf <=? first then Some (set_applier rf PExit, None)
    else
      e ← getLogL rf (lastApplied rf);
      Some (set_applier rf PAfterCommand,
            Some (MkApplyMsg true (Command e) (lastApplied rf) false [] 0 0))
  else Some (apply_tail rf, None).

Definition apply rf : option (Raft C * option (ApplyMsg C)) :=
  match applier rf with
  | PTop =>
    if killed rf then Some (set_applier rf PExit, None)
    else if applySnapshot rf then
      match applySnapshotL rf with
      | (rf, Some msg) => Some (set_applier rf PAfterSnapshot, Some msg)
      | (rf, None) => apply_command rf
      end
    else apply_command rf
  | PAfterSnapshot => apply_command rf
  | PAfterCommand => Some (apply_tail rf, None)
  | PWait | PExit => Some (rf, None)
  end.
End leader.
