(* ===== verification/RaftNode.v ===== *)
(** * Package [raft]: the invariant of one peer

    Well-formed logs and messages, the invariant [node_wf] of a peer, the facts
    about the log accessors that every later file uses; the operations that set
    fields other than the log preserve the invariant, and so does stepping down. *)

From S2P Require Import Prelude Util Labgob RaftState RaftHandlers RaftLeader.

(** ** Logs *)

Section logs.
Context {C : Type}.
Implicit Types (l : list (LogEntry C)) (e : LogEntry C).

Definition firstIdx l : Z := from_option Index 0 (head l).
Definition firstTerm l : Z := from_option Term 0 (head l).
Definition lastIdx l : Z := from_option Index 0 (last l).
Definition lastTerm l : Z := from_option Term 0 (last l).

(** The first and the last entry of a log, as (index, term). *)
Definition base l : Z * Z := (firstIdx l, firstTerm l).
Definition tip l : Z * Z := (lastIdx l, lastTerm l).

(** The entry with the given Raft index, as opposed to slice index. *)
Definition entry_at l (i : Z) : option (LogEntry C) := go_index l (i - firstIdx l).

(** Indices grow by one and terms never decrease. *)
Record log_wf l : Prop := {
  lw_nonempty : l ≠ [];
  lw_index : ∀ (k : nat) e, l !! k = Some e → Index e = firstIdx l + Z.of_nat k;
  lw_terms : ∀ (i j : nat) e e',
    (i <= j)%nat → l !! i = Some e → l !! j = Some e' → Term e <= Term e';
  lw_first : 0 <= firstIdx l;
  lw_term0 : 0 <= firstTerm l;
}.

Lemma firstIdx_lookup l e : l !! 0%nat = Some e → firstIdx l = Index e ∧ firstTerm l = Term e.
Proof. destruct l; cbn; intros; simplify_eq; done. Qed.

Lemma last_idx l : log_wf l → lastIdx l = firstIdx l + go_len l - 1.
Proof.
  intros Hwf. unfold lastIdx, go_len. rewrite last_lookup.
  destruct (l !! pred (length l)) as [e|] eqn:E; cbn.
  - rewrite (lw_index _ Hwf _ _ E). pose proof (lw_nonempty _ Hwf). destruct l; [done|cbn; lia].
  - apply lookup_ge_None in E. pose proof (lw_nonempty _ Hwf). destruct l; [done|cbn in E; lia].
Qed.

Lemma log_wf_len l : log_wf l → 0 < go_len l.
Proof. intros Hwf. pose proof (lw_nonempty _ Hwf). unfold go_len. destruct l; [done|cbn; lia]. Qed.

Lemma last_ge_first l : log_wf l → firstIdx l <= lastIdx l.
Proof. intros Hwf. rewrite last_idx by done. pose proof (log_wf_len _ Hwf). lia. Qed.

Lemma entry_at_is_Some l i :
  log_wf l → is_Some (entry_at l i) ↔ firstIdx l <= i <= lastIdx l.
Proof. intros Hwf. unfold entry_at. rewrite go_index_is_Some, last_idx by done. lia. Qed.

Lemma entry_at_range l i :
  log_wf l → firstIdx l <= i <= lastIdx l → ∃ e, entry_at l i = Some e.
Proof. intros Hwf ?. by apply entry_at_is_Some. Qed.

Lemma entry_at_bounds l i e :
  log_wf l → entry_at l i = Some e → firstIdx l <= i <= lastIdx l.
Proof. intros Hwf ?. apply entry_at_is_Some; [done|by eexists]. Qed.

Lemma entry_at_lookup l i e :
  entry_at l i = Some e ↔ firstIdx l <= i ∧ l !! Z.to_nat (i - firstIdx l) = Some e.
Proof. unfold entry_at. rewrite go_index_lookup. intuition lia. Qed.

Lemma lookup_entry_at l (k : nat) : l !! k = entry_at l (firstIdx l + Z.of_nat k).
Proof.
  unfold entry_at. replace (firstIdx l + Z.of_nat k - firstIdx l) with (Z.of_nat k) by lia.
  by rewrite go_index_nat.
Qed.

Lemma entry_at_Index l i e : log_wf l → entry_at l i = Some e → Index e = i.
Proof.
  intros Hwf [? E]%entry_at_lookup. rewrite (lw_index _ Hwf _ _ E). lia.
Qed.

Lemma elem_entry_at l e : log_wf l → e ∈ l → entry_at l (Index e) = Some e.
Proof.
  intros Hwf [k Hk]%list_elem_of_lookup. rewrite (lw_index _ Hwf _ _ Hk).
  by rewrite <- lookup_entry_at.
Qed.

Lemma entry_at_terms l i j e e' :
  log_wf l → i <= j → entry_at l i = Some e → entry_at l j = Some e' → Term e <= Term e'.
Proof.
  intros Hwf ? [? E]%entry_at_lookup [? E']%entry_at_lookup.
  eapply (lw_terms _ Hwf); [|exact E|exact E']. lia.
Qed.

Lemma last_entry l : log_wf l → ∃ e, last l = Some e ∧ entry_at l (lastIdx l) = Some e
  ∧ Index e = lastIdx l ∧ Term e = lastTerm l.
Proof.
  intros Hwf. destruct (last l) as [e|] eqn:E.
  - exists e. unfold lastIdx, lastTerm. rewrite E; cbn. split_and!; try done.
    rewrite last_lookup in E.
    assert (Index e = firstIdx l + Z.of_nat (pred (length l))) as -> by by eapply lw_index.
    by rewrite <- lookup_entry_at.
  - apply last_None in E. by destruct (lw_nonempty _ Hwf).
Qed.

Lemma first_entry l : log_wf l → ∃ e, entry_at l (firstIdx l) = Some e ∧ l !! 0%nat = Some e
  ∧ Index e = firstIdx l ∧ Term e = firstTerm l.
Proof.
  intros Hwf. pose proof (lw_nonempty _ Hwf).
  assert (l !! 0%nat = entry_at l (firstIdx l)) as E.
  { rewrite lookup_entry_at. f_equal. lia. }
  destruct l as [|e l]; [done|]. exists e. rewrite <- E. done.
Qed.

Lemma lastTerm_ge l i e : log_wf l → entry_at l i = Some e → Term e <= lastTerm l.
Proof.
  intros Hwf E. destruct (last_entry _ Hwf) as (e' & _ & E' & _ & <-).
  eapply entry_at_terms; [done| |exact E|exact E']. apply entry_at_bounds in E; [lia|done].
Qed.

Lemma lastTerm_nonneg l : log_wf l → 0 <= lastTerm l.
Proof.
  intros Hwf. destruct (first_entry _ Hwf) as (e & E & _ & _ & HT).
  pose proof (lastTerm_ge _ _ _ Hwf E). pose proof (lw_term0 _ Hwf). lia.
Qed.

(** Building well-formed logs. *)

Lemma log_wf_singleton c i t : 0 <= i → 0 <= t → log_wf [MkLogEntry c i t].
Proof.
  intros Hi Ht. split; cbn; try done.
  - intros [|k] e ?; simplify_eq/=; lia.
  - intros [|i'] [|j'] e e' ???; simplify_eq/=; lia.
Qed.

Lemma firstIdx_app l l' : l ≠ [] → firstIdx (l ++ l') = firstIdx l ∧ firstTerm (l ++ l') = firstTerm l.
Proof. by destruct l. Qed.

Lemma log_wf_app l l' :
  log_wf l →
  (∀ (k : nat) e, l' !! k = Some e → Index e = lastIdx l + 1 + Z.of_nat k) →
  (∀ (i j : nat) e e', (i <= j)%nat → l' !! i = Some e → l' !! j = Some e' → Term e <= Term e') →
  (∀ e, e ∈ l' → lastTerm l <= Term e) →
  log_wf (l ++ l').
Proof.
  intros Hwf Hidx Hterms Hlast. pose proof (lw_nonempty _ Hwf) as Hne.
  destruct (firstIdx_app l l' Hne) as [Hf Hft].
  split; rewrite ?Hf, ?Hft; try by apply Hwf.
  - destruct l; done.
  - intros k e [Hk|[Hk Hk']]%lookup_app_Some; [by apply (lw_index _ Hwf)|].
    rewrite (Hidx _ _ Hk'), (last_idx _ Hwf). unfold go_len. lia.
  - intros i j e e' Hij [Hi|[Hi Hi']]%lookup_app_Some [Hj|[Hj Hj']]%lookup_app_Some.
    + by eapply (lw_terms _ Hwf).
    + transitivity (lastTerm l).
      * apply (lastTerm_ge _ (firstIdx l + Z.of_nat i)); [done|]. by rewrite <- lookup_entry_at.
      * apply Hlast. by eapply list_elem_of_lookup_2.
    + apply lookup_lt_Some in Hj. lia.
    + eapply Hterms; [|exact Hi'|exact Hj']. lia.
Qed.

Lemma log_wf_take l n : log_wf l → (0 < n)%nat → log_wf (take n l).
Proof.
  intros Hwf Hn. pose proof (lw_nonempty _ Hwf).
  assert (firstIdx (take n l) = firstIdx l ∧ firstTerm (take n l) = firstTerm l) as [Hf Hft].
  { destruct l, n; (done || lia). }
  split; rewrite ?Hf, ?Hft; try by apply Hwf.
  - destruct l, n; cbn; (done || lia).
  - intros k e [Hk ?]%lookup_take_Some. by apply (lw_index _ Hwf).
  - intros i j e e' Hij [Hi ?]%lookup_take_Some [Hj ?]%lookup_take_Some.
    exact (lw_terms _ Hwf _ _ _ _ Hij Hi Hj).
Qed.

Lemma log_wf_drop l n :
  log_wf l → (n < length l)%nat →
  log_wf (drop n l) ∧ firstIdx (drop n l) = firstIdx l + Z.of_nat n.
Proof.
  intros Hwf Hn. destruct (lookup_lt_is_Some_2 _ _ Hn) as [e0 He0].
  assert (drop n l !! 0%nat = Some e0) as Hd. { by rewrite lookup_drop, Nat.add_0_r. }
  destruct (firstIdx_lookup _ _ Hd) as [Hf Hft].
  rewrite (lw_index _ Hwf _ _ He0) in Hf. split; [|done].
  split; rewrite ?Hf, ?Hft.
  - intros Hnil. rewrite Hnil in Hd. done.
  - intros k e Hk. rewrite lookup_drop in Hk. rewrite (lw_index _ Hwf _ _ Hk). lia.
  - intros i j e e' ?. rewrite !lookup_drop. intros. eapply (lw_terms _ Hwf); [|done|done]. lia.
  - pose proof (lw_first _ Hwf). lia.
  - transitivity (firstTerm l); [apply Hwf|]. destruct (first_entry _ Hwf) as (e1 & _ & E1 & _ & <-).
    eapply (lw_terms _ Hwf); [|exact E1|exact He0]. lia.
Qed.

Lemma last_drop_log l n : (n < length l)%nat → last (drop n l) = last l.
Proof.
  intros. rewrite !last_lookup, lookup_drop, length_drop. f_equal. lia.
Qed.

Lemma entry_at_drop l n i :
  log_wf l → (n < length l)%nat → firstIdx l + Z.of_nat n <= i →
  entry_at (drop n l) i = entry_at l i.
Proof.
  intros Hwf Hn Hi. unfold entry_at. destruct (log_wf_drop _ _ Hwf Hn) as [_ ->].
  rewrite go_index_drop by lia. f_equal. lia.
Qed.

Lemma entry_at_take l n i :
  (0 < n)%nat → i < firstIdx l + Z.of_nat n → entry_at (take n l) i = entry_at l i.
Proof.
  intros Hn Hi. unfold entry_at.
  assert (firstIdx (take n l) = firstIdx l) as ->. { destruct l, n; (done || lia). }
  apply go_index_take. lia.
Qed.

Lemma entry_at_app_l l l' i :
  log_wf l → i <= lastIdx l → entry_at (l ++ l') i = entry_at l i.
Proof.
  intros Hwf Hi. unfold entry_at. destruct (firstIdx_app l l' (lw_nonempty _ Hwf)) as [-> _].
  apply go_index_app_l. rewrite last_idx in Hi by done. lia.
Qed.

Lemma entry_at_app_r l l' i :
  log_wf l → lastIdx l < i → entry_at (l ++ l') i = go_index l' (i - lastIdx l - 1).
Proof.
  intros Hwf Hi. unfold entry_at. destruct (firstIdx_app l l' (lw_nonempty _ Hwf)) as [-> _].
  rewrite last_idx in * by done. rewrite go_index_app_r by lia. f_equal. lia.
Qed.
End logs.

#[global] Arguments firstIdx : simpl never.
#[global] Arguments firstTerm : simpl never.
#[global] Arguments lastIdx : simpl never.
#[global] Arguments lastTerm : simpl never.
#[global] Arguments entry_at : simpl never.

(** ** The accessors of raft.go in terms of the log *)

Section accessors.
Context {C : Type} `{!GobCodec (PState C)}.
Implicit Types rf : Raft C.

Lemma lastLogL_last rf : lastLogL rf = last (log rf).
Proof.
  unfold lastLogL, go_index, go_len. rewrite last_lookup.
  destruct (log rf) as [|e l]; [done|]. cbn [length].
  destruct (Z.ltb_spec (Z.of_nat (S (length l)) - 1) 0); [lia|]. f_equal. lia.
Qed.

Lemma logFirstIndexL_spec rf : log_wf (log rf) → logFirstIndexL rf = Some (firstIdx (log rf)).
Proof.
  intros Hwf. unfold logFirstIndexL. pose proof (lw_nonempty _ Hwf).
  by destruct (log rf).
Qed.

Lemma lastLogL_spec rf : log_wf (log rf) → ∃ e, lastLogL rf = Some e ∧
  Index e = lastIdx (log rf) ∧ Term e = lastTerm (log rf).
Proof.
  intros Hwf. rewrite lastLogL_last. destruct (last_entry _ Hwf) as (e & ? & ? & ? & ?). eauto.
Qed.

Lemma logSliceIndexL_spec rf i :
  log_wf (log rf) → firstIdx (log rf) <= i → logSliceIndexL rf i = Some (i - firstIdx (log rf)).
Proof.
  intros Hwf Hi. unfold logSliceIndexL. rewrite logFirstIndexL_spec by done. cbn.
  destruct (Z.ltb_spec i (firstIdx (log rf))); [lia|done].
Qed.

Lemma getLogL_spec rf i : log_wf (log rf) → getLogL rf i = entry_at (log rf) i.
Proof.
  intros Hwf. unfold getLogL, logSliceIndexL, entry_at. rewrite logFirstIndexL_spec by done. cbn.
  destruct (Z.ltb_spec i (firstIdx (log rf))); [|done].
  unfold NA, go_index. destruct (Z.ltb_spec (i - firstIdx (log rf)) 0); [done|lia].
Qed.

(** Trimming keeps the log from [index] on. *)
Lemma trimLogL_spec rf index :
  log_wf (log rf) → firstIdx (log rf) <= index <= lastIdx (log rf) →
  trimLogL rf index = Some (set_log rf (drop (Z.to_nat (index - firstIdx (log rf))) (log rf))).
Proof.
  intros Hwf Hi. unfold trimLogL.
  destruct (lastLogL_spec _ Hwf) as (e & -> & HI & _). rewrite logFirstIndexL_spec by done. cbn.
  rewrite HI. pose proof (last_idx _ Hwf) as Hlast. pose proof (log_wf_len _ Hwf).
  destruct (Z.ltb_spec (lastIdx (log rf) - index + 1) 0); [lia|].
  unfold slice_from. unfold go_len in *.
  destruct (Z.leb_spec 0 (index - firstIdx (log rf))); [|lia].
  destruct (Z.leb_spec (index - firstIdx (log rf)) (Z.of_nat (length (log rf)))); [|lia]. cbn.
  set (d := drop _ (log rf)).
  assert (length d = Z.to_nat (lastIdx (log rf) - index + 1)) as Hd.
  { unfold d. rewrite length_drop. lia. }
  rewrite <- Hd, firstn_all. rewrite Nat.sub_diag. cbn. by rewrite app_nil_r.
Qed.
End accessors.

(** ** Messages *)

Section messages.
Context {C : Type}.

(** The entries of a message continue the log at [PrevLogIndex]. *)
Record ae_wf (args : AppendEntriesArgs C) : Prop := {
  aw_prev : 0 <= ae_PrevLogIndex args;
  aw_index : ∀ (k : nat) e, ae_Entries args !! k = Some e →
    Index e = ae_PrevLogIndex args + 1 + Z.of_nat k;
  aw_terms : ∀ (i j : nat) e e', (i <= j)%nat →
    ae_Entries args !! i = Some e → ae_Entries args !! j = Some e' → Term e <= Term e';
  aw_prevTerm : ∀ e, e ∈ ae_Entries args → ae_PrevLogTerm args <= Term e;
  aw_term : ∀ e, e ∈ ae_Entries args → Term e <= ae_Term args;
}.

Record is_wf (args : InstallSnapshotArgs) : Prop := {
  sw_index : 0 <= LastIncludedIndex (is_Snapshot args);
  sw_term : 0 <= LastIncludedTerm (is_Snapshot args) <= is_Term args;
}.
End messages.

Section node.
Context {C : Type} `{!GobCodec (PState C), !GobLaws (PState C)}.
Implicit Types rf : Raft C.

(** The term and the vote on disk are the ones in memory; the log on disk is
    well formed (it may be older than the log in memory: see
    [InstallSnapshot], which does not persist). *)
Definition on_disk rf (l : list (LogEntry C)) : Prop :=
  raftstate (persister rf) ≠ [] ∧
  gob_decode (raftstate (persister rf)) = Some (currentTerm rf, votedFor rf, l).

Definition persisted rf : Prop :=
  (raftstate (persister rf) = [] ∧ currentTerm rf = 0 ∧ votedFor rf = NA)
  ∨ ∃ l, on_disk rf l ∧ log_wf l ∧ lastTerm l <= currentTerm rf.

Record node_wf rf : Prop := {
  nw_log : log_wf (log rf);
  nw_lastTerm : lastTerm (log rf) <= currentTerm rf;
  nw_snap : LastIncludedIndex (snapshot rf) = firstIdx (log rf)
    ∧ LastIncludedTerm (snapshot rf) = firstTerm (log rf);
  nw_next : go_len (nextIndex rf) = nPeers rf;
  nw_match : go_len (matchIndex rf) = nPeers rf;
  nw_me : 0 <= me rf < nPeers rf;
  nw_disk : persisted rf;
  nw_self : role rf ≠ Follower → votedFor rf = me rf;
}.

Lemma node_wf_term rf : node_wf rf → 0 <= currentTerm rf.
Proof. intros H. pose proof (lastTerm_nonneg _ (nw_log _ H)). pose proof (nw_lastTerm _ H). lia. Qed.

Lemma persistL_on_disk rf : on_disk (persistL rf) (log rf).
Proof. split; cbn; [apply gob_nonempty|apply gob_roundtrip]. Qed.

Lemma persistL_persisted rf :
  log_wf (log rf) → lastTerm (log rf) <= currentTerm rf → persisted (persistL rf).
Proof. intros. right. exists (log rf). split; [apply persistL_on_disk|done]. Qed.

(** *** The part of the state that elections depend on *)

Record same_vote rf rf' : Prop := {
  sv_me : me rf' = me rf;
  sv_n : nPeers rf' = nPeers rf;
  sv_term : currentTerm rf' = currentTerm rf;
  sv_vote : votedFor rf' = votedFor rf;
  sv_role : role rf' = role rf;
}.

#[global] Instance same_vote_refl : Reflexive same_vote.
Proof. by split. Qed.
#[global] Instance same_vote_trans : Transitive same_vote.
Proof. intros ??? [] []. split; congruence. Qed.

(** The peer forgets its vote: it moves to a later term, or it is a candidate
    that steps down in its own term. *)
Record steps_down rf rf' : Prop := {
  sd_me : me rf' = me rf;
  sd_n : nPeers rf' = nPeers rf;
  sd_term : currentTerm rf < currentTerm rf'
    ∨ (currentTerm rf' = currentTerm rf ∧ role rf = Candidate);
  sd_vote : votedFor rf' = NA;
  sd_role : role rf' = Follower;
}.

Definition settles rf rf' : Prop := same_vote rf rf' ∨ steps_down rf rf'.

Lemma settles_same rf1 rf2 rf3 : settles rf1 rf2 → same_vote rf2 rf3 → settles rf1 rf3.
Proof.
  intros [H|[]] [].
  - left. etrans; [exact H|by split].
  - right. split; congruence.
Qed.

Lemma settles_term rf rf' : settles rf rf' → currentTerm rf <= currentTerm rf'.
Proof. intros [[]|[]]; lia. Qed.

(** Stepping down keeps everything but the term, the vote, the role and the
    disk. *)
Lemma becomeFollowerL_wf rf t :
  node_wf rf → currentTerm rf <= t → node_wf (becomeFollowerL rf t).
Proof.
  intros [] Ht. split; cbn; try done; [lia|].
  apply (persistL_persisted (set_currentTerm (set_votedFor (set_role rf Follower) NA) t));
    cbn; [done|lia].
Qed.

(** *** Operations that touch neither the log nor the vote *)

Lemma resetElectionTimeoutL_frame env rf b :
  resetElectionTimeoutL env rf b = set_electionTimeout rf (electionTimeout (resetElectionTimeoutL env rf b)).
Proof. unfold resetElectionTimeoutL. by destruct b. Qed.

Lemma applySignalL_frame rf : applySignalL rf = set_applier rf (applier (applySignalL rf)).
Proof. unfold applySignalL. destruct rf as [??????????????? ? []]; done. Qed.

Lemma node_wf_set_electionTimeout rf x : node_wf rf → node_wf (set_electionTimeout rf x).
Proof. by intros []; split. Qed.
Lemma node_wf_set_leaderId rf x : node_wf rf → node_wf (set_leaderId rf x).
Proof. by intros []; split. Qed.
Lemma node_wf_set_applier rf x : node_wf rf → node_wf (set_applier rf x).
Proof. by intros []; split. Qed.
Lemma node_wf_set_applySnapshot rf x : node_wf rf → node_wf (set_applySnapshot rf x).
Proof. by intros []; split. Qed.
Lemma node_wf_set_commitIndex rf x : node_wf rf → node_wf (set_commitIndex rf x).
Proof. by intros []; split. Qed.
Lemma node_wf_set_lastApplied rf x : node_wf rf → node_wf (set_lastApplied rf x).
Proof. by intros []; split. Qed.
Lemma node_wf_resetElectionTimeoutL env rf b : node_wf rf → node_wf (resetElectionTimeoutL env rf b).
Proof. rewrite resetElectionTimeoutL_frame. apply node_wf_set_electionTimeout. Qed.
Lemma node_wf_applySignalL rf : node_wf rf → node_wf (applySignalL rf).
Proof. rewrite applySignalL_frame. apply node_wf_set_applier. Qed.
Lemma node_wf_set_nextIndex rf x : node_wf rf → go_len x = nPeers rf → node_wf (set_nextIndex rf x).
Proof. by intros [] ?; split. Qed.
Lemma node_wf_set_matchIndex rf x : node_wf rf → go_len x = nPeers rf → node_wf (set_matchIndex rf x).
Proof. by intros [] ?; split. Qed.

(** Replacing the log and writing it to disk. *)
Lemma node_wf_persist_log rf l :
  node_wf rf → log_wf l → lastTerm l <= currentTerm rf →
  firstIdx l = firstIdx (log rf) → firstTerm l = firstTerm (log rf) →
  node_wf (persistL (set_log rf l)).
Proof.
  intros [] ? ? Hi Ht. split; cbn; try done; [by rewrite Hi, Ht|].
  by apply persistL_persisted.
Qed.
End node.

#[export] Hint Resolve node_wf_set_electionTimeout node_wf_set_leaderId node_wf_set_applier
  node_wf_set_applySnapshot node_wf_set_commitIndex node_wf_set_lastApplied
  node_wf_resetElectionTimeoutL node_wf_applySignalL becomeFollowerL_wf : labs.
