(* ===== verification/RaftRecv.v ===== *)
(** * Package [raft]: specifications of the receiving side

    [RequestVote], [AppendEntries], [InstallSnapshot], [SnapshotL] and the
    start-up code never panic on a well-formed peer, preserve the invariant, and
    have the effects stated here. *)

From S2P Require Import Prelude Util Labgob RaftState RaftHandlers RaftLeader RaftNode.

Section recv.
Context {C : Type} `{!GobCodec (PState C), !GobLaws (PState C)}.
Implicit Types (rf : Raft C) (l : list (LogEntry C)).

(** ** RequestVote *)

(** A granted vote: the peer settles in the candidate's term and records it. *)
Definition grants rf (args : RequestVoteArgs) rf' : Prop :=
  ∃ rf1, settles rf rf1 ∧ me rf' = me rf1 ∧ nPeers rf' = nPeers rf1
    ∧ role rf' = role rf1 ∧ currentTerm rf' = currentTerm rf1
    ∧ currentTerm rf' = rv_Term args
    ∧ (votedFor rf1 = NA ∨ votedFor rf1 = rv_CandidateId args)
    ∧ votedFor rf' = rv_CandidateId args.

Lemma settle_higher_term rf t :
  node_wf rf →
  let rf1 := if t >? currentTerm rf then becomeFollowerL rf t else rf in
  node_wf rf1 ∧ settles rf rf1 ∧ log rf1 = log rf ∧ currentTerm rf1 = Z.max (currentTerm rf) t
  ∧ commitIndex rf1 = commitIndex rf ∧ snapshot rf1 = snapshot rf.
Proof.
  intros Hwf. destruct (t >? currentTerm rf) eqn:E; bools; cbn.
  - split_and!; [apply becomeFollowerL_wf; [done|lia]| |done|lia|done|done].
    right. split; cbn; try done. lia.
  - split_and!; [done|left; reflexivity|done|lia|done|done].
Qed.

Lemma RequestVote_spec env rf args :
  node_wf rf →
  ∃ rf' reply, RequestVote env rf args = Some (rf', reply)
    ∧ node_wf rf' ∧ log rf' = log rf
    ∧ rvr_Term reply = currentTerm rf'
    ∧ (if rvr_VoteGranted reply
       then grants rf args rf' ∧ (∃ last, lastLogL rf = Some last ∧ upToDate last args = true)
       else settles rf rf').
Proof.
  intros Hwf. unfold RequestVote.
  destruct (settle_higher_term rf (rv_Term args) Hwf) as (Hwf1 & Hs & Hlog & Hct & _ & _).
  set (rf1 := if rv_Term args >? currentTerm rf then _ else rf) in *. clearbody rf1.
  destruct (lastLogL_spec _ (nw_log _ Hwf1)) as (last & Hlast & _ & _).
  rewrite Hlast. cbn [mbind option_bind].
  destruct (rv_Term args <? currentTerm rf1) eqn:E; bools.
  { do 2 eexists. split_and!; done. }
  destruct (_ && upToDate last args) eqn:Eg; bools.
  2: { do 2 eexists. split_and!; done. }
  rewrite resetElectionTimeoutL_frame.
  set (t := electionTimeout _). clearbody t.
  do 2 eexists. split; [done|]. cbn. split_and!; [|done|done| |].
  - apply node_wf_set_electionTimeout. pose proof (nw_self _ Hwf1) as Hself.
    pose proof (nw_me _ Hwf1). destruct Hwf1. split; cbn; try done.
    + apply (persistL_persisted (set_votedFor rf1 (rv_CandidateId args))); cbn; done.
    + intros Hr. specialize (Hself Hr). unfold NA in *. destruct H as [H|H]; bools; lia.
  - exists rf1. cbn. split_and!; try done; [lia|].
    destruct H as [H|H]; bools; auto.
  - exists last. rewrite <- Hlast, !lastLogL_last, Hlog. done.
Qed.

(** ** AppendEntries *)

(** The state in which [processAppendEntriesL] runs. *)
Definition ae_preamble (env : Env) rf (args : AppendEntriesArgs C) : Raft C :=
  let rf := if ae_Term args >? currentTerm rf then becomeFollowerL rf (ae_Term args) else rf in
  let rf := if role_eqb (role rf) Candidate && (ae_Term args >=? currentTerm rf)
            then becomeFollowerL rf (ae_Term args) else rf in
  if ae_Term args >=? currentTerm rf
  then set_leaderId (resetElectionTimeoutL env rf false) (ae_LeaderId args)
  else rf.

Lemma AppendEntries_preamble env rf args :
  AppendEntries env rf args = processAppendEntriesL (ae_preamble env rf args) args.
Proof. done. Qed.

Lemma ae_preamble_spec env rf args :
  node_wf rf →
  let rf1 := ae_preamble env rf args in
  node_wf rf1 ∧ settles rf rf1 ∧ log rf1 = log rf ∧ commitIndex rf1 = commitIndex rf
  ∧ currentTerm rf1 = Z.max (currentTerm rf) (ae_Term args)
  ∧ (ae_Term args = currentTerm rf1 → role rf1 ≠ Candidate).
Proof.
  intros Hwf. unfold ae_preamble.
  destruct (settle_higher_term rf (ae_Term args) Hwf) as (Hwf1 & Hs & Hlog & Hct & Hci & _).
  set (rf1 := if ae_Term args >? currentTerm rf then _ else rf) in *. clearbody rf1.
  set (rf2 := if role_eqb (role rf1) Candidate && _ then _ else rf1).
  assert (node_wf rf2 ∧ settles rf rf2 ∧ log rf2 = log rf ∧ commitIndex rf2 = commitIndex rf
    ∧ currentTerm rf2 = Z.max (currentTerm rf) (ae_Term args)
    ∧ (ae_Term args = currentTerm rf2 → role rf2 ≠ Candidate)) as (Hwf2 & Hs2 & Hl2 & Hc2 & Ht2 & Hr2).
  { subst rf2. unfold role_eqb. destruct (bool_decide _ && _) eqn:E; bools.
    - split_and!; [apply becomeFollowerL_wf; [done|lia]| |done|done|cbn; lia|done].
      right. destruct Hs as [[]|[]]; [|congruence].
      split; cbn; try congruence. right. split; [lia|congruence].
    - split_and!; try done. intros Heq Hr. destruct E as [E|E]; bools; [done|lia]. }
  clearbody rf2. destruct (ae_Term args >=? currentTerm rf2).
  - rewrite resetElectionTimeoutL_frame. cbn. split_and!; try done; auto with labs.
    eapply settles_same; [exact Hs2|]. by split.
  - split_and!; done.
Qed.

(** The entries of the message up to [j] are in the log, with equal terms. *)
Definition matched (l : list (LogEntry C)) (args : AppendEntriesArgs C) (j : nat) : Prop :=
  ∀ (k : nat) e, (k < j)%nat → ae_Entries args !! k = Some e →
    ∃ e', entry_at l (ae_PrevLogIndex args + 1 + Z.of_nat k) = Some e' ∧ Term e' = Term e.

(** What a successful AppendEntries makes of the log: nothing when it has all
    the entries already, otherwise the log up to the first entry it lacks,
    followed by the rest of the message. *)
Inductive ae_result (l : list (LogEntry C)) (args : AppendEntriesArgs C)
    : list (LogEntry C) → Prop :=
  | ae_result_same :
      matched l args (length (ae_Entries args)) → ae_result l args l
  | ae_result_new (i : nat) e :
      ae_Entries args !! i = Some e →
      matched l args i →
      (∀ e', entry_at l (ae_PrevLogIndex args + 1 + Z.of_nat i) = Some e' → Term e' ≠ Term e) →
      ae_result l args
        (take (Z.to_nat (ae_PrevLogIndex args + 1 + Z.of_nat i - firstIdx l)) l
         ++ drop i (ae_Entries args)).

(** What [appendNewEntries] may do to a state. *)
Definition writes_log rf rf' (l : list (LogEntry C)) : Prop :=
  (rf' = rf ∧ l = log rf) ∨ rf' = persistL (set_log rf l).

Lemma appendNewEntries_spec rf args (i : nat) :
  log_wf (log rf) →
  firstIdx (log rf) <= ae_PrevLogIndex args <= lastIdx (log rf) →
  matched (log rf) args i → (i <= length (ae_Entries args))%nat →
  ∃ rf' l, appendNewEntries rf args (Z.of_nat i) (drop i (ae_Entries args)) = Some rf'
    ∧ ae_result (log rf) args l ∧ writes_log rf rf' l.
Proof.
  intros Hwf Hprev Hm Hi.
  remember (drop i (ae_Entries args)) as es eqn:Hes. revert i Hm Hi Hes.
  induction es as [|e es IH]; intros i Hm Hi Hes.
  { exists rf, (log rf). split_and!; [done| |by left].
    constructor. assert (length (drop i (ae_Entries args)) = 0%nat) as Hl by by rewrite <- Hes.
    rewrite length_drop in Hl. by replace (length (ae_Entries args)) with i by lia. }
  assert (ae_Entries args !! i = Some e) as Hei.
  { rewrite <- (Nat.add_0_r i), <- lookup_drop, <- Hes. done. }
  pose proof (lookup_lt_Some _ _ _ Hei) as Hlt.
  assert (es = drop (S i) (ae_Entries args)) as Hes'.
  { replace (S i) with (i + 1)%nat by lia. rewrite <- drop_drop, <- Hes. done. }
  assert (firstIdx (log rf) <= ae_PrevLogIndex args + 1 + Z.of_nat i <= lastIdx (log rf) + 1) as Hr.
  { split; [lia|]. destruct i as [|i']; [lia|].
    destruct (lookup_lt_is_Some_2 (ae_Entries args) i' ltac:(lia)) as [e' He'].
    destruct (Hm i' e' ltac:(lia) He') as (e'' & Hb & _). apply entry_at_bounds in Hb; [lia|done]. }
  cbn [appendNewEntries]. destruct (lastLogL_spec _ Hwf) as (lst & -> & HI & _).
  cbn [mbind option_bind]. rewrite HI, getLogL_spec by done.
  set (idx := ae_PrevLogIndex args + 1 + Z.of_nat i) in *.
  assert (ae_result (log rf) args
    (take (Z.to_nat (idx - firstIdx (log rf))) (log rf) ++ drop i (ae_Entries args)) →
    ∃ rf' l, (k ← logSliceIndexL rf idx; kept ← slice_to (log rf) k;
       added ← slice_from (ae_Entries args) (Z.of_nat i);
       Some (persistL (set_log rf (kept ++ added)))) = Some rf'
    ∧ ae_result (log rf) args l ∧ writes_log rf rf' l) as Hnew.
  { intros Hres. rewrite logSliceIndexL_spec by (done || lia). cbn [mbind option_bind].
    pose proof (last_idx _ Hwf).
    rewrite slice_to_eq by lia. cbn [mbind option_bind].
    rewrite slice_from_eq by (unfold go_len; lia).
    cbn [mbind option_bind]. rewrite Nat2Z.id. do 2 eexists. split_and!; [done|exact Hres|by right]. }
  destruct (Z.ltb_spec (lastIdx (log rf)) idx) as [Hgt|Hle]; cbn [mbind option_bind].
  { apply Hnew. eapply ae_result_new; [done|done|]. intros e' He'.
    apply entry_at_bounds in He'; [|done]. fold idx in He'. lia. }
  destruct (entry_at_range _ idx Hwf ltac:(lia)) as [e' He']. rewrite He'. cbn [mbind option_bind].
  destruct (Z.eqb_spec (Term e) (Term e')) as [Heq|Hne]; cbn [negb].
  - replace (Z.of_nat i + 1) with (Z.of_nat (S i)) by lia. apply IH; [|lia|done].
    intros k ek Hk Hek. destruct (decide (k = i)) as [->|]; [|apply Hm; [lia|done]].
    simplify_eq. eauto.
  - apply Hnew. eapply ae_result_new; [done|done|]. fold idx. rewrite He'. intros; simplify_eq. congruence.
Qed.

Lemma lastIdx_take l n :
  log_wf l → (0 < n <= length l)%nat → lastIdx (take n l) = firstIdx l + Z.of_nat n - 1.
Proof.
  intros Hwf Hn. rewrite last_idx by (apply log_wf_take; [done|lia]).
  unfold go_len. rewrite length_take.
  assert (firstIdx (take n l) = firstIdx l) as -> by (destruct l, n; (done || lia)). lia.
Qed.

(** The entry that the log and the message share before position [i]. *)
Lemma matched_prev l args i e0 :
  ae_wf args → entry_at l (ae_PrevLogIndex args) = Some e0 → Term e0 = ae_PrevLogTerm args →
  matched l args i → (i <= length (ae_Entries args))%nat →
  ∃ e, entry_at l (ae_PrevLogIndex args + Z.of_nat i) = Some e
    ∧ (∀ j e', (i <= j)%nat → ae_Entries args !! j = Some e' → Term e <= Term e')
    ∧ (i = 0%nat ∧ e = e0 ∨ ∃ e1, i ≠ 0%nat ∧ ae_Entries args !! pred i = Some e1 ∧ Term e1 = Term e).
Proof.
  intros Hae He0 Ht0 Hm Hi. destruct i as [|i].
  - exists e0. rewrite Z.add_0_r. split_and!; [done| |by left].
    intros j e' _ Hj. rewrite Ht0. apply (aw_prevTerm _ Hae). by eapply list_elem_of_lookup_2.
  - destruct (lookup_lt_is_Some_2 (ae_Entries args) i ltac:(lia)) as [e1 He1].
    destruct (Hm i e1 ltac:(lia) He1) as (e & He & Ht).
    exists e. split_and!; [rewrite <- He; f_equal; lia| |].
    + intros j e' ? Hj. rewrite Ht. eapply (aw_terms _ Hae); [|exact He1|exact Hj]. lia.
    + right. exists e1. done.
Qed.

Lemma ae_result_wf l args l' e0 :
  log_wf l → ae_wf args → entry_at l (ae_PrevLogIndex args) = Some e0 →
  Term e0 = ae_PrevLogTerm args → ae_result l args l' →
  log_wf l' ∧ firstIdx l' = firstIdx l ∧ firstTerm l' = firstTerm l
  ∧ lastTerm l' <= Z.max (lastTerm l) (ae_Term args)
  ∧ ae_PrevLogIndex args + go_len (ae_Entries args) <= lastIdx l'.
Proof.
  intros Hwf Hae He0 Ht0 Hres. pose proof (entry_at_bounds _ _ _ Hwf He0) as Hb0.
  destruct Hres as [Hm|i e Hei Hm _].
  { split_and!; try done; [lia|].
    destruct (matched_prev _ _ _ _ Hae He0 Ht0 Hm ltac:(lia)) as (e & He & _).
    apply entry_at_bounds in He; [unfold go_len; lia|done]. }
  pose proof (lookup_lt_Some _ _ _ Hei) as Hlt.
  destruct (matched_prev _ _ _ _ Hae He0 Ht0 Hm ltac:(lia)) as (ep & Hep & Hle & _).
  pose proof (entry_at_bounds _ _ _ Hwf Hep) as Hb. pose proof (last_idx _ Hwf) as Hlast.
  unfold go_len in *.
  set (n := Z.to_nat (ae_PrevLogIndex args + 1 + Z.of_nat i - firstIdx l)).
  assert (0 < n <= length l)%nat as Hn by lia.
  pose proof (log_wf_take _ n Hwf ltac:(lia)) as Hwt.
  pose proof (lastIdx_take _ _ Hwf Hn) as Hlt'.
  assert (lastTerm (take n l) = Term ep) as Hlterm.
  { destruct (last_entry _ Hwt) as (e' & _ & He' & _ & <-). rewrite Hlt' in He'.
    rewrite entry_at_take in He' by lia.
    replace (firstIdx l + Z.of_nat n - 1) with (ae_PrevLogIndex args + Z.of_nat i) in He' by lia.
    congruence. }
  assert (log_wf (take n l ++ drop i (ae_Entries args))) as Hwf'.
  { apply log_wf_app; [done| | |].
    - intros k e' Hk. rewrite lookup_drop in Hk. rewrite (aw_index _ Hae _ _ Hk), Hlt'. lia.
    - intros a b ea eb Hab. rewrite !lookup_drop. intros Ha Hb'.
      eapply (aw_terms _ Hae); [|exact Ha|exact Hb']. lia.
    - intros e' [k Hk]%list_elem_of_lookup. rewrite lookup_drop in Hk. rewrite Hlterm.
      apply (Hle (i + k)%nat); [lia|done]. }
  destruct (firstIdx_app (take n l) (drop i (ae_Entries args)) (lw_nonempty _ Hwt)) as [Hf Hft].
  assert (firstIdx (take n l) = firstIdx l ∧ firstTerm (take n l) = firstTerm l) as [Hf' Hft'].
  { destruct l, n; (done || lia). }
  split_and!; [done|congruence|congruence| |].
  - destruct (last_entry _ Hwf') as (e' & Hl & _ & _ & <-).
    rewrite last_app in Hl.
    assert (is_Some (last (drop i (ae_Entries args)))) as [e'' He''].
    { rewrite last_lookup, lookup_drop. apply lookup_lt_is_Some. rewrite length_drop. lia. }
    rewrite He'' in Hl. injection Hl as <-.
    transitivity (ae_Term args); [|lia]. apply (aw_term _ Hae).
    rewrite last_lookup, lookup_drop in He''. by eapply list_elem_of_lookup_2.
  - rewrite (last_idx _ Hwf'), Hf, Hf', go_len_app. unfold go_len. rewrite length_take, length_drop. lia.
Qed.

(** The new log has the entries of the message. *)
Lemma ae_result_entries l args l' e0 (k : nat) e :
  log_wf l → ae_wf args → entry_at l (ae_PrevLogIndex args) = Some e0 →
  Term e0 = ae_PrevLogTerm args → ae_result l args l' → ae_Entries args !! k = Some e →
  ∃ e', entry_at l' (ae_PrevLogIndex args + 1 + Z.of_nat k) = Some e' ∧ Term e' = Term e.
Proof.
  intros Hwf Hae He0 Ht0 Hres Hk.
  destruct (ae_result_wf _ _ _ _ Hwf Hae He0 Ht0 Hres) as (Hwf' & Hf & _).
  destruct Hres as [Hm|i ei Hei Hm _]; [apply Hm; [by eapply lookup_lt_Some|done]|].
  pose proof (lookup_lt_Some _ _ _ Hei) as Hlt. pose proof (entry_at_bounds _ _ _ Hwf He0) as Hb0.
  destruct (matched_prev _ _ _ _ Hae He0 Ht0 Hm ltac:(lia)) as (ep & Hep & _).
  apply entry_at_bounds in Hep as Hb; [|done]. pose proof (last_idx _ Hwf) as Hlast. unfold go_len in Hlast.
  set (q := Z.to_nat (ae_PrevLogIndex args + 1 + Z.of_nat i - firstIdx l)) in *.
  assert (0 < q <= length l)%nat as Hq by lia.
  pose proof (log_wf_take _ q Hwf ltac:(lia)) as Hwt. pose proof (lastIdx_take _ _ Hwf Hq) as Hlt'.
  destruct (decide (k < i)%nat) as [Hki|Hki].
  - destruct (Hm k e Hki Hk) as (e' & He' & Ht). exists e'. split; [|done].
    rewrite entry_at_app_l by (done || lia). rewrite entry_at_take by lia. done.
  - exists e. split; [|done]. rewrite entry_at_app_r by (done || lia).
    replace (ae_PrevLogIndex args + 1 + Z.of_nat k - lastIdx (take q l) - 1) with (Z.of_nat (k - i)) by lia.
    rewrite go_index_nat, lookup_drop. by replace (i + (k - i))%nat with k by lia.
Qed.

Lemma ae_result_matched l args l' :
  ae_result l args l' → matched l args (length (ae_Entries args)) → l' = l.
Proof.
  intros [_|i e Hi _ Hne] Hall; [done|].
  destruct (Hall i e) as (e' & He' & Ht); [by eapply lookup_lt_Some|done|]. by destruct (Hne e' He').
Qed.

(** The log up to [PrevLogIndex] is untouched. *)
Lemma ae_result_prefix l args l' e0 :
  log_wf l → ae_wf args → entry_at l (ae_PrevLogIndex args) = Some e0 →
  Term e0 = ae_PrevLogTerm args → ae_result l args l' →
  ∀ i, i <= ae_PrevLogIndex args → entry_at l' i = entry_at l i.
Proof.
  intros Hwf Hae He0 Ht0 Hres i Hi. destruct Hres as [_|k e Hk Hm _]; [done|].
  pose proof (lookup_lt_Some _ _ _ Hk) as Hlt. pose proof (entry_at_bounds _ _ _ Hwf He0) as Hb0.
  destruct (matched_prev _ _ _ _ Hae He0 Ht0 Hm ltac:(lia)) as (ep & Hep & _).
  apply entry_at_bounds in Hep as Hb; [|done]. pose proof (last_idx _ Hwf) as Hlast. unfold go_len in Hlast.
  set (q := Z.to_nat _). assert (0 < q <= length l)%nat as Hq by lia.
  pose proof (log_wf_take _ q Hwf ltac:(lia)) as Hwt. pose proof (lastIdx_take _ _ Hwf Hq) as Hlt'.
  rewrite entry_at_app_l by (done || lia). apply entry_at_take; lia.
Qed.

(** The backward search returns; the entries it passes have the term. *)
Lemma conflictSearch_spec fuel rf t index :
  log_wf (log rf) → firstIdx (log rf) - 1 <= index <= lastIdx (log rf) →
  index - firstIdx (log rf) <= Z.of_nat fuel →
  ∃ r, conflictSearch fuel rf t index = Some r
    ∧ firstIdx (log rf) - 1 <= r <= index + 1
    ∧ (∀ j, r <= j <= index → firstIdx (log rf) < j →
         ∃ e, entry_at (log rf) j = Some e ∧ Term e = t).
Proof.
  intros Hwf. revert index. induction fuel as [|fuel IH]; intros index Hi Hf; cbn [conflictSearch];
    rewrite logFirstIndexL_spec by done; cbn [mbind option_bind].
  - destruct (index >? firstIdx (log rf)) eqn:E; bools; [lia|].
    exists index. split_and!; [done|lia|lia|]. intros j ? ?. lia.
  - destruct (index >? firstIdx (log rf)) eqn:E; bools.
    2: { exists index. split_and!; [done|lia|lia|]. intros j ? ?. lia. }
    rewrite getLogL_spec by done. destruct (entry_at_range _ index Hwf ltac:(lia)) as [e He].
    rewrite He. cbn [mbind option_bind]. destruct (Z.eqb_spec (Term e) t) as [Ht|Ht]; cbn [negb].
    + destruct (IH (index - 1) ltac:(lia) ltac:(lia)) as (r & -> & Hr & Hall).
      exists r. split_and!; [done|lia|lia|]. intros j Hj Hj'.
      destruct (decide (j = index)) as [->|]; [eauto|]. apply Hall; lia.
    + exists (index + 1). split_and!; [done|lia|lia|]. intros; lia.
Qed.

Lemma prevLogConflictL_spec rf args :
  log_wf (log rf) →
  ∃ b ct ci, prevLogConflictL rf args = Some (b, ct, ci)
    ∧ (b = false → ∃ e, entry_at (log rf) (ae_PrevLogIndex args) = Some e
          ∧ Term e = ae_PrevLogTerm args)
    ∧ (b = true → firstIdx (log rf) <= ae_PrevLogIndex args → ci <= ae_PrevLogIndex args)
    ∧ (b = true → ∀ e, entry_at (log rf) (ae_PrevLogIndex args) = Some e →
          Term e ≠ ae_PrevLogTerm args).
Proof.
  intros Hwf. unfold prevLogConflictL. destruct (lastLogL_spec _ Hwf) as (lst & -> & HI & _).
  rewrite logFirstIndexL_spec by done. cbn [mbind option_bind]. rewrite HI.
  destruct (Z.ltb_spec (lastIdx (log rf)) (ae_PrevLogIndex args)).
  { do 3 eexists. split_and!; [done|done|lia|]. intros _ e He. apply entry_at_bounds in He; [lia|done]. }
  destruct (firstIdx (log rf) >? ae_PrevLogIndex args) eqn:E; bools.
  { do 3 eexists. split_and!; [done|done|lia|]. intros _ e He. apply entry_at_bounds in He; [lia|done]. }
  rewrite getLogL_spec by done.
  destruct (entry_at_range _ (ae_PrevLogIndex args) Hwf ltac:(lia)) as [e He].
  rewrite He. cbn [mbind option_bind].
  destruct (Z.eqb_spec (Term e) (ae_PrevLogTerm args)) as [Ht|Ht]; cbn [negb].
  { do 3 eexists. split_and!; [done|eauto|done|done]. }
  destruct (conflictSearch_spec (Z.to_nat (ae_PrevLogIndex args - 1 - firstIdx (log rf))) rf
    (Term e) (ae_PrevLogIndex args - 1) Hwf ltac:(lia) ltac:(lia)) as (r & -> & Hr & _).
  do 3 eexists. split_and!; [done|done|lia|]. intros _ e' ?. simplify_eq. done.
Qed.

Record ae_post rf (args : AppendEntriesArgs C) rf' (reply : AppendEntriesReply) : Prop := {
  ap_replyTerm : aer_Term reply = currentTerm rf';
  ap_success : aer_Success reply = true →
    ae_Term args = currentTerm rf' ∧ ae_result (log rf) args (log rf')
    ∧ (∃ e, entry_at (log rf) (ae_PrevLogIndex args) = Some e ∧ Term e = ae_PrevLogTerm args)
    ∧ commitIndex rf' = (if ae_LeaderCommit args >? commitIndex rf
                         then Z.min (ae_LeaderCommit args) (lastIdx (log rf')) else commitIndex rf);
  ap_failure : aer_Success reply = false → log rf' = log rf ∧ commitIndex rf' = commitIndex rf;
}.

Lemma processAppendEntriesL_spec rf args :
  node_wf rf → ae_wf args → ae_Term args <= currentTerm rf →
  ∃ rf' reply, processAppendEntriesL rf args = Some (rf', reply)
    ∧ node_wf rf' ∧ same_vote rf rf' ∧ ae_post rf args rf' reply
    ∧ writes_log rf (set_applier (set_commitIndex rf' (commitIndex rf)) (applier rf)) (log rf').
Proof.
  intros Hwf Hae Hterm. unfold processAppendEntriesL.
  pose proof (nw_log _ Hwf) as Hlog. destruct (lastLogL_spec _ Hlog) as (lst & -> & _ & _).
  cbn [mbind option_bind].
  assert (∀ f, writes_log rf (set_applier (set_commitIndex rf (commitIndex rf)) (applier rf)) (log rf)
    ∧ ae_post rf args rf (MkAppendEntriesReply (currentTerm rf) false (fst f) (snd f))) as Hfail.
  { intros f. split; [left; by destruct rf|]. split; done. }
  destruct (Z.ltb_spec (ae_Term args) (currentTerm rf)).
  { do 2 eexists. split_and!; [done|done|reflexivity|apply (Hfail (0, 0))|apply (Hfail (0, 0))]. }
  destruct (prevLogConflictL_spec rf args Hlog) as (b & ct & ci & -> & Hok & _). cbn [mbind option_bind].
  destruct b.
  { do 2 eexists. split_and!; [done|done|reflexivity|apply (Hfail (ct, ci))|apply (Hfail (ct, ci))]. }
  destruct (Hok eq_refl) as (e0 & He0 & Ht0).
  pose proof (entry_at_bounds _ _ _ Hlog He0) as Hb.
  destruct (appendNewEntries_spec rf args 0 Hlog Hb) as (rf1 & l & Hrun & Hres & Hw);
    [intros ?? ?; lia|lia|].
  rewrite drop_0 in Hrun. change (Z.of_nat 0) with 0 in Hrun. rewrite Hrun. cbn [mbind option_bind].
  destruct (ae_result_wf _ _ _ _ Hlog Hae He0 Ht0 Hres) as (Hwf1 & Hf & Hft & Hlt & _).
  pose proof (nw_lastTerm _ Hwf).
  assert (node_wf rf1 ∧ same_vote rf rf1 ∧ log rf1 = l ∧ commitIndex rf1 = commitIndex rf
    ∧ applier rf1 = applier rf) as (Hn1 & Hsv & <- & Hc & Hap).
  { destruct Hw as [[-> ->]| ->]; [split_and!; try done; reflexivity|].
    split_and!; [apply node_wf_persist_log; try done; lia|by split|done|done|done]. }
  destruct (lastLogL_spec _ Hwf1) as (lst1 & -> & HI & _). cbn [mbind option_bind].
  assert (writes_log rf (set_applier (set_commitIndex rf1 (commitIndex rf)) (applier rf)) (log rf1)) as Hw'.
  { destruct Hw as [[-> _]|Hw]; [left; by destruct rf|].
    right. rewrite <- Hw. rewrite <- Hc, <- Hap. by destruct rf1. }
  rewrite HI, Min_spec, Hc.
  destruct (ae_LeaderCommit args >? commitIndex rf) eqn:Ec.
  - rewrite applySignalL_frame. do 2 eexists. split_and!; [done|auto with labs| |split; cbn|exact Hw'].
    + etrans; [exact Hsv|by split].
    + symmetry. apply Hsv.
    + intros _. rewrite Ec. split_and!; [rewrite (sv_term _ _ Hsv); lia|done|eauto|done].
    + done.
  - do 2 eexists. split_and!; [done|done|done|split; cbn|exact Hw'].
    + symmetry. apply Hsv.
    + intros _. rewrite Ec. split_and!; [rewrite (sv_term _ _ Hsv); lia|done|eauto|done].
    + done.
Qed.

(** The disk after [writes_log]: unchanged, or the new log. *)
Lemma AppendEntries_spec env rf args :
  node_wf rf → ae_wf args →
  ∃ rf1 rf' reply, AppendEntries env rf args = Some (rf', reply)
    ∧ rf1 = ae_preamble env rf args
    ∧ node_wf rf' ∧ settles rf rf' ∧ ae_post rf args rf' reply
    ∧ writes_log rf1 (set_applier (set_commitIndex rf' (commitIndex rf1)) (applier rf1)) (log rf').
Proof.
  intros Hwf Hae. rewrite AppendEntries_preamble.
  destruct (ae_preamble_spec env rf args Hwf) as (Hwf1 & Hs & Hl & Hc & Ht & _).
  set (rf1 := ae_preamble env rf args) in *.
  destruct (processAppendEntriesL_spec rf1 args Hwf1 Hae ltac:(lia))
    as (rf' & reply & -> & Hwf' & Hsv & [Hrt Hsu Hfa] & Hw).
  exists rf1, rf', reply. split_and!; try done.
  - by eapply settles_same.
  - rewrite Hl, Hc in Hsu, Hfa. by split.
Qed.

(** ** InstallSnapshot *)

(** The log after a snapshot is installed: the tail of the log when it has the
    last included entry, otherwise a log with only that entry. *)
Inductive is_result (l : list (LogEntry C)) (snap : Snapshot) : list (LogEntry C) → Prop :=
  | is_result_trim e :
      entry_at l (LastIncludedIndex snap) = Some e → Term e = LastIncludedTerm snap →
      is_result l snap (drop (Z.to_nat (LastIncludedIndex snap - firstIdx l)) l)
  | is_result_discard :
      (∀ e, entry_at l (LastIncludedIndex snap) = Some e → Term e ≠ LastIncludedTerm snap) →
      is_result l snap [MkLogEntry None (LastIncludedIndex snap) (LastIncludedTerm snap)].

Lemma drop_to_index l i e :
  log_wf l → entry_at l i = Some e →
  let l' := drop (Z.to_nat (i - firstIdx l)) l in
  log_wf l' ∧ firstIdx l' = i ∧ firstTerm l' = Term e ∧ lastIdx l' = lastIdx l ∧ lastTerm l' = lastTerm l.
Proof.
  intros Hwf He l'. pose proof (entry_at_bounds _ _ _ Hwf He) as Hb.
  pose proof (last_idx _ Hwf). unfold go_len in *.
  set (n := Z.to_nat (i - firstIdx l)) in *. assert (n < length l)%nat as Hn by lia.
  destruct (log_wf_drop _ _ Hwf Hn) as [Hwf' Hf]. fold l' in Hwf', Hf.
  split_and!; [done|lia| | |].
  - apply entry_at_lookup in He as [_ He]. fold n in He.
    assert (l' !! 0%nat = Some e) as H0. { unfold l'. by rewrite lookup_drop, Nat.add_0_r. }
    by destruct (firstIdx_lookup _ _ H0).
  - unfold lastIdx, l'. by rewrite last_drop_log.
  - unfold lastTerm, l'. by rewrite last_drop_log.
Qed.

Lemma is_result_wf l snap l' :
  log_wf l → 0 <= LastIncludedIndex snap → 0 <= LastIncludedTerm snap → is_result l snap l' →
  log_wf l' ∧ firstIdx l' = LastIncludedIndex snap ∧ firstTerm l' = LastIncludedTerm snap
  ∧ lastTerm l' <= Z.max (lastTerm l) (LastIncludedTerm snap).
Proof.
  intros Hwf Hi Ht [e He Hte|_].
  - destruct (drop_to_index _ _ _ Hwf He) as (? & ? & ? & ? & ?). split_and!; try done; [congruence|lia].
  - split_and!; [by apply log_wf_singleton|done|done|]. unfold lastTerm; cbn. lia.
Qed.

Lemma InstallSnapshot_spec env rf args :
  node_wf rf → is_wf args →
  ∃ rf1 rf' reply, InstallSnapshot env rf args = Some (rf', reply)
    ∧ rf1 = (if is_Term args >? currentTerm rf then becomeFollowerL rf (is_Term args) else rf)
    ∧ node_wf rf' ∧ settles rf rf' ∧ isr_Term reply = currentTerm rf'
    ∧ persister rf' = persister rf1 ∧ commitIndex rf' = commitIndex rf
    ∧ (log rf' = log rf ∨ is_Term args = currentTerm rf' ∧ is_result (log rf) (is_Snapshot args) (log rf')
         ∧ firstIdx (log rf) < LastIncludedIndex (is_Snapshot args)).
Proof.
  intros Hwf Hsw. unfold InstallSnapshot.
  destruct (settle_higher_term rf (is_Term args) Hwf) as (Hwf1 & Hs & Hlog & Hct & Hci & _).
  set (rf1 := if is_Term args >? currentTerm rf then _ else rf) in *. exists rf1. clearbody rf1.
  set (rf2 := if is_Term args >=? currentTerm rf1 then _ else rf1).
  assert (node_wf rf2 ∧ same_vote rf1 rf2 ∧ log rf2 = log rf ∧ persister rf2 = persister rf1
    ∧ commitIndex rf2 = commitIndex rf) as (Hwf2 & Hsv & Hl2 & Hp2 & Hc2).
  { subst rf2. destruct (_ >=? _); [|by split_and!; try reflexivity].
    rewrite resetElectionTimeoutL_frame. split_and!; try done; auto with labs. }
  clearbody rf2. pose proof (settles_same _ _ _ Hs Hsv) as Hs2.
  destruct (Z.ltb_spec (is_Term args) (currentTerm rf2)).
  { do 2 eexists. split_and!; try done. by left. }
  rewrite logFirstIndexL_spec by apply Hwf2. cbn [mbind option_bind].
  destruct (firstIdx (log rf2) >=? LastIncludedIndex (is_Snapshot args)) eqn:E; bools.
  { do 2 eexists. split_and!; try done. by left. }
  set (rf3 := set_snapshot rf2 (is_Snapshot args)).
  assert (log_wf (log rf3)) as Hwf3 by apply Hwf2.
  destruct (lastLogL_spec rf3 Hwf3) as (lst & -> & HI & _). cbn [mbind option_bind]. rewrite HI.
  rewrite getLogL_spec by done. change (log rf3) with (log rf2) in *.
  set (snap := is_Snapshot args) in *.
  assert (∃ l, is_result (log rf2) snap l
    ∧ ∃ b, (if lastIdx (log rf2) >=? LastIncludedIndex snap
            then e ← entry_at (log rf2) (LastIncludedIndex snap); Some (Term e =? LastIncludedTerm snap)
            else Some false) = Some b
    ∧ (if (b : bool) then trimLogL rf3 (LastIncludedIndex snap)
       else Some (set_log rf3 [MkLogEntry None (LastIncludedIndex snap) (LastIncludedTerm snap)]))
      = Some (set_log rf3 l)) as (l & Hres & b & -> & Hb).
  { destruct (lastIdx (log rf2) >=? LastIncludedIndex snap) eqn:El; bools.
    - destruct (entry_at_range _ (LastIncludedIndex snap) Hwf3 ltac:(lia)) as [e He]. rewrite He.
      cbn [mbind option_bind]. destruct (Z.eqb_spec (Term e) (LastIncludedTerm snap)).
      + eexists. split; [by eapply is_result_trim|]. exists true. split; [done|].
        by apply (trimLogL_spec rf3); [done|cbn; lia].
      + eexists. split; [apply is_result_discard|by exists false]. intros. simplify_eq. done.
    - eexists. split; [apply is_result_discard|by exists false].
      intros e He. apply entry_at_bounds in He; [lia|done]. }
  cbn [mbind option_bind]. rewrite Hb. cbn [mbind option_bind].
  pose proof (sw_term _ Hsw). fold snap in H0.
  destruct (is_result_wf _ _ _ Hwf3 (sw_index _ Hsw) ltac:(fold snap; lia) Hres) as (Hwl & Hf & Hft & Hlt).
  fold snap in Hf, Hft, Hlt. pose proof (nw_lastTerm _ Hwf2). pose proof (sv_term _ _ Hsv).
  rewrite applySignalL_frame. do 2 eexists. split_and!; [done|done| | |done|done|done|].
  - apply node_wf_set_applier, node_wf_set_applySnapshot. destruct Hwf2. split; cbn; try done. lia.
  - eapply settles_same; [exact Hs2|by split].
  - right. cbn. rewrite <- Hl2. split_and!; [lia|done|lia].
Qed.

(** ** Snapshot and start-up *)

Lemma SnapshotL_spec rf index data :
  node_wf rf → index <= lastIdx (log rf) →
  ∃ rf', SnapshotL rf index data = Some rf' ∧ node_wf rf' ∧ same_vote rf rf'
    ∧ commitIndex rf' = commitIndex rf
    ∧ ((rf' = rf ∧ index <= firstIdx (log rf))
       ∨ (firstIdx (log rf) < index ∧ on_disk rf' (log rf')
          ∧ ∃ e, entry_at (log rf) index = Some e
          ∧ log rf' = drop (Z.to_nat (index - firstIdx (log rf))) (log rf)
          ∧ snapshot rf' = MkSnapshot index (Term e) data)).
Proof.
  intros Hwf Hi. pose proof (nw_log _ Hwf) as Hlog. unfold SnapshotL.
  rewrite logFirstIndexL_spec by done. cbn [mbind option_bind].
  destruct (index >? firstIdx (log rf)) eqn:E; bools.
  2: { exists rf. split_and!; try done. by left. }
  rewrite trimLogL_spec by (done || lia). cbn [mbind option_bind].
  destruct (entry_at_range _ index Hlog ltac:(lia)) as [e He].
  destruct (drop_to_index _ _ _ Hlog He) as (Hwl & Hf & Hft & Hl & Hlt).
  set (l := drop _ (log rf)) in *. destruct (first_entry _ Hwl) as (e0 & _ & He0 & HI0 & HT0).
  change (log (set_log rf l)) with l. change 0 with (Z.of_nat 0). rewrite go_index_nat, He0.
  cbn [mbind option_bind]. rewrite HI0, HT0, Hf, Hft.
  pose proof (nw_lastTerm _ Hwf).
  eexists. split_and!; [done| |by split|done|].
  - destruct Hwf. split; cbn; try done; [lia|].
    apply (persistL_persisted (set_snapshot (set_log rf l) (MkSnapshot index (Term e) data))); cbn; [done|lia].
  - right. split_and!; [lia|apply (persistL_on_disk (set_snapshot (set_log rf l) _))|].
    exists e. done.
Qed.

(** A peer started on the disk of a well-formed peer is well formed, and it
    has the term, the vote and the log that are on that disk. *)
Lemma Make_spec env rf :
  node_wf rf →
  ∃ rf', Make env (nPeers rf) (me rf) (persister rf) = Some rf' ∧ node_wf rf'
    ∧ me rf' = me rf ∧ nPeers rf' = nPeers rf ∧ currentTerm rf' = currentTerm rf
    ∧ votedFor rf' = votedFor rf ∧ role rf' = Follower ∧ persister rf' = persister rf
    ∧ (log rf' = [MkLogEntry None 0 0] ∨ on_disk rf (log rf')).
Proof.
  intros Hwf. unfold Make, initL, ReadRaftState.
  pose proof (nw_me _ Hwf) as Hme.
  set (rf0 := new_raft env (nPeers rf) (me rf) (persister rf)).
  assert (∃ rf1, readPersist rf0 (raftstate (persister rf)) = Some rf1
    ∧ node_wf rf1 ∧ me rf1 = me rf ∧ nPeers rf1 = nPeers rf ∧ currentTerm rf1 = currentTerm rf
    ∧ votedFor rf1 = votedFor rf ∧ role rf1 = Follower ∧ persister rf1 = persister rf
    ∧ (log rf1 = [MkLogEntry None 0 0] ∨ on_disk rf (log rf1))) as (rf1 & -> & H).
  { assert (go_len (replicate (Z.to_nat (nPeers rf)) 0) = nPeers rf) as Hlen.
    { unfold go_len. rewrite length_replicate. lia. }
    destruct (nw_disk _ Hwf) as [(Hd & Hct & Hv)|(l & [Hne Hd] & Hl & Hlt)].
    - exists rf0. rewrite Hd. split; [done|]. cbn. rewrite Hct, Hv. split_and!; try done; [|by left].
      split; cbn; try done. apply log_wf_singleton; lia. by left.
    - unfold readPersist. destruct (raftstate (persister rf)) as [|b0 bs] eqn:Eb; [done|].
      rewrite Hd. cbn [mbind option_bind].
      destruct (first_entry _ Hl) as (e & _ & He & HI & HT).
      set (rf2 := set_log _ l). change (log rf2) with l.
      change 0 with (Z.of_nat 0) at 1. rewrite go_index_nat, He. cbn [mbind option_bind].
      rewrite logFirstIndexL_spec by done. cbn [mbind option_bind].
      eexists. split; [done|]. cbn. split_and!; try done.
      + split; cbn; try done. right. exists l. split; [|done]. split; cbn; rewrite Eb; done.
      + right. split; rewrite Eb; done. }
  cbn [mbind option_bind]. eexists. split; [done|]. destruct (_ =? 0); [done|].
  rewrite resetElectionTimeoutL_frame. destruct H as (? & H). cbn. split; [auto with labs|done].
Qed.
End recv.
