(* ===== verification/RaftSend.v ===== *)
(** * Package [raft]: specifications of the sending side

    The effects of elections, replication, [Start] and the applier on a
    well-formed peer.  [makeAppendArgsL], [setCommitIndexL] and the reply
    handlers index arrays with values that come from other peers; what is stated
    of them here is what holds when they return. *)

From S2P Require Import Prelude Util Labgob RaftState RaftHandlers RaftLeader RaftNode RaftRecv.

Section send.
Context {C : Type} `{!GobCodec (PState C), !GobLaws (PState C)}.
Implicit Types (rf : Raft C) (l : list (LogEntry C)).

(** Everything but the leader's volatile arrays and the commit index. *)
Record same_node rf rf' : Prop := {
  sn_vote : same_vote rf rf';
  sn_log : log rf' = log rf;
  sn_disk : persister rf' = persister rf;
  sn_snap : snapshot rf' = snapshot rf;
}.

#[global] Instance same_node_refl : Reflexive same_node.
Proof. intros rf. split; done. Qed.
#[global] Instance same_node_trans : Transitive same_node.
Proof. intros ??? [] []. split; [by etrans|congruence..]. Qed.

Lemma otherPeers_spec rf i : 0 <= nPeers rf → i ∈ otherPeers rf ↔ 0 <= i < nPeers rf ∧ i ≠ me rf.
Proof.
  intros Hn. unfold otherPeers. rewrite list_elem_of_filter, list_elem_of_fmap. split.
  - intros (? & k & -> & Hk). apply elem_of_seq in Hk. lia.
  - intros [? ?]. split; [done|]. exists (Z.to_nat i). split; [lia|]. apply elem_of_seq. lia.
Qed.

Lemma otherPeers_NoDup rf : NoDup (otherPeers rf).
Proof.
  unfold otherPeers. apply NoDup_filter. apply NoDup_fmap_2; [intros ???; lia|]. apply NoDup_seq.
Qed.

(** ** Candidate *)

Lemma becomeCandidateL_spec env rf :
  node_wf rf →
  ∃ rf' args, becomeCandidateL env rf = Some (rf', (λ i, GoRequest i args) <$> otherPeers rf)
    ∧ node_wf rf' ∧ me rf' = me rf ∧ nPeers rf' = nPeers rf ∧ log rf' = log rf
    ∧ on_disk rf' (log rf') ∧ currentTerm rf' = currentTerm rf + 1 ∧ votedFor rf' = me rf
    ∧ role rf' = Candidate ∧ commitIndex rf' = commitIndex rf ∧ snapshot rf' = snapshot rf
    ∧ args = MkRequestVoteArgs (currentTerm rf') (me rf) (lastIdx (log rf)) (lastTerm (log rf)).
Proof.
  intros Hwf. unfold becomeCandidateL.
  set (rf1 := set_leaderId _ NA). rewrite resetElectionTimeoutL_frame.
  set (t := electionTimeout _). clearbody t.
  set (rf2 := set_electionTimeout (persistL rf1) t).
  assert (log_wf (log rf2)) as Hl by apply Hwf.
  unfold requestsL. destruct (lastLogL_spec rf2 Hl) as (lst & -> & HI & HT). cbn [mbind option_bind].
  pose proof (nw_lastTerm _ Hwf).
  exists rf2. eexists. split; [done|]. split_and!; try done.
  - apply node_wf_set_electionTimeout. destruct Hwf. split; cbn; try done; [lia|].
    apply (persistL_persisted rf1); cbn; [done|lia].
  - apply (persistL_on_disk rf1).
  - rewrite HI, HT. done.
Qed.

Lemma becomeLeaderL_spec rf :
  node_wf rf → votedFor rf = me rf →
  ∃ rf', becomeLeaderL rf = Some (rf', appendsL rf)
    ∧ node_wf rf' ∧ me rf' = me rf ∧ nPeers rf' = nPeers rf ∧ log rf' = log rf
    ∧ persister rf' = persister rf ∧ snapshot rf' = snapshot rf
    ∧ currentTerm rf' = currentTerm rf ∧ votedFor rf' = votedFor rf ∧ role rf' = Leader
    ∧ commitIndex rf' = commitIndex rf
    ∧ nextIndex rf' = replicate (Z.to_nat (nPeers rf)) (lastIdx (log rf) + 1)
    ∧ matchIndex rf' = replicate (Z.to_nat (nPeers rf)) 0.
Proof.
  intros Hwf Hv. unfold becomeLeaderL.
  destruct (lastLogL_spec _ (nw_log _ Hwf)) as (lst & -> & HI & _). cbn [mbind option_bind].
  pose proof (nw_next _ Hwf) as Hn. pose proof (nw_match _ Hwf) as Hm. pose proof (nw_me _ Hwf).
  rewrite Hn, Hm, Z.ltb_irrefl. cbn [orb]. unfold go_len in Hn, Hm.
  rewrite HI, (drop_ge (nextIndex rf)), app_nil_r by lia. cbn [matchIndex set_nextIndex].
  rewrite (drop_ge (matchIndex rf)), app_nil_r by lia.
  eexists. split; [done|]. split_and!; try done.
  assert (∀ x : Z, go_len (replicate (Z.to_nat (nPeers rf)) x) = nPeers rf) as Hr.
  { intros x. unfold go_len. rewrite length_replicate. lia. }
  destruct Hwf. split; cbn; try done; apply Hr.
Qed.

(** The three outcomes of a reply to a vote request. *)
Lemma processRequestReplyL_spec rf args reply votes :
  node_wf rf →
  ∃ rf' votes' sp, processRequestReplyL rf args reply votes = Some (rf', votes', sp) ∧ node_wf rf'
    ∧ log rf' = log rf
    ∧ ( (* ignored, counted, or refused *)
       (same_node rf rf' ∧ commitIndex rf' = commitIndex rf ∧ sp = []
        ∧ (votes' = votes ∨ votes' = votes + 1 ∧ rvr_VoteGranted reply = true
           ∧ currentTerm rf = rv_Term args ∧ role rf = Candidate))
       ∨ (steps_down rf rf' ∧ votes' = votes ∧ sp = [] ∧ on_disk rf' (log rf')
          ∧ currentTerm rf' = rvr_Term reply)
       ∨ (rvr_VoteGranted reply = true ∧ role rf = Candidate ∧ currentTerm rf = rv_Term args
          ∧ votes' = votes + 1 ∧ nPeers rf < 2 * votes'
          ∧ becomeLeaderL rf = Some (rf', sp))).
Proof.
  intros Hwf. unfold processRequestReplyL, role_eqb. pose proof (nw_me _ Hwf).
  destruct (_ && _) eqn:E; bools.
  2: { do 3 eexists. split_and!; [done|done|done|]. left. split_and!; try done; by left. }
  destruct (rvr_VoteGranted reply) eqn:Eg.
  - destruct (votes + 1 >? Z.quot (nPeers rf) 2) eqn:Ev; bools.
    + destruct (becomeLeaderL_spec rf Hwf) as (rf' & Hrun & Hwf' & Hrest).
      { apply Hwf. congruence. }
      rewrite Hrun. cbn [mbind option_bind]. do 3 eexists. split_and!; [done|done|apply Hrest|].
      right. right. rewrite Z.quot_div_nonneg in Ev by lia.
      split_and!; try done. pose proof (Z.div_mod (nPeers rf) 2). pose proof (Z.mod_pos_bound (nPeers rf) 2). lia.
    + do 3 eexists. split_and!; [done|done|done|]. left. split_and!; try done. right. done.
  - destruct (rvr_Term reply >? currentTerm rf) eqn:Et; bools.
    + do 3 eexists. split_and!; [done|apply becomeFollowerL_wf; [done|lia]|done|].
      right. left. split_and!; try done; [split; cbn; try done; lia|].
      apply (persistL_on_disk (set_currentTerm (set_votedFor (set_role rf Follower) NA) _)).
    + do 3 eexists. split_and!; [done|done|done|]. left. split_and!; try done; by left.
Qed.

(** ** Leader *)

(** A message carries the leader's term and the tail of its log. *)
Lemma makeAppendArgsL_spec rf server args :
  node_wf rf → makeAppendArgsL rf server = Some args →
  ae_wf args ∧ ae_Term args = currentTerm rf ∧ ae_LeaderId args = me rf
  ∧ ae_LeaderCommit args = commitIndex rf
  ∧ (∃ e, entry_at (log rf) (ae_PrevLogIndex args) = Some e ∧ Term e = ae_PrevLogTerm args)
  ∧ ae_Entries args = drop (Z.to_nat (ae_PrevLogIndex args + 1 - firstIdx (log rf))) (log rf)
  ∧ ae_PrevLogIndex args + go_len (ae_Entries args) = lastIdx (log rf).
Proof.
  intros Hwf H. pose proof (nw_log _ Hwf) as Hl. unfold makeAppendArgsL in H.
  destruct (go_index (nextIndex rf) server) as [next|]; cbn [mbind option_bind] in H; [|done].
  destruct (lastLogL_spec _ Hl) as (lst & Hlst & HI & _). rewrite Hlst in H. cbn [mbind option_bind] in H.
  rewrite HI, getLogL_spec in H by done. pose proof (last_idx _ Hl) as Hlast.
  pose proof (log_wf_len _ Hl). pose proof (lw_first _ Hl).
  set (b := lastIdx (log rf) >=? next) in H.
  destruct (if b then _ else _) as [es|] eqn:Ees; cbn [mbind option_bind] in H; [|done].
  destruct (entry_at (log rf) (next - 1)) as [e|] eqn:Ee; cbn [mbind option_bind] in H; [|done].
  injection H as <-. cbn. pose proof (entry_at_bounds _ _ _ Hl Ee) as Hb.
  unfold go_len in *.
  assert (es = drop (Z.to_nat (next - 1 + 1 - firstIdx (log rf))) (log rf)) as ->.
  { unfold b in Ees. destruct (_ >=? _) eqn:Eb; bools.
    - rewrite logSliceIndexL_spec in Ees by (done || lia). cbn [mbind option_bind] in Ees.
      apply slice_from_Some in Ees as [_ ->]. f_equal. lia.
    - injection Ees as <-. rewrite drop_ge; [done|]. lia. }
  set (n := Z.to_nat _).
  assert (∀ k e', drop n (log rf) !! k = Some e' → Index e' = next - 1 + 1 + Z.of_nat k
    ∧ entry_at (log rf) (next + Z.of_nat k) = Some e') as Hk.
  { intros k e' Hk. rewrite lookup_drop in Hk. rewrite (lw_index _ Hl _ _ Hk). split; [lia|].
    rewrite <- Hk, lookup_entry_at. f_equal. lia. }
  split_and!; try done; [|eauto|rewrite length_drop; lia].
  split; cbn.
  - lia.
  - intros k e' ?. by apply Hk.
  - intros i j a a' ?. rewrite !lookup_drop. intros. eapply (lw_terms _ Hl); [|done|done]. lia.
  - intros e' [k [_ Hk']%Hk]%list_elem_of_lookup. eapply entry_at_terms; [done| |exact Ee|exact Hk']. lia.
  - intros e' [k [_ Hk']%Hk]%list_elem_of_lookup. pose proof (nw_lastTerm _ Hwf).
    pose proof (lastTerm_ge _ _ _ Hl Hk'). lia.
Qed.

Lemma installArgsL_wf rf : node_wf rf → is_wf (installArgsL rf).
Proof.
  intros Hwf. destruct (nw_snap _ Hwf) as [Hi Ht]. pose proof (nw_log _ Hwf) as Hl.
  pose proof (lw_first _ Hl). pose proof (lw_term0 _ Hl). pose proof (nw_lastTerm _ Hwf).
  destruct (first_entry _ Hl) as (e & He & _ & _ & HT). pose proof (lastTerm_ge _ _ _ Hl He).
  split; cbn; lia.
Qed.

Lemma updateMatchAndNextL_node rf server m rf' :
  node_wf rf → updateMatchAndNextL rf server m = Some rf' →
  node_wf rf' ∧ same_node rf rf' ∧ commitIndex rf' = commitIndex rf.
Proof.
  intros Hwf H. unfold updateMatchAndNextL in H.
  destruct (go_index (matchIndex rf) server) as [m0|]; cbn [mbind option_bind] in H; [|done].
  destruct (if m >? m0 then _ else _) as [rf1|] eqn:E1; cbn [mbind option_bind] in H; [|done].
  assert (node_wf rf1 ∧ same_node rf rf1 ∧ commitIndex rf1 = commitIndex rf) as (Hwf1 & Hs1 & Hc1).
  { destruct (m >? m0); [|by simplify_eq].
    destruct (go_update (matchIndex rf) server m) as [ms|] eqn:Eu; cbn [mbind option_bind] in E1; [|done].
    injection E1 as <-. apply go_update_Some in Eu as [? ->]. split; [|done].
    apply node_wf_set_matchIndex; [done|]. unfold go_len. rewrite length_insert. apply Hwf. }
  destruct (go_index (nextIndex rf1) server) as [n0|]; cbn [mbind option_bind] in H; [|done].
  destruct (m >=? n0); [|by simplify_eq].
  destruct (go_update (nextIndex rf1) server (m + 1)) as [ns|] eqn:Eu; cbn [mbind option_bind] in H; [|done].
  injection H as <-. apply go_update_Some in Eu as [? ->]. split; [|split; [|done]].
  - apply node_wf_set_nextIndex; [done|]. unfold go_len. rewrite length_insert. apply Hwf1.
  - etrans; [exact Hs1|done].
Qed.

Lemma setCommitIndexL_node rf rf' b :
  node_wf rf → setCommitIndexL rf = Some (rf', b) → node_wf rf' ∧ same_node rf rf'.
Proof.
  intros Hwf H. unfold setCommitIndexL in H.
  destruct (go_index _ _) as [N|]; cbn [mbind option_bind] in H; [|done].
  destruct (N >? commitIndex rf); [|by simplify_eq].
  destruct (getLogL rf N) as [e|]; cbn [mbind option_bind] in H; [|done].
  destruct (_ =? _); simplify_eq; (split; [auto with labs|done]).
Qed.

Lemma processAppendReplyL_node rf server args reply rf' :
  node_wf rf → processAppendReplyL rf server args reply = Some rf' →
  node_wf rf' ∧ log rf' = log rf ∧ (same_node rf rf' ∨ steps_down rf rf' ∧ on_disk rf' (log rf')
    ∧ currentTerm rf' = aer_Term reply).
Proof.
  intros Hwf H. unfold processAppendReplyL in H.
  destruct (_ && _) eqn:E; bools.
  2: { simplify_eq. split_and!; [done|done|by left]. }
  destruct (aer_Success reply).
  - destruct (updateMatchAndNextL rf server _) as [rf1|] eqn:E1; cbn [mbind option_bind] in H; [|done].
    destruct (updateMatchAndNextL_node _ _ _ _ Hwf E1) as (Hwf1 & Hs1 & _).
    destruct (setCommitIndexL rf1) as [[rf2 ok]|] eqn:E2; cbn [mbind option_bind] in H; [|done].
    destruct (setCommitIndexL_node _ _ _ Hwf1 E2) as (Hwf2 & Hs2).
    injection H as <-. assert (same_node rf rf2) as Hs by by etrans.
    assert (same_node rf (applySignalL rf2)) as Hs'.
    { rewrite applySignalL_frame. etrans; [exact Hs|done]. }
    destruct ok; (split_and!; [auto with labs|apply Hs || apply Hs'|by left]).
  - destruct (aer_Term reply >? currentTerm rf) eqn:Et; bools.
    + injection H as <-. split_and!; [apply becomeFollowerL_wf; [done|lia]|done|].
      right. split_and!; [split; cbn; try done; lia| |done].
      apply (persistL_on_disk (set_currentTerm (set_votedFor (set_role rf Follower) NA) _)).
    + unfold processPrevLogConflictL in H.
      destruct (if _ || _ then _ else _) as [idx|]; cbn [mbind option_bind] in H; [|done].
      destruct (go_update (nextIndex rf) server idx) as [ns|] eqn:Eu; cbn [mbind option_bind] in H; [|done].
      injection H as <-. apply go_update_Some in Eu as [? ->]. split_and!; [|done|by left].
      apply node_wf_set_nextIndex; [done|]. unfold go_len. rewrite length_insert. apply Hwf.
Qed.

Lemma processInstallReplyL_node rf server args reply rf' :
  node_wf rf → processInstallReplyL rf server args reply = Some rf' →
  node_wf rf' ∧ log rf' = log rf ∧ (same_node rf rf' ∨ steps_down rf rf' ∧ on_disk rf' (log rf')
    ∧ currentTerm rf' = isr_Term reply).
Proof.
  intros Hwf H. unfold processInstallReplyL in H.
  destruct (_ && _) eqn:E; bools.
  2: { simplify_eq. split_and!; [done|done|by left]. }
  destruct (isr_Term reply >? currentTerm rf) eqn:Et; bools.
  - injection H as <-. split_and!; [apply becomeFollowerL_wf; [done|lia]|done|].
    right. split_and!; [split; cbn; try done; lia| |done].
    apply (persistL_on_disk (set_currentTerm (set_votedFor (set_role rf Follower) NA) _)).
  - destruct (updateMatchAndNextL_node _ _ _ _ Hwf H) as (Hwf1 & Hs1 & _).
    split_and!; [done|apply Hs1|by left].
Qed.

Lemma Start_spec rf command :
  node_wf rf →
  (role rf ≠ Leader ∧ Start rf command = Some (rf, (NA, NA, false), []))
  ∨ ∃ rf', role rf = Leader
    ∧ Start rf command = Some (rf', (lastIdx (log rf) + 1, currentTerm rf, true), appendsL rf)
    ∧ node_wf rf' ∧ same_vote rf rf' ∧ on_disk rf' (log rf') ∧ commitIndex rf' = commitIndex rf
    ∧ log rf' = log rf ++ [MkLogEntry command (lastIdx (log rf) + 1) (currentTerm rf)].
Proof.
  intros Hwf. unfold Start, role_eqb. case_bool_decide as Hr; [right|by left].
  pose proof (nw_log _ Hwf) as Hl. destruct (lastLogL_spec _ Hl) as (lst & -> & HI & _).
  cbn [mbind option_bind]. rewrite HI. set (e := MkLogEntry command _ _).
  eexists. split; [done|]. split; [done|]. pose proof (nw_lastTerm _ Hwf).
  assert (log_wf (log rf ++ [e])) as Hwf'.
  { apply log_wf_app; [done| | |].
    - intros [|k] e' ?; simplify_eq/=. lia.
    - intros [|i] [|j] a a' ???; simplify_eq/=. lia.
    - intros e' ->%list_elem_of_singleton. done. }
  destruct (firstIdx_app (log rf) [e] (lw_nonempty _ Hl)) as [Hf Hft].
  split_and!; [|by split|apply (persistL_on_disk (set_log rf (log rf ++ [e])))|done|done].
  apply node_wf_persist_log; try done. unfold lastTerm. rewrite last_snoc. done.
Qed.

(** The leader's backward search ends, at or before where it started. *)
Lemma matchSearch_spec fuel rf t minIndex index :
  log_wf (log rf) → index - minIndex + 1 <= Z.of_nat fuel →
  firstIdx (log rf) < minIndex → index <= lastIdx (log rf) →
  ∃ x, matchSearch fuel rf t minIndex index = Some x ∧ x <= index + 1.
Proof.
  intros Hwf. revert index. induction fuel as [|fuel IH]; intros index Hf Hmin Hi; cbn [matchSearch];
    destruct (index >=? minIndex) eqn:E; bools; try (exists index; split; [done|lia]); [lia|].
  rewrite getLogL_spec by done. destruct (entry_at_range _ index Hwf ltac:(lia)) as [e ->].
  cbn [mbind option_bind]. destruct (_ =? _); [exists (index + 1); split; [done|lia]|].
  destruct (IH (index - 1)) as (x & -> & ?); [lia..|]. exists x. split; [done|lia].
Qed.

(** ** Applier *)

Lemma apply_command_Some rf rf' msg :
  log_wf (log rf) → apply_command rf = Some (rf', Some msg) →
  CommandValid msg = true ∧ SnapshotValid msg = false
  ∧ CommandIndex msg = lastApplied rf + 1 ∧ lastApplied rf' = lastApplied rf + 1
  ∧ CommandIndex msg <= commitIndex rf ∧ firstIdx (log rf) < CommandIndex msg
  ∧ commitIndex rf' = commitIndex rf
  ∧ ∃ e, entry_at (log rf) (CommandIndex msg) = Some e ∧ MsgCommand msg = Command e.
Proof.
  intros Hwf H. unfold apply_command in H. destruct (commitIndex rf >? lastApplied rf) eqn:E; bools; [|done].
  rewrite logFirstIndexL_spec in H by done. cbn [mbind option_bind log set_lastApplied lastApplied] in H.
  destruct (Z.leb_spec (lastApplied rf + 1) (firstIdx (log rf))); [done|].
  rewrite getLogL_spec in H by done. cbn [log set_lastApplied lastApplied] in *.
  destruct (entry_at (log rf) (lastApplied rf + 1)) as [e|] eqn:Ee; cbn [mbind option_bind] in H; [|done].
  injection H as <- <-. cbn. split_and!; try done; [lia|]. eauto.
Qed.

(** A command that the applier sends is a committed entry of the log. *)
Lemma apply_command_entry rf rf' msg :
  node_wf rf → apply rf = Some (rf', Some msg) → CommandValid msg = true →
  CommandIndex msg <= commitIndex rf ∧ firstIdx (log rf) < CommandIndex msg
  ∧ ∃ e, entry_at (log rf) (CommandIndex msg) = Some e ∧ MsgCommand msg = Command e.
Proof.
  intros Hwf H Hv. pose proof (nw_log _ Hwf) as Hl.
  assert (∀ rf0, log rf0 = log rf → commitIndex rf0 = commitIndex rf → apply_command rf0 = Some (rf', Some msg) →
    CommandIndex msg <= commitIndex rf ∧ firstIdx (log rf) < CommandIndex msg
    ∧ ∃ e, entry_at (log rf) (CommandIndex msg) = Some e ∧ MsgCommand msg = Command e) as Hcmd.
  { intros rf0 Hlog Hc Ha. apply apply_command_Some in Ha as (_ & _ & _ & _ & ? & ? & _ & ?); [|by rewrite Hlog].
    rewrite Hlog, Hc in *. done. }
  unfold apply, applySnapshotL in H. destruct (applier rf); try done.
  - destruct (killed rf); [done|]. destruct (applySnapshot rf); [|by apply (Hcmd rf)].
    destruct (_ >? _); [by injection H as _ <-|by apply (Hcmd (set_applySnapshot rf false))].
  - by apply (Hcmd rf).
Qed.

Lemma apply_node rf rf' msg :
  node_wf rf → apply rf = Some (rf', msg) → node_wf rf' ∧ same_node rf rf'.
Proof.
  assert (∀ rf rf' msg, node_wf rf → apply_command rf = Some (rf', msg) →
    node_wf rf' ∧ same_node rf rf') as Hcmd.
  { clear. intros rf rf' msg Hwf H. unfold apply_command, apply_tail in H.
    destruct (commitIndex rf >? lastApplied rf).
    - rewrite logFirstIndexL_spec in H by apply Hwf. cbn [mbind option_bind] in H.
      destruct (_ <=? _).
      + simplify_eq. split; [auto with labs|done].
      + destruct (getLogL _ _); cbn [mbind option_bind] in H; [|done]. simplify_eq.
        split; [auto with labs|done].
    - destruct (_ && _); simplify_eq; (split; [auto with labs|done]). }
  intros Hwf H. unfold apply, apply_tail, applySnapshotL in H. destruct (applier rf).
  - destruct (killed rf); [simplify_eq; split; [auto with labs|done]|].
    destruct (applySnapshot rf); [|by eapply Hcmd].
    destruct (_ >? _).
    + simplify_eq. split; [auto with labs|done].
    + apply Hcmd in H; [|auto with labs]. destruct H as [? H]. split; [done|].
      etrans; [|exact H]. done.
  - by eapply Hcmd.
  - destruct (_ && _); simplify_eq; (split; [auto with labs|done]).
  - simplify_eq. done.
  - simplify_eq. done.
Qed.
End send.
