(* ===== verification/RaftCluster.v ===== *)
(** * A cluster of Raft peers

    [n] peers of raft.go, the goroutines they have started and the remote calls
    in flight.  The network is the one of labrpc.go: a call is delivered at most
    once, its reply comes back at most once, both can be delayed, reordered or
    lost, and a peer can be killed and started again from its persister.

    A step of the cluster is the execution of one [Action]: one critical section
    of one goroutine.  [exec] is a function, so concrete runs evaluate.

    The field [hist] records votes, elections and log entries as they happen; no
    step reads it. *)

From S2P Require Import Prelude Util Labgob RaftState RaftHandlers RaftLeader RaftNode.

(** Goroutines of the caller [c] about a call to the server [s].  [ep] is the
    incarnation of the caller that started the goroutine, [a] the address of the
    vote counter that the goroutines of one election share. *)
Inductive Task (C : Type) :=
  | TVote (c s : Z) (ep a : nat) (args : RequestVoteArgs)
  | TVoteReply (c s : Z) (ep a : nat) (args : RequestVoteArgs) (reply : RequestVoteReply)
  | TStartAppend (c s : Z) (ep : nat) (term : Z)
  | TAppend (c s : Z) (ep : nat) (args : AppendEntriesArgs C)
  | TAppendReply (c s : Z) (ep : nat) (args : AppendEntriesArgs C) (reply : AppendEntriesReply)
  | TInstall (c s : Z) (ep : nat) (args : InstallSnapshotArgs)
  | TInstallReply (c s : Z) (ep : nat) (args : InstallSnapshotArgs) (reply : InstallSnapshotReply).
Arguments TVote {C} _ _ _ _ _.
Arguments TVoteReply {C} _ _ _ _ _ _.
Arguments TStartAppend {C} _ _ _ _.
Arguments TAppend {C} _ _ _ _.
Arguments TAppendReply {C} _ _ _ _ _.
Arguments TInstall {C} _ _ _ _.
Arguments TInstallReply {C} _ _ _ _ _.

(** A peer process: the Raft object, its incarnation, its vote counters. *)
Record Peer (C : Type) := MkPeer {
  rf : Raft C;
  epoch : nat;
  votes : list Z;
}.
Arguments MkPeer {C} _ _ _.
Arguments rf {C} _.
Arguments epoch {C} _.
Arguments votes {C} _.

(** History: [cast] holds (term, voter, candidate), [elected] holds
    (term, leader), and [born] maps the (index, term) of an entry to the term of
    its predecessor and its command.  [ctip] maps (term, candidate) to the last
    entry of the candidate's log when it stood; [early] holds the votes cast in a
    term before it had a leader; [seen] holds (term, peer, last entry on the
    peer's disk) for every state of a peer. *)
Record History (C : Type) := MkHistory {
  cast : gset (Z * Z * Z);
  elected : gset (Z * Z);
  born : gmap (Z * Z) (Z * option C);
  ctip : gmap (Z * Z) (Z * Z);
  early : gset (Z * Z * Z);
  seen : gset (Z * Z * (Z * Z));
}.
Arguments MkHistory {C} _ _ _ _ _ _.
Arguments cast {C} _.
Arguments elected {C} _.
Arguments born {C} _.
Arguments ctip {C} _.
Arguments early {C} _.
Arguments seen {C} _.

Record Cluster (C : Type) := MkCluster {
  peers : Z → Peer C;
  tasks : list (Task C);
  hist : History C;
}.
Arguments MkCluster {C} _ _ _.
Arguments peers {C} _.
Arguments tasks {C} _.
Arguments hist {C} _.

Inductive Action (C : Type) :=
  | ATick (i : Z) (env : Env)
  | AStart (i : Z) (command : option C)
  | ASnapshot (i index : Z) (data : bytes)
  | AApply (i : Z)
  | AKill (i : Z)
  | ARestart (i : Z) (env : Env)
  | ADrop (k : nat)
  | ARun (k : nat) (env : Env).
Arguments ATick {C} _ _.
Arguments AStart {C} _ _.
Arguments ASnapshot {C} _ _ _.
Arguments AApply {C} _.
Arguments AKill {C} _.
Arguments ARestart {C} _ _.
Arguments ADrop {C} _.
Arguments ARun {C} _ _.

Section cluster.
Context {C : Type} `{!GobCodec (PState C)}.
Context (n : Z).
Implicit Types (w : Cluster C) (p : Peer C).

Definition in_cluster (i : Z) : bool := (0 <=? i) && (i <? n).

(** *** History *)

(** The newest entry of a leader's log, with the term of its predecessor. *)
Definition newest (l : list (LogEntry C)) : option ((Z * Z) * (Z * option C)) :=
  match rev l with
  | e1 :: e0 :: _ => Some ((Index e1, Term e1), (Term e0, Command e1))
  | _ => None
  end.

(** The log that a restart reads. *)
Definition dlog (r : Raft C) : list (LogEntry C) :=
  match raftstate (persister r) with
  | [] => [MkLogEntry None 0 0]
  | data => from_option snd [MkLogEntry None 0 0] (gob_decode data : option (PState C))
  end.

(** Nobody has been elected in the term. *)
Definition leaderless (T : Z) (h : History C) : Prop := set_Forall (λ x, x.1 ≠ T) (elected h).

#[global] Instance leaderless_dec T h : Decision (leaderless T h).
Proof. unfold leaderless. apply _. Defined.

Definition observe (i : Z) (r : Raft C) (h : History C) : History C :=
  MkHistory
    (if votedFor r =? NA then cast h else {[ (currentTerm r, i, votedFor r) ]} ∪ cast h)
    (if role_eqb (role r) Leader then {[ (currentTerm r, i) ]} ∪ elected h else elected h)
    (match role r, newest (log r) with
     | Leader, Some (k, v) => <[k := v]> (born h)
     | _, _ => born h
     end)
    (if role_eqb (role r) Candidate
     then ctip h ∪ {[ (currentTerm r, i) := tip (log r) ]} else ctip h)
    (if negb (votedFor r =? NA) && bool_decide (leaderless (currentTerm r) h)
     then {[ (currentTerm r, i, votedFor r) ]} ∪ early h else early h)
    ({[ (currentTerm r, i, tip (dlog r)) ]} ∪ seen h).

(** *** Steps *)

(** The goroutines that a critical section of peer [i] started. *)
Definition spawn (i : Z) (ep a : nat) (sp : list Spawn) : list (Task C) :=
  (λ s, match s with
        | GoRequest j args => TVote i j ep a args
        | GoAppend j term => TStartAppend i j ep term
        end) <$> sp.

Definition is_request (s : Spawn) : bool :=
  match s with GoRequest _ _ => true | GoAppend _ _ => false end.

(** [votes := 1] in [requestsL]. *)
Definition new_votes (sp : list Spawn) (vs : list Z) : list Z :=
  if existsb is_request sp then vs ++ [1] else vs.

(** Peer [i] becomes [p], and the tasks [ts]. *)
Definition update w (i : Z) p (ts : list (Task C)) : Cluster C :=
  MkCluster (<[i := p]> (peers w)) ts (observe i (rf p) (hist w)).

Definition set_rf p (r : Raft C) : Peer C := MkPeer r (epoch p) (votes p).

(** The goroutine [k] runs its next critical section. *)
Definition run (k : nat) (env : Env) w : option (Cluster C) :=
  t ← tasks w !! k;
  match t with
  | TVote c s ep a args =>
    let p := peers w s in
    '(r, reply) ← RequestVote env (rf p) args;
    Some (update w s (set_rf p r) (<[k := TVoteReply c s ep a args reply]> (tasks w)))
  | TVoteReply c s ep a args reply =>
    let p := peers w c in
    if negb (bool_decide (epoch p = ep)) then None
    else
      v ← votes p !! a;
      '(r, v', sp) ← processRequestReplyL (rf p) args reply v;
      Some (update w c (MkPeer r ep (<[a := v']> (votes p)))
              (spawn c ep a sp ++ delete k (tasks w)))
  | TStartAppend c s ep term =>
    let p := peers w c in
    if negb (bool_decide (epoch p = ep)) then None
    else
      call ← append (rf p) s term;
      Some (update w c p
              (match call with
               | None => delete k (tasks w)
               | Some (CallAppend args) => <[k := TAppend c s ep args]> (tasks w)
               | Some (CallInstall args) => <[k := TInstall c s ep args]> (tasks w)
               end))
  | TAppend c s ep args =>
    let p := peers w s in
    '(r, reply) ← AppendEntries env (rf p) args;
    Some (update w s (set_rf p r) (<[k := TAppendReply c s ep args reply]> (tasks w)))
  | TAppendReply c s ep args reply =>
    let p := peers w c in
    if negb (bool_decide (epoch p = ep)) then None
    else
      r ← processAppendReplyL (rf p) s args reply;
      Some (update w c (set_rf p r) (delete k (tasks w)))
  | TInstall c s ep args =>
    let p := peers w s in
    '(r, reply) ← InstallSnapshot env (rf p) args;
    Some (update w s (set_rf p r) (<[k := TInstallReply c s ep args reply]> (tasks w)))
  | TInstallReply c s ep args reply =>
    let p := peers w c in
    if negb (bool_decide (epoch p = ep)) then None
    else
      r ← processInstallReplyL (rf p) s args reply;
      Some (update w c (set_rf p r) (delete k (tasks w)))
  end.

(** A step of peer [i] on its own: a tick of its clock, a call of its service,
    its applier, its death or its rebirth. *)
Definition exec (act : Action C) w : option (Cluster C) :=
  match act with
  | ATick i env =>
    let p := peers w i in
    if negb (in_cluster i) then None
    else
      '(r, sp) ← tick env (rf p);
      Some (update w i (MkPeer r (epoch p) (new_votes sp (votes p)))
              (spawn i (epoch p) (length (votes p)) sp ++ tasks w))
  | AStart i command =>
    let p := peers w i in
    if negb (in_cluster i) then None
    else
      '(r, _, sp) ← Start (rf p) command;
      Some (update w i (set_rf p r) (spawn i (epoch p) (length (votes p)) sp ++ tasks w))
  | ASnapshot i index data =>
    let p := peers w i in
    if negb (in_cluster i) then None
    else
      r ← SnapshotL (rf p) index data;
      Some (update w i (set_rf p r) (tasks w))
  | AApply i =>
    let p := peers w i in
    if negb (in_cluster i) then None
    else
      '(r, _) ← apply (rf p);
      Some (update w i (set_rf p r) (tasks w))
  | AKill i =>
    let p := peers w i in
    if negb (in_cluster i) then None
    else Some (update w i (set_rf p (Kill (rf p))) (tasks w))
  | ARestart i env =>
    let p := peers w i in
    if negb (in_cluster i) then None
    else
      r ← Make env n i (persister (rf p));
      Some (update w i (MkPeer r (S (epoch p)) []) (tasks w))
  | ADrop k => Some (MkCluster (peers w) (delete k (tasks w)) (hist w))
  | ARun k env => run k env w
  end.

Definition step w w' : Prop := ∃ act, exec act w = Some w'.

(** The first start of every peer, on an empty persister, with any clock and
    any random number. *)
Definition init_peer (envs : Z → Env) (i : Z) : Peer C :=
  MkPeer (new_raft (envs i) n i MakePersister) 0 [].

Definition init (envs : Z → Env) : Cluster C :=
  MkCluster (init_peer envs) [] (MkHistory ∅ ∅ ∅ ∅ ∅ ∅).

Definition reachable w : Prop := ∃ envs, rtc step (init envs) w.

(** Running a list of actions. *)
Fixpoint execs (acts : list (Action C)) w : option (Cluster C) :=
  match acts with
  | [] => Some w
  | act :: acts => w ← exec act w; execs acts w
  end.

Lemma execs_reachable acts w w' : reachable w → execs acts w = Some w' → reachable w'.
Proof.
  revert w. induction acts as [|act acts IH]; intros w Hw Hr; cbn in Hr; [by simplify_eq|].
  destruct (exec act w) as [w1|] eqn:E; cbn in Hr; [|done].
  eapply IH; [|done]. destruct Hw as [envs Hw]. exists envs. eapply rtc_r; [done|by exists act].
Qed.

Lemma execs_app acts acts' w : execs (acts ++ acts') w = (w' ← execs acts w; execs acts' w').
Proof.
  revert w. induction acts as [|act acts IH]; intros w; cbn; [done|].
  destruct (exec act w); cbn; [apply IH|done].
Qed.

(** [initL] on an empty persister is [new_raft]. *)
Lemma init_peer_Make envs i : Make (envs i) n i MakePersister = Some (rf (init_peer envs i)).
Proof. done. Qed.
End cluster.
