(* ===== verification/RaftElection.v ===== *)
(** * Election safety

    At most one peer becomes leader in a term, in every reachable state of the
    cluster.  The textbook argument rests on every peer voting at most once in a
    term.  raft.go does not have that property: a candidate that hears from the
    leader of its own term forgets its vote ([becomeFollowerL] clears
    [votedFor]) and may then grant another one ([double_vote]).  The argument
    here is that the vote that is forgotten is a candidate's vote for itself,
    and that such a candidate is not, and never will be, the leader of that
    term. *)

From S2P Require Import Prelude Util Labgob RaftState RaftHandlers RaftLeader RaftNode RaftRecv RaftSend RaftCluster.

(** ** Majorities of the peers 0, ..., n-1 intersect *)

Section majorities.
Context (n : Z).

Definition peer_ids : list Z := Z.of_nat <$> seq 0 (Z.to_nat n).

Lemma elem_peer_ids i : i ∈ peer_ids ↔ 0 <= i < n.
Proof.
  unfold peer_ids. rewrite list_elem_of_fmap. split.
  - intros (k & -> & Hk). apply elem_of_seq in Hk. lia.
  - intros ?. exists (Z.to_nat i). split; [lia|]. apply elem_of_seq. lia.
Qed.

Lemma length_peer_ids : 0 <= n → Z.of_nat (length peer_ids) = n.
Proof. intros. unfold peer_ids. rewrite length_fmap, length_seq. lia. Qed.

Definition majority (Q : list Z) : Prop :=
  NoDup Q ∧ n < 2 * Z.of_nat (length Q) ∧ ∀ i, i ∈ Q → 0 <= i < n.

Lemma NoDup_peer_ids : NoDup peer_ids.
Proof. unfold peer_ids. apply NoDup_fmap_2; [intros ???; lia|]. apply NoDup_seq. Qed.

(** Half of the peers meet every majority. *)
Lemma half_meets_majority P Q :
  0 <= n → NoDup P ∧ (∀ i, i ∈ P → 0 <= i < n) → majority Q → n <= 2 * Z.of_nat (length P) →
  ∃ i, i ∈ Q ∧ i ∈ P.
Proof.
  intros Hn [Hd1 Hr1] (Hd2 & Hl2 & Hr2) Hl1.
  destruct (decide (Exists (λ i, i ∈ P) Q)) as [He|Hne].
  { apply Exists_exists in He as (i & ? & ?). eauto. }
  exfalso. assert (NoDup (Q ++ P)) as Hd.
  { apply NoDup_app. split_and!; [done| |done]. intros x ? ?. apply Hne, Exists_exists. eauto. }
  assert (length (Q ++ P) <= length peer_ids)%nat as Hle.
  { apply submseteq_length, NoDup_submseteq; [done|].
    intros x [?|?]%elem_of_app; apply elem_peer_ids; auto. }
  rewrite length_app in Hle. pose proof (length_peer_ids Hn). lia.
Qed.

Lemma majority_intersect Q1 Q2 : 0 <= n → majority Q1 → majority Q2 → ∃ i, i ∈ Q1 ∧ i ∈ Q2.
Proof.
  intros Hn (Hd1 & Hl1 & Hr1) HQ2.
  destruct (half_meets_majority Q1 Q2) as (i & ? & ?); [done|done|done|lia|eauto].
Qed.
End majorities.

(** ** Votes *)

Section votes.
Context {C : Type} `{!GobCodec (PState C), !GobLaws (PState C)}.
Context (n : Z).
Implicit Types (w : Cluster C) (r : Raft C) (h : History C).

Definition quorum h (T c : Z) : Prop :=
  ∃ Q, majority n Q ∧ ∀ v, v ∈ Q → (T, v, c) ∈ cast h.

(** Which changes of term, vote and role a step of peer [i] can make. *)
Inductive vtrans h (i : Z) r r' : Prop :=
  | vt_settle : settles r r' → vtrans h i r r'
  | vt_grant args :
      rv_CandidateId args ≠ i → 0 <= rv_CandidateId args → grants r args r' → vtrans h i r r'
  | vt_candidate :
      currentTerm r' = currentTerm r + 1 → votedFor r' = i → role r' = Candidate →
      vtrans h i r r'
  | vt_leader :
      role r = Candidate → currentTerm r' = currentTerm r → votedFor r' = votedFor r →
      role r' = Leader → quorum h (currentTerm r) i → vtrans h i r r'
  | vt_restart :
      currentTerm r' = currentTerm r → votedFor r' = votedFor r → role r' = Follower →
      vtrans h i r r'.

Record vote_inv w : Prop := {
  vi_range T v a : (T, v, a) ∈ cast (hist w) →
    0 <= v < n ∧ 0 <= a ∧ T <= currentTerm (rf (peers w v));
  vi_current v : 0 <= v < n → let r := rf (peers w v) in
    votedFor r ≠ NA → (currentTerm r, v, votedFor r) ∈ cast (hist w);
  (** The votes of the current term: the one on record, and perhaps a vote for
      itself that a candidate has forgotten. *)
  vi_cast v a : let r := rf (peers w v) in
    (currentTerm r, v, a) ∈ cast (hist w) →
    votedFor r = a ∨ (a = v ∧ role r = Follower ∧ (currentTerm r, v) ∉ elected (hist w));
  vi_double T v a b : (T, v, a) ∈ cast (hist w) → (T, v, b) ∈ cast (hist w) →
    a = b ∨ ((a = v ∨ b = v) ∧ (T, v) ∉ elected (hist w));
  vi_elected T c : (T, c) ∈ elected (hist w) →
    0 <= c < n ∧ T <= currentTerm (rf (peers w c)) ∧ quorum (hist w) T c;
  vi_leader v : 0 <= v < n → let r := rf (peers w v) in
    role r = Leader → (currentTerm r, v) ∈ elected (hist w);
  vi_candidate v : 0 <= v < n → let r := rf (peers w v) in
    role r = Candidate → (currentTerm r, v) ∉ elected (hist w);
  (** A peer that is not a follower votes for itself. *)
  vi_self v : 0 <= v < n → let r := rf (peers w v) in
    role r ≠ Follower → votedFor r = v;
  vi_vote v : 0 <= v < n → votedFor (rf (peers w v)) = NA ∨ 0 <= votedFor (rf (peers w v));
}.

Lemma vote_inv_init envs : vote_inv (init n envs).
Proof. split; cbn; intros; by (set_solver || left). Qed.

(** The effect of [observe] on votes and elections, as membership. *)
Lemma cast_observe i r h T v a :
  (T, v, a) ∈ cast (observe i r h) ↔
  (T, v, a) ∈ cast h ∨ (votedFor r ≠ NA ∧ T = currentTerm r ∧ v = i ∧ a = votedFor r).
Proof.
  unfold observe; cbn. destruct (Z.eqb_spec (votedFor r) NA); [naive_solver|].
  rewrite elem_of_union, elem_of_singleton. naive_solver.
Qed.

Lemma elected_observe i r h T c :
  (T, c) ∈ elected (observe i r h) ↔
  (T, c) ∈ elected h ∨ (role r = Leader ∧ T = currentTerm r ∧ c = i).
Proof.
  unfold observe, role_eqb; cbn. case_bool_decide; [|naive_solver].
  rewrite elem_of_union, elem_of_singleton. naive_solver.
Qed.

Lemma quorum_observe i r h T c : quorum h T c → quorum (observe i r h) T c.
Proof. intros (Q & HQ & Hc). exists Q. split; [done|]. intros. apply cast_observe. auto. Qed.

(** What a vote transition does to the invariants, one peer at a time. *)
Lemma vtrans_term h i r r' : vtrans h i r r' → currentTerm r <= currentTerm r'.
Proof.
  intros [H|args _ _ (r1 & H & _ & _ & _ & Ht & _)|Ht|_ Ht|Ht]; try lia;
    apply settles_term in H; lia.
Qed.

(** The invariant as it concerns the new state [r'] of peer [i], in terms of
    the history before the step. *)
Record vote_local w (i : Z) r' : Prop := {
  vl_vote : votedFor r' = NA ∨ 0 <= votedFor r';
  vl_self : role r' ≠ Follower → votedFor r' = i;
  vl_cast a : (currentTerm r', i, a) ∈ cast (hist w) →
    votedFor r' = a ∨ (a = i ∧ role r' = Follower ∧ (currentTerm r', i) ∉ elected (hist w));
  vl_candidate : role r' = Candidate → (currentTerm r', i) ∉ elected (hist w);
  vl_leader : role r' = Leader →
    (currentTerm r', i) ∈ elected (hist w) ∨ quorum (hist w) (currentTerm r') i;
  vl_term : currentTerm (rf (peers w i)) <= currentTerm r';
}.

Lemma settles_local w i r' :
  vote_inv w → 0 <= i < n → settles (rf (peers w i)) r' → vote_local w i r'.
Proof.
  intros Hw Hi Hs. pose proof (settles_term _ _ Hs) as Ht.
  destruct Hs as [[_ _ Hct Hvf Hro]|[_ _ Hct Hvf Hro]].
  - split; try lia; rewrite ?Hct, ?Hvf, ?Hro; try by apply Hw.
    intros Hl. left. by apply Hw.
  - split; try lia; rewrite ?Hvf, ?Hro; try done.
    destruct Hct as [Hct|[Hct Hca]].
    + intros a Ha. apply (vi_range _ Hw) in Ha. lia.
    + rewrite Hct. intros a Ha. right. pose proof (vi_candidate _ Hw i Hi Hca).
      destruct (vi_cast _ Hw _ _ Ha) as [<-|(? & Hf & _)]; [|congruence].
      split_and!; [|done|done]. apply (vi_self _ Hw i Hi). congruence.
Qed.

Lemma vtrans_local w i r' :
  vote_inv w → 0 <= i < n → vtrans (hist w) i (rf (peers w i)) r' → vote_local w i r'.
Proof.
  intros Hw Hi [Hs|args Hne Hnn (r1 & Hs & _ & _ & Hro & Hct & _ & Hv1 & Hvf)|Hct Hvf Hro
    |Hro Hct Hvf Hro' HQ|Hct Hvf Hro].
  - by apply settles_local.
  - destruct (settles_local _ _ _ Hw Hi Hs) as [Lv Ls Lc Lca Ll Lt].
    assert (role r1 = Follower) as Hf.
    { destruct (decide (role r1 = Follower)) as [|Hr]; [done|].
      specialize (Ls Hr). unfold NA in *. lia. }
    split; rewrite ?Hct, ?Hro, ?Hf; try done; [lia|].
    intros a Ha. destruct (Lc a Ha) as [Heq|(? & _ & ?)]; [|by right].
    destruct Hv1 as [Hv1|Hv1]; [|left; congruence].
    apply (vi_range _ Hw) in Ha. unfold NA in *. lia.
  - assert (∀ T, (T, i) ∈ elected (hist w) → T <> currentTerm r') as Hne.
    { intros T HT. apply (vi_elected _ Hw) in HT. lia. }
    split; rewrite ?Hro; try done; try lia.
    + intros a Ha. apply (vi_range _ Hw) in Ha. lia.
    + intros _ HT. by eapply Hne.
  - assert (votedFor (rf (peers w i)) = i) as Hvi by (apply (vi_self _ Hw i Hi); congruence).
    split; rewrite ?Hct, ?Hro', ?Hvf; try done; try lia; [|by right].
    intros a Ha. destruct (vi_cast _ Hw _ _ Ha) as [?|(? & ? & _)]; [by left|congruence].
  - split; rewrite ?Hct, ?Hvf, ?Hro; try done; try lia; [apply Hw; done|].
    intros a Ha. destruct (vi_cast _ Hw _ _ Ha) as [?|(? & ? & ?)]; [by left|by right].
Qed.

Lemma peers_update w i p ts j :
  peers (update w i p ts) j = if decide (i = j) then p else peers w j.
Proof.
  unfold update; cbn. case_decide; subst; [apply fn_lookup_insert|by apply fn_lookup_insert_ne].
Qed.

Lemma vote_inv_update w i p ts :
  vote_inv w → 0 <= i < n → vtrans (hist w) i (rf (peers w i)) (rf p) → vote_inv (update w i p ts).
Proof.
  intros Hw Hi Hvt. destruct (vtrans_local _ _ _ Hw Hi Hvt) as [Lv Ls Lc Lca Ll Lt].
  set (r := rf p) in *. set (h' := observe i r (hist w)).
  assert (∀ T, (T, i) ∉ elected (hist w) → role r = Follower → (T, i) ∉ elected h') as Hfol.
  { intros T HT Hf. unfold h'. rewrite elected_observe. intros [?|(? & _)]; [done|congruence]. }
  assert (∀ T v, v ≠ i → (T, v) ∈ elected h' → (T, v) ∈ elected (hist w)) as Helo.
  { intros T v ?. unfold h'. rewrite elected_observe. naive_solver. }
  split; cbn [hist update]; fold r; fold h'.
  - intros T v a [Hc|(Hna & -> & -> & ->)]%cast_observe; rewrite peers_update.
    + apply (vi_range _ Hw) in Hc as (? & ? & ?). case_decide; subst; split_and!; try done; try lia.
      fold r. lia.
    + case_decide; [|done]. fold r. unfold NA in *. split_and!; lia.
  - intros v Hv. rewrite peers_update. case_decide; subst; fold r; intros ?; apply cast_observe; [|left; by apply Hw].
    right. done.
  - intros v a. rewrite peers_update. case_decide as Hd; [subst v|]; fold r;
      intros [Hc|(Hna & ? & ? & ->)]%cast_observe; try done; try (by left).
    + destruct (Lc a Hc) as [?|(? & ? & ?)]; [by left|right; auto].
    + destruct (vi_cast _ Hw _ _ Hc) as [?|(? & ? & ?)]; [by left|right]. split_and!; auto.
  - intros T v a b Ha Hb. apply cast_observe in Ha, Hb.
    destruct Ha as [Ha|(_ & -> & -> & ->)], Hb as [Hb|(_ & ? & ? & ->)]; subst; auto.
    + destruct (vi_double _ Hw _ _ _ _ Ha Hb) as [?|[Hv Hne]]; [by left|].
      destruct (decide ((T, v) ∈ elected h')) as [He|]; [|by right].
      apply elected_observe in He as [?|(Hl & -> & ->)]; [done|]. left.
      destruct (Lc _ Ha) as [<-|(_ & ? & _)]; [|congruence].
      destruct (Lc _ Hb) as [<-|(_ & ? & _)]; [done|congruence].
    + destruct (Lc _ Ha) as [<-|(-> & ? & ?)]; [by left|right; auto].
    + destruct (Lc _ Hb) as [<-|(-> & ? & ?)]; [by left|right; auto].
  - intros T c [He|(Hl & -> & ->)]%elected_observe; rewrite peers_update.
    + destruct (vi_elected _ Hw _ _ He) as (? & ? & ?). split_and!; try lia.
      * case_decide; subst; fold r; lia.
      * by apply quorum_observe.
    + split_and!; try lia; [case_decide; fold r; [lia|done]|]. apply quorum_observe.
      destruct (Ll Hl) as [He|]; [|done]. by apply (vi_elected _ Hw) in He as (_ & _ & ?).
  - intros v Hv. rewrite peers_update. case_decide; subst; fold r; intros ?; apply elected_observe; [by right|].
    left. by apply Hw.
  - intros v Hv. rewrite peers_update. case_decide; subst; fold r; intros Hr.
    + intros [?|(? & _)]%elected_observe; [by apply Lca|congruence].
    + intros ?. eapply (vi_candidate _ Hw); [done|done|]. by apply Helo.
  - intros v Hv. rewrite peers_update. case_decide; subst; fold r; [done|by apply Hw].
  - intros v Hv. rewrite peers_update. case_decide; subst; fold r; [done|by apply Hw].
Qed.

(** Two leaders of a term are the same peer. *)
Lemma elected_unique w T c1 c2 :
  0 <= n → vote_inv w → (T, c1) ∈ elected (hist w) → (T, c2) ∈ elected (hist w) → c1 = c2.
Proof.
  intros Hn Hw H1 H2.
  destruct (vi_elected _ Hw _ _ H1) as (_ & _ & Q1 & HQ1 & Hc1).
  destruct (vi_elected _ Hw _ _ H2) as (_ & _ & Q2 & HQ2 & Hc2).
  destruct (majority_intersect _ _ _ Hn HQ1 HQ2) as (v & Hv1 & Hv2).
  destruct (vi_double _ Hw _ _ _ _ (Hc1 _ Hv1) (Hc2 _ Hv2)) as [?|[[<-|<-] Hne]]; done.
Qed.
End votes.
