(* ===== verification/RaftClusterInv.v ===== *)
(** * The invariant of the cluster

    Every reachable cluster consists of well-formed peers and well-formed tasks,
    its votes satisfy [vote_inv], and every vote counter counts votes that were
    really cast. *)

From S2P Require Import Prelude Util Labgob RaftState RaftHandlers RaftLeader RaftNode RaftRecv RaftSend RaftCluster RaftElection.

Section inv.
Context {C : Type} `{!GobCodec (PState C), !GobLaws (PState C)}.
Context (n : Z).
Implicit Types (w : Cluster C) (r : Raft C) (t : Task C).

(** ** Vote requests and the counters they belong to *)

Definition vote_call : Type := Z * Z * nat * nat * RequestVoteArgs.

Definition vote_task t : option vote_call :=
  match t with
  | TVote c s ep a args | TVoteReply c s ep a args _ => Some (c, s, ep, a, args)
  | _ => None
  end.

Definition vote_calls (ts : list (Task C)) : list vote_call := omap vote_task ts.

Definition vc_key (v : vote_call) : Z * nat * nat := let '(c, _, ep, a, _) := v in (c, ep, a).
Definition vc_server (v : vote_call) : Z := let '(_, s, _, _, _) := v in s.
Definition vc_args (v : vote_call) : RequestVoteArgs := let '(_, _, _, _, args) := v in args.

(** The servers that the counter [a] of peer [c] still waits for. *)
Definition pending (key : Z * nat * nat) (vs : list vote_call) : list Z :=
  vc_server <$> filter (λ v, vc_key v = key) vs.

(** A counter of election [T] of peer [c] is one plus the number of peers in
    [S], which voted for [c] and are not waited for any more. *)
Definition counter_ok w (c : Z) (a : nat) (k : Z) : Prop :=
  ∃ T S, k = 1 + Z.of_nat (length S)
    ∧ NoDup (c :: S ++ pending (c, epoch (peers w c), a) (vote_calls (tasks w)))
    ∧ (∀ s, s ∈ S → 0 <= s < n ∧ (T, s, c) ∈ cast (hist w))
    ∧ (T, c, c) ∈ cast (hist w)
    ∧ (∀ v, v ∈ vote_calls (tasks w) → vc_key v = (c, epoch (peers w c), a) → rv_Term (vc_args v) = T).

(** ** Well-formed tasks *)

Definition pair_wf (c s : Z) : Prop := 0 <= c < n ∧ 0 <= s < n ∧ c ≠ s.

Definition fresh_counter w (c : Z) (ep a : nat) : Prop :=
  (ep <= epoch (peers w c))%nat ∧ (ep = epoch (peers w c) → (a < length (votes (peers w c)))%nat).

Definition task_wf w t : Prop :=
  match t with
  | TVote c s ep a args => pair_wf c s ∧ rv_CandidateId args = c ∧ fresh_counter w c ep a
  | TVoteReply c s ep a args reply => pair_wf c s ∧ rv_CandidateId args = c ∧ fresh_counter w c ep a
      ∧ (rvr_VoteGranted reply = true → (rv_Term args, s, c) ∈ cast (hist w))
  | TStartAppend c s ep term => pair_wf c s ∧ (term, c) ∈ elected (hist w)
  | TAppend c s ep args | TAppendReply c s ep args _ =>
      pair_wf c s ∧ (ae_Term args, c) ∈ elected (hist w) ∧ ae_wf args
  | TInstall c s ep args | TInstallReply c s ep args _ =>
      pair_wf c s ∧ (is_Term args, c) ∈ elected (hist w) ∧ is_wf args
  end.

Record cluster_inv w : Prop := {
  ci_vote : vote_inv n w;
  ci_node i : 0 <= i < n →
    node_wf (rf (peers w i)) ∧ me (rf (peers w i)) = i ∧ nPeers (rf (peers w i)) = n;
  ci_task t : t ∈ tasks w → task_wf w t;
  ci_count c a k : 0 <= c < n → votes (peers w c) !! a = Some k → counter_ok w c a k;
}.

(** ** Histories and incarnations only grow *)

Record grows w w' : Prop := {
  gr_cast : cast (hist w) ⊆ cast (hist w');
  gr_elected : elected (hist w) ⊆ elected (hist w');
  gr_epoch c : (epoch (peers w c) <= epoch (peers w' c))%nat;
  gr_votes c : epoch (peers w c) = epoch (peers w' c) →
    (length (votes (peers w c)) <= length (votes (peers w' c)))%nat;
}.

Lemma grows_update w i p ts :
  (epoch (peers w i) <= epoch p)%nat →
  (epoch (peers w i) = epoch p → (length (votes (peers w i)) <= length (votes p))%nat) →
  grows w (update w i p ts).
Proof.
  intros He Hv. split.
  - intros [[T v] a] ?. apply cast_observe. by left.
  - intros [T c] ?. apply elected_observe. by left.
  - intros c. rewrite peers_update. case_decide; subst; lia.
  - intros c. rewrite peers_update. case_decide; subst; [done|lia].
Qed.

Lemma grows_set_rf w i r ts : grows w (update w i (set_rf (peers w i) r) ts).
Proof. apply grows_update; cbn; lia. Qed.

Lemma grows_drop w ts : grows w (MkCluster (peers w) ts (hist w)).
Proof. by split. Qed.

Lemma task_wf_grows w w' t : grows w w' → task_wf w t → task_wf w' t.
Proof.
  intros [Hc He Hep Hvs]. assert (∀ c ep a, fresh_counter w c ep a → fresh_counter w' c ep a) as Hf.
  { intros c ep a [H1 H2]. specialize (Hep c). specialize (Hvs c). split; [lia|].
    intros Heq. assert (ep = epoch (peers w c)) as Heq' by lia. specialize (H2 Heq'). lia. }
  destruct t; cbn; set_solver.
Qed.

(** A counter is not affected by a step that leaves its peer's incarnation and
    sends no new vote request. *)
Lemma counter_ok_grows w w' c a k :
  grows w w' → epoch (peers w' c) = epoch (peers w c) →
  vote_calls (tasks w') ⊆+ vote_calls (tasks w) →
  counter_ok w c a k → counter_ok w' c a k.
Proof.
  intros Hg Hep Hsub (T & S & Hk & Hnd & HS & Hself & HT). exists T, S. rewrite Hep.
  assert (∀ key, pending key (vote_calls (tasks w')) ⊆+ pending key (vote_calls (tasks w))) as Hp.
  { intros key. unfold pending. apply fmap_submseteq. by apply filter_submseteq. }
  split_and!; [done| | | |].
  - eapply submseteq_NoDup; [exact Hnd|]. apply submseteq_skip. by apply submseteq_app.
  - intros s Hs. destruct (HS s Hs). split; [done|]. by apply (gr_cast _ _ Hg).
  - by apply (gr_cast _ _ Hg).
  - intros v Hv. apply HT. by eapply elem_of_submseteq.
Qed.

(** ** Steps that neither count votes nor start elections *)

Lemma inv_quiet w i p ts :
  cluster_inv w → 0 <= i < n →
  node_wf (rf p) → me (rf p) = i → nPeers (rf p) = n →
  epoch p = epoch (peers w i) → votes p = votes (peers w i) →
  vtrans n (hist w) i (rf (peers w i)) (rf p) →
  vote_calls ts ⊆+ vote_calls (tasks w) →
  (∀ t, t ∈ ts → t ∈ tasks w ∨ task_wf (update w i p ts) t) →
  cluster_inv (update w i p ts).
Proof.
  intros Hw Hi Hwf Hme Hn Hep Hvs Hvt Hsub Hts.
  assert (grows w (update w i p ts)) as Hg by (apply grows_update; rewrite ?Hep, ?Hvs; lia).
  split.
  - apply vote_inv_update; [apply Hw|done|done].
  - intros j Hj. rewrite peers_update. case_decide; subst; [done|by apply Hw].
  - intros t Ht. destruct (Hts t Ht) as [?|]; [|done]. eapply task_wf_grows; [done|by apply Hw].
  - intros c a k Hc Hk.
    assert (epoch (peers (update w i p ts) c) = epoch (peers w c)
      ∧ votes (peers (update w i p ts) c) = votes (peers w c)) as [He Hv].
    { rewrite peers_update. case_decide; subst; done. }
    rewrite Hv in Hk. eapply counter_ok_grows; [done|done|done|by apply Hw].
Qed.

Lemma inv_drop w k : cluster_inv w → cluster_inv (MkCluster (peers w) (delete k (tasks w)) (hist w)).
Proof.
  intros Hw. split; cbn.
  - destruct (ci_vote _ Hw). by split.
  - apply Hw.
  - intros t Ht%elem_of_delete. eapply task_wf_grows; [apply grows_drop|by apply Hw].
  - intros c a v Hc Hv. eapply counter_ok_grows; [apply grows_drop|done|apply omap_delete_submseteq|].
    by apply Hw.
Qed.

(** Appenders are started by leaders, in their term. *)
Lemma appenders_wf w i p ts r :
  0 <= i < n → me r = i → nPeers r = n →
  (currentTerm r, i) ∈ elected (hist (update w i p ts)) →
  ∀ t ep a, t ∈ spawn i ep a (appendsL r) → task_wf (update w i p ts) t.
Proof.
  intros Hi Hme Hn Hel t ep a. unfold spawn, appendsL. rewrite list_elem_of_fmap.
  intros (s & -> & (j & -> & Hj)%list_elem_of_fmap). cbn.
  apply otherPeers_spec in Hj; [|lia]. split; [|done]. split_and!; lia.
Qed.

Lemma appenders_no_votes i ep a r : vote_calls (spawn i ep a (appendsL r)) = [].
Proof.
  unfold vote_calls, spawn, appendsL. rewrite <- list_fmap_compose.
  by induction (otherPeers r).
Qed.

Lemma appenders_no_request r vs : new_votes (appendsL r) vs = vs.
Proof.
  unfold new_votes, appendsL. assert (existsb is_request ((λ i, GoAppend i (currentTerm r)) <$> otherPeers r) = false) as ->;
    [|done]. by induction (otherPeers r).
Qed.

(** A peer that is still leader starts appenders. *)
Lemma inv_appenders w i r' ep a :
  cluster_inv w → 0 <= i < n → node_wf r' → same_vote (rf (peers w i)) r' →
  role (rf (peers w i)) = Leader →
  cluster_inv (update w i (set_rf (peers w i) r')
    (spawn i ep a (appendsL (rf (peers w i))) ++ tasks w)).
Proof.
  intros Hw Hi Hwf Hsv Hl. destruct (ci_node _ Hw i Hi) as (_ & Hme & Hn).
  apply inv_quiet; try done; cbn.
  - by rewrite (sv_me _ _ Hsv).
  - by rewrite (sv_n _ _ Hsv).
  - apply vt_settle. by left.
  - unfold vote_calls. rewrite omap_app. fold (vote_calls (spawn i ep a (appendsL (rf (peers w i))))).
    by rewrite appenders_no_votes.
  - intros t [Ht|?]%elem_of_app; [right|by left]. eapply appenders_wf; [done|done|done| |done].
    apply elected_observe. left. by apply Hw.
Qed.

(** ** The steps of [exec] *)

Lemma in_cluster_spec i : negb (in_cluster n i) = false → 0 <= i < n.
Proof. unfold in_cluster. intros. bools. lia. Qed.

Lemma inv_local w i r' :
  cluster_inv w → 0 <= i < n → node_wf r' → same_vote (rf (peers w i)) r' →
  cluster_inv (update w i (set_rf (peers w i) r') (tasks w)).
Proof.
  intros Hw Hi Hwf Hsv. destruct (ci_node _ Hw i Hi) as (_ & Hme & Hn).
  apply inv_quiet; try done; cbn.
  - by rewrite (sv_me _ _ Hsv).
  - by rewrite (sv_n _ _ Hsv).
  - apply vt_settle. by left.
  - by left.
Qed.

(** [SnapshotL] returns only for an index that the log has. *)
Lemma SnapshotL_returns r index data r' :
  node_wf r → SnapshotL r index data = Some r' → index <= lastIdx (log r).
Proof.
  intros Hwf H. pose proof (nw_log _ Hwf) as Hl. pose proof (last_ge_first _ Hl).
  unfold SnapshotL in H. rewrite logFirstIndexL_spec in H by done. cbn [mbind option_bind] in H.
  destruct (index >? firstIdx (log r)) eqn:E; bools; [|lia].
  destruct (Z.le_gt_cases index (lastIdx (log r))) as [|Hgt]; [done|exfalso].
  unfold trimLogL in H. destruct (lastLogL_spec _ Hl) as (lst & Hlst & HI & _).
  rewrite Hlst, logFirstIndexL_spec in H by done. cbn [mbind option_bind] in H. rewrite HI in H.
  destruct (Z.ltb_spec (lastIdx (log r) - index + 1) 0); [done|].
  assert (index = lastIdx (log r) + 1) as -> by lia.
  replace (lastIdx (log r) - (lastIdx (log r) + 1) + 1) with 0 in H by lia.
  destruct (slice_from _ _) as [src|]; cbn [mbind option_bind] in H; [|done].
  cbn in H. done.
Qed.

Lemma inv_restart w i env r' :
  cluster_inv w → 0 <= i < n → Make env n i (persister (rf (peers w i))) = Some r' →
  cluster_inv (update w i (MkPeer r' (S (epoch (peers w i))) []) (tasks w)).
Proof.
  intros Hw Hi Hm. destruct (ci_node _ Hw i Hi) as (Hwf & Hme & Hn).
  destruct (Make_spec env _ Hwf) as (r1 & Hm1 & Hwf1 & Hme1 & Hn1 & Hct & Hvf & Hro & _).
  rewrite Hn, Hme, Hm in Hm1. injection Hm1 as <-.
  set (p := MkPeer r' (S (epoch (peers w i))) []).
  assert (grows w (update w i p (tasks w))) as Hg by (apply grows_update; cbn; lia).
  split.
  - apply vote_inv_update; [apply Hw|done|by apply vt_restart].
  - intros j Hj. rewrite peers_update. case_decide as Hd; [subst j|by apply Hw]. cbn. split_and!; congruence.
  - intros t Ht. eapply task_wf_grows; [done|by apply Hw].
  - intros c a k Hc. rewrite peers_update. case_decide as Hd; [done|]. intros Hk.
    eapply counter_ok_grows; [done|by rewrite peers_update, decide_False|done|by apply Hw].
Qed.

Lemma pending_app key vs vs' : pending key (vs ++ vs') = pending key vs ++ pending key vs'.
Proof. unfold pending. by rewrite filter_app, fmap_app. Qed.

Lemma pending_new key i ep a args js :
  pending key ((λ j, (i, j, ep, a, args)) <$> js) = if decide (key = (i, ep, a)) then js else [].
Proof.
  unfold pending. induction js as [|j js IH]; [cbn; by case_decide|].
  rewrite fmap_cons, filter_cons. cbn [vc_key].
  case_decide as H1; case_decide as H2; try congruence. by rewrite fmap_cons, IH.
Qed.

Lemma vote_calls_app ts ts' : vote_calls (ts ++ ts') = vote_calls ts ++ vote_calls ts'.
Proof. apply omap_app. Qed.

(** A counter that has not been allocated is not waited for. *)
Lemma pending_fresh w i a :
  cluster_inv w → (length (votes (peers w i)) <= a)%nat →
  pending (i, epoch (peers w i), a) (vote_calls (tasks w)) = [].
Proof.
  intros Hw Ha. unfold pending. destruct (filter _ _) as [|v vs] eqn:E; [done|exfalso].
  assert (v ∈ filter (λ v, vc_key v = (i, epoch (peers w i), a)) (vote_calls (tasks w))) as Hv.
  { rewrite E. by left. }
  apply list_elem_of_filter in Hv as [Hkey (t & Ht & Hvt)%list_elem_of_omap].
  apply (ci_task _ Hw) in Ht.
  destruct t; cbn in Hvt; simplify_eq; cbn in Hkey; simplify_eq; cbn in Ht; unfold fresh_counter in Ht; naive_solver lia.
Qed.

(** The counters after an election was started with a new counter [a0]. *)
Lemma counter_ok_new w w' i a0 args js c a k :
  cluster_inv w → grows w w' → epoch (peers w' c) = epoch (peers w c) →
  vote_calls (tasks w') = ((λ j, (i, j, epoch (peers w i), a0, args)) <$> js) ++ vote_calls (tasks w) →
  a0 = length (votes (peers w i)) → NoDup (i :: js) → (rv_Term args, i, i) ∈ cast (hist w') →
  0 <= c < n → (votes (peers w c) !! a = Some k ∨ c = i ∧ a = a0 ∧ k = 1) → counter_ok w' c a k.
Proof.
  intros Hw Hg Hep Hcalls Ha0 Hnd Hcast Hc [Hk|(-> & -> & ->)].
  - destruct (ci_count _ Hw _ _ _ Hc Hk) as (T & S & Hlen & Hnd' & HS & Hself & HT).
    assert (c = i → a ≠ a0) as Hne. { intros -> ->. apply lookup_lt_Some in Hk. lia. }
    exists T, S. rewrite Hep, Hcalls, pending_app, pending_new, decide_False by naive_solver.
    split_and!; [done|done| | |].
    + intros s Hs. destruct (HS s Hs). split; [done|]. by apply (gr_cast _ _ Hg).
    + by apply (gr_cast _ _ Hg).
    + intros v [(j & -> & _)%list_elem_of_fmap|Hv]%elem_of_app; [|by apply HT]. cbn. naive_solver.
  - exists (rv_Term args), []. rewrite Hep, Hcalls, pending_app, pending_new, decide_True by done.
    rewrite pending_fresh, app_nil_r by (done || lia). split_and!; [done|done|by intros ? ?%elem_of_nil|done|].
    intros v [(j & -> & _)%list_elem_of_fmap|Hv]%elem_of_app Hkey; [done|exfalso].
    assert (v ∈ filter (λ v, vc_key v = (i, epoch (peers w i), a0)) (vote_calls (tasks w))) as Hin
      by by apply list_elem_of_filter.
    pose proof (pending_fresh w i a0 Hw ltac:(lia)) as Hp. unfold pending in Hp.
    apply fmap_nil_inv in Hp. rewrite Hp in Hin. by apply elem_of_nil in Hin.
Qed.

Lemma requests_calls i ep a args js :
  vote_calls (spawn i ep a ((λ j, GoRequest j args) <$> js)) = (λ j, (i, j, ep, a, args)) <$> js.
Proof. unfold spawn, vote_calls. induction js as [|j js IH]; cbn; [done|]. f_equal. exact IH. Qed.

(** A new election: a fresh counter, and a request to every other peer. *)
Lemma inv_candidate w i env r' sp :
  cluster_inv w → 0 <= i < n → becomeCandidateL env (rf (peers w i)) = Some (r', sp) →
  let p := peers w i in
  cluster_inv (update w i (MkPeer r' (epoch p) (new_votes sp (votes p)))
    (spawn i (epoch p) (length (votes p)) sp ++ tasks w)).
Proof.
  intros Hw Hi Hrun p. destruct (ci_node _ Hw i Hi) as (Hwf & Hme & Hn). fold p in Hwf, Hme, Hn.
  fold p in Hrun. destruct (becomeCandidateL_spec env _ Hwf) as (r1 & args & Hrun1 & Hwf1 & Hme1 & Hn1 & _ & _ & Hct & Hvf & Hro & _ & _ & Hargs).
  rewrite Hrun in Hrun1. injection Hrun1 as <- ->.
  set (sp := (λ j, GoRequest j args) <$> otherPeers (rf p)).
  set (a0 := length (votes p)). set (ts := spawn i (epoch p) a0 sp ++ tasks w).
  set (p' := MkPeer r' (epoch p) (new_votes sp (votes p))).
  assert (length (votes p) <= length (votes p'))%nat as Hlen.
  { unfold p', new_votes; cbn. destruct (existsb _ _); [rewrite length_app|]; lia. }
  assert (vote_calls (spawn i (epoch p) a0 sp) = (λ j, (i, j, epoch p, a0, args)) <$> otherPeers (rf p)) as Hcalls.
  { apply requests_calls. }
  assert (grows w (update w i p' ts)) as Hg by (apply grows_update; [done|intros _; exact Hlen]).
  split.
  - apply vote_inv_update; [apply Hw|done|]. apply vt_candidate; cbn; [done|congruence|done].
  - intros j Hj. rewrite peers_update. case_decide as Hd; [subst j|by apply Hw]. cbn. split_and!; congruence.
  - intros t [Ht|Ht]%elem_of_app; [|eapply task_wf_grows; [done|by apply Hw]].
    unfold spawn, sp in Ht. rewrite <- list_fmap_compose in Ht.
    apply list_elem_of_fmap in Ht as (j & -> & Hj). cbn. apply otherPeers_spec in Hj; [|lia].
    split; [split_and!; lia|]. split; [by rewrite Hargs|].
    split; rewrite peers_update, decide_True by done; cbn; [lia|]. intros _. unfold new_votes. assert (existsb is_request sp = true) as ->.
    { apply existsb_exists. exists (GoRequest j args). split; [|done]. apply list_elem_of_In.
      unfold sp. apply list_elem_of_fmap. exists j. split; [done|]. apply otherPeers_spec; lia. }
    rewrite length_app. cbn. fold a0. lia.
  - intros c a k Hc Hk. apply (counter_ok_new w _ i a0 args (otherPeers (rf p))); try done.
    + rewrite peers_update. case_decide as Hd; [by rewrite <- Hd|done].
    + unfold ts; cbn [tasks update]. rewrite vote_calls_app, Hcalls. done.
    + constructor; [|apply otherPeers_NoDup]. rewrite otherPeers_spec by lia. lia.
    + apply cast_observe. right. rewrite Hargs; cbn. unfold NA. split_and!; [lia|done|done|congruence].
    + rewrite peers_update in Hk. case_decide; [subst c|by left]. cbn in Hk. unfold new_votes in Hk.
      destruct (existsb _ _); [|by left].
      apply lookup_app_Some in Hk as [?|[? Hk]]; [by left|right].
      apply list_lookup_singleton_Some in Hk as [? <-]. fold a0 in H. split_and!; [done|lia|done].
Qed.

(** *** Counting a vote *)

Section count.
Context (w : Cluster C) (k : nat) (c s : Z) (a : nat) (args : RequestVoteArgs) (reply : RequestVoteReply).
Context (Hw : cluster_inv w)
  (Hk : tasks w !! k = Some (TVoteReply c s (epoch (peers w c)) a args reply)).

Lemma reply_calls :
  vote_calls (tasks w) ≡ₚ (c, s, epoch (peers w c), a, args) :: vote_calls (delete k (tasks w)).
Proof using Hk. exact (omap_delete_Permutation vote_task _ _ _ Hk). Qed.

Lemma reply_wf : pair_wf c s ∧ (rvr_VoteGranted reply = true → (rv_Term args, s, c) ∈ cast (hist w)).
Proof using Hk Hw.
  assert (task_wf w (TVoteReply c s (epoch (peers w c)) a args reply)) as H.
  { apply (ci_task _ Hw). by eapply list_elem_of_lookup_2. }
  cbn in H. tauto.
Qed.

(** The server of the reply has not been counted. *)
Lemma counter_split v :
  counter_ok w c a v →
  ∃ S, v = 1 + Z.of_nat (length S)
    ∧ NoDup (c :: (s :: S) ++ pending (c, epoch (peers w c), a) (vote_calls (delete k (tasks w))))
    ∧ (∀ x, x ∈ S → 0 <= x < n ∧ (rv_Term args, x, c) ∈ cast (hist w))
    ∧ (rv_Term args, c, c) ∈ cast (hist w)
    ∧ (∀ x, x ∈ vote_calls (tasks w) → vc_key x = (c, epoch (peers w c), a) →
         rv_Term (vc_args x) = rv_Term args).
Proof using Hk.
  intros (T & S & Hv & Hnd & HS & Hself & HT).
  assert (rv_Term args = T) as <-.
  { apply (HT (c, s, epoch (peers w c), a, args)); [|done]. rewrite reply_calls. by left. }
  exists S. split_and!; try done.
  assert (pending (c, epoch (peers w c), a) (vote_calls (tasks w))
    ≡ₚ s :: pending (c, epoch (peers w c), a) (vote_calls (delete k (tasks w)))) as Hp.
  { unfold pending. rewrite reply_calls, filter_cons, decide_True by done. done. }
  eapply submseteq_NoDup; [exact Hnd|]. rewrite Hp. cbn.
  apply submseteq_skip. by rewrite Permutation_middle.
Qed.

Lemma counter_counted w' v :
  grows w w' → epoch (peers w' c) = epoch (peers w c) →
  vote_calls (tasks w') = vote_calls (delete k (tasks w)) →
  counter_ok w c a v → rvr_VoteGranted reply = true → counter_ok w' c a (v + 1).
Proof using Hk Hw.
  intros Hg Hep Hcalls Hc Hgr. destruct (counter_split v Hc) as (S & -> & Hnd & HS & Hself & HT).
  destruct reply_wf as [(_ & Hs & _) Hcast]. exists (rv_Term args), (s :: S).
  rewrite Hep, Hcalls. split_and!; [cbn; lia|done| |by apply (gr_cast _ _ Hg)|].
  - intros x [->|Hx]%elem_of_cons.
    + split; [done|]. by apply (gr_cast _ _ Hg), Hcast.
    + destruct (HS x Hx). split; [done|]. by apply (gr_cast _ _ Hg).
  - intros x Hx. apply HT. rewrite reply_calls. by right.
Qed.

Lemma counter_quorum v :
  counter_ok w c a v → rvr_VoteGranted reply = true → n < 2 * (v + 1) →
  quorum n (hist w) (rv_Term args) c.
Proof using Hk Hw.
  intros Hc Hgr Hn. destruct (counter_split v Hc) as (S & -> & Hnd & HS & Hself & _).
  destruct reply_wf as [(Hci & Hs & _) Hcast]. exists (c :: s :: S). split; [split_and!|].
  - eapply submseteq_NoDup; [exact Hnd|]. apply submseteq_skip. by apply submseteq_inserts_r.
  - cbn. lia.
  - intros x [->|[->|Hx]%elem_of_cons]%elem_of_cons; [done|done|]. by apply HS.
  - intros x [->|[->|Hx]%elem_of_cons]%elem_of_cons; [done|auto|]. by apply HS.
Qed.
End count.

Lemma inv_vote_reply w k c s a args reply v r' v' sp :
  cluster_inv w → tasks w !! k = Some (TVoteReply c s (epoch (peers w c)) a args reply) →
  votes (peers w c) !! a = Some v →
  processRequestReplyL (rf (peers w c)) args reply v = Some (r', v', sp) →
  cluster_inv (update w c (MkPeer r' (epoch (peers w c)) (<[a := v']> (votes (peers w c))))
    (spawn c (epoch (peers w c)) a sp ++ delete k (tasks w))).
Proof.
  intros Hw Hk Hv Hrun. destruct (reply_wf w k c s a args reply Hw Hk) as [(Hc & Hs & Hcs) Hgrant].
  destruct (ci_node _ Hw c Hc) as (Hwf & Hme & Hn). pose proof (ci_count _ Hw _ _ _ Hc Hv) as Hcount.
  destruct (processRequestReplyL_spec _ args reply v Hwf) as (r1 & v1 & sp1 & Hrun1 & Hwf1 & _ & Hcases).
  rewrite Hrun in Hrun1. injection Hrun1 as <- <- <-.
  set (p' := MkPeer r' _ _). set (ts := spawn c _ a sp ++ _).
  assert (grows w (update w c p' ts)) as Hg by (apply grows_update; cbn; [lia|rewrite length_insert; lia]).
  assert (vtrans n (hist w) c (rf (peers w c)) r' ∧ me r' = c ∧ nPeers r' = n
    ∧ vote_calls (spawn c (epoch (peers w c)) a sp) = []
    ∧ (∀ t, t ∈ spawn c (epoch (peers w c)) a sp → task_wf (update w c p' ts) t)
    ∧ (v' = v ∨ v' = v + 1 ∧ rvr_VoteGranted reply = true)) as (Hvt & Hme' & Hn' & Hcalls & Hsp & Hv').
  { destruct Hcases as [(Hsn & _ & -> & Hvs)|[(Hsd & -> & -> & _)|(Hgr & Hro & Hct & -> & Hmaj & Hl)]].
    - destruct (sn_vote _ _ Hsn). split_and!; try congruence; try done.
      + apply vt_settle. by left.
      + by intros t ?%elem_of_nil.
      + destruct Hvs as [?|(? & ? & _)]; [by left|by right].
    - destruct Hsd. split_and!; try congruence; try done; [|by intros t ?%elem_of_nil|by left].
      apply vt_settle. by right.
    - destruct (becomeLeaderL_spec (rf (peers w c)) Hwf) as (r2 & Hl2 & _ & Hme2 & Hn2 & _ & _ & _ & Hct2 & Hvf2 & Hro2 & _).
      { apply Hwf. congruence. }
      rewrite Hl2 in Hl. injection Hl as <- <-. split_and!; try congruence; [|apply appenders_no_votes| |by right].
      + apply vt_leader; try done. rewrite Hct. eapply counter_quorum; [done|done|done|done|lia].
      + intros t Ht. eapply appenders_wf; [done|done|done| |done].
        apply elected_observe. right. cbn. rewrite Hct2. done. }
  assert (vote_calls ts = vote_calls (delete k (tasks w))) as Hts.
  { unfold ts. by rewrite vote_calls_app, Hcalls. }
  split.
  - apply vote_inv_update; [apply Hw|done|done].
  - intros j Hj. rewrite peers_update. case_decide as Hd; [subst j; done|by apply Hw].
  - intros t [Ht|Ht%elem_of_delete]%elem_of_app; [by apply Hsp|].
    eapply task_wf_grows; [done|by apply Hw].
  - intros c' a' k' Hc' Hk'.
    assert (epoch (peers (update w c p' ts) c') = epoch (peers w c')) as Hep.
    { rewrite peers_update. case_decide as Hd; [by subst|done]. }
    assert (votes (peers w c') !! a' = Some k' ∨ c' = c ∧ a' = a ∧ k' = v') as [Hold|(-> & -> & ->)].
    { rewrite peers_update in Hk'. case_decide as Hd; [subst c'|by left]. cbn in Hk'.
      destruct (decide (a = a')) as [<-|]; [|rewrite list_lookup_insert_ne in Hk' by done; by left].
      rewrite list_lookup_insert_eq in Hk' by (by eapply lookup_lt_Some). naive_solver. }
    + eapply counter_ok_grows; [done|done| |by apply Hw].
      cbn [tasks update]. rewrite Hts. apply omap_delete_submseteq.
    + destruct Hv' as [->|[-> Hgr]].
      * eapply counter_ok_grows; [done|done| |done]. cbn [tasks update]. rewrite Hts. apply omap_delete_submseteq.
      * eapply counter_counted; done.
Qed.

(** *** Delivering a message *)

(** Server [s] handles a call and the task becomes the reply. *)
Lemma inv_deliver w k t t' s r' :
  cluster_inv w → 0 <= s < n → tasks w !! k = Some t → vote_task t' = vote_task t →
  node_wf r' → me r' = s → nPeers r' = n →
  vtrans n (hist w) s (rf (peers w s)) r' →
  (task_wf w t → task_wf (update w s (set_rf (peers w s) r') (<[k := t']> (tasks w))) t') →
  cluster_inv (update w s (set_rf (peers w s) r') (<[k := t']> (tasks w))).
Proof.
  intros Hw Hs Hk Hvt Hwf Hme Hn Htr Ht'. apply inv_quiet; try done.
  - unfold vote_calls. by rewrite (omap_insert_same _ _ _ t).
  - intros t1 [->|?]%elem_of_insert; [right|by left]. apply Ht', (ci_task _ Hw).
    by eapply list_elem_of_lookup_2.
Qed.

(** Caller [c] handles the reply and the task ends. *)
Lemma inv_reply w k c r' :
  cluster_inv w → 0 <= c < n → node_wf r' →
  (same_vote (rf (peers w c)) r' ∨ steps_down (rf (peers w c)) r') →
  cluster_inv (update w c (set_rf (peers w c) r') (delete k (tasks w))).
Proof.
  intros Hw Hc Hwf Hs. destruct (ci_node _ Hw c Hc) as (_ & Hme & Hn).
  apply inv_quiet; try done; cbn.
  - destruct Hs as [[]|[]]; congruence.
  - destruct Hs as [[]|[]]; congruence.
  - by apply vt_settle.
  - apply omap_delete_submseteq.
  - intros t ?%elem_of_delete. by left.
Qed.

Lemma settles_ids r r' : settles r r' → me r' = me r ∧ nPeers r' = nPeers r.
Proof. intros [[]|[]]; done. Qed.

(** The caller's appender sends, or gives up. *)
Lemma inv_start_append w k c s ep term call :
  cluster_inv w → tasks w !! k = Some (TStartAppend c s ep term) →
  append (rf (peers w c)) s term = Some call →
  cluster_inv (update w c (peers w c)
    (match call with
     | None => delete k (tasks w)
     | Some (CallAppend args) => <[k := TAppend c s ep args]> (tasks w)
     | Some (CallInstall args) => <[k := TInstall c s ep args]> (tasks w)
     end)).
Proof.
  intros Hw Hk Hrun.
  assert (task_wf w (TStartAppend c s ep term)) as [Hp Hel].
  { apply (ci_task _ Hw). by eapply list_elem_of_lookup_2. }
  destruct (ci_node _ Hw c (proj1 Hp)) as (Hwf & Hme & Hn).
  assert ((term, c) ∈ elected (hist (update w c (peers w c) []))) as Hgr.
  { apply elected_observe. by left. }
  unfold append in Hrun. destruct (currentTerm (rf (peers w c)) =? term) eqn:Et; bools; cbn [negb] in Hrun.
  2: { injection Hrun as <-. apply inv_quiet; try done; [apply Hp|by apply vt_settle; left| |].
       - apply omap_delete_submseteq.
       - intros t ?%elem_of_delete. by left. }
  destruct (go_index _ s); cbn [mbind option_bind] in Hrun; [|done].
  rewrite logFirstIndexL_spec in Hrun by apply Hwf. cbn [mbind option_bind] in Hrun.
  destruct (_ <=? _).
  - injection Hrun as <-. apply inv_quiet; try done; [apply Hp|by apply vt_settle; left| |].
    + unfold vote_calls. by rewrite (omap_insert_same _ _ _ _ _ Hk).
    + intros t [->|?]%elem_of_insert; [right|by left]. cbn [task_wf is_Term installArgsL]. rewrite Et.
      split_and!; [done|exact Hgr|by apply installArgsL_wf].
  - destruct (makeAppendArgsL _ s) as [args|] eqn:Ea; cbn [mbind option_bind] in Hrun; [|done].
    destruct (makeAppendArgsL_spec _ _ _ Hwf Ea) as (Hae & Ht & _).
    injection Hrun as <-. apply inv_quiet; try done; [apply Hp|by apply vt_settle; left| |].
    + unfold vote_calls. by rewrite (omap_insert_same _ _ _ _ _ Hk).
    + intros t [->|?]%elem_of_insert; [right|by left]. cbn [task_wf]. rewrite Ht, Et.
      split_and!; [done|exact Hgr|done].
Qed.

Lemma inv_run w k env w' : cluster_inv w → run k env w = Some w' → cluster_inv w'.
Proof.
  intros Hw H. unfold run in H. destruct (tasks w !! k) as [t|] eqn:Hk; cbn [mbind option_bind] in H; [|done].
  pose proof (ci_task _ Hw t ltac:(by eapply list_elem_of_lookup_2)) as Ht.
  destruct t as [c s ep a args|c s ep a args reply|c s ep term|c s ep args|c s ep args reply|c s ep args|c s ep args reply];
    cbn in Ht.
  - destruct Ht as ((Hc & Hs & Hcs) & Hid & Hfr). destruct (ci_node _ Hw s Hs) as (Hwf & Hme & Hn).
    destruct (RequestVote_spec env _ args Hwf) as (r' & reply & Hrun & Hwf' & _ & _ & Hv).
    rewrite Hrun in H. cbn [mbind option_bind] in H. injection H as <-.
    assert (vtrans n (hist w) s (rf (peers w s)) r' ∧ me r' = s ∧ nPeers r' = n) as (Hvt & Hme' & Hn').
    { destruct (rvr_VoteGranted reply).
      - destruct Hv as [Hv _]. pose proof Hv as (r1 & Hst & Hm1 & Hn1 & _). apply settles_ids in Hst as [? ?].
        split; [|split; congruence].
        apply (vt_grant _ _ _ _ _ args); [congruence|lia|done].
      - destruct (settles_ids _ _ Hv). split; [by apply vt_settle|split; congruence]. }
    eapply inv_deliver; try done. intros Ht. split; [apply Ht|]. split; [done|]. split.
    + eapply (task_wf_grows w _ (TVote c s ep a args)); [apply grows_set_rf|done].
    + intros Hgr. rewrite Hgr in Hv. destruct Hv as [(r1 & _ & _ & _ & _ & _ & Htm & _ & Hvf) _].
      apply cast_observe. right. cbn. unfold NA. rewrite Hvf, Hid, Htm. split_and!; try done. lia.
  - destruct Ht as ((Hc & Hs & Hcs) & Hid & Hfr & Hcast).
    destruct (bool_decide (epoch (peers w c) = ep)) eqn:Hep; bools; cbn [negb] in H; [subst ep|done].
    destruct (votes (peers w c) !! a) as [v|] eqn:Hv; cbn [mbind option_bind] in H; [|done].
    destruct (processRequestReplyL _ _ _ _) as [[[r' v'] sp]|] eqn:Hrun; cbn [mbind option_bind] in H; [|done].
    injection H as <-. by eapply inv_vote_reply.
  - destruct (bool_decide (epoch (peers w c) = ep)) eqn:Hep; bools; cbn [negb] in H; [|done].
    destruct (append _ s term) as [call|] eqn:Hrun; cbn [mbind option_bind] in H; [|done].
    injection H as <-. by eapply inv_start_append.
  - destruct Ht as ((Hc & Hs & Hcs) & Hel & Hae). destruct (ci_node _ Hw s Hs) as (Hwf & Hme & Hn).
    destruct (AppendEntries_spec env _ args Hwf Hae) as (r1 & r' & reply & Hrun & _ & Hwf' & Hst & _).
    rewrite Hrun in H. cbn [mbind option_bind] in H. injection H as <-.
    destruct (settles_ids _ _ Hst). eapply inv_deliver; try done; try congruence; [by apply vt_settle|].
    apply (task_wf_grows w _ (TAppend c s ep args)), grows_set_rf.
  - destruct Ht as ((Hc & _) & _).
    destruct (bool_decide (epoch (peers w c) = ep)) eqn:Hep; bools; cbn [negb] in H; [|done].
    destruct (processAppendReplyL _ s args reply) as [r'|] eqn:Hrun; cbn [mbind option_bind] in H; [|done].
    injection H as <-. destruct (ci_node _ Hw c Hc) as (Hwf & _).
    destruct (processAppendReplyL_node _ _ _ _ _ Hwf Hrun) as (Hwf' & _ & [Hs|[Hs _]]);
      apply inv_reply; try done; [left; apply Hs|by right].
  - destruct Ht as ((Hc & Hs & Hcs) & Hel & Hsw). destruct (ci_node _ Hw s Hs) as (Hwf & Hme & Hn).
    destruct (InstallSnapshot_spec env _ args Hwf Hsw) as (r1 & r' & reply & Hrun & _ & Hwf' & Hst & _).
    rewrite Hrun in H. cbn [mbind option_bind] in H. injection H as <-.
    destruct (settles_ids _ _ Hst). eapply inv_deliver; try done; try congruence; [by apply vt_settle|].
    apply (task_wf_grows w _ (TInstall c s ep args)), grows_set_rf.
  - destruct Ht as ((Hc & _) & _).
    destruct (bool_decide (epoch (peers w c) = ep)) eqn:Hep; bools; cbn [negb] in H; [|done].
    destruct (processInstallReplyL _ s args reply) as [r'|] eqn:Hrun; cbn [mbind option_bind] in H; [|done].
    injection H as <-. destruct (ci_node _ Hw c Hc) as (Hwf & _).
    destruct (processInstallReplyL_node _ _ _ _ _ Hwf Hrun) as (Hwf' & _ & [Hs|[Hs _]]);
      apply inv_reply; try done; [left; apply Hs|by right].
Qed.

Lemma inv_tick w i env r' sp :
  cluster_inv w → 0 <= i < n → tick env (rf (peers w i)) = Some (r', sp) →
  let p := peers w i in
  cluster_inv (update w i (MkPeer r' (epoch p) (new_votes sp (votes p)))
    (spawn i (epoch p) (length (votes p)) sp ++ tasks w)).
Proof.
  intros Hw Hi H p. destruct (ci_node _ Hw i Hi) as (Hwf & _). unfold tick, role_eqb in H.
  case_bool_decide as Hr.
  - injection H as <- <-. unfold heartbeatsL. rewrite appenders_no_request.
    by apply inv_appenders; [done|done|done|reflexivity|done].
  - destruct (env_now env >? _); [by eapply inv_candidate|].
    injection H as <- <-. by apply inv_local; [done|done|done|reflexivity].
Qed.

Lemma inv_exec act w w' : cluster_inv w → exec n act w = Some w' → cluster_inv w'.
Proof.
  intros Hw H. destruct act as [i env|i cmd|i index data|i|i|i env|k|k env]; cbn [exec] in H.
  all: try (destruct (negb (in_cluster n i)) eqn:Hin; [done|]; apply in_cluster_spec in Hin as Hi;
            destruct (ci_node _ Hw i Hi) as (Hwf & Hme & Hn)).
  - destruct (tick _ _) as [[r' sp]|] eqn:Hrun; cbn [mbind option_bind] in H; [|done].
    injection H as <-. by eapply inv_tick.
  - destruct (Start_spec _ cmd Hwf) as [[_ Hrun]|(r' & Hl & Hrun & Hwf' & Hsv & _)];
      rewrite Hrun in H; cbn [mbind option_bind] in H; injection H as <-.
    + by apply inv_local; [done|done|done|reflexivity].
    + by apply inv_appenders.
  - destruct (SnapshotL _ index data) as [r'|] eqn:Hrun; cbn [mbind option_bind] in H; [|done].
    injection H as <-. pose proof (SnapshotL_returns _ _ _ _ Hwf Hrun) as Hle.
    destruct (SnapshotL_spec _ _ data Hwf Hle) as (r1 & Hrun1 & Hwf1 & Hsv & _).
    rewrite Hrun in Hrun1. injection Hrun1 as <-. by apply inv_local.
  - destruct (apply _) as [[r' msg]|] eqn:Hrun; cbn [mbind option_bind] in H; [|done].
    injection H as <-. destruct (apply_node _ _ _ Hwf Hrun) as [Hwf' [Hsv _ _ _]]. by apply inv_local.
  - injection H as <-. apply inv_local; [done|done| |by split]. by destruct Hwf; split.
  - destruct (Make env n i _) as [r'|] eqn:Hrun; cbn [mbind option_bind] in H; [|done].
    injection H as <-. by eapply inv_restart.
  - injection H as <-. by apply inv_drop.
  - by eapply inv_run.
Qed.

Lemma inv_init envs : cluster_inv (init n envs).
Proof.
  split; cbn; try done.
  - apply vote_inv_init.
  - intros i Hi. split_and!; [|done|done]. apply node_wf_set_electionTimeout.
    assert (go_len (replicate (Z.to_nat n) 0) = n) as Hlen.
    { unfold go_len. rewrite length_replicate. lia. }
    split; cbn; try done; [apply log_wf_singleton; lia|by left].
  - by intros t ?%elem_of_nil.
Qed.

(** The invariant holds in every reachable cluster. *)
Lemma reachable_inv w : reachable n w → cluster_inv w.
Proof.
  intros [envs Hw]. revert Hw. apply (rtc_ind_r (λ w, cluster_inv w)).
  - apply inv_init.
  - intros w1 w2 _ [act Hact] Hi. by eapply inv_exec.
Qed.
End inv.
