(* ===== verification/RaftLogMatching.v ===== *)
(** * Log matching

    If the logs of two peers have an entry with the same index and term, they
    agree on that entry and on everything before it (as far as their snapshots
    have not removed it).  The map [born] of the history gives, for the index and
    the term of an entry, the term of the entry before it and its command; the
    invariant is that every log in memory, on disk or in a message agrees with
    [born]. *)

From S2P Require Import Prelude Util Labgob RaftState RaftHandlers RaftLeader RaftNode RaftRecv RaftSend RaftCluster RaftElection RaftClusterInv.

(** ** Logs that agree with [born] *)

Section pairs.
Context {C : Type}.
Implicit Types (l : list (LogEntry C)) (b : gmap (Z * Z) (Z * option C)).

Definition pairs_ok b l : Prop := ∀ (k : nat) e0 e1,
  l !! k = Some e0 → l !! S k = Some e1 → b !! (Index e1, Term e1) = Some (Term e0, Command e1).

Lemma pairs_ok_mono b b' l : b ⊆ b' → pairs_ok b l → pairs_ok b' l.
Proof. intros Hb Hl k e0 e1 H0 H1. eapply lookup_weaken; [by eapply Hl|done]. Qed.

Lemma pairs_ok_drop b l n : pairs_ok b l → pairs_ok b (drop n l).
Proof.
  intros Hl k e0 e1. rewrite !lookup_drop. intros H0 H1. apply (Hl (n + k)%nat); [done|].
  by replace (S (n + k)) with (n + S k)%nat by lia.
Qed.

Lemma pairs_ok_take b l n : pairs_ok b l → pairs_ok b (take n l).
Proof.
  intros Hl k e0 e1 [H0 _]%lookup_take_Some [H1 _]%lookup_take_Some. by apply (Hl k).
Qed.

Lemma pairs_ok_singleton b e : pairs_ok b [e].
Proof. intros [|k] e0 e1 H0 H1; simplify_eq/=. Qed.

(** Joining two logs: the pair at the seam is the only new one. *)
Lemma pairs_ok_app b l l' :
  pairs_ok b l → pairs_ok b l' →
  (∀ e0 e1, last l = Some e0 → head l' = Some e1 →
    b !! (Index e1, Term e1) = Some (Term e0, Command e1)) →
  pairs_ok b (l ++ l').
Proof.
  intros Hl Hl' Hseam k e0 e1 H0 H1.
  destruct (decide (S k < length l)%nat) as [Hlt|Hge].
  { rewrite lookup_app_l in H0, H1 by lia. by apply (Hl k). }
  rewrite lookup_app_r in H1 by lia.
  destruct (decide (k < length l)%nat) as [Hlt|Hge'].
  - rewrite lookup_app_l in H0 by lia. apply Hseam.
    + rewrite last_lookup. by replace (pred (length l)) with k by lia.
    + replace (S k - length l)%nat with 0%nat in H1 by lia. by destruct l'.
  - rewrite lookup_app_r in H0 by lia. apply (Hl' (k - length l)%nat); [done|].
    by replace (S (k - length l)) with (S k - length l)%nat by lia.
Qed.

(** Consecutive entries of a log, by Raft index. *)
Lemma pairs_ok_at b l i e0 e1 :
  log_wf l → pairs_ok b l → entry_at l (i - 1) = Some e0 → entry_at l i = Some e1 →
  b !! (i, Term e1) = Some (Term e0, Command e1).
Proof.
  intros Hwf Hl H0 H1. rewrite <- (entry_at_Index _ _ _ Hwf H1) at 1.
  apply entry_at_lookup in H0 as [? H0], H1 as [? H1].
  apply (Hl (Z.to_nat (i - 1 - firstIdx l))); [done|].
  by replace (S (Z.to_nat (i - 1 - firstIdx l))) with (Z.to_nat (i - firstIdx l)) by lia.
Qed.

(** Two logs that agree with [born] match below a common (index, term). *)
Lemma pairs_match_terms b l1 l2 k e1 e2 (d : nat) :
  log_wf l1 → log_wf l2 → pairs_ok b l1 → pairs_ok b l2 →
  entry_at l1 k = Some e1 → entry_at l2 k = Some e2 → Term e1 = Term e2 →
  firstIdx l1 <= k - Z.of_nat d → firstIdx l2 <= k - Z.of_nat d →
  ∃ e1' e2', entry_at l1 (k - Z.of_nat d) = Some e1' ∧ entry_at l2 (k - Z.of_nat d) = Some e2'
    ∧ Term e1' = Term e2'.
Proof.
  intros Hwf1 Hwf2 Hp1 Hp2 He1 He2 HT. induction d as [|d IH]; intros Hf1 Hf2.
  { rewrite Z.sub_0_r. eauto. }
  destruct IH as (a1 & a2 & Ha1 & Ha2 & Ha); [lia..|].
  apply entry_at_bounds in He1 as Hb1, He2 as Hb2; [|done..].
  destruct (entry_at_range l1 (k - Z.of_nat (S d)) Hwf1 ltac:(lia)) as [c1 Hc1].
  destruct (entry_at_range l2 (k - Z.of_nat (S d)) Hwf2 ltac:(lia)) as [c2 Hc2].
  exists c1, c2. split_and!; [done..|].
  pose proof (pairs_ok_at b l1 (k - Z.of_nat d) c1 a1 Hwf1 Hp1) as H1.
  pose proof (pairs_ok_at b l2 (k - Z.of_nat d) c2 a2 Hwf2 Hp2) as H2.
  replace (k - Z.of_nat d - 1) with (k - Z.of_nat (S d)) in H1, H2 by lia.
  specialize (H1 Hc1 Ha1). specialize (H2 Hc2 Ha2). rewrite Ha in H1. congruence.
Qed.

Lemma pairs_match b l1 l2 k e1 e2 m :
  log_wf l1 → log_wf l2 → pairs_ok b l1 → pairs_ok b l2 →
  entry_at l1 k = Some e1 → entry_at l2 k = Some e2 → Term e1 = Term e2 →
  firstIdx l1 < m <= k → firstIdx l2 < m →
  entry_at l1 m = entry_at l2 m.
Proof.
  intros Hwf1 Hwf2 Hp1 Hp2 He1 He2 HT Hm Hm2.
  destruct (pairs_match_terms b l1 l2 k e1 e2 (Z.to_nat (k - m)) Hwf1 Hwf2 Hp1 Hp2 He1 He2 HT)
    as (a1 & a2 & Ha1 & Ha2 & Ha); [lia..|].
  destruct (pairs_match_terms b l1 l2 k e1 e2 (Z.to_nat (k - (m - 1))) Hwf1 Hwf2 Hp1 Hp2 He1 He2 HT)
    as (c1 & c2 & Hc1 & Hc2 & Hc); [lia..|].
  replace (k - Z.of_nat (Z.to_nat (k - m))) with m in Ha1, Ha2 by lia.
  replace (k - Z.of_nat (Z.to_nat (k - (m - 1)))) with (m - 1) in Hc1, Hc2 by lia.
  pose proof (pairs_ok_at b l1 m c1 a1 Hwf1 Hp1 Hc1 Ha1) as H1.
  pose proof (pairs_ok_at b l2 m c2 a2 Hwf2 Hp2 Hc2 Ha2) as H2.
  pose proof (entry_at_Index _ _ _ Hwf1 Ha1). pose proof (entry_at_Index _ _ _ Hwf2 Ha2).
  rewrite Ha in H1. rewrite Ha1, Ha2. destruct a1, a2. cbn in *. congruence.
Qed.

(** The log that a message continues: the previous entry and the new ones. *)
Definition ae_log (args : AppendEntriesArgs C) : list (LogEntry C) :=
  MkLogEntry None (ae_PrevLogIndex args) (ae_PrevLogTerm args) :: ae_Entries args.

Lemma ae_result_pairs b l args l' e0 :
  log_wf l → ae_wf args → pairs_ok b l → pairs_ok b (ae_log args) →
  entry_at l (ae_PrevLogIndex args) = Some e0 → Term e0 = ae_PrevLogTerm args →
  ae_result l args l' → pairs_ok b l'.
Proof.
  intros Hwf Hae Hl Hm He0 Ht0 [_|i e Hei Hmat _]; [done|].
  pose proof (lookup_lt_Some _ _ _ Hei) as Hlt.
  destruct (matched_prev _ _ _ _ Hae He0 Ht0 Hmat ltac:(lia)) as (ep & Hep & _ & Hlast).
  pose proof (entry_at_bounds _ _ _ Hwf He0). pose proof (entry_at_bounds _ _ _ Hwf Hep).
  apply pairs_ok_app.
  - by apply pairs_ok_take.
  - apply (pairs_ok_drop b (ae_log args) (S i) Hm).
  - intros a0 a1 Ha0 Ha1.
    assert (a1 = e) as ->.
    { rewrite head_lookup, lookup_drop, Nat.add_0_r in Ha1. congruence. }
    set (k := Z.to_nat _) in Ha0.
    assert (a0 = ep) as ->.
    { pose proof (last_idx _ Hwf). unfold go_len in *. rewrite last_lookup, length_take in Ha0.
      apply lookup_take_Some in Ha0 as [Ha0 _]. rewrite lookup_entry_at in Ha0.
      assert (firstIdx l + Z.of_nat (pred (k `min` length l)) = ae_PrevLogIndex args + Z.of_nat i) as Heq by lia.
      rewrite Heq in Ha0. congruence. }
    destruct Hlast as [[-> ->]|(e1 & Hi & He1 & Hte1)].
    + rewrite Ht0. apply (Hm 0%nat (MkLogEntry None (ae_PrevLogIndex args) (ae_PrevLogTerm args))); done.
    + rewrite <- Hte1. apply (Hm i); [|done]. destruct i; done.
Qed.

Lemma is_result_pairs b l snap l' : pairs_ok b l → is_result l snap l' → pairs_ok b l'.
Proof. intros Hl [e _ _|_]; [by apply pairs_ok_drop|apply pairs_ok_singleton]. Qed.
End pairs.

Section newest.
Context {C : Type}.
Implicit Types (l : list (LogEntry C)) (b : gmap (Z * Z) (Z * option C)).

Lemma newest_snoc l e0 e1 : last l = Some e0 →
  newest (l ++ [e1]) = Some ((Index e1, Term e1), (Term e0, Command e1)).
Proof.
  intros [l' ->]%last_Some. unfold newest. rewrite rev_app_distr. cbn. by rewrite rev_app_distr.
Qed.

(** Observing a log that agrees with [born] changes nothing. *)
Lemma newest_known b l k v : pairs_ok b l → newest l = Some (k, v) → <[k := v]> b = b.
Proof.
  intros Hl Hn. apply insert_id. destruct l as [|x l _] using rev_ind; [done|].
  destruct l as [|y l _] using rev_ind; [done|].
  rewrite (newest_snoc _ y) in Hn by by rewrite last_snoc. injection Hn as <- <-.
  apply (Hl (length l)).
  - rewrite lookup_app_l by (rewrite length_app; cbn; lia). by rewrite lookup_snoc_Some; auto.
  - replace (S (length l)) with (length (l ++ [y])) by (rewrite length_app; cbn; lia). by apply list_lookup_middle.
Qed.
End newest.

(** ** What operations leave on disk *)

Section disk.
Context {C : Type} `{!GobCodec (PState C), !GobLaws (PState C)}.
Implicit Types r : Raft C.

(** The log on disk is the one that was there, the old or the new log. *)
Definition saves r r' : Prop := dlog r' = dlog r ∨ dlog r' = log r ∨ dlog r' = log r'.

Lemma dlog_on_disk r l : on_disk r l → dlog r = l.
Proof.
  intros [Hne Hd]. unfold dlog. destruct (raftstate (persister r)) as [|x d]; [done|]. by rewrite Hd.
Qed.

Lemma dlog_same r r' : persister r' = persister r → dlog r' = dlog r.
Proof. unfold dlog. by intros ->. Qed.

Lemma dlog_persistL r x : persister r = persister (persistL x) → dlog r = log x.
Proof. intros Hp. rewrite (dlog_same (persistL x)) by done. apply dlog_on_disk, persistL_on_disk. Qed.

Lemma saves_same r r' : persister r' = persister r → saves r r'.
Proof. intros. left. by apply dlog_same. Qed.

Lemma saves_persistL r r' x :
  persister r' = persister (persistL x) → (log x = log r ∨ log x = log r') → saves r r'.
Proof. intros Hp Hx. right. by rewrite (dlog_persistL _ x). Qed.

Lemma on_disk_saves r r' : on_disk r' (log r') → saves r r'.
Proof. intros. right; right. by apply dlog_on_disk. Qed.

Lemma becomeFollowerL_saves r t : saves r (becomeFollowerL r t).
Proof.
  eapply (saves_persistL _ _ (set_currentTerm (set_votedFor (set_role r Follower) NA) t)); [done|by left].
Qed.

Lemma RequestVote_saves env r args r' reply :
  RequestVote env r args = Some (r', reply) → saves r r'.
Proof.
  unfold RequestVote. set (r1 := if _ >? _ then _ else r).
  assert (saves r r1 ∧ log r1 = log r) as [Hs Hl].
  { subst r1. destruct (_ >? _); [split; [apply becomeFollowerL_saves|done]|]. split; [by apply saves_same|done]. }
  clearbody r1. intros H. destruct (lastLogL r1) as [lst|]; cbn [mbind option_bind] in H; [|done].
  destruct (_ <? _); [by simplify_eq|]. destruct (_ && _); [|by simplify_eq].
  injection H as <- _.
  eapply (saves_persistL _ _ (set_votedFor r1 (rv_CandidateId args))); [done|]. by left.
Qed.

Lemma ae_preamble_saves env r args : saves r (ae_preamble env r args).
Proof.
  unfold ae_preamble. set (r1 := if ae_Term args >? _ then _ else r).
  assert (saves r r1 ∧ log r1 = log r) as [Hs Hl].
  { subst r1. destruct (_ >? _); [split; [apply becomeFollowerL_saves|done]|]. split; [by apply saves_same|done]. }
  clearbody r1. set (r2 := if _ && _ then _ else r1).
  assert (saves r r2 ∧ log r2 = log r) as [Hs2 Hl2].
  { subst r2. destruct (_ && _); [|done]. split; [|done].
    eapply (saves_persistL _ _ (set_currentTerm (set_votedFor (set_role r1 Follower) NA) (ae_Term args)));
      [done|by left]. }
  clearbody r2. destruct (_ >=? _); [|done]. by rewrite resetElectionTimeoutL_frame.
Qed.

Lemma AppendEntries_saves env r args r' reply :
  node_wf r → ae_wf args → AppendEntries env r args = Some (r', reply) → saves r r'.
Proof.
  intros Hwf Hae H.
  destruct (AppendEntries_spec env r args Hwf Hae) as (r1 & r2 & reply2 & H2 & -> & _ & _ & _ & Hw).
  rewrite H in H2. injection H2 as <- <-.
  destruct Hw as [[Heq _]|Heq].
  - assert (persister r' = persister (ae_preamble env r args)) as Hp by by apply (f_equal persister) in Heq.
    destruct (ae_preamble_spec env r args Hwf) as (_ & _ & Hl & _).
    unfold saves. rewrite (dlog_same _ _ Hp).
    destruct (ae_preamble_saves env r args) as [|[|Hx]]; [auto..|].
    rewrite Hl in Hx. auto.
  - eapply (saves_persistL _ _ (set_log (ae_preamble env r args) (log r'))); [|by right].
    by apply (f_equal persister) in Heq.
Qed.

Lemma InstallSnapshot_saves env r args r' reply :
  node_wf r → is_wf args → InstallSnapshot env r args = Some (r', reply) → saves r r'.
Proof.
  intros Hwf Hsw H.
  destruct (InstallSnapshot_spec env r args Hwf Hsw) as (r1 & r2 & reply2 & H2 & -> & _ & _ & _ & Hp & _).
  rewrite H in H2. injection H2 as <- <-.
  destruct (_ >? _); [|by apply saves_same].
  eapply (saves_persistL _ _ (set_currentTerm (set_votedFor (set_role r Follower) NA) (is_Term args)));
    [exact Hp|by left].
Qed.

Lemma processRequestReplyL_saves r args reply v r' v' sp :
  node_wf r → processRequestReplyL r args reply v = Some (r', v', sp) → saves r r'.
Proof.
  intros Hwf H. destruct (processRequestReplyL_spec r args reply v Hwf) as (r1 & v1 & sp1 & H1 & _ & _ & Hc).
  rewrite H in H1. injection H1 as <- <- <-.
  destruct Hc as [(Hs & _)|[(_ & _ & _ & Hd & _)|(_ & Hro & _ & _ & _ & Hl)]].
  - apply saves_same, Hs.
  - by apply on_disk_saves.
  - destruct (becomeLeaderL_spec r Hwf) as (r2 & Hl2 & _ & _ & _ & _ & Hp & _); [apply Hwf; congruence|].
    rewrite Hl in Hl2. injection Hl2 as <- _. by apply saves_same.
Qed.
End disk.

(** ** The invariant *)

Section matching.
Context {C : Type} `{!GobCodec (PState C), !GobLaws (PState C)}.
Context (n : Z).
Implicit Types (w : Cluster C) (r : Raft C) (t : Task C).

Definition msg_ok (b : gmap (Z * Z) (Z * option C)) t : Prop :=
  match t with TAppend _ _ _ args => pairs_ok b (ae_log args) | _ => True end.

Record log_inv w : Prop := {
  lv_log i : 0 <= i < n → pairs_ok (born (hist w)) (log (rf (peers w i)));
  lv_disk i : 0 <= i < n → pairs_ok (born (hist w)) (dlog (rf (peers w i)));
  lv_msg t : t ∈ tasks w → msg_ok (born (hist w)) t;
  (** Entries of a term come from its leader, which has all of them while it
      leads. *)
  lv_born k T v : born (hist w) !! (k, T) = Some v →
    ∃ c, (T, c) ∈ elected (hist w) ∧ let r := rf (peers w c) in
      (role r = Leader → currentTerm r = T → k <= lastIdx (log r));
}.

(** A leader after the step led before it, with no longer log, or is new. *)
Definition keeps_lead w (i : Z) r' : Prop :=
  let r := rf (peers w i) in role r' = Leader →
  (role r = Leader ∧ currentTerm r' = currentTerm r ∧ lastIdx (log r) <= lastIdx (log r'))
  ∨ (currentTerm r', i) ∉ elected (hist w).

Lemma keeps_lead_settles w i r' :
  settles (rf (peers w i)) r' → log r' = log (rf (peers w i)) → keeps_lead w i r'.
Proof.
  intros [[]|[]] Hl Hr; [left|congruence]. rewrite Hl. split_and!; [congruence|done|lia].
Qed.

Lemma born_known i r h : pairs_ok (born h) (log r) → born (observe i r h) = born h.
Proof.
  intros Hl. unfold observe; cbn. destruct (role r); try done.
  destruct (newest (log r)) as [[k v]|] eqn:E; [|done]. by eapply newest_known.
Qed.

Lemma log_inv_update w i p ts :
  log_inv w → 0 <= i < n →
  pairs_ok (born (hist w)) (log (rf p)) → pairs_ok (born (hist w)) (dlog (rf p)) →
  keeps_lead w i (rf p) → (∀ t, t ∈ ts → msg_ok (born (hist w)) t) →
  log_inv (update w i p ts).
Proof.
  intros Hw Hi Hl Hd Hk Hts. pose proof (born_known i _ _ Hl) as Hb.
  split; cbn [hist update tasks]; rewrite ?Hb; fold (update w i p ts).
  - intros j Hj. rewrite peers_update. case_decide as Hij; [done|by apply Hw].
  - intros j Hj. rewrite peers_update. case_decide as Hij; [apply Hd|by apply Hw].
  - done.
  - intros k T v Hv. destruct (lv_born _ Hw _ _ _ Hv) as (c & Hel & Hlast). exists c.
    split; [apply elected_observe; by left|]. rewrite peers_update. case_decide as Hij; [subst c|done].
    intros Hr HT. destruct (Hk Hr) as [(Hr0 & HT0 & Hle)|Hne].
    + specialize (Hlast Hr0 ltac:(congruence)). lia.
    + by rewrite HT in Hne.
Qed.

(** The common case: the step saves the old or the new log. *)
Lemma log_inv_step w i p ts :
  log_inv w → 0 <= i < n → pairs_ok (born (hist w)) (log (rf p)) → saves (rf (peers w i)) (rf p) →
  keeps_lead w i (rf p) → (∀ t, t ∈ ts → t ∈ tasks w ∨ msg_ok (born (hist w)) t) →
  log_inv (update w i p ts).
Proof.
  intros Hw Hi Hl Hs Hk Hts. apply log_inv_update; try done.
  - destruct Hs as [->|[->| ->]]; [by apply Hw|by apply Hw|done].
  - intros t Ht. destruct (Hts t Ht); [by apply Hw|done].
Qed.

Lemma spawn_msg_ok b i ep a sp t : t ∈ spawn i ep a sp → msg_ok b t.
Proof.
  unfold spawn. rewrite list_elem_of_fmap. by intros ([] & -> & _).
Qed.

Lemma spawned_or_old (b : gmap (Z * Z) (Z * option C)) w i ep a sp ts t :
  (∀ t, t ∈ ts → t ∈ tasks w) → t ∈ spawn i ep a sp ++ ts → t ∈ tasks w ∨ msg_ok b t.
Proof. intros Hts [?%(spawn_msg_ok b)|?]%elem_of_app; auto. Qed.

(** A step that changes neither the log nor who leads. *)
Lemma log_inv_same_log w i p ts :
  log_inv w → 0 <= i < n → log (rf p) = log (rf (peers w i)) → saves (rf (peers w i)) (rf p) →
  keeps_lead w i (rf p) → (∀ t, t ∈ ts → t ∈ tasks w ∨ msg_ok (born (hist w)) t) →
  log_inv (update w i p ts).
Proof. intros Hw Hi Hl. intros. apply log_inv_step; try done. rewrite Hl. by apply Hw. Qed.

(** [Start]: the entry is new, because the leader of the term has all entries
    of the term. *)
Lemma log_inv_start w i r' command ts :
  0 <= n → cluster_inv n w → log_inv w → 0 <= i < n → let r := rf (peers w i) in
  role r = Leader → same_vote r r' → on_disk r' (log r') →
  log r' = log r ++ [MkLogEntry command (lastIdx (log r) + 1) (currentTerm r)] →
  (∀ t, t ∈ ts → t ∈ tasks w ∨ ∀ b, msg_ok b t) →
  log_inv (update w i (set_rf (peers w i) r') ts).
Proof.
  intros Hn Hc Hw Hi r Hl Hsv Hd Hlog Hts. destruct (ci_node _ _ Hc i Hi) as (Hwf & _). fold r in Hwf.
  destruct (last_entry _ (nw_log _ Hwf)) as (e0 & He0 & _ & HI & HT).
  set (e1 := MkLogEntry command (lastIdx (log r) + 1) (currentTerm r)) in *.
  set (key := (lastIdx (log r) + 1, currentTerm r)).
  assert (born (hist w) !! key = None) as Hfresh.
  { destruct (born (hist w) !! key) as [v|] eqn:Hv; [exfalso|done].
    destruct (lv_born _ Hw _ _ _ Hv) as (c & Hel & Hlast).
    assert (c = i) as ->.
    { eapply elected_unique; [done|apply Hc|done|]. by apply (vi_leader _ _ (ci_vote _ _ Hc)). }
    specialize (Hlast Hl eq_refl). fold r in Hlast. lia. }
  set (h' := observe i r' (hist w)).
  assert (born h' = <[key := (Term e0, command)]> (born (hist w))) as Hb.
  { unfold h', observe; cbn. rewrite (sv_role _ _ Hsv), Hl, Hlog, (newest_snoc _ e0) by done. done. }
  assert (born (hist w) ⊆ born h') as Hsub by (rewrite Hb; by apply insert_subseteq).
  assert (pairs_ok (born h') (log r')) as Hok.
  { rewrite Hlog. apply pairs_ok_app; [eapply pairs_ok_mono; [done|by apply Hw]|apply pairs_ok_singleton|].
    intros a0 a1 Ha0 Ha1. cbn in Ha1. simplify_eq. rewrite Hb. cbn. by rewrite lookup_insert_eq. }
  split; cbn [hist update tasks rf set_rf]; fold h'.
  - intros j Hj. rewrite peers_update. case_decide as Hij; [done|].
    eapply pairs_ok_mono; [done|by apply Hw].
  - intros j Hj. rewrite peers_update. case_decide as Hij; [cbn [rf set_rf]; by rewrite (dlog_on_disk _ _ Hd)|].
    eapply pairs_ok_mono; [done|by apply Hw].
  - intros t Ht. destruct (Hts t Ht) as [Ht'|Ht']; [|apply Ht']. apply (lv_msg _ Hw) in Ht'.
    destruct t; try done. by eapply pairs_ok_mono.
  - intros k T v. rewrite Hb. rewrite lookup_insert_Some. intros [[Hk Hv]|[Hk Hv]].
    + exists i. unfold key in Hk. injection Hk as <- <-. split.
      * apply elected_observe. left. by apply (vi_leader _ _ (ci_vote _ _ Hc)).
      * rewrite peers_update, decide_True by done. cbn. intros _ _. rewrite Hlog.
        unfold lastIdx at 2. rewrite last_snoc. done.
    + destruct (lv_born _ Hw _ _ _ Hv) as (c & Hel & Hlast). exists c.
      split; [apply elected_observe; by left|]. rewrite peers_update. case_decide as Hij; [subst c|done].
      cbn. rewrite (sv_role _ _ Hsv), (sv_term _ _ Hsv), Hlog. intros Hr HT'. specialize (Hlast Hr HT').
      fold r in Hlast. unfold lastIdx. rewrite last_snoc. cbn. lia.
Qed.

(** ** The steps preserve it *)

Lemma log_inv_init envs : log_inv (init n envs).
Proof.
  split; cbn; try done. by intros t ?%elem_of_nil.
Qed.

Lemma same_node_keeps w i r' : same_node (rf (peers w i)) r' → keeps_lead w i r'.
Proof. intros []. apply keeps_lead_settles; [by left|done]. Qed.

Lemma log_inv_tick w i env r' sp vs ep a :
  cluster_inv n w → log_inv w → 0 <= i < n → tick env (rf (peers w i)) = Some (r', sp) →
  log_inv (update w i (MkPeer r' ep vs) (spawn i ep a sp ++ tasks w)).
Proof.
  intros Hc Hw Hi H. destruct (ci_node _ _ Hc i Hi) as (Hwf & _).
  assert (log r' = log (rf (peers w i)) ∧ saves (rf (peers w i)) r' ∧ keeps_lead w i r') as (? & ? & ?).
  { unfold tick in H. destruct (role_eqb _ _).
    { injection H as <- _. split_and!; [done|by apply saves_same|by apply same_node_keeps]. }
    destruct (env_now env >? _).
    - destruct (becomeCandidateL_spec env _ Hwf) as (r1 & args & H1 & _ & _ & _ & Hl & Hd & _ & _ & Hro & _).
      rewrite H in H1. injection H1 as <- _. split_and!; [done|by apply on_disk_saves|].
      intros Hr. congruence.
    - injection H as <- _. split_and!; [done|by apply saves_same|by apply same_node_keeps]. }
  apply log_inv_same_log; try done. intros t. by apply spawned_or_old.
Qed.

Lemma log_inv_snapshot w i index data r' :
  cluster_inv n w → log_inv w → 0 <= i < n → SnapshotL (rf (peers w i)) index data = Some r' →
  log_inv (update w i (set_rf (peers w i) r') (tasks w)).
Proof.
  intros Hc Hw Hi H. destruct (ci_node _ _ Hc i Hi) as (Hwf & _).
  pose proof (SnapshotL_returns _ _ _ _ Hwf H) as Hle.
  destruct (SnapshotL_spec _ _ data Hwf Hle) as (r1 & H1 & _ & Hsv & _ & Hr).
  rewrite H in H1. injection H1 as <-. destruct Hr as [[-> _]|(_ & Hd & e & He & Hl & _)].
  - apply log_inv_same_log; try done; [by apply saves_same|by apply same_node_keeps|by left].
  - destruct (drop_to_index _ _ _ (nw_log _ Hwf) He) as (_ & _ & _ & Hlast & _).
    apply log_inv_step; cbn; try done; [|by apply on_disk_saves| |by left].
    + rewrite Hl. by apply pairs_ok_drop, Hw.
    + intros Hr. left. destruct Hsv. rewrite Hl, Hlast. split_and!; [congruence|done|lia].
Qed.

Lemma log_inv_restart w i env r' :
  cluster_inv n w → log_inv w → 0 <= i < n → Make env n i (persister (rf (peers w i))) = Some r' →
  log_inv (update w i (MkPeer r' (S (epoch (peers w i))) []) (tasks w)).
Proof.
  intros Hc Hw Hi H. destruct (ci_node _ _ Hc i Hi) as (Hwf & Hme & Hn).
  destruct (Make_spec env _ Hwf) as (r1 & H1 & _ & _ & _ & _ & _ & Hro & Hp & Hl).
  rewrite Hme, Hn, H in H1. injection H1 as <-.
  apply log_inv_step; cbn; try done; [|by apply saves_same| |by left].
  - destruct Hl as [->|<-%dlog_on_disk]; [apply pairs_ok_singleton|by apply Hw].
  - intros Hr. congruence.
Qed.

(** *** Delivering a message *)

Lemma log_inv_vote w k t s env args r' reply t' :
  cluster_inv n w → log_inv w → 0 <= s < n → tasks w !! k = Some t →
  RequestVote env (rf (peers w s)) args = Some (r', reply) → (∀ b, msg_ok b t') →
  log_inv (update w s (set_rf (peers w s) r') (<[k := t']> (tasks w))).
Proof.
  intros Hc Hw Hs Hk H Ht'. destruct (ci_node _ _ Hc s Hs) as (Hwf & _).
  pose proof (RequestVote_saves _ _ _ _ _ H) as Hsv.
  destruct (RequestVote_spec env _ args Hwf) as (r1 & reply1 & H1 & _ & Hl & _ & Hv).
  rewrite H in H1. injection H1 as <- <-.
  apply log_inv_same_log; try done.
  - destruct (rvr_VoteGranted reply); [|by apply keeps_lead_settles].
    destruct Hv as [(r1 & Hst & _ & _ & Hro & Hct & _) _]. cbn. intros Hr. left. rewrite Hl.
    destruct Hst as [[]|[]]; [|congruence]. split_and!; [congruence|congruence|lia].
  - intros t1 [->|?]%elem_of_insert; [right; apply Ht'|by left].
Qed.

Lemma log_inv_vote_reply w k c args reply v r' v' sp vs ep a :
  cluster_inv n w → log_inv w → 0 <= c < n →
  processRequestReplyL (rf (peers w c)) args reply v = Some (r', v', sp) →
  log_inv (update w c (MkPeer r' ep vs) (spawn c ep a sp ++ delete k (tasks w))).
Proof.
  intros Hc Hw Hi H. destruct (ci_node _ _ Hc c Hi) as (Hwf & _).
  pose proof (processRequestReplyL_saves _ _ _ _ _ _ _ Hwf H) as Hsv.
  destruct (processRequestReplyL_spec _ args reply v Hwf) as (r1 & v1 & sp1 & H1 & _ & Hl & Hcase).
  rewrite H in H1. injection H1 as <- <- <-.
  apply log_inv_same_log; try done.
  - destruct Hcase as [(Hs & _)|[(Hs & _)|(_ & Hro & _ & _ & _ & Hb)]].
    + by apply same_node_keeps.
    + apply keeps_lead_settles; [by right|done].
    + destruct (becomeLeaderL_spec _ Hwf) as (r2 & H2 & _ & _ & _ & _ & _ & _ & Hct & _);
        [apply Hwf; congruence|].
      rewrite Hb in H2. injection H2 as <- _. intros _. right. cbn. rewrite Hct.
      by apply (vi_candidate _ _ (ci_vote _ _ Hc)).
  - intros t. apply spawned_or_old. intros t1. apply elem_of_delete.
Qed.

(** The message of a leader is a piece of its log. *)
Lemma makeAppendArgsL_pairs b r s args :
  node_wf r → pairs_ok b (log r) → makeAppendArgsL r s = Some args → pairs_ok b (ae_log args).
Proof.
  intros Hwf Hl H. destruct (makeAppendArgsL_spec _ _ _ Hwf H) as (_ & _ & _ & _ & (e & He & Ht) & Hes & _).
  apply (pairs_ok_app b [_]); [apply pairs_ok_singleton|rewrite Hes; by apply pairs_ok_drop|].
  intros e0 e1 [= <-] He1. cbn. rewrite <- Ht. rewrite Hes, head_lookup, lookup_drop in He1.
  apply entry_at_lookup in He as [? He]. eapply Hl; [exact He|]. rewrite <- He1. f_equal. lia.
Qed.

Lemma log_inv_start_append w k c s ep term call :
  cluster_inv n w → log_inv w → 0 <= c < n → append (rf (peers w c)) s term = Some call →
  log_inv (update w c (peers w c)
    (match call with
     | None => delete k (tasks w)
     | Some (CallAppend args) => <[k := TAppend c s ep args]> (tasks w)
     | Some (CallInstall args) => <[k := TInstall c s ep args]> (tasks w)
     end)).
Proof.
  intros Hc Hw Hi H. destruct (ci_node _ _ Hc c Hi) as (Hwf & _).
  apply log_inv_same_log; try done; [by apply saves_same|by apply same_node_keeps|].
  unfold append in H. destruct (negb _).
  { injection H as <-. intros t ?%elem_of_delete. by left. }
  destruct (go_index _ s); cbn [mbind option_bind] in H; [|done].
  destruct (logFirstIndexL _); cbn [mbind option_bind] in H; [|done].
  destruct (_ <=? _).
  { injection H as <-. intros t [->|?]%elem_of_insert; [by right|by left]. }
  destruct (makeAppendArgsL _ s) as [args|] eqn:Ea; cbn [mbind option_bind] in H; [|done].
  injection H as <-. intros t [->|?]%elem_of_insert; [right|by left].
  eapply makeAppendArgsL_pairs; [done|by apply Hw|done].
Qed.

(** The receiver of a leader's message does not lead in the leader's term. *)
Lemma not_leader w c s T :
  0 <= n → cluster_inv n w → 0 <= s < n → c ≠ s → (T, c) ∈ elected (hist w) →
  role (rf (peers w s)) = Leader → currentTerm (rf (peers w s)) ≠ T.
Proof.
  intros Hn Hc Hs Hne Hel Hr <-. apply Hne.
  eapply elected_unique; [done|apply Hc|done|]. by apply (vi_leader _ _ (ci_vote _ _ Hc)).
Qed.

Lemma log_inv_deliver w k s t' r' T c :
  0 <= n → cluster_inv n w → log_inv w → 0 <= s < n → c ≠ s → (T, c) ∈ elected (hist w) →
  settles (rf (peers w s)) r' → (log r' = log (rf (peers w s)) ∨ T = currentTerm r') →
  pairs_ok (born (hist w)) (log r') → saves (rf (peers w s)) r' → msg_ok (born (hist w)) t' →
  log_inv (update w s (set_rf (peers w s) r') (<[k := t']> (tasks w))).
Proof.
  intros Hn Hc Hw Hs Hne Hel Hst Hl Hok Hsv Ht'. apply log_inv_step; try done.
  - destruct Hl as [Hl|HT]; [by apply keeps_lead_settles|]. cbn. intros Hr.
    destruct Hst as [[_ _ Hct _ Hro]|[]]; [|congruence]. exfalso.
    eapply (not_leader w c s T); try done; congruence.
  - intros t1 [->|?]%elem_of_insert; [by right|by left].
Qed.

Lemma log_inv_reply w k c r' :
  log_inv w → 0 <= c < n → log r' = log (rf (peers w c)) →
  (same_node (rf (peers w c)) r' ∨ steps_down (rf (peers w c)) r' ∧ on_disk r' (log r')) →
  log_inv (update w c (set_rf (peers w c) r') (delete k (tasks w))).
Proof.
  intros Hw Hc Hl Hr. apply log_inv_same_log; cbn; try done.
  - destruct Hr as [Hr|[_ Hd]]; [apply saves_same, Hr|by apply on_disk_saves].
  - destruct Hr as [Hr|[Hr _]]; [by apply same_node_keeps|by apply keeps_lead_settles; [right|]].
  - intros t ?%elem_of_delete. by left.
Qed.

Lemma log_inv_append w k c s ep args env r' reply :
  0 <= n → cluster_inv n w → log_inv w → tasks w !! k = Some (TAppend c s ep args) →
  AppendEntries env (rf (peers w s)) args = Some (r', reply) →
  log_inv (update w s (set_rf (peers w s) r') (<[k := TAppendReply c s ep args reply]> (tasks w))).
Proof.
  intros Hn Hc Hw Hk H. pose proof (list_elem_of_lookup_2 _ _ _ Hk) as Hin.
  pose proof (lv_msg _ Hw _ Hin) as Hm. destruct (ci_task _ _ Hc _ Hin) as ((Hci & Hs & Hne) & Hel & Hae).
  destruct (ci_node _ _ Hc s Hs) as (Hwf & _).
  pose proof (AppendEntries_saves _ _ _ _ _ Hwf Hae H) as Hsv.
  destruct (AppendEntries_spec env _ args Hwf Hae) as (r1 & r2 & reply2 & H2 & _ & _ & Hst & [_ Hsu Hfa] & _).
  rewrite H in H2. injection H2 as <- <-. destruct (aer_Success reply).
  - destruct Hsu as (HT & Hres & (e & He & Ht) & _); [done|].
    eapply (log_inv_deliver w k s _ r' (ae_Term args) c); try done; [by right|].
    eapply ae_result_pairs; [apply Hwf|done|by apply Hw|done|done|done|done].
  - destruct Hfa as [Hl _]; [done|].
    eapply (log_inv_deliver w k s _ r' (ae_Term args) c); try done; [by left|]. rewrite Hl. by apply Hw.
Qed.

Lemma log_inv_install w k c s ep args env r' reply :
  0 <= n → cluster_inv n w → log_inv w → tasks w !! k = Some (TInstall c s ep args) →
  InstallSnapshot env (rf (peers w s)) args = Some (r', reply) →
  log_inv (update w s (set_rf (peers w s) r') (<[k := TInstallReply c s ep args reply]> (tasks w))).
Proof.
  intros Hn Hc Hw Hk H. pose proof (list_elem_of_lookup_2 _ _ _ Hk) as Hin.
  destruct (ci_task _ _ Hc _ Hin) as ((Hci & Hs & Hne) & Hel & Hsw).
  destruct (ci_node _ _ Hc s Hs) as (Hwf & _).
  pose proof (InstallSnapshot_saves _ _ _ _ _ Hwf Hsw H) as Hsv.
  destruct (InstallSnapshot_spec env _ args Hwf Hsw) as (r1 & r2 & reply2 & H2 & _ & _ & Hst & _ & _ & _ & Hl).
  rewrite H in H2. injection H2 as <- <-.
  eapply (log_inv_deliver w k s _ r' (is_Term args) c); try done; [naive_solver|].
  destruct Hl as [->|(_ & Hres & _)]; [by apply Hw|]. eapply is_result_pairs; [by apply Hw|done].
Qed.

Lemma log_inv_run w k env w' :
  0 <= n → cluster_inv n w → log_inv w → run k env w = Some w' → log_inv w'.
Proof.
  intros Hn Hc Hw H. unfold run in H.
  destruct (tasks w !! k) as [t|] eqn:Hk; cbn [mbind option_bind] in H; [|done].
  pose proof (ci_task _ _ Hc t ltac:(by eapply list_elem_of_lookup_2)) as Ht.
  destruct t as [c s ep a args|c s ep a args reply|c s ep term|c s ep args|c s ep args reply|c s ep args|c s ep args reply];
    destruct Ht as ((Hci & Hs & _) & _); destruct (ci_node _ _ Hc c Hci) as (Hwf & _);
    try (destruct (negb _); [done|]).
  - destruct (RequestVote _ _ _) as [[r' reply]|] eqn:Hr; cbn [mbind option_bind] in H; [|done].
    injection H as <-. by eapply log_inv_vote.
  - destruct (votes _ !! a) as [v|]; cbn [mbind option_bind] in H; [|done].
    destruct (processRequestReplyL _ _ _ _) as [[[r' v'] sp]|] eqn:Hr; cbn [mbind option_bind] in H; [|done].
    injection H as <-. by eapply log_inv_vote_reply.
  - destruct (append _ s term) as [call|] eqn:Hr; cbn [mbind option_bind] in H; [|done].
    injection H as <-. by eapply log_inv_start_append.
  - destruct (AppendEntries _ _ _) as [[r' reply]|] eqn:Hr; cbn [mbind option_bind] in H; [|done].
    injection H as <-. by eapply log_inv_append.
  - destruct (processAppendReplyL _ _ _ _) as [r'|] eqn:Hr; cbn [mbind option_bind] in H; [|done].
    injection H as <-. destruct (processAppendReplyL_node _ _ _ _ _ Hwf Hr) as (_ & Hl & ?).
    apply log_inv_reply; naive_solver.
  - destruct (InstallSnapshot _ _ _) as [[r' reply]|] eqn:Hr; cbn [mbind option_bind] in H; [|done].
    injection H as <-. by eapply log_inv_install.
  - destruct (processInstallReplyL _ _ _ _) as [r'|] eqn:Hr; cbn [mbind option_bind] in H; [|done].
    injection H as <-. destruct (processInstallReplyL_node _ _ _ _ _ Hwf Hr) as (_ & Hl & ?).
    apply log_inv_reply; naive_solver.
Qed.

Lemma log_inv_exec act w w' :
  0 <= n → cluster_inv n w → log_inv w → exec n act w = Some w' → log_inv w'.
Proof.
  intros Hn Hc Hw H. destruct act as [i env|i cmd|i index data|i|i|i env|k|k env]; cbn [exec] in H.
  all: try (destruct (negb (in_cluster n i)) eqn:Hin; [done|]; apply in_cluster_spec in Hin as Hi;
            destruct (ci_node _ _ Hc i Hi) as (Hwf & _)).
  - destruct (tick _ _) as [[r' sp]|] eqn:Hr; cbn [mbind option_bind] in H; [|done].
    injection H as <-. by eapply log_inv_tick.
  - destruct (Start_spec _ cmd Hwf) as [[_ Hr]|(r' & Hl & Hr & _ & Hsv & Hd & _ & Hlog)];
      rewrite Hr in H; cbn [mbind option_bind] in H; injection H as <-.
    + apply log_inv_same_log; try done; [by apply saves_same|by apply same_node_keeps|by left].
    + eapply log_inv_start; try done. intros t [?|?]%elem_of_app; [right|by left].
      intros b. by eapply spawn_msg_ok.
  - destruct (SnapshotL _ index data) as [r'|] eqn:Hr; cbn [mbind option_bind] in H; [|done].
    injection H as <-. by eapply log_inv_snapshot.
  - destruct (apply _) as [[r' msg]|] eqn:Hr; cbn [mbind option_bind] in H; [|done].
    injection H as <-. destruct (apply_node _ _ _ Hwf Hr) as [_ Hs].
    apply log_inv_same_log; try done; [apply Hs|apply saves_same, Hs|by apply same_node_keeps|by left].
  - injection H as <-.
    apply log_inv_same_log; try done; [by apply saves_same|by apply same_node_keeps|by left].
  - destruct (Make env n i _) as [r'|] eqn:Hr; cbn [mbind option_bind] in H; [|done].
    injection H as <-. by eapply log_inv_restart.
  - injection H as <-. destruct Hw as [H1 H2 H3 H4]. split; cbn; try done.
    intros t ?%elem_of_delete. by apply H3.
  - by eapply log_inv_run.
Qed.

Lemma reachable_log_inv w : 0 <= n → reachable n w → cluster_inv n w ∧ log_inv w.
Proof.
  intros Hn [envs Hw]. revert Hw. apply (rtc_ind_r (λ w, cluster_inv n w ∧ log_inv w)).
  - split; [apply inv_init|apply log_inv_init].
  - intros w1 w2 _ [act Hact] [Hc Hi]. split; [by eapply inv_exec|by eapply log_inv_exec].
Qed.
End matching.
