(* ===== verification/RaftSteps.v ===== *)
(** * What one step of the cluster does to one peer

    A step changes at most one peer.  [peer_step] lists the changes it can make
    to the term and the log of that peer; properties of runs are proved from it
    without looking at the handlers again. *)

From S2P Require Import Prelude Util Labgob RaftState RaftHandlers RaftLeader RaftNode RaftRecv RaftSend RaftCluster RaftElection RaftClusterInv RaftLogMatching.

Section steps.
Context {C : Type} `{!GobCodec (PState C), !GobLaws (PState C)}.
Context (n : Z).
Implicit Types (w : Cluster C) (r : Raft C).

(** The index with which a step calls [Snapshot] at a peer, if it does *)
Definition snapshot_at (i : Z) (act : Action C) : option Z :=
  match act with ASnapshot j index _ => if decide (j = i) then Some index else None | _ => None end.

(** What a step does to the log of a peer; [snap] is the index of a snapshot that the
    service takes in it. *)
Inductive log_step (snap : option Z) r r' : Prop :=
  | ls_same : log r' = log r → log_step snap r r'
  | ls_start command :
      role r = Leader → role r' = Leader → currentTerm r' = currentTerm r →
      log r' = log r ++ [MkLogEntry command (lastIdx (log r) + 1) (currentTerm r)] → log_step snap r r'
  | ls_snapshot index e :
      snap = Some index → entry_at (log r) index = Some e →
      log r' = drop (Z.to_nat (index - firstIdx (log r))) (log r) → log_step snap r r'
  | ls_receive : role r' ≠ Leader → log_step snap r r'.

Record peer_step (snap : option Z) r r' : Prop := {
  ps_term : currentTerm r <= currentTerm r';
  ps_vote : currentTerm r' = currentTerm r → votedFor r ≠ NA →
    votedFor r' = votedFor r ∨ (role r = Candidate ∧ role r' = Follower ∧ votedFor r' = NA);
  ps_log : log_step snap r r';
}.

#[global] Instance peer_step_refl snap : Reflexive (peer_step snap).
Proof. intros r. split; [lia|by left|by constructor]. Qed.

Lemma peer_step_settles snap r r' : settles r r' → log_step snap r r' → peer_step snap r r'.
Proof.
  intros Hs Hl. split; [by apply settles_term| |done].
  intros Ht Hv. destruct Hs as [[]|[? ? Hst]]; [by left|right]. destruct Hst as [|[]]; [lia|done].
Qed.

Lemma peer_step_same_vote snap r r' : same_vote r r' → log_step snap r r' → peer_step snap r r'.
Proof. intros. apply peer_step_settles; [by left|done]. Qed.

Lemma tick_step snap env r r' sp : node_wf r → tick env r = Some (r', sp) → peer_step snap r r'.
Proof.
  intros Hwf H. unfold tick in H. destruct (role_eqb _ _); [by injection H as <- _|].
  destruct (env_now env >? _); [|by injection H as <- _].
  destruct (becomeCandidateL_spec env _ Hwf) as (r1 & args & H1 & _ & _ & _ & Hl & _ & Hct & _).
  rewrite H in H1. injection H1 as <- _. split; [lia|lia|by apply ls_same].
Qed.

Lemma Start_step snap r command r' res sp :
  node_wf r → Start r command = Some (r', res, sp) → peer_step snap r r'.
Proof.
  intros Hwf H. destruct (Start_spec _ command Hwf) as [[_ H1]|(r1 & Hr & H1 & _ & Hsv & _ & _ & Hl)];
    rewrite H in H1; injection H1 as <- _ _; [done|].
  apply peer_step_same_vote; [done|]. destruct Hsv. eapply ls_start; [done|congruence|done|done].
Qed.

Lemma SnapshotL_step r index data r' :
  node_wf r → SnapshotL r index data = Some r' → peer_step (Some index) r r'.
Proof.
  intros Hwf H. pose proof (SnapshotL_returns _ _ _ _ Hwf H) as Hle.
  destruct (SnapshotL_spec _ _ data Hwf Hle) as (r1 & H1 & _ & Hsv & _ & Hr).
  rewrite H in H1. injection H1 as <-. apply peer_step_same_vote; [done|].
  destruct Hr as [[-> _]|(_ & _ & e & He & Hl & _)]; [by apply ls_same|by eapply ls_snapshot].
Qed.

Lemma Make_step snap env r r' :
  node_wf r → Make env (nPeers r) (me r) (persister r) = Some r' → peer_step snap r r'.
Proof.
  intros Hwf H. destruct (Make_spec env _ Hwf) as (r1 & H1 & _ & _ & _ & Hct & Hvf & Hro & _).
  rewrite H in H1. injection H1 as <-. split; [lia|by left|]. apply ls_receive. congruence.
Qed.

Lemma RequestVote_step snap env r args r' reply :
  node_wf r → RequestVote env r args = Some (r', reply) → peer_step snap r r'.
Proof.
  intros Hwf H. destruct (RequestVote_spec env _ args Hwf) as (r1 & reply1 & H1 & _ & Hl & _ & Hv).
  rewrite H in H1. injection H1 as <- <-. destruct (rvr_VoteGranted reply).
  - destruct Hv as [(r1 & Hs & _ & _ & Hro & Hct & Htm & Hv1 & Hv2) _].
    pose proof (settles_term _ _ Hs). split; [lia| |by apply ls_same].
    intros Ht Hv. destruct Hs as [[]|[? ? [Hlt|[Heq Hca]] Hna Hfo]].
    + left. destruct Hv1; congruence.
    + lia.
    + left. destruct (decide (votedFor r' = votedFor r)) as [|Hne]; [done|]. exfalso.
      (* only [AppendEntries] makes a candidate step down in its own term *)
      clear - H Heq Hca Hv1 Hv2 Hne Hv Htm Hct Hwf Ht. unfold RequestVote in H.
      destruct (rv_Term args >? currentTerm r) eqn:E; bools; [lia|].
      destruct (lastLogL r); cbn [mbind option_bind] in H; [|done].
      destruct (_ <? _); [by injection H as <- _|].
      destruct (((votedFor r =? NA) || _) && _) eqn:Eg; [|by injection H as <- _].
      bools. destruct H0; bools; congruence.
  - by apply peer_step_settles; [|apply ls_same].
Qed.

Lemma processRequestReplyL_step snap r args reply v r' v' sp :
  node_wf r → processRequestReplyL r args reply v = Some (r', v', sp) → peer_step snap r r'.
Proof.
  intros Hwf H. destruct (processRequestReplyL_spec _ args reply v Hwf) as (r1 & v1 & sp1 & H1 & _ & Hl & Hcase).
  rewrite H in H1. injection H1 as <- <- <-.
  destruct Hcase as [([] & _)|[(Hs & _)|(_ & Hro & _ & _ & _ & Hb)]].
  - by apply peer_step_same_vote; [|apply ls_same].
  - apply peer_step_settles; [by right|by apply ls_same].
  - destruct (becomeLeaderL_spec _ Hwf) as (r2 & H2 & _ & _ & _ & _ & _ & _ & Hct & Hvf & _); [apply Hwf; congruence|].
    rewrite Hb in H2. injection H2 as <- _. split; [lia|by left|by apply ls_same].
Qed.

(** A message of the leader of a term, at another peer. *)
Lemma receive_step snap r r' T :
  settles r r' → (role r = Leader → currentTerm r ≠ T) → (log r' = log r ∨ T = currentTerm r') →
  peer_step snap r r'.
Proof.
  intros Hs Hnl [Hl|HT]; apply peer_step_settles; try done; [by apply ls_same|].
  apply ls_receive. intros Hr. destruct Hs as [[]|[]]; [|congruence].
  apply Hnl; congruence.
Qed.

Lemma run_step snap w k env w' i :
  0 <= n → cluster_inv n w → run k env w = Some w' → peer_step snap (rf (peers w i)) (rf (peers w' i)).
Proof.
  intros Hn Hc H. unfold run in H.
  destruct (tasks w !! k) as [t|] eqn:Hk; cbn [mbind option_bind] in H; [|done].
  pose proof (ci_task _ _ Hc t ltac:(by eapply list_elem_of_lookup_2)) as Ht.
  assert (∀ j p ts, (j = i → peer_step snap (rf (peers w j)) (rf p)) →
    peer_step snap (rf (peers w i)) (rf (peers (update w j p ts) i))) as Hupd.
  { intros j p ts Hj. rewrite peers_update. case_decide; [subst; auto|done]. }
  destruct t as [c s ep a args|c s ep a args reply|c s ep term|c s ep args|c s ep args reply|c s ep args|c s ep args reply];
    destruct Ht as ((Hci & Hs & Hne) & Ht); destruct (ci_node _ _ Hc c Hci) as (Hwfc & _);
    destruct (ci_node _ _ Hc s Hs) as (Hwfs & _); try (destruct (negb _); [done|]).
  - destruct (RequestVote _ _ _) as [[r' reply]|] eqn:Hr; cbn [mbind option_bind] in H; [|done].
    injection H as <-. apply Hupd. intros _. by eapply RequestVote_step.
  - destruct (votes _ !! a) as [v|]; cbn [mbind option_bind] in H; [|done].
    destruct (processRequestReplyL _ _ _ _) as [[[r' v'] sp]|] eqn:Hr; cbn [mbind option_bind] in H; [|done].
    injection H as <-. apply Hupd. intros _. by eapply processRequestReplyL_step.
  - destruct (append _ s term) as [call|] eqn:Hr; cbn [mbind option_bind] in H; [|done].
    injection H as <-. by apply Hupd.
  - destruct (AppendEntries_spec env _ args Hwfs (proj2 Ht))
      as (r1 & r' & reply & Hr & _ & _ & Hst & [_ Hsu Hfa] & _).
    rewrite Hr in H. cbn [mbind option_bind] in H. injection H as <-. apply Hupd. intros _.
    eapply (receive_step snap _ _ (ae_Term args)); [done| |].
    + intros Hl. apply (not_leader n w c); try done. apply Ht.
    + destruct (aer_Success reply); [right; by apply Hsu|left; by apply Hfa].
  - destruct (processAppendReplyL _ _ _ _) as [r'|] eqn:Hr; cbn [mbind option_bind] in H; [|done].
    injection H as <-. destruct (processAppendReplyL_node _ _ _ _ _ Hwfc Hr) as (_ & Hl & Hcase).
    apply Hupd. intros _. apply peer_step_settles; [|by apply ls_same].
    destruct Hcase as [[]|[? _]]; [by left|by right].
  - destruct (InstallSnapshot_spec env _ args Hwfs (proj2 Ht))
      as (r1 & r' & reply & Hr & _ & _ & Hst & _ & _ & _ & Hl).
    rewrite Hr in H. cbn [mbind option_bind] in H. injection H as <-. apply Hupd. intros _.
    eapply (receive_step snap _ _ (is_Term args)); [done| |naive_solver].
    intros Hl'. apply (not_leader n w c); try done. apply Ht.
  - destruct (processInstallReplyL _ _ _ _) as [r'|] eqn:Hr; cbn [mbind option_bind] in H; [|done].
    injection H as <-. destruct (processInstallReplyL_node _ _ _ _ _ Hwfc Hr) as (_ & Hl & Hcase).
    apply Hupd. intros _. apply peer_step_settles; [|by apply ls_same].
    destruct Hcase as [[]|[? _]]; [by left|by right].
Qed.

Lemma exec_step act w w' i :
  0 <= n → cluster_inv n w → exec n act w = Some w' → peer_step (snapshot_at i act) (rf (peers w i)) (rf (peers w' i)).
Proof.
  intros Hn Hc H.
  set (snap := snapshot_at i act).
  assert (∀ j p ts, (j = i → peer_step snap (rf (peers w j)) (rf p)) →
    peer_step snap (rf (peers w i)) (rf (peers (update w j p ts) i))) as Hupd.
  { intros j p ts Hj. rewrite peers_update. case_decide; [subst; auto|done]. }
  destruct act as [j env|j cmd|j index data|j|j|j env|k|k env]; cbn [exec] in H.
  all: try (destruct (negb (in_cluster n j)) eqn:Hin; [done|]; apply in_cluster_spec in Hin as Hj;
            destruct (ci_node _ _ Hc j Hj) as (Hwf & Hme & Hnp)).
  - destruct (tick _ _) as [[r' sp]|] eqn:Hr; cbn [mbind option_bind] in H; [|done].
    injection H as <-. apply Hupd. intros _. by eapply tick_step.
  - destruct (Start _ cmd) as [[[r' res] sp]|] eqn:Hr; cbn [mbind option_bind] in H; [|done].
    injection H as <-. apply Hupd. intros _. by eapply Start_step.
  - destruct (SnapshotL _ index data) as [r'|] eqn:Hr; cbn [mbind option_bind] in H; [|done].
    injection H as <-. apply Hupd. intros ->. unfold snap. cbn. rewrite decide_True by done. by eapply SnapshotL_step.
  - destruct (apply _) as [[r' msg]|] eqn:Hr; cbn [mbind option_bind] in H; [|done].
    injection H as <-. destruct (apply_node _ _ _ Hwf Hr) as [_ []].
    apply Hupd. intros _. by apply peer_step_same_vote; [|apply ls_same].
  - injection H as <-. apply Hupd. intros _. by apply peer_step_same_vote; [split|apply ls_same].
  - destruct (Make env n j _) as [r'|] eqn:Hr; cbn [mbind option_bind] in H; [|done].
    injection H as <-. apply Hupd. intros _. eapply Make_step; [done|]. by rewrite Hme, Hnp.
  - by injection H as <-.
  - by eapply run_step.
Qed.
End steps.
