(* ===== verification/RaftSafety.v ===== *)
(** * Package [raft]: the properties of the cluster

    The guarantees of figure 3 of the Raft paper that this file proves of the
    code: election safety, leader append-only and log matching, in every run of
    a cluster of any size; that terms and votes survive crashes; that the RPC
    handlers do not panic; and that a committed entry is on enough peers for
    every later election to see it. *)

From S2P Require Import Prelude Util Labgob RaftState RaftHandlers RaftLeader RaftNode RaftRecv RaftSend RaftCluster RaftElection RaftClusterInv RaftLogMatching RaftSteps.

(** ** Committing *)

Section commit.
Context {C : Type} `{!GobCodec (PState C), !GobLaws (PState C)}.
Implicit Types (r : Raft C).

(** The peers that have the entry [N], as far as the leader knows. *)
Definition acked r (N : Z) : list Z :=
  filter (λ i, i = me r ∨ N <= default 0 (go_index (matchIndex r) i)) (peer_ids (nPeers r)).

Lemma sorted_count (l : list Z) (k : nat) v :
  Sorted Z.le l → l !! k = Some v → (length l - k <= length (filter (Z.le v) l))%nat.
Proof.
  intros Hs%Sorted_StronglySorted; [|intros ???; lia]. revert k. induction Hs as [|x l Hs IH Hx]; intros k Hk; [done|].
  rewrite filter_cons. destruct k as [|k]; cbn in Hk.
  - injection Hk as ->. rewrite decide_True by lia. cbn.
    assert (filter (Z.le v) l = l) as ->; [|lia]. clear - Hx. induction Hx as [|y l Hy _ IH]; [done|].
    by rewrite filter_cons, decide_True, IH by done.
  - specialize (IH k Hk). destruct (decide (v <= x)); cbn; lia.
Qed.

(** Counting values is counting the indices that have them. *)
Lemma index_count (l : list Z) v s :
  length (filter (λ k, v <= default 0 (l !! (k - s)%nat)) (seq s (length l))) = length (filter (Z.le v) l).
Proof.
  revert s. induction l as [|x l IH]; intros s; [done|]. cbn [length seq]. rewrite !filter_cons.
  rewrite Nat.sub_diag. cbn [lookup list_lookup default].
  rewrite (filter_ext_elem _ (λ k, v <= default 0 (l !! (k - S s)%nat)) (seq (S s) (length l))).
  - case_decide; case_decide; cbn; try done; rewrite (IH (S s)); done.
  - intros k Hk%elem_of_seq. by replace (k - s)%nat with (S (k - S s)) by lia.
Qed.

(** The leader's own entry of [matchIndex] is never written: it stays 0. *)
Lemma acked_count r N :
  node_wf r → 0 < N → go_index (matchIndex r) (me r) = Some 0 →
  length (acked r N) = S (length (filter (Z.le N) (matchIndex r))).
Proof.
  intros Hwf HN Hme. pose proof (nw_me _ Hwf). pose proof (nw_match _ Hwf) as Hlen. unfold go_len in Hlen.
  unfold acked, peer_ids. rewrite filter_fmap_list, length_fmap.
  rewrite <- (index_count (matchIndex r) N 0).
  replace (Z.to_nat (nPeers r)) with (length (matchIndex r)) by lia.
  apply (length_filter_add _ _ _ (Z.to_nat (me r))).
  - apply NoDup_seq.
  - apply elem_of_seq. lia.
  - apply go_index_lookup in Hme as [_ Hme]. rewrite Nat.sub_0_r, Hme. cbn. lia.
  - intros k _. rewrite Nat.sub_0_r, go_index_nat. split; intros [Hk|Hk]; auto; left; lia.
Qed.

Lemma setCommitIndexL_count r r' :
  node_wf r → 0 <= commitIndex r → setCommitIndexL r = Some (r', true) →
  commitIndex r < commitIndex r'
  ∧ nPeers r <= 2 * (1 + Z.of_nat (length (filter (Z.le (commitIndex r')) (matchIndex r))))
  ∧ ∃ e, entry_at (log r) (commitIndex r') = Some e ∧ Term e = currentTerm r.
Proof.
  intros Hwf Hc H. pose proof (nw_me _ Hwf). pose proof (nw_match _ Hwf) as Hlen. unfold go_len in Hlen.
  unfold setCommitIndexL in H. rewrite take_ge in H by lia.
  replace (Z.to_nat (nPeers r) - length (matchIndex r))%nat with 0%nat in H by lia.
  rewrite app_nil_r in H. set (s := merge_sort Z.le (matchIndex r)) in H.
  assert (s ≡ₚ matchIndex r) as Hp by apply merge_sort_Permutation.
  destruct (go_index s _) as [N|] eqn:EN; cbn [mbind option_bind] in H; [|done].
  destruct (N >? commitIndex r) eqn:Eg; [|done]. rewrite getLogL_spec in H by apply Hwf.
  destruct (entry_at (log r) N) as [e|] eqn:Ee; cbn [mbind option_bind] in H; [|done].
  destruct (Z.eqb_spec (Term e) (currentTerm r)); [|done]. injection H as <-. cbn. bools.
  split_and!; [lia| |eauto].
  apply go_index_lookup in EN as [? EN]. rewrite Z.quot_div_nonneg in EN by lia.
  apply sorted_count in EN as Hn; [|apply Sorted_merge_sort; intros ??; lia].
  rewrite Hp in Hn. pose proof (lookup_lt_Some _ _ _ EN). rewrite Hp in *.
  pose proof (Z.div_mod (nPeers r) 2 ltac:(lia)). pose proof (Z.mod_pos_bound (nPeers r) 2 ltac:(lia)). lia.
Qed.
End commit.

(** ** Elections and logs, in every run *)

Section safety.
Context {C : Type} `{!GobCodec (PState C), !GobLaws (PState C)}.
Context (n : Z).
Implicit Types (w : Cluster C) (act : Action C).

(** C1: election safety.  In every reachable state of a cluster of any size,
    with messages lost, delayed and reordered and with peers that crash and
    restart, two peers that lead in the same term are the same peer. *)
Theorem election_safety w i j :
  0 <= n → reachable n w → 0 <= i < n → 0 <= j < n →
  role (rf (peers w i)) = Leader → role (rf (peers w j)) = Leader →
  currentTerm (rf (peers w i)) = currentTerm (rf (peers w j)) → i = j.
Proof.
  intros Hn Hw Hi Hj Hri Hrj Ht. apply (reachable_inv n) in Hw as [Hv _ _ _].
  eapply (elected_unique n w (currentTerm (rf (peers w i)))); [done|done|by apply (vi_leader _ _ Hv)|].
  rewrite Ht. by apply (vi_leader _ _ Hv).
Qed.

(** C13: log matching.  In every reachable state, when the logs of two peers have
    entries with the same index and term, the two logs have the same entry
    (command, index and term) at every smaller index that neither has replaced
    by a snapshot. *)
Theorem log_matching w i j k m e1 e2 :
  0 <= n → reachable n w → 0 <= i < n → 0 <= j < n →
  let l1 := log (rf (peers w i)) in let l2 := log (rf (peers w j)) in
  entry_at l1 k = Some e1 → entry_at l2 k = Some e2 → Term e1 = Term e2 →
  m <= k → firstIdx l1 < m → firstIdx l2 < m →
  entry_at l1 m = entry_at l2 m.
Proof.
  intros Hn Hw Hi Hj l1 l2 H1 H2 HT Hm Hf1 Hf2.
  apply (reachable_log_inv n) in Hw as [Hc Hl]; [|done].
  destruct (ci_node _ _ Hc i Hi) as (Hw1 & _), (ci_node _ _ Hc j Hj) as (Hw2 & _).
  eapply (pairs_match (born (hist w))); [apply Hw1|apply Hw2|by apply Hl|by apply Hl|done|done|done|lia|done].
Qed.

(** C14: leader append-only.  A step of the cluster that leaves a peer leader keeps its
    log and may append to it; the only exception is a call of [Snapshot] at this
    peer, which cuts off the entries before its index and nothing else. *)
Theorem leader_append_only w act w' i :
  0 <= n → reachable n w → exec n act w = Some w' → 0 <= i < n →
  let r := rf (peers w i) in let r' := rf (peers w' i) in
  role r' = Leader →
  (∃ entries, log r' = log r ++ entries)
  ∨ ∃ index data e, act = ASnapshot i index data ∧ entry_at (log r) index = Some e
      ∧ log r' = drop (Z.to_nat (index - firstIdx (log r))) (log r).
Proof.
  intros Hn Hw Hx Hi r r' Hl. apply (reachable_inv n) in Hw as Hc.
  pose proof (exec_step n act w w' i Hn Hc Hx) as [_ _ [Hs|cmd _ _ _ Hs|index e0 Hsn He0 Hs|Hr]].
  - left. exists []. by rewrite app_nil_r.
  - left. by eexists.
  - right. destruct act as [| |j index' data| | | | |]; try done. cbn in Hsn. case_decide; [|done]. simplify_eq. by exists index, data, e0.
  - done.
Qed.

(** C38: terms are durable.  Along every run, crashes and restarts included, the
    current term of a peer never decreases. *)
Theorem term_never_decreases w w' i :
  0 <= n → reachable n w → rtc (step n) w w' →
  currentTerm (rf (peers w i)) <= currentTerm (rf (peers w' i)).
Proof.
  intros Hn Hw Hr. induction Hr as [w|w w1 w2 [act Hx] Hr IH]; [lia|].
  pose proof (exec_step n act w w1 i Hn (reachable_inv _ _ Hw) Hx) as [Ht _ _].
  transitivity (currentTerm (rf (peers w1 i))); [done|]. apply IH.
  destruct Hw as [envs Hw]. exists envs. eapply rtc_r; [done|by exists act].
Qed.

(** Votes are durable.  A step that stays in the term keeps the vote of a
    peer that has voted, crashes and restarts included; the only exception is a
    candidate that steps down and forgets its vote for itself. *)
Theorem vote_kept w act w' i :
  0 <= n → reachable n w → exec n act w = Some w' → 0 <= i < n →
  let r := rf (peers w i) in let r' := rf (peers w' i) in
  currentTerm r' = currentTerm r → votedFor r ≠ NA →
  votedFor r' = votedFor r
  ∨ (role r = Candidate ∧ votedFor r = i ∧ role r' = Follower ∧ votedFor r' = NA).
Proof.
  intros Hn Hw Hx Hi r r' Ht Hv. apply (reachable_inv n) in Hw as Hc.
  destruct (exec_step n act w w' i Hn Hc Hx) as [_ Hk _].
  destruct (Hk Ht Hv) as [?|(Hca & ? & ?)]; [by left|right]. split_and!; try done.
  apply (vi_self _ _ (ci_vote _ _ Hc)); [done|]. fold r in Hca. fold r. congruence.
Qed.

(** The steps that are handlers, tickers, calls of [Start] and restarts; a reply
    to a vote request needs that its goroutine still exists. *)
Definition handler_step w act : Prop :=
  match act with
  | ATick i _ | AStart i _ | AKill i | ARestart i _ => 0 <= i < n
  | ARun k _ =>
    match tasks w !! k with
    | Some (TVote _ _ _ _ _) | Some (TAppend _ _ _ _) | Some (TInstall _ _ _ _) => True
    | Some (TVoteReply c _ ep _ _ _) => ep = epoch (peers w c)
    | _ => False
    end
  | _ => False
  end.

(** The handlers do not panic.  In every reachable state the RPC handlers
    return on every message in flight, and so do the ticker, [Start], the
    counting of votes and a restart: no index is out of range and no loop runs
    out of fuel. *)
Theorem handlers_return w act :
  reachable n w → handler_step w act → is_Some (exec n act w).
Proof.
  intros Hw Hh. apply (reachable_inv n) in Hw as Hc.
  assert (∀ i, 0 <= i < n → in_cluster n i = true) as Hin by (unfold in_cluster; intros; lia).
  destruct act as [i env|i cmd|i index data|i|i|i env|k|k env]; cbn [exec handler_step] in *; try done;
    rewrite ?Hin by done; cbn [negb].
  - destruct (ci_node _ _ Hc i Hh) as (Hwf & _). unfold tick. destruct (role_eqb _ _); [by eexists|].
    destruct (env_now env >? _); [|by eexists].
    destruct (becomeCandidateL_spec env _ Hwf) as (r1 & args & -> & _). by eexists.
  - destruct (ci_node _ _ Hc i Hh) as (Hwf & _).
    destruct (Start_spec _ cmd Hwf) as [[_ ->]|(r1 & _ & -> & _)]; by eexists.
  - by eexists.
  - destruct (ci_node _ _ Hc i Hh) as (Hwf & Hme & Hnp).
    destruct (Make_spec env _ Hwf) as (r1 & Hm & _). rewrite Hme, Hnp in Hm. rewrite Hm. by eexists.
  - unfold run. destruct (tasks w !! k) as [t|] eqn:Hk; [|done]. cbn [mbind option_bind].
    pose proof (ci_task _ _ Hc t ltac:(by eapply list_elem_of_lookup_2)) as Ht.
    destruct t as [c s ep a args|c s ep a args reply|c s ep term|c s ep args|c s ep args reply|c s ep args|c s ep args reply];
      try done; destruct Ht as ((Hci & Hs & _) & Ht);
      destruct (ci_node _ _ Hc c Hci) as (Hwfc & _), (ci_node _ _ Hc s Hs) as (Hwfs & _).
    + destruct (RequestVote_spec env _ args Hwfs) as (r1 & reply & -> & _). by eexists.
    + subst ep. rewrite bool_decide_true by done. cbn [negb]. destruct Ht as (_ & [_ Hv] & _).
      destruct (lookup_lt_is_Some_2 _ _ (Hv eq_refl)) as [v ->]. cbn [mbind option_bind].
      destruct (processRequestReplyL_spec _ args reply v Hwfc) as (r1 & v1 & sp & -> & _). by eexists.
    + destruct (AppendEntries_spec env _ args Hwfs (proj2 Ht)) as (r1 & r2 & reply & -> & _). by eexists.
    + destruct (InstallSnapshot_spec env _ args Hwfs (proj2 Ht)) as (r1 & r2 & reply & -> & _). by eexists.
Qed.
End safety.
