(* ===== verification/RaftTree.v ===== *)
(** * The tree of log entries

    The map [born] of the history gives for the (index, term) of an entry the
    term of its predecessor.  It is a tree with root (0, 0), and a log is the
    path from its last entry [tip] towards the root, as far as snapshots have not
    cut it off.  [anc b x y] says that [y] is on the path from [x] to the root:
    a log with the last entry [x] has, or once had, the entry [y]. *)

From S2P Require Import Prelude Util Labgob RaftState RaftHandlers RaftLeader RaftNode RaftRecv RaftSend RaftCluster RaftElection RaftClusterInv RaftLogMatching.

Section tree.
Context {C : Type}.
Implicit Types (b : gmap (Z * Z) (Z * option C)) (x y z : Z * Z) (l : list (LogEntry C)).

Inductive anc b : Z * Z → Z * Z → Prop :=
  | anc_refl x : anc b x x
  | anc_step k T T' cmd y :
      0 < k → b !! (k, T) = Some (T', cmd) → anc b (k - 1, T') y → anc b (k, T) y.

#[global] Instance anc_reflexive b : Reflexive (anc b).
Proof. intros x. apply anc_refl. Qed.

#[global] Instance anc_transitive b : Transitive (anc b).
Proof. intros x y z Hxy Hyz. induction Hxy; [done|]. eapply anc_step; eauto. Qed.

Lemma anc_index b x y : anc b x y → y.1 <= x.1.
Proof. induction 1; cbn in *; lia. Qed.

Lemma anc_same_index b x y : anc b x y → x.1 = y.1 → x = y.
Proof. intros [|k T T' cmd z Hk Hb Ha] Heq; [done|]. apply anc_index in Ha. cbn in *. lia. Qed.

(** The path to the root is unique. *)
Lemma anc_linear b x y z : anc b x y → anc b x z → z.1 <= y.1 → anc b y z.
Proof.
  intros Hy Hz. revert Hz. induction Hy as [|k T T' cmd y Hk Hb Hy IH]; intros Hz Hi; [done|].
  inversion Hz as [|? ? T2 cmd2 ? ? Hb2 Hz2]; subst.
  - apply anc_index in Hy. cbn in *. lia.
  - rewrite Hb in Hb2. injection Hb2 as <- <-. by apply IH.
Qed.

Lemma anc_unique b x y z : anc b x y → anc b x z → y.1 = z.1 → y = z.
Proof.
  intros Hy Hz Heq. apply (anc_same_index b); [|done]. eapply anc_linear; [exact Hy|exact Hz|lia].
Qed.

Lemma anc_mono b b' x y : b ⊆ b' → anc b x y → anc b' x y.
Proof.
  intros Hb. induction 1; [done|]. eapply anc_step; [done| |done]. by eapply lookup_weaken.
Qed.

Definition rooted b x : Prop := anc b x (0, 0).

Lemma rooted_mono b b' x : b ⊆ b' → rooted b x → rooted b' x.
Proof. apply anc_mono. Qed.

Lemma rooted_index b x : rooted b x → 0 <= x.1.
Proof. intros H%anc_index. done. Qed.

Lemma rooted_zero b t : rooted b (0, t) → t = 0.
Proof. intros H. apply (anc_same_index b) in H; [|done]. congruence. Qed.

(** Growing the tree does not change the path of an entry that it has. *)
Lemma anc_back b b' x y : b ⊆ b' → rooted b x → anc b' x y → anc b x y.
Proof.
  intros Hb Hr Ha. induction Ha as [|k T T' cmd y Hk Hbk Ha IH]; [done|].
  inversion Hr as [|? ? T2 cmd2 ? ? Hb2 Hr2]; subst; [lia|].
  pose proof (lookup_weaken _ _ _ _ Hb2 Hb) as Hw. rewrite Hbk in Hw. injection Hw as <- <-.
  eapply anc_step; [done|done|by apply IH].
Qed.

Lemma rooted_anc b x y : rooted b x → anc b x y → 0 <= y.1 → rooted b y.
Proof. intros Hr Ha Hi. by eapply anc_linear. Qed.

Lemma anc_nonneg b x y : 0 <= x.1 → anc b x y → 0 <= y.1.
Proof. intros Hx Ha. induction Ha; cbn in *; [done|]. apply IHHa. lia. Qed.

Lemma anc_rooted b x y : rooted b x → anc b x y → rooted b y.
Proof. intros Hr Ha. eapply rooted_anc; [done|done|]. eapply anc_nonneg; [|done]. by eapply rooted_index. Qed.

(** The path has an entry at every index. *)
Lemma anc_at b x k : rooted b x → 0 <= k <= x.1 → ∃ t, anc b x (k, t).
Proof.
  unfold rooted. intros Hr. remember (0, 0) as o eqn:Ho.
  induction Hr as [|j T T' cmd y Hj Hb Hr IH]; subst; intros Hk; cbn in Hk.
  - exists 0. replace k with 0 by lia. done.
  - destruct (decide (k = j)) as [->|Hne]; [by exists T|].
    destruct IH as [t Ht]; [done|cbn; lia|]. exists t. by eapply anc_step.
Qed.

(** ** Logs are paths *)

Lemma log_anc b l i j e e' :
  log_wf l → pairs_ok b l → entry_at l i = Some e → entry_at l j = Some e' → i <= j →
  anc b (j, Term e') (i, Term e).
Proof.
  intros Hwf Hp He. pose proof (lw_first _ Hwf) as Hf. pose proof (entry_at_bounds _ _ _ Hwf He) as Hb.
  intros He' Hij. replace j with (i + Z.of_nat (Z.to_nat (j - i))) in * by lia.
  generalize (Z.to_nat (j - i)) as d, He'. clear Hij He'. intros d. revert e'.
  induction d as [|d IH]; intros e' He'.
  { replace (i + Z.of_nat 0) with i in * by lia. replace e' with e by congruence. done. }
  pose proof (entry_at_bounds _ _ _ Hwf He') as Hb'.
  destruct (entry_at_range l (i + Z.of_nat d) Hwf ltac:(lia)) as [e0 He0].
  apply (anc_step b _ _ (Term e0) (Command e')); [lia| |].
  - apply (pairs_ok_at b l); [done|done| |done].
    by replace (i + Z.of_nat (S d) - 1) with (i + Z.of_nat d) by lia.
  - replace (i + Z.of_nat (S d) - 1) with (i + Z.of_nat d) by lia. by apply IH.
Qed.

Lemma tip_anc b l i e : log_wf l → pairs_ok b l → entry_at l i = Some e → anc b (tip l) (i, Term e).
Proof.
  intros Hwf Hp He. destruct (last_entry _ Hwf) as (e' & _ & He' & _ & HT). unfold tip. rewrite <- HT.
  eapply log_anc; [done|done|done|done|]. by apply entry_at_bounds in He as [_ ?].
Qed.

Lemma tip_anc_base b l : log_wf l → pairs_ok b l → anc b (tip l) (base l).
Proof.
  intros Hwf Hp. destruct (first_entry _ Hwf) as (e & He & _ & _ & HT). unfold base. rewrite <- HT.
  by apply tip_anc.
Qed.

Lemma tip_anc_inv b l k t :
  log_wf l → pairs_ok b l → anc b (tip l) (k, t) → firstIdx l <= k →
  ∃ e, entry_at l k = Some e ∧ Term e = t.
Proof.
  intros Hwf Hp Ha Hk. pose proof (anc_index _ _ _ Ha) as Hi. cbn in Hi.
  destruct (entry_at_range l k Hwf ltac:(lia)) as [e He]. exists e. split; [done|].
  pose proof (tip_anc b l k e Hwf Hp He) as Ha'.
  pose proof (anc_unique _ _ _ _ Ha Ha' eq_refl) as Heq. congruence.
Qed.

Lemma tip_rooted b l : log_wf l → pairs_ok b l → rooted b (base l) → rooted b (tip l).
Proof. intros Hwf Hp Hb. unfold rooted. etrans; [by apply tip_anc_base|done]. Qed.

(** ** Messages are paths *)

(** The last entry of the sender's log when it sent the message. *)
Definition mtip (args : AppendEntriesArgs C) : Z * Z := tip (ae_log args).

Lemma ae_log_wf (args : AppendEntriesArgs C) : ae_wf args → 0 <= ae_PrevLogTerm args → log_wf (ae_log args).
Proof.
  intros Hae Ht. apply (log_wf_app [_] (ae_Entries args)).
  - apply log_wf_singleton; [apply Hae|done].
  - intros k e He. unfold lastIdx; cbn. rewrite (aw_index _ Hae _ _ He). lia.
  - apply Hae.
  - intros e He. unfold lastTerm; cbn. by apply Hae.
Qed.

Lemma mtip_index (args : AppendEntriesArgs C) :
  ae_wf args → 0 <= ae_PrevLogTerm args → (mtip args).1 = ae_PrevLogIndex args + go_len (ae_Entries args).
Proof.
  intros Hae Ht. unfold mtip, tip. cbn [fst]. rewrite last_idx by by apply ae_log_wf.
  unfold ae_log. rewrite go_len_cons. unfold firstIdx; cbn. lia.
Qed.

Lemma ae_log_entry (args : AppendEntriesArgs C) (k : nat) e :
  ae_Entries args !! k = Some e → entry_at (ae_log args) (ae_PrevLogIndex args + 1 + Z.of_nat k) = Some e.
Proof.
  intros Hk. unfold entry_at, ae_log, firstIdx. cbn [head from_option Index].
  replace (ae_PrevLogIndex args + 1 + Z.of_nat k - ae_PrevLogIndex args) with (Z.of_nat (S k)) by lia.
  by rewrite go_index_nat.
Qed.

(** A successful AppendEntries: the log has the message already, or it lacked
    the message's last entry, which becomes its last entry. *)
Lemma ae_result_tip b l args l' e0 :
  log_wf l → ae_wf args → 0 <= ae_PrevLogTerm args → pairs_ok b l → pairs_ok b (ae_log args) →
  entry_at l (ae_PrevLogIndex args) = Some e0 → Term e0 = ae_PrevLogTerm args →
  ae_result l args l' →
  (l' = l ∧ anc b (tip l) (mtip args)) ∨ (tip l' = mtip args ∧ ¬ anc b (tip l) (mtip args)).
Proof.
  intros Hwf Hae Ht Hp Hm He0 Ht0 Hres. pose proof (ae_log_wf args Hae Ht) as Hmwf.
  pose proof (mtip_index args Hae Ht) as Hmi. pose proof (entry_at_bounds _ _ _ Hwf He0) as Hb0.
  destruct Hres as [Hall|i e Hi Hmat Hne]; [left|right].
  - split; [done|]. destruct (matched_prev _ _ _ _ Hae He0 Ht0 Hall ltac:(lia)) as (ep & Hep & _ & Hlast).
    assert (mtip args = (ae_PrevLogIndex args + Z.of_nat (length (ae_Entries args)), Term ep)) as ->.
    { rewrite (surjective_pairing (mtip args)), Hmi. f_equal. unfold mtip, tip, lastTerm; cbn [snd].
      destruct Hlast as [[Hl ->]|(e1 & Hl & He1 & <-)].
      - unfold ae_log. apply length_zero_iff_nil in Hl. by rewrite Hl.
      - unfold ae_log. rewrite last_cons, last_lookup, He1. done. }
    by apply tip_anc.
  - pose proof (lookup_lt_Some _ _ _ Hi) as Hlt.
    assert (tip (take (Z.to_nat (ae_PrevLogIndex args + 1 + Z.of_nat i - firstIdx l)) l ++ drop i (ae_Entries args))
            = mtip args) as Htip.
    { unfold mtip, tip, lastIdx, lastTerm, ae_log. rewrite last_app, last_cons, last_drop_log by done.
      rewrite last_lookup. destruct (lookup_lt_is_Some_2 (ae_Entries args) (pred (length (ae_Entries args)))) as [x ->]; [lia|done]. }
    split; [done|]. intros Ha.
    destruct (last_entry _ Hmwf) as (em & _ & Hem & _ & HTm).
    assert (mtip args = (lastIdx (ae_log args), Term em)) as Hme by (unfold mtip, tip; by rewrite HTm).
    rewrite Hme in Ha, Hmi. cbn in Hmi. unfold go_len in Hmi.
    destruct (tip_anc_inv b l _ _ Hwf Hp Ha) as (el & Hel & HTe); [lia|].
    destruct (pairs_match_terms b l (ae_log args) (lastIdx (ae_log args)) el em
      (Z.to_nat (lastIdx (ae_log args) - (ae_PrevLogIndex args + 1 + Z.of_nat i))) Hwf Hmwf Hp Hm Hel Hem HTe)
      as (a1 & a2 & Ha1 & Ha2 & Heq); [lia|unfold firstIdx; cbn; lia|].
    rewrite Z2Nat.id in Ha1, Ha2 by lia.
    replace (lastIdx (ae_log args) - (lastIdx (ae_log args) - (ae_PrevLogIndex args + 1 + Z.of_nat i)))
      with (ae_PrevLogIndex args + 1 + Z.of_nat i) in Ha1, Ha2 by lia.
    rewrite (ae_log_entry _ _ _ Hi) in Ha2. injection Ha2 as <-. by apply (Hne a1).
Qed.

(** Installing a snapshot: the log keeps its last entry, or it lacked the
    snapshot's, which becomes its only one. *)
Lemma is_result_tip b l snap l' :
  log_wf l → pairs_ok b l → firstIdx l < LastIncludedIndex snap → is_result l snap l' →
  let y := (LastIncludedIndex snap, LastIncludedTerm snap) in
  base l' = y ∧ ((tip l' = tip l ∧ anc b (tip l) y) ∨ (tip l' = y ∧ ¬ anc b (tip l) y)).
Proof.
  intros Hwf Hp Hlt Hres y. destruct Hres as [e He HT|Hne].
  - destruct (drop_to_index _ _ _ Hwf He) as (_ & Hf & Hft & Hl & Hlt').
    unfold base, tip. rewrite Hf, Hft, Hl, Hlt', HT. split; [done|]. left. split; [done|].
    unfold y. rewrite <- HT. by apply tip_anc.
  - split; [done|]. right. split; [done|]. intros Ha.
    destruct (tip_anc_inv b l _ _ Hwf Hp Ha) as (e & He & HT); [lia|]. by apply (Hne e).
Qed.
End tree.
