(* ===== verification/RaftTrans.v ===== *)
(** * The transitions of a peer, in full

    [ptrans] lists what one step of the cluster can do to one peer, this time
    with the commit index, the match indices and the disk, and [new_task] what
    the tasks that the step adds are.  [exec_trans] says that every step is one
    of these; the invariants behind leader completeness and state machine safety
    are proved by cases on it. *)

From S2P Require Import Prelude Util Labgob RaftState RaftHandlers RaftLeader RaftNode RaftRecv RaftSend RaftCluster RaftElection RaftClusterInv RaftLogMatching RaftSteps RaftSafety RaftTree.

Section trans.
Context {C : Type} `{!GobCodec (PState C), !GobLaws (PState C)}.
Context (n : Z).
Implicit Types (w : Cluster C) (r : Raft C) (p : Peer C) (t : Task C).

(** ** Operations that keep the log and the indices *)

Record quiet r r' : Prop := {
  q_log : log r' = log r;
  q_commit : commitIndex r' = commitIndex r;
  q_applied : lastApplied r' = lastApplied r;
  q_match : matchIndex r' = matchIndex r;
  q_disk : dlog r' = dlog r ∨ dlog r' = log r';
}.

#[global] Instance quiet_refl : Reflexive quiet.
Proof. intros r. split; auto. Qed.
#[global] Instance quiet_trans : Transitive quiet.
Proof.
  intros r1 r2 r3 [] []. split; try congruence. destruct q_disk1 as [->|]; [|by right].
  destruct q_disk0 as [?|Hd]; [by left|right; congruence].
Qed.

(** Setters of other fields are quiet, and so is writing to disk. *)
Lemma quiet_frame r r' :
  log r' = log r → commitIndex r' = commitIndex r → lastApplied r' = lastApplied r →
  matchIndex r' = matchIndex r → persister r' = persister r → quiet r r'.
Proof. intros. split; try done. left. by apply dlog_same. Qed.

Lemma quiet_persistL r : quiet r (persistL r).
Proof. split; try done. right. by apply dlog_persistL. Qed.

Lemma quiet_becomeFollowerL r T : quiet r (becomeFollowerL r T).
Proof. etrans; [|apply quiet_persistL]. by apply quiet_frame. Qed.

Lemma quiet_reset env r x : quiet r (resetElectionTimeoutL env r x).
Proof. rewrite resetElectionTimeoutL_frame. by apply quiet_frame. Qed.

Lemma quiet_signal r : quiet r (applySignalL r).
Proof. rewrite applySignalL_frame. by apply quiet_frame. Qed.

Lemma quiet_higher (x : bool) r T : quiet r (if x then becomeFollowerL r T else r).
Proof. destruct x; [apply quiet_becomeFollowerL|done]. Qed.

Lemma RequestVote_quiet env r args r' reply : RequestVote env r args = Some (r', reply) → quiet r r'.
Proof.
  unfold RequestVote. set (r1 := if _ >? _ then _ else r). intros H.
  assert (quiet r r1) as Hq by apply quiet_higher. clearbody r1.
  destruct (lastLogL r1) as [lst|]; cbn [mbind option_bind] in H; [|done].
  destruct (_ <? _); [by simplify_eq|]. destruct (_ && _); [|by simplify_eq].
  injection H as <- _. etrans; [exact Hq|].
  etrans; [|by apply (quiet_frame (persistL (set_votedFor r1 (rv_CandidateId args))))].
  etrans; [|apply quiet_persistL]. by apply quiet_frame.
Qed.

Lemma ae_preamble_quiet env r args : quiet r (ae_preamble env r args).
Proof.
  unfold ae_preamble. set (r1 := if ae_Term args >? _ then _ else r).
  assert (quiet r r1) as Hq by apply quiet_higher. clearbody r1. etrans; [exact Hq|].
  set (r2 := if _ && _ then _ else r1). assert (quiet r1 r2) as Hq2 by apply quiet_higher. clearbody r2.
  etrans; [exact Hq2|]. destruct (_ >=? _); [|done]. etrans; [apply (quiet_reset env _ false)|by apply quiet_frame].
Qed.

Lemma becomeCandidateL_quiet env r r' sp : becomeCandidateL env r = Some (r', sp) → quiet r r'.
Proof.
  unfold becomeCandidateL. set (r1 := set_leaderId _ NA). intros H.
  destruct (requestsL _); cbn [mbind option_bind] in H; [|done]. injection H as <- _.
  etrans; [|by apply (quiet_frame (persistL r1))]. etrans; [|apply quiet_persistL]. by apply quiet_frame.
Qed.

Lemma becomeCandidateL_disk env r r' sp : becomeCandidateL env r = Some (r', sp) → dlog r' = log r'.
Proof.
  unfold becomeCandidateL. set (r1 := set_leaderId _ NA). intros H.
  destruct (requestsL _); cbn [mbind option_bind] in H; [|done]. injection H as <- _.
  by apply (dlog_persistL _ r1).
Qed.

(** ** Transitions *)

(** The message of a successful AppendEntries. *)
Record appended r (args : AppendEntriesArgs C) r' : Prop := {
  ad_term : ae_Term args = currentTerm r';
  ad_result : ae_result (log r) args (log r');
  ad_prev : ∃ e, entry_at (log r) (ae_PrevLogIndex args) = Some e ∧ Term e = ae_PrevLogTerm args;
  ad_commit : commitIndex r' = (if ae_LeaderCommit args >? commitIndex r
    then Z.min (ae_LeaderCommit args) (lastIdx (log r')) else commitIndex r);
  ad_disk : dlog r' = log r' ∨ (log r' = log r ∧ (dlog r' = dlog r ∨ dlog r' = log r));
  ad_applied : lastApplied r' = lastApplied r;
}.

(** The point of the leader's log that a reply of [s] acknowledges. *)
Definition acks w (i s T : Z) (y : Z * Z) (m : Z) : Prop :=
  (∃ ep args reply, TAppendReply i s ep args reply ∈ tasks w ∧ aer_Success reply = true
    ∧ ae_Term args = T ∧ y = mtip args ∧ m = ae_PrevLogIndex args + go_len (ae_Entries args))
  ∨ (∃ ep args reply, TInstallReply i s ep args reply ∈ tasks w ∧ is_Term args = T
    ∧ y = (LastIncludedIndex (is_Snapshot args), LastIncludedTerm (is_Snapshot args)) ∧ m = y.1).

Inductive ptrans w (i : Z) r r' : Prop :=
  | pt_settle : settles r r' → quiet r r' → ptrans w i r r'
  | pt_grant ep a args lst :
      TVote (rv_CandidateId args) i ep a args ∈ tasks w → grants r args r' →
      lastLogL r = Some lst → upToDate lst args = true → quiet r r' → ptrans w i r r'
  | pt_candidate :
      currentTerm r' = currentTerm r + 1 → votedFor r' = i → role r' = Candidate →
      quiet r r' → dlog r' = log r' → ptrans w i r r'
  | pt_leader :
      role r = Candidate → role r' = Leader → currentTerm r' = currentTerm r →
      votedFor r' = votedFor r → log r' = log r → dlog r' = dlog r →
      commitIndex r' = commitIndex r → lastApplied r' = lastApplied r →
      (∀ j m, go_index (matchIndex r') j = Some m → m = 0) → ptrans w i r r'
  | pt_start command :
      role r = Leader → same_vote r r' →
      log r' = log r ++ [MkLogEntry command (lastIdx (log r) + 1) (currentTerm r)] →
      dlog r' = log r' → commitIndex r' = commitIndex r → lastApplied r' = lastApplied r →
      matchIndex r' = matchIndex r → ptrans w i r r'
  | pt_snapshot index e :
      same_vote r r' → index <= lastApplied r → entry_at (log r) index = Some e →
      log r' = drop (Z.to_nat (index - firstIdx (log r))) (log r) →
      dlog r' = log r' → commitIndex r' = commitIndex r → lastApplied r' = lastApplied r →
      matchIndex r' = matchIndex r → ptrans w i r r'
  | pt_append c ep args :
      TAppend c i ep args ∈ tasks w → settles r r' → role r' ≠ Leader → appended r args r' →
      ptrans w i r r'
  | pt_install c ep args :
      TInstall c i ep args ∈ tasks w → settles r r' → role r' ≠ Leader →
      is_Term args = currentTerm r' → is_result (log r) (is_Snapshot args) (log r') →
      firstIdx (log r) < LastIncludedIndex (is_Snapshot args) →
      (dlog r' = dlog r ∨ dlog r' = log r) → commitIndex r' = commitIndex r →
      lastApplied r' = lastApplied r → ptrans w i r r'
  | pt_match s y m :
      acks w i s (currentTerm r) y m → role r = Leader → same_node r r' → lastApplied r' = lastApplied r →
      (∀ j k, go_index (matchIndex r') j = Some k → go_index (matchIndex r) j = Some k ∨ j = s ∧ k = m) →
      (commitIndex r' = commitIndex r
       ∨ (0 <= commitIndex r → commitIndex r < commitIndex r'
           ∧ nPeers r' <= 2 * (1 + Z.of_nat (length (filter (Z.le (commitIndex r')) (matchIndex r'))))
           ∧ ∃ e, entry_at (log r') (commitIndex r') = Some e ∧ Term e = currentTerm r')) →
      ptrans w i r r'
  | pt_apply :
      same_node r r' → matchIndex r' = matchIndex r →
      (commitIndex r' = commitIndex r ∨ commitIndex r' = firstIdx (log r)) →
      (lastApplied r <= commitIndex r → lastApplied r' <= commitIndex r') → ptrans w i r r'.

Record restarts r r' : Prop := {
  rs_term : currentTerm r' = currentTerm r;
  rs_vote : votedFor r' = votedFor r;
  rs_role : role r' = Follower;
  rs_log : log r' = dlog r;
  rs_disk : dlog r' = dlog r;
  rs_commit : commitIndex r' = firstIdx (log r');
  rs_applied : lastApplied r' = commitIndex r';
}.

(** The tasks that a step of peer [i], from [p] to [p'], adds. *)
Definition new_task w (i : Z) p p' t : Prop :=
  match t with
  | TVote c _ _ _ args => c = i ∧ role (rf p') = Candidate ∧ rv_Term args = currentTerm (rf p')
      ∧ currentTerm (rf p') = currentTerm (rf p) + 1
      ∧ (rv_LastLogIndex args, rv_LastLogTerm args) = tip (log (rf p'))
  | TVoteReply c s ep a args _ => TVote c s ep a args ∈ tasks w
  | TStartAppend c _ ep T => c = i ∧ ep = epoch p' ∧ role (rf p') = Leader ∧ T = currentTerm (rf p')
  | TAppend c s ep args => c = i ∧ p' = p ∧ ep = epoch p
      ∧ TStartAppend c s ep (currentTerm (rf p)) ∈ tasks w ∧ makeAppendArgsL (rf p) s = Some args
  | TInstall c s ep args => c = i ∧ p' = p ∧ ep = epoch p
      ∧ TStartAppend c s ep (currentTerm (rf p)) ∈ tasks w ∧ args = installArgsL (rf p)
  | TAppendReply c s ep args reply => s = i ∧ TAppend c s ep args ∈ tasks w
      ∧ (aer_Success reply = true → appended (rf p) args (rf p'))
  | TInstallReply c s ep args _ => s = i ∧ TInstall c s ep args ∈ tasks w
  end.

(** ** Every operation is one of these *)

Lemma tick_trans w i env r r' sp :
  node_wf r → me r = i → tick env r = Some (r', sp) → ptrans w i r r'.
Proof.
  intros Hwf Hme H. unfold tick in H.
  destruct (role_eqb _ _); [injection H as <- _; by apply pt_settle; [left|]|].
  destruct (_ >? _); [|injection H as <- _; by apply pt_settle; [left|]].
  pose proof (becomeCandidateL_quiet _ _ _ _ H) as Hq. pose proof (becomeCandidateL_disk _ _ _ _ H) as Hd.
  destruct (becomeCandidateL_spec env _ Hwf) as (r1 & args & H1 & _ & _ & _ & _ & _ & Hct & Hvf & Hro & _).
  rewrite H in H1. injection H1 as <- _. apply pt_candidate; try done. congruence.
Qed.

Lemma Start_trans w i r command r' res sp :
  node_wf r → Start r command = Some (r', res, sp) → ptrans w i r r'.
Proof.
  intros Hwf H. destruct (Start_spec _ command Hwf) as [[_ H1]|(r1 & Hr & H1 & _ & Hsv & Hd & Hc & Hl)];
    rewrite H in H1; injection H1 as <- Hres Hsp; [by apply pt_settle; [left|]|].
  assert (lastApplied r' = lastApplied r ∧ matchIndex r' = matchIndex r) as [? ?].
  { unfold Start, role_eqb in H. case_bool_decide; [|done].
    destruct (lastLogL r); cbn [mbind option_bind] in H; [|done]. by injection H as <- _ _. }
  eapply pt_start; try done. by apply dlog_on_disk.
Qed.

Lemma SnapshotL_trans w i r index data r' :
  node_wf r → index <= lastApplied r → SnapshotL r index data = Some r' → ptrans w i r r'.
Proof.
  intros Hwf Hi H. pose proof (SnapshotL_returns _ _ _ _ Hwf H) as Hle.
  destruct (SnapshotL_spec _ _ data Hwf Hle) as (r1 & H1 & _ & Hsv & Hc & Hr).
  rewrite H in H1. injection H1 as <-.
  destruct Hr as [[-> _]|(_ & Hd & e & He & Hl & _)]; [by apply pt_settle; [left|]|].
  assert (lastApplied r' = lastApplied r ∧ matchIndex r' = matchIndex r) as [? ?].
  { unfold SnapshotL in H. destruct (logFirstIndexL r); cbn [mbind option_bind] in H; [|done].
    destruct (_ >? _); [|by simplify_eq]. unfold trimLogL in H. runs. destruct (_ <? _); runs; done. }
  eapply pt_snapshot; try done. by apply dlog_on_disk.
Qed.

Lemma apply_trans w i r r' msg : node_wf r → apply r = Some (r', msg) → ptrans w i r r'.
Proof.
  intros Hwf H. destruct (apply_node _ _ _ Hwf H) as [_ Hs].
  assert (∀ r0 r' msg, apply_command r0 = Some (r', msg) → matchIndex r' = matchIndex r0
    ∧ commitIndex r' = commitIndex r0 ∧ (lastApplied r0 <= commitIndex r0 → lastApplied r' <= commitIndex r')) as Hcmd.
  { clear. intros r r' msg H. unfold apply_command, apply_tail in H.
    destruct (_ >? _) eqn:E; bools.
    - destruct (logFirstIndexL _); cbn [mbind option_bind] in H; [|done].
      destruct (_ <=? _); [injection H as <- _; cbn; split_and!; try done; lia|].
      destruct (getLogL _ _); cbn [mbind option_bind] in H; [|done]. injection H as <- _. cbn. split_and!; try done; lia.
    - destruct (_ && _); injection H as <- _; done. }
  unfold apply, apply_tail, applySnapshotL in H. destruct (nw_snap _ Hwf) as [Hsn _].
  destruct (applier r).
  - destruct (killed r); [injection H as <- _; apply pt_apply; try done; by left|].
    destruct (applySnapshot r).
    + destruct (_ >? _) eqn:E; bools.
      * injection H as <- _. apply pt_apply; try done. by right.
      * apply Hcmd in H as (? & ? & ?). apply pt_apply; try done. by left.
    + apply Hcmd in H as (? & ? & ?). apply pt_apply; try done. by left.
  - apply Hcmd in H as (? & ? & ?). apply pt_apply; try done. by left.
  - destruct (_ && _); injection H as <- _; (apply pt_apply; try done; by left).
  - injection H as <- _. apply pt_apply; try done. by left.
  - injection H as <- _. apply pt_apply; try done. by left.
Qed.

Lemma Make_trans env r r' :
  node_wf r → Make env (nPeers r) (me r) (persister r) = Some r' → restarts r r'.
Proof.
  intros Hwf H. destruct (Make_spec env _ Hwf) as (r1 & H1 & Hwf1 & _ & _ & Hct & Hvf & Hro & Hp & _).
  rewrite H in H1. injection H1 as <-.
  assert (log r' = dlog r ∧ commitIndex r' = firstIdx (log r') ∧ lastApplied r' = commitIndex r') as (? & ? & ?).
  { clear - H. unfold Make, initL, ReadRaftState in H. unfold dlog.
    set (r0 := new_raft env (nPeers r) (me r) (persister r)) in H.
    destruct (readPersist r0 (raftstate (persister r))) as [r1|] eqn:E; cbn [mbind option_bind] in H; [|done].
    assert (log r' = log r1 ∧ commitIndex r' = commitIndex r1 ∧ lastApplied r' = lastApplied r1) as (-> & -> & ->).
    { injection H as <-. by destruct (_ =? 0). }
    clear H. unfold readPersist in E. destruct (raftstate (persister r)) as [|x d]; [by injection E as <-|].
    destruct (gob_decode (x :: d)) as [[[ct vf] lg]|]; cbn [mbind option_bind] in E; [|done].
    unfold logFirstIndexL in E. cbn [log set_log set_snapshot] in E.
    destruct (go_index lg 0) as [e|] eqn:Eg; cbn [mbind option_bind] in E; [|done]. injection E as <-. cbn.
    split_and!; try done. destruct lg; [done|]. by injection Eg as ->. }
  split; try done. by apply dlog_same.
Qed.

Lemma vote_trans w i ep a args env r r' reply :
  node_wf r → TVote (rv_CandidateId args) i ep a args ∈ tasks w →
  RequestVote env r args = Some (r', reply) → ptrans w i r r'.
Proof.
  intros Hwf Ht H. pose proof (RequestVote_quiet _ _ _ _ _ H).
  destruct (RequestVote_spec env _ args Hwf) as (r1 & reply1 & H1 & _ & Hl & _ & Hv).
  rewrite H in H1. injection H1 as <- <-. destruct (rvr_VoteGranted reply); [|by apply pt_settle].
  destruct Hv as (Hg & lst & Hlst & Hu). by eapply pt_grant.
Qed.

Lemma vote_reply_trans w i r args reply v r' v' sp :
  node_wf r → processRequestReplyL r args reply v = Some (r', v', sp) → ptrans w i r r'.
Proof.
  intros Hwf H. unfold processRequestReplyL, role_eqb in H.
  assert (∀ x y, Some (r, x : Z, y : list Spawn) = Some (r', v', sp) → ptrans w i r r') as Hsame.
  { intros x y [= <- _ _]. by apply pt_settle; [left|]. }
  destruct (_ && _) eqn:E; bools; [|by eapply Hsame]. destruct (rvr_VoteGranted reply).
  - destruct (_ >? _); [|by eapply Hsame].
    destruct (becomeLeaderL_spec r Hwf) as (r2 & H2 & _ & _ & _ & Hl & Hp & _ & Hct & Hvf & Hro & Hc & _ & Hm).
    { apply Hwf. congruence. }
    pose proof H2 as H3. rewrite H2 in H. cbn [mbind option_bind] in H. injection H as <- _ _.
    apply pt_leader; try done; [by apply dlog_same| |].
    + unfold becomeLeaderL in H3. destruct (lastLogL r); cbn [mbind option_bind] in H3; [|done].
      destruct (_ || _); [done|]. by injection H3 as <-.
    + intros j m. rewrite Hm. intros [_ Hj]%go_index_lookup. by apply lookup_replicate_1 in Hj as [-> _].
  - destruct (_ >? _) eqn:Et; bools; [|by eapply Hsame]. injection H as <- _ _.
    apply pt_settle; [right; split; cbn; try done; lia|apply quiet_becomeFollowerL].
Qed.

Lemma processAppendEntriesL_fails r args r' reply :
  processAppendEntriesL r args = Some (r', reply) → aer_Success reply = false → r' = r.
Proof.
  unfold processAppendEntriesL. intros H Hs.
  destruct (lastLogL r); cbn [mbind option_bind] in H; [|done].
  destruct (_ <? _); [by injection H as <- <-|].
  destruct (prevLogConflictL r args) as [[[b ct] ci]|]; cbn [mbind option_bind] in H; [|done].
  destruct b; [by injection H as <- <-|]. exfalso.
  destruct (appendNewEntries _ _ _ _) as [r1|]; cbn [mbind option_bind] in H; [|done].
  destruct (lastLogL r1); cbn [mbind option_bind] in H; [|done]. by injection H as _ <-.
Qed.

Lemma AppendEntries_trans env r args r' reply :
  node_wf r → ae_wf args → AppendEntries env r args = Some (r', reply) →
  settles r r' ∧ (if aer_Success reply then appended r args r' else quiet r r').
Proof.
  intros Hwf Hae H.
  destruct (AppendEntries_spec env r args Hwf Hae) as (r1 & r2 & reply2 & H2 & -> & _ & Hst & [_ Hsu _] & Hw).
  rewrite H in H2. injection H2 as <- <-. split; [done|].
  pose proof (ae_preamble_quiet env r args) as Hq. destruct (aer_Success reply) eqn:Es.
  - destruct Hsu as (HT & Hres & Hprev & Hc); [done|]. split; try done.
    + destruct Hw as [[Heq Hl]|Heq].
      * right. assert (log r' = log r) as Hlog by (rewrite Hl; apply Hq). split; [done|].
        apply (f_equal dlog) in Heq. change (dlog r' = dlog (ae_preamble env r args)) in Heq. rewrite Heq.
        destruct (q_disk _ _ Hq) as [?|Hd]; [by left|right]. rewrite Hd. apply Hq.
      * left. apply (f_equal persister) in Heq.
        by apply (dlog_persistL r' (set_log (ae_preamble env r args) (log r'))).
    + destruct Hw as [[Heq _]|Heq]; apply (f_equal lastApplied) in Heq; cbn in Heq; rewrite Heq; apply Hq.
  - rewrite AppendEntries_preamble in H. by apply processAppendEntriesL_fails in H as ->.
Qed.

Lemma InstallSnapshot_frame env r args r' reply :
  InstallSnapshot env r args = Some (r', reply) →
  commitIndex r' = commitIndex r ∧ lastApplied r' = lastApplied r ∧ matchIndex r' = matchIndex r.
Proof.
  unfold InstallSnapshot. set (r1 := if is_Term args >? _ then _ else r).
  assert (quiet r r1) as Hq by apply quiet_higher. clearbody r1.
  set (r2 := if _ >=? _ then _ else r1). intros H.
  assert (quiet r r2) as Hq2.
  { etrans; [exact Hq|]. subst r2. destruct (_ >=? _); [|done].
    etrans; [apply (quiet_reset env _ false)|by apply quiet_frame]. }
  clearbody r2. destruct Hq2 as [_ <- <- <- _].
  destruct (_ <? _); [by injection H as <- _|].
  destruct (logFirstIndexL r2); cbn [mbind option_bind] in H; [|done].
  destruct (_ >=? _); [by injection H as <- _|]. set (r3 := set_snapshot _ _) in H.
  destruct (lastLogL r3); cbn [mbind option_bind] in H; [|done].
  destruct (if _ >=? _ then _ else _) as [retain|]; cbn [mbind option_bind] in H; [|done].
  destruct (if retain then _ else _) as [r4|] eqn:E4; cbn [mbind option_bind] in H; [|done].
  assert (∃ l, r4 = set_log r3 l) as [l4 ->].
  { destruct retain; [|injection E4 as <-; eauto]. unfold trimLogL in E4. runs. destruct (_ <? _); [done|]. runs. eauto. }
  injection H as <- _. rewrite applySignalL_frame. done.
Qed.

Lemma install_trans w i c ep args env r r' reply :
  node_wf r → is_wf args → TInstall c i ep args ∈ tasks w →
  (role r = Leader → currentTerm r ≠ is_Term args) →
  InstallSnapshot env r args = Some (r', reply) → ptrans w i r r'.
Proof.
  intros Hwf Hsw Ht Hnl H. destruct (InstallSnapshot_frame _ _ _ _ _ H) as (Hc & Ha & Hm).
  destruct (InstallSnapshot_spec env _ args Hwf Hsw) as (r1 & r2 & reply2 & H2 & Hr1 & _ & Hst & _ & Hp & _ & Hl).
  rewrite H in H2. injection H2 as <- <-.
  assert (dlog r' = dlog r ∨ dlog r' = log r) as Hd.
  { rewrite (dlog_same _ _ Hp). subst r1. destruct (_ >? _); [right|by left].
    by apply (dlog_persistL _ (set_currentTerm (set_votedFor (set_role r Follower) NA) (is_Term args))). }
  destruct Hl as [Hl|(HT & Hres & Hlt)].
  - apply pt_settle; [done|]. split; try done. rewrite Hl. done.
  - eapply pt_install; try done. intros Hr. destruct Hst as [[]|[]]; [|congruence]. apply Hnl; congruence.
Qed.

(** *** Replies to the leader *)

Lemma updateMatchAndNextL_match r s m r' :
  updateMatchAndNextL r s m = Some r' → lastApplied r' = lastApplied r
  ∧ ∀ j k, go_index (matchIndex r') j = Some k → go_index (matchIndex r) j = Some k ∨ j = s ∧ k = m.
Proof.
  intros H. unfold updateMatchAndNextL in H.
  destruct (go_index (matchIndex r) s) as [m0|]; cbn [mbind option_bind] in H; [|done].
  destruct (if m >? m0 then _ else _) as [r1|] eqn:E1; cbn [mbind option_bind] in H; [|done].
  assert (lastApplied r1 = lastApplied r
    ∧ ∀ j k, go_index (matchIndex r1) j = Some k → go_index (matchIndex r) j = Some k ∨ j = s ∧ k = m) as [Ha Hm].
  { destruct (m >? m0); [|injection E1 as <-; auto].
    destruct (go_update _ _ _) as [ms|] eqn:Eu; cbn [mbind option_bind] in E1; [|done]. injection E1 as <-.
    apply go_update_Some in Eu as [? ->]. split; [done|]. cbn. intros j k [Hj Hk]%go_index_lookup.
    destruct (decide (j = s)) as [->|Hne].
    - rewrite list_lookup_insert_eq in Hk by (unfold go_len in *; lia). right. split; congruence.
    - rewrite list_lookup_insert_ne in Hk by lia. left. by apply go_index_lookup. }
  destruct (go_index (nextIndex r1) s); cbn [mbind option_bind] in H; [|done].
  destruct (_ >=? _); [|injection H as <-; auto].
  destruct (go_update (nextIndex r1) _ _); cbn [mbind option_bind] in H; [|done]. injection H as <-. auto.
Qed.

Lemma setCommitIndexL_cases r r' ok :
  setCommitIndexL r = Some (r', ok) → (r' = r ∧ ok = false) ∨ (∃ N, r' = set_commitIndex r N) ∧ ok = true.
Proof.
  unfold setCommitIndexL. intros H. destruct (go_index _ _); cbn [mbind option_bind] in H; [|done].
  destruct (_ >? _); [|left; by injection H as <- <-].
  destruct (getLogL _ _); cbn [mbind option_bind] in H; [|done].
  destruct (_ =? _); injection H as <- <-; eauto.
Qed.

Lemma append_reply_trans w i s ep args reply r r' :
  node_wf r → TAppendReply i s ep args reply ∈ tasks w →
  processAppendReplyL r s args reply = Some r' → ptrans w i r r'.
Proof.
  intros Hwf Ht H. unfold processAppendReplyL, role_eqb in H.
  assert (Some r = Some r' → ptrans w i r r') as Hsame by (intros [= <-]; by apply pt_settle; [left|]).
  destruct (_ && _) eqn:E; bools; [|by apply Hsame]. destruct (aer_Success reply) eqn:Es.
  - destruct (updateMatchAndNextL r s _) as [r1|] eqn:E1; cbn [mbind option_bind] in H; [|done].
    destruct (updateMatchAndNextL_node _ _ _ _ Hwf E1) as (Hwf1 & Hs1 & Hc1).
    destruct (updateMatchAndNextL_match _ _ _ _ E1) as [Ha1 Hm1].
    destruct (setCommitIndexL r1) as [[r2 ok]|] eqn:E2; cbn [mbind option_bind] in H; [|done]. injection H as <-.
    destruct (setCommitIndexL_node _ _ _ Hwf1 E2) as (Hwf2 & Hs2).
    assert (lastApplied (if ok then applySignalL r2 else r2) = lastApplied r1
      ∧ matchIndex (if ok then applySignalL r2 else r2) = matchIndex r1) as Hsig.
    { assert (lastApplied r2 = lastApplied r1 ∧ matchIndex r2 = matchIndex r1) as [Ha2 Hm2].
      { destruct (setCommitIndexL_cases _ _ _ E2) as [[-> _]|[[N ->] _]]; done. }
      destruct (quiet_signal r2) as [_ _ Ha3 Hm3 _]. destruct ok; split; congruence. }
    eapply (pt_match w i r _ s (mtip args)).
    + left. exists ep, args, reply. done.
    + done.
    + etrans; [exact Hs1|]. destruct ok; [rewrite applySignalL_frame; by etrans|done].
    + destruct Hsig as [-> _]. done.
    + destruct Hsig as [_ ->]. done.
    + destruct (setCommitIndexL_cases _ _ _ E2) as [[-> ->]|[[N ->] ->]]; [by left|right].
      intros Hpos. destruct (setCommitIndexL_count _ _ Hwf1 ltac:(lia) E2) as (Hlt & Hn & Hent).
      rewrite applySignalL_frame. cbn in *. split_and!; [lia|done|done].
  - destruct (_ >? _) eqn:Et; bools.
    + injection H as <-. apply pt_settle; [right; split; cbn; try done; lia|apply quiet_becomeFollowerL].
    + unfold processPrevLogConflictL in H.
      destruct (if _ || _ then _ else _); cbn [mbind option_bind] in H; [|done].
      destruct (go_update _ _ _); cbn [mbind option_bind] in H; [|done]. injection H as <-.
      apply pt_settle; [by left|by apply quiet_frame].
Qed.

Lemma install_reply_trans w i s ep args reply r r' :
  node_wf r → TInstallReply i s ep args reply ∈ tasks w →
  processInstallReplyL r s args reply = Some r' → ptrans w i r r'.
Proof.
  intros Hwf Ht H. unfold processInstallReplyL, role_eqb in H.
  destruct (_ && _) eqn:E; bools; [|injection H as <-; by apply pt_settle; [left|]].
  destruct (_ >? _) eqn:Et; bools.
  - injection H as <-. apply pt_settle; [right; split; cbn; try done; lia|apply quiet_becomeFollowerL].
  - destruct (updateMatchAndNextL_node _ _ _ _ Hwf H) as (Hwf1 & Hs1 & Hc1).
    destruct (updateMatchAndNextL_match _ _ _ _ H) as [Ha1 Hm1].
    eapply (pt_match w i r _ s); [|done|done|done|done|by left]. right. exists ep, args, reply. done.
Qed.

(** ** Steps of the cluster *)

(** The service cuts the log only at an entry that was delivered to it. *)
Definition disciplined w (act : Action C) : Prop :=
  match act with ASnapshot i index _ => index <= lastApplied (rf (peers w i)) | _ => True end.

Definition moves w w' : Prop := ∃ i p ts,
  0 <= i < n ∧ w' = update w i p ts
  ∧ (epoch p = epoch (peers w i) ∧ ptrans w i (rf (peers w i)) (rf p)
     ∨ epoch p = S (epoch (peers w i)) ∧ restarts (rf (peers w i)) (rf p))
  ∧ ∀ t, t ∈ ts → t ∈ tasks w ∨ new_task w i (peers w i) p t.

Lemma spawn_appends_new w i p p' ep a r t :
  me r = i → ep = epoch p' → role (rf p') = Leader → currentTerm r = currentTerm (rf p') →
  t ∈ spawn i ep a (appendsL r) → new_task w i p p' t.
Proof.
  intros Hme Hep Hr HT. unfold spawn, appendsL. rewrite list_elem_of_fmap.
  intros (s & -> & (j & -> & Hj)%list_elem_of_fmap). cbn. done.
Qed.

Lemma tick_tasks w i env p r' sp a t vs :
  node_wf (rf p) → me (rf p) = i → tick env (rf p) = Some (r', sp) → t ∈ spawn i (epoch p) a sp →
  new_task w i p (MkPeer r' (epoch p) vs) t.
Proof.
  intros Hwf Hme H Ht. unfold tick, role_eqb in H. case_bool_decide as Hr.
  - injection H as <- <-. by eapply spawn_appends_new.
  - destruct (_ >? _); [|injection H as <- <-; by apply elem_of_nil in Ht].
    destruct (becomeCandidateL_spec env _ Hwf) as (r1 & args & H1 & _ & _ & _ & Hl & _ & Hct & _ & Hro & _ & _ & Hargs).
    rewrite H in H1. injection H1 as <- ->. unfold spawn in Ht. rewrite <- list_fmap_compose in Ht.
    apply list_elem_of_fmap in Ht as (j & -> & _). cbn. rewrite Hargs, Hl. done.
Qed.

Lemma vote_reply_tasks w i p args reply v r' v' sp a t ep vs :
  node_wf (rf p) → me (rf p) = i → processRequestReplyL (rf p) args reply v = Some (r', v', sp) →
  t ∈ spawn i ep a sp → new_task w i p (MkPeer r' ep vs) t.
Proof.
  intros Hwf Hme H Ht.
  destruct (processRequestReplyL_spec _ args reply v Hwf) as (r1 & v1 & sp1 & H1 & _ & _ & Hc).
  rewrite H in H1. injection H1 as <- <- <-.
  destruct Hc as [(_ & _ & -> & _)|[(_ & _ & -> & _)|(_ & Hro & _ & _ & _ & Hb)]];
    [by apply elem_of_nil in Ht..|].
  destruct (becomeLeaderL_spec _ Hwf) as (r2 & H2 & _ & _ & _ & _ & _ & _ & Hct & _ & Hro2 & _); [apply Hwf; congruence|].
  rewrite Hb in H2. injection H2 as <- ->. by eapply spawn_appends_new.
Qed.

Lemma start_append_tasks w k i s ep term call t :
  tasks w !! k = Some (TStartAppend i s ep term) → ep = epoch (peers w i) →
  append (rf (peers w i)) s term = Some call →
  t ∈ (match call with
       | None => delete k (tasks w)
       | Some (CallAppend args) => <[k := TAppend i s ep args]> (tasks w)
       | Some (CallInstall args) => <[k := TInstall i s ep args]> (tasks w)
       end) → t ∈ tasks w ∨ new_task w i (peers w i) (peers w i) t.
Proof.
  intros Hk Hep H Ht. apply list_elem_of_lookup_2 in Hk. unfold append in H.
  destruct (Z.eqb_spec (currentTerm (rf (peers w i))) term) as [<-|]; cbn [negb] in H.
  2: { injection H as <-. left. by eapply elem_of_delete. }
  destruct (go_index _ s); cbn [mbind option_bind] in H; [|done].
  destruct (logFirstIndexL _); cbn [mbind option_bind] in H; [|done].
  destruct (_ <=? _).
  { injection H as <-. apply elem_of_insert in Ht as [->|?]; [right|by left]. done. }
  destruct (makeAppendArgsL _ s) as [args|] eqn:Ea; cbn [mbind option_bind] in H; [|done].
  injection H as <-. apply elem_of_insert in Ht as [->|?]; [right|by left]. done.
Qed.

Lemma moves_intro w i p ts :
  0 <= i < n →
  (epoch p = epoch (peers w i) ∧ ptrans w i (rf (peers w i)) (rf p)
   ∨ epoch p = S (epoch (peers w i)) ∧ restarts (rf (peers w i)) (rf p)) →
  (∀ t, t ∈ ts → t ∈ tasks w ∨ new_task w i (peers w i) p t) → moves w (update w i p ts).
Proof. intros. exists i, p, ts. auto. Qed.

Lemma run_trans w k env w' :
  0 <= n → cluster_inv n w → run k env w = Some w' → moves w w'.
Proof.
  intros Hn Hc H. unfold run in H.
  destruct (tasks w !! k) as [t|] eqn:Hk; cbn [mbind option_bind] in H; [|done].
  pose proof (list_elem_of_lookup_2 _ _ _ Hk) as Hin. pose proof (ci_task _ _ Hc t Hin) as Ht.
  destruct t as [c s ep a args|c s ep a args reply|c s ep term|c s ep args|c s ep args reply|c s ep args|c s ep args reply];
    destruct Ht as ((Hci & Hs & Hne) & Ht); destruct (ci_node _ _ Hc c Hci) as (Hwfc & Hmec & _);
    destruct (ci_node _ _ Hc s Hs) as (Hwfs & _);
    try (destruct (negb (bool_decide (epoch (peers w c) = ep))) eqn:Hep; [done|bools; symmetry in Hep]).
  - destruct (RequestVote _ _ _) as [[r' reply]|] eqn:Hr; cbn [mbind option_bind] in H; [|done]. injection H as <-.
    eapply moves_intro; [done| |].
    + left. split; [done|]. destruct Ht as [Hcid _]. eapply (vote_trans w s ep a args); [done| |done]. by rewrite Hcid.
    + intros t [->|?]%elem_of_insert; [right|by left]. done.
  - destruct (votes _ !! a) as [v|]; cbn [mbind option_bind] in H; [|done].
    destruct (processRequestReplyL _ _ _ _) as [[[r' v'] sp]|] eqn:Hr; cbn [mbind option_bind] in H; [|done].
    injection H as <-. eapply moves_intro; [done| |].
    + left. split; [done|]. by eapply vote_reply_trans.
    + intros t [?|?%elem_of_delete]%elem_of_app; [right|by left]. by eapply vote_reply_tasks.
  - destruct (append _ s term) as [call|] eqn:Hr; cbn [mbind option_bind] in H; [|done].
    injection H as <-. eapply moves_intro; [done| |].
    + left. split; [done|]. by apply pt_settle; [left|].
    + intros t. by eapply start_append_tasks.
  - destruct (AppendEntries _ _ _) as [[r' reply]|] eqn:Hr; cbn [mbind option_bind] in H; [|done].
    injection H as <-. destruct (AppendEntries_trans _ _ _ _ _ Hwfs (proj2 Ht) Hr) as [Hst Hpost].
    eapply moves_intro; [done| |].
    + left. split; [done|]. destruct (aer_Success reply); [|by apply pt_settle].
      eapply pt_append; try done. cbn. intros Hl. destruct Hst as [[]|[]]; [|congruence].
      apply (not_leader n w c s (ae_Term args)); try done; [apply Ht|congruence|].
      rewrite (ad_term _ _ _ Hpost). done.
    + intros t [->|?]%elem_of_insert; [right|by left]. cbn. split_and!; try done. intros Hsu. by rewrite Hsu in Hpost.
  - destruct (processAppendReplyL _ _ _ _) as [r'|] eqn:Hr; cbn [mbind option_bind] in H; [|done].
    injection H as <-. eapply moves_intro; [done| |].
    + left. split; [done|]. by eapply append_reply_trans.
    + intros t ?%elem_of_delete. by left.
  - destruct (InstallSnapshot _ _ _) as [[r' reply]|] eqn:Hr; cbn [mbind option_bind] in H; [|done].
    injection H as <-. eapply moves_intro; [done| |].
    + left. split; [done|]. eapply install_trans; [done|apply Ht|done| |done].
      intros Hl. apply (not_leader n w c); try done. apply Ht.
    + intros t [->|?]%elem_of_insert; [right|by left]. done.
  - destruct (processInstallReplyL _ _ _ _) as [r'|] eqn:Hr; cbn [mbind option_bind] in H; [|done].
    injection H as <-. eapply moves_intro; [done| |].
    + left. split; [done|]. by eapply install_reply_trans.
    + intros t ?%elem_of_delete. by left.
Qed.

Lemma exec_trans act w w' :
  0 <= n → cluster_inv n w → disciplined w act → exec n act w = Some w' →
  (∃ k, w' = MkCluster (peers w) (delete k (tasks w)) (hist w)) ∨ moves w w'.
Proof.
  intros Hn Hc Hd H. destruct act as [i env|i cmd|i index data|i|i|i env|k|k env]; cbn [exec] in H;
    [right|right|right|right|right|right|left|right].
  all: try (destruct (negb (in_cluster n i)) eqn:Hin; [done|]; apply in_cluster_spec in Hin as Hi;
            destruct (ci_node _ _ Hc i Hi) as (Hwf & Hme & Hnp)).
  - destruct (tick _ _) as [[r' sp]|] eqn:Hr; cbn [mbind option_bind] in H; [|done]. injection H as <-.
    eapply moves_intro; [done|left; split; [done|by eapply tick_trans]|].
    intros t [?|?]%elem_of_app; [right|by left]. by eapply tick_tasks.
  - destruct (Start _ cmd) as [[[r' res] sp]|] eqn:Hr; cbn [mbind option_bind] in H; [|done]. injection H as <-.
    eapply moves_intro; [done|left; split; [done|by eapply Start_trans]|].
    intros t [Ht|?]%elem_of_app; [right|by left].
    destruct (Start_spec _ cmd Hwf) as [[_ H1]|(r1 & Hro & H1 & _ & Hsv & _)]; rewrite Hr in H1;
      injection H1 as -> _ ->; [by apply elem_of_nil in Ht|].
    destruct Hsv. eapply spawn_appends_new; try done; cbn; congruence.
  - destruct (SnapshotL _ index data) as [r'|] eqn:Hr; cbn [mbind option_bind] in H; [|done]. injection H as <-.
    eapply moves_intro; [done|left; split; [done|by eapply SnapshotL_trans]|by left].
  - destruct (apply _) as [[r' msg]|] eqn:Hr; cbn [mbind option_bind] in H; [|done]. injection H as <-.
    eapply moves_intro; [done|left; split; [done|by eapply apply_trans]|by left].
  - injection H as <-. eapply moves_intro; [done|left; split; [done|]|by left].
    apply pt_settle; [by left; split|by apply quiet_frame].
  - destruct (Make env n i _) as [r'|] eqn:Hr; cbn [mbind option_bind] in H; [|done]. injection H as <-.
    eapply moves_intro; [done|right; split; [done|]|by left].
    eapply Make_trans; [done|]. by rewrite Hme, Hnp.
  - injection H as <-. by exists k.
  - by eapply run_trans.
Qed.
End trans.
