(* ===== verification/RaftAncestry.v ===== *)
(** * The tree of entries in a run

    The invariant [tree_inv]: the entries that leaders have created form a tree
    under (0, 0); the entries of one term lie on one path, which starts at the
    last entry of the leader's log when it stood for election; every log, every
    message and every disk is a piece of a path of this tree. *)

From S2P Require Import Prelude Util Labgob RaftState RaftHandlers RaftLeader RaftNode RaftRecv RaftSend RaftCluster RaftElection RaftClusterInv RaftLogMatching RaftSteps RaftSafety RaftTree RaftTrans.

(** ** Histories grow *)

Section histories.
Context {C : Type} `{!GobCodec (PState C), !GobLaws (PState C)}.
Implicit Types (r : Raft C) (h : History C).

Record hgrows h h' : Prop := {
  hg_elected : elected h ⊆ elected h';
  hg_born : born h ⊆ born h';
  hg_ctip : ctip h ⊆ ctip h';
  hg_early : early h ⊆ early h';
  hg_seen : seen h ⊆ seen h';
}.

#[global] Instance hgrows_refl : Reflexive hgrows.
Proof. by split. Qed.

Lemma leaderless_spec T h : leaderless T h ↔ ∀ c, (T, c) ∉ elected h.
Proof.
  unfold leaderless, set_Forall. split.
  - intros H c Hc. by apply (H _ Hc).
  - intros H [T' c] Hc Heq. cbn in Heq. subst. by apply (H c).
Qed.

Lemma leaderless_mono T h h' : elected h ⊆ elected h' → leaderless T h' → leaderless T h.
Proof. rewrite !leaderless_spec. set_solver. Qed.

Lemma ctip_observe i r h k y :
  ctip (observe i r h) !! k = Some y ↔
  ctip h !! k = Some y
  ∨ (role r = Candidate ∧ k = (currentTerm r, i) ∧ y = tip (log r) ∧ ctip h !! k = None).
Proof.
  unfold observe, role_eqb; cbn. case_bool_decide; [|naive_solver].
  rewrite lookup_union_Some_raw, lookup_singleton_Some. naive_solver.
Qed.

Lemma early_observe i r h T v a :
  (T, v, a) ∈ early (observe i r h) ↔
  (T, v, a) ∈ early h
  ∨ (votedFor r ≠ NA ∧ leaderless (currentTerm r) h ∧ T = currentTerm r ∧ v = i ∧ a = votedFor r).
Proof.
  unfold observe; cbn. destruct (Z.eqb_spec (votedFor r) NA); cbn; [naive_solver|].
  case_bool_decide; [|naive_solver]. rewrite elem_of_union, elem_of_singleton. naive_solver.
Qed.

Lemma seen_observe i r h T v x :
  (T, v, x) ∈ seen (observe i r h) ↔
  (T, v, x) ∈ seen h ∨ (T = currentTerm r ∧ v = i ∧ x = tip (dlog r)).
Proof. unfold observe; cbn. rewrite elem_of_union, elem_of_singleton. naive_solver. Qed.

Lemma observe_grows i r h : born h ⊆ born (observe i r h) → hgrows h (observe i r h).
Proof.
  intros Hb. split; [|done| | |].
  - intros [T c] ?. apply elected_observe. by left.
  - apply map_subseteq_spec. intros k y ?. apply ctip_observe. by left.
  - intros [[T v] a] ?. apply early_observe. by left.
  - intros [[T v] x] ?. apply seen_observe. by left.
Qed.

(** A last entry that the leader of [T] has had. *)
Definition lead_pt h (T : Z) (x : Z * Z) : Prop := ∃ c y,
  (T, c) ∈ elected h ∧ ctip h !! (T, c) = Some y ∧ (x = y ∨ x.2 = T ∧ is_Some (born h !! x)).

Lemma lead_pt_mono h h' T x : hgrows h h' → lead_pt h T x → lead_pt h' T x.
Proof.
  intros [He Hb Hc _ _] (c & y & Hel & Hy & Hx). exists c, y. split_and!; [by apply He|by eapply lookup_weaken|].
  destruct Hx as [?|[? [v Hv]]]; [by left|right]. split; [done|]. exists v. by eapply lookup_weaken.
Qed.
End histories.

Section ancestry.
Context {C : Type} `{!GobCodec (PState C), !GobLaws (PState C)}.
Context (n : Z).
Implicit Types (w : Cluster C) (r : Raft C) (p : Peer C) (t : Task C) (h : History C).

(** ** The invariant *)

Record tpeer h (i : Z) r : Prop := {
  tp_base : rooted (born h) (base (log r));
  tp_disk : rooted (born h) (base (dlog r));
  tp_stood : role r = Candidate → is_Some (ctip h !! (currentTerm r, i));
  tp_cand : role r = Candidate → leaderless (currentTerm r) h →
    ctip h !! (currentTerm r, i) = Some (tip (log r)) ∧ tip (dlog r) = tip (log r);
  tp_lead : role r = Leader → lead_pt h (currentTerm r) (tip (log r)) ∧ tip (dlog r) = tip (log r);
  tp_all k : role r = Leader → is_Some (born h !! (k, currentTerm r)) →
    anc (born h) (tip (log r)) (k, currentTerm r);
}.

Definition snap_pt (args : InstallSnapshotArgs) : Z * Z :=
  (LastIncludedIndex (is_Snapshot args), LastIncludedTerm (is_Snapshot args)).

Definition ttask w t : Prop :=
  let h := hist w in
  match t with
  | TVote c _ _ _ args | TVoteReply c _ _ _ args _ =>
      ctip h !! (rv_Term args, c) = Some (rv_LastLogIndex args, rv_LastLogTerm args)
  | TStartAppend c _ ep T => (ep <= epoch (peers w c))%nat
      ∧ (ep = epoch (peers w c) → currentTerm (rf (peers w c)) = T → role (rf (peers w c)) = Leader)
  | TAppend _ _ _ args | TAppendReply _ _ _ args _ =>
      0 <= ae_PrevLogTerm args ∧ lead_pt h (ae_Term args) (mtip args)
  | TInstall _ _ _ args | TInstallReply _ _ _ args _ =>
      ∃ y, lead_pt h (is_Term args) y ∧ anc (born h) y (snap_pt args)
  end.

Record tree_inv w : Prop := {
  tr_born k T T' cmd : born (hist w) !! (k, T) = Some (T', cmd) →
    0 < k ∧ 0 <= T' <= T ∧ 0 < T ∧ rooted (born (hist w)) (k, T)
    ∧ ∃ c y, (T, c) ∈ elected (hist w) ∧ ctip (hist w) !! (T, c) = Some y ∧ anc (born (hist w)) (k, T) y;
  tr_term k k' T : is_Some (born (hist w) !! (k, T)) → is_Some (born (hist w) !! (k', T)) →
    k <= k' → anc (born (hist w)) (k', T) (k, T);
  tr_ctip T c y : ctip (hist w) !! (T, c) = Some y →
    rooted (born (hist w)) y ∧ y.2 < T ∧ T <= currentTerm (rf (peers w c));
  tr_elected T c : (T, c) ∈ elected (hist w) → is_Some (ctip (hist w) !! (T, c));
  tr_peer i : 0 <= i < n → tpeer (hist w) i (rf (peers w i));
  tr_task t : t ∈ tasks w → ttask w t;
}.

(** ** Consequences *)

Section facts.
Context (w : Cluster C) (Hn : 0 <= n) (Hc : cluster_inv n w) (Hl : log_inv n w) (Ht : tree_inv w).
Local Abbreviation h := (hist w).
Local Abbreviation b := (born (hist w)).

Lemma rooted_cases x : rooted b x → x = (0, 0) ∨ is_Some (b !! x).
Proof using Type. intros Hr. inversion Hr; subst; [by left|right]. eauto. Qed.

Lemma rooted_term x : rooted b x → 0 <= x.2.
Proof using Ht.
  intros Hr. destruct (rooted_cases x Hr) as [->|[[T' cmd] Hb]]; [done|]. destruct x as [k T].
  apply (tr_born _ Ht) in Hb. cbn. lia.
Qed.

Lemma anc_term x y : anc b x y → y.2 <= x.2.
Proof using Ht.
  induction 1 as [|k T T' cmd y Hk Hb Ha IH]; [done|]. apply (tr_born _ Ht) in Hb. cbn in *. lia.
Qed.

Lemma lead_pt_rooted T x : lead_pt h T x → rooted b x.
Proof using Ht.
  intros (c & y & Hel & Hy & [->|[HT [[T' cmd] Hb]]]); [by apply (tr_ctip _ Ht) in Hy as [? _]|].
  destruct x as [k T0]. by apply (tr_born _ Ht) in Hb as (_ & _ & _ & ? & _).
Qed.

(** The last entries of the leader of a term contain the one it stood with. *)
Lemma lead_pt_ctip T x c y :
  lead_pt h T x → (T, c) ∈ elected h → ctip h !! (T, c) = Some y → anc b x y.
Proof using Hc Hn Ht.
  intros (c' & y' & Hel' & Hy' & Hx) Hel Hy.
  assert (c' = c) as -> by (eapply (elected_unique n w T); [done|apply Hc|done|done]).
  assert (y' = y) as -> by congruence. destruct Hx as [->|[HT [[T' cmd] Hb]]]; [done|].
  destruct x as [k T0]; cbn in HT; subst T0.
  destruct (tr_born _ Ht _ _ _ _ Hb) as (_ & _ & _ & _ & c2 & y2 & Hel2 & Hy2 & Ha).
  assert (c2 = c) as -> by (eapply (elected_unique n w T); [done|apply Hc|done|done]). congruence.
Qed.

(** They lie on one path. *)
Lemma lead_pt_chain T x y : lead_pt h T x → lead_pt h T y → x.1 <= y.1 → anc b y x.
Proof using Hc Hn Ht.
  intros Hx Hy Hi. pose proof Hx as (c & z & Hel & Hz & [->|[HTx Hbx]]).
  { by eapply lead_pt_ctip. }
  pose proof Hy as (c' & z' & Hel' & Hz' & [->|[HTy Hby]]).
  - pose proof (lead_pt_ctip T x c' z' Hx Hel' Hz') as Ha. pose proof (anc_index _ _ _ Ha).
    rewrite (anc_same_index _ _ _ Ha) by lia. done.
  - destruct x as [k T1], y as [k' T2]; cbn in *; subst. by apply (tr_term _ Ht).
Qed.

Lemma born_lead_pt k T : is_Some (b !! (k, T)) → lead_pt h T (k, T).
Proof using Ht.
  intros Hb. pose proof Hb as [[T' cmd] Hb']. apply (tr_born _ Ht) in Hb' as (_ & _ & _ & _ & c & y & Hel & Hy & _).
  exists c, y. split_and!; [done|done|by right].
Qed.

Lemma log_rooted i : 0 <= i < n → rooted b (tip (log (rf (peers w i)))).
Proof using Hc Hl Ht.
  intros Hi. destruct (ci_node _ _ Hc i Hi) as (Hwf & _).
  apply tip_rooted; [apply Hwf|by apply Hl|by apply (tr_peer _ Ht)].
Qed.

Lemma dlog_wf r : node_wf r → log_wf (dlog r).
Proof using Type.
  intros Hwf. destruct (nw_disk _ Hwf) as [(Hd & _)|(l & Hd & Hwl & _)].
  - unfold dlog. rewrite Hd. by apply log_wf_singleton.
  - by rewrite (dlog_on_disk _ _ Hd).
Qed.

Lemma disk_rooted i : 0 <= i < n → rooted b (tip (dlog (rf (peers w i)))).
Proof using Hc Hl Ht.
  intros Hi. destruct (ci_node _ _ Hc i Hi) as (Hwf & _).
  apply tip_rooted; [by apply dlog_wf|by apply Hl|by apply (tr_peer _ Ht)].
Qed.
End facts.

(** ** What transitions do to leaders, candidates and the tree *)

Lemma settles_leads r r' : settles r r' → role r' = Leader → role r = Leader ∧ currentTerm r' = currentTerm r.
Proof. intros [[]|[]] Hr; [split; congruence|congruence]. Qed.

Lemma settles_stays r r' : settles r r' → role r = Leader → currentTerm r' = currentTerm r → role r' = Leader.
Proof. intros [[]|[_ _ [Hlt|[_ Hca]] _ _]] Hr HT; [congruence|lia|congruence]. Qed.

Lemma settles_stands r r' :
  settles r r' → role r' = Candidate → role r = Candidate ∧ currentTerm r' = currentTerm r.
Proof. intros [[]|[]] Hr; [split; congruence|congruence]. Qed.

Lemma grants_settles r args r' :
  grants r args r' → ∃ r1, settles r r1 ∧ role r' = role r1 ∧ currentTerm r' = currentTerm r1.
Proof. intros (r1 & ? & _ & _ & ? & ? & _). eauto. Qed.

Lemma ptrans_term w i r r' : ptrans w i r r' → currentTerm r <= currentTerm r'.
Proof.
  intros [Hs|????? (r1 & Hs & _ & Hct)%grants_settles|Hct|? ? Hct|? ? Hs|? ? Hs|???? Hs|???? Hs|???? ? Hs|Hs];
    try (apply settles_term in Hs; lia); try lia; try (destruct Hs; lia); destruct Hs as [[] _ _ _]; lia.
Qed.

Lemma ptrans_leads w i r r' :
  ptrans w i r r' → role r' = Leader → currentTerm r' = currentTerm r ∧ (role r = Leader ∨ role r = Candidate).
Proof.
  intros [Hs|????? (r1 & Hs & Hro & Hct)%grants_settles|Hct|? ? Hct|? ? Hs|? ? Hs|???? Hs|???? Hs|???? ? Hs|Hs] Hr;
    try congruence; try (by split; [|by right]);
    try (destruct (settles_leads _ _ Hs); [congruence|]; split; [congruence|by left]);
    try (destruct Hs; split; [congruence|left; congruence]);
    (destruct Hs as [[] _ _ _]; split; [congruence|left; congruence]).
Qed.

Lemma ptrans_stays w i r r' :
  ptrans w i r r' → role r = Leader → currentTerm r' = currentTerm r → role r' = Leader.
Proof.
  intros [Hs|????? (r1 & Hs & Hro & Hct)%grants_settles|Hct|? ? Hct|? ? Hs|? ? Hs|???? Hs|???? Hs|???? ? Hs|Hs] Hr HT;
    try congruence; try lia;
    try (rewrite ?Hro; apply (settles_stays r); [done|done|congruence]);
    try (destruct Hs; congruence); (destruct Hs as [[] _ _ _]; congruence).
Qed.

Lemma same_born i r h : role r ≠ Leader → born (observe i r h) = born h.
Proof. unfold observe; cbn. by destruct (role r). Qed.

Lemma start_born w i r' cmd : let r := rf (peers w i) in
  log_wf (log r) → role r = Leader → same_vote r r' →
  log r' = log r ++ [MkLogEntry cmd (lastIdx (log r) + 1) (currentTerm r)] →
  born (observe i r' (hist w)) = <[(lastIdx (log r) + 1, currentTerm r) := (lastTerm (log r), cmd)]> (born (hist w)).
Proof.
  intros r Hwf Hro Hsv Hlog. unfold observe; cbn. destruct (last_entry _ Hwf) as (e0 & He0 & _ & _ & HT).
  rewrite (sv_role _ _ Hsv). fold r. rewrite Hro, Hlog, (newest_snoc _ e0) by done. cbn. by rewrite HT.
Qed.

(** The tree grows only when a leader starts a command. *)
Lemma ptrans_born w i r' : let r := rf (peers w i) in let h' := observe i r' (hist w) in
  cluster_inv n w → log_inv n w → 0 <= i < n → ptrans w i r r' →
  born h' = born (hist w)
  ∨ ∃ cmd, role r = Leader ∧ same_vote r r' ∧ dlog r' = log r'
      ∧ log r' = log r ++ [MkLogEntry cmd (lastIdx (log r) + 1) (currentTerm r)]
      ∧ born h' = <[(lastIdx (log r) + 1, currentTerm r) := (lastTerm (log r), cmd)]> (born (hist w)).
Proof.
  intros r h' Hc Hl Hi Htr. destruct (ci_node _ _ Hc i Hi) as (Hwf & _). fold r in Hwf.
  pose proof (lv_log _ _ Hl i Hi) as Hp. fold r in Hp.
  assert (log r' = log r → born h' = born (hist w)) as Hsame.
  { intros Heq. apply born_known. by rewrite Heq. }
  destruct Htr as [_ []|????? _ _ _ []|_ _ _ []|_ _ _ _ Hlog|cmd Hro Hsv Hlog Hd|index e _ _ He Hlog|??? _ _ Hro|
                   ??? _ _ Hro|??? _ _ []|[]]; try (left; by apply Hsame); try (left; by apply same_born).
  - right. exists cmd. split_and!; try done. by apply start_born; [apply Hwf|..].
  - left. apply born_known. rewrite Hlog. by apply pairs_ok_drop.
Qed.

(** ** Messages of a leader *)

Lemma tip_snoc (l : list (LogEntry C)) e : tip (l ++ [e]) = (Index e, Term e).
Proof. unfold tip, lastIdx, lastTerm. by rewrite last_snoc. Qed.

Lemma entry_term_nonneg (l : list (LogEntry C)) k e : log_wf l → entry_at l k = Some e → 0 <= Term e.
Proof.
  intros Hwf He. destruct (first_entry _ Hwf) as (e0 & He0 & _ & _ & HT).
  pose proof (entry_at_bounds _ _ _ Hwf He). pose proof (lw_term0 _ Hwf).
  pose proof (entry_at_terms _ _ _ _ _ Hwf (proj1 H) He0 He). lia.
Qed.

(** A message goes up to the last entry of the leader's log. *)
Lemma mtip_make r0 s args :
  node_wf r0 → makeAppendArgsL r0 s = Some args →
  mtip args = tip (log r0) ∧ 0 <= ae_PrevLogTerm args.
Proof.
  intros Hwf H. pose proof (nw_log _ Hwf) as Hlw.
  destruct (makeAppendArgsL_spec _ _ _ Hwf H) as (Hae & _ & _ & _ & (e & He & HT) & Hes & Hlast).
  pose proof (entry_term_nonneg _ _ _ Hlw He) as Hpos. rewrite HT in Hpos. split; [|done].
  rewrite (surjective_pairing (mtip args)), (mtip_index args Hae Hpos), Hlast. unfold tip. f_equal.
  unfold mtip, tip, ae_log, lastTerm. cbn [snd]. rewrite last_cons.
  destruct (ae_Entries args) as [|e1 es] eqn:Ees.
  - cbn in Hlast. rewrite Z.add_0_r in Hlast. rewrite Hlast in He.
    destruct (last_entry _ Hlw) as (e' & Hl1 & He' & _ & _). rewrite Hl1. cbn. congruence.
  - assert (last (e1 :: es) = last (log r0)) as ->.
    { rewrite Hes. apply last_drop_log. apply (f_equal length) in Hes. rewrite length_drop in Hes. cbn in Hes. lia. }
    by destruct (last_entry _ Hlw) as (e' & -> & _).
Qed.

(** ** Steps preserve the invariant *)

Section preserve.
#[local] Set Default Proof Using "All".
Context (w : Cluster C) (i : Z) (p : Peer C) (ts : list (Task C)).
Local Abbreviation w' := (update w i p ts).
Local Abbreviation r := (rf (peers w i)).
Local Abbreviation r' := (rf p).
Local Abbreviation h := (hist w).
Local Abbreviation h' := (observe i (rf p) (hist w)).
Context (Hn : 0 <= n) (Hi : 0 <= i < n) (Hc : cluster_inv n w) (Hl : log_inv n w) (Ht : tree_inv w).
Context (Hc' : cluster_inv n w') (Hl' : log_inv n w').
Context (Hmv : epoch p = epoch (peers w i) ∧ ptrans w i r r'
               ∨ epoch p = S (epoch (peers w i)) ∧ restarts r r').

Lemma move_term : currentTerm r <= currentTerm r'.
Proof. destruct Hmv as [[_ Htr]|[_ []]]; [by eapply ptrans_term|lia]. Qed.

Lemma start_fresh : role r = Leader → born h !! (lastIdx (log r) + 1, currentTerm r) = None.
Proof.
  intros Hr. destruct (born h !! _) as [v|] eqn:Hv; [exfalso|done].
  pose proof (tp_all _ _ _ (tr_peer _ Ht i Hi) (lastIdx (log r) + 1) Hr ltac:(eauto)) as Ha%anc_index.
  cbn in Ha. lia.
Qed.

Lemma move_born :
  born h' = born h
  ∨ ∃ cmd, role r = Leader ∧ same_vote r r' ∧ dlog r' = log r'
      ∧ log r' = log r ++ [MkLogEntry cmd (lastIdx (log r) + 1) (currentTerm r)]
      ∧ born h' = <[(lastIdx (log r) + 1, currentTerm r) := (lastTerm (log r), cmd)]> (born h)
      ∧ born h !! (lastIdx (log r) + 1, currentTerm r) = None.
Proof.
  destruct Hmv as [[_ Htr]|[_ []]]; [|left; apply same_born; congruence].
  destruct (ptrans_born w i r' Hc Hl Hi Htr) as [?|(cmd & ? & ? & ? & ? & ?)]; [by left|right].
  exists cmd. split_and!; try done. by apply start_fresh.
Qed.

Lemma move_grows : hgrows h h'.
Proof.
  apply observe_grows. destruct move_born as [->|(cmd & _ & _ & _ & _ & -> & Hf)]; [done|].
  by apply insert_subseteq.
Qed.

Lemma anc_old x y : anc (born h) x y → anc (born h') x y.
Proof. apply anc_mono, move_grows. Qed.

Lemma log_pairs : pairs_ok (born h') (log r').
Proof. pose proof (lv_log _ _ Hl' i Hi) as Hp. by rewrite peers_update, decide_True in Hp. Qed.

Lemma log_wf_new : log_wf (log r').
Proof. destruct (ci_node _ _ Hc' i Hi) as (Hwf & _). rewrite peers_update, decide_True in Hwf by done. apply Hwf. Qed.

Lemma leader_rooted : rooted (born h') (tip (log r)).
Proof. eapply rooted_mono; [apply move_grows|]. by apply log_rooted. Qed.

Lemma lastIdx_nonneg : 0 <= lastIdx (log r).
Proof. pose proof (log_rooted w Hc Hl Ht i Hi) as Hr%rooted_index. done. Qed.

(** *** The tree *)

Lemma lead_term_pos T x : lead_pt h T x → 0 < T.
Proof.
  intros (c & y & _ & Hy & _). destruct (tr_ctip _ Ht _ _ _ Hy) as (Hr & Hlt & _).
  pose proof (rooted_term w Ht y Hr). lia.
Qed.

Lemma new_born k T T' cmd : born h' !! (k, T) = Some (T', cmd) →
  0 < k ∧ 0 <= T' <= T ∧ 0 < T ∧ rooted (born h') (k, T)
  ∧ ∃ c y, (T, c) ∈ elected h' ∧ ctip h' !! (T, c) = Some y ∧ anc (born h') (k, T) y.
Proof.
  pose proof move_grows as Hg. pose proof lastIdx_nonneg.
  assert (born h !! (k, T) = Some (T', cmd) → 0 < k ∧ 0 <= T' <= T ∧ 0 < T ∧ rooted (born h') (k, T)
    ∧ ∃ c y, (T, c) ∈ elected h' ∧ ctip h' !! (T, c) = Some y ∧ anc (born h') (k, T) y) as Hold.
  { intros (? & ? & ? & Hr & c & y & Hel & Hy & Ha)%(tr_born _ Ht). split_and!; try done; try lia.
    - eapply rooted_mono; [apply Hg|done].
    - exists c, y. split_and!; [by apply (hg_elected _ _ Hg)|eapply lookup_weaken; [done|apply Hg]|by apply anc_old]. }
  destruct move_born as [Heq|(cmd0 & Hro & Hsv & _ & Hlog & Heq & Hf)]; [rewrite Heq at 1; exact Hold|].
  rewrite Heq at 1. rewrite lookup_insert_Some. intros [[[= <- <-] [= <- <-]]|[_ ?]]; [|by apply Hold].
  destruct (ci_node _ _ Hc i Hi) as (Hwf & _). destruct (tp_lead _ _ _ (tr_peer _ Ht i Hi) Hro) as [Hld _].
  pose proof (lead_term_pos _ _ Hld).
  assert (∀ y, anc (born h') (tip (log r)) y → anc (born h') (lastIdx (log r) + 1, currentTerm r) y) as Hstep.
  { intros y Hy. eapply anc_step; [lia|rewrite Heq; by rewrite lookup_insert_eq|].
    replace (lastIdx (log r) + 1 - 1) with (lastIdx (log r)) by lia. exact Hy. }
  split_and!; try lia.
  - apply lastTerm_nonneg, Hwf.
  - apply Hwf.
  - apply Hstep, leader_rooted.
  - pose proof Hld as (c & y & Hel & Hy & _). exists c, y.
    split_and!; [by apply (hg_elected _ _ Hg)|eapply lookup_weaken; [done|apply Hg]|].
    apply Hstep, anc_old. by eapply (lead_pt_ctip w).
Qed.

Lemma new_term k k' T : is_Some (born h' !! (k, T)) → is_Some (born h' !! (k', T)) →
  k <= k' → anc (born h') (k', T) (k, T).
Proof.
  destruct move_born as [Heq|(cmd0 & Hro & Hsv & _ & Hlog & Heq & Hf)].
  { rewrite Heq. apply (tr_term _ Ht). }
  pose proof lastIdx_nonneg.
  assert (∀ k, is_Some (born h' !! (k, T)) →
    is_Some (born h !! (k, T)) ∨ k = lastIdx (log r) + 1 ∧ T = currentTerm r) as Hcase.
  { intros k0. rewrite Heq, lookup_insert_is_Some. naive_solver. }
  assert (∀ k0, is_Some (born h !! (k0, currentTerm r)) → anc (born h) (tip (log r)) (k0, currentTerm r)) as Hall.
  { intros k0. by apply (tp_all _ _ _ (tr_peer _ Ht i Hi)). }
  intros [Hk|[-> ->]]%Hcase [Hk'|[-> HT]]%Hcase Hle; [|subst T| |done].
  - by apply anc_old, (tr_term _ Ht).
  - eapply anc_step; [lia|rewrite Heq; by rewrite lookup_insert_eq|].
    replace (lastIdx (log r) + 1 - 1) with (lastIdx (log r)) by lia. by apply anc_old, Hall.
  - apply Hall, anc_index in Hk'. cbn in Hk'. lia.
Qed.

(** *** Candidates and leaders *)

Lemma ctip_old k y : ctip h !! k = Some y → ctip h' !! k = Some y.
Proof. intros. eapply lookup_weaken; [done|apply move_grows]. Qed.

(** A candidate after the step was one before, or its term is new. *)
Lemma move_stands : role r' = Candidate →
  (role r = Candidate ∧ currentTerm r' = currentTerm r)
  ∨ (currentTerm r' = currentTerm r + 1 ∧ quiet r r' ∧ dlog r' = log r').
Proof.
  intros Hr. destruct Hmv as [[_ Htr]|[_ []]]; [|congruence].
  destruct Htr as [Hs|????? (r1 & Hs & Hro & Hct)%grants_settles|? ? ? ? ?|? Hro|? Hro Hs|? ? Hs|???? Hs|???? Hs|???? Hro Hs|Hs];
    try congruence; try (right; done); left;
    try (destruct (settles_stands _ _ Hs); [congruence|]; split; congruence);
    try (destruct Hs; split; congruence); (destruct Hs as [[] _ _ _]; split; congruence).
Qed.

Lemma ctip_fresh T : currentTerm r < T → ctip h !! (T, i) = None.
Proof.
  intros HT. destruct (ctip h !! (T, i)) as [y|] eqn:Hy; [|done]. apply (tr_ctip _ Ht) in Hy. lia.
Qed.

Lemma new_ctip T c y : ctip h' !! (T, c) = Some y →
  rooted (born h') y ∧ y.2 < T ∧ T <= currentTerm (rf (peers w' c)).
Proof.
  pose proof move_term as Hterm. intros [Hy|(Hro & [= -> ->] & -> & Hnone)]%ctip_observe.
  - destruct (tr_ctip _ Ht _ _ _ Hy) as (? & ? & ?). split_and!; [|done|].
    + eapply rooted_mono; [apply move_grows|done].
    + rewrite peers_update. case_decide; subst; lia.
  - destruct (move_stands Hro) as [[Hca Heq]|(Heq & Hq & _)].
    { rewrite Heq in Hnone. destruct (tp_stood _ _ _ (tr_peer _ Ht i Hi) Hca) as [? ?]. congruence. }
    destruct (ci_node _ _ Hc i Hi) as (Hwf & _). rewrite (q_log _ _ Hq). split_and!.
    + apply leader_rooted.
    + pose proof (nw_lastTerm _ Hwf). cbn. lia.
    + rewrite peers_update, decide_True by done. lia.
Qed.

Lemma new_elected T c : (T, c) ∈ elected h' → is_Some (ctip h' !! (T, c)).
Proof.
  intros [He|(Hro & -> & ->)]%elected_observe.
  { destruct (tr_elected _ Ht _ _ He) as [y Hy]. exists y. by apply ctip_old. }
  destruct Hmv as [[_ Htr]|[_ []]]; [|congruence].
  destruct (ptrans_leads _ _ _ _ Htr Hro) as [HT Hr]. rewrite HT.
  assert (is_Some (ctip h !! (currentTerm r, i))) as [y Hy]; [|exists y; by apply ctip_old].
  destruct Hr as [Hr|Hr]; [|by apply (tp_stood _ _ _ (tr_peer _ Ht i Hi))].
  apply (tr_elected _ Ht). by apply (vi_leader _ _ (ci_vote _ _ Hc)).
Qed.

(** *** The other peers *)

Lemma old_peer j : 0 <= j < n → j ≠ i → tpeer h' j (rf (peers w j)).
Proof.
  intros Hj Hne. pose proof move_grows as Hg. destruct (tr_peer _ Ht j Hj) as [Hb Hd Hst Hca Hld Hall]. split.
  - eapply rooted_mono; [apply Hg|done].
  - eapply rooted_mono; [apply Hg|done].
  - intros Hr. destruct (Hst Hr) as [y Hy]. exists y. by apply ctip_old.
  - intros Hr Hll. destruct (Hca Hr) as [Hy ?]; [eapply leaderless_mono; [apply Hg|done]|].
    split; [by apply ctip_old|done].
  - intros Hr. destruct (Hld Hr). split; [by eapply lead_pt_mono|done].
  - intros k Hr. destruct move_born as [->|(cmd & Hro & _ & _ & _ & -> & _)]; [by apply Hall|].
    rewrite lookup_insert_is_Some. intros [Heq|[_ Hk]]; [exfalso|].
    + apply Hne. injection Heq as _ HT.
      eapply (elected_unique n w (currentTerm (rf (peers w j)))); [done|apply Hc|by apply (vi_leader _ _ (ci_vote _ _ Hc))|].
      rewrite <- HT. by apply (vi_leader _ _ (ci_vote _ _ Hc)).
    + eapply anc_mono; [|by apply Hall]. destruct move_born as [Heq|(cmd2 & _ & _ & _ & _ & _ & Hf)].
      * apply insert_subseteq. by apply start_fresh.
      * by apply insert_subseteq.
Qed.

(** *** The peer that moves *)

Lemma move_disk : dlog r' = dlog r ∨ dlog r' = log r ∨ dlog r' = log r'.
Proof.
  destruct Hmv as [[_ Htr]|[_ []]]; [|by left].
  destruct Htr as [_ []|????? _ _ _ []|_ _ _ []|_ _ _ _ _ ?|????? ?|???????|???? _ _ []|???? _ _ _ _ _ Hd|???? _ []|[]];
    try tauto; left; by apply dlog_same.
Qed.

Lemma new_base : rooted (born h') (base (log r')).
Proof.
  pose proof move_grows as Hg. destruct (tr_peer _ Ht i Hi) as [Hb Hd _ _ _ _].
  destruct (ci_node _ _ Hc i Hi) as (Hwf & _). pose proof (nw_log _ Hwf) as Hlw.
  assert (base (log r') = base (log r) → rooted (born h') (base (log r'))) as Hsame.
  { intros ->. eapply rooted_mono; [apply Hg|done]. }
  destruct Hmv as [[_ Htr]|[_ Hrs]]; [|rewrite (rs_log _ _ Hrs); eapply rooted_mono; [apply Hg|done]].
  destruct Htr as [_ []|????? _ _ _ []|_ _ _ []|_ _ _ _ Hlog|cmd _ _ Hlog|index e _ _ He Hlog|c ep args Hin _ _ [_ Hres (e0 & He0 & HT0) _ _ _]
    |c ep args Hin _ _ _ Hres Hlt|???? _ []|[]]; try (apply Hsame; congruence).
  - apply Hsame. rewrite Hlog. unfold base. by destruct (firstIdx_app (log r) [MkLogEntry cmd (lastIdx (log r) + 1) (currentTerm r)] (lw_nonempty _ Hlw)) as [-> ->].
  - destruct (drop_to_index _ _ _ Hlw He) as (_ & Hf & Hft & _). unfold base. rewrite Hlog, Hf, Hft.
    eapply anc_rooted; [apply leader_rooted|]. apply anc_old. apply tip_anc; [done|by apply Hl|done].
  - apply Hsame. destruct (ci_task _ _ Hc _ Hin) as (_ & _ & Hae).
    destruct (ae_result_wf _ _ _ _ Hlw Hae He0 HT0 Hres) as (_ & Hf & Hft & _). unfold base. congruence.
  - destruct (is_result_tip (born h) _ _ _ Hlw (lv_log _ _ Hl i Hi) Hlt Hres) as [-> _].
    destruct (tr_task _ Ht _ Hin) as (y & Hy & Ha). eapply rooted_mono; [apply Hg|].
    eapply anc_rooted; [|done]. by eapply lead_pt_rooted.
Qed.

Lemma new_disk : rooted (born h') (base (dlog r')).
Proof.
  pose proof move_grows as Hg. destruct (tr_peer _ Ht i Hi) as [Hb Hd _ _ _ _].
  destruct move_disk as [->|[->| ->]]; [| |apply new_base]; (eapply rooted_mono; [apply Hg|done]).
Qed.

(** In a term without a leader, a candidate's log does not change. *)
Lemma new_cand : role r' = Candidate → leaderless (currentTerm r') h →
  ctip h' !! (currentTerm r', i) = Some (tip (log r')) ∧ tip (dlog r') = tip (log r').
Proof.
  intros Hr Hll. destruct (move_stands Hr) as [[Hca HT]|(HT & Hq & Hd)].
  2: { rewrite Hd. split; [|done]. apply ctip_observe. right. split_and!; try done. apply ctip_fresh. lia. }
  rewrite HT in *. destruct (tp_cand _ _ _ (tr_peer _ Ht i Hi) Hca Hll) as [Hy Hdt].
  assert (tip (log r') = tip (log r) ∧ (dlog r' = dlog r ∨ dlog r' = log r')) as [Htip Hdisk].
  2: { rewrite Htip. split; [by apply ctip_old|]. destruct Hdisk as [->| ->]; congruence. }
  destruct (ci_node _ _ Hc i Hi) as (Hwf & _). rewrite leaderless_spec in Hll.
  destruct Hmv as [[_ Htr]|[_ []]]; [|congruence].
  destruct Htr as [_ []|????? _ _ _ []|Hct|_ Hro|cmd Hro|index e _ _ He Hlog Hd|c ep args Hin _ _ [Hat _ _ _ _ _]
    |c ep args Hin _ _ Hat|???? Hro|[_ Hlog Hp _]]; try congruence; try (split; [congruence|done]); try lia.
  - destruct (drop_to_index _ _ _ (nw_log _ Hwf) He) as (_ & _ & _ & Hi1 & Hi2).
    split; [|by right]. unfold tip. by rewrite Hlog, Hi1, Hi2.
  - destruct (ci_task _ _ Hc _ Hin) as (_ & Hel & _). exfalso. apply (Hll c). congruence.
  - destruct (ci_task _ _ Hc _ Hin) as (_ & Hel & _). exfalso. apply (Hll c). congruence.
  - split; [congruence|]. left. by apply dlog_same.
Qed.

(** A peer that becomes leader is the first of its term. *)
Lemma new_leader_first : role r' = Leader → role r = Candidate → currentTerm r' = currentTerm r →
  leaderless (currentTerm r) h.
Proof.
  intros Hr Hca HT. apply leaderless_spec. intros c Hel.
  assert (c = i) as ->.
  { eapply (elected_unique n w'); [done|apply Hc'|apply elected_observe; by left|].
    apply elected_observe. right. by rewrite HT. }
  by apply (vi_candidate _ _ (ci_vote _ _ Hc) i Hi Hca).
Qed.

Lemma new_lead : role r' = Leader →
  lead_pt h' (currentTerm r') (tip (log r')) ∧ tip (dlog r') = tip (log r')
  ∧ ∀ k, is_Some (born h' !! (k, currentTerm r')) → anc (born h') (tip (log r')) (k, currentTerm r').
Proof.
  intros Hr. pose proof move_grows as Hg. destruct (ci_node _ _ Hc i Hi) as (Hwf & _).
  destruct Hmv as [[_ Htr]|[_ []]]; [|congruence].
  destruct (ptrans_leads _ _ _ _ Htr Hr) as [HT Hrole]. rewrite HT.
  assert (role r = Leader → born h' = born h → tip (log r') = tip (log r) → (dlog r' = dlog r ∨ dlog r' = log r') →
    lead_pt h' (currentTerm r) (tip (log r')) ∧ tip (dlog r') = tip (log r')
    ∧ ∀ k, is_Some (born h' !! (k, currentTerm r)) → anc (born h') (tip (log r')) (k, currentTerm r)) as Hkeep.
  { intros Hro Hb Htip Hd. destruct (tr_peer _ Ht i Hi) as [_ _ _ _ Hld Hall]. destruct (Hld Hro) as [Hpt Hdt].
    rewrite Htip. split_and!; [by eapply lead_pt_mono|destruct Hd as [-> | ->]; congruence|].
    intros k. rewrite Hb. by apply Hall. }
  assert (log r' = log r → born h' = born h) as Hlogb.
  { intros Heq. apply born_known. rewrite Heq. by apply Hl. }
  destruct Htr as [Hs Hq|????? (r1 & Hs & Hro & Hct)%grants_settles _ _ Hq|Hct|Hca _ _ _ Hlog Hd|cmd Hro Hsv Hlog Hd
    |index e Hsv _ He Hlog Hd|c ep args Hin _ Hro|c ep args Hin _ Hro|???? Hro [_ Hlog Hp _]|[Hsv Hlog Hp _]];
    try congruence; try lia.
  - destruct (settles_leads _ _ Hs Hr), Hq. apply Hkeep; [done|auto|congruence|done].
  - destruct (settles_leads _ _ Hs) as [? _]; [congruence|]. destruct Hq. apply Hkeep; [done|auto|congruence|done].
  - pose proof (new_leader_first Hr Hca HT) as Hll.
    destruct (tp_cand _ _ _ (tr_peer _ Ht i Hi) Hca Hll) as [Hy Hdt]. rewrite Hd, Hlogb, Hlog by done. split_and!; [|done|].
    + exists i, (tip (log r)). split_and!; [|by apply ctip_old|by left].
      apply elected_observe. right. by rewrite HT.
    + intros k [[T' cmd] Hk]. apply (tr_born _ Ht) in Hk as (_ & _ & _ & _ & c & y & Hel & _).
      by apply leaderless_spec with (c := c) in Hll.
  - assert (tip (log r') = (lastIdx (log r) + 1, currentTerm r)) as Htip by (rewrite Hlog; apply tip_snoc).
    pose proof (start_born w i r' cmd (nw_log _ Hwf) Hro Hsv Hlog) as Hb.
    rewrite Hd, Htip. split_and!; [|done|].
    + pose proof (tp_lead _ _ _ (tr_peer _ Ht i Hi) Hro) as [(c & y & Hel & Hy & _) _].
      exists c, y. split_and!; [apply elected_observe; by left|by apply ctip_old|right].
      split; [done|]. rewrite Hb. by rewrite lookup_insert_eq.
    + intros k Hk. apply new_term; [done|rewrite Hb; by rewrite lookup_insert_eq|].
      rewrite Hb in Hk. apply lookup_insert_is_Some in Hk as [[= <-]|[_ Hk]]; [lia|].
      pose proof (tp_all _ _ _ (tr_peer _ Ht i Hi) k Hro Hk) as Ha%anc_index. cbn in Ha. lia.
  - destruct Hsv. destruct (drop_to_index _ _ _ (nw_log _ Hwf) He) as (_ & _ & _ & Hi1 & Hi2).
    apply Hkeep; [congruence| | |by right].
    + apply born_known. rewrite Hlog. by apply pairs_ok_drop, Hl.
    + unfold tip. by rewrite Hlog, Hi1, Hi2.
  - apply Hkeep; [done|auto|congruence|left; by apply dlog_same].
  - destruct Hsv. apply Hkeep; [congruence|auto|congruence|left; by apply dlog_same].
Qed.

Lemma new_peer : tpeer h' i r'.
Proof.
  split.
  - apply new_base.
  - apply new_disk.
  - intros Hr. destruct (move_stands Hr) as [[Hca HT]|(HT & Hq & Hd)].
    + rewrite HT. destruct (tp_stood _ _ _ (tr_peer _ Ht i Hi) Hca) as [y Hy]. exists y. by apply ctip_old.
    + exists (tip (log r')). apply ctip_observe. right. split_and!; try done. apply ctip_fresh. lia.
  - intros Hr Hll. apply new_cand; [done|]. eapply leaderless_mono; [apply move_grows|done].
  - intros Hr. by destruct (new_lead Hr) as (? & ? & _).
  - intros k Hr. by apply (new_lead Hr).
Qed.

(** *** Tasks *)

Lemma old_task t : t ∈ tasks w → ttask w' t.
Proof.
  intros Hin. pose proof (tr_task _ Ht _ Hin) as Htk. pose proof move_grows as Hg.
  destruct t as [c s ep a args|c s ep a args reply|c s ep T|c s ep args|c s ep args reply|c s ep args|c s ep args reply];
    cbn [ttask] in *.
  - by apply ctip_old.
  - by apply ctip_old.
  - destruct Htk as [Hle Hld]. rewrite peers_update. case_decide as Heq; [subst c|done].
    destruct Hmv as [[-> Htr]|[-> _]]; [|split; lia]. split; [done|]. intros -> HT.
    destruct (ci_task _ _ Hc _ Hin) as [_ Hel].
    destruct (vi_elected _ _ (ci_vote _ _ Hc) _ _ Hel) as (_ & HTle & _). pose proof move_term.
    eapply ptrans_stays; [exact Htr|apply Hld; [done|lia]|lia].
  - destruct Htk. split; [done|by eapply lead_pt_mono].
  - destruct Htk. split; [done|by eapply lead_pt_mono].
  - destruct Htk as (y & Hy & Ha). exists y. split; [by eapply lead_pt_mono|by apply anc_old].
  - destruct Htk as (y & Hy & Ha). exists y. split; [by eapply lead_pt_mono|by apply anc_old].
Qed.

(** The sender of a message is a leader with the message's term. *)
Lemma sender_leads c s ep : TStartAppend c s ep (currentTerm (rf (peers w c))) ∈ tasks w →
  ep = epoch (peers w c) → role (rf (peers w c)) = Leader.
Proof. intros Hin Hep. destruct (tr_task _ Ht _ Hin) as [_ Hld]. by apply Hld. Qed.

Lemma new_task_ok t : new_task w i (peers w i) p t → ttask w' t.
Proof.
  intros Hnew. pose proof move_grows as Hg. destruct (ci_node _ _ Hc i Hi) as (Hwf & _).
  destruct t as [c s ep a args|c s ep a args reply|c s ep T|c s ep args|c s ep args reply|c s ep args|c s ep args reply];
    cbn [new_task] in Hnew.
  - destruct Hnew as (-> & Hr & HT & HT' & Htip). cbn. rewrite HT, Htip. apply ctip_observe. right.
    split_and!; try done. apply ctip_fresh. lia.
  - apply (old_task _ Hnew).
  - destruct Hnew as (-> & -> & Hr & HT). cbn [ttask]. rewrite peers_update, decide_True by done. done.
  - destruct Hnew as (-> & _ & -> & Hin & Hargs). pose proof (sender_leads _ _ _ Hin eq_refl) as Hr.
    destruct (mtip_make _ _ _ Hwf Hargs) as [Hm Hpos]. cbn [ttask]. split; [done|]. rewrite Hm.
    destruct (makeAppendArgsL_spec _ _ _ Hwf Hargs) as (_ & -> & _).
    eapply lead_pt_mono; [exact Hg|]. by apply (tp_lead _ _ _ (tr_peer _ Ht i Hi)).
  - destruct Hnew as (-> & Hin & _). apply (old_task _ Hin).
  - destruct Hnew as (-> & _ & -> & Hin & ->). pose proof (sender_leads _ _ _ Hin eq_refl) as Hr.
    cbn [ttask]. exists (tip (log r)). split.
    + eapply lead_pt_mono; [exact Hg|]. by apply (tp_lead _ _ _ (tr_peer _ Ht i Hi)).
    + apply anc_old. destruct (nw_snap _ Hwf) as [HI HT]. unfold snap_pt; cbn. rewrite HI, HT.
      apply tip_anc_base; [apply Hwf|by apply Hl].
  - destruct Hnew as (-> & Hin). apply (old_task _ Hin).
Qed.

Lemma tree_inv_move : (∀ t, t ∈ ts → t ∈ tasks w ∨ new_task w i (peers w i) p t) → tree_inv w'.
Proof.
  intros Hts. split.
  - apply new_born.
  - apply new_term.
  - apply new_ctip.
  - apply new_elected.
  - intros j Hj. rewrite peers_update. case_decide as Hd; [subst j; apply new_peer|apply old_peer; [done|congruence]].
  - intros t Hin. destruct (Hts t Hin); [by apply old_task|by apply new_task_ok].
Qed.
End preserve.

Lemma tree_inv_init envs : tree_inv (init n envs).
Proof.
  split; cbn; try done; [by intros k k' T [v ?]| |by intros t ?%elem_of_nil].
  intros i Hi. split; cbn; try done; apply anc_refl.
Qed.

Lemma tree_inv_drop w k : tree_inv w → tree_inv (MkCluster (peers w) (delete k (tasks w)) (hist w)).
Proof. intros []. split; cbn; try done. intros t ?%elem_of_delete. by apply tr_task0. Qed.
End ancestry.

(** ** Runs *)

Section runs.
Context {C : Type} `{!GobCodec (PState C), !GobLaws (PState C)}.
Context (n : Z).
Implicit Types (w : Cluster C).

(** A step in which the service, if it takes a snapshot, takes one of entries
    that were delivered to it. *)
Definition dstep w w' : Prop := ∃ act, disciplined w act ∧ exec n act w = Some w'.

Definition dreachable w : Prop := ∃ envs, rtc dstep (init n envs) w.

Lemma dstep_step w w' : dstep w w' → step n w w'.
Proof. intros (act & _ & H). by exists act. Qed.

Lemma dreachable_reachable w : dreachable w → reachable n w.
Proof. intros [envs H]. exists envs. eapply rtc_subrel; [|exact H]. apply dstep_step. Qed.

Lemma dreachable_step w w' : dreachable w → dstep w w' → dreachable w'.
Proof. intros [envs H] Hs. exists envs. by eapply rtc_r. Qed.

Record basic_inv w : Prop := {
  bi_cluster : cluster_inv n w;
  bi_log : log_inv n w;
  bi_tree : tree_inv n w;
}.

Lemma basic_inv_init envs : basic_inv (init n envs).
Proof. split; [apply inv_init|apply log_inv_init|apply tree_inv_init]. Qed.

Lemma basic_inv_step w w' :
  0 <= n → basic_inv w → dstep w w' →
  basic_inv w' ∧ ((∃ k, w' = MkCluster (peers w) (delete k (tasks w)) (hist w)) ∨ moves n w w').
Proof.
  intros Hn [Hc Hl Ht] (act & Hd & Hx). pose proof (inv_exec n _ _ _ Hc Hx) as Hc'.
  pose proof (log_inv_exec n _ _ _ Hn Hc Hl Hx) as Hl'. pose proof (exec_trans n _ _ _ Hn Hc Hd Hx) as Hm.
  split; [|done]. split; [done|done|].
  destruct Hm as [[k ->]|(i & p & ts & Hi & -> & Hmv & Hts)]; [by apply tree_inv_drop|by apply tree_inv_move].
Qed.
End runs.
