(* ===== verification/RaftCompleteness.v ===== *)
(** * Leader completeness

    An entry is [chosen] when half of the peers, or more, have had it on disk in
    its own term.  Half of the peers meet every majority that elects a leader, so
    every leader of a later term has the entry in its log.

    The invariant [ack_inv] follows the argument: a peer that has had an entry
    on disk in the entry's term keeps it until it hears from the leader of a
    later term that lacks it, and a peer that votes for a candidate of a later
    term that has no leader yet either finds the entry in the candidate's log or
    knows of such a leader.  The first later leader that lacks a chosen entry is
    then a contradiction. *)

From S2P Require Import Prelude Util Labgob RaftState RaftHandlers RaftLeader RaftNode RaftRecv RaftSend RaftCluster RaftElection RaftClusterInv RaftLogMatching RaftSteps RaftSafety RaftTree RaftTrans RaftAncestry.

Section completeness.
Context {C : Type} `{!GobCodec (PState C), !GobLaws (PState C)}.
Context (n : Z).
Implicit Types (w : Cluster C) (r : Raft C) (p : Peer C) (h : History C) (e x y z : Z * Z).

(** The leader of [T] stood for election without the entry [e]. *)
Definition lacks h e (T : Z) : Prop := ∃ c y,
  (T, c) ∈ elected h ∧ ctip h !! (T, c) = Some y ∧ ¬ anc (born h) y e.

(** The path of [y] has [e], or a leader after [e] and before [U] lacks it. *)
Definition keeps h y e (U : Z) : Prop :=
  anc (born h) y e ∨ ∃ T, e.2 < T < U ∧ lacks h e T.

Record ack_inv w : Prop := {
  ak_seen T v x : (T, v, x) ∈ seen (hist w) →
    0 <= v < n ∧ T <= currentTerm (rf (peers w v)) ∧ rooted (born (hist w)) x;
  ak_kept T v x N y : (T, v, x) ∈ seen (hist w) → anc (born (hist w)) x (N, T) →
    let r := rf (peers w v) in y = tip (log r) ∨ y = tip (dlog r) →
    keeps (hist w) y (N, T) (currentTerm r + 1);
  ak_sync v N : 0 <= v < n → let r := rf (peers w v) in
    anc (born (hist w)) (tip (dlog r)) (N, currentTerm r) →
    anc (born (hist w)) (tip (log r)) (N, currentTerm r);
  ak_early T v a : (T, v, a) ∈ early (hist w) →
    0 <= v < n ∧ T <= currentTerm (rf (peers w v)) ∧ is_Some (ctip (hist w) !! (T, a));
  ak_vote T v a y t x N : (T, v, a) ∈ early (hist w) → ctip (hist w) !! (T, a) = Some y →
    (t, v, x) ∈ seen (hist w) → t < T → anc (born (hist w)) x (N, t) → keeps (hist w) y (N, t) T;
  ak_cast T v a : (T, v, a) ∈ cast (hist w) → leaderless T (hist w) → (T, v, a) ∈ early (hist w);
  ak_quorum T c : (T, c) ∈ elected (hist w) →
    ∃ Q, majority n Q ∧ ∀ v, v ∈ Q → (T, v, c) ∈ early (hist w);
  ak_lead i : 0 <= i < n → let r := rf (peers w i) in
    role r = Leader → (currentTerm r, i, tip (log r)) ∈ seen (hist w);
}.

Lemma anc_dec (b : gmap (Z * Z) (Z * option C)) y e : rooted b y → anc b y e ∨ ¬ anc b y e.
Proof.
  intros Hr. destruct e as [N t]. destruct (decide (0 <= N <= y.1)) as [Hin|Hout].
  - destruct (anc_at b y N Hr Hin) as [t' Ht']. destruct (decide (t' = t)) as [->|Hne]; [by left|right].
    intros Ha. pose proof (anc_unique _ _ _ _ Ha Ht' eq_refl). congruence.
  - right. intros Ha. pose proof (anc_index _ _ _ Ha). pose proof (anc_nonneg _ _ _ (rooted_index _ _ Hr) Ha).
    cbn in *. lia.
Qed.

Lemma lacks_mono w h' e T : tree_inv n w → hgrows (hist w) h' → lacks (hist w) e T → lacks h' e T.
Proof.
  intros Ht [He Hb Hct _ _] (c & y & Hel & Hy & Hna). exists c, y. split_and!; [by apply He|by eapply lookup_weaken|].
  intros Ha. apply Hna. eapply anc_back; [exact Hb| |done]. by apply (tr_ctip _ _ Ht) in Hy as [? _].
Qed.

Lemma keeps_mono w h' y e U U' :
  tree_inv n w → hgrows (hist w) h' → U <= U' → keeps (hist w) y e U → keeps h' y e U'.
Proof.
  intros Ht Hg HU [Ha|(T & HT & Hla)]; [left; eapply anc_mono; [apply Hg|done]|right].
  exists T. split; [lia|by eapply lacks_mono].
Qed.

Lemma keeps_anc h y y' e U : anc (born h) y' y → keeps h y e U → keeps h y' e U.
Proof. intros Ha [?|?]; [left; by etrans|by right]. Qed.

(** ** Preservation *)

Section preserve.
#[local] Set Default Proof Using "All".
Context (w : Cluster C) (i : Z) (p : Peer C) (ts : list (Task C)).
Local Abbreviation w' := (update w i p ts).
Local Abbreviation r := (rf (peers w i)).
Local Abbreviation r' := (rf p).
Local Abbreviation h := (hist w).
Local Abbreviation h' := (observe i (rf p) (hist w)).
Context (Hn : 0 <= n) (Hi : 0 <= i < n) (Hb : basic_inv n w) (Hb' : basic_inv n w') (Hk : ack_inv w).
Context (Hmv : epoch p = epoch (peers w i) ∧ ptrans w i r r'
               ∨ epoch p = S (epoch (peers w i)) ∧ restarts r r').

Let Hc := bi_cluster _ _ Hb.
Let Hl := bi_log _ _ Hb.
Let Ht := bi_tree _ _ Hb.
Let Hc' := bi_cluster _ _ Hb'.
Let Hl' := bi_log _ _ Hb'.
Let Ht' := bi_tree _ _ Hb'.

Lemma ak_grows : hgrows h h'.
Proof. exact (move_grows n w i p ts Hn Hi Hc Hl Ht Hc' Hl' Hmv). Qed.

Lemma ak_term : currentTerm r <= currentTerm r'.
Proof. exact (move_term n w i p ts Hn Hi Hc Hl Ht Hc' Hl' Hmv). Qed.

Lemma tip_term : (tip (log r)).2 <= currentTerm r.
Proof. destruct (ci_node _ _ Hc i Hi) as (Hwf & _). apply Hwf. Qed.

(** The message of the leader of [T] replaces a log: what the log loses, the
    leader lacked. *)
Lemma replaced_keeps T y z e :
  lead_pt h T z → anc (born h) z y → ¬ anc (born h) (tip (log r)) y →
  anc (born h) (tip (log r)) e → e.2 <= T → keeps h y e (T + 1).
Proof.
  intros Hz Hzy Hno He HeT. pose proof (lead_pt_rooted n w Ht T z Hz) as Hzr.
  pose proof (log_rooted n w Hc Hl Ht i Hi) as Hrr.
  destruct (anc_dec (born h) y e) as [Ha|Hna]; [eapply anc_rooted; [exact Hzr|exact Hzy]|by left|].
  assert (¬ anc (born h) z e) as Hnz.
  { intros Hze. destruct (Z.le_gt_cases e.1 y.1).
    - apply Hna. eapply anc_linear; [exact Hzy|exact Hze|done].
    - apply Hno. etrans; [exact He|]. eapply anc_linear; [exact Hze|exact Hzy|lia]. }
  destruct (Z.eq_dec e.2 T) as [HT|HT].
  - exfalso. assert (rooted (born h) e) as Her by by eapply anc_rooted.
    destruct (rooted_cases w e Her) as [->|Hbe].
    { apply Hnz. exact Hzr. }
    destruct e as [N T0]; cbn in HT; subst T0.
    pose proof (born_lead_pt n w Ht _ _ Hbe) as Hlp.
    destruct (Z.le_gt_cases N z.1).
    + apply Hnz. by apply (lead_pt_chain n w Hn Hc Ht T).
    + apply Hno. etrans; [exact He|]. etrans; [|exact Hzy]. apply (lead_pt_chain n w Hn Hc Ht T); [done|done|cbn; lia].
  - right. pose proof Hz as (c & y0 & Hel & Hy0 & _). exists T. split; [lia|]. exists c, y0. split_and!; [done|done|].
    intros Ha. apply Hnz. etrans; [|exact Ha]. by eapply (lead_pt_ctip n w).
Qed.

(** What a step does to an entry of the log. *)
Lemma log_keeps e : ptrans w i r r' → anc (born h) (tip (log r)) e →
  keeps h' (tip (log r')) e (currentTerm r' + 1).
Proof.
  intros Htr He. pose proof ak_grows as Hg. pose proof (anc_term n w Ht _ _ He) as HeT.
  pose proof tip_term. pose proof ak_term. destruct (ci_node _ _ Hc i Hi) as (Hwf & _).
  assert (anc (born h') (tip (log r)) e) as He' by (eapply anc_mono; [apply Hg|done]).
  destruct Htr as [_ []|????? _ _ _ []|_ _ _ []|_ _ _ _ Hlog|cmd Hro Hsv Hlog|index e0 _ _ He0 Hlog
    |c ep args Hin _ _ [HT Hres (e0 & He0 & HT0) _ _ _]|c ep args Hin _ _ HT Hres Hlt|???? _ []|[]];
    try (left; congruence).
  - left. rewrite Hlog. unfold tip at 1, lastIdx at 1, lastTerm at 1. rewrite last_snoc. cbn.
    eapply anc_step; [|rewrite (start_born w i r' cmd) by (apply Hwf || done); by rewrite lookup_insert_eq|].
    + pose proof (lastIdx_nonneg n w i p ts Hn Hi Hc Hl Ht Hc' Hl' Hmv). lia.
    + replace (lastIdx (log r) + 1 - 1) with (lastIdx (log r)) by lia. exact He'.
  - destruct (drop_to_index _ _ _ (nw_log _ Hwf) He0) as (_ & _ & _ & Hi1 & Hi2).
    left. unfold tip. rewrite Hlog, Hi1, Hi2. exact He'.
  - destruct (ci_task _ _ Hc _ Hin) as (_ & _ & Hae). destruct (tr_task _ _ Ht _ Hin) as [Hpos Hlp].
    destruct (ae_result_tip (born h) _ _ _ _ (nw_log _ Hwf) Hae Hpos (lv_log _ _ Hl i Hi) (lv_msg _ _ Hl _ Hin) He0 HT0 Hres)
      as [[-> _]|[-> Hno]]; [by left|].
    eapply keeps_mono; [exact Ht|exact Hg|reflexivity|]. rewrite <- HT.
    eapply (replaced_keeps (ae_Term args)); try done. lia.
  - destruct (tr_task _ _ Ht _ Hin) as (z & Hz & Hzy).
    destruct (is_result_tip (born h) _ _ _ (nw_log _ Hwf) (lv_log _ _ Hl i Hi) Hlt Hres) as [_ [[-> _]|[-> Hno]]]; [by left|].
    eapply keeps_mono; [exact Ht|exact Hg|reflexivity|]. rewrite <- HT.
    eapply (replaced_keeps (is_Term args)); try done. lia.
Qed.

(** *** Entries on disk *)

Lemma ak_old y e U U' : U <= U' → keeps h y e U → keeps h' y e U'.
Proof. intros. eapply keeps_mono; [exact Ht|apply ak_grows|done|done]. Qed.

Lemma ak_back x e : rooted (born h) x → anc (born h') x e → anc (born h) x e.
Proof. apply anc_back, ak_grows. Qed.

Lemma ak_disk : dlog r' = dlog r ∨ dlog r' = log r ∨ dlog r' = log r'.
Proof. exact (move_disk n w i p ts Hn Hi Hc Hl Ht Hc' Hl' Hmv). Qed.

Lemma new_sync N : anc (born h') (tip (dlog r')) (N, currentTerm r') →
  anc (born h') (tip (log r')) (N, currentTerm r').
Proof.
  intros Ha. pose proof ak_term as HT. pose proof tip_term as Htt. pose proof ak_grows as Hg.
  destruct (ci_node _ _ Hc i Hi) as (Hwf & _).
  destruct Hmv as [[_ Htr]|[_ Hrs]]; [|by rewrite (rs_log _ _ Hrs), <- (rs_disk _ _ Hrs)].
  assert (∀ e, e.2 = currentTerm r' → keeps h' (tip (log r')) e (currentTerm r' + 1) → anc (born h') (tip (log r')) e) as Hcur.
  { intros e Heq [?|(T & ? & _)]; [done|lia]. }
  destruct ak_disk as [Hd|[Hd|Hd]]; rewrite Hd in Ha; [| |done].
  - apply ak_back in Ha; [|by apply (disk_rooted n w Hc Hl Ht)].
    assert (currentTerm r' = currentTerm r) as Heq.
    { apply (anc_term n w Ht) in Ha as Hle. cbn in Hle.
      destruct (nw_disk _ Hwf) as [(Hd0 & Hz & _)|(l & Hl0 & _ & Hlt)].
      - unfold dlog, lastTerm in Hle. rewrite Hd0 in Hle. cbn in Hle. lia.
      - rewrite (dlog_on_disk _ _ Hl0) in Hle. lia. }
    apply Hcur; [done|]. apply log_keeps; [done|]. rewrite Heq in *. by apply (ak_sync _ Hk i).
  - apply ak_back in Ha; [|by apply (log_rooted n w Hc Hl Ht)]. apply Hcur; [done|]. by apply log_keeps.
Qed.

Lemma new_kept T v x N y : (T, v, x) ∈ seen h' → anc (born h') x (N, T) →
  let r0 := rf (peers w' v) in y = tip (log r0) ∨ y = tip (dlog r0) →
  keeps h' y (N, T) (currentTerm r0 + 1).
Proof.
  pose proof ak_term as Hterm. rewrite peers_update.
  intros [Hs|(-> & -> & ->)]%seen_observe Ha; cbn.
  - destruct (ak_seen _ Hk _ _ _ Hs) as (Hv & HTv & Hr). apply (ak_back x) in Ha; [|done].
    case_decide as Hd; [subst v|]; intros Hy.
    2: { eapply ak_old; [|by eapply (ak_kept _ Hk)]. done. }
    assert (∀ y, y = tip (log r) ∨ y = tip (dlog r) → keeps h' y (N, T) (currentTerm r' + 1)) as Hold.
    { intros y0 Hy0. eapply ak_old; [|by eapply (ak_kept _ Hk)]. lia. }
    assert (keeps h' (tip (log r')) (N, T) (currentTerm r' + 1)) as Hnew.
    { destruct Hmv as [[_ Htr]|[_ Hrs]]; [|rewrite (rs_log _ _ Hrs); auto].
      destruct (ak_kept _ Hk T i x N (tip (log r)) Hs Ha ltac:(by left)) as [Hin|(U & HU & Hla)].
      - by apply log_keeps.
      - right. exists U. split; [lia|]. eapply lacks_mono; [exact Ht|apply ak_grows|done]. }
    destruct Hy as [->| ->]; [done|]. destruct ak_disk as [->|[->| ->]]; auto.
  - rewrite decide_True by done. intros [->| ->]; [left|by left]. by apply new_sync.
Qed.

(** *** Votes *)

(** A log that is at least as up to date as the voter's has the voter's
    entries, or the leader of its last entry's term lacked them. *)
Lemma up_to_date_keeps args lst e T :
  lastLogL r = Some lst → upToDate lst args = true → let y := (rv_LastLogIndex args, rv_LastLogTerm args) in
  rooted (born h) y → y.2 < T → anc (born h) (tip (log r)) e → keeps h y e T.
Proof.
  intros Hlst Hup y Hy HyT He. destruct (ci_node _ _ Hc i Hi) as (Hwf & _).
  destruct (lastLogL_spec _ (nw_log _ Hwf)) as (lst' & Hlst' & HI & HTm). rewrite Hlst in Hlst'. injection Hlst' as <-.
  assert (tip (log r) = (Index lst, Term lst)) as Htip by (unfold tip; congruence). rewrite Htip in He.
  pose proof (log_rooted n w Hc Hl Ht i Hi) as Hr. rewrite Htip in Hr.
  pose proof (rooted_term n w Ht _ Hr) as Hpos. cbn in Hpos.
  unfold upToDate in Hup. apply orb_true_iff in Hup as [Hgt|Heq]; bools.
  - destruct (rooted_cases w y Hy) as [Hz|[[T' cmd] Hb0]]; [injection Hz as _ Hz; lia|].
    destruct (tr_born _ _ Ht _ _ _ _ Hb0) as (_ & _ & _ & _ & c & y2 & Hel & Hy2 & Ha).
    destruct (tr_ctip _ _ Ht _ _ _ Hy2) as (Hr2 & _).
    destruct (anc_dec (born h) y2 e Hr2) as [Hin|Hna]; [left; by etrans|right].
    pose proof (anc_term n w Ht _ _ He) as HeT. cbn in HeT, HyT.
    exists (rv_LastLogTerm args). split; [lia|]. exists c, y2. done.
  - left. etrans; [|exact He]. unfold y. rewrite H in *.
    destruct (rooted_cases w _ Hr) as [Hz|Hb0]; [rewrite Hz; injection Hz as _ Hz2|].
    + unfold y in Hy. by rewrite H in Hy.
    + destruct (rooted_cases w _ Hy) as [Hz|Hb1]; [|unfold y in Hb1; rewrite H in Hb1; by apply (tr_term _ _ Ht)].
      exfalso. destruct Hb0 as [[T' cmd] Hb0]. apply (tr_born _ _ Ht) in Hb0. unfold y in Hz. injection Hz as _ Hz. lia.
Qed.

(** The votes that a step adds to [early]. *)
Lemma early_new T v a : (T, v, a) ∈ early h' → (T, v, a) ∈ early h
  ∨ (v = i ∧ T = currentTerm r' ∧ leaderless T h
     ∧ ∃ y, ctip h' !! (T, a) = Some y
       ∧ ∀ e, anc (born h) (tip (log r)) e → keeps h' y e T).
Proof.
  pose proof ak_grows as Hg. pose proof ak_term as Hterm.
  intros [?|(Hna & Hll & -> & -> & ->)]%early_observe; [by left|].
  assert (currentTerm r' = currentTerm r → votedFor r' = votedFor r → (currentTerm r', i, votedFor r') ∈ early h) as Hsame.
  { intros HT Hv. apply (ak_cast _ Hk); [|done]. rewrite HT, Hv. apply (vi_current _ _ (ci_vote _ _ Hc) i Hi). congruence. }
  assert (settles r r' → (currentTerm r', i, votedFor r') ∈ early h) as Hset.
  { intros [[]|[]]; [by apply Hsame|congruence]. }
  destruct Hmv as [[_ Htr]|[_ []]]; [|by left; apply Hsame].
  destruct Htr as [Hs _|ep a args lst Hin Hgr Hlst Hup Hq|HT Hv Hro Hq Hd|? ? ? ?|? ? []|? ? []|c ep args _ Hs|c ep args _ Hs|???? _ [[]]|[[]]];
    try (left; by auto); right; split_and!; try done.
  - destruct Hgr as (r1 & _ & _ & _ & _ & _ & HT & _ & Hvf). rewrite HT, Hvf.
    pose proof (tr_task _ _ Ht _ Hin) as Hy. cbn in Hy.
    eexists. split; [eapply lookup_weaken; [exact Hy|apply Hg]|].
    intros e He. destruct (tr_ctip _ _ Ht _ _ _ Hy) as (Hyr & HyT & _).
    eapply keeps_mono; [exact Ht|exact Hg|reflexivity|]. by eapply up_to_date_keeps.
  - rewrite Hv. exists (tip (log r')). split.
    + apply ctip_observe. right. split_and!; try done.
      apply (ctip_fresh n w i p ts Hn Hi Hc Hl Ht Hc' Hl' Hmv). lia.
    + intros e He. left. rewrite (q_log _ _ Hq). eapply anc_mono; [apply Hg|done].
Qed.

Lemma new_early T v a : (T, v, a) ∈ early h' →
  0 <= v < n ∧ T <= currentTerm (rf (peers w' v)) ∧ is_Some (ctip h' !! (T, a)).
Proof.
  pose proof ak_term as Hterm. rewrite peers_update.
  intros [Ho|(-> & -> & _ & y & Hy & _)]%early_new.
  - destruct (ak_early _ Hk _ _ _ Ho) as (Hv & HT & y & Hy). split_and!; try lia.
    + case_decide; subst; lia.
    + exists y. eapply lookup_weaken; [exact Hy|apply ak_grows].
  - rewrite decide_True by done. split_and!; try lia. by exists y.
Qed.

Lemma new_vote T v a y t x N : (T, v, a) ∈ early h' → ctip h' !! (T, a) = Some y →
  (t, v, x) ∈ seen h' → t < T → anc (born h') x (N, t) → keeps h' y (N, t) T.
Proof.
  pose proof ak_grows as Hg. intros He Hy Hs Ht0 Ha.
  destruct (new_early _ _ _ He) as (_ & HTv & _).
  apply seen_observe in Hs as [Hs|(-> & -> & ->)].
  2: { rewrite peers_update, decide_True in HTv by done. lia. }
  destruct (ak_seen _ Hk _ _ _ Hs) as (Hv & _ & Hr). apply (ak_back x) in Ha; [|done].
  apply early_new in He as [He|(-> & -> & Hll & y0 & Hy0 & Hkeep)].
  - destruct (ak_early _ Hk _ _ _ He) as (_ & _ & y1 & Hy1).
    assert (y1 = y) as ->.
    { pose proof (lookup_weaken _ _ _ _ Hy1 (hg_ctip _ _ Hg)). congruence. }
    eapply ak_old; [|by eapply (ak_vote _ Hk)]. done.
  - assert (y0 = y) as -> by congruence.
    destruct (ak_kept _ Hk t i x N (tip (log r)) Hs Ha ltac:(by left)) as [Hin|(U & HU & Hla)]; [by apply Hkeep|].
    right. pose proof ak_term. exists U. split; [|eapply lacks_mono; [exact Ht|exact Hg|done]].
    cbn in HU |- *. assert (U ≠ currentTerm r'); [|lia]. intros ->.
    destruct Hla as (c & _ & Hel & _). by apply leaderless_spec with (c := c) in Hll.
Qed.

Lemma new_cast T v a : (T, v, a) ∈ cast h' → leaderless T h' → (T, v, a) ∈ early h'.
Proof.
  intros Hca Hll. apply (leaderless_mono _ h) in Hll; [|apply ak_grows]. apply early_observe.
  apply cast_observe in Hca as [?|(? & -> & -> & ->)]; [left; by apply (ak_cast _ Hk)|by right].
Qed.

Lemma new_quorum T c : (T, c) ∈ elected h' → ∃ Q, majority n Q ∧ ∀ v, v ∈ Q → (T, v, c) ∈ early h'.
Proof.
  intros Hel'. assert ((T, c) ∈ elected h → ∃ Q, majority n Q ∧ ∀ v, v ∈ Q → (T, v, c) ∈ early h') as Hold.
  { intros (Q & HQ & Hv)%(ak_quorum _ Hk). exists Q. split; [done|]. intros v ?. by apply (hg_early _ _ ak_grows), Hv. }
  pose proof Hel' as [Hel|(Hro & -> & ->)]%elected_observe; [by apply Hold|].
  destruct Hmv as [[_ Htr]|[_ []]]; [|congruence].
  destruct (ptrans_leads _ _ _ _ Htr Hro) as [HT [Hr|Hr]].
  { apply Hold. rewrite HT. by apply (vi_leader _ _ (ci_vote _ _ Hc)). }
  pose proof (new_leader_first n w i p ts Hn Hi Hc Hl Ht Hc' Hl' Hmv Hro Hr HT) as Hll. rewrite <- HT in Hll.
  destruct (vi_elected _ _ (ci_vote _ _ Hc') _ _ Hel') as (_ & _ & Q & HQ & Hv).
  exists Q. split; [done|]. intros v Hin. apply early_observe.
  apply Hv, cast_observe in Hin as [?|(? & ? & -> & ->)]; [left; by apply (ak_cast _ Hk)|by right].
Qed.

Lemma ack_inv_move : ack_inv w'.
Proof.
  pose proof ak_grows as Hg. pose proof ak_term as Hterm. split.
  - intros T v x [Hs|(-> & -> & ->)]%seen_observe; rewrite peers_update.
    + destruct (ak_seen _ Hk _ _ _ Hs) as (? & ? & ?). split_and!; try lia; [case_decide; subst; lia|].
      eapply rooted_mono; [apply Hg|done].
    + rewrite decide_True by done. split_and!; try lia.
      pose proof (disk_rooted n w' Hc' Hl' Ht' i Hi) as Hd. by rewrite peers_update, decide_True in Hd.
  - apply new_kept.
  - intros v N Hv. rewrite peers_update. case_decide as Hd; [apply new_sync|]. cbn. intros Ha.
    apply ak_back in Ha; [|by apply (disk_rooted n w Hc Hl Ht)].
    eapply anc_mono; [apply Hg|]. by apply (ak_sync _ Hk).
  - apply new_early.
  - apply new_vote.
  - apply new_cast.
  - apply new_quorum.
  - intros j Hj. rewrite peers_update. case_decide as Hd; [subst j|]; cbn; intros Hr.
    + apply seen_observe. right. split_and!; try done.
      by destruct (new_lead n w i p ts Hn Hi Hc Hl Ht Hc' Hl' Hmv Hr) as (_ & ? & _).
    + apply (hg_seen _ _ Hg). by apply (ak_lead _ Hk).
Qed.
End preserve.

Lemma ack_inv_init envs : ack_inv (init n envs).
Proof. split; cbn; try done; set_solver. Qed.

Lemma ack_inv_drop w k : ack_inv w → ack_inv (MkCluster (peers w) (delete k (tasks w)) (hist w)).
Proof. intros []. by split. Qed.

(** ** The theorem *)

(** Half of the peers have had the entry on disk in its term. *)
Definition chosen h (N t : Z) : Prop := ∃ P,
  NoDup P ∧ (∀ v, v ∈ P → 0 <= v < n) ∧ n <= 2 * Z.of_nat (length P)
  ∧ ∀ v, v ∈ P → ∃ x, (t, v, x) ∈ seen h ∧ anc (born h) x (N, t).

Lemma chosen_mono h h' N t : hgrows h h' → chosen h N t → chosen h' N t.
Proof.
  intros Hg (P & Hd & Hr & Hlen & HP). exists P. split_and!; try done. intros v Hv.
  destruct (HP v Hv) as (x & Hx & Ha). exists x. split; [by apply (hg_seen _ _ Hg)|eapply anc_mono; [apply Hg|done]].
Qed.

Lemma chosen_complete w N t T c y :
  0 <= n → tree_inv n w → ack_inv w → chosen (hist w) N t →
  (T, c) ∈ elected (hist w) → ctip (hist w) !! (T, c) = Some y → t < T →
  anc (born (hist w)) y (N, t).
Proof.
  intros Hn Ht Hk Hch Hel Hy HtT. remember (Z.to_nat (T - t)) as d eqn:Hd. revert T c y Hd Hel Hy HtT.
  induction d as [d IH] using lt_wf_ind. intros T c y -> Hel Hy HtT.
  destruct Hch as (P & HPd & HPr & HPl & HP). destruct (ak_quorum _ Hk _ _ Hel) as (Q & HQ & Hvote).
  destruct (half_meets_majority n P Q) as (v & HvQ & HvP); [done|done|done|done|].
  destruct (HP v HvP) as (x & Hx & Ha).
  destruct (ak_vote _ Hk _ _ _ _ _ _ _ (Hvote v HvQ) Hy Hx HtT Ha) as [?|(U & HU & c' & y' & Hel' & Hy' & Hna)]; [done|].
  exfalso. cbn in HU. apply Hna. eapply (IH (Z.to_nat (U - t))); [lia|done|done|done|lia].
Qed.
End completeness.
