(* ===== verification/RaftStore.v ===== *)
(** * Snapshots in the memory, on the disk and in the messages of a cluster

    What one step of the cluster does to the snapshot of a peer, in memory and on
    disk, to the position of its applier, and to the tree of entries.  Raft does
    not look into the data of a snapshot; the file follows it from the service
    that took it to the service that loads it. *)

From S2P Require Import Prelude Util Labgob RaftState RaftHandlers RaftLeader RaftNode RaftRecv RaftSend RaftCluster RaftElection RaftClusterInv RaftLogMatching RaftSteps RaftSafety RaftTree RaftTrans RaftAncestry.

Section store.
Context {C : Type} `{!GobCodec (PState C), !GobLaws (PState C)}.
Context (n : Z).
Implicit Types (w : Cluster C) (r : Raft C) (p : Peer C) (t : Task C).

(** A snapshot with the entry it goes up to: the one in memory, and the one a
    restart reads. *)
Definition msnap r : bytes * (Z * Z) := (Data (snapshot r), base (log r)).
Definition dsnap r : bytes * (Z * Z) := (psnapshot (persister r), base (dlog r)).

(** The applier has not moved. *)
Record idle r r' : Prop := {
  il_applied : lastApplied r' = lastApplied r;
  il_exit : applier r = PExit → applier r' = PExit;
}.

Record kept r r' : Prop := {
  kp_snap : msnap r' = msnap r;
  kp_disk : dsnap r' = dsnap r ∨ dsnap r' = msnap r;
  kp_idle : idle r r';
}.

#[global] Instance idle_refl : Reflexive idle.
Proof. by intros r; split. Qed.
#[global] Instance idle_trans : Transitive idle.
Proof. intros r1 r2 r3 [H1 E1] [H2 E2]. split; [congruence|auto]. Qed.
#[global] Instance kept_refl : Reflexive kept.
Proof. intros r. split; [done|by left|done]. Qed.
#[global] Instance kept_trans : Transitive kept.
Proof.
  intros r1 r2 r3 [S1 D1 I1] [S2 D2 I2]. split; [congruence| |by etrans].
  destruct D2 as [-> | ->]; [done|right; congruence].
Qed.

Lemma dsnap_same r r' : persister r' = persister r → dsnap r' = dsnap r.
Proof. intros H. unfold dsnap. by rewrite H, (dlog_same r r'). Qed.

Lemma dsnap_persistL r x : persister r = persister (persistL x) → dsnap r = msnap x.
Proof. intros H. unfold dsnap, msnap. rewrite (dlog_persistL r x H), H. done. Qed.

(** ** Operations that keep the snapshot *)

Lemma kept_frame r r' :
  log r' = log r → snapshot r' = snapshot r → persister r' = persister r →
  lastApplied r' = lastApplied r → applier r' = applier r → kept r r'.
Proof.
  intros Hl Hs Hp Ha Hx. split; [unfold msnap; congruence|left; by apply dsnap_same|split; congruence].
Qed.

Lemma kept_persistL r : kept r (persistL r).
Proof. split; [done|right; by apply dsnap_persistL|done]. Qed.

Lemma kept_becomeFollowerL r T : kept r (becomeFollowerL r T).
Proof. etrans; [|apply kept_persistL]. by apply kept_frame. Qed.

Lemma kept_reset env r x : kept r (resetElectionTimeoutL env r x).
Proof. rewrite resetElectionTimeoutL_frame. by apply kept_frame. Qed.

Lemma kept_signal r : kept r (applySignalL r).
Proof.
  split; [by rewrite applySignalL_frame|left; apply dsnap_same; by rewrite applySignalL_frame|].
  split; [by rewrite applySignalL_frame|]. unfold applySignalL. intros H. by rewrite H.
Qed.

Lemma kept_higher (x : bool) r T : kept r (if x then becomeFollowerL r T else r).
Proof. destruct x; [apply kept_becomeFollowerL|done]. Qed.

Lemma RequestVote_kept env r args r' reply : RequestVote env r args = Some (r', reply) → kept r r'.
Proof.
  unfold RequestVote. set (r1 := if _ >? _ then _ else r). intros H.
  assert (kept r r1) as Hk by apply kept_higher. clearbody r1.
  destruct (lastLogL r1) as [lst|]; cbn [mbind option_bind] in H; [|done].
  destruct (_ <? _); [by simplify_eq|]. destruct (_ && _); [|by simplify_eq].
  injection H as <- _. etrans; [exact Hk|].
  etrans; [|apply (kept_reset env (persistL (set_votedFor r1 (rv_CandidateId args))) false)].
  etrans; [|apply kept_persistL]. by apply kept_frame.
Qed.

Lemma ae_preamble_kept env r args : kept r (ae_preamble env r args).
Proof.
  unfold ae_preamble. set (r1 := if ae_Term args >? _ then _ else r).
  assert (kept r r1) as Hk by apply kept_higher. clearbody r1. etrans; [exact Hk|].
  set (r2 := if _ && _ then _ else r1). assert (kept r1 r2) as Hk2 by apply kept_higher. clearbody r2.
  etrans; [exact Hk2|]. destruct (_ >=? _); [|done]. etrans; [apply (kept_reset env _ false)|by apply kept_frame].
Qed.

Lemma becomeCandidateL_kept env r r' sp : becomeCandidateL env r = Some (r', sp) → kept r r'.
Proof.
  unfold becomeCandidateL. set (r1 := set_leaderId _ NA). intros H.
  destruct (requestsL _); cbn [mbind option_bind] in H; [|done]. injection H as <- _.
  etrans; [|apply (kept_reset env (persistL r1) false)]. etrans; [|apply kept_persistL]. by apply kept_frame.
Qed.

Lemma tick_kept env r r' sp : tick env r = Some (r', sp) → kept r r'.
Proof.
  unfold tick. intros H. destruct (role_eqb _ _); [by simplify_eq|].
  destruct (_ >? _); [by eapply becomeCandidateL_kept|by simplify_eq].
Qed.

Lemma becomeLeaderL_kept r r' sp : becomeLeaderL r = Some (r', sp) → kept r r'.
Proof.
  unfold becomeLeaderL. intros H. destruct (lastLogL r); cbn [mbind option_bind] in H; [|done].
  destruct (_ || _); [done|]. injection H as <- _. by apply kept_frame.
Qed.

Lemma processRequestReplyL_kept r args reply v r' v' sp :
  processRequestReplyL r args reply v = Some (r', v', sp) → kept r r'.
Proof.
  unfold processRequestReplyL. intros H. destruct (_ && _); [|by simplify_eq].
  destruct (rvr_VoteGranted _).
  - destruct (_ >? _); [|by simplify_eq].
    destruct (becomeLeaderL r) as [[r1 sp1]|] eqn:E; cbn [mbind option_bind] in H; [|done].
    injection H as <- _ _. by eapply becomeLeaderL_kept.
  - destruct (_ >? _); simplify_eq; [apply kept_becomeFollowerL|done].
Qed.

Lemma updateMatchAndNextL_kept r s m r' : updateMatchAndNextL r s m = Some r' → kept r r'.
Proof.
  unfold updateMatchAndNextL. intros H.
  destruct (go_index (matchIndex r) s); cbn [mbind option_bind] in H; [|done].
  destruct (if m >? _ then _ else _) as [r1|] eqn:E; cbn [mbind option_bind] in H; [|done].
  assert (kept r r1) as Hk.
  { destruct (m >? _); [|by simplify_eq]. destruct (go_update _ _ _); cbn [mbind option_bind] in E; [|done].
    injection E as <-. by apply kept_frame. }
  destruct (go_index (nextIndex r1) s); cbn [mbind option_bind] in H; [|done].
  destruct (_ >=? _); [|by simplify_eq]. destruct (go_update (nextIndex r1) _ _); cbn [mbind option_bind] in H; [|done].
  injection H as <-. etrans; [exact Hk|by apply kept_frame].
Qed.

Lemma setCommitIndexL_kept r r' ok : setCommitIndexL r = Some (r', ok) → kept r r'.
Proof. intros [[-> _]|[[N ->] _]]%setCommitIndexL_cases; [done|by apply kept_frame]. Qed.

Lemma processAppendReplyL_kept r s args reply r' : processAppendReplyL r s args reply = Some r' → kept r r'.
Proof.
  unfold processAppendReplyL. intros H. destruct (_ && _); [|by simplify_eq]. destruct (aer_Success reply).
  - destruct (updateMatchAndNextL r s _) as [r1|] eqn:E1; cbn [mbind option_bind] in H; [|done].
    destruct (setCommitIndexL r1) as [[r2 ok]|] eqn:E2; cbn [mbind option_bind] in H; [|done]. injection H as <-.
    etrans; [by eapply updateMatchAndNextL_kept|]. etrans; [by eapply setCommitIndexL_kept|].
    destruct ok; [apply kept_signal|done].
  - destruct (_ >? _); [injection H as <-; apply kept_becomeFollowerL|]. unfold processPrevLogConflictL in H.
    destruct (if _ || _ then _ else _); cbn [mbind option_bind] in H; [|done].
    destruct (go_update _ _ _); cbn [mbind option_bind] in H; [|done]. injection H as <-. by apply kept_frame.
Qed.

Lemma processInstallReplyL_kept r s args reply r' : processInstallReplyL r s args reply = Some r' → kept r r'.
Proof.
  unfold processInstallReplyL. intros H. destruct (_ && _); [|by simplify_eq].
  destruct (_ >? _); [injection H as <-; apply kept_becomeFollowerL|by eapply updateMatchAndNextL_kept].
Qed.

Lemma appendNewEntries_frame r args i es r' :
  appendNewEntries r args i es = Some r' → r' = r ∨ r' = persistL (set_log r (log r')).
Proof.
  revert i. induction es as [|e es IH]; intros i H; cbn [appendNewEntries] in H; [left; by simplify_eq|].
  destruct (lastLogL r); cbn [mbind option_bind] in H; [|done].
  destruct (if _ <? _ then _ else _) as [[]|]; cbn [mbind option_bind] in H; [| |done]; [|by eapply IH].
  destruct (logSliceIndexL _ _); cbn [mbind option_bind] in H; [|done].
  destruct (slice_to _ _); cbn [mbind option_bind] in H; [|done].
  destruct (slice_from _ _); cbn [mbind option_bind] in H; [|done]. injection H as <-. by right.
Qed.

Lemma AppendEntries_kept env r args r' reply :
  node_wf r → ae_wf args → AppendEntries env r args = Some (r', reply) → kept r r'.
Proof.
  intros Hwf Hae H. pose proof (ae_preamble_kept env r args) as Hk.
  destruct (AppendEntries_trans _ _ _ _ _ Hwf Hae H) as [_ Hpost].
  rewrite AppendEntries_preamble in H. destruct (aer_Success reply) eqn:Hs.
  2: { apply processAppendEntriesL_fails in H as ->; done. }
  assert (base (log r') = base (log r)) as Hb.
  { destruct Hpost as [_ Hres (e0 & He0 & HT) _ _ _].
    destruct (ae_result_wf _ _ _ _ (nw_log _ Hwf) Hae He0 HT Hres) as (_ & Hf & Ht & _). unfold base. congruence. }
  clear Hpost. set (r1 := ae_preamble env r args) in *. clearbody r1. unfold processAppendEntriesL in H.
  destruct (lastLogL r1); cbn [mbind option_bind] in H; [|done].
  destruct (_ <? _); [injection H as _ <-; done|].
  destruct (prevLogConflictL r1 args) as [[[b ct] ci]|]; cbn [mbind option_bind] in H; [|done].
  destruct b; [injection H as _ <-; done|].
  destruct (appendNewEntries r1 args 0 _) as [r2|] eqn:E2; cbn [mbind option_bind] in H; [|done].
  destruct (lastLogL r2) as [lst|]; cbn [mbind option_bind] in H; [|done]. injection H as <- _.
  set (r3 := if _ >? _ then _ else r2) in *.
  assert (kept r2 r3 ∧ log r3 = log r2) as [Hk3 Hl3].
  { subst r3. destruct (_ >? _); [|done]. split; [|by rewrite applySignalL_frame].
    etrans; [|apply kept_signal]. by apply kept_frame. }
  clearbody r3. assert (kept r r2) as Hk2; [|by etrans].
  apply appendNewEntries_frame in E2 as [->|E2]; [done|].
  destruct Hk as [Hks Hkd Hki]. split.
  - unfold msnap in *. rewrite E2. cbn. rewrite <- Hl3, Hb. congruence.
  - right. unfold msnap in *. rewrite (dsnap_persistL r2 (set_log r1 (log r2))) by by rewrite E2.
    unfold msnap; cbn. rewrite <- Hl3, Hb. congruence.
  - etrans; [exact Hki|]. rewrite E2. done.
Qed.

(** ** Operations that change it *)

Lemma Start_stores r command r' res sp :
  node_wf r → Start r command = Some (r', res, sp) → kept r r'.
Proof.
  intros Hwf. unfold Start. intros H. destruct (role_eqb _ _); [|by simplify_eq].
  destruct (lastLogL r) as [lst|]; cbn [mbind option_bind] in H; [|done]. injection H as <- _ _.
  etrans; [|apply kept_persistL]. split; [|left; by apply dsnap_same|done].
  unfold msnap, base; cbn. by destruct (firstIdx_app (log r) [MkLogEntry command (Index lst + 1) (currentTerm r)] (lw_nonempty _ (nw_log _ Hwf))) as [-> ->].
Qed.

Lemma same_node_stores r r' : same_node r r' → msnap r' = msnap r ∧ dsnap r' = dsnap r.
Proof. intros [_ Hl Hp Hs]. split; [unfold msnap; congruence|by apply dsnap_same]. Qed.

Lemma SnapshotL_stores r index data r' :
  node_wf r → SnapshotL r index data = Some r' →
  r' = r ∨ idle r r' ∧ dsnap r' = msnap r' ∧ firstIdx (log r) < index
    ∧ ∃ e, entry_at (log r) index = Some e ∧ msnap r' = (data, (index, Term e)).
Proof.
  intros Hwf H. pose proof (SnapshotL_returns _ _ _ _ Hwf H) as Hle.
  destruct (SnapshotL_spec _ _ data Hwf Hle) as (r1 & H1 & _ & _ & _ & Hr).
  rewrite H in H1. injection H1 as <-. destruct Hr as [[-> _]|(Hlt & Hd & e & He & Hl & Hs)]; [by left|right].
  destruct (drop_to_index _ _ _ (nw_log _ Hwf) He) as (_ & Hf & Hft & _).
  assert (msnap r' = (data, (index, Term e))) as Hm by (unfold msnap, base; rewrite Hs, Hl, Hf, Hft; done).
  assert (idle r r' ∧ dsnap r' = msnap r') as [Hi Hds]; [|by split_and!; [..|exists e]].
  unfold SnapshotL in H. destruct (logFirstIndexL r); cbn [mbind option_bind] in H; [|done].
  destruct (_ >? _); [|injection H as ->; rewrite <- Hl in Hf; lia].
  destruct (trimLogL r index) as [r2|] eqn:E2; cbn [mbind option_bind] in H; [|done].
  destruct (go_index (log r2) 0); cbn [mbind option_bind] in H; [|done].
  assert (∃ l, r2 = set_log r l) as [l2 ->].
  { unfold trimLogL in E2. destruct (lastLogL r); cbn [mbind option_bind] in E2; [|done].
    destruct (logFirstIndexL r); cbn [mbind option_bind] in E2; [|done]. destruct (_ <? _); [done|].
    destruct (slice_from _ _); cbn [mbind option_bind] in E2; [|done]. injection E2 as <-. eauto. }
  injection H as <-. split; [done|by apply dsnap_persistL].
Qed.

Lemma InstallSnapshot_stores env r args r' reply :
  node_wf r → is_wf args → InstallSnapshot env r args = Some (r', reply) →
  kept r r' ∧ log r' = log r
  ∨ idle r r' ∧ (dsnap r' = dsnap r ∨ dsnap r' = msnap r)
    ∧ firstIdx (log r) < LastIncludedIndex (is_Snapshot args)
    ∧ msnap r' = (Data (is_Snapshot args), snap_pt args).
Proof.
  intros Hwf Hsw H.
  destruct (InstallSnapshot_spec env _ args Hwf Hsw) as (r1' & r2' & reply2 & H2 & _ & Hwf' & _ & _ & _ & _ & Hl).
  rewrite H in H2. injection H2 as <- <-. revert H. unfold InstallSnapshot. set (r1 := if is_Term args >? _ then _ else r).
  assert (kept r r1 ∧ log r1 = log r) as [Hk Hl1] by (split; [apply kept_higher|subst r1; by destruct (_ >? _)]). clearbody r1.
  set (r2 := if _ >=? _ then _ else r1). intros H.
  assert (kept r r2 ∧ log r2 = log r) as [Hk2 Hl2].
  { subst r2. destruct (_ >=? _); [|done]. split; [|by rewrite resetElectionTimeoutL_frame].
    etrans; [exact Hk|]. etrans; [apply (kept_reset env _ false)|by apply kept_frame]. }
  clearbody r2. clear Hk Hl1 r1. destruct (_ <? _); [injection H as <- _; by left|].
  rewrite logFirstIndexL_spec in H by (rewrite Hl2; apply Hwf). cbn [mbind option_bind] in H.
  destruct (_ >=? _) eqn:Ef; bools; [injection H as <- _; by left|]. right. rewrite Hl2 in Ef.
  set (r3 := set_snapshot _ _) in H.
  destruct (lastLogL r3); cbn [mbind option_bind] in H; [|done].
  destruct (if _ >=? _ then _ else _) as [retain|]; cbn [mbind option_bind] in H; [|done].
  destruct (if retain then _ else _) as [r4|] eqn:E4; cbn [mbind option_bind] in H; [|done].
  assert (∃ l, r4 = set_log r3 l) as [l4 ->].
  { destruct retain; [|injection E4 as <-; eauto]. unfold trimLogL in E4.
    destruct (lastLogL r3); cbn [mbind option_bind] in E4; [|done].
    destruct (logFirstIndexL r3); cbn [mbind option_bind] in E4; [|done]. destruct (_ <? _); [done|].
    destruct (slice_from _ _); cbn [mbind option_bind] in E4; [|done]. injection E4 as <-. eauto. }
  injection H as <- _. set (r5 := set_applySnapshot _ true) in *.
  destruct (kept_signal r5) as [Hs5 Hd5 Hi5].
  assert (dsnap (applySignalL r5) = dsnap r2) as Hd by (apply dsnap_same; by rewrite applySignalL_frame).
  destruct Hk2 as [_ Hkd Hki]. split_and!; [| |lia|].
  - etrans; [exact Hki|]. etrans; [|exact Hi5]. by split.
  - rewrite Hd. exact Hkd.
  - destruct (nw_snap _ Hwf') as [HI HT]. rewrite Hs5. unfold msnap, snap_pt, base.
    rewrite applySignalL_frame in HI, HT. cbn in HI, HT. cbn. by rewrite HI, HT.
Qed.

Lemma Make_stores env r r' :
  node_wf r → Make env (nPeers r) (me r) (persister r) = Some r' →
  dsnap r' = dsnap r ∧ applier r' = PTop ∧ lastApplied r' = firstIdx (log r') ∧ role r' = Follower
  ∧ (msnap r' = dsnap r ∨ msnap r' = ([], (0, 0)) ∧ raftstate (persister r) = []).
Proof.
  intros Hwf H. destruct (Make_trans _ _ _ Hwf H) as [_ _ Hro Hlog _ Hcm Hap].
  destruct (Make_spec env _ Hwf) as (r1 & H1 & _ & _ & _ & _ & _ & _ & Hp & _). rewrite H in H1. injection H1 as <-.
  assert (applier r' = PTop ∧ (msnap r' = dsnap r ∨ msnap r' = ([], (0, 0)) ∧ raftstate (persister r) = [])) as [? ?];
    [|split_and!; [by apply dsnap_same|done|by rewrite Hap, Hcm|done|done]].
  unfold msnap, dsnap. rewrite Hlog. clear Hro Hlog Hcm Hap Hp. revert H. unfold Make, initL, ReadRaftState.
  set (r0 := new_raft env (nPeers r) (me r) (persister r)). intros H.
  destruct (readPersist r0 (raftstate (persister r))) as [r1|] eqn:E; cbn [mbind option_bind] in H; [|done].
  assert (applier r' = applier r1 ∧ snapshot r' = snapshot r1) as [-> ->] by (injection H as <-; by destruct (_ =? 0)).
  clear H. unfold readPersist in E. unfold dlog. destruct (raftstate (persister r)) as [|x d].
  - injection E as <-. split; [done|by right].
  - destruct (gob_decode (x :: d)) as [[[ct vf] lg]|]; cbn [mbind option_bind] in E; [|done].
    unfold logFirstIndexL in E. cbn [log set_log set_snapshot] in E.
    destruct (go_index lg 0) as [e|]; cbn [mbind option_bind] in E; [|done]. injection E as <-. split; [done|by left].
Qed.

(** ** Steps of the cluster *)

Inductive stores w (act : Action C) (i : Z) r r' : Prop :=
  | st_kept : kept r r' → log r' = log r ∨ role r' ≠ Leader → stores w act i r r'
  | st_start command : act = AStart i command → kept r r' → stores w act i r r'
  | st_install c ep args :
      TInstall c i ep args ∈ tasks w → role r' ≠ Leader → idle r r' → dsnap r' = dsnap r ∨ dsnap r' = msnap r →
      msnap r' = (Data (is_Snapshot args), snap_pt args) → stores w act i r r'
  | st_snapshot index data e :
      act = ASnapshot i index data → idle r r' → dsnap r' = msnap r' → entry_at (log r) index = Some e →
      log r' = drop (Z.to_nat (index - firstIdx (log r))) (log r) → msnap r' = (data, (index, Term e)) →
      stores w act i r r'
  | st_apply msg : act = AApply i → apply r = Some (r', msg) → same_node r r' → stores w act i r r'
  | st_restart env :
      act = ARestart i env → dsnap r' = dsnap r → applier r' = PTop → lastApplied r' = firstIdx (log r') →
      role r' = Follower → (msnap r' = dsnap r ∨ msnap r' = ([], (0, 0)) ∧ raftstate (persister r) = []) →
      stores w act i r r'.

Definition new_install w (i : Z) t : Prop :=
  match t with
  | TInstall c _ _ args => c = i ∧ args = installArgsL (rf (peers w i))
  | _ => True
  end.

Definition stores_step w (act : Action C) w' : Prop := ∃ i p ts,
  0 <= i < n ∧ w' = update w i p ts ∧ stores w act i (rf (peers w i)) (rf p)
  ∧ ∀ t, t ∈ ts → t ∈ tasks w ∨ new_install w i t.

Lemma stores_step_intro w act i p ts :
  0 <= i < n → stores w act i (rf (peers w i)) (rf p) →
  (∀ t, t ∈ ts → t ∈ tasks w ∨ new_install w i t) → stores_step w act (update w i p ts).
Proof. intros. exists i, p, ts. auto. Qed.

Lemma spawn_no_install w i j ep a sp t : t ∈ spawn j ep a sp → new_install w i t.
Proof. unfold spawn. intros ([s args|s T] & -> & _)%list_elem_of_fmap; done. Qed.

Lemma spawned w i j ep a sp (ts : list (Task C)) t :
  (∀ t, t ∈ ts → t ∈ tasks w) → t ∈ spawn j ep a sp ++ ts → t ∈ tasks w ∨ new_install w i t.
Proof. intros Hts [?%(spawn_no_install w i)|?]%elem_of_app; [by right|left; auto]. Qed.

Lemma run_stores w k env w' :
  0 <= n → cluster_inv n w → run k env w = Some w' → stores_step w (ARun k env) w'.
Proof.
  intros Hn Hc H. unfold run in H.
  destruct (tasks w !! k) as [t|] eqn:Hk; cbn [mbind option_bind] in H; [|done].
  pose proof (list_elem_of_lookup_2 _ _ _ Hk) as Hin. pose proof (ci_task _ _ Hc t Hin) as Ht.
  destruct t as [c s ep a args|c s ep a args reply|c s ep term|c s ep args|c s ep args reply|c s ep args|c s ep args reply];
    destruct Ht as ((Hci & Hs & Hne) & Ht); destruct (ci_node _ _ Hc c Hci) as (Hwfc & Hmec & _);
    destruct (ci_node _ _ Hc s Hs) as (Hwfs & _);
    try (destruct (negb (bool_decide (epoch (peers w c) = ep))) eqn:Hep; [done|bools; symmetry in Hep]).
  - destruct (RequestVote _ _ _) as [[r' reply]|] eqn:Hr; cbn [mbind option_bind] in H; [|done]. injection H as <-.
    apply stores_step_intro; [done| |by intros t [->|?]%elem_of_insert; [right|left]].
    apply st_kept; [by eapply RequestVote_kept|left]. by destruct (RequestVote_quiet _ _ _ _ _ Hr).
  - destruct (votes _ !! a) as [v|]; cbn [mbind option_bind] in H; [|done].
    destruct (processRequestReplyL _ _ _ _) as [[[r' v'] sp]|] eqn:Hr; cbn [mbind option_bind] in H; [|done].
    injection H as <-. apply stores_step_intro; [done| |intros t; apply spawned; by intros ? ?%elem_of_delete].
    apply st_kept; [by eapply processRequestReplyL_kept|left].
    destruct (processRequestReplyL_spec _ args reply v Hwfc) as (r1 & v1 & sp1 & H1 & _ & Hl & _).
    rewrite Hr in H1. by injection H1 as <- _ _.
  - destruct (append _ s term) as [call|] eqn:Hr; cbn [mbind option_bind] in H; [|done].
    injection H as <-. apply stores_step_intro; [done|apply st_kept; [done|by left]|].
    unfold append in Hr. destruct (negb _); [injection Hr as <-; intros t ?%elem_of_delete; by left|].
    destruct (go_index _ s); cbn [mbind option_bind] in Hr; [|done].
    destruct (logFirstIndexL _); cbn [mbind option_bind] in Hr; [|done].
    destruct (_ <=? _).
    { injection Hr as <-. by intros t [->|?]%elem_of_insert; [right|left]. }
    destruct (makeAppendArgsL _ s); cbn [mbind option_bind] in Hr; [|done].
    injection Hr as <-. by intros t [->|?]%elem_of_insert; [right|left].
  - destruct (AppendEntries _ _ _) as [[r' reply]|] eqn:Hr; cbn [mbind option_bind] in H; [|done].
    injection H as <-. apply stores_step_intro; [done| |by intros t [->|?]%elem_of_insert; [right|left]].
    apply st_kept; [by eapply AppendEntries_kept; [done|apply Ht|]|].
    destruct (AppendEntries_trans _ _ _ _ _ Hwfs (proj2 Ht) Hr) as [Hst Hpost].
    destruct (aer_Success reply); [|left; apply Hpost]. right. cbn. intros Hl.
    destruct Hst as [[]|[]]; [|congruence].
    apply (not_leader n w c s (ae_Term args)); try done; [apply Ht|congruence|].
    rewrite (ad_term _ _ _ Hpost). done.
  - destruct (processAppendReplyL _ _ _ _) as [r'|] eqn:Hr; cbn [mbind option_bind] in H; [|done].
    injection H as <-. apply stores_step_intro; [done| |by intros t ?%elem_of_delete; left].
    apply st_kept; [by eapply processAppendReplyL_kept|left].
    by destruct (processAppendReplyL_node _ _ _ _ _ Hwfc Hr) as (_ & Hl & _).
  - destruct (InstallSnapshot _ _ _) as [[r' reply]|] eqn:Hr; cbn [mbind option_bind] in H; [|done].
    injection H as <-. apply stores_step_intro; [done| |by intros t [->|?]%elem_of_insert; [right|left]]. cbn.
    destruct Ht as [Hel Hsw]. destruct (InstallSnapshot_stores _ _ _ _ _ Hwfs Hsw Hr) as [[Hk1 Hl]|(Hi & Hd & Hlt & Hm)].
    { apply st_kept; [done|by left]. }
    eapply st_install; try done.
    destruct (InstallSnapshot_spec env _ args Hwfs Hsw) as (r1 & r2 & reply2 & H2 & _ & Hwf' & Hst & _ & _ & _ & Hl).
    rewrite Hr in H2. injection H2 as <- <-. intros Hro. destruct Hl as [Hl|(HT & _)].
    + unfold msnap, base in Hm. rewrite Hl in Hm. unfold snap_pt in Hm. injection Hm as _ Hm _. lia.
    + destruct Hst as [[]|[]]; [|congruence]. apply (not_leader n w c s (is_Term args)); congruence.
  - destruct (processInstallReplyL _ _ _ _) as [r'|] eqn:Hr; cbn [mbind option_bind] in H; [|done].
    injection H as <-. apply stores_step_intro; [done| |by intros t ?%elem_of_delete; left].
    apply st_kept; [by eapply processInstallReplyL_kept|left].
    by destruct (processInstallReplyL_node _ _ _ _ _ Hwfc Hr) as (_ & Hl & _).
Qed.

Lemma exec_stores act w w' :
  0 <= n → cluster_inv n w → exec n act w = Some w' →
  (∃ k, w' = MkCluster (peers w) (delete k (tasks w)) (hist w)) ∨ stores_step w act w'.
Proof.
  intros Hn Hc H. destruct act as [i env|i cmd|i index data|i|i|i env|k|k env]; cbn [exec] in H;
    [right|right|right|right|right|right|left|right].
  all: try (destruct (negb (in_cluster n i)) eqn:Hin; [done|]; apply in_cluster_spec in Hin as Hi;
            destruct (ci_node _ _ Hc i Hi) as (Hwf & Hme & Hnp)).
  - destruct (tick _ _) as [[r' sp]|] eqn:Hr; cbn [mbind option_bind] in H; [|done]. injection H as <-.
    apply stores_step_intro; [done| |intros t; by apply spawned]. apply st_kept; [by eapply tick_kept|left]. cbn.
    unfold tick in Hr. destruct (role_eqb _ _); [by simplify_eq|]. destruct (_ >? _); [|by simplify_eq].
    by destruct (becomeCandidateL_quiet _ _ _ _ Hr).
  - destruct (Start _ cmd) as [[[r' res] sp]|] eqn:Hr; cbn [mbind option_bind] in H; [|done]. injection H as <-.
    apply stores_step_intro; [done| |intros t; by apply spawned]. eapply st_start; [done|by eapply Start_stores].
  - destruct (SnapshotL _ index data) as [r'|] eqn:Hr; cbn [mbind option_bind] in H; [|done]. injection H as <-.
    apply stores_step_intro; [done| |by left]. cbn.
    destruct (SnapshotL_stores _ _ _ _ Hwf Hr) as [->|(Hil & Hd & Hlt & e & He & Hm)]; [apply st_kept; [done|by left]|].
    eapply st_snapshot; try done. pose proof (SnapshotL_returns _ _ _ _ Hwf Hr) as Hle.
    destruct (SnapshotL_spec _ _ data Hwf Hle) as (r1 & H1 & _ & _ & _ & [[-> Hle']|(_ & _ & e' & _ & Hl & _)]); [lia|congruence].
  - destruct (apply _) as [[r' msg]|] eqn:Hr; cbn [mbind option_bind] in H; [|done]. injection H as <-.
    apply stores_step_intro; [done| |by left]. eapply st_apply; [done|done|]. by destruct (apply_node _ _ _ Hwf Hr).
  - injection H as <-. apply stores_step_intro; [done| |by left]. apply st_kept; [by apply kept_frame|by left].
  - destruct (Make env n i _) as [r'|] eqn:Hr; cbn [mbind option_bind] in H; [|done]. injection H as <-.
    apply stores_step_intro; [done| |by left].
    destruct (Make_stores env (rf (peers w i)) r' Hwf) as (? & ? & ? & ? & ?); [by rewrite Hnp, Hme|by eapply st_restart].
  - injection H as <-. by exists k.
  - by eapply run_stores.
Qed.

(** Only [Start] creates entries. *)
Lemma exec_born act w w' :
  0 <= n → cluster_inv n w → log_inv n w → exec n act w = Some w' →
  born (hist w') = born (hist w)
  ∨ ∃ i cmd k T, act = AStart i cmd ∧ born (hist w') = <[k := (T, cmd)]> (born (hist w)).
Proof.
  intros Hn Hc Hl H. destruct (exec_stores _ _ _ Hn Hc H) as [[k ->]|(i & p & ts & Hi & -> & Hst & _)]; [by left|].
  cbn [hist update]. pose proof (lv_log _ _ Hl i Hi) as Hp. destruct (ci_node _ _ Hc i Hi) as (Hwf & _).
  destruct Hst as [_ [Hlog|Hro]|cmd -> _|c ep args _ Hro _ _ _|index data e _ _ _ _ Hlog _|msg _ _ [_ Hlog _ _]|env _ _ _ _ Hro _].
  - left. apply born_known. by rewrite Hlog.
  - left. by apply same_born.
  - cbn [exec] in H. destruct (negb _); [done|].
    destruct (Start_spec _ cmd Hwf) as [[_ H1]|(r1 & Hro & H1 & _ & Hsv & _ & _ & Hlog)]; rewrite H1 in H;
      cbn [mbind option_bind] in H; injection H as H _.
    + left. apply (f_equal (λ f, f i)) in H. rewrite !fn_lookup_insert in H. subst p. by apply born_known.
    + apply (f_equal (λ f, f i)) in H. rewrite !fn_lookup_insert in H. subst p. right.
      exists i, cmd. do 2 eexists. split; [done|]. cbn. by apply (start_born w i r1 cmd); [apply Hwf|..].
  - left. by apply same_born.
  - left. apply born_known. rewrite Hlog. by apply pairs_ok_drop.
  - left. apply born_known. by rewrite Hlog.
  - left. apply same_born. congruence.
Qed.
End store.
