(* ===== verification/RaftCommit.v ===== *)
(** * Committed entries

    An entry is committed when a [chosen] entry is on its path's continuation:
    it is chosen, or it comes before a chosen one.  The invariant [commit_inv]
    says that every commit index, in a peer or in a message, and every snapshot
    covers committed entries only, and that the match indices of a leader are
    backed by entries on disk or committed.  Committed entries of all peers lie
    on one path of the tree, which is state machine safety. *)

From S2P Require Import Prelude Util Labgob RaftState RaftHandlers RaftLeader RaftNode RaftRecv RaftSend RaftCluster RaftElection RaftClusterInv RaftLogMatching RaftSteps RaftSafety RaftTree RaftTrans RaftAncestry RaftCompleteness.

Section commit.
Context {C : Type} `{!GobCodec (PState C), !GobLaws (PState C)}.
Context (n : Z).
Implicit Types (w : Cluster C) (r : Raft C) (p : Peer C) (h : History C) (x y z : Z * Z).

Definition committed h (T : Z) y : Prop :=
  y = (0, 0) ∨ ∃ N t, chosen n h N t ∧ t <= T ∧ anc (born h) (N, t) y.

(** The path of [y] is committed up to the index [k]. *)
Definition commit_at h (T k : Z) y : Prop := ∃ z, z.1 = k ∧ anc (born h) y z ∧ committed h T z.

(** Peer [v] has had [y] on disk in term [T]. *)
Definition durable h (T v : Z) y : Prop := ∃ x, (T, v, x) ∈ seen h ∧ anc (born h) x y.

Record cpeer h (i : Z) r : Prop := {
  cm_commit : commit_at h (currentTerm r) (commitIndex r) (tip (log r));
  cm_base : committed h (currentTerm r) (base (log r));
  cm_disk : committed h (currentTerm r) (base (dlog r));
  cm_sync : tip (dlog r) = tip (log r) ∨ committed h (currentTerm r) (tip (log r));
  cm_applied : lastApplied r <= commitIndex r;
  cm_match j m : role r = Leader → go_index (matchIndex r) j = Some m → j ≠ i →
    m = 0 ∨ ∃ y, y.1 = m ∧ anc (born h) (tip (log r)) y
      ∧ (durable h (currentTerm r) j y ∨ committed h (currentTerm r) y);
  cm_own m : role r = Leader → go_index (matchIndex r) i = Some m → m = 0;
}.

Definition ctask h (t : Task C) : Prop :=
  match t with
  | TAppend _ _ _ args => commit_at h (ae_Term args) (ae_LeaderCommit args) (mtip args)
  | TAppendReply _ s _ args reply => aer_Success reply = true →
      durable h (ae_Term args) s (mtip args) ∨ committed h (ae_Term args) (mtip args)
  | TInstall _ _ _ args | TInstallReply _ _ _ args _ => committed h (is_Term args) (snap_pt args)
  | _ => True
  end.

Record commit_inv w : Prop := {
  cv_peer i : 0 <= i < n → cpeer (hist w) i (rf (peers w i));
  cv_task t : t ∈ tasks w → ctask (hist w) t;
}.

(** ** Growth *)

Lemma committed_mono h h' T T' y : hgrows h h' → T <= T' → committed h T y → committed h' T' y.
Proof.
  intros Hg HT [?|(N & t & Hch & Ht & Ha)]; [by left|right]. exists N, t.
  split_and!; [by eapply chosen_mono|lia|eapply anc_mono; [apply Hg|done]].
Qed.

Lemma committed_le h T T' y : T <= T' → committed h T y → committed h T' y.
Proof. intros HT. by apply committed_mono. Qed.

Lemma committed_anc h T y z : 0 <= z.1 → committed h T y → anc (born h) y z → committed h T z.
Proof.
  intros Hz [->|(N & t & Hch & Ht & Ha)] Hyz.
  - left. pose proof (anc_index _ _ _ Hyz). symmetry. apply (anc_same_index (born h)); [done|cbn in *; lia].
  - right. exists N, t. split_and!; [done|done|by etrans].
Qed.

Lemma commit_at_mono h h' T T' k y y' :
  hgrows h h' → T <= T' → anc (born h') y' y → commit_at h T k y → commit_at h' T' k y'.
Proof.
  intros Hg HT Hy (z & Hz & Ha & Hc). exists z. split_and!; [done| |by eapply committed_mono].
  etrans; [done|]. eapply anc_mono; [apply Hg|done].
Qed.

Lemma durable_mono h h' T v y : hgrows h h' → durable h T v y → durable h' T v y.
Proof. intros Hg (x & ? & ?). exists x. split; [by apply (hg_seen _ _ Hg)|eapply anc_mono; [apply Hg|done]]. Qed.

Lemma ctask_mono h h' t : hgrows h h' → ctask h t → ctask h' t.
Proof.
  intros Hg. destruct t as [| | |c s ep args|c s ep args reply|c s ep args|c s ep args reply]; cbn; try done.
  - by apply commit_at_mono.
  - intros Hs Hsu. destruct (Hs Hsu); [left; by eapply durable_mono|right; by eapply committed_mono].
  - by apply committed_mono.
  - by apply committed_mono.
Qed.

(** ** Committed entries lie on one path *)

Section facts.
Context (w : Cluster C) (Hn : 0 < n) (Hb : basic_inv n w) (Hk : ack_inv n w).
Local Abbreviation h := (hist w).
Local Abbreviation b := (born (hist w)).
Let Ht := bi_tree _ _ Hb.
Let Hc := bi_cluster _ _ Hb.

Lemma chosen_rooted N t : chosen n h N t → rooted b (N, t).
Proof using Hk Hn.
  intros (P & _ & _ & Hlen & HP). destruct P as [|v P]; [cbn in Hlen; lia|].
  destruct (HP v ltac:(by left)) as (x & Hx & Ha). apply (ak_seen _ _ Hk) in Hx as (_ & _ & Hr). by eapply anc_rooted.
Qed.

(** The leader of a term and the committed entries of terms up to it. *)
Lemma committed_lead T y z : committed h T y → lead_pt h T z → anc b z y ∨ anc b y z.
Proof using Hb Hc Hk Hn Ht.
  intros [->|(N & t & Hch & HtT & Ha)] Hz.
  { left. by eapply (lead_pt_rooted n w). }
  destruct (Z.eq_dec t T) as [->|Hne].
  - assert (anc b z (N, T) ∨ anc b (N, T) z) as [Hzy|Hyz].
    { destruct (rooted_cases w (N, T) (chosen_rooted _ _ Hch)) as [Heq|Hbe].
      { left. rewrite Heq. by eapply (lead_pt_rooted n w). }
      pose proof (born_lead_pt n w Ht _ _ Hbe) as Hlp.
      destruct (Z.le_ge_cases N z.1); [left|right]; apply (lead_pt_chain n w ltac:(lia) Hc Ht T); done. }
    + left. by etrans.
    + destruct (Z.le_ge_cases y.1 z.1); [left|right]; (eapply anc_linear; [| |done]; done).
  - left. pose proof Hz as (c & y0 & Hel & Hy0 & _). etrans; [|exact Ha].
    etrans; [by eapply (lead_pt_ctip n w ltac:(lia) Hc Ht)|].
    eapply (chosen_complete n w); try done; lia.
Qed.

(** A chosen entry of a later term comes after those of earlier terms. *)
Lemma chosen_chain N t N' t' : chosen n h N t → chosen n h N' t' → t <= t' → anc b (N', t') (N, t) ∨ anc b (N, t) (N', t').
Proof using Hb Hc Hk Hn Ht.
  intros Hch Hch' Htt. pose proof (chosen_rooted _ _ Hch) as Hr. pose proof (chosen_rooted _ _ Hch') as Hr'.
  destruct (rooted_cases w _ Hr') as [->|Hb'].
  { right. exact Hr. }
  pose proof (born_lead_pt n w Ht _ _ Hb') as Hlp.
  apply (committed_lead t'); [right; by exists N, t|done].
Qed.

Lemma committed_chain T T' y y' :
  committed h T y → committed h T' y' → y.1 <= y'.1 → rooted b y' → anc b y' y.
Proof using Hb Hc Hk Hn Ht.
  intros [->|(N & t & Hch & _ & Ha)] Hy' Hle Hr'; [done|].
  pose proof (anc_rooted _ _ _ (chosen_rooted _ _ Hch) Ha) as Hry.
  destruct Hy' as [->|(N' & t' & Hch' & _ & Ha')].
  { pose proof (rooted_index _ _ Hry). cbn in Hle. rewrite (anc_same_index _ _ _ Hry) by (cbn; lia). done. }
  destruct (Z.le_ge_cases t t') as [Hle'|Hle'].
  - destruct (chosen_chain _ _ _ _ Hch Hch' Hle') as [H|H].
    + eapply anc_linear; [exact Ha'|by etrans|done].
    + eapply (anc_linear b (N, t)); [by etrans|done|done].
  - destruct (chosen_chain _ _ _ _ Hch' Hch Hle') as [H|H].
    + eapply (anc_linear b (N, t)); [by etrans|done|done].
    + eapply (anc_linear b (N', t')); [exact Ha'|by etrans|done].
Qed.

(** A leader has all the last entries of its term. *)
Lemma leader_has i z : 0 <= i < n → let r := rf (peers w i) in
  role r = Leader → lead_pt h (currentTerm r) z → anc b (tip (log r)) z.
Proof using Hb Hc Hn Ht.
  intros Hi r Hr Hz. pose proof (tr_peer _ _ Ht i Hi) as Hp. destruct (tp_lead _ _ _ Hp Hr) as [Hld _].
  pose proof Hz as (c & y & Hel & Hy & [->|[HT Hbz]]); [by eapply (lead_pt_ctip n w ltac:(lia) Hc Ht)|].
  destruct z as [k T]; cbn in HT; subst T. by apply (tp_all _ _ _ Hp).
Qed.
End facts.

(** ** Preservation *)

Section preserve.
#[local] Set Default Proof Using "All".
Context (w : Cluster C) (i : Z) (p : Peer C) (ts : list (Task C)).
Local Abbreviation w' := (update w i p ts).
Local Abbreviation r := (rf (peers w i)).
Local Abbreviation r' := (rf p).
Local Abbreviation h := (hist w).
Local Abbreviation h' := (observe i (rf p) (hist w)).
Context (Hi : 0 <= i < n) (Hb : basic_inv n w) (Hb' : basic_inv n w').
Context (Hk : ack_inv n w) (Hk' : ack_inv n w') (Hv : commit_inv w).
Context (Hmv : epoch p = epoch (peers w i) ∧ ptrans w i r r'
               ∨ epoch p = S (epoch (peers w i)) ∧ restarts r r').

Let Hn : 0 < n := Z.le_lt_trans _ _ _ (proj1 Hi) (proj2 Hi).
Let Hn0 : 0 <= n := Z.lt_le_incl _ _ Hn.
Let Hc := bi_cluster _ _ Hb.
Let Hl := bi_log _ _ Hb.
Let Ht := bi_tree _ _ Hb.
Let Hc' := bi_cluster _ _ Hb'.
Let Hl' := bi_log _ _ Hb'.
Let Ht' := bi_tree _ _ Hb'.
Let Hp := cv_peer _ Hv i Hi.

Lemma cv_grows : hgrows h h'.
Proof. exact (move_grows n w i p ts Hn0 Hi Hc Hl Ht Hc' Hl' Hmv). Qed.

Lemma cv_term : currentTerm r <= currentTerm r'.
Proof. exact (move_term n w i p ts Hn0 Hi Hc Hl Ht Hc' Hl' Hmv). Qed.

Lemma cv_wf : node_wf r.
Proof. by destruct (ci_node _ _ Hc i Hi) as (? & _). Qed.

Lemma cv_wf' : node_wf r'.
Proof. destruct (ci_node _ _ Hc' i Hi) as (Hwf & _). by rewrite peers_update, decide_True in Hwf. Qed.

Lemma cv_committed T y : T <= currentTerm r' → committed h T y → committed h' (currentTerm r') y.
Proof. intros. eapply committed_mono; [apply cv_grows|done|done]. Qed.

Lemma cv_anc x y : anc (born h) x y → anc (born h') x y.
Proof. apply anc_mono, cv_grows. Qed.

Lemma commit_keeps y : anc (born h') y (tip (log r)) → commit_at h' (currentTerm r') (commitIndex r) y.
Proof. intros Ha. eapply commit_at_mono; [apply cv_grows|apply cv_term|done|apply Hp]. Qed.

(** A committed entry of a log stays in the log that replaces it. *)
Lemma committed_stays T y z c :
  lead_pt h T y → anc (born h) y z → ¬ anc (born h) (tip (log r)) z →
  committed h T c → anc (born h) (tip (log r)) c → committed h T z ∨ z = y → anc (born h) z c.
Proof.
  intros Hy Hyz Hno Hcm Hin [Hz| ->].
  - assert (rooted (born h) z) as Hzr by (eapply anc_rooted; [by eapply (lead_pt_rooted n w)|done]).
    assert (rooted (born h) c) as Hcr by (eapply anc_rooted; [by apply (log_rooted n w)|done]).
    destruct (Z.le_ge_cases c.1 z.1).
    + by eapply (committed_chain w Hn Hb Hk T T).
    + exfalso. apply Hno. etrans; [exact Hin|]. by eapply (committed_chain w Hn Hb Hk T T).
  - destruct (committed_lead w Hn Hb Hk T c y Hcm Hy) as [?|Hcy]; [done|]. exfalso. apply Hno. by etrans.
Qed.

(** *** The commit index *)

Lemma append_commit c ep args :
  TAppend c i ep args ∈ tasks w → appended r args r' →
  commit_at h' (currentTerm r') (commitIndex r') (tip (log r')) ∧ commitIndex r <= commitIndex r'
  ∧ anc (born h') (tip (log r')) (mtip args).
Proof.
  intros Hin [HT Hres (e0 & He0 & HT0) Hcm _ _]. pose proof cv_term as Hterm. pose proof cv_grows as Hg.
  destruct (ci_task _ _ Hc _ Hin) as (_ & _ & Hae). destruct (tr_task _ _ Ht _ Hin) as [Hpos Hlp].
  pose proof (cv_task _ Hv _ Hin) as (z & Hz & Hza & Hzc).
  pose proof (ae_result_tip (born h) _ _ _ _ (nw_log _ cv_wf) Hae Hpos (lv_log _ _ Hl i Hi) (lv_msg _ _ Hl _ Hin) He0 HT0 Hres) as Htip.
  assert (anc (born h') (tip (log r')) (mtip args)) as Hm.
  { destruct Htip as [[-> ?]|[-> _]]; [by apply cv_anc|done]. }
  assert (commit_at h' (currentTerm r') (commitIndex r) (tip (log r'))) as Hold.
  { destruct Htip as [[Hlog _]|[Htp Hno]]; [apply commit_keeps; by rewrite Hlog|].
    destruct (cm_commit _ _ _ Hp) as (z0 & Hz0 & Ha0 & Hc0). exists z0. rewrite Htp.
    split_and!; [done| |by eapply cv_committed]. apply cv_anc.
    eapply (committed_stays (ae_Term args)); try done; [eapply committed_le; [|done]; lia|by right]. }
  split_and!; [| |done].
  - rewrite Hcm. destruct (_ >? _); [|done]. exists z.
    assert (anc (born h') (tip (log r')) z) as Hz' by (etrans; [exact Hm|by apply cv_anc]).
    split_and!; [|done|eapply cv_committed; [|done]; lia].
    apply anc_index in Hz'. cbn in Hz'. lia.
  - rewrite Hcm. destruct (_ >? _) eqn:E; bools; [|lia].
    assert (anc (born h') (tip (log r')) z) as Hz' by (etrans; [exact Hm|by apply cv_anc]).
    apply anc_index in Hz'. cbn in Hz'. lia.
Qed.

Lemma install_commit c ep args :
  TInstall c i ep args ∈ tasks w → is_Term args = currentTerm r' →
  is_result (log r) (is_Snapshot args) (log r') → firstIdx (log r) < LastIncludedIndex (is_Snapshot args) →
  commit_at h' (currentTerm r') (commitIndex r) (tip (log r')).
Proof.
  intros Hin HT Hres Hlt. pose proof cv_term as Hterm.
  destruct (is_result_tip (born h) _ _ _ (nw_log _ cv_wf) (lv_log _ _ Hl i Hi) Hlt Hres) as [_ [[-> _]|[-> Hno]]].
  { by apply commit_keeps. }
  destruct (tr_task _ _ Ht _ Hin) as (y & Hy & Hyz). pose proof (cv_task _ Hv _ Hin) as Hzc. cbn in Hzc.
  destruct (cm_commit _ _ _ Hp) as (z0 & Hz0 & Ha0 & Hc0). exists z0.
  split_and!; [done| |by eapply cv_committed]. apply cv_anc.
  eapply (committed_stays (is_Term args) y); try done; [eapply committed_le; [|done]; lia|by left].
Qed.

(** The peers that a leader counts have the entry, or it is committed. *)
Lemma match_commit K e :
  (∀ j m, go_index (matchIndex r') j = Some m → j ≠ i →
    m = 0 ∨ ∃ y, y.1 = m ∧ anc (born h') (tip (log r')) y
      ∧ (durable h' (currentTerm r') j y ∨ committed h' (currentTerm r') y)) →
  (∀ m, go_index (matchIndex r') i = Some m → m = 0) →
  role r' = Leader → 0 < K → entry_at (log r') K = Some e → Term e = currentTerm r' →
  nPeers r' <= 2 * (1 + Z.of_nat (length (filter (Z.le K) (matchIndex r')))) →
  committed h' (currentTerm r') (K, currentTerm r').
Proof.
  intros Hm Hown Hr HK He HTe Hcount. pose proof cv_wf' as Hwf.
  destruct (ci_node _ _ Hc' i Hi) as (_ & Hme & Hnp). rewrite peers_update, decide_True in Hme, Hnp by done. cbn in Hme, Hnp.
  pose proof (lv_log _ _ Hl' i Hi) as Hpairs. rewrite peers_update, decide_True in Hpairs by done.
  assert (anc (born h') (tip (log r')) (K, currentTerm r')) as HaK.
  { rewrite <- HTe. by apply tip_anc; [apply Hwf|..]. }
  assert (go_index (matchIndex r') (me r') = Some 0) as H0.
  { destruct (go_index_lt (matchIndex r') (me r')) as [m Hm0]; [rewrite (nw_match _ Hwf); apply Hwf|].
    rewrite Hm0. f_equal. apply Hown. by rewrite <- Hme. }
  pose proof (acked_count r' K Hwf HK H0) as Hlen.
  assert (∀ v, v ∈ acked r' K → durable h' (currentTerm r') v (K, currentTerm r') ∨ committed h' (currentTerm r') (K, currentTerm r')) as Hall.
  { intros v [Hvk Hv0%elem_peer_ids]%list_elem_of_filter. destruct (decide (v = i)) as [->|Hne].
    { left. exists (tip (log r')). split; [|done].
      pose proof (ak_lead _ _ Hk' i Hi) as Hld. rewrite peers_update, decide_True in Hld by done. by apply Hld. }
    destruct (go_index_lt (matchIndex r') v) as [m Hmv0]; [rewrite (nw_match _ Hwf); lia|].
    rewrite Hmv0 in Hvk. cbn in Hvk. destruct Hvk as [?|Hle]; [congruence|].
    destruct (Hm v m Hmv0 Hne) as [->|(y & <- & Hy & Hd)]; [lia|].
    assert (anc (born h') y (K, currentTerm r')) as HyK by by eapply anc_linear.
    destruct Hd as [(x & Hx & Hxy)|Hcy]; [left; exists x; split; [done|by etrans]|right].
    eapply committed_anc; [|done|done]. cbn; lia. }
  assert ((∀ v, v ∈ acked r' K → durable h' (currentTerm r') v (K, currentTerm r'))
    ∨ committed h' (currentTerm r') (K, currentTerm r')) as [Hd|?]; [|right|done].
  { clear - Hall. induction (acked r' K) as [|v l IH]; [left; by intros v ?%elem_of_nil|].
    destruct (Hall v ltac:(by left)); [|by right]. destruct IH as [IH|]; [intros; apply Hall; by right| |by right].
    left. intros v0 [->|?]%elem_of_cons; auto. }
  exists K, (currentTerm r'). split_and!; [|lia|done]. exists (acked r' K). split_and!.
  - apply NoDup_filter, NoDup_peer_ids.
  - intros v [_ Hv0%elem_peer_ids]%list_elem_of_filter. lia.
  - lia.
  - exact Hd.
Qed.

(** *** The new state of the peer *)

Lemma cv_pairs : pairs_ok (born h') (log r').
Proof. pose proof (lv_log _ _ Hl' i Hi) as Hpairs. by rewrite peers_update, decide_True in Hpairs. Qed.

Lemma snoc_tip (l : list (LogEntry C)) e : log r' = l ++ [e] → log_wf l → anc (born h') (tip (log r')) (tip l).
Proof.
  intros Hlog Hwf. destruct (last_entry _ Hwf) as (e0 & _ & He0 & _ & HT). unfold tip at 2. rewrite <- HT.
  apply tip_anc; [apply cv_wf'|apply cv_pairs|]. rewrite Hlog. by rewrite entry_at_app_l.
Qed.

Lemma drop_tip index e : entry_at (log r) index = Some e →
  log r' = drop (Z.to_nat (index - firstIdx (log r))) (log r) →
  tip (log r') = tip (log r) ∧ base (log r') = (index, Term e).
Proof.
  intros He Hlog. destruct (drop_to_index _ _ _ (nw_log _ cv_wf) He) as (_ & Hf & Hft & Hi1 & Hi2).
  unfold tip, base. by rewrite Hlog, Hi1, Hi2, Hf, Hft.
Qed.

Lemma leader_grows : ptrans w i r r' → role r' = Leader → anc (born h') (tip (log r')) (tip (log r)).
Proof.
  intros Htr Hr. destruct Htr as [_ []|????? _ _ _ []|_ _ Hro|_ _ _ _ Hlog|cmd _ _ Hlog|index e _ _ He Hlog
    |c ep args _ _ Hro|c ep args _ _ Hro|???? _ []|[]]; try congruence;
    try (match goal with H : log r' = log r |- _ => rewrite H; done end).
  - eapply snoc_tip; [done|apply cv_wf].
  - destruct (drop_tip _ _ He Hlog) as [-> _]. done.
Qed.

Lemma acks_ok s y m : acks w i s (currentTerm r) y m → role r = Leader →
  s ≠ i ∧ y.1 = m ∧ anc (born h) (tip (log r)) y ∧ (durable h (currentTerm r) s y ∨ committed h (currentTerm r) y).
Proof.
  intros [(ep & args & reply & Hin & Hsu & HT & -> & ->)|(ep & args & reply & Hin & HT & -> & ->)] Hr;
    destruct (ci_task _ _ Hc _ Hin) as ((_ & _ & Hne) & _ & Hw); rewrite <- HT.
  - destruct (tr_task _ _ Ht _ Hin) as [Hpos Hlp]. split_and!; [congruence|by apply mtip_index| |by apply (cv_task _ Hv _ Hin)].
    apply (leader_has w Hn Hb i); [done|done|congruence].
  - destruct (tr_task _ _ Ht _ Hin) as (z & Hz & Ha). split_and!; [congruence|done| |right; by apply (cv_task _ Hv _ Hin)].
    etrans; [|exact Ha]. apply (leader_has w Hn Hb i); [done|done|congruence].
Qed.

Lemma new_match : role r' = Leader →
  (∀ j m, go_index (matchIndex r') j = Some m → j ≠ i →
    m = 0 ∨ ∃ y, y.1 = m ∧ anc (born h') (tip (log r')) y
      ∧ (durable h' (currentTerm r') j y ∨ committed h' (currentTerm r') y))
  ∧ (∀ m, go_index (matchIndex r') i = Some m → m = 0).
Proof.
  intros Hr. destruct Hmv as [[_ Htr]|[_ []]]; [|congruence]. pose proof cv_grows as Hg.
  destruct (ptrans_leads _ _ _ _ Htr Hr) as [HT Hro]. pose proof (leader_grows Htr Hr) as Htip. rewrite HT.
  assert (∀ j y, anc (born h) (tip (log r)) y → (durable h (currentTerm r) j y ∨ committed h (currentTerm r) y) →
    anc (born h') (tip (log r')) y ∧ (durable h' (currentTerm r) j y ∨ committed h' (currentTerm r) y)) as Hup.
  { intros j y Ha Hd. split; [etrans; [exact Htip|by apply cv_anc]|].
    destruct Hd; [left; by eapply durable_mono|right; eapply committed_mono; [done|reflexivity|done]]. }
  assert (role r = Leader → ∀ j m, go_index (matchIndex r) j = Some m → j ≠ i →
    m = 0 ∨ ∃ y, y.1 = m ∧ anc (born h') (tip (log r')) y
      ∧ (durable h' (currentTerm r) j y ∨ committed h' (currentTerm r) y)) as Hold.
  { intros Hrl j m Hm Hne. destruct (cm_match _ _ _ Hp j m Hrl Hm Hne) as [?|(y & Hy & Ha & Hd)]; [by left|right].
    exists y. split; [done|]. by apply Hup. }
  assert (role r = Leader → matchIndex r' = matchIndex r →
    (∀ j m, go_index (matchIndex r') j = Some m → j ≠ i →
      m = 0 ∨ ∃ y, y.1 = m ∧ anc (born h') (tip (log r')) y
        ∧ (durable h' (currentTerm r) j y ∨ committed h' (currentTerm r) y))
    ∧ (∀ m, go_index (matchIndex r') i = Some m → m = 0)) as Hsame.
  { intros Hrl ->. split; [by apply Hold|]. intros m. by apply (cm_own _ _ _ Hp). }
  clear Htip. destruct Htr as [Hs []|????? (r1 & Hs & Hro1 & _)%grants_settles _ _ []|_ _ Hro1|_ _ _ _ _ _ _ _ Hz|cmd Hrl _ _ _ _ _ Hm
    |index e [] _ _ _ _ _ _ Hm|c ep args _ _ Hro1|c ep args _ _ Hro1|s y m Hack Hrl _ _ Hm _|[[] _ _ _] Hm]; try congruence.
  - apply Hsame; [|done]. by apply (settles_leads _ _ Hs).
  - apply Hsame; [|done]. apply (settles_leads _ _ Hs). congruence.
  - split; [intros j m Hj _; left; by eapply Hz|intros m Hj; by eapply Hz].
  - by apply Hsame.
  - apply Hsame; [congruence|done].
  - destruct (acks_ok _ _ _ Hack Hrl) as (Hsi & Hym & Ha & Hd). split.
    + intros j k Hj Hne. destruct (Hm j k Hj) as [Hj'|[-> ->]]; [by apply Hold|right]. exists y. split; [done|]. by apply Hup.
    + intros k Hj. destruct (Hm i k Hj) as [Hj'|[? _]]; [by apply (cm_own _ _ _ Hp)|congruence].
  - apply Hsame; [congruence|done].
Qed.

Lemma new_commit : commit_at h' (currentTerm r') (commitIndex r') (tip (log r')) ∧ lastApplied r' <= commitIndex r'.
Proof.
  pose proof (cm_applied _ _ _ Hp) as Happ. pose proof cv_grows as Hg. pose proof cv_term as Hterm.
  assert (log r' = log r → commitIndex r' = commitIndex r → lastApplied r' = lastApplied r →
    commit_at h' (currentTerm r') (commitIndex r') (tip (log r')) ∧ lastApplied r' <= commitIndex r') as Hsame.
  { intros -> -> ->. split; [by apply commit_keeps|done]. }
  destruct Hmv as [[_ Htr]|[_ Hrs]].
  2: { split; [|rewrite (rs_applied _ _ Hrs); lia]. exists (base (log r')).
       rewrite (rs_commit _ _ Hrs). split_and!; [done| |].
       - apply tip_anc_base; [apply cv_wf'|apply cv_pairs].
       - rewrite (rs_log _ _ Hrs), (rs_term _ _ Hrs). eapply committed_mono; [exact Hg|reflexivity|apply Hp]. }
  pose proof Htr as Htr0.
  destruct Htr as [_ []|????? _ _ _ []|_ _ _ []|_ _ _ _ Hlog _ Hcm Ha _|cmd _ _ Hlog _ Hcm Ha _|index e _ _ He Hlog _ Hcm Ha _
    |c ep args Hin _ _ Had|c ep args Hin _ _ HT Hres Hlt _ Hcm Ha|s y m Hack Hrl Hsn Ha Hm Hcm|Hsn Hm Hcm Ha]; try (by apply Hsame).
  - rewrite Hcm, Ha. split; [|done]. apply commit_keeps. eapply snoc_tip; [done|apply cv_wf].
  - rewrite Hcm, Ha. split; [|done]. apply commit_keeps. destruct (drop_tip _ _ He Hlog) as [-> _]. done.
  - destruct (append_commit _ _ _ Hin Had) as (? & ? & _). split; [done|]. rewrite (ad_applied _ _ _ Had). lia.
  - rewrite Hcm, Ha. split; [|done]. by eapply install_commit.
  - destruct Hsn as [Hsv Hlog _ _]. destruct Hcm as [Hcm|Hcm]; [by apply Hsame|].
    assert (0 <= commitIndex r) as Hpos.
    { destruct (cm_commit _ _ _ Hp) as (z & <- & Hz & _). eapply rooted_index, anc_rooted; [by apply (log_rooted n w)|done]. }
    destruct (Hcm Hpos) as (Hlt & Hcount & e & He & HTe). split; [|lia].
    assert (role r' = Leader) as Hr by (destruct Hsv; congruence). destruct (new_match Hr) as [Hm1 Hm2].
    exists (commitIndex r', currentTerm r'). split_and!; [done| |].
    + rewrite <- HTe. apply tip_anc; [apply cv_wf'|apply cv_pairs|done].
    + eapply match_commit; try done. lia.
  - split; [|by apply Ha]. destruct Hsn as [Hsv Hlog _ _]. rewrite Hlog. destruct Hcm as [-> | ->]; [by apply commit_keeps|].
    exists (base (log r)). split_and!; [done| |eapply cv_committed; [|apply Hp]; apply Hterm].
    apply cv_anc, tip_anc_base; [apply cv_wf|by apply Hl].
Qed.

Lemma new_base_committed : committed h' (currentTerm r') (base (log r')).
Proof.
  pose proof cv_term as Hterm.
  assert (base (log r') = base (log r) → committed h' (currentTerm r') (base (log r'))) as Hsame.
  { intros ->. eapply cv_committed; [apply Hterm|apply Hp]. }
  destruct Hmv as [[_ Htr]|[_ Hrs]].
  2: { rewrite (rs_log _ _ Hrs). eapply cv_committed; [apply Hterm|apply Hp]. }
  destruct Htr as [_ []|????? _ _ _ []|_ _ _ []|_ _ _ _ Hlog|cmd _ _ Hlog|index e _ Hidx He Hlog
    |c ep args Hin _ _ [_ Hres (e0 & He0 & HT0) _ _ _]|c ep args Hin _ _ HT Hres Hlt|???? _ [_ Hlog _ _]|[_ Hlog _ _]];
    try (apply Hsame; congruence).
  - apply Hsame. rewrite Hlog. unfold base.
    by destruct (firstIdx_app (log r) [MkLogEntry cmd (lastIdx (log r) + 1) (currentTerm r)] (lw_nonempty _ (nw_log _ cv_wf))) as [-> ->].
  - destruct (drop_tip _ _ He Hlog) as [_ ->]. destruct (cm_commit _ _ _ Hp) as (z & Hz & Hza & Hzc).
    pose proof (cm_applied _ _ _ Hp). eapply cv_committed; [apply Hterm|].
    assert (anc (born h) (tip (log r)) (index, Term e)) as Ha by (apply tip_anc; [apply cv_wf|by apply Hl|done]).
    eapply committed_anc; [|exact Hzc|eapply anc_linear; [exact Hza|exact Ha|cbn; lia]].
    eapply rooted_index, anc_rooted; [by apply (log_rooted n w)|exact Ha].
  - apply Hsame. destruct (ci_task _ _ Hc _ Hin) as (_ & _ & Hae).
    destruct (ae_result_wf _ _ _ _ (nw_log _ cv_wf) Hae He0 HT0 Hres) as (_ & Hf & Hft & _). unfold base. congruence.
  - destruct (is_result_tip (born h) _ _ _ (nw_log _ cv_wf) (lv_log _ _ Hl i Hi) Hlt Hres) as [-> _].
    eapply cv_committed; [|apply (cv_task _ Hv _ Hin)]. lia.
Qed.

Lemma new_cm_sync : tip (dlog r') = tip (log r') ∨ committed h' (currentTerm r') (tip (log r')).
Proof.
  pose proof cv_term as Hterm.
  assert (tip (log r') = tip (log r) → dlog r' = dlog r ∨ dlog r' = log r ∨ dlog r' = log r' →
    tip (dlog r') = tip (log r') ∨ committed h' (currentTerm r') (tip (log r'))) as Hsame.
  { intros Htip [Hd|[Hd|Hd]]; rewrite Hd, ?Htip; [|by left..].
    destruct (cm_sync _ _ _ Hp) as [?|?]; [left; congruence|right; eapply cv_committed; [apply Hterm|done]]. }
  destruct Hmv as [[_ Htr]|[_ Hrs]].
  2: { left. by rewrite (rs_log _ _ Hrs), (rs_disk _ _ Hrs). }
  destruct Htr as [_ [Hlog _ _ _ Hd]|????? _ _ _ [Hlog _ _ _ Hd]|_ _ _ _ Hd|_ _ _ _ Hlog Hd|cmd _ _ _ Hd|index e _ _ _ _ Hd
    |c ep args Hin _ _ [_ _ _ _ Hd _]|c ep args Hin _ _ HT Hres Hlt Hd|???? _ [_ Hlog Hpe _]|[_ Hlog Hpe _]].
  - apply Hsame; [congruence|tauto].
  - apply Hsame; [congruence|tauto].
  - left. congruence.
  - apply Hsame; [congruence|tauto].
  - left. congruence.
  - left. congruence.
  - destruct Hd as [Hd|[Hlog Hd]]; [left; congruence|]. apply Hsame; [congruence|tauto].
  - destruct (is_result_tip (born h) _ _ _ (nw_log _ cv_wf) (lv_log _ _ Hl i Hi) Hlt Hres) as [_ [[Htip _]|[Htip _]]].
    + apply Hsame; [done|tauto].
    + right. rewrite Htip. eapply cv_committed; [|apply (cv_task _ Hv _ Hin)]. lia.
  - apply Hsame; [congruence|left; by apply dlog_same].
  - apply Hsame; [congruence|left; by apply dlog_same].
Qed.

Lemma new_cpeer : cpeer h' i r'.
Proof.
  destruct new_commit as [Hcm Ha]. split; try done.
  - apply new_base_committed.
  - pose proof cv_term. destruct (move_disk n w i p ts Hn0 Hi Hc Hl Ht Hc' Hl' Hmv) as [->|[->| ->]];
      [| |apply new_base_committed]; (eapply cv_committed; [done|apply Hp]).
  - apply new_cm_sync.
  - intros j m Hr. by apply new_match.
  - intros m Hr. by apply new_match.
Qed.

(** *** Tasks *)

Lemma new_ctask t : new_task w i (peers w i) p t → ctask h' t.
Proof.
  intros Hnew. pose proof cv_grows as Hg. pose proof cv_wf as Hwf.
  destruct t as [c s ep a args|c s ep a args reply|c s ep T|c s ep args|c s ep args reply|c s ep args|c s ep args reply];
    cbn [new_task] in Hnew; try done.
  - destruct Hnew as (-> & _ & _ & _ & Hargs). destruct (mtip_make _ _ _ Hwf Hargs) as [Hm _]. cbn. rewrite Hm.
    destruct (makeAppendArgsL_spec _ _ _ Hwf Hargs) as (_ & -> & _ & -> & _).
    eapply commit_at_mono; [exact Hg|reflexivity|reflexivity|apply Hp].
  - destruct Hnew as (-> & Hin & Had). cbn. intros Hsu. specialize (Had Hsu).
    destruct (append_commit _ _ _ Hin Had) as (_ & _ & Hm). rewrite (ad_term _ _ _ Had).
    destruct new_cm_sync as [Hd|Hcm].
    + left. exists (tip (dlog r')). split; [apply seen_observe; by right|by rewrite Hd].
    + right. eapply committed_anc; [|exact Hcm|exact Hm].
      eapply rooted_index, anc_rooted; [|exact Hm].
      pose proof (log_rooted n w' Hc' Hl' Ht' i Hi) as Hr. by rewrite peers_update, decide_True in Hr.
  - destruct Hnew as (-> & _ & _ & _ & ->). cbn. destruct (nw_snap _ Hwf) as [HI HT]. unfold snap_pt; cbn. rewrite HI, HT.
    eapply committed_mono; [exact Hg|reflexivity|apply Hp].
  - destruct Hnew as (-> & Hin). apply (ctask_mono h h' (TInstall c i ep args)); [done|]. by apply (cv_task _ Hv).
Qed.

Lemma commit_inv_move : (∀ t, t ∈ ts → t ∈ tasks w ∨ new_task w i (peers w i) p t) → commit_inv w'.
Proof.
  intros Hts. pose proof cv_grows as Hg. split.
  - intros j Hj. rewrite peers_update. case_decide as Hd; [subst j; apply new_cpeer|].
    destruct (cv_peer _ Hv j Hj) as [Hcm Hba Hdi Hsy Hap Hma Hown]. split; try done.
    + eapply commit_at_mono; [exact Hg|reflexivity|reflexivity|done].
    + eapply committed_mono; [exact Hg|reflexivity|done].
    + eapply committed_mono; [exact Hg|reflexivity|done].
    + destruct Hsy; [by left|right; eapply committed_mono; [exact Hg|reflexivity|done]].
    + intros k m Hr Hm Hne. destruct (Hma k m Hr Hm Hne) as [?|(y & Hy & Ha & Hdc)]; [by left|right]. exists y.
      split_and!; [done|by apply cv_anc|].
      destruct Hdc; [left; by eapply durable_mono|right; eapply committed_mono; [exact Hg|reflexivity|done]].
  - intros t Hin. destruct (Hts t Hin); [|by apply new_ctask]. eapply ctask_mono; [exact Hg|by apply (cv_task _ Hv)].
Qed.
End preserve.

Lemma commit_inv_init envs : commit_inv (init n envs).
Proof.
  split; [|by intros t ?%elem_of_nil]. intros i Hi.
  assert (∀ T, committed (hist (init n envs)) T (0, 0)) as H0 by by left.
  split; cbn; try done.
  - exists (0, 0). split_and!; [done|apply anc_refl|apply H0].
  - by left.
Qed.

Lemma commit_inv_drop w k : commit_inv w → commit_inv (MkCluster (peers w) (delete k (tasks w)) (hist w)).
Proof. intros []. split; cbn; [done|]. intros t ?%elem_of_delete. by apply cv_task0. Qed.
End commit.

(** ** The invariant of every run *)

Section runs.
Context {C : Type} `{!GobCodec (PState C), !GobLaws (PState C)}.
Context (n : Z).
Implicit Types (w : Cluster C).

Record full_inv w : Prop := {
  fi_basic : basic_inv n w;
  fi_ack : ack_inv n w;
  fi_commit : commit_inv n w;
}.

Lemma full_inv_init envs : full_inv (init n envs).
Proof. split; [apply basic_inv_init|apply ack_inv_init|apply commit_inv_init]. Qed.

Lemma full_inv_step w w' :
  0 <= n → full_inv w → dstep n w w' → full_inv w' ∧ hgrows (hist w) (hist w').
Proof.
  intros Hn [Hb Hk Hv] Hs. destruct (basic_inv_step n _ _ Hn Hb Hs) as [Hb' Hm].
  destruct Hm as [[k ->]|(i & p & ts & Hi & -> & Hmv & Hts)].
  - split; [|done]. split; [done|by apply ack_inv_drop|by apply commit_inv_drop].
  - assert (ack_inv n (update w i p ts)) as Hk' by by apply ack_inv_move.
    split; [|exact (cv_grows n w i p ts Hi Hb Hb' Hk Hk' Hv Hmv)].
    split; [done|done|by apply commit_inv_move].
Qed.

Lemma dreachable_inv w : 0 <= n → dreachable n w → full_inv w.
Proof.
  intros Hn [envs Hw]. revert Hw. apply (rtc_ind_r (λ w, full_inv w)); [apply full_inv_init|].
  intros w1 w2 _ Hs Hi. by apply (full_inv_step w1).
Qed.

Lemma runs_grow w w' : 0 <= n → full_inv w → rtc (dstep n) w w' → full_inv w' ∧ hgrows (hist w) (hist w').
Proof.
  intros Hn Hw Hr. revert Hw. induction Hr as [w|w1 w2 w3 Hs Hr IH]; intros Hw; [by split|].
  destruct (full_inv_step _ _ Hn Hw Hs) as [Hw2 Hg]. destruct (IH Hw2) as [Hw3 Hg']. split; [done|].
  destruct Hg, Hg'. split; by etrans.
Qed.

(** The leader's log has what is committed up to its term. *)
Lemma leader_committed w i y : 0 <= i < n → full_inv w → let r := rf (peers w i) in
  role r = Leader → committed n (hist w) (currentTerm r) y → anc (born (hist w)) (tip (log r)) y.
Proof.
  intros Hi [[Hc Hl Ht] Hk Hv] r Hr [->|(N & t & Hch & HtT & Ha)]; [by apply (log_rooted n w)|].
  etrans; [|exact Ha]. destruct (tp_lead _ _ _ (tr_peer _ _ Ht i Hi) Hr) as [Hlp _].
  destruct (Z.eq_dec t (currentTerm r)) as [->|Hne].
  - destruct (rooted_cases w _ (chosen_rooted n w ltac:(lia) Hk _ _ Hch)) as [->|Hbe]; [by apply (log_rooted n w)|].
    by apply (tp_all _ _ _ (tr_peer _ _ Ht i Hi)).
  - pose proof Hlp as (c & y0 & Hel & Hy & _). etrans; [by eapply (lead_pt_ctip n w ltac:(lia) Hc Ht)|].
    eapply (chosen_complete n w); try done; [lia|]. fold r. lia.
Qed.
End runs.
