(* ===== verification/RaftProps.v ===== *)
(** * Package [raft]: the properties of single operations

    The functional behaviour of the operations of raft.go on a well-formed
    peer: what a vote or an accepted message means, what is on disk when a peer
    crashes, when an entry is committed, and in which order entries are
    applied. *)

From S2P Require Import Prelude Util Labgob RaftState RaftHandlers RaftLeader RaftNode RaftRecv RaftSend RaftCluster RaftElection RaftClusterInv RaftSteps RaftSafety.

Section props.
Context {C : Type} `{!GobCodec (PState C), !GobLaws (PState C)}.
Implicit Types (r : Raft C).

(** The conditions of section 5.2 and 5.4.1 for granting a vote. *)
Definition may_vote r (args : RequestVoteArgs) : Prop :=
  (currentTerm r < rv_Term args
   ∨ currentTerm r = rv_Term args ∧ (votedFor r = NA ∨ votedFor r = rv_CandidateId args))
  ∧ (lastTerm (log r) < rv_LastLogTerm args
     ∨ lastTerm (log r) = rv_LastLogTerm args ∧ lastIdx (log r) <= rv_LastLogIndex args).

(** C36: [RequestVote] grants a vote exactly when the candidate's term is not
    old, no other candidate has the vote of the term, and the candidate's log is
    at least as up to date; when it does, the vote and the term are on disk
    before the reply leaves, and the log is untouched either way. *)
Theorem RequestVote_correct env r args :
  node_wf r → 0 <= rv_CandidateId args →
  ∃ r' reply, RequestVote env r args = Some (r', reply) ∧ node_wf r' ∧ log r' = log r
    ∧ currentTerm r' = Z.max (currentTerm r) (rv_Term args) ∧ rvr_Term reply = currentTerm r'
    ∧ (rvr_VoteGranted reply = true ↔ may_vote r args)
    ∧ (rvr_VoteGranted reply = true →
         votedFor r' = rv_CandidateId args ∧ on_disk r' (log r')).
Proof.
  intros Hwf Hid.
  destruct (RequestVote_spec env r args Hwf) as (r' & reply & Hrun & Hwf' & Hl & Hrt & _).
  exists r', reply. split_and!; try done.
  - clear Hwf' Hl Hrt. unfold RequestVote in Hrun.
    destruct (settle_higher_term r (rv_Term args) Hwf) as (_ & _ & _ & Hct & _).
    set (r1 := if _ >? _ then _ else r) in *. rewrite <- Hct. clearbody r1.
    destruct (lastLogL r1); cbn [mbind option_bind] in Hrun; [|done].
    destruct (_ <? _); [by injection Hrun as <- _|]. destruct (_ && _); [|by injection Hrun as <- _].
    rewrite resetElectionTimeoutL_frame in Hrun. by injection Hrun as <- _.
  - unfold RequestVote in Hrun. unfold may_vote.
    destruct (settle_higher_term r (rv_Term args) Hwf) as (Hwf1 & _ & Hl1 & Hct & _).
    assert (rv_Term args <= currentTerm r → (if rv_Term args >? currentTerm r
      then becomeFollowerL r (rv_Term args) else r) = r) as Hsame.
    { intros. destruct (_ >? _) eqn:E; bools; [lia|done]. }
    assert (currentTerm r < rv_Term args → votedFor (if rv_Term args >? currentTerm r
      then becomeFollowerL r (rv_Term args) else r) = NA) as Hnew.
    { intros. destruct (_ >? _) eqn:E; bools; [done|lia]. }
    set (r1 := if _ >? _ then _ else r) in *. clearbody r1.
    destruct (lastLogL_spec _ (nw_log _ Hwf1)) as (lst & Hlst & HI & HT).
    rewrite Hlst in Hrun. cbn [mbind option_bind] in Hrun. rewrite Hl1 in HI, HT. unfold upToDate in Hrun.
    destruct (rv_Term args <? currentTerm r1) eqn:E1; bools.
    { injection Hrun as _ <-. cbn. split; [done|]. intros [[?|[? _]] _]; lia. }
    destruct (_ && _) eqn:E2; injection Hrun as _ <-; cbn; (split; try done).
    + intros _. bools. destruct H0; bools; (split; [|lia]).
      all: destruct (Z.lt_trichotomy (currentTerm r) (rv_Term args)) as [|[|]]; [by left|right|lia].
      all: rewrite Hsame in H by lia; destruct H; bools; auto.
    + intros [Hv Hup]. exfalso. bools.
      assert ((votedFor r1 =? NA) || (votedFor r1 =? rv_CandidateId args) = true) as Hv1.
      { destruct Hv as [Hlt|[Heq Hv]]; [rewrite Hnew by done; done|]. rewrite Hsame by lia.
        apply orb_true_iff. destruct Hv as [->| ->]; [left|right]; apply Z.eqb_refl. }
      destruct E2 as [E2|E2]; [congruence|]. bools. destruct H0; bools; lia.
  - intros Hg. unfold RequestVote in Hrun. set (r1 := if _ >? _ then _ else r) in *. clearbody r1.
    destruct (lastLogL r1); cbn [mbind option_bind] in Hrun; [|done].
    destruct (_ <? _); [by injection Hrun as _ <-|]. destruct (_ && _); [|by injection Hrun as _ <-].
    rewrite resetElectionTimeoutL_frame in Hrun. injection Hrun as <- _. split; [done|].
    apply (persistL_on_disk (set_votedFor r1 (rv_CandidateId args))).
Qed.

(** C35: [AppendEntries] that succeeds leaves a log that has the previous entry
    and all entries of the message with their terms; it never touches an entry
    at or before [PrevLogIndex], and a log that has all the entries already is
    not truncated (a delayed message removes nothing).  The commit index becomes
    the smaller of [LeaderCommit] and the last index of the log if that is an
    advance.  A refused message changes neither the log nor the commit index. *)
Theorem AppendEntries_correct env r args :
  node_wf r → ae_wf args →
  ∃ r' reply, AppendEntries env r args = Some (r', reply) ∧ node_wf r'
    ∧ aer_Term reply = currentTerm r' ∧ currentTerm r <= currentTerm r'
    ∧ if aer_Success reply then
        ae_Term args = currentTerm r'
        ∧ (∃ e, entry_at (log r') (ae_PrevLogIndex args) = Some e ∧ Term e = ae_PrevLogTerm args)
        ∧ (∀ (k : nat) e, ae_Entries args !! k = Some e →
             ∃ e', entry_at (log r') (ae_PrevLogIndex args + 1 + Z.of_nat k) = Some e' ∧ Term e' = Term e)
        ∧ (∀ i, i <= ae_PrevLogIndex args → entry_at (log r') i = entry_at (log r) i)
        ∧ (matched (log r) args (length (ae_Entries args)) → log r' = log r)
        ∧ commitIndex r' = (if ae_LeaderCommit args >? commitIndex r
                            then Z.min (ae_LeaderCommit args) (lastIdx (log r')) else commitIndex r)
      else log r' = log r ∧ commitIndex r' = commitIndex r.
Proof.
  intros Hwf Hae.
  destruct (AppendEntries_spec env r args Hwf Hae) as (r1 & r' & reply & Hrun & _ & Hwf' & Hst & [Hrt Hsu Hfa] & _).
  exists r', reply. split_and!; try done; [by apply settles_term|].
  destruct (aer_Success reply); [|by apply Hfa]. destruct (Hsu eq_refl) as (HT & Hres & (e0 & He0 & Ht0) & Hci).
  pose proof (nw_log _ Hwf) as Hl.
  pose proof (ae_result_prefix _ _ _ _ Hl Hae He0 Ht0 Hres) as Hpre.
  split_and!; try done.
  - exists e0. split; [|done]. by rewrite Hpre by lia.
  - intros k e. by eapply ae_result_entries.
  - by apply ae_result_matched.
Qed.

(** C37: crash recovery.  A peer restarted on the state that [persistL] saved has
    the term, the vote, the log and the snapshot it had, starts as a follower,
    and takes the entries covered by the snapshot as committed and applied. *)
Theorem crash_recovery env r :
  node_wf r →
  ∃ r', Make env (nPeers r) (me r) (persister (persistL r)) = Some r' ∧ node_wf r'
    ∧ currentTerm r' = currentTerm r ∧ votedFor r' = votedFor r ∧ log r' = log r
    ∧ snapshot r' = snapshot r ∧ role r' = Follower
    ∧ commitIndex r' = firstIdx (log r) ∧ lastApplied r' = firstIdx (log r).
Proof.
  intros Hwf. pose proof (nw_log _ Hwf) as Hl.
  assert (node_wf (persistL r)) as Hwf'.
  { destruct Hwf; split; cbn; try done. by apply persistL_persisted. }
  destruct (Make_spec env (persistL r) Hwf') as (r' & Hm & Hr' & _ & _ & Hct & Hvf & Hro & _).
  exists r'. rewrite <- Hm. split; [done|]. clear Hwf'.
  unfold Make, initL, readPersist, ReadRaftState in Hm. cbn [persister persistL set_persister raftstate
    SaveStateAndSnapshot] in Hm.
  pose proof (gob_nonempty (currentTerm r, votedFor r, log r)) as Hne.
  destruct (gob_encode _) as [|b bs] eqn:Eb; [done|]. rewrite <- Eb, gob_roundtrip in Hm.
  cbn [mbind option_bind] in Hm. destruct (first_entry _ Hl) as (e & _ & He & HI & HT).
  set (r2 := set_log _ (log r)) in Hm. change (log r2) with (log r) in Hm.
  assert (go_index (log r) 0 = Some e) as He0 by by (change 0 with (Z.of_nat 0); rewrite go_index_nat).
  rewrite He0 in Hm. cbn [mbind option_bind] in Hm.
  rewrite logFirstIndexL_spec in Hm by done. cbn [mbind option_bind] in Hm. injection Hm as <-.
  destruct (nw_snap _ Hwf) as [Hs1 Hs2].
  assert (snapshot r = MkSnapshot (Index e) (Term e) (Data (snapshot r))) as Hsnap.
  { rewrite HI, HT, <- Hs1, <- Hs2. by destruct (snapshot r). }
  destruct (_ =? 0); rewrite ?resetElectionTimeoutL_frame in *; split_and!; try done; cbn; by rewrite Hsnap.
Qed.

(** A leader commits an entry only of its own term, and only when the peers
    known to have it, itself included, meet every majority that can elect a
    later leader; the commit index then grows.  (The code takes the element
    [nPeers/2 + 1] of the sorted match indices, in which its own is 0.) *)
Theorem commit_quorum r r' Q :
  node_wf r → 0 <= commitIndex r → go_index (matchIndex r) (me r) = Some 0 →
  setCommitIndexL r = Some (r', true) → majority (nPeers r) Q →
  commitIndex r < commitIndex r'
  ∧ (∃ e, entry_at (log r) (commitIndex r') = Some e ∧ Term e = currentTerm r)
  ∧ ∃ i, i ∈ Q ∧ i ∈ acked r (commitIndex r').
Proof.
  intros Hwf Hc Hme H HQ. destruct (setCommitIndexL_count r r' Hwf Hc H) as (Hlt & Hn & He).
  split_and!; [done|done|].
  pose proof (acked_count r (commitIndex r') Hwf ltac:(lia) Hme) as Hk.
  pose proof (nw_me _ Hwf). apply (half_meets_majority (nPeers r)); [lia| |done|lia].
  unfold acked. split; [apply NoDup_filter, NoDup_peer_ids|].
  intros i [_ Hi]%list_elem_of_filter. by apply elem_peer_ids.
Qed.

(** The leader's search after a refused message makes progress.  When a
    follower that has not cut its log beyond [PrevLogIndex] refuses a message,
    the leader's next message to it starts at an earlier index, so repeated
    refusals end; the search itself always ends. *)
Theorem backtrack_progress f l server args ct ci :
  node_wf f → node_wf l → 0 <= server < nPeers l →
  ae_PrevLogIndex args <= lastIdx (log l) → firstIdx (log f) <= ae_PrevLogIndex args →
  prevLogConflictL f args = Some (true, ct, ci) →
  ∃ l' next, processPrevLogConflictL l server args (MkAppendEntriesReply (currentTerm f) false ct ci) = Some l'
    ∧ node_wf l' ∧ same_node l l' ∧ go_index (nextIndex l') server = Some next
    ∧ next <= ae_PrevLogIndex args.
Proof.
  intros Hf Hl Hs Hprev Hfirst Hc.
  destruct (prevLogConflictL_spec f args (nw_log _ Hf)) as (b & ct' & ci' & Hc' & _ & Hle & _).
  rewrite Hc in Hc'. injection Hc' as <- <- <-. specialize (Hle eq_refl Hfirst).
  unfold processPrevLogConflictL. cbn [aer_ConflictTerm aer_ConflictFirstIndex].
  rewrite logFirstIndexL_spec by apply Hl. cbn [mbind option_bind].
  pose proof (nw_next _ Hl) as Hnext.
  assert (∀ index, index <= ae_PrevLogIndex args →
    ∃ l' next, (ns ← go_update (nextIndex l) server index; Some (set_nextIndex l ns)) = Some l'
      ∧ node_wf l' ∧ same_node l l' ∧ go_index (nextIndex l') server = Some next
      ∧ next <= ae_PrevLogIndex args) as Hset.
  { intros index Hi. rewrite go_update_eq by lia. cbn [mbind option_bind]. unfold go_len in Hnext.
    eexists _, index. split_and!; [done| |done| |done].
    - apply node_wf_set_nextIndex; [done|]. unfold go_len. by rewrite length_insert.
    - apply go_index_lookup. split; [lia|]. cbn. apply list_lookup_insert_eq. lia. }
  destruct (_ || _); [by apply Hset|]. rewrite Max_spec.
  edestruct (matchSearch_spec (Z.to_nat (ae_PrevLogIndex args - 1 - Z.max ci (firstIdx (log l) + 1) + 1))
    l ct (Z.max ci (firstIdx (log l) + 1)) (ae_PrevLogIndex args - 1)) as (x & -> & ?); [apply Hl|lia..|].
  apply Hset. lia.
Qed.

(** The applier delivers the committed entries in order, each once.  A
    command it sends is the entry after the last one applied, is committed, and
    becomes the last one applied; a snapshot it sends lies after everything
    applied, so the service never moves back. *)
Theorem apply_delivers r r' msg :
  node_wf r → apply r = Some (r', Some msg) →
  (CommandValid msg = true ∧ SnapshotValid msg = false
    ∧ CommandIndex msg = lastApplied r + 1 ∧ lastApplied r' = lastApplied r + 1
    ∧ CommandIndex msg <= commitIndex r ∧ firstIdx (log r) < CommandIndex msg
    ∧ commitIndex r' = commitIndex r
    ∧ ∃ e, entry_at (log r) (CommandIndex msg) = Some e ∧ MsgCommand msg = Command e)
  ∨ (CommandValid msg = false ∧ SnapshotValid msg = true
    ∧ SnapshotIndex msg = firstIdx (log r) ∧ MsgSnapshot msg = Data (snapshot r)
    ∧ lastApplied r < SnapshotIndex msg ∧ lastApplied r' = SnapshotIndex msg
    ∧ commitIndex r' = SnapshotIndex msg).
Proof.
  intros Hwf H. destruct (nw_snap _ Hwf) as [Hsn _]. pose proof (nw_log _ Hwf) as Hl.
  unfold apply, applySnapshotL in H.
  destruct (applier r); try done.
  - destruct (killed r); [done|]. destruct (applySnapshot r).
    + cbn in H. rewrite Hsn in H. destruct (_ >? _) eqn:E; bools.
      * injection H as <- <-. right. cbn. split_and!; try done.
      * left. by apply (apply_command_Some (set_applySnapshot r false) _ _ Hl) in H.
    + left. by apply (apply_command_Some _ _ _ Hl) in H.
  - left. by apply (apply_command_Some _ _ _ Hl) in H.
Qed.

(** [Snapshot] keeps the log after [index] and cuts off what the snapshot
    covers: the entry at [index] becomes the first of the log, its index and
    term are those of the snapshot, every entry from there on is unchanged, and
    the shortened log is on disk.  An index that a snapshot covers already
    changes nothing. *)
Theorem SnapshotL_correct r index data :
  node_wf r → index <= lastIdx (log r) →
  ∃ r', SnapshotL r index data = Some r' ∧ node_wf r'
    ∧ if index <=? firstIdx (log r) then r' = r
      else firstIdx (log r') = index ∧ lastIdx (log r') = lastIdx (log r)
        ∧ snapshot r' = MkSnapshot index (firstTerm (log r')) data
        ∧ on_disk r' (log r') ∧ psnapshot (persister r') = data
        ∧ ∀ i, index <= i → entry_at (log r') i = entry_at (log r) i.
Proof.
  intros Hwf Hi. pose proof (nw_log _ Hwf) as Hl.
  destruct (SnapshotL_spec r index data Hwf Hi) as (r' & Hrun & Hwf' & _ & _ & Hr).
  exists r'. split_and!; [done|done|]. destruct (Z.leb_spec index (firstIdx (log r))).
  { destruct Hr as [[-> _]|[? _]]; [done|lia]. }
  destruct Hr as [[_ ?]|(_ & Hd & e & He & Hlog & Hsnap)]; [lia|].
  destruct (drop_to_index _ _ _ Hl He) as (_ & Hf & Hft & Hla & _). rewrite Hlog. split_and!; try done.
  - by rewrite Hft.
  - by rewrite <- Hlog.
  - clear - Hrun Hl Hi H He. unfold SnapshotL in Hrun. rewrite logFirstIndexL_spec in Hrun by done.
    cbn [mbind option_bind] in Hrun. destruct (_ >? _) eqn:E; bools; [|lia].
    rewrite trimLogL_spec in Hrun by (done || lia). cbn [mbind option_bind] in Hrun.
    destruct (go_index _ 0); cbn [mbind option_bind] in Hrun; [|done]. by injection Hrun as <-.
  - intros i Hii. apply entry_at_bounds in He as Hb; [|done]. pose proof (last_idx _ Hl). unfold go_len in *.
    apply entry_at_drop; [done|lia|lia].
Qed.

(** The election timeout is reset to 8 to 16 heartbeat intervals from now,
    and to at most 8 when a peer starts; so a follower that hears from a leader
    at every heartbeat does not start an election. *)
Theorem election_timeout_bounds env r (init : bool) :
  0 <= env_rand env →
  let d := electionTimeout (resetElectionTimeoutL env r init) - env_now env in
  if init then 0 <= d < MinTimeout * HeartbeatsInterval
  else MinTimeout * HeartbeatsInterval <= d < MaxTimeout * HeartbeatsInterval.
Proof.
  intros Hr. unfold resetElectionTimeoutL, MinTimeout, MaxTimeout, HeartbeatsInterval, Millisecond.
  pose proof (Z.rem_bound_pos (env_rand env) (16 - 8) Hr ltac:(lia)).
  destruct init; cbn [electionTimeout set_electionTimeout]; lia.
Qed.

(** With two peers a leader cannot commit: the first successful reply of
    [AppendEntries] makes [setCommitIndexL] index its two match indices at 2 and
    panic. *)
Theorem two_peers_panic r server args reply :
  node_wf r → nPeers r = 2 → role r = Leader → currentTerm r = ae_Term args →
  aer_Success reply = true → processAppendReplyL r server args reply = None.
Proof.
  intros Hwf Hn Hr Ht Hs. unfold processAppendReplyL, role_eqb.
  rewrite bool_decide_true, Hs, (proj2 (Z.eqb_eq _ _) Ht) by done. cbn [andb].
  destruct (updateMatchAndNextL r server _) as [r1|] eqn:E; cbn [mbind option_bind]; [|done].
  destruct (updateMatchAndNextL_node _ _ _ _ Hwf E) as (Hwf1 & [Hsv _ _ _] & _).
  pose proof (nw_match _ Hwf1) as Hlen. unfold go_len in Hlen. rewrite (sv_n _ _ Hsv), Hn in Hlen.
  unfold setCommitIndexL. rewrite (sv_n _ _ Hsv), Hn. set (s := merge_sort _ _).
  assert (length s = 2%nat) as Hls.
  { unfold s. rewrite merge_sort_Permutation, length_app, length_replicate, length_take. lia. }
  destruct (go_index s _) as [N|] eqn:EN; [exfalso|done].
  apply go_index_lookup in EN as [_ EN%lookup_lt_Some]. rewrite Hls in EN.
  change (Z.to_nat (2 ÷ 2 + 1)) with 2%nat in EN. lia.
Qed.
End props.
