(* ===== verification/RaftRuns.v ===== *)
(** * Package [raft]: concrete runs

    Runs of three peers, evaluated by the kernel.  They are the inputs at which
    the general theorems are applied, and one of them shows a peer that votes
    twice in a term. *)

From S2P Require Import Prelude Util Labgob RaftState RaftHandlers RaftLeader RaftNode RaftRecv RaftSend RaftCluster RaftElection RaftClusterInv RaftLogMatching RaftSteps RaftSafety RaftProps.

(** ** Commands that are integers, with a codec *)

#[export] Instance LogEntry_countable : Countable (LogEntry Z).
Proof.
  refine (inj_countable' (λ e, (Command e, Index e, Term e))
    (λ x, MkLogEntry x.1.1 x.1.2 x.2) _); by intros [].
Defined.

#[export] Instance pstate_codec : GobCodec (PState Z) := countable_codec.
#[export] Instance pstate_laws : GobLaws (PState Z) := countable_laws.

(** ** Runs *)

Definition late : Env := MkEnv (10 ^ 12) 5.
Definition start_envs : Z → Env := λ _, MkEnv 0 3.

(** The state after a list of actions. *)
Definition after (acts : list (Action Z)) : Cluster Z :=
  default (init 3 start_envs) (execs 3 acts (init 3 start_envs)).

Definition completes (acts : list (Action Z)) : bool :=
  match execs 3 acts (init 3 start_envs) with Some _ => true | None => false end.

Lemma after_reachable acts : completes acts = true → reachable 3 (after acts).
Proof.
  unfold completes, after. destruct (execs 3 acts _) as [w|] eqn:E; [|done]. intros _.
  eapply execs_reachable; [|exact E]. exists start_envs. apply rtc_refl.
Qed.

Lemma after_exec acts act :
  completes (acts ++ [act]) = true → exec 3 act (after acts) = Some (after (acts ++ [act])).
Proof.
  unfold completes, after. rewrite execs_app. destruct (execs 3 acts _) as [w|]; [|done].
  cbn. by destruct (exec 3 act w).
Qed.

(** Peer 0 is elected in term 1; it starts the command 7, replicates it to peer
    1 and commits it. *)
Definition elect : list (Action Z) := [ATick 0 late; ARun 0 late; ARun 0 late].
Definition replicate7 : list (Action Z) :=
  elect ++ [AStart 0 (Some 7); ARun 0 late; ARun 0 late; ARun 0 late].

(** Peers 0 and 1 are candidates of term 1; peer 0 is elected by peer 2, and
    its first message makes peer 1 step down. *)
Definition rivals : list (Action Z) :=
  [ATick 1 late; ATick 0 late; ARun 1 late; ARun 1 late].
Definition revote : list (Action Z) := rivals ++ [ARun 0 late; ARun 0 late; ARun 2 late].

(** A peer can vote twice in a term.  After [rivals] peer 1 has voted for
    itself in term 1; three steps later, in the same term, its vote is for peer
    0, because stepping down cleared [votedFor].  The paper's invariant of one
    vote per term does not hold; election safety does nevertheless. *)
Theorem double_vote :
  reachable 3 (after rivals) ∧ reachable 3 (after revote)
  ∧ rtc (step 3) (after rivals) (after revote)
  ∧ let r := rf (peers (after rivals) 1) in let r' := rf (peers (after revote) 1) in
    currentTerm r = 1 ∧ votedFor r = 1 ∧ currentTerm r' = 1 ∧ votedFor r' = 0.
Proof.
  split; [apply after_reachable; vm_compute; reflexivity|].
  split; [apply after_reachable; vm_compute; reflexivity|].
  split; [|split_and!; vm_compute; reflexivity].
  eapply rtc_l; [exists (ARun 0 late); apply after_exec; vm_compute; reflexivity|].
  eapply rtc_l; [exists (ARun 0 late); apply after_exec; vm_compute; reflexivity|].
  eapply rtc_l; [exists (ARun 2 late); apply after_exec; vm_compute; reflexivity|].
  apply rtc_refl.
Qed.

(** ** Witnesses *)

Lemma election_safety_witness :
  role (rf (peers (after elect) 0)) = Leader
  ∧ ∀ j, 0 <= j < 3 → role (rf (peers (after elect) j)) = Leader →
    1 = currentTerm (rf (peers (after elect) j)) → 0 = j.
Proof.
  split; [vm_compute; reflexivity|]. intros j Hj Hr Ht.
  apply (election_safety 3 (after elect) 0 j); [lia| |lia|lia|vm_compute; reflexivity|done|].
  - apply after_reachable. vm_compute. reflexivity.
  - rewrite <- Ht. vm_compute. reflexivity.
Defined.

(** Two commands, both on peers 0 and 1. *)
Definition replicate78 : list (Action Z) :=
  replicate7 ++ [AStart 0 (Some 8); ARun 0 late; ARun 0 late; ARun 0 late].

Lemma log_matching_witness :
  entry_at (log (rf (peers (after replicate78) 0))) 2 = Some (MkLogEntry (Some 8) 2 1)
  ∧ entry_at (log (rf (peers (after replicate78) 0))) 1
    = entry_at (log (rf (peers (after replicate78) 1))) 1.
Proof.
  split; [vm_compute; reflexivity|].
  apply (log_matching 3 (after replicate78) 0 1 2 1 (MkLogEntry (Some 8) 2 1) (MkLogEntry (Some 8) 2 1));
    [lia| |lia|lia|vm_compute; reflexivity|vm_compute; reflexivity|reflexivity|lia
    |vm_compute; reflexivity|vm_compute; reflexivity].
  apply after_reachable. vm_compute. reflexivity.
Defined.

Lemma leader_append_only_witness :
  let r := rf (peers (after replicate7) 0) in let r' := rf (peers (after (replicate7 ++ [AStart 0 (Some 8)])) 0) in
  (∃ entries, log r' = log r ++ entries)
  ∨ ∃ index data e, AStart 0 (Some 8) = ASnapshot 0 index data ∧ entry_at (log r) index = Some e
      ∧ log r' = drop (Z.to_nat (index - firstIdx (log r))) (log r).
Proof.
  apply (leader_append_only 3 (after replicate7) (AStart 0 (Some 8))); [lia| | |lia|vm_compute; reflexivity].
  - apply after_reachable. vm_compute. reflexivity.
  - apply after_exec. vm_compute. reflexivity.
Defined.

Lemma term_never_decreases_witness :
  currentTerm (rf (peers (after elect) 0)) <= currentTerm (rf (peers (after (elect ++ [ARestart 0 late])) 0)).
Proof.
  apply (term_never_decreases 3); [lia| |].
  - apply after_reachable. vm_compute. reflexivity.
  - eapply rtc_once. exists (ARestart 0 late). apply after_exec. vm_compute. reflexivity.
Defined.

Lemma vote_kept_witness :
  let r := rf (peers (after elect) 0) in
  let r' := rf (peers (after (elect ++ [ARestart 0 late])) 0) in
  votedFor r' = votedFor r
  ∨ (role r = Candidate ∧ votedFor r = 0 ∧ role r' = Follower ∧ votedFor r' = NA).
Proof.
  apply (vote_kept 3 _ (ARestart 0 late)); [lia| | |lia|vm_compute; reflexivity|vm_compute; discriminate].
  - apply after_reachable. vm_compute. reflexivity.
  - apply after_exec. vm_compute. reflexivity.
Defined.

Lemma handlers_return_witness : is_Some (exec 3 (ARun 0 late) (after [ATick 0 late])).
Proof.
  apply (handlers_return 3); [|vm_compute; exact I].
  apply after_reachable. vm_compute. reflexivity.
Defined.

(** *** Peers of a run are well-formed inputs *)

Definition node (acts : list (Action Z)) (i : Z) : Raft Z := rf (peers (after acts) i).

Lemma node_ok acts i : completes acts = true → 0 <= i < 3 → node_wf (node acts i).
Proof.
  intros Hc Hi. destruct (ci_node 3 _ (reachable_inv 3 _ (after_reachable acts Hc)) i Hi) as (H & _). exact H.
Qed.

Definition ask : RequestVoteArgs := MkRequestVoteArgs 1 0 0 0.

Lemma RequestVote_correct_witness :
  ∃ r' reply, RequestVote late (node [] 1) ask = Some (r', reply)
    ∧ rvr_VoteGranted reply = true ∧ votedFor r' = 0.
Proof.
  destruct (RequestVote_correct late (node [] 1) ask) as (r' & reply & H & _ & _ & _ & _ & Hg & Hv).
  - apply node_ok; [vm_compute; reflexivity|lia].
  - vm_compute. discriminate.
  - assert (rvr_VoteGranted reply = true) as Hyes.
    { apply Hg. split; [left; vm_compute; reflexivity|right]. split; vm_compute; [reflexivity|discriminate]. }
    exists r', reply. split; [exact H|]. split; [exact Hyes|]. apply (Hv Hyes).
Defined.

(** A message with the command 8 after the entry of [replicate7]. *)
Definition msg8 : AppendEntriesArgs Z :=
  MkAppendEntriesArgs 1 0 1 1 [MkLogEntry (Some 8) 2 1] 1.

Lemma msg8_wf : ae_wf msg8.
Proof.
  split; cbn.
  - lia.
  - intros [|k] e ?; simplify_eq/=. lia.
  - intros [|i] [|j] e e' ???; simplify_eq/=. lia.
  - intros e ->%list_elem_of_singleton. cbn. lia.
  - intros e ->%list_elem_of_singleton. cbn. lia.
Qed.

Lemma AppendEntries_correct_witness :
  ∃ r' reply, AppendEntries late (node replicate7 1) msg8 = Some (r', reply)
    ∧ currentTerm (node replicate7 1) <= currentTerm r'.
Proof.
  destruct (AppendEntries_correct late (node replicate7 1) msg8) as (r' & reply & H & _ & _ & Ht & _).
  - apply node_ok; [vm_compute; reflexivity|lia].
  - apply msg8_wf.
  - exists r', reply. split; [exact H|exact Ht].
Defined.

Lemma crash_recovery_witness :
  ∃ r', Make late 3 0 (persister (persistL (node replicate7 0))) = Some r'
    ∧ log r' = log (node replicate7 0).
Proof.
  destruct (crash_recovery late (node replicate7 0)) as (r' & H & _ & _ & _ & Hl & _).
  - apply node_ok; [vm_compute; reflexivity|lia].
  - exists r'. split; [exact H|exact Hl].
Defined.

(** The leader of [replicate7] just before it counts the reply of peer 1. *)
Definition counting : Raft Z := set_matchIndex (node replicate7 0) [0; 1; 0].

Lemma commit_quorum_witness :
  ∃ i, i ∈ [1; 2] ∧ i ∈ acked (set_commitIndex counting 0) 1.
Proof.
  destruct (commit_quorum (set_commitIndex counting 0) counting [1; 2]) as (_ & _ & i & Hi).
  - apply node_wf_set_commitIndex, node_wf_set_matchIndex; [|vm_compute; reflexivity].
    apply node_ok; [vm_compute; reflexivity|lia].
  - vm_compute. discriminate.
  - vm_compute. reflexivity.
  - vm_compute. reflexivity.
  - split; [apply (bool_decide_eq_true_1 (NoDup [1; 2])); vm_compute; reflexivity|].
    split; [vm_compute; reflexivity|]. change (nPeers (set_commitIndex counting 0)) with 3.
    intros i Hi. apply elem_of_cons in Hi as [->|Hi]; [lia|]. apply list_elem_of_singleton in Hi. lia.
  - exists i. exact Hi.
Defined.

(** A leader whose log is longer than the follower's. *)
Lemma backtrack_progress_witness :
  ∃ l' next, processPrevLogConflictL (node replicate78 0) 2
      (MkAppendEntriesArgs 1 0 2 1 [] 1) (MkAppendEntriesReply 0 false NA 1) = Some l'
    ∧ go_index (nextIndex l') 2 = Some next ∧ next <= 2.
Proof.
  destruct (backtrack_progress (node replicate78 2) (node replicate78 0) 2
    (MkAppendEntriesArgs 1 0 2 1 [] 1) NA 1) as (l' & next & H & _ & _ & Hn & Hle).
  - apply node_ok; [vm_compute; reflexivity|lia].
  - apply node_ok; [vm_compute; reflexivity|lia].
  - split; [lia|vm_compute; reflexivity].
  - vm_compute. discriminate.
  - vm_compute. discriminate.
  - vm_compute. reflexivity.
  - exists l', next. split; [exact H|]. split; [exact Hn|exact Hle].
Defined.

Lemma apply_delivers_witness :
  ∃ r' msg, apply (node replicate7 0) = Some (r', Some msg)
    ∧ (CommandIndex msg = 1 ∧ MsgCommand msg = Some 7 ∨ SnapshotValid msg = true).
Proof.
  destruct (apply (node replicate7 0)) as [[r' [msg|]]|] eqn:E; [|vm_compute in E; discriminate E..].
  exists r', msg. split; [reflexivity|].
  destruct (apply_delivers (node replicate7 0) r' msg) as [(_ & _ & Hi & _ & _ & _ & _ & e & He & Hc)|(_ & Hs & _)].
  - apply node_ok; [vm_compute; reflexivity|lia].
  - exact E.
  - left. assert (CommandIndex msg = 1) as Hi1 by (rewrite Hi; vm_compute; reflexivity).
    split; [exact Hi1|]. rewrite Hc. rewrite Hi1 in He. vm_compute in He. injection He as <-. reflexivity.
  - right. exact Hs.
Defined.

Lemma SnapshotL_correct_witness :
  ∃ r', SnapshotL (node replicate78 0) 1 [Byte.x07] = Some r'
    ∧ if 1 <=? firstIdx (log (node replicate78 0)) then r' = node replicate78 0
      else firstIdx (log r') = 1.
Proof.
  destruct (SnapshotL_correct (node replicate78 0) 1 [Byte.x07]) as (r' & H & _ & Hr).
  - apply node_ok; [vm_compute; reflexivity|lia].
  - vm_compute. discriminate.
  - exists r'. split; [exact H|]. destruct (_ <=? _); [exact Hr|apply Hr].
Defined.

Lemma election_timeout_bounds_witness :
  MinTimeout * HeartbeatsInterval
  <= electionTimeout (resetElectionTimeoutL late (node [] 0) false) - env_now late
  < MaxTimeout * HeartbeatsInterval.
Proof. apply (election_timeout_bounds late (node [] 0) false). vm_compute. discriminate. Defined.

(** A leader of two peers. *)
Definition leader2 : Raft Z :=
  set_role (set_votedFor (set_currentTerm (new_raft late 2 0 MakePersister) 1) 0) Leader.

Lemma leader2_wf : node_wf (persistL leader2).
Proof.
  assert (log_wf (log leader2)) as Hl by (apply log_wf_singleton; vm_compute; discriminate).
  split; try done; try (vm_compute; done).
  apply persistL_persisted; [done|vm_compute; discriminate].
Qed.

Lemma two_peers_panic_witness :
  processAppendReplyL (persistL leader2) 1 (MkAppendEntriesArgs 1 0 0 0 [] 0)
    (MkAppendEntriesReply 1 true 0 0) = None.
Proof.
  apply two_peers_panic; [apply leader2_wf|reflexivity..].
Defined.
