(* ===== verification/RaftStateMachine.v ===== *)
(** * Leader completeness and state machine safety

    The two remaining guarantees of figure 3 of the Raft paper, for every run of
    the cluster in which the service takes snapshots only of entries that were
    delivered to it: with messages lost, delayed and reordered, peers that crash
    and restart from their disks, and snapshots that replace prefixes of logs. *)

From S2P Require Import Prelude Util Labgob RaftState RaftHandlers RaftLeader RaftNode RaftRecv RaftSend RaftCluster RaftElection RaftClusterInv RaftLogMatching RaftSteps RaftSafety RaftTree RaftTrans RaftAncestry RaftCompleteness RaftCommit RaftProps RaftRuns.

Section state_machine.
Context {C : Type} `{!GobCodec (PState C), !GobLaws (PState C)}.
Context (n : Z).
Implicit Types (w : Cluster C).

(** An entry up to the commit index is committed, and the tree has its command. *)
Lemma committed_entry w i k e : let r := rf (peers w i) in
  full_inv n w → 0 <= i < n → entry_at (log r) k = Some e → firstIdx (log r) < k <= commitIndex r →
  committed n (hist w) (currentTerm r) (k, Term e) ∧ rooted (born (hist w)) (k, Term e)
  ∧ Index e = k ∧ ∃ T, born (hist w) !! (k, Term e) = Some (T, Command e).
Proof.
  intros r [[Hc Hl Ht] Hk Hv] Hi He Hrange. destruct (ci_node _ _ Hc i Hi) as (Hwf & _). fold r in Hwf.
  pose proof (nw_log _ Hwf) as Hlw. pose proof (lv_log _ _ Hl i Hi) as Hp. fold r in Hp.
  pose proof (tip_anc _ _ _ _ Hlw Hp He) as Ha.
  assert (rooted (born (hist w)) (k, Term e)) as Hr by (eapply anc_rooted; [by apply (log_rooted n w)|done]).
  destruct (cm_commit _ _ _ _ (cv_peer _ _ Hv i Hi)) as (z & Hz & Hza & Hzc).
  split_and!; [|done|by eapply entry_at_Index|].
  - eapply committed_anc; [|exact Hzc|eapply anc_linear; [exact Hza|exact Ha|cbn; fold r in Hz; lia]].
    by apply (rooted_index _ _ Hr).
  - pose proof (entry_at_bounds _ _ _ Hlw He).
    destruct (entry_at_range (log r) (k - 1) Hlw ltac:(lia)) as [e0 He0].
    exists (Term e0). by eapply pairs_ok_at.
Qed.

(** Committed entries with one index are one entry, at all peers and times. *)
Lemma committed_agree w w' i j k e e' :
  0 <= n → dreachable n w → rtc (dstep n) w w' → 0 <= i < n → 0 <= j < n →
  let r := rf (peers w i) in let r' := rf (peers w' j) in
  entry_at (log r) k = Some e → firstIdx (log r) < k <= commitIndex r →
  entry_at (log r') k = Some e' → firstIdx (log r') < k <= commitIndex r' → e = e'.
Proof.
  intros Hn Hw Hrun Hi Hj r r' He Hk He' Hk'. pose proof (dreachable_inv n w Hn Hw) as Hf.
  destruct (runs_grow n _ _ Hn Hf Hrun) as [Hf' Hg].
  destruct (committed_entry w i k e Hf Hi He Hk) as (Hcm & _ & HI & T & Hb).
  destruct (committed_entry w' j k e' Hf' Hj He' Hk') as (Hcm' & Hr' & HI' & T' & Hb').
  pose proof (committed_chain n w' ltac:(lia) (fi_basic _ _ Hf') (fi_ack _ _ Hf') _ _ _ _
    (committed_mono n _ _ _ _ _ Hg (Z.le_refl _) Hcm) Hcm' (Z.le_refl _) Hr') as Ha.
  apply anc_same_index in Ha; [|done]. injection Ha as HT. rewrite HT in Hb'.
  pose proof (lookup_weaken _ _ _ _ Hb (hg_born _ _ Hg)). destruct e, e'; cbn in *. congruence.
Qed.

(** C2: state machine safety, in the runs in which every service takes its
    snapshots at entries that have been delivered to it (an index up to
    [lastApplied], as the services of this repository do; with other snapshots it
    fails).  In every such run of a cluster of any size, if a peer delivers a command
    to its service with some index and a peer (the same or another, then or later,
    after any number of crashes, restarts, elections and such snapshots) delivers a
    command with that index, the commands are equal. *)
Theorem state_machine_safety w w' i j r1 r2 msg msg' :
  0 <= n → dreachable n w → rtc (dstep n) w w' → 0 <= i < n → 0 <= j < n →
  apply (rf (peers w i)) = Some (r1, Some msg) → apply (rf (peers w' j)) = Some (r2, Some msg') →
  CommandValid msg = true → CommandValid msg' = true → CommandIndex msg = CommandIndex msg' →
  MsgCommand msg = MsgCommand msg'.
Proof.
  intros Hn Hw Hrun Hi Hj Ha Ha' Hv Hv' Heq.
  assert (reachable n w') as Hw'.
  { destruct (dreachable_reachable _ _ Hw) as [envs H]. exists envs. etrans; [exact H|].
    eapply rtc_subrel; [|exact Hrun]. apply dstep_step. }
  destruct (ci_node _ _ (reachable_inv n _ (dreachable_reachable _ _ Hw)) i Hi) as (Hwf & _).
  destruct (ci_node _ _ (reachable_inv n _ Hw') j Hj) as (Hwf' & _).
  destruct (apply_command_entry _ _ _ Hwf Ha Hv) as (? & ? & e & He & ->).
  destruct (apply_command_entry _ _ _ Hwf' Ha' Hv') as (? & ? & e' & He' & ->). rewrite <- Heq in *.
  by rewrite (committed_agree w w' i j _ e e' Hn Hw Hrun Hi Hj He ltac:(lia) He' ltac:(lia)).
Qed.

(** C3: leader completeness, in the runs in which every service takes its snapshots
    at entries that have been delivered to it (with other snapshots it fails).  In
    such a run of a cluster of any size, when a peer's commit index covers an entry
    of its log, every peer that leads then or later, in that peer's term or a later
    one, has the entry in its log, unless a snapshot has replaced it. *)
Theorem leader_completeness w w' i j k e :
  0 <= n → dreachable n w → rtc (dstep n) w w' → 0 <= i < n → 0 <= j < n →
  let r := rf (peers w i) in let l := rf (peers w' j) in
  entry_at (log r) k = Some e → firstIdx (log r) < k <= commitIndex r →
  role l = Leader → currentTerm r <= currentTerm l → firstIdx (log l) < k →
  entry_at (log l) k = Some e.
Proof.
  intros Hn Hw Hrun Hi Hj r l He Hk Hld HT Hfl. pose proof (dreachable_inv n w Hn Hw) as Hf.
  destruct (runs_grow n _ _ Hn Hf Hrun) as [Hf' Hg].
  destruct (committed_entry w i k e Hf Hi He Hk) as (Hcm & Hr & HI & T & Hb). fold r in Hcm.
  pose proof Hf' as [Hbi' Hk' Hv']. pose proof Hbi' as [Hc' Hl' Ht']. destruct (ci_node _ _ Hc' j Hj) as (Hwf' & _).
  assert (anc (born (hist w')) (tip (log l)) (k, Term e)) as Ha.
  { apply (leader_committed n w' j _ Hj Hf' Hld). by eapply (committed_mono n). }
  destruct (tip_anc_inv _ _ _ _ (nw_log _ Hwf') (lv_log _ _ Hl' j Hj) Ha) as (e' & He' & HTe); [fold l; lia|]. fold l in He'.
  pose proof (entry_at_bounds _ _ _ (nw_log _ Hwf') He') as Hbd. fold l in Hbd.
  destruct (entry_at_range (log l) (k - 1) (nw_log _ Hwf') ltac:(lia)) as [e0 He0].
  pose proof (pairs_ok_at _ _ _ _ _ (nw_log _ Hwf') (lv_log _ _ Hl' j Hj) He0 He') as Hb'. rewrite HTe in Hb'.
  pose proof (lookup_weaken _ _ _ _ Hb (hg_born _ _ Hg)). pose proof (entry_at_Index _ _ _ (nw_log _ Hwf') He').
  rewrite He'. f_equal. destruct e, e'; cbn in *. congruence.
Qed.
End state_machine.

(** ** A run with a snapshot *)

Definition disciplinedb (w : Cluster Z) (act : Action Z) : bool :=
  match act with ASnapshot i index _ => index <=? lastApplied (rf (peers w i)) | _ => true end.

Lemma disciplinedb_spec w act : disciplinedb w act = true → disciplined w act.
Proof. destruct act; cbn; try done. intros. bools. done. Qed.

(** The run of [acts] from [w], with the discipline checked. *)
Fixpoint dexecs (acts : list (Action Z)) (w : Cluster Z) : option (Cluster Z) :=
  match acts with
  | [] => Some w
  | act :: acts => if disciplinedb w act then w ← exec 3 act w; dexecs acts w else None
  end.

Lemma dexecs_run acts w w' : dexecs acts w = Some w' → rtc (dstep 3) w w'.
Proof.
  revert w. induction acts as [|act acts IH]; intros w H; cbn in H; [by simplify_eq|].
  destruct (disciplinedb w act) eqn:Ed; [|done]. destruct (exec 3 act w) as [w1|] eqn:E; cbn in H; [|done].
  eapply rtc_l; [|by apply IH]. exists act. split; [by apply disciplinedb_spec|done].
Qed.

Lemma dexecs_execs acts w : is_Some (dexecs acts w) → dexecs acts w = execs 3 acts w.
Proof.
  revert w. induction acts as [|act acts IH]; intros w [w' H]; cbn in *; [done|].
  destruct (disciplinedb w act); [|done]. destruct (exec 3 act w); cbn in *; [|done]. apply IH. eauto.
Qed.

Definition dcompletes (acts : list (Action Z)) : bool := bool_decide (is_Some (dexecs acts (init 3 start_envs))).

Lemma after_dexecs acts : dcompletes acts = true → dexecs acts (init 3 start_envs) = Some (after acts).
Proof.
  intros H%bool_decide_eq_true. unfold after. rewrite <- dexecs_execs by done. by destruct H as [w ->].
Qed.

Lemma after_dreachable acts : dcompletes acts = true → dreachable 3 (after acts).
Proof. intros H%after_dexecs%dexecs_run. by exists start_envs. Qed.

Lemma dexecs_app acts acts' w : dexecs (acts ++ acts') w = (w' ← dexecs acts w; dexecs acts' w').
Proof.
  revert w. induction acts as [|act acts IH]; intros w; cbn; [done|].
  destruct (disciplinedb w act); [|done]. destruct (exec 3 act w); cbn; [apply IH|done].
Qed.

Lemma after_drun acts acts' : dcompletes (acts ++ acts') = true → rtc (dstep 3) (after acts) (after (acts ++ acts')).
Proof.
  intros H%after_dexecs. rewrite dexecs_app in H. destruct (dexecs acts (init 3 start_envs)) as [w|] eqn:E; [|done].
  cbn in H. apply (dexecs_run acts'). assert (after acts = w) as ->; [|done].
  unfold after. rewrite <- dexecs_execs by (rewrite E; eauto). by rewrite E.
Qed.

(** After [replicate7] the leader delivers the command, takes a snapshot of it
    and sends a heartbeat, which tells peer 1 that the command is committed. *)
Definition snapshot_and_heartbeat : list (Action Z) :=
  [AApply 0; ASnapshot 0 1 [Byte.x07]; ATick 0 late; ARun 0 late; ARun 0 late].

(** The applier is about to deliver the command with index [k]. *)
Definition sends (r : Raft Z) (k : Z) : bool :=
  match apply r with Some (_, Some msg) => CommandValid msg && (CommandIndex msg =? k) | _ => false end.

Lemma sends_spec r k : sends r k = true →
  ∃ r1 msg, apply r = Some (r1, Some msg) ∧ CommandValid msg = true ∧ CommandIndex msg = k.
Proof.
  unfold sends. destruct (apply r) as [[r1 [msg|]]|]; try done. intros. bools. eauto.
Qed.

Lemma state_machine_safety_witness :
  ∃ r1 r2 msg msg', apply (rf (peers (after replicate7) 0)) = Some (r1, Some msg)
    ∧ apply (rf (peers (after (replicate7 ++ snapshot_and_heartbeat)) 1)) = Some (r2, Some msg')
    ∧ CommandIndex msg = 1 ∧ MsgCommand msg = MsgCommand msg'.
Proof.
  destruct (sends_spec (rf (peers (after replicate7) 0)) 1) as (r1 & msg & E1 & V1 & I1); [vm_compute; reflexivity|].
  destruct (sends_spec (rf (peers (after (replicate7 ++ snapshot_and_heartbeat)) 1)) 1) as (r2 & msg' & E2 & V2 & I2);
    [vm_compute; reflexivity|].
  exists r1, r2, msg, msg'. split; [exact E1|]. split; [exact E2|]. split; [exact I1|].
  apply (state_machine_safety 3 (after replicate7) (after (replicate7 ++ snapshot_and_heartbeat)) 0 1 r1 r2 msg msg');
    [discriminate| | |split; [discriminate|reflexivity]|split; [discriminate|reflexivity]|exact E1|exact E2|exact V1|exact V2|congruence].
  - apply after_dreachable. vm_compute. reflexivity.
  - apply after_drun. vm_compute. reflexivity.
Defined.

(** Then peer 1 is elected in term 2. *)
Definition later : Env := MkEnv (10 ^ 13) 5.
Definition elect1 : list (Action Z) :=
  snapshot_and_heartbeat ++ [ATick 1 later; ARun 0 later; ARun 0 later].

Lemma leader_completeness_witness :
  role (node (replicate7 ++ elect1) 1) = Leader ∧ currentTerm (node (replicate7 ++ elect1) 1) = 2
  ∧ entry_at (log (node (replicate7 ++ elect1) 1)) 1 = Some (MkLogEntry (Some 7) 1 1).
Proof.
  split; [vm_compute; reflexivity|]. split; [vm_compute; reflexivity|].
  apply (leader_completeness 3 (after replicate7) (after (replicate7 ++ elect1)) 0 1);
    [lia| | |lia|lia|vm_compute; reflexivity|vm_compute; split; [reflexivity|discriminate]|vm_compute; reflexivity
    |vm_compute; discriminate|vm_compute; reflexivity].
  - apply after_dreachable. vm_compute. reflexivity.
  - apply after_drun. vm_compute. reflexivity.
Defined.
