(* ===== verification/RaftTotal.v ===== *)
(** * No step of Raft panics

    The RPC handlers return on every message ([handlers_return]).  What is left
    are the steps of a leader, which index its log with what followers told it,
    the applier, and snapshots.  The invariant [lead_inv]: the next indices of a
    leader do not go beyond the end of its log, whatever the replies in flight
    say, and its match indices, and those in flight, are committed or not
    before the start of its log. *)

From S2P Require Import Prelude Util Labgob RaftState RaftHandlers RaftLeader RaftNode RaftRecv RaftSend RaftCluster RaftElection RaftClusterInv RaftLogMatching RaftSteps RaftSafety RaftTree RaftTrans RaftAncestry RaftCompleteness RaftCommit RaftRuns RaftStateMachine.

(** ** What the operations do to the next indices *)

Section next.
Context {C : Type} `{!GobCodec (PState C), !GobLaws (PState C)}.
Implicit Types (r : Raft C).

Lemma next_higher (x : bool) r T : nextIndex (if x then becomeFollowerL r T else r) = nextIndex r.
Proof. by destruct x. Qed.

Lemma next_reset env r x : nextIndex (resetElectionTimeoutL env r x) = nextIndex r.
Proof. by rewrite resetElectionTimeoutL_frame. Qed.

Lemma next_signal r : nextIndex (applySignalL r) = nextIndex r.
Proof. by rewrite applySignalL_frame. Qed.

Lemma RequestVote_next env r args r' reply :
  RequestVote env r args = Some (r', reply) → nextIndex r' = nextIndex r.
Proof.
  unfold RequestVote. intros H. destruct (lastLogL _); cbn [mbind option_bind] in H; [|done].
  destruct (_ <? _); [injection H as <- _; apply next_higher|].
  destruct (_ && _); injection H as <- _; rewrite ?next_reset; cbn; apply next_higher.
Qed.

Lemma ae_preamble_next env r args : nextIndex (ae_preamble env r args) = nextIndex r.
Proof.
  unfold ae_preamble. destruct (_ >=? _); cbn; rewrite ?next_reset; by rewrite !next_higher.
Qed.

Lemma AppendEntries_next env r args r' reply :
  node_wf r → ae_wf args → AppendEntries env r args = Some (r', reply) → nextIndex r' = nextIndex r.
Proof.
  intros Hwf Hae H.
  destruct (AppendEntries_spec env r args Hwf Hae) as (r1 & r2 & reply2 & H2 & -> & _ & _ & _ & Hw).
  rewrite H in H2. injection H2 as <- <-. rewrite <- (ae_preamble_next env r args).
  destruct Hw as [[Hw _]|Hw]; apply (f_equal nextIndex) in Hw; exact Hw.
Qed.

Lemma InstallSnapshot_next env r args r' reply :
  InstallSnapshot env r args = Some (r', reply) → nextIndex r' = nextIndex r.
Proof.
  unfold InstallSnapshot. set (r1 := if is_Term args >? _ then _ else r).
  assert (nextIndex r1 = nextIndex r) as <- by apply next_higher. clearbody r1.
  set (r2 := if _ >=? _ then _ else r1). intros H.
  assert (nextIndex r2 = nextIndex r1) as <-.
  { subst r2. destruct (_ >=? _); [|done]. exact (next_reset env r1 false). }
  clearbody r2. destruct (_ <? _); [by injection H as <- _|].
  destruct (logFirstIndexL r2); cbn [mbind option_bind] in H; [|done].
  destruct (_ >=? _); [by injection H as <- _|]. set (r3 := set_snapshot _ _) in H.
  destruct (lastLogL r3); cbn [mbind option_bind] in H; [|done].
  destruct (if _ >=? _ then _ else _) as [retain|]; cbn [mbind option_bind] in H; [|done].
  destruct (if retain then _ else _) as [r4|] eqn:E4; cbn [mbind option_bind] in H; [|done].
  assert (∃ l, r4 = set_log r3 l) as [l4 ->].
  { destruct retain; [|injection E4 as <-; eauto]. unfold trimLogL in E4. runs. destruct (_ <? _); [done|]. runs. eauto. }
  injection H as <- _. by rewrite next_signal.
Qed.

Lemma becomeCandidateL_next env r r' sp : becomeCandidateL env r = Some (r', sp) → nextIndex r' = nextIndex r.
Proof.
  unfold becomeCandidateL. set (r1 := set_leaderId _ NA). intros H.
  destruct (requestsL _); cbn [mbind option_bind] in H; [|done]. injection H as <- _.
  etrans; [exact (next_reset env (persistL r1) false)|done].
Qed.

Lemma tick_next env r r' sp : tick env r = Some (r', sp) → nextIndex r' = nextIndex r.
Proof.
  unfold tick. intros H. destruct (role_eqb _ _); [by simplify_eq|].
  destruct (_ >? _); [by eapply becomeCandidateL_next|by simplify_eq].
Qed.

Lemma Start_next r command r' res sp : Start r command = Some (r', res, sp) → nextIndex r' = nextIndex r.
Proof.
  unfold Start. intros H. destruct (role_eqb _ _); [|by simplify_eq].
  destruct (lastLogL r); cbn [mbind option_bind] in H; [|done]. by injection H as <- _ _.
Qed.

Lemma SnapshotL_next r index data r' : SnapshotL r index data = Some r' → nextIndex r' = nextIndex r.
Proof.
  unfold SnapshotL. intros H. destruct (logFirstIndexL r); cbn [mbind option_bind] in H; [|done].
  destruct (_ >? _); [|by simplify_eq]. unfold trimLogL in H. runs. destruct (_ <? _); runs; done.
Qed.

Lemma apply_next r r' msg : apply r = Some (r', msg) → nextIndex r' = nextIndex r.
Proof.
  assert (∀ r r' msg, apply_command r = Some (r', msg) → nextIndex r' = nextIndex r) as Hcmd.
  { clear. intros r r' msg H. unfold apply_command, apply_tail in H.
    destruct (_ >? _).
    - destruct (logFirstIndexL _); cbn [mbind option_bind] in H; [|done].
      destruct (_ <=? _); [by injection H as <- _|].
      destruct (getLogL _ _); cbn [mbind option_bind] in H; [|done]. by injection H as <- _.
    - destruct (_ && _); by injection H as <- _. }
  unfold apply, apply_tail, applySnapshotL. intros H. destruct (applier r).
  - destruct (killed r); [by injection H as <- _|]. destruct (applySnapshot r); [|by apply Hcmd in H].
    destruct (_ >? _); [by injection H as <- _|by apply Hcmd in H].
  - by apply Hcmd in H.
  - destruct (_ && _); by injection H as <- _.
  - by injection H as <- _.
  - by injection H as <- _.
Qed.
End next.

(** ** The leader's arrays *)

Section arrays.
Context {C : Type} `{!GobCodec (PState C), !GobLaws (PState C)}.
Implicit Types (r : Raft C).

Lemma updateMatchAndNextL_spec r s m :
  node_wf r → 0 <= s < nPeers r →
  ∃ m0 x0, go_index (matchIndex r) s = Some m0 ∧ go_index (nextIndex r) s = Some x0
    ∧ updateMatchAndNextL r s m
      = Some (set_nextIndex (set_matchIndex r (<[Z.to_nat s := Z.max m m0]> (matchIndex r)))
               (<[Z.to_nat s := Z.max (m + 1) x0]> (nextIndex r))).
Proof.
  intros Hwf Hs. pose proof (nw_match _ Hwf) as Hm. pose proof (nw_next _ Hwf) as Hn.
  destruct (go_index_lt (matchIndex r) s) as [m0 Hm0]; [lia|].
  destruct (go_index_lt (nextIndex r) s) as [x0 Hx0]; [lia|].
  exists m0, x0. split_and!; [done|done|]. unfold updateMatchAndNextL. rewrite Hm0. cbn [mbind option_bind].
  pose proof (proj2 (proj1 (go_index_lookup _ _ _) Hm0)) as Hm0'.
  pose proof (proj2 (proj1 (go_index_lookup _ _ _) Hx0)) as Hx0'.
  assert ((if m >? m0 then ms ← go_update (matchIndex r) s m; Some (set_matchIndex r ms) else Some r)
    = Some (set_matchIndex r (<[Z.to_nat s := Z.max m m0]> (matchIndex r)))) as ->.
  { destruct (m >? m0) eqn:E; bools.
    - rewrite go_update_eq by lia. by rewrite Z.max_l by lia.
    - rewrite Z.max_r, list_insert_id by (done || lia). by destruct r. }
  cbn [mbind option_bind nextIndex set_matchIndex]. rewrite Hx0. cbn [mbind option_bind].
  destruct (m >=? x0) eqn:E; bools.
  - rewrite go_update_eq by lia. cbn [mbind option_bind]. by rewrite (Z.max_l (m + 1)) by lia.
  - rewrite (Z.max_r _ x0), (list_insert_id (nextIndex r)) by (done || lia). by destruct r.
Qed.

(** The index that is looked up in the sorted match indices exists unless there
    are two peers; what is found there is a match index. *)
Lemma setCommitIndexL_total r :
  node_wf r → 3 <= nPeers r →
  (∀ j m, go_index (matchIndex r) j = Some m → m <= lastIdx (log r) ∧ (m <= commitIndex r ∨ firstIdx (log r) <= m)) →
  is_Some (setCommitIndexL r).
Proof.
  intros Hwf Hn Hm. unfold setCommitIndexL. pose proof (nw_match _ Hwf) as Hlen. unfold go_len in Hlen.
  rewrite take_ge by lia.
  replace (Z.to_nat (nPeers r) - length (matchIndex r))%nat with 0%nat by lia. rewrite app_nil_r.
  set (srt := merge_sort Z.le (matchIndex r)). assert (srt ≡ₚ matchIndex r) as Hp by apply merge_sort_Permutation.
  rewrite Z.quot_div_nonneg by lia.
  pose proof (Z.div_mod (nPeers r) 2 ltac:(lia)). pose proof (Z.mod_pos_bound (nPeers r) 2 ltac:(lia)).
  destruct (go_index_lt srt (nPeers r `div` 2 + 1)) as [N HN]; [unfold go_len; rewrite Hp; lia|].
  rewrite HN. cbn [mbind option_bind]. destruct (N >? commitIndex r) eqn:E; bools; [|by eexists].
  assert (N ∈ matchIndex r) as Hin.
  { rewrite <- Hp. apply go_index_lookup in HN as [_ HN]. by eapply list_elem_of_lookup_2. }
  apply list_elem_of_lookup in Hin as [j Hj]. rewrite <- go_index_nat in Hj.
  destruct (Hm _ _ Hj) as [Hlast Hcov]. rewrite getLogL_spec by apply Hwf.
  destruct (entry_at_range (log r) N (nw_log _ Hwf)) as [e ->]; [lia|]. cbn [mbind option_bind].
  destruct (_ =? _); by eexists.
Qed.

(** After a refusal the leader goes back in its own log, or to where the
    follower's log ends or begins. *)
Lemma processPrevLogConflictL_spec r s args reply :
  node_wf r → 0 <= s < nPeers r → ae_PrevLogIndex args <= lastIdx (log r) + 1 →
  ∃ x, processPrevLogConflictL r s args reply = Some (set_nextIndex r (<[Z.to_nat s := x]> (nextIndex r)))
    ∧ (x = aer_ConflictFirstIndex reply ∨ x <= ae_PrevLogIndex args)
    ∧ (aer_ConflictTerm reply = NA → x = aer_ConflictFirstIndex reply).
Proof.
  intros Hwf Hs Hprev. unfold processPrevLogConflictL. pose proof (nw_log _ Hwf) as Hl. pose proof (nw_next _ Hwf).
  rewrite logFirstIndexL_spec by done.
  destruct (_ || _) eqn:E; cbn [mbind option_bind].
  { rewrite go_update_eq by lia. cbn [mbind option_bind]. eexists. split_and!; [done|by left|done]. }
  assert (Max (aer_ConflictFirstIndex reply) (firstIdx (log r) + 1) >= firstIdx (log r) + 1) as Hmax
    by (rewrite Max_spec; lia).
  destruct (matchSearch_spec (Z.to_nat (ae_PrevLogIndex args - 1
      - Max (aer_ConflictFirstIndex reply) (firstIdx (log r) + 1) + 1)) r (aer_ConflictTerm reply)
      (Max (aer_ConflictFirstIndex reply) (firstIdx (log r) + 1)) (ae_PrevLogIndex args - 1) Hl)
    as (x & -> & Hx); [lia..|]. cbn [mbind option_bind].
  rewrite go_update_eq by lia. cbn [mbind option_bind]. eexists. split_and!; [done|right; lia|].
  bools. unfold NA in *. lia.
Qed.
End arrays.

(** ** What a leader knows of the others *)

Section total.
Context {C : Type} `{!GobCodec (PState C), !GobLaws (PState C)}.
Context (n : Z).
Implicit Types (w : Cluster C) (r : Raft C) (p : Peer C) (t : Task C).

(** The index is committed or the log still reaches back to it. *)
Definition covered r (m : Z) : Prop := m <= commitIndex r ∨ firstIdx (log r) <= m.

Record lead_peer r : Prop := {
  lp_next j x : go_index (nextIndex r) j = Some x → x <= lastIdx (log r) + 1;
  lp_match j m : go_index (matchIndex r) j = Some m → covered r m;
}.

(** [c] still leads in the term [T]. *)
Definition leads w (c T : Z) : Prop :=
  role (rf (peers w c)) = Leader ∧ currentTerm (rf (peers w c)) = T.

(** The index that a refusal makes the leader go back to. *)
Definition conflict_ok r (args : AppendEntriesArgs C) (reply : AppendEntriesReply) : Prop :=
  aer_Success reply = false → aer_Term reply <= ae_Term args →
  aer_ConflictFirstIndex reply <= lastIdx (log r) + 1.

Definition lead_task w t : Prop :=
  match t with
  | TAppend c _ _ args => leads w c (ae_Term args) →
      covered (rf (peers w c)) (ae_PrevLogIndex args + go_len (ae_Entries args))
  | TAppendReply c _ _ args reply => leads w c (ae_Term args) →
      covered (rf (peers w c)) (ae_PrevLogIndex args + go_len (ae_Entries args))
      ∧ conflict_ok (rf (peers w c)) args reply
  | TInstall c _ _ args | TInstallReply c _ _ args _ => leads w c (is_Term args) →
      covered (rf (peers w c)) (LastIncludedIndex (is_Snapshot args))
  | _ => True
  end.

Record lead_inv w : Prop := {
  li_peer i : 0 <= i < n → role (rf (peers w i)) = Leader → lead_peer (rf (peers w i));
  li_task t : t ∈ tasks w → lead_task w t;
}.

(** The leader's log has what it has sent. *)
Lemma sent_append w c s ep args : full_inv n w → TAppend c s ep args ∈ tasks w ∨ (∃ reply, TAppendReply c s ep args reply ∈ tasks w) →
  leads w c (ae_Term args) → ae_PrevLogIndex args + go_len (ae_Entries args) <= lastIdx (log (rf (peers w c))).
Proof.
  intros [[Hc Hl Ht] Hk Hv] Hin [Hr HT].
  assert (pair_wf n c s ∧ ae_wf args ∧ 0 <= ae_PrevLogTerm args ∧ lead_pt (hist w) (ae_Term args) (mtip args))
    as ((Hci & _) & Hae & Hpos & Hlp).
  { destruct Hin as [Hin|[reply Hin]]; destruct (ci_task _ _ Hc _ Hin) as (? & _ & ?);
      destruct (tr_task _ _ Ht _ Hin); done. }
  rewrite <- HT in Hlp.
  pose proof (leader_has n w ltac:(lia) (Build_basic_inv _ _ Hc Hl Ht) c _ Hci Hr Hlp) as Ha.
  apply anc_index in Ha. rewrite (mtip_index args Hae Hpos) in Ha. exact Ha.
Qed.

Lemma sent_install w c s ep args : full_inv n w →
  TInstall c s ep args ∈ tasks w ∨ (∃ reply, TInstallReply c s ep args reply ∈ tasks w) →
  leads w c (is_Term args) → LastIncludedIndex (is_Snapshot args) <= lastIdx (log (rf (peers w c))).
Proof.
  intros Hf Hin [Hr HT]. pose proof Hf as [[Hc Hl Ht] Hk Hv].
  assert (pair_wf n c s ∧ committed n (hist w) (is_Term args) (snap_pt args)) as ((Hci & _) & Hcm).
  { destruct Hin as [Hin|[reply Hin]]; destruct (ci_task _ _ Hc _ Hin) as (? & _ & ?);
      pose proof (cv_task _ _ Hv _ Hin); done. }
  rewrite <- HT in Hcm. by apply (leader_committed n w c _ Hci Hf Hr), anc_index in Hcm.
Qed.
(** ** One step of a peer that goes on leading *)

Lemma leads_on w i r r' m :
  node_wf r → 0 <= commitIndex r → lastApplied r <= commitIndex r → ptrans w i r r' →
  role r = Leader → role r' = Leader →
  (covered r m → covered r' m) ∧ lastIdx (log r) <= lastIdx (log r').
Proof.
  intros Hwf Hpos Hap Htr Hr Hr'. unfold covered.
  assert (log r' = log r → commitIndex r <= commitIndex r' ∨ commitIndex r' = firstIdx (log r) →
    (m <= commitIndex r ∨ firstIdx (log r) <= m → m <= commitIndex r' ∨ firstIdx (log r') <= m)
    ∧ lastIdx (log r) <= lastIdx (log r')) as Hsame by (intros ->; lia).
  destruct Htr as [_ []|????? _ _ _ []|_ _ ? []|? _ _ _ _ _|cmd _ _ Hlog _ Hc _ _|index e _ Hi He Hlog _ Hc _ _
    |c ep args _ _ ? _|c ep args _ _ ?|s y m' _ _ [_ Hlog _ _] _ _ Hc|[_ Hlog _ _] _ Hc _];
    try congruence; try (apply Hsame; [done|lia]).
  - rewrite Hc, Hlog. destruct (firstIdx_app (log r) [MkLogEntry cmd (lastIdx (log r) + 1) (currentTerm r)]
      (lw_nonempty _ (nw_log _ Hwf))) as [-> _].
    split; [done|]. unfold lastIdx at 2. rewrite last_snoc. cbn. lia.
  - rewrite Hc, Hlog. destruct (drop_to_index _ _ _ (nw_log _ Hwf) He) as (_ & -> & _ & -> & _). lia.
Qed.

(** A leader was one before, unless it has just been elected. *)
Lemma leads_before w i p ts T :
  cluster_inv n w → 0 <= i < n → ptrans w i (rf (peers w i)) (rf p) →
  (T, i) ∈ elected (hist w) → leads (update w i p ts) i T → leads w i T.
Proof.
  intros Hc Hi Htr Hel [Hr HT]. rewrite peers_update, decide_True in Hr, HT by done.
  destruct (ptrans_leads _ _ _ _ Htr Hr) as [HT' [?|Hca]]; [split; congruence|].
  destruct (vi_candidate _ _ (ci_vote _ _ Hc) i Hi Hca). congruence.
Qed.

(** ** The next indices *)

Lemma next_kept r r' :
  lead_peer r → nextIndex r' = nextIndex r → lastIdx (log r) <= lastIdx (log r') →
  ∀ j x, go_index (nextIndex r') j = Some x → x <= lastIdx (log r') + 1.
Proof. intros [Hnx _] -> Hle j x Hj. apply Hnx in Hj. lia. Qed.

Lemma vote_reply_next r args reply v r' v' sp :
  node_wf r → processRequestReplyL r args reply v = Some (r', v', sp) → role r' = Leader →
  r' = r ∨ ∀ j x, go_index (nextIndex r') j = Some x → x <= lastIdx (log r') + 1.
Proof.
  intros Hwf H Hr. unfold processRequestReplyL in H.
  destruct (_ && _) eqn:E; [|injection H as <- _ _; by left]. destruct (rvr_VoteGranted reply).
  - destruct (_ >? _); [|injection H as <- _ _; by left]. right. intros j x Hj.
    destruct (becomeLeaderL_spec r Hwf) as (r2 & H2 & _ & _ & _ & Hl & _ & _ & _ & _ & _ & _ & Hn & _).
    { apply Hwf. unfold role_eqb in E. bools. congruence. }
    rewrite H2 in H. cbn [mbind option_bind] in H. injection H as <- _ _.
    rewrite Hn in Hj. apply go_index_lookup in Hj as [_ Hj]. apply lookup_replicate_1 in Hj as [-> _]. rewrite Hl. lia.
  - destruct (_ >? _); injection H as <- _ _; [done|by left].
Qed.

Lemma append_reply_next r s args reply r' :
  node_wf r → 0 <= s < nPeers r → lead_peer r →
  (role r = Leader → currentTerm r = ae_Term args →
    ae_PrevLogIndex args + go_len (ae_Entries args) <= lastIdx (log r) ∧ conflict_ok r args reply) →
  processAppendReplyL r s args reply = Some r' → role r' = Leader →
  ∀ j x, 0 <= j → go_index (nextIndex r') j = Some x → x <= lastIdx (log r') + 1.
Proof.
  intros Hwf Hs Hlp Hok H Hr j x Hj Hx. unfold processAppendReplyL, role_eqb in H. pose proof (nw_next _ Hwf) as Hnl.
  destruct (_ && _) eqn:E; bools; [|injection H as <-; by eapply lp_next]. destruct Hok as [Hsent Hcf]; [done..|].
  destruct (aer_Success reply) eqn:Es.
  - destruct (updateMatchAndNextL_spec r s (ae_PrevLogIndex args + go_len (ae_Entries args)) Hwf Hs)
      as (m0 & x0 & _ & Hx0 & Hu). rewrite Hu in H. cbn [mbind option_bind] in H. set (r1 := set_nextIndex _ _) in H.
    destruct (setCommitIndexL r1) as [[r2 ok]|] eqn:E2; cbn [mbind option_bind] in H; [|done].
    assert (nextIndex r' = nextIndex r1 ∧ log r' = log r1) as [Hn ->].
    { injection H as <-. rewrite applySignalL_frame.
      destruct (setCommitIndexL_cases _ _ _ E2) as [[-> _]|[[N ->] _]]; by destruct ok. }
    rewrite Hn in Hx. cbn [nextIndex log set_nextIndex set_matchIndex r1] in *.
    rewrite go_index_insert in Hx by lia. apply (lp_next _ Hlp) in Hx0.
    case_decide; [injection Hx as <-; lia|by apply (lp_next _ Hlp) in Hx].
  - destruct (_ >? _) eqn:Et; bools; [injection H as <-; done|]. pose proof (go_len_nonneg (ae_Entries args)).
    destruct (processPrevLogConflictL_spec r s args reply Hwf Hs ltac:(lia)) as (x1 & Hp & Hx1 & _).
    rewrite Hp in H. injection H as <-. cbn [nextIndex log set_nextIndex] in *.
    rewrite go_index_insert in Hx by lia. case_decide; [injection Hx as <-|by apply (lp_next _ Hlp) in Hx].
    destruct Hx1 as [->|?]; [apply Hcf; [done|lia]|lia].
Qed.

Lemma install_reply_next r s args reply r' :
  node_wf r → 0 <= s < nPeers r → lead_peer r →
  (role r = Leader → currentTerm r = is_Term args → LastIncludedIndex (is_Snapshot args) <= lastIdx (log r)) →
  processInstallReplyL r s args reply = Some r' → role r' = Leader →
  ∀ j x, 0 <= j → go_index (nextIndex r') j = Some x → x <= lastIdx (log r') + 1.
Proof.
  intros Hwf Hs Hlp Hok H Hr j x Hj Hx. unfold processInstallReplyL, role_eqb in H. pose proof (nw_next _ Hwf) as Hnl.
  destruct (_ && _) eqn:E; bools; [|injection H as <-; by eapply lp_next]. specialize (Hok ltac:(done) ltac:(done)).
  destruct (_ >? _) eqn:Et; bools; [injection H as <-; done|].
  destruct (updateMatchAndNextL_spec r s (LastIncludedIndex (is_Snapshot args)) Hwf Hs) as (m0 & x0 & _ & Hx0 & Hu).
  rewrite Hu in H. injection H as <-. cbn [nextIndex log set_nextIndex set_matchIndex] in *.
  rewrite go_index_insert in Hx by lia. apply (lp_next _ Hlp) in Hx0.
  case_decide; [injection Hx as <-; lia|by apply (lp_next _ Hlp) in Hx].
Qed.

(** The search for a conflict reads nothing but the log. *)
Lemma prevLogConflictL_log r1 r args : log r1 = log r → prevLogConflictL r1 args = prevLogConflictL r args.
Proof.
  intros Hl. assert (logFirstIndexL r1 = logFirstIndexL r) as Hf by (unfold logFirstIndexL; by rewrite Hl).
  assert (∀ k, getLogL r1 k = getLogL r k) as Hg.
  { intros k. unfold getLogL, logSliceIndexL. by rewrite Hf, Hl. }
  assert (∀ f x k, conflictSearch f r1 x k = conflictSearch f r x k) as Hcs.
  { intros f x. induction f as [|f IH]; intros k; cbn [conflictSearch]; rewrite Hf; [done|].
    destruct (logFirstIndexL r); cbn [mbind option_bind]; [|done]. destruct (k >? _); [|done]. rewrite Hg.
    destruct (getLogL r k); cbn [mbind option_bind]; [|done]. by rewrite IH. }
  unfold prevLogConflictL. rewrite Hf, Hg. unfold lastLogL. rewrite Hl.
  destruct (go_index (log r) _); cbn [mbind option_bind]; [|done].
  destruct (logFirstIndexL r); cbn [mbind option_bind]; [|done].
  destruct (_ <? _); [done|]. destruct (_ >? _); [done|].
  destruct (getLogL r _); cbn [mbind option_bind]; [|done]. by rewrite Hcs.
Qed.

(** The log starts after the entry that the message builds on. *)
Lemma prevLogConflictL_base r args :
  log_wf (log r) → ae_PrevLogIndex args < firstIdx (log r) →
  prevLogConflictL r args = Some (true, NA, firstIdx (log r) + 1).
Proof.
  intros Hl Hlt. unfold prevLogConflictL. destruct (lastLogL_spec _ Hl) as (lst & -> & HI & _).
  rewrite logFirstIndexL_spec by done. cbn [mbind option_bind]. rewrite HI. pose proof (last_ge_first _ Hl).
  destruct (Z.ltb_spec (lastIdx (log r)) (ae_PrevLogIndex args)); [lia|].
  destruct (firstIdx (log r) >? ae_PrevLogIndex args) eqn:E; bools; [done|lia].
Qed.

(** What a refusal says: the end of the follower's log, its start, or an index
    in the part of the log that the leader has sent. *)
Lemma AppendEntries_refuses env r args r' reply :
  node_wf r → ae_wf args → AppendEntries env r args = Some (r', reply) → aer_Success reply = false →
  aer_Term reply <= ae_Term args →
  currentTerm r' = ae_Term args ∧ log r' = log r
  ∧ prevLogConflictL r args = Some (true, aer_ConflictTerm reply, aer_ConflictFirstIndex reply).
Proof.
  intros Hwf Hae H Hs HT. rewrite AppendEntries_preamble in H.
  destruct (ae_preamble_spec env r args Hwf) as (Hwf1 & _ & Hl & _ & Hct & _).
  pose proof (processAppendEntriesL_fails _ _ _ _ H Hs) as ->. set (r1 := ae_preamble env r args) in *. clearbody r1.
  unfold processAppendEntriesL in H. destruct (lastLogL r1) as [lst|] eqn:Elast; cbn [mbind option_bind] in H; [|done].
  destruct (Z.ltb_spec (ae_Term args) (currentTerm r1)).
  { injection H as <-. cbn in HT. lia. }
  rewrite (prevLogConflictL_log r1 r args Hl) in H. destruct (prevLogConflictL r args) as [[[b ct] ci]|]; cbn [mbind option_bind] in H; [|done].
  destruct b; [injection H as <-; cbn; split_and!; [lia|done|done]|].
  destruct (appendNewEntries _ _ _ _) as [r2|]; cbn [mbind option_bind] in H; [|done].
  destruct (lastLogL r2); cbn [mbind option_bind] in H; [|done]. by injection H as _ <-.
Qed.

(** The start of a follower's log is committed, so the leader has it. *)
Lemma conflict_bound w c s ep args env r' reply :
  full_inv n w → TAppend c s ep args ∈ tasks w →
  AppendEntries env (rf (peers w s)) args = Some (r', reply) → leads w c (ae_Term args) →
  conflict_ok (rf (peers w c)) args reply.
Proof.
  intros Hf Hin H Hld Hs HT. pose proof Hf as [[Hc Hl Ht] Hk Hv].
  destruct (ci_task _ _ Hc _ Hin) as ((Hci & Hsi & Hne) & _ & Hae). destruct (ci_node _ _ Hc s Hsi) as (Hwf & _).
  destruct (AppendEntries_refuses _ _ _ _ _ Hwf Hae H Hs HT) as (Hct & _ & Hpc).
  pose proof (sent_append w c s ep args Hf (or_introl Hin) Hld) as Hsent. pose proof (go_len_nonneg (ae_Entries args)).
  destruct (prevLogConflictL_spec (rf (peers w s)) args (nw_log _ Hwf)) as (b & ct & ci & H2 & _ & Hci2 & _).
  rewrite Hpc in H2. injection H2 as <- <- <-.
  destruct (Z.le_gt_cases (firstIdx (log (rf (peers w s)))) (ae_PrevLogIndex args)) as [Hle|Hgt]; [specialize (Hci2 eq_refl Hle); lia|].
  rewrite (prevLogConflictL_base _ _ (nw_log _ Hwf)) in Hpc by lia. injection Hpc as _ <-.
  destruct Hld as [Hr Hct']. destruct (AppendEntries_trans _ _ _ _ _ Hwf Hae H) as [Hst _]. apply settles_term in Hst.
  assert (committed n (hist w) (currentTerm (rf (peers w c))) (base (log (rf (peers w s))))) as Hcm.
  { eapply committed_le; [|apply (cv_peer _ _ Hv s Hsi)]. lia. }
  apply (leader_committed n w c _ Hci Hf Hr), anc_index in Hcm. cbn in Hcm. lia.
Qed.

(** ** One step of the cluster *)

(** A leader has kept its next indices, or the new ones are good. *)
Definition next_step r r' : Prop := role r' = Leader →
  (role r = Leader ∧ nextIndex r' = nextIndex r)
  ∨ ∀ j x, go_index (nextIndex r') j = Some x → x <= lastIdx (log r') + 1.

Lemma next_step_settles r r' : settles r r' → nextIndex r' = nextIndex r → next_step r r'.
Proof. intros Hs Hn Hr. left. by destruct (settles_leads _ _ Hs Hr). Qed.

Lemma next_step_update w i p ts j :
  next_step (rf (peers w i)) (rf p) → next_step (rf (peers w j)) (rf (peers (update w i p ts) j)).
Proof. intros H. rewrite peers_update. case_decide as Hj; [by subst|]. intros Hr. by left. Qed.

Lemma run_next w k env w' :
  full_inv n w → lead_inv w → run k env w = Some w' →
  ∀ j, next_step (rf (peers w j)) (rf (peers w' j)).
Proof.
  intros Hf [Hlp Hlt] H j. pose proof Hf as [[Hc _ _] _ _]. unfold run in H.
  destruct (tasks w !! k) as [t|] eqn:Hk; cbn [mbind option_bind] in H; [|done].
  pose proof (list_elem_of_lookup_2 _ _ _ Hk) as Hin. pose proof (ci_task _ _ Hc t Hin) as Ht. pose proof (Hlt t Hin) as Hlt'.
  destruct t as [c s ep a args|c s ep a args reply|c s ep term|c s ep args|c s ep args reply|c s ep args|c s ep args reply];
    destruct Ht as ((Hci & Hs & Hne) & Ht); destruct (ci_node _ _ Hc c Hci) as (Hwfc & Hmec & Hnp);
    destruct (ci_node _ _ Hc s Hs) as (Hwfs & _);
    try (destruct (negb (bool_decide (epoch (peers w c) = ep))) eqn:Hep; [done|]).
  - destruct (RequestVote _ _ _) as [[r' reply]|] eqn:Hr; cbn [mbind option_bind] in H; [|done]. injection H as <-.
    apply next_step_update. intros Hro. left. split; [|by eapply RequestVote_next].
    destruct (RequestVote_spec env _ args Hwfs) as (r1 & reply1 & H1 & _ & _ & _ & Hv).
    rewrite Hr in H1. injection H1 as <- <-. cbn in Hro. destruct (rvr_VoteGranted reply); [|by apply settles_leads in Hv as [? _]].
    destruct Hv as [(r1 & Hst & Hro1 & _)%grants_settles _]. apply settles_leads in Hst as [? _]; [done|congruence].
  - destruct (votes _ !! a) as [v|]; cbn [mbind option_bind] in H; [|done].
    destruct (processRequestReplyL _ _ _ _) as [[[r' v'] sp]|] eqn:Hr; cbn [mbind option_bind] in H; [|done].
    injection H as <-. apply next_step_update. intros Hro. cbn in Hro.
    destruct (vote_reply_next _ _ _ _ _ _ _ Hwfc Hr Hro) as [->|?]; [by left|by right].
  - destruct (append _ s term) as [call|] eqn:Hr; cbn [mbind option_bind] in H; [|done].
    injection H as <-. apply next_step_update. intros Hro. by left.
  - destruct (AppendEntries _ _ _) as [[r' reply]|] eqn:Hr; cbn [mbind option_bind] in H; [|done].
    injection H as <-. apply next_step_update. destruct (AppendEntries_trans _ _ _ _ _ Hwfs (proj2 Ht) Hr) as [Hst _].
    apply next_step_settles; [done|]. exact (AppendEntries_next _ _ _ _ _ Hwfs (proj2 Ht) Hr).
  - destruct (processAppendReplyL _ _ _ _) as [r'|] eqn:Hr; cbn [mbind option_bind] in H; [|done]. injection H as <-.
    apply next_step_update. intros Hro. cbn in Hro.
    destruct (processAppendReplyL_node _ _ _ _ _ Hwfc Hr) as (_ & _ & [[[]]|[[] _]]); [|congruence].
    right. intros i x Hx. pose proof (proj1 (proj1 (go_index_lookup _ _ _) Hx)).
    eapply (append_reply_next (rf (peers w c)) s args reply r' Hwfc); try done; [by rewrite Hnp|apply Hlp; [done|congruence]|].
    intros Hrc HT. split; [eapply sent_append; eauto; by split|by apply Hlt'].
  - destruct (InstallSnapshot _ _ _) as [[r' reply]|] eqn:Hr; cbn [mbind option_bind] in H; [|done]. injection H as <-.
    apply next_step_update. destruct Ht as [_ Hsw].
    destruct (InstallSnapshot_spec env _ args Hwfs Hsw) as (r1 & r2 & reply2 & H2 & _ & _ & Hst & _).
    rewrite Hr in H2. injection H2 as <- <-. apply next_step_settles; [done|]. by eapply InstallSnapshot_next.
  - destruct (processInstallReplyL _ _ _ _) as [r'|] eqn:Hr; cbn [mbind option_bind] in H; [|done]. injection H as <-.
    apply next_step_update. intros Hro. cbn in Hro.
    destruct (processInstallReplyL_node _ _ _ _ _ Hwfc Hr) as (_ & _ & [[[]]|[[] _]]); [|congruence].
    right. intros i x Hx. pose proof (proj1 (proj1 (go_index_lookup _ _ _) Hx)).
    eapply (install_reply_next (rf (peers w c)) s args reply r' Hwfc); try done; [by rewrite Hnp|apply Hlp; [done|congruence]|].
    intros Hrc HT. eapply sent_install; eauto; by split.
Qed.

Lemma exec_next act w w' :
  full_inv n w → lead_inv w → exec n act w = Some w' →
  ∀ j, next_step (rf (peers w j)) (rf (peers w' j)).
Proof.
  intros Hf Hli H j. pose proof Hf as [[Hc _ _] _ _].
  destruct act as [i env|i cmd|i index data|i|i|i env|k|k env]; cbn [exec] in H.
  all: try (destruct (negb (in_cluster n i)) eqn:Hin; [done|]; apply in_cluster_spec in Hin as Hi;
            destruct (ci_node _ _ Hc i Hi) as (Hwf & Hme & Hnp)).
  - destruct (tick _ _) as [[r' sp]|] eqn:Hr; cbn [mbind option_bind] in H; [|done]. injection H as <-.
    apply next_step_update. intros Hro. left. split; [|by eapply tick_next].
    unfold tick, role_eqb in Hr. case_bool_decide; [done|]. destruct (_ >? _); [|by injection Hr as <- _].
    destruct (becomeCandidateL_spec env _ Hwf) as (r1 & args & H1 & _ & _ & _ & _ & _ & _ & _ & Hc1 & _).
    rewrite Hr in H1. injection H1 as <- _. cbn in Hro. congruence.
  - destruct (Start _ cmd) as [[[r' res] sp]|] eqn:Hr; cbn [mbind option_bind] in H; [|done]. injection H as <-.
    apply next_step_update. intros Hro. left. split; [|by eapply Start_next].
    destruct (Start_spec _ cmd Hwf) as [[_ H1]|(r1 & Hro1 & _)]; [|done].
    rewrite Hr in H1. by injection H1 as -> _ _.
  - destruct (SnapshotL _ index data) as [r'|] eqn:Hr; cbn [mbind option_bind] in H; [|done]. injection H as <-.
    apply next_step_update, next_step_settles; [|by eapply SnapshotL_next]. left.
    destruct (SnapshotL_spec _ _ data Hwf (SnapshotL_returns _ _ _ _ Hwf Hr)) as (r1 & H1 & _ & Hsv & _). rewrite Hr in H1. by injection H1 as ->.
  - destruct (apply _) as [[r' msg]|] eqn:Hr; cbn [mbind option_bind] in H; [|done]. injection H as <-.
    apply next_step_update, next_step_settles; [|by eapply apply_next]. left.
    destruct (apply_node _ _ _ Hwf Hr) as [_ []]. done.
  - injection H as <-. apply next_step_update, next_step_settles; [by left; split|done].
  - destruct (Make env n i _) as [r'|] eqn:Hr; cbn [mbind option_bind] in H; [|done]. injection H as <-.
    apply next_step_update. intros Hro. cbn in Hro.
    destruct (Make_trans env (rf (peers w i)) r' Hwf) as [_ _ Hfo _ _ _ _]; [by rewrite Hnp, Hme|congruence].
  - injection H as <-. intros Hro. by left.
  - by eapply run_next.
Qed.

(** A new answer to AppendEntries is an answer of the handler. *)
Lemma exec_answers act w w' c s ep args reply :
  exec n act w = Some w' → TAppendReply c s ep args reply ∈ tasks w' →
  TAppendReply c s ep args reply ∈ tasks w
  ∨ TAppend c s ep args ∈ tasks w ∧ ∃ env r', AppendEntries env (rf (peers w s)) args = Some (r', reply).
Proof.
  intros H Hin.
  assert (∀ i ep' a sp ts, TAppendReply c s ep args reply ∈ spawn i ep' a sp ++ ts →
    TAppendReply c s ep args reply ∈ ts) as Hsp.
  { intros i ep' a sp ts [Hx|?]%elem_of_app; [|done]. unfold spawn in Hx.
    apply list_elem_of_fmap in Hx as (x & He & _). by destruct x. }
  destruct act as [i env|i cmd|i index data|i|i|i env|k|k env]; cbn [exec] in H;
    try (destruct (negb (in_cluster n i)); [done|]).
  - destruct (tick _ _) as [[r' sp]|]; cbn [mbind option_bind] in H; [|done]. injection H as <-. left. exact (Hsp _ _ _ _ _ Hin).
  - destruct (Start _ cmd) as [[[r' res] sp]|]; cbn [mbind option_bind] in H; [|done]. injection H as <-. left. exact (Hsp _ _ _ _ _ Hin).
  - destruct (SnapshotL _ index data); cbn [mbind option_bind] in H; [|done]. injection H as <-. by left.
  - destruct (apply _) as [[r' msg]|]; cbn [mbind option_bind] in H; [|done]. injection H as <-. by left.
  - injection H as <-. by left.
  - destruct (Make env n i _); cbn [mbind option_bind] in H; [|done]. injection H as <-. by left.
  - injection H as <-. apply elem_of_delete in Hin. by left.
  - unfold run in H. destruct (tasks w !! k) as [t'|] eqn:Hk; cbn [mbind option_bind] in H; [|done].
    apply list_elem_of_lookup_2 in Hk.
    destruct t'; try (destruct (negb _); [done|]); runs; repeat case_match; simplify_eq; cbn [tasks update] in Hin;
      try (apply Hsp in Hin); try (apply elem_of_delete in Hin; by left);
      (apply elem_of_insert in Hin as [Heq|?]; [|by left]); try done.
    injection Heq as -> -> -> -> ->. right. eauto.
Qed.

Lemma commit_nonneg w i : 0 <= i < n → full_inv n w →
  0 <= commitIndex (rf (peers w i)) <= lastIdx (log (rf (peers w i))) ∧ lastApplied (rf (peers w i)) <= commitIndex (rf (peers w i)).
Proof.
  intros Hi [[Hc Hl Ht] _ Hv]. pose proof (cv_peer _ _ Hv i Hi) as Hp.
  destruct (cm_commit _ _ _ _ Hp) as (z & Hz & Ha & _). pose proof (anc_index _ _ _ Ha) as Hle. cbn in Hle.
  apply anc_nonneg in Ha; [|by eapply rooted_index, (log_rooted n w)]. split; [lia|apply Hp].
Qed.

Section preserve.
#[local] Set Default Proof Using "All".
Context (w : Cluster C) (i : Z) (p : Peer C) (ts : list (Task C)).
Local Abbreviation w' := (update w i p ts).
Local Abbreviation r := (rf (peers w i)).
Local Abbreviation r' := (rf p).
Context (Hi : 0 <= i < n) (Hf : full_inv n w) (Hli : lead_inv w).
Context (Hmv : epoch p = epoch (peers w i) ∧ ptrans w i r r'
               ∨ epoch p = S (epoch (peers w i)) ∧ restarts r r').

Let Hc := bi_cluster _ _ (fi_basic _ _ Hf).

(** What holds of a leader's log goes on to hold while it leads. *)
Lemma lead_keeps c T m : 0 <= c < n → (T, c) ∈ elected (hist w) → leads w' c T →
  leads w c T ∧ (covered (rf (peers w c)) m → covered (rf (peers w' c)) m)
  ∧ lastIdx (log (rf (peers w c))) <= lastIdx (log (rf (peers w' c))).
Proof.
  intros Hci Hel Hld. destruct (decide (i = c)) as [<-|Hne].
  - pose proof Hld as [Hr' _]. rewrite peers_update, decide_True in Hr' by done.
    destruct Hmv as [[_ Htr]|[_ Hre]]; [|destruct Hre; congruence].
    assert (leads w i T) as Hld0 by by eapply leads_before.
    split; [done|]. rewrite peers_update, decide_True by done.
    destruct (commit_nonneg w i Hi Hf) as [? ?]. destruct (ci_node _ _ Hc i Hi) as (Hwf & _).
    eapply leads_on; try done; [lia|apply Hld0].
  - unfold leads in *. rewrite peers_update, decide_False in Hld |- * by done. done.
Qed.

Lemma lead_peer_move : next_step r r' → role r' = Leader → lead_peer r'.
Proof.
  intros Hns Hr'. destruct Hmv as [[_ Htr]|[_ Hre]]; [|destruct Hre; congruence].
  destruct (commit_nonneg w i Hi Hf) as [Hpos Hap]. destruct (ci_node _ _ Hc i Hi) as (Hwf & _).
  assert (role r = Leader → ∀ m, (covered r m → covered r' m) ∧ lastIdx (log r) <= lastIdx (log r')) as Hon.
  { intros Hr m. eapply leads_on; try done; lia. }
  split.
  - destruct (Hns Hr') as [[Hr Hn]|?]; [|done]. apply (next_kept r); [by apply Hli|done|by apply (Hon Hr 0)].
  - destruct (ptrans_leads _ _ _ _ Htr Hr') as [HT [Hr|Hr]].
    + pose proof (lp_match _ (li_peer _ Hli i Hi Hr)) as Hm.
      assert (matchIndex r' = matchIndex r → ∀ j m, go_index (matchIndex r') j = Some m → covered r' m) as Hsame.
      { intros -> j m Hj. by apply (Hon Hr), (Hm j). }
      destruct Htr as [_ []|????? _ _ _ []|_ _ ? []|? _ _ _ _ _|cmd _ _ _ _ _ _ ?|index e _ _ _ _ _ _ _ ?
        |c ep args _ _ ? _|c ep args _ _ ?|s y m' Hack _ _ _ Hnew _|_ ?]; try congruence; try (by apply Hsame).
      intros j m Hj. apply (Hon Hr). destruct (Hnew _ _ Hj) as [Hold|[-> ->]]; [by apply (Hm j)|].
      destruct Hack as [(ep & args & reply & Hin & _ & HTa & _ & ->)|(ep & args & reply & Hin & HTa & -> & ->)];
        pose proof (li_task _ Hli _ Hin) as Ht; apply Ht; by split.
    + intros j m Hj. left. destruct Htr as [Hs|????? (r1 & Hs & Hro & _)%grants_settles|_ _ ?|_ _ _ _ _ _ Hci _ Hz|? ?|? ? []|? ? ? ? ? ?|? ? ? ? ? ?|? ? ? ? ?|[[]]];
        try congruence; try (destruct (settles_leads _ _ Hs); congruence).
      rewrite (Hz _ _ Hj). lia.
Qed.

Lemma lead_task_move t : t ∈ ts → t ∈ tasks w ∨ new_task w i (peers w i) p t →
  (∀ c s ep args reply, t = TAppendReply c s ep args reply → t ∈ tasks w ∨
    TAppend c s ep args ∈ tasks w ∧ ∃ env r1, AppendEntries env (rf (peers w s)) args = Some (r1, reply)) →
  lead_task w' t.
Proof.
  intros Hin Hnew Hans.
  assert (t ∈ tasks w → lead_task w' t) as Hold.
  { intros Hin'. pose proof (li_task _ Hli t Hin') as Ht. pose proof (ci_task _ _ Hc t Hin') as Hwf.
    destruct t as [| | |c s ep args|c s ep args reply|c s ep args|c s ep args reply]; try done;
      destruct Hwf as ((Hci & _) & Hel & _); intros Hld.
    - destruct (lead_keeps c _ (ae_PrevLogIndex args + go_len (ae_Entries args)) Hci Hel Hld) as (Hl0 & Hcv & _). by apply Hcv, Ht.
    - destruct (lead_keeps c _ (ae_PrevLogIndex args + go_len (ae_Entries args)) Hci Hel Hld) as (Hl0 & Hcv & Hle).
      destruct (Ht Hl0) as [Hc0 Hcf]. split; [by apply Hcv|]. intros Hs HT. specialize (Hcf Hs HT). lia.
    - destruct (lead_keeps c _ (LastIncludedIndex (is_Snapshot args)) Hci Hel Hld) as (Hl0 & Hcv & _). by apply Hcv, Ht.
    - destruct (lead_keeps c _ (LastIncludedIndex (is_Snapshot args)) Hci Hel Hld) as (Hl0 & Hcv & _). by apply Hcv, Ht. }
  destruct Hnew as [?|Hnew]; [by apply Hold|].
  destruct (ci_node _ _ Hc i Hi) as (Hwf & _).
  destruct t as [| | |c s ep args|c s ep args reply|c s ep args|c s ep args reply]; try done.
  - destruct Hnew as (-> & Hp & _ & _ & Hmk). intros _. rewrite peers_update, decide_True, Hp by done.
    destruct (makeAppendArgsL_spec _ _ _ Hwf Hmk) as (_ & _ & _ & _ & _ & _ & ->).
    right. apply last_ge_first, Hwf.
  - destruct (Hans _ _ _ _ _ eq_refl) as [?|(Hta & env & r1 & Hae)]; [by apply Hold|]. intros Hld.
    destruct (ci_task _ _ Hc _ Hta) as ((Hci & _) & Hel & _).
    destruct (lead_keeps c _ (ae_PrevLogIndex args + go_len (ae_Entries args)) Hci Hel Hld) as (Hl0 & Hcv & Hle).
    split; [by apply Hcv, (li_task _ Hli _ Hta)|]. intros Hs HT.
    pose proof (conflict_bound w c s ep args env r1 reply Hf Hta Hae Hl0 Hs HT). lia.
  - destruct Hnew as (-> & Hp & _ & _ & ->). intros _. rewrite peers_update, decide_True, Hp by done.
    right. cbn. by rewrite (proj1 (nw_snap _ Hwf)).
  - destruct Hnew as (_ & Hta). intros Hld. destruct (ci_task _ _ Hc _ Hta) as ((Hci & _) & Hel & _).
    destruct (lead_keeps c _ (LastIncludedIndex (is_Snapshot args)) Hci Hel Hld) as (Hl0 & Hcv & _).
    by apply Hcv, (li_task _ Hli _ Hta).
Qed.
End preserve.

Lemma lead_inv_step act w w' :
  0 <= n → full_inv n w → lead_inv w → disciplined w act → exec n act w = Some w' → lead_inv w'.
Proof.
  intros Hn Hf Hli Hd Hx. pose proof (bi_cluster _ _ (fi_basic _ _ Hf)) as Hc.
  pose proof (exec_next _ _ _ Hf Hli Hx) as Hns. pose proof (λ c s ep args reply, exec_answers _ _ _ c s ep args reply Hx) as Hans.
  destruct (exec_trans n _ _ _ Hn Hc Hd Hx) as [[k ->]|(i & p & ts & Hi & -> & Hmv & Hts)].
  - split; [apply Hli|]. cbn. intros t Ht%elem_of_delete. by apply (li_task _ Hli).
  - split.
    + intros j Hj Hr. specialize (Hns i). rewrite peers_update, decide_True in Hns by done.
      rewrite peers_update in Hr |- *. case_decide; [exact (lead_peer_move w i p ts Hi Hf Hli Hmv Hns Hr)|by apply Hli].
    + intros t Ht. eapply lead_task_move; try done; [by apply Hts|].
      intros c s ep args reply ->. by apply Hans.
Qed.

Lemma lead_inv_init envs : lead_inv (init n envs).
Proof. split; [done|]. intros t Ht. by apply elem_of_nil in Ht. Qed.

Lemma dreachable_lead w : 0 <= n → dreachable n w → lead_inv w.
Proof.
  intros Hn [envs Hw]. assert (full_inv n w ∧ lead_inv w) as [_ ?]; [|done].
  revert Hw. apply (rtc_ind_r (λ w, full_inv n w ∧ lead_inv w)); [split; [apply full_inv_init|apply lead_inv_init]|].
  intros w1 w2 _ (act & Hd & Hx) [Hf Hli]. split; [|by eapply lead_inv_step].
  apply (full_inv_step n w1); [done|done|by exists act].
Qed.

(** ** Every step returns *)

(** The steps that can be taken: a peer's own steps; a snapshot of an entry that
    was delivered; a goroutine, as long as the process that started it lives. *)
Definition alive w t : Prop :=
  match t with
  | TVote _ _ _ _ _ | TAppend _ _ _ _ | TInstall _ _ _ _ => True
  | TVoteReply c _ ep _ _ _ | TStartAppend c _ ep _ | TAppendReply c _ ep _ _ | TInstallReply c _ ep _ _ =>
      ep = epoch (peers w c)
  end.

Definition enabled w (act : Action C) : Prop :=
  match act with
  | ATick i _ | AStart i _ | AApply i | AKill i | ARestart i _ => 0 <= i < n
  | ASnapshot i index _ => 0 <= i < n ∧ index <= lastApplied (rf (peers w i))
  | ADrop _ => True
  | ARun k _ => ∃ t, tasks w !! k = Some t ∧ alive w t
  end.

Lemma apply_total r : log_wf (log r) → commitIndex r <= lastIdx (log r) → is_Some (apply r).
Proof.
  intros Hwf Hle. assert (∀ b, is_Some (apply_command (set_applySnapshot r b))) as Hcmd.
  { intros b. unfold apply_command. cbn [commitIndex lastApplied set_applySnapshot].
    destruct (commitIndex r >? lastApplied r) eqn:E; bools; [|by eexists].
    rewrite logFirstIndexL_spec by done. cbn [mbind option_bind lastApplied set_lastApplied log set_applySnapshot].
    destruct (Z.leb_spec (lastApplied r + 1) (firstIdx (log r))); [by eexists|]. rewrite getLogL_spec by done.
    cbn [lastApplied set_lastApplied log set_applySnapshot].
    destruct (entry_at_range (log r) (lastApplied r + 1) Hwf ltac:(lia)) as [e ->]. by eexists. }
  assert (is_Some (apply_command r)) as Hr.
  { specialize (Hcmd (applySnapshot r)). by destruct r. }
  unfold apply, applySnapshotL. destruct (applier r); try (by eexists); [|done].
  destruct (killed r); [by eexists|]. destruct (applySnapshot r); [|done]. destruct (_ >? _); [by eexists|]. apply Hcmd.
Qed.

Lemma append_total w c s ep T : full_inv n w → lead_inv w → TStartAppend c s ep T ∈ tasks w → ep = epoch (peers w c) →
  is_Some (append (rf (peers w c)) s T).
Proof.
  intros Hf Hli Hin Hep. pose proof Hf as [[Hc _ Ht] _ _].
  destruct (ci_task _ _ Hc _ Hin) as ((Hci & Hs & _) & _). destruct (ci_node _ _ Hc c Hci) as (Hwf & _ & Hnp).
  destruct (tr_task _ _ Ht _ Hin) as [_ Hld]. set (r := rf (peers w c)) in *.
  pose proof (nw_log _ Hwf) as Hl. unfold append. destruct (Z.eqb_spec (currentTerm r) T) as [HT|]; [|by eexists].
  cbn [negb]. pose proof (li_peer _ Hli c Hci (Hld Hep HT)) as Hlp. pose proof (nw_next _ Hwf).
  destruct (go_index_lt (nextIndex r) s) as [x Hx]; [lia|]. apply (lp_next _ Hlp) in Hx as Hle. fold r in Hle.
  rewrite Hx. cbn [mbind option_bind]. rewrite logFirstIndexL_spec by done. cbn [mbind option_bind].
  destruct (Z.leb_spec x (firstIdx (log r))); [by eexists|].
  unfold makeAppendArgsL. rewrite Hx. cbn [mbind option_bind].
  destruct (lastLogL_spec _ Hl) as (lst & -> & HI & _). cbn [mbind option_bind]. rewrite HI, getLogL_spec by done.
  pose proof (last_idx _ Hl).
  assert (∃ es, (if lastIdx (log r) >=? x then k ← logSliceIndexL r x; slice_from (log r) k else Some []) = Some es)
    as [es ->].
  { destruct (_ >=? _) eqn:E; bools; [|by eexists]. rewrite logSliceIndexL_spec by (done || lia). cbn [mbind option_bind].
    rewrite slice_from_eq by lia. by eexists. }
  cbn [mbind option_bind]. destruct (entry_at_range (log r) (x - 1) Hl ltac:(lia)) as [e ->]. by eexists.
Qed.

Lemma append_reply_total w c s ep args reply :
  n ≠ 2 → full_inv n w → lead_inv w → TAppendReply c s ep args reply ∈ tasks w →
  is_Some (processAppendReplyL (rf (peers w c)) s args reply).
Proof.
  intros Hn2 Hf Hli Hin. pose proof Hf as [[Hc _ _] _ Hv].
  destruct (ci_task _ _ Hc _ Hin) as ((Hci & Hs & Hne) & _). destruct (ci_node _ _ Hc c Hci) as (Hwf & Hme & Hnp).
  set (r := rf (peers w c)) in *. unfold processAppendReplyL, role_eqb.
  destruct (_ && _) eqn:E; [|by eexists]. bools. assert (leads w c (ae_Term args)) as Hld by by split.
  assert (ae_PrevLogIndex args + go_len (ae_Entries args) <= lastIdx (log r)) as Hsent.
  { eapply sent_append; [done|right; by exists reply|done]. }
  destruct (li_task _ Hli _ Hin Hld) as [Hcov _]. fold r in Hcov.
  destruct (aer_Success reply).
  - destruct (updateMatchAndNextL_spec r s (ae_PrevLogIndex args + go_len (ae_Entries args)) Hwf ltac:(lia))
      as (m0 & x0 & Hm0 & _ & Hu). rewrite Hu. cbn [mbind option_bind].
    assert (∀ j m, go_index (matchIndex r) j = Some m → m <= lastIdx (log r) ∧ covered r m) as Hold.
    { intros j m Hj. split; [|by apply (lp_match _ (li_peer _ Hli c Hci ltac:(done)) j)].
      destruct (commit_nonneg w c Hci Hf) as [? _]. fold r in H1.
      destruct (decide (j = c)) as [->|Hjc].
      - rewrite (cm_own _ _ _ _ (cv_peer _ _ Hv c Hci) m ltac:(done) Hj). lia.
      - destruct (cm_match _ _ _ _ (cv_peer _ _ Hv c Hci) j m ltac:(done) Hj Hjc) as [->|(y & <- & Ha & _)]; [lia|].
        by apply anc_index in Ha. }
    destruct (updateMatchAndNextL_node _ _ _ _ Hwf Hu) as (Hwf1 & _).
    edestruct (setCommitIndexL_total _ Hwf1) as [[r2 ok] ->]; [cbn; lia| |cbn; by eexists].
    cbn. intros j m Hj. pose proof (proj1 (proj1 (go_index_lookup _ _ _) Hj)).
    pose proof (nw_match _ Hwf). rewrite go_index_insert in Hj by lia.
    case_decide; [injection Hj as <-|by apply (Hold j)]. destruct (Hold _ _ Hm0).
    destruct (Z.max_spec (ae_PrevLogIndex args + go_len (ae_Entries args)) m0) as [[_ ->]|[_ ->]]; done.
  - destruct (_ >? _); [by eexists|]. pose proof (go_len_nonneg (ae_Entries args)).
    destruct (processPrevLogConflictL_spec r s args reply Hwf ltac:(lia) ltac:(lia)) as (x & -> & _). by eexists.
Qed.

(** C39: Raft never panics.  In every run in which snapshots are taken of
    delivered entries only, of any number of peers but two, every step returns:
    the handlers on every message in flight, whoever sent it and when; elections;
    a leader that searches its log for what a follower lacks and counts what
    followers have; the applier; snapshots; a restart.  No index is out of range
    and no loop runs out of fuel.  (Two peers panic, see [two_peers_panic].) *)
Theorem raft_never_panics w act :
  0 <= n → n ≠ 2 → dreachable n w → enabled w act → is_Some (exec n act w).
Proof.
  intros Hn Hn2 Hw Hen. pose proof (dreachable_inv n w Hn Hw) as Hf. pose proof (dreachable_lead w Hn Hw) as Hli.
  pose proof Hf as [[Hc _ _] _ _]. assert (∀ i, 0 <= i < n → in_cluster n i = true) as Hin by (unfold in_cluster; intros; lia).
  destruct act as [i env|i cmd|i index data|i|i|i env|k|k env]; cbn [enabled] in Hen;
    try (apply handlers_return; [by apply dreachable_reachable|exact Hen]); cbn [exec].
  - destruct Hen as [Hi Hap]. rewrite Hin by done. cbn [negb]. destruct (ci_node _ _ Hc i Hi) as (Hwf & _).
    destruct (commit_nonneg w i Hi Hf) as [? ?].
    destruct (SnapshotL_spec _ index data Hwf ltac:(lia)) as (r' & -> & _). by eexists.
  - rewrite Hin by done. cbn [negb]. destruct (ci_node _ _ Hc i Hen) as (Hwf & _).
    destruct (apply_total (rf (peers w i)) (nw_log _ Hwf)) as [[r' msg] ->]; [by apply commit_nonneg|by eexists].
  - by eexists.
  - destruct Hen as (t & Hk & Hal). pose proof (list_elem_of_lookup_2 _ _ _ Hk) as Hel.
    destruct t as [c s ep a args|c s ep a args reply|c s ep T|c s ep args|c s ep args reply|c s ep args|c s ep args reply];
      cbn [alive] in Hal; try (apply (handlers_return n w (ARun k env)); [by apply dreachable_reachable|cbn; by rewrite Hk]);
      unfold run; rewrite Hk; cbn [mbind option_bind]; rewrite bool_decide_true by done; cbn [negb].
    + destruct (append_total w c s ep T Hf Hli Hel Hal) as [call ->]. by eexists.
    + destruct (append_reply_total w c s ep args reply Hn2 Hf Hli Hel) as [r' ->]. by eexists.
    + destruct (ci_task _ _ Hc _ Hel) as ((Hci & Hs & _) & _). destruct (ci_node _ _ Hc c Hci) as (Hwf & _ & Hnp).
      unfold processInstallReplyL. destruct (_ && _); [|by eexists]. destruct (_ >? _); [by eexists|].
      destruct (updateMatchAndNextL_spec (rf (peers w c)) s (LastIncludedIndex (is_Snapshot args)) Hwf ltac:(lia))
        as (m0 & x0 & _ & _ & ->). by eexists.
Qed.
End total.

(** The leader of three peers counts the answer of a follower. *)
Lemma raft_never_panics_witness :
  is_Some (exec 3 (ARun 0 late) (after (elect ++ [AStart 0 (Some 7); ARun 0 late; ARun 0 late]))).
Proof.
  apply (raft_never_panics 3); [done|done|by apply after_dreachable; vm_compute|].
  eexists. split; [by vm_compute|by vm_compute].
Defined.
