(* ===== verification/RaftLive.v ===== *)
(** * A majority can always elect a leader and commit

    Safety allows a cluster that does nothing.  This file shows that no run, with
    whatever crashes, losses and delays, leads to a state in which Raft is stuck: the
    clocks of a majority of living peers and the messages among them are enough
    to elect a leader ([leader_electable]) and to commit a new command
    ([raft_available]), while the other peers do nothing.  Two peers, a whole
    cluster or not, are not enough to commit (see [two_peers_panic]), and a
    peer alone never leads ([single_peer_no_leader]). *)

From S2P Require Import Prelude Util Labgob RaftState RaftHandlers RaftLeader RaftNode RaftRecv RaftSend RaftCluster RaftElection RaftClusterInv RaftLogMatching RaftSteps RaftSafety RaftTree RaftTrans RaftAncestry RaftCompleteness RaftCommit RaftRuns RaftStateMachine RaftTotal.

(** The log ending with [y] is as up to date as the one ending with [x]. *)
Definition tip_le (x y : Z * Z) : Prop := x.2 < y.2 ∨ x.2 = y.2 ∧ x.1 <= y.1.

#[global] Instance tip_le_trans : Transitive tip_le.
Proof. intros x y z. unfold tip_le. lia. Qed.
#[global] Instance tip_le_total : Total tip_le.
Proof. intros x y. unfold tip_le. lia. Qed.

(** ** What the operations do to a peer that is in luck *)

Section ops.
Context {C : Type} `{!GobCodec (PState C), !GobLaws (PState C)}.
Implicit Types (r : Raft C).

Definition expired r : Env := MkEnv (electionTimeout r + 1) 0.

Lemma dead_higher (x : bool) r T : dead (if x then becomeFollowerL r T else r) = dead r.
Proof. by destruct x. Qed.

(** A candidate of a higher term whose log is as good gets the vote. *)
Lemma RequestVote_yes env r args :
  node_wf r → currentTerm r < rv_Term args →
  (∀ lst, lastLogL r = Some lst → upToDate lst args = true) →
  ∃ r', RequestVote env r args = Some (r', MkRequestVoteReply (rv_Term args) true).
Proof.
  intros Hwf HT Hup. unfold RequestVote. destruct (rv_Term args >? currentTerm r) eqn:E; bools; [|lia].
  destruct (lastLogL_spec _ (nw_log _ Hwf)) as (lst & Hl & _).
  change (lastLogL (becomeFollowerL r (rv_Term args))) with (lastLogL r). rewrite Hl. cbn [mbind option_bind].
  change (currentTerm (becomeFollowerL r (rv_Term args))) with (rv_Term args).
  change (votedFor (becomeFollowerL r (rv_Term args))) with NA.
  rewrite Z.ltb_irrefl, Z.eqb_refl, (Hup lst Hl). cbn [orb andb]. by eexists.
Qed.

(** Whatever the vote, the peer is a follower in the candidate's term. *)
Lemma RequestVote_heard env r args r' reply :
  node_wf r → RequestVote env r args = Some (r', reply) →
  dead r' = dead r ∧ (currentTerm r < rv_Term args → currentTerm r' = rv_Term args ∧ role r' = Follower).
Proof.
  intros Hwf. unfold RequestVote. set (r1 := if _ >? _ then _ else r). intros H.
  assert (dead r1 = dead r ∧ (currentTerm r < rv_Term args → currentTerm r1 = rv_Term args ∧ role r1 = Follower)) as Hr1.
  { subst r1. split; [apply dead_higher|]. intros Hlt. destruct (_ >? _) eqn:E; bools; [done|lia]. }
  clearbody r1. destruct (lastLogL r1); cbn [mbind option_bind] in H; [|done].
  destruct (_ <? _); [by injection H as <- _|]. destruct (_ && _); [|by injection H as <- _].
  injection H as <- _. exact Hr1.
Qed.

Lemma becomeCandidateL_dead env r r' sp : becomeCandidateL env r = Some (r', sp) → dead r' = dead r.
Proof.
  unfold becomeCandidateL. set (r1 := set_leaderId _ NA). intros H.
  destruct (requestsL _); cbn [mbind option_bind] in H; [|done]. injection H as <- _.
  assert (dead (resetElectionTimeoutL env (persistL r1) false) = dead (persistL r1)) as Hd
    by by rewrite resetElectionTimeoutL_frame.
  exact Hd.
Qed.

Lemma tick_stands r :
  node_wf r → role r ≠ Leader →
  ∃ r' args, tick (expired r) r = Some (r', (λ i, GoRequest i args) <$> otherPeers r)
    ∧ role r' = Candidate ∧ currentTerm r' = currentTerm r + 1 ∧ log r' = log r ∧ dead r' = dead r
    ∧ args = MkRequestVoteArgs (currentTerm r + 1) (me r) (lastIdx (log r)) (lastTerm (log r)).
Proof.
  intros Hwf Hr. unfold tick, role_eqb. rewrite bool_decide_false by done.
  destruct (env_now (expired r) >? electionTimeout r) eqn:E; bools; [|cbn in E; lia].
  destruct (becomeCandidateL_spec (expired r) r Hwf) as (r' & args & H & _ & _ & _ & Hl & _ & Hct & _ & Hro & _ & _ & Hargs).
  exists r', args. rewrite <- Hct. split_and!; try done. by eapply becomeCandidateL_dead.
Qed.

Lemma vote_counts r args v :
  node_wf r → role r = Candidate → currentTerm r = rv_Term args →
  let reply := MkRequestVoteReply (rv_Term args) true in
  ∃ r' sp, processRequestReplyL r args reply (v : Z) = Some (r', v + 1, sp)
    ∧ currentTerm r' = currentTerm r ∧ log r' = log r ∧ dead r' = dead r
    ∧ role r' = (if v + 1 >? Z.quot (nPeers r) 2 then Leader else Candidate).
Proof.
  intros Hwf Hr HT reply. unfold processRequestReplyL, role_eqb.
  rewrite (proj2 (Z.eqb_eq _ _) HT), bool_decide_true by done. cbn [andb rvr_VoteGranted reply].
  destruct (v + 1 >? Z.quot (nPeers r) 2); [|by do 2 eexists].
  destruct (becomeLeaderL_spec r Hwf) as (r' & H & _ & _ & _ & Hl & _ & _ & Hct & _ & Hro & _); [apply Hwf; congruence|].
  exists r', (appendsL r). rewrite H. cbn [mbind option_bind]. split_and!; try done.
  unfold becomeLeaderL in H. destruct (lastLogL r); cbn [mbind option_bind] in H; [|done].
  destruct (_ || _); [done|]. by injection H as <-.
Qed.
End ops.

(** ** Elections *)

Section live.
Context {C : Type} `{!GobCodec (PState C), !GobLaws (PState C)}.
Context (n : Z) (Q : list Z).
Implicit Types (w : Cluster C) (r : Raft C) (t : Task C).

Definition caller t : Z :=
  match t with
  | TVote c _ _ _ _ | TVoteReply c _ _ _ _ _ | TStartAppend c _ _ _ | TAppend c _ _ _
  | TAppendReply c _ _ _ _ | TInstall c _ _ _ | TInstallReply c _ _ _ _ => c
  end.

Definition callee t : Z :=
  match t with
  | TVote _ s _ _ _ | TVoteReply _ s _ _ _ _ | TStartAppend _ s _ _ | TAppend _ s _ _
  | TAppendReply _ s _ _ _ | TInstall _ s _ _ | TInstallReply _ s _ _ _ => s
  end.

(** The steps in which only peers of [Q] take part: the clock of a living one, a
    command from a client, a message between two of them.  Nobody dies. *)
Definition within w (act : Action C) : Prop :=
  match act with
  | ATick i _ => i ∈ Q ∧ dead (rf (peers w i)) = false
  | AStart i _ => i ∈ Q
  | ARun k _ => ∃ t, tasks w !! k = Some t ∧ caller t ∈ Q ∧ callee t ∈ Q
  | _ => False
  end.

Definition lstep w w' : Prop := ∃ act, within w act ∧ exec n act w = Some w'.

Lemma lstep_dstep w w' : lstep w w' → dstep n w w'.
Proof. intros (act & Hin & Hx). exists act. split; [by destruct act|done]. Qed.

Lemma lstep_reachable w w' : reachable n w → lstep w w' → reachable n w'.
Proof. intros [envs Hw] Hs. exists envs. eapply rtc_r; [exact Hw|]. by apply dstep_step, lstep_dstep. Qed.

Context (Hn : 2 <= n) (HQ : majority n Q).
(** The states in which the peers are well-formed, like those that a cluster can reach *)
Context (state : Cluster C → Prop) (state_step : ∀ w w', state w → lstep w w' → state w') (state_inv : ∀ w, state w → cluster_inv n w).
#[local] Set Default Proof Using "All".

Lemma in_Q i : i ∈ Q → 0 <= i < n ∧ in_cluster n i = true.
Proof. intros Hi. destruct HQ as (_ & _ & Hr). specialize (Hr i Hi). unfold in_cluster. lia. Qed.

Lemma peer_wf w i : state w → 0 <= i < n →
  node_wf (rf (peers w i)) ∧ me (rf (peers w i)) = i ∧ nPeers (rf (peers w i)) = n.
Proof. intros Hw Hi. apply (ci_node _ _ (state_inv w Hw) i Hi). Qed.

(** *** A peer stands for election *)

Lemma stand w c : state w → c ∈ Q → role (rf (peers w c)) ≠ Leader → dead (rf (peers w c)) = false →
  ∃ w' a, lstep w w' ∧ (∀ j, j ≠ c → peers w' j = peers w j)
    ∧ epoch (peers w' c) = epoch (peers w c) ∧ votes (peers w' c) !! a = Some 1
    ∧ (let r := rf (peers w c) in let r' := rf (peers w' c) in
       role r' = Candidate ∧ currentTerm r' = currentTerm r + 1 ∧ log r' = log r ∧ dead r' = false
       ∧ ∀ s, 0 <= s < n → s ≠ c → TVote c s (epoch (peers w c)) a
           (MkRequestVoteArgs (currentTerm r + 1) c (lastIdx (log r)) (lastTerm (log r))) ∈ tasks w').
Proof.
  intros Hw Hc Hr Hd. destruct (in_Q c Hc) as [Hi Hin]. destruct (peer_wf w c Hw Hi) as (Hwf & Hme & Hnp).
  destruct (tick_stands (rf (peers w c)) Hwf Hr) as (r' & args & Ht & Hro & Hct & Hl & Hdd & Hargs).
  rewrite Hme in Hargs. set (sp := (λ i, GoRequest i args) <$> otherPeers (rf (peers w c))) in *.
  exists (update w c (MkPeer r' (epoch (peers w c)) (new_votes sp (votes (peers w c))))
          (spawn c (epoch (peers w c)) (length (votes (peers w c))) sp ++ tasks w)), (length (votes (peers w c))).
  assert (∀ s, 0 <= s < n → s ≠ c → GoRequest s args ∈ sp) as Hsp.
  { intros s Hs Hne. apply list_elem_of_fmap. exists s. split; [done|]. apply otherPeers_spec; lia. }
  assert (existsb is_request sp = true) as Hex.
  { apply existsb_exists. destruct (decide (c = 0)).
    - exists (GoRequest 1 args). split; [apply list_elem_of_In, Hsp; lia|done].
    - exists (GoRequest 0 args). split; [apply list_elem_of_In, Hsp; lia|done]. }
  split_and!.
  - exists (ATick c (expired (rf (peers w c)))). split; [done|]. cbn [exec]. rewrite Hin. cbn [negb].
    rewrite Ht. done.
  - intros j Hj. by rewrite peers_update, decide_False.
  - by rewrite peers_update, decide_True.
  - rewrite peers_update, decide_True by done. cbn. unfold new_votes. rewrite Hex.
    by rewrite lookup_app_r, Nat.sub_diag by lia.
  - rewrite peers_update, decide_True by done. cbn [rf tasks update]. split_and!; [done|done|done|congruence|].
    intros s Hs Hne. apply elem_of_app. left. unfold spawn. apply list_elem_of_fmap.
    exists (GoRequest s args). split; [by rewrite Hargs|by apply Hsp].
Qed.

(** *** It asks for a vote *)

Lemma task_at w t : t ∈ tasks w → ∃ k, tasks w !! k = Some t ∧
  ∀ (t' u : Task C), u ∈ tasks w → u ≠ t → u ∈ <[k := t']> (tasks w) ∧ u ∈ delete k (tasks w).
Proof using Type.
  intros [k Hk]%list_elem_of_lookup. exists k. split; [done|]. intros t' u [j Hj]%list_elem_of_lookup Hne.
  assert (j ≠ k) as Hjk by congruence. split.
  - apply list_elem_of_lookup. exists j. by rewrite list_lookup_insert_ne.
  - apply list_elem_of_lookup. destruct (decide (j < k)%nat).
    + exists j. by rewrite list_lookup_delete_lt.
    + exists (pred j). rewrite list_lookup_delete_ge by lia. by replace (S (pred j)) with j by lia.
Qed.

Lemma ask w c s ep a args : state w → c ∈ Q → s ∈ Q → TVote c s ep a args ∈ tasks w →
  currentTerm (rf (peers w s)) < rv_Term args →
  ∃ w' reply, lstep w w' ∧ (∀ j, j ≠ s → peers w' j = peers w j)
    ∧ (∀ u, u ∈ tasks w → u ≠ TVote c s ep a args → u ∈ tasks w') ∧ TVoteReply c s ep a args reply ∈ tasks w'
    ∧ currentTerm (rf (peers w' s)) = rv_Term args ∧ role (rf (peers w' s)) = Follower
    ∧ dead (rf (peers w' s)) = dead (rf (peers w s)) ∧ log (rf (peers w' s)) = log (rf (peers w s))
    ∧ ((∀ lst, lastLogL (rf (peers w s)) = Some lst → upToDate lst args = true) →
       reply = MkRequestVoteReply (rv_Term args) true).
Proof.
  intros Hw Hc Hs Hin HT. destruct (peer_wf w s Hw (proj1 (in_Q s Hs))) as (Hwf & _).
  destruct (task_at w _ Hin) as (k & Hk & Hkeep). pose proof (lookup_lt_Some _ _ _ Hk) as Hlt.
  destruct (RequestVote_spec (expired (rf (peers w s))) _ args Hwf) as (r' & reply & H & _ & Hl & _).
  exists (update w s (set_rf (peers w s) r') (<[k := TVoteReply c s ep a args reply]> (tasks w))), reply.
  destruct (RequestVote_heard _ _ _ _ _ Hwf H) as [Hd Hh]. destruct (Hh HT) as [Hct Hro].
  rewrite !peers_update, !decide_True by done. split_and!; try done.
  - exists (ARun k (expired (rf (peers w s)))). split; [by eexists|]. cbn [exec]. unfold run. rewrite Hk. cbn [mbind option_bind].
    by rewrite H.
  - intros j Hj. by rewrite peers_update, decide_False.
  - intros u Hu Hne. by apply Hkeep.
  - apply list_elem_of_lookup. exists k. cbn [tasks update]. by rewrite list_lookup_insert_eq.
  - intros Hup. destruct (RequestVote_yes (expired (rf (peers w s))) _ args Hwf HT Hup) as [r2 H2]. congruence.
Qed.

(** *** It counts the votes *)

(** A leader of [Q], with no peer of [Q] in a later term. *)
Record leading w (c T : Z) (l : list (LogEntry C)) : Prop := {
  ld_reach : state w;
  ld_peer : let r := rf (peers w c) in
    role r = Leader ∧ currentTerm r = T ∧ log r = l ∧ dead r = false;
  ld_terms i : i ∈ Q → currentTerm (rf (peers w i)) <= T;
}.

Definition request (c T : Z) (l : list (LogEntry C)) : RequestVoteArgs :=
  MkRequestVoteArgs T c (lastIdx l) (lastTerm l).

Record candidacy w (c T : Z) (ep a : nat) (v : Z) (R : list Z) (l : list (LogEntry C)) : Prop := {
  cd_reach : state w;
  cd_peer : let r := rf (peers w c) in
    role r = Candidate ∧ currentTerm r = T ∧ log r = l ∧ dead r = false;
  cd_count : epoch (peers w c) = ep ∧ votes (peers w c) !! a = Some v;
  cd_rest s : s ∈ R → s ∈ Q ∧ s ≠ c ∧ TVote c s ep a (request c T l) ∈ tasks w
    ∧ currentTerm (rf (peers w s)) < T ∧ tip_le (tip (log (rf (peers w s)))) (tip l);
  cd_terms i : i ∈ Q → currentTerm (rf (peers w i)) <= T;
}.

Lemma tip_le_upToDate r c T l lst :
  node_wf r → tip_le (tip (log r)) (tip l) → lastLogL r = Some lst → upToDate lst (request c T l) = true.
Proof.
  intros Hwf Hle Hl. destruct (lastLogL_spec _ (nw_log _ Hwf)) as (lst' & Hl' & HI & HT).
  assert (lst' = lst) as -> by congruence. unfold upToDate. cbn. unfold tip_le in Hle. cbn in Hle. rewrite HI, HT. lia.
Qed.

Lemma count w c T ep a v R l args : candidacy w c T ep a v R l → c ∈ Q → args = request c T l →
  (∃ s, s ∈ Q ∧ s ∉ R ∧ TVoteReply c s ep a args (MkRequestVoteReply T true) ∈ tasks w) →
  ∃ w', lstep w w' ∧ (if v + 1 >? Z.quot n 2 then leading w' c T l else candidacy w' c T ep a (v + 1) R l).
Proof.
  intros [Hw (Hro & HT & Hl & Hd) [Hep Hv] Hrest Hterms] Hc -> (s & Hs & HsR & Hin).
  destruct (peer_wf w c Hw (proj1 (in_Q c Hc))) as (Hwf & Hme & Hnp).
  destruct (vote_counts _ (request c T l) v Hwf Hro HT) as (r' & sp & H & Hct & Hlog & Hdd & Hro'). rewrite Hnp in Hro'.
  change (rv_Term (request c T l)) with T in H.
  destruct (task_at w _ Hin) as (k & Hk & Hkeep).
  set (w' := update w c (MkPeer r' ep (<[a := v + 1]> (votes (peers w c)))) (spawn c ep a sp ++ delete k (tasks w))).
  assert (lstep w w') as Hstep.
  { exists (ARun k (expired r')). split; [by eexists|]. cbn [exec]. unfold run. rewrite Hk. cbn [mbind option_bind].
    rewrite bool_decide_true by done. cbn [negb]. rewrite Hv. cbn [mbind option_bind]. by rewrite H. }
  exists w'. split; [done|]. assert (state w') as Hw' by by eapply state_step.
  assert (∀ i, i ∈ Q → currentTerm (rf (peers w' i)) <= T) as Hterms'.
  { intros i Hi. unfold w'. rewrite peers_update. case_decide; [cbn; lia|by apply Hterms]. }
  assert (rf (peers w' c) = r') as Hrf by (unfold w'; by rewrite peers_update, decide_True).
  destruct (v + 1 >? Z.quot n 2).
  - split; [done|rewrite Hrf; split_and!; congruence|done].
  - split; [done|rewrite Hrf; split_and!; congruence| | |done].
    + unfold w'. rewrite peers_update, decide_True by done. cbn. split; [done|].
      apply list_lookup_insert_eq. by eapply lookup_lt_Some.
    + intros s' Hs'. destruct (Hrest s' Hs') as (? & Hne & Hin' & ? & ?). unfold w'.
      rewrite !peers_update, !decide_False by done. split_and!; try done. cbn [tasks update].
      apply elem_of_app. right. by apply (Hkeep (TVote c s' ep a (request c T l))).
Qed.

Lemma gather c T ep a l R : c ∈ Q → NoDup R → ∀ w v, candidacy w c T ep a v R l →
  v <= Z.quot n 2 < v + Z.of_nat (length R) → ∃ w', rtc lstep w w' ∧ leading w' c T l.
Proof.
  intros Hc HR. induction HR as [|s R Hs HR IH]; intros w v Hcd Hcount; [cbn in Hcount; lia|].
  destruct (cd_rest _ _ _ _ _ _ _ _ Hcd s ltac:(by left)) as (HsQ & Hne & Hin & Hlt & Htip).
  pose proof (cd_reach _ _ _ _ _ _ _ _ Hcd) as Hw. destruct (peer_wf w s Hw (proj1 (in_Q s HsQ))) as (Hwf & _).
  destruct (ask w c s ep a _ Hw Hc HsQ Hin Hlt) as (w1 & reply & Hst & Hoth & Hkeep & Hrep & Hct & _ & _ & Hlog & Hyes).
  rewrite Hyes in Hrep by (intros; by eapply tip_le_upToDate).
  assert (candidacy w1 c T ep a v R l) as Hcd1.
  { destruct Hcd as [_ Hp Hcn Hrest Hterms]. split.
    - by eapply state_step.
    - by rewrite Hoth.
    - by rewrite Hoth.
    - intros s' Hs'. assert (s' ≠ s) as Hne' by (intros ->; done).
      destruct (Hrest s' ltac:(by right)) as (? & ? & ? & ? & ?). rewrite Hoth by done. split_and!; try done.
      apply Hkeep; [done|]. congruence.
    - intros i Hi. destruct (decide (i = s)) as [->|]; [rewrite Hct; cbn; lia|]. rewrite Hoth by done. by apply Hterms. }
  destruct (count w1 c T ep a v R l _ Hcd1 Hc eq_refl) as (w2 & Hst2 & Hend); [by exists s|].
  destruct (v + 1 >? Z.quot n 2) eqn:E; bools.
  - exists w2. split; [|done]. eapply rtc_l; [done|]. by apply rtc_once.
  - destruct (IH w2 (v + 1) Hend) as (w3 & Hr & Hld); [cbn in Hcount; lia|].
    exists w3. split; [|done]. eapply rtc_l; [done|]. by eapply rtc_l.
Qed.

(** A peer whose log is the most up to date and whose term is the latest can win. *)
Lemma elect_best w c : state w → c ∈ Q → role (rf (peers w c)) ≠ Leader → dead (rf (peers w c)) = false →
  (∀ i, i ∈ Q → currentTerm (rf (peers w i)) <= currentTerm (rf (peers w c))
    ∧ tip_le (tip (log (rf (peers w i)))) (tip (log (rf (peers w c))))) →
  ∃ w' T, rtc lstep w w' ∧ leading w' c T (log (rf (peers w c))).
Proof.
  intros Hw Hc Hr Hd Hbest.
  destruct (stand w c Hw Hc Hr Hd) as (w1 & a & Hst & Hoth & Hep & Hv & Hro & Hct & Hl & Hd1 & Htasks).
  set (T := currentTerm (rf (peers w c)) + 1) in *. set (l := log (rf (peers w c))) in *.
  destruct HQ as (Hnd & Hmaj & Hrange).
  assert (candidacy w1 c T (epoch (peers w c)) a 1 (filter (λ i, i ≠ c) Q) l) as Hcd.
  { split; [by eapply state_step|done|done| |].
    - intros s [Hne Hs]%list_elem_of_filter. destruct (Hbest s Hs). rewrite Hoth by done. split_and!; try done; [|lia].
      apply Htasks; [by apply Hrange|done].
    - intros i Hi. destruct (Hbest i Hi). destruct (decide (i = c)) as [->|]; [lia|]. rewrite Hoth by done. lia. }
  destruct (gather c T (epoch (peers w c)) a l (filter (λ i, i ≠ c) Q) Hc (NoDup_filter _ _ Hnd) w1 1 Hcd) as (w' & Hrun & Hld).
  - pose proof (length_filter_others Q c Hnd Hc).
    rewrite Z.quot_div_nonneg by lia.
    pose proof (Z.div_mod n 2 ltac:(lia)). pose proof (Z.mod_pos_bound n 2 ltac:(lia)). lia.
  - exists w', T. split; [by eapply rtc_l|done].
Qed.

Lemma elect w : state w → (∀ i, i ∈ Q → dead (rf (peers w i)) = false) →
  ∃ w' c T, rtc lstep w w' ∧ c ∈ Q ∧ leading w' c T (log (rf (peers w c))).
Proof.
  intros Hw Hd. assert (Q ≠ []) as Hne by (destruct HQ as (_ & Hmaj & _); intros ->; cbn in Hmaj; lia).
  set (tipof i := tip (log (rf (peers w i)))). set (term i := currentTerm (rf (peers w i))).
  destruct (list_greatest (λ i j, tip_le (tipof i) (tipof j)) Q) as (c & Hc & Hbest); [|intros x y; apply total, _|done|].
  { intros x y z. apply transitivity. }
  destruct (list_greatest (λ i j, term i <= term j) Q) as (j & Hj & Hmax);
    [intros x y z; lia|intros x y; lia|done|].
  destruct (decide (Exists (λ i, role (rf (peers w i)) = Leader ∧ term i = term j) Q)) as [He|Hnone].
  { apply Exists_exists in He as (i & Hi & Hr & HT). exists w, i, (term j).
    split_and!; [done|done|]. split; [done|by split_and!; [| | |apply Hd]|done]. }
  assert (∀ i, i ∈ Q → term i = term j → role (rf (peers w i)) ≠ Leader) as Hnl.
  { intros i Hi HT Hr. apply Hnone, Exists_exists. eauto. }
  destruct (decide (j = c)) as [->|Hjc].
  { destruct (elect_best w c Hw Hc) as (w' & T & Hrun & Hld); [by apply Hnl|by apply Hd| |by exists w', c, T].
    intros i Hi. split; [by apply Hmax|by apply Hbest]. }
  destruct (stand w j Hw Hj (Hnl j Hj eq_refl) (Hd j Hj)) as (w1 & a & Hst & Hoth & Hep & _ & Hro & Hct & Hl & Hd1 & Htasks).
  assert (state w1) as Hw1 by by eapply state_step.
  destruct (ask w1 j c (epoch (peers w j)) a _ Hw1 Hj Hc (Htasks c (proj1 (in_Q c Hc)) ltac:(done)))
    as (w2 & reply & Hst2 & Hoth2 & _ & _ & Hct2 & Hro2 & Hd2 & Hl2 & _).
  { rewrite Hoth by done. cbn. specialize (Hmax c Hc). unfold term in Hmax. lia. }
  cbn in Hct2. rewrite Hoth in Hd2, Hl2 by done.
  destruct (elect_best w2 c) as (w3 & T & Hrun & Hld).
  - by eapply state_step.
  - done.
  - congruence.
  - rewrite Hd2. by apply Hd.
  - intros i Hi. rewrite Hct2, Hl2. specialize (Hmax i Hi). specialize (Hbest i Hi). unfold term, tipof in Hmax, Hbest.
    destruct (decide (i = c)) as [->|Hic]; [rewrite Hct2, Hl2; split; [lia|done]|]. rewrite Hoth2 by done.
    destruct (decide (i = j)) as [->|Hij]; [rewrite Hct, Hl; split; [lia|done]|]. rewrite Hoth by done. split; [lia|done].
  - rewrite Hl2 in Hld. exists w3, c, T. split_and!; [|done|done]. eapply rtc_l; [exact Hst|]. by eapply rtc_l.
Qed.
End live.

(** ** The theorems on elections *)

Section theorems.
Context {C : Type} `{!GobCodec (PState C), !GobLaws (PState C)}.
Context (n : Z).
Implicit Types (w : Cluster C).


(** A peer that is alone in its cluster never leads: votes are compared with the
    majority when a reply arrives, and nobody replies. *)
Lemma single_peer_no_leader w : reachable 1 w → ∀ i, 0 <= i < 1 → role (rf (peers w i)) ≠ Leader.
Proof.
  intros [envs Hw]. revert Hw. apply (rtc_ind_r (λ w, ∀ i, 0 <= i < 1 → role (rf (peers w i)) ≠ Leader)); [done|].
  intros w1 w2 Hw1 [act Hx] IH. assert (cluster_inv 1 w1) as Hc by (apply reachable_inv; by exists envs).
  assert (∀ i p ts, 0 <= i < 1 → (role (rf p) = Leader → role (rf (peers w1 i)) = Leader) →
    ∀ j, 0 <= j < 1 → role (rf (peers (update w1 i p ts) j)) ≠ Leader) as Hup.
  { intros i p ts Hi Hr j Hj. rewrite peers_update. case_decide; [|by apply IH]. intros Hro. by apply (IH i Hi), Hr. }
  destruct act as [i env|i cmd|i index data|i|i|i env|k|k env]; cbn [exec] in Hx.
  all: try (destruct (negb (in_cluster 1 i)) eqn:Hin; [done|]; apply in_cluster_spec in Hin as Hi;
            destruct (ci_node _ _ Hc i Hi) as (Hwf & Hme & Hnp)).
  - destruct (tick _ _) as [[r' sp]|] eqn:Hr; cbn [mbind option_bind] in Hx; [|done]. injection Hx as <-.
    apply Hup; [done|]. cbn. unfold tick, role_eqb in Hr. case_bool_decide; [done|].
    destruct (_ >? _); [|by injection Hr as <- _].
    destruct (becomeCandidateL_spec env _ Hwf) as (r1 & args & H1 & _ & _ & _ & _ & _ & _ & _ & Hca & _). congruence.
  - destruct (Start _ cmd) as [[[r' res] sp]|] eqn:Hr; cbn [mbind option_bind] in Hx; [|done]. injection Hx as <-.
    apply Hup; [done|]. cbn. destruct (Start_spec _ cmd Hwf) as [[_ H1]|(r1 & Hro & _)]; congruence.
  - destruct (SnapshotL _ index data) as [r'|] eqn:Hr; cbn [mbind option_bind] in Hx; [|done]. injection Hx as <-.
    apply Hup; [done|]. cbn.
    destruct (SnapshotL_spec _ _ data Hwf (SnapshotL_returns _ _ _ _ Hwf Hr)) as (r1 & H1 & _ & [] & _). congruence.
  - destruct (apply _) as [[r' msg]|] eqn:Hr; cbn [mbind option_bind] in Hx; [|done]. injection Hx as <-.
    apply Hup; [done|]. cbn. destruct (apply_node _ _ _ Hwf Hr) as [_ [[] _ _ _]]. congruence.
  - injection Hx as <-. by apply Hup.
  - destruct (Make env 1 i _) as [r'|] eqn:Hr; cbn [mbind option_bind] in Hx; [|done]. injection Hx as <-.
    apply Hup; [done|]. cbn. destruct (Make_trans env (rf (peers w1 i)) r' Hwf) as [_ _ ? _ _ _ _]; [by rewrite Hnp, Hme|congruence].
  - by injection Hx as <-.
  - unfold run in Hx. destruct (tasks w1 !! k) as [t|] eqn:Hk; cbn [mbind option_bind] in Hx; [|done].
    apply list_elem_of_lookup_2, (ci_task _ _ Hc) in Hk. exfalso.
    destruct t; destruct Hk as ((? & ? & ?) & _); lia.
Qed.
End theorems.
