(* ===== verification/RaftAvail.v ===== *)
(** * A leader brings its log to a majority

    The leader of a majority of living peers, elected as in RaftLive, appends a
    command and sends its log to one peer after the other: it goes back in its
    log, or installs its snapshot, until the peer accepts ([replicate]).  Once
    enough peers have the log the command is committed. *)

From S2P Require Import Prelude Util Labgob RaftState RaftHandlers RaftLeader RaftNode RaftRecv RaftSend RaftCluster RaftElection RaftClusterInv RaftLogMatching RaftSteps RaftSafety RaftTree RaftTrans RaftAncestry RaftCompleteness RaftCommit RaftRuns RaftStateMachine RaftTotal RaftLive.

(** ** Counting *)

Section ops.
Context {C : Type} `{!GobCodec (PState C), !GobLaws (PState C)}.
Implicit Types (r : Raft C).

Lemma sorted_below (l : list Z) (k : nat) v K :
  Sorted Z.le l → l !! k = Some v → v < K → (length (filter (Z.le K) l) + S k <= length l)%nat.
Proof.
  intros Hs%Sorted_StronglySorted; [|intros ???; lia]. revert k. induction Hs as [|x l Hs IH Hx]; intros k Hk Hv; [done|].
  rewrite filter_cons. destruct k as [|k]; cbn in Hk.
  - injection Hk as ->. rewrite decide_False by lia. cbn. pose proof (length_filter (Z.le K) l). lia.
  - assert (x <= v).
    { rewrite Forall_forall in Hx. apply Hx. by eapply list_elem_of_lookup_2. }
    rewrite decide_False by lia. specialize (IH k Hk Hv). cbn. lia.
Qed.

(** The followers that a leader needs. *)
Definition needed (n : Z) : Z := n - (Z.quot n 2 + 1).

Lemma setCommitIndexL_grows r r' ok : setCommitIndexL r = Some (r', ok) →
  commitIndex r <= commitIndex r' ∧ nextIndex r' = nextIndex r ∧ matchIndex r' = matchIndex r ∧ dead r' = dead r.
Proof.
  unfold setCommitIndexL. intros H. destruct (go_index _ _) as [N|]; cbn [mbind option_bind] in H; [|done].
  destruct (N >? commitIndex r) eqn:E; bools; [|by injection H as <- _].
  destruct (getLogL r N); cbn [mbind option_bind] in H; [|done].
  destruct (_ =? _); injection H as <- _; split_and!; (done || cbn; lia).
Qed.

(** With enough followers the last entry of the log, if it is of the leader's
    own term, is committed. *)
Lemma setCommitIndexL_reaches r r' ok :
  node_wf r → 3 <= nPeers r → lastTerm (log r) = currentTerm r →
  (∀ j m, go_index (matchIndex r) j = Some m → m <= lastIdx (log r)) →
  needed (nPeers r) <= Z.of_nat (length (filter (Z.le (lastIdx (log r))) (matchIndex r))) →
  setCommitIndexL r = Some (r', ok) → lastIdx (log r) <= commitIndex r'.
Proof.
  intros Hwf Hn HT Hm Hcount H. destruct (setCommitIndexL_grows _ _ _ H) as [Hgrow _]. unfold setCommitIndexL in H.
  pose proof (nw_match _ Hwf) as Hlen. unfold go_len in Hlen. rewrite take_ge in H by lia.
  replace (Z.to_nat (nPeers r) - length (matchIndex r))%nat with 0%nat in H by lia. rewrite app_nil_r in H.
  set (srt := merge_sort Z.le (matchIndex r)) in H. assert (srt ≡ₚ matchIndex r) as Hp by apply merge_sort_Permutation.
  destruct (go_index srt _) as [N|] eqn:EN; cbn [mbind option_bind] in H; [|done].
  apply go_index_lookup in EN as [Hpos EN]. unfold needed in Hcount.
  assert (lastIdx (log r) <= N <= lastIdx (log r)) as HN.
  { split.
    - destruct (Z.le_gt_cases (lastIdx (log r)) N) as [|Hlt]; [done|].
      pose proof (sorted_below srt _ N (lastIdx (log r)) ltac:(apply Sorted_merge_sort; intros ??; lia) EN Hlt) as Hb.
      rewrite Hp in Hb. lia.
    - assert (N ∈ matchIndex r) as Hin by (rewrite <- Hp; by eapply list_elem_of_lookup_2).
      apply list_elem_of_lookup in Hin as [j Hj]. rewrite <- go_index_nat in Hj. by eapply Hm. }
  assert (N = lastIdx (log r)) as -> by lia. destruct (_ >? commitIndex r) eqn:E; bools; [|lia].
  rewrite getLogL_spec in H by apply Hwf. destruct (last_entry _ (nw_log _ Hwf)) as (e & _ & He & _ & HTe).
  rewrite He in H. cbn [mbind option_bind] in H. rewrite HTe, HT, Z.eqb_refl in H. injection H as <- _. cbn. lia.
Qed.

(** A snapshot from a leader of no earlier term reaches the log. *)
Lemma InstallSnapshot_taken env r args r' reply :
  log_wf (log r) → currentTerm r <= is_Term args → InstallSnapshot env r args = Some (r', reply) →
  currentTerm r' = is_Term args
  ∧ (firstIdx (log r) < LastIncludedIndex (is_Snapshot args) → snapshot r' = is_Snapshot args).
Proof.
  unfold InstallSnapshot. set (r1 := if is_Term args >? _ then _ else r). intros Hl HT.
  assert (log r1 = log r ∧ currentTerm r1 = is_Term args) as [Hl1 HT1].
  { subst r1. destruct (_ >? _) eqn:E; bools; [done|]. split; [done|lia]. }
  clearbody r1. set (r2 := if _ >=? _ then _ else r1).
  assert (log r2 = log r ∧ currentTerm r2 = is_Term args) as [Hl2 HT2].
  { subst r2. destruct (_ >=? _); [|done]. rewrite <- Hl1, <- HT1. rewrite resetElectionTimeoutL_frame. done. }
  clearbody r2. rewrite HT2, Z.ltb_irrefl. intros H. rewrite logFirstIndexL_spec in H by congruence.
  cbn [mbind option_bind] in H. rewrite Hl2 in H.
  destruct (_ >=? _) eqn:E; bools; [injection H as <- _; split; [done|lia]|].
  set (r3 := set_snapshot _ _) in H. destruct (lastLogL r3); cbn [mbind option_bind] in H; [|done].
  destruct (if _ >=? _ then _ else _) as [retain|]; cbn [mbind option_bind] in H; [|done].
  destruct (if retain then _ else _) as [r4|] eqn:E4; cbn [mbind option_bind] in H; [|done].
  assert (∃ l, r4 = set_log r3 l) as [l4 ->].
  { destruct retain; [|injection E4 as <-; eauto]. unfold trimLogL in E4. runs. destruct (_ <? _); [done|]. runs. eauto. }
  injection H as <- _. rewrite applySignalL_frame. done.
Qed.

Lemma InstallSnapshot_covers env r args r' reply :
  node_wf r → is_wf args → currentTerm r <= is_Term args → InstallSnapshot env r args = Some (r', reply) →
  currentTerm r' = is_Term args ∧ isr_Term reply = is_Term args
  ∧ LastIncludedIndex (is_Snapshot args) <= firstIdx (log r').
Proof.
  intros Hwf Hsw HT H.
  destruct (InstallSnapshot_spec env r args Hwf Hsw) as (r1 & r2 & reply2 & H2 & _ & Hwf' & _ & Hrt & _ & _ & Hl).
  rewrite H in H2. injection H2 as <- <-. rewrite Hrt.
  destruct (InstallSnapshot_taken _ _ _ _ _ (nw_log _ Hwf) HT H) as [Hct Htk]. split_and!; [done|done|].
  destruct (Z.le_gt_cases (LastIncludedIndex (is_Snapshot args)) (firstIdx (log r))) as [Hle|Hlt].
  - destruct Hl as [->|(_ & _ & ?)]; [done|lia].
  - rewrite <- (proj1 (nw_snap _ Hwf')), Htk by lia. done.
Qed.

(** The leader's answer to an answer. *)
Lemma append_reply_accepted r s args reply r' :
  node_wf r → 3 <= nPeers r → 0 <= s < nPeers r → role r = Leader → currentTerm r = ae_Term args →
  aer_Success reply = true → processAppendReplyL r s args reply = Some r' →
  ∃ m0, go_index (matchIndex r) s = Some m0
    ∧ role r' = Leader ∧ currentTerm r' = currentTerm r ∧ log r' = log r ∧ dead r' = dead r
    ∧ matchIndex r' = <[Z.to_nat s := Z.max (ae_PrevLogIndex args + go_len (ae_Entries args)) m0]> (matchIndex r)
    ∧ commitIndex r <= commitIndex r'
    ∧ (lastTerm (log r) = currentTerm r →
       (∀ j m, go_index (matchIndex r') j = Some m → m <= lastIdx (log r)) →
       needed (nPeers r) <= Z.of_nat (length (filter (Z.le (lastIdx (log r))) (matchIndex r'))) →
       lastIdx (log r) <= commitIndex r').
Proof.
  intros Hwf Hn Hs Hr HT Hsu H. unfold processAppendReplyL, role_eqb in H.
  rewrite (proj2 (Z.eqb_eq _ _) HT), bool_decide_true, Hsu in H by done. cbn [andb] in H.
  destruct (updateMatchAndNextL_spec r s (ae_PrevLogIndex args + go_len (ae_Entries args)) Hwf Hs)
    as (m0 & x0 & Hm0 & _ & Hu). rewrite Hu in H. cbn [mbind option_bind] in H. exists m0.
  destruct (updateMatchAndNextL_node _ _ _ _ Hwf Hu) as (Hwf1 & _).
  set (r1 := set_nextIndex _ _) in *. destruct (setCommitIndexL r1) as [[r2 ok]|] eqn:E2; cbn [mbind option_bind] in H; [|done].
  destruct (setCommitIndexL_grows _ _ _ E2) as (Hg & _ & Hm & Hd). destruct (setCommitIndexL_node _ _ _ Hwf1 E2) as [_ [[] Hl _ _]].
  assert (same_node r2 r' ∧ matchIndex r' = matchIndex r2 ∧ commitIndex r' = commitIndex r2 ∧ dead r' = dead r2)
    as ([[] Hl' _ _] & Hm' & Hc' & Hd').
  { injection H as <-. rewrite applySignalL_frame. by destruct ok. }
  assert (role r1 = role r ∧ currentTerm r1 = currentTerm r ∧ log r1 = log r ∧ dead r1 = dead r) as (? & ? & ? & ?) by done.
  split_and!; try congruence; [by rewrite Hm', Hm|rewrite Hc'; exact Hg|].
  intros Hlt Hle Hcount. rewrite Hc', Hm', Hm in *. by apply (setCommitIndexL_reaches r1 r2 ok).
Qed.

Lemma append_reply_refused r s args reply r' :
  node_wf r → 0 <= s < nPeers r → role r = Leader → currentTerm r = ae_Term args →
  aer_Success reply = false → aer_Term reply <= currentTerm r → ae_PrevLogIndex args <= lastIdx (log r) + 1 →
  processAppendReplyL r s args reply = Some r' →
  ∃ x, r' = set_nextIndex r (<[Z.to_nat s := x]> (nextIndex r))
    ∧ (x = aer_ConflictFirstIndex reply ∨ x <= ae_PrevLogIndex args)
    ∧ (aer_ConflictTerm reply = NA → x = aer_ConflictFirstIndex reply).
Proof.
  intros Hwf Hs Hr HT Hsu Ht Hprev H. unfold processAppendReplyL, role_eqb in H.
  rewrite (proj2 (Z.eqb_eq _ _) HT), bool_decide_true, Hsu in H by done. cbn [andb] in H.
  destruct (_ >? _) eqn:E; bools; [lia|].
  destruct (processPrevLogConflictL_spec r s args reply Hwf Hs Hprev) as (x & Hx & Hrest).
  rewrite Hx in H. injection H as <-. by exists x.
Qed.
End ops.

(** ** Replication *)

Section avail.
Context {C : Type} `{!GobCodec (PState C), !GobLaws (PState C)}.
Context (n : Z) (Q : list Z) (Hn : 3 <= n) (HQ : majority n Q).
Implicit Types (w : Cluster C) (r : Raft C) (t : Task C) (l : list (LogEntry C)).
#[local] Set Default Proof Using "All".

Let Hn2 : 2 <= n := Z.le_trans 2 3 n (Z.lt_le_incl 2 3 eq_refl) Hn.
Local Abbreviation lstep := (lstep n Q).
Local Abbreviation leading := (leading Q (dreachable n)).

Lemma lstep_dreachable w w' : dreachable n w → lstep w w' → dreachable n w'.
Proof using Type. intros Hw Hs. by eapply dreachable_step, lstep_dstep. Qed.

Lemma dreachable_cluster w : dreachable n w → cluster_inv n w.
Proof using GobLaws0. intros Hw. apply reachable_inv, dreachable_reachable, Hw. Qed.


Lemma range i : i ∈ Q → 0 <= i < n ∧ in_cluster n i = true.
Proof. apply (in_Q n Q Hn2 HQ (dreachable n) lstep_dreachable dreachable_cluster). Qed.

Lemma reachable_node w i : dreachable n w → 0 <= i < n →
  node_wf (rf (peers w i)) ∧ me (rf (peers w i)) = i ∧ nPeers (rf (peers w i)) = n.
Proof. apply (peer_wf n Q Hn2 HQ (dreachable n) lstep_dreachable dreachable_cluster). Qed.

(** One goroutine between peers of [Q] runs. *)
Lemma go w t : t ∈ tasks w → caller t ∈ Q → callee t ∈ Q →
  ∃ k, tasks w !! k = Some t ∧ ∀ env w', run k env w = Some w' → lstep w w'.
Proof.
  intros [k Hk]%list_elem_of_lookup Hc Hs. exists k. split; [done|]. intros env w' Hr.
  exists (ARun k env). split; [by exists t|done].
Qed.

(** The peers other than [i] stay as they are. *)
Definition only w w' (i : Z) : Prop := ∀ j, j ≠ i → peers w' j = peers w j.

Lemma heartbeat w c T l s : leading w c T l → c ∈ Q → s ∈ Q → s ≠ c →
  ∃ w', lstep w w' ∧ (∀ j, peers w' j = peers w j) ∧ TStartAppend c s (epoch (peers w c)) T ∈ tasks w'.
Proof.
  intros [Hw (Hr & HT & Hl & Hd) Hterms] Hc Hs Hne. destruct (range c Hc) as [Hi Hin].
  destruct (reachable_node w c Hw Hi) as (Hwf & Hme & Hnp). set (r := rf (peers w c)) in *.
  exists (update w c (MkPeer r (epoch (peers w c)) (new_votes (heartbeatsL r) (votes (peers w c))))
    (spawn c (epoch (peers w c)) (length (votes (peers w c))) (heartbeatsL r) ++ tasks w)). split_and!.
  - exists (ATick c (expired r)). split; [done|]. cbn [exec]. rewrite Hin. cbn [negb]. unfold tick, role_eqb.
    fold r. by rewrite bool_decide_true by done.
  - intros j. rewrite peers_update. case_decide as Hj; [subst j|done].
    unfold heartbeatsL. rewrite appenders_no_request. unfold r. by destruct (peers w c).
  - cbn [tasks update]. apply elem_of_app. left. unfold spawn, heartbeatsL, appendsL. apply list_elem_of_fmap.
    exists (GoAppend s (currentTerm r)). split; [by rewrite HT|]. apply list_elem_of_fmap. exists s. split; [done|].
    apply otherPeers_spec; [lia|]. destruct (range s Hs). lia.
Qed.

(** The leader sends its log from the next index on, or its snapshot. *)
Lemma send w c T l s x : leading w c T l → c ∈ Q → s ∈ Q → go_index (nextIndex (rf (peers w c))) s = Some x →
  TStartAppend c s (epoch (peers w c)) T ∈ tasks w →
  ∃ w', lstep w w' ∧ (∀ j, peers w' j = peers w j)
    ∧ if x <=? firstIdx l then TInstall c s (epoch (peers w c)) (installArgsL (rf (peers w c))) ∈ tasks w'
      else ∃ args, makeAppendArgsL (rf (peers w c)) s = Some args ∧ ae_PrevLogIndex args = x - 1
        ∧ TAppend c s (epoch (peers w c)) args ∈ tasks w'.
Proof.
  intros [Hw (Hr & HT & Hl & Hd) Hterms] Hc Hs Hx Hin. destruct (range c Hc) as [Hi _].
  destruct (reachable_node w c Hw Hi) as (Hwf & Hme & Hnp).
  destruct (append_total n w c s _ T (dreachable_inv n w ltac:(lia) Hw) (dreachable_lead n w ltac:(lia) Hw) Hin eq_refl)
    as [call Hcall].
  destruct (go w _ Hin Hc Hs) as (k & Hk & Hgo). pose proof (lookup_lt_Some _ _ _ Hk) as Hlt.
  assert (∀ w', run k (expired (rf (peers w c))) w = Some w' → w' = update w c (peers w c)
    (match call with
     | None => delete k (tasks w)
     | Some (CallAppend args) => <[k := TAppend c s (epoch (peers w c)) args]> (tasks w)
     | Some (CallInstall args) => <[k := TInstall c s (epoch (peers w c)) args]> (tasks w)
     end)) as Heq.
  { intros w'. unfold run. rewrite Hk. cbn [mbind option_bind]. rewrite bool_decide_true by done. cbn [negb].
    rewrite Hcall. cbn [mbind option_bind]. by intros [= <-]. }
  eexists. split; [|split].
  - apply (Hgo (expired (rf (peers w c)))). unfold run. rewrite Hk. cbn [mbind option_bind].
    rewrite bool_decide_true by done. cbn [negb]. rewrite Hcall. done.
  - intros j. rewrite peers_update. by case_decide; subst.
  - clear Heq. unfold append in Hcall. rewrite HT, Z.eqb_refl in Hcall. cbn [negb] in Hcall. rewrite Hx in Hcall.
    cbn [mbind option_bind] in Hcall. rewrite logFirstIndexL_spec in Hcall by apply Hwf. cbn [mbind option_bind] in Hcall.
    rewrite Hl in Hcall. destruct (x <=? firstIdx l).
    + injection Hcall as <-. cbn [tasks update]. apply list_elem_of_lookup. exists k. by rewrite list_lookup_insert_eq.
    + destruct (makeAppendArgsL _ s) as [args|] eqn:Ea; cbn [mbind option_bind] in Hcall; [|done]. injection Hcall as <-.
      exists args. split_and!; [done| |].
      * unfold makeAppendArgsL in Ea. rewrite Hx in Ea. cbn [mbind option_bind] in Ea.
        destruct (lastLogL _); cbn [mbind option_bind] in Ea; [|done].
        destruct (if _ >=? _ then _ else _); cbn [mbind option_bind] in Ea; [|done].
        destruct (getLogL _ _); cbn [mbind option_bind] in Ea; [|done]. by injection Ea as <-.
      * cbn [tasks update]. apply list_elem_of_lookup. exists k. by rewrite list_lookup_insert_eq.
Qed.

(** *** One message and its answer *)

(** What the leader knows of its followers grows. *)
Definition advances r r' : Prop :=
  (∀ j m, go_index (matchIndex r) j = Some m → ∃ m', go_index (matchIndex r') j = Some m' ∧ m <= m')
  ∧ commitIndex r <= commitIndex r'.

#[local] Instance advances_refl : Reflexive advances.
Proof. intros r. split; [eauto using Z.le_refl|done]. Qed.

#[local] Instance advances_trans : Transitive advances.
Proof.
  intros r1 r2 r3 [Hm1 Hc1] [Hm2 Hc2]. split; [|lia]. intros j m Hj.
  destruct (Hm1 j m Hj) as (m1 & Hj1 & ?). destruct (Hm2 j m1 Hj1) as (m2 & ? & ?). exists m2. split; [done|lia].
Qed.

(** The follower [s] has the whole log, and with enough others the log is
    committed. *)
Definition accepted r (s T : Z) l : Prop :=
  (∃ m, go_index (matchIndex r) s = Some m ∧ lastIdx l <= m)
  ∧ (lastTerm l = T → needed n <= Z.of_nat (length (filter (Z.le (lastIdx l)) (matchIndex r))) →
     lastIdx l <= commitIndex r).

(** The follower's log lacks the entry before [x], or starts after it. *)
Definition refused (ls l : list (LogEntry C)) (x y : Z) : Prop :=
  (firstIdx ls <= x - 1 ∧ y <= x - 1
   ∧ ∀ e e', entry_at l (x - 1) = Some e → entry_at ls (x - 1) = Some e' → Term e' ≠ Term e)
  ∨ (x - 1 < firstIdx ls ∧ y = firstIdx ls + 1).

Lemma leading_peers w w' c T l : leading w c T l → lstep w w' → (∀ j, peers w' j = peers w j) → leading w' c T l.
Proof.
  intros [Hw Hp Ht] Hs Hsame. split; [by eapply lstep_dreachable|by rewrite Hsame|].
  intros i. rewrite Hsame. apply Ht.
Qed.

Lemma match_bounded w c j m : dreachable n w → c ∈ Q → role (rf (peers w c)) = Leader →
  go_index (matchIndex (rf (peers w c))) j = Some m → m <= lastIdx (log (rf (peers w c))).
Proof.
  intros Hw Hc Hr Hj. destruct (range c Hc) as [Hi _]. pose proof (dreachable_inv n w ltac:(lia) Hw) as Hf.
  pose proof Hf as [_ _ Hv]. destruct (commit_nonneg n w c Hi Hf) as [? _]. destruct (decide (j = c)) as [->|Hjc].
  - rewrite (cm_own _ _ _ _ (cv_peer _ _ Hv c Hi) m Hr Hj). lia.
  - destruct (cm_match _ _ _ _ (cv_peer _ _ Hv c Hi) j m Hr Hj Hjc) as [->|(y & <- & Ha & _)]; [lia|].
    by apply anc_index in Ha.
Qed.

(** The follower answers. *)
Lemma deliver_append w c T l s args : leading w c T l → c ∈ Q → s ∈ Q → s ≠ c →
  TAppend c s (epoch (peers w c)) args ∈ tasks w → ae_Term args = T → ae_wf args →
  ∃ w' reply, lstep w w' ∧ leading w' c T l ∧ peers w' c = peers w c
    ∧ TAppendReply c s (epoch (peers w c)) args reply ∈ tasks w' ∧ aer_Term reply = T
    ∧ (aer_Success reply = false → log (rf (peers w' s)) = log (rf (peers w s))
       ∧ prevLogConflictL (rf (peers w s)) args = Some (true, aer_ConflictTerm reply, aer_ConflictFirstIndex reply)).
Proof.
  intros [Hw Hp Hterms] Hc Hs Hne Hin HT Hae. destruct (reachable_node w s Hw (proj1 (range s Hs))) as (Hwf & _).
  set (env := expired (rf (peers w s))).
  destruct (AppendEntries_spec env _ args Hwf Hae) as (r1 & r' & reply & H & Hr1 & _ & Hst & Hpost & Hwl).
  destruct (ae_preamble_spec env _ args Hwf) as (_ & _ & _ & _ & Hct & _). rewrite <- Hr1 in Hct.
  assert (currentTerm r' = T) as HT'.
  { specialize (Hterms s Hs). assert (currentTerm r' = currentTerm r1) as ->; [|lia].
    destruct Hwl as [[Hw' _]|Hw']; apply (f_equal currentTerm) in Hw'; exact Hw'. }
  destruct (go w _ Hin Hc Hs) as (k & Hk & Hgo). pose proof (lookup_lt_Some _ _ _ Hk) as Hlt.
  set (w' := update w s (set_rf (peers w s) r') (<[k := TAppendReply c s (epoch (peers w c)) args reply]> (tasks w))).
  assert (lstep w w') as Hstep.
  { apply (Hgo env). unfold run. rewrite Hk. cbn [mbind option_bind]. by rewrite H. }
  assert (∀ j, j ≠ s → peers w' j = peers w j) as Hoth by (intros j Hj; unfold w'; by rewrite peers_update, decide_False).
  assert (rf (peers w' s) = r') as Hrs by (unfold w'; by rewrite peers_update, decide_True).
  exists w', reply. split_and!; [done| |by apply Hoth| |by rewrite (ap_replyTerm _ _ _ _ Hpost)|].
  - split; [by eapply lstep_dreachable|by rewrite Hoth|]. intros i Hi.
    destruct (decide (i = s)) as [->|]; [rewrite Hrs; lia|rewrite Hoth by done; by apply Hterms].
  - unfold w'. cbn [tasks update]. apply list_elem_of_lookup. exists k. by rewrite list_lookup_insert_eq.
  - intros Hsu. rewrite Hrs.
    destruct (AppendEntries_refuses _ _ _ _ _ Hwf Hae H Hsu) as (_ & Hl & Hpc); [|done].
    rewrite (ap_replyTerm _ _ _ _ Hpost). lia.
Qed.

(** The leader takes note. *)
Lemma take_answer w c T l s args reply : leading w c T l → c ∈ Q → s ∈ Q → s ≠ c →
  TAppendReply c s (epoch (peers w c)) args reply ∈ tasks w → ae_Term args = T → aer_Term reply = T →
  ae_PrevLogIndex args + go_len (ae_Entries args) = lastIdx l →
  ∃ w', lstep w w' ∧ leading w' c T l ∧ (∀ j, j ≠ c → peers w' j = peers w j)
    ∧ advances (rf (peers w c)) (rf (peers w' c))
    ∧ if aer_Success reply then accepted (rf (peers w' c)) s T l
      else ∃ y, go_index (nextIndex (rf (peers w' c))) s = Some y
        ∧ (y = aer_ConflictFirstIndex reply ∨ y <= ae_PrevLogIndex args)
        ∧ (aer_ConflictTerm reply = NA → y = aer_ConflictFirstIndex reply).
Proof.
  intros [Hw (Hr & HcT & Hl & Hd) Hterms] Hc Hs Hne Hin HT HrT Hlast.
  destruct (reachable_node w c Hw (proj1 (range c Hc))) as (Hwf & Hme & Hnp). destruct (range s Hs) as [Hsr _].
  destruct (append_reply_total n w c s _ args reply ltac:(lia) (dreachable_inv n w ltac:(lia) Hw)
    (dreachable_lead n w ltac:(lia) Hw) Hin) as [r' H].
  destruct (go w _ Hin Hc Hs) as (k & Hk & Hgo).
  set (w' := update w c (set_rf (peers w c) r') (delete k (tasks w))).
  assert (lstep w w') as Hstep.
  { apply (Hgo (expired r')). unfold run. rewrite Hk. cbn [mbind option_bind]. rewrite bool_decide_true by done.
    cbn [negb]. by rewrite H. }
  assert (∀ j, j ≠ c → peers w' j = peers w j) as Hoth by (intros j Hj; unfold w'; by rewrite peers_update, decide_False).
  assert (rf (peers w' c) = r') as Hrc by (unfold w'; by rewrite peers_update, decide_True).
  assert (dreachable n w') as Hw' by by eapply lstep_dreachable.
  assert (role r' = Leader ∧ currentTerm r' = T ∧ log r' = l ∧ dead r' = false → leading w' c T l) as Hld.
  { intros Hp. split; [done|by rewrite Hrc|]. intros i Hi. destruct (decide (i = c)) as [->|].
    - rewrite Hrc. destruct Hp as (_ & -> & _). done.
    - rewrite Hoth by done. by apply Hterms. }
  exists w'. pose proof (nw_next _ Hwf) as Hnl. pose proof (nw_match _ Hwf) as Hml.
  destruct (aer_Success reply) eqn:Hsu.
  - destruct (append_reply_accepted _ s args reply r' Hwf ltac:(lia) ltac:(lia) Hr ltac:(congruence) Hsu H)
      as (m0 & Hm0 & Hro & Hct & Hlog & Hdd & Hm & Hcm & Hreach).
    assert (leading w' c T l) as Hlead by (apply Hld; split_and!; congruence).
    rewrite Hrc. split_and!; [done|done|done| |].
    + split; [|done]. intros j m Hj. pose proof (proj1 (proj1 (go_index_lookup _ _ _) Hj)).
      rewrite Hm, go_index_insert by lia. case_decide as Hjs; [subst j|by exists m].
      eexists. split; [done|]. assert (m = m0) by congruence. lia.
    + split.
      * rewrite Hm, go_index_insert, decide_True by lia. eexists. split; [done|lia].
      * intros Hlt Hcount. rewrite Hl, HcT, Hnp in Hreach. apply Hreach; [done| |done].
        intros j m Hj. rewrite <- Hrc in Hj. apply match_bounded in Hj; [|done|done|by rewrite Hrc].
        by rewrite Hrc, Hlog, Hl in Hj.
  - pose proof (go_len_nonneg (ae_Entries args)).
    destruct (append_reply_refused _ s args reply r' Hwf ltac:(lia) Hr ltac:(congruence) Hsu ltac:(lia)
      ltac:(rewrite Hl; lia) H) as (y & -> & Hy & HyNA).
    split_and!; [done|by apply Hld|done|rewrite Hrc; split; [eauto using Z.le_refl|done]|].
    exists y. rewrite Hrc. cbn [nextIndex set_nextIndex]. rewrite go_index_insert, decide_True by lia. done.
Qed.

Lemma append_round w c T l s x : leading w c T l → c ∈ Q → s ∈ Q → s ≠ c →
  go_index (nextIndex (rf (peers w c))) s = Some x → firstIdx l < x →
  ∃ w', rtc lstep w w' ∧ leading w' c T l ∧ advances (rf (peers w c)) (rf (peers w' c))
    ∧ (accepted (rf (peers w' c)) s T l
       ∨ ∃ y, go_index (nextIndex (rf (peers w' c))) s = Some y
         ∧ log (rf (peers w' s)) = log (rf (peers w s)) ∧ refused (log (rf (peers w s))) l x y).
Proof.
  intros Hld Hc Hs Hne Hx Hlt.
  destruct (heartbeat w c T l s Hld Hc Hs Hne) as (w1 & Hst1 & Hp1 & Hin1). rewrite <- (Hp1 c) in Hin1.
  pose proof (leading_peers _ _ _ _ _ Hld Hst1 Hp1) as Hld1. rewrite <- (Hp1 c) in Hx.
  destruct (send w1 c T l s x Hld1 Hc Hs Hx Hin1) as (w2 & Hst2 & Hp2 & Hin2).
  destruct (Z.leb_spec x (firstIdx l)) as [|_]; [lia|]. destruct Hin2 as (args & Hmk & Hprev & Hin2).
  pose proof (leading_peers _ _ _ _ _ Hld1 Hst2 Hp2) as Hld2. rewrite <- (Hp2 c) in Hin2.
  pose proof Hld1 as [Hw1 (_ & HT1 & Hl1 & _) _]. destruct (reachable_node w1 c Hw1 (proj1 (range c Hc))) as (Hwf1 & _).
  destruct (makeAppendArgsL_spec _ _ _ Hwf1 Hmk) as (Hae & HaT & _ & _ & (e & He & HeT) & _ & Hlen).
  rewrite HT1 in HaT. rewrite Hl1 in He, Hlen.
  destruct (deliver_append w2 c T l s args Hld2 Hc Hs Hne Hin2 HaT Hae)
    as (w3 & reply & Hst3 & Hld3 & Hp3 & Hin3 & HrT & Href). rewrite <- Hp3 in Hin3.
  destruct (take_answer w3 c T l s args reply Hld3 Hc Hs Hne Hin3 HaT HrT Hlen) as (w4 & Hst4 & Hld4 & Hoth4 & Hadv & Hres).
  exists w4. split_and!; [|done|by rewrite <- (Hp1 c), <- (Hp2 c), <- Hp3|].
  { eapply rtc_l; [done|]. eapply rtc_l; [done|]. eapply rtc_l; [done|]. by apply rtc_once. }
  destruct (aer_Success reply); [by left|right]. destruct Hres as (y & Hy & Hyle & HyNA). exists y.
  destruct (Href eq_refl) as [Hlog Hpc]. rewrite (Hp2 s), (Hp1 s) in *.
  split_and!; [done|by rewrite Hoth4|]. pose proof Hld as [Hw _ _].
  destruct (reachable_node w s Hw (proj1 (range s Hs))) as (Hwfs & _). pose proof (nw_log _ Hwfs) as Hls.
  destruct (Z.lt_ge_cases (ae_PrevLogIndex args) (firstIdx (log (rf (peers w s))))) as [Hb|Hb].
  - rewrite prevLogConflictL_base in Hpc by done. injection Hpc as HNA Hci. right. rewrite HyNA, <- Hci by done. lia.
  - left. destruct (prevLogConflictL_spec (rf (peers w s)) args Hls) as (b & ct & ci & H2 & _ & Hle & Hdiff).
    rewrite Hpc in H2. injection H2 as <- <- <-. specialize (Hle eq_refl ltac:(lia)). split_and!; [lia|lia|].
    rewrite <- Hprev. intros e1 e2 He1 He2. rewrite He in He1. injection He1 as <-. rewrite HeT. by apply Hdiff.
Qed.

(** A log that starts before the leader's does gets the leader's snapshot. *)
Lemma install_round w c T l s x : leading w c T l → c ∈ Q → s ∈ Q → s ≠ c →
  go_index (nextIndex (rf (peers w c))) s = Some x → x <= firstIdx l →
  ∃ w', rtc lstep w w' ∧ leading w' c T l ∧ advances (rf (peers w c)) (rf (peers w' c))
    ∧ go_index (nextIndex (rf (peers w' c))) s = Some (firstIdx l + 1) ∧ firstIdx l <= firstIdx (log (rf (peers w' s))).
Proof.
  intros Hld Hc Hs Hne Hx Hle.
  destruct (heartbeat w c T l s Hld Hc Hs Hne) as (w1 & Hst1 & Hp1 & Hin1). rewrite <- (Hp1 c) in Hin1.
  pose proof (leading_peers _ _ _ _ _ Hld Hst1 Hp1) as Hld1. rewrite <- (Hp1 c) in Hx.
  destruct (send w1 c T l s x Hld1 Hc Hs Hx Hin1) as (w2 & Hst2 & Hp2 & Hin2).
  destruct (Z.leb_spec x (firstIdx l)) as [_|]; [|lia].
  pose proof (leading_peers _ _ _ _ _ Hld1 Hst2 Hp2) as Hld2. rewrite <- (Hp2 c) in Hin2, Hx.
  set (r := rf (peers w2 c)) in *. pose proof Hld2 as [Hw2 (Hr2 & HT2 & Hl2 & Hd2) Hterms2].
  destruct (range s Hs) as [Hsr _]. destruct (reachable_node w2 c Hw2 (proj1 (range c Hc))) as (Hwf & Hme & Hnp). fold r in Hwf, Hme, Hnp, Hr2, HT2, Hl2, Hd2.
  destruct (reachable_node w2 s Hw2 Hsr) as (Hwfs & _). pose proof (installArgsL_wf _ Hwf) as Hsw.
  destruct (go w2 _ Hin2 Hc Hs) as (k & Hk & Hgo). pose proof (lookup_lt_Some _ _ _ Hk) as Hlt.
  set (env := expired (rf (peers w2 s))).
  destruct (InstallSnapshot_spec env _ (installArgsL r) Hwfs Hsw) as (r1 & r' & reply & H & _).
  destruct (InstallSnapshot_covers env _ _ _ _ Hwfs Hsw ltac:(cbn; rewrite HT2; by apply Hterms2) H) as (Hct & HrT & Hcov).
  cbn in Hct, HrT, Hcov. rewrite (proj1 (nw_snap _ Hwf)), Hl2 in Hcov. rewrite HT2 in Hct, HrT.
  set (w3 := update w2 s (set_rf (peers w2 s) r') (<[k := TInstallReply c s (epoch (peers w2 c)) (installArgsL r) reply]> (tasks w2))).
  assert (lstep w2 w3) as Hst3.
  { apply (Hgo env). unfold run. rewrite Hk. cbn [mbind option_bind]. by rewrite H. }
  assert (peers w3 c = peers w2 c) as Hp3 by (unfold w3; by rewrite peers_update, decide_False).
  assert (rf (peers w3 s) = r') as Hp3s by (unfold w3; by rewrite peers_update, decide_True).
  assert (leading w3 c T l) as Hld3.
  { split; [by eapply lstep_dreachable|by rewrite Hp3|]. intros i Hi.
    destruct (decide (i = s)) as [->|]; [rewrite Hp3s; lia|unfold w3; rewrite peers_update, decide_False by done; by apply Hterms2]. }
  assert (TInstallReply c s (epoch (peers w3 c)) (installArgsL r) reply ∈ tasks w3) as Hin3.
  { rewrite Hp3. unfold w3. cbn [tasks update]. apply list_elem_of_lookup. exists k. by rewrite list_lookup_insert_eq. }
  destruct (go w3 _ Hin3 Hc Hs) as (k3 & Hk3 & Hgo3).
  destruct (updateMatchAndNextL_spec r s (firstIdx l) Hwf ltac:(lia)) as (m0 & x0 & Hm0 & Hx0 & Hu).
  assert (x0 = x) as -> by congruence. rewrite (Z.max_l (firstIdx l + 1)) in Hu by lia. set (r4 := set_nextIndex _ _) in Hu.
  set (w4 := update w3 c (set_rf (peers w3 c) r4) (delete k3 (tasks w3))).
  assert (lstep w3 w4) as Hst4.
  { apply (Hgo3 env). unfold run. rewrite Hk3. cbn [mbind option_bind]. rewrite bool_decide_true by done. cbn [negb].
    rewrite Hp3. fold r. unfold processInstallReplyL, role_eqb. cbn [is_Term installArgsL is_Snapshot].
    rewrite Z.eqb_refl, bool_decide_true by done. cbn [andb]. rewrite HrT, HT2.
    destruct (T >? T) eqn:E; bools; [lia|]. by rewrite (proj1 (nw_snap _ Hwf)), Hl2, Hu; cbn [mbind option_bind]; rewrite <- Hp3. }
  assert (rf (peers w4 c) = r4) as Hp4 by (unfold w4; by rewrite peers_update, decide_True).
  assert (∀ j, j ≠ c → peers w4 j = peers w3 j) as Hoth4 by (intros j Hj; unfold w4; by rewrite peers_update, decide_False).
  pose proof (nw_next _ Hwf) as Hnl. pose proof (nw_match _ Hwf) as Hml.
  exists w4. split_and!.
  - eapply rtc_l; [done|]. eapply rtc_l; [done|]. eapply rtc_l; [done|]. by apply rtc_once.
  - split; [eapply dreachable_step; [apply Hld3|by eapply lstep_dstep]|by rewrite Hp4|]. intros i Hi.
    destruct (decide (i = c)) as [->|]; [rewrite Hp4; cbn; lia|rewrite Hoth4 by done; by apply Hld3].
  - rewrite Hp4, <- (Hp1 c), <- (Hp2 c). fold r. split; [|done]. intros j m Hj.
    pose proof (proj1 (proj1 (go_index_lookup _ _ _) Hj)). cbn. rewrite go_index_insert by lia.
    case_decide as Hjs; [subst j|by exists m]. eexists. split; [done|]. assert (m = m0) by congruence. lia.
  - rewrite Hp4. cbn. by rewrite go_index_insert, decide_True by lia.
  - rewrite Hoth4, Hp3s by done. done.
Qed.

(** *** One follower after the other *)

(** The start of a follower's log is committed, so the leader knows its entry. *)
Lemma base_known w c T l s : leading w c T l → c ∈ Q → s ∈ Q → firstIdx l <= firstIdx (log (rf (peers w s))) →
  ∃ e e', entry_at l (firstIdx (log (rf (peers w s)))) = Some e
    ∧ entry_at (log (rf (peers w s))) (firstIdx (log (rf (peers w s)))) = Some e' ∧ Term e' = Term e.
Proof.
  intros [Hw (Hr & HT & Hl & _) Hterms] Hc Hs Hle. pose proof (dreachable_inv n w ltac:(lia) Hw) as Hf.
  pose proof Hf as [[_ Hlog _] _ Hv]. destruct (range c Hc) as [Hcr _]. destruct (range s Hs) as [Hsr _].
  destruct (reachable_node w c Hw Hcr) as (Hwf & _). destruct (reachable_node w s Hw Hsr) as (Hwfs & _).
  assert (anc (born (hist w)) (tip l) (base (log (rf (peers w s))))) as Ha.
  { rewrite <- Hl. apply (leader_committed n); [done|done|done|]. eapply committed_le; [|apply (cv_peer _ _ Hv s Hsr)].
    rewrite HT. by apply Hterms. }
  rewrite <- Hl in *. destruct (tip_anc_inv _ _ _ _ (nw_log _ Hwf) (lv_log _ _ Hlog c Hcr) Ha) as (e & He & HTe); [done|].
  destruct (first_entry _ (nw_log _ Hwfs)) as (e' & He' & _ & _ & HTe'). exists e, e'. split_and!; [done|done|congruence].
Qed.

Lemma aligned_round w c T l s x : leading w c T l → c ∈ Q → s ∈ Q → s ≠ c →
  go_index (nextIndex (rf (peers w c))) s = Some x → firstIdx l < x → x = firstIdx (log (rf (peers w s))) + 1 →
  ∃ w', rtc lstep w w' ∧ leading w' c T l ∧ advances (rf (peers w c)) (rf (peers w' c)) ∧ accepted (rf (peers w' c)) s T l.
Proof.
  intros Hld Hc Hs Hne Hx Hlt Heq.
  destruct (append_round w c T l s x Hld Hc Hs Hne Hx Hlt) as (w' & Hrun & Hld' & Hadv & [?|(y & _ & _ & Href)]);
    [by exists w'|exfalso].
  destruct (base_known w c T l s Hld Hc Hs ltac:(lia)) as (e & e' & He & He' & HTe).
  destruct Href as [(_ & _ & Hdiff)|[? _]]; [|lia].
  replace (firstIdx (log (rf (peers w s)))) with (x - 1) in He, He' by lia. by apply (Hdiff e e').
Qed.

Lemma low_round w c T l s : leading w c T l → c ∈ Q → s ∈ Q → s ≠ c →
  go_index (nextIndex (rf (peers w c))) s = Some (firstIdx l + 1) → firstIdx l <= firstIdx (log (rf (peers w s))) →
  ∃ w', rtc lstep w w' ∧ leading w' c T l ∧ advances (rf (peers w c)) (rf (peers w' c)) ∧ accepted (rf (peers w' c)) s T l.
Proof.
  intros Hld Hc Hs Hne Hx Hle.
  destruct (Z.eq_dec (firstIdx (log (rf (peers w s)))) (firstIdx l)) as [Heq|Hneq].
  { eapply aligned_round; try done; lia. }
  destruct (append_round w c T l s _ Hld Hc Hs Hne Hx ltac:(lia)) as (w1 & Hrun & Hld1 & Hadv & [?|(y & Hy & Hlog & Href)]);
    [by exists w1|].
  destruct Href as [(? & _)|[_ ->]]; [lia|].
  destruct (aligned_round w1 c T l s _ Hld1 Hc Hs Hne Hy) as (w2 & Hrun2 & Hld2 & Hadv2 & Hacc); [lia|by rewrite Hlog|].
  exists w2. split_and!; [by etrans|done|by etrans|done].
Qed.

Lemma replicate c T l s : c ∈ Q → s ∈ Q → s ≠ c → ∀ (m : nat) w x, leading w c T l →
  go_index (nextIndex (rf (peers w c))) s = Some x → x - firstIdx l <= Z.of_nat m →
  ∃ w', rtc lstep w w' ∧ leading w' c T l ∧ advances (rf (peers w c)) (rf (peers w' c)) ∧ accepted (rf (peers w' c)) s T l.
Proof.
  intros Hc Hs Hne m. induction m as [|m IH]; intros w x Hld Hx Hm.
  all: destruct (Z.le_gt_cases x (firstIdx l)) as [Hle|Hgt].
  1, 3: destruct (install_round w c T l s x Hld Hc Hs Hne Hx Hle) as (w1 & Hrun & Hld1 & Hadv & Hx1 & Hle1);
    destruct (low_round w1 c T l s Hld1 Hc Hs Hne Hx1 Hle1) as (w2 & Hrun2 & Hld2 & Hadv2 & Hacc);
    exists w2; split_and!; [by etrans|done|by etrans|done].
  - lia.
  - destruct (append_round w c T l s x Hld Hc Hs Hne Hx ltac:(lia)) as (w1 & Hrun & Hld1 & Hadv & [?|(y & Hy & Hlog & Href)]);
      [by exists w1|].
    assert (∃ w', rtc lstep w1 w' ∧ leading w' c T l ∧ advances (rf (peers w1 c)) (rf (peers w' c)) ∧ accepted (rf (peers w' c)) s T l)
      as (w2 & Hrun2 & Hld2 & Hadv2 & Hacc).
    { destruct Href as [(_ & Hyx & _)|[Hb ->]]; [apply (IH w1 y Hld1 Hy); lia|].
      eapply aligned_round; try done; [lia|by rewrite Hlog]. }
    exists w2. split_and!; [by etrans|done|by etrans|done].
Qed.

Definition holders r l (R : list Z) : Prop :=
  ∀ s, s ∈ R → ∃ m, go_index (matchIndex r) s = Some m ∧ lastIdx l <= m.

Lemma replicate_all c T l R : c ∈ Q → (∀ s, s ∈ R → s ∈ Q ∧ s ≠ c) → ∀ w, leading w c T l →
  ∃ w', rtc lstep w w' ∧ leading w' c T l ∧ holders (rf (peers w' c)) l R
    ∧ (R ≠ [] → lastTerm l = T →
       needed n <= Z.of_nat (length (filter (Z.le (lastIdx l)) (matchIndex (rf (peers w' c))))) →
       lastIdx l <= commitIndex (rf (peers w' c))).
Proof.
  intros Hc. induction R as [|s R IH]; intros HR w Hld.
  { exists w. split_and!; [done|done|by intros s ?%elem_of_nil|done]. }
  destruct (IH ltac:(intros; apply HR; by right) w Hld) as (w1 & Hrun & Hld1 & Hh & _).
  destruct (HR s ltac:(by left)) as [Hs Hne]. pose proof Hld1 as [Hw1 _ _].
  destruct (reachable_node w1 c Hw1 (proj1 (range c Hc))) as (Hwf & _ & Hnp). pose proof (nw_next _ Hwf). destruct (range s Hs) as [Hsr _].
  destruct (go_index_lt (nextIndex (rf (peers w1 c))) s) as [x Hx]; [lia|].
  destruct (replicate c T l s Hc Hs Hne (Z.to_nat (x - firstIdx l)) w1 x Hld1 Hx) as (w2 & Hrun2 & Hld2 & [Hadv _] & [Hm Hq]); [lia|].
  exists w2. split_and!; [by etrans|done| |done]. intros s' [->|Hs']%elem_of_cons; [done|].
  destruct (Hh s' Hs') as (m & Hj & Hle). destruct (Hadv _ _ Hj) as (m' & ? & ?). exists m'. split; [done|lia].
Qed.

Lemma holders_count r l R : NoDup R → holders r l R →
  (length R <= length (filter (Z.le (lastIdx l)) (matchIndex r)))%nat.
Proof.
  intros HR Hh. rewrite <- (index_count (matchIndex r) (lastIdx l) 0). rewrite <- (length_fmap Z.to_nat R).
  apply submseteq_length, NoDup_submseteq.
  - apply NoDup_fmap_2_strong; [|done]. intros x y Hx Hy Heq.
    destruct (Hh x Hx) as (mx & [? _]%go_index_lookup & _). destruct (Hh y Hy) as (my & [? _]%go_index_lookup & _). lia.
  - intros k (s & -> & Hs)%list_elem_of_fmap. destruct (Hh s Hs) as (m & [Hpos Hm]%go_index_lookup & Hle).
    apply list_elem_of_filter. rewrite Nat.sub_0_r, Hm. split; [done|]. apply elem_of_seq.
    apply lookup_lt_Some in Hm. lia.
Qed.

Lemma start_command w c T l cmd : leading w c T l → c ∈ Q →
  ∃ w', lstep w w' ∧ leading w' c T (l ++ [MkLogEntry cmd (lastIdx l + 1) T]).
Proof.
  intros [Hw (Hr & HT & Hl & Hd) Hterms] Hc. destruct (range c Hc) as [Hi Hin].
  destruct (reachable_node w c Hw Hi) as (Hwf & Hme & Hnp).
  destruct (Start_spec _ cmd Hwf) as [[? _]|(r' & _ & H & _ & [] & _ & _ & Hlog)]; [done|].
  eexists. assert (∀ w', exec n (AStart c cmd) w = Some w' → lstep w w') as Hst by (intros w' Hx; by exists (AStart c cmd)).
  assert (exec n (AStart c cmd) w = Some (update w c (set_rf (peers w c) r')
    (spawn c (epoch (peers w c)) (length (votes (peers w c))) (appendsL (rf (peers w c))) ++ tasks w))) as Hx.
  { cbn [exec]. rewrite Hin. cbn [negb]. by rewrite H. }
  split; [by apply Hst|]. split; [by eapply lstep_dreachable, Hst|..].
  - rewrite peers_update, decide_True by done. cbn [rf set_rf]. split_and!; [congruence|congruence|by rewrite Hlog, Hl, HT|].
    unfold Start, role_eqb in H. rewrite bool_decide_true in H by done.
    destruct (lastLogL _); cbn [mbind option_bind] in H; [|done]. by injection H as <- _.
  - intros i Hi'. rewrite peers_update. case_decide as Hci; [subst i; cbn; lia|by apply Hterms].
Qed.
End avail.

(** ** The theorem *)

Section theorems.
Context {C : Type} `{!GobCodec (PState C), !GobLaws (PState C)}.
Context (n : Z).
Implicit Types (w : Cluster C).

(** C4: availability.  From every state that a cluster of three or more peers can
    reach (in runs with snapshots of delivered entries only), whatever has
    crashed or got lost, whoever leads, and however the logs differ, the peers
    of a majority, if they live, can commit a command: their clocks and the
    messages among them lead to a state in which one of them leads, has the command at
    the end of the log that it had, and has committed it.  The other peers do
    nothing and nobody crashes. *)
Theorem raft_available Q w cmd :
  3 <= n → dreachable n w → majority n Q → (∀ i, i ∈ Q → dead (rf (peers w i)) = false) →
  ∃ w' c T, rtc (lstep n Q) w w' ∧ c ∈ Q
    ∧ let l := log (rf (peers w c)) in let r' := rf (peers w' c) in
      role r' = Leader ∧ currentTerm r' = T ∧ log r' = l ++ [MkLogEntry cmd (lastIdx l + 1) T]
      ∧ lastIdx l + 1 <= commitIndex r'.
Proof.
  intros Hn Hw HQ Hd. destruct (elect n Q ltac:(lia) HQ (dreachable n) (lstep_dreachable n Q) (dreachable_cluster n) w Hw Hd) as (w1 & c & T & Hrun & Hc & Hld).
  set (l := log (rf (peers w c))) in *. destruct (start_command n Q Hn HQ w1 c T l cmd Hld Hc) as (w2 & Hst & Hld2).
  set (l2 := l ++ [MkLogEntry cmd (lastIdx l + 1) T]) in *. pose proof HQ as (Hnd & Hmaj & _).
  assert (lastIdx l2 = lastIdx l + 1 ∧ lastTerm l2 = T) as [Hli Hlt] by (unfold l2, lastIdx, lastTerm; by rewrite last_snoc).
  set (R := filter (λ i, i ≠ c) Q).
  pose proof (length_filter_others Q c Hnd Hc) as Hlen. fold R in Hlen.
  destruct (replicate_all n Q Hn HQ c T l2 R Hc ltac:(intros s [? ?]%list_elem_of_filter; done) w2 Hld2)
    as (w3 & Hrun3 & [_ (Hr & HT & Hl & _) _] & Hh & Hcm).
  exists w3, c, T. cbv zeta. split_and!; [|done|done|done|done|].
  - etrans; [exact Hrun|]. by eapply rtc_l.
  - fold l. rewrite <- Hli. apply Hcm; [intros Hnil; rewrite Hnil in Hlen; cbn in Hlen; lia|done|].
    pose proof (holders_count n Q Hn HQ _ l2 R (NoDup_filter _ _ Hnd) Hh). unfold needed.
    rewrite Z.quot_div_nonneg by lia.
    pose proof (Z.div_mod n 2 ltac:(lia)). pose proof (Z.mod_pos_bound n 2 ltac:(lia)). lia.
Qed.
End theorems.

(** ** Three peers, one of them dead *)

(** Peer 0 leads and has committed a command; then peer 2 is killed, or peer 0. *)
Definition without (i : Z) : Cluster Z := after (replicate7 ++ [AKill i]).

Lemma others_majority : majority 3 [0; 1] ∧ majority 3 [1; 2].
Proof. split; (split; [by apply (bool_decide_eq_true _)|split; [done|set_unfold; lia]]). Qed.


Lemma raft_available_witness :
  ∃ w' c T, rtc (lstep 3 [0; 1]) (without 2) w' ∧ c ∈ [0; 1]
    ∧ let l := log (rf (peers (without 2) c)) in let r' := rf (peers w' c) in
      role r' = Leader ∧ currentTerm r' = T ∧ log r' = l ++ [MkLogEntry (Some 8) (lastIdx l + 1) T]
      ∧ lastIdx l + 1 <= commitIndex r'.
Proof.
  apply raft_available; [done|by apply after_dreachable; vm_compute|apply others_majority|].
  intros i Hi. apply elem_of_cons in Hi as [->|Hi]; [by vm_compute|]. apply list_elem_of_singleton in Hi as ->. by vm_compute.
Defined.
