(* ===== verification/RaftMessages.v ===== *)
(** * Messages of Raft (raft/raft.go, raft/rpc.go)

    The strings of entries and of RPC arguments and replies, and the method
    through which a peer logs.  [logL] slices the name of the peer, so it panics
    for some names; it never does for the names that the services give. *)

From S2P Require Import Prelude GoStrings Util Logging Labgob RaftState.
From Stdlib Require Import Ascii.

Section messages.
Context {C : Type} `{!GobCodec (PState C)}.
Implicit Types (rf : Raft C).

(** ** Strings *)

Definition LogEntry_String (l : LogEntry C) : string := "i" +:+ Itoa (Index l) +:+ "/T" +:+ pad0 2 (Term l).

Definition RequestVoteArgs_String (r : RequestVoteArgs) : string :=
  "lastLog i" +:+ Itoa (rv_LastLogIndex r) +:+ "/T" +:+ pad0 2 (rv_LastLogTerm r) +:+ " in term " +:+ Itoa (rv_Term r).

Definition RequestVoteReply_String (r : RequestVoteReply) : string :=
  show_bool (rvr_VoteGranted r) +:+ "/T" +:+ pad0 2 (rvr_Term r).

(** [None] would be a panic of the indexing. *)
Definition AppendEntriesArgs_String (a : AppendEntriesArgs C) : option string :=
  entries ← (if negb (go_len (ae_Entries a) =? 0)
             then first ← go_index (ae_Entries a) 0;
                  last ← go_index (ae_Entries a) (go_len (ae_Entries a) - 1);
                  Some (Itoa (Index first) +:+ "~" +:+ Itoa (Index last))
             else Some "");
  Some ("prevLog: i" +:+ Itoa (ae_PrevLogIndex a) +:+ "/T" +:+ pad0 2 (ae_PrevLogTerm a) +:+ ", term: " +:+ Itoa (ae_Term a)
        +:+ ", leaderCommit: " +:+ Itoa (ae_LeaderCommit a) +:+ ", entries: " +:+ entries).

Definition AppendEntriesReply_String (a : AppendEntriesReply) : string :=
  show_bool (aer_Success a) +:+ "/T" +:+ pad0 2 (aer_Term a).

Definition InstallSnapshotArgs_String (i : InstallSnapshotArgs) : string :=
  "snapshot: i" +:+ Itoa (LastIncludedIndex (is_Snapshot i)) +:+ "/T" +:+ pad0 2 (LastIncludedTerm (is_Snapshot i))
  +:+ ", term: " +:+ Itoa (is_Term i).

Definition InstallSnapshotReply_String (i : InstallSnapshotReply) : string := "T" +:+ pad0 2 (isr_Term i).

(** ** The log method

    [name] is the field of the peer, empty for a peer made by [Make]. *)

Context {A : Type} (s : LogState).
Notation output := (list (string * list A)).

Definition logL (out : output) (time : Z) (name : string) rf (verbosity : Z) (topic : LogTopic) (format : string) (a : list A)
    : option output :=
  let format := name +:+ ": " +:+ format in
  let peerId := me rf in
  if negb (String.length name =? 0)%nat then
    kind ← go_substring name 0 3;
    peerId ← (if String.eqb kind "GID"
              then ds ← go_substring name 3 6; Some (peerId + Z.rem (default 0 (Atoi ds)) 3 * 3)
              else Some peerId);
    kind ← go_substring name 0 3;
    if String.eqb kind "CTR" then Some out
    else Some (LogRaft s out time verbosity topic peerId (currentTerm rf) format a)
  else Some (LogRaft s out time verbosity topic peerId (currentTerm rf) format a).

(** [lock] logs on its own, since the term is read under the lock. *)
Definition lock (string_arg : string → A) (out : output) (time : Z) rf (mu : bool) (method : string) : output * option bool :=
  (LogRaft s out time VExcessive TTrace (me rf) NA "acquire lock %v" [string_arg method], Lock mu).

Definition unlock (string_arg : string → A) (out : output) (time : Z) (name : string) rf (mu : bool) (method : string)
    : option (output * option bool) :=
  out ← logL out time name rf VExcessive TTrace "release lock %v" [string_arg method];
  Some (out, Unlock mu).

(** [MakeName]: [Make] with a name for the messages. *)
Definition MakeName (env : Env) (n i : Z) (ps : Persister) (name : string) (out : output) (time : Z) : option (Raft C * output) :=
  rf ← initL env n i ps;
  out ← logL out time name rf VCrucial TTrace "start peer (Make)" [];
  Some (rf, out).

(** ** Strings of entries *)

Lemma pad0_no_slash w x : 0 <= x → has_char "/"%char (pad0 w x) = false.
Proof. intros. by apply digits_no_char, pad0_digits. Qed.

(** The string of an entry tells its index and its term. *)
Lemma LogEntry_String_inj (l l' : LogEntry C) :
  0 <= Index l → 0 <= Index l' → 0 <= Term l → 0 <= Term l' →
  LogEntry_String l = LogEntry_String l' → Index l = Index l' ∧ Term l = Term l'.
Proof.
  intros Hi Hi' Ht Ht' E. unfold LogEntry_String in E. rewrite !append_cons, !append_nil in E. injection E as E.
  apply first_char_unique in E as [E1 E2]; [|by apply digits_no_slash, Itoa_digits..].
  injection E2 as E2. split; [by apply Itoa_inj|by apply pad0_inj in E2].
Qed.

(** The indices that the string takes from the entries exist. *)
Lemma AppendEntriesArgs_String_returns (a : AppendEntriesArgs C) : is_Some (AppendEntriesArgs_String a).
Proof.
  unfold AppendEntriesArgs_String. destruct (Z.eqb_spec (go_len (ae_Entries a)) 0) as [E|E]; cbn [negb]; [by eexists|].
  assert (0 <= go_len (ae_Entries a)) by (unfold go_len; lia).
  destruct (go_index_lt (ae_Entries a) 0) as [x ->]; [lia|].
  destruct (go_index_lt (ae_Entries a) (go_len (ae_Entries a) - 1)) as [y ->]; [lia|]. by eexists.
Qed.

(** ** Names *)

(** [logL] panics exactly for names of one or two characters, and for names of
    less than six that start with GID. *)
Lemma logL_panics out time name rf v topic format (a : list A) :
  logL out time name rf v topic format a = None ↔
    (0 < String.length name < 3)%nat ∨ ((String.length name < 6)%nat ∧ go_substring name 0 3 = Some "GID").
Proof.
  unfold logL. destruct (Nat.eqb_spec (String.length name) 0) as [E|E]; cbn [negb].
  { split; [done|]. intros [?|[_ Hg]]; [lia|]. assert (go_substring name 0 3 = None) as Hn by (apply go_substring_None; lia). congruence. }
  destruct (go_substring name 0 3) as [kind|] eqn:Hk; cbn [mbind option_bind].
  2:{ split; [|done]. intros _. left. apply go_substring_None in Hk; lia. }
  assert (¬ (String.length name < 3)%nat) as Hl by (intros Hl; apply (go_substring_None name 0 3) in Hl; [congruence|lia]).
  destruct (String.eqb_spec kind "GID") as [->|Hg].
  - destruct (go_substring name 3 6) as [ds|] eqn:Hd; cbn [mbind option_bind].
    + assert (¬ (String.length name < 6)%nat) as Hl6 by (intros Hl6; apply (go_substring_None name 3 6) in Hl6; [congruence|lia]).
      split; [done|lia].
    + split; [|done]. intros _. right. split; [|done]. apply go_substring_None in Hd; lia.
  - cbn [mbind option_bind]. split; [by destruct (String.eqb kind "CTR")|]. intros [?|[_ Hc]]; [lia|congruence].
Qed.

(** A peer of the key/value server logs under its own number, one of the
    controller not at all. *)
Lemma logL_no_name out time rf v topic format (a : list A) :
  logL out time "" rf v topic format a = Some (LogRaft s out time v topic (me rf) (currentTerm rf) (": " +:+ format) a).
Proof. reflexivity. Qed.

Lemma logL_ctrler out time i rf v topic format (a : list A) :
  logL out time ("CTRLR" +:+ Itoa i) rf v topic format a = Some out.
Proof.
  unfold logL, go_substring. rewrite string_length_app. cbn [String.length Nat.add Nat.eqb negb Nat.leb andb Nat.sub].
  rewrite !append_cons. cbn [String.substring mbind option_bind]. reflexivity.
Qed.
End messages.
