(* ===== verification/OpServer.v ===== *)
(** * A replicated server: RPC handlers, result channels and the applier

    kvraft/server.go and shardctrler/server.go share their concurrency skeleton
    ([processOpL], [waitApplyL] and [receiveApplyMsg]): an RPC handler hands its
    operation to Raft and waits on a channel for the index that Raft assigned;
    one applier goroutine applies the committed operations and sends each
    result to the channel of its index, if there is one.  This file models the
    skeleton once, over an interface [StateMachine] that both servers implement.

    A step is one critical section of one goroutine, a send on a channel or a
    timeout.  Channels are unbuffered, as in the code. *)

From S2P Require Import Prelude Util Labgob.

(** What the skeleton uses of a server: the comparison of operations, the
    operation cached for the client, applying a committed operation ([None] is a
    panic), taking a snapshot given the size of the Raft state, and loading
    one. *)
Class StateMachine (S Op V : Type) := {
  sm_same : Op → Op → bool;
  sm_cached : S → Op → option V;
  sm_apply : S → Op → option (S * (Err * V));
  sm_snapshot : S → Z → option bytes;
  sm_restore : S → bytes → option S;
  sm_novalue : V;
}.

(** The cache holds operations that were applied. *)
Class StateMachineLaws (S Op V : Type) `{!StateMachine S Op V} := {
  sm_cached_apply s op s' r o v :
    sm_apply s op = Some (s', r) → sm_cached s' o = Some v →
    (∃ v', sm_cached s o = Some v') ∨ sm_same o op = true;
}.

(** The handler of one RPC: in the [select] of [waitApplyL], or past it with the
    result it received ([None] is the timeout). *)
Inductive Handler (Op V : Type) :=
  | HWaiting (op : Op) (index : Z) (ch : nat)
  | HReady (op : Op) (index : Z) (result : option (Err * V * Op)).
Arguments HWaiting {Op V} _ _ _.
Arguments HReady {Op V} _ _ _.

(** The applier: waiting for a message of Raft, or in [ch <- result]. *)
Inductive Applier (Op V : Type) :=
  | AIdle
  | ASending (ch : nat) (index size : Z) (result : Err * V * Op).
Arguments AIdle {Op V}.
Arguments ASending {Op V} _ _ _ _.

(** What a step tells the outside: the reply to an RPC, or a snapshot given to
    Raft. *)
Inductive Event (Op V : Type) :=
  | EReply (op : Op) (err : Err) (value : V)
  | ESnapshot (index : Z) (data : bytes).
Arguments EReply {Op V} _ _ _.
Arguments ESnapshot {Op V} _ _.

Inductive SAction (Op : Type) :=
  (** an RPC arrives; [index] and [leader] are what [rf.Start] returns *)
  | SRpc (op : Op) (index : Z) (leader : bool)
  (** Raft delivers a command, with [persister.RaftStateSize()] *)
  | SCommand (op : Op) (index size : Z)
  (** Raft delivers a snapshot *)
  | SSnapshot (data : bytes)
  (** handler [k] receives from its channel, times out, or goes on *)
  | SReceive (k : nat)
  | STimeout (k : nat)
  | SFinish (k : nat).
Arguments SRpc {Op} _ _ _.
Arguments SCommand {Op} _ _ _.
Arguments SSnapshot {Op} _.
Arguments SReceive {Op} _.
Arguments STimeout {Op} _.
Arguments SFinish {Op} _.

Record Server (S Op V : Type) := MkServer {
  state : S;
  resultChans : gmap Z nat;
  nextChan : nat;
  handlers : list (Handler Op V);
  applier : Applier Op V;
  (** the operations applied so far, for the proofs only *)
  applied : list (Z * Op);
}.
Arguments MkServer {S Op V} _ _ _ _ _ _.
Arguments state {S Op V} _.
Arguments resultChans {S Op V} _.
Arguments nextChan {S Op V} _.
Arguments handlers {S Op V} _.
Arguments applier {S Op V} _.
Arguments applied {S Op V} _.

Section server.
Context {S Op V : Type} `{!StateMachine S Op V}.
Implicit Types (kv : Server S Op V).

Definition set_handlers kv (hs : list (Handler Op V)) : Server S Op V :=
  MkServer (state kv) (resultChans kv) (nextChan kv) hs (applier kv) (applied kv).
Definition set_applier kv (a : Applier Op V) : Server S Op V :=
  MkServer (state kv) (resultChans kv) (nextChan kv) (handlers kv) a (applied kv).
Definition set_chans kv (cs : gmap Z nat) (next : nat) : Server S Op V :=
  MkServer (state kv) cs next (handlers kv) (applier kv) (applied kv).

(** [waitApplyL] up to its [select]: the channel of the index is created unless
    it exists. *)
Definition waitApplyL_begin kv (commandIndex : Z) (op : Op) : Server S Op V :=
  let kv := match resultChans kv !! commandIndex with
            | Some _ => kv
            | None => set_chans kv (<[commandIndex := nextChan kv]> (resultChans kv)) (nextChan kv + 1)
            end in
  let ch := default 0%nat (resultChans kv !! commandIndex) in
  set_handlers kv (HWaiting op commandIndex ch :: handlers kv).

(** [processOpL] up to the wait, with the reply if it does not wait. *)
Definition processOpL kv (op : Op) (commandIndex : Z) (isLeader : bool)
    : Server S Op V * list (Event Op V) :=
  match sm_cached (state kv) op with
  | Some v => (kv, [EReply op OK v])
  | None =>
    if negb isLeader then (kv, [EReply op ErrWrongLeader sm_novalue])
    else (waitApplyL_begin kv commandIndex op, [])
  end.

(** [waitApplyL] after its [select], and the rest of [processOpL]. *)
Definition waitApplyL_end kv (commandIndex : Z) (op : Op) (result : option (Err * V * Op))
    : Server S Op V * list (Event Op V) :=
  let kv := set_chans kv (delete commandIndex (resultChans kv)) (nextChan kv) in
  match result with
  | None => (kv, [EReply op ErrTimeout sm_novalue])
  | Some (err, v, op') =>
    let err := if bool_decide (err = OK) && negb (sm_same op op') then ErrNotApplied else err in
    (kv, [EReply op err v])
  end.

(** The end of an iteration of [receiveApplyMsg] for a command. *)
Definition finish_command kv (index size : Z) : Server S Op V * list (Event Op V) :=
  (set_applier kv AIdle,
   match sm_snapshot (state kv) size with Some data => [ESnapshot index data] | None => [] end).

(** [receiveApplyMsg] for a command, up to [ch <- result]. *)
Definition receiveCommand kv (op : Op) (index size : Z) : option (Server S Op V * list (Event Op V)) :=
  '(s, (err, v)) ← sm_apply (state kv) op;
  let kv := MkServer s (resultChans kv) (nextChan kv) (handlers kv) (applier kv)
              (applied kv ++ [(index, op)]) in
  match resultChans kv !! index with
  | Some ch => Some (set_applier kv (ASending ch index size (err, v, op)), [])
  | None => Some (finish_command kv index size)
  end.

Definition sexec (act : SAction Op) kv : option (Server S Op V * list (Event Op V)) :=
  match act with
  | SRpc op index leader => Some (processOpL kv op index leader)
  | SCommand op index size =>
    match applier kv with AIdle => receiveCommand kv op index size | ASending _ _ _ _ => None end
  | SSnapshot data =>
    match applier kv with
    | AIdle =>
      s ← sm_restore (state kv) data;
      Some (MkServer s (resultChans kv) (nextChan kv) (handlers kv) AIdle (applied kv), [])
    | ASending _ _ _ _ => None
    end
  | SReceive k =>
    match handlers kv !! k, applier kv with
    | Some (HWaiting op index ch), ASending ch' cindex size result =>
      if bool_decide (ch = ch') then
        let kv := set_handlers kv (<[k := HReady op index (Some result)]> (handlers kv)) in
        Some (finish_command kv cindex size)
      else None
    | _, _ => None
    end
  | STimeout k =>
    match handlers kv !! k with
    | Some (HWaiting op index ch) =>
      Some (set_handlers kv (<[k := HReady op index None]> (handlers kv)), [])
    | _ => None
    end
  | SFinish k =>
    match handlers kv !! k with
    | Some (HReady op index result) =>
      Some (waitApplyL_end (set_handlers kv (delete k (handlers kv))) index op result)
    | _ => None
    end
  end.

Definition start_server (s : S) : Server S Op V := MkServer s ∅ 0 [] AIdle [].

(** Runs, with the events they produce. *)
Fixpoint sexecs (acts : list (SAction Op)) kv : option (Server S Op V * list (Event Op V)) :=
  match acts with
  | [] => Some (kv, [])
  | act :: acts =>
    '(kv, es) ← sexec act kv;
    '(kv, es') ← sexecs acts kv;
    Some (kv, es ++ es')
  end.

Inductive sreach (s : S) : Server S Op V → list (Event Op V) → Prop :=
  | sreach_start : sreach s (start_server s) []
  | sreach_step kv es act kv' es' :
      sreach s kv es → sexec act kv = Some (kv', es') → sreach s kv' (es ++ es').

Lemma sexecs_reach s acts kv es kv' es' :
  sreach s kv es → sexecs acts kv = Some (kv', es') → sreach s kv' (es ++ es').
Proof.
  revert kv es es'. induction acts as [|act acts IH]; intros kv es es' Hr H; cbn in H.
  - injection H as <- <-. by rewrite app_nil_r.
  - destruct (sexec act kv) as [[kv1 es1]|] eqn:E1; cbn in H; [|done].
    destruct (sexecs acts kv1) as [[kv2 es2]|] eqn:E2; cbn in H; [|done].
    injection H as <- <-. rewrite (assoc_L (++)). eapply IH; [|done]. by eapply sreach_step.
Qed.

(** ** Invariant: channels and results *)

(** Every channel belongs to one index, and a result that is on its way satisfies
    what [R] promises of results at the index the handler waits for. *)
Record server_inv (R : Z → Err * V * Op → Prop) kv (owner : gmap nat Z) : Prop := {
  si_chan i ch : resultChans kv !! i = Some ch → owner !! ch = Some i;
  si_fresh ch : is_Some (owner !! ch) → (ch < nextChan kv)%nat;
  si_handler h : h ∈ handlers kv →
    match h with
    | HWaiting _ i ch => owner !! ch = Some i
    | HReady _ i (Some r) => R i r
    | HReady _ _ None => True
    end;
  si_applier : match applier kv with
    | AIdle => True
    | ASending ch i _ r => owner !! ch = Some i ∧ R i r
    end;
}.

Lemma server_inv_mono (R R' : Z → Err * V * Op → Prop) kv owner :
  (∀ i r, R i r → R' i r) → server_inv R kv owner → server_inv R' kv owner.
Proof.
  intros HR [H1 H2 H3 H4]. split; try done.
  - intros h Hh. specialize (H3 h Hh). destruct h as [|? ? [r|]]; auto.
  - destruct (applier kv); [done|]. destruct H4; auto.
Qed.

Lemma start_server_inv R s : server_inv R (start_server s) ∅.
Proof.
  split; cbn; try done.
  - intros ch [i Hi]. by rewrite lookup_empty in Hi.
  - by intros h ?%elem_of_nil.
Qed.

Section results.
Context (R : Z → Err * V * Op → Prop).

Lemma finish_command_inv kv owner index size kv' es :
  server_inv R kv owner → finish_command kv index size = (kv', es) → server_inv R kv' owner.
Proof. intros [H1 H2 H3 H4] H. injection H as <- _. by split. Qed.

Lemma wait_inv kv owner index op :
  server_inv R kv owner → ∃ owner', server_inv R (waitApplyL_begin kv index op) owner'.
Proof.
  intros [H1 H2 H3 H4]. unfold waitApplyL_begin. destruct (resultChans kv !! index) as [ch|] eqn:E.
  - exists owner. rewrite E. split; try done. intros h [->|Hh]%elem_of_cons; [by apply H1|by apply H3].
  - assert (owner !! nextChan kv = None) as Hf.
    { destruct (owner !! nextChan kv) eqn:Ef; [|done]. specialize (H2 (nextChan kv) ltac:(eauto)). lia. }
    assert (∀ ch i, owner !! ch = Some i → <[nextChan kv := index]> owner !! ch = Some i) as Hw.
    { intros ch i Hch. rewrite lookup_insert_ne; [done|congruence]. }
    exists (<[nextChan kv := index]> owner). cbn. rewrite lookup_insert_eq. split; cbn.
    + intros i ch. rewrite lookup_insert_Some. intros [[<- <-]|[_ Hi]]; [by rewrite lookup_insert_eq|auto].
    + intros ch [i Hi]. apply lookup_insert_Some in Hi as [[<- _]|[_ Hi]]; [lia|].
      specialize (H2 ch ltac:(eauto)). lia.
    + intros h [->|Hh]%elem_of_cons; [by rewrite lookup_insert_eq|]. specialize (H3 h Hh).
      destruct h; [auto|done].
    + destruct (applier kv) as [|ch i sz r]; [done|]. destruct H4; split; auto.
Qed.

(** [R] holds of the result of the command that the server applies. *)
Definition result_of (kv : Server S Op V) (act : SAction Op) : Prop :=
  match act with
  | SCommand op index _ => ∀ s r, sm_apply (state kv) op = Some (s, r) → R index (r, op)
  | _ => True
  end.

Lemma sexec_inv act kv owner kv' es :
  server_inv R kv owner → result_of kv act → sexec act kv = Some (kv', es) → ∃ owner', server_inv R kv' owner'.
Proof.
  intros Hi Hres H. destruct act as [op index leader|op index size|data|k|k|k]; cbn in H.
  - injection H as H. unfold processOpL in H. destruct (sm_cached _ _); [injection H as <- _; eauto|].
    destruct (negb leader); injection H as <- _; [eauto|by eapply wait_inv].
  - destruct Hi as [H1 H2 H3 H4]. destruct (applier kv); [|done]. unfold receiveCommand in H. cbn in Hres.
    destruct (sm_apply _ _) as [[s [err v]]|]; cbn in H; [|done]. exists owner.
    destruct (resultChans kv !! index) as [ch|] eqn:E; injection H as <- _; split; cbn; try done.
    split; [by apply H1|]. by eapply Hres.
  - destruct (applier kv); [|done]. destruct (sm_restore _ _); cbn in H; [|done]. injection H as <- _.
    exists owner. by destruct Hi; split.
  - destruct (handlers kv !! k) as [[op i ch|]|] eqn:Ek; [|done..].
    destruct (applier kv) as [|ch' i' size r] eqn:Ea; [done|].
    case_bool_decide; [subst ch'|done]. injection H as <- _. exists owner.
    destruct Hi as [H1 H2 H3 H4]. rewrite Ea in H4. destruct H4 as [Ho Hr]. split; cbn; try done.
    intros h [->|Hh]%elem_of_insert; [|by apply H3].
    pose proof (H3 _ (list_elem_of_lookup_2 _ _ _ Ek)) as Hw. cbn in Hw. rewrite Ho in Hw. by injection Hw as ->.
  - destruct (handlers kv !! k) as [[op i ch|]|] eqn:Ek; [|done..]. injection H as <- _. exists owner.
    destruct Hi as [H1 H2 H3 H4]. split; cbn; try done. intros h [->|Hh]%elem_of_insert; [done|by apply H3].
  - destruct (handlers kv !! k) as [[|op i r]|] eqn:Ek; [done| |done]. injection H as H. exists owner.
    destruct Hi as [H1 H2 H3 H4]. unfold waitApplyL_end in H. destruct r as [[[err v] op']|]; injection H as <- _;
      (split; cbn; [|done| |done]; [intros j c [_ ?]%lookup_delete_Some; auto
        |intros h Hh%elem_of_delete; by apply H3]).
Qed.

Lemma snapshot_no_reply (o : option bytes) (index : Z) (op : Op) e (v : V) :
  EReply op e v ∉ match o with Some data => [ESnapshot index data] | None => [] end.
Proof. destruct o; [by rewrite list_elem_of_singleton|apply not_elem_of_nil]. Qed.

(** A reply [OK] is a cached result or a result for the operation itself. *)
Lemma sexec_reply act kv owner kv' es op v :
  server_inv R kv owner → sexec act kv = Some (kv', es) → EReply op OK v ∈ es →
  sm_cached (state kv) op = Some v ∨ ∃ i op', R i (OK, v, op') ∧ sm_same op op' = true.
Proof.
  intros Hi H Hin. destruct act as [op0 index leader|op0 index size|data|k|k|k]; cbn in H.
  - injection H as H. unfold processOpL in H. destruct (sm_cached (state kv) op0) as [v0|] eqn:Ev.
    { injection H as _ <-. apply list_elem_of_singleton in Hin. injection Hin as <- <-. by left. }
    destruct (negb leader); injection H as _ <-; [by apply list_elem_of_singleton in Hin|by apply elem_of_nil in Hin].
  - destruct (applier kv); [|done]. unfold receiveCommand in H.
    destruct (sm_apply _ _) as [[s [err v']]|]; cbn in H; [|done].
    destruct (resultChans kv !! index); injection H as _ <-; [by apply elem_of_nil in Hin|by apply snapshot_no_reply in Hin].
  - destruct (applier kv); [|done]. destruct (sm_restore _ _); cbn in H; [|done]. injection H as _ <-.
    by apply elem_of_nil in Hin.
  - destruct (handlers kv !! k) as [[]|]; [|done..]. destruct (applier kv); [done|]. case_bool_decide; [|done].
    injection H as _ <-. by apply snapshot_no_reply in Hin.
  - destruct (handlers kv !! k) as [[]|]; [|done..]. injection H as _ <-. by apply elem_of_nil in Hin.
  - destruct (handlers kv !! k) as [[|op0 i r]|] eqn:Ek; [done| |done]. injection H as H.
    pose proof (si_handler _ _ _ Hi _ (list_elem_of_lookup_2 _ _ _ Ek)) as Hr. cbn in Hr.
    unfold waitApplyL_end in H. destruct r as [[[err v0] op']|]; injection H as _ <-;
      apply list_elem_of_singleton in Hin; [|done]. injection Hin as <- Herr <-.
    destruct (bool_decide (err = OK)) eqn:Ee, (sm_same op op') eqn:Es; cbn in Herr; bools; try done.
    subst err. right. by exists i, op'.
Qed.
End results.

(** What is left of a step for the one who does not look at the channels: the
    state, the operation being answered, and the snapshot that is taken. *)
Lemma sexec_frame act kv kv' es :
  sexec act kv = Some (kv', es) →
  match act with
  | SCommand op index size => applier kv = AIdle ∧ ∃ r, sm_apply (state kv) op = Some (state kv', r)
      ∧ (applier kv' = AIdle ∨ ∃ ch r, applier kv' = ASending ch index size r)
  | SSnapshot data => applier kv = AIdle ∧ applier kv' = AIdle ∧ sm_restore (state kv) data = Some (state kv')
  | _ => state kv' = state kv ∧ (applier kv' = applier kv ∨ applier kv' = AIdle)
  end
  ∧ ∀ index data, ESnapshot index data ∈ es →
      (∃ size, sm_snapshot (state kv') size = Some data)
      ∧ match act with
        | SCommand _ index' _ => index = index'
        | SReceive _ => ∃ ch size r, applier kv = ASending ch index size r
        | _ => False
        end.
Proof.
  assert (∀ (s : S) index size i data, ESnapshot i data ∈ match sm_snapshot s size with
    Some d => [ESnapshot index d] | None => @nil (Event Op V) end → i = index ∧ sm_snapshot s size = Some data) as Hsnap.
  { intros s index size i data Hin. destruct (sm_snapshot s size); [|by apply elem_of_nil in Hin].
    apply list_elem_of_singleton in Hin. by injection Hin as -> ->. }
  intros H. destruct act as [op index leader|op index size|data|k|k|k]; cbn in H.
  - injection H as H. unfold processOpL, waitApplyL_begin in H. destruct (sm_cached _ _).
    { injection H as <- <-. split; [auto|]. by intros i d Hin%list_elem_of_singleton. }
    destruct (negb leader); injection H as <- <-.
    + split; [auto|]. by intros i d Hin%list_elem_of_singleton.
    + split; [destruct (resultChans kv !! index); cbn; auto|by intros i d Hin%elem_of_nil].
  - destruct (applier kv) eqn:Ea; [|done]. unfold receiveCommand in H.
    destruct (sm_apply _ _) as [[s [err v']]|] eqn:E; cbn in H; [|done].
    destruct (resultChans kv !! index); injection H as <- <-; cbn.
    + split; [|by intros i d Hin%elem_of_nil]. split; [done|]. eauto 10.
    + split; [split; [done|]; eauto|]. intros i d Hin. apply Hsnap in Hin as [-> Hs]. eauto.
  - destruct (applier kv); [|done]. destruct (sm_restore _ _) eqn:E; cbn in H; [|done]. injection H as <- <-.
    split; [done|by intros i d Hin%elem_of_nil].
  - destruct (handlers kv !! k) as [[]|]; [|done..]. destruct (applier kv) eqn:Ea; [done|]. case_bool_decide; [|done].
    injection H as <- <-. split; [auto|]. cbn. intros i d Hin. apply Hsnap in Hin as [-> Hs]. eauto 10.
  - destruct (handlers kv !! k) as [[]|]; [|done..]. injection H as <- <-. split; [auto|]. by intros i d Hin%elem_of_nil.
  - destruct (handlers kv !! k) as [[|op0 i r]|]; [done| |done]. injection H as H.
    unfold waitApplyL_end in H. destruct r as [[[err v0] op']|]; injection H as <- <-;
      (split; [auto|by intros ? d Hin%list_elem_of_singleton]).
Qed.

(** ** A reply [OK] means that the operation was applied *)

Definition is_snapshot (act : SAction Op) : bool :=
  match act with SSnapshot _ => true | _ => false end.

(** The same operation was applied on this server. *)
Definition was_applied kv (op : Op) : Prop := ∃ i op', (i, op') ∈ applied kv ∧ sm_same op op' = true.

Definition ok_events kv (es : list (Event Op V)) : Prop :=
  ∀ op v, EReply op OK v ∈ es → was_applied kv op.

Definition cache_ok kv : Prop := ∀ op v, sm_cached (state kv) op = Some v → was_applied kv op.

Lemma was_applied_mono kv kv' op : applied kv ⊆ applied kv' → was_applied kv op → was_applied kv' op.
Proof. intros Hs (i & op' & Hin & ?). exists i, op'. split; [by apply Hs|done]. Qed.

Lemma waitApplyL_begin_frame kv index op :
  state (waitApplyL_begin kv index op) = state kv ∧ applied (waitApplyL_begin kv index op) = applied kv
  ∧ applier (waitApplyL_begin kv index op) = applier kv.
Proof. unfold waitApplyL_begin. by destruct (resultChans kv !! index). Qed.

Lemma sexec_applied act kv kv' es : sexec act kv = Some (kv', es) →
  applied kv' = applied kv ++ match act with SCommand op index _ => [(index, op)] | _ => [] end.
Proof.
  intros H. destruct act as [op index leader|op index size|data|k|k|k]; cbn in H; rewrite ?app_nil_r.
  - injection H as H. unfold processOpL in H. destruct (sm_cached _ _); [by injection H as <- _|].
    destruct (negb leader); injection H as <- _; [done|]. by destruct (waitApplyL_begin_frame kv index op) as (_ & -> & _).
  - destruct (applier kv); [|done]. unfold receiveCommand in H.
    destruct (sm_apply _ _) as [[s [err v]]|]; cbn in H; [|done].
    by destruct (resultChans kv !! index); injection H as <- _.
  - destruct (applier kv); [|done]. destruct (sm_restore _ _); cbn in H; [|done]. by injection H as <- _.
  - destruct (handlers kv !! k) as [[]|]; [|done..]. destruct (applier kv); [done|]. case_bool_decide; [|done].
    by injection H as <- _.
  - destruct (handlers kv !! k) as [[]|]; [|done..]. by injection H as <- _.
  - destruct (handlers kv !! k) as [[|op i r]|]; [done| |done]. injection H as H.
    unfold waitApplyL_end in H. by destruct r as [[[err v] op']|]; injection H as <- _.
Qed.

(** A result that is on its way comes from an operation that was applied at the
    index the handler waits for. *)
Definition result_applied kv (index : Z) (r : Err * V * Op) : Prop := (index, r.2) ∈ applied kv.

Lemma sexec_ok `{!StateMachineLaws S Op V} act kv owner kv' es :
  is_snapshot act = false → server_inv (result_applied kv) kv owner → cache_ok kv → sexec act kv = Some (kv', es) →
  cache_ok kv' ∧ ok_events kv' es ∧ applied kv ⊆ applied kv'.
Proof.
  intros Hns Hi Hc H. pose proof (sexec_applied _ _ _ _ H) as Ha.
  assert (applied kv ⊆ applied kv') as Hsub by (rewrite Ha; intros x Hx; apply elem_of_app; by left).
  split_and!; [| |done].
  - intros op v Hv. destruct (sexec_frame _ _ _ _ H) as [Hf _].
    assert ((∃ v', sm_cached (state kv) op = Some v')
      ∨ ∃ i o, (i, o) ∈ applied kv' ∧ sm_same op o = true) as [[v' Hv']|?];
      [|eapply was_applied_mono; [exact Hsub|by eapply Hc]|done].
    destruct act as [| o i size| | | |]; try done; try (left; destruct Hf as [<- _]; by eexists).
    destruct Hf as (_ & r & Hap & _). destruct r as [err v0].
    destruct (sm_cached_apply _ _ _ _ _ _ Hap Hv) as [?|Hsame]; [by left|right].
    exists i, o. split; [|done]. rewrite Ha. apply elem_of_app. right. by left.
  - intros op v Hin. eapply was_applied_mono; [exact Hsub|].
    destruct (sexec_reply _ _ _ _ _ _ _ _ Hi H Hin) as [Hv|(i & op' & ? & ?)]; [by eapply Hc|by exists i, op'].
Qed.

Lemma sexec_applied_inv act kv owner kv' es :
  server_inv (result_applied kv) kv owner → sexec act kv = Some (kv', es) →
  ∃ owner', server_inv (result_applied kv') kv' owner'.
Proof.
  intros Hi H. pose proof (sexec_applied _ _ _ _ H) as Ha. eapply sexec_inv; [|  |exact H].
  - eapply server_inv_mono; [|exact Hi]. intros i r Hr. unfold result_applied. rewrite Ha. apply elem_of_app. by left.
  - destruct act; try done. intros s r _. unfold result_applied. rewrite Ha. apply elem_of_app. right. by left.
Qed.

Lemma sexecs_ok `{!StateMachineLaws S Op V} acts kv owner kv' es :
  forallb (negb ∘ is_snapshot) acts = true → server_inv (result_applied kv) kv owner → cache_ok kv →
  sexecs acts kv = Some (kv', es) → ok_events kv' es ∧ applied kv ⊆ applied kv'.
Proof.
  revert kv owner es. induction acts as [|act acts IH]; intros kv owner es Hns Hi Hc H; cbn in H.
  { injection H as <- <-. split; [by intros ? ? ?%elem_of_nil|done]. }
  cbn in Hns. apply andb_true_iff in Hns as [Hn Hns]. apply negb_true_iff in Hn.
  destruct (sexec act kv) as [[kv1 es1]|] eqn:E1; cbn in H; [|done].
  destruct (sexecs acts kv1) as [[kv2 es2]|] eqn:E2; cbn in H; [|done]. injection H as <- <-.
  destruct (sexec_ok _ _ _ _ _ Hn Hi Hc E1) as (Hc1 & Ho1 & Hs1).
  destruct (sexec_applied_inv _ _ _ _ _ Hi E1) as [owner1 Hi1].
  destruct (IH _ _ _ Hns Hi1 Hc1 E2) as [Ho2 Hs2]. split; [|by etrans].
  intros op v [Hin|Hin]%elem_of_app; [|by eapply Ho2]. eapply was_applied_mono; [done|by eapply Ho1].
Qed.

(** ** An applier that sends to nobody *)

(** No handler waits on the channel and no handler will. *)
Definition stuck kv (ch : nat) : Prop :=
  (∃ index size r, applier kv = ASending ch index size r)
  ∧ (∀ op i, HWaiting op i ch ∉ handlers kv)
  ∧ (∀ i, resultChans kv !! i ≠ Some ch) ∧ (ch < nextChan kv)%nat.

Lemma sexec_stuck kv ch act kv' es :
  stuck kv ch → sexec act kv = Some (kv', es) →
  stuck kv' ch ∧ applier kv' = applier kv ∧ state kv' = state kv ∧ applied kv' = applied kv.
Proof.
  intros ((index & size & r & Ha) & Hh & Hc & Hlt) H.
  assert (∀ (k : nat) h, (∀ op i, h ≠ HWaiting op i ch) → ∀ op i, HWaiting op i ch ∉ <[k := h]> (handlers kv)) as Hins.
  { intros k h Hne op i [Heq|?]%elem_of_insert; [by eapply Hne|by eapply Hh]. }
  destruct act as [op i leader|op i sz|data|k|k|k]; cbn in H; rewrite ?Ha in H; try done.
  - injection H as H. unfold processOpL in H.
    destruct (sm_cached _ _); [injection H as <- _; repeat split; eauto|].
    destruct (negb leader); injection H as <- _; [repeat split; eauto|].
    destruct (waitApplyL_begin_frame kv i op) as (-> & -> & ->). split; [|done].
    unfold waitApplyL_begin. destruct (resultChans kv !! i) as [c|] eqn:E.
    + rewrite E. split_and!; cbn; try done; [eauto|]. intros o j [Heq|?]%elem_of_cons; [|by eapply Hh].
      injection Heq as _ _ ->. by eapply Hc.
    + cbn. rewrite lookup_insert_eq. cbn. split_and!; cbn; [eauto| | |lia].
      * intros o j [Heq|?]%elem_of_cons; [|by eapply Hh]. injection Heq as _ _ ?. lia.
      * intros j Hj. apply lookup_insert_Some in Hj as [[_ ?]|[_ ?]]; [lia|by eapply Hc].
  - destruct (handlers kv !! k) as [[o i c|]|] eqn:Ek; [|done..].
    case_bool_decide; [subst c|done]. exfalso. eapply Hh. by eapply list_elem_of_lookup_2.
  - destruct (handlers kv !! k) as [[o i c|]|] eqn:Ek; [|done..]. injection H as <- _.
    repeat split; cbn; eauto.
  - destruct (handlers kv !! k) as [[|o i rs]|] eqn:Ek; [done| |done]. injection H as H.
    unfold waitApplyL_end in H. destruct rs as [[[err v] op']|]; injection H as <- _;
      (split_and!; try done; split_and!; cbn; [eauto|intros o' j Hj%elem_of_delete; by eapply Hh
        |intros j [_ Hj]%lookup_delete_Some; by eapply Hc|done]).
Qed.

Lemma sexecs_stuck kv ch acts kv' es :
  stuck kv ch → sexecs acts kv = Some (kv', es) →
  applier kv' = applier kv ∧ state kv' = state kv ∧ applied kv' = applied kv.
Proof.
  revert kv es. induction acts as [|act acts IH]; intros kv es Hs H; cbn in H; [by injection H as <- _|].
  destruct (sexec act kv) as [[kv1 es1]|] eqn:E1; cbn in H; [|done].
  destruct (sexecs acts kv1) as [[kv2 es2]|] eqn:E2; cbn in H; [|done]. injection H as <- _.
  destruct (sexec_stuck _ _ _ _ _ Hs E1) as (Hs1 & <- & <- & <-). by eapply IH.
Qed.
End server.
