(* ===== verification/Replicated.v ===== *)
(** * A replicated service: servers on a Raft cluster

    The composition of raft/raft.go with the server that kvraft/server.go and
    shardctrler/server.go share ([OpServer]): one server on each peer.  An RPC handler
    calls [rf.Start]; the applier of the peer sends its messages on [applyCh], from
    which the server's applier takes them; the server hands snapshots to
    [rf.Snapshot]; a peer that is started again reads its log and its snapshot from
    its persister.

    [inbox] holds the messages that the peer's applier has sent and the server has
    not processed.  The channel is unbuffered, so the code has at most one message
    in the channel and one in the hands of the server; the model allows any number.
    [trace] lists the RPCs that arrived and the replies, in the order of time; no
    step reads it. *)

From S2P Require Import Prelude Util Labgob RaftState RaftHandlers RaftLeader RaftNode RaftCluster OpServer.

(** What a service can promise about its snapshots: loading one yields the state that
    it was taken of, and an empty one leaves the server as it is. *)
Class SnapshotLaws (S Op V : Type) `{!StateMachine S Op V} := {
  sm_snapshot_restore (s : S) size data s' : sm_snapshot s size = Some data → sm_restore s' data = Some s;
  sm_restore_nil (s : S) : sm_restore s [] = Some s;
}.

Inductive WEvent (Op V : Type) :=
  | WCall (i : Z) (op : Op)
  | WReply (i : Z) (op : Op) (err : Err) (value : V).
Arguments WCall {Op V} _ _.
Arguments WReply {Op V} _ _ _ _.

Record World (S Op V : Type) := MkWorld {
  cluster : Cluster Op;
  server : Z → Server S Op V;
  inbox : Z → list (ApplyMsg Op);
  trace : list (WEvent Op V);
}.
Arguments MkWorld {S Op V} _ _ _ _.
Arguments cluster {S Op V} _.
Arguments server {S Op V} _.
Arguments inbox {S Op V} _.
Arguments trace {S Op V} _.

Inductive WAction (Op : Type) :=
  (** a step of Raft alone: the clock, the network, the death of a peer *)
  | WRaft (act : Action Op)
  (** the applier of peer [i] runs to its next send or wait *)
  | WDeliver (i : Z)
  (** server [i] processes the next message; [size] is the size of the Raft state *)
  | WTake (i size : Z)
  (** an RPC arrives at server [i] *)
  | WRpc (i : Z) (op : Op)
  (** handler [k] of server [i] receives its result, times out, or returns *)
  | WReceive (i : Z) (k : nat)
  | WTimeout (i : Z) (k : nat)
  | WFinish (i : Z) (k : nat)
  (** server [i] is started again *)
  | WRestart (i : Z) (env : Env).
Arguments WRaft {Op} _.
Arguments WDeliver {Op} _.
Arguments WTake {Op} _ _.
Arguments WRpc {Op} _ _.
Arguments WReceive {Op} _ _.
Arguments WTimeout {Op} _ _.
Arguments WFinish {Op} _ _.
Arguments WRestart {Op} _ _.

Section replicated.
Context {S Op V : Type} `{!StateMachine S Op V, !GobCodec (PState Op)}.
(** [n] servers, which start in the state [s0]. *)
Context (n : Z) (s0 : S).
Implicit Types (X : World S Op V).

(** Actions that do not involve the service. *)
Definition internal (act : Action Op) : bool :=
  match act with ATick _ _ | AKill _ | ADrop _ | ARun _ _ => true | _ => false end.

Definition log_event X (e : WEvent Op V) : World S Op V :=
  MkWorld (cluster X) (server X) (inbox X) (trace X ++ [e]).

(** What a step of server [i] tells the outside: replies to RPCs, and calls of
    [rf.Snapshot]. *)
Fixpoint emit (i : Z) (es : list (Event Op V)) X : option (World S Op V) :=
  match es with
  | [] => Some X
  | EReply op err v :: es => emit i es (log_event X (WReply i op err v))
  | ESnapshot index data :: es =>
    w ← exec n (ASnapshot i index data) (cluster X);
    emit i es (MkWorld w (server X) (inbox X) (trace X))
  end.

(** Server [i] makes a step. *)
Definition serve (i : Z) (act : SAction Op) X : option (World S Op V) :=
  '(kv, es) ← sexec act (server X i);
  emit i es (MkWorld (cluster X) (<[i := kv]> (server X)) (inbox X) (trace X)).

(** [processOpL]: [Start] is called unless the operation is the client's last. *)
Definition rpc (i : Z) (op : Op) X : option (World S Op V) :=
  let X := log_event X (WCall i op) in
  match sm_cached (state (server X i)) op with
  | Some _ => serve i (SRpc op NA false) X
  | None =>
    '(_, (index, _, isLeader), _) ← Start (rf (peers (cluster X) i)) (Some op);
    w ← exec n (AStart i (Some op)) (cluster X);
    serve i (SRpc op index isLeader) (MkWorld w (server X) (inbox X) (trace X))
  end.

(** One iteration of [receiveApplyMsg]; a message is a command or a snapshot. *)
Definition take_message (i size : Z) X : option (World S Op V) :=
  match inbox X i with
  | [] => None
  | msg :: rest =>
    let X := MkWorld (cluster X) (server X) (<[i := rest]> (inbox X)) (trace X) in
    if CommandValid msg then op ← MsgCommand msg; serve i (SCommand op (CommandIndex msg) size) X
    else if SnapshotValid msg then serve i (SSnapshot (MsgSnapshot msg)) X
    else Some X
  end.

Definition deliver (i : Z) X : option (World S Op V) :=
  '(_, msg) ← apply (rf (peers (cluster X) i));
  w ← exec n (AApply i) (cluster X);
  Some (MkWorld w (server X) (<[i := inbox X i ++ option_list msg]> (inbox X)) (trace X)).

(** [StartKVServer] on the persister of the server that died. *)
Definition restart (i : Z) (env : Env) X : option (World S Op V) :=
  w ← exec n (ARestart i env) (cluster X);
  s ← sm_restore s0 (ReadSnapshot (persister (rf (peers w i))));
  Some (MkWorld w (<[i := start_server s]> (server X)) (<[i := []]> (inbox X)) (trace X)).

Definition wexec (act : WAction Op) X : option (World S Op V) :=
  match act with
  | WRaft act =>
    if internal act
    then w ← exec n act (cluster X); Some (MkWorld w (server X) (inbox X) (trace X))
    else None
  | WDeliver i => if in_cluster n i then deliver i X else None
  | WTake i size => if in_cluster n i then take_message i size X else None
  | WRpc i op => if in_cluster n i then rpc i op X else None
  | WReceive i k => if in_cluster n i then serve i (SReceive k) X else None
  | WTimeout i k => if in_cluster n i then serve i (STimeout k) X else None
  | WFinish i k => if in_cluster n i then serve i (SFinish k) X else None
  | WRestart i env => if in_cluster n i then restart i env X else None
  end.

Definition winit (envs : Z → Env) : World S Op V :=
  MkWorld (init n envs) (λ _, start_server s0) (λ _, []) [].

Definition wstep X X' : Prop := ∃ act, wexec act X = Some X'.

Definition wreachable X : Prop := ∃ envs, rtc wstep (winit envs) X.

Fixpoint wexecs (acts : list (WAction Op)) X : option (World S Op V) :=
  match acts with
  | [] => Some X
  | act :: acts => X ← wexec act X; wexecs acts X
  end.

Lemma wexecs_run acts X X' : wexecs acts X = Some X' → rtc wstep X X'.
Proof.
  revert X. induction acts as [|act acts IH]; intros X H; cbn in H; [by simplify_eq|].
  destruct (wexec act X) as [X1|] eqn:E; cbn in H; [|done].
  eapply rtc_l; [by exists act|by apply IH].
Qed.

(** The state after a sequence of operations. *)
Fixpoint run_ops (s : S) (ops : list Op) : option S :=
  match ops with
  | [] => Some s
  | op :: ops => '(s, _) ← sm_apply s op; run_ops s ops
  end.

End replicated.

(** ** What a service promises

    Its servers need not be in equal states: [replica ops s] says what the state [s] of
    a server is after the operations [ops]; [run_ops] is the reference.  Every server
    gives the results of the reference, and a snapshot restores a replica. *)
Class Replicas (S Op V : Type) `{!StateMachine S Op V} (s0 : S) := {
  replica : list Op → S → Prop;
  rp_start : replica [] s0;
  rp_run ops s : replica ops s → is_Some (run_ops s0 ops);
  rp_step ops t s op s' r : replica ops s → run_ops s0 ops = Some t → sm_apply s op = Some (s', r) →
    replica (ops ++ [op]) s' ∧ ∃ t', sm_apply t op = Some (t', r);
  rp_cached ops t s op : replica ops s → run_ops s0 ops = Some t → sm_cached s op = sm_cached t op;
  rp_snapshot ops s size data s1 : replica ops s → sm_snapshot s size = Some data →
    ∃ s', sm_restore s1 data = Some s' ∧ replica ops s';
  rp_nil : sm_restore s0 [] = Some s0;
}.

Section traces.
Context {S Op V : Type} `{!StateMachine S Op V} (s0 : S).
Implicit Types (X : World S Op V).

(** The operations of the RPCs that arrived. *)
Definition calls (tr : list (WEvent Op V)) : list Op :=
  omap (λ e, match e with WCall _ op => Some op | _ => None end) tr.

(** The sequence [L] explains a reply [OK]: it has the operation, with this result
    after what comes before it, or a server that had processed a part of [L]
    remembered the result. *)
Definition answered (L : list Op) (op : Op) (v : V) : Prop :=
  (∃ k op' s s', L !! k = Some op' ∧ sm_same op op' = true ∧ run_ops s0 (take k L) = Some s
     ∧ sm_apply s op' = Some (s', (OK, v)))
  ∨ (∃ k s, (k <= length L)%nat ∧ run_ops s0 (take k L) = Some s ∧ sm_cached s op = Some v).

(** [L] explains a part of a trace: the operations were called, in this order, and
    the replies are explained. *)
Definition explains (L : list Op) (tr : list (WEvent Op V)) : Prop :=
  L `sublist_of` calls tr ∧ ∀ i op v, WReply i op OK v ∈ tr → answered L op v.

(** [L] explains a trace as it grew: at every time a prefix of [L] explains what
    had happened. *)
Definition accounts (L : list Op) (tr : list (WEvent Op V)) : Prop :=
  ∀ t1 t2, tr = t1 ++ t2 → ∃ L1, L1 `prefix_of` L ∧ explains L1 t1.

(** The data restore a replica after [ops], whatever the server was. *)
Definition restoring `{!Replicas S Op V s0} (ops : list Op) (data : bytes) : Prop :=
  ∀ s1 : S, ∃ s, sm_restore s1 data = Some s ∧ replica ops s.

(** ** Lemmas *)

Lemma run_ops_app (s : S) (l l' : list Op) : run_ops s (l ++ l') = (s' ← run_ops s l; run_ops s' l').
Proof.
  revert s. induction l as [|op l IH]; intros s; cbn; [done|].
  destruct (sm_apply s op) as [[s1 r]|]; cbn; [apply IH|done].
Qed.

Lemma run_ops_snoc (s : S) l op s1 s' r :
  run_ops s l = Some s1 → sm_apply s1 op = Some (s', r) → run_ops s (l ++ [op]) = Some s'.
Proof. intros H1 H2. rewrite run_ops_app, H1. cbn. by rewrite H2. Qed.

Lemma calls_app (tr tr' : list (WEvent Op V)) : calls (tr ++ tr') = calls tr ++ calls tr'.
Proof. apply omap_app. Qed.

(** What a prefix of [L] explains, [L] explains. *)
Lemma take_prefix (L L' : list Op) k : (k <= length L)%nat → L `prefix_of` L' → take k L' = take k L.
Proof. intros Hk [l ->]. by rewrite take_app_le. Qed.

Lemma answered_mono L L' op v : L `prefix_of` L' → answered L op v → answered L' op v.
Proof.
  intros Hp [(k & op' & s & s' & Hk & Hs & Hr & Ha)|(k & s & Hk & Hr & Ha)]; [left|right].
  - exists k, op', s, s'. pose proof (lookup_lt_Some _ _ _ Hk). rewrite (take_prefix L) by (done || lia).
    split_and!; try done. by eapply prefix_lookup_Some.
  - exists k, s. rewrite (take_prefix L) by done. split_and!; try done.
    pose proof (prefix_length _ _ Hp). lia.
Qed.

Lemma accounts_mono L L' tr :
  L `prefix_of` L' → explains L' tr → accounts L tr → accounts L' tr.
Proof.
  intros Hp Hex Ha t1 t2 Heq. destruct t2 as [|e t2].
  - exists L'. rewrite app_nil_r in Heq. by subst tr.
  - destruct (Ha _ _ Heq) as (L1 & Hp1 & Hex1). exists L1. split; [by etrans|done].
Qed.

(** New events that [L] explains. *)
Lemma accounts_app L tr es :
  explains L tr → accounts L tr → (∀ i op v, WReply i op OK v ∈ es → answered L op v) → accounts L (tr ++ es).
Proof.
  intros [Hs Hr] Ha Hes t1 t2 Heq. apply app_eq_inv in Heq as [(l & -> & ->)|(l & -> & ->)].
  - destruct (Ha t1 l) as (L1 & ? & ?); [done|]. by exists L1.
  - exists L. split; [done|]. split.
    + rewrite calls_app. etrans; [exact Hs|]. by apply sublist_inserts_r.
    + intros i op v [Hin|Hin]%elem_of_app; [by eapply Hr|]. apply (Hes i). apply elem_of_app. by left.
Qed.

Lemma explains_app L tr es :
  explains L tr → (∀ i op v, WReply i op OK v ∈ es → answered L op v) → explains L (tr ++ es).
Proof.
  intros [Hs Hr] Hes. split.
  - rewrite calls_app. etrans; [exact Hs|]. by apply sublist_inserts_r.
  - intros i op v [Hin|Hin]%elem_of_app; eauto.
Qed.
End traces.

(** A service whose servers agree is its own reference. *)
#[global] Instance exact_replicas {S Op V : Type} `{!StateMachine S Op V, !SnapshotLaws S Op V} (s0 : S) : Replicas S Op V s0.
Proof.
  refine {| replica ops s := run_ops s0 ops = Some s |}.
  - done.
  - intros ops s H. by exists s.
  - intros ops t s op s' r Hr Ht Ha. rewrite Hr in Ht. injection Ht as <-. split; [by eapply run_ops_snoc|by exists s'].
  - intros ops t s op Hr Ht. rewrite Hr in Ht. by injection Ht as <-.
  - intros ops s size data s1 Hr Hs. exists s. split; [by eapply sm_snapshot_restore|done].
  - apply sm_restore_nil.
Defined.

#[global] Arguments calls : simpl never.

Lemma exact_restoring {S Op V : Type} `{!StateMachine S Op V, !SnapshotLaws S Op V} (s0 : S) ops data : restoring s0 ops data →
  ∃ s, run_ops s0 ops = Some s ∧ ∀ s1, sm_restore s1 data = Some s.
Proof.
  intros H. destruct (H s0) as (s & _ & Hs). exists s. split; [exact Hs|]. intros s1. destruct (H s1) as (s' & Hr & Hs').
  cbn in Hs, Hs'. rewrite Hs in Hs'. by injection Hs' as ->.
Qed.

(** ** What a step adds to the trace *)

Section added.
Context {S Op V : Type} `{!StateMachine S Op V, !GobCodec (PState Op)} (n : Z) (s0 : S).
Implicit Types (X : World S Op V).

Definition adds X X' (ops : list Op) : Prop := ∃ es, trace X' = trace X ++ es ∧ calls es = ops.

Lemma emit_adds i es X X' : emit n i es X = Some X' → adds X X' [].
Proof.
  revert X. induction es as [|[op err v|index data] es IH]; intros X H; cbn in H.
  - injection H as <-. exists []. by rewrite app_nil_r.
  - destruct (IH _ H) as (es' & Ht & Hc). exists (WReply i op err v :: es'). cbn in Ht. by rewrite Ht, <- (assoc_L (++)).
  - apply bind_Some in H as (w & _ & H). by destruct (IH _ H) as (es' & Ht & Hc); exists es'.
Qed.

Lemma serve_adds i act X X' : serve n i act X = Some X' → adds X X' [].
Proof. unfold serve. intros ([kv es] & _ & H)%bind_Some. by apply emit_adds in H. Qed.

Lemma rpc_adds i op X X' : rpc n i op X = Some X' → adds X X' [op].
Proof.
  assert (∀ X1 act, trace X1 = trace X ++ [WCall i op] → serve n i act X1 = Some X' → adds X X' [op]) as Hs.
  { intros X1 act Ht (es & Hx & Hc)%serve_adds. exists (WCall i op :: es). rewrite Hx, Ht, <- (assoc_L (++)).
    split; [done|]. change (WCall i op :: es) with ([WCall i op] ++ es). by rewrite calls_app, Hc. }
  unfold rpc. destruct (sm_cached _ op); [by apply Hs|].
  intros ([[r1 [[index T] leader]] sp] & _ & (w & _ & H)%bind_Some)%bind_Some. by eapply Hs, H.
Qed.

Lemma wexec_adds act X X' : wexec n s0 act X = Some X' → adds X X' (match act with WRpc _ op => [op] | _ => [] end).
Proof.
  assert (∀ Y, trace Y = trace X → adds X Y []) as Hsame by (intros Y Ht; exists []; by rewrite Ht, app_nil_r).
  destruct act as [act|i|i size|i op|i k|i k|i k|i env]; cbn [wexec];
    try (destruct (in_cluster n i); [|done]); try apply serve_adds.
  - destruct (internal act); [|done]. intros (w & _ & [= <-])%bind_Some. by apply Hsame.
  - unfold deliver. intros ([r msg] & _ & (w & _ & [= <-])%bind_Some)%bind_Some. by apply Hsame.
  - unfold take_message. destruct (inbox X i) as [|msg rest]; [done|]. destruct (CommandValid msg).
    + intros (op & _ & (es & Ht & Hc)%serve_adds)%bind_Some. by exists es.
    + destruct (SnapshotValid msg); [intros (es & Ht & Hc)%serve_adds; by exists es|]. intros [= <-]. by apply Hsame.
  - apply rpc_adds.
  - unfold restart. intros (w & _ & (s & _ & [= <-])%bind_Some)%bind_Some. by apply Hsame.
Qed.
End added.
