(* ===== verification/ReplicatedInv.v ===== *)
(** * The invariant of a replicated service

    One sequence [L] of operations, the commands on the path of the tree from the
    root to a committed entry, accounts for everything that the servers do: the
    state of each is that after a prefix of [L]; the messages on their way to it
    continue the prefix; snapshots in memory, on disk and in messages hold states of
    other prefixes; results and replies are results of operations of [L]. *)

From S2P Require Import Prelude Util Labgob RaftState RaftHandlers RaftLeader RaftNode RaftRecv RaftSend RaftCluster RaftElection RaftClusterInv RaftLogMatching RaftSteps RaftSafety RaftTree RaftTrans RaftAncestry RaftStore RaftCompleteness RaftCommit RaftStateMachine OpServer Replicated.

(** ** What the applier of a peer sends *)

Section applier.
Context {C : Type} `{!GobCodec (PState C), !GobLaws (PState C)}.
Implicit Types (r : Raft C).

Definition command_msg (op : option C) (index : Z) : ApplyMsg C := MkApplyMsg true op index false [] 0 0.
Definition snapshot_msg (data : bytes) (index : Z) : ApplyMsg C := MkApplyMsg false None 0 true data index index.

Inductive delivers r r' : option (ApplyMsg C) → Prop :=
  | dl_none :
      lastApplied r <= lastApplied r' →
      (RaftState.applier r' ≠ PExit → lastApplied r' = lastApplied r ∧ RaftState.applier r ≠ PExit) →
      delivers r r' None
  | dl_command e :
      RaftState.applier r ≠ PExit → lastApplied r' = lastApplied r + 1 →
      entry_at (log r) (lastApplied r') = Some e → firstIdx (log r) < lastApplied r' <= commitIndex r →
      delivers r r' (Some (command_msg (Command e) (lastApplied r')))
  | dl_snapshot :
      RaftState.applier r ≠ PExit → lastApplied r < lastApplied r' → lastApplied r' = firstIdx (log r) →
      delivers r r' (Some (snapshot_msg (Data (snapshot r)) (lastApplied r'))).

Lemma apply_command_delivers r r' msg :
  node_wf r → RaftState.applier r ≠ PExit → apply_command r = Some (r', msg) → delivers r r' msg.
Proof.
  intros Hwf Hx H. pose proof (nw_log _ Hwf) as Hl. unfold apply_command, apply_tail in H.
  destruct (_ >? _) eqn:Ec; bools.
  - destruct (logFirstIndexL (set_lastApplied r (lastApplied r + 1))) as [first|] eqn:Ef; cbn [mbind option_bind] in H; [|done].
    rewrite (logFirstIndexL_spec (set_lastApplied r (lastApplied r + 1)) Hl) in Ef. injection Ef as <-.
    destruct (_ <=? _) eqn:El; bools.
    { injection H as <- <-. apply dl_none; cbn; [lia|done]. }
    rewrite (getLogL_spec (set_lastApplied r (lastApplied r + 1)) _ Hl) in H. cbn in H, El.
    destruct (entry_at (log r) (lastApplied r + 1)) as [e|] eqn:Ee; cbn [mbind option_bind] in H; [|done].
    injection H as <- <-. by apply (dl_command _ (RaftState.set_applier (set_lastApplied r (lastApplied r + 1)) PAfterCommand) e); cbn; try lia.
  - destruct (_ && _); injection H as <- <-; by apply dl_none.
Qed.

Lemma apply_delivers_msg r r' msg : node_wf r → apply r = Some (r', msg) → delivers r r' msg.
Proof.
  intros Hwf H. pose proof (apply_command_delivers r) as Hcmd. unfold apply, apply_tail, applySnapshotL in H.
  destruct (nw_snap _ Hwf) as [Hsn _]. destruct (RaftState.applier r) eqn:Ea.
  - destruct (killed r); [injection H as <- <-; by apply dl_none|].
    destruct (applySnapshot r); [|by apply Hcmd]. cbn in H. destruct (_ >? _) eqn:E; bools.
    + injection H as <- <-. rewrite Hsn in *.
      match goal with |- delivers _ ?r2 _ => apply (dl_snapshot r r2) end; cbn; [congruence|lia|done].
    + assert (delivers (set_applySnapshot r false) r' msg) as Hd.
      { apply apply_command_delivers; [auto with labs|cbn; congruence|done]. }
      destruct Hd as [? Hd|e ? ? ? ?|? ? ?];
        [by apply dl_none|by apply (dl_command r r' e)|by apply (dl_snapshot r r')].
  - by apply Hcmd.
  - destruct (_ && _); injection H as <- <-; apply dl_none; cbn; try done; split; congruence.
  - injection H as <- <-. apply dl_none; [done|]. split; congruence.
  - injection H as <- <-. apply dl_none; [done|]. congruence.
Qed.
End applier.

(** ** Paths with their commands *)

Section paths.
Context {C : Type}.
Implicit Types (b : gmap (Z * Z) (Z * option C)) (x y z : Z * Z) (ops : list C).

(** The commands from the root to an entry. *)
Inductive path b : Z * Z → list C → Prop :=
  | path_root : path b (0, 0) []
  | path_snoc k T T' op ops :
      0 < k → b !! (k, T) = Some (T', Some op) → path b (k - 1, T') ops → path b (k, T) (ops ++ [op]).

Lemma path_length b y ops : path b y ops → y.1 = Z.of_nat (length ops).
Proof. induction 1 as [|k T T' op ops Hk Hb Hp IH]; [done|]. cbn in *. rewrite length_app; cbn. lia. Qed.

Lemma path_rooted b y ops : path b y ops → rooted b y.
Proof. induction 1; [apply anc_refl|]. by eapply anc_step. Qed.

Lemma path_mono b b' y ops : b ⊆ b' → path b y ops → path b' y ops.
Proof. intros Hb. induction 1; [apply path_root|]. eapply path_snoc; [done|by eapply lookup_weaken|done]. Qed.

(** Entries on the path of an entry have a prefix of its commands. *)
Lemma path_anc b y z ops : path b y ops → anc b y z → 0 <= z.1 → path b z (take (Z.to_nat z.1) ops).
Proof.
  intros Hp Ha Hz. induction Hp as [|k T T' op ops Hk Hb Hp IH].
  - pose proof (anc_index _ _ _ Ha) as Hi. cbn in Hi. rewrite <- (anc_same_index b (0, 0) z Ha) by (cbn; lia).
    apply path_root.
  - pose proof (path_length _ _ _ Hp) as Hlen. cbn in Hlen.
    inversion Ha as [|? ? T2 op2 ? ? Hb2 Ha2]; subst.
    + cbn. rewrite take_ge by (rewrite length_app; cbn; lia). by eapply path_snoc.
    + rewrite Hb in Hb2. injection Hb2 as <- <-. pose proof (anc_index _ _ _ Ha2) as Hi. cbn in Hi.
      rewrite take_app_le by lia. by apply IH.
Qed.

Lemma path_unique b y ops ops' : path b y ops → path b y ops' → ops = ops'.
Proof.
  intros Hp. revert ops'. induction Hp as [|k T T' op ops Hk Hb Hp IH]; intros ops' Hp'.
  - apply path_length in Hp'. by destruct ops'.
  - inversion Hp' as [|? ? T2 op2 ops2 ? Hb2 Hp2]; subst; [lia|].
    rewrite Hb in Hb2. injection Hb2 as <- <-. by rewrite (IH _ Hp2).
Qed.

Lemma path_back b b' y ops : b ⊆ b' → rooted b y → path b' y ops → path b y ops.
Proof.
  intros Hb Hr Hp. induction Hp as [|k T T' op ops Hk Hbk Hp IH]; [apply path_root|].
  inversion Hr as [|? ? T2 op2 ? ? Hb2 Hr2]; subst; [lia|].
  pose proof (lookup_weaken _ _ _ _ Hb2 Hb) as Hw. rewrite Hbk in Hw. injection Hw as <- <-.
  eapply path_snoc; [done|done|by apply IH].
Qed.

(** Every entry has its path, if no command is nil. *)
Lemma path_exists b y : (∀ k v, b !! k = Some v → is_Some v.2) → rooted b y → ∃ ops, path b y ops.
Proof.
  intros Hb Hr. unfold rooted in Hr. remember (0, 0) as o eqn:Ho.
  induction Hr as [|k T T' cmd y Hk Hbk Hr IH]; subst; [exists []; apply path_root|].
  destruct (IH eq_refl) as [ops Hp]. destruct (Hb _ _ Hbk) as [op Hop]. cbn in Hop. subst cmd.
  exists (ops ++ [op]). by eapply path_snoc.
Qed.

Lemma path_last b k T T' op ops :
  0 < k → b !! (k, T) = Some (T', Some op) → path b (k, T) ops → ∃ ops', ops = ops' ++ [op] ∧ path b (k - 1, T') ops'.
Proof.
  intros Hk Hb Hp. inversion Hp as [|? ? T2 op2 ops2 ? Hb2 Hp2]; subst; [lia|].
  rewrite Hb in Hb2. injection Hb2 as <- <-. by exists ops2.
Qed.
End paths.

(** ** Raft's part: paths were called, snapshots are states *)

Section raft.
Context {S Op V : Type} `{!StateMachine S Op V, !GobCodec (PState Op), !GobLaws (PState Op)}.
Context (n : Z) (s0 : S) `{!Replicas S Op V s0}.
Implicit Types (w : Cluster Op) (b : gmap (Z * Z) (Z * option Op)).

(** The data of a snapshot restore a replica after the commands on the path of
    its entry. *)
Definition snap_ok b (sn : bytes * (Z * Z)) : Prop :=
  sn = ([], (0, 0))
  ∨ ∃ ops, path b sn.2 ops ∧ restoring s0 ops sn.1.

Lemma snap_ok_mono b b' sn : b ⊆ b' → snap_ok b sn → snap_ok b' sn.
Proof.
  intros Hb [?|(ops & Hp & ?)]; [by left|right]. exists ops. split; [by eapply path_mono|done].
Qed.

(** [cs] are the operations that were called, in this order. *)
Record raft_inv (cs : list Op) w : Prop := {
  ri_full : full_inv n w;
  ri_command k v : born (hist w) !! k = Some v → is_Some v.2;
  ri_called y ops : path (born (hist w)) y ops → ops `sublist_of` cs;
  ri_mem i : 0 <= i < n → snap_ok (born (hist w)) (msnap (rf (peers w i)));
  ri_disk i : 0 <= i < n → snap_ok (born (hist w)) (dsnap (rf (peers w i)));
  ri_msg c s ep args : TInstall c s ep args ∈ tasks w →
    snap_ok (born (hist w)) (Data (is_Snapshot args), snap_pt args);
}.

Lemma raft_inv_called cs cs' w : cs `sublist_of` cs' → raft_inv cs w → raft_inv cs' w.
Proof. intros Hs []. split; try done. intros y ops Hp. etrans; [by eapply ri_called0|done]. Qed.

Lemma raft_inv_init envs : raft_inv [] (init n envs).
Proof.
  split; [apply full_inv_init|done| |by left|by left|by intros c s ep args ?%elem_of_nil].
  intros y ops Hp. by inversion Hp; subst.
Qed.

(** Paths through a new entry end there. *)
Lemma new_path w w' k cmd T y ops :
  tree_inv n w → born (hist w) ⊆ born (hist w') → born (hist w') = <[k := (T, cmd)]> (born (hist w)) →
  tree_inv n w' → path (born (hist w')) y ops →
  path (born (hist w)) y ops ∨ ∃ y1 ops1 op, cmd = Some op ∧ path (born (hist w)) y1 ops1 ∧ ops = ops1 ++ [op].
Proof.
  intros Ht Hsub Hb Ht' Hp. inversion Hp as [|k1 T1 T1' op ops1 Hk1 Hb1 Hp1]; subst; [left; apply path_root|].
  assert (∀ x, is_Some (born (hist w) !! x) → rooted (born (hist w)) x) as Hroot.
  { intros [j t] [[? ?] Hx]. by destruct (tr_born _ _ Ht _ _ _ _ Hx) as (_ & _ & _ & ? & _). }
  destruct (decide (k = (k1, T1))) as [->|Hne].
  - right. rewrite Hb, lookup_insert_eq in Hb1. injection Hb1 as -> ->. exists (k1 - 1, T1'), ops1, op. split_and!; [done| |done].
    eapply path_back; [exact Hsub| |done]. inversion Hp1 as [|k2 T2 T2' op2 ops2 Hk2 Hb2 Hp2]; subst; [apply anc_refl|].
    apply Hroot. rewrite Hb, lookup_insert_ne in Hb2 by (intros [= ? ?]; lia). by rewrite Hb2.
  - left. eapply path_back; [exact Hsub| |done]. apply Hroot. rewrite Hb, lookup_insert_ne in Hb1 by done. by rewrite Hb1.
Qed.

(** What the service owes Raft: commands are operations, snapshots are states of
    delivered entries. *)
Definition serviced w (act : Action Op) : Prop :=
  match act with
  | AStart _ None => False
  | ASnapshot i index data => index <= lastApplied (rf (peers w i))
      ∧ ∀ e, entry_at (log (rf (peers w i))) index = Some e → snap_ok (born (hist w)) (data, (index, Term e))
  | _ => True
  end.

Definition called_by (act : Action Op) : list Op :=
  match act with AStart _ (Some op) => [op] | _ => [] end.

Lemma serviced_disciplined w act : serviced w act → disciplined w act.
Proof. destruct act as [|? []| | | | | |]; try done. by intros []. Qed.

Lemma raft_inv_step cs w act w' :
  0 <= n → raft_inv cs w → serviced w act → exec n act w = Some w' →
  raft_inv (cs ++ called_by act) w' ∧ hgrows (hist w) (hist w').
Proof.
  intros Hn [Hf Hcmd Hcall Hmem Hdisk Hmsg] Hserv Hx.
  destruct (full_inv_step n w w' Hn Hf) as [Hf' Hg]; [exists act; split; [by apply serviced_disciplined|done]|].
  split; [|done]. pose proof (hg_born _ _ Hg) as Hsub. destruct Hf as [[Hc Hl Ht] _ _].
  pose proof (bi_tree _ _ (fi_basic _ _ Hf')) as Ht'.
  assert ((∀ k v, born (hist w') !! k = Some v → is_Some v.2)
    ∧ ∀ y ops, path (born (hist w')) y ops → ops `sublist_of` cs ++ called_by act) as [Hcmd' Hcall'].
  { destruct (exec_born n _ _ _ Hn Hc Hl Hx) as [Hb|(i & cmd & k & T & -> & Hb)].
    - rewrite Hb. split; [done|]. intros y ops Hp. apply sublist_inserts_r. by eapply Hcall.
    - cbn in Hserv. destruct cmd as [op|]; [|done]. split.
      + intros k' v Hv. rewrite Hb in Hv. apply lookup_insert_Some in Hv as [[_ <-]|[_ Hv]]; [by eexists|by eapply Hcmd].
      + intros y ops Hp. destruct (new_path _ _ _ _ _ _ _ Ht Hsub Hb Ht' Hp) as [Hp'|(y1 & ops1 & op1 & [= ->] & Hp1 & ->)].
        * apply sublist_inserts_r. by eapply Hcall.
        * cbn. apply sublist_app; [by eapply Hcall|done]. }
  destruct (exec_stores n _ _ _ Hn Hc Hx) as [[k ->]|(i & p & ts & Hi & -> & Hst & Hts)].
  { split; try done. intros c s ep args ?%elem_of_delete. by eapply Hmsg. }
  assert (snap_ok (born (hist (update w i p ts))) (msnap (rf p))
    ∧ snap_ok (born (hist (update w i p ts))) (dsnap (rf p))) as [Hm Hd].
  { pose proof (snap_ok_mono _ _ _ Hsub (Hmem i Hi)) as Hm. pose proof (snap_ok_mono _ _ _ Hsub (Hdisk i Hi)) as Hd.
    destruct Hst as [[Hs Hk _] _|cmd _ [Hs Hk _]|c ep args Hin _ _ Hk Hs|index data e -> _ Hk He _ Hs|msg _ _ Hsn|env _ Hk _ _ _ Hs].
    - rewrite Hs. split; [done|]. by destruct Hk as [-> | ->].
    - rewrite Hs. split; [done|]. by destruct Hk as [-> | ->].
    - rewrite Hs. split; [eapply snap_ok_mono; [exact Hsub|by eapply Hmsg]|]. by destruct Hk as [-> | ->].
    - destruct Hserv as [_ Hserv].
      assert (snap_ok (born (hist (update w i p ts))) (msnap (rf p))) as Hok; [|by rewrite Hk].
      rewrite Hs. eapply snap_ok_mono; [exact Hsub|by apply Hserv].
    - destruct (same_node_stores _ _ Hsn) as [-> ->]. done.
    - rewrite Hk. split; [|done]. destruct Hs as [->|[-> _]]; [done|by left]. }
  split; try done.
  - intros j Hj. rewrite peers_update. case_decide; [done|]. eapply snap_ok_mono; [exact Hsub|by apply Hmem].
  - intros j Hj. rewrite peers_update. case_decide; [done|]. eapply snap_ok_mono; [exact Hsub|by apply Hdisk].
  - intros c s ep args Hin. eapply snap_ok_mono; [exact Hsub|].
    destruct (Hts _ Hin) as [?|[-> ->]]; [by eapply Hmsg|]. destruct (ci_node _ _ Hc i Hi) as (Hwf & _).
    destruct (nw_snap _ Hwf) as [HI HT]. unfold snap_pt, installArgsL; cbn. rewrite HI, HT. by apply Hmem.
Qed.

(** Steps other than deliveries and restarts leave the appliers where they are. *)
Lemma exec_idle w act w' j :
  0 <= n → cluster_inv n w → exec n act w = Some w' →
  (∀ i, act ≠ AApply i) → (∀ i env, act ≠ ARestart i env) → idle (rf (peers w j)) (rf (peers w' j)).
Proof.
  intros Hn Hc Hx Ha Hr. destruct (exec_stores n _ _ _ Hn Hc Hx) as [[k ->]|(i & p & ts & Hi & -> & Hst & _)]; [done|].
  rewrite peers_update. case_decide; [subst j|done].
  destruct Hst as [[] _|? _ []|????? Hi1|???? Hi1|? ->|? ->]; try done; [by destruct (Ha i)|by destruct (Hr i env)].
Qed.

(** An entry of a log that was delivered is committed. *)
Lemma applied_committed w i k e : let r := rf (peers w i) in
  full_inv n w → 0 <= i < n → entry_at (log r) k = Some e → k <= commitIndex r →
  committed n (hist w) (currentTerm r) (k, Term e) ∧ rooted (born (hist w)) (k, Term e).
Proof.
  intros r [[Hc Hl Ht] Hk Hv] Hi He Hle. destruct (ci_node _ _ Hc i Hi) as (Hwf & _). fold r in Hwf.
  pose proof (tip_anc _ _ _ _ (nw_log _ Hwf) (lv_log _ _ Hl i Hi) He) as Ha.
  assert (rooted (born (hist w)) (k, Term e)) as Hr by (eapply anc_rooted; [by apply (log_rooted n w)|done]).
  split; [|done]. destruct (cm_commit _ _ _ _ (cv_peer _ _ Hv i Hi)) as (z & Hz & Hza & Hzc).
  eapply committed_anc; [|exact Hzc|eapply anc_linear; [exact Hza|exact Ha|cbn; fold r in Hz; lia]].
  by apply (rooted_index _ _ Hr).
Qed.
End raft.

(** ** The world *)

Section world.
Context {S Op V : Type} `{!StateMachine S Op V, !GobCodec (PState Op), !GobLaws (PState Op)}.
Context (n : Z) (s0 : S) `{!Replicas S Op V s0}.
Implicit Types (X : World S Op V) (L : list Op) (r : Raft Op).

(** A server at position [k] of [L] is at [k'] when it has processed the queue. *)
Inductive feeds L : nat → list (ApplyMsg Op) → nat → Prop :=
  | feeds_nil k : feeds L k [] k
  | feeds_command k op q k' :
      L !! k = Some op → feeds L (k + 1) q k' → feeds L k (command_msg (Some op) (Z.of_nat (k + 1)) :: q) k'
  | feeds_snapshot k m data q k' :
      (k < m <= length L)%nat → restoring s0 (take m L) data →
      feeds L m q k' → feeds L k (snapshot_msg data (Z.of_nat m) :: q) k'.

Lemma feeds_le L k q k' : feeds L k q k' → (k <= length L)%nat → (k <= k' <= length L)%nat.
Proof.
  induction 1 as [|k op q k' Hk _ IH|k m data q k' Hm _ _ IH]; intros Hle; [lia| |].
  - apply lookup_lt_Some in Hk. lia.
  - lia.
Qed.

Lemma feeds_mono L L' k q k' : L `prefix_of` L' → feeds L k q k' → feeds L' k q k'.
Proof.
  intros Hp. induction 1 as [|k op q k' Hk _ IH|k m data q k' Hm Hr _ IH]; [apply feeds_nil| |].
  - apply feeds_command; [by eapply prefix_lookup_Some|done].
  - pose proof (prefix_length _ _ Hp). eapply feeds_snapshot; [lia| |done]. by rewrite (take_prefix L) by (done || lia).
Qed.

Lemma feeds_app L k q m q' k' : feeds L k q m → feeds L m q' k' → feeds L k (q ++ q') k'.
Proof. induction 1; intros; [done|by apply feeds_command; auto|by eapply feeds_snapshot; auto]. Qed.

(** What a result at an index of the log is. *)
Definition result_at L (i : Z) (res : Err * V * Op) : Prop :=
  ∃ k s s', i = Z.of_nat (k + 1) ∧ L !! k = Some res.2 ∧ run_ops s0 (take k L) = Some s
    ∧ sm_apply s res.2 = Some (s', res.1).

Lemma result_at_mono L L' i res : L `prefix_of` L' → result_at L i res → result_at L' i res.
Proof.
  intros Hp (k & s & s' & Hi & Hk & Hr & Ha). exists k, s, s'. pose proof (lookup_lt_Some _ _ _ Hk).
  rewrite (take_prefix L) by (done || lia). split_and!; try done. by eapply prefix_lookup_Some.
Qed.

(** The server is at position [k], and the peer's applier at [k']. *)
Record at_position L r (kv : Server S Op V) (q : list (ApplyMsg Op)) (k k' : nat) : Prop := {
  ap_le : (k <= length L)%nat;
  ap_state : replica (take k L) (state kv);
  ap_feeds : feeds L k q k';
  ap_applied : Z.of_nat k' <= lastApplied r;
  ap_exit : RaftState.applier r ≠ PExit → lastApplied r = Z.of_nat k';
  ap_sending : match applier kv with AIdle => True | ASending _ i _ _ => i = Z.of_nat k end;
}.

Record server_ok L r (kv : Server S Op V) (q : list (ApplyMsg Op)) : Prop := {
  so_position : ∃ k k', at_position L r kv q k k';
  so_results : ∃ owner, server_inv (result_at L) kv owner;
}.

Lemma server_ok_mono L L' r kv q : L `prefix_of` L' → server_ok L r kv q → server_ok L' r kv q.
Proof.
  intros Hp [(k & k' & [Hle Hst Hfe Hap Hex Hse]) [owner Hi]]. pose proof (prefix_length _ _ Hp). split.
  - exists k, k'. split; try done; [lia|by rewrite (take_prefix L) by done|by eapply feeds_mono].
  - exists owner. eapply server_inv_mono; [|exact Hi]. intros i res. by apply result_at_mono.
Qed.

Lemma server_ok_idle L r r' kv q : idle r r' → server_ok L r kv q → server_ok L r' kv q.
Proof.
  intros [Ha Hx] [(k & k' & [Hle Hst Hfe Hap Hex Hse]) Hi]. split; [|done].
  exists k, k'. split; try done; [lia|]. intros Hne. rewrite Ha. auto.
Qed.

Record world_inv L X : Prop := {
  wi_raft : raft_inv n s0 (calls (trace X)) (cluster X);
  wi_top : ∃ T y, committed n (hist (cluster X)) T y ∧ path (born (hist (cluster X))) y L;
  wi_server i : 0 <= i < n → server_ok L (rf (peers (cluster X) i)) (server X i) (inbox X i);
  wi_explains : explains s0 L (trace X);
  wi_accounts : accounts s0 L (trace X);
}.

Lemma wi_full L X : world_inv L X → full_inv n (cluster X).
Proof. intros H. apply (wi_raft _ _ H). Qed.

Lemma world_inv_init envs : 0 <= n → world_inv [] (winit n s0 envs).
Proof.
  intros Hn. assert (explains s0 [] (@nil (WEvent Op V))) as Hex by (split; [done|by intros i op v ?%elem_of_nil]).
  split; cbn; [apply raft_inv_init| | |done|].
  - exists 0, (0, 0). split; [by left|apply path_root].
  - intros i Hi. split; [|exists ∅; apply start_server_inv]. exists 0%nat, 0%nat. split; try done; [apply rp_start|apply feeds_nil].
  - intros t1 t2 Heq. exists []. split; [done|]. by destruct t1.
Qed.

(** ** Extending the sequence *)

(** Committed paths are prefixes of one another. *)
Lemma committed_prefix w T T' y y' ops ops' : 0 < n → full_inv n w →
  committed n (hist w) T y → committed n (hist w) T' y' → path (born (hist w)) y ops →
  path (born (hist w)) y' ops' → (length ops <= length ops')%nat → ops `prefix_of` ops'.
Proof.
  intros Hn Hf Hc Hc' Hp Hp' Hle. pose proof (path_length _ _ _ Hp) as Hl. pose proof (path_length _ _ _ Hp') as Hl'.
  pose proof (committed_chain n w Hn (fi_basic _ _ Hf) (fi_ack _ _ Hf) _ _ _ _ Hc Hc' ltac:(lia)
    (path_rooted _ _ _ Hp')) as Ha.
  pose proof (path_anc _ _ _ _ Hp' Ha ltac:(lia)) as Hp2. rewrite (path_unique _ _ _ _ Hp Hp2). apply prefix_take.
Qed.

Lemma extend L X T y ops :
  0 < n → world_inv L X → committed n (hist (cluster X)) T y → path (born (hist (cluster X))) y ops →
  ∃ L', ops `prefix_of` L' ∧ world_inv L' X ∧ L `prefix_of` L'.
Proof.
  intros Hn Hw Hc Hp. pose proof Hw as [Hr (T0 & y0 & Hc0 & Hp0) Hs Hex Hac].
  destruct (le_lt_dec (length ops) (length L)) as [Hle|Hlt].
  - exists L. split_and!; [|done|done]. eapply (committed_prefix (cluster X) T T0 y y0); [done|apply Hr|done..].
  - assert (L `prefix_of` ops) as Hpre.
    { eapply (committed_prefix (cluster X) T0 T y0 y); [done|apply Hr|done|done|done|done|lia]. }
    exists ops. split_and!; [done| |done].
    assert (explains s0 ops (trace X)) as Hex'.
    { split; [by apply (ri_called _ _ _ _ Hr y)|]. intros i op v Hin. eapply answered_mono; [done|].
      by eapply (proj2 Hex). }
    split; [done|by exists T, y|..|done|].
    + intros i Hi. eapply server_ok_mono; [done|by apply Hs].
    + by eapply accounts_mono.
Qed.

(** ** Steps of Raft *)

(** The trace and the raft part grow; the servers are dealt with separately. *)
Lemma raft_step L X act w' :
  0 <= n → world_inv L X → serviced s0 (cluster X) act → exec n act (cluster X) = Some w' →
  raft_inv n s0 (calls (trace X) ++ called_by act) w'
  ∧ (∃ T y, committed n (hist w') T y ∧ path (born (hist w')) y L).
Proof.
  intros Hn Hw Hs Hx. destruct (raft_inv_step n s0 _ _ _ _ Hn (wi_raft _ _ Hw) Hs Hx) as [Hr Hg].
  split; [done|]. destruct (wi_top _ _ Hw) as (T & y & Hc & Hp). exists T, y.
  split; [by eapply committed_mono|]. eapply path_mono; [apply Hg|done].
Qed.

(** A step of Raft in which no applier moves. *)
Lemma quiet_step L X act w' cs :
  0 <= n → world_inv L X → serviced s0 (cluster X) act → exec n act (cluster X) = Some w' →
  (∀ i, act ≠ AApply i) → (∀ i env, act ≠ ARestart i env) →
  calls cs = called_by act → (∀ i op v, WReply i op OK v ∈ cs → answered s0 L op v) →
  world_inv L (MkWorld w' (server X) (inbox X) (trace X ++ cs)).
Proof.
  intros Hn Hw Hs Hx Hna Hnr Hcs Hrep. destruct (raft_step _ _ _ _ Hn Hw Hs Hx) as [Hr Htop].
  split; cbn; [by rewrite calls_app, Hcs|done| |by apply explains_app; [apply Hw|]|by apply accounts_app; [apply Hw..|]].
  intros i Hi. eapply server_ok_idle; [|by apply (wi_server _ _ Hw)].
  eapply exec_idle; [done| |done..]. apply (wi_full _ _ Hw).
Qed.

Lemma log_event_inv L X e :
  world_inv L X → (∀ i op v, e = WReply i op OK v → answered s0 L op v) → world_inv L (log_event X e).
Proof.
  intros [Hr Ht Hs Hex Hac] He.
  assert (∀ i op v, WReply i op OK v ∈ [e] → answered s0 L op v) as He'.
  { intros i op v Hin%list_elem_of_singleton. by eapply He. }
  split; cbn; try done; [|by apply explains_app|by apply accounts_app].
  eapply raft_inv_called; [|done]. rewrite calls_app. by apply sublist_inserts_r.
Qed.

(** The entry that a server hands to [rf.Snapshot] with its state. *)
Lemma snapshot_serviced L X i k s size data :
  0 <= i < n → world_inv L X → (k <= length L)%nat → replica (take k L) s → sm_snapshot s size = Some data →
  Z.of_nat k <= lastApplied (rf (peers (cluster X) i)) →
  serviced s0 (cluster X) (ASnapshot i (Z.of_nat k) data).
Proof.
  intros Hi Hw Hk Hrun Hsnap Hap. split; [done|]. intros e He. right.
  pose proof (wi_full _ _ Hw) as Hf. pose proof (cm_applied _ _ _ _ (cv_peer _ _ (fi_commit _ _ Hf) i Hi)) as Hca.
  destruct (applied_committed n _ i (Z.of_nat k) e Hf Hi He ltac:(lia)) as [Hc Hr].
  destruct (wi_top _ _ Hw) as (T & y & Hcy & Hp). pose proof (path_length _ _ _ Hp) as Hlen.
  pose proof (committed_chain n _ ltac:(lia) (fi_basic _ _ Hf) (fi_ack _ _ Hf) _ _ _ _ Hc Hcy ltac:(cbn; lia)
    (path_rooted _ _ _ Hp)) as Ha.
  pose proof (path_anc _ _ _ _ Hp Ha ltac:(cbn; lia)) as Hpk. cbn in Hpk. rewrite Nat2Z.id in Hpk.
  exists (take k L). split; [done|]. intros s1. by eapply rp_snapshot.
Qed.
End world.
