(* ===== verification/ReplicatedSteps.v ===== *)
(** * Every step of a replicated service preserves its invariant *)

From S2P Require Import Prelude Util Labgob RaftState RaftHandlers RaftLeader RaftNode RaftRecv RaftSend RaftCluster RaftElection RaftClusterInv RaftLogMatching RaftSteps RaftSafety RaftTree RaftTrans RaftAncestry RaftStore RaftCompleteness RaftCommit RaftStateMachine OpServer Replicated ReplicatedInv.

#[local] Arguments exec : simpl never.

Section steps.
Context {S Op V : Type} `{!StateMachine S Op V, !GobCodec (PState Op), !GobLaws (PState Op)}.
Context (n : Z) (s0 : S) `{!Replicas S Op V s0}.
Implicit Types (X : World S Op V) (L : list Op) (r : Raft Op).

(** ** Steps of a server *)

(** What the message taken by a server at position [k] does to its position; the
    queue [q] is left. *)
Definition takes L (k k' : nat) (q q' : list (ApplyMsg Op)) (act : SAction Op) : Prop :=
  match act with
  | SCommand op index _ => index = Z.of_nat (k + 1) ∧ L !! k = Some op ∧ feeds s0 L (k + 1) q' k'
  | SSnapshot data => ∃ m, (k < m <= length L)%nat ∧ restoring s0 (take m L) data ∧ feeds s0 L m q' k'
  | _ => q' = q
  end.

(** The events of a step are explained. *)
Definition events_ok L r (es : list (Event Op V)) : Prop :=
  (∀ op v, EReply op OK v ∈ es → answered s0 L op v)
  ∧ ∀ index data, ESnapshot index data ∈ es → ∃ k s size, index = Z.of_nat k ∧ (k <= length L)%nat
      ∧ replica (take k L) s ∧ sm_snapshot s size = Some data ∧ index <= lastApplied r.

Lemma server_answers L (kv : Server S Op V) owner k act kv' es op v :
  (k <= length L)%nat → replica (take k L) (state kv) → server_inv (result_at s0 L) kv owner →
  sexec act kv = Some (kv', es) → EReply op OK v ∈ es → answered s0 L op v.
Proof.
  intros Hk Hrun Hi H Hin. destruct (sexec_reply _ _ _ _ _ _ _ _ Hi H Hin) as [Hc|(i & op' & Hres & Hsame)].
  - right. destruct (rp_run _ _ Hrun) as [t Ht]. exists k, t. split_and!; [done|done|]. by rewrite <- (rp_cached _ _ _ op Hrun Ht).
  - left. destruct Hres as (j & s & s' & _ & Hj & Hr & Ha). by exists j, op', s, s'.
Qed.

Lemma sexec_ok_at L r (kv : Server S Op V) owner q q' k k' act kv' es :
  at_position s0 L r kv q k k' → server_inv (result_at s0 L) kv owner → takes L k k' q q' act →
  sexec act kv = Some (kv', es) → server_ok s0 L r kv' q' ∧ events_ok L r es.
Proof.
  intros [Hle Hst Hfe Hap Hex Hse] Hi Ht H. destruct (sexec_frame _ _ _ _ H) as [Hf Hsn].
  pose proof (feeds_le _ _ _ _ _ Hfe Hle) as Hkk.
  assert (∃ owner', server_inv (result_at s0 L) kv' owner') as Hi'.
  { eapply sexec_inv; [exact Hi| |exact H]. destruct act as [|op index size| | | |]; try done.
    destruct Ht as (-> & Hk & _). intros s res Ha. destruct (rp_run _ _ Hst) as [t Ht].
    destruct (rp_step _ _ _ _ _ _ Hst Ht Ha) as (_ & t' & Ha'). by exists k, t, t'. }
  assert (∀ op v, EReply op OK v ∈ es → answered s0 L op v) as Hans by (intros op v; by eapply server_answers).
  assert (∃ k2, at_position s0 L r kv' q' k2 k'
    ∧ ∀ index data, ESnapshot index data ∈ es → index = Z.of_nat k2) as (k2 & Hpos & Hidx).
  { destruct act as [op index leader|op index size|data|j|j|j]; cbn in Ht, Hf, Hsn.
    - destruct Hf as [Hs Ha]. subst q'. exists k. split; [|by intros i d [_ []]%Hsn].
      split; try done; [by rewrite Hs|]. destruct Ha as [-> | ->]; done.
    - destruct Ht as (-> & Hk & Hq), Hf as (_ & res & Ha & Happ). exists (k + 1)%nat. split.
      + split; try done.
        * apply lookup_lt_Some in Hk. lia.
        * replace (take (k + 1) L) with (take k L ++ [op]); [destruct (rp_run _ _ Hst) as [t Ht]; by eapply rp_step|].
          replace (k + 1)%nat with (Datatypes.S k) by lia. by rewrite (take_S_r _ _ op).
        * destruct Happ as [->|(ch & r1 & ->)]; done.
      + by intros i d [_ ->]%Hsn.
    - destruct Ht as (m & Hm & Hr & Hq), Hf as (_ & Ha & Hs). destruct (Hr (state kv)) as (s & Hd & Hrep).
      rewrite Hd in Hs. injection Hs as ->.
      exists m. split; [|by intros i d [_ []]%Hsn]. split; try done; [lia|by rewrite Ha].
    - destruct Hf as [Hs Ha]. subst q'. exists k. split.
      + split; try done; [by rewrite Hs|]. destruct Ha as [-> | ->]; done.
      + intros i d [_ (ch & size & res & Hsend)]%Hsn. by rewrite Hsend in Hse.
    - destruct Hf as [Hs Ha]. subst q'. exists k. split; [|by intros i d [_ []]%Hsn].
      split; try done; [by rewrite Hs|]. destruct Ha as [-> | ->]; done.
    - destruct Hf as [Hs Ha]. subst q'. exists k. split; [|by intros i d [_ []]%Hsn].
      split; try done; [by rewrite Hs|]. destruct Ha as [-> | ->]; done. }
  split; [split; [by exists k2, k'|done]|]. split; [done|]. intros index data Hin.
  destruct (Hsn _ _ Hin) as [[size Hsize] _]. destruct Hpos as [Hle2 Hst2 Hfe2 _ _ _].
  pose proof (feeds_le _ _ _ _ _ Hfe2 Hle2). rewrite (Hidx _ _ Hin).
  exists k2, (state kv'), size. split_and!; try done. lia.
Qed.

Lemma emit_inv L i es X X' :
  0 <= i < n → world_inv n s0 L X → events_ok L (rf (peers (cluster X) i)) es → emit n i es X = Some X' →
  world_inv n s0 L X'.
Proof.
  intros Hi. revert X. induction es as [|[op err v|index data] es IH]; intros X Hw [Hr Hs] H; cbn in H.
  - by injection H as <-.
  - eapply IH; [|split|exact H].
    + apply log_event_inv; [done|]. intros j op' v' [= -> -> -> ->]. apply Hr. by left.
    + intros op' v' Hin. apply Hr. by right.
    + intros index data Hin. apply Hs. by right.
  - destruct (exec n _ _) as [w|] eqn:Hx; cbn [mbind option_bind] in H; [|done].
    destruct (Hs index data ltac:(by left)) as (k & s & size & -> & Hk & Hrun & Hsnap & Hap).
    pose proof (exec_idle n _ _ w i ltac:(lia) (bi_cluster _ _ (fi_basic _ _ (wi_full _ _ _ _ Hw))) Hx) as Hidle.
    eapply IH; [|split|exact H]; cbn.
    + rewrite <- (app_nil_r (trace X)). eapply quiet_step; try done; [lia| |by intros j op v ?%elem_of_nil].
      by eapply snapshot_serviced.
    + intros op v Hin. apply Hr. by right.
    + intros index' data' Hin. destruct (Hs index' data' ltac:(by right)) as (k2 & s2 & size2 & Hk2).
      exists k2, s2, size2. destruct Hidle as [-> _]; [done|done|]. exact Hk2.
Qed.

Lemma serve_inv L X X' i act f :
  0 <= i < n → world_inv n s0 L X → (∀ j, j ≠ i → f j = inbox X j) →
  (∀ k k', at_position s0 L (rf (peers (cluster X) i)) (server X i) (inbox X i) k k' → takes L k k' (inbox X i) (f i) act) →
  serve n i act (MkWorld (cluster X) (server X) f (trace X)) = Some X' → world_inv n s0 L X'.
Proof.
  intros Hi Hw Hf Ht H. unfold serve in H. cbn [server cluster trace inbox] in H.
  destruct (sexec act (server X i)) as [[kv es]|] eqn:E; cbn [mbind option_bind] in H; [|done].
  destruct (wi_server _ _ _ _ Hw i Hi) as [(k & k' & Hp) [owner Ho]].
  destruct (sexec_ok_at _ _ _ _ _ _ _ _ _ _ _ Hp Ho (Ht _ _ Hp) E) as [Hok Hev].
  refine (emit_inv L i es (MkWorld _ _ _ _) _ Hi _ Hev H). destruct Hw as [Hr Htop Hs Hex Hac]. split; try done.
  intros j Hj. cbn. destruct (decide (j = i)) as [->|Hne].
  - by rewrite fn_lookup_insert.
  - rewrite fn_lookup_insert_ne by done. rewrite Hf by done. by apply Hs.
Qed.

(** ** Steps of the world *)

Lemma take_message_inv L X X' i size :
  0 <= i < n → world_inv n s0 L X → take_message n i size X = Some X' → world_inv n s0 L X'.
Proof.
  intros Hi Hw H. unfold take_message in H. destruct (inbox X i) as [|msg rest] eqn:Eq; [done|].
  set (f := <[i:=rest]> (inbox X)) in H.
  assert (∀ j, j ≠ i → f j = inbox X j) as Hf by (intros j Hj; by apply fn_lookup_insert_ne).
  assert (f i = rest) as Hfi by apply fn_lookup_insert. clearbody f. subst rest.
  assert (∀ k k', at_position s0 L (rf (peers (cluster X) i)) (server X i) (inbox X i) k k' → feeds s0 L k (msg :: f i) k') as Hfe.
  { intros k k' [_ _ Hfe _ _ _]. by rewrite Eq in Hfe. }
  destruct (CommandValid msg) eqn:Ec.
  - destruct (MsgCommand msg) as [op|] eqn:Em; cbn [mbind option_bind] in H; [|done].
    eapply serve_inv; [done|exact Hw|exact Hf| |exact H]. intros k k' Hp.
    specialize (Hfe _ _ Hp). inversion Hfe as [|k1 op1 q k1' Hk Hq|]; subst; [|done].
    injection Em as ->. done.
  - destruct (SnapshotValid msg) eqn:Es.
    + eapply serve_inv; [done|exact Hw|exact Hf| |exact H]. intros k k' Hp.
      specialize (Hfe _ _ Hp). inversion Hfe as [| |k1 m data q k1' Hm Hr Hq]; subst; [done|]. by exists m.
    + exfalso. destruct (wi_server _ _ _ _ Hw i Hi) as [(k & k' & Hp) _].
      specialize (Hfe _ _ Hp). by inversion Hfe; subst.
Qed.

(** One peer and its server change; the trace does not. *)
Lemma replace_inv L X i p ts act sv q :
  0 <= i < n → world_inv n s0 L X → exec n act (cluster X) = Some (update (cluster X) i p ts) →
  called_by act = [] → serviced s0 (cluster X) act → server_ok s0 L (rf p) (sv i) q →
  (∀ j, j ≠ i → sv j = server X j) →
  world_inv n s0 L (MkWorld (update (cluster X) i p ts) sv (<[i := q]> (inbox X)) (trace X)).
Proof.
  intros Hi Hw Hx Hcall Hserv Hok Hsv. destruct (raft_step n s0 L X act _ ltac:(lia) Hw Hserv Hx) as [Hr Htop].
  rewrite Hcall, app_nil_r in Hr. destruct Hw as [_ _ Hs Hex Hac]. split; try done.
  intros j Hj. cbn [cluster server inbox]. rewrite peers_update. destruct (decide (j = i)) as [->|Hne].
  - by rewrite fn_lookup_insert, decide_True.
  - rewrite fn_lookup_insert_ne, decide_False, Hsv by done. by apply Hs.
Qed.

Lemma at_position_state L X i : 0 <= i < n → world_inv n s0 L X →
  ∃ k k' owner, at_position s0 L (rf (peers (cluster X) i)) (server X i) (inbox X i) k k'
    ∧ server_inv (result_at s0 L) (server X i) owner.
Proof. intros Hi Hw. destruct (wi_server _ _ _ _ Hw i Hi) as [(k & k' & Hp) [owner Ho]]. eauto. Qed.

(** The message that the applier sends continues the sequence, if the sequence is
    long enough. *)
Lemma sent_feeds L X i r1 msg : let r := rf (peers (cluster X) i) in
  0 <= i < n → world_inv n s0 L X → delivers r r1 msg →
  ∃ L', L `prefix_of` L' ∧ world_inv n s0 L' X
    ∧ ∀ k k' kv q, at_position s0 L' r kv q k k' → ∃ k2, feeds s0 L' k' (option_list msg) k2
        ∧ Z.of_nat k2 <= lastApplied r1 ∧ (RaftState.applier r1 ≠ PExit → lastApplied r1 = Z.of_nat k2).
Proof.
  intros r Hi Hw Hd. subst r. pose proof (wi_full _ _ _ _ Hw) as Hf. pose proof (wi_raft _ _ _ _ Hw) as Hr.
  destruct Hd as [Hle Hex|e Hx Hla He Hrange|Hx Hlt Hla].
  - exists L. split_and!; [done|done|]. intros k k' kv q [_ _ _ Hap Hexit _]. exists k'. split; [apply feeds_nil|].
    split; [lia|]. intros Hne. destruct (Hex Hne) as [-> ?]. auto.
  - destruct (committed_entry n _ i _ e Hf Hi He Hrange) as (Hc & Hroot & _ & T & Hb).
    destruct (ci_node _ _ (bi_cluster _ _ (fi_basic _ _ Hf)) i Hi) as (Hwf & _). pose proof (lw_first _ (nw_log _ Hwf)) as Hpos.
    assert (0 < lastApplied r1) as Hpos1 by lia. destruct (ri_command _ _ _ _ Hr _ _ Hb) as [op Hop]. cbn in Hop. rewrite Hop in *.
    destruct (path_exists _ _ (ri_command _ _ _ _ Hr) Hroot) as [ops Hp].
    destruct (extend n s0 L X _ _ ops ltac:(lia) Hw Hc Hp) as (L' & Hpre & Hw' & HL).
    exists L'. split_and!; [done|done|]. intros k k' kv q [Hk _ Hfe _ Hexit _]. specialize (Hexit Hx).
    destruct (path_last _ _ _ _ _ _ Hpos1 Hb Hp) as (ops' & -> & Hp'). pose proof (path_length _ _ _ Hp') as Hlen.
    cbn in Hlen. exists (k' + 1)%nat. replace (lastApplied r1) with (Z.of_nat (k' + 1)) by lia.
    split; [|done]. apply feeds_command; [|apply feeds_nil]. apply (prefix_lookup_Some (ops' ++ [op])); [|done].
    rewrite lookup_app_r by lia. by replace (k' - length ops')%nat with 0%nat by lia.
  - pose proof (cm_base _ _ _ _ (cv_peer _ _ (fi_commit _ _ Hf) i Hi)) as Hc.
    destruct (ri_mem _ _ _ _ Hr i Hi) as [Hz|(ops & Hp & Hres)].
    + exists L. split_and!; [done|done|]. intros k k' kv q [_ _ _ Hap _ _]. unfold msnap, base in Hz.
      injection Hz as _ Hz _. lia.
    + destruct (extend n s0 L X _ _ ops ltac:(lia) Hw Hc Hp) as (L' & Hpre & Hw' & HL).
      exists L'. split_and!; [done|done|]. intros k k' kv q [Hk _ Hfe _ Hexit _]. specialize (Hexit Hx).
      pose proof (path_length _ _ _ Hp) as Hlen. cbn in Hlen. pose proof (prefix_length _ _ Hpre).
      exists (length ops). replace (lastApplied r1) with (Z.of_nat (length ops)) by lia. split; [|done].
      eapply feeds_snapshot; [lia| |apply feeds_nil]. destruct Hpre as [l ->].
      by rewrite take_app_length.
Qed.

Lemma deliver_inv L X X' i :
  0 <= i < n → world_inv n s0 L X → deliver n i X = Some X' → ∃ L', L `prefix_of` L' ∧ world_inv n s0 L' X'.
Proof.
  intros Hi Hw H. unfold deliver in H.
  destruct (apply _) as [[r1 msg]|] eqn:Ha; cbn [mbind option_bind] in H; [|done].
  destruct (exec n _ _) as [w|] eqn:Hx; cbn [mbind option_bind] in H; [|done]. injection H as <-.
  destruct (ci_node _ _ (bi_cluster _ _ (fi_basic _ _ (wi_full _ _ _ _ Hw))) i Hi) as (Hwf & _).
  destruct (sent_feeds L X i r1 msg Hi Hw (apply_delivers_msg _ _ _ Hwf Ha)) as (L' & HL & Hw' & Hsent).
  exists L'. split; [done|]. pose proof Hx as Hx'. unfold exec in Hx'. destruct (negb (in_cluster n i)); [done|].
  rewrite Ha in Hx'. cbn [mbind option_bind] in Hx'. injection Hx' as <-.
  destruct (at_position_state L' X i Hi Hw') as (k & k' & owner & Hp & Ho).
  eapply replace_inv; [done|exact Hw'|exact Hx|done|done| |done]. destruct (Hsent _ _ _ _ Hp) as (k2 & Hfe & Hle & Hexit).
  destruct Hp as [Hk Hst Hq _ _ Hse]. split; [|by exists owner]. exists k, k2. split; try done. by eapply feeds_app.
Qed.

(** A server that starts again has the state of the snapshot on its disk, and its
    peer delivers what comes after it. *)
Lemma restart_inv L X X' i env :
  0 <= i < n → world_inv n s0 L X → restart n s0 i env X = Some X' → ∃ L', L `prefix_of` L' ∧ world_inv n s0 L' X'.
Proof.
  intros Hi Hw H. unfold restart in H.
  destruct (exec n _ _) as [w|] eqn:Hx; cbn [mbind option_bind] in H; [|done].
  destruct (sm_restore _ _) as [s|] eqn:Hs; cbn [mbind option_bind] in H; [|done]. injection H as <-.
  pose proof (wi_full _ _ _ _ Hw) as Hf. pose proof (wi_raft _ _ _ _ Hw) as Hr.
  destruct (ci_node _ _ (bi_cluster _ _ (fi_basic _ _ Hf)) i Hi) as (Hwf & Hme & Hnp).
  pose proof Hx as Hx'. unfold exec in Hx'. destruct (negb (in_cluster n i)); [done|].
  destruct (Make env n i _) as [r1|] eqn:Hm; cbn [mbind option_bind] in Hx'; [|done]. injection Hx' as <-.
  destruct (Make_stores env (rf (peers (cluster X) i)) r1 Hwf) as (Hd & Htop & Hla & _ & Hsn); [by rewrite Hnp, Hme|].
  rewrite peers_update, decide_True in Hs by done. cbn [rf] in Hs. change (ReadSnapshot (persister r1)) with (dsnap r1).1 in Hs.
  rewrite Hd in Hs.
  assert (lastApplied r1 = (dsnap (rf (peers (cluster X) i))).2.1) as Hla'.
  { rewrite Hla. change (firstIdx (log r1)) with (msnap r1).2.1. destruct Hsn as [->|[-> Hz]]; [done|].
    unfold dsnap, dlog. by rewrite Hz. }
  assert (∃ L' k, L `prefix_of` L' ∧ world_inv n s0 L' X ∧ (k <= length L')%nat ∧ replica (take k L') s
    ∧ lastApplied r1 = Z.of_nat k) as (L' & k & HL & Hw' & Hk & Hrun & Hk').
  { destruct (ri_disk _ _ _ _ Hr i Hi) as [Hz|(ops & Hp & Hres)].
    - exists L, 0%nat. rewrite Hz in Hs. cbn in Hs. rewrite rp_nil in Hs. injection Hs as <-.
      split_and!; [done|done|lia|apply rp_start|]. by rewrite Hla', Hz.
    - destruct (Hres s0) as (s1 & Hs1 & Hrep). rewrite Hs1 in Hs. injection Hs as ->.
      pose proof (cm_disk _ _ _ _ (cv_peer _ _ (fi_commit _ _ Hf) i Hi)) as Hc.
      destruct (extend n s0 L X _ _ ops ltac:(lia) Hw Hc Hp) as (L' & Hpre & Hw' & HL).
      exists L', (length ops). pose proof (prefix_length _ _ Hpre). split_and!; [done|done|done| |].
      + destruct Hpre as [l ->]. by rewrite take_app_length.
      + rewrite Hla'. by apply path_length in Hp. }
  exists L'. split; [done|].
  eapply replace_inv; [done|exact Hw'|exact Hx|done|done| |intros j Hj; by apply fn_lookup_insert_ne].
  rewrite fn_lookup_insert. split; [|exists ∅; apply start_server_inv]. exists k, k.
  split; try done; [apply feeds_nil|cbn; lia].
Qed.

Lemma rpc_inv L X X' i op : 0 <= i < n → world_inv n s0 L X → rpc n i op X = Some X' → world_inv n s0 L X'.
Proof.
  intros Hi Hw H. unfold rpc in H.
  assert (∀ X1 index leader, world_inv n s0 L X1 → serve n i (SRpc op index leader) X1 = Some X' → world_inv n s0 L X') as Hserve.
  { intros X1 index leader Hw1 H1. eapply (serve_inv L X1 X' i (SRpc op index leader) (inbox X1)); [done..|].
    by destruct X1. }
  destruct (sm_cached _ op); [by eapply Hserve, H; apply log_event_inv|].
  destruct (Start _ _) as [[[r1 [[index T] leader]] sp]|] eqn:Hst; cbn [mbind option_bind] in H; [|done].
  cbn [cluster log_event server inbox trace] in H.
  destruct (exec n _ _) as [w|] eqn:Hx; cbn [mbind option_bind] in H; [|done].
  eapply Hserve; [|exact H]. eapply quiet_step; [lia|exact Hw|..|exact Hx| | | |]; try done.
  by intros j o v ?%list_elem_of_singleton.
Qed.

Lemma wexec_inv L act X X' :
  0 <= n → world_inv n s0 L X → wexec n s0 act X = Some X' → ∃ L', L `prefix_of` L' ∧ world_inv n s0 L' X'.
Proof.
  intros Hn Hw H.
  assert (∀ i, in_cluster n i = true → 0 <= i < n) as Hin.
  { intros i Hi. apply in_cluster_spec. by rewrite Hi. }
  assert (∀ i sact, serve n i sact X = Some X' → in_cluster n i = true →
    match sact with SCommand _ _ _ | SSnapshot _ => False | _ => True end → world_inv n s0 L X') as Hserve.
  { intros i sact Hx Hi Hs. eapply (serve_inv L X X' i sact (inbox X)); [by apply Hin|done|done| |by destruct X].
    intros k k' _. by destruct sact. }
  destruct act as [act|i|i size|i op|i k|i k|i k|i env]; cbn [wexec] in H;
    try (destruct (in_cluster n i) eqn:Hi; [|done]).
  - destruct (internal act) eqn:Hint; [|done].
    destruct (exec n act _) as [w|] eqn:Hx; cbn [mbind option_bind] in H; [|done]. injection H as <-.
    exists L. split; [done|]. rewrite <- (app_nil_r (trace X)).
    destruct act; try done; refine (quiet_step n s0 L X _ w [] Hn Hw _ Hx _ _ _ _); try done.
    all: by intros j op v ?%elem_of_nil.
  - eapply deliver_inv; [by apply Hin|done|done].
  - exists L. split; [done|]. eapply take_message_inv; [by apply Hin|done|done].
  - exists L. split; [done|]. eapply rpc_inv; [by apply Hin|done|done].
  - exists L. split; [done|]. by eapply Hserve.
  - exists L. split; [done|]. by eapply Hserve.
  - exists L. split; [done|]. by eapply Hserve.
  - eapply restart_inv; [by apply Hin|done|done].
Qed.

Lemma run_inv L X X' :
  0 <= n → world_inv n s0 L X → rtc (wstep n s0) X X' → ∃ L', L `prefix_of` L' ∧ world_inv n s0 L' X'.
Proof.
  intros Hn Hw Hr. revert L Hw. induction Hr as [X|X1 X2 X3 [act Hs] _ IH]; intros L Hw; [by exists L|].
  destruct (wexec_inv _ _ _ _ Hn Hw Hs) as (L2 & Hp2 & Hw2). destruct (IH L2 Hw2) as (L3 & Hp3 & Hw3).
  exists L3. split; [by etrans|done].
Qed.

Lemma wreachable_inv X : 0 <= n → wreachable n s0 X → ∃ L, world_inv n s0 L X.
Proof.
  intros Hn [envs Hr]. destruct (run_inv [] _ _ Hn (world_inv_init n s0 envs Hn) Hr) as (L & _ & Hw). by exists L.
Qed.

(** C6: replication.  In every run of a service on a cluster of any size, with
    messages lost and reordered, crashes, restarts, elections, snapshots and RPC
    handlers that wait and time out, one sequence of operations accounts for
    everything: the operations are ones that RPCs brought, in the order in which the
    RPCs arrived; every server is a replica after a prefix of the sequence (in the very state after it,
    for a service whose replicas agree); every
    reply [OK] carries a result of the operation in the sequence; and at every moment
    of the run a prefix of the sequence did so for what had happened by then, so an
    operation that is called after a reply comes after the one replied to. *)
Theorem replicated_service X :
  0 <= n → wreachable n s0 X →
  ∃ L, accounts s0 L (trace X)
    ∧ ∀ i, 0 <= i < n → ∃ k, (k <= length L)%nat ∧ replica (take k L) (state (server X i)).
Proof.
  intros Hn Hr. destruct (wreachable_inv X Hn Hr) as (L & [_ _ Hs _ Ha]). exists L. split; [done|].
  intros i Hi. destruct (Hs i Hi) as [(k & k' & [Hle Hst _ _ _ _]) _]. by exists k.
Qed.
End steps.
