(* ===== verification/Sessions.v ===== *)
(** * Services that act once per operation

    kvraft and shardctrler remember the last operation of every client and its
    result, and do not apply it again.  [Session] is the interface of such a service:
    a core that knows nothing of clients, and what is remembered.  On logs in which
    every client's operations are in the order of their numbers, the service acts on
    its core once per operation; on a cluster it is linearizable. *)

From S2P Require Import Prelude Util Labgob RaftState RaftHandlers RaftLeader RaftNode RaftCluster OpServer Replicated ReplicatedInv ReplicatedSteps.

(** ** Logs with repetitions *)

Section firsts.
Context {Op : Type} `{!EqDecision Op}.
Implicit Types (ops : list Op).

(** The operations of a log without repetitions, in the order of their first
    occurrence. *)
Definition first_step (acc : list Op) (op : Op) : list Op :=
  if decide (op ∈ acc) then acc else acc ++ [op].
Definition firsts ops : list Op := foldl first_step [] ops.

Lemma firsts_snoc ops op : firsts (ops ++ [op]) = first_step (firsts ops) op.
Proof. unfold firsts. by rewrite foldl_app. Qed.

Lemma elem_of_firsts ops op : op ∈ firsts ops ↔ op ∈ ops.
Proof.
  induction ops as [|x ops IH] using rev_ind; [done|]. rewrite firsts_snoc. unfold first_step.
  case_decide; rewrite !elem_of_app, list_elem_of_singleton; rewrite ?IH in *; naive_solver.
Qed.

Lemma NoDup_firsts ops : NoDup (firsts ops).
Proof.
  induction ops as [|op ops IH] using rev_ind; [constructor|]. rewrite firsts_snoc. unfold first_step.
  case_decide; [done|]. apply NoDup_app. split_and!; [done| |apply NoDup_singleton].
  intros x Hx ->%list_elem_of_singleton. done.
Qed.

Lemma firsts_prefix l l' : firsts l `prefix_of` firsts (l ++ l').
Proof.
  induction l' as [|op l' IH] using rev_ind; [by rewrite app_nil_r|].
  rewrite (assoc_L (++)), firsts_snoc. etrans; [exact IH|]. unfold first_step. case_decide; [done|]. by exists [op].
Qed.

(** The place of an operation among the first occurrences. *)
Lemma firsts_place l1 op l2 : op ∉ l1 →
  firsts (l1 ++ op :: l2) !! length (firsts l1) = Some op
  ∧ take (length (firsts l1)) (firsts (l1 ++ op :: l2)) = firsts l1.
Proof.
  intros Hop. destruct (firsts_prefix (l1 ++ [op]) l2) as [r Hr].
  replace (l1 ++ op :: l2) with ((l1 ++ [op]) ++ l2) by by rewrite <- (assoc_L (++)).
  rewrite Hr, firsts_snoc. unfold first_step. rewrite decide_False by by rewrite elem_of_firsts.
  rewrite <- (assoc_L (++)). change ([op] ++ r) with (op :: r). split; [by rewrite list_lookup_middle|by rewrite take_app_length].
Qed.

End firsts.

Section order.
Context {Op : Type} (client number : Op → Z).
Implicit Types (ops : list Op).

Definition client_before (a b : Op) : Prop :=
  client a = client b → number a <= number b ∧ (number a = number b → a = b).

(** A client's operations enter the log in the order of their numbers,
    repetitions of the last one included. *)
Definition client_order ops : Prop :=
  ∀ (i j : nat) a b, (i <= j)%nat → ops !! i = Some a → ops !! j = Some b → client_before a b.

Lemma client_order_prefix ops ops' : client_order (ops ++ ops') → client_order ops.
Proof. intros H i j a b Hij Hi Hj. apply (H i j); [done|by apply lookup_app_l_Some..]. Qed.

Lemma client_order_cons a ops :
  client_order (a :: ops) ↔ client_order ops ∧ ∀ b, b ∈ ops → client_before a b.
Proof.
  split.
  - intros H. split.
    + intros i j x y Hij Hi Hj. by apply (H (S i) (S j)); [lia|..].
    + intros b [j Hj]%list_elem_of_lookup. by apply (H 0%nat (S j)); [lia|..].
  - intros [H Ha] [|i] [|j] x y Hij Hi Hj; cbn in *; simplify_eq; [done| |lia|by apply (H i j); [lia|..]].
    apply Ha. by eapply list_elem_of_lookup_2.
Qed.

Lemma client_order_sublist ops ops' : ops `sublist_of` ops' → client_order ops' → client_order ops.
Proof.
  induction 1 as [|a l1 l2 Hs IH|a l1 l2 Hs IH]; [done| |].
  - rewrite !client_order_cons. intros [H Ha]. split; [auto|]. intros b Hb. apply Ha. by eapply sublist_subseteq.
  - rewrite client_order_cons. intros [H _]. auto.
Qed.

Lemma client_order_pair a b : client a ≠ client b → client_order [a; b].
Proof.
  intros Hab. rewrite !client_order_cons. split_and!.
  - intros i j x y _ Hx. by rewrite lookup_nil in Hx.
  - intros x ?%elem_of_nil. done.
  - by intros x ->%list_elem_of_singleton.
Qed.

(** The last operation of a client in the log. *)
Definition last_of ops (c : Z) : option Op := last (filter (λ o, client o = c) ops).

Lemma last_of_snoc ops op c :
  last_of (ops ++ [op]) c = if decide (client op = c) then Some op else last_of ops c.
Proof.
  unfold last_of. rewrite filter_app, filter_cons, filter_nil. case_decide; [by rewrite last_snoc|].
  by rewrite app_nil_r.
Qed.

Lemma last_of_elem ops c op : last_of ops c = Some op → op ∈ ops ∧ client op = c.
Proof. unfold last_of. intros [? ?]%last_Some_elem_of%list_elem_of_filter. done. Qed.

(** In an ordered log an operation that is not the last of its client is new. *)
Lemma not_last_new ops op :
  client_order (ops ++ [op]) → last_of ops (client op) ≠ Some op → op ∉ ops.
Proof.
  intros Ho Hl Hin. apply Hl. unfold last_of.
  destruct (last (filter _ ops)) as [a|] eqn:E.
  - apply last_Some in E as [l' E].
    assert (a ∈ filter (λ o, client o = client op) ops) as Ha by (rewrite E; set_solver).
    apply list_elem_of_filter in Ha as [Hca [ja Hja]%list_elem_of_lookup].
    (* the occurrence of [op] is not after the last operation of the client *)
    assert (op ∈ l' ++ [a]) as Hop by (rewrite <- E; by apply list_elem_of_filter).
    assert (length (ops ++ [op]) = S (length ops)) as Hlen by (rewrite length_app; cbn; lia).
    destruct (Ho ja (length ops) a op) as [Hle Heq].
    { apply lookup_lt_Some in Hja. lia. }
    { by apply lookup_app_l_Some. }
    { by apply list_lookup_middle. }
    { done. }
    apply elem_of_app in Hop as [Hop|Hop%list_elem_of_singleton]; [|by subst].
    destruct (filter_order (λ o, client o = client op) ops l' a op E Hop) as (i & j & Hij & Hi & Hj).
    destruct (Ho i j op a) as [Hle' _]; [lia|by apply lookup_app_l_Some..|done|].
    rewrite Heq; [done|lia].
  - apply last_None in E. assert (op ∈ filter (λ o, client o = client op) ops) as Hf by by apply list_elem_of_filter.
    rewrite E in Hf. by apply elem_of_nil in Hf.
Qed.
End order.

(** ** The interface *)

(** A client's operations and their numbers; the core of the state; the last
    operation of a client with what is remembered of its result; what an operation
    does to the core, with the reply and what is remembered. *)
Class Session (S Op V K : Type) := {
  op_client : Op → Z;
  op_number : Op → Z;
  core : S → K;
  last_op : S → Z → option (Op * V);
  core_apply : K → Op → option (K * (Err * V) * V);
}.

Class SessionLaws (S Op V K : Type) `{!StateMachine S Op V, !Session S Op V K} := {
  ss_same (op op' : Op) : sm_same op op' = true → op_client op = op_client op' ∧ op_number op = op_number op';
  ss_refl (op : Op) : sm_same op op = true;
  (** a repetition of the last operation is not applied *)
  ss_dup (s : S) op o v : last_op s (op_client op) = Some (o, v) → sm_same op o = true →
    ∃ v', sm_apply s op = Some (s, (ErrDuplicate, v'));
  (** any other is, and is remembered *)
  ss_new (s : S) op s' r : (∀ o v, last_op s (op_client op) = Some (o, v) → sm_same op o = false) →
    sm_apply s op = Some (s', r) → ∃ v, core_apply (core s) op = Some (core s', r, v)
      ∧ ∀ c, last_op s' c = if decide (c = op_client op) then Some (op, v) else last_op s c;
  ss_cached (s : S) op v : sm_cached s op = Some v → ∃ o, last_op s (op_client op) = Some (o, v) ∧ sm_same op o = true;
}.

Section session.
Context {S Op V K : Type} `{!StateMachine S Op V, !Session S Op V K, !SessionLaws S Op V K, !EqDecision Op}.
Context (s0 : S) (Hs0 : ∀ c, last_op s0 c = None).
Implicit Types (ops : list Op).

Local Abbreviation ordered := (client_order op_client op_number).

(** The core after each operation of a sequence. *)
Fixpoint run_core (k : K) ops : option K :=
  match ops with
  | [] => Some k
  | op :: ops => '(k, _, _) ← core_apply k op; run_core k ops
  end.

(** A value that the service may answer to [op] when its core is [k]: the result, or
    what it remembers of it. *)
Definition answer (k : K) (op : Op) (v : V) : Prop :=
  ∃ k' err v' u, core_apply k op = Some (k', (err, v'), u) ∧ (err = OK ∧ v = v' ∨ v = u).

Lemma run_core_app k ops ops' : run_core k (ops ++ ops') = (k' ← run_core k ops; run_core k' ops').
Proof.
  revert k. induction ops as [|op ops IH]; intros k; cbn; [done|].
  destruct (core_apply k op) as [[[k1 r] u]|]; cbn; [apply IH|done].
Qed.

Lemma run_ops_snoc_inv ops op s' : run_ops s0 (ops ++ [op]) = Some s' →
  ∃ s r, run_ops s0 ops = Some s ∧ sm_apply s op = Some (s', r).
Proof using Type.
  rewrite run_ops_app. destruct (run_ops s0 ops) as [s|]; cbn; [|done].
  destruct (sm_apply s op) as [[s1 r]|] eqn:E; cbn; [|done]. intros [= ->]. by exists s, r.
Qed.

(** In an ordered log operations with one number are one operation. *)
Lemma same_equal ops a b : ordered ops → a ∈ ops → b ∈ ops →
  op_client a = op_client b → op_number a = op_number b → a = b.
Proof using Type.
  intros Ho [i Hi]%list_elem_of_lookup [j Hj]%list_elem_of_lookup Hc Hn.
  destruct (le_ge_dec i j) as [Hij|Hij]; [by apply (Ho i j a b Hij Hi Hj)|].
  symmetry. by apply (Ho j i b a Hij Hj Hi).
Qed.

(** What the service remembers is the last operation of the client, and what an
    operation does depends on whether it is new. *)
Lemma session_step ops op s :
  ordered (ops ++ [op]) → run_ops s0 ops = Some s → (∀ c, fst <$> last_op s c = last_of op_client ops c) →
  (op ∈ ops → ∃ v, sm_apply s op = Some (s, (ErrDuplicate, v)) ∧ last_of op_client ops (op_client op) = Some op)
  ∧ (op ∉ ops → ∀ o v, last_op s (op_client op) = Some (o, v) → sm_same op o = false).
Proof using All.
  intros Ho Hrun Hlast. specialize (Hlast (op_client op)).
  assert (∀ o v, last_op s (op_client op) = Some (o, v) → sm_same op o = true → o = op ∧ o ∈ ops) as Hsame.
  { intros o v Hl Hs. rewrite Hl in Hlast. cbn in Hlast. symmetry in Hlast.
    apply last_of_elem in Hlast as [Hin _]. destruct (ss_same _ _ Hs). split; [|done].
    eapply same_equal; [exact Ho|apply elem_of_app; by left|apply elem_of_app; right; by left|done|done]. }
  split.
  - intros Hin. destruct (decide (last_of op_client ops (op_client op) = Some op)) as [Hl|Hl];
      [|by destruct (not_last_new _ _ _ _ Ho Hl)].
    rewrite Hl in Hlast. destruct (last_op s (op_client op)) as [[o v]|] eqn:El; [|done]. cbn in Hlast. injection Hlast as ->.
    destruct (ss_dup _ _ _ _ El (ss_refl op)) as [v' ?]. by exists v'.
  - intros Hnew o v Hl. destruct (sm_same op o) eqn:Es; [exfalso|done]. destruct (Hsame _ _ Hl Es) as [-> ?]. done.
Qed.

Lemma session_last ops s : ordered ops → run_ops s0 ops = Some s →
  ∀ c, fst <$> last_op s c = last_of op_client ops c.
Proof using All.
  revert s. induction ops as [|op ops IH] using rev_ind; intros s' Ho Hrun c.
  { injection Hrun as <-. by rewrite Hs0. }
  destruct (run_ops_snoc_inv _ _ _ Hrun) as (s & r & Hs & Ha).
  specialize (IH s (client_order_prefix _ _ _ _ Ho) Hs). destruct (session_step _ _ _ Ho Hs IH) as [Hdup Hnew].
  rewrite last_of_snoc. destruct (decide (op ∈ ops)) as [Hin|Hin].
  - destruct (Hdup Hin) as (v & Ha2 & Hl). rewrite Ha in Ha2. injection Ha2 as -> _. rewrite IH.
    case_decide as Hc; [by subst c|done].
  - destruct (ss_new _ _ _ _ (Hnew Hin) Ha) as (v & _ & ->). rewrite (decide_ext (c = op_client op) (op_client op = c)) by done.
    case_decide; [done|apply IH].
Qed.

(** What an operation of an ordered log does, at its first occurrence and later. *)
Lemma session_apply ops op s s' r :
  ordered (ops ++ [op]) → run_ops s0 ops = Some s → sm_apply s op = Some (s', r) →
  (op ∈ ops → s' = s ∧ r.1 = ErrDuplicate)
  ∧ (op ∉ ops → ∃ v, core_apply (core s) op = Some (core s', r, v)
       ∧ ∀ c, last_op s' c = if decide (c = op_client op) then Some (op, v) else last_op s c).
Proof using All.
  intros Ho Hs Ha. pose proof (session_last _ _ (client_order_prefix _ _ _ _ Ho) Hs) as Hl.
  destruct (session_step _ _ _ Ho Hs Hl) as [Hdup Hnew]. split.
  - intros Hin. destruct (Hdup Hin) as (v & Ha2 & _). rewrite Ha in Ha2. by injection Ha2 as -> ->.
  - intros Hin. eapply ss_new; [|exact Ha]. by apply Hnew.
Qed.

(** The core is that of the log without repetitions. *)
Lemma session_core ops s : ordered ops → run_ops s0 ops = Some s → run_core (core s0) (firsts ops) = Some (core s).
Proof using All.
  revert s. induction ops as [|op ops IH] using rev_ind; intros s' Ho Hrun; [by injection Hrun as <-|].
  destruct (run_ops_snoc_inv _ _ _ Hrun) as (s & r & Hs & Ha).
  specialize (IH s (client_order_prefix _ _ _ _ Ho) Hs). destruct (session_apply _ _ _ _ _ Ho Hs Ha) as [Hdup Hnew].
  rewrite firsts_snoc. unfold first_step. rewrite (decide_ext (op ∈ firsts ops) (op ∈ ops)) by apply elem_of_firsts.
  case_decide as Hin; [by destruct (Hdup Hin) as [-> _]|]. destruct (Hnew Hin) as (v & Hc & _).
  rewrite run_core_app, IH. cbn. by rewrite Hc.
Qed.

(** What is remembered is the result of the first occurrence. *)
Lemma session_result ops s c op v : ordered ops → run_ops s0 ops = Some s → last_op s c = Some (op, v) →
  ∃ l1 l2 s1 s2 r, ops = l1 ++ op :: l2 ∧ op ∉ l1 ∧ run_ops s0 l1 = Some s1
    ∧ core_apply (core s1) op = Some (core s2, r, v).
Proof using All.
  revert s. induction ops as [|o ops IH] using rev_ind; intros s' Ho Hrun Hl.
  { injection Hrun as <-. by rewrite Hs0 in Hl. }
  destruct (run_ops_snoc_inv _ _ _ Hrun) as (s & r & Hs & Ha).
  specialize (IH s (client_order_prefix _ _ _ _ Ho) Hs). destruct (session_apply _ _ _ _ _ Ho Hs Ha) as [Hdup Hnew].
  assert (last_op s c = Some (op, v) → ∃ l1 l2 s1 s2 r, ops ++ [o] = l1 ++ op :: l2 ∧ op ∉ l1 ∧ run_ops s0 l1 = Some s1
    ∧ core_apply (core s1) op = Some (core s2, r, v)) as Hold.
  { intros H. destruct (IH H) as (l1 & l2 & s1 & s2 & r1 & -> & ?). exists l1, (l2 ++ [o]), s1, s2, r1.
    by rewrite <- (assoc_L (++)). }
  destruct (decide (o ∈ ops)) as [Hin|Hin]; [destruct (Hdup Hin) as [-> _]; by apply Hold|].
  destruct (Hnew Hin) as (u & Hc & Hl2). rewrite Hl2 in Hl. case_decide; [|by apply Hold].
  injection Hl as -> ->. by exists ops, [], s, s', r.
Qed.

(** An explained reply is an answer to the first occurrence of its operation. *)
Lemma answered_first L op v : ordered L → answered s0 L op v →
  ∃ l1 o l2 k, L = l1 ++ o :: l2 ∧ o ∉ l1 ∧ sm_same op o = true
    ∧ run_core (core s0) (firsts l1) = Some k ∧ answer k o v.
Proof using All.
  intros Ho [(j & o & s & s' & Hj & Hsame & Hr & Ha)|(j & s & Hj & Hr & Hc)].
  - pose proof (take_drop_middle _ _ _ Hj) as HL.
    assert (ordered (take j L ++ [o])) as Ho'.
    { eapply client_order_prefix. rewrite <- (assoc_L (++)). cbn. by rewrite HL. }
    destruct (session_apply _ _ _ _ _ Ho' Hr Ha) as [Hdup Hnew].
    destruct (decide (o ∈ take j L)) as [Hin|Hin]; [by destruct (Hdup Hin)|].
    destruct (Hnew Hin) as (u & Hca & _). exists (take j L), o, (drop (Datatypes.S j) L), (core s).
    split_and!; [done|done|done|by apply session_core; [eapply client_order_prefix|]|]. exists (core s'), OK, v, u. auto.
  - destruct (ss_cached _ _ _ Hc) as (o & Hl & Hsame).
    assert (ordered (take j L)) as Ho' by (eapply client_order_prefix; by rewrite take_drop).
    destruct (session_result _ _ _ _ _ Ho' Hr Hl) as (l1 & l2 & s1 & s2 & r & Hl12 & Hin & Hr1 & Hca).
    exists l1, o, (l2 ++ drop j L), (core s1). split_and!; [|done|done| |].
    + rewrite <- (take_drop j L) at 1. rewrite Hl12. by rewrite <- (assoc_L (++)).
    + apply session_core; [|done]. rewrite Hl12 in Ho'. by eapply client_order_prefix.
    + destruct r as [err v']. exists (core s2), err, v', v. auto.
Qed.

(** ** Linearizability *)

(** A linearization of the replies [OK] of a trace from the core [k0]: operations
    that were called, each once; every reply is an answer to its operation after
    those before it; operations called after a reply come later. *)
Record linearization (k0 : K) (tr : list (WEvent Op V)) (ops : list Op) : Prop := {
  ln_once : NoDup ops;
  ln_called op : op ∈ ops → op ∈ calls tr;
  ln_reply i op v : WReply i op OK v ∈ tr → ∃ j o k, ops !! j = Some o ∧ sm_same op o = true
    ∧ run_core k0 (take j ops) = Some k ∧ answer k o v;
  ln_real_time t1 t2 i op v o j op' j' : tr = t1 ++ t2 → WReply i op OK v ∈ t1 → sm_same op o = true →
    ops !! j = Some o → op' ∉ calls t1 → ops !! j' = Some op' → (j < j')%nat;
}.

Lemma accounts_linearization L tr :
  ordered (calls tr) → explains s0 L tr → accounts s0 L tr → linearization (core s0) tr (firsts L).
Proof using All.
  intros Hcalls [Hsub Hrep] Hacc. pose proof (client_order_sublist _ _ _ _ Hsub Hcalls) as HoL. split.
  - apply NoDup_firsts.
  - intros op. rewrite elem_of_firsts. by apply sublist_subseteq.
  - intros i op v Hin. destruct (answered_first L op v HoL (Hrep _ _ _ Hin)) as (l1 & o & l2 & k & -> & Hl1 & Hs & Hk & Ha).
    destruct (firsts_place l1 o l2 Hl1) as [Hj Htake]. exists (length (firsts l1)), o, k. by rewrite Htake.
  - intros t1 t2 i op v o j op' j' Heq Hin Hs Hj Hno Hj'. destruct (Hacc t1 t2 Heq) as (L1 & [r ->] & Hsub1 & Hrep1).
    pose proof (client_order_prefix _ _ _ _ HoL) as Ho1. destruct (firsts_prefix L1 r) as [q Hq].
    destruct (answered_first L1 op v Ho1 (Hrep1 _ _ _ Hin)) as (l1 & o1 & l2 & _ & HL1 & _ & Hs1 & _).
    assert (o1 ∈ firsts L1) as Ho1in by (rewrite elem_of_firsts, HL1; set_solver).
    assert (o ∈ L1 ++ r) as Hoin by (apply elem_of_firsts; by eapply list_elem_of_lookup_2).
    assert (o = o1) as ->.
    { destruct (ss_same _ _ Hs), (ss_same _ _ Hs1). eapply same_equal; [exact HoL|done| |congruence|congruence].
      apply elem_of_app. left. by apply elem_of_firsts. }
    apply list_elem_of_lookup in Ho1in as [k Hk]. pose proof (lookup_lt_Some _ _ _ Hk).
    assert (j = k) as ->.
    { apply (NoDup_lookup (firsts (L1 ++ r)) j k o1); [apply NoDup_firsts|exact Hj|]. rewrite Hq. by apply lookup_app_l_Some. }
    destruct (decide (j' < length (firsts L1))%nat) as [Hlt|]; [exfalso|lia]. apply Hno.
    rewrite Hq, lookup_app_l in Hj' by done. apply list_elem_of_lookup_2 in Hj'. rewrite elem_of_firsts in Hj'.
    exact (sublist_subseteq _ _ Hsub1 _ Hj').
Qed.
End session.
