(* ===== verification/Labrpc.v ===== *)
(** * Package [labrpc] (labs/src/labrpc/labrpc.go): the simulated network

    Clients call methods of servers through named ends.  A call is a goroutine
    of the client that hands its request to the network and waits; the network
    processes the request in a goroutine of its own ([processReq]) and the
    handler runs in a third.  The three are one record per call ([CallRec]) with
    the places they have reached; [own] is one step of them, between two points
    where they wait or take a lock, [admin] a call of one of the network's own
    methods, [net_exec] a step of the whole.

    Types and values of the messages are parameters ([GoTypes]: reflection and
    gob), as are the names of ends and servers (Go has [interface{}]).  The bodies of
    the handlers belong to the servers: when and with what reply a handler
    returns is an input ([Return]). *)

From S2P Require Import Prelude Labgob.
From Stdlib Require Import Ascii.

(** ** Types and values

    [val t] are the values of the type [t]; [ptr_elem t] is the element type of a
    pointer type.  [gob_enc] is what [Encode] leaves in an empty buffer and whether it
    succeeds; [gob_dec t b x] what [Decode] makes of a variable that holds [x]
    (gob leaves fields alone that the bytes do not mention), and whether it succeeds. *)
Class GoTypes := {
  ty : Type;
  ty_eq_dec :: EqDecision ty;
  val : ty → Type;
  zero t : val t;
  ptr_elem : ty → option ty;
  gob_enc t : val t → bytes * bool;
  gob_dec t : bytes → val t → val t * bool;
}.

(** Decoding an encoded value into a zero variable of its type gives the value. *)
Class GoLaws `{!GoTypes} := {
  gob_enc_ok t (x : val t) : (gob_enc t x).2 = true;
  gob_dec_enc t (x : val t) : gob_dec t (gob_enc t x).1 (zero t) = (x, true);
}.

(** A value with its type, an [interface{}]. *)
Record any `{!GoTypes} := Any { any_ty : ty; any_val : val any_ty }.
Arguments Any {_} _ _.

(** ** Results of a step

    A step can be impossible for now, stop the process (a panic or
    [log.Fatalf]), or be taken. *)
Inductive Outcome (A : Type) := Blocked | Exit | Next (x : A).
Arguments Blocked {A}.
Arguments Exit {A}.
Arguments Next {A} x.

#[global] Instance Outcome_bind : MBind Outcome := λ A B k o,
  match o with Blocked => Blocked | Exit => Exit | Next x => k x end.
#[global] Instance Outcome_ret : MRet Outcome := λ A x, Next x.

(** The process stops unless [o] has a value; the step waits unless [b]. *)
Definition or_exit {A} (o : option A) : Outcome A := match o with Some x => Next x | None => Exit end.
Definition when {A} (b : bool) (o : Outcome A) : Outcome A := if b then o else Blocked.

(** ** Machine integers *)

Definition wrap (bits x : Z) : Z := (x + 2 ^ (bits - 1)) `mod` 2 ^ bits - 2 ^ (bits - 1).

(** ** Strings *)

(** [strings.LastIndex(s, ".")] *)
Fixpoint LastIndex (s : string) : Z :=
  match s with
  | EmptyString => -1
  | String c s =>
    let i := LastIndex s in
    if i >=? 0 then i + 1 else if Ascii.eqb c "."%char then 0 else -1
  end.

(** [s[:i]] and [s[i:]] *)
Definition string_to (s : string) (i : Z) : option string :=
  if (0 <=? i) && (i <=? Z.of_nat (String.length s)) then Some (String.substring 0 (Z.to_nat i) s) else None.
Definition string_from (s : string) (i : Z) : option string :=
  if (0 <=? i) && (i <=? Z.of_nat (String.length s))
  then Some (String.substring (Z.to_nat i) (String.length s - Z.to_nat i) s) else None.

Section labrpc.
Context `{!GoTypes} {Name : Type} `{Countable Name}.

(** ** Messages *)

Record reqMsg := MkReq { endname : Name; svcMeth : string; argsType : ty; args : bytes }.
Record replyMsg := MkReply { ok : bool; reply : bytes }.

Definition failed : replyMsg := MkReply false [].

(** ** Services and servers *)

(** What [reflect.Method] says of a method; [Ins] has the receiver first. *)
Record Method := MkMethod { mname : string; PkgPath : string; Ins : list ty; NumOut : Z }.

Record Service := MkService { name : string; methods : gmap string Method }.

(** The method can be a handler: exported, two parameters, the second a
    pointer, no result. *)
Definition suitable (m : Method) : bool :=
  (bool_decide (PkgPath m = ""%string)) && (go_len (Ins m) =? 3)
  && (match Ins m !! 2%nat with Some t => bool_decide (is_Some (ptr_elem t)) | None => false end)
  && (NumOut m =? 0).

Definition MakeService (typeName : string) (ms : list Method) : Service :=
  MkService typeName (foldl (λ acc m, if suitable m then <[mname m := m]> acc else acc) ∅ ms).

Record Server := MkServer { services : gmap string Service; srv_count : Z }.

Definition MakeServer : Server := MkServer ∅ 0.

Definition AddService (rs : Server) (svc : Service) : Server :=
  MkServer (<[name svc := svc]> (services rs)) (srv_count rs).

(** [Service.dispatch] up to the call of the method: the type of the reply
    variable and the decoded argument.  An error of [Decode] is not looked at.
    [reflect.Call] refuses an argument of another type. *)
Definition Service_dispatch (svc : Service) (methname : string) (req : reqMsg) : option (ty * any) :=
  method ← methods svc !! methname;
  let a := (gob_dec (argsType req) (args req) (zero (argsType req))).1 in
  replyType ← Ins method !! 2%nat;
  replyType ← ptr_elem replyType;
  t ← Ins method !! 1%nat;
  if decide (t = argsType req) then Some (replyType, Any (argsType req) a) else None.

(** The rest of it, after the method has returned with [v] in the reply variable. *)
Definition encode_reply (v : any) : replyMsg := MkReply true (gob_enc (any_ty v) (any_val v)).1.

(** ["Raft.AppendEntries"] into service and method *)
Definition split_method (s : string) : option (string * string) :=
  let dot := LastIndex s in
  serviceName ← string_to s dot;
  methodName ← string_from s (dot + 1);
  Some (serviceName, methodName).

(** A call of a handler: server, service, method, argument and the type of the
    reply. *)
Record Run := MkRun { r_server : nat; r_service : string; r_method : string; r_arg : any; r_type : ty }.

(** [Server.dispatch] up to the call of the method *)
Definition Server_dispatch (p : nat) (rs : Server) (req : reqMsg) : option (Server * Run) :=
  let rs := MkServer (services rs) (srv_count rs + 1) in
  '(serviceName, methodName) ← split_method (svcMeth req);
  service ← services rs !! serviceName;
  '(replyType, a) ← Service_dispatch service methodName req;
  Some (rs, MkRun p serviceName methodName a replyType).

Definition Server_GetCount (rs : Server) : Z := srv_count rs.

(** ** The network

    [ends] holds the names of the ends that exist.  A server is a pointer into the
    heap [heap] of [Sys]; a nil pointer and a nil name are [None].  [looping] says that the
    goroutine of [MakeNetwork] still receives requests, [closed] that [done] is closed. *)
Record Network := MkNetwork {
  reliable : bool;
  longDelays : bool;
  longReordering : bool;
  ends : gset Name;
  enabled : gmap Name bool;
  servers : gmap Name (option nat);
  connections : gmap Name (option Name);
  closed : bool;
  looping : bool;
  count : Z;
  nbytes : Z;
}.

Definition MakeNetwork : Network := MkNetwork true false false ∅ ∅ ∅ ∅ false true 0 0.

Implicit Types (rn : Network).

Definition Cleanup rn : option Network :=
  if closed rn then None
  else Some (MkNetwork (reliable rn) (longDelays rn) (longReordering rn) (ends rn) (enabled rn) (servers rn)
    (connections rn) true (looping rn) (count rn) (nbytes rn)).

Definition Reliable rn (yes : bool) : Network :=
  MkNetwork yes (longDelays rn) (longReordering rn) (ends rn) (enabled rn) (servers rn) (connections rn)
    (closed rn) (looping rn) (count rn) (nbytes rn).

Definition LongReordering rn (yes : bool) : Network :=
  MkNetwork (reliable rn) (longDelays rn) yes (ends rn) (enabled rn) (servers rn) (connections rn)
    (closed rn) (looping rn) (count rn) (nbytes rn).

Definition LongDelays rn (yes : bool) : Network :=
  MkNetwork (reliable rn) yes (longReordering rn) (ends rn) (enabled rn) (servers rn) (connections rn)
    (closed rn) (looping rn) (count rn) (nbytes rn).

Definition with_servers rn f : Network :=
  MkNetwork (reliable rn) (longDelays rn) (longReordering rn) (ends rn) (enabled rn) (f (servers rn))
    (connections rn) (closed rn) (looping rn) (count rn) (nbytes rn).

Definition AddServer rn (servername : Name) (rs : nat) : Network :=
  with_servers rn (λ m, <[servername := Some rs]> m).

Definition DeleteServer rn (servername : Name) : Network :=
  with_servers rn (λ m, <[servername := None]> m).

Definition Connect rn (endname servername : Name) : Network :=
  MkNetwork (reliable rn) (longDelays rn) (longReordering rn) (ends rn) (enabled rn) (servers rn)
    (<[endname := Some servername]> (connections rn)) (closed rn) (looping rn) (count rn) (nbytes rn).

Definition Enable rn (endname : Name) (b : bool) : Network :=
  MkNetwork (reliable rn) (longDelays rn) (longReordering rn) (ends rn) (<[endname := b]> (enabled rn)) (servers rn)
    (connections rn) (closed rn) (looping rn) (count rn) (nbytes rn).

Definition MakeEnd rn (endname : Name) : option Network :=
  if bool_decide (endname ∈ ends rn) then None
  else Some (MkNetwork (reliable rn) (longDelays rn) (longReordering rn) ({[endname]} ∪ ends rn)
    (<[endname := false]> (enabled rn)) (servers rn) (<[endname := None]> (connections rn))
    (closed rn) (looping rn) (count rn) (nbytes rn)).

Definition GetTotalCount rn : Z := count rn.
Definition GetTotalBytes rn : Z := nbytes rn.

(** [atomic.AddInt32(&rn.count, 1)] and [atomic.AddInt64(&rn.bytes, k)] *)
Definition add_traffic rn (k m : Z) : Network :=
  MkNetwork (reliable rn) (longDelays rn) (longReordering rn) (ends rn) (enabled rn) (servers rn)
    (connections rn) (closed rn) (looping rn) (wrap 32 (count rn + k)) (wrap 64 (nbytes rn + m)).

(** The loop of [MakeNetwork] returns. *)
Definition stop_loop rn : Network :=
  MkNetwork (reliable rn) (longDelays rn) (longReordering rn) (ends rn) (enabled rn) (servers rn)
    (connections rn) (closed rn) false (count rn) (nbytes rn).

(** The results of [readEndnameInfo] *)
Record EndInfo := MkInfo {
  i_enabled : bool;
  i_servername : option Name;
  i_server : option nat;
  i_reliable : bool;
  i_longreordering : bool;
}.

(** [rn.servers[servername]]: a missing key is a nil pointer. *)
Definition server_of rn (servername : Name) : option nat := mjoin (servers rn !! servername).
Definition is_enabled rn (e : Name) : bool := default false (enabled rn !! e).

Definition readEndnameInfo rn (endname : Name) : EndInfo :=
  let servername := mjoin (connections rn !! endname) in
  MkInfo (is_enabled rn endname) servername (s ← servername; server_of rn s)
    (reliable rn) (longReordering rn).

Definition isServerDead rn (endname servername : Name) (server : nat) : bool :=
  negb (is_enabled rn endname) || negb (bool_decide (server_of rn servername = Some server)).

(** ** A call

    What [processReq] knows after [readEndnameInfo] found a server *)
Record Target := MkTarget { t_name : Name; t_server : nat; t_reliable : bool; t_reorder : bool }.

(** Where the caller and [processReq] are.  Delays are in milliseconds. *)
Inductive PC :=
  | CSend                                     (* [Call] before its [select] *)
  | PStart                                    (* sent; [processReq] not started *)
  | PDelay (t : Target) (ms : Z)              (* the short delay *)
  | PWait (t : Target)                        (* the loop around [ech] *)
  | PCheck (t : Target) (r : option replyMsg) (* before the last [isServerDead] *)
  | PLate (ms : Z) (r : replyMsg)             (* [AfterFunc] with the reply *)
  | PTimeout (ms : Z)                         (* [AfterFunc] with a failure *)
  | CDone (b : bool) (v : any).               (* [Call] returned [b], [*reply] is [v] *)

(** Where the goroutine that executes the request is: not there, about to call
    [dispatch], in the method, sending on [ech], finished. *)
Inductive HC := HNone | HNew (p : nat) | HRun (run : Run) | HSend (r : replyMsg) | HDone.

(** [c_arg] and [c_reply] are the arguments of [Call]; [sent] says that the network
    received the request, [runs] and [rets] are the methods called for it so far
    and the replies they returned with. *)
Record CallRec := MkCall {
  c_req : reqMsg;
  c_arg : any;
  c_reply : any;
  pc : PC;
  hc : HC;
  sent : bool;
  runs : list Run;
  rets : list any;
}.

Definition set_pc (c : CallRec) (p : PC) : CallRec :=
  MkCall (c_req c) (c_arg c) (c_reply c) p (hc c) (sent c) (runs c) (rets c).
Definition set_hc (c : CallRec) (h : HC) : CallRec :=
  MkCall (c_req c) (c_arg c) (c_reply c) (pc c) h (sent c) (runs c) (rets c).

(** The network has received the request. *)
Definition set_sent (c : CallRec) : CallRec :=
  MkCall (c_req c) (c_arg c) (c_reply c) PStart (hc c) true (runs c) (rets c).

(** [Call] up to its [select]; it panics if the arguments cannot be encoded. *)
Definition Call (e : Name) (meth : string) (a r : any) : option CallRec :=
  let enc := gob_enc (any_ty a) (any_val a) in
  if enc.2 then Some (MkCall (MkReq e meth (any_ty a) enc.1) a r CSend HNone false [] []) else None.

(** [Call] after [rep := <-req.replyCh] *)
Definition receive_reply (c : CallRec) (rep : replyMsg) : option CallRec :=
  if ok rep then
    let '(v, good) := gob_dec (any_ty (c_reply c)) (reply rep) (any_val (c_reply c)) in
    if good then Some (set_pc c (CDone true (Any (any_ty (c_reply c)) v))) else None
  else Some (set_pc c (CDone false (c_reply c))).

Record Sys := MkSys { net : Network; heap : gmap nat Server }.

Definition set_net (s : Sys) rn : Sys := MkSys rn (heap s).

(** ** Steps of a call *)
Inductive OwnEvent :=
  | Send               (* the network receives the request *)
  | GiveUp             (* [Call] finds the network destroyed *)
  | Begin (rnd : Z)    (* [processReq] up to its first delay *)
  | Delayed (rnd : Z)  (* the short delay is over *)
  | Dispatch           (* the handler goroutine calls the method *)
  | Return (v : any)   (* the method returns with [v] in the reply variable *)
  | Receive            (* [reply = <-ech] *)
  | Tick               (* 100 ms in the loop *)
  | Decide (r1 r2 r3 r4 : Z) (* from the last [isServerDead] to the end *)
  | Fire               (* an [AfterFunc] runs *)
  | Drain.             (* [<-ech] after the loop gave up *)

(** [processReq] before its first wait *)
Definition process_start rn (c : CallRec) (rnd : Z) : CallRec :=
  let i := readEndnameInfo rn (endname (c_req c)) in
  match i_enabled i, i_servername i, i_server i with
  | true, Some sn, Some server =>
    set_pc c (PDelay (MkTarget sn server (i_reliable i) (i_longreordering i))
      (if i_reliable i then 0 else rnd `mod` 27))
  | _, _, _ => set_pc c (PTimeout (if longDelays rn then rnd `mod` 7000 else rnd `mod` 100))
  end.

(** The request is dropped, or the handler goroutine starts. *)
Definition process_delayed (c : CallRec) (t : Target) (rnd : Z) : option CallRec :=
  if negb (t_reliable t) && (rnd `mod` 1000 <? 100) then receive_reply c failed
  else Some (set_hc (set_pc c (PWait t)) (HNew (t_server t))).

(** Half of [dispatch] *)
Definition handler_call (s : Sys) (c : CallRec) (p : nat) : option (Sys * CallRec) :=
  rs ← heap s !! p;
  '(rs, run) ← Server_dispatch p rs (c_req c);
  Some (MkSys (net s) (<[p := rs]> (heap s)),
    MkCall (c_req c) (c_arg c) (c_reply c) (pc c) (HRun run) (sent c) (runs c ++ [run]) (rets c)).

(** The other half *)
Definition handler_return (c : CallRec) (v : any) : CallRec :=
  MkCall (c_req c) (c_arg c) (c_reply c) (pc c) (HSend (encode_reply v)) (sent c) (runs c) (rets c ++ [v]).

Definition send_reply (s : Sys) (c : CallRec) (rep : replyMsg) : option (Sys * CallRec) :=
  c ← receive_reply c rep;
  Some (set_net s (add_traffic (net s) 0 (go_len (reply rep))), c).

(** [processReq] after the loop *)
Definition process_decide (s : Sys) (c : CallRec) (t : Target) (r : option replyMsg) (r1 r2 r3 r4 : Z)
    : option (Sys * CallRec) :=
  let serverDead := isServerDead (net s) (endname (c_req c)) (t_name t) (t_server t) in
  match r with
  | Some rep =>
    if serverDead then c ← receive_reply c failed; Some (s, c)
    else if negb (t_reliable t) && (r1 `mod` 1000 <? 100) then c ← receive_reply c failed; Some (s, c)
    else if t_reorder t && (r2 `mod` 900 <? 600) then
      Some (s, set_pc c (PLate (200 + r4 `mod` (1 + r3 `mod` 2000)) rep))
    else send_reply s c rep
  | None => c ← receive_reply c failed; Some (s, c)
  end.

Definition own (ev : OwnEvent) (s : Sys) (c : CallRec) : Outcome (Sys * CallRec) :=
  match ev, pc c, hc c with
  | Send, CSend, _ =>
    when (looping (net s))
      (Next (set_net s (add_traffic (net s) 1 (go_len (args (c_req c)))), set_sent c))
  | GiveUp, CSend, _ => when (closed (net s)) (Next (s, set_pc c (CDone false (c_reply c))))
  | Begin rnd, PStart, _ => Next (s, process_start (net s) c rnd)
  | Delayed rnd, PDelay t _, _ => c ← or_exit (process_delayed c t rnd); Next (s, c)
  | Dispatch, _, HNew p => or_exit (handler_call s c p)
  | Return v, _, HRun run => when (bool_decide (any_ty v = r_type run)) (Next (s, handler_return c v))
  | Receive, PWait t, HSend rep => Next (s, set_hc (set_pc c (PCheck t (Some rep))) HDone)
  | Tick, PWait t, _ =>
    Next (s, if isServerDead (net s) (endname (c_req c)) (t_name t) (t_server t)
             then set_pc c (PCheck t None) else c)
  | Decide r1 r2 r3 r4, PCheck t r, _ => or_exit (process_decide s c t r r1 r2 r3 r4)
  | Fire, PLate _ rep, _ => or_exit (send_reply s c rep)
  | Fire, PTimeout _, _ => c ← or_exit (receive_reply c failed); Next (s, c)
  | Drain, PWait _, _ => Blocked
  | Drain, _, HSend _ => Next (s, set_hc c HDone)
  | _, _, _ => Blocked
  end.

(** ** Steps of the surroundings *)
Inductive AdminEvent :=
  | DoMakeEnd (e : Name) | DoConnect (e s : Name) | DoEnable (e : Name) (b : bool)
  | DoMakeServer (p : nat) | DoAddService (p : nat) (svc : Service)
  | DoAddServer (s : Name) (p : nat) | DoDeleteServer (s : Name)
  | DoReliable (b : bool) | DoLongReordering (b : bool) | DoLongDelays (b : bool)
  | DoGetCount (s : Name) | DoCleanup | DoStopLoop.

(** [GetCount] of the network: a nil server is dereferenced. *)
Definition GetCount (s : Sys) (servername : Name) : option Z :=
  p ← server_of (net s) servername;
  rs ← heap s !! p;
  Some (Server_GetCount rs).

Definition admin (ev : AdminEvent) (s : Sys) : Outcome Sys :=
  match ev with
  | DoMakeEnd e => rn ← or_exit (MakeEnd (net s) e); Next (set_net s rn)
  | DoConnect e sn => Next (set_net s (Connect (net s) e sn))
  | DoEnable e b => Next (set_net s (Enable (net s) e b))
  | DoMakeServer p => when (bool_decide (heap s !! p = None)) (Next (MkSys (net s) (<[p := MakeServer]> (heap s))))
  | DoAddService p svc =>
    match heap s !! p with
    | Some rs => Next (MkSys (net s) (<[p := AddService rs svc]> (heap s)))
    | None => Blocked
    end
  | DoAddServer sn p => when (bool_decide (is_Some (heap s !! p))) (Next (set_net s (AddServer (net s) sn p)))
  | DoDeleteServer sn => Next (set_net s (DeleteServer (net s) sn))
  | DoReliable b => Next (set_net s (Reliable (net s) b))
  | DoLongReordering b => Next (set_net s (LongReordering (net s) b))
  | DoLongDelays b => Next (set_net s (LongDelays (net s) b))
  | DoGetCount sn => n ← or_exit (GetCount s sn); Next s
  | DoCleanup => rn ← or_exit (Cleanup (net s)); Next (set_net s rn)
  | DoStopLoop => when (closed (net s)) (Next (set_net s (stop_loop (net s))))
  end.

(** ** The whole *)
Record World := MkWorld { sys : Sys; calls : gmap nat CallRec }.

Definition start_world : World := MkWorld (MkSys MakeNetwork ∅) ∅.

Inductive Event :=
  | EAdmin (ev : AdminEvent)
  | ECall (id : nat) (e : Name) (meth : string) (a r : any)
  | EOwn (id : nat) (ev : OwnEvent).

Definition net_exec (ev : Event) (w : World) : Outcome World :=
  match ev with
  | EAdmin ev => s ← admin ev (sys w); Next (MkWorld s (calls w))
  | ECall id e meth a r =>
    when (bool_decide (e ∈ ends (net (sys w))) && bool_decide (calls w !! id = None))
      (c ← or_exit (Call e meth a r); Next (MkWorld (sys w) (<[id := c]> (calls w))))
  | EOwn id ev =>
    match calls w !! id with
    | Some c => '(s, c) ← own ev (sys w) c; Next (MkWorld s (<[id := c]> (calls w)))
    | None => Blocked
    end
  end.

Definition netstep (w w' : World) : Prop := ∃ ev, net_exec ev w = Next w'.
Definition net_reachable (w : World) : Prop := rtc netstep start_world w.
End labrpc.
