(* ===== verification/LabrpcProps.v ===== *)
(** * Guarantees of the simulated network

    What the comment at the top of labrpc.go promises: a handler runs at most once
    per call and with the caller's argument; a call that returns true has the
    handler's reply; a deleted server does not answer; calls return; calls that
    agree with the types of the handlers do not stop the process. *)

From S2P Require Import Prelude GoStrings Labgob Labrpc.

(** ** Steps *)

Lemma Outcome_bind_Next {A B} (k : A → Outcome B) o y :
  mbind k o = Next y ↔ ∃ x, o = Next x ∧ k x = Next y.
Proof. destruct o; cbn; naive_solver. Qed.

Lemma or_exit_Next {A} (o : option A) x : or_exit o = Next x ↔ o = Some x.
Proof. destruct o; cbn; naive_solver. Qed.

Lemma when_Next {A} b (o : Outcome A) x : when b o = Next x ↔ b = true ∧ o = Next x.
Proof. destruct b; cbn; naive_solver. Qed.

#[export] Hint Rewrite @Outcome_bind_Next @or_exit_Next @when_Next @bind_Some @bool_decide_eq_true : outcome.

(** Opens the hypotheses that say that a step was taken. *)
Ltac outcomes := repeat match goal with
  | H : context [_ = Next _] |- _ => progress (autorewrite with outcome in H)
  | H : mbind _ _ = Some _ |- _ => apply bind_Some in H
  | H : ∃ _, _ |- _ => destruct H
  | H : _ ∧ _ |- _ => destruct H
  | x : _ * _ |- _ => destruct x
  | _ => progress simplify_eq/=
  end.

(** ** Splitting ["service.method"] *)

Lemma LastIndex_app a b : LastIndex b = -1 → LastIndex (a +:+ "." +:+ b) = Z.of_nat (String.length a).
Proof.
  intros Hb. induction a as [|c a IH]; appends.
  - by rewrite Hb.
  - replace (LastIndex (a +:+ _)) with (Z.of_nat (String.length a)) by by rewrite <- IH.
    destruct (Z.geb_spec (Z.of_nat (String.length a)) 0); lia.
Qed.

(** The service and the method of ["service.method"], where the method has
    no dot. *)
Lemma split_method_app svc m :
  LastIndex m = -1 → split_method (svc +:+ "." +:+ m) = Some (svc, m).
Proof.
  intros Hm. unfold split_method. rewrite LastIndex_app by done.
  unfold string_to, string_from. rewrite string_length_app. change (String.length ("." +:+ m)) with (S (String.length m)).
  destruct (Z.leb_spec 0 (Z.of_nat (String.length svc))), (Z.leb_spec (Z.of_nat (String.length svc))
    (Z.of_nat (String.length svc + S (String.length m)))); try lia. cbn.
  rewrite Nat2Z.id, substring_app. cbn.
  destruct (Z.leb_spec 0 (Z.of_nat (String.length svc) + 1)), (Z.leb_spec (Z.of_nat (String.length svc) + 1)
    (Z.of_nat (String.length svc + S (String.length m)))); try lia. cbn.
  replace (Z.to_nat (Z.of_nat (String.length svc) + 1)) with (String.length (svc +:+ "."))%nat
    by (rewrite string_length_app; cbn; lia).
  replace (svc +:+ "." +:+ m) with ((svc +:+ ".") +:+ m) by by rewrite append_assoc.
  rewrite substring_skip. rewrite string_length_app. cbn.
  replace (String.length svc + S (String.length m) - (String.length svc + 1))%nat with (String.length m) by lia.
  by rewrite substring_all.
Qed.

Section props.
Context `{!GoTypes, !GoLaws} {Name : Type} `{Countable Name}.
Implicit Types (c : CallRec (Name:=Name)) (s : Sys (Name:=Name)) (w : World (Name:=Name)) (rn : Network (Name:=Name)).

(** ** The moves of a call

    The steps that [own] can take, as a relation. *)
Inductive own_move s c : Sys (Name:=Name) → CallRec (Name:=Name) → Prop :=
  | om_send : pc c = CSend → looping (net s) = true →
      own_move s c (set_net s (add_traffic (net s) 1 (go_len (args (c_req c))))) (set_sent c)
  | om_give_up : pc c = CSend → closed (net s) = true → own_move s c s (set_pc c (CDone false (c_reply c)))
  | om_start rnd : pc c = PStart → own_move s c s (process_start (net s) c rnd)
  | om_spawn t ms : pc c = PDelay t ms → own_move s c s (set_hc (set_pc c (PWait t)) (HNew (t_server t)))
  | om_dispatch p rs run : hc c = HNew p → heap s !! p = Some rs →
      Server_dispatch p rs (c_req c) = Some (MkServer (services rs) (srv_count rs + 1), run) →
      own_move s c (MkSys (net s) (<[p := MkServer (services rs) (srv_count rs + 1)]> (heap s)))
        (MkCall (c_req c) (c_arg c) (c_reply c) (pc c) (HRun run) (sent c) (runs c ++ [run]) (rets c))
  | om_return run v : hc c = HRun run → any_ty v = r_type run → own_move s c s (handler_return c v)
  | om_receive t rep : pc c = PWait t → hc c = HSend rep →
      own_move s c s (set_hc (set_pc c (PCheck t (Some rep))) HDone)
  | om_idle t : pc c = PWait t → isServerDead (net s) (endname (c_req c)) (t_name t) (t_server t) = false →
      own_move s c s c
  | om_dead t : pc c = PWait t → isServerDead (net s) (endname (c_req c)) (t_name t) (t_server t) = true →
      own_move s c s (set_pc c (PCheck t None))
  | om_fail : match pc c with PDelay _ _ | PCheck _ _ | PTimeout _ => True | _ => False end →
      own_move s c s (set_pc c (CDone false (c_reply c)))
  | om_late t rep ms : pc c = PCheck t (Some rep) →
      isServerDead (net s) (endname (c_req c)) (t_name t) (t_server t) = false →
      200 <= ms < 2200 → own_move s c s (set_pc c (PLate ms rep))
  | om_reply rep c' :
      match pc c with
      | PCheck t (Some rep') => rep' = rep ∧ isServerDead (net s) (endname (c_req c)) (t_name t) (t_server t) = false
      | PLate _ rep' => rep' = rep
      | _ => False
      end → receive_reply c rep = Some c' →
      own_move s c (set_net s (add_traffic (net s) 0 (go_len (reply rep)))) c'
  | om_drain rep : hc c = HSend rep → (∀ t, pc c ≠ PWait t) → own_move s c s (set_hc c HDone).

Lemma Server_dispatch_count p rs rs' req run :
  Server_dispatch (Name:=Name) p rs req = Some (rs', run) → rs' = MkServer (services rs) (srv_count rs + 1).
Proof. unfold Server_dispatch. intros. by outcomes. Qed.

Lemma handler_call_move s c p s' c' : hc c = HNew p → handler_call s c p = Some (s', c') → own_move s c s' c'.
Proof.
  intros Eh Hc. unfold handler_call in Hc. outcomes.
  match goal with H : Server_dispatch _ _ _ = Some _ |- _ => rename H into E end.
  pose proof (Server_dispatch_count _ _ _ _ _ E). subst. by apply om_dispatch.
Qed.

Lemma receive_failed c : receive_reply c failed = Some (set_pc c (CDone false (c_reply c))).
Proof. reflexivity. Qed.

Lemma handler_call_hc s c p s' c' : handler_call s c p = Some (s', c') → ∃ run, hc c' = HRun run.
Proof. unfold handler_call. intros. outcomes. eauto. Qed.

Lemma decide_move s c t r r1 r2 r3 r4 s' c' :
  pc c = PCheck t r → process_decide s c t r r1 r2 r3 r4 = Some (s', c') → own_move s c s' c'.
Proof.
  intros Ep. unfold process_decide. rewrite !receive_failed. destruct r as [rep|].
  2:{ intros. outcomes. apply om_fail. by rewrite Ep. }
  destruct (isServerDead _ _ _ _) eqn:Ed; [intros; outcomes; apply om_fail; by rewrite Ep|].
  case_match; [intros; outcomes; apply om_fail; by rewrite Ep|]. case_match.
  - intros. simplify_eq. eapply om_late; [done|done|].
    pose proof (Z.mod_pos_bound r3 2000 ltac:(lia)). pose proof (Z.mod_pos_bound r4 (1 + r3 `mod` 2000) ltac:(lia)). lia.
  - unfold send_reply. intros. outcomes. apply om_reply; [by rewrite Ep|done].
Qed.

Lemma own_moves ev s c s' c' : own ev s c = Next (s', c') → own_move s c s' c'.
Proof.
  unfold own. destruct ev; try (destruct (pc c) eqn:Ep; try done; []).
  - intros. outcomes. by apply om_send.
  - intros. outcomes. by apply om_give_up.
  - intros. outcomes. by apply om_start.
  - unfold process_delayed. rewrite receive_failed. case_match; intros; outcomes; [|by eapply om_spawn]. apply om_fail. by rewrite Ep.
  - destruct (hc c) eqn:Eh; try done; [|by destruct (pc c)..]. intros Hd.
    assert (or_exit (handler_call s c p) = Next (s', c')) by (by destruct (pc c)). outcomes. by eapply handler_call_move.
  - destruct (hc c) eqn:Eh; try (by destruct (pc c)). intros Hd.
    assert (any_ty v = r_type run ∧ s' = s ∧ c' = handler_return c v) as (? & -> & ->)
      by (destruct (pc c); by outcomes). by eapply om_return.
  - destruct (hc c) eqn:Eh; try done. intros. outcomes. by eapply om_receive.
  - intros. outcomes. case_match; [by eapply om_dead|by eapply om_idle].
  - intros. outcomes. by eapply decide_move.
  - unfold send_reply. rewrite receive_failed. destruct (pc c) eqn:Ep; try done; intros; outcomes; [apply om_reply|apply om_fail]; by rewrite ?Ep.
  - intros Hd. assert (∃ rep, hc c = HSend rep ∧ (∀ t, pc c ≠ PWait t) ∧ s' = s ∧ c' = set_hc c HDone)
      as (rep & Eh & Hn & -> & ->); [|by eapply om_drain].
    destruct (pc c), (hc c); simplify_eq; eexists; split_and!; try done; naive_solver.
Qed.

(** ** What a call has done *)

(** The run is of the method that the request names, with the caller's argument. *)
Definition run_ok c (run : Run) : Prop :=
  split_method (svcMeth (c_req c)) = Some (r_service run, r_method run) ∧ r_arg run = c_arg c.

(** The handler has returned, with [v], after one run. *)
Definition answered c (v : any) : Prop :=
  ∃ run, runs c = [run] ∧ run_ok c run ∧ rets c = [v] ∧ any_ty v = r_type run.

Definition handler_ok c : Prop :=
  match hc c with
  | HNone | HNew _ => runs c = [] ∧ rets c = []
  | HRun run => runs c = [run] ∧ run_ok c run ∧ rets c = []
  | HSend rep => ∃ v, answered c v ∧ rep = encode_reply v
  | HDone => ∃ v, answered c v
  end.

Definition place_ok c : Prop :=
  match pc c with
  | CSend | PStart | PDelay _ _ | PTimeout _ => hc c = HNone
  | PWait t => hc c ≠ HNone ∧ hc c ≠ HDone ∧ (∀ p, hc c = HNew p → p = t_server t) ∧ Forall (λ r, r_server r = t_server t) (runs c)
  | PCheck _ None => True
  | PCheck _ (Some rep) | PLate _ rep => hc c = HDone ∧ ∃ v, answered c v ∧ rep = encode_reply v
  | CDone false v => v = c_reply c
  | CDone true v => hc c = HDone ∧ ∃ r v', answered c r ∧ v = Any (any_ty (c_reply c)) v'
      ∧ gob_dec (any_ty (c_reply c)) (reply (encode_reply r)) (any_val (c_reply c)) = (v', true)
  end.

Definition req_ok c : Prop :=
  argsType (c_req c) = any_ty (c_arg c) ∧ args (c_req c) = (gob_enc (any_ty (c_arg c)) (any_val (c_arg c))).1.

Record call_ok c : Prop := CallOk { co_req : req_ok c; co_handler : handler_ok c; co_place : place_ok c }.

Lemma Call_ok e meth a r c : Call e meth a r = Some c → call_ok c.
Proof. unfold Call. case_match; [|done]. intros. simplify_eq. by split. Qed.

(** The decoded argument is the caller's. *)
Lemma dispatch_arg c svc m rt a :
  req_ok c → Service_dispatch svc m (c_req c) = Some (rt, a) → a = c_arg c.
Proof.
  intros [Ht Ha]. unfold Service_dispatch. rewrite Ht, Ha, gob_dec_enc. cbn. intros. outcomes.
  case_decide; [|done]. simplify_eq. by destruct (c_arg c).
Qed.

Lemma Server_dispatch_run p rs rs' c run :
  req_ok c → Server_dispatch p rs (c_req c) = Some (rs', run) →
  run_ok c run ∧ r_server run = p ∧ rs' = MkServer (services rs) (srv_count rs + 1).
Proof.
  intros Hr. unfold Server_dispatch. intros. outcomes.
  split_and!; try done. split; cbn; [done|]. by eapply dispatch_arg.
Qed.

(** Changing the place or the handler's state leaves the rest alone. *)
Lemma receive_reply_ok c c' v :
  call_ok c → hc c = HDone → answered c v → receive_reply c (encode_reply v) = Some c' → call_ok c'.
Proof.
  intros [Hr Hh _] Hd Hv. unfold receive_reply. cbn. destruct (gob_dec _ _ _) as [v' []] eqn:E; [|done].
  intros. simplify_eq/=. split; [done|done|]. cbn. split; [done|]. by exists v, v'.
Qed.

(** A handler is at work only while [processReq] waits or after it gave up. *)
Definition active (h : HC) : Prop := match h with HNew _ | HRun _ | HSend _ => True | _ => False end.

Definition waiting (p : PC (Name:=Name)) : Prop :=
  match p with PWait _ | PCheck _ None | CDone false _ => True | _ => False end.

Lemma active_waiting c : place_ok c → active (hc c) → waiting (pc c).
Proof.
  unfold place_ok. destruct (pc c) as [| | | |? []| | |[]]; cbn; try done; intros Hp Ha;
    first [by rewrite Hp in Ha|destruct Hp as [Hp _]; by rewrite Hp in Ha].
Qed.

(** What a step of the handler must keep. *)
Lemma handler_step_ok c h rs vs :
  let c' := MkCall (c_req c) (c_arg c) (c_reply c) (pc c) h (sent c) rs vs in
  call_ok c → active (hc c) → active h ∨ ¬ (∃ t, pc c = PWait t) → handler_ok c' →
  (∀ t, pc c = PWait t → (∀ p, h = HNew p → p = t_server t) ∧ Forall (λ r, r_server r = t_server t) rs) →
  call_ok c'.
Proof.
  intros c' [Hr _ Hp] Ha Hh Hok Ht. split; [done|done|]. pose proof (active_waiting c Hp Ha) as Hw.
  unfold place_ok, c'. cbn. unfold place_ok in Hp.
  destruct (pc c) as [| | |t|? []| | |[]] eqn:E; cbn in *; try done.
  destruct Hh as [Hh|Hh]; [|exfalso; eauto]. destruct (Ht t eq_refl). split_and!; try done; intros ->; done.
Qed.

(** [processReq] times out within seven seconds or goes on to the server that
    the network has for the end. *)
Lemma process_start_cases rn c rnd :
  (∃ ms, process_start rn c rnd = set_pc c (PTimeout ms) ∧ 0 <= ms < 7000)
  ∨ ∃ t ms, process_start rn c rnd = set_pc c (PDelay t ms) ∧ 0 <= ms < 27
      ∧ is_enabled rn (endname (c_req c)) = true ∧ mjoin (connections rn !! endname (c_req c)) = Some (t_name t)
      ∧ server_of rn (t_name t) = Some (t_server t).
Proof.
  assert (0 <= (if longDelays rn then rnd `mod` 7000 else rnd `mod` 100) < 7000) as Hms.
  { pose proof (Z.mod_pos_bound rnd 7000). pose proof (Z.mod_pos_bound rnd 100). destruct (longDelays rn); lia. }
  unfold process_start, readEndnameInfo. cbn. destruct (is_enabled _ _); [|eauto].
  destruct (mjoin _) as [sn|]; cbn; [|eauto]. destruct (server_of rn sn) as [p|] eqn:Es; [|eauto].
  right. do 2 eexists. split_and!; try done; pose proof (Z.mod_pos_bound rnd 27); destruct (reliable rn); lia.
Qed.

Lemma own_ok ev s c s' c' : call_ok c → own ev s c = Next (s', c') → call_ok c'.
Proof.
  intros Hok Ho%own_moves. pose proof Hok as [Hr Hh Hp]. unfold handler_ok in Hh. unfold place_ok in Hp.
  destruct Ho as [Ep ?|Ep ?|rnd Ep|t ms Ep|p rs run Eh ? Ed|run v Eh Hv|t rep Ep Eh|t Ep ?|t Ep ?|Ep|t rep ms Ep ? ?|rep c' Ep Hc|rep Eh Hn];
    try (rewrite Ep in Hp); try (rewrite Eh in Hh); try done.
  - assert (∀ p, place_ok (set_pc c p) → call_ok (set_pc c p)) as Hset by by split.
    destruct (process_start_cases (net s) c rnd) as [(ms & -> & _)|(t & ms & -> & _)]; by apply Hset.
  - rewrite Hp in Hh. destruct Hh as [Hrs Hvs]. split; [done|done|]. cbn. rewrite Hrs. naive_solver.
  - destruct (Server_dispatch_run _ _ _ _ _ Hr Ed) as (Hrun & Hs & _). destruct Hh as [-> Hrets].
    apply handler_step_ok; [done|by rewrite Eh|by left|done|].
    intros t Et. rewrite Et in Hp. destruct Hp as (_ & _ & Hp & _). split; [done|]. repeat constructor. rewrite Hs. by apply Hp.
  - destruct Hh as (Hrs & Hrun & Hrets). apply handler_step_ok; [done|by rewrite Eh|by left| |].
    + exists v. split; [|done]. exists run. by rewrite Hrets.
    + intros t Et. rewrite Et in Hp. destruct Hp as (_ & _ & _ & Hp). by split.
  - destruct Hh as (v & Hv & ->). split; [done|by exists v|]. split; [done|]. by exists v.
  - assert (hc c = HDone ∧ ∃ v, answered c v ∧ rep = encode_reply v) as (Ehd & v & Hv & ->).
    { destruct (pc c) as [| | | |t [rep'|]| | |]; try done; [destruct Ep as [-> _]|subst]; done. }
    by eapply receive_reply_ok.
  - destruct Hh as (v & Hv & _). apply handler_step_ok; [done|by rewrite Eh|right; naive_solver|by exists v|naive_solver].
Qed.

(** ** Worlds *)

Definition calls_ok w : Prop := map_Forall (λ _, call_ok) (calls w).

Lemma net_exec_ok ev w w' : calls_ok w → net_exec ev w = Next w' → calls_ok w'.
Proof.
  intros Hw. destruct ev as [ev|id e meth a r|id ev]; cbn.
  - intros. by outcomes.
  - intros. outcomes. bools. apply map_Forall_insert_2; [by eapply Call_ok|done].
  - destruct (calls w !! id) as [c|] eqn:E; [|done]. intros. outcomes.
    apply map_Forall_insert_2; [|done]. eapply own_ok; [|done]. by apply (Hw id).
Qed.

Lemma reachable_calls_ok w : net_reachable w → calls_ok w.
Proof.
  unfold net_reachable. remember start_world as w0 eqn:E0. intros Hr.
  assert (calls_ok w0) as H0'; [rewrite E0; by apply map_Forall_empty|]. clear E0.
  induction Hr as [|w0 w1 w [ev Hev] _ IH]; [done|]. apply IH. by eapply net_exec_ok.
Qed.

Lemma handler_shape c : call_ok c →
  (runs c = [] ∧ rets c = [])
  ∨ ∃ run, run_ok c run ∧ runs c = [run] ∧ (rets c = [] ∨ ∃ v, rets c = [v] ∧ any_ty v = r_type run).
Proof. intros [_ Hh _]. unfold handler_ok, answered in Hh. destruct (hc c); naive_solver. Qed.

(** C23: a handler runs at most once for a call, whatever the network does; it
    is the method that the call names, called with the caller's argument. *)
Theorem rpc_at_most_once w id c :
  net_reachable w → calls w !! id = Some c →
  (length (runs c) <= 1)%nat ∧ (length (rets c) <= length (runs c))%nat
  ∧ ∀ run, run ∈ runs c → split_method (svcMeth (c_req c)) = Some (r_service run, r_method run) ∧ r_arg run = c_arg c.
Proof.
  intros Hr Hc. destruct (handler_shape c (reachable_calls_ok w Hr id c Hc)) as [[-> ->]|(run & Hrun & -> & Hv)].
  - cbn. split_and!; [lia|lia|]. by intros run ?%elem_of_nil.
  - split; [done|]. split; [|by intros run' ->%list_elem_of_singleton].
    by destruct Hv as [->|[v [-> _]]]; cbn; lia.
Qed.

(** C24: a call that returned true was executed: its handler ran exactly once,
    with the caller's argument, it returned, and if the caller's reply variable was
    empty and of the handler's type it now holds the handler's reply. *)
Theorem call_true_executed w id c v :
  net_reachable w → calls w !! id = Some c → pc c = CDone true v →
  ∃ run r, runs c = [run] ∧ rets c = [r] ∧ r_arg run = c_arg c
    ∧ split_method (svcMeth (c_req c)) = Some (r_service run, r_method run)
    ∧ (c_reply c = Any (r_type run) (zero (r_type run)) → v = r).
Proof.
  intros Hr Hc Hd. destruct (reachable_calls_ok w Hr id c Hc) as [_ _ Hp]. unfold place_ok in Hp. rewrite Hd in Hp.
  destruct Hp as (_ & r & v' & (run & Hrs & [Hm Ha] & Hvs & Ht) & -> & Hdec).
  clear Hd. exists run, r. split_and!; try done. intros Hz. destruct r as [t r]. cbn in *. subst t. revert v' Hdec. rewrite Hz. cbn. intros v' Hdec.
  rewrite gob_dec_enc in Hdec. by simplify_eq.
Qed.

(** ** Servers that are gone *)

(** No name stands for the server [p]. *)
Definition detached rn (p : nat) : Prop := ∀ sn, server_of rn sn ≠ Some p.

(** A step that does not register [p] *)
Definition not_adding (p : nat) w w' : Prop :=
  ∃ ev, net_exec ev w = Next w' ∧ ∀ sn, ev ≠ EAdmin (DoAddServer sn p).

(** The call can only get its answer from the server [p] and has not got it. *)
Definition unanswered_by (p : nat) c : Prop :=
  match pc c with
  | PDelay t _ | PWait t | PCheck t _ => t_server t = p
  | PTimeout _ | CDone false _ => True
  | _ => False
  end.

Lemma own_servers ev s c s' c' : own ev s c = Next (s', c') → servers (net s') = servers (net s).
Proof. intros Ho%own_moves. by destruct Ho. Qed.

Lemma server_of_insert rn sn o sn' :
  server_of (with_servers rn (λ m, <[sn := o]> m)) sn' = if decide (sn = sn') then o else server_of rn sn'.
Proof.
  unfold server_of. cbn. case_decide; [subst; by rewrite lookup_insert_eq|by rewrite lookup_insert_ne].
Qed.

Lemma detached_step p w w' : not_adding p w w' → detached (net (sys w)) p → detached (net (sys w')) p.
Proof.
  intros (ev & He & Hna) Hd. destruct ev as [ev|id e meth a r|id ev]; cbn in He.
  - destruct ev; cbn in He; outcomes; try exact Hd.
    + unfold MakeEnd in *. case_match; by outcomes.
    + case_match; by outcomes.
    + intros sn. unfold AddServer. rewrite server_of_insert. case_decide; [|apply Hd]. intros [= ->]. by eapply Hna.
    + intros sn. unfold DeleteServer. rewrite server_of_insert. case_decide; [done|apply Hd].
    + unfold Cleanup in *. case_match; by outcomes.
  - by outcomes.
  - destruct (calls w !! id); [|done]. outcomes. intros sn. unfold server_of.
    erewrite own_servers by done. apply Hd.
Qed.

Lemma detached_dead rn p e sn : detached rn p → isServerDead rn e sn p = true.
Proof. intros Hd. unfold isServerDead. rewrite bool_decide_eq_false_2 by apply Hd. apply orb_true_r. Qed.

Lemma detached_own p ev s c s' c' :
  detached (net s) p → unanswered_by p c → own ev s c = Next (s', c') → unanswered_by p c'.
Proof.
  intros Hd Hu Ho%own_moves. unfold unanswered_by in *.
  destruct Ho as [Ep ?|Ep ?|rnd Ep|t ms Ep|p' rs run Eh ? Ed|run v Eh Hv|t rep Ep Eh|t Ep ?|t Ep ?|Ep|t rep ms Ep Hal ?|rep c' Ep Hc|rep Eh Hn];
    try rewrite Ep in Hu; cbn; try done.
  - by rewrite Ep.
  - subst p. by rewrite detached_dead in Hal.
  - destruct (pc c) as [| | | |t [rep'|]| | |]; try done. subst p. destruct Ep as [_ Hal]. by rewrite detached_dead in Hal.
Qed.

(** A deleted server does not answer.  From the moment on when no name stands
    for a server, as long as it is not registered again, a call that was on its
    way to it (the reply not yet sent) does not return true. *)
Theorem deleted_server_silent p w w' id c :
  detached (net (sys w)) p → calls w !! id = Some c → unanswered_by p c → rtc (not_adding p) w w' →
  ∃ c', calls w' !! id = Some c' ∧ ∀ v, pc c' ≠ CDone true v.
Proof.
  intros Hd Hc Hu Hr. assert (∃ c', calls w' !! id = Some c' ∧ unanswered_by p c') as (c' & Hc' & Hu').
  2:{ exists c'. split; [done|]. intros v E. unfold unanswered_by in Hu'. by rewrite E in Hu'. }
  revert c Hd Hc Hu. induction Hr as [|w w1 w' Hs _ IH]; intros c Hd Hc Hu; [eauto|].
  assert (∃ c1, calls w1 !! id = Some c1 ∧ unanswered_by p c1) as (c1 & Hc1 & Hu1).
  2:{ by eapply (IH c1); [eapply detached_step| |]. }
  destruct Hs as (ev & He & _). destruct ev as [ev|id' e meth a r|id' ev]; cbn in He.
  - outcomes. eauto.
  - outcomes. bools. rewrite lookup_insert_ne by congruence. eauto.
  - destruct (calls w !! id') as [c'|] eqn:E; [|done]. outcomes. destruct (decide (id' = id)) as [->|Hne].
    + rewrite lookup_insert_eq. eexists. split; [done|]. simplify_eq. by eapply detached_own.
    + rewrite lookup_insert_ne by done. eauto.
Qed.

(** ** Well-typed calls *)

Section typed.
(** The argument and reply types of the remote methods *)
Context (sig : string → option (ty * ty)).

(** The server has a method of the right type for every name in [sig]. *)
Definition typed_server (rs : Server) : Prop := ∀ sm a r, sig sm = Some (a, r) →
  ∃ sn mn svc m t, split_method sm = Some (sn, mn) ∧ services rs !! sn = Some svc ∧ methods svc !! mn = Some m
    ∧ Ins m !! 1%nat = Some a ∧ Ins m !! 2%nat = Some t ∧ ptr_elem t = Some r.

Definition good s (p : nat) : Prop := ∃ rs, heap s !! p = Some rs ∧ typed_server rs.

(** Callers use the right types and an empty reply variable, registered servers
    have the methods, ends are made once, counts are asked of servers that exist
    and the network is destroyed once. *)
Definition typed_event w (ev : Event (Name:=Name)) : Prop :=
  match ev with
  | ECall _ _ meth a r => ∃ t, sig meth = Some (any_ty a, t) ∧ r = Any t (zero t)
  | EAdmin (DoAddServer _ p) => good (sys w) p
  | EAdmin (DoAddService p svc) => ∀ rs, typed_server rs → typed_server (AddService rs svc)
  | EAdmin (DoMakeEnd e) => e ∉ ends (net (sys w))
  | EAdmin (DoGetCount sn) => is_Some (server_of (net (sys w)) sn)
  | EAdmin DoCleanup => closed (net (sys w)) = false
  | _ => True
  end.

Record typed_call s c : Prop := TypedCall {
  tc_ok : call_ok c;
  tc_sig : ∃ t, sig (svcMeth (c_req c)) = Some (any_ty (c_arg c), t) ∧ c_reply c = Any t (zero t)
             ∧ ∀ run, run ∈ runs c → r_type run = t;
  tc_target : match pc c with PDelay t _ | PWait t => good s (t_server t) | _ => True end;
  tc_new : ∀ p, hc c = HNew p → good s p;
}.

Record typed_world w : Prop := TypedWorld {
  tw_servers : ∀ sn p, server_of (net (sys w)) sn = Some p → good (sys w) p;
  tw_calls : map_Forall (λ _, typed_call (sys w)) (calls w);
  tw_loop : looping (net (sys w)) = true ∨ closed (net (sys w)) = true;
}.

(** Servers keep their methods. *)
Definition keeps_servers s s' : Prop := ∀ p, good s p → good s' p.

Lemma typed_call_mono s s' c : keeps_servers s s' → typed_call s c → typed_call s' c.
Proof. intros Hk [? ? Ht ?]. split; try done; [destruct (pc c); auto|auto]. Qed.

(** A typed request finds its method. *)
Lemma typed_dispatch s c p : call_ok c → typed_call s c → good s p →
  ∃ rs run, heap s !! p = Some rs ∧ Server_dispatch p rs (c_req c) = Some (MkServer (services rs) (srv_count rs + 1), run)
    ∧ Any (r_type run) (zero (r_type run)) = c_reply c.
Proof.
  intros [[Hta _] _ _] [_ (t & Hsig & Hrep & _) _ _] (rs & Hp & Hrs).
  destruct (Hrs _ _ _ Hsig) as (sn & mn & svc & m & t' & E1 & E2 & E3 & E4 & E5 & E6).
  exists rs. eexists. split; [done|]. unfold Server_dispatch, Service_dispatch. cbn.
  rewrite E1. cbn. rewrite E2. cbn. rewrite E3. cbn. rewrite E5. cbn. rewrite E6. cbn. rewrite E4. cbn.
  rewrite decide_True by done. by rewrite Hrep.
Qed.

Lemma own_keeps ev s c s' c' : own ev s c = Next (s', c') → keeps_servers s s'.
Proof.
  intros Ho%own_moves p (rs & Hp & Hrs).
  destruct Ho as [| | | |p' rs' run Eh Hp' Ed| | | | | | | |]; try (by exists rs).
  destruct (decide (p' = p)) as [->|Hne].
  - eexists. cbn. rewrite lookup_insert_eq. split; [done|]. by simplify_eq.
  - exists rs. cbn. by rewrite lookup_insert_ne.
Qed.

Lemma typed_own s c s' c' : typed_call s c →
  (∀ sn p, server_of (net s) sn = Some p → good s p) →
  own_move s c s' c' → call_ok c' → keeps_servers s s' → typed_call s' c'.
Proof.
  intros Ht Hs Ho Hok' Hk. pose proof Ht as [Hok Hsig Htg Hnew].
  destruct Ho as [Ep ?|Ep ?|rnd Ep|t ms Ep|p rs run Eh Hp Ed|run v Eh Hv|t rep Ep Eh|t Ep ?|t Ep ?|Ep|t rep ms Ep ? ?|rep c' Ep Hc|rep Eh Hn];
    try (rewrite Ep in Htg); try (by split; cbn; auto); try done.
  - destruct (process_start_cases (net s) c rnd) as [(ms & E & _)|(t & ms & E & _ & _ & _ & Hsn)]; rewrite E in *; split; cbn; eauto.
  - split; cbn; naive_solver.
  - destruct (typed_dispatch s c p Hok Ht (Hnew p Eh)) as (rs' & run' & Hp' & Ed' & Hrep).
    rewrite Hp' in Hp. injection Hp as ->. rewrite Ed' in Ed. injection Ed as ->.
    split; [done| |cbn; destruct (pc c); auto|done]. destruct Hsig as (t & Es & Er & Hrs). exists t. split_and!; [done|done|].
    cbn. intros run0 [?| ->%list_elem_of_singleton]%elem_of_app; [auto|]. rewrite Er in Hrep. by injection Hrep.
  - unfold receive_reply in Hc. destruct (ok rep); [|simplify_eq; by split].
    destruct (gob_dec _ _ _) as [v []]; [|done]. simplify_eq. by split.
Qed.

(** In a typed world a step of a call that is not blocked is taken. *)
Lemma typed_reply s c rep v : typed_call s c → answered c v → rep = encode_reply v → is_Some (receive_reply c rep).
Proof.
  intros [_ (t & _ & Er & Hrs) _ _] (run & Hr & _ & _ & Ht) ->. unfold receive_reply. cbn.
  rewrite Hr in Hrs. specialize (Hrs run ltac:(by left)). destruct v as [tv v]. cbn in *. subst t tv. rewrite Er. cbn.
  rewrite gob_dec_enc. eauto.
Qed.

Lemma typed_own_exit s c ev : typed_call s c → own ev s c ≠ Exit.
Proof.
  intros Ht. pose proof Ht as [Hok Hsig Htg Hnew]. pose proof (co_place _ Hok) as Hp. unfold place_ok in Hp.
  assert (∀ p, hc c = HNew p → is_Some (handler_call s c p)) as Hcall.
  { intros p Eh. destruct (typed_dispatch s c p Hok Ht (Hnew p Eh)) as (rs & run & Hrs & Ed & _).
    unfold handler_call. rewrite Hrs. cbn. rewrite Ed. cbn. eauto. }
  assert (∀ rep, (∃ v, answered c v ∧ rep = encode_reply v) → is_Some (send_reply s c rep)) as Hsend.
  { intros rep (v & Hv & Er). destruct (typed_reply s c rep v Ht Hv Er) as [c' E]. unfold send_reply. rewrite E. cbn. eauto. }
  unfold own. destruct ev; try (by destruct (pc c)); try (destruct (pc c) eqn:Ep; try done; []).
  - by destruct (looping (net s)).
  - by destruct (closed (net s)).
  - unfold process_delayed. case_match; by rewrite ?receive_failed.
  - destruct (hc c) as [|p|run|rep|] eqn:Eh; try (by destruct (pc c)). destruct (Hcall p eq_refl) as [[s' c'] E].
    rewrite E. by destruct (pc c).
  - destruct (hc c) as [|p|run|rep|] eqn:Eh; try (by destruct (pc c)). case_bool_decide; by destruct (pc c).
  - by destruct (hc c).
  - unfold process_decide. rewrite receive_failed. destruct r as [rep|]; [|done]. destruct Hp as [_ Hv].
    repeat case_match; try done. destruct (Hsend rep Hv) as [x ->]. done.
  - destruct Hp as [_ Hv]. by destruct (Hsend r Hv) as [x ->].
  - by destruct (pc c), (hc c).
Qed.

(** ** Typed worlds *)

Lemma typed_change w s' : typed_world w → keeps_servers (sys w) s' →
  (∀ sn p, server_of (net s') sn = Some p → good s' p) → (looping (net s') = true ∨ closed (net s') = true) →
  typed_world (MkWorld s' (calls w)).
Proof.
  intros [_ Hc _] Hk Hs Hl. split; [done| |done]. eapply map_Forall_impl; [exact Hc|]. intros id c. by apply typed_call_mono.
Qed.

Lemma typed_change_net w rn : typed_world w → servers rn = servers (net (sys w)) →
  (looping rn = true ∨ closed rn = true) → typed_world (MkWorld (set_net (sys w) rn) (calls w)).
Proof.
  intros Hw Hrn Hl. apply typed_change; [done|by intros p| |done].
  intros sn p. unfold server_of. cbn. rewrite Hrn. apply Hw.
Qed.

Lemma typed_change_heap w hp : typed_world w → keeps_servers (sys w) (MkSys (net (sys w)) hp) →
  typed_world (MkWorld (MkSys (net (sys w)) hp) (calls w)).
Proof. intros Hw Hk. apply typed_change; [done|done| |apply Hw]. intros sn p Hp. eapply Hk, Hw, Hp. Qed.

Lemma admin_world ev w s' : typed_world w → typed_event w (EAdmin ev) → admin ev (sys w) = Next s' →
  typed_world (MkWorld s' (calls w)).
Proof.
  intros Hw Hev Ha. pose proof Hw as [Hs _ Hl].
  destruct ev; cbn in Ha; outcomes; try (by apply typed_change_net).
  - unfold MakeEnd in *. case_match; outcomes. by apply typed_change_net.
  - apply typed_change_heap; [done|]. intros q (rs & Hq & Hrs). exists rs. split; [|done]. cbn.
    rewrite lookup_insert_ne; [done|congruence].
  - destruct (heap (sys w) !! p) as [rs|] eqn:E; outcomes. apply typed_change_heap; [done|]. intros q (rs' & Hq & Hrs).
    destruct (decide (p = q)) as [->|Hne].
    + eexists. cbn. rewrite lookup_insert_eq. split; [done|]. simplify_eq. by apply Hev.
    + exists rs'. cbn. by rewrite lookup_insert_ne.
  - apply typed_change; [done|by intros ?| |done]. intros sn p'. cbn. unfold AddServer. rewrite server_of_insert.
    case_decide; [|apply Hs]. by intros [= <-].
  - apply typed_change; [done|by intros ?| |done]. intros sn p'. cbn. unfold DeleteServer. rewrite server_of_insert.
    case_decide; [done|apply Hs].
  - by destruct w.
  - unfold Cleanup in *. case_match; outcomes. apply typed_change_net; auto.
  - apply typed_change_net; auto.
Qed.

Lemma typed_step w w' ev : typed_world w → typed_event w ev → net_exec ev w = Next w' → typed_world w'.
Proof.
  intros Hw Hev He. pose proof Hw as [Hs Hc Hl]. destruct ev as [ev|id e meth a r|id ev]; cbn in He.
  - outcomes. by eapply admin_world.
  - destruct Hev as (t & Hsig & Hr). outcomes. bools. split; try done. apply map_Forall_insert_2; [|done].
    unfold Call in *. case_match; [|done]. simplify_eq. split; [|exists t; cbn; set_solver|done|done]. by split.
  - destruct (calls w !! id) as [c|] eqn:E; [|done]. outcomes.
    match goal with H : own _ _ _ = Next _ |- _ => rename H into Ho end.
    pose proof (own_keeps _ _ _ _ _ Ho) as Hk. pose proof (own_servers _ _ _ _ _ Ho) as Hsv.
    split; cbn.
    + intros sn p. unfold server_of. rewrite Hsv. intros Hp. apply Hk. by eapply Hs.
    + apply map_Forall_insert_2.
      * eapply typed_own; [by apply (Hc id)|exact Hs|by eapply own_moves| |exact Hk].
        eapply own_ok; [|exact Ho]. eapply tc_ok. by apply (Hc id).
      * eapply map_Forall_impl; [exact Hc|]. intros i c'. by apply typed_call_mono.
    + apply own_moves in Ho. by destruct Ho.
Qed.

Definition tstep w w' : Prop := ∃ ev, typed_event w ev ∧ net_exec ev w = Next w'.

Lemma treachable_typed w : rtc tstep start_world w → typed_world w.
Proof.
  remember start_world as w0 eqn:E0. intros Hr.
  assert (typed_world w0) as Hw.
  { rewrite E0. split; [|by apply map_Forall_empty|by left]. intros sn p. unfold server_of. cbn. by rewrite lookup_empty. }
  clear E0. induction Hr as [|w0 w1 w (ev & Hev & He) _ IH]; [done|]. apply IH. by eapply typed_step.
Qed.

(** C25: type safety.  Take a run in which every caller passes an argument of the
    type of the method it names and an empty reply of its type, the registered
    servers have these methods and keep them, and the test does its own part: it makes
    an end with a new name only, counts the RPCs of registered servers only, and
    cleans the network up only once.  Such a run never reaches a state in which one
    more such step stops the process: no unknown service or method, no argument of
    the wrong type, no reply that does not decode, no malformed name. *)
Theorem typed_calls_do_not_exit w ev :
  rtc tstep start_world w → typed_event w ev → net_exec ev w ≠ Exit.
Proof.
  intros Hr%treachable_typed Hev. pose proof Hr as [Hs Hc Hl]. destruct ev as [ev|id e meth a r|id ev]; cbn.
  - assert (admin ev (sys w) ≠ Exit) as Ha; [|by destruct (admin ev (sys w))].
    destruct ev; cbn in *; try done; try (by case_match).
    + unfold MakeEnd. by rewrite bool_decide_eq_false_2.
    + by case_bool_decide.
    + by case_bool_decide.
    + destruct Hev as [p Hp]. destruct (Hs s p Hp) as (rs & Hrs & _). unfold GetCount. rewrite Hp. cbn. by rewrite Hrs.
    + unfold Cleanup. by rewrite Hev.
    + by destruct (closed (net (sys w))).
  - unfold Call. rewrite gob_enc_ok. cbn. by destruct (_ && _).
  - destruct (calls w !! id) as [c|] eqn:E; [|done].
    pose proof (typed_own_exit (sys w) c ev (Hc id c E)). by destruct (own ev (sys w) c) as [| |[]].
Qed.

(** ** Progress *)

Definition pc_rank (p : PC (Name:=Name)) : nat :=
  match p with
  | CSend => 9 | PStart => 8 | PDelay _ _ => 7 | PWait _ => 3 | PCheck _ _ => 2 | PLate _ _ | PTimeout _ => 1 | CDone _ _ => 0
  end.
Definition hc_rank (h : HC) : nat := match h with HNew _ => 3 | HRun _ => 2 | HSend _ => 1 | _ => 0 end.

(** What a call still has to do at most *)
Definition rank c : nat := (pc_rank (pc c) + hc_rank (hc c))%nat.

(** The handler runs on a server that is registered, behind an end that is enabled. *)
Definition handler_running s c : Prop := ∃ t run, pc c = PWait t ∧ hc c = HRun run
  ∧ isServerDead (net s) (endname (c_req c)) (t_name t) (t_server t) = false.

Lemma receive_reply_place c rep c' : receive_reply c rep = Some c' → ∃ b v, c' = set_pc c (CDone b v).
Proof.
  unfold receive_reply. destruct (ok rep); [|intros; simplify_eq; eauto].
  destruct (gob_dec _ _ _) as [v []]; [|done]. intros. simplify_eq. eauto.
Qed.

(** Every step lowers the rank, except looking after a server that is alive. *)
Lemma own_rank s c s' c' : own_move s c s' c' →
  (rank c' < rank c)%nat
  ∨ c' = c ∧ ∃ t, pc c = PWait t ∧ isServerDead (net s) (endname (c_req c)) (t_name t) (t_server t) = false.
Proof.
  unfold rank.
  intros [Ep ?|Ep ?|rnd Ep|t ms Ep|p rs run Eh Hp Ed|run v Eh Hv|t rep Ep Eh|t Ep ?|t Ep ?|Ep|t rep ms Ep ? ?|rep c'' Ep Hc|rep Eh Hn];
    [..|left|]; try (by right; eauto); try left; cbn; try rewrite Ep; try rewrite Eh; cbn; try lia.
  - destruct (process_start_cases (net s) c rnd) as [(ms & -> & _)|(t & ms & -> & _)]; cbn; lia.
  - destruct (pc c); cbn; try done; lia.
  - destruct (receive_reply_place _ _ _ Hc) as (b & v & ->). cbn. destruct (pc c); cbn; try done; lia.
Qed.

Lemma typed_own_taken s c ev : typed_call s c → own ev s c ≠ Blocked →
  (∀ t s', pc c = PWait t → own ev s c ≠ Next (s', c)) →
  ∃ s' c', own ev s c = Next (s', c') ∧ (rank c' < rank c)%nat.
Proof.
  intros Ht Hb Hi. pose proof (typed_own_exit s c ev Ht) as He.
  destruct (own ev s c) as [| |[s' c']] eqn:Ho; [done|done|]. exists s', c'. split; [done|].
  destruct (own_rank _ _ _ _ (own_moves _ _ _ _ _ Ho)) as [?|(-> & t & Ep & _)]; [done|]. by destruct (Hi t s' Ep).
Qed.

Lemma next_step s c : looping (net s) = true ∨ closed (net s) = true → typed_call s c →
  (∃ b v, pc c = CDone b v) ∨ handler_running s c
  ∨ ∃ ev s' c', (∀ v, ev ≠ Return v) ∧ own ev s c = Next (s', c') ∧ (rank c' < rank c)%nat.
Proof.
  intros Hl Ht. pose proof (tc_ok _ _ Ht) as [_ _ Hp]. unfold place_ok in Hp.
  assert (∀ ev, (∀ v, ev ≠ Return v) → own ev s c ≠ Blocked → (∀ t s', pc c = PWait t → own ev s c ≠ Next (s', c)) →
    ∃ ev s' c', (∀ v, ev ≠ Return v) ∧ own ev s c = Next (s', c') ∧ (rank c' < rank c)%nat) as Hstep.
  { intros ev Hv Hb Hi. exists ev. destruct (typed_own_taken s c ev Ht Hb Hi) as (s' & c' & E). eauto. }
  destruct (pc c) as [| |t ms|t|t r|ms r|ms|b v] eqn:Ep;
    [right; right|right; right|right; right| |right; right|right; right|right; right|eauto].
  - destruct Hl as [Hl|Hl]; [apply (Hstep Send)|apply (Hstep GiveUp)]; unfold own; rewrite ?Ep, ?Hl; done.
  - apply (Hstep (Begin 0)); unfold own; by rewrite ?Ep.
  - apply (Hstep (Delayed 0)); unfold own; rewrite ?Ep; [done| |done]. unfold process_delayed. case_match; by rewrite ?receive_failed.
  - destruct Hp as (Hn & Hd & _). destruct (hc c) as [|p|run|rep|] eqn:Eh; [done| | | |done].
    + right; right. apply (Hstep Dispatch); unfold own; rewrite ?Ep, ?Eh; [done|by destruct (handler_call _ _ _)|].
      intros _ s' _ E. apply or_exit_Next, handler_call_hc in E as [run E]. congruence.
    + destruct (isServerDead (net s) (endname (c_req c)) (t_name t) (t_server t)) eqn:Edead; [right; right|right; left].
      * apply (Hstep Tick); unfold own; rewrite ?Ep, ?Eh, ?Edead; [done|done|]. intros _ s' _ [= _ E].
        apply (f_equal pc) in E. cbn in E. congruence.
      * by exists t, run.
    + right; right. apply (Hstep Receive); unfold own; rewrite ?Ep, ?Eh; [done|done|]. intros _ s' _ [= _ E].
      apply (f_equal hc) in E. cbn in E. congruence.
  - apply (Hstep (Decide 0 0 0 0)); unfold own; rewrite ?Ep; [done|by destruct (process_decide _ _ _ _ _ _ _ _)|done].
  - apply (Hstep Fire); unfold own; rewrite ?Ep; [done|by destruct (send_reply _ _ _)|done].
  - apply (Hstep Fire); unfold own; rewrite ?Ep; [done|by rewrite receive_failed|done].
Qed.

(** C26: calls return.  Take a run in which every caller passes an argument of the type
    of the method that it names and an empty reply, the registered servers have
    these methods, and the test makes new ends only, counts at registered servers only and
    cleans up once.  (Otherwise the next step of a call can stop the process,
    [untyped_call_exits].)  In a state of such a run a call has at most nine steps to do, every step of it
    but a look at a server that is alive is one of them, and until it has
    returned it can always do the next, without its handler's help, unless its
    handler is running on a registered server. *)
Theorem call_returns w id c : rtc tstep start_world w → calls w !! id = Some c →
  (rank c <= 9)%nat
  ∧ (∀ ev s' c', own ev (sys w) c = Next (s', c') → c' = c ∨ (rank c' < rank c)%nat)
  ∧ ((∃ b v, pc c = CDone b v) ∨ handler_running (sys w) c
     ∨ ∃ ev s' c', (∀ v, ev ≠ Return v) ∧ own ev (sys w) c = Next (s', c') ∧ (rank c' < rank c)%nat).
Proof.
  intros [_ Hc Hl]%treachable_typed Hid. pose proof (Hc id c Hid) as Ht. split_and!.
  - pose proof (tc_ok _ _ Ht) as [_ _ Hp]. unfold place_ok in Hp. unfold rank.
    destruct (pc c); try rewrite Hp; cbn; try lia; destruct (hc c); cbn; lia.
  - intros ev s' c' [?|[? _]]%own_moves%own_rank; auto.
  - by apply next_step.
Qed.
End typed.
End props.
