(* ===== verification/LabrpcCounts.v ===== *)
(** * The statistics of the simulated network

    The tests limit the number of calls and bytes that the servers use; they ask
    [GetCount], [GetTotalCount] and [GetTotalBytes].  Here: what these count, at
    their widths, in every reachable state; and concrete runs of the network. *)

From S2P Require Import Prelude Labgob Labrpc LabrpcProps.

(** ** Sums over a map *)

Section total.
Context {A : Type}.
Implicit Types (f : A → Z) (m : gmap nat A).

Definition total f m : Z := map_fold (λ _ c acc, f c + acc) 0 m.

Lemma total_insert f m i c : m !! i = None → total f (<[i := c]> m) = f c + total f m.
Proof. intros Hi. unfold total. rewrite map_fold_insert_L; [done|lia|done]. Qed.

Lemma total_update f m i c c' : m !! i = Some c → total f (<[i := c']> m) = total f m + (f c' - f c).
Proof.
  intros Hi. rewrite <- (insert_delete_id m i c Hi) at 2. rewrite <- insert_delete_eq.
  rewrite !total_insert by apply lookup_delete_eq. lia.
Qed.

Lemma total_zero f m : (∀ c, f c = 0) → total f m = 0.
Proof. intros Hf. unfold total. apply (map_fold_weak_ind (λ r _, r = 0)); [done|]. intros. rewrite Hf. lia. Qed.
End total.

Lemma wrap_add bits x k : 0 < bits → wrap bits (wrap bits x + k) = wrap bits (x + k).
Proof.
  intros Hb. unfold wrap. f_equal.
  replace ((x + 2 ^ (bits - 1)) `mod` 2 ^ bits - 2 ^ (bits - 1) + k + 2 ^ (bits - 1))
    with ((x + 2 ^ (bits - 1)) `mod` 2 ^ bits + k) by lia.
  rewrite Zplus_mod_idemp_l. f_equal. lia.
Qed.

Section counts.
Context `{!GoTypes, !GoLaws} {Name : Type} `{Countable Name}.
Implicit Types (c : CallRec (Name:=Name)) (s : Sys (Name:=Name)) (w : World (Name:=Name)).

(** What a call adds to the three statistics *)
Definition sends_of c : Z := if sent c then 1 else 0.
Definition bytes_of c : Z :=
  (if sent c then go_len (args (c_req c)) else 0)
  + match pc c, rets c with CDone true _, v :: _ => go_len (reply (encode_reply v)) | _, _ => 0 end.
Definition runs_on (p : nat) c : Z := go_len (filter (λ r, r_server r = p) (runs c)).

Definition heap_count s (p : nat) : Z := default 0 (srv_count <$> heap s !! p).

(** The change of a statistic is the change of the call's share; [add_traffic]
    wraps around even when it adds nothing. *)
Definition counted (bits x x' d : Z) : Prop := x' = wrap bits (x + d) ∨ x' = x ∧ d = 0.

Record accounts s c s' c' : Prop := Accounts {
  ac_count : counted 32 (count (net s)) (count (net s')) (sends_of c' - sends_of c);
  ac_bytes : counted 64 (nbytes (net s)) (nbytes (net s')) (bytes_of c' - bytes_of c);
  ac_runs p : heap_count s' p = heap_count s p + (runs_on p c' - runs_on p c);
}.

Lemma counted_wrap bits x x' d X : 0 < bits → counted bits x x' d → x = wrap bits X → x' = wrap bits (X + d).
Proof. intros Hb [->|[-> ->]] ->; [by apply wrap_add|by rewrite Z.add_0_r]. Qed.

Lemma counted_0 bits x d : d = 0 → counted bits x x d.
Proof. by right. Qed.

(** Nothing that is counted changes. *)
Lemma accounts_same s c c' : sent c' = sent c → c_req c' = c_req c → runs c' = runs c →
  (∀ v, pc c ≠ CDone true v) → (∀ v, pc c' ≠ CDone true v) → accounts s c s c'.
Proof.
  intros Es Er Ers Hp Hp'. split.
  - apply counted_0. unfold sends_of. rewrite Es. lia.
  - apply counted_0. unfold bytes_of. rewrite Es, Er.
    destruct (pc c) as [| | | | | | |[]], (pc c') as [| | | | | | |[]]; try lia; naive_solver.
  - intros p. unfold runs_on. rewrite Ers. lia.
Qed.

Lemma waiting_not_true (p : PC (Name:=Name)) : waiting p → ∀ v, p ≠ CDone true v.
Proof. intros Hw v ->. done. Qed.

Lemma bytes_unreplied c : (∀ v, pc c ≠ CDone true v) → bytes_of c = if sent c then go_len (args (c_req c)) else 0.
Proof. intros Hp. unfold bytes_of. destruct (pc c) as [| | | | | | |[]]; try lia; naive_solver. Qed.

Lemma dispatch_accounts s c p rs run : call_ok c → hc c = HNew p → heap s !! p = Some rs → r_server run = p →
  accounts s c (MkSys (net s) (<[p := MkServer (services rs) (srv_count rs + 1)]> (heap s)))
    (MkCall (c_req c) (c_arg c) (c_reply c) (pc c) (HRun run) (sent c) (runs c ++ [run]) (rets c)).
Proof.
  intros [_ _ Hp] Eh Hrs Hsv. split.
  - apply counted_0. unfold sends_of. cbn. lia.
  - apply counted_0. unfold bytes_of. cbn. lia.
  - intros q. unfold heap_count, runs_on. cbn. rewrite filter_app, go_len_app, filter_cons, filter_nil.
    destruct (decide (p = q)) as [->|Hne].
    + rewrite lookup_insert_eq, Hrs. cbn. rewrite decide_True by done. rewrite go_len_cons. change (go_len (@nil Run)) with 0. lia.
    + rewrite lookup_insert_ne by done. rewrite decide_False by congruence. change (go_len (@nil Run)) with 0. lia.
Qed.

Lemma reply_accounts s c v c' : answered c v → (∀ v, pc c ≠ CDone true v) → receive_reply c (encode_reply v) = Some c' →
  accounts s c (set_net s (add_traffic (net s) 0 (go_len (reply (encode_reply v))))) c'.
Proof.
  intros (run & _ & _ & Hv & _) Hp Hc. unfold receive_reply in Hc. cbn in Hc. destruct (gob_dec _ _ _) as [v' []]; [|done].
  simplify_eq. split.
  - left. unfold sends_of. cbn. f_equal. lia.
  - left. cbn. f_equal. rewrite (bytes_unreplied c) by done. unfold bytes_of. cbn. rewrite Hv. cbn. lia.
  - intros q. unfold heap_count, runs_on. cbn. lia.
Qed.

Lemma own_accounts s c s' c' : call_ok c → (pc c = CSend → sent c = false) → own_move s c s' c' → accounts s c s' c'.
Proof.
  intros Hok Hu Ho. pose proof Hok as [Hr _ Hp].
  assert (active (hc c) → ∀ v, pc c ≠ CDone true v) as Hact by (intros; by apply waiting_not_true, active_waiting).
  destruct Ho as [Ep ?|Ep ?|rnd Ep|t ms Ep|p rs run Eh Hrs Ed|run v Eh Hv|t rep Ep Eh|t Ep ?|t Ep ?|Ep|t rep ms Ep ? ?|rep c' Ep Hc|rep Eh Hn];
    try (apply accounts_same; try done; by rewrite Ep).
  - specialize (Hu Ep). split.
    + left. cbn. f_equal. unfold sends_of. rewrite Hu. cbn. lia.
    + left. cbn. f_equal. rewrite !bytes_unreplied by (cbn; by rewrite ?Ep). rewrite Hu. cbn. lia.
    + intros q. unfold heap_count, runs_on. cbn. lia.
  - destruct (process_start_cases (net s) c rnd) as [(ms & -> & _)|(t & ms & -> & _)]; apply accounts_same; try done; by rewrite Ep.
  - destruct (Server_dispatch_run _ _ _ _ _ Hr Ed) as (_ & Hsv & _). by apply dispatch_accounts.
  - apply accounts_same; try done; apply Hact; by rewrite Eh.
  - apply accounts_same; try done; by destruct (pc c).
  - unfold place_ok in Hp.
    assert ((∃ v, answered c v ∧ rep = encode_reply v) ∧ ∀ v, pc c ≠ CDone true v) as [(v & Hv & ->) Hpc].
    { destruct (pc c) as [| | | |t [rep'|]| | |]; try done; [destruct Ep as [-> _]|subst]; by destruct Hp. }
    by apply reply_accounts.
  - apply accounts_same; try done; apply Hact; by rewrite Eh.
Qed.

(** ** The invariant *)

Record counts_ok w : Prop := CountsOk {
  ct_calls : map_Forall (λ _ c, call_ok c ∧ (pc c = CSend → sent c = false)) (calls w);
  ct_count : count (net (sys w)) = wrap 32 (total sends_of (calls w));
  ct_bytes : nbytes (net (sys w)) = wrap 64 (total bytes_of (calls w));
  ct_runs p : heap_count (sys w) p = total (runs_on p) (calls w);
}.

Lemma own_unsent s c s' c' : own_move s c s' c' → (pc c = CSend → sent c = false) → pc c' = CSend → sent c' = false.
Proof.
  intros Ho Hu.
  destruct Ho as [Ep ?|Ep ?|rnd Ep|t ms Ep|p rs run Eh Hrs Ed|run v Eh Hv|t rep Ep Eh|t Ep ?|t Ep ?|Ep|t rep ms Ep ? ?|rep c' Ep Hc|rep Eh Hn];
    try done.
  - destruct (process_start_cases (net s) c rnd) as [(ms & -> & _)|(t & ms & -> & _)]; done.
  - by destruct (receive_reply_place _ _ _ Hc) as (b & v & ->).
Qed.

Lemma admin_counts ev s s' : admin (Name:=Name) ev s = Next s' →
  count (net s') = count (net s) ∧ nbytes (net s') = nbytes (net s) ∧ ∀ p, heap_count s' p = heap_count s p.
Proof.
  destruct ev; cbn; intros; outcomes; try done.
  - unfold MakeEnd in *. case_match; by outcomes.
  - split_and!; [done..|]. intros q. unfold heap_count. cbn. destruct (decide (p = q)) as [->|Hne].
    + rewrite lookup_insert_eq. by match goal with E : heap s !! q = None |- _ => rewrite E end.
    + by rewrite lookup_insert_ne.
  - destruct (heap s !! p) as [rs|] eqn:E; outcomes. split_and!; [done..|]. intros q. unfold heap_count. cbn.
    destruct (decide (p = q)) as [->|Hne]; [by rewrite lookup_insert_eq, E|by rewrite lookup_insert_ne].
  - unfold Cleanup in *. case_match; by outcomes.
Qed.

Lemma counts_step ev w w' : counts_ok w → net_exec ev w = Next w' → counts_ok w'.
Proof.
  intros [Hc Hn Hb Hh]. destruct ev as [ev|id e meth a r|id ev]; cbn.
  - intros. outcomes. match goal with E : admin _ _ = _ |- _ => destruct (admin_counts _ _ _ E) as (E1 & E2 & E3) end.
    split; cbn; [done|by rewrite E1|by rewrite E2|]. intros p. by rewrite E3.
  - intros. outcomes. bools. match goal with E : Call _ _ _ _ = Some _ |- _ => rename E into Ec end.
    pose proof (Call_ok _ _ _ _ _ Ec). unfold Call in Ec. case_match; [|done]. simplify_eq.
    split; cbn; [by apply map_Forall_insert_2|rewrite total_insert by done; cbn..|]; [by rewrite Hn|by rewrite Hb|].
    intros p. rewrite total_insert by done. by rewrite Hh.
  - destruct (calls w !! id) as [c|] eqn:E; [|done]. intros. outcomes.
    match goal with H : own _ _ _ = Next _ |- _ => rename H into Ho end. destruct (Hc id c E) as [Hok Hu].
    pose proof (own_ok _ _ _ _ _ Hok Ho) as Hok'. apply own_moves in Ho.
    destruct (own_accounts _ _ _ _ Hok Hu Ho) as [A1 A2 A3]. split; cbn.
    + apply map_Forall_insert_2; [|done]. split; [done|]. by eapply own_unsent.
    + erewrite total_update by done. by eapply counted_wrap.
    + erewrite total_update by done. by eapply counted_wrap.
    + intros p. erewrite total_update by done. by rewrite A3, Hh.
Qed.

Lemma reachable_counts w : net_reachable w → counts_ok w.
Proof.
  intros Hr. unfold net_reachable in Hr. remember start_world as w0 eqn:E0. assert (counts_ok w0) as Hw0.
  { rewrite E0. split; cbn; [by apply map_Forall_empty|done..|]. intros p. unfold heap_count. cbn. by rewrite lookup_empty. }
  clear E0. induction Hr as [|w0 w1 w [ev Hev] _ IH]; [done|]. apply IH. by eapply counts_step.
Qed.

(** C30: the statistics are right.  The network's count is the number of requests it
    received, at 32 bits; its bytes are those of the arguments received and of
    the replies delivered, at 64 bits; a server's count is the number of handlers
    called on it. *)
Theorem network_statistics w : net_reachable w →
  GetTotalCount (net (sys w)) = wrap 32 (total sends_of (calls w))
  ∧ GetTotalBytes (net (sys w)) = wrap 64 (total bytes_of (calls w))
  ∧ ∀ sn n, GetCount (sys w) sn = Some n →
      ∃ p, server_of (net (sys w)) sn = Some p ∧ n = total (runs_on p) (calls w).
Proof.
  intros [_ Hn Hb Hh]%reachable_counts.
  split_and!; [done|done|]. intros sn n Hg. unfold GetCount in Hg. outcomes. eexists. split; [done|].
  rewrite <- Hh. unfold heap_count. match goal with E : heap _ !! _ = _ |- _ => rewrite E end. done.
Qed.
End counts.

(** * Runs

    A server with one method, an end connected to it and one call: the
    hypotheses of the theorems on the network can be met. *)

(** Integers and pointers to integers, with the codec of Labgob.v. *)
Inductive wty := WInt | WPtr.

#[local] Instance wty_eq_dec : EqDecision wty.
Proof. solve_decision. Defined.

#[local] Instance int_types : GoTypes := {|
  ty := wty;
  ty_eq_dec := wty_eq_dec;
  val _ := Z;
  zero _ := 0;
  ptr_elem t := match t with WPtr => Some WInt | WInt => None end;
  gob_enc t x := (@gob_encode Z countable_codec x, true);
  gob_dec t b x := match @gob_decode Z countable_codec b with Some y => (y, true) | None => (x, false) end;
|}.

#[local] Instance int_laws : @GoLaws int_types.
Proof. split; [done|]. intros t x. cbn -[gob_decode gob_encode]. by rewrite (@gob_roundtrip Z _ countable_laws). Qed.

Abbreviation IWorld := (@World int_types Z _ _).
Abbreviation IEvent := (@Event int_types Z).

Definition int_any (x : Z) : any := Any (WInt : ty) (x : val WInt).

(** The method [Add] of [Counter]: [func (c *Counter) Add(args int, reply *int)] *)
Definition int_ptr : ty := WPtr.
Definition add_method : Method := MkMethod "Add" "" [int_ptr; WInt : ty; int_ptr] 0.

Definition counter : Service :=
  MakeService "Counter" [add_method; MkMethod "hidden" "main" [WPtr : ty] 1].

Definition counter_sig (sm : string) : option (ty * ty) :=
  if bool_decide (sm = "Counter.Add"%string) then Some (WInt : ty, WInt : ty) else None.

(** Only [Add] is a handler. *)
Example counter_methods : (fst <$> map_to_list (methods counter)) = ["Add"%string].
Proof. vm_compute. reflexivity. Qed.

Fixpoint net_execs (evs : list IEvent) (w : IWorld) : Outcome IWorld :=
  match evs with [] => Next w | ev :: evs => w ← net_exec ev w; net_execs evs w end.

Lemma net_execs_run evs w w' : net_execs evs w = Next w' → rtc netstep w w'.
Proof.
  revert w. induction evs as [|ev evs IH]; intros w E; cbn in E; [by simplify_eq|].
  apply Outcome_bind_Next in E as (w1 & E1 & E). eapply rtc_l; [by exists ev|]. by apply IH.
Qed.

Definition setup : list IEvent :=
  [EAdmin (DoMakeServer 0); EAdmin (DoAddService 0 counter); EAdmin (DoMakeEnd 10); EAdmin (DoAddServer 7 0);
   EAdmin (DoConnect 10 7); EAdmin (DoEnable 10 true); ECall 0 10 "Counter.Add" (int_any 3) (int_any 0);
   EOwn 0 Send; EOwn 0 (Begin 0); EOwn 0 (Delayed 0)].

Definition finish : list IEvent :=
  [EOwn 0 Dispatch; EOwn 0 (Return (int_any 4)); EOwn 0 Receive; EOwn 0 (Decide 0 0 0 0)].

Definition world_after (evs : list IEvent) : IWorld :=
  match net_execs evs start_world with Next w => w | _ => start_world end.

Definition runs_through (evs : list IEvent) : bool :=
  match net_execs evs start_world with Next _ => true | _ => false end.

Lemma world_after_reachable evs : runs_through evs = true → net_reachable (world_after evs).
Proof.
  unfold runs_through, world_after. destruct (net_execs evs start_world) eqn:E; try done. intros _.
  by eapply net_execs_run.
Qed.

(** The call after its last step, and after its request reached the server. *)
Definition done_call : CallRec (Name:=Z) :=
  default (MkCall (MkReq 0 "" WInt []) (int_any 0) (int_any 0) CSend HNone false [] []) (calls (world_after (setup ++ finish)) !! 0%nat).
Definition sent_call : CallRec (Name:=Z) :=
  default (MkCall (MkReq 0 "" WInt []) (int_any 0) (int_any 0) CSend HNone false [] []) (calls (world_after setup) !! 0%nat).

Lemma rpc_at_most_once_witness :
  calls (world_after (setup ++ finish)) !! 0%nat = Some done_call ∧ (length (runs done_call) <= 1)%nat.
Proof.
  split; [vm_compute; reflexivity|].
  apply (rpc_at_most_once (world_after (setup ++ finish)) 0 done_call);
    [apply world_after_reachable; vm_compute; reflexivity|vm_compute; reflexivity].
Defined.

Lemma call_true_executed_witness :
  ∃ run r, runs done_call = [run] ∧ rets done_call = [r] ∧ r_arg run = int_any 3 ∧ int_any 4 = r.
Proof.
  destruct (call_true_executed (world_after (setup ++ finish)) 0 done_call (int_any 4)) as (run & r & E1 & E2 & E3 & _ & E5);
    [apply world_after_reachable; vm_compute; reflexivity|vm_compute; reflexivity|vm_compute; reflexivity|].
  exists run, r. split; [exact E1|]. split; [exact E2|]. split; [rewrite E3; vm_compute; reflexivity|].
  apply E5. assert (run = MkRun 0 "Counter" "Add" (int_any 3) WInt) as ->; [|vm_compute; reflexivity].
  assert (runs done_call = [MkRun 0 "Counter" "Add" (int_any 3) WInt]) as E6 by (vm_compute; reflexivity). congruence.
Defined.

(** The server is deleted while the handler has not been called. *)
Definition deleted : IWorld := world_after (setup ++ [EAdmin (DoDeleteServer 7)]).

Lemma net_execs_not_adding p evs w w' :
  Forall (λ ev, ∀ sn, ev ≠ EAdmin (DoAddServer sn p)) evs → net_execs evs w = Next w' → rtc (not_adding p) w w'.
Proof.
  intros Hf. revert w. induction Hf as [|ev evs Hev _ IH]; intros w E; cbn in E; [by simplify_eq|].
  apply Outcome_bind_Next in E as (w1 & E1 & E). eapply rtc_l; [by exists ev|]. by apply IH.
Qed.

Lemma deleted_detached : detached (net (sys deleted)) 0.
Proof.
  intros sn. unfold server_of.
  assert (servers (net (sys deleted)) = {[7 := None]}) as -> by (vm_compute; reflexivity).
  destruct (decide (sn = 7)) as [->|Hne]; [by rewrite lookup_singleton_eq|by rewrite lookup_singleton_ne].
Qed.

Lemma finish_not_adding : Forall (λ ev : IEvent, ∀ sn, ev ≠ EAdmin (DoAddServer sn 0)) finish.
Proof. repeat constructor; intros; discriminate. Qed.

Lemma deleted_server_silent_witness :
  ∃ c', calls (world_after (setup ++ [EAdmin (DoDeleteServer 7)] ++ finish)) !! 0%nat = Some c' ∧ ∀ v, pc c' ≠ CDone true v.
Proof.
  apply (deleted_server_silent 0 deleted _ 0 sent_call).
  - exact deleted_detached.
  - vm_compute. reflexivity.
  - vm_compute. reflexivity.
  - apply (net_execs_not_adding 0 finish); [exact finish_not_adding|vm_compute; reflexivity].
Defined.

Lemma network_statistics_witness :
  net_reachable (world_after (setup ++ finish)) ∧ GetTotalCount (net (sys (world_after (setup ++ finish)))) = 1
  ∧ GetTotalCount (net (sys (world_after (setup ++ finish)))) = wrap 32 (total sends_of (calls (world_after (setup ++ finish)))).
Proof.
  assert (net_reachable (world_after (setup ++ finish))) as Hr by (apply world_after_reachable; vm_compute; reflexivity).
  split; [exact Hr|]. split; [vm_compute; reflexivity|]. apply (network_statistics _ Hr).
Defined.

(** ** The run is well typed *)

(** [Counter] with a method [Add] of the right type *)
Definition counter_ok (svc : Service) : bool :=
  bool_decide (name svc = "Counter"%string)
  && match methods svc !! "Add"%string with
     | Some m => bool_decide (Ins m !! 1%nat = Some (any_ty (int_any 0))) && bool_decide (Ins m !! 2%nat = Some int_ptr)
     | None => false
     end.

Lemma counter_ok_typed rs svc :
  counter_ok svc = true → services rs !! "Counter"%string = Some svc → typed_server counter_sig rs.
Proof.
  unfold counter_ok. destruct (methods svc !! "Add"%string) as [m|] eqn:Em; intros Hok Hs; bools; [|done].
  intros sm a r. unfold counter_sig. case_bool_decide as E; [|done]. intros [= <- <-]. subst sm.
  exists "Counter"%string, "Add"%string, svc, m, int_ptr. split; [vm_compute; reflexivity|]. done.
Qed.

(** Events that are well typed in [w] *)
Definition typedb (w : IWorld) (ev : IEvent) : bool :=
  match ev with
  | ECall _ _ meth a r => bool_decide (meth = "Counter.Add"%string) && bool_decide (any_ty a = any_ty (int_any 0))
      && bool_decide (any_ty r = any_ty (int_any 0)) && (any_val r =? 0)
  | EAdmin (DoAddServer _ p) =>
    match heap (sys w) !! p with
    | Some rs => match services rs !! "Counter"%string with Some svc => counter_ok svc | None => false end
    | None => false
    end
  | EAdmin (DoAddService _ svc) => counter_ok svc
  | EAdmin (DoMakeServer _) | EAdmin (DoConnect _ _) | EAdmin (DoEnable _ _) | EOwn _ _ => true
  | EAdmin (DoMakeEnd e) => bool_decide (e ∉ ends (net (sys w)))
  | _ => false
  end.

Lemma typedb_spec w ev : typedb w ev = true → typed_event counter_sig w ev.
Proof.
  destruct ev as [[]| |]; cbn [typedb typed_event]; try done.
  - by intros ?%bool_decide_eq_true.
  - intros Hok rs _. eapply counter_ok_typed; [exact Hok|]. unfold counter_ok in Hok. bools.
    cbn. match goal with E : name svc = _ |- _ => rewrite E end. apply lookup_insert_eq.
  - destruct (heap (sys w) !! p) as [rs|] eqn:E; [|done]. destruct (services rs !! _) as [svc|] eqn:Es; [|done].
    intros Hok. exists rs. split; [done|]. by eapply counter_ok_typed.
  - intros Hb. bools. destruct r as [t v], a as [t' a]. cbn in *. subst. exists WInt. by split.
Qed.

Fixpoint typed_execs (evs : list IEvent) (w : IWorld) : option IWorld :=
  match evs with
  | [] => Some w
  | ev :: evs => if typedb w ev then match net_exec ev w with Next w => typed_execs evs w | _ => None end else None
  end.

Lemma typed_execs_run evs w w' : typed_execs evs w = Some w' → rtc (tstep counter_sig) w w'.
Proof.
  revert w. induction evs as [|ev evs IH]; intros w E; cbn in E; [by simplify_eq|].
  destruct (typedb w ev) eqn:Ht; [|done]. destruct (net_exec ev w) as [| |w1] eqn:E1; [done|done|].
  eapply rtc_l; [by exists ev; split; [apply typedb_spec|]|]. by apply IH.
Qed.

Definition well_typed (evs : list IEvent) : bool :=
  match typed_execs evs start_world with Some _ => true | None => false end.

Lemma world_after_typed evs : well_typed evs = true → rtc (tstep counter_sig) start_world (world_after evs).
Proof.
  unfold well_typed. destruct (typed_execs evs start_world) as [w|] eqn:E; [|done]. intros _.
  assert (net_execs evs start_world = Next w) as E'.
  { revert E. generalize (start_world : IWorld). induction evs as [|ev evs IH]; intros w0 E; cbn in E |- *; [by simplify_eq|].
    destruct (typedb w0 ev); [|done]. destruct (net_exec ev w0); cbn; [done|done|]. by apply IH. }
  unfold world_after. rewrite E'. by eapply typed_execs_run.
Qed.

Lemma setup_treachable : rtc (tstep counter_sig) start_world (world_after setup).
Proof. apply world_after_typed. vm_compute. reflexivity. Qed.

Lemma typed_calls_do_not_exit_witness :
  rtc (tstep counter_sig) start_world (world_after setup) ∧ net_exec (EOwn 0 Dispatch) (world_after setup) ≠ Exit.
Proof.
  split; [exact setup_treachable|].
  apply (typed_calls_do_not_exit counter_sig (world_after setup) (EOwn 0 Dispatch)); [exact setup_treachable|exact I].
Defined.

(** Without the types the process stops. *)
Example untyped_call_exits :
  net_execs (setup ++ [ECall 1 10 "Counter.Sub" (int_any 3) (int_any 0); EOwn 1 Send; EOwn 1 (Begin 0);
                       EOwn 1 (Delayed 0); EOwn 1 Dispatch]) start_world = Exit.
Proof. vm_compute. reflexivity. Qed.

Lemma call_returns_witness :
  calls (world_after setup) !! 0%nat = Some sent_call ∧ rank sent_call = 6%nat
  ∧ ((∃ b v, pc sent_call = CDone b v) ∨ handler_running (sys (world_after setup)) sent_call
     ∨ ∃ ev s' c', (∀ v, ev ≠ Return v) ∧ own ev (sys (world_after setup)) sent_call = Next (s', c') ∧ (rank c' < rank sent_call)%nat).
Proof.
  split; [vm_compute; reflexivity|]. split; [vm_compute; reflexivity|].
  apply (call_returns counter_sig (world_after setup) 0 sent_call); [exact setup_treachable|vm_compute; reflexivity].
Defined.
