(* ===== verification/LabNet.v ===== *)
(** * Ends and servers, as the test configurations set them up

    raft/config.go, kvraft/config.go, shardctrler/config.go and shardkv/config.go put
    their servers on the network of [Labrpc] with the same few loops: ends with
    random names are made and connected, enabled and disabled; a server is
    registered with its services.  The random names are arguments. *)

From S2P Require Import Prelude Labrpc.

(** Names of ends and servers are of type [interface{}]: strings and numbers. *)
Definition net_name : Type := string + Z.

Definition end_name (s : string) : net_name := inl s.
#[global] Arguments end_name _ : simpl never.

Definition server_name (i : Z) : net_name := inr i.
#[global] Arguments server_name _ : simpl never.

#[global] Instance server_name_inj : Inj (=) (=) server_name.
Proof. by intros ?? [= ->]. Qed.
#[global] Instance end_name_inj : Inj (=) (=) end_name.
Proof. by intros ?? [= ->]. Qed.

#[global] Instance net_name_eq_dec : EqDecision net_name := _.
#[global] Instance net_name_countable : Countable net_name := _.

Section net.
Context `{!GoTypes}.
Implicit Types (rn : Network (Name := net_name)) (names : list string) (e : net_name).

(** [Enable] for each of the names *)
Definition enables (b : bool) rn names : Network (Name := net_name) := foldl (λ rn x, Enable rn (end_name x) b) rn names.

(** The loop of [MakeEnd] and [Connect]: the ends from [j] on, to the servers that
    [server] names.  It exits when a name is in use. *)
Fixpoint make_ends rn names (j : Z) (server : Z → net_name) : option (Network (Name := net_name)) :=
  match names with
  | [] => Some rn
  | x :: names => rn ← MakeEnd rn (end_name x); make_ends (Connect rn (end_name x) (server j)) names (j + 1) server
  end.

(** A new server object with the services [svcs], registered under a name *)
Definition add_server (s : Sys (Name := net_name)) (servername : net_name) (svcs : list Service) : Sys (Name := net_name) :=
  let p := fresh (dom (heap s)) in
  MkSys (AddServer (net s) servername p) (<[p := foldl AddService MakeServer svcs]> (heap s)).

(** ** What they do *)

Lemma is_enabled_Enable rn e b e' : is_enabled (Enable rn e b) e' = if decide (e' = e) then b else is_enabled rn e'.
Proof.
  unfold is_enabled; cbn. case_decide as He; [subst e'; by rewrite lookup_insert_eq|by rewrite lookup_insert_ne].
Qed.

(** Networks that differ in nothing but which ends are enabled *)
Definition same_wiring rn rn' : Prop :=
  ends rn' = ends rn ∧ connections rn' = connections rn ∧ servers rn' = servers rn ∧ reliable rn' = reliable rn.

#[global] Instance same_wiring_refl : Reflexive same_wiring.
Proof. done. Qed.
#[global] Instance same_wiring_trans : Transitive same_wiring.
Proof. intros x y z (? & ? & ? & ?) (? & ? & ? & ?). split_and!; congruence. Qed.

Lemma decide_cons_ne {A} (e x : net_name) (l : list net_name) (a b : A) : e ≠ x →
  (if decide (e ∈ x :: l) then a else b) = if decide (e ∈ l) then a else b.
Proof. intros Hne. apply decide_ext. rewrite elem_of_cons. tauto. Qed.

Lemma enables_spec b rn names :
  same_wiring rn (enables b rn names)
  ∧ ∀ e, is_enabled (enables b rn names) e = if decide (e ∈ end_name <$> names) then b else is_enabled rn e.
Proof.
  revert rn. induction names as [|x names IH]; intros rn; cbn [enables foldl]; [split; [done|]|].
  - intros e. by rewrite decide_False by by intros ?%elem_of_nil.
  - destruct (IH (Enable rn (end_name x) b)) as [Hs He]. split; [by etrans; [|exact Hs]|].
    intros e. unfold enables in He. rewrite He, is_enabled_Enable, fmap_cons.
    destruct (decide (e = end_name x)) as [->|Hne]; [|by rewrite decide_cons_ne].
    rewrite (decide_True (P := _ ∈ end_name x :: _)) by by left. by case_decide.
Qed.

Lemma make_ends_spec rn names j server :
  NoDup names → (∀ x, x ∈ names → end_name x ∉ ends rn) →
  ∃ rn', make_ends rn names j server = Some rn'
    ∧ ends rn' = list_to_set (end_name <$> names) ∪ ends rn
    ∧ (∀ e, is_enabled rn' e = if decide (e ∈ end_name <$> names) then false else is_enabled rn e)
    ∧ (∀ (k : nat) x, names !! k = Some x → connections rn' !! end_name x = Some (Some (server (j + Z.of_nat k))))
    ∧ (∀ e, e ∉ end_name <$> names → connections rn' !! e = connections rn !! e)
    ∧ servers rn' = servers rn ∧ reliable rn' = reliable rn.
Proof.
  revert rn j. induction names as [|x names IH]; intros rn j Hnd Hfr; cbn [make_ends].
  - exists rn. rewrite fmap_nil. split_and!; try done. set_solver.
  - apply NoDup_cons in Hnd as [Hx Hnd]. unfold MakeEnd at 1. rewrite bool_decide_false by (apply Hfr; by left).
    cbn [mbind option_bind]. set (rn1 := Connect _ _ _).
    destruct (IH rn1 (j + 1) Hnd) as (rn' & Hr & Hends & Hen & Hco & Hco' & Hsv & Hrel).
    { intros e He. cbn. rewrite not_elem_of_union, not_elem_of_singleton. split; [by intros [= ->]|apply Hfr; by right]. }
    exists rn'. rewrite fmap_cons. split_and!; try done.
    + rewrite Hends. cbn. set_solver.
    + intros e. rewrite Hen. unfold is_enabled at 1, rn1; cbn.
      destruct (decide (e = end_name x)) as [->|Hne].
      * rewrite lookup_insert_eq. rewrite (decide_True (P := _ ∈ end_name x :: _)) by by left. by case_decide.
      * by rewrite lookup_insert_ne, decide_cons_ne.
    + intros [|k] y Hy; cbn in Hy.
      * injection Hy as <-. rewrite Hco' by by intros ?%(list_elem_of_fmap_inj_2 _).
        cbn. rewrite lookup_insert_eq. do 3 f_equal. lia.
      * rewrite (Hco k y Hy). do 3 f_equal. lia.
    + intros e [Hne He]%not_elem_of_cons. rewrite Hco' by done. cbn. by rewrite !lookup_insert_ne.
Qed.
End net.

(** ** [random_handles]: a shuffled copy *)

Section shuffle.
Context {A : Type}.
Implicit Types (l : list A) (rs : list Z).

(** [sa[i], sa[j] = sa[j], sa[i]] *)
Definition swap l (i j : Z) : option (list A) :=
  x ← go_index l i; y ← go_index l j; l ← go_update l i y; go_update l j x.

(** [rs] are the random numbers, one for each index. *)
Fixpoint shuffle_from l (i : Z) rs : option (list A) :=
  match rs with
  | [] => Some l
  | r :: rs => l ← swap l i (r `mod` (i + 1)); shuffle_from l (i + 1) rs
  end.

Definition random_handles (kvh : list A) rs : option (list A) := shuffle_from kvh 0 (take (length kvh) rs).

Lemma swap_permutes l (i j : Z) : 0 <= i < go_len l → 0 <= j < go_len l → ∃ l', swap l i j = Some l' ∧ l' ≡ₚ l.
Proof.
  unfold go_len. intros Hi Hj. unfold swap, go_update, go_len.
  destruct (go_index_lt l i) as [x Hx]; [done|]. destruct (go_index_lt l j) as [y Hy]; [done|]. rewrite Hx, Hy.
  cbn [mbind option_bind]. rewrite (proj2 (andb_true_iff _ _)) by lia. cbn [mbind option_bind].
  rewrite length_insert, (proj2 (andb_true_iff _ _)) by lia. eexists. split; [done|].
  apply go_index_lookup in Hx as [_ Hx], Hy as [_ Hy]. by apply Permutation_insert_swap.
Qed.

(** The servers are in a random order, and all of them are there. *)
Lemma random_handles_permutes l rs : (length l <= length rs)%nat → ∃ l', random_handles l rs = Some l' ∧ l' ≡ₚ l.
Proof.
  intros Hrs. unfold random_handles.
  assert (∀ rs (i : Z) l, 0 <= i → i + Z.of_nat (length rs) <= go_len l → ∃ l', shuffle_from l i rs = Some l' ∧ l' ≡ₚ l) as Hall.
  { clear. intros rs. induction rs as [|r rs IH]; intros i l Hi Hl; cbn [shuffle_from length] in *; [by exists l|].
    pose proof (Z.mod_pos_bound r (i + 1) ltac:(lia)).
    destruct (swap_permutes l i (r `mod` (i + 1))) as (l1 & -> & Hp1); [lia..|]. cbn [mbind option_bind].
    destruct (IH (i + 1) l1) as (l2 & -> & Hp2); [lia| |].
    - unfold go_len in *. rewrite Hp1. lia.
    - exists l2. split; [done|]. by etrans. }
  apply Hall; [lia|]. rewrite length_take. unfold go_len. lia.
Qed.
End shuffle.
