(* ===== verification/Clerk.v ===== *)
(** * The clerks (kvraft/client.go, shardctrler/client.go)

    A clerk numbers its operations, sends each to the server it believes to be
    the leader and, until a reply is accepted, moves on to the next server.  The
    outcome of every remote call ([None] when [Call] returns false) is an input
    of the model: a list consumed one call at a time. *)

From S2P Require Import Prelude Util.

Record Clerk := MkClerk {
  servers : Z;        (** [len(ck.servers)] *)
  me : Z;
  currentLeader : Z;
  nextOpId : Z;
}.

(** [MakeClerk]: the package variable [clientId], which starts at [NA], is
    incremented and the clerk's identifier is its remainder by 100. *)
Definition MakeClerk (clientId nservers : Z) : Z * Clerk :=
  let clientId := clientId + 1 in
  (clientId, MkClerk nservers (Z.rem clientId 100) 0 0).

Definition changeLeaderL (ck : Clerk) : Clerk :=
  let leader := currentLeader ck + 1 in
  MkClerk (servers ck) (me ck) (if leader >=? servers ck then 0 else leader) (nextOpId ck).

Section send.
Context {V : Type}.

(** The errors that end the loop: OK, and for kvraft ErrNoKey too. *)
Context (accept : Err → bool).

(** [_sendOpL]: the clerk, the accepted value and the servers that were called;
    [None] when the outcomes end before a reply is accepted. *)
Fixpoint sendOpL_loop (ck : Clerk) (outcomes : list (option (Err * V))) : option (Clerk * V * list Z) :=
  match outcomes with
  | [] => None
  | outcome :: outcomes =>
    let leaderId := currentLeader ck in
    match outcome with
    | Some (err, v) =>
      if accept err then Some (ck, v, [leaderId])
      else '(ck, v, called) ← sendOpL_loop (changeLeaderL ck) outcomes; Some (ck, v, leaderId :: called)
    | None =>
      '(ck, v, called) ← sendOpL_loop (changeLeaderL ck) outcomes; Some (ck, v, leaderId :: called)
    end
  end.

(** [sendOpL]: the operation is sent under the number that [nextOpId] had. *)
Definition sendOpL (ck : Clerk) (outcomes : list (option (Err * V))) : option (Z * (Clerk * V * list Z)) :=
  let opId := nextOpId ck in
  res ← sendOpL_loop (MkClerk (servers ck) (me ck) (currentLeader ck) (nextOpId ck + 1)) outcomes;
  Some (opId, res).

(** ** Properties *)

Definition clerk_wf (ck : Clerk) : Prop := 0 <= currentLeader ck < servers ck.

Lemma changeLeaderL_wf ck : clerk_wf ck → clerk_wf (changeLeaderL ck).
Proof. unfold clerk_wf, changeLeaderL; cbn. intros. destruct (_ >=? _) eqn:E; bools; lia. Qed.

Lemma changeLeaderL_mod ck :
  clerk_wf ck → currentLeader (changeLeaderL ck) = (currentLeader ck + 1) mod servers ck.
Proof.
  unfold clerk_wf, changeLeaderL; cbn. intros. destruct (_ >=? _) eqn:E; bools.
  - replace (currentLeader ck + 1) with (servers ck) by lia. by rewrite Z.mod_same by lia.
  - rewrite Z.mod_small; lia.
Qed.

Definition refused (o : option (Err * V)) : bool :=
  match o with Some (err, _) => negb (accept err) | None => true end.

(** The servers called, in turn, until a reply is accepted. *)
Lemma sendOpL_loop_spec ck (os : list (option (Err * V))) err v os' :
  clerk_wf ck → forallb refused os = true → accept err = true →
  ∃ ck', sendOpL_loop ck (os ++ Some (err, v) :: os')
         = Some (ck', v, (λ k, (currentLeader ck + Z.of_nat k) mod servers ck) <$> seq 0 (S (length os)))
    ∧ clerk_wf ck' ∧ me ck' = me ck ∧ nextOpId ck' = nextOpId ck ∧ servers ck' = servers ck
    ∧ currentLeader ck' = (currentLeader ck + Z.of_nat (length os)) mod servers ck.
Proof.
  revert ck. induction os as [|o os IH]; intros ck Hck Hos Ha.
  - cbn. rewrite Ha. exists ck. unfold clerk_wf in Hck. rewrite !Z.add_0_r, !Z.mod_small by done. done.
  - cbn in Hos. apply andb_true_iff in Hos as [Ho Hos].
    destruct (IH (changeLeaderL ck) (changeLeaderL_wf _ Hck) Hos Ha) as (ck' & Hrun & Hwf & Hme & Hid & Hse & Hle).
    assert (∀ k, (currentLeader (changeLeaderL ck) + Z.of_nat k) mod servers (changeLeaderL ck)
      = (currentLeader ck + Z.of_nat (S k)) mod servers ck) as Hsh.
    { intros k. rewrite changeLeaderL_mod by done. cbn [servers changeLeaderL].
      unfold clerk_wf in Hck. rewrite Z.add_mod_idemp_l by lia. f_equal. lia. }
    exists ck'. split_and!; try done; [|by rewrite Hle, Hsh].
    assert (sendOpL_loop ck ((o :: os) ++ Some (err, v) :: os')
      = ('(ck', v, called) ← sendOpL_loop (changeLeaderL ck) (os ++ Some (err, v) :: os');
         Some (ck', v, currentLeader ck :: called))) as ->.
    { destruct o as [[e x]|]; cbn; [|done]. cbn in Ho. by destruct (accept e). }
    rewrite Hrun. cbn [mbind option_bind length]. f_equal. f_equal.
    change (seq 0 (S (S (length os)))) with (0%nat :: seq 1 (S (length os))). rewrite fmap_cons.
    unfold clerk_wf in Hck.
    assert ((currentLeader ck + Z.of_nat 0) mod servers ck = currentLeader ck) as ->.
    { rewrite Z.add_0_r. by apply Z.mod_small. }
    f_equal. rewrite <- (fmap_S_seq 0 (S (length os))), <- list_fmap_compose. apply list_fmap_ext.
    intros k x _. apply Hsh.
Qed.
End send.

(** A clerk keeps its operation and its number until a reply is accepted,
    and calls the servers in turn, starting from the one that answered last: it
    returns the accepted value, and when as many calls as there are servers have
    failed, every server has been called. *)
Theorem clerk_rotates {V} accept ck (os : list (option (Err * V))) err v os' :
  clerk_wf ck → forallb (refused accept) os = true → accept err = true →
  ∃ ck' called, sendOpL accept ck (os ++ Some (err, v) :: os') = Some (nextOpId ck, (ck', v, called))
    ∧ clerk_wf ck' ∧ me ck' = me ck ∧ nextOpId ck' = nextOpId ck + 1
    ∧ (Z.of_nat (length called) = Z.of_nat (length os) + 1)
    ∧ (servers ck <= Z.of_nat (length called) → ∀ s, 0 <= s < servers ck → s ∈ called).
Proof.
  intros Hck Hos Ha. unfold sendOpL.
  set (ck1 := MkClerk (servers ck) (me ck) (currentLeader ck) (nextOpId ck + 1)).
  destruct (sendOpL_loop_spec accept ck1 os err v os') as (ck' & -> & Hwf & Hme & Hid & Hse & _); [done..|].
  cbn [mbind option_bind]. eexists ck', _. split_and!; try done.
  - rewrite length_fmap, length_seq. lia.
  - intros Hlen s Hs. unfold clerk_wf in Hck. rewrite length_fmap, length_seq in Hlen. apply list_elem_of_fmap.
    exists (Z.to_nat ((s - currentLeader ck) mod servers ck)).
    pose proof (Z.mod_pos_bound (s - currentLeader ck) (servers ck) ltac:(lia)).
    split; [|apply elem_of_seq; lia]. cbn [currentLeader servers ck1]. rewrite Z2Nat.id by lia.
    rewrite Z.add_mod_idemp_r by lia. replace (currentLeader ck + (s - currentLeader ck)) with s by lia.
    by rewrite Z.mod_small.
Qed.

(** Three servers; two calls fail before the third is accepted. *)
Lemma clerk_rotates_witness :
  ∃ ck' called, sendOpL (λ e, bool_decide (e = OK)) (MkClerk 3 7 1 4)
      ([None; Some (ErrWrongLeader, 0)] ++ [Some (OK, 9)]) = Some (4, (ck', 9, called))
    ∧ ∀ s, 0 <= s < 3 → s ∈ called.
Proof.
  destruct (clerk_rotates (λ e, bool_decide (e = OK)) (MkClerk 3 7 1 4) [None; Some (ErrWrongLeader, 0)] OK 9 [])
    as (ck' & called & H & _ & _ & _ & Hl & Hall).
  - vm_compute. split; [discriminate|reflexivity].
  - reflexivity.
  - reflexivity.
  - exists ck', called. split; [exact H|]. apply Hall. rewrite Hl. vm_compute. discriminate.
Defined.

(** The clerks created by [k] calls of [MakeClerk] on the initial counter. *)
Definition nth_clerk_id (k : nat) : Z := me (MakeClerk (NA + Z.of_nat k) 1).2.

(** Two clerks have the same identifier exactly when their creations are a
    multiple of 100 apart: the hundred-and-first clerk reuses the identifier of
    the first, and servers then confuse their operations. *)
Theorem clerk_id_collision (i j : nat) :
  nth_clerk_id i = nth_clerk_id j ↔ Z.of_nat i mod 100 = Z.of_nat j mod 100.
Proof.
  unfold nth_clerk_id, MakeClerk, NA; cbn.
  rewrite !Z.rem_mod_nonneg by lia.
  replace (-1 + Z.of_nat i + 1) with (Z.of_nat i) by lia.
  by replace (-1 + Z.of_nat j + 1) with (Z.of_nat j) by lia.
Qed.
