(* ===== verification/KVRaft.v ===== *)
(** * Package [kvraft] (kvraft/server.go, kvraft/common.go, kvraft/client.go)

    The key/value server: the map, the last operation of every client, and the
    operations on them; the handlers and the applier are those of [OpServer].
    The specification is a plain map on which every operation acts once. *)

From S2P Require Import Prelude Util Labgob OpServer Replicated Sessions Clerk.

Inductive OpType := opPut | opAppend | opGet.

#[global] Instance OpType_eq_dec : EqDecision OpType.
Proof. solve_decision. Defined.

Record Op := MkOp {
  op_Type : OpType;
  op_Key : string;
  op_Value : string;
  op_ClientId : Z;
  op_OpId : Z;
}.

#[global] Instance Op_eq_dec : EqDecision Op.
Proof. solve_decision. Defined.

Record LastOp := MkLastOp {
  lo_Op : Op;
  lo_GetResult : string;
}.

(** The state that is replicated and put into snapshots. *)
Record KVServer := MkKVServer {
  kvMap : gmap string string;
  lastOps : gmap Z LastOp;
}.

Abbreviation KVSnapshot := (gmap string string * gmap Z LastOp)%type.

(** The RPC arguments. *)
Record GetArgs := MkGetArgs { ga_Key : string; ga_ClientId : Z; ga_OpId : Z }.
Record PutAppendArgs := MkPutAppendArgs {
  pa_Key : string; pa_Value : string; pa_Op : OpType; pa_ClientId : Z; pa_OpId : Z }.

(** The operations that the handlers [Get] and [PutAppend] hand to
    [processOpL]. *)
Definition Get (args : GetArgs) : Op := MkOp opGet (ga_Key args) "" (ga_ClientId args) (ga_OpId args).
Definition PutAppend (args : PutAppendArgs) : Op :=
  MkOp (pa_Op args) (pa_Key args) (pa_Value args) (pa_ClientId args) (pa_OpId args).

(** Whether [lastOps] has the same operation for the client. *)
Definition just_processed (kv : KVServer) (op : Op) : option LastOp :=
  l ← lastOps kv !! op_ClientId op;
  if bool_decide (lo_Op l = op) then Some l else None.

Definition applyOpL (kv : KVServer) (op : Op) : KVServer * (Err * string) :=
  match just_processed kv op with
  | Some _ => (kv, (ErrDuplicate, ""))
  | None =>
    let old := kvMap kv !! op_Key op in
    let value := default "" old in
    let '(m, result) :=
      match op_Type op with
      | opPut => (<[op_Key op := op_Value op]> (kvMap kv), (OK, ""))
      | opAppend =>
        match old with
        | Some v => (<[op_Key op := (v +:+ op_Value op)%string]> (kvMap kv), (OK, ""))
        | None => (<[op_Key op := op_Value op]> (kvMap kv), (OK, ""))
        end
      | opGet =>
        match old with
        | Some v => (kvMap kv, (OK, v))
        | None => (kvMap kv, (ErrNoKey, ""))
        end
      end in
    (MkKVServer m (<[op_ClientId op := MkLastOp op value]> (lastOps kv)), result)
  end.

Section snapshots.
Context `{!GobCodec KVSnapshot}.
(** [maxraftstate], a parameter of the server. *)
Context (maxraftstate : Z).

Definition snapshotL (kv : KVServer) : bytes := gob_encode (kvMap kv, lastOps kv).

(** A decoding error is fatal. *)
Definition readSnapshotL (kv : KVServer) (snapshot : bytes) : option KVServer :=
  match snapshot with
  | [] => Some kv
  | _ => '(m, l) ← gob_decode snapshot; Some (MkKVServer m l)
  end.

(** The test of [receiveApplyMsg] after a command. *)
Definition takeSnapshot (kv : KVServer) (raftStateSize : Z) : option bytes :=
  if negb (maxraftstate =? NA) && (raftStateSize >=? maxraftstate) then Some (snapshotL kv) else None.

(** [StartKVServer], on the snapshot of the persister. *)
Definition StartKVServer (snapshot : bytes) : option KVServer :=
  readSnapshotL (MkKVServer ∅ ∅) snapshot.

#[global] Instance kv_machine : StateMachine KVServer Op string := {|
  sm_same op op' := bool_decide (op = op');
  sm_cached kv op := lo_GetResult <$> just_processed kv op;
  sm_apply kv op := Some (applyOpL kv op);
  sm_snapshot := takeSnapshot;
  sm_restore := readSnapshotL;
  sm_novalue := "";
|}.
End snapshots.

(** The errors that end the clerk's loop. *)
Definition kv_accepts (err : Err) : bool := bool_decide (err = OK) || bool_decide (err = ErrNoKey).

(** The arguments that the methods of the clerk send with [sendOpL]. *)
Definition kv_clerk_Get (ck : Clerk) (key : string) : GetArgs := MkGetArgs key (me ck) (nextOpId ck).
Definition kv_clerk_PutAppend (ck : Clerk) (key value : string) (op : OpType) : PutAppendArgs :=
  MkPutAppendArgs key value op (me ck) (nextOpId ck).
Definition kv_clerk_Put (ck : Clerk) (key value : string) : PutAppendArgs := kv_clerk_PutAppend ck key value opPut.
Definition kv_clerk_Append (ck : Clerk) (key value : string) : PutAppendArgs := kv_clerk_PutAppend ck key value opAppend.

(** ** Specification: each operation once *)

Definition spec_map (m : gmap string string) (op : Op) : gmap string string :=
  match op_Type op with
  | opPut => <[op_Key op := op_Value op]> m
  | opAppend => <[op_Key op := (default "" (m !! op_Key op) +:+ op_Value op)%string]> m
  | opGet => m
  end.

Definition spec_result (m : gmap string string) (op : Op) : Err * string :=
  match op_Type op, m !! op_Key op with
  | opGet, Some v => (OK, v)
  | opGet, None => (ErrNoKey, "")
  | _, _ => (OK, "")
  end.

(** What the server does with a log. *)
Definition apply_log (kv : KVServer) (ops : list Op) : KVServer :=
  foldl (λ kv op, (applyOpL kv op).1) kv ops.

Abbreviation client_order := (Sessions.client_order op_ClientId op_OpId).

#[global] Instance KVServer_inhabited : Inhabited KVServer := populate (MkKVServer ∅ ∅).

Definition kv_init : KVServer := MkKVServer ∅ ∅.

(** ** Lemmas *)

Lemma just_processed_Some kv op l :
  just_processed kv op = Some l ↔ lastOps kv !! op_ClientId op = Some l ∧ lo_Op l = op.
Proof.
  unfold just_processed. destruct (lastOps kv !! op_ClientId op) as [l'|]; cbn; [|naive_solver].
  case_bool_decide; naive_solver.
Qed.

Lemma applyOpL_dup kv op l : just_processed kv op = Some l → applyOpL kv op = (kv, (ErrDuplicate, "")).
Proof. intros H. unfold applyOpL. by rewrite H. Qed.

(** An operation that is not a repetition acts as specified. *)
Lemma applyOpL_new kv op :
  just_processed kv op = None →
  applyOpL kv op = (MkKVServer (spec_map (kvMap kv) op)
    (<[op_ClientId op := MkLastOp op (default "" (kvMap kv !! op_Key op))]> (lastOps kv)),
    spec_result (kvMap kv) op).
Proof.
  intros H. unfold applyOpL, spec_map, spec_result. rewrite H.
  destruct (op_Type op), (kvMap kv !! op_Key op); done.
Qed.

Lemma apply_log_snoc kv ops op : apply_log kv (ops ++ [op]) = (applyOpL (apply_log kv ops) op).1.
Proof. unfold apply_log. by rewrite foldl_app. Qed.

(** *** The server as a [Session] *)

#[global] Instance kv_session : Session KVServer Op string (gmap string string) := {|
  op_client := op_ClientId;
  op_number := op_OpId;
  core := kvMap;
  last_op kv c := (λ l, (lo_Op l, lo_GetResult l)) <$> lastOps kv !! c;
  core_apply m op := Some (spec_map m op, spec_result m op, default "" (m !! op_Key op));
|}.

Section session.
Context `{!GobCodec KVSnapshot} (maxraftstate : Z).

#[global] Instance kv_session_laws : @SessionLaws KVServer Op string (gmap string string) (kv_machine maxraftstate) kv_session.
Proof.
  split; cbn.
  - intros op op' H. bools. by subst.
  - intros op. by apply bool_decide_eq_true.
  - intros kv op o v Hl Hs. bools. subst o. apply fmap_Some in Hl as (l & Hl & [= -> ->]). exists "".
    rewrite (applyOpL_dup kv (lo_Op l) l); [done|]. by apply just_processed_Some.
  - intros kv op kv' r Hl Ha. assert (just_processed kv op = None) as Hn.
    { destruct (just_processed kv op) as [l|] eqn:E; [exfalso|done]. apply just_processed_Some in E as [E1 E2].
      specialize (Hl (lo_Op l) (lo_GetResult l)). rewrite E1 in Hl. specialize (Hl eq_refl). bools. congruence. }
    rewrite (applyOpL_new _ _ Hn) in Ha. injection Ha as <- <-. eexists. split; [done|]. intros c. cbn.
    case_decide as Hc; [subst c; by rewrite lookup_insert_eq|by rewrite lookup_insert_ne].
  - intros kv op v Hc. apply fmap_Some in Hc as (l & Hl & ->). apply just_processed_Some in Hl as [Hl Ho].
    exists (lo_Op l). rewrite Hl. split; [done|]. by apply bool_decide_eq_true.
Qed.

Lemma run_ops_kv s ops : @run_ops _ _ _ (kv_machine maxraftstate) s ops = Some (apply_log s ops).
Proof.
  revert s. induction ops as [|op ops IH]; intros s; [done|].
  unfold apply_log. cbn. destruct (applyOpL s op) as [s' r]. apply IH.
Qed.
End session.

Lemma kv_init_last c : last_op kv_init c = None.
Proof. cbn. by rewrite lookup_empty. Qed.

Lemma run_core_kv m ops : run_core (S := KVServer) m ops = Some (foldl spec_map m ops).
Proof. revert m. induction ops as [|op ops IH]; intros m; [done|apply IH]. Qed.

(** Codecs for the runs. *)
#[export] Instance OpType_countable : Countable OpType.
Proof.
  refine (inj_countable' (λ t, match t with opPut => 0 | opAppend => 1 | opGet => 2 end)
    (λ z, if decide (z = 0) then opPut else if decide (z = 1) then opAppend else opGet) _); by intros [].
Defined.
#[export] Instance Op_countable : Countable Op.
Proof.
  refine (inj_countable' (λ o, (op_Type o, op_Key o, op_Value o, op_ClientId o, op_OpId o))
    (λ x, MkOp x.1.1.1.1 x.1.1.1.2 x.1.1.2 x.1.2 x.2) _); by intros [].
Defined.
#[export] Instance LastOp_eq_dec : EqDecision LastOp.
Proof. solve_decision. Defined.
#[export] Instance LastOp_countable : Countable LastOp.
Proof.
  refine (inj_countable' (λ l, (lo_Op l, lo_GetResult l)) (λ x, MkLastOp x.1 x.2) _); by intros [].
Defined.
#[export] Instance kv_codec : GobCodec KVSnapshot := countable_codec.
#[export] Instance kv_laws : GobLaws KVSnapshot := countable_laws.
#[export] Instance kv_machine_nosnap : StateMachine KVServer Op string := kv_machine NA.

(** In an ordered log, what an operation does. *)
Lemma kv_log_step ops op :
  client_order (ops ++ [op]) →
  let kv := apply_log kv_init ops in
  (op ∉ ops → just_processed kv op = None) ∧ (op ∈ ops → applyOpL kv op = (kv, (ErrDuplicate, ""))).
Proof.
  intros Ho kv. pose proof (run_ops_kv NA kv_init ops) as Hrun. fold kv in Hrun.
  pose proof (session_last kv_init kv_init_last ops kv (client_order_prefix _ _ _ _ Ho) Hrun) as Hl.
  destruct (session_step kv_init kv_init_last ops op kv Ho Hrun Hl) as [Hdup Hnew]. split.
  - intros Hin. destruct (just_processed kv op) as [l|] eqn:E; [exfalso|done]. apply just_processed_Some in E as [E1 E2].
    specialize (Hnew Hin (lo_Op l) (lo_GetResult l)). cbn in Hnew. rewrite E1 in Hnew. specialize (Hnew eq_refl).
    bools. congruence.
  - intros Hin. destruct (Hdup Hin) as (_ & _ & Hlast). specialize (Hl (op_ClientId op)). cbn in Hl, Hlast.
    rewrite Hlast in Hl. destruct (lastOps kv !! op_ClientId op) as [l|] eqn:E; [|done]. cbn in Hl. injection Hl as Hl.
    apply (applyOpL_dup kv op l). by apply just_processed_Some.
Qed.

(** The simulation: the server's map is the specification's. *)
Lemma apply_log_spec ops :
  client_order ops → kvMap (apply_log kv_init ops) = foldl spec_map ∅ (firsts ops).
Proof.
  intros Ho. pose proof (session_core kv_init kv_init_last ops _ Ho (run_ops_kv NA kv_init ops)) as H.
  rewrite run_core_kv in H. by injection H.
Qed.

(** ** Properties *)

(** C15: exactly once.  When the operations of every client enter the log in the
    order of their numbers, with any repetitions of the latest one, the server's
    map is the one obtained by applying each operation once, in the order of
    first occurrence; a new operation gets the result that the specification
    gives, and a repeated one changes nothing and gets [ErrDuplicate]. *)
Theorem kv_exactly_once ops op :
  client_order (ops ++ [op]) →
  let kv := apply_log kv_init ops in
  kvMap kv = foldl spec_map ∅ (firsts ops)
  ∧ (op ∉ ops →
       (applyOpL kv op).2 = spec_result (foldl spec_map ∅ (firsts ops)) op
       ∧ kvMap (applyOpL kv op).1 = spec_map (foldl spec_map ∅ (firsts ops)) op)
  ∧ (op ∈ ops → applyOpL kv op = (kv, (ErrDuplicate, ""))).
Proof.
  intros Ho kv. pose proof (apply_log_spec ops (client_order_prefix _ _ _ _ Ho)) as Hm. fold kv in Hm.
  destruct (kv_log_step ops op Ho) as [Hnew Hdup]. split_and!; [done| |done].
  intros Hin. rewrite (applyOpL_new kv _ (Hnew Hin)). cbn. by rewrite <- Hm.
Qed.

(** A client that repeats its latest operation is answered from [lastOps]
    with the value that the key had when the operation was applied, whatever
    other clients did in between. *)
Theorem retry_same_answer kv op rest :
  just_processed kv op = None →
  (∀ o, o ∈ rest → op_ClientId o = op_ClientId op → o = op) →
  just_processed (apply_log (applyOpL kv op).1 rest) op
  = Some (MkLastOp op (default "" (kvMap kv !! op_Key op))).
Proof.
  intros Hj Hrest. apply just_processed_Some. split; [|done].
  induction rest as [|o rest IH] using rev_ind.
  { rewrite (applyOpL_new _ _ Hj). cbn. by rewrite lookup_insert_eq. }
  specialize (IH ltac:(intros; apply Hrest; [apply elem_of_app; by left|done])).
  rewrite apply_log_snoc. set (kv' := apply_log _ rest) in *.
  destruct (just_processed kv' o) as [l|] eqn:E; [by rewrite (applyOpL_dup _ _ _ E)|].
  rewrite (applyOpL_new _ _ E). cbn. rewrite lookup_insert_ne; [done|]. intros Hc.
  assert (o = op) as -> by (apply Hrest; [apply elem_of_app; right; by left|done]).
  assert (just_processed kv' op = Some (MkLastOp op (default "" (kvMap kv !! op_Key op)))) as Hx
    by by apply just_processed_Some. congruence.
Qed.

Section server_props.
Context `{!GobCodec KVSnapshot, !GobLaws KVSnapshot}.
Context (maxraftstate : Z).

(** A server started on a snapshot has the map and the last operations of
    the server that took it. *)
Theorem kv_snapshot_roundtrip kv : StartKVServer (snapshotL kv) = Some kv.
Proof.
  unfold StartKVServer, readSnapshotL, snapshotL.
  pose proof (gob_nonempty (kvMap kv, lastOps kv)) as Hne.
  destruct (gob_encode _) as [|b bs] eqn:E; [done|]. rewrite <- E, gob_roundtrip. cbn. by destruct kv.
Qed.

#[global] Instance kv_machine_laws : @StateMachineLaws KVServer Op string (kv_machine maxraftstate).
Proof.
  split. intros s op s' r o v Ha Hc. cbn in *. injection Ha as Ha.
  destruct (just_processed s op) as [l|] eqn:E.
  { rewrite (applyOpL_dup _ _ _ E) in Ha. injection Ha as <- _. left. by eexists. }
  rewrite (applyOpL_new _ _ E) in Ha. injection Ha as <- _.
  apply fmap_Some in Hc as (l & Hl & _). apply just_processed_Some in Hl as [Hl Ho]. cbn in Hl.
  apply lookup_insert_Some in Hl as [[_ <-]|[_ Hl]].
  - right. apply bool_decide_eq_true. by rewrite <- Ho.
  - left. exists (lo_GetResult l). apply fmap_Some. exists l. split; [|done]. by apply just_processed_Some.
Qed.

(** A reply [OK] means applied.  In every run of a server that starts empty
    and installs no snapshot, with handlers that wait, time out and finish in
    any order, an operation answered with [OK] has been applied by the
    server. *)
Theorem kv_ok_applied acts kv' es op v :
  forallb (negb ∘ is_snapshot) acts = true →
  @sexecs _ _ _ (kv_machine maxraftstate) acts (start_server kv_init) = Some (kv', es) →
  EReply op OK v ∈ es → ∃ i, (i, op) ∈ applied kv'.
Proof.
  intros Hns Hrun Hin.
  destruct (@sexecs_ok _ _ _ (kv_machine maxraftstate) kv_machine_laws acts (start_server kv_init) ∅ kv' es) as [Hok _];
    [done|apply start_server_inv|done|done|].
  destruct (Hok op v Hin) as (i & op' & Hi & Hs). cbn in Hs. bools. subst op'. by exists i.
Qed.
End server_props.

(** ** Runs *)

Definition put_a : Op := MkOp opPut "x" "a" 1 0.
Definition append_b : Op := MkOp opAppend "x" "b" 1 1.
Definition get_y : Op := MkOp opGet "y" "" 2 0.

(** The server is leader when client 1 puts, but index 5 of the log goes to the
    [Get] of client 2 that the next leader put there. *)
Definition lost_put_run : list (SAction Op) :=
  [SRpc put_a 5 true; SCommand get_y 5 0; SReceive 0; SFinish 0].

Definition kv_after (acts : list (SAction Op)) : Server KVServer Op string :=
  from_option fst (start_server kv_init) (sexecs acts (start_server kv_init)).
Definition kv_events (acts : list (SAction Op)) : list (Event Op string) :=
  from_option snd [] (sexecs acts (start_server kv_init)).
Definition kv_completes (acts : list (SAction Op)) : bool :=
  match sexecs acts (start_server kv_init) with Some _ => true | None => false end.

Lemma kv_after_run acts :
  kv_completes acts = true → sexecs acts (start_server kv_init) = Some (kv_after acts, kv_events acts).
Proof.
  unfold kv_completes, kv_after, kv_events. destruct (sexecs acts _) as [[kv es]|]; done.
Qed.

(** An acknowledged [Put] can be lost.  [waitApplyL] compares the operation
    it waits for with the one applied at its index only when the result is [OK];
    when the other operation is a [Get] of a missing key, the [Put] is answered
    with [ErrNoKey], which the clerk takes for success, and was never applied. *)
Theorem lost_put :
  kv_completes lost_put_run = true
  ∧ EReply put_a ErrNoKey "" ∈ kv_events lost_put_run ∧ kv_accepts ErrNoKey = true
  ∧ (∀ i, (i, put_a) ∉ applied (kv_after lost_put_run))
  ∧ kvMap (state (kv_after lost_put_run)) !! "x" = None.
Proof.
  split; [vm_compute; reflexivity|]. split; [vm_compute; by left|]. split; [reflexivity|].
  split; [|vm_compute; reflexivity].
  change (applied (kv_after lost_put_run)) with [(5, get_y)]. intros i Hi%list_elem_of_singleton. done.
Qed.

(** The applier has found the channel of index 5 when the handler times out. *)
Definition stuck_run : list (SAction Op) :=
  [SRpc put_a 5 true; SCommand put_a 5 0; STimeout 0; SFinish 0].

(** A timeout can stop the applier for good.  When a handler times out after
    the applier has looked up its channel and before it has sent on it, the send
    has no receiver: in every continuation of the run the applier stays in the
    send, and no operation is applied any more. *)
Theorem applier_blocks_forever :
  kv_completes stuck_run = true ∧ handlers (kv_after stuck_run) = []
  ∧ ∀ acts kv' es, sexecs acts (kv_after stuck_run) = Some (kv', es) →
      applied kv' = applied (kv_after stuck_run) ∧ state kv' = state (kv_after stuck_run)
      ∧ applier kv' = ASending 0 5 0 (OK, "", put_a).
Proof.
  split; [vm_compute; reflexivity|]. split; [vm_compute; reflexivity|]. intros acts kv' es H.
  assert (stuck (kv_after stuck_run) 0) as Hs.
  { split_and!; [do 3 eexists; vm_compute; reflexivity| | |vm_compute; lia].
    - intros op i. change (handlers (kv_after stuck_run)) with (@nil (Handler Op string)). apply not_elem_of_nil.
    - intros i. change (resultChans (kv_after stuck_run)) with (delete 5 (<[5 := 0%nat]> ∅ : gmap Z nat)).
      rewrite delete_insert_id by done. by rewrite lookup_empty. }
  destruct (sexecs_stuck _ _ _ _ _ Hs H) as (-> & -> & ->). split_and!; [done|done|vm_compute; reflexivity].
Qed.

(** Only the latest operation of a client is recognised as a repetition: an
    operation that comes back into the log after a later operation of the same
    client is applied a second time. *)
Theorem stale_duplicate_reapplied :
  kvMap (apply_log kv_init [put_a; append_b; get_y; append_b]) !! "x" = Some "ab"
  ∧ kvMap (apply_log kv_init [append_b; put_a; append_b]) !! "x" = Some "ab"
  ∧ firsts [append_b; put_a; append_b] = [append_b; put_a]
  ∧ foldl spec_map ∅ (firsts [append_b; put_a; append_b]) !! "x" = Some "a".
Proof. split_and!; vm_compute; reflexivity. Qed.

(** *** Witnesses *)

Definition log3 : list Op := [put_a; append_b; append_b].

Lemma log3_order : client_order (log3 ++ [get_y]).
Proof.
  intros i j a b Hij Hi Hj. unfold log3 in *. cbn [app] in Hi, Hj.
  do 4 (destruct i as [|i]; [do 4 (destruct j as [|j]; [cbn in Hi, Hj; simplify_eq; cbn; intros; split; (lia || done)|]);
    cbn in Hj; done|]).
  cbn in Hi. done.
Qed.

Lemma kv_exactly_once_witness :
  kvMap (apply_log kv_init log3) = foldl spec_map ∅ [put_a; append_b]
  ∧ (applyOpL (apply_log kv_init log3) get_y).2 = (ErrNoKey, "").
Proof.
  destruct (kv_exactly_once log3 get_y log3_order) as (H1 & H2 & _).
  split; [exact H1|]. rewrite (proj1 (H2 ltac:(apply (bool_decide_unpack _); vm_compute; exact I))).
  vm_compute. reflexivity.
Defined.

Lemma retry_same_answer_witness :
  just_processed (apply_log (applyOpL kv_init put_a).1 [get_y]) put_a = Some (MkLastOp put_a "").
Proof.
  apply (retry_same_answer kv_init put_a [get_y]); [vm_compute; reflexivity|].
  intros o Ho. apply list_elem_of_singleton in Ho. subst o. intros Hc. vm_compute in Hc. discriminate Hc.
Defined.

Lemma kv_ok_applied_witness :
  ∃ i, (i, put_a) ∈ applied (kv_after [SRpc put_a 5 true; SCommand put_a 5 0; SReceive 0; SFinish 0]).
Proof.
  apply (kv_ok_applied NA [SRpc put_a 5 true; SCommand put_a 5 0; SReceive 0; SFinish 0]
    (kv_after [SRpc put_a 5 true; SCommand put_a 5 0; SReceive 0; SFinish 0])
    (kv_events [SRpc put_a 5 true; SCommand put_a 5 0; SReceive 0; SFinish 0]) put_a "").
  - reflexivity.
  - apply kv_after_run. vm_compute. reflexivity.
  - vm_compute. by left.
Defined.

Lemma kv_snapshot_roundtrip_witness :
  StartKVServer (snapshotL (apply_log kv_init log3)) = Some (apply_log kv_init log3).
Proof. apply kv_snapshot_roundtrip. Defined.
