(* ===== verification/KVMessages.v ===== *)
(** * Messages of [kvraft] (kvraft/common.go, kvraft/server.go, kvraft/client.go)

    The strings of operations, arguments and replies, and the log methods of the
    server and the clerk.  A message of the clerk and one of the server about the
    same operation agree, and they tell its kind, its client and its number. *)

From S2P Require Import Prelude GoStrings Util Logging Clerk KVRaft.
From Stdlib Require Import Ascii.

(** ** Strings *)

(** The constants [opPut], [opAppend] and [opGet] *)
Definition OpType_string (t : OpType) : string :=
  match t with opPut => "Put" | opAppend => "Append" | opGet => "Get" end.

Definition PutAppendArgs_String (p : PutAppendArgs) : string :=
  if bool_decide (pa_Op p = opPut)
  then "Put" +:+ Itoa (pa_ClientId p) +:+ "-" +:+ Itoa (pa_OpId p) +:+ " " +:+ pa_Key p +:+ ":" +:+ pa_Value p
  else "Append" +:+ Itoa (pa_ClientId p) +:+ "-" +:+ Itoa (pa_OpId p) +:+ " " +:+ pa_Key p +:+ ":" +:+ pa_Value p.

Definition GetArgs_String (g : GetArgs) : string :=
  "Get" +:+ Itoa (ga_ClientId g) +:+ "-" +:+ Itoa (ga_OpId g) +:+ " " +:+ ga_Key g.

Record OpReply := MkOpReply { or_Err : Err; or_Value : string }.

Definition OpReply_String (o : OpReply) : string := Err_string (or_Err o) +:+ " " +:+ or_Value o.

Definition Op_String (op : Op) : string :=
  if bool_decide (op_Type op = opGet)
  then OpType_string (op_Type op) +:+ Itoa (op_ClientId op) +:+ "-" +:+ Itoa (op_OpId op) +:+ " " +:+ op_Key op
  else OpType_string (op_Type op) +:+ Itoa (op_ClientId op) +:+ "-" +:+ Itoa (op_OpId op) +:+ " " +:+ op_Key op +:+ ":" +:+ op_Value op.

Definition LastOp_String (l : LastOp) : string :=
  Itoa (op_ClientId (lo_Op l)) +:+ "-" +:+ Itoa (op_OpId (lo_Op l)).

(** The result that the applier hands to the handler; a nil pointer is printed as
    [<nil>]. *)
Record _Result := Mk_Result { r_err : Err; r_value : string; r_op : option Op }.

Definition _Result_String (r : _Result) : string :=
  Err_string (r_err r) +:+ " " +:+ match r_op r with Some op => Op_String op | None => "<nil>" end.

(** ** Log methods

    [me] is the number of the server. *)

Section logs.
Context {A : Type} (s : LogState).
Notation output := (list (string * list A)).

Definition server_log (out : output) (time me verbose : Z) (topic : LogTopic) (format : string) (a : list A) : output :=
  LogKV s out time verbose topic me format a.

Definition clerk_log (out : output) (time : Z) (ck : Clerk) (verbose : Z) (topic : LogTopic) (format : string) (a : list A) : output :=
  LogKVClnt s out time verbose topic (me ck) format a.

(** [lock] and [unlock] of both: the message, then the mutex *)
Context (string_arg : string → A).

Definition server_lock (out : output) (time me : Z) (mu : bool) (method : string) : output * option bool :=
  (server_log out time me VExcessive TTrace "acquire lock (%v)" [string_arg method], Lock mu).

Definition server_unlock (out : output) (time me : Z) (mu : bool) (method : string) : output * option bool :=
  (server_log out time me VExcessive TTrace "release lock (%v)" [string_arg method], Unlock mu).

Definition clerk_lock (out : output) (time : Z) (ck : Clerk) (mu : bool) (method : string) : output * option bool :=
  (clerk_log out time ck VExcessive TTrace "acquire lock (%v)" [string_arg method], Lock mu).

Definition clerk_unlock (out : output) (time : Z) (ck : Clerk) (mu : bool) (method : string) : output * option bool :=
  (clerk_log out time ck VExcessive TTrace "release lock (%v)" [string_arg method], Unlock mu).
End logs.

(** ** The clerk and the server write the same string *)

Lemma kv_Get_String g : Op_String (Get g) = GetArgs_String g.
Proof. reflexivity. Qed.

(** The handler [PutAppend] does not check the operation it is sent; the strings
    differ for one that is neither. *)
Lemma kv_PutAppend_String p : pa_Op p ≠ opGet → Op_String (PutAppend p) = PutAppendArgs_String p.
Proof. unfold Op_String, PutAppendArgs_String. cbn. by destruct (pa_Op p). Qed.

(** ** What a string tells *)

Lemma kv_LastOp_String_inj (l l' : LastOp) :
  0 <= op_ClientId (lo_Op l) → 0 <= op_ClientId (lo_Op l') → LastOp_String l = LastOp_String l' →
  op_ClientId (lo_Op l) = op_ClientId (lo_Op l') ∧ op_OpId (lo_Op l) = op_OpId (lo_Op l').
Proof. intros Hc Hc' E. by apply pair_inj. Qed.

(** The text after the client and the number *)
Definition op_text (op : Op) : string :=
  if bool_decide (op_Type op = opGet) then op_Key op else op_Key op +:+ ":" +:+ op_Value op.

Lemma Op_String_text op :
  Op_String op = OpType_string (op_Type op) +:+ Itoa (op_ClientId op) +:+ "-" +:+ Itoa (op_OpId op) +:+ " " +:+ op_text op.
Proof. unfold Op_String, op_text. by destruct (op_Type op). Qed.

Lemma kv_Op_String_identifies op op' :
  0 <= op_ClientId op → 0 <= op_ClientId op' → 0 <= op_OpId op → 0 <= op_OpId op' → Op_String op = Op_String op' →
  op_Type op = op_Type op' ∧ op_ClientId op = op_ClientId op' ∧ op_OpId op = op_OpId op' ∧ op_text op = op_text op'.
Proof.
  intros Hc Hc' Ho Ho' E. rewrite !Op_String_text in E.
  assert (op_Type op = op_Type op') as Et.
  { destruct (op_Type op), (op_Type op'); try done; cbn in E; rewrite !append_cons in E; done. }
  split; [done|]. rewrite Et in E.
  assert (∀ t a b, OpType_string t +:+ a = OpType_string t +:+ b → a = b) as Hcut.
  { intros [] a b H; cbn in H; rewrite !append_cons, !append_nil in H; by injection H. }
  apply Hcut in E. by apply pair_text_inj.
Qed.
