(* ===== verification/KVLinear.v ===== *)
(** * kvraft is linearizable

    The key/value server of kvraft/server.go on a Raft cluster, as a whole: the
    replies [OK] that clients get are those of one map on which every operation
    acts once, at a moment between the arrival of its first RPC and its reply.
    [Replicated] is the system and [ReplicatedSteps] shows that one sequence of
    operations accounts for it; here that sequence is read as operations on a map. *)

From S2P Require Import Prelude Util Labgob RaftState RaftHandlers RaftLeader RaftNode RaftCluster OpServer Replicated ReplicatedInv ReplicatedSteps Sessions KVRaft.

(** A linearization of the replies [OK] of a trace: operations that were called,
    each once; a [Get] returned what the map held; operations called after a reply
    come later. *)
Record kv_linearization (tr : list (WEvent Op string)) (ops : list Op) : Prop := {
  kl_once : NoDup ops;
  kl_called op : op ∈ ops → op ∈ calls tr;
  kl_reply i op v : WReply i op OK v ∈ tr → ∃ k, ops !! k = Some op
    ∧ (op_Type op = opGet → v = default "" (foldl spec_map ∅ (take k ops) !! op_Key op));
  kl_real_time t1 t2 i op v op' k k' : tr = t1 ++ t2 → WReply i op OK v ∈ t1 → op' ∉ calls t1 →
    ops !! k = Some op → ops !! k' = Some op' → (k < k')%nat;
}.

Section kv.
Context `{!GobCodec KVSnapshot, !GobLaws KVSnapshot, !GobCodec (PState Op), !GobLaws (PState Op)}.
(** [n] servers with the threshold [maxraftstate] for snapshots. *)
Context (n maxraftstate : Z).
#[local] Instance machine : StateMachine KVServer Op string := kv_machine maxraftstate.

#[global] Instance kv_snapshot_laws : @SnapshotLaws KVServer Op string (kv_machine maxraftstate).
Proof.
  split; [|done]. intros s size data s' H. cbn in *. unfold takeSnapshot in H. destruct (_ && _); [|done].
  injection H as <-. unfold readSnapshotL, snapshotL. pose proof (gob_nonempty (kvMap s, lastOps s)) as Hne.
  destruct (gob_encode _) as [|b bs] eqn:E; [done|]. rewrite <- E, gob_roundtrip. cbn. by destruct s.
Qed.

(** The sequence of the operations that explains the run, without repetitions *)
Lemma replies_linearize (X : World KVServer Op string) :
  0 <= n → wreachable n kv_init X → client_order (calls (trace X)) →
  ∃ ops, kv_linearization (trace X) ops.
Proof.
  intros Hn Hr Hcalls. destruct (wreachable_inv n kv_init X Hn Hr) as (L & [_ _ _ Hex Hacc]). exists (firsts L).
  destruct (accounts_linearization kv_init kv_init_last L (trace X) Hcalls Hex Hacc) as [Hnd Hcl Hrep Hrt].
  split; [done|done| |].
  - intros i op v Hin. destruct (Hrep i op v Hin) as (j & o & m & Hj & Hs & Hm & m' & err & v' & u & Hc & Hv).
    cbn in Hs. bools. subst o. exists j. split; [done|]. intros Hget. rewrite run_core_kv in Hm. injection Hm as <-.
    cbn in Hc. injection Hc as _ Hres Hu. destruct Hv as [[-> ->]| ->]; [|by rewrite <- Hu].
    unfold spec_result in Hres. rewrite Hget in Hres. by destruct (_ !! op_Key op); injection Hres.
  - intros t1 t2 i op v op' k k' Heq Hin Hno Hk Hk'. eapply Hrt; try done. by apply bool_decide_eq_true.
Qed.

(** C7: kvraft is linearizable.  In every run of any number of servers, if at the
    servers no RPC of an operation arrives after one of a later operation of the same
    client, the replies [OK] of the run have a linearization.  (A reply [ErrNoKey] is
    not covered: see [lost_put].) *)
Theorem kv_linearizable (X : World KVServer Op string) :
  0 <= n → wreachable n kv_init X → client_order (calls (trace X)) →
  ∃ ops, kv_linearization (trace X) ops.
Proof. apply replies_linearize. Qed.
End kv.

(** ** A run *)

#[export] Instance op_entry_countable : Countable (LogEntry Op).
Proof.
  refine (inj_countable' (λ e, (Command e, Index e, Term e))
    (λ x, MkLogEntry x.1.1 x.1.2 x.2) _); by intros [].
Defined.

#[export] Instance op_pstate_codec : GobCodec (PState Op) := countable_codec.
#[export] Instance op_pstate_laws : GobLaws (PState Op) := countable_laws.
#[local] Instance kv_machine1 : StateMachine KVServer Op string := kv_machine 1.

Definition late : Env := MkEnv (10 ^ 12) 5.
Definition get_x : Op := MkOp opGet "x" "" 2 0.

(** Server 0 is elected; it replicates what [rf.Start] appended to server 1 and
    commits it. *)
Definition kv_elect : list (WAction Op) := [WRaft (ATick 0 late); WRaft (ARun 0 late); WRaft (ARun 0 late)].
Definition kv_commit : list (WAction Op) := [WRaft (ARun 0 late); WRaft (ARun 0 late); WRaft (ARun 0 late)].

(** Client 1 puts, client 2 gets; the server takes a snapshot after the [Put],
    dies and starts again. *)
Definition put_get : list (WAction Op) :=
  kv_elect
  ++ [WRpc 0 put_a] ++ kv_commit ++ [WDeliver 0; WTake 0 9; WReceive 0 0; WFinish 0 0]
  ++ [WRpc 0 get_x] ++ kv_commit ++ [WDeliver 0; WDeliver 0; WTake 0 0; WReceive 0 0; WFinish 0 0]
  ++ [WRaft (AKill 0); WRestart 0 late].

Definition kv_world (acts : list (WAction Op)) : World KVServer Op string :=
  default (winit 3 kv_init (λ _, MkEnv 0 3)) (wexecs 3 kv_init acts (winit 3 kv_init (λ _, MkEnv 0 3))).

Lemma kv_world_reachable acts :
  bool_decide (is_Some (wexecs 3 kv_init acts (winit 3 kv_init (λ _, MkEnv 0 3)))) = true →
  wreachable 3 kv_init (kv_world acts).
Proof.
  intros [X HX]%bool_decide_eq_true. exists (λ _, MkEnv 0 3). unfold kv_world. rewrite HX. by eapply wexecs_run.
Qed.

Lemma put_get_trace :
  trace (kv_world put_get)
  = [WCall 0 put_a; WReply 0 put_a OK ""; WCall 0 get_x; WReply 0 get_x OK "a"].
Proof. vm_compute. reflexivity. Qed.

Lemma put_get_order : client_order (calls (trace (kv_world put_get))).
Proof. rewrite put_get_trace. change (calls _) with [put_a; get_x]. by apply client_order_pair. Qed.

Lemma kv_linearizable_witness :
  ∃ ops, kv_linearization [WCall 0 put_a; WReply 0 put_a OK ""; WCall 0 get_x; WReply 0 get_x OK "a"] ops.
Proof.
  rewrite <- put_get_trace. apply (kv_linearizable 3 1 (kv_world put_get)); [lia| |apply put_get_order].
  apply kv_world_reachable. vm_compute. reflexivity.
Defined.

Lemma replicated_service_witness :
  ∃ L k, accounts kv_init L (trace (kv_world put_get))
    ∧ run_ops kv_init (take k L) = Some (state (server (kv_world put_get) 0))
    ∧ kvMap (state (server (kv_world put_get) 0)) !! "x" = Some "a"
    ∧ firstIdx (log (rf (peers (cluster (kv_world put_get)) 0))) = 1.
Proof.
  destruct (replicated_service 3 kv_init (kv_world put_get)) as (L & Ha & Hs); [lia| |].
  { apply kv_world_reachable. vm_compute. reflexivity. }
  destruct (Hs 0) as (k & _ & Hk); [lia|]. exists L, k. split; [exact Ha|]. split; [exact Hk|].
  split; vm_compute; reflexivity.
Defined.
