(* ===== verification/ShardCtrler.v ===== *)
(** * Package [shardctrler] (shardctrler/server.go, shardctrler/common.go)

    The controller keeps the sequence of configurations and, for the current
    one, the shards of every group ([gidShards]).  [Join], [Leave] and [Move]
    append a configuration; [Join] and [Leave] rebalance the shards over the
    groups.  Every replica computes the configurations on its own, so the result
    must not depend on the order in which Go iterates over its maps.

    [None] is a Go panic or [log.Fatalln]. *)

From S2P Require Import Prelude Util Labgob OpServer Clerk.

Definition NShards : Z := 10.

Record Config := MkConfig {
  Num : Z;
  Shards : list Z;               (** an array of [NShards] group identifiers *)
  Groups : gmap Z (list string);
}.

Definition zeroConfig : Config := MkConfig 0 (replicate (Z.to_nat NShards) 0) ∅.

(** The operations, with the fields that each of them uses. *)
Inductive OpKind :=
  | opJoin (Servers : gmap Z (list string))
  | opLeave (GIDs : list Z)
  | opMove (Shard GID : Z)
  | opQuery (QNum : Z).

Record Op := MkOp {
  op_Kind : OpKind;
  op_ClientId : Z;
  op_OpId : Z;
}.

Definition isSame (op op1 : Op) : bool :=
  (op_ClientId op =? op_ClientId op1) && (op_OpId op =? op_OpId op1).

Record LastOp := MkLastOp {
  lo_op : Op;
  lo_queryResult : Config;
}.

Record ShardCtrler := MkShardCtrler {
  configs : list Config;
  gidShards : gmap Z (list Z);
  lastOps : gmap Z LastOp;
}.

Definition nowL (sc : ShardCtrler) : Z := go_len (configs sc) - 1.

(** [sc.gidShards[gid]], nil for a missing key. *)
Definition shards_of (gs : gmap Z (list Z)) (gid : Z) : list Z := default [] (gs !! gid).

(** ** Finding the smallest and the largest group *)

(** One iteration of the loop, for the minimum and for the maximum; the
    accumulators are (gid, size). *)
Definition min_step (acc : Z * Z) (entry : Z * list Z) : Z * Z :=
  let '(gidMin, sizeMin) := acc in
  let '(gid, shards) := entry in
  if go_len shards <? sizeMin then (gid, go_len shards)
  else if (go_len shards =? sizeMin) && (gid <? gidMin) then (gid, sizeMin)
  else (gidMin, sizeMin).

Definition max_step (acc : Z * Z) (entry : Z * list Z) : Z * Z :=
  let '(gidMax, sizeMax) := acc in
  let '(gid, shards) := entry in
  if go_len shards >? sizeMax then (gid, go_len shards)
  else if (go_len shards =? sizeMax) && (gid >? gidMax) then (gid, sizeMax)
  else (gidMax, sizeMax).

Definition findMinMaxGidL (entries : list (Z * list Z)) : Z * Z :=
  let acc := foldl (λ acc entry, (min_step acc.1 entry, max_step acc.2 entry))
               ((NA, NShards + 1), (NA, -1)) entries in
  (acc.1.1, acc.2.1).

Section ops.
Context `{!MapOrder}.

(** ** Rebalancing *)

(** The loop that moves a shard from the largest to the smallest group. *)
Fixpoint rebalance_loop (fuel : nat) (gs : gmap Z (list Z)) : option (gmap Z (list Z)) :=
  let '(gidMin, gidMax) := findMinMaxGidL (range fuel gs) in
  let minGidShards := shards_of gs gidMin in
  let maxGidShards := shards_of gs gidMax in
  if go_len maxGidShards - go_len minGidShards <=? 1 then Some gs
  else
    match fuel with
    | O => None
    | S fuel =>
      let lastInd := go_len maxGidShards - 1 in
      shard ← go_index maxGidShards lastInd;
      rest ← slice_to maxGidShards lastInd;
      let gs := <[gidMax := rest]> gs in
      rebalance_loop fuel (<[gidMin := minGidShards ++ [shard]]> gs)
    end.

(** Every iteration lowers the sum of the squares of the sizes, which bounds
    the number of iterations. *)
Definition sum_squares (gs : gmap Z (list Z)) : nat :=
  sum_list ((λ e, length e.2 * length e.2)%nat <$> map_to_list gs).

(** The loops that write the assignment: [shardGids[shard] = gid]. *)
Fixpoint assign_group (gid : Z) (shards : list Z) (arr : list Z) : option (list Z) :=
  match shards with
  | [] => Some arr
  | shard :: shards => arr ← go_update arr shard gid; assign_group gid shards arr
  end.

Fixpoint assign_all (entries : list (Z * list Z)) (arr : list Z) : option (list Z) :=
  match entries with
  | [] => Some arr
  | (gid, shards) :: entries => arr ← assign_group gid shards arr; assign_all entries arr
  end.

Definition rebalanceL (gs : gmap Z (list Z)) (shardGids : list Z) : option (gmap Z (list Z) * list Z) :=
  gs ← rebalance_loop (S (sum_squares gs)) gs;
  arr ← assign_all (range 0 gs) shardGids;
  Some (gs, arr).

(** ** Operations *)

(** The copy of the current configuration; its [Groups] is a new map with the
    same entries. *)
Definition makeNewConfigL (sc : ShardCtrler) : option Config :=
  cur ← go_index (configs sc) (nowL sc);
  Some (MkConfig (nowL sc + 1) (Shards cur) (Groups cur)).

Definition add_config (sc : ShardCtrler) (c : Config) (gs : gmap Z (list Z)) : ShardCtrler :=
  MkShardCtrler (configs sc ++ [c]) gs (lastOps sc).

Definition applyJoinL (sc : ShardCtrler) (servers : gmap Z (list string)) : option ShardCtrler :=
  cur ← go_index (configs sc) (nowL sc);
  let start := bool_decide (size (Groups cur) = 0%nat) in
  newConfig ← makeNewConfigL sc;
  let '(groups, gs) :=
    foldl (λ acc entry, (<[entry.1 := entry.2]> acc.1, <[entry.1 := []]> acc.2))
      (Groups newConfig, gidShards sc) (range 1 servers) in
  let gs :=
    if (start : bool) then
      let '(gidMin, _) := findMinMaxGidL (range 2 gs) in
      <[gidMin := seqZ 0 NShards]> gs
    else gs in
  '(gs, shards) ← rebalanceL gs (Shards newConfig);
  Some (add_config sc (MkConfig (Num newConfig) shards groups) gs).

Definition applyLeaveL (sc : ShardCtrler) (gids : list Z) : option ShardCtrler :=
  newConfig ← makeNewConfigL sc;
  let '(groups, removed, gs) :=
    foldl (λ acc gid, (delete gid acc.1.1, <[gid := shards_of acc.2 gid]> acc.1.2, delete gid acc.2))
      (Groups newConfig, ∅ : gmap Z (list Z), gidShards sc) gids in
  if bool_decide (size groups = 0%nat) then
    Some (add_config sc (MkConfig (Num newConfig) (replicate (Z.to_nat NShards) 0) groups) gs)
  else
    let '(gidMin, _) := findMinMaxGidL (range 1 gs) in
    let freed := merge_sort Z.le (concat (range 2 removed).*2) in
    let gs := <[gidMin := shards_of gs gidMin ++ freed]> gs in
    '(gs, shards) ← rebalanceL gs (Shards newConfig);
    Some (add_config sc (MkConfig (Num newConfig) shards groups) gs).

(** The labelled loop of [applyMoveL]: the shard is removed from the first group
    that has it. *)
Fixpoint remove_shard (entries : list (Z * list Z)) (shard : Z) (gs : gmap Z (list Z)) : gmap Z (list Z) :=
  match entries with
  | [] => gs
  | (gid, shards) :: entries =>
    match list_find (λ s, s = shard) shards with
    | Some (ind, _) => <[gid := delete ind shards]> gs
    | None => remove_shard entries shard gs
    end
  end.

Definition applyMoveL (sc : ShardCtrler) (shard gid : Z) : option ShardCtrler :=
  newConfig ← makeNewConfigL sc;
  let gs := remove_shard (range 1 (gidShards sc)) shard (gidShards sc) in
  let gs := <[gid := shards_of gs gid ++ [shard]]> gs in
  shards ← go_update (Shards newConfig) shard gid;
  Some (add_config sc (MkConfig (Num newConfig) shards (Groups newConfig)) gs).

Definition applyQueryL (sc : ShardCtrler) (num : Z) : option Config :=
  if negb (num =? -1) && (num <=? nowL sc) then go_index (configs sc) num
  else go_index (configs sc) (nowL sc).

(** [logGidShardsL]: the process exits when the two maps have different
    sizes. *)
Definition logGidShardsL (sc : ShardCtrler) : option ShardCtrler :=
  cur ← go_index (configs sc) (nowL sc);
  if bool_decide (size (Groups cur) = size (gidShards sc)) then Some sc else None.

Definition just_processed (sc : ShardCtrler) (op : Op) : option LastOp :=
  l ← lastOps sc !! op_ClientId op;
  if isSame op (lo_op l) then Some l else None.

(** The body of the switch of [applyOpL]. *)
Definition applyKindL (sc : ShardCtrler) (k : OpKind) : option (ShardCtrler * Config) :=
  match k with
  | opJoin servers => sc ← applyJoinL sc servers; Some (sc, zeroConfig)
  | opLeave gids => sc ← applyLeaveL sc gids; Some (sc, zeroConfig)
  | opMove shard gid => sc ← applyMoveL sc shard gid; Some (sc, zeroConfig)
  | opQuery num => config ← applyQueryL sc num; Some (sc, config)
  end.

Definition applyOpL (sc : ShardCtrler) (op : Op) : option (ShardCtrler * (Err * Config)) :=
  match just_processed sc op with
  | Some _ => Some (sc, (ErrDuplicate, zeroConfig))
  | None =>
    '(sc, config) ← applyKindL sc (op_Kind op);
    let sc := MkShardCtrler (configs sc) (gidShards sc)
                (<[op_ClientId op := MkLastOp op config]> (lastOps sc)) in
    sc ← logGidShardsL sc;
    Some (sc, (OK, config))
  end.

Definition StartServer : ShardCtrler := MkShardCtrler [zeroConfig] ∅ ∅.

(** A replica that applies a log. *)
Fixpoint apply_log (sc : ShardCtrler) (ops : list Op) : option ShardCtrler :=
  match ops with
  | [] => Some sc
  | op :: ops => '(sc, _) ← applyOpL sc op; apply_log sc ops
  end.

(** The handlers [Join], [Leave], [Move] and [Query] and the applier are those
    of [OpServer]; the controller takes no snapshots and ignores them. *)
#[global] Instance ctrler_machine : StateMachine ShardCtrler Op Config := {|
  sm_same := isSame;
  sm_cached sc op := lo_queryResult <$> just_processed sc op;
  sm_apply := applyOpL;
  sm_snapshot _ _ := None;
  sm_restore sc _ := Some sc;
  sm_novalue := zeroConfig;
|}.
End ops.

(** The RPC arguments become operations. *)
Definition Join (servers : gmap Z (list string)) (clientId opId : Z) : Op := MkOp (opJoin servers) clientId opId.
Definition Leave (gids : list Z) (clientId opId : Z) : Op := MkOp (opLeave gids) clientId opId.
Definition Move (shard gid clientId opId : Z) : Op := MkOp (opMove shard gid) clientId opId.
Definition Query (num clientId opId : Z) : Op := MkOp (opQuery num) clientId opId.

(** The clerk of the controller accepts only [OK]. *)
Definition ctrler_accepts (err : Err) : bool := bool_decide (err = OK).

(** The methods of the controller's clerk: the operation that the server makes of
    the arguments. *)
Definition clerk_Join (ck : Clerk) (servers : gmap Z (list string)) : Op := Join servers (me ck) (nextOpId ck).
Definition clerk_Leave (ck : Clerk) (gids : list Z) : Op := Leave gids (me ck) (nextOpId ck).
Definition clerk_Move (ck : Clerk) (shard gid : Z) : Op := Move shard gid (me ck) (nextOpId ck).
Definition clerk_Query (ck : Clerk) (num : Z) : Op := Query num (me ck) (nextOpId ck).
Definition ctrler_sendOpL (ck : Clerk) (outcomes : list (option (Err * Config))) :=
  sendOpL ctrler_accepts ck outcomes.
