(* ===== verification/CtrlerMessages.v ===== *)
(** * Messages of [shardctrler] (shardctrler/common.go, server.go and client.go)

    The strings of configurations, operations, arguments and replies, and the log
    methods of the controller and its clerk.  The groups of a string are in the
    order in which Go iterates over the map. *)

From S2P Require Import Prelude GoStrings Util Logging Clerk ShardCtrler.
From Stdlib Require Import Ascii.

(** The arguments of the calls *)
Record JoinArgs := MkJoinArgs { ja_Servers : gmap Z (list string); ja_ClientId : Z; ja_OpId : Z }.
Record LeaveArgs := MkLeaveArgs { la_GIDs : list Z; la_ClientId : Z; la_OpId : Z }.
Record MoveArgs := MkMoveArgs { ma_Shard : Z; ma_GID : Z; ma_ClientId : Z; ma_OpId : Z }.
Record QueryArgs := MkQueryArgs { qa_Num : Z; qa_ClientId : Z; qa_OpId : Z }.
Record OpReply := MkOpReply { or_Err : Err; or_Config : Config }.

(** The result that the applier hands to the handler *)
Record _Result := Mk_Result { r_err : Err; r_config : Config; r_op : option Op }.

(** The keys of a map that is iterated as [entries] *)
Definition groupsToGids (entries : list (Z * list string)) : list Z :=
  foldl (λ gids '(gid, _), gids ++ [gid]) [] entries.

(** The type of an operation *)
Definition OpKind_string (k : OpKind) : string :=
  match k with opJoin _ => "Join" | opLeave _ => "Leave" | opMove _ _ => "Move" | opQuery _ => "Query" end.

Section strings.
(** The order of an iteration *)
Context (order : gmap Z (list string) → list (Z * list string)).

Definition Config_String (c : Config) : string :=
  "#" +:+ Itoa (Num c) +:+ ", " +:+ show_ints (Shards c) +:+ ", " +:+ show_ints (groupsToGids (order (Groups c))).

Definition JoinArgs_String (j : JoinArgs) : string :=
  "Join" +:+ Itoa (ja_ClientId j) +:+ "-" +:+ Itoa (ja_OpId j) +:+ " " +:+ show_ints (groupsToGids (order (ja_Servers j))).

Definition LeaveArgs_String (l : LeaveArgs) : string :=
  "Leave" +:+ Itoa (la_ClientId l) +:+ "-" +:+ Itoa (la_OpId l) +:+ " " +:+ show_ints (la_GIDs l).

Definition MoveArgs_String (m : MoveArgs) : string :=
  "Move" +:+ Itoa (ma_ClientId m) +:+ "-" +:+ Itoa (ma_OpId m) +:+ " " +:+ Itoa (ma_Shard m) +:+ "->" +:+ Itoa (ma_GID m).

Definition QueryArgs_String (q : QueryArgs) : string :=
  "Query" +:+ Itoa (qa_ClientId q) +:+ "-" +:+ Itoa (qa_OpId q) +:+ " " +:+ Itoa (qa_Num q).

Definition OpReply_String (o : OpReply) : string :=
  let s := Err_string (or_Err o) in
  if negb (Num (or_Config o) =? 0) then s +:+ ", config " +:+ show_ints (Shards (or_Config o)) else s.

Definition Op_String (op : Op) : string :=
  let content :=
    match op_Kind op with
    | opJoin servers => show_ints (groupsToGids (order servers))
    | opLeave gids => show_ints gids
    | opMove shard gid => Itoa shard +:+ "->" +:+ Itoa gid
    | opQuery num => Itoa num
    end in
  OpKind_string (op_Kind op) +:+ Itoa (op_ClientId op) +:+ "-" +:+ Itoa (op_OpId op) +:+ " " +:+ content.

(** A nil pointer is printed as [<nil>]. *)
Definition _Result_String (r : _Result) : string :=
  Err_string (r_err r) +:+ " " +:+ match r_op r with Some op => Op_String op | None => "<nil>" end.
End strings.

(** ** Log methods

    The name of a controller is CTRLR and its number. *)

Section logs.
Context {A : Type} (s : LogState).
Notation output := (list (string * list A)).

Definition server_name (me : Z) : string := "CTRLR" +:+ Itoa me.

Definition server_log (out : output) (time : Z) (name : string) (me verbose : Z) (topic : LogTopic) (format : string) (a : list A) : output :=
  let format := name +:+ ": " +:+ format in
  LogCtrler s out time verbose topic me format a.

Definition clerk_log (out : output) (time : Z) (ck : Clerk) (verbose : Z) (topic : LogTopic) (format : string) (a : list A) : output :=
  LogCtrlerClnt s out time verbose topic (me ck) format a.

Context (string_arg : string → A).

Definition server_lock (out : output) (time : Z) (name : string) (me : Z) (mu : bool) (method : string) : output * option bool :=
  (server_log out time name me VExcessive TTrace "acquire lock (%v)" [string_arg method], Lock mu).

Definition server_unlock (out : output) (time : Z) (name : string) (me : Z) (mu : bool) (method : string) : output * option bool :=
  (server_log out time name me VExcessive TTrace "release lock (%v)" [string_arg method], Unlock mu).

Definition clerk_lock (out : output) (time : Z) (ck : Clerk) (mu : bool) (method : string) : output * option bool :=
  (clerk_log out time ck VExcessive TTrace "acquire lock (%v)" [string_arg method], Lock mu).

Definition clerk_unlock (out : output) (time : Z) (ck : Clerk) (mu : bool) (method : string) : output * option bool :=
  (clerk_log out time ck VExcessive TTrace "release lock (%v)" [string_arg method], Unlock mu).
End logs.

(** ** Groups *)

Lemma groupsToGids_fst entries : groupsToGids entries = entries.*1.
Proof.
  assert (∀ gids, foldl (λ gids '(gid, _), gids ++ [gid]) gids entries = gids ++ entries.*1) as H; [|apply (H [])].
  induction entries as [|[gid ss] entries IH]; intros gids; cbn; [by rewrite app_nil_r|]. by rewrite IH, <- app_assoc.
Qed.

(** Every group once, in whatever order the map is iterated *)
Lemma groupsToGids_spec (m : gmap Z (list string)) entries : entries ≡ₚ map_to_list m →
  NoDup (groupsToGids entries) ∧ ∀ gid, gid ∈ groupsToGids entries ↔ gid ∈ dom m.
Proof.
  intros Hp. rewrite groupsToGids_fst. split; [rewrite Hp; apply NoDup_fst_map_to_list|]. intros gid.
  rewrite Hp, list_elem_of_fmap. setoid_rewrite elem_of_dom. split.
  - intros ([g ss] & -> & Hin%elem_of_map_to_list). by exists ss.
  - intros [ss Hg]. exists (gid, ss). split; [done|]. by apply elem_of_map_to_list.
Qed.

(** ** The clerk and the server write the same string *)

Lemma Join_String order j : Op_String order (Join (ja_Servers j) (ja_ClientId j) (ja_OpId j)) = JoinArgs_String order j.
Proof. reflexivity. Qed.
Lemma Leave_String order l : Op_String order (Leave (la_GIDs l) (la_ClientId l) (la_OpId l)) = LeaveArgs_String l.
Proof. reflexivity. Qed.
Lemma Move_String order m : Op_String order (Move (ma_Shard m) (ma_GID m) (ma_ClientId m) (ma_OpId m)) = MoveArgs_String m.
Proof. reflexivity. Qed.
Lemma Query_String order q : Op_String order (Query (qa_Num q) (qa_ClientId q) (qa_OpId q)) = QueryArgs_String q.
Proof. reflexivity. Qed.

(** ** What a string tells *)

(** Operations with one string are the same for [isSame], and of one kind; the
    order of the iteration does not matter. *)
Lemma ctrler_Op_String_identifies order order' op op' :
  0 <= op_ClientId op → 0 <= op_ClientId op' → 0 <= op_OpId op → 0 <= op_OpId op' →
  Op_String order op = Op_String order' op' →
  isSame op op' = true ∧ OpKind_string (op_Kind op) = OpKind_string (op_Kind op').
Proof.
  intros Hc Hc' Ho Ho' E. unfold Op_String in E.
  assert (OpKind_string (op_Kind op) = OpKind_string (op_Kind op')) as Et.
  { destruct (op_Kind op), (op_Kind op'); try done; cbn in E; rewrite !append_cons in E; done. }
  split; [|done]. rewrite Et in E.
  assert (∀ k a b, OpKind_string k +:+ a = OpKind_string k +:+ b → a = b) as Hcut.
  { intros [] a b H; cbn in H; rewrite !append_cons, !append_nil in H; by injection H. }
  apply Hcut, pair_text_inj in E as (E1 & E2 & _); [|done..]. unfold isSame. rewrite E1, E2. by rewrite !Z.eqb_refl.
Qed.
