(* ===== verification/ShardCtrlerInv.v ===== *)
(** * Package [shardctrler]: rebalancing and the invariant of the controller

    The search for the smallest and the largest group does not depend on the
    order of the map; the rebalancing loop ends, keeps the shards and leaves
    groups whose sizes differ by at most one; the operations preserve an
    invariant that relates [gidShards] to the current configuration. *)

From S2P Require Import Prelude Util Labgob OpServer Clerk ShardCtrler.

(** ** The search *)

(** (gid, size) pairs, by size and then by gid. *)
Definition lexle (a b : Z * Z) : Prop := a.2 < b.2 ∨ (a.2 = b.2 ∧ a.1 <= b.1).

#[global] Instance lexle_trans : Transitive lexle.
Proof. intros [] [] []; unfold lexle; cbn. lia. Qed.
#[global] Instance lexle_antisymm : AntiSymm (=) lexle.
Proof. intros [a1 a2] [b1 b2]; unfold lexle; cbn. intros. f_equal; lia. Qed.
#[global] Instance lexle_refl : Reflexive lexle.
Proof. intros []; unfold lexle; cbn. lia. Qed.

Definition entry_key (e : Z * list Z) : Z * Z := (e.1, go_len e.2).

Lemma min_fold es acc :
  let r := foldl min_step acc es in
  r ∈ acc :: (entry_key <$> es) ∧ ∀ x, x ∈ acc :: (entry_key <$> es) → lexle r x.
Proof.
  revert acc. induction es as [|[g l] es IH]; intros acc; cbn [foldl].
  { split; [by left|]. intros x ->%list_elem_of_singleton. reflexivity. }
  destruct (IH (min_step acc (g, l))) as [Hin Hle]. set (r := foldl _ _ es) in *.
  assert ((min_step acc (g, l) = acc ∨ min_step acc (g, l) = (g, go_len l))
    ∧ lexle (min_step acc (g, l)) acc ∧ lexle (min_step acc (g, l)) (g, go_len l)) as (Hs & Ha & Hg).
  { destruct acc as [a s]. unfold min_step, lexle. destruct (go_len l <? s) eqn:E1; bools; cbn; [split_and!; [by right|lia|lia]|].
    destruct (_ && _) eqn:E2; bools; cbn.
    - split_and!; [right; f_equal; lia|lia|lia].
    - split_and!; [by left|lia|]. destruct E2; bools; lia. }
  split.
  - apply elem_of_cons in Hin as [->|Hin]; [|by right; right].
    destruct Hs as [->| ->]; [by left|right; by left].
  - pose proof (Hle _ ltac:(by left)). intros x [->|[->|Hx]%elem_of_cons]%elem_of_cons; [by etrans..|].
    apply Hle. by right.
Qed.

Lemma max_fold es acc :
  let r := foldl max_step acc es in
  r ∈ acc :: (entry_key <$> es) ∧ ∀ x, x ∈ acc :: (entry_key <$> es) → lexle x r.
Proof.
  revert acc. induction es as [|[g l] es IH]; intros acc; cbn [foldl].
  { split; [by left|]. intros x ->%list_elem_of_singleton. reflexivity. }
  destruct (IH (max_step acc (g, l))) as [Hin Hle]. set (r := foldl _ _ es) in *.
  assert ((max_step acc (g, l) = acc ∨ max_step acc (g, l) = (g, go_len l))
    ∧ lexle acc (max_step acc (g, l)) ∧ lexle (g, go_len l) (max_step acc (g, l))) as (Hs & Ha & Hg).
  { destruct acc as [a s]. unfold max_step, lexle. destruct (go_len l >? s) eqn:E1; bools; cbn; [split_and!; [by right|lia|lia]|].
    destruct (_ && _) eqn:E2; bools; cbn.
    - split_and!; [right; f_equal; lia|lia|lia].
    - split_and!; [by left|lia|]. destruct E2; bools; lia. }
  split.
  - apply elem_of_cons in Hin as [->|Hin]; [|by right; right].
    destruct Hs as [->| ->]; [by left|right; by left].
  - pose proof (Hle _ ltac:(by left)). intros x [->|[->|Hx]%elem_of_cons]%elem_of_cons; [by etrans..|].
    apply Hle. by right.
Qed.

Lemma minmax_split es a b :
  foldl (λ acc entry, (min_step acc.1 entry, max_step acc.2 entry)) (a, b) es
  = (foldl min_step a es, foldl max_step b es).
Proof. revert a b. induction es as [|e es IH]; intros a b; cbn; [done|apply IH]. Qed.

Lemma minmax_perm es es' : es ≡ₚ es' → findMinMaxGidL es = findMinMaxGidL es'.
Proof.
  intros Hp. unfold findMinMaxGidL. rewrite !minmax_split. cbn.
  assert (∀ a x, x ∈ a :: (entry_key <$> es) ↔ x ∈ a :: (entry_key <$> es')) as Hm.
  { intros a x. by rewrite Hp. }
  set (a0 := (NA, NShards + 1)). set (b0 := (NA, -1)).
  destruct (min_fold es a0) as [H1 H2], (min_fold es' a0) as [H3 H4].
  destruct (max_fold es b0) as [H5 H6], (max_fold es' b0) as [H7 H8].
  assert (foldl min_step a0 es = foldl min_step a0 es') as ->.
  { apply (anti_symm lexle); [by apply H2, Hm|by apply H4, Hm]. }
  assert (foldl max_step b0 es = foldl max_step b0 es') as ->; [|done].
  apply (anti_symm lexle); [by apply H8, Hm|by apply H6, Hm].
Qed.

(** The two groups found exist and are the extremes of the order. *)
Lemma minmax_lex (gs : gmap Z (list Z)) es :
  es ≡ₚ map_to_list gs → gs ≠ ∅ → (∀ g l, gs !! g = Some l → go_len l <= NShards) →
  let '(gmin, gmax) := findMinMaxGidL es in
  ∃ lmin lmax, gs !! gmin = Some lmin ∧ gs !! gmax = Some lmax
    ∧ ∀ g l, gs !! g = Some l → lexle (gmin, go_len lmin) (g, go_len l) ∧ lexle (g, go_len l) (gmax, go_len lmax).
Proof.
  intros Hp Hne Hs. unfold findMinMaxGidL. rewrite minmax_split. cbn.
  destruct (min_fold es (NA, NShards + 1)) as [H1 H2], (max_fold es (NA, -1)) as [H3 H4].
  set (mn := foldl min_step _ es) in *. set (mx := foldl max_step _ es) in *.
  assert (∀ g l, gs !! g = Some l → (g, go_len l) ∈ entry_key <$> es) as Hin.
  { intros g l Hg. apply list_elem_of_fmap. exists (g, l). split; [done|]. rewrite Hp. by apply elem_of_map_to_list. }
  assert (∀ x, x ∈ entry_key <$> es → ∃ l, gs !! x.1 = Some l ∧ go_len l = x.2) as Hout.
  { intros x ([g l] & -> & Hx)%list_elem_of_fmap. rewrite Hp in Hx. apply elem_of_map_to_list in Hx. by exists l. }
  apply map_choose in Hne as (g0 & l0 & Hg0). specialize (Hs g0 l0 Hg0).
  assert (0 <= go_len l0) as Hnn by (unfold go_len; lia).
  assert (mn ∈ entry_key <$> es) as Hmn.
  { apply elem_of_cons in H1 as [Heq|]; [exfalso|done].
    pose proof (H2 (g0, go_len l0) ltac:(right; by apply Hin)) as Hl. rewrite Heq in Hl.
    unfold lexle, NShards in *; cbn in *. lia. }
  assert (mx ∈ entry_key <$> es) as Hmx.
  { apply elem_of_cons in H3 as [Heq|]; [exfalso|done].
    pose proof (H4 (g0, go_len l0) ltac:(right; by apply Hin)) as Hl. rewrite Heq in Hl.
    unfold lexle in *; cbn in *. lia. }
  destruct (Hout _ Hmn) as (lmn & Emn & Lmn), (Hout _ Hmx) as (lmx & Emx & Lmx).
  exists lmn, lmx. split_and!; [done..|]. intros g l Hg.
  rewrite Lmn, Lmx. rewrite <- !surjective_pairing. split; [apply H2|apply H4]; right; by apply Hin.
Qed.

Lemma minmax_spec (gs : gmap Z (list Z)) es :
  es ≡ₚ map_to_list gs → gs ≠ ∅ → (∀ g l, gs !! g = Some l → go_len l <= NShards) →
  let '(gmin, gmax) := findMinMaxGidL es in
  is_Some (gs !! gmin) ∧ is_Some (gs !! gmax)
  ∧ (∀ g l, gs !! g = Some l → go_len (shards_of gs gmin) <= go_len l <= go_len (shards_of gs gmax)).
Proof.
  intros Hp Hne Hs. pose proof (minmax_lex gs es Hp Hne Hs) as Hm.
  destruct (findMinMaxGidL es) as [gmin gmax]. destruct Hm as (lmn & lmx & Emn & Emx & Hall).
  split_and!; [by eexists..|]. intros g l Hg. unfold shards_of. rewrite Emn, Emx. cbn.
  destruct (Hall g l Hg). unfold lexle in *; cbn in *. lia.
Qed.

(** ** All shards of a map *)

Definition all_shards (gs : gmap Z (list Z)) : list Z := concat (map_to_list gs).*2.

Lemma all_shards_lookup gs g l :
  gs !! g = Some l → all_shards gs ≡ₚ l ++ all_shards (delete g gs).
Proof. intros Hg. unfold all_shards. by rewrite <- (map_to_list_delete gs g l Hg). Qed.

Lemma all_shards_insert gs g l : all_shards (<[g := l]> gs) ≡ₚ l ++ all_shards (delete g gs).
Proof.
  rewrite (all_shards_lookup (<[g := l]> gs) g l) by apply lookup_insert_eq.
  by rewrite delete_insert_eq.
Qed.

Lemma sum_squares_lookup gs g l :
  gs !! g = Some l → sum_squares gs = (length l * length l + sum_squares (delete g gs))%nat.
Proof. intros Hg. unfold sum_squares. by rewrite <- (map_to_list_delete gs g l Hg). Qed.

Lemma sum_squares_insert gs g l :
  sum_squares (<[g := l]> gs) = (length l * length l + sum_squares (delete g gs))%nat.
Proof.
  rewrite (sum_squares_lookup (<[g := l]> gs) g l) by apply lookup_insert_eq.
  by rewrite delete_insert_eq.
Qed.

Lemma elem_of_all_shards gs s : s ∈ all_shards gs ↔ ∃ g l, gs !! g = Some l ∧ s ∈ l.
Proof.
  unfold all_shards. rewrite elem_of_concat. split.
  - intros (l & Hs & ([g l'] & -> & Hx)%list_elem_of_fmap). apply elem_of_map_to_list in Hx. eauto.
  - intros (g & l & Hg & Hs). exists l. split; [done|]. apply list_elem_of_fmap. exists (g, l).
    split; [done|]. by apply elem_of_map_to_list.
Qed.

(** The shards of the groups are different shards. *)
Record gs_ok (gs : gmap Z (list Z)) : Prop := {
  go_nodup : NoDup (all_shards gs);
  go_range s : s ∈ all_shards gs → 0 <= s < NShards;
}.

Lemma gs_ok_size gs g l : gs_ok gs → gs !! g = Some l → go_len l <= NShards.
Proof.
  intros [Hnd Hr] Hg. rewrite (all_shards_lookup _ _ _ Hg) in Hnd. apply NoDup_app in Hnd as (Hnd & _ & _).
  assert (l ⊆+ seqZ 0 NShards) as Hsub.
  { apply NoDup_submseteq; [done|]. intros s Hs. apply elem_of_seqZ. rewrite Z.add_0_l. apply Hr.
    apply elem_of_all_shards. eauto. }
  apply submseteq_length in Hsub. rewrite length_seqZ in Hsub. unfold go_len, NShards in *. lia.
Qed.

Lemma gs_ok_unique gs g1 g2 l1 l2 s :
  gs_ok gs → gs !! g1 = Some l1 → gs !! g2 = Some l2 → s ∈ l1 → s ∈ l2 → g1 = g2.
Proof.
  intros [Hnd _] H1 H2 Hs1 Hs2. destruct (decide (g1 = g2)) as [|Hne]; [done|exfalso].
  rewrite (all_shards_lookup _ _ _ H1) in Hnd. apply NoDup_app in Hnd as (_ & Hd & _).
  apply (Hd s Hs1). apply elem_of_all_shards. exists g2, l2. by rewrite lookup_delete_ne.
Qed.

Lemma gs_ok_perm gs gs' : all_shards gs' ≡ₚ all_shards gs → gs_ok gs → gs_ok gs'.
Proof. intros Hp [Hnd Hr]. split; [by rewrite Hp|]. intros s. rewrite Hp. apply Hr. Qed.

(** ** The rebalancing loop *)

Definition balanced (gs : gmap Z (list Z)) : Prop := ∀ g1 g2 l1 l2,
  gs !! g1 = Some l1 → gs !! g2 = Some l2 → go_len l1 - go_len l2 <= 1.

(** Moving a shard between groups whose sizes differ by two or more. *)
Lemma rebalance_move gs gmin gmax a b s :
  gs !! gmin = Some a → gs !! gmax = Some (b ++ [s]) → (length a + 1 <= length b)%nat →
  let gs' := <[gmin := a ++ [s]]> (<[gmax := b]> gs) in
  all_shards gs' ≡ₚ all_shards gs ∧ (sum_squares gs' < sum_squares gs)%nat ∧ dom gs' = dom gs.
Proof.
  intros Ha Hb Hlen gs'.
  assert (gmin ≠ gmax) as Hne.
  { intros ->. rewrite Ha in Hb. injection Hb as ->. rewrite length_app in Hlen. cbn in Hlen. lia. }
  assert (delete gmin gs !! gmax = Some (b ++ [s])) as Hb' by by rewrite lookup_delete_ne.
  unfold gs'. split_and!.
  - rewrite all_shards_insert, delete_insert_ne, all_shards_insert by done.
    rewrite (all_shards_lookup gs _ _ Ha), (all_shards_lookup _ _ _ Hb'). solve_Permutation.
  - rewrite sum_squares_insert, delete_insert_ne, sum_squares_insert by done.
    rewrite (sum_squares_lookup gs _ _ Ha), (sum_squares_lookup _ _ _ Hb'), !length_app. cbn. nia.
  - rewrite !dom_insert_L. apply elem_of_dom_2 in Ha, Hb. set_solver.
Qed.

Section rebalance.
Context `{!MapOrder, !MapOrderLaws}.

(** One iteration. *)
Lemma rebalance_loop_unfold fuel gs :
  gs_ok gs →
  (rebalance_loop fuel gs = Some gs ∧ balanced gs)
  ∨ ∃ gmin gmax a b s, gs !! gmin = Some a ∧ gs !! gmax = Some (b ++ [s]) ∧ (length a + 1 <= length b)%nat
    ∧ rebalance_loop fuel gs = match fuel with
        | O => None
        | S fuel => rebalance_loop fuel (<[gmin := a ++ [s]]> (<[gmax := b]> gs))
        end.
Proof.
  intros Hok. assert (rebalance_loop fuel gs =
    (let '(gidMin, gidMax) := findMinMaxGidL (range fuel gs) in
     let minGidShards := shards_of gs gidMin in
     let maxGidShards := shards_of gs gidMax in
     if go_len maxGidShards - go_len minGidShards <=? 1 then Some gs
     else
       match fuel with
       | O => None
       | S fuel =>
         let lastInd := go_len maxGidShards - 1 in
         shard ← go_index maxGidShards lastInd;
         rest ← slice_to maxGidShards lastInd;
         rebalance_loop fuel (<[gidMin := minGidShards ++ [shard]]> (<[gidMax := rest]> gs))
       end)) as -> by by destruct fuel.
  destruct (decide (gs = ∅)) as [->|Hne].
  { left. rewrite (minmax_perm _ []) by (rewrite range_perm; by rewrite map_to_list_empty).
    cbn. unfold shards_of. rewrite lookup_empty. split; [done|]. intros g1 g2 l1 l2 Hg.
    by rewrite lookup_empty in Hg. }
  pose proof (minmax_spec gs _ (range_perm fuel gs) Hne (λ g l, gs_ok_size gs g l Hok)) as Hm.
  destruct (findMinMaxGidL _) as [gmin gmax]. destruct Hm as ([a Ha] & [c Hc] & Hall).
  unfold shards_of in *. rewrite Ha, Hc in *. cbn [default from_option id] in *. cbn zeta.
  destruct (go_len c - go_len a <=? 1) eqn:E; bools.
  { left. split; [done|]. intros g1 g2 l1 l2 H1 H2. pose proof (Hall _ _ H1). pose proof (Hall _ _ H2).
    cbn in *. lia. }
  destruct c as [|s b _] using rev_ind; [unfold go_len in E; cbn in E; lia|]. right. exists gmin, gmax, a, b, s.
  rewrite go_len_app in *. change (go_len [s]) with 1 in *.
  split_and!; [done|done|unfold go_len in E; lia|]. destruct fuel as [|fuel]; [done|].
  replace (go_len b + 1 - 1) with (go_len b) by lia.
  assert (go_index (b ++ [s]) (go_len b) = Some s) as ->.
  { unfold go_len. rewrite go_index_nat. by apply list_lookup_middle. }
  cbn [mbind option_bind]. rewrite slice_to_eq by (rewrite go_len_app; unfold go_len; lia).
  cbn [mbind option_bind]. assert (take (Z.to_nat (go_len b)) (b ++ [s]) = b) as ->; [|done].
  unfold go_len. rewrite Nat2Z.id. by rewrite take_app_length.
Qed.

Lemma rebalance_loop_spec fuel gs :
  gs_ok gs → (sum_squares gs <= fuel)%nat →
  ∃ gs', rebalance_loop fuel gs = Some gs' ∧ all_shards gs' ≡ₚ all_shards gs ∧ dom gs' = dom gs ∧ balanced gs'.
Proof.
  revert gs. induction fuel as [|fuel IH]; intros gs Hok Hf;
    edestruct rebalance_loop_unfold as [[-> Hb]|(gmin & gmax & a & b & s & Ha & Hc & Hlen & ->)];
    try exact Hok; try (exists gs; done).
  - pose proof (sum_squares_lookup gs _ _ Hc) as Hsq. rewrite length_app in Hsq. cbn in Hsq. lia.
  - destruct (rebalance_move gs gmin gmax a b s Ha Hc Hlen) as (Hp & Hsq & Hd).
    destruct (IH (<[gmin := a ++ [s]]> (<[gmax := b]> gs))) as (gs' & -> & Hp' & Hd' & Hb).
    + by eapply gs_ok_perm.
    + lia.
    + exists gs'. split_and!; [done|by etrans|congruence|done].
Qed.
End rebalance.

(** The loop does not depend on the order of the map. *)
Lemma rebalance_loop_order (o1 o2 : MapOrder) `{!@MapOrderLaws o1, !@MapOrderLaws o2} fuel gs :
  @rebalance_loop o1 fuel gs = @rebalance_loop o2 fuel gs.
Proof.
  assert (∀ t gs, findMinMaxGidL (@range o1 _ t gs) = findMinMaxGidL (@range o2 _ t gs)) as Hm.
  { intros t m. apply minmax_perm. by rewrite !range_perm. }
  revert gs. induction fuel as [|fuel IH]; intros gs; cbn [rebalance_loop]; rewrite Hm.
  - done.
  - destruct (findMinMaxGidL _) as [gmin gmax]. destruct (_ <=? _); [done|].
    destruct (go_index _ _); cbn; [|done]. destruct (slice_to _ _); cbn; [|done]. apply IH.
Qed.

(** ** Writing the assignment *)

Lemma assign_group_spec gid l arr :
  (∀ s, s ∈ l → 0 <= s < go_len arr) →
  ∃ arr', assign_group gid l arr = Some arr' ∧ length arr' = length arr
    ∧ ∀ k : nat, arr' !! k = if decide (Z.of_nat k ∈ l) then Some gid else arr !! k.
Proof.
  revert arr. induction l as [|s l IH]; intros arr Hr; cbn [assign_group].
  { exists arr. done. }
  pose proof (Hr s ltac:(by left)) as Hs. rewrite go_update_eq by done. cbn [mbind option_bind].
  unfold go_len in *. destruct (IH (<[Z.to_nat s := gid]> arr)) as (arr' & -> & Hlen & Hat).
  { intros s' Hs'. rewrite length_insert. apply Hr. by right. }
  exists arr'. rewrite length_insert in Hlen. split_and!; [done|done|]. intros k. rewrite Hat.
  destruct (decide (Z.of_nat k ∈ l)) as [Hk|Hk]; [rewrite decide_True; [done|by right]|].
  destruct (decide (Z.of_nat k = s)) as [<-|Hne].
  - rewrite decide_True by by left. rewrite Nat2Z.id. apply list_lookup_insert_eq. lia.
  - rewrite decide_False by set_solver. apply list_lookup_insert_ne. lia.
Qed.

Definition entries_ok (es : list (Z * list Z)) (n : Z) : Prop :=
  (∀ g l s, (g, l) ∈ es → s ∈ l → 0 <= s < n)
  ∧ ∀ g1 g2 l1 l2 s, (g1, l1) ∈ es → (g2, l2) ∈ es → s ∈ l1 → s ∈ l2 → g1 = g2.

(** What the array holds after the assignment. *)
Definition assigned (es : list (Z * list Z)) (arr arr' : list Z) : Prop :=
  length arr' = length arr
  ∧ (∀ (k : nat) g l, (g, l) ∈ es → Z.of_nat k ∈ l → arr' !! k = Some g)
  ∧ (∀ k : nat, (∀ g l, (g, l) ∈ es → Z.of_nat k ∉ l) → arr' !! k = arr !! k).

Lemma assign_all_spec es arr :
  entries_ok es (go_len arr) → ∃ arr', assign_all es arr = Some arr' ∧ assigned es arr arr'.
Proof.
  revert arr. induction es as [|[g l] es IH]; intros arr [Hr Hu]; cbn [assign_all].
  { exists arr. split; [done|]. split_and!; try done. by intros k g l ?%elem_of_nil. }
  destruct (assign_group_spec g l arr) as (arr1 & -> & Hlen1 & Hat1).
  { intros s Hs. eapply Hr; [by left|done]. }
  cbn [mbind option_bind]. destruct (IH arr1) as (arr' & -> & Hlen & Hin & Hout).
  { unfold go_len in *. rewrite Hlen1. split; intros; [eapply Hr; [by right|done]|].
    eapply Hu; [by right|by right|done|done]. }
  exists arr'. split; [done|]. split_and!.
  - congruence.
  - intros k g' l' [Heq|Hx]%elem_of_cons Hk; [|by eapply Hin]. injection Heq as -> ->.
    destruct (decide (Exists (λ e, Z.of_nat k ∈ e.2) es)) as [He|He].
    + apply Exists_exists in He as ([g2 l2] & H2 & Hk2). rewrite (Hin k g2 l2 H2 Hk2). f_equal.
      eapply Hu; [by right|by left|exact Hk2|done].
    + rewrite Hout, Hat1, decide_True; [done|done|]. intros g2 l2 H2 Hk2. apply He, Exists_exists. by exists (g2, l2).
  - intros k Hno. rewrite Hout, Hat1, decide_False; [done|eapply Hno; by left|].
    intros g2 l2 H2. eapply Hno. by right.
Qed.

Lemma assigned_unique es es' arr a1 a2 :
  (∀ x, x ∈ es ↔ x ∈ es') → assigned es arr a1 → assigned es' arr a2 → a1 = a2.
Proof.
  intros He (L1 & I1 & O1) (L2 & I2 & O2). apply list_eq. intros k.
  destruct (decide (Exists (λ e, Z.of_nat k ∈ e.2) es)) as [Hx|Hx].
  - apply Exists_exists in Hx as ([g l] & H & Hk). rewrite (I1 k g l H Hk). symmetry.
    eapply I2; [by apply He|done].
  - rewrite O1, O2; [done| |].
    + intros g l H%He Hk. apply Hx, Exists_exists. by exists (g, l).
    + intros g l H Hk. apply Hx, Exists_exists. by exists (g, l).
Qed.

Lemma entries_ok_range (gs : gmap Z (list Z)) es :
  gs_ok gs → es ≡ₚ map_to_list gs → entries_ok es NShards.
Proof.
  intros Hok Hp. split.
  - intros g l s Hg Hs. rewrite Hp in Hg. apply elem_of_map_to_list in Hg.
    apply Hok, elem_of_all_shards. eauto.
  - intros g1 g2 l1 l2 s H1 H2. rewrite Hp in H1, H2. apply elem_of_map_to_list in H1, H2.
    by apply (gs_ok_unique gs).
Qed.

(** ** Maps of shards, pointwise *)

Lemma gs_ok_intro gs :
  (∀ g l, gs !! g = Some l → NoDup l ∧ ∀ s, s ∈ l → 0 <= s < NShards) →
  (∀ g1 g2 l1 l2 s, gs !! g1 = Some l1 → gs !! g2 = Some l2 → s ∈ l1 → s ∈ l2 → g1 = g2) → gs_ok gs.
Proof.
  intros Hl Hu. split.
  - revert Hl Hu. induction gs as [|g l gs Hg IH] using map_ind; intros Hl Hu; [constructor|].
    rewrite all_shards_insert, delete_id by done. apply NoDup_app. split_and!.
    + apply (Hl g). apply lookup_insert_eq.
    + intros s Hs (g' & l' & Hg' & Hs')%elem_of_all_shards.
      assert (g ≠ g') by congruence.
      assert (g = g'); [|done]. eapply (Hu _ _ l l' s); [apply lookup_insert_eq|by rewrite lookup_insert_ne|done|done].
    + apply IH.
      * intros g' l' Hg'. apply (Hl g'). rewrite lookup_insert_ne; [done|congruence].
      * intros g1 g2 l1 l2 s H1 H2. apply Hu; rewrite lookup_insert_ne; (done || congruence).
  - intros s (g & l & Hg & Hs)%elem_of_all_shards. by apply (Hl g l Hg).
Qed.

Lemma gs_ok_nodup gs g l : gs_ok gs → gs !! g = Some l → NoDup l.
Proof.
  intros [Hnd _] Hg. rewrite (all_shards_lookup _ _ _ Hg) in Hnd. by apply NoDup_app in Hnd as (? & _ & _).
Qed.

Lemma gs_ok_sub gs gs' : all_shards gs' ⊆+ all_shards gs → gs_ok gs → gs_ok gs'.
Proof.
  intros Hs [Hnd Hr]. split; [by eapply submseteq_NoDup|]. intros s Hin. apply Hr. by eapply elem_of_submseteq.
Qed.

Lemma all_shards_append gs g l : all_shards (<[g := shards_of gs g ++ l]> gs) ≡ₚ l ++ all_shards gs.
Proof.
  rewrite all_shards_insert. unfold shards_of. destruct (gs !! g) as [l0|] eqn:E; cbn.
  - rewrite (all_shards_lookup gs g l0 E). solve_Permutation.
  - by rewrite delete_id.
Qed.

Lemma all_shards_delete gs g : all_shards gs ≡ₚ shards_of gs g ++ all_shards (delete g gs).
Proof.
  unfold shards_of. destruct (gs !! g) as [l|] eqn:E; cbn; [by apply all_shards_lookup|]. by rewrite delete_id.
Qed.

(** Every shard belongs to a group. *)
Definition complete (gs : gmap Z (list Z)) : Prop := ∀ s, 0 <= s < NShards → s ∈ all_shards gs.

(** The array agrees with the map. *)
Definition agrees (gs : gmap Z (list Z)) (arr : list Z) : Prop :=
  ∀ (k : nat) g l, gs !! g = Some l → Z.of_nat k ∈ l → arr !! k = Some g.

(** ** Rebalancing *)

Section rebalanceL.
Context `{!MapOrder, !MapOrderLaws}.

Lemma rebalanceL_spec gs arr :
  gs_ok gs → go_len arr = NShards →
  ∃ gs' arr', rebalanceL gs arr = Some (gs', arr') ∧ all_shards gs' ≡ₚ all_shards gs ∧ dom gs' = dom gs
    ∧ balanced gs' ∧ go_len arr' = NShards ∧ agrees gs' arr'.
Proof.
  intros Hok Hlen. unfold rebalanceL.
  destruct (rebalance_loop_spec (S (sum_squares gs)) gs Hok ltac:(lia)) as (gs' & -> & Hp & Hd & Hb).
  cbn [mbind option_bind]. pose proof (gs_ok_perm _ _ Hp Hok) as Hok'.
  destruct (assign_all_spec (range 0 gs') arr) as (arr' & -> & Hl & Hin & _).
  { rewrite Hlen. by apply (entries_ok_range gs'), range_perm. }
  exists gs', arr'. unfold go_len in *. split_and!; try done; [by rewrite Hl|].
  intros k g l Hg Hk. eapply Hin; [|exact Hk]. rewrite range_perm. by apply elem_of_map_to_list.
Qed.
End rebalanceL.

Lemma rebalanceL_order (o1 o2 : MapOrder) `{!@MapOrderLaws o1, !@MapOrderLaws o2} gs arr :
  gs_ok gs → go_len arr = NShards → @rebalanceL o1 gs arr = @rebalanceL o2 gs arr.
Proof.
  intros Hok Hlen. unfold rebalanceL. rewrite (rebalance_loop_order o1 o2).
  destruct (@rebalance_loop_spec o2 _ (S (sum_squares gs)) gs Hok ltac:(lia)) as (gs' & -> & Hp & _).
  cbn [mbind option_bind]. pose proof (gs_ok_perm _ _ Hp Hok) as Hok'.
  destruct (assign_all_spec (@range o1 _ 0 gs') arr) as (a1 & -> & H1).
  { rewrite Hlen. by apply (entries_ok_range gs'), range_perm. }
  destruct (assign_all_spec (@range o2 _ 0 gs') arr) as (a2 & -> & H2).
  { rewrite Hlen. by apply (entries_ok_range gs'), range_perm. }
  cbn. f_equal. f_equal. eapply assigned_unique; [|exact H1|exact H2].
  intros x. by rewrite !range_perm.
Qed.

(** ** The loops of the operations *)

(** Inserting the entries of a map one by one, in any order. *)
Lemma insert_all {A B} (f : A → B) (m : gmap Z A) (m0 : gmap Z B) es :
  es ≡ₚ map_to_list m → foldl (λ acc e, <[e.1 := f e.2]> acc) m0 es = (f <$> m) ∪ m0.
Proof.
  intros Hp.
  assert (NoDup es.*1) as Hnd by (rewrite Hp; apply NoDup_fst_map_to_list).
  assert (∀ es m0, NoDup es.*1 → foldl (λ (acc : gmap Z B) e, <[e.1 := f e.2]> acc) m0 es
    = (list_to_map (prod_map id f <$> es) : gmap Z B) ∪ m0) as Hf.
  { clear. intros es. induction es as [|[k v] es IH]; intros m0 Hnd; cbn.
    - by rewrite (left_id_L ∅ (∪)).
    - apply NoDup_cons in Hnd as [Hk Hnd]. rewrite IH by done.
      rewrite <- insert_union_l, <- insert_union_r; [done|].
      apply not_elem_of_list_to_map_1. rewrite <- list_fmap_compose. done. }
  rewrite Hf by done. f_equal. rewrite list_to_map_fmap. f_equal.
  rewrite (list_to_map_proper es (map_to_list m)) by done. apply list_to_map_to_list.
Qed.

Lemma join_loop (servers : gmap Z (list string)) es groups gs :
  es ≡ₚ map_to_list servers →
  foldl (λ acc entry, (<[entry.1 := entry.2]> acc.1, <[entry.1 := []]> acc.2)) (groups, gs) es
  = (servers ∪ groups, ((λ _, []) <$> servers) ∪ gs : gmap Z (list Z)).
Proof.
  intros Hp. assert (∀ es g0 m0, foldl (λ (acc : gmap Z (list string) * gmap Z (list Z)) (entry : Z * list string),
      (<[entry.1 := entry.2]> acc.1, <[entry.1 := []]> acc.2)) (g0, m0) es
    = (foldl (λ acc e, <[e.1 := id e.2]> acc) g0 es, foldl (λ acc e, <[e.1 := (λ _, []) e.2]> acc) m0 es
       : gmap Z (list Z))) as ->.
  { clear. induction es as [|e es IH]; intros g0 m0; cbn; [done|apply IH]. }
  f_equal.
  - etrans; [apply (insert_all id servers groups es Hp)|by rewrite map_fmap_id].
  - apply (insert_all (λ _ : list string, []) servers gs es Hp).
Qed.

Definition leave_step (acc : gmap Z (list string) * gmap Z (list Z) * gmap Z (list Z)) (gid : Z) :=
  (delete gid acc.1.1, <[gid := shards_of acc.2 gid]> acc.1.2, delete gid acc.2).

(** The groups that leave take their shards along, unless one is named twice. *)
Lemma leave_loop gids groups removed gs :
  let '(groups', removed', gs') := foldl leave_step (groups, removed, gs) gids in
  (∀ g, groups' !! g = if decide (g ∈ gids) then None else groups !! g)
  ∧ (∀ g, gs' !! g = if decide (g ∈ gids) then None else gs !! g)
  ∧ all_shards removed' ++ all_shards gs' ⊆+ all_shards removed ++ all_shards gs
  ∧ (NoDup gids → (∀ g, g ∈ gids → removed !! g = None) →
     all_shards removed' ++ all_shards gs' ≡ₚ all_shards removed ++ all_shards gs).
Proof.
  revert groups removed gs. induction gids as [|g gids IH]; intros groups removed gs; cbn [foldl].
  { split_and!; done. }
  specialize (IH (delete g groups) (<[g := shards_of gs g]> removed) (delete g gs)).
  unfold leave_step at 2. cbn [fst snd]. destruct (foldl _ _ gids) as [[groups' removed'] gs'].
  destruct IH as (H1 & H2 & H3 & H4).
  assert (∀ {A} (m : gmap Z A) k, (if decide (k ∈ gids) then None else delete g m !! k)
    = if decide (k ∈ g :: gids) then None else m !! k) as Hd.
  { intros A m k. destruct (decide (k ∈ gids)) as [Hk|Hk]; [rewrite decide_True; [done|by right]|].
    destruct (decide (k = g)) as [->|Hne].
    - rewrite decide_True by by left. apply lookup_delete_eq.
    - rewrite decide_False by set_solver. by rewrite lookup_delete_ne. }
  assert (all_shards (<[g := shards_of gs g]> removed) ++ all_shards (delete g gs)
    ≡ₚ all_shards (delete g removed) ++ all_shards gs) as Hmv.
  { rewrite all_shards_insert, (all_shards_delete gs g). solve_Permutation. }
  split_and!.
  - intros k. by rewrite H1, Hd.
  - intros k. by rewrite H2, Hd.
  - rewrite H3, Hmv, (all_shards_delete removed g). rewrite <- (assoc_L (++)).
    by apply submseteq_inserts_l.
  - intros [Hg Hnd]%NoDup_cons Hno. rewrite H4, Hmv; [|done|].
    + rewrite delete_id; [done|apply Hno; by left].
    + intros k Hk. rewrite lookup_insert_ne; [apply Hno; by right|]. intros ->. done.
Qed.

(** Removing a shard from the group that has it. *)
Lemma remove_shard_spec gs es shard :
  gs_ok gs → es ≡ₚ map_to_list gs →
  (shard ∉ all_shards gs ∧ remove_shard es shard gs = gs)
  ∨ ∃ g l ind, gs !! g = Some l ∧ l !! ind = Some shard ∧ remove_shard es shard gs = <[g := delete ind l]> gs.
Proof.
  intros Hok Hp. assert (∀ g l, (g, l) ∈ es ↔ gs !! g = Some l) as Hes.
  { intros. rewrite Hp. apply elem_of_map_to_list. }
  assert (∀ es', (∀ g l, (g, l) ∈ es' → gs !! g = Some l) →
    ((∀ g l, (g, l) ∈ es' → shard ∉ l) ∧ remove_shard es' shard gs = gs)
    ∨ ∃ g l ind, gs !! g = Some l ∧ l !! ind = Some shard ∧ remove_shard es' shard gs = <[g := delete ind l]> gs) as Hgen.
  { intros es'. induction es' as [|[g l] es' IH]; intros Hin; cbn [remove_shard].
    - left. split; [|done]. by intros g l ?%elem_of_nil.
    - destruct (list_find (λ s, s = shard) l) as [[ind x]|] eqn:E.
      + apply list_find_Some in E as (E & -> & _). right. exists g, l, ind. split_and!; [apply Hin; by left|done|done].
      + apply list_find_None in E. destruct IH as [[Hno ->]|Hyes]; [intros; apply Hin; by right| |by right].
        left. split; [|done]. intros g' l' [Heq|Hx]%elem_of_cons; [|by eapply Hno]. injection Heq as -> ->.
        intros Hs. rewrite Forall_forall in E. by apply (E shard). }
  destruct (Hgen es) as [[Hno Heq]|Hyes]; [by intros; apply Hes| |by right].
  left. split; [|done]. intros (g & l & Hg & Hs)%elem_of_all_shards. eapply Hno; [by apply Hes|done].
Qed.

Lemma remove_shard_all gs es shard :
  gs_ok gs → es ≡ₚ map_to_list gs →
  gs_ok (remove_shard es shard gs) ∧ dom (remove_shard es shard gs) = dom gs
  ∧ shard ∉ all_shards (remove_shard es shard gs)
  ∧ (shard ∈ all_shards gs → all_shards gs ≡ₚ shard :: all_shards (remove_shard es shard gs)).
Proof.
  intros Hok Hp. destruct (remove_shard_spec gs es shard Hok Hp) as [[Hno ->]|(g & l & ind & Hg & Hi & ->)].
  { split_and!; try done. }
  assert (all_shards gs ≡ₚ shard :: all_shards (<[g := delete ind l]> gs)) as Hperm.
  { rewrite all_shards_insert, (all_shards_lookup gs g l Hg), (delete_Permutation l ind shard Hi) at 1. done. }
  pose proof (go_nodup _ Hok) as Hnd. rewrite Hperm in Hnd. apply NoDup_cons in Hnd as [Hnot Hnd].
  split_and!; try done.
  - apply (gs_ok_sub gs); [|done]. rewrite Hperm. by apply submseteq_cons.
  - rewrite dom_insert_L. apply elem_of_dom_2 in Hg. set_solver.
Qed.

Lemma remove_shard_order gs es es' shard :
  gs_ok gs → es ≡ₚ map_to_list gs → es' ≡ₚ map_to_list gs → remove_shard es shard gs = remove_shard es' shard gs.
Proof.
  intros Hok H1 H2.
  destruct (remove_shard_spec gs es shard Hok H1) as [[Hno ->]|(g & l & i & Hg & Hi & ->)],
    (remove_shard_spec gs es' shard Hok H2) as [[Hno' ->]|(g' & l' & i' & Hg' & Hi' & ->)]; try done.
  - exfalso. apply Hno, elem_of_all_shards. exists g', l'. split; [done|by eapply list_elem_of_lookup_2].
  - exfalso. apply Hno', elem_of_all_shards. exists g, l. split; [done|by eapply list_elem_of_lookup_2].
  - assert (g = g') as <-.
    { eapply gs_ok_unique; [done|exact Hg|exact Hg'| |]; by eapply list_elem_of_lookup_2. }
    rewrite Hg in Hg'. injection Hg' as <-.
    by rewrite (NoDup_lookup l i i' shard (gs_ok_nodup _ _ _ Hok Hg) Hi Hi').
Qed.
