(* ===== verification/ShardCtrlerOps.v ===== *)
(** * Package [shardctrler]: what the operations do

    For [Join], [Leave], [Move] and [Query]: they return, they preserve the
    invariant of the controller, their results do not depend on the order of the
    maps, and reasonable operations keep every shard assigned. *)

From S2P Require Import Prelude Util Labgob OpServer Clerk ShardCtrler ShardCtrlerInv.

(** ** The invariant *)

Record ctrler_inv (sc : ShardCtrler) (cfg : Config) : Prop := {
  ki_cur : last (configs sc) = Some cfg;
  ki_dom : dom (Groups cfg) = dom (gidShards sc);
  ki_len : go_len (Shards cfg) = NShards;
  ki_gs : gs_ok (gidShards sc);
  ki_num (k : nat) c : configs sc !! k = Some c → Num c = Z.of_nat k;
}.

(** The current configuration is the one that [gidShards] describes, and no
    shard is left out. *)
Definition consistent (sc : ShardCtrler) (cfg : Config) : Prop :=
  if decide (Groups cfg = ∅) then Shards cfg = replicate (Z.to_nat NShards) 0
  else complete (gidShards sc) ∧ agrees (gidShards sc) (Shards cfg).

Lemma cur_index sc : go_index (configs sc) (nowL sc) = last (configs sc).
Proof.
  unfold nowL, go_index, go_len. rewrite last_lookup. destruct (configs sc) as [|c cs]; [done|]. cbn [length].
  destruct (Z.ltb_spec (Z.of_nat (S (length cs)) - 1) 0); [lia|]. f_equal. lia.
Qed.

Lemma makeNewConfigL_spec sc cfg :
  ctrler_inv sc cfg → makeNewConfigL sc = Some (MkConfig (nowL sc + 1) (Shards cfg) (Groups cfg)).
Proof. intros Hi. unfold makeNewConfigL. rewrite cur_index, (ki_cur _ _ Hi). done. Qed.

Lemma ctrler_inv_init : ctrler_inv StartServer zeroConfig.
Proof.
  split; cbn; try done.
  - apply gs_ok_intro; intros; by rewrite lookup_empty in *.
  - intros [|k] c ?; simplify_eq/=. done.
Qed.

(** Appending a configuration. *)
Lemma ctrler_inv_add sc cfg c gs :
  ctrler_inv sc cfg → Num c = nowL sc + 1 → dom (Groups c) = dom gs → go_len (Shards c) = NShards → gs_ok gs →
  ctrler_inv (add_config sc c gs) c.
Proof.
  intros Hi Hn Hd Hl Hg. split; cbn; try done; [apply last_snoc|].
  intros k c' [[_ Hk]|[-> <-]]%lookup_snoc_Some; [by apply (ki_num _ _ Hi)|].
  rewrite Hn. unfold nowL, go_len. lia.
Qed.

Lemma size_zero {A} (m : gmap Z A) : size m = 0%nat ↔ m = ∅.
Proof. apply map_size_empty_iff. Qed.

Lemma dom_empty_iff {A B} (m : gmap Z A) (m' : gmap Z B) : dom m = dom m' → m = ∅ ↔ m' = ∅.
Proof. intros Hd. rewrite <- !dom_empty_iff_L, Hd. done. Qed.

Section ops.
Context `{!MapOrder, !MapOrderLaws}.

(** ** Join *)

(** The map before rebalancing. *)
Definition join_shards (groups servers : gmap Z (list string)) (gs : gmap Z (list Z)) : gmap Z (list Z) :=
  let gs := ((λ _, []) <$> servers) ∪ gs in
  if decide (groups = ∅) then <[(findMinMaxGidL (range 2 gs)).1 := seqZ 0 NShards]> gs else gs.

Lemma applyJoinL_eq sc cfg servers :
  ctrler_inv sc cfg →
  applyJoinL sc servers =
  ('(gs, shards) ← rebalanceL (join_shards (Groups cfg) servers (gidShards sc)) (Shards cfg);
   Some (add_config sc (MkConfig (nowL sc + 1) shards (servers ∪ Groups cfg)) gs)).
Proof.
  intros Hi. unfold applyJoinL, join_shards. rewrite cur_index, (ki_cur _ _ Hi). cbn [mbind option_bind].
  rewrite (makeNewConfigL_spec _ _ Hi). cbn [mbind option_bind Groups Shards Num].
  rewrite (join_loop servers) by apply range_perm. case_decide as Hd.
  - rewrite bool_decide_true by by apply size_zero. by destruct (findMinMaxGidL _).
  - by rewrite bool_decide_false by by rewrite size_zero.
Qed.

Lemma join_new_ok (servers : gmap Z (list string)) gs :
  gs_ok gs → gs_ok (((λ _, []) <$> servers) ∪ gs).
Proof.
  intros Hok.
  assert (∀ g l s, (((λ _, []) <$> servers) ∪ gs) !! g = Some l → s ∈ l → gs !! g = Some l) as Hl.
  { intros g l s Hg Hs. apply lookup_union_Some_raw in Hg as [Hg|[_ Hg]]; [|done].
    rewrite lookup_fmap in Hg. apply fmap_Some in Hg as (? & _ & ->). by apply elem_of_nil in Hs. }
  apply gs_ok_intro.
  - intros g l Hg. split.
    + destruct l as [|s l]; [constructor|]. eapply gs_ok_nodup; [done|]. eapply (Hl g _ s); [done|by left].
    + intros s Hs. apply Hok, elem_of_all_shards. eauto.
  - intros g1 g2 l1 l2 s H1 H2 Hs1 Hs2. eapply gs_ok_unique; [done|by eapply Hl|by eapply Hl|done|done].
Qed.

(** With no shard assigned yet, one group takes them all. *)
Lemma join_start_ok (servers : gmap Z (list string)) g :
  let gs := <[g := seqZ 0 NShards]> (((λ _, []) <$> servers) ∪ ∅ : gmap Z (list Z)) in
  gs_ok gs ∧ complete gs.
Proof.
  assert (∀ g' l s, (((λ _, []) <$> servers) ∪ ∅ : gmap Z (list Z)) !! g' = Some l → s ∉ l) as Hl.
  { intros g' l s Hg Hs. rewrite (right_id_L ∅ (∪)), lookup_fmap in Hg.
    apply fmap_Some in Hg as (? & _ & ->). by apply elem_of_nil in Hs. }
  intros gs. split.
  - apply gs_ok_intro.
    + intros g' l [[<- <-]|[_ Hg]]%lookup_insert_Some.
      * split; [apply NoDup_seqZ|]. intros s Hs%elem_of_seqZ. lia.
      * split; [|intros s Hs; by destruct (Hl g' l s Hg)]. destruct l as [|s l]; [constructor|].
        destruct (Hl g' _ s Hg). by left.
    + intros g1 g2 l1 l2 s [[<- <-]|[_ H1]]%lookup_insert_Some [[<- <-]|[_ H2]]%lookup_insert_Some Hs1 Hs2;
        try done; exfalso; by eapply Hl.
  - intros s Hs. apply elem_of_all_shards. exists g, (seqZ 0 NShards).
    split; [apply lookup_insert_eq|]. apply elem_of_seqZ. lia.
Qed.

Lemma join_shards_spec sc cfg servers :
  ctrler_inv sc cfg → let gs := join_shards (Groups cfg) servers (gidShards sc) in
  gs_ok gs
  ∧ (servers ∪ Groups cfg ≠ ∅ → dom gs = dom (servers ∪ Groups cfg))
  ∧ (servers ∪ Groups cfg = ∅ → size gs = 1%nat)
  ∧ (servers ≠ ∅ → Groups cfg = ∅ → complete gs)
  ∧ (Groups cfg ≠ ∅ → servers ##ₘ Groups cfg → complete (gidShards sc) → complete gs).
Proof.
  intros Hi. unfold join_shards. pose proof (ki_dom _ _ Hi) as Hd. case_decide as Hg.
  - assert (gidShards sc = ∅) as -> by by apply (dom_empty_iff _ _ Hd). rewrite Hg.
    set (g := (findMinMaxGidL _).1). destruct (join_start_ok servers g) as [Hok Hc].
    split_and!; try done.
    + intros Hne. rewrite (right_id_L ∅ (∪)) in Hne.
      assert (is_Some ((((λ _, []) <$> servers) ∪ ∅ : gmap Z (list Z)) !! g)) as Hin.
      { pose proof (minmax_spec (((λ _, []) <$> servers) ∪ ∅) _ (range_perm 2 _)) as Hm.
        unfold g. destruct (findMinMaxGidL _) as [gmin gmax]. apply Hm.
        - intros Hx. rewrite (right_id_L ∅ (∪)) in Hx. by apply fmap_empty_iff in Hx.
        - intros g' l' Hg'. rewrite (right_id_L ∅ (∪)), lookup_fmap in Hg'.
          apply fmap_Some in Hg' as (? & _ & ->). done. }
      apply elem_of_dom in Hin. rewrite dom_insert_L. rewrite (right_id_L ∅ (∪)) in *.
      rewrite (right_id_L ∅ (∪) servers). rewrite dom_fmap_L in *. set_solver.
    + intros He. rewrite (right_id_L ∅ (∪)) in He. subst servers. rewrite fmap_empty, (right_id_L ∅ (∪)).
      by rewrite map_size_insert_None, map_size_empty by done.
  - split_and!; try done.
    + by apply join_new_ok, Hi.
    + intros _. rewrite !dom_union_L, dom_fmap_L, Hd. done.
    + intros He. pose proof (map_positive_l _ _ He) as ->. by rewrite (left_id_L ∅ (∪)) in He.
    + intros _ Hdis Hc s Hs. destruct (proj1 (elem_of_all_shards _ _) (Hc s Hs)) as (g & l & Hgl & Hsl).
      apply elem_of_all_shards. exists g, l. split; [|done]. apply lookup_union_Some_raw. right. split; [|done].
      rewrite lookup_fmap. assert (g ∈ dom (Groups cfg)) as Hgd by (rewrite Hd; by eapply elem_of_dom_2).
      apply elem_of_dom in Hgd as [v Hv]. by rewrite (map_disjoint_Some_r _ _ _ _ Hdis Hv).
Qed.

Lemma applyJoinL_spec sc cfg servers :
  ctrler_inv sc cfg →
  ∃ gs shards, let c := MkConfig (nowL sc + 1) shards (servers ∪ Groups cfg) in
    applyJoinL sc servers = Some (add_config sc c gs)
    ∧ gs_ok gs ∧ go_len shards = NShards ∧ balanced gs ∧ agrees gs shards
    ∧ (servers ∪ Groups cfg ≠ ∅ → dom (Groups c) = dom gs)
    ∧ (servers ∪ Groups cfg = ∅ → size gs = 1%nat)
    ∧ (servers ≠ ∅ → Groups cfg = ∅ → complete gs)
    ∧ (Groups cfg ≠ ∅ → servers ##ₘ Groups cfg → complete (gidShards sc) → complete gs).
Proof.
  intros Hi. rewrite (applyJoinL_eq _ _ _ Hi).
  destruct (join_shards_spec _ _ servers Hi) as (Hok & Hd & Hs & Hc1 & Hc2).
  destruct (rebalanceL_spec _ (Shards cfg) Hok (ki_len _ _ Hi)) as (gs & shards & -> & Hp & Hd' & Hb & Hl & Ha).
  exists gs, shards. cbn. split_and!; try done.
  - by eapply gs_ok_perm.
  - intros Hne. by rewrite Hd', Hd.
  - intros He. rewrite <- (size_dom (D := gset Z) gs), Hd', size_dom. by apply Hs.
  - intros ? ? s ?. rewrite Hp. by apply Hc1.
  - intros ? ? ? s ?. rewrite Hp. by apply Hc2.
Qed.

(** ** Leave *)

(** The maps after the groups have left. *)
Definition left_maps (sc : ShardCtrler) (cfg : Config) (gids : list Z) :=
  foldl leave_step (Groups cfg, ∅, gidShards sc) gids.

(** The map before rebalancing, when groups remain. *)
Definition leave_shards (removed gs : gmap Z (list Z)) : gmap Z (list Z) :=
  let g := (findMinMaxGidL (range 1 gs)).1 in
  <[g := shards_of gs g ++ merge_sort Z.le (concat (range 2 removed).*2)]> gs.

Lemma applyLeaveL_eq sc cfg gids :
  ctrler_inv sc cfg →
  applyLeaveL sc gids =
  let '(groups, removed, gs) := left_maps sc cfg gids in
  if decide (groups = ∅) then
    Some (add_config sc (MkConfig (nowL sc + 1) (replicate (Z.to_nat NShards) 0) groups) gs)
  else
    '(gs, shards) ← rebalanceL (leave_shards removed gs) (Shards cfg);
    Some (add_config sc (MkConfig (nowL sc + 1) shards groups) gs).
Proof.
  intros Hi. unfold applyLeaveL, left_maps, leave_shards. rewrite (makeNewConfigL_spec _ _ Hi).
  cbn [mbind option_bind Groups Shards Num]. change (λ acc gid, _) with leave_step.
  destruct (foldl leave_step _ gids) as [[groups removed] gs]. case_decide as Hd.
  - by rewrite bool_decide_true by by apply size_zero.
  - rewrite bool_decide_false by by rewrite size_zero. by destruct (findMinMaxGidL _).
Qed.

Lemma freed_shards (removed : gmap Z (list Z)) t :
  merge_sort Z.le (concat (range t removed).*2) ≡ₚ all_shards removed.
Proof. rewrite merge_sort_Permutation. unfold all_shards. by rewrite range_perm. Qed.

Lemma leave_shards_spec sc cfg gids :
  ctrler_inv sc cfg → let '(groups, removed, gs) := left_maps sc cfg gids in
  gs_ok gs ∧ dom groups = dom gs ∧ dom groups = dom (Groups cfg) ∖ list_to_set gids
  ∧ (groups ≠ ∅ → gs_ok (leave_shards removed gs) ∧ dom (leave_shards removed gs) = dom groups
     ∧ (NoDup gids → complete (gidShards sc) → complete (leave_shards removed gs))).
Proof.
  intros Hi. unfold left_maps. pose proof (leave_loop gids (Groups cfg) ∅ (gidShards sc)) as Hl.
  destruct (foldl leave_step _ gids) as [[groups removed] gs]. destruct Hl as (Hg & Hs & Hsub & Hall).
  pose proof (ki_dom _ _ Hi) as Hd.
  change (all_shards (∅ : gmap Z (list Z))) with (@nil Z) in *. rewrite !app_nil_l in *.
  assert (gs_ok gs) as Hok.
  { eapply gs_ok_sub; [|apply Hi]. etrans; [|exact Hsub]. by apply submseteq_inserts_l. }
  assert (dom groups = dom gs) as Hdd.
  { apply set_eq. intros g. rewrite !elem_of_dom, Hg, Hs. case_decide; [done|].
    rewrite <- !elem_of_dom. by rewrite Hd. }
  split_and!; try done.
  { apply set_eq. intros g. rewrite elem_of_difference, !elem_of_dom, Hg, elem_of_list_to_set.
    case_decide; [|naive_solver]. split; [by intros []|by intros []]. }
  intros Hne. unfold leave_shards. set (gmin := (findMinMaxGidL _).1).
  assert (all_shards (<[gmin := shards_of gs gmin ++ merge_sort Z.le (concat (range 2 removed).*2)]> gs)
    ≡ₚ all_shards removed ++ all_shards gs) as Hp.
  { rewrite all_shards_append. by rewrite freed_shards. }
  split_and!.
  - eapply gs_ok_sub; [|apply Hi]. rewrite Hp. exact Hsub.
  - assert (gs ≠ ∅) as Hgs by by rewrite <- (dom_empty_iff _ _ Hdd).
    pose proof (minmax_spec gs _ (range_perm 1 gs) Hgs (λ g l, gs_ok_size gs g l Hok)) as Hm.
    assert (is_Some (gs !! gmin)) as Hin by (unfold gmin; destruct (findMinMaxGidL _); apply Hm).
    apply elem_of_dom in Hin. rewrite dom_insert_L, Hdd. set_solver.
  - intros Hnd Hc s Hsh. rewrite Hp, Hall; [by apply Hc|done|done].
Qed.

Lemma applyLeaveL_spec sc cfg gids :
  ctrler_inv sc cfg →
  ∃ gs shards groups, let c := MkConfig (nowL sc + 1) shards groups in
    applyLeaveL sc gids = Some (add_config sc c gs)
    ∧ gs_ok gs ∧ go_len shards = NShards ∧ dom groups = dom gs
    ∧ dom groups = dom (Groups cfg) ∖ list_to_set gids
    ∧ (if decide (groups = ∅) then shards = replicate (Z.to_nat NShards) 0
       else balanced gs ∧ agrees gs shards
         ∧ (NoDup gids → complete (gidShards sc) → complete gs)).
Proof.
  intros Hi. rewrite (applyLeaveL_eq _ _ _ Hi). pose proof (leave_shards_spec _ _ gids Hi) as Hl.
  destruct (left_maps sc cfg gids) as [[groups removed] gs]. destruct Hl as (Hok & Hd & Hd' & Hrest).
  destruct (decide (groups = ∅)) as [He|Hne].
  - exists gs, (replicate (Z.to_nat NShards) 0), groups. rewrite decide_True by done. by split_and!.
  - destruct (Hrest Hne) as (Hok' & Hdl & Hc).
    destruct (rebalanceL_spec _ (Shards cfg) Hok' (ki_len _ _ Hi)) as (gs' & shards & -> & Hp & Hd2 & Hb & Hlen & Ha).
    exists gs', shards, groups. rewrite decide_False by done. cbn. split_and!; try done.
    + by eapply gs_ok_perm.
    + by rewrite Hd2, Hdl.
    + intros ? ? s ?. rewrite Hp. by apply Hc.
Qed.

(** ** Move *)

Lemma applyMoveL_spec sc cfg shard gid :
  ctrler_inv sc cfg →
  if decide (0 <= shard < NShards) then
    ∃ gs, let c := MkConfig (nowL sc + 1) (<[Z.to_nat shard := gid]> (Shards cfg)) (Groups cfg) in
      applyMoveL sc shard gid = Some (add_config sc c gs) ∧ gs_ok gs
      ∧ dom gs = {[gid]} ∪ dom (gidShards sc)
      ∧ (complete (gidShards sc) → complete gs)
      ∧ (agrees (gidShards sc) (Shards cfg) → agrees gs (Shards c))
  else applyMoveL sc shard gid = None.
Proof.
  intros Hi. unfold applyMoveL. rewrite (makeNewConfigL_spec _ _ Hi). cbn [mbind option_bind Groups Shards Num].
  pose proof (ki_gs _ _ Hi) as Hok. pose proof (ki_len _ _ Hi) as Hlen.
  destruct (remove_shard_all (gidShards sc) (range 1 (gidShards sc)) shard Hok (range_perm _ _))
    as (Hok1 & Hd1 & Hno & Hp1).
  pose proof (remove_shard_spec (gidShards sc) (range 1 (gidShards sc)) shard Hok (range_perm _ _)) as Hr.
  set (gs1 := remove_shard _ shard _) in *.
  destruct (decide (0 <= shard < NShards)) as [Hs|Hs].
  2: { unfold go_update. destruct (Z.leb_spec 0 shard), (Z.ltb_spec shard (go_len (Shards cfg))); (done || lia). }
  rewrite go_update_eq by lia. cbn [mbind option_bind].
  eexists. split; [done|]. set (gs2 := <[gid := _]> gs1).
  assert (all_shards gs2 ≡ₚ shard :: all_shards gs1) as Hp2 by apply (all_shards_append gs1 gid [shard]).
  assert (∀ g l s, gs1 !! g = Some l → s ∈ l → ∃ l0, gidShards sc !! g = Some l0 ∧ s ∈ l0) as Hsub.
  { intros g l s Hg Hsl. destruct Hr as [[_ Heq]|(g0 & l0 & ind & Hg0 & _ & Heq)]; rewrite Heq in Hg; [eauto|].
    apply lookup_insert_Some in Hg as [[<- <-]|[_ Hg]]; [|eauto]. exists l0. split; [done|].
    by apply elem_of_delete in Hsl. }
  split_and!.
  - split.
    + rewrite Hp2. apply NoDup_cons. split; [done|apply Hok1].
    + intros s. rewrite Hp2. intros [->|Hin]%elem_of_cons; [done|by apply Hok1].
  - unfold gs2. by rewrite dom_insert_L, Hd1.
  - intros Hc s Hss. rewrite Hp2. rewrite <- Hp1 by by apply Hc. by apply Hc.
  - intros Ha k g l Hg Hk. unfold go_len in Hlen.
    assert (length (Shards cfg) = Z.to_nat NShards) as Hlen' by lia.
    apply lookup_insert_Some in Hg as [[<- <-]|[Hne Hg]].
    + apply elem_of_app in Hk as [Hk|Hk%list_elem_of_singleton].
      * unfold shards_of in Hk. destruct (gs1 !! gid) as [l1|] eqn:E1; [|by apply elem_of_nil in Hk].
        assert (Z.to_nat shard ≠ k) as Hnk.
        { intros <-. rewrite Z2Nat.id in Hk by lia. apply Hno, elem_of_all_shards. eauto. }
        rewrite list_lookup_insert_ne by done. destruct (Hsub _ _ _ E1 Hk) as (l0 & ? & ?). by eapply Ha.
      * subst shard. rewrite Nat2Z.id. apply list_lookup_insert_eq. lia.
    + assert (Z.to_nat shard ≠ k) as Hnk.
      { intros <-. rewrite Z2Nat.id in Hk by lia. apply Hno, elem_of_all_shards. eauto. }
      rewrite list_lookup_insert_ne by done. destruct (Hsub _ _ _ Hg Hk) as (l0 & ? & ?). by eapply Ha.
Qed.

(** ** Query *)

Lemma applyQueryL_spec sc cfg num :
  ctrler_inv sc cfg →
  applyQueryL sc num = if decide (num < -1) then None
    else if decide (0 <= num <= nowL sc) then configs sc !! Z.to_nat num else Some cfg.
Proof.
  intros Hi. unfold applyQueryL. rewrite cur_index, (ki_cur _ _ Hi).
  destruct (Z.eqb_spec num (-1)) as [->|Hn]; cbn [negb andb]; [rewrite !decide_False by lia; done|].
  assert (0 <= nowL sc) as Hnow.
  { pose proof (ki_cur _ _ Hi). unfold nowL, go_len. destruct (configs sc); [done|cbn; lia]. }
  destruct (Z.leb_spec num (nowL sc)) as [Hle|Hgt].
  - unfold go_index. case_decide; destruct (Z.ltb_spec num 0); try lia; [done|]. by rewrite decide_True by lia.
  - by rewrite !decide_False by lia.
Qed.
End ops.
