(* ===== verification/ShardCtrlerProps.v ===== *)
(** * Package [shardctrler]: the properties of the controller

    Replicas agree whatever order their maps have; reasonable operations keep
    every shard with an existing group; [Join] and [Leave] balance the groups;
    [Move] moves one shard; [Query] reads the history.  The operations that break
    this are shown too. *)

From S2P Require Import Prelude Util Labgob OpServer Clerk ShardCtrler ShardCtrlerInv ShardCtrlerOps.

(** ** The order of maps does not matter *)

Section order.
Context (o1 o2 : MapOrder) `{!@MapOrderLaws o1, !@MapOrderLaws o2}.

Lemma minmax_range t (gs : gmap Z (list Z)) :
  findMinMaxGidL (@range o1 _ t gs) = findMinMaxGidL (@range o2 _ t gs).
Proof. apply minmax_perm. by rewrite !range_perm. Qed.

Lemma applyKindL_order sc cfg k :
  ctrler_inv sc cfg → @applyKindL o1 sc k = @applyKindL o2 sc k.
Proof.
  intros Hi. destruct k as [servers|gids|shard gid|num]; cbn [applyKindL]; try done.
  - assert (@join_shards o1 (Groups cfg) servers (gidShards sc) = @join_shards o2 (Groups cfg) servers (gidShards sc)) as Hj.
    { unfold join_shards. by rewrite minmax_range. }
    rewrite (@applyJoinL_eq o1 _ _ _ _ Hi), (@applyJoinL_eq o2 _ _ _ _ Hi), Hj.
    destruct (@join_shards_spec o2 _ _ _ servers Hi) as (Hok & _).
    by rewrite (rebalanceL_order o1 o2 _ _ Hok (ki_len _ _ Hi)).
  - rewrite (@applyLeaveL_eq o1 _ _ _ Hi), (@applyLeaveL_eq o2 _ _ _ Hi).
    pose proof (@leave_shards_spec o2 _ _ _ gids Hi) as Hl.
    destruct (left_maps sc cfg gids) as [[groups removed] gs]. destruct Hl as (_ & _ & _ & Hl).
    case_decide as Hd; [done|]. destruct (Hl Hd) as (Hok & _).
    assert (@leave_shards o1 removed gs = @leave_shards o2 removed gs) as ->.
    { unfold leave_shards. rewrite minmax_range. f_equal. f_equal. apply merge_sort_perm. by rewrite !range_perm. }
    by rewrite (rebalanceL_order o1 o2 _ _ Hok (ki_len _ _ Hi)).
  - unfold applyMoveL. by rewrite (remove_shard_order _ (@range o1 _ 1 (gidShards sc)) (@range o2 _ 1 (gidShards sc)) shard
      (ki_gs _ _ Hi) (range_perm _ _) (range_perm _ _)).
Qed.
End order.

(** ** Every operation that returns preserves the invariant *)

Section inv.
Context `{!MapOrder, !MapOrderLaws}.

Lemma logGidShardsL_spec sc cfg :
  last (configs sc) = Some cfg →
  logGidShardsL sc = if decide (size (Groups cfg) = size (gidShards sc)) then Some sc else None.
Proof.
  intros Hl. unfold logGidShardsL. rewrite cur_index, Hl. cbn.
  case_decide; [by rewrite bool_decide_true|by rewrite bool_decide_false].
Qed.

Lemma size_of_dom {A B} (m : gmap Z A) (m' : gmap Z B) : dom m = dom m' → size m = size m'.
Proof. intros Hd. by rewrite <- (size_dom (D := gset Z) m), Hd, size_dom. Qed.

Lemma inv_lastOps sc cfg ops :
  ctrler_inv sc cfg → ctrler_inv (MkShardCtrler (configs sc) (gidShards sc) ops) cfg.
Proof. by intros []; split. Qed.

Lemma applyKindL_inv sc cfg k sc' c :
  ctrler_inv sc cfg → applyKindL sc k = Some (sc', c) → is_Some (logGidShardsL sc') →
  ∃ cfg', ctrler_inv sc' cfg'.
Proof.
  intros Hi Hk Hlog. destruct k as [servers|gids|shard gid|num]; cbn [applyKindL] in Hk.
  - destruct (applyJoinL_spec _ _ servers Hi) as (gs & shards & Hr & Hok & Hlen & _ & _ & Hd & Hs & _).
    rewrite Hr in Hk. cbn in Hk. injection Hk as <- _. eexists. eapply ctrler_inv_add; [done|done| |done|done].
    destruct (decide (servers ∪ Groups cfg = ∅)) as [He|Hne]; [exfalso|by apply Hd].
    erewrite logGidShardsL_spec in Hlog; [|apply last_snoc]. cbn in Hlog.
    rewrite decide_False in Hlog; [by destruct Hlog|]. rewrite He, (Hs He), map_size_empty. done.
  - destruct (applyLeaveL_spec _ _ gids Hi) as (gs & shards & groups & Hr & Hok & Hlen & Hd & _).
    rewrite Hr in Hk. cbn in Hk. injection Hk as <- _. eexists. by eapply ctrler_inv_add.
  - pose proof (applyMoveL_spec _ _ shard gid Hi) as Hm. case_decide as Hs; [|by rewrite Hm in Hk].
    destruct Hm as (gs & Hr & Hok & Hd & _). rewrite Hr in Hk. cbn in Hk. injection Hk as <- _.
    eexists. eapply ctrler_inv_add; [done|done| | |done].
    + cbn. rewrite (ki_dom _ _ Hi), Hd. erewrite logGidShardsL_spec in Hlog; [|apply last_snoc]. cbn in Hlog.
      case_decide as Hsz; [|by destruct Hlog]. destruct (decide (gid ∈ dom (gidShards sc))) as [|Hn]; [set_solver|exfalso].
      rewrite (size_of_dom _ _ (ki_dom _ _ Hi)), <- !(size_dom (D := gset Z)), Hd, size_union, size_singleton in Hsz by set_solver.
      lia.
    + cbn. unfold go_len. rewrite length_insert. apply (ki_len _ _ Hi).
  - destruct (applyQueryL sc num); cbn in Hk; [|done]. injection Hk as <- _. eauto.
Qed.

Lemma applyOpL_inv sc cfg op sc' r :
  ctrler_inv sc cfg → applyOpL sc op = Some (sc', r) → ∃ cfg', ctrler_inv sc' cfg'.
Proof.
  intros Hi Hrun. unfold applyOpL in Hrun. destruct (just_processed sc op); [injection Hrun as <- _; eauto|].
  destruct (applyKindL sc _) as [[sc1 c]|] eqn:Ek; cbn [mbind option_bind] in Hrun; [|done].
  set (sc2 := MkShardCtrler _ _ _) in Hrun.
  destruct (logGidShardsL sc2) as [sc3|] eqn:El; cbn [mbind option_bind] in Hrun; [|done]. injection Hrun as <- _.
  assert (sc3 = sc2 ∧ is_Some (logGidShardsL sc1)) as [-> Hlog].
  { unfold logGidShardsL in *. change (configs sc2) with (configs sc1) in El. change (nowL sc2) with (nowL sc1) in El.
    destruct (go_index _ _); cbn in *; [|done]. change (gidShards sc2) with (gidShards sc1) in El.
    case_bool_decide; [|done]. injection El as <-. split; [done|by eexists]. }
  destruct (applyKindL_inv _ _ _ _ _ Hi Ek Hlog) as [cfg' Hi'].
  exists cfg'. by apply inv_lastOps.
Qed.

Lemma apply_log_inv sc cfg ops sc' :
  ctrler_inv sc cfg → apply_log sc ops = Some sc' → ∃ cfg', ctrler_inv sc' cfg'.
Proof.
  revert sc cfg. induction ops as [|op ops IH]; intros sc cfg Hi Hrun; cbn in Hrun; [injection Hrun as <-; eauto|].
  destruct (applyOpL sc op) as [[sc1 r]|] eqn:E; cbn in Hrun; [|done].
  destruct (applyOpL_inv _ _ _ _ _ Hi E) as [cfg1 Hi1]. by eapply IH.
Qed.
End inv.

(** C33: replicas agree.  Two controllers that apply the same log reach the same
    configurations, the same assignment of shards and the same cached results
    (or both crash), whatever order Go's map iteration takes in each of them. *)
Theorem replicas_agree (o1 o2 : MapOrder) `{!@MapOrderLaws o1, !@MapOrderLaws o2} ops :
  @apply_log o1 StartServer ops = @apply_log o2 StartServer ops.
Proof.
  assert (∀ sc cfg, ctrler_inv sc cfg → @apply_log o1 sc ops = @apply_log o2 sc ops) as Hall;
    [|eapply Hall, ctrler_inv_init].
  induction ops as [|op ops IH]; intros sc cfg Hi; cbn; [done|].
  assert (@applyOpL o1 sc op = @applyOpL o2 sc op) as Heq.
  { unfold applyOpL. by rewrite (applyKindL_order o1 o2 _ _ _ Hi). }
  rewrite Heq. destruct (@applyOpL o2 sc op) as [[sc1 r]|] eqn:E; cbn; [|done].
  destruct (@applyOpL_inv o2 _ _ _ _ _ _ Hi E) as [cfg1 Hi1]. by eapply IH.
Qed.

(** In whatever order the map is visited, the search returns the group with
    the fewest shards, the smallest identifier among several, and the group with
    the most shards, the largest identifier among several. *)
Theorem findMinMaxGidL_correct (gs : gmap Z (list Z)) es :
  es ≡ₚ map_to_list gs → gs ≠ ∅ → gs_ok gs →
  let '(gmin, gmax) := findMinMaxGidL es in
  ∃ lmin lmax, gs !! gmin = Some lmin ∧ gs !! gmax = Some lmax
    ∧ ∀ g l, gs !! g = Some l →
        (go_len lmin < go_len l ∨ go_len lmin = go_len l ∧ gmin <= g)
        ∧ (go_len l < go_len lmax ∨ go_len l = go_len lmax ∧ g <= gmax).
Proof.
  intros Hp Hne Hok. pose proof (minmax_lex gs es Hp Hne (λ g l, gs_ok_size gs g l Hok)) as Hm.
  destruct (findMinMaxGidL es) as [gmin gmax]. destruct Hm as (lmin & lmax & ? & ? & Hall).
  by exists lmin, lmax.
Qed.

(** C40: rebalancing ends, loses no shard and balances.  On any map whose lists
    hold different shards the loop returns within as many iterations as the sum
    of the squared sizes; the result has the same groups and the same shards,
    and the sizes of two groups differ by at most one; the array is written to
    match. *)
Theorem rebalance_correct `{!MapOrder, !MapOrderLaws} gs arr :
  gs_ok gs → go_len arr = NShards →
  ∃ gs' arr', rebalanceL gs arr = Some (gs', arr') ∧ all_shards gs' ≡ₚ all_shards gs ∧ dom gs' = dom gs
    ∧ (∀ g1 g2 l1 l2, gs' !! g1 = Some l1 → gs' !! g2 = Some l2 → go_len l1 - go_len l2 <= 1)
    ∧ (∀ (k : nat) g l, gs' !! g = Some l → Z.of_nat k ∈ l → arr' !! k = Some g).
Proof.
  intros Hok Hl. destruct (rebalanceL_spec gs arr Hok Hl) as (gs' & arr' & ? & ? & ? & ? & _ & ?).
  exists gs', arr'. done.
Qed.

(** ** Configurations *)

(** How many shards a configuration gives to a group. *)
Definition shard_count (cfg : Config) (g : Z) : Z := go_len (filter (λ x, x = g) (Shards cfg)).

(** Every shard belongs to a group of the configuration, and the groups differ
    by at most one shard. *)
Definition all_assigned (cfg : Config) : Prop := ∀ g, g ∈ Shards cfg → is_Some (Groups cfg !! g).
Definition fair (cfg : Config) : Prop := ∀ g1 g2,
  is_Some (Groups cfg !! g1) → is_Some (Groups cfg !! g2) → shard_count cfg g1 - shard_count cfg g2 <= 1.

(** The operations that make sense in a configuration. *)
Definition valid_kind (cfg : Config) (k : OpKind) : Prop :=
  match k with
  | opJoin servers => servers ≠ ∅ ∧ servers ##ₘ Groups cfg
  | opLeave gids => NoDup gids
  | opMove shard gid => 0 <= shard < NShards ∧ is_Some (Groups cfg !! gid)
  | opQuery num => -1 <= num
  end.

Section configs.
Context (sc : ShardCtrler) (cfg : Config).
Context (Hi : ctrler_inv sc cfg) (Hne : Groups cfg ≠ ∅).
Context (Hcomp : complete (gidShards sc)) (Hagr : agrees (gidShards sc) (Shards cfg)).

(** The array gives a shard to a group exactly when the group's list has it. *)
Lemma agrees_iff (k : nat) g l :
  gidShards sc !! g = Some l → Shards cfg !! k = Some g ↔ Z.of_nat k ∈ l.
Proof using Hi Hcomp Hagr.
  intros Hg. split; [|by apply Hagr]. intros Hk.
  pose proof (lookup_lt_Some _ _ _ Hk) as Hlt. pose proof (ki_len _ _ Hi) as Hlen. unfold go_len in Hlen.
  destruct (proj1 (elem_of_all_shards _ _) (Hcomp (Z.of_nat k) ltac:(lia))) as (g' & l' & Hg' & Hs).
  pose proof (Hagr k g' l' Hg' Hs) as Hk'. rewrite Hk in Hk'. injection Hk' as <-. congruence.
Qed.

Lemma shard_count_list g l : gidShards sc !! g = Some l → shard_count cfg g = go_len l.
Proof using Hi Hcomp Hagr.
  intros Hg. unfold shard_count, go_len. f_equal. rewrite <- (count_indices (Shards cfg) g 0).
  rewrite <- (length_fmap Z.of_nat (filter _ _)). apply Permutation_length, NoDup_Permutation.
  - apply NoDup_fmap_2; [intros ???; lia|]. apply NoDup_filter, NoDup_seq.
  - eapply gs_ok_nodup; [apply Hi|done].
  - intros s. rewrite list_elem_of_fmap. split.
    + intros (k & -> & [Hk _]%list_elem_of_filter). rewrite Nat.sub_0_r in Hk. by apply (agrees_iff k g l Hg).
    + intros Hs. assert (0 <= s < NShards) as Hr by (apply (ki_gs _ _ Hi), elem_of_all_shards; eauto).
      exists (Z.to_nat s). split; [lia|]. apply list_elem_of_filter. rewrite Nat.sub_0_r. split.
      * apply (agrees_iff _ g l Hg). by rewrite Z2Nat.id by lia.
      * apply elem_of_seq. pose proof (ki_len _ _ Hi) as Hlen. unfold go_len in Hlen. lia.
Qed.

Lemma config_assigned : all_assigned cfg.
Proof using Hi Hcomp Hagr.
  intros g [k Hk]%list_elem_of_lookup. pose proof (ki_len _ _ Hi) as Hlen. unfold go_len in Hlen.
  pose proof (lookup_lt_Some _ _ _ Hk).
  destruct (proj1 (elem_of_all_shards _ _) (Hcomp (Z.of_nat k) ltac:(lia))) as (g' & l' & Hg' & Hs).
  pose proof (Hagr k g' l' Hg' Hs) as Hk'. rewrite Hk in Hk'. injection Hk' as <-.
  apply elem_of_dom. rewrite (ki_dom _ _ Hi). by eapply elem_of_dom_2.
Qed.

Lemma config_fair : balanced (gidShards sc) → fair cfg.
Proof using Hi Hcomp Hagr.
  intros Hb g1 g2 H1 H2. apply elem_of_dom in H1, H2. rewrite (ki_dom _ _ Hi) in H1, H2.
  apply elem_of_dom in H1 as [l1 H1], H2 as [l2 H2].
  rewrite (shard_count_list _ _ H1), (shard_count_list _ _ H2). by eapply Hb.
Qed.
End configs.

Section operations.
Context `{!MapOrder, !MapOrderLaws}.
Implicit Types (sc : ShardCtrler) (cfg : Config).

(** Remembering the operation and the check of the sizes. *)
Lemma applyOpL_returns sc cfg op sc1 cfg1 c :
  just_processed sc op = None → applyKindL sc (op_Kind op) = Some (sc1, c) → ctrler_inv sc1 cfg1 →
  consistent sc1 cfg1 →
  ∃ sc', applyOpL sc op = Some (sc', (OK, c)) ∧ ctrler_inv sc' cfg1 ∧ consistent sc' cfg1
    ∧ configs sc' = configs sc1 ∧ gidShards sc' = gidShards sc1.
Proof.
  intros Hj Hk Hi1 Hc1. unfold applyOpL. rewrite Hj, Hk. cbn [mbind option_bind].
  set (sc' := MkShardCtrler _ _ _).
  rewrite (logGidShardsL_spec sc' cfg1) by apply (ki_cur _ _ Hi1).
  rewrite decide_True by (apply size_of_dom, (ki_dom _ _ Hi1)). cbn [mbind option_bind].
  exists sc'. split_and!; [done|by apply inv_lastOps|done|done|done].
Qed.

Lemma consistent_assigned sc cfg :
  ctrler_inv sc cfg → consistent sc cfg → Groups cfg ≠ ∅ → all_assigned cfg.
Proof.
  intros Hi Hc Hne. unfold consistent in Hc. rewrite decide_False in Hc by done. destruct Hc.
  by eapply config_assigned.
Qed.

Lemma consistent_fair sc cfg :
  ctrler_inv sc cfg → consistent sc cfg → (Groups cfg ≠ ∅ → balanced (gidShards sc)) → fair cfg.
Proof.
  intros Hi Hc Hb. destruct (decide (Groups cfg = ∅)) as [He|Hne].
  - intros g1 g2 [v Hv]. rewrite He, lookup_empty in Hv. done.
  - unfold consistent in Hc. rewrite decide_False in Hc by done. destruct Hc. eapply config_fair; eauto.
Qed.

(** What an operation does to the configurations. *)
Definition op_effect sc cfg (k : OpKind) (c : Config) sc' cfg' : Prop :=
  match k with
  | opJoin servers =>
    configs sc' = configs sc ++ [cfg'] ∧ Groups cfg' = servers ∪ Groups cfg ∧ fair cfg'
  | opLeave gids =>
    configs sc' = configs sc ++ [cfg'] ∧ dom (Groups cfg') = dom (Groups cfg) ∖ list_to_set gids ∧ fair cfg'
  | opMove shard gid =>
    configs sc' = configs sc ++ [cfg'] ∧ Groups cfg' = Groups cfg
    ∧ Shards cfg' = <[Z.to_nat shard := gid]> (Shards cfg)
  | opQuery num =>
    configs sc' = configs sc ∧ cfg' = cfg
    ∧ Some c = (if decide (0 <= num < go_len (configs sc)) then configs sc !! Z.to_nat num else Some cfg)
  end.

Lemma valid_kind_effect sc cfg k :
  ctrler_inv sc cfg → consistent sc cfg → valid_kind cfg k →
  ∃ sc1 cfg1 c, applyKindL sc k = Some (sc1, c) ∧ ctrler_inv sc1 cfg1 ∧ consistent sc1 cfg1
    ∧ op_effect sc cfg k c sc1 cfg1.
Proof.
  intros Hi Hc Hv. destruct k as [servers|gids|shard gid|num]; cbn [applyKindL op_effect valid_kind] in *.
  - destruct Hv as [Hne Hdis].
    destruct (applyJoinL_spec _ _ servers Hi) as (gs & shards & -> & Hok & Hlen & Hb & Ha & Hd & _ & Hc1 & Hc2).
    assert (servers ∪ Groups cfg ≠ ∅) as Hne' by by apply map_positive_l_alt.
    cbn. do 3 eexists. split; [done|]. set (cfg1 := MkConfig _ shards _). set (sc1 := add_config _ cfg1 gs).
    assert (ctrler_inv sc1 cfg1) as Hi1 by (apply (ctrler_inv_add _ _ _ _ Hi); auto).
    assert (consistent sc1 cfg1) as Hcon.
    { unfold consistent in *. rewrite decide_False by done. split; [|done]. cbn.
      destruct (decide (Groups cfg = ∅)) as [He|Hg]; [by apply Hc1|]. apply Hc2; [done|done|apply Hc]. }
    split_and!; try done. by eapply consistent_fair.
  - destruct (applyLeaveL_spec _ _ gids Hi) as (gs & shards & groups & -> & Hok & Hlen & Hd & Hd' & Hif).
    cbn. do 3 eexists. split; [done|]. set (cfg1 := MkConfig _ shards _). set (sc1 := add_config _ cfg1 gs).
    assert (ctrler_inv sc1 cfg1) as Hi1 by by apply (ctrler_inv_add _ _ _ _ Hi).
    assert (consistent sc1 cfg1) as Hcon.
    { unfold consistent in *. cbn. destruct (decide (groups = ∅)) as [He|Hg]; [done|].
      destruct Hif as (_ & Ha & Hcm). split; [|done]. apply Hcm; [done|].
      rewrite decide_False in Hc; [apply Hc|]. intros He. apply Hg. apply dom_empty_iff_L.
      rewrite Hd', He, dom_empty_L. set_solver. }
    split_and!; try done. eapply consistent_fair; [done|done|]. cbn. intros Hg.
    rewrite decide_False in Hif by done. apply Hif.
  - destruct Hv as [Hs Hgid]. pose proof (applyMoveL_spec _ _ shard gid Hi) as Hm. rewrite decide_True in Hm by done.
    destruct Hm as (gs & -> & Hok & Hd & Hcm & Hag). cbn. do 3 eexists. split; [done|].
    set (cfg1 := MkConfig _ _ _). set (sc1 := add_config _ cfg1 gs).
    assert (Groups cfg ≠ ∅) as Hg. { intros He. rewrite He, lookup_empty in Hgid. by destruct Hgid. }
    unfold consistent in Hc. rewrite decide_False in Hc by done. destruct Hc as [Hc1 Hc2].
    split_and!; try done.
    + apply (ctrler_inv_add _ _ _ _ Hi); try done.
      * cbn. rewrite Hd, (ki_dom _ _ Hi). apply elem_of_dom in Hgid. rewrite (ki_dom _ _ Hi) in Hgid. set_solver.
      * cbn. unfold go_len. rewrite length_insert. apply (ki_len _ _ Hi).
    + unfold consistent. rewrite decide_False by done. split; [by apply Hcm|by apply Hag].
  - pose proof (applyQueryL_spec _ _ num Hi) as Hq. rewrite decide_False in Hq by lia.
    assert (∃ c, applyQueryL sc num = Some c
      ∧ Some c = if decide (0 <= num < go_len (configs sc)) then configs sc !! Z.to_nat num else Some cfg) as (c & Hr & Hrc).
    { rewrite Hq. unfold nowL. destruct (decide (0 <= num <= go_len (configs sc) - 1)) as [Hd|Hd].
      - rewrite (decide_True (P := 0 <= num < go_len (configs sc))) by lia.
        destruct (configs sc !! Z.to_nat num) as [c|] eqn:E; [eauto|]. apply lookup_ge_None in E. unfold go_len in *. lia.
      - rewrite (decide_False (P := 0 <= num < go_len (configs sc))) by lia. eauto. }
    rewrite Hr. cbn. do 3 eexists. split; [done|]. split_and!; done.
Qed.

(** C32: every reasonable operation does what the interface says.  From a
    consistent state, a new [Join] of new groups, [Leave] of distinct groups,
    [Move] of a shard to an existing group or [Query] returns; [Join] and
    [Leave] append a configuration with the right groups whose shares differ by
    at most one shard, [Move] changes the group of one shard, [Query] returns
    the configuration asked for or the latest; afterwards the state is
    consistent and every shard belongs to an existing group (to group 0 when
    there is none). *)
Theorem ctrler_op_correct sc cfg op :
  ctrler_inv sc cfg → consistent sc cfg → valid_kind cfg (op_Kind op) → just_processed sc op = None →
  ∃ sc' cfg' c, applyOpL sc op = Some (sc', (OK, c)) ∧ ctrler_inv sc' cfg' ∧ consistent sc' cfg'
    ∧ op_effect sc cfg (op_Kind op) c sc' cfg'
    ∧ (if decide (Groups cfg' = ∅) then Shards cfg' = replicate (Z.to_nat NShards) 0 else all_assigned cfg').
Proof.
  intros Hi Hc Hv Hj. destruct (valid_kind_effect _ _ _ Hi Hc Hv) as (sc1 & cfg1 & c & Hk & Hi1 & Hc1 & He).
  destruct (applyOpL_returns _ cfg _ _ _ _ Hj Hk Hi1 Hc1) as (sc' & Hr & Hi' & Hc' & Hcf & Hgs).
  exists sc', cfg1, c. split_and!; try done.
  - destruct (op_Kind op); cbn [op_effect] in *; by rewrite Hcf.
  - case_decide as Hg; [|by eapply consistent_assigned]. unfold consistent in Hc'. by rewrite decide_True in Hc'.
Qed.

(** [Move] to a group that does not exist stops the controller: the check of
    [logGidShardsL] fails and the process exits, on every replica. *)
Theorem move_unknown_group_exits sc cfg shard gid client id :
  ctrler_inv sc cfg → Groups cfg !! gid = None → just_processed sc (Move shard gid client id) = None →
  applyOpL sc (Move shard gid client id) = None.
Proof.
  intros Hi Hg Hj. unfold applyOpL. rewrite Hj. cbn [Move op_Kind applyKindL].
  pose proof (applyMoveL_spec _ _ shard gid Hi) as Hm. case_decide as Hs; [|by rewrite Hm].
  destruct Hm as (gs & -> & _ & Hd & _). cbn [mbind option_bind].
  erewrite logGidShardsL_spec by apply last_snoc. cbn. rewrite decide_False; [done|].
  apply not_elem_of_dom in Hg. rewrite (ki_dom _ _ Hi) in Hg.
  rewrite (size_of_dom _ _ (ki_dom _ _ Hi)), <- !(size_dom (D := gset Z)), Hd, size_union, size_singleton by set_solver.
  lia.
Qed.

(** The history is append-only and numbered.  Any operation that returns
    leaves the earlier configurations in place and adds at most one; the
    configuration at position [k] has number [k]. *)
Theorem configs_append_only sc cfg op sc' r :
  ctrler_inv sc cfg → applyOpL sc op = Some (sc', r) →
  (configs sc' = configs sc ∨ ∃ c, configs sc' = configs sc ++ [c])
  ∧ ∀ (k : nat) c, configs sc' !! k = Some c → Num c = Z.of_nat k.
Proof.
  intros Hi Hrun. destruct (applyOpL_inv _ _ _ _ _ Hi Hrun) as [cfg' Hi']. split; [|apply (ki_num _ _ Hi')].
  unfold applyOpL in Hrun. destruct (just_processed sc op); [injection Hrun as <- _; by left|].
  destruct (applyKindL sc _) as [[sc1 c]|] eqn:Ek; cbn [mbind option_bind] in Hrun; [|done].
  set (sc2 := MkShardCtrler _ _ _) in Hrun.
  assert (configs sc' = configs sc1) as ->.
  { unfold logGidShardsL in Hrun. destruct (go_index _ _); cbn in Hrun; [|done]. case_bool_decide; [|done].
    cbn in Hrun. by injection Hrun as <- _. }
  destruct (op_Kind op) as [servers|gids|shard gid|num]; cbn [applyKindL] in Ek.
  - destruct (applyJoinL_spec _ _ servers Hi) as (gs & shards & Hr & _). rewrite Hr in Ek. injection Ek as <- _.
    right. by eexists.
  - destruct (applyLeaveL_spec _ _ gids Hi) as (gs & shards & groups & Hr & _). rewrite Hr in Ek. injection Ek as <- _.
    right. by eexists.
  - pose proof (applyMoveL_spec _ _ shard gid Hi) as Hm. case_decide; [|by rewrite Hm in Ek].
    destruct Hm as (gs & Hr & _). rewrite Hr in Ek. injection Ek as <- _. right. by eexists.
  - destruct (applyQueryL sc num); cbn in Ek; [|done]. injection Ek as <- _. by left.
Qed.
End operations.

(** ** Runs *)

#[local] Existing Instance forward_order.
#[local] Existing Instance forward_order_laws.

Definition group (g : Z) : gmap Z (list string) := {[ g := ["server"%string] ]}.

(** The state after a log, and its last configuration. *)
Definition ctrler_after (ops : list Op) : ShardCtrler := default StartServer (apply_log StartServer ops).
Definition last_config (ops : list Op) : Config := default zeroConfig (last (configs (ctrler_after ops))).

(** A group that joins again, and a group named twice in a [Leave]. *)
Definition rejoin : list Op :=
  [Join (group 1) 0 0; Join (group 2) 0 1; Join (group 1) 0 2; Leave [1] 0 3].
Definition leave_twice : list Op := [Join (group 1 ∪ group 2) 0 0; Leave [1; 1] 0 1].

(** Two operations leave shards with a group that is gone.  A [Join] of a
    group that is already there resets its list, and a [Leave] that names a
    group twice forgets its shards: in both runs the last configuration has only
    group 2 and still gives shards to group 1. *)
Theorem orphaned_shards :
  is_Some (apply_log StartServer rejoin) ∧ is_Some (apply_log StartServer leave_twice)
  ∧ dom (Groups (last_config rejoin)) = {[2]} ∧ 1 ∈ Shards (last_config rejoin)
  ∧ dom (Groups (last_config leave_twice)) = {[2]} ∧ 1 ∈ Shards (last_config leave_twice).
Proof.
  split; [apply (bool_decide_unpack _); vm_compute; exact I|].
  split; [apply (bool_decide_unpack _); vm_compute; exact I|].
  split; [apply (bool_decide_unpack _); vm_compute; exact I|].
  split; [apply (bool_decide_unpack _); vm_compute; exact I|].
  split; apply (bool_decide_unpack _); vm_compute; exact I.
Qed.

(** ** Witnesses *)

Lemma replicas_agree_witness :
  @apply_log forward_order StartServer rejoin = @apply_log backward_order StartServer rejoin.
Proof. apply (@replicas_agree forward_order backward_order forward_order_laws backward_order_laws rejoin). Defined.

Definition three_groups : gmap Z (list Z) := {[ 1 := [0; 1; 2; 3; 4]; 2 := [5; 6]; 3 := [7; 8; 9] ]}.

Lemma three_groups_ok : gs_ok three_groups.
Proof.
  split.
  - apply (bool_decide_unpack _). vm_compute. exact I.
  - intros s Hs. assert (s ∈ seqZ 0 10) as Hr.
    { assert (all_shards three_groups ≡ₚ seqZ 0 10) as <-; [|done].
      apply (bool_decide_unpack _). vm_compute. exact I. }
    apply elem_of_seqZ in Hr. unfold NShards. lia.
Qed.

Lemma findMinMaxGidL_correct_witness :
  let '(gmin, gmax) := findMinMaxGidL (map_to_list three_groups) in
  gmin = 2 ∧ gmax = 1 ∧ ∃ lmin lmax, three_groups !! gmin = Some lmin ∧ three_groups !! gmax = Some lmax.
Proof.
  pose proof (findMinMaxGidL_correct three_groups (map_to_list three_groups)) as H.
  assert (findMinMaxGidL (map_to_list three_groups) = (2, 1)) as E by (vm_compute; reflexivity).
  rewrite E in *. split; [reflexivity|]. split; [reflexivity|].
  destruct H as (lmin & lmax & H1 & H2 & _); [reflexivity|vm_compute; discriminate|apply three_groups_ok|].
  exists lmin, lmax. split; [exact H1|exact H2].
Defined.

Lemma rebalance_correct_witness :
  ∃ gs' arr', rebalanceL three_groups (replicate 10 0) = Some (gs', arr') ∧ dom gs' = dom three_groups.
Proof.
  destruct (rebalance_correct three_groups (replicate 10 0)) as (gs' & arr' & H & _ & Hd & _).
  - apply three_groups_ok.
  - reflexivity.
  - exists gs', arr'. split; [exact H|exact Hd].
Defined.

Lemma start_consistent : consistent StartServer zeroConfig.
Proof. unfold consistent. by rewrite decide_True. Qed.

Lemma ctrler_op_correct_witness :
  ∃ sc' cfg' c, applyOpL StartServer (Join (group 1) 0 0) = Some (sc', (OK, c))
    ∧ Groups cfg' = group 1 ∪ ∅ ∧ fair cfg'.
Proof.
  destruct (ctrler_op_correct StartServer zeroConfig (Join (group 1) 0 0)) as (sc' & cfg' & c & H & _ & _ & He & _).
  - apply ctrler_inv_init.
  - apply start_consistent.
  - split; [vm_compute; discriminate|]. apply map_disjoint_empty_r.
  - vm_compute. reflexivity.
  - exists sc', cfg', c. split; [exact H|]. destruct He as (_ & H1 & H2). split; [exact H1|exact H2].
Defined.

Lemma move_unknown_group_exits_witness : applyOpL StartServer (Move 3 7 0 0) = None.
Proof.
  apply (move_unknown_group_exits StartServer zeroConfig 3 7 0 0); [apply ctrler_inv_init|reflexivity|vm_compute; reflexivity].
Defined.

Lemma configs_append_only_witness :
  configs (ctrler_after [Join (group 1) 0 0]) = configs StartServer
  ∨ ∃ c, configs (ctrler_after [Join (group 1) 0 0]) = configs StartServer ++ [c].
Proof.
  destruct (applyOpL StartServer (Join (group 1) 0 0)) as [[sc' r]|] eqn:E; [|vm_compute in E; discriminate E].
  assert (ctrler_after [Join (group 1) 0 0] = sc') as ->.
  { unfold ctrler_after, apply_log. rewrite E. reflexivity. }
  apply (configs_append_only StartServer zeroConfig (Join (group 1) 0 0) sc' r); [apply ctrler_inv_init|exact E].
Defined.
