(* ===== verification/CtrlerLinear.v ===== *)
(** * The shard controller is linearizable

    The controller of shardctrler/server.go on a Raft cluster, as a whole: [Query]
    returns the configuration that the operations before it make, each applied once,
    in an order that respects the order of time.  The order in which Go iterates over
    maps is one parameter for all replicas, which is no restriction: by
    [replicas_agree] it does not matter. *)

From S2P Require Import Prelude Util Labgob RaftState RaftHandlers RaftLeader RaftNode RaftCluster OpServer Replicated ReplicatedInv ReplicatedSteps Sessions ShardCtrler ShardCtrlerInv ShardCtrlerOps ShardCtrlerProps.

#[global] Instance OpKind_eq_dec : EqDecision OpKind.
Proof. solve_decision. Defined.
#[global] Instance ctrler_Op_eq_dec : EqDecision Op.
Proof. solve_decision. Defined.

(** What an operation answers in a state with the current configuration [cfg]: a
    [Query] the configuration with the number it asks for or, when there is none,
    the current one. *)
Definition ctrler_answer (sc : ShardCtrler) (cfg : Config) (k : OpKind) (v : Config) : Prop :=
  match k with
  | opQuery num => Some v = if decide (0 <= num < go_len (configs sc)) then configs sc !! Z.to_nat num else Some cfg
  | _ => v = zeroConfig
  end.

Section ctrler.
Context `{!MapOrder}.

(** ** The controller as a [Session] *)

(** The controller without what it remembers of clients, and an operation on it. *)
Definition forget (sc : ShardCtrler) : ShardCtrler := MkShardCtrler (configs sc) (gidShards sc) ∅.

Definition apply_once (sc : ShardCtrler) (op : Op) : option (ShardCtrler * Config) :=
  '(sc, config) ← applyKindL sc (op_Kind op);
  sc ← logGidShardsL sc;
  Some (sc, config).

(** The operations of a sequence, each applied once. *)
Fixpoint apply_each (sc : ShardCtrler) (ops : list Op) : option ShardCtrler :=
  match ops with
  | [] => Some sc
  | op :: ops => '(sc, _) ← apply_once sc op; apply_each sc ops
  end.

(** A linearization of the replies [OK] of a trace: operations that were called, each
    once; a reply is what the operation of that number answers to the operations
    before it; operations called after a reply come later. *)
Record ctrler_linearization (tr : list (WEvent Op Config)) (ops : list Op) : Prop := {
  cl_once : NoDup ops;
  cl_called op : op ∈ ops → op ∈ calls tr;
  cl_reply i op v : WReply i op OK v ∈ tr → ∃ k o sc cfg, ops !! k = Some o ∧ isSame op o = true
    ∧ apply_each StartServer (take k ops) = Some sc ∧ ctrler_inv sc cfg ∧ ctrler_answer sc cfg (op_Kind o) v;
  cl_real_time t1 t2 i op v o k op' k' : tr = t1 ++ t2 → WReply i op OK v ∈ t1 → isSame op o = true →
    ops !! k = Some o → op' ∉ calls t1 → ops !! k' = Some op' → (k < k')%nat;
}.

#[global] Instance ctrler_session : Session ShardCtrler Op Config ShardCtrler := {|
  op_client := op_ClientId;
  op_number := op_OpId;
  core := forget;
  last_op sc c := (λ l, (lo_op l, lo_queryResult l)) <$> lastOps sc !! c;
  core_apply sc op := '(sc, config) ← apply_once sc op; Some (sc, (OK, config), config);
|}.

Definition with_last (l : gmap Z LastOp) (sc : ShardCtrler) : ShardCtrler := MkShardCtrler (configs sc) (gidShards sc) l.

(** The operations do not look at what is remembered. *)
Lemma applyKindL_forget sc k :
  applyKindL sc k = (λ r, (with_last (lastOps sc) r.1, r.2)) <$> applyKindL (forget sc) k.
Proof.
  destruct sc as [cs gs l]. unfold forget. cbn [configs gidShards lastOps].
  destruct k as [servers|gids|shard gid|num]; cbn [applyKindL].
  - unfold applyJoinL, makeNewConfigL, nowL. cbn [configs gidShards].
    destruct (go_index cs _); cbn [mbind option_bind]; [|done].
    destruct (foldl _ _ _) as [groups gs1]. cbv zeta. by destruct (rebalanceL _ _) as [[gs2 shards]|].
  - unfold applyLeaveL, makeNewConfigL, nowL. cbn [configs gidShards].
    destruct (go_index cs _); cbn [mbind option_bind]; [|done].
    destruct (foldl _ _ _) as [[groups removed] gs1]. case_bool_decide; [done|].
    destruct (findMinMaxGidL _) as [gidMin gidMax]. destruct (rebalanceL _ _) as [[gs2 shards]|]; done.
  - unfold applyMoveL, makeNewConfigL, nowL. cbn [configs gidShards].
    destruct (go_index cs _); cbn [mbind option_bind]; [|done]. by destruct (go_update _ _ _).
  - unfold applyQueryL, nowL. cbn [configs]. destruct (if _ : bool then _ else _); done.
Qed.

Lemma applyKindL_last sc k sc' c : applyKindL (forget sc) k = Some (sc', c) → sc' = forget sc'.
Proof.
  intros Hk. rewrite applyKindL_forget in Hk. change (forget (forget sc)) with (forget sc) in Hk.
  destruct (applyKindL (forget sc) k) as [[sc1 c1]|]; [|done]. by injection Hk as <- _.
Qed.

(** An operation that was not just processed acts as without the memory of clients,
    and is remembered. *)
Lemma applyOpL_once sc op sc' r : just_processed sc op = None → applyOpL sc op = Some (sc', r) →
  ∃ c, apply_once (forget sc) op = Some (forget sc', c) ∧ r = (OK, c)
    ∧ lastOps sc' = <[op_ClientId op := MkLastOp op c]> (lastOps sc).
Proof.
  intros Hn. unfold applyOpL. rewrite Hn, applyKindL_forget. unfold apply_once.
  destruct (applyKindL (forget sc) (op_Kind op)) as [[sc1 c]|] eqn:E; cbn; [|done].
  apply applyKindL_last in E. unfold logGidShardsL, nowL. cbn.
  destruct (go_index _ _); cbn; [|done]. case_bool_decide; cbn; [|done].
  intros [= <- <-]. exists c. cbn. by rewrite E.
Qed.

Lemma just_processed_iff sc op l :
  just_processed sc op = Some l ↔ lastOps sc !! op_ClientId op = Some l ∧ isSame op (lo_op l) = true.
Proof.
  unfold just_processed. destruct (lastOps sc !! _) as [l'|]; cbn; [|by split; [|intros [? _]]].
  destruct (isSame op (lo_op l')) eqn:E; split; [intros [= ->]|intros [[= ->] _]| |intros [[= ->] ?]]; by rewrite ?E in *.
Qed.

#[global] Instance ctrler_session_laws : SessionLaws ShardCtrler Op Config ShardCtrler.
Proof.
  split; cbn.
  - unfold isSame. intros op op' Hs. by bools.
  - unfold isSame. intros op. by rewrite !Z.eqb_refl.
  - intros sc op o v (l & Hl & [= -> ->])%fmap_Some Hs. exists zeroConfig.
    assert (just_processed sc op = Some l) as Hj by by apply just_processed_iff. unfold applyOpL. by rewrite Hj.
  - intros sc op sc' r Hl Ha. assert (just_processed sc op = None) as Hn.
    { destruct (just_processed sc op) as [l|] eqn:E; [exfalso|done]. apply just_processed_iff in E as [E1 E2].
      specialize (Hl (lo_op l) (lo_queryResult l)). rewrite E1 in Hl. specialize (Hl eq_refl). congruence. }
    destruct (applyOpL_once _ _ _ _ Hn Ha) as (c & Hc & -> & Hlast). exists c. rewrite Hc, Hlast. split; [done|].
    intros c'. case_decide as Hd; [subst c'; by rewrite lookup_insert_eq|by rewrite lookup_insert_ne].
  - intros sc op v (l & [Hl Hs]%just_processed_iff & ->)%fmap_Some. exists (lo_op l). by rewrite Hl.
Qed.

(** The controller takes no snapshots. *)
#[global] Instance ctrler_snapshot_laws : SnapshotLaws ShardCtrler Op Config.
Proof. by split. Qed.

Lemma run_core_ctrler sc ops : run_core (S := ShardCtrler) sc ops = apply_each sc ops.
Proof.
  revert sc. induction ops as [|op ops IH]; intros sc; [done|]. cbn.
  destruct (apply_once sc op) as [[sc' c]|]; [apply IH|done].
Qed.

Lemma ctrler_init_last c : last_op StartServer c = None.
Proof. cbn. by rewrite lookup_empty. Qed.

Context `{!MapOrderLaws}.

Lemma apply_once_inv sc cfg op sc' c :
  ctrler_inv sc cfg → apply_once sc op = Some (sc', c) →
  (∃ cfg', ctrler_inv sc' cfg') ∧ ctrler_answer sc cfg (op_Kind op) c.
Proof.
  intros Hi Ho. unfold apply_once in Ho. destruct (applyKindL sc _) as [[sc1 c1]|] eqn:Ek; cbn in Ho; [|done].
  destruct (logGidShardsL sc1) as [sc2|] eqn:El; cbn in Ho; [|done]. injection Ho as -> ->.
  assert (sc' = sc1) as ->.
  { unfold logGidShardsL in El. destruct (go_index _ _); cbn in El; [|done]. case_bool_decide; congruence. }
  split; [by eapply applyKindL_inv; [| |by eexists]|].
  destruct (op_Kind op) as [servers|gids|shard gid|num]; cbn [applyKindL ctrler_answer] in *.
  1: destruct (applyJoinL sc _). 3: destruct (applyLeaveL sc _). 5: destruct (applyMoveL sc _ _).
  1-6: cbn in Ek; try done; by injection Ek.
  pose proof (applyQueryL_spec sc cfg num Hi) as Hq. destruct (applyQueryL sc num) as [v|]; [|done].
  injection Ek as <- <-. repeat case_decide; first [done|unfold nowL in *; lia].
Qed.

Lemma apply_each_inv sc cfg ops sc' :
  ctrler_inv sc cfg → apply_each sc ops = Some sc' → ∃ cfg', ctrler_inv sc' cfg'.
Proof.
  revert sc cfg. induction ops as [|op ops IH]; intros sc cfg Hi Hrun; cbn in Hrun; [injection Hrun as <-; eauto|].
  destruct (apply_once sc op) as [[sc1 c]|] eqn:E; cbn in Hrun; [|done].
  destruct (apply_once_inv _ _ _ _ _ Hi E) as [[cfg1 Hi1] _]. by eapply IH.
Qed.

Context `{!GobCodec (PState Op), !GobLaws (PState Op)}.

(** C9: the shard controller is linearizable.  In every run of any number of servers,
    if at the servers no RPC of an operation arrives after one of a later operation of
    the same client, the replies [OK] of the run have a linearization. *)
Theorem ctrler_linearizable n (X : World ShardCtrler Op Config) :
  0 <= n → wreachable n StartServer X → client_order op_ClientId op_OpId (calls (trace X)) →
  ∃ ops, ctrler_linearization (trace X) ops.
Proof.
  intros Hn Hr Hcalls. destruct (wreachable_inv n StartServer X Hn Hr) as (L & [_ _ _ Hex Hacc]). exists (firsts L).
  destruct (accounts_linearization StartServer ctrler_init_last L (trace X) Hcalls Hex Hacc) as [Hnd Hcl Hrep Hrt].
  split; [done|done| |done].
  intros i op v Hin. destruct (Hrep i op v Hin) as (j & o & sc & Hj & Hs & Hm & sc' & err & v' & u & Hc & Hv).
  rewrite run_core_ctrler in Hm. destruct (apply_each_inv _ _ _ _ ctrler_inv_init Hm) as [cfg Hi].
  exists j, o, sc, cfg. split_and!; [done..|]. cbn in Hc.
  destruct (apply_once sc o) as [[sc1 c]|] eqn:E; cbn in Hc; [|done]. injection Hc as _ _ -> ->.
  destruct (apply_once_inv _ _ _ _ _ Hi E) as [_ Ha]. by destruct Hv as [[_ ->]| ->].
Qed.
End ctrler.

(** ** A run *)

#[export] Instance OpKind_countable : Countable OpKind.
Proof.
  refine (inj_countable'
    (λ k, match k with
          | opJoin servers => inl (inl servers) | opLeave gids => inl (inr gids)
          | opMove shard gid => inr (inl (shard, gid)) | opQuery num => inr (inr num)
          end)
    (λ x, match x with
          | inl (inl servers) => opJoin servers | inl (inr gids) => opLeave gids
          | inr (inl (shard, gid)) => opMove shard gid | inr (inr num) => opQuery num
          end) _); by intros [].
Defined.

#[export] Instance ctrler_Op_countable : Countable Op.
Proof.
  refine (inj_countable' (λ op, (op_Kind op, op_ClientId op, op_OpId op)) (λ x, MkOp x.1.1 x.1.2 x.2) _); by intros [].
Defined.

#[export] Instance ctrler_entry_countable : Countable (LogEntry Op).
Proof.
  refine (inj_countable' (λ e, (Command e, Index e, Term e)) (λ x, MkLogEntry x.1.1 x.1.2 x.2) _); by intros [].
Defined.

#[export] Instance ctrler_pstate_codec : GobCodec (PState Op) := countable_codec.
#[export] Instance ctrler_pstate_laws : GobLaws (PState Op) := countable_laws.
#[local] Existing Instance forward_order.
#[local] Existing Instance forward_order_laws.

Definition join_1 : Op := Join {[1 := ["a"%string]]} 1 0.
Definition query_latest : Op := Query (-1) 2 0.
Definition one_group : Config := MkConfig 1 (replicate 10 1) {[1 := ["a"%string]]}.

Definition later : Env := MkEnv (10 ^ 12) 5.

(** Server 0 of three is elected; client 1 joins a group, client 2 asks for the
    latest configuration. *)
Definition ctrler_commit : list (WAction Op) := [WRaft (ARun 0 later); WRaft (ARun 0 later); WRaft (ARun 0 later)].
Definition join_query : list (WAction Op) :=
  [WRaft (ATick 0 later); WRaft (ARun 0 later); WRaft (ARun 0 later)]
  ++ [WRpc 0 join_1] ++ ctrler_commit ++ [WDeliver 0; WTake 0 0; WReceive 0 0; WFinish 0 0]
  ++ [WRpc 0 query_latest] ++ ctrler_commit ++ [WDeliver 0; WDeliver 0; WTake 0 0; WReceive 0 0; WFinish 0 0].

Definition ctrler_world : World ShardCtrler Op Config :=
  default (winit 3 StartServer (λ _, MkEnv 0 3)) (wexecs 3 StartServer join_query (winit 3 StartServer (λ _, MkEnv 0 3))).
Definition join_query_trace : list (WEvent Op Config) :=
  [WCall 0 join_1; WReply 0 join_1 OK zeroConfig; WCall 0 query_latest; WReply 0 query_latest OK one_group].

Lemma ctrler_world_trace : trace ctrler_world = join_query_trace.
Proof. vm_compute. reflexivity. Qed.

Lemma join_query_order : client_order op_ClientId op_OpId (calls join_query_trace).
Proof. change (calls _) with [join_1; query_latest]. by apply client_order_pair. Qed.

Lemma ctrler_linearizable_witness : ∃ ops, ctrler_linearization join_query_trace ops.
Proof.
  rewrite <- ctrler_world_trace. apply (ctrler_linearizable 3 ctrler_world); [lia| |].
  - exists (λ _, MkEnv 0 3). apply (wexecs_run 3 StartServer join_query). vm_compute. reflexivity.
  - rewrite ctrler_world_trace. apply join_query_order.
Defined.
