(* ===== verification/LabConfig.v ===== *)
(** * The test configurations of kvraft and shardctrler

    kvraft/config.go and shardctrler/config.go: [n] servers and their clerks on one
    network, with servers that are shut down and started again and networks that
    are partitioned.  The two files are the same up to the server they start,
    which is a parameter here ([start]) and given at the end.

    Persisters are pointers: [saved[i]] is one into the heap [persisters], and the
    server that was started on it has the same pointer. *)

From S2P Require Import Prelude Util Labgob Labrpc LabNet RaftState OpServer KVRaft ShardCtrler.

(** [Server], [name] and [net] are those of labrpc. *)
Abbreviation LSys := (Labrpc.Sys (Name := net_name)).
Abbreviation Net := (Labrpc.Network (Name := net_name)).

Record config `{!GoTypes} (Srv : Type) := MkConfig {
  sys : LSys;
  n : Z;
  kvservers : list (option Srv);
  saved : list (option nat);
  persisters : gmap nat Persister;
  endnames : list (option (list string));   (** nil before a server is started *)
  clerks : gmap nat (list string);          (** by address *)
  nextClientId : Z;
}.
Arguments MkConfig {_ Srv} _ _ _ _ _ _ _ _.
Arguments sys {_ Srv} _.
Arguments n {_ Srv} _.
Arguments kvservers {_ Srv} _.
Arguments saved {_ Srv} _.
Arguments persisters {_ Srv} _.
Arguments endnames {_ Srv} _.
Arguments clerks {_ Srv} _.
Arguments nextClientId {_ Srv} _.

Section config.
Context `{!GoTypes} {Srv : Type}.
(** Starting server [i] on the persister at an address; the services that it
    offers; whether its [GetState] says that it leads. *)
Context (start : Z → nat → Persister → option Srv) (services_of : Srv → list Service) (is_leader : Srv → bool).
Implicit Types (cfg : config Srv).

Definition rn cfg : Net := net (sys cfg).

Definition set_rn cfg (r : Net) : config Srv :=
  MkConfig (MkSys r (heap (sys cfg))) (n cfg) (kvservers cfg) (saved cfg) (persisters cfg) (endnames cfg) (clerks cfg)
    (nextClientId cfg).

(** [cfg.endnames[i][j]] *)
Definition endname cfg (i j : Z) : option string :=
  row ← go_index (endnames cfg) i; row ← row; go_index row j.

(** ** Connections *)

Definition connectUnlocked cfg (i : Z) (to : list Z) : option (config Srv) :=
  outgoing ← mapM (λ j, endname cfg i j) to;
  incoming ← mapM (λ j, endname cfg j i) to;
  Some (set_rn cfg (enables true (rn cfg) (outgoing ++ incoming))).

(** The second loop looks at [endnames[j]] where it means [endnames[from[j]]]. *)
Definition disconnectUnlocked cfg (i : Z) (from : list Z) : option (config Srv) :=
  outgoing ← mapM (λ j, row ← go_index (endnames cfg) i;
                        match row with None => Some [] | Some row => e ← go_index row j; Some [e] end) from;
  incoming ← mapM (λ p, row ← go_index (endnames cfg) p.1;
                        match row with None => Some [] | Some _ => e ← endname cfg p.2 i; Some [e] end)
                  (zip (seqZ 0 (go_len from)) from);
  Some (set_rn cfg (enables false (rn cfg) (concat outgoing ++ concat incoming))).

Definition All cfg : list Z := seqZ 0 (n cfg).

Definition ConnectAll cfg : option (config Srv) := foldM (λ cfg i, connectUnlocked cfg i (All cfg)) cfg (All cfg).

Definition partition cfg (p1 p2 : list Z) : option (config Srv) :=
  cfg ← foldM (λ cfg i, cfg ← disconnectUnlocked cfg i p2; connectUnlocked cfg i p1) cfg p1;
  foldM (λ cfg i, cfg ← disconnectUnlocked cfg i p1; connectUnlocked cfg i p2) cfg p2.

(** ** Clerks *)

Definition ConnectClientUnlocked cfg (ck : nat) (to : list Z) : option (config Srv) :=
  names ← mapM (go_index (default [] (clerks cfg !! ck))) to;
  Some (set_rn cfg (enables true (rn cfg) names)).

Definition DisconnectClientUnlocked cfg (ck : nat) (from : list Z) : option (config Srv) :=
  names ← mapM (go_index (default [] (clerks cfg !! ck))) from;
  Some (set_rn cfg (enables false (rn cfg) names)).

(** A clerk with [n] ends named [names]; it calls the servers in the order that
    [random_handles] gives. *)
Definition makeClient cfg (names : list string) (rs : list Z) (to : list Z) : option (config Srv * nat * list Z) :=
  r ← make_ends (rn cfg) names 0 server_name;
  order ← random_handles (All cfg) rs;
  let ck := fresh (dom (clerks cfg)) in
  let cfg := MkConfig (MkSys r (heap (sys cfg))) (n cfg) (kvservers cfg) (saved cfg) (persisters cfg) (endnames cfg)
               (<[ck := names]> (clerks cfg)) (nextClientId cfg + 1) in
  cfg ← ConnectClientUnlocked cfg ck to;
  Some (cfg, ck, order).

Definition deleteClient cfg (ck : nat) : config Srv :=
  MkConfig (sys cfg) (n cfg) (kvservers cfg) (saved cfg) (persisters cfg) (endnames cfg) (delete ck (clerks cfg))
    (nextClientId cfg).

(** ** Servers *)

(** [saved[i] = saved[i].Copy()], and [MakePersister()] for the nil pointer if
    [make] is set; the pointer that [saved[i]] holds then. *)
Definition copy_saved cfg (i : Z) (make : bool) : option (config Srv * option nat) :=
  old ← go_index (saved cfg) i;
  match old, make with
  | None, false => Some (cfg, None)
  | _, _ =>
    ps ← match old with Some p => Copy <$> persisters cfg !! p | None => Some MakePersister end;
    let p := fresh (dom (persisters cfg)) in
    sv ← go_update (saved cfg) i (Some p);
    Some (MkConfig (sys cfg) (n cfg) (kvservers cfg) sv (<[p := ps]> (persisters cfg)) (endnames cfg) (clerks cfg)
            (nextClientId cfg), Some p)
  end.

Definition set_server cfg (i : Z) (srv : option Srv) : option (config Srv) :=
  sv ← go_update (kvservers cfg) i srv;
  Some (MkConfig (sys cfg) (n cfg) sv (saved cfg) (persisters cfg) (endnames cfg) (clerks cfg) (nextClientId cfg)).

(** [Kill] marks a server that the configuration forgets. *)
Definition ShutdownServer cfg (i : Z) : option (config Srv) :=
  cfg ← disconnectUnlocked cfg i (All cfg);
  let cfg := set_rn cfg (DeleteServer (rn cfg) (server_name i)) in
  '(cfg, _) ← copy_saved cfg i false;
  set_server cfg i None.

Definition StartServer cfg (i : Z) (names : list string) : option (config Srv) :=
  es ← go_update (endnames cfg) i (Some names);
  r ← make_ends (rn cfg) names 0 server_name;
  let cfg := MkConfig (MkSys r (heap (sys cfg))) (n cfg) (kvservers cfg) (saved cfg) (persisters cfg) es (clerks cfg)
               (nextClientId cfg) in
  '(cfg, p) ← copy_saved cfg i true;
  p ← p;
  ps ← persisters cfg !! p;
  srv ← start i p ps;
  cfg ← set_server cfg i (Some srv);
  Some (MkConfig (add_server (sys cfg) (server_name i) (services_of srv)) (n cfg) (kvservers cfg) (saved cfg) (persisters cfg)
          (endnames cfg) (clerks cfg) (nextClientId cfg)).

(** [Leader] of kvraft dereferences the servers that are shut down. *)
Fixpoint Leader_loop (servers : list (option Srv)) (i : Z) : option (bool * Z) :=
  match servers with
  | [] => Some (false, 0)
  | None :: _ => None
  | Some srv :: servers => if is_leader srv then Some (true, i) else Leader_loop servers (i + 1)
  end.
Definition Leader cfg : option (bool * Z) := Leader_loop (kvservers cfg) 0.

(** That of shardctrler passes them over. *)
Fixpoint ctrler_Leader_loop (servers : list (option Srv)) (i : Z) : bool * Z :=
  match servers with
  | [] => (false, 0)
  | srv :: servers =>
    if from_option is_leader false srv then (true, i) else ctrler_Leader_loop servers (i + 1)
  end.
Definition ctrler_Leader cfg : bool * Z := ctrler_Leader_loop (kvservers cfg) 0.

(** One iteration of the loop that fills the two halves; [p] are the halves and the
    counter [j]. *)
Definition partition_step (l : Z) (p : list Z * list Z * Z) (i : Z) : option (list Z * list Z * Z) :=
  let '(p1, p2, j) := p in
  if i =? l then Some p
  else if j <? go_len p1 then p1 ← go_update p1 j i; Some (p1, p2, j + 1)
  else p2 ← go_update p2 (j - go_len p1) i; Some (p1, p2, j + 1).

(** [make_partition] after [Leader]; [l] is the leader. *)
Definition partition_around (m l : Z) : option (list Z * list Z) :=
  '(p1, p2, _) ← foldM (partition_step l)
    (replicate (Z.to_nat (Z.quot m 2 + 1)) 0, replicate (Z.to_nat (Z.quot m 2)) 0, 0) (seqZ 0 m);
  p2 ← go_update p2 (go_len p2 - 1) l;
  Some (p1, p2).

Definition make_partition cfg : option (list Z * list Z) := '(_, l) ← Leader cfg; partition_around (n cfg) l.
Definition ctrler_make_partition cfg : option (list Z * list Z) := partition_around (n cfg) (ctrler_Leader cfg).2.

(** ** Starting and stopping the whole *)

Definition new_config (m : Z) : config Srv :=
  MkConfig (MkSys MakeNetwork ∅) m (replicate (Z.to_nat m) None) (replicate (Z.to_nat m) None) ∅
    (replicate (Z.to_nat m) None) ∅ (m + 1000).

(** [names] are the random names of the ends of each server. *)
Definition make_config (m : Z) (unreliable : bool) (names : list (list string)) : option (config Srv) :=
  cfg ← foldM (λ cfg p, StartServer cfg p.1 p.2) (new_config m) (zip (seqZ 0 m) names);
  cfg ← ConnectAll cfg;
  Some (set_rn cfg (Reliable (rn cfg) (negb unreliable))).

Definition checkTimeout (failed : bool) (seconds : Z) : option unit :=
  if negb failed && (seconds >? 120) then None else Some tt.

Definition cleanup cfg (failed : bool) (seconds : Z) : option (config Srv) :=
  r ← Cleanup (rn cfg);
  _ ← checkTimeout failed seconds;
  Some (set_rn cfg r).

(** The largest size of a persister's content, by [size_of] *)
Definition max_saved (size_of : Persister → Z) cfg : option Z :=
  foldM (λ largest i, p ← go_index (saved cfg) i; p ← p; ps ← persisters cfg !! p;
                      Some (if size_of ps >? largest then size_of ps else largest)) 0 (All cfg).
Definition LogSize cfg : option Z := max_saved RaftStateSize cfg.
Definition SnapshotSize cfg : option Z := max_saved RaftState.SnapshotSize cfg.

Definition rpcTotal cfg : Z := GetTotalCount (rn cfg).
End config.

(** ** The statistics of a test of kvraft *)

Record Stats := MkStats { rpcs0 : Z; ops : Z }.

Definition begin `{!GoTypes} {Srv} (cfg : config Srv) : Stats := MkStats (rpcTotal cfg) 0.
(** [atomic.AddInt32(&cfg.ops, 1)] *)
Definition op (st : Stats) : Stats := MkStats (rpcs0 st) (wrap 32 (ops st + 1)).
(** The numbers that [end] prints: peers, RPCs, operations *)
Definition end_stats `{!GoTypes} {Srv} (cfg : config Srv) (st : Stats) : Z * Z * Z :=
  (n cfg, rpcTotal cfg - rpcs0 st, ops st).

(** ** The servers of the two services

    A server has its Raft peer and the address of its persister.  [services] are
    what reflection finds in the two. *)

Section instances.
Context `{!GoTypes} (env : Env) (m : Z) (services : list Service).

Record Started (S Op : Type) := MkStarted { st_service : S; st_rf : Raft Op; st_persister : nat }.
Arguments MkStarted {S Op} _ _ _.
Arguments st_service {S Op} _.
Arguments st_rf {S Op} _.
Arguments st_persister {S Op} _.

Definition is_leader {S Op} (srv : Started S Op) : bool := (GetState (st_rf srv)).2.

Section kv.
Context `{!GobCodec (PState KVRaft.Op), !GobCodec KVSnapshot}.
Definition start_kv (i : Z) (p : nat) (ps : Persister) : option (Started KVServer KVRaft.Op) :=
  r ← Make env m i ps; kv ← StartKVServer (ReadSnapshot ps); Some (MkStarted kv r p).
Definition kv_StartServer := StartServer start_kv (λ _, services).
Definition kv_make_config := make_config start_kv (λ _, services) m.
Definition kv_make_partition := make_partition (@is_leader KVServer KVRaft.Op).
End kv.

(** shardctrler/config.go *)
Section ctrler.
Context `{!GobCodec (PState ShardCtrler.Op)}.
Abbreviation CtrlerSrv := (Started ShardCtrler ShardCtrler.Op).
Definition start_ctrler (i : Z) (p : nat) (ps : Persister) : option CtrlerSrv :=
  r ← Make env m i ps; Some (MkStarted ShardCtrler.StartServer r p).
Definition ctrler_random_handles {A} := random_handles (A := A).
Definition ctrler_connectUnlocked := connectUnlocked (Srv := CtrlerSrv).
Definition ctrler_disconnectUnlocked := disconnectUnlocked (Srv := CtrlerSrv).
Definition ctrler_All := All (Srv := CtrlerSrv).
Definition ctrler_ConnectAll := ConnectAll (Srv := CtrlerSrv).
Definition ctrler_partition := partition (Srv := CtrlerSrv).
Definition ctrler_makeClient := makeClient (Srv := CtrlerSrv).
Definition ctrler_deleteClient := deleteClient (Srv := CtrlerSrv).
Definition ctrler_ConnectClientUnlocked := ConnectClientUnlocked (Srv := CtrlerSrv).
Definition ctrler_DisconnectClientUnlocked := DisconnectClientUnlocked (Srv := CtrlerSrv).
Definition ctrler_ShutdownServer := ShutdownServer (Srv := CtrlerSrv).
Definition ctrler_StartServer := StartServer start_ctrler (λ _, services).
Definition ctrler_make_config := make_config start_ctrler (λ _, services) m.
Definition ctrler_LogSize := LogSize (Srv := CtrlerSrv).
Definition ctrler_cleanup := cleanup (Srv := CtrlerSrv).
End ctrler.
End instances.
