(* ===== verification/LabConfigProps.v ===== *)
(** * What the test configurations build

    Which servers can reach which after [connect], [disconnect], [partition],
    [ShutdownServer] and [make_config]; what [make_partition] divides; that a
    server that is started again gets a persister of its own. *)

From S2P Require Import Prelude Util Labgob Labrpc LabrpcCounts LabNet RaftState OpServer KVRaft ShardCtrler LabConfig.

(** ** Connectivity *)

Section connectivity.
Context `{!GoTypes} {Srv : Type}.
Implicit Types (cfg : config Srv) (P : Z → Z → Prop).

(** All servers were started, and no two of their ends have one name. *)
Record wired cfg : Prop := {
  wd_n : 0 <= n cfg;
  wd_row i : 0 <= i < n cfg → ∃ row, go_index (endnames cfg) i = Some (Some row) ∧ go_len row = n cfg;
  wd_inj i j i' j' x : endname cfg i j = Some x → endname cfg i' j' = Some x → i = i' ∧ j = j';
}.

(** The end by which server [i] calls server [j] is enabled. *)
Definition up cfg (i j : Z) : bool := from_option (λ x, is_enabled (rn cfg) (end_name x)) false (endname cfg i j).

(** [cfg'] differs in that the ends between servers related by [P] are enabled or
    not, as [b] says. *)
Record sets (b : bool) P cfg cfg' : Prop := {
  st_same : cfg' = set_rn cfg (rn cfg');
  st_wiring : same_wiring (rn cfg) (rn cfg');
  st_set i j : 0 <= i < n cfg → 0 <= j < n cfg → P i j → up cfg' i j = b;
  st_keep i j : 0 <= i < n cfg → 0 <= j < n cfg → ¬ P i j → up cfg' i j = up cfg i j;
  st_other e : (∀ i j x, endname cfg i j = Some x → e ≠ end_name x) → is_enabled (rn cfg') e = is_enabled (rn cfg) e;
}.

Lemma endname_Some cfg i j : wired cfg → 0 <= i < n cfg → 0 <= j < n cfg → ∃ x, endname cfg i j = Some x.
Proof.
  intros Hw Hi Hj. destruct (wd_row _ Hw i Hi) as (row & Hr & Hl). unfold endname. rewrite Hr. cbn.
  apply go_index_lt. lia.
Qed.

(** Ends named by pairs of servers *)
Definition names_of cfg (ps : list (Z * Z)) (names : list string) : Prop :=
  Forall2 (λ p x, endname cfg p.1 p.2 = Some x) ps names.

Lemma names_of_elem cfg ps names i j x : wired cfg → names_of cfg ps names → endname cfg i j = Some x →
  x ∈ names ↔ (i, j) ∈ ps.
Proof.
  intros Hw Hn Hx. unfold names_of in Hn. split.
  - intros [k Hk]%list_elem_of_lookup. destruct (Forall2_lookup_r _ _ _ _ _ Hn Hk) as ([i' j'] & Hp & Hy). cbn in Hy.
    destruct (wd_inj _ Hw _ _ _ _ _ Hx Hy) as [-> ->]. by eapply list_elem_of_lookup_2.
  - intros [k Hk]%list_elem_of_lookup. destruct (Forall2_lookup_l _ _ _ _ _ Hn Hk) as (y & Hy & He). cbn in He.
    rewrite Hx in He. injection He as <-. by eapply list_elem_of_lookup_2.
Qed.

Lemma names_of_exists cfg ps : wired cfg → (∀ p, p ∈ ps → 0 <= p.1 < n cfg ∧ 0 <= p.2 < n cfg) →
  ∃ names, mapM (λ p, endname cfg p.1 p.2) ps = Some names ∧ names_of cfg ps names.
Proof.
  intros Hw Hp. assert (is_Some (mapM (λ p, endname cfg p.1 p.2) ps)) as [names Hm].
  { apply mapM_is_Some, Forall_forall. intros p Hin. cbn. destruct (Hp p Hin). destruct (endname_Some cfg p.1 p.2 Hw) as [x ->]; eauto. }
  exists names. split; [done|]. by apply mapM_Some in Hm.
Qed.

Lemma enables_sets cfg b ps names : wired cfg → names_of cfg ps names →
  sets b (λ i j, (i, j) ∈ ps) cfg (set_rn cfg (enables b (rn cfg) names)).
Proof.
  intros Hw Hn. destruct (enables_spec b (rn cfg) names) as [Hs He].
  assert (∀ i j x, endname cfg i j = Some x → end_name x ∈ end_name <$> names ↔ (i, j) ∈ ps) as Hin.
  { intros i j x Hx. rewrite (list_elem_of_fmap_inj end_name). by eapply names_of_elem. }
  split; [done|done|..].
  - intros i j Hi Hj Hp. destruct (endname_Some cfg i j Hw Hi Hj) as [x Hx]. unfold up.
    change (endname (set_rn _ _) i j) with (endname cfg i j). rewrite Hx. cbn. rewrite He, decide_True; [done|].
    by apply (Hin _ _ _ Hx).
  - intros i j Hi Hj Hp. destruct (endname_Some cfg i j Hw Hi Hj) as [x Hx]. unfold up.
    change (endname (set_rn _ _) i j) with (endname cfg i j). rewrite Hx. cbn. rewrite He, decide_False; [done|].
    by rewrite (Hin _ _ _ Hx).
  - intros e Hne. cbn. rewrite He, decide_False; [done|]. intros (x & -> & Hx)%list_elem_of_fmap.
    apply list_elem_of_lookup in Hx as [k Hk]. destruct (Forall2_lookup_r _ _ _ _ _ Hn Hk) as (p & _ & Hy).
    by eapply Hne.
Qed.

Lemma wired_set cfg b P cfg' : sets b P cfg cfg' → wired cfg → wired cfg'.
Proof. intros [He _ _ _ _] [? Hr Hi]. rewrite He. by split. Qed.

Lemma mapM_pairs {A B} (f : A → option B) (g : A → Z * Z) (h : Z * Z → option B) (l : list A) :
  (∀ x, f x = h (g x)) → mapM f l = mapM h (g <$> l).
Proof. intros Hf. induction l as [|x l IH]; [done|]. cbn. rewrite Hf. destruct (h (g x)); cbn; [|done]. by rewrite IH. Qed.

(** The pairs that [connect] and [disconnect] are about *)
Definition links (i : Z) (l : list Z) : list (Z * Z) := (pair i <$> l) ++ ((λ j, (j, i)) <$> l).

Lemma elem_of_links i l a c : (a, c) ∈ links i l ↔ a = i ∧ c ∈ l ∨ c = i ∧ a ∈ l.
Proof.
  unfold links. rewrite elem_of_app, !list_elem_of_fmap. split.
  - intros [(x & [= -> ->] & ?)|(x & [= -> ->] & ?)]; auto.
  - intros [[-> ?]|[-> ?]]; eauto.
Qed.

Lemma sets_ext b P Q cfg cfg' : (∀ i j, P i j ↔ Q i j) → sets b P cfg cfg' → sets b Q cfg cfg'.
Proof. intros Hpq [H1 H2 H3 H4 H5]. split; try done; intros; [apply H3|apply H4]; try done; by rewrite Hpq. Qed.

Lemma connectUnlocked_sets cfg i to : wired cfg → 0 <= i < n cfg → (∀ j, j ∈ to → 0 <= j < n cfg) →
  ∃ cfg', connectUnlocked cfg i to = Some cfg' ∧ sets true (λ a c, a = i ∧ c ∈ to ∨ c = i ∧ a ∈ to) cfg cfg'.
Proof.
  intros Hw Hi Hto. unfold connectUnlocked.
  rewrite (mapM_pairs (λ j, endname cfg i j) (pair i) (λ p, endname cfg p.1 p.2)) by done.
  rewrite (mapM_pairs (λ j, endname cfg j i) (λ j, (j, i)) (λ p, endname cfg p.1 p.2)) by done.
  destruct (names_of_exists cfg (pair i <$> to) Hw) as (out & -> & Ho).
  { intros p (j & -> & Hj)%list_elem_of_fmap. cbn. auto. }
  destruct (names_of_exists cfg ((λ j, (j, i)) <$> to) Hw) as (inc & -> & Hc).
  { intros p (j & -> & Hj)%list_elem_of_fmap. cbn. auto. }
  cbn. eexists. split; [done|]. apply (sets_ext _ (λ a c, (a, c) ∈ links i to)); [intros; apply elem_of_links|].
  apply enables_sets; [done|]. by apply Forall2_app.
Qed.

Lemma mapM_singletons {A B} (f : A → option B) (l : list A) (xs : list B) : mapM f l = Some xs →
  mapM (λ x, y ← f x; Some [y]) l = Some ((λ y, [y]) <$> xs).
Proof.
  revert xs. induction l as [|x l IH]; intros xs; cbn; [by intros [= <-]|].
  destruct (f x) as [y|]; cbn; [|done]. destruct (mapM f l) as [ys|]; cbn; [|done].
  intros [= <-]. by rewrite (IH ys).
Qed.

Lemma concat_singletons {A} (l : list A) : concat ((λ y, [y]) <$> l) = l.
Proof. induction l as [|x l IH]; [done|]. cbn. by rewrite IH. Qed.

(** The check of the wrong row does no harm when every server was started and there
    are not more than [n] peers to disconnect from. *)
Lemma disconnectUnlocked_sets cfg i from :
  wired cfg → 0 <= i < n cfg → (∀ j, j ∈ from → 0 <= j < n cfg) → go_len from <= n cfg →
  ∃ cfg', disconnectUnlocked cfg i from = Some cfg' ∧ sets false (λ a c, a = i ∧ c ∈ from ∨ c = i ∧ a ∈ from) cfg cfg'.
Proof.
  intros Hw Hi Hfr Hlen. unfold disconnectUnlocked.
  destruct (names_of_exists cfg (pair i <$> from) Hw) as (out & Hm & Ho).
  { intros p (j & -> & Hj)%list_elem_of_fmap. cbn. auto. }
  destruct (names_of_exists cfg ((λ j, (j, i)) <$> from) Hw) as (inc & Hm' & Hc).
  { intros p (j & -> & Hj)%list_elem_of_fmap. cbn. auto. }
  rewrite <- (mapM_pairs (λ j, endname cfg i j)) in Hm by done.
  rewrite <- (mapM_pairs (λ j, endname cfg j i)) in Hm' by done.
  destruct (wd_row _ Hw i Hi) as (row & Hr & Hl).
  rewrite (mapM_ext _ (λ j, e ← endname cfg i j; Some [e])).
  2: { intros j. unfold endname. by rewrite Hr. }
  rewrite (mapM_singletons _ _ _ Hm). cbn [mbind option_bind].
  assert (∀ (k : Z) l, 0 <= k → k + go_len l <= n cfg →
    mapM (λ p, row ← go_index (endnames cfg) p.1;
               match row with None => Some [] | Some _ => e ← endname cfg p.2 i; Some [e] end) (zip (seqZ k (go_len l)) l)
    = mapM (λ j, e ← endname cfg j i; Some [e]) l) as Hz.
  { intros k l. revert k. induction l as [|j l IH]; intros k Hk Hkl; [done|]. rewrite go_len_cons in *. pose proof (go_len_nonneg l).
    rewrite seqZ_cons by lia. cbn [zip zip_with mapM fst snd].
    destruct (wd_row _ Hw k ltac:(lia)) as (row' & -> & _). cbn [mbind option_bind].
    replace (Z.pred (1 + go_len l)) with (go_len l) by lia. by rewrite IH by lia. }
  rewrite Hz by lia. rewrite (mapM_singletons _ _ _ Hm'). cbn [mbind option_bind]. rewrite !concat_singletons.
  eexists. split; [done|]. apply (sets_ext _ (λ a c, (a, c) ∈ links i from)); [intros; apply elem_of_links|].
  apply enables_sets; [done|]. by apply Forall2_app.
Qed.

(** Several steps: the links in [T] are up, those in [F] down, others as before. *)
Record resets (T F : Z → Z → Prop) cfg cfg' : Prop := {
  rs_same : cfg' = set_rn cfg (rn cfg');
  rs_wiring : same_wiring (rn cfg) (rn cfg');
  rs_up i j : 0 <= i < n cfg → 0 <= j < n cfg → T i j → up cfg' i j = true;
  rs_down i j : 0 <= i < n cfg → 0 <= j < n cfg → F i j → up cfg' i j = false;
  rs_keep i j : 0 <= i < n cfg → 0 <= j < n cfg → ¬ T i j → ¬ F i j → up cfg' i j = up cfg i j;
  rs_other e : (∀ i j x, endname cfg i j = Some x → e ≠ end_name x) → is_enabled (rn cfg') e = is_enabled (rn cfg) e;
}.

Lemma resets_none cfg : resets (λ _ _, False) (λ _ _, False) cfg cfg.
Proof. split; try done. by destruct cfg as [[]]. Qed.

Lemma resets_wired T F cfg cfg' : resets T F cfg cfg' → wired cfg → wired cfg' ∧ n cfg' = n cfg ∧ endname cfg' = endname cfg.
Proof. intros [He _ _ _ _ _] [? Hr Hi]. rewrite He. by split. Qed.

Lemma resets_ext T F T' F' cfg cfg' : (∀ i j, T i j ↔ T' i j) → (∀ i j, F i j ↔ F' i j) →
  resets T F cfg cfg' → resets T' F' cfg cfg'.
Proof.
  intros HT HF [H1 H2 H3 H4 H5 H6]. split; try done; intros i j Hi Hj; rewrite <- ?HT, <- ?HF; auto.
Qed.

Lemma resets_set T F cfg1 cfg2 cfg3 b P `{!∀ i j, Decision (P i j)} :
  resets T F cfg1 cfg2 → sets b P cfg2 cfg3 →
  resets (λ i j, if b then T i j ∨ P i j else T i j ∧ ¬ P i j) (λ i j, if b then F i j ∧ ¬ P i j else F i j ∨ P i j) cfg1 cfg3.
Proof.
  intros [H1 H2 H3 H4 H5 H6] [G1 G2 G3 G4 G5].
  assert (n cfg2 = n cfg1 ∧ endname cfg2 = endname cfg1) as [Hn He] by by rewrite H1. rewrite Hn in *.
  split; [rewrite G1; by rewrite H1|by etrans|..].
  - intros i j Hi Hj HT. destruct b, (decide (P i j)) as [Hp|Hp]; try (by apply G3); try tauto;
      rewrite G4 by done; apply H3; tauto.
  - intros i j Hi Hj HF. destruct b, (decide (P i j)) as [Hp|Hp]; try (by apply G3); try tauto;
      rewrite G4 by done; apply H4; tauto.
  - intros i j Hi Hj HT HF. destruct b; (destruct (decide (P i j)) as [Hp|Hp]; [tauto|]);
      rewrite G4 by done; apply H5; tauto.
  - intros e Hne. rewrite G5; [by apply H6|]. by rewrite He.
Qed.

(** One loop of [partition]: the servers of [p] are cut off from those of [q] and
    connected with each other. *)
Lemma separate cfg p q :
  wired cfg → (∀ i, i ∈ p → 0 <= i < n cfg) → (∀ i, i ∈ q → 0 <= i < n cfg) → go_len q <= n cfg →
  (∀ i, i ∈ p → i ∉ q) →
  ∃ cfg', foldM (λ cfg i, cfg ← disconnectUnlocked cfg i q; connectUnlocked cfg i p) cfg p = Some cfg'
    ∧ resets (λ a c, a ∈ p ∧ c ∈ p) (λ a c, a ∈ p ∧ c ∈ q ∨ c ∈ p ∧ a ∈ q) cfg cfg'.
Proof.
  intros Hw Hp Hq Hlen Hdis.
  destruct (foldM_inv (λ cfg i, cfg ← disconnectUnlocked cfg i q; connectUnlocked cfg i p)
    (λ seen cfg', resets (λ a c, a ∈ seen ∧ c ∈ p ∨ c ∈ seen ∧ a ∈ p) (λ a c, a ∈ seen ∧ c ∈ q ∨ c ∈ seen ∧ a ∈ q) cfg cfg')
    p cfg) as (cfg' & Hf & Hr).
  - eapply resets_ext, resets_none; intros i j; rewrite !elem_of_nil; tauto.
  - intros seen i rest cfg1 Heq H1. destruct (resets_wired _ _ _ _ H1 Hw) as (Hw1 & Hn1 & _).
    assert (i ∈ p) as Hi by (rewrite Heq; set_solver).
    destruct (disconnectUnlocked_sets cfg1 i q) as (cfg2 & -> & H2); [done|rewrite Hn1; auto..|by rewrite Hn1|].
    cbn [mbind option_bind]. pose proof (resets_set _ _ _ _ _ _ _ H1 H2) as H12.
    destruct (resets_wired _ _ _ _ H12 Hw) as (Hw2 & Hn2 & _).
    destruct (connectUnlocked_sets cfg2 i p) as (cfg3 & -> & H3); [done|rewrite Hn2; auto..|].
    exists cfg3. split; [done|].
    assert (∀ x, x ∈ seen → x ∈ p) as Hsub by (rewrite Heq; set_solver).
    eapply resets_ext, (resets_set _ _ _ _ _ _ _ H12 H3); intros a c; cbn;
      rewrite !elem_of_app, !list_elem_of_singleton; clear - Hsub Hdis Hi; naive_solver.
  - exists cfg'. split; [done|]. eapply resets_ext, Hr; intros a c; tauto.
Qed.

(** C27: [partition] divides the network.  When the servers are all started and are
    divided into [p1] and [p2], then afterwards a server can call another exactly if
    the two are in the same part; the ends of clerks are as before. *)
Theorem partition_connectivity cfg p1 p2 :
  wired cfg → p1 ++ p2 ≡ₚ All cfg →
  ∃ cfg', partition cfg p1 p2 = Some cfg' ∧ wired cfg'
    ∧ (∀ i j, 0 <= i < n cfg → 0 <= j < n cfg → up cfg' i j = true ↔ (i ∈ p1 ↔ j ∈ p1))
    ∧ ∀ e, (∀ i j x, endname cfg i j = Some x → e ≠ end_name x) → is_enabled (rn cfg') e = is_enabled (rn cfg) e.
Proof.
  intros Hw Hp. assert (NoDup (p1 ++ p2)) as Hnd by (rewrite Hp; apply NoDup_seqZ).
  apply NoDup_app in Hnd as (Hnd1 & Hdis & Hnd2).
  assert (∀ i, i ∈ p1 ++ p2 ↔ 0 <= i < n cfg) as Hin by (intros i; rewrite Hp; unfold All; rewrite elem_of_seqZ; lia).
  assert (length (p1 ++ p2) = Z.to_nat (n cfg)) as Hlen by (rewrite Hp; apply length_seqZ).
  rewrite length_app in Hlen.
  assert (∀ i, i ∈ p1 → 0 <= i < n cfg) as H1 by (intros; apply Hin, elem_of_app; auto).
  assert (∀ i, i ∈ p2 → 0 <= i < n cfg) as H2 by (intros; apply Hin, elem_of_app; auto).
  assert (∀ i, 0 <= i < n cfg → i ∈ p1 ∨ i ∈ p2) as H12 by (intros i Hi; by apply elem_of_app, Hin).
  pose proof (wd_n _ Hw) as Hn.
  unfold partition.
  destruct (separate cfg p1 p2) as (cfg1 & -> & R1); [done|done|done|unfold go_len; lia|done|].
  destruct (resets_wired _ _ _ _ R1 Hw) as (Hw1 & Hn1 & He1). cbn [mbind option_bind].
  destruct (separate cfg1 p2 p1) as (cfg2 & -> & R2); [done|rewrite Hn1; auto..|unfold go_len; lia|intros i ? ?; by apply (Hdis i)|].
  destruct (resets_wired _ _ _ _ R2 Hw1) as (Hw2 & _). exists cfg2. split_and!; [done|done| |].
  - intros i j Hi Hj. destruct (H12 i Hi) as [Hi1|Hi2], (H12 j Hj) as [Hj1|Hj2].
    + rewrite (rs_keep _ _ _ _ R2), (rs_up _ _ _ _ R1); rewrite ?Hn1; naive_solver.
    + rewrite (rs_down _ _ _ _ R2) by (rewrite ?Hn1; auto). naive_solver.
    + rewrite (rs_down _ _ _ _ R2) by (rewrite ?Hn1; auto). naive_solver.
    + rewrite (rs_up _ _ _ _ R2) by (rewrite ?Hn1; auto). naive_solver.
  - intros e He. rewrite (rs_other _ _ _ _ R2) by by rewrite He1. by apply (rs_other _ _ _ _ R1).
Qed.

(** [ConnectAll] connects all. *)
Lemma ConnectAll_up cfg : wired cfg →
  ∃ cfg', ConnectAll cfg = Some cfg' ∧ cfg' = set_rn cfg (rn cfg') ∧ same_wiring (rn cfg) (rn cfg')
    ∧ ∀ i j, 0 <= i < n cfg → 0 <= j < n cfg → up cfg' i j = true.
Proof.
  intros Hw. assert (∀ i, i ∈ All cfg ↔ 0 <= i < n cfg) as Hin by (intros i; unfold All; rewrite elem_of_seqZ; lia).
  destruct (foldM_inv (λ cfg i, connectUnlocked cfg i (All cfg))
    (λ seen cfg', resets (λ a c, a ∈ seen ∧ c ∈ All cfg ∨ c ∈ seen ∧ a ∈ All cfg) (λ _ _, False) cfg cfg')
    (All cfg) cfg) as (cfg' & Hf & Hr).
  - eapply resets_ext, resets_none; intros i j; rewrite ?elem_of_nil; tauto.
  - intros seen i rest cfg1 Heq H1. destruct (resets_wired _ _ _ _ H1 Hw) as (Hw1 & Hn1 & _).
    assert (i ∈ All cfg) as Hi by (rewrite Heq; set_solver). unfold All at 1. rewrite Hn1. fold (All cfg).
    destruct (connectUnlocked_sets cfg1 i (All cfg)) as (cfg2 & -> & H2); [done|rewrite Hn1; by apply Hin..|].
    exists cfg2. split; [done|]. eapply resets_ext, (resets_set _ _ _ _ _ _ _ H1 H2); intros a c; cbn; [|tauto].
    rewrite !elem_of_app, !list_elem_of_singleton. clear. naive_solver.
  - exists cfg'. split_and!; [done|apply Hr|apply Hr|]. intros i j Hi Hj. apply (rs_up _ _ _ _ Hr); [done|done|].
    left. by rewrite !Hin.
Qed.
End connectivity.

(** ** Starting servers *)

Section servers.
Context `{!GoTypes} {Srv : Type}.
Context (start : Z → nat → Persister → option Srv) (services_of : Srv → list Service).
Implicit Types (cfg : config Srv).

(** The slices have an element for each server. *)
Definition sized cfg : Prop :=
  go_len (endnames cfg) = n cfg ∧ go_len (saved cfg) = n cfg ∧ go_len (kvservers cfg) = n cfg.

(** What is saved for server [i]: the content of its persister, an empty one if it
    was never started. *)
Definition content cfg (i : Z) : option Persister :=
  old ← go_index (saved cfg) i;
  match old with Some p => persisters cfg !! p | None => Some MakePersister end.

Lemma Copy_id ps : Copy ps = ps.
Proof. by destruct ps. Qed.

Lemma copy_saved_make cfg i c : sized cfg → 0 <= i < n cfg → content cfg i = Some c →
  let p := fresh (dom (persisters cfg)) in
  copy_saved cfg i true = Some (MkConfig (sys cfg) (n cfg) (kvservers cfg) (<[Z.to_nat i := Some p]> (saved cfg))
    (<[p := c]> (persisters cfg)) (endnames cfg) (clerks cfg) (nextClientId cfg), Some p).
Proof.
  intros (_ & Hs & _) Hi Hc p. unfold content in Hc. unfold copy_saved.
  destruct (go_index (saved cfg) i) as [old|]; cbn [mbind option_bind] in *; [|done].
  rewrite go_update_eq by lia. destruct old as [q|].
  - rewrite Hc. cbn. by rewrite Copy_id.
  - by injection Hc as <-.
Qed.

(** [StartServer] gives the server a persister that nobody else knows, with what was
    saved, and registers ends that are not enabled yet. *)
Lemma StartServer_eq cfg i names c srv :
  let p := fresh (dom (persisters cfg)) in
  sized cfg → 0 <= i < n cfg → NoDup names → (∀ x, x ∈ names → end_name x ∉ ends (rn cfg)) →
  content cfg i = Some c → start i p c = Some srv →
  ∃ r, make_ends (rn cfg) names 0 server_name = Some r
    ∧ StartServer start services_of cfg i names
      = Some (MkConfig (add_server (MkSys r (heap (sys cfg))) (server_name i) (services_of srv)) (n cfg)
          (<[Z.to_nat i := Some srv]> (kvservers cfg)) (<[Z.to_nat i := Some p]> (saved cfg))
          (<[p := c]> (persisters cfg)) (<[Z.to_nat i := Some names]> (endnames cfg)) (clerks cfg) (nextClientId cfg)).
Proof.
  intros p Hsz Hi Hnd Hfr Hc Hstart. destruct (make_ends_spec (rn cfg) names 0 server_name Hnd Hfr) as (r & Hr & _).
  exists r. split; [done|]. destruct Hsz as (He & Hs & Hk) eqn:E. clear E. unfold StartServer.
  rewrite go_update_eq by lia. cbn [mbind option_bind]. rewrite Hr. cbn [mbind option_bind].
  rewrite (copy_saved_make _ i c); [|split_and!; cbn; try done; unfold go_len; by rewrite length_insert|done|done].
  cbn [mbind option_bind persisters]. fold p. rewrite lookup_insert_eq. cbn [mbind option_bind]. rewrite Hstart.
  cbn [mbind option_bind]. unfold set_server. cbn [kvservers]. by rewrite go_update_eq by lia.
Qed.

(** The first [k] servers were started with their rows of names. *)
Record built (m : Z) (names : list (list string)) (k : nat) cfg : Prop := {
  bu_n : n cfg = m;
  bu_sized : sized cfg;
  bu_row i : (i < k)%nat → ∃ row, names !! i = Some row ∧ endnames cfg !! i = Some (Some row);
  bu_new i : (k <= i)%nat → Z.of_nat i < m → saved cfg !! i = Some None;
  bu_ends : ends (rn cfg) = list_to_set (end_name <$> concat (take k names));
  bu_conn i row j x : (i < k)%nat → names !! i = Some row → row !! j = Some x →
    connections (rn cfg) !! end_name x = Some (Some (server_name (Z.of_nat j)));
  bu_server j : (j < k)%nat → is_Some (server_of (rn cfg) (server_name (Z.of_nat j)));
  bu_reliable : reliable (rn cfg) = true;
}.

Lemma built_new m names : 0 <= m → built m names 0 (new_config m).
Proof.
  intros Hm. split; try done; try (intros; lia).
  - unfold sized, go_len; cbn. rewrite !length_replicate. lia.
  - intros i _ Hi. cbn. apply lookup_replicate. split; [done|lia].
Qed.

Lemma server_of_add (s : LSys) (i j : Z) svcs :
  server_of (net (add_server s (server_name i) svcs)) (server_name j) = if decide (j = i) then Some (fresh (dom (heap s))) else server_of (net s) (server_name j).
Proof.
  unfold server_of; cbn. case_decide as Hd; [subst; by rewrite lookup_insert_eq|by rewrite lookup_insert_ne by by intros [= ->]].
Qed.

Lemma built_step m names k row cfg :
  0 <= m → built m names k cfg → NoDup (concat names) → names !! k = Some row → Z.of_nat k < m →
  (∀ i p, is_Some (start i p MakePersister)) →
  ∃ cfg', StartServer start services_of cfg (Z.of_nat k) row = Some cfg' ∧ built m names (S k) cfg'.
Proof.
  intros Hm [Hn Hsz Hrow Hnew Hends Hconn Hsrv Hrel] Hnd Hk Hkm Hstart.
  assert (concat names = concat (take k names) ++ row ++ concat (drop (S k) names)) as Hcat.
  { rewrite <- (take_drop_middle _ _ _ Hk) at 1. by rewrite concat_app. }
  rewrite Hcat in Hnd. apply NoDup_app in Hnd as (_ & Hdis & Hnd). apply NoDup_app in Hnd as (Hndr & _ & _).
  assert (∀ x, x ∈ row → end_name x ∉ ends (rn cfg)) as Hfr.
  { intros x Hx. rewrite Hends, elem_of_list_to_set. intros (y & [= <-] & Hy)%list_elem_of_fmap.
    apply (Hdis x Hy), elem_of_app. auto. }
  destruct (make_ends_spec (rn cfg) row 0 server_name Hndr Hfr) as (r & Hr & Hre & _ & Hrc & Hrc' & Hrs & Hrr).
  destruct (Hstart (Z.of_nat k) (fresh (dom (persisters cfg)))) as [srv Hs].
  assert (content cfg (Z.of_nat k) = Some MakePersister) as Hc.
  { unfold content. rewrite go_index_nat, (Hnew k) by lia. done. }
  destruct (StartServer_eq cfg (Z.of_nat k) row MakePersister srv) as (r' & Hr' & Heq); [done|lia|done..|].
  rewrite Hr in Hr'. injection Hr' as <-. eexists. split; [exact Heq|]. destruct Hsz as (He & Hsv & Hkv).
  unfold go_len in *.
  assert (take (S k) names = take k names ++ [row]) as Htake by by apply take_S_r.
  split; cbn; rewrite ?Nat2Z.id.
  - done.
  - unfold sized, go_len; cbn. by rewrite !length_insert.
  - intros i Hi. destruct (decide (i = k)) as [->|Hne].
    + exists row. split; [done|]. apply list_lookup_insert_eq. lia.
    + rewrite list_lookup_insert_ne by done. apply Hrow. lia.
  - intros i Hi Him. rewrite list_lookup_insert_ne by lia. apply Hnew; lia.
  - rewrite Hre, Hends, Htake, concat_app, fmap_app, list_to_set_app_L. cbn. rewrite app_nil_r. set_solver.
  - intros i row' j x Hi Hri Hx. destruct (decide (x ∈ row)) as [Hin|Hnin].
    + destruct (decide (i = k)) as [->|Hne].
      * rewrite Hk in Hri. injection Hri as <-. by apply Hrc.
      * exfalso. apply (Hdis x); [|by apply elem_of_app; left].
        apply list_elem_of_In, in_concat. exists row'. split; apply list_elem_of_In; [|by eapply list_elem_of_lookup_2].
        eapply (list_elem_of_lookup_2 _ i). rewrite lookup_take_lt; [done|lia].
    + rewrite Hrc'. { eapply Hconn; [|exact Hri|exact Hx]. destruct (decide (i = k)) as [->|]; [|lia].
        rewrite Hk in Hri. injection Hri as <-. by apply list_elem_of_lookup_2 in Hx. }
      rewrite (list_elem_of_fmap_inj end_name). done.
  - intros j Hj.
    change (is_Some (server_of (net (add_server (MkSys r (heap (sys cfg))) (server_name (Z.of_nat k)) (services_of srv))) (server_name (Z.of_nat j)))).
    rewrite server_of_add. case_decide as Hd; [by eexists|].
    unfold server_of. cbn. rewrite Hrs. apply Hsrv. lia.
  - by rewrite Hrr.
Qed.

Lemma concat_position {A} (ls : list (list A)) (i j i' j' : nat) r r' x :
  NoDup (concat ls) → ls !! i = Some r → r !! j = Some x → ls !! i' = Some r' → r' !! j' = Some x → i = i' ∧ j = j'.
Proof.
  revert i i'. induction ls as [|l ls IH]; intros i i' Hnd Hi Hj Hi' Hj'; [done|].
  cbn in Hnd. apply NoDup_app in Hnd as (Hl & Hdis & Hls).
  assert (∀ (k : nat) r2 (y : nat), ls !! k = Some r2 → r2 !! y = Some x → x ∈ concat ls) as Hin.
  { intros k r2 y Hk Hy. apply list_elem_of_In, in_concat. exists r2. split; apply list_elem_of_In; by eapply list_elem_of_lookup_2. }
  destruct i as [|i], i' as [|i']; cbn in *; simplify_eq.
  - split; [done|]. exact (NoDup_lookup _ _ _ _ Hl Hj Hj').
  - exfalso. apply (Hdis x); [by eapply list_elem_of_lookup_2|by eapply Hin].
  - exfalso. apply (Hdis x); [by eapply list_elem_of_lookup_2|by eapply Hin].
  - destruct (IH i i') as [-> ->]; done.
Qed.

Lemma built_endname m names cfg i j x : built m names (Z.to_nat m) cfg → 0 <= i < m → endname cfg i j = Some x →
  ∃ row, names !! Z.to_nat i = Some row ∧ row !! Z.to_nat j = Some x ∧ 0 <= j.
Proof.
  intros Hb Hi Hx. destruct (bu_row _ _ _ _ Hb (Z.to_nat i) ltac:(lia)) as (row & Hr & He). unfold endname in Hx.
  rewrite <- (Z2Nat.id i), go_index_nat, He in Hx by lia. cbn in Hx. apply go_index_lookup in Hx as [? Hx]. eauto.
Qed.

Lemma endname_range m names cfg i j x : built m names (Z.to_nat m) cfg → endname cfg i j = Some x → 0 <= i < m.
Proof.
  intros Hb Hx. unfold endname in Hx. destruct (go_index (endnames cfg) i) as [row|] eqn:E; [|done].
  assert (is_Some (go_index (endnames cfg) i)) as Hi%go_index_is_Some by by eexists.
  destruct (bu_sized _ _ _ _ Hb) as [Hl _]. rewrite (bu_n _ _ _ _ Hb) in Hl. lia.
Qed.

Lemma built_wired m names cfg : 0 <= m → go_len names = m → (∀ row, row ∈ names → go_len row = m) →
  NoDup (concat names) → built m names (Z.to_nat m) cfg → wired cfg.
Proof.
  intros Hm Hlen Hrows Hnd Hb. split; rewrite ?(bu_n _ _ _ _ Hb); [done| |].
  - intros i Hi. destruct (bu_row _ _ _ _ Hb (Z.to_nat i) ltac:(lia)) as (row & Hr & He). exists row.
    split; [|apply Hrows; by eapply list_elem_of_lookup_2]. by rewrite <- (Z2Nat.id i), go_index_nat by lia.
  - intros i j i' j' x H1 H2. pose proof (endname_range _ _ _ _ _ _ Hb H1). pose proof (endname_range _ _ _ _ _ _ Hb H2).
    destruct (built_endname _ _ _ i j x Hb ltac:(done) H1) as (r1 & Hr1 & Hx1 & ?).
    destruct (built_endname _ _ _ i' j' x Hb ltac:(done) H2) as (r2 & Hr2 & Hx2 & ?).
    destruct (concat_position _ _ _ _ _ _ _ _ Hnd Hr1 Hx1 Hr2 Hx2). lia.
Qed.

(** [make_config] connects everybody: with random names that do not repeat, the network it
    sets up has for every two servers an enabled end from the one to the other, and
    all servers are there. *)
Theorem make_config_connects m unreliable names :
  0 <= m → go_len names = m → (∀ row, row ∈ names → go_len row = m) → NoDup (concat names) →
  (∀ i p, is_Some (start i p MakePersister)) →
  ∃ cfg, make_config start services_of m unreliable names = Some cfg ∧ wired cfg ∧ n cfg = m
    ∧ reliable (rn cfg) = negb unreliable
    ∧ ∀ i j, 0 <= i < m → 0 <= j < m → ∃ x, endname cfg i j = Some x ∧
        let info := readEndnameInfo (rn cfg) (end_name x) in
        i_enabled info = true ∧ i_servername info = Some (server_name j) ∧ is_Some (i_server info).
Proof.
  intros Hm Hlen Hrows Hnd Hstart. unfold make_config. unfold go_len in Hlen.
  destruct (foldM_inv (λ cfg p, StartServer start services_of cfg p.1 p.2) (λ seen cfg, built m names (length seen) cfg)
    (zip (seqZ 0 m) names) (new_config m)) as (cfg & -> & Hb); [by apply built_new|..].
  { intros seen [i row] rest cfg Heq Hb. cbn [fst snd].
    assert (zip (seqZ 0 m) names !! length seen = Some (i, row)) as Hz by (rewrite Heq; by apply list_lookup_middle).
    apply lookup_zip_Some in Hz as [Hi Hr]. apply lookup_seqZ in Hi as [-> Hi]. rewrite Z.add_0_l.
    destruct (built_step m names (length seen) row cfg) as (cfg' & Hs & Hb'); [done..|lia|done|].
    exists cfg'. split; [done|]. rewrite length_app; cbn. by rewrite Nat.add_1_r. }
  rewrite length_zip, length_seqZ in Hb. rewrite (Nat.min_l _ _) in Hb by lia. cbn [mbind option_bind].
  pose proof (built_wired m names cfg Hm Hlen Hrows Hnd Hb) as Hw. pose proof (bu_n _ _ _ _ Hb) as Hn.
  destruct (ConnectAll_up cfg Hw) as (cfg' & -> & Hsame & (_ & Hc & Hs & _) & Hup). cbn [mbind option_bind].
  eexists. split; [done|]. split_and!; cbn; try done.
  - rewrite Hsame. destruct Hw. by split.
  - by rewrite Hsame.
  - intros i j Hi Hj. destruct (endname_Some cfg i j Hw) as [x Hx]; [lia|lia|]. exists x.
    split; [by rewrite Hsame|]. specialize (Hup i j ltac:(lia) ltac:(lia)). unfold up in Hup.
    assert (endname cfg' i j = Some x) as Hx' by by rewrite Hsame. rewrite Hx' in Hup. cbn in Hup.
    destruct (built_endname _ _ _ _ _ _ Hb Hi Hx) as (row & Hr & Hxr & _).
    pose proof (bu_conn _ _ _ _ Hb (Z.to_nat i) row (Z.to_nat j) x ltac:(lia) Hr Hxr) as Hco.
    rewrite Z2Nat.id in Hco by lia. unfold readEndnameInfo, rn in *; cbn. rewrite Hc. cbn in Hco. rewrite Hco. cbn. split_and!; [exact Hup|done|].
    destruct (bu_server _ _ _ _ Hb (Z.to_nat j) ltac:(lia)) as [p Hp]. rewrite Z2Nat.id in Hp by lia.
    exists p. unfold server_of in *. cbn. by rewrite Hs.
Qed.
End servers.

(** ** Shutting down *)

Section shutdown.
Context `{!GoTypes} {Srv : Type}.
Implicit Types (cfg : config Srv).

Lemma copy_saved_keep cfg i :
  0 <= i < go_len (saved cfg) → (∀ p, go_index (saved cfg) i = Some (Some p) → is_Some (persisters cfg !! p)) →
  ∃ cfg' p, copy_saved cfg i false = Some (cfg', p) ∧ sys cfg' = sys cfg ∧ n cfg' = n cfg ∧ endnames cfg' = endnames cfg
    ∧ kvservers cfg' = kvservers cfg ∧ go_len (saved cfg') = go_len (saved cfg) ∧ content cfg' i = content cfg i
    ∧ ((∀ j p, go_index (saved cfg) j = Some (Some p) → is_Some (persisters cfg !! p)) →
       ∀ j p, go_index (saved cfg') j = Some (Some p) → is_Some (persisters cfg' !! p)).
Proof.
  intros Hi Hps. unfold copy_saved, content.
  destruct (go_index_lt (saved cfg) i Hi) as [[q|] Hq]; rewrite Hq; cbn [mbind option_bind].
  - destruct (Hps q Hq) as [c Hc]. rewrite Hc. cbn [fmap option_fmap option_map mbind option_bind].
    rewrite go_update_eq by lia. eexists _, _. split; [done|]. cbn. split_and!; try done.
    + unfold go_len. by rewrite length_insert.
    + rewrite go_index_insert, decide_True by (done || lia). cbn. by rewrite lookup_insert_eq, Copy_id.
    + intros Hall j p Hj. assert (0 <= j) by (apply go_index_lookup in Hj as [? _]; done). rewrite go_index_insert in Hj by done.
      apply lookup_insert_is_Some'. case_decide; [injection Hj as <-; by left|right; by eapply Hall].
  - eexists _, _. split; [done|]. rewrite Hq. by split_and!.
Qed.

(** A server that was shut down is cut off from all others and from the clerks; what
    it had saved is kept. *)
Theorem shutdown_isolates cfg i :
  wired cfg → sized cfg → 0 <= i < n cfg → (∀ p, go_index (saved cfg) i = Some (Some p) → is_Some (persisters cfg !! p)) →
  ∃ cfg', ShutdownServer cfg i = Some cfg' ∧ wired cfg'
    ∧ (∀ a b, 0 <= a < n cfg → 0 <= b < n cfg → up cfg' a b = (if decide (a = i ∨ b = i) then false else up cfg a b))
    ∧ (∀ e p, isServerDead (rn cfg') e (server_name i) p = true)
    ∧ content cfg' i = content cfg i ∧ go_index (kvservers cfg') i = Some None.
Proof.
  intros Hw Hsz Hi Hps. assert (∀ j, j ∈ All cfg ↔ 0 <= j < n cfg) as Hin by (intros j; unfold All; rewrite elem_of_seqZ; lia).
  destruct (disconnectUnlocked_sets cfg i (All cfg)) as (cfg1 & Hd & H1); [done|done|intros; by apply Hin|..].
  { unfold All, go_len. rewrite length_seqZ. lia. }
  unfold ShutdownServer. rewrite Hd. cbn [mbind option_bind].
  assert (cfg1 = set_rn cfg (rn cfg1)) as Hs by apply H1. destruct Hsz as (He & Hsv & Hkv).
  set (cfg2 := set_rn cfg1 _).
  destruct (copy_saved_keep cfg2 i) as (cfg3 & p & -> & Hy3 & Hn3 & Hen3 & Hk3 & _ & Hc3 & _).
  { unfold cfg2. rewrite Hs. cbn. lia. }
  { unfold cfg2. rewrite Hs. exact Hps. }
  assert (n cfg2 = n cfg ∧ endnames cfg2 = endnames cfg ∧ kvservers cfg2 = kvservers cfg ∧ content cfg2 i = content cfg i)
    as (En & Ee & Ek & Ec) by (unfold cfg2; rewrite Hs; done).
  rewrite En in Hn3. rewrite Ee in Hen3. rewrite Ek in Hk3. rewrite Ec in Hc3.
  cbn [mbind option_bind]. unfold set_server. rewrite Hk3, go_update_eq by lia. cbn [mbind option_bind].
  eexists. split; [done|]. split_and!.
  - destruct Hw as [? Hr Hj]. split; cbn; unfold endname; cbn; rewrite ?Hen3, ?Hn3; done.
  - intros a b Ha Hb. assert (∀ c, up (MkConfig (sys cfg3) (n cfg3) c (saved cfg3) (persisters cfg3) (endnames cfg3) (clerks cfg3) (nextClientId cfg3)) a b = up cfg1 a b) as ->.
    { intros c. unfold up, endname, rn; cbn. rewrite Hen3, Hy3. unfold cfg2; cbn. by rewrite Hs. }
    case_decide as Hd'.
    + apply (st_set _ _ _ _ H1); [done|done|]. rewrite !Hin. naive_solver.
    + apply (st_keep _ _ _ _ H1); [done|done|]. naive_solver.
  - intros e q. unfold isServerDead, rn; cbn. rewrite Hy3. cbn. unfold server_of; cbn. rewrite lookup_insert_eq. cbn.
    by rewrite orb_true_r.
  - done.
  - cbn. rewrite go_index_insert, decide_True by (done || lia). done.
Qed.
End shutdown.

(** ** [make_partition] *)

(** The halves, one after the other, are filled with the servers other than [l]. *)
Record filled (h1 h2 l : Z) (seen : list Z) (a : list Z * list Z * Z) : Prop := {
  fl_1 : go_len a.1.1 = h1;
  fl_2 : go_len a.1.2 = h2;
  fl_count : a.2 = go_len (filter (λ i, i ≠ l) seen);
  fl_take : take (Z.to_nat a.2) (a.1.1 ++ a.1.2) = filter (λ i, i ≠ l) seen;
}.

Lemma take_insert_next {A} (q : list A) (j : nat) x : (j < length q)%nat → take (S j) (<[j := x]> q) = take j q ++ [x].
Proof.
  intros Hj. rewrite (take_S_r _ _ x) by by apply list_lookup_insert_eq. by rewrite take_insert_ge by done.
Qed.

Lemma partition_step_fills h1 h2 l seen i a :
  filled h1 h2 l seen a → (i ≠ l → a.2 < h1 + h2) → ∃ a', partition_step l a i = Some a' ∧ filled h1 h2 l (seen ++ [i]) a'.
Proof.
  destruct a as [[p1 p2] j]. intros [H1 H2 Hc Ht] Hj. cbn in *. unfold partition_step.
  assert (filter (λ i, i ≠ l) (seen ++ [i]) = filter (λ i, i ≠ l) seen ++ (if decide (i = l) then [] else [i])) as Hf.
  { rewrite filter_app, filter_cons, filter_nil. f_equal. case_decide; case_decide; tauto. }
  destruct (Z.eqb_spec i l) as [->|Hne].
  { eexists. split; [done|]. split; cbn; rewrite ?Hf, ?decide_True, ?app_nil_r by done; done. }
  rewrite decide_False in Hf by done. specialize (Hj Hne). pose proof (go_len_nonneg (filter (λ i, i ≠ l) seen)).
  assert (Z.to_nat j < length (p1 ++ p2))%nat as Hlt by (unfold go_len in *; rewrite length_app; lia).
  pose proof (take_insert_next (p1 ++ p2) (Z.to_nat j) i Hlt) as Hins. rewrite Ht in Hins.
  assert (go_len (filter (λ i, i ≠ l) (seen ++ [i])) = j + 1) as Hc' by (rewrite Hf, go_len_app; change (go_len [i]) with 1; lia).
  destruct (Z.ltb_spec j (go_len p1)).
  - rewrite go_update_eq by lia. eexists. split; [done|]. unfold go_len in *.
    split; cbn; unfold go_len; rewrite ?length_insert; try lia.
    replace (Z.to_nat (j + 1)) with (S (Z.to_nat j)) by lia. rewrite Hf, <- Hins. by rewrite insert_app_l by lia.
  - rewrite go_update_eq by lia. eexists. split; [done|]. unfold go_len in *.
    split; cbn; unfold go_len; rewrite ?length_insert; try lia.
    replace (Z.to_nat (j + 1)) with (S (Z.to_nat j)) by lia. rewrite Hf, <- Hins.
    rewrite insert_app_r_alt by lia. by replace (Z.to_nat (j - Z.of_nat (length p1))) with (Z.to_nat j - length p1)%nat by lia.
Qed.

Lemma filter_keeps {A} (P : A → Prop) `{!∀ x, Decision (P x)} (l : list A) : (∀ x, x ∈ l → P x) → filter P l = l.
Proof.
  induction l as [|x l IH]; intros Hl; [done|]. rewrite filter_cons, decide_True by (apply Hl; by left).
  rewrite IH; [done|]. intros y Hy. apply Hl. by right.
Qed.

(** With an odd number of servers, three or more, [make_partition] puts the leader into
    the smaller of two parts that together have every server once. *)
Theorem make_partition_correct m l :
  0 <= l < m → 3 <= m → Z.odd m = true →
  ∃ p1 p2, partition_around m l = Some (p1, p2) ∧ p1 ++ p2 ≡ₚ seqZ 0 m ∧ l ∈ p2 ∧ go_len p1 = go_len p2 + 1.
Proof.
  intros Hl Hm Hodd. set (h := m `div` 2). assert (m = 2 * h + 1) as Hh.
  { rewrite (Z.div_mod m 2) at 1 by lia. rewrite Zmod_odd, Hodd. done. }
  unfold partition_around. rewrite Z.quot_div_nonneg by lia. fold h.
  assert (filter (λ i, i ≠ l) (seqZ 0 m) ++ [l] ≡ₚ seqZ 0 m) as Hothers.
  { destruct (proj1 (elem_of_Permutation (seqZ 0 m) l)) as [r Hr]; [apply elem_of_seqZ; lia|].
    pose proof (NoDup_seqZ 0 m) as Hnd. rewrite Hr in Hnd. apply NoDup_cons in Hnd as [Hnin _].
    rewrite Hr, filter_cons, decide_False by tauto. rewrite filter_keeps by (intros x Hx ->; done). by rewrite Permutation_app_comm. }
  assert (S (length (filter (λ i, i ≠ l) (seqZ 0 m))) = Z.to_nat m) as Hlen.
  { apply Permutation_length in Hothers. rewrite length_app, length_seqZ in Hothers. cbn in Hothers. lia. }
  destruct (foldM_inv (partition_step l) (filled (h + 1) h l) (seqZ 0 m)
    (replicate (Z.to_nat (h + 1)) 0, replicate (Z.to_nat h) 0, 0)) as ([[p1 p2] j] & -> & [H1 H2 Hc Ht]).
  - split; cbn; unfold go_len; rewrite ?length_replicate; first [done|lia].
  - intros seen i rest a Heq Ha. apply partition_step_fills; [done|]. intros Hne. rewrite (fl_count _ _ _ _ _ Ha).
    rewrite Heq, filter_app, filter_cons, decide_True, length_app in Hlen by done. cbn in Hlen. unfold go_len. lia.
  - cbn in *. unfold go_len in *. rewrite go_update_eq by (unfold go_len; lia). cbn. eexists _, _. split; [done|].
    assert (p1 ++ <[Z.to_nat (Z.of_nat (length p2) - 1) := l]> p2 = filter (λ i, i ≠ l) (seqZ 0 m) ++ [l]) as Heq.
    { rewrite <- Ht. rewrite <- (take_insert_next (p1 ++ p2)) by (rewrite length_app; lia).
      rewrite take_ge by (rewrite length_insert, length_app; lia). rewrite insert_app_r_alt by lia. do 2 f_equal. lia. }
    split_and!; [by rewrite Heq| |by rewrite length_insert; lia].
    eapply (list_elem_of_lookup_2 _ (Z.to_nat (Z.of_nat (length p2) - 1))). apply list_lookup_insert_eq. lia.
Qed.

(** With an even number server 0 is in both parts. *)
Lemma make_partition_even : partition_around 4 3 = Some ([0; 1; 2], [0; 3]).
Proof. reflexivity. Qed.

(** [disconnect] looks at the wrong row: while server 0 has not been started, cutting
    servers 1 and 2 off from each other leaves the end from 2 to 1 as it was. *)
Lemma disconnect_wrong_row `{!GoTypes} :
  let cfg := set_rn (MkConfig (MkSys MakeNetwork ∅) 3 [None; Some tt; Some tt] [None; None; None] ∅
                       [None; Some ["a"; "b"; "c"]%string; Some ["d"; "e"; "f"]%string] ∅ 0)
               (enables true MakeNetwork ["c"; "e"]%string) in
  up cfg 2 1 = true ∧ (λ cfg', (up cfg' 1 2, up cfg' 2 1)) <$> disconnectUnlocked cfg 1 [2] = Some (false, true).
Proof. split; reflexivity. Qed.

(** Three servers, divided into two and one *)
Lemma partition_connectivity_witness :
  ∃ cfg cfg', @make_config int_types unit (λ _ _ _, Some tt) (λ _, []) 3 true
      [["a"; "b"; "c"]; ["d"; "e"; "f"]; ["g"; "h"; "i"]]%string = Some cfg
    ∧ partition cfg [0; 2] [1] = Some cfg' ∧ up cfg' 0 2 = true ∧ ¬ up cfg' 1 2 = true.
Proof.
  destruct (@make_config_connects int_types unit (λ _ _ _, Some tt) (λ _, []) 3 true
    [["a"; "b"; "c"]; ["d"; "e"; "f"]; ["g"; "h"; "i"]]%string) as (cfg & Hmk & Hw & Hn & _).
  - lia.
  - done.
  - intros row Hrow. repeat (apply elem_of_cons in Hrow as [->|Hrow]; [done|]). by apply elem_of_nil in Hrow.
  - by apply (bool_decide_eq_true_1 (NoDup (concat [["a"; "b"; "c"]; ["d"; "e"; "f"]; ["g"; "h"; "i"]]%string))).
  - by intros; eexists.
  - exists cfg. destruct (partition_connectivity cfg [0; 2] [1] Hw) as (cfg' & Hp & _ & Hup & _).
    + unfold All. rewrite Hn. apply (bool_decide_eq_true_1 ([0; 2; 1] ≡ₚ seqZ 0 3)). by vm_compute.
    + rewrite Hn in Hup. exists cfg'. split_and!; [done|done| |].
      * apply Hup; [lia..|]. split; intros _; [right; by left|by left].
      * rewrite (Hup 1 2) by lia. intros [_ H2]. specialize (H2 ltac:(right; by left)).
        apply elem_of_cons in H2 as [?|?%list_elem_of_singleton]; lia.
Defined.
