(* ===== verification/RaftConfig.v ===== *)
(** * The test configuration of Raft: its network

    raft/config.go connects and disconnects peers one by one, crashes and restarts them.
    What it shares with kvraft/config.go is a [config] of [LabConfig]; it also
    remembers which peers are connected.  The part of the file that looks at logs is in
    [RaftTester]. *)

From S2P Require Import Prelude Util Labgob Labrpc LabrpcCounts LabNet RaftState LabConfig LabConfigProps.

Record rconfig `{!GoTypes} (Srv : Type) := MkRConfig {
  base : config Srv;
  connected : list bool;
}.
Arguments MkRConfig {_ Srv} _ _.
Arguments base {_ Srv} _.
Arguments connected {_ Srv} _.

Section config.
Context `{!GoTypes} {Srv : Type}.
Context (start : Z → nat → Persister → option Srv) (services_of : Srv → list Service).
Implicit Types (cfg : rconfig Srv).

(** Ends named by pairs of peers, without those whose row is nil *)
Definition existing (b : config Srv) (ps : list (Z * Z)) : option (list string) :=
  (λ ls, concat ls) <$> mapM (λ p, row ← go_index (endnames b) p.1;
                        match row with None => Some [] | Some row => e ← go_index row p.2; Some [e] end) ps.

Definition connect cfg (i : Z) : option (rconfig Srv) :=
  cn ← go_update (connected cfg) i true;
  to ← mapM (λ j, c ← go_index cn j; Some (j, c)) (All (base cfg));
  b ← connectUnlocked (base cfg) i (filter (λ p, p.2 = true) to).*1;
  Some (MkRConfig b cn).

Definition disconnect cfg (i : Z) : option (rconfig Srv) :=
  cn ← go_update (connected cfg) i false;
  let b := base cfg in
  outgoing ← existing b (pair i <$> All b);
  incoming ← existing b ((λ j, (j, i)) <$> All b);
  Some (MkRConfig (set_rn b (enables false (rn b) (outgoing ++ incoming))) cn).

(** The last four lines move what is saved into yet another persister. *)
Definition crash1 cfg (i : Z) : option (rconfig Srv) :=
  cfg ← disconnect cfg i;
  let b := base cfg in
  let b := set_rn b (DeleteServer (rn b) (server_name i)) in
  '(b, _) ← copy_saved b i false;
  b ← set_server b i None;
  '(b, _) ← copy_saved b i false;
  Some (MkRConfig b (connected cfg)).

Definition start1 cfg (i : Z) (names : list string) : option (rconfig Srv) :=
  cfg ← crash1 cfg i;
  b ← StartServer start services_of (base cfg) i names;
  Some (MkRConfig b (connected cfg)).

(** [make_config] starts every peer, then connects every peer. *)
Definition raft_make_config (m : Z) (unreliable : bool) (names : list (list string)) : option (rconfig Srv) :=
  let b := new_config m in
  let b := set_rn b (LongDelays (Reliable (rn b) (negb unreliable)) true) in
  cfg ← foldM (λ cfg p, start1 cfg p.1 p.2) (MkRConfig b (replicate (Z.to_nat m) false)) (zip (seqZ 0 m) names);
  foldM connect cfg (seqZ 0 m).

Definition rpcCount cfg (server : Z) : option Z := GetCount (sys (base cfg)) (server_name server).
Definition bytesTotal cfg : Z := GetTotalBytes (rn (base cfg)).
Definition setunreliable cfg (unrel : bool) : rconfig Srv :=
  MkRConfig (set_rn (base cfg) (Reliable (rn (base cfg)) (negb unrel))) (connected cfg).
Definition setlongreordering cfg (longrel : bool) : rconfig Srv :=
  MkRConfig (set_rn (base cfg) (LongReordering (rn (base cfg)) longrel)) (connected cfg).

Definition rpcTotal cfg : Z := GetTotalCount (rn (base cfg)).

(** [log.Fatal] is [None]; the time is in nanoseconds. *)
Definition checkTimeout (failed : bool) (started now : Z) : option unit :=
  if negb failed && (now - started >? 120 * 1000 * Millisecond) then None else Some tt.

(** [finished] is set before the peers are killed; [kill] is their method. *)
Definition checkFinished (finished : Z) : bool := negb (finished =? 0).

Definition cleanup (kill : Srv → Srv) cfg (failed : bool) (started now : Z) : option (rconfig Srv * Z) :=
  let finished := 1 in
  let rafts : list (option Srv) := (λ srv : option Srv, kill <$> srv) <$> kvservers (base cfg) in
  let b := MkConfig (sys (base cfg)) (n (base cfg)) rafts (saved (base cfg)) (persisters (base cfg)) (endnames (base cfg))
             (clerks (base cfg)) (nextClientId (base cfg)) in
  r ← Cleanup (rn b);
  _ ← checkTimeout failed started now;
  Some (MkRConfig (set_rn b r) (connected cfg), finished).

(** *** Statistics *)

Record TestStats := MkTestStats { t0 : Z; rpcs0 : Z; cmds0 : Z; bytes0 : Z; maxIndex0 : Z }.

Definition begin cfg (now maxIndex : Z) : TestStats := MkTestStats now (rpcTotal cfg) 0 (bytesTotal cfg) maxIndex.

(** The numbers that [end] prints, if any: the time, peers, RPCs, bytes, agreements *)
Definition end_ cfg (st : TestStats) (failed : bool) (started now maxIndex : Z) : option (option (Z * Z * Z * Z * Z)) :=
  _ ← checkTimeout failed started now;
  if negb failed
  then Some (Some (now - t0 st, n (base cfg), rpcTotal cfg - rpcs0 st, bytesTotal cfg - bytes0 st, maxIndex - maxIndex0 st))
  else Some None.

(** ** Who is connected with whom *)

Definition is_connected cfg (i : Z) : bool := default false (go_index (connected cfg) i).

(** Two peers reach each other exactly if both are connected. *)
Record linked cfg : Prop := {
  lk_wired : wired (base cfg);
  lk_sized : sized (base cfg);
  lk_connected : go_len (connected cfg) = n (base cfg);
  lk_up i j : 0 <= i < n (base cfg) → 0 <= j < n (base cfg) → up (base cfg) i j = is_connected cfg i && is_connected cfg j;
  lk_saved i p : go_index (saved (base cfg)) i = Some (Some p) → is_Some (persisters (base cfg) !! p);
  lk_names x i j : endname (base cfg) i j = Some x → end_name x ∈ ends (rn (base cfg));
}.

Lemma is_connected_update cfg cn b i j :
  0 <= i < go_len (connected cfg) → 0 <= j → is_connected (MkRConfig b (<[Z.to_nat i := cn]> (connected cfg))) j
  = if decide (j = i) then cn else is_connected cfg j.
Proof. intros Hi Hj. unfold is_connected; cbn. rewrite go_index_insert by done. by case_decide. Qed.

Lemma mapM_ext_elem {A B} (f g : A → option B) (l : list A) : (∀ x, x ∈ l → f x = g x) → mapM f l = mapM g l.
Proof.
  induction l as [|x l IH]; intros Hfg; [done|]. cbn. rewrite Hfg by by left. rewrite IH; [done|].
  intros y Hy. apply Hfg. by right.
Qed.

Lemma existing_names b ps names : wired b → names_of b ps names → (∀ p, p ∈ ps → 0 <= p.1 < n b) →
  existing b ps = Some names.
Proof.
  intros Hw Hn Hp. unfold existing. unfold names_of in Hn.
  assert (mapM (λ p, endname b p.1 p.2) ps = Some names) as Hm by by apply mapM_Some.
  rewrite (mapM_ext_elem _ (λ p, e ← endname b p.1 p.2; Some [e])).
  - rewrite (mapM_singletons _ _ _ Hm). cbn. by rewrite concat_singletons.
  - intros p Hin. destruct (wd_row _ Hw p.1 (Hp p Hin)) as (row & Hr & _). unfold endname. by rewrite Hr.
Qed.

Lemma linked_sets cfg b b' P cn i :
  linked cfg → 0 <= i < n (base cfg) → sets b P (base cfg) b' → (∀ a c, Decision (P a c)) →
  (∀ a c, 0 <= a < n (base cfg) → 0 <= c < n (base cfg) →
    (P a c → b = (if decide (a = i) then cn else is_connected cfg a) && (if decide (c = i) then cn else is_connected cfg c))
    ∧ (¬ P a c → is_connected cfg a && is_connected cfg c
        = (if decide (a = i) then cn else is_connected cfg a) && (if decide (c = i) then cn else is_connected cfg c))) →
  linked (MkRConfig b' (<[Z.to_nat i := cn]> (connected cfg))).
Proof.
  intros [Hw Hsz Hc Hup Hsv Hnm] Hi Hs HP Hrel. pose proof (wired_set _ _ _ _ Hs Hw) as Hw'.
  assert (b' = set_rn (base cfg) (rn b')) as He by apply Hs.
  assert (n b' = n (base cfg)) as Hn by by rewrite He.
  split; cbn; [done| | | | |].
  - rewrite He. done.
  - unfold go_len in *. rewrite length_insert. lia.
  - rewrite Hn. intros a c Ha Hc'. rewrite !is_connected_update by lia. destruct (Hrel a c Ha Hc') as [HT HF].
    destruct (HP a c) as [Hp|Hp].
    + rewrite (st_set _ _ _ _ Hs) by done. by apply HT.
    + rewrite (st_keep _ _ _ _ Hs), Hup by done. by apply HF.
  - intros j p. rewrite He. apply Hsv.
  - intros x a c. rewrite (proj1 (st_wiring _ _ _ _ Hs)). rewrite He. apply Hnm.
Qed.

Lemma mapM_connected cfg (cn : list bool) : go_len cn = n (base cfg) →
  mapM (λ j, c ← go_index cn j; Some (j, c)) (All (base cfg)) = Some ((λ j, (j, default false (go_index cn j))) <$> All (base cfg)).
Proof.
  intros Hl. assert (∀ l, (∀ j, j ∈ l → 0 <= j < n (base cfg)) →
    mapM (λ j, c ← go_index cn j; Some (j, c)) l = Some ((λ j, (j, default false (go_index cn j))) <$> l)) as Hg.
  { intros l. induction l as [|j l IH]; intros Hin; [done|]. cbn.
    destruct (go_index_lt cn j) as [c ->]; [rewrite Hl; apply Hin; by left|]. cbn.
    rewrite IH; [done|]. intros k Hk. apply Hin. by right. }
  apply Hg. intros j. unfold All. rewrite elem_of_seqZ. lia.
Qed.

Lemma connect_linked cfg i : linked cfg → 0 <= i < n (base cfg) →
  ∃ cfg', connect cfg i = Some cfg' ∧ linked cfg' ∧ n (base cfg') = n (base cfg)
    ∧ ∀ j, 0 <= j → is_connected cfg' j = (if decide (j = i) then true else is_connected cfg j).
Proof.
  intros Hl Hi. pose proof (lk_connected _ Hl) as Hlen. unfold connect. rewrite go_update_eq by lia. cbn [mbind option_bind].
  set (cn := <[Z.to_nat i := true]> (connected cfg)).
  rewrite mapM_connected by (unfold go_len, cn in *; by rewrite length_insert). cbn [mbind option_bind].
  set (to := (filter _ _).*1).
  assert (∀ j, j ∈ to ↔ 0 <= j < n (base cfg) ∧ (if decide (j = i) then true else is_connected cfg j) = true) as Hto.
  { intros j. unfold to. rewrite list_elem_of_fmap. split.
    - intros ([j' c] & -> & [Hc (k & [= -> ->] & Hk)%list_elem_of_fmap]%list_elem_of_filter). cbn in *.
      unfold All in Hk. rewrite elem_of_seqZ in Hk. split; [lia|].
      rewrite <- (is_connected_update cfg true (base cfg)) by lia. exact Hc.
    - intros [Hj Hc]. exists (j, true). split; [done|]. apply list_elem_of_filter. split; [done|]. apply list_elem_of_fmap.
      exists j. split; [|unfold All; rewrite elem_of_seqZ; lia]. f_equal. rewrite <- Hc.
      rewrite <- (is_connected_update cfg true (base cfg)) by lia. done. }
  destruct (connectUnlocked_sets (base cfg) i to (lk_wired _ Hl) Hi) as (b & -> & Hs); [intros j Hj; by apply Hto|].
  cbn [mbind option_bind]. eexists. split; [done|].
  assert (b = set_rn (base cfg) (rn b)) as He by apply Hs. split_and!; [|by cbn; rewrite He|].
  - eapply (linked_sets cfg true b _ true i Hl Hi Hs); [intros; apply _|]. intros a c Ha Hc. rewrite !Hto.
    destruct (decide (a = i)) as [->|Ha'], (decide (c = i)) as [->|Hc']; rewrite ?andb_true_r, ?andb_true_l.
    + split; [done|]. intros HP. destruct HP. by left.
    + split; [by intros [(_ & _ & ->)|(-> & _)]|]. intros HP. destruct (is_connected cfg c); [|by rewrite andb_false_r].
      destruct HP. by left.
    + split; [by intros [(-> & _)|(_ & _ & ->)]|]. intros HP. destruct (is_connected cfg a); [|done].
      destruct HP. by right.
    + split; [by intros [(-> & _)|(-> & _)]|done].
  - intros j Hj. apply is_connected_update; lia.
Qed.

Lemma disconnect_linked cfg i : linked cfg → 0 <= i < n (base cfg) →
  ∃ cfg', disconnect cfg i = Some cfg' ∧ linked cfg' ∧ (∃ r, base cfg' = set_rn (base cfg) r ∧ ends r = ends (rn (base cfg)))
    ∧ ∀ j, 0 <= j → is_connected cfg' j = (if decide (j = i) then false else is_connected cfg j).
Proof.
  intros Hl Hi. pose proof (lk_connected _ Hl) as Hlen. pose proof (lk_wired _ Hl) as Hw.
  unfold disconnect. rewrite go_update_eq by lia. cbn [mbind option_bind].
  assert (∀ j, j ∈ All (base cfg) ↔ 0 <= j < n (base cfg)) as Hin by (intros j; unfold All; rewrite elem_of_seqZ; lia).
  assert (∀ p, p ∈ pair i <$> All (base cfg) → 0 <= p.1 < n (base cfg) ∧ 0 <= p.2 < n (base cfg)) as H1.
  { intros p (j & -> & Hj%Hin)%list_elem_of_fmap. done. }
  assert (∀ p, p ∈ (λ j, (j, i)) <$> All (base cfg) → 0 <= p.1 < n (base cfg) ∧ 0 <= p.2 < n (base cfg)) as H2.
  { intros p (j & -> & Hj%Hin)%list_elem_of_fmap. done. }
  destruct (names_of_exists (base cfg) _ Hw H1) as (out & _ & Ho).
  destruct (names_of_exists (base cfg) _ Hw H2) as (inc & _ & Hc).
  rewrite (existing_names _ _ _ Hw Ho) by (intros p Hp; by apply H1). cbn [mbind option_bind].
  rewrite (existing_names _ _ _ Hw Hc) by (intros p Hp; by apply H2). cbn [mbind option_bind].
  eexists. split; [done|]. split_and!; [|eexists; split; [done|apply enables_spec]|intros j Hj; apply is_connected_update; lia].
  assert (sets false (λ a c, (a, c) ∈ links i (All (base cfg))) (base cfg)
    (set_rn (base cfg) (enables false (rn (base cfg)) (out ++ inc)))) as Hs by (apply enables_sets; [done|by apply Forall2_app]).
  eapply (linked_sets cfg false _ _ false i Hl Hi Hs); [intros; apply _|]. intros a c Ha Hc'. rewrite elem_of_links, !Hin.
  destruct (decide (a = i)) as [->|Ha'], (decide (c = i)) as [->|Hc'']; rewrite ?andb_false_r, ?andb_false_l.
  - split; [done|]. intros HP. destruct HP. by left.
  - split; [done|]. intros HP. destruct HP. by left.
  - split; [done|]. intros HP. destruct HP. by right.
  - split; [by intros [[-> _]|[-> _]]|done].
Qed.

(** Steps that do not touch the enabled ends of the peers *)
Lemma linked_rest cfg b' :
  linked cfg → n b' = n (base cfg) → endnames b' = endnames (base cfg) →
  (∀ e, is_enabled (rn b') e = is_enabled (rn (base cfg)) e) → ends (rn b') = ends (rn (base cfg)) →
  go_len (saved b') = n (base cfg) → go_len (kvservers b') = n (base cfg) →
  (∀ j p, go_index (saved b') j = Some (Some p) → is_Some (persisters b' !! p)) →
  linked (MkRConfig b' (connected cfg)).
Proof.
  intros [[? Hr Hi] (He & _ & _) Hc Hup _ Hnm] Hn Hen Hon Hends Hsv Hkv Hps.
  assert (endname b' = endname (base cfg)) as Hee by (unfold endname; by rewrite Hen).
  split; cbn; [split; rewrite ?Hn, ?Hen, ?Hee; done|split_and!; congruence|congruence| |done|].
  - intros a c. rewrite Hn. intros Ha Hc'. transitivity (up (base cfg) a c); [|by apply Hup]. unfold up. rewrite Hee.
    destruct (endname _ a c); [apply Hon|done].
  - intros x a c. rewrite Hee, Hends. apply Hnm.
Qed.

Lemma crash1_linked cfg i : linked cfg → 0 <= i < n (base cfg) →
  ∃ cfg', crash1 cfg i = Some cfg' ∧ linked cfg' ∧ n (base cfg') = n (base cfg)
    ∧ endnames (base cfg') = endnames (base cfg) ∧ ends (rn (base cfg')) = ends (rn (base cfg))
    ∧ content (base cfg') i = content (base cfg) i
    ∧ ∀ j, 0 <= j → is_connected cfg' j = (if decide (j = i) then false else is_connected cfg j).
Proof.
  intros Hl Hi. destruct (disconnect_linked cfg i Hl Hi) as (cfg1 & Hd & Hl1 & (r & Hb & Hr) & Hcn).
  unfold crash1. rewrite Hd. cbn [mbind option_bind]. set (b1 := set_rn (base cfg1) _).
  assert (n (base cfg1) = n (base cfg) ∧ endnames (base cfg1) = endnames (base cfg) ∧ content (base cfg1) i = content (base cfg) i
    ∧ saved (base cfg1) = saved (base cfg)) as (En & Ee & Ec & Es) by (rewrite Hb; done).
  destruct (lk_sized _ Hl1) as (Le & Ls & Lk). rewrite En in *.
  destruct (copy_saved_keep b1 i) as (b2 & p2 & -> & Hy2 & Hn2 & Hen2 & Hk2 & Hs2 & Hc2 & Hp2).
  { unfold b1; cbn. lia. }
  { apply (lk_saved _ Hl1). }
  cbn [mbind option_bind]. unfold set_server. rewrite go_update_eq by (rewrite Hk2; unfold b1; cbn; lia). cbn [mbind option_bind].
  set (b3 := MkConfig _ _ _ _ _ _ _ _).
  destruct (copy_saved_keep b3 i) as (b4 & p4 & -> & Hy4 & Hn4 & Hen4 & Hk4 & Hs4 & Hc4 & Hp4).
  { unfold b3; cbn. rewrite Hs2. unfold b1; cbn. lia. }
  { apply Hp2. apply (lk_saved _ Hl1). }
  cbn [mbind option_bind]. eexists. split; [done|].
  assert (rn b4 = DeleteServer (rn (base cfg1)) (server_name i)) as Hrn.
  { unfold rn. rewrite Hy4. unfold b3; cbn. rewrite Hy2. done. }
  assert (endnames b4 = endnames (base cfg1)) as Hen by by rewrite Hen4; unfold b3; cbn; rewrite Hen2.
  assert (n b4 = n (base cfg)) as Hn by by rewrite Hn4; unfold b3; cbn; rewrite Hn2; unfold b1; cbn.
  split_and!; cbn; try done.
  - apply linked_rest; try done; rewrite ?Hrn, ?En; try done.
    + rewrite Hs4. unfold b3; cbn. rewrite Hs2. unfold b1; cbn. lia.
    + rewrite Hk4. unfold b3; cbn. unfold go_len. rewrite length_insert, Hk2. unfold b1; cbn. unfold go_len in Lk. lia.
    + apply Hp4. apply Hp2. apply (lk_saved _ Hl1).
  - by rewrite Hen.
  - rewrite Hrn. cbn. by rewrite Hb.
  - rewrite Hc4. unfold b3, content in *; cbn in *. rewrite Hc2, <- Ec. done.
Qed.

(** The new ends of a peer that is started again are not enabled. *)
Lemma start1_linked cfg i names :
  linked cfg → 0 <= i < n (base cfg) → go_len names = n (base cfg) → NoDup names →
  (∀ x, x ∈ names → end_name x ∉ ends (rn (base cfg))) → (∀ p ps, is_Some (start i p ps)) →
  ∃ cfg', start1 cfg i names = Some cfg' ∧ linked cfg' ∧ n (base cfg') = n (base cfg)
    ∧ ∀ j, 0 <= j → is_connected cfg' j = (if decide (j = i) then false else is_connected cfg j).
Proof.
  intros Hl Hi Hlen Hnd Hfr Hstart. destruct (crash1_linked cfg i Hl Hi) as (cfg1 & Hc & Hl1 & Hn & Hen & Hends & _ & Hcn).
  unfold start1. rewrite Hc. cbn [mbind option_bind]. rewrite <- Hn, <- Hends in *.
  assert (∃ c, content (base cfg1) i = Some c) as [c Hcon].
  { unfold content. destruct (lk_sized _ Hl1) as (_ & Ls & _). destruct (go_index_lt (saved (base cfg1)) i) as [old Ho]; [lia|].
    rewrite Ho. cbn. destruct old as [p|]; [by destruct (lk_saved _ Hl1 i p Ho) as [c ->]; exists c|by eexists]. }
  destruct (Hstart (fresh (dom (persisters (base cfg1)))) c) as [srv Hsrv].
  destruct (StartServer_eq start services_of (base cfg1) i names c srv (lk_sized _ Hl1) Hi Hnd Hfr Hcon Hsrv) as (r & Hr & ->).
  destruct (make_ends_spec (rn (base cfg1)) names 0 server_name Hnd Hfr) as (r' & Hr' & Hre & Hron & _ & _ & _ & _).
  rewrite Hr in Hr'. injection Hr' as <-. cbn [mbind option_bind]. eexists. split; [done|]. split_and!; [|done|exact Hcn].
  destruct Hl1 as [[Hn0 Hrow Hinj] (Le & Ls & Lk) Lc Hup Hsv Hnm]. cbn [base connected].
  set (b := MkConfig _ _ _ _ _ _ _ _).
  assert (∀ a j, 0 <= a → endname b a j = if decide (a = i) then go_index names j else endname (base cfg1) a j) as Hee.
  { intros a j Ha. unfold endname, b; cbn. rewrite go_index_insert by lia. by case_decide. }
  assert (∀ a j x, endname b a j = Some x → 0 <= a) as Hpos.
  { intros a j x Hx. unfold endname in Hx. destruct (go_index (endnames b) a) eqn:E; [|done]. by apply go_index_lookup in E as [? _]. }
  assert (∀ j x, go_index names j = Some x → x ∈ names) as Hnin.
  { intros j x [_ Hx]%go_index_lookup. by eapply list_elem_of_lookup_2. }
  assert (∀ e, is_enabled (rn b) e = is_enabled r e) as Hon by done.
  split; cbn [base connected].
  - split; [done| |].
    + intros a Ha. unfold b; cbn. rewrite go_index_insert by lia. case_decide; [by exists names|by apply Hrow].
    + intros a j a' j' x H1 H2. pose proof (Hpos _ _ _ H1). pose proof (Hpos _ _ _ H2). rewrite Hee in H1, H2 by done.
      destruct (decide (a = i)) as [->|Hne], (decide (a' = i)) as [->|Hne'].
      * split; [done|]. apply go_index_lookup in H1 as [? H1], H2 as [? H2]. pose proof (NoDup_lookup _ _ _ _ Hnd H1 H2). lia.
      * exfalso. eapply Hfr; [by eapply Hnin|by eapply Hnm].
      * exfalso. eapply Hfr; [by eapply Hnin|by eapply Hnm].
      * by eapply Hinj.
  - unfold sized, go_len, b in *; cbn. by rewrite !length_insert.
  - done.
  - intros a j Ha Hj. change (0 <= a < n (base cfg1)) in Ha. change (0 <= j < n (base cfg1)) in Hj.
    change (is_connected (MkRConfig b (connected cfg1)) ?x) with (is_connected cfg1 x). unfold up. rewrite Hee by lia.
    assert (is_connected cfg1 i = false) as Hci by (rewrite Hcn, decide_True by (done || lia); done).
    destruct (decide (a = i)) as [->|Hne].
    + rewrite Hci. cbn. destruct (go_index names j) as [x|] eqn:E; [|done]. cbn. rewrite Hon, Hron, decide_True; [done|].
      rewrite (list_elem_of_fmap_inj end_name). by eapply Hnin.
    + rewrite <- Hup by done. unfold up. destruct (endname (base cfg1) a j) as [x|] eqn:E; [|done]. cbn. rewrite Hon, Hron, decide_False; [done|].
      rewrite (list_elem_of_fmap_inj end_name). intros Hx. by apply (Hfr x), (Hnm x a j).
  - intros j p Hj. unfold b in *; cbn in *. assert (0 <= j) by (apply go_index_lookup in Hj as [? _]; done).
    rewrite go_index_insert in Hj by lia. apply lookup_insert_is_Some'. case_decide; [injection Hj as <-; by left|right; by eapply Hsv].
  - intros x a j Hx. pose proof (Hpos _ _ _ Hx). rewrite Hee in Hx by done. change (ends (rn b)) with (ends r). rewrite Hre.
    apply elem_of_union. case_decide; [left|right; by eapply Hnm].
    rewrite elem_of_list_to_set, (list_elem_of_fmap_inj end_name). by eapply Hnin.
Qed.

Inductive NetAction :=
  | NConnect (i : Z)
  | NDisconnect (i : Z)
  | NCrash (i : Z)
  | NStart (i : Z) (names : list string).

Definition net_act cfg (act : NetAction) : option (rconfig Srv) :=
  match act with
  | NConnect i => connect cfg i
  | NDisconnect i => disconnect cfg i
  | NCrash i => crash1 cfg i
  | NStart i names => start1 cfg i names
  end.

(** The peer exists, and the names of new ends are new. *)
Definition net_act_ok cfg (act : NetAction) : Prop :=
  match act with
  | NConnect i | NDisconnect i | NCrash i => 0 <= i < n (base cfg)
  | NStart i names => 0 <= i < n (base cfg) ∧ go_len names = n (base cfg) ∧ NoDup names
      ∧ ∀ x, x ∈ names → end_name x ∉ ends (rn (base cfg))
  end.

(** Whatever the tests do to peers, afterwards two peers reach each other exactly if
    both are connected. *)
Theorem net_act_linked cfg act :
  linked cfg → net_act_ok cfg act → (∀ i p ps, is_Some (start i p ps)) →
  ∃ cfg', net_act cfg act = Some cfg' ∧ linked cfg'.
Proof.
  intros Hl Hok Hst. destruct act as [i|i|i|i names]; cbn in *.
  - destruct (connect_linked cfg i Hl Hok) as (cfg' & ? & ? & _). by exists cfg'.
  - destruct (disconnect_linked cfg i Hl Hok) as (cfg' & ? & ? & _). by exists cfg'.
  - destruct (crash1_linked cfg i Hl Hok) as (cfg' & ? & ? & _). by exists cfg'.
  - destruct Hok as (? & ? & ? & ?). destruct (start1_linked cfg i names Hl) as (cfg' & ? & ? & _); try done. by exists cfg'.
Qed.
End config.

(** ** Statistics of a test *)

Section statistics.
Context `{!GoTypes, !GoLaws} {Srv : Type}.
Implicit Types (cfg : rconfig Srv) (w : World (Name := net_name)).

Lemma wrap_in (k x : Z) : 0 < k → - 2 ^ (k - 1) <= x < 2 ^ (k - 1) → wrap k x = x.
Proof.
  intros Hk Hx. unfold wrap. replace (2 ^ k) with (2 * 2 ^ (k - 1)) by (rewrite <- Z.pow_succ_r; [f_equal; lia|lia]).
  rewrite Z.mod_small; lia.
Qed.

Lemma total_nonneg {A} (f : A → Z) (m : gmap nat A) : (∀ c, 0 <= f c) → 0 <= total f m.
Proof. intros Hf. unfold total. apply (map_fold_weak_ind (λ r _, 0 <= r)); [done|]. intros i c m' r _ Hr. specialize (Hf c). lia. Qed.

(** A state of the test whose network is that of a world *)
Definition of_world cfg w : Prop := net_reachable w ∧ rn (base cfg) = net (Labrpc.sys w).

Lemma totals cfg w : of_world cfg w → total sends_of (calls w) < 2 ^ 31 → total bytes_of (calls w) < 2 ^ 63 →
  rpcTotal cfg = total sends_of (calls w) ∧ bytesTotal cfg = total bytes_of (calls w).
Proof.
  intros [Hr He] Hs Hb. apply reachable_counts in Hr as [_ Hn Hc _].
  assert (∀ c : CallRec (Name := net_name), 0 <= sends_of c) as P1 by (intros c; unfold sends_of; destruct (sent c); lia).
  assert (∀ c : CallRec (Name := net_name), 0 <= bytes_of c) as P2.
  { intros c. unfold bytes_of, go_len. destruct (sent c), (pc c) as [| | | | | | |[]], (rets c); lia. }
  pose proof (total_nonneg _ (calls w) P1). pose proof (total_nonneg _ (calls w) P2).
  unfold rpcTotal, bytesTotal, GetTotalCount, GetTotalBytes. rewrite He, Hn, Hc. split; apply wrap_in; cbn; lia.
Qed.

(** The test that neither failed nor took too long prints the requests that the
    network received since its begin, and their bytes with those of the replies. *)
Lemma end_reports cfg cfg' w w' now maxIndex started now' maxIndex' :
  of_world cfg w → of_world cfg' w' →
  total sends_of (calls w) < 2 ^ 31 → total sends_of (calls w') < 2 ^ 31 →
  total bytes_of (calls w) < 2 ^ 63 → total bytes_of (calls w') < 2 ^ 63 →
  now' - started <= 120 * 1000 * Millisecond →
  end_ cfg' (begin cfg now maxIndex) false started now' maxIndex'
  = Some (Some (now' - now, n (base cfg'), total sends_of (calls w') - total sends_of (calls w),
                total bytes_of (calls w') - total bytes_of (calls w), maxIndex' - maxIndex)).
Proof.
  intros Hw Hw' Hs Hs' Hb Hb' Ht. destruct (totals cfg w) as [E1 E2]; [done..|]. destruct (totals cfg' w') as [E1' E2']; [done..|].
  unfold end_, checkTimeout. rewrite Z.gtb_ltb, (proj2 (Z.ltb_ge _ _)) by lia. cbn. by rewrite E1, E2, E1', E2'.
Qed.
End statistics.
