(* ===== verification/RaftTester.v ===== *)
(** * What the tests of Raft check

    The part of raft/config.go that looks at what the peers do: it reads the messages
    that every peer delivers ([applier], [applierSnap]), compares them with what
    others delivered ([checkLogs]), and asks the peers for their state
    ([checkOneLeader], [nCommitted], [wait], [one]).  [texec] is a step of the peers of
    [RaftCluster] together with the tester.

    [start1] does not stop the reader of the channel of the peer that it replaces.  The
    goroutine lives on with what it and its channel still hold, and works on the same
    entries of the configuration as the reader of the new channel: these are the
    channels of [old].  A message is one step of a reader.

    [log.Fatalf] and [t.Fatal] end the test: they are [None], as are panics.  The
    messages of the errors are left out. *)

From S2P Require Import Prelude Util Labgob RaftState RaftHandlers RaftLeader RaftNode RaftCluster.

Definition SnapShotInterval : Z := 10.

(** The entries of a log that were delivered, by index; index 0 is there when the log was
    taken from a snapshot. *)
Abbreviation CLog C := (gmap Z (option C)).

Record config (C : Type) := MkConfig {
  rafts : list bool;                  (** whether the pointer is not nil *)
  connected : list bool;
  logs : list (CLog C);
  lastApplied : list Z;
  maxIndex : Z;
  maxIndex0 : Z;
}.
Arguments MkConfig {C} _ _ _ _ _ _.
Arguments rafts {C} _.
Arguments connected {C} _.
Arguments logs {C} _.
Arguments lastApplied {C} _.
Arguments maxIndex {C} _.
Arguments maxIndex0 {C} _.

(** What [applierSnap] encodes: the index and the log up to it *)
Abbreviation TSnapshot C := (Z * list (option C))%type.

Section tester.
Context {C : Type} `{!EqDecision C, !GobCodec (PState C), !GobCodec (TSnapshot C)}.
(** [n] peers; [snapshot] selects [applierSnap]. *)
Context (n : Z) (snapshot : bool).
Implicit Types (cfg : config C) (m : ApplyMsg C).

Definition set_logs cfg (l : list (CLog C)) : config C :=
  MkConfig (rafts cfg) (connected cfg) l (lastApplied cfg) (maxIndex cfg) (maxIndex0 cfg).
Definition set_applied cfg (l : list Z) : config C :=
  MkConfig (rafts cfg) (connected cfg) (logs cfg) l (maxIndex cfg) (maxIndex0 cfg).

(** ** The readers of the apply channels *)

(** The loop of [checkLogs]: no log has another command at the index. *)
Definition no_conflict cfg m : bool :=
  forallb (λ l, match l !! CommandIndex m with
                | Some old => bool_decide (old = MsgCommand m)
                | None => true
                end) (logs cfg).

(** The results: no error message, and the previous index is there. *)
Definition checkLogs cfg (i : Z) m : option (config C * bool * bool) :=
  l ← go_index (logs cfg) i;
  let prevok := bool_decide (is_Some (l !! (CommandIndex m - 1))) in
  ls ← go_update (logs cfg) i (<[CommandIndex m := MsgCommand m]> l);
  let cfg' := MkConfig (rafts cfg) (connected cfg) ls (lastApplied cfg)
                (if CommandIndex m >? maxIndex cfg then CommandIndex m else maxIndex cfg) (maxIndex0 cfg) in
  Some (cfg', no_conflict cfg m, prevok).

(** One message in [applier] *)
Definition applier cfg (i : Z) m : option (config C) :=
  if negb (CommandValid m) then Some cfg
  else
    '(cfg, ok, prevok) ← checkLogs cfg i m;
    if ((CommandIndex m >? 1) && negb prevok) || negb ok then None else Some cfg.

(** A snapshot of [None] is [log.Fatalf], as is a bad one; [index] is -1 for any. *)
Definition ingestSnap cfg (i : Z) (data : bytes) (index : Z) : option (config C) :=
  if bool_decide (data = []) then None
  else
    '(lastIncludedIndex, xlog) ← (gob_decode data : option (TSnapshot C));
    if negb (index =? -1) && negb (index =? lastIncludedIndex) then None
    else
      ls ← go_update (logs cfg) i (list_to_map (zip (seqZ 0 (go_len xlog)) xlog));
      la ← go_update (lastApplied cfg) i lastIncludedIndex;
      Some (set_applied (set_logs cfg ls) la).

(** What [applierSnap] gives to [rf.Snapshot] *)
Definition make_snapshot (l : CLog C) (index : Z) : bytes :=
  gob_encode (index, (λ j, default None (l !! j)) <$> seqZ 0 (index + 1)).

(** One message in [applierSnap], with the snapshot that it takes, if any.
    [CondInstallSnapshot] always agrees. *)
Definition applierSnap cfg (i : Z) m : option (config C * option (Z * bytes)) :=
  if SnapshotValid m then cfg ← ingestSnap cfg i (MsgSnapshot m) (SnapshotIndex m); Some (cfg, None)
  else if CommandValid m then
    la ← go_index (lastApplied cfg) i;
    if negb (CommandIndex m =? la + 1) then None
    else
      '(cfg, ok, prevok) ← checkLogs cfg i m;
      if ((CommandIndex m >? 1) && negb prevok) || negb ok then None
      else
        la ← go_update (lastApplied cfg) i (CommandIndex m);
        let cfg := set_applied cfg la in
        l ← go_index (logs cfg) i;
        Some (cfg, if Z.rem (CommandIndex m + 1) SnapShotInterval =? 0
                   then Some (CommandIndex m, make_snapshot l (CommandIndex m)) else None)
  else Some (cfg, None).

(** The reader that the test was made with *)
Definition read_message (i : Z) m cfg : option (config C * option (Z * bytes)) :=
  if snapshot then applierSnap cfg i m else cfg ← applier cfg i m; Some (cfg, None).

(** ** The peers and the tester *)

Record Tester := MkTester {
  cluster : Cluster C;
  inbox : Z → list (ApplyMsg C);
  old : list (Z * list (ApplyMsg C));   (** channels of peers that were replaced *)
  cfg_of : config C;
}.

Inductive TAction :=
  | TRaft (act : Action C)         (* a step of Raft alone *)
  | TDeliver (i : Z)               (* the applier of peer [i] goes on *)
  | TTake (i : Z)                  (* the reader of the channel of peer [i] *)
  | TTakeOld (k : nat)             (* the reader of an earlier channel *)
  | TStart (i : Z) (cmd : C)       (* [rf.Start] *)
  | TConnect (i : Z)
  | TDisconnect (i : Z)
  | TCrash (i : Z)
  | TStart1 (i : Z) (env : Env).

Definition internal (act : Action C) : bool :=
  match act with ATick _ _ | AKill _ | ADrop _ | ARun _ _ => true | _ => false end.

Implicit Types (T : Tester).

(** A peer that was killed has lost its disk to the next one: [rf.Snapshot] of its
    reader changes nothing that others see. *)
Definition take_message (i : Z) T : option Tester :=
  match inbox T i with
  | [] => None
  | m :: rest =>
    '(cfg, snap) ← read_message i m (cfg_of T);
    w ← match snap with
        | Some (index, data) =>
          if default false (go_index (rafts cfg) i) then exec n (ASnapshot i index data) (cluster T) else Some (cluster T)
        | None => Some (cluster T)
        end;
    Some (MkTester w (<[i := rest]> (inbox T)) (old T) cfg)
  end.

Definition take_old (k : nat) T : option Tester :=
  match old T !! k with
  | Some (i, m :: rest) =>
    '(cfg, _) ← read_message i m (cfg_of T);
    Some (MkTester (cluster T) (inbox T) (<[k := (i, rest)]> (old T)) cfg)
  | _ => None
  end.

(** [applyCh] *)
Definition deliver (i : Z) T : option Tester :=
  '(_, msg) ← apply (rf (peers (cluster T) i));
  w ← exec n (AApply i) (cluster T);
  Some (MkTester w (<[i := inbox T i ++ option_list msg]> (inbox T)) (old T) (cfg_of T)).

(** [connect] and [disconnect] as far as the tester remembers them (the network is in
    [RaftConfig]; here any call can be lost at any time). *)
Definition set_connected (i : Z) (b : bool) T : option Tester :=
  let cfg := cfg_of T in
  cn ← go_update (connected cfg) i b;
  Some (MkTester (cluster T) (inbox T) (old T) (MkConfig (rafts cfg) cn (logs cfg) (lastApplied cfg) (maxIndex cfg) (maxIndex0 cfg))).

Definition set_raft (i : Z) (b : bool) T : option Tester :=
  let cfg := cfg_of T in
  rs ← go_update (rafts cfg) i b;
  Some (MkTester (cluster T) (inbox T) (old T) (MkConfig rs (connected cfg) (logs cfg) (lastApplied cfg) (maxIndex cfg) (maxIndex0 cfg))).

Definition crash1 (i : Z) T : option Tester :=
  T ← set_connected i false T;
  w ← exec n (AKill i) (cluster T);
  set_raft i false (MkTester w (inbox T) (old T) (cfg_of T)).

(** The new peer has a new channel; the reader of the other one goes on. *)
Definition start1 (i : Z) (env : Env) T : option Tester :=
  T ← crash1 i T;
  la ← go_update (lastApplied (cfg_of T)) i 0;
  let cfg := set_applied (cfg_of T) la in
  let data := ReadSnapshot (persister (rf (peers (cluster T) i))) in
  cfg ← (if go_len data >? 0 then ingestSnap cfg i data (-1) else Some cfg);
  w ← exec n (ARestart i env) (cluster T);
  set_raft i true (MkTester w (<[i := []]> (inbox T)) (old T ++ [(i, inbox T i)]) cfg).

Definition texec (act : TAction) T : option Tester :=
  match act with
  | TRaft act =>
    if internal act then w ← exec n act (cluster T); Some (MkTester w (inbox T) (old T) (cfg_of T)) else None
  | TDeliver i => if in_cluster n i then deliver i T else None
  | TTake i => if in_cluster n i then take_message i T else None
  | TTakeOld k => take_old k T
  | TStart i cmd => w ← exec n (AStart i (Some cmd)) (cluster T); Some (MkTester w (inbox T) (old T) (cfg_of T))
  | TConnect i => set_connected i true T
  | TDisconnect i => set_connected i false T
  | TCrash i => crash1 i T
  | TStart1 i env => start1 i env T
  end.

(** [make_config] *)
Definition tinit (envs : Z → Env) : Tester :=
  let k := Z.to_nat n in
  MkTester (init n envs) (λ _, []) []
    (MkConfig (replicate k true) (replicate k true) (replicate k ∅) (replicate k 0) 0 0).

Definition tstep T T' : Prop := ∃ act, texec act T = Some T'.
Definition treachable T : Prop := ∃ envs, rtc tstep (tinit envs) T.

(** The runs in which no reader that takes snapshots takes a message after its peer was
    replaced *)
Definition orderly (act : TAction) : bool := match act with TTakeOld _ => negb snapshot | _ => true end.
Definition ostep T T' : Prop := ∃ act, orderly act = true ∧ texec act T = Some T'.
Definition oreachable T : Prop := ∃ envs, rtc ostep (tinit envs) T.

(** ** Asking the peers *)

(** The peers that lead, by term, among those asked: [obs i] is the state in which peer
    [i] was asked. *)
Definition leaders_of (cn : list bool) (obs : Z → Cluster C) : gmap Z (list Z) :=
  foldl (λ ls i,
           let '(term, leader) := GetState (rf (peers (obs i) i)) in
           if default false (go_index cn i) && leader then <[term := default [] (ls !! term) ++ [i]]> ls else ls)
    ∅ (seqZ 0 n).

(** A connected peer that is nil is a panic. *)
Definition running (cn rs : list bool) : bool :=
  forallb (λ i, negb (default false (go_index cn i)) || default false (go_index rs i)) (seqZ 0 n).

(** One try of [checkOneLeader]: an error, or the leader of the last term, if any.  The
    loop over the map in any order *)
Definition one_leader `{!MapOrder} (cn rs : list bool) (obs : Z → Cluster C) : option (option Z) :=
  if negb (running cn rs) then None else
  let ls := leaders_of cn obs in
  last ← foldM (λ last e, if go_len e.2 >? 1 then None else Some (if e.1 >? last then e.1 else last)) (-1) (range 0 ls);
  if bool_decide (size ls = 0%nat) then Some None
  else i ← go_index (default [] (ls !! last)) 0; Some (Some i).

(** [tries] are the states seen in the iterations, ten at most. *)
Fixpoint checkOneLeader `{!MapOrder} (cn rs : list bool) (tries : list (Z → Cluster C)) : option Z :=
  match tries with
  | [] => None
  | obs :: tries => l ← one_leader cn rs obs; match l with Some i => Some i | None => checkOneLeader cn rs tries end
  end.

(** [checkTerms], on the connected peers *)
Definition checkTerms (cn rs : list bool) (obs : Z → Cluster C) : option Z :=
  if negb (running cn rs) then None else
  foldM (λ term i,
           let '(xterm, _) := GetState (rf (peers (obs i) i)) in
           if negb (default false (go_index cn i)) then Some term
           else if term =? -1 then Some xterm else if term =? xterm then Some term else None) (-1) (seqZ 0 n).

Definition checkNoLeader (cn rs : list bool) (obs : Z → Cluster C) : option unit :=
  if negb (running cn rs) then None else
  foldM (λ _ i, if default false (go_index cn i) && (GetState (rf (peers (obs i) i))).2 then None else Some tt) tt (seqZ 0 n).

(** ** Counting commits *)

(** [nCommitted]: how many logs have the index, and the command there; [obs i] is the
    configuration when the log of peer [i] is read. *)
Definition nCommitted (obs : Z → config C) (index : Z) : option (Z * option C) :=
  foldM (λ acc i, l ← go_index (logs (obs i)) i;
                  match l !! index with
                  | Some cmd1 =>
                    if (acc.1 >? 0) && negb (bool_decide (acc.2 = cmd1)) then None else Some (acc.1 + 1, cmd1)
                  | None => Some acc
                  end) (0, None) (seqZ 0 n).

(** Whether a peer has gone past [startTerm]; a peer that is nil is a panic. *)
Fixpoint moved_on (startTerm : Z) (terms : list (option Z)) : option bool :=
  match terms with
  | [] => Some false
  | t :: terms => t ← t; if t >? startTerm then Some true else moved_on startTerm terms
  end.

(** [wait]: [polls] are the states of the tester when it looks, with the terms of the
    peers afterwards.  [None] for the result -1 *)
Fixpoint wait_polls (index k startTerm : Z) (polls : list ((Z → config C) * list (option Z))) : option bool :=
  match polls with
  | [] => Some false
  | (obs, terms) :: polls =>
    '(nd, _) ← nCommitted obs index;
    if nd >=? k then Some false
    else
      moved ← (if startTerm >? -1 then moved_on startTerm terms else Some false);
      if (moved : bool) then Some true else wait_polls index k startTerm polls
  end.

Definition wait (index k startTerm : Z) (polls : list ((Z → config C) * list (option Z))) (final : Z → config C) : option (option (option C)) :=
  moved ← wait_polls index k startTerm polls;
  if (moved : bool) then Some None
  else '(nd, cmd) ← nCommitted final index; if nd <? k then None else Some (Some cmd).

(** The inner loop of [one], for two seconds: whether the command was committed *)
Fixpoint await (cmd : C) (index expected : Z) (polls : list (Z → config C)) : option bool :=
  match polls with
  | [] => Some false
  | obs :: polls =>
    '(nd, cmd1) ← nCommitted obs index;
    if (nd >? 0) && (nd >=? expected) && bool_decide (cmd1 = Some cmd) then Some true
    else await cmd index expected polls
  end.

(** [one]: an attempt is the index that a [Start] returned, if one of the peers said it
    was the leader, and the states seen while waiting; [finished] is [checkFinished]
    at the end. *)
Fixpoint one (cmd : C) (expected : Z) (retry finished : bool) (attempts : list (option Z * list (Z → config C))) : option Z :=
  match attempts with
  | [] => if finished then Some (-1) else None
  | (None, _) :: attempts => one cmd expected retry finished attempts
  | (Some index, polls) :: attempts =>
    ok ← await cmd index expected polls;
    if (ok : bool) then Some index
    else if retry then one cmd expected retry finished attempts
    else None
  end.

(** ** Statistics *)

Definition begin cfg : config C :=
  MkConfig (rafts cfg) (connected cfg) (logs cfg) (lastApplied cfg) (maxIndex cfg) (maxIndex cfg).
(** The agreements that [end] reports *)
Definition end_cmds cfg : Z := maxIndex cfg - maxIndex0 cfg.
Definition LogSize (w : Cluster C) : Z :=
  foldl (λ size i, let k := RaftStateSize (persister (rf (peers w i))) in if k >? size then k else size) 0 (seqZ 0 n).
End tester.
