(* ===== verification/RaftTesterInv.v ===== *)
(** * The tester is a replicated service

    What the readers of the apply channels in raft/config.go keep is that of a
    replicated service whose state is the list of the commands delivered
    ([tester_machine]).  [ReplicatedSteps] says what the servers of such a service
    hold, and a step of the tester is a step of that system ([texec_inv]): the
    invariant [tester_inv] relates the logs of the tester to the one sequence of
    operations that explains the run. *)

From S2P Require Import Prelude Util Labgob RaftState RaftHandlers RaftLeader RaftNode RaftRecv RaftSend RaftCluster RaftElection RaftClusterInv RaftLogMatching RaftSteps RaftSafety RaftTree RaftTrans RaftAncestry RaftStore RaftCompleteness RaftCommit RaftStateMachine OpServer Replicated ReplicatedInv ReplicatedSteps RaftTester.

#[local] Arguments exec : simpl never.

Abbreviation RWorld C := (Replicated.World (list C) C unit).

Section tester.
Context {C : Type} `{!EqDecision C, !GobCodec (PState C), !GobLaws (PState C), !GobCodec (TSnapshot C), !GobLaws (TSnapshot C)}.
(** [calm]: only orderly steps are looked at. *)
Context (n : Z) (snapshot calm : bool).
Implicit Types (cfg : config C) (m : ApplyMsg C) (s L : list C) (l : CLog C) (X : RWorld C) (T : Tester (C := C)).

(** ** The service *)

(** A log as the tester encodes it *)
Definition xlog_of s : list (option C) := None :: (Some <$> s).

Definition read_xlog (data : bytes) : option (list C) :=
  '(index, xlog) ← (gob_decode data : option (TSnapshot C));
  let s := omap id xlog in
  if bool_decide (index = go_len s ∧ xlog = xlog_of s) then Some s else None.

#[local] Instance tester_machine : StateMachine (list C) C unit := {|
  sm_same a b := bool_decide (a = b);
  sm_cached _ _ := None;
  sm_apply s op := Some (s ++ [op], (OK, tt));
  sm_snapshot s _ :=
    if snapshot && (Z.rem (go_len s + 1) SnapShotInterval =? 0) then Some (gob_encode (go_len s, xlog_of s)) else None;
  sm_restore s data := if bool_decide (data = []) then Some s else if snapshot then read_xlog data else None;
  sm_novalue := tt;
|}.

Lemma xlog_lookup s (j : nat) : xlog_of s !! S j = Some <$> s !! j.
Proof. exact (list_lookup_fmap Some s j). Qed.

Lemma omap_xlog s : omap id (xlog_of s) = s.
Proof. unfold xlog_of. cbn. induction s as [|x s IH]; [done|]. cbn. by rewrite IH. Qed.

Lemma read_xlog_encode s : read_xlog (gob_encode (go_len s, xlog_of s)) = Some s.
Proof. unfold read_xlog. rewrite gob_roundtrip. cbn [mbind option_bind]. by rewrite omap_xlog, bool_decide_true. Qed.

#[local] Instance tester_snapshots : SnapshotLaws (list C) C unit.
Proof.
  split; [|done]. cbn. intros s size data s' H. destruct (snapshot && _) eqn:E; [|done]. injection H as <-. bools.
  rewrite bool_decide_false by apply gob_nonempty. by rewrite H, read_xlog_encode.
Qed.

Lemma run_ops_tester s ops : run_ops s ops = Some (s ++ ops).
Proof. revert s. induction ops as [|op ops IH]; intros s; cbn; [by rewrite app_nil_r|]. by rewrite IH, <- (assoc_L (++)). Qed.

(** ** The relation *)

(** The server of a peer of the tester: no handlers *)
Definition quiet (kv : Server (list C) C unit) : Prop := resultChans kv = ∅ ∧ OpServer.applier kv = AIdle.

(** A log of the tester that has the first [p] commands of [L], and nothing else than
    commands of [L] at their indexes. *)
Record log_ok L (p : nat) l : Prop := {
  lo_sound k v : l !! k = Some v → k = 0 ∧ v = None ∨ ∃ j op, k = Z.of_nat (S j) ∧ v = Some op ∧ L !! j = Some op;
  lo_all (j : nat) : (j < p)%nat → is_Some (l !! Z.of_nat (S j));
}.

(** What a reader expects that is about to read the command after the first [p] *)
Definition reader_at L cfg (i : Z) (p : nat) : Prop :=
  (∀ l, go_index (logs cfg) i = Some l → log_ok L p l)
  ∧ (snapshot = true → go_index (lastApplied cfg) i = Some (Z.of_nat p)).

Record cfg_ok L cfg : Prop := {
  co_logs : go_len (logs cfg) = n;
  co_applied : go_len (lastApplied cfg) = n;
  co_connected : go_len (connected cfg) = n;
  co_rafts : go_len (rafts cfg) = n;
  co_reader i : 0 <= i < n → ∃ p, (p <= length L)%nat ∧ reader_at L cfg i p;
}.

(** The reader of peer [i] has read [taken] since the peer was killed. *)
Record channel_ok L cfg (kv : Server (list C) C unit) (i : Z) (all q : list (ApplyMsg C)) : Prop := {
  ch_taken : ∃ taken p, all = taken ++ q ∧ feeds [] L (length (state kv)) taken p
    ∧ (go_index (rafts cfg) i = Some true → taken = []) ∧ (calm = true → reader_at L cfg i p);
}.

(** The channel of a peer that was replaced; the reader that takes no snapshots goes on. *)
Definition old_ok L cfg (iq : Z * list (ApplyMsg C)) : Prop :=
  0 <= iq.1 < n ∧ ∃ p p', (p <= length L)%nat ∧ feeds [] L p iq.2 p' ∧ (calm = true → snapshot = false → reader_at L cfg iq.1 p).

Record related L X T : Prop := {
  re_world : world_inv n [] L X;
  re_cluster : Replicated.cluster X = cluster T;
  re_quiet i : 0 <= i < n → quiet (server X i);
  re_cfg : cfg_ok L (cfg_of T);
  re_channel i : 0 <= i < n → channel_ok L (cfg_of T) (server X i) i (Replicated.inbox X i) (inbox T i);
  re_old iq : iq ∈ old T → old_ok L (cfg_of T) iq;
}.

Definition tester_inv L T : Prop := ∃ X, related L X T.

Lemma log_ok_mono L L' p l : L `prefix_of` L' → log_ok L p l → log_ok L' p l.
Proof.
  intros Hp [Hs Ha]. split; [|done]. intros k v Hv. destruct (Hs k v Hv) as [?|(j & op & ? & ? & ?)]; [by left|right].
  exists j, op. split_and!; try done. by eapply prefix_lookup_Some.
Qed.

Lemma reader_at_mono L L' cfg i p : L `prefix_of` L' → reader_at L cfg i p → reader_at L' cfg i p.
Proof. intros Hp [Hl Ha]. split; [|done]. intros l E. eapply log_ok_mono; [done|by apply Hl]. Qed.

Lemma cfg_ok_mono L L' cfg : L `prefix_of` L' → cfg_ok L cfg → cfg_ok L' cfg.
Proof.
  intros Hp []. split; try done. intros i Hi. destruct (co_reader0 i Hi) as (p & ? & ?). exists p.
  pose proof (prefix_length _ _ Hp). split; [lia|by eapply reader_at_mono].
Qed.

Lemma old_ok_mono L L' cfg iq : L `prefix_of` L' → old_ok L cfg iq → old_ok L' cfg iq.
Proof.
  intros Hp (Hi & p & p' & ? & ? & Hr). split; [done|]. exists p, p'. pose proof (prefix_length _ _ Hp).
  split_and!; [lia|by eapply feeds_mono|]. intros ??. eapply reader_at_mono; [done|by apply Hr].
Qed.

Lemma channel_ok_mono L L' cfg kv i all q : L `prefix_of` L' → channel_ok L cfg kv i all q → channel_ok L' cfg kv i all q.
Proof.
  intros Hp [(taken & p & ? & ? & ? & Hr)]. split. exists taken, p. split_and!; [done|by eapply feeds_mono|done|].
  intros ?. eapply reader_at_mono; [done|by apply Hr].
Qed.

Lemma log_ok_empty L : log_ok L 0 ∅.
Proof. split; [by intros k v; rewrite lookup_empty|lia]. Qed.

Lemma reader_at_init L envs i : 0 <= i < n → reader_at L (cfg_of (tinit n envs)) i 0.
Proof.
  intros Hi. split; cbn.
  - intros l [_ Hl]%go_index_lookup. apply lookup_replicate in Hl as [-> _]. apply log_ok_empty.
  - intros _. apply go_index_lookup. split; [lia|]. apply lookup_replicate. split; [done|lia].
Qed.

Lemma tester_inv_init envs : 0 <= n → tester_inv [] (tinit n envs).
Proof.
  intros Hn. exists (winit n [] envs).
  assert (∀ A (x : A), go_len (replicate (Z.to_nat n) x) = n) as Hlen by (intros; unfold go_len; rewrite length_replicate; lia).
  split; [by apply world_inv_init|done|done| | |by intros iq ?%elem_of_nil].
  - split; try apply Hlen. intros i Hi. exists 0%nat. split; [done|by apply reader_at_init].
  - intros i Hi. split. exists [], 0%nat. split_and!; [done|apply feeds_nil|done|]. intros _. by apply reader_at_init.
Qed.

(** ** Messages *)

(** The entry delivered next continues every log. *)
Lemma log_ok_next L (k p : nat) op l : L !! k = Some op → log_ok L p l → (p <= k)%nat →
  log_ok L (if decide (p = k) then k + 1 else p)%nat (<[Z.of_nat (k + 1) := Some op]> l).
Proof.
  intros Hk [Hs Ha] Hp. split.
  - intros i v Hv. apply lookup_insert_Some in Hv as [[<- <-]|[_ Hv]]; [|by apply Hs].
    right. exists k, op. split_and!; [lia|done|done].
  - intros j Hj. rewrite lookup_insert_is_Some'.
    destruct (decide (j = k)) as [->|Hne]; [left; lia|right]. apply Ha. case_decide; lia.
Qed.

(** Writing a command of [L] at its index keeps what a log has. *)
Lemma log_ok_insert L (k p : nat) op l : L !! k = Some op → log_ok L p l → log_ok L p (<[Z.of_nat (k + 1) := Some op]> l).
Proof.
  intros Hk [Hs Ha]. split.
  - intros i v Hv. apply lookup_insert_Some in Hv as [[<- <-]|[_ Hv]]; [|by apply Hs].
    right. exists k, op. split_and!; [lia|done|done].
  - intros j Hj. rewrite lookup_insert_is_Some'. right. by apply Ha.
Qed.

Lemma no_conflict_ok L cfg m k op :
  cfg_ok L cfg → L !! k = Some op → CommandIndex m = Z.of_nat (k + 1) → MsgCommand m = Some op → no_conflict cfg m = true.
Proof.
  intros Hc Hk Hi Hm. unfold no_conflict. apply forallb_forall. intros l Hin%list_elem_of_In.
  apply list_elem_of_lookup in Hin as [i Hl]. pose proof (lookup_lt_Some _ _ _ Hl) as Hlt.
  pose proof (co_logs _ _ Hc) as Hlen. unfold go_len in Hlen.
  rewrite <- go_index_nat in Hl. destruct (co_reader _ _ Hc (Z.of_nat i) ltac:(lia)) as (p & _ & Hr & _). destruct (Hr l Hl) as [Hs _].
  destruct (l !! CommandIndex m) as [old|] eqn:E; [|done]. apply bool_decide_eq_true.
  destruct (Hs _ _ E) as [[? ?]|(j & op' & Hj & -> & Hop)]; [lia|]. assert (j = k) as -> by lia. congruence.
Qed.

(** What [applierSnap] encodes is the log as a snapshot of the service. *)
Lemma make_snapshot_eq L l (k : nat) : (k <= length L)%nat → log_ok L k l →
  make_snapshot l (Z.of_nat k) = gob_encode (go_len (take k L), xlog_of (take k L)).
Proof.
  intros Hk [Hs Ha]. assert (length (take k L) = k) as Hlen by (rewrite length_take; lia).
  unfold make_snapshot. f_equal. unfold go_len. rewrite Hlen. f_equal. apply list_eq. intros j. unfold xlog_of.
  rewrite list_lookup_fmap. destruct (decide (j < S k)%nat) as [Hj|Hj].
  - rewrite lookup_seqZ_lt by lia. cbn [fmap option_fmap option_map]. rewrite Z.add_0_l. destruct j as [|j].
    + change (Z.of_nat 0) with 0. destruct (l !! 0) as [v|] eqn:E; [|done]. destruct (Hs _ _ E) as [[_ ->]|(? & ? & ? & _)]; [done|lia].
    + destruct (Ha j) as [v Hv]; [lia|]. rewrite Hv. fold (xlog_of (take k L)). rewrite xlog_lookup, lookup_take_lt by lia.
      destruct (Hs _ _ Hv) as [[? _]|(j' & op & Hj' & -> & Hop)]; [lia|]. assert (j' = j) as -> by lia. by rewrite Hop.
  - rewrite lookup_seqZ_ge by lia. cbn. symmetry. apply lookup_ge_None. cbn. rewrite length_fmap, Hlen. lia.
Qed.

(** [ingestSnap] accepts what [applierSnap] has encoded. *)
Lemma xlog_map s : (list_to_map (zip (seqZ 0 (go_len (xlog_of s))) (xlog_of s)) : CLog C) !! 0 = Some None
  ∧ ∀ k v, (list_to_map (zip (seqZ 0 (go_len (xlog_of s))) (xlog_of s)) : CLog C) !! k = Some v ↔
     0 <= k ∧ xlog_of s !! Z.to_nat k = Some v.
Proof.
  assert (∀ k v, (list_to_map (zip (seqZ 0 (go_len (xlog_of s))) (xlog_of s)) : CLog C) !! k = Some v ↔
     0 <= k ∧ xlog_of s !! Z.to_nat k = Some v) as Hk; [|split; [by apply Hk|done]].
  intros k v. rewrite <- elem_of_list_to_map.
  - rewrite list_elem_of_lookup. split.
    + intros [j [Hj Hv]%lookup_zip_Some]. apply lookup_seqZ in Hj as [-> Hj]. split; [lia|]. by rewrite Z.add_0_l, Nat2Z.id.
    + intros [Hk Hv]. exists (Z.to_nat k). apply lookup_zip_Some. split; [|done]. apply lookup_seqZ.
      apply lookup_lt_Some in Hv. unfold go_len. lia.
  - rewrite fst_zip; [apply NoDup_seqZ|]. rewrite length_seqZ. unfold go_len. lia.
Qed.

Lemma log_ok_snapshot L s : s `prefix_of` L → log_ok L (length s) (list_to_map (zip (seqZ 0 (go_len (xlog_of s))) (xlog_of s))).
Proof.
  intros Hp. destruct (xlog_map s) as [_ Hk]. split.
  - intros k v [H0 Hv]%Hk. destruct (Z.to_nat k) as [|j] eqn:E; [injection Hv as <-; left; split; [lia|done]|].
    rewrite xlog_lookup in Hv. destruct (s !! j) as [op|] eqn:Ej; [|done]. injection Hv as <-.
    right. exists j, op. split_and!; [lia|done|by eapply prefix_lookup_Some].
  - intros j Hj. destruct (lookup_lt_is_Some_2 _ _ Hj) as [op Hop]. exists (Some op). apply Hk. split; [lia|].
    rewrite Nat2Z.id, xlog_lookup. by rewrite Hop.
Qed.

Lemma read_xlog_Some data s : read_xlog data = Some s → gob_decode data = Some (go_len s, xlog_of s).
Proof.
  unfold read_xlog. destruct (gob_decode data) as [[index xlog]|]; cbn [mbind option_bind]; [|done].
  case_bool_decide as Hd; [|done]. intros [= Hs]. rewrite Hs in Hd. by destruct Hd as [-> ->].
Qed.

Lemma ingestSnap_ok L cfg i data index s :
  go_len (logs cfg) = n → go_len (lastApplied cfg) = n → 0 <= i < n →
  data ≠ [] → read_xlog data = Some s → index = -1 ∨ index = go_len s →
  ingestSnap cfg i data index = Some (set_applied (set_logs cfg
    (<[Z.to_nat i := list_to_map (zip (seqZ 0 (go_len (xlog_of s))) (xlog_of s))]> (logs cfg)))
    (<[Z.to_nat i := go_len s]> (lastApplied cfg))).
Proof.
  intros Hl Ha Hi Hd Hr Hx. unfold ingestSnap. rewrite bool_decide_false by done.
  rewrite (read_xlog_Some _ _ Hr). cbn [mbind option_bind].
  assert (negb (index =? -1) && negb (index =? go_len s) = false) as ->.
  { destruct Hx as [-> | ->]; [done|]. by rewrite Z.eqb_refl, andb_false_r. }
  unfold go_update. rewrite !(proj2 (andb_true_iff _ _)) by lia. done.
Qed.

(** The service restores snapshots that are not empty only. *)
Lemma restores data s : (∀ s', sm_restore s' data = Some s) → s ≠ [] → snapshot = true ∧ data ≠ [] ∧ read_xlog data = Some s.
Proof.
  intros Hr Hs. pose proof (Hr []) as H0. cbn in H0. case_bool_decide as Hd; [congruence|]. by destruct snapshot.
Qed.

(** A peer can shorten its log to what it has delivered. *)
Lemma snapshot_returns (w : Cluster C) i index (data : bytes) : full_inv n w → 0 <= i < n → index <= RaftState.lastApplied (rf (peers w i)) →
  is_Some (exec n (ASnapshot i index data) w).
Proof.
  intros Hf Hi Hx. destruct (ci_node _ _ (bi_cluster _ _ (fi_basic _ _ Hf)) i Hi) as (Hwf & _).
  pose proof (cv_peer _ _ (fi_commit _ _ Hf) i Hi) as Hp. pose proof (cm_applied _ _ _ _ Hp).
  destruct (cm_commit _ _ _ _ Hp) as (z & Hz & Ha & _). apply anc_index in Ha. cbn in Ha.
  destruct (SnapshotL_spec (rf (peers w i)) index data Hwf) as (r & Hr & _); [lia|].
  unfold exec, in_cluster. rewrite (proj2 (andb_true_iff _ _)) by lia. cbn [negb]. rewrite Hr. by eexists.
Qed.

(** What a server without handlers does with a command *)
Lemma take_command X i op rest k : quiet (server X i) →
  Replicated.inbox X i = command_msg (Some op) k :: rest →
  ∃ sv, state sv = state (server X i) ++ [op] ∧ quiet sv ∧
    Replicated.take_message n i 0 X = emit n i
      (match sm_snapshot (state sv) 0 with Some data => [ESnapshot k data] | None => [] end)
      (MkWorld (Replicated.cluster X) (<[i := sv]> (server X)) (<[i := rest]> (Replicated.inbox X)) (trace X)).
Proof.
  intros [Hc Ha] Hq. unfold Replicated.take_message. rewrite Hq. cbn [CommandValid command_msg mbind option_bind MsgCommand CommandIndex].
  unfold serve, sexec. cbn [server]. rewrite Ha. unfold receiveCommand. cbn [sm_apply tester_machine mbind option_bind].
  cbn [resultChans]. rewrite Hc, lookup_empty. cbn [finish_command mbind option_bind]. set (kv := server X i).
  exists (set_applier (MkServer (state kv ++ [op]) ∅ (nextChan kv) (handlers kv) (OpServer.applier kv) (applied kv ++ [(k, op)])) AIdle).
  by split_and!.
Qed.

Lemma take_snapshot X i data rest k s : quiet (server X i) →
  Replicated.inbox X i = snapshot_msg data k :: rest → (∀ s', sm_restore s' data = Some s) →
  ∃ sv, state sv = s ∧ quiet sv ∧ Replicated.take_message n i 0 X =
    Some (MkWorld (Replicated.cluster X) (<[i := sv]> (server X)) (<[i := rest]> (Replicated.inbox X)) (trace X)).
Proof.
  intros [Hc Ha] Hq Hs. unfold Replicated.take_message. rewrite Hq. cbn [CommandValid SnapshotValid MsgSnapshot snapshot_msg mbind option_bind].
  unfold serve, sexec. cbn [server]. rewrite Ha, Hs. cbn [mbind option_bind emit]. eexists. split_and!; [| |reflexivity]; done.
Qed.

(** *** What a reader makes of a message *)

(** The reader of peer [i], about to read the message after position [p], has gone to [q]. *)
Record reads L cfg cfg' (i : Z) (p q : nat) : Prop := {
  rd_rafts : rafts cfg' = rafts cfg;
  rd_ok : cfg_ok L cfg';
  rd_other j k : j ≠ i → reader_at L cfg j k → reader_at L cfg' j k;
  rd_grows k : snapshot = false → reader_at L cfg i k → reader_at L cfg' i k;
  rd_next : reader_at L cfg i p → reader_at L cfg' i q;
}.

Lemma reads_intro L cfg cfg' i p q l :
  cfg_ok L cfg → 0 <= i < n → (q <= length L)%nat →
  logs cfg' = <[Z.to_nat i := l]> (logs cfg) →
  go_len (lastApplied cfg') = n →
  (snapshot = true → lastApplied cfg' = <[Z.to_nat i := Z.of_nat q]> (lastApplied cfg)) →
  connected cfg' = connected cfg → rafts cfg' = rafts cfg →
  (snapshot = true → log_ok L q l) →
  (∀ k l0, go_index (logs cfg) i = Some l0 → log_ok L k l0 → snapshot = false → log_ok L k l ∧ (k = p → log_ok L q l)) →
  reads L cfg cfg' i p q.
Proof.
  intros Hc Hi Hq Hl Hf Ht Hcn Hrf Hsn Hgr. pose proof (co_logs _ _ Hc) as Hlen. pose proof (co_applied _ _ Hc) as Hlen'.
  assert (∀ j, 0 <= i < go_len (logs cfg) → go_index (logs cfg') j = if decide (j = i) then Some l else go_index (logs cfg) j) as Hgo.
  { intros j Hj. rewrite Hl. destruct (Z.le_gt_cases 0 j); [by apply go_index_insert|].
    rewrite decide_False by lia. unfold go_index. by destruct (Z.ltb_spec j 0); [|lia]. }
  assert (snapshot = true → ∀ j, go_index (lastApplied cfg') j = if decide (j = i) then Some (Z.of_nat q) else go_index (lastApplied cfg) j) as Hga.
  { intros Hs j. rewrite (Ht Hs). destruct (Z.le_gt_cases 0 j); [apply go_index_insert; lia|].
    rewrite decide_False by lia. unfold go_index. by destruct (Z.ltb_spec j 0); [|lia]. }
  assert (∀ j k, j ≠ i → reader_at L cfg j k → reader_at L cfg' j k) as Hother.
  { intros j k Hne [Hr Ha]. split; [intros lj; rewrite Hgo, decide_False by lia; apply Hr|].
    intros Hs. rewrite Hga, decide_False by done. by apply Ha. }
  assert (∀ k, snapshot = false → reader_at L cfg i k → reader_at L cfg' i k) as Hown.
  { intros k Hs [Hr _]. split; [|by rewrite Hs]. intros li. rewrite Hgo, decide_True by lia. intros [= <-].
    destruct (go_index_lt (logs cfg) i ltac:(lia)) as [l0 El]. by apply (Hgr k l0 El); [apply Hr|]. }
  assert (snapshot = true → reader_at L cfg' i q) as Hnew.
  { intros Hs. split; [intros li; rewrite Hgo, decide_True by lia; intros [= <-]; by apply Hsn|].
    intros _. by rewrite Hga, decide_True. }
  split; [done| |done|done|].
  - split; [rewrite Hl| |by rewrite Hcn; apply Hc|by rewrite Hrf; apply Hc|].
    + unfold go_len in *. by rewrite length_insert.
    + done.
    + intros j Hj. destruct (co_reader _ _ Hc j Hj) as (k & Hk & Hr). destruct (decide (j = i)) as [->|Hne]; [|exists k; auto].
      destruct snapshot; [exists q; auto|exists k; auto].
  - intros [Hr Ha]. destruct snapshot eqn:Es; [by apply Hnew|]. split; [|congruence].
    intros li. rewrite Hgo, decide_True by lia. intros [= <-].
    destruct (go_index_lt (logs cfg) i ltac:(lia)) as [l0 El]. by apply (Hgr p l0 El); [apply Hr|..].
Qed.

(** The snapshot that goes with it *)
Definition snap_of L m (q : nat) : option (Z * bytes) :=
  if CommandValid m && snapshot && (Z.rem (Z.of_nat q + 1) SnapShotInterval =? 0)
  then Some (Z.of_nat q, gob_encode (go_len (take q L), xlog_of (take q L))) else None.

(** [checkLogs] on an entry of [L] *)
Lemma checkLogs_ok L cfg i k op : cfg_ok L cfg → 0 <= i < n → L !! k = Some op →
  ∃ cfg' l, checkLogs cfg i (command_msg (Some op) (Z.of_nat (k + 1))) = Some (cfg', true, bool_decide (is_Some (l !! Z.of_nat k)))
    ∧ go_index (logs cfg) i = Some l
    ∧ logs cfg' = <[Z.to_nat i := <[Z.of_nat (k + 1) := Some op]> l]> (logs cfg) ∧ lastApplied cfg' = lastApplied cfg
    ∧ connected cfg' = connected cfg ∧ rafts cfg' = rafts cfg.
Proof.
  intros Hc Hi Hop. pose proof (co_logs _ _ Hc) as Hlen.
  destruct (go_index_lt (logs cfg) i ltac:(lia)) as [l Hl].
  unfold checkLogs. rewrite Hl. cbn [mbind option_bind]. rewrite go_update_eq by lia. cbn [mbind option_bind].
  rewrite (no_conflict_ok _ _ _ k op Hc Hop) by done. cbn [CommandIndex command_msg MsgCommand].
  replace (Z.of_nat (k + 1) - 1) with (Z.of_nat k) by lia. eexists _, l. by split_and!.
Qed.

Lemma in_order L k l : log_ok L k l →
  (Z.of_nat (k + 1) >? 1) && negb (bool_decide (is_Some (l !! Z.of_nat k))) || false = false.
Proof.
  intros Hok. destruct k as [|j]; [done|]. rewrite bool_decide_true by (apply (lo_all _ _ _ Hok j); lia).
  by rewrite andb_false_r.
Qed.

Lemma read_command L cfg i k op : cfg_ok L cfg → 0 <= i < n → L !! k = Some op →
  let m := command_msg (Some op) (Z.of_nat (k + 1)) in
  (reader_at L cfg i k → is_Some (read_message snapshot i m cfg))
  ∧ ∀ cfg' snap, read_message snapshot i m cfg = Some (cfg', snap) → reads L cfg cfg' i k (k + 1) ∧ snap = snap_of L m (k + 1).
Proof.
  intros Hc Hi Hop m. pose proof (lookup_lt_Some _ _ _ Hop) as Hlt.
  destruct (checkLogs_ok L cfg i k op Hc Hi Hop) as (cfg1 & l & Hrun & Hl & Hls & Hla & Hcn & Hrf).
  pose proof (co_logs _ _ Hc) as Hlen. pose proof (co_applied _ _ Hc) as Hlen'.
  assert (∀ l0, go_index (logs cfg) i = Some l0 → l0 = l) as Heq by congruence. fold m in Hrun.
  unfold read_message, snap_of. cbn [CommandValid m command_msg andb]. destruct snapshot eqn:Es; cbn [andb].
  - unfold applierSnap. cbn [SnapshotValid CommandValid m command_msg CommandIndex]. fold m. rewrite Hrun.
    destruct (co_reader _ _ Hc i Hi) as (p & Hp & Hr & Ha). rewrite (Ha Es). cbn [mbind option_bind].
    destruct (Z.of_nat (k + 1) =? Z.of_nat p + 1) eqn:E; bools; cbn [negb].
    2:{ split; [|done]. intros [_ Hk]. specialize (Hk Es). rewrite (Ha Es) in Hk. injection Hk as Hk. lia. }
    assert (p = k) as -> by lia. rewrite (in_order L k l (Hr l Hl)). cbn [mbind option_bind].
    rewrite Hla, go_update_eq by lia. cbn [mbind option_bind logs set_applied].
    rewrite Hls, go_index_insert, decide_True by (lia || done). cbn [mbind option_bind].
    pose proof (log_ok_next _ k k _ _ Hop (Hr l Hl) (Nat.le_refl _)) as Hok. rewrite decide_True in Hok by done.
    rewrite (make_snapshot_eq L) by (lia || done). split; [by eexists|]. intros cfg' snap [= <- <-]. split; [|done].
    apply (reads_intro L cfg _ i k (k + 1) (<[Z.of_nat (k + 1) := Some op]> l)); try (done || lia || congruence).
    cbn. unfold go_len in *. by rewrite length_insert.
  - unfold RaftTester.applier. cbn [CommandValid negb m command_msg CommandIndex]. fold m. rewrite Hrun. cbn [mbind option_bind negb].
    split; [intros [Hr _]; rewrite (in_order L k l (Hr l Hl)); by eexists|].
    intros cfg' snap H. destruct (_ || _); [done|]. injection H as <- <-. split; [|done].
    apply (reads_intro L cfg _ i k (k + 1) (<[Z.of_nat (k + 1) := Some op]> l)); try (done || lia || congruence).
    intros k0 l0 ->%Heq Hok _. split; [by apply log_ok_insert|]. intros ->.
    pose proof (log_ok_next _ k k _ _ Hop Hok (Nat.le_refl _)) as Hn. by rewrite decide_True in Hn.
Qed.

Lemma read_snapshot L cfg i data (p q : nat) : cfg_ok L cfg → 0 <= i < n → (p < q <= length L)%nat →
  restoring [] (take q L) data →
  let m := snapshot_msg data (Z.of_nat q) in
  is_Some (read_message snapshot i m cfg)
  ∧ ∀ cfg' snap, read_message snapshot i m cfg = Some (cfg', snap) → reads L cfg cfg' i p q ∧ snap = snap_of L m q.
Proof.
  intros Hc Hi Hq Hres m. destruct (exact_restoring _ _ _ Hres) as (s & Hrun & Hs).
  rewrite run_ops_tester in Hrun. injection Hrun as Hrun. cbn in Hrun.
  assert (length s = q) as Hlen by (rewrite <- Hrun, length_take; lia).
  destruct (restores data s Hs) as (Hsn & Hd & Hr); [intros ->; cbn in Hlen; lia|].
  unfold read_message. rewrite Hsn. unfold applierSnap. cbn [SnapshotValid m snapshot_msg MsgSnapshot SnapshotIndex].
  rewrite (ingestSnap_ok L cfg i data (Z.of_nat q) s) by (apply Hc || done || (right; unfold go_len; lia)).
  cbn [mbind option_bind]. split; [by eexists|]. intros cfg' snap [= <- <-]. split; [|done].
  apply (reads_intro L cfg _ i p q (list_to_map (zip (seqZ 0 (go_len (xlog_of s))) (xlog_of s)))); try (done || lia || congruence).
  - cbn. pose proof (co_applied _ _ Hc). unfold go_len in *. by rewrite length_insert.
  - intros _. cbn. unfold go_len. by rewrite Hlen.
  - intros _. rewrite <- Hlen. apply log_ok_snapshot. rewrite <- Hrun. apply prefix_take.
Qed.

(** *** Queues *)

Lemma feeds_unique L k q a b : feeds [] L k q a → feeds [] L k q b → a = b.
Proof.
  intros H. revert b. induction H as [k|k op q k' _ _ IH|k x data q k' Hm _ _ IH]; intros b H2.
  - by inversion H2.
  - inversion H2; subst. by apply IH.
  - inversion H2 as [| |k2 y d2 q2 b2 Hy Hr2 Hq2]; subst. apply IH. by assert (x = y) as -> by lia.
Qed.

Lemma feeds_nil_inv L k p : feeds [] L k [] p → k = p.
Proof. intros H. by inversion H. Qed.

Lemma feeds_app_inv L k q q' k' : feeds [] L k (q ++ q') k' → ∃ a, feeds [] L k q a ∧ feeds [] L a q' k'.
Proof.
  revert k. induction q as [|msg q IH]; intros k H; [by exists k; split; [apply feeds_nil|]|].
  inversion H as [|k1 op q1 k1' Hop Hq|k1 x data q1 k1' Hx Hr Hq]; subst; destruct (IH _ Hq) as (a & ? & ?); exists a; split; try done.
  - by apply feeds_command.
  - by eapply feeds_snapshot.
Qed.

Lemma read_spec L cfg i m rest (p p' : nat) : cfg_ok L cfg → 0 <= i < n → feeds [] L p (m :: rest) p' →
  ∃ q, (q <= length L)%nat ∧ feeds [] L p [m] q ∧ feeds [] L q rest p'
    ∧ (reader_at L cfg i p → is_Some (read_message snapshot i m cfg))
    ∧ ∀ cfg' snap, read_message snapshot i m cfg = Some (cfg', snap) → reads L cfg cfg' i p q ∧ snap = snap_of L m q.
Proof.
  intros Hc Hi Hf. inversion Hf as [|k1 op q k1' Hop Hq'|k1 q data rest' k1' Hm Hr Hq']; subst.
  - exists (p + 1)%nat. pose proof (lookup_lt_Some _ _ _ Hop). destruct (read_command L cfg i p op Hc Hi Hop) as [Ha Hs].
    split_and!; [lia|apply feeds_command; [done|apply feeds_nil]|done|done|done].
  - exists q. destruct (read_snapshot L cfg i data p q Hc Hi Hm Hr) as [Ha Hs].
    split_and!; [lia|by eapply feeds_snapshot, feeds_nil|done|done|done].
Qed.

(** *** The channels *)

Lemma position L X i : world_inv n [] L X → 0 <= i < n →
  let k := length (state (server X i)) in
  (k <= length L)%nat ∧ state (server X i) = take k L
  ∧ ∃ k', feeds [] L k (Replicated.inbox X i) k' ∧ Z.of_nat k' <= RaftState.lastApplied (rf (peers (Replicated.cluster X) i)).
Proof.
  intros Hw Hi. destruct (wi_server _ _ _ _ Hw i Hi) as [(k & k' & [Hk Hst Hfe Hap _ _]) _].
  change (run_ops [] (take k L) = Some (state (server X i))) in Hst. rewrite run_ops_tester in Hst. injection Hst as Hst. cbn in Hst.
  rewrite <- Hst. cbn zeta. rewrite length_take, Nat.min_l by lia. split_and!; [done|done|by exists k'].
Qed.

(** A reader has changed the configuration. *)
Lemma old_ok_reads L cfg cfg' i p q iq : reads L cfg cfg' i p q → old_ok L cfg iq → old_ok L cfg' iq.
Proof.
  intros Hr (Hi & a & b & ? & ? & Ho). split; [done|]. exists a, b. split_and!; [done|done|]. intros Hcm Hs.
  destruct (decide (iq.1 = i)) as [<-|]; [apply (rd_grows _ _ _ _ _ _ Hr)|apply (rd_other _ _ _ _ _ _ Hr)]; auto.
Qed.

Lemma channel_ok_other L cfg cfg' i j p q kv all box : reads L cfg cfg' i p q → j ≠ i →
  channel_ok L cfg kv j all box → channel_ok L cfg' kv j all box.
Proof.
  intros Hr Hne [(taken & k & ? & ? & ? & Ho)]. split. exists taken, k. rewrite (rd_rafts _ _ _ _ _ _ Hr).
  split_and!; [done..|]. intros Hcm. apply (rd_other _ _ _ _ _ _ Hr); auto.
Qed.

(** Reading a message when the peer is running: the server of the service reads it too. *)
Lemma server_reads L X X' i m rest (p q : nat) w : world_inv n [] L X → 0 <= i < n → quiet (server X i) →
  Replicated.inbox X i = m :: rest → p = length (state (server X i)) → feeds [] L p [m] q →
  match snap_of L m q with
  | Some (index, data) => exec n (ASnapshot i index data) (Replicated.cluster X) = Some w
  | None => w = Replicated.cluster X
  end →
  ∃ sv, quiet sv ∧ length (state sv) = q ∧
    Replicated.take_message n i 0 X = Some (MkWorld w (<[i := sv]> (server X)) (<[i := rest]> (Replicated.inbox X)) (trace X)).
Proof.
  intros Hw Hi Hq Hbox -> Hf Hsn. destruct (position _ _ _ Hw Hi) as (Hk & Hst & _). set (k := length (state (server X i))) in *.
  inversion Hf as [|k1 op q1 k1' Hop Hq'|k1 x data q1 k1' Hm Hr Hq']; subst; inversion Hq'; subst.
  - destruct (take_command X i op rest _ Hq Hbox) as (sv & Hsv & Hqs & Htake). exists sv.
    assert (state sv = take (k + 1) L) as Hsv'.
    { rewrite Hsv, Hst. replace (k + 1)%nat with (S k) by lia. symmetry. by apply take_S_r. }
    pose proof (lookup_lt_Some _ _ _ Hop). assert (go_len (take (k + 1) L) = Z.of_nat (k + 1)) as Hlen.
    { unfold go_len. rewrite length_take. lia. }
    split_and!; [done|rewrite Hsv', length_take; lia|]. rewrite Htake. cbn [sm_snapshot tester_machine]. rewrite Hsv', Hlen.
    unfold snap_of in Hsn. cbn [CommandValid command_msg andb] in Hsn. rewrite Hlen in Hsn.
    destruct (snapshot && _); [|by subst w]. cbn [emit Replicated.cluster]. by rewrite Hsn.
  - destruct (exact_restoring _ _ _ Hr) as (s & Hrun & Hs). rewrite run_ops_tester in Hrun. injection Hrun as Hrun. cbn in Hrun.
    destruct (take_snapshot X i data rest _ s Hq Hbox Hs) as (sv & Hsv & Hqs & Htake). exists sv.
    split_and!; [done|rewrite Hsv, <- Hrun, length_take; lia|]. cbn in Hsn. by subst w.
Qed.

(** No message stops a reader. *)
Lemma take_inv L T i m rest : tester_inv L T → 0 <= i < n → inbox T i = m :: rest →
  (calm = true → is_Some (take_message n snapshot i T))
  ∧ ∀ T', take_message n snapshot i T = Some T' → tester_inv L T'.
Proof.
  intros (X & [Hw Hcl Hq Hc Hch Hold]) Hi Hbox. destruct (Hch i Hi) as [(taken & p & Hall & Hf & Hrun & Hat)].
  destruct (position _ _ _ Hw Hi) as (Hk & Hst & k' & Hfe & Hap). rewrite Hall, Hbox in Hfe.
  destruct (feeds_app_inv _ _ _ _ _ Hfe) as (p2 & Hf2 & Hfr). assert (p2 = p) as -> by by eapply feeds_unique.
  destruct (read_spec L (cfg_of T) i m rest p k' Hc Hi Hfr) as (q & Hql & Hf1 & Hfq & Hacc & Hpost).
  unfold take_message. rewrite Hbox. destruct (read_message snapshot i m (cfg_of T)) as [[cfg' snap]|] eqn:E; cbn [mbind option_bind].
  2:{ split; [|done]. intros Hcm. by destruct (Hacc (Hat Hcm)). }
  destruct (Hpost _ _ eq_refl) as [Hr ->]. rewrite (rd_rafts _ _ _ _ _ _ Hr).
  assert (∀ X', world_inv n [] L X' → ∀ w, Replicated.cluster X' = w →
    (∀ j, 0 <= j < n → j ≠ i → server X' j = server X j ∧ Replicated.inbox X' j = Replicated.inbox X j) →
    quiet (server X' i) → channel_ok L cfg' (server X' i) i (Replicated.inbox X' i) rest →
    tester_inv L (MkTester w (<[i := rest]> (inbox T)) (old T) cfg')) as Hrel.
  { intros X' Hw' w Hcl' Hoth Hqs Hci. exists X'. split; cbn; [done|done| |by eapply rd_ok| |].
    - intros j Hj. destruct (decide (j = i)) as [->|Hne]; [done|]. destruct (Hoth j Hj Hne) as [-> _]. by apply Hq.
    - intros j Hj. destruct (decide (j = i)) as [->|Hne]; [by rewrite fn_lookup_insert|]. rewrite fn_lookup_insert_ne by done.
      destruct (Hoth j Hj Hne) as [-> ->]. eapply channel_ok_other; [done|done|by apply Hch].
    - intros iq Hin. eapply old_ok_reads; [done|by apply Hold]. }
  assert (channel_ok L cfg' (server X i) i (Replicated.inbox X i) rest ∨ go_index (rafts (cfg_of T)) i = Some true) as Hcase.
  { destruct (decide (go_index (rafts (cfg_of T)) i = Some true)) as [|Hno]; [by right|left]. split.
    exists (taken ++ [m]), q. split_and!; [by rewrite Hall, Hbox, <- (assoc_L (++))|by eapply feeds_app| |].
    - rewrite (rd_rafts _ _ _ _ _ _ Hr). by intros.
    - intros Hcm. apply (rd_next _ _ _ _ _ _ Hr); auto. }
  destruct (decide (go_index (rafts (cfg_of T)) i = Some true)) as [Hup|Hdown].
  - rewrite Hup. cbn [default]. specialize (Hrun Hup) as ->. cbn in Hall. rewrite Hbox in Hall. apply feeds_nil_inv in Hf as <-.
    assert (∀ w, match snap_of L m q with
      | Some (index, data) => exec n (ASnapshot i index data) (cluster T) = Some w | None => w = cluster T end →
      tester_inv L (MkTester w (<[i := rest]> (inbox T)) (old T) cfg')) as Hdone.
    { intros w Hsn. rewrite <- Hcl in Hsn.
      destruct (server_reads L X X i m rest _ q w Hw Hi (Hq i Hi) Hall eq_refl Hf1 Hsn) as (sv & Hqs & Hlen & Htake).
      eapply Hrel; [eapply (take_message_inv n [] L X); [exact Hi|done|exact Htake]|done| | |]; cbn.
      - intros j _ Hne. by rewrite !fn_lookup_insert_ne.
      - by rewrite fn_lookup_insert.
      - rewrite !fn_lookup_insert. split. exists [], q. split_and!; [done|rewrite Hlen; apply feeds_nil|done|].
        intros Hcm. apply (rd_next _ _ _ _ _ _ Hr); auto. }
    destruct (snap_of L m q) as [[index data]|] eqn:Es; cbn [mbind option_bind].
    + assert (index = Z.of_nat q) as ->.
      { unfold snap_of in Es. destruct (_ && _); [|done]. by injection Es. }
      assert (is_Some (exec n (ASnapshot i (Z.of_nat q) data) (cluster T))) as [w Hx].
      { rewrite <- Hcl. apply snapshot_returns; [by eapply wi_full|done|]. apply feeds_le in Hfq; lia. }
      rewrite Hx. cbn [mbind option_bind]. split; [by eexists|]. intros T' [= <-]. by apply Hdone.
    + split; [by eexists|]. intros T' [= <-]. by apply Hdone.
  - destruct Hcase as [Hci|]; [|done].
    assert (default false (go_index (rafts (cfg_of T)) i) = false) as -> by by destruct (go_index _ _) as [[]|].
    assert (∀ o : option (Z * bytes), match o with Some (_, _) => Some (cluster T) | None => Some (cluster T) end = Some (cluster T)) as Ho
      by by intros [[]|].
    rewrite Ho. cbn [mbind option_bind]. split; [by eexists|]. intros T' [= <-].
    by apply (Hrel X); [done|done|intros; done|by apply Hq|].
Qed.

Lemma take_old_inv L T k i m rest : tester_inv L T → old T !! k = Some (i, m :: rest) → (calm = true → snapshot = false) →
  (calm = true → is_Some (take_old snapshot k T))
  ∧ ∀ T', take_old snapshot k T = Some T' → tester_inv L T'.
Proof.
  intros (X & [Hw Hcl Hq Hc Hch Hold]) Hk Hord. destruct (Hold (i, m :: rest)) as (Hi & p & p' & Hp & Hf & Hat); [by eapply list_elem_of_lookup_2|].
  cbn in Hi, Hf, Hat. destruct (read_spec L (cfg_of T) i m rest p p' Hc Hi Hf) as (q & Hql & Hf1 & Hfq & Hacc & Hpost).
  unfold take_old. rewrite Hk. destruct (read_message snapshot i m (cfg_of T)) as [[cfg' snap]|] eqn:E; cbn [mbind option_bind].
  2:{ split; [|done]. intros Hcm. by destruct (Hacc (Hat Hcm (Hord Hcm))). }
  destruct (Hpost _ _ eq_refl) as [Hr _]. split; [by eexists|]. intros T' [= <-].
  exists X. split; cbn; [done|done|done|by eapply rd_ok| |].
  - intros j Hj. destruct (decide (j = i)) as [->|Hne]; [|eapply channel_ok_other; [done|done|by apply Hch]].
    destruct (Hch i Hi) as [(taken & a & ? & ? & ? & Ha)]. split. exists taken, a. rewrite (rd_rafts _ _ _ _ _ _ Hr).
    split_and!; [done..|]. intros Hcm. apply (rd_grows _ _ _ _ _ _ Hr); auto.
  - intros iq [j Hj]%list_elem_of_lookup. destruct (decide (j = k)) as [->|Hne].
    + rewrite list_lookup_insert_eq in Hj by by eapply lookup_lt_Some. injection Hj as <-. split; [done|]. exists q, p'.
      split_and!; [done|done|]. cbn. intros Hcm Hs. apply (rd_next _ _ _ _ _ _ Hr); auto.
    + rewrite list_lookup_insert_ne in Hj by done. eapply old_ok_reads; [done|]. by eapply Hold, list_elem_of_lookup_2.
Qed.

(** ** Steps *)

(** The configuration changes in what the readers do not look at. *)
Definition same_logs cfg cfg' : Prop := logs cfg' = logs cfg ∧ lastApplied cfg' = lastApplied cfg.

Lemma cfg_ok_same L cfg cfg' : cfg_ok L cfg → same_logs cfg cfg' →
  go_len (connected cfg') = n → go_len (rafts cfg') = n → cfg_ok L cfg'.
Proof. intros [] [Hl Ha] ? ?. split; rewrite ?Hl, ?Ha; try done. intros i Hi. destruct (co_reader0 i Hi) as (p & ? & Hr). exists p. by unfold reader_at in *; rewrite Hl, Ha. Qed.

(** A step of the service that leaves the servers alone; the peers deliver [msgs]. *)
Lemma related_step L L' X X' T w q msgs : related L X T → L `prefix_of` L' → world_inv n [] L' X' → server X' = server X →
  Replicated.cluster X' = w → (∀ i, Replicated.inbox X' i = Replicated.inbox X i ++ msgs i) → (∀ i, q i = inbox T i ++ msgs i) →
  tester_inv L' (MkTester w q (old T) (cfg_of T)).
Proof.
  intros [_ _ Hq Hc Hch Hold] Hp Hw Hs <- Hi' Hq'. exists X'. split; cbn; try done; [by rewrite Hs|by eapply cfg_ok_mono| |].
  - intros i Hi. destruct (channel_ok_mono _ _ _ _ _ _ _ Hp (Hch i Hi)) as [(taken & p & Hall & ? & ? & ?)].
    split. exists taken, p. rewrite Hs, Hi', Hall, Hq', (assoc_L (++)). done.
  - intros iq Hin. by eapply old_ok_mono, Hold.
Qed.

Lemma wraft_inv L T act w : 0 <= n → tester_inv L T → internal act = true → exec n act (cluster T) = Some w →
  ∃ L', L `prefix_of` L' ∧ tester_inv L' (MkTester w (inbox T) (old T) (cfg_of T)).
Proof.
  intros Hn (X & Hre) Hint Hx. pose proof Hre as [Hw Hcl _ _ _ _].
  destruct (wexec_inv n [] L (WRaft act) X (MkWorld w (server X) (Replicated.inbox X) (trace X)) Hn Hw) as (L' & Hp & Hw').
  { cbn [wexec]. change (Replicated.internal act) with (internal act). by rewrite Hint, Hcl, Hx. }
  exists L'. split; [done|]. eapply (related_step L L' X _ T w _ (λ _, [])); try done; intros i; by rewrite app_nil_r.
Qed.

(** The tester marks a peer; a peer that runs again has a channel of which nothing has
    been read. *)
Lemma mark_inv L T cfg : tester_inv L T → same_logs (cfg_of T) cfg → go_len (connected cfg) = n → go_len (rafts cfg) = n →
  (∀ i, go_index (rafts cfg) i = Some true → go_index (rafts (cfg_of T)) i = Some true) →
  tester_inv L (MkTester (cluster T) (inbox T) (old T) cfg).
Proof.
  intros (X & [Hw Hcl Hq Hc Hch Hold]) Hl Hcn Hrf Hup. exists X.
  assert (∀ i p, reader_at L (cfg_of T) i p → reader_at L cfg i p) as Hr by (intros i p; unfold reader_at; by destruct Hl as [-> ->]).
  split; try done; cbn; [by eapply cfg_ok_same| |].
  - intros i Hi. destruct (Hch i Hi) as [(taken & p & ? & ? & ? & ?)]. split. exists taken, p. split_and!; auto.
  - intros iq Hin. destruct (Hold iq Hin) as (? & p & p' & ? & ? & ?). split; [done|]. exists p, p'. split_and!; auto.
Qed.

Lemma set_connected_inv L T i b T' : tester_inv L T → set_connected i b T = Some T' → tester_inv L T' ∧ 0 <= i < n.
Proof.
  intros Ht H. pose proof Ht as (X & [_ _ _ Hc _ _]). unfold set_connected in H.
  destruct (go_update _ _ _) as [cn|] eqn:E; [|done]. injection H as <-.
  apply go_update_Some in E as [Hi ->]. rewrite (co_connected _ _ Hc) in Hi. split; [|done].
  apply mark_inv; [done|done| |apply Hc|done]. cbn. unfold go_len. rewrite length_insert. apply Hc.
Qed.

Lemma set_raft_false_inv L T i T' : tester_inv L T → set_raft i false T = Some T' → tester_inv L T' ∧ 0 <= i < n.
Proof.
  intros Ht H. pose proof Ht as (X & [_ _ _ Hc _ _]). unfold set_raft in H.
  destruct (go_update _ _ _) as [rs|] eqn:E; [|done]. injection H as <-.
  apply go_update_Some in E as [Hi ->]. pose proof (co_rafts _ _ Hc) as Hlen. split; [|lia].
  apply mark_inv; [done|done|apply Hc| |]; cbn.
  - unfold go_len in *. by rewrite length_insert.
  - intros j Hj. assert (0 <= j) as Hj0 by (apply go_index_lookup in Hj; lia).
    rewrite go_index_insert in Hj by lia. by case_decide.
Qed.

Lemma crash1_inv L T i T' : 0 <= n → tester_inv L T → crash1 n i T = Some T' → ∃ L', L `prefix_of` L' ∧ tester_inv L' T' ∧ 0 <= i < n.
Proof.
  intros Hn Ht H. unfold crash1 in H. destruct (set_connected _ _ _) as [T1|] eqn:E; cbn [mbind option_bind] in H; [|done].
  destruct (set_connected_inv _ _ _ _ _ Ht E) as (Ht1 & Hi).
  destruct (exec n _ _) as [w|] eqn:Hx; cbn [mbind option_bind] in H; [|done].
  destruct (wraft_inv L T1 (AKill i) w Hn Ht1 eq_refl Hx) as (L' & Hp & Ht'). exists L'. split; [done|].
  split; [|done]. by eapply set_raft_false_inv.
Qed.

(** What a peer that starts again finds on its disk *)
Lemma disk_state L X i env w : world_inv n [] L X → 0 <= i < n → exec n (ARestart i env) (Replicated.cluster X) = Some w →
  let data := ReadSnapshot (persister (rf (peers (Replicated.cluster X) i))) in
  ReadSnapshot (persister (rf (peers w i))) = data ∧ ∃ s, sm_restore [] data = Some s.
Proof.
  intros Hw Hi Hx data. pose proof (wi_full _ _ _ _ Hw) as Hf. pose proof (wi_raft _ _ _ _ Hw) as Hr.
  destruct (ci_node _ _ (bi_cluster _ _ (fi_basic _ _ Hf)) i Hi) as (Hwf & Hme & Hnp).
  unfold exec in Hx. destruct (negb (in_cluster n i)); [done|].
  destruct (Make env n i _) as [r1|] eqn:Hm; cbn [mbind option_bind] in Hx; [|done]. injection Hx as <-.
  destruct (Make_stores env (rf (peers (Replicated.cluster X) i)) r1 Hwf) as (Hd & _); [by rewrite Hnp, Hme|].
  rewrite peers_update, decide_True by done. split; [exact (f_equal fst Hd)|].
  destruct (ri_disk _ _ _ _ Hr i Hi) as [Hz|(ops & _ & Hs)].
  - exists []. unfold data. change (ReadSnapshot _) with (dsnap (rf (peers (Replicated.cluster X) i))).1. by rewrite Hz.
  - destruct (exact_restoring _ _ _ Hs) as (s & _ & Hr'). exists s. apply Hr'.
Qed.

Lemma start_state data s : sm_restore [] data = Some s → data = [] ∧ s = [] ∨ snapshot = true ∧ data ≠ [] ∧ read_xlog data = Some s.
Proof.
  cbn. case_bool_decide as Hd; [intros [= <-]; by left|]. destruct snapshot; [|done]. by right.
Qed.

(** What the configuration makes of it *)
Lemma start_logs L cfg cfg' i data s : cfg_ok L cfg → 0 <= i < n → sm_restore [] data = Some s → s `prefix_of` L →
  let cfg0 := set_applied cfg (<[Z.to_nat i := 0]> (lastApplied cfg)) in
  (if go_len data >? 0 then ingestSnap cfg0 i data (-1) else Some cfg0) = Some cfg' →
  reads L cfg cfg' i 0 (length s) ∧ reader_at L cfg' i (length s) ∧ rafts cfg' = rafts cfg ∧ connected cfg' = connected cfg.
Proof.
  intros Hc Hi Hs Hp cfg0 H. pose proof (co_logs _ _ Hc) as Hlen. pose proof (co_applied _ _ Hc) as Hlen'.
  assert (go_len (lastApplied cfg0) = n) as Hlen0 by (cbn; unfold go_len in *; by rewrite length_insert).
  destruct (go_index_lt (logs cfg) i ltac:(lia)) as [l Hl]. pose proof (prefix_length _ _ Hp) as Hle.
  assert (∀ cfg2, reads L cfg cfg2 i 0 (length s) → (snapshot = true → log_ok L (length s) (default ∅ (go_index (logs cfg2) i))) →
    (snapshot = true → go_index (lastApplied cfg2) i = Some (Z.of_nat (length s))) → (snapshot = false → s = []) →
    reader_at L cfg2 i (length s)) as Hat.
  { intros cfg2 Hr H1 H2 H3. split; [|done]. intros l2 Hl2. destruct snapshot eqn:E; [by rewrite Hl2 in H1; apply H1|].
    rewrite H3 by done. destruct (co_reader _ _ (rd_ok _ _ _ _ _ _ Hr) i Hi) as (k & _ & Hk & _). destruct (Hk l2 Hl2). split; [done|]. cbn. lia. }
  destruct (start_state data s Hs) as [[-> ->]|(Hsn & Hd & Hr)].
  - cbn in H. injection H as <-.
    assert (log_ok L 0 l) as Hok.
    { destruct (co_reader _ _ Hc i Hi) as (k & _ & Hk & _). destruct (Hk l Hl). split; [done|]. lia. }
    assert (reads L cfg cfg0 i 0 0) as Hrd.
    { apply (reads_intro L cfg cfg0 i 0 0 l); try (done || lia).
      - cbn. symmetry. apply list_insert_id. by apply go_index_lookup in Hl as [_ Hl].
      - intros k l0. rewrite Hl. intros [= <-] ? _. by split. }
    split_and!; [done| |done|done]. apply Hat; [done|cbn; rewrite Hl; by intros _|intros _|done].
    cbn. rewrite go_index_insert by lia. by rewrite decide_True.
  - rewrite (ingestSnap_ok L cfg0 i data (-1) s) in H by (done || by left).
    assert (go_len data >? 0 = true) as E.
    { destruct data; [done|]. apply Z.gtb_lt. unfold go_len. cbn. lia. }
    rewrite E in H. injection H as <-.
    split_and!; [apply (reads_intro L cfg _ i 0 (length s) (list_to_map (zip (seqZ 0 (go_len (xlog_of s))) (xlog_of s)))); try (done || congruence)| |done|done].
    + cbn. unfold go_len in *. by rewrite !length_insert.
    + intros _. cbn. by rewrite list_insert_insert_eq.
    + intros _. by apply log_ok_snapshot.
    + split; cbn.
      * intros l2. rewrite go_index_insert, decide_True by (lia || done). intros [= <-]. by apply log_ok_snapshot.
      * intros _. cbn in Hlen0. rewrite go_index_insert, decide_True by (lia || done). done.
Qed.

Lemma start1_inv L T i env T' : 0 <= n → tester_inv L T → start1 n i env T = Some T' → ∃ L', L `prefix_of` L' ∧ tester_inv L' T'.
Proof.
  intros Hn Ht H. unfold start1 in H. destruct (crash1 _ _ _) as [T1|] eqn:E; cbn [mbind option_bind] in H; [|done].
  destruct (crash1_inv _ _ _ _ Hn Ht E) as (L1 & Hp1 & (X & [Hw Hcl Hq Hc Hch Hold]) & Hi). clear E Ht T.
  rewrite go_update_eq in H by (rewrite (co_applied _ _ Hc); lia). cbn [mbind option_bind] in H.
  destruct (if go_len _ >? 0 then _ else _) as [cfg'|] eqn:Hcfg; cbn [mbind option_bind] in H; [|done].
  destruct (exec n _ _) as [w|] eqn:Hx; cbn [mbind option_bind] in H; [|done]. rewrite <- Hcl in *.
  destruct (disk_state L1 X i env w Hw Hi Hx) as [Hd [s Hs]].
  set (X2 := MkWorld w (<[i := start_server s]> (server X)) (<[i := []]> (Replicated.inbox X)) (trace X)).
  assert (Replicated.restart n [] i env X = Some X2) as Hr.
  { unfold Replicated.restart. rewrite Hx. cbn [mbind option_bind]. by rewrite Hd, Hs. }
  destruct (restart_inv n [] L1 X _ i env Hi Hw Hr) as (L2 & Hp2 & Hw2). exists L2. split; [by etrans|].
  assert (s `prefix_of` L2) as Hps.
  { destruct (position L2 X2 i Hw2 Hi) as (_ & Hst & _). cbn in Hst. rewrite fn_lookup_insert in Hst. cbn in Hst.
    rewrite Hst. apply prefix_take. }
  destruct (start_logs L2 (cfg_of T1) cfg' i _ s (cfg_ok_mono _ _ _ Hp2 Hc) Hi Hs Hps Hcfg) as (Hrd & Hat & Hrf & Hcn).
  unfold set_raft in H. destruct (go_update _ _ _) as [rs|] eqn:Hu; [|done]. injection H as <-. cbn [cfg_of] in *.
  apply go_update_Some in Hu as [_ ->]. pose proof (rd_ok _ _ _ _ _ _ Hrd) as Hc'. pose proof (co_rafts _ _ Hc') as Hlrf.
  exists X2. split; cbn; [done|done| | | |].
  - intros j Hj. destruct (decide (j = i)) as [->|Hne]; [by rewrite fn_lookup_insert|rewrite fn_lookup_insert_ne by done; by apply Hq].
  - eapply cfg_ok_same; [exact Hc'|done|apply Hc'|]. cbn. unfold go_len in *. by rewrite length_insert.
  - intros j Hj. destruct (decide (j = i)) as [->|Hne].
    + rewrite !fn_lookup_insert. split. exists [], (length s). by split_and!; [|apply feeds_nil| |].
    + rewrite !fn_lookup_insert_ne by done.
      destruct (channel_ok_other _ _ _ i j _ _ _ _ _ Hrd Hne (channel_ok_mono _ _ _ _ _ _ _ Hp2 (Hch j Hj))) as [(taken & p & ? & ? & Hup & ?)].
      split. exists taken, p. split_and!; try done. cbn. rewrite go_index_insert, decide_False by (lia || done). done.
  - intros iq [Hin| ->%list_elem_of_singleton]%elem_of_app.
    + destruct (old_ok_reads _ _ _ _ _ _ _ Hrd (old_ok_mono _ _ _ _ Hp2 (Hold iq Hin))) as (? & p & p' & ? & ? & ?).
      split; [done|]. by exists p, p'.
    + destruct (channel_ok_mono _ _ _ _ _ _ _ Hp2 (Hch i Hi)) as [(taken & p & Hall & Hf & _ & Hp)].
      destruct (position _ _ _ Hw Hi) as (Hk & _ & k' & Hfe & _). apply (feeds_mono _ _ L2) in Hfe; [|done]. rewrite Hall in Hfe.
      destruct (feeds_app_inv _ _ _ _ _ Hfe) as (p2 & Hf2 & Hfr). assert (p2 = p) as -> by by eapply feeds_unique.
      pose proof (prefix_length _ _ Hp2). split; [done|]. exists p, k'. cbn.
      split_and!; [apply feeds_le in Hf; lia|done|]. intros Hcm Hsn. apply (rd_grows _ _ _ _ _ _ Hrd); auto.
Qed.

Lemma tstart_inv L T i cmd w : 0 <= n → tester_inv L T → exec n (AStart i (Some cmd)) (cluster T) = Some w →
  tester_inv L (MkTester w (inbox T) (old T) (cfg_of T)).
Proof.
  intros Hn (X & Hre) Hx. pose proof Hre as [Hw Hcl _ _ _ _]. rewrite <- Hcl in Hx.
  assert (world_inv n [] L (MkWorld w (server X) (Replicated.inbox X) (trace X ++ [WCall i cmd]))) as Hw'.
  { eapply quiet_step; [done|done| |exact Hx|done..|]; [done|]. by intros j o v ?%list_elem_of_singleton. }
  eapply (related_step L L X _ T w _ (λ _, [])); try done; intros j; by rewrite app_nil_r.
Qed.

Lemma deliver_tester_inv L T i T' : 0 <= i < n → tester_inv L T → deliver n i T = Some T' → ∃ L', L `prefix_of` L' ∧ tester_inv L' T'.
Proof.
  intros Hi (X & Hre) H. pose proof Hre as [Hw Hcl _ _ _ _]. unfold deliver in H.
  destruct (apply _) as [[r msg]|] eqn:Ha; cbn [mbind option_bind] in H; [|done].
  destruct (exec n _ _) as [w|] eqn:Hx; cbn [mbind option_bind] in H; [|done]. injection H as <-.
  destruct (deliver_inv n [] L X (MkWorld w (server X) (<[i := Replicated.inbox X i ++ option_list msg]> (Replicated.inbox X)) (trace X)) i Hi Hw)
    as (L' & Hp & Hw').
  { unfold Replicated.deliver. rewrite Hcl, Ha. cbn [mbind option_bind]. by rewrite Hx. }
  exists L'. split; [done|]. eapply (related_step L L' X _ T w _ (λ j, if decide (j = i) then option_list msg else [])); try done; cbn.
  - intros j. case_decide as Hd; [subst; by rewrite fn_lookup_insert|rewrite fn_lookup_insert_ne by done; by rewrite app_nil_r].
  - intros j. case_decide as Hd; [subst; by rewrite fn_lookup_insert|rewrite fn_lookup_insert_ne by done; by rewrite app_nil_r].
Qed.

Lemma texec_inv L act T T' : 0 <= n → tester_inv L T → (calm = true → orderly snapshot act = true) → texec n snapshot act T = Some T' →
  ∃ L', L `prefix_of` L' ∧ tester_inv L' T'.
Proof.
  intros Hn Ht Hord H. destruct act as [act|i|i|k|i cmd|i|i|i|i env]; cbn [texec] in H.
  - destruct (internal act) eqn:Hint; [|done]. destruct (exec n _ _) as [w|] eqn:Hx; cbn [mbind option_bind] in H; [|done].
    injection H as <-. by eapply wraft_inv.
  - destruct (in_cluster n i) eqn:Hi; [|done]. eapply deliver_tester_inv; [|done|done]. apply in_cluster_spec. by rewrite Hi.
  - destruct (in_cluster n i) eqn:Hi; [|done]. exists L. split; [done|]. destruct (inbox T i) as [|m rest] eqn:E.
    { unfold take_message in H. by rewrite E in H. }
    eapply take_inv; [done| |done|done]. apply in_cluster_spec. by rewrite Hi.
  - exists L. split; [done|]. destruct (old T !! k) as [[i [|m rest]]|] eqn:E; [by unfold take_old in H; rewrite E in H| |by unfold take_old in H; rewrite E in H].
    eapply take_old_inv; [done|done| |done]. intros Hcm. specialize (Hord Hcm). cbn in Hord. by destruct snapshot.
  - destruct (exec n _ _) as [w|] eqn:Hx; cbn [mbind option_bind] in H; [|done]. injection H as <-.
    exists L. split; [done|]. by eapply tstart_inv.
  - exists L. split; [done|]. by eapply set_connected_inv.
  - exists L. split; [done|]. by eapply set_connected_inv.
  - destruct (crash1_inv L T i T' Hn Ht H) as (L' & ? & ? & _). by exists L'.
  - by eapply start1_inv.
Qed.
End tester.

(** ** Runs *)

Section runs.
Context {C : Type} `{!EqDecision C, !GobCodec (PState C), !GobLaws (PState C), !GobCodec (TSnapshot C), !GobLaws (TSnapshot C)}.
Context (n : Z) (snapshot : bool).
Implicit Types (L : list C) (T : Tester (C := C)).

Lemma tsteps_inv L T T' : 0 <= n → tester_inv n snapshot false L T → rtc (tstep n snapshot) T T' →
  ∃ L', L `prefix_of` L' ∧ tester_inv n snapshot false L' T'.
Proof.
  intros Hn Ht Hr. revert L Ht. induction Hr as [T|T1 T2 T3 [act Hs] _ IH]; intros L Ht; [by exists L|].
  destruct (texec_inv n snapshot false _ _ _ _ Hn Ht ltac:(done) Hs) as (L2 & Hp2 & Ht2). destruct (IH L2 Ht2) as (L3 & Hp3 & Ht3).
  exists L3. split; [by etrans|done].
Qed.

Lemma treachable_inv T : 0 <= n → treachable n snapshot T → ∃ L, tester_inv n snapshot false L T.
Proof.
  intros Hn [envs Hr]. destruct (tsteps_inv [] _ _ Hn (tester_inv_init _ _ _ envs Hn) Hr) as (L & _ & Ht). by exists L.
Qed.

Lemma oreachable_inv T : 0 <= n → oreachable n snapshot T → ∃ L, tester_inv n snapshot true L T.
Proof.
  intros Hn [envs Hr]. revert Hr. apply (rtc_ind_r (λ T, ∃ L, tester_inv n snapshot true L T)).
  - exists []. by apply tester_inv_init.
  - intros T1 T2 _ (act & Ho & Hs) (L & Ht). destruct (texec_inv n snapshot true _ _ _ _ Hn Ht ltac:(done) Hs) as (L' & _ & Ht'). by exists L'.
Qed.
End runs.
