(* ===== verification/RaftTesterProps.v ===== *)
(** * The tests of Raft find no fault with it

    The tester's readers never see a message that they would stop at
    ([tester_accepts]); an agreement that [one] has seen stays one
    ([one_agreement]); the peers that a test asks never show two leaders of a term,
    and the leader that [checkOneLeader] finds leads the last term seen
    ([one_leader_found]). *)

From S2P Require Import Prelude Util Labgob RaftState RaftHandlers RaftLeader RaftNode RaftRecv RaftSend RaftCluster RaftElection RaftClusterInv RaftLogMatching RaftSteps RaftSafety RaftTree RaftTrans RaftAncestry RaftStore RaftCompleteness RaftCommit RaftStateMachine RaftProps RaftRuns OpServer Replicated ReplicatedInv ReplicatedSteps RaftTester RaftTesterInv.

#[local] Arguments exec : simpl never.

Section tester.
Context {C : Type} `{!EqDecision C, !GobCodec (PState C), !GobLaws (PState C), !GobCodec (TSnapshot C), !GobLaws (TSnapshot C)}.
Context (n : Z) (snapshot : bool).
Abbreviation cfg_ok := (RaftTesterInv.cfg_ok n snapshot).
Abbreviation tester_inv := (RaftTesterInv.tester_inv n snapshot false).
Implicit Types (cfg : config C) (m : ApplyMsg C) (s L : list C) (l : CLog C) (X : RWorld C) (T : Tester (C := C)).

(** ** Agreements *)

(** The entry that every log has at an index, if it has one *)
Definition entry_of L (index : Z) : option C := if index =? 0 then None else L !! Z.to_nat (index - 1).

Lemma log_ok_entry L p l index v : log_ok L p l → l !! index = Some v → v = entry_of L index.
Proof.
  intros [Hs _] Hv. unfold entry_of. destruct (Hs _ _ Hv) as [[-> ->]|(j & op & -> & -> & <-)]; [done|].
  destruct (Z.of_nat (S j) =? 0) eqn:E; bools; [lia|]. f_equal. lia.
Qed.

Lemma logs_entry L cfg i l index v : cfg_ok L cfg → go_index (logs cfg) i = Some l → l !! index = Some v → v = entry_of L index.
Proof.
  intros Hc Hl Hv. assert (0 <= i < go_len (logs cfg)) as Hi by (apply go_index_is_Some; by eexists).
  rewrite (co_logs _ _ _ _ Hc) in Hi. destruct (co_reader _ _ _ _ Hc i Hi) as (p & _ & Hr & _).
  eapply log_ok_entry; [by apply Hr|done].
Qed.

(** What the logs have at an index is one command, when they are read at any moments. *)
Lemma nCommitted_entry L (obs : Z → config C) index : (∀ i, 0 <= i < n → cfg_ok L (obs i)) →
  ∃ nd c, nCommitted n obs index = Some (nd, c) ∧ (0 < nd → c = entry_of L index).
Proof.
  intros Hc. unfold nCommitted.
  edestruct (foldM_inv (λ acc i, l ← go_index (logs (obs i)) i; match l !! index with
      | Some cmd1 => if (acc.1 >? 0) && negb (bool_decide (acc.2 = cmd1)) then None else Some (acc.1 + 1, cmd1)
      | None => Some acc end)
    (λ _ acc, 0 <= acc.1 ∧ (0 < acc.1 → acc.2 = entry_of L index))
    (seqZ 0 n) (0, None)) as ([nd c] & Hrun & Hnd & Hcc); [done| |by exists nd, c].
  intros seen i rest [nd c] Hl [Hnd Hcc]. cbn in Hnd, Hcc |- *.
  assert (0 <= i < n) as Hi.
  { assert (i ∈ seqZ 0 n) as Hin%elem_of_seqZ; [|lia]. rewrite Hl. apply elem_of_app. right. by left. }
  destruct (go_index_lt (logs (obs i)) i ltac:(rewrite (co_logs _ _ _ _ (Hc i Hi)); lia)) as [l Hgo]. rewrite Hgo. cbn [mbind option_bind].
  destruct (l !! index) as [v|] eqn:Ev; [|by exists (nd, c)].
  pose proof (logs_entry _ _ _ _ _ _ (Hc i Hi) Hgo Ev) as Hv.
  assert ((nd >? 0) && negb (bool_decide (c = v)) = false) as ->.
  { destruct (nd >? 0) eqn:E; [|done]. bools. rewrite Hcc by lia. by rewrite <- Hv, bool_decide_true. }
  exists (nd + 1, v). split; [done|]. cbn. split; [lia|done].
Qed.

(** What [nCommitted] returns was in a log. *)
Lemma nCommitted_seen (obs : Z → config C) index nd c : nCommitted n obs index = Some (nd, c) → 0 < nd →
  ∃ i l, 0 <= i < n ∧ go_index (logs (obs i)) i = Some l ∧ l !! index = Some c.
Proof.
  unfold nCommitted. intros H.
  assert (∀ js acc, foldM (λ (acc : Z * option C) i, l ← go_index (logs (obs i)) i; match l !! index with
      | Some cmd1 => if (acc.1 >? 0) && negb (bool_decide (acc.2 = cmd1)) then None else Some (acc.1 + 1, cmd1)
      | None => Some acc end) acc js = Some (nd, c) → acc = (nd, c) ∨
      ∃ i l, i ∈ js ∧ go_index (logs (obs i)) i = Some l ∧ l !! index = Some c) as Hgen.
  { intros js. induction js as [|i js IH]; intros acc Hf; cbn in Hf; [left; congruence|].
    destruct (go_index (logs (obs i)) i) as [l|] eqn:El; cbn in Hf; [|done].
    destruct (l !! index) as [v|] eqn:Ev.
    - destruct (_ && _); [done|]. cbn in Hf. destruct (IH _ Hf) as [[= _ ->]|(j & lj & ? & ?)]; right; [exists i, l|exists j, lj]; (split; [set_solver|done]).
    - cbn in Hf. destruct (IH _ Hf) as [?|(j & lj & ? & ?)]; [by left|right]. exists j, lj. split; [set_solver|done]. }
  intros Hpos. destruct (Hgen _ _ H) as [[= <- _]|(i & l & Hi%elem_of_seqZ & ? & ?)]; [lia|]. exists i, l. split_and!; (done || lia).
Qed.

Lemma entry_of_mono L L' cfg index i l v : L `prefix_of` L' → cfg_ok L cfg → go_index (logs cfg) i = Some l → l !! index = Some v →
  entry_of L' index = entry_of L index.
Proof.
  intros Hp Hc Hl Hv. rewrite <- (logs_entry _ _ _ _ _ _ Hc Hl Hv). symmetry.
  eapply logs_entry; [by eapply cfg_ok_mono|done|done].
Qed.

(** What [one] returns was committed, at one of the times when it looked. *)
Lemma await_true (cmd : C) index expected polls : await n cmd index expected polls = Some true →
  ∃ obs nd, obs ∈ polls ∧ nCommitted n obs index = Some (nd, Some cmd) ∧ 0 < nd ∧ expected <= nd.
Proof.
  induction polls as [|obs polls IH]; cbn; [done|]. destruct (nCommitted n obs index) as [[nd c]|] eqn:E; cbn; [|done].
  destruct (_ && _) eqn:Eb.
  - intros _. bools. subst c. exists obs, nd. split_and!; [by left|done|lia..].
  - intros H. destruct (IH H) as (obs' & nd' & Hin & ?). exists obs', nd'. split; [by right|done].
Qed.

Lemma one_committed (cmd : C) expected retry finished attempts index : one n cmd expected retry finished attempts = Some index → index ≠ -1 →
  ∃ polls obs nd, (Some index, polls) ∈ attempts ∧ obs ∈ polls ∧ nCommitted n obs index = Some (nd, Some cmd) ∧ 0 < nd ∧ expected <= nd.
Proof.
  intros H Hne. induction attempts as [|[[ix|] polls] attempts IH]; cbn in H; [by destruct finished; simplify_eq| |].
  - destruct (await n cmd ix expected polls) as [[]|] eqn:E; cbn in H; [|destruct retry; [|done]|done].
    + injection H as ->. destruct (await_true _ _ _ _ E) as (obs & nd & ? & ?). exists polls, obs, nd. split; [by left|done].
    + destruct (IH H) as (polls' & obs & nd & Hin & ?). exists polls', obs, nd. split; [by right|done].
  - destruct (IH H) as (polls' & obs & nd & Hin & ?). exists polls', obs, nd. split; [by right|done].
Qed.

(** ** Leaders *)

Lemma exec_elected w act w' : 0 <= n → cluster_inv n w → exec n act w = Some w' → elected (hist w) ⊆ elected (hist w').
Proof.
  intros Hn Hc Hx. destruct (exec_stores n act w w' Hn Hc Hx) as [[k ->]|(i & p & ts & _ & -> & _)]; [done|].
  intros [t c] Hin. cbn. apply elected_observe. by left.
Qed.

Lemma tester_cluster L T : tester_inv L T → cluster_inv n (cluster T).
Proof. intros (X & [Hw Hcl _ _ _ _]). rewrite <- Hcl. apply (bi_cluster _ _ (fi_basic _ _ (wi_full _ _ _ _ Hw))). Qed.

Lemma crash1_elected L T i T' : 0 <= n → tester_inv L T → crash1 n i T = Some T' → elected (hist (cluster T)) ⊆ elected (hist (cluster T')).
Proof.
  intros Hn Ht H. unfold crash1, set_connected, set_raft in H. destruct (go_update _ _ _); cbn [mbind option_bind] in H; [|done].
  destruct (exec n _ _) as [w|] eqn:Hx; cbn [mbind option_bind] in H; [|done]. destruct (go_update _ _ _); cbn [mbind option_bind] in H; [|done].
  injection H as <-. cbn. eapply exec_elected; [done|by eapply tester_cluster|exact Hx].
Qed.

Lemma texec_elected L act T T' : 0 <= n → tester_inv L T → texec n snapshot act T = Some T' →
  elected (hist (cluster T)) ⊆ elected (hist (cluster T')).
Proof.
  intros Hn Ht H. pose proof (tester_cluster _ _ Ht) as Hc.
  assert (∀ a w, exec n a (cluster T) = Some w → elected (hist (cluster T)) ⊆ elected (hist w)) as Hex by (intros a w; by apply exec_elected).
  destruct act as [act|i|i|k|i cmd|i|i|i|i env]; cbn [texec] in H.
  - destruct (internal act); [|done]. destruct (exec n _ _) as [w|] eqn:Hx; cbn [mbind option_bind] in H; [|done]. injection H as <-. eauto.
  - destruct (in_cluster n i); [|done]. unfold deliver in H. destruct (apply _) as [[]|]; cbn [mbind option_bind] in H; [|done].
    destruct (exec n _ _) as [w|] eqn:Hx; cbn [mbind option_bind] in H; [|done]. injection H as <-. eauto.
  - destruct (in_cluster n i); [|done]. unfold take_message in H. destruct (inbox T i) as [|m rest]; [done|].
    destruct (read_message _ _ _ _) as [[cfg snap]|]; cbn [mbind option_bind] in H; [|done].
    destruct snap as [[index data]|]; [|by injection H as <-]. destruct (default _ _); [|by injection H as <-].
    destruct (exec n _ _) as [w|] eqn:Hx; cbn [mbind option_bind] in H; [|done]. injection H as <-. eauto.
  - unfold take_old in H. destruct (old T !! k) as [[i [|m rest]]|]; [done| |done].
    destruct (read_message _ _ _ _) as [[cfg snap]|]; cbn [mbind option_bind] in H; [|done]. by injection H as <-.
  - destruct (exec n _ _) as [w|] eqn:Hx; cbn [mbind option_bind] in H; [|done]. injection H as <-. eauto.
  - unfold set_connected in H. destruct (go_update _ _ _); [|done]. by injection H as <-.
  - unfold set_connected in H. destruct (go_update _ _ _); [|done]. by injection H as <-.
  - by eapply crash1_elected.
  - unfold start1 in H. destruct (crash1 _ _ _) as [T1|] eqn:E; cbn [mbind option_bind] in H; [|done].
    destruct (crash1_inv _ _ _ _ _ _ _ Hn Ht E) as (L1 & _ & Ht1 & _). etrans; [by eapply crash1_elected|].
    destruct (go_update _ _ _); cbn [mbind option_bind] in H; [|done].
    destruct (if go_len _ >? 0 then _ else _); cbn [mbind option_bind] in H; [|done].
    destruct (exec n _ _) as [w|] eqn:Hx; cbn [mbind option_bind] in H; [|done].
    unfold set_raft in H. destruct (go_update _ _ _); cbn [mbind option_bind] in H; [|done]. injection H as <-. cbn.
    eapply exec_elected; [done|by eapply tester_cluster|exact Hx].
Qed.

Lemma tsteps_elected L T T' : 0 <= n → tester_inv L T → rtc (tstep n snapshot) T T' → elected (hist (cluster T)) ⊆ elected (hist (cluster T')).
Proof.
  intros Hn Ht Hr. revert L Ht. induction Hr as [T|T1 T2 T3 [act Hs] _ IH]; intros L Ht; [done|].
  destruct (texec_inv _ _ _ _ _ _ _ Hn Ht ltac:(done) Hs) as (L2 & _ & Ht2). etrans; [by eapply texec_elected|by eapply IH].
Qed.

(** Peers that lead a term at different times are the same. *)
Lemma leaders_same L T T' i j : 0 <= n → tester_inv L T → rtc (tstep n snapshot) T T' → 0 <= i < n → 0 <= j < n →
  role (rf (peers (cluster T) i)) = Leader → role (rf (peers (cluster T') j)) = Leader →
  currentTerm (rf (peers (cluster T) i)) = currentTerm (rf (peers (cluster T') j)) → i = j.
Proof.
  intros Hn Ht Hr Hi Hj Hli Hlj Hterm. destruct (tsteps_inv _ _ _ _ _ Hn Ht Hr) as (L' & _ & Ht').
  pose proof (tester_cluster _ _ Ht) as Hc. pose proof (tester_cluster _ _ Ht') as Hc'.
  eapply (elected_unique n (cluster T') (currentTerm (rf (peers (cluster T') j)))); [done|apply Hc'| |].
  - rewrite <- Hterm. eapply tsteps_elected; [done|exact Ht|done|]. by apply (vi_leader _ _ (ci_vote _ _ Hc)).
  - by apply (vi_leader _ _ (ci_vote _ _ Hc')).
Qed.

(** The peers of a list that lead a term among those asked *)
Definition leads (cn : list bool) (obs : Z → Cluster C) (t i : Z) : bool :=
  default false (go_index cn i) && (GetState (rf (peers (obs i) i))).2 && ((GetState (rf (peers (obs i) i))).1 =? t).

Lemma leaders_of_spec cn obs t :
  leaders_of n cn obs !! t = match List.filter (leads cn obs t) (seqZ 0 n) with [] => None | ks => Some ks end.
Proof.
  unfold leaders_of. generalize (seqZ 0 n) as js. induction js as [|i js IH] using rev_ind; [done|].
  rewrite foldl_app, List.filter_app. cbn [foldl List.filter]. unfold leads at 2.
  destruct (GetState _) as [term leader]; cbn [fst snd]. set (ls := foldl _ _ js) in *.
  destruct (default false _ && leader) eqn:E; cbn [andb]; [|by rewrite app_nil_r].
  destruct (Z.eqb_spec term t) as [->|Hne].
  - rewrite lookup_insert_eq, IH. by destruct (List.filter _ js).
  - rewrite lookup_insert_ne by done. by rewrite app_nil_r.
Qed.

Lemma leads_spec cn obs t i : leads cn obs t i = true ↔
  go_index cn i = Some true ∧ role (rf (peers (obs i) i)) = Leader ∧ currentTerm (rf (peers (obs i) i)) = t.
Proof.
  unfold leads, GetState. cbn [fst snd]. rewrite !andb_true_iff, Z.eqb_eq.
  destruct (go_index cn i) as [[]|], (role (rf (peers (obs i) i))); cbn; naive_solver.
Qed.

Lemma leaders_of_Some cn obs t ks : leaders_of n cn obs !! t = Some ks →
  ks ≠ [] ∧ NoDup ks ∧ ∀ i, i ∈ ks ↔ 0 <= i < n ∧ leads cn obs t i = true.
Proof.
  rewrite leaders_of_spec. destruct (List.filter _ _) as [|i0 is0] eqn:E; [done|]. intros [= <-]. rewrite <- E. split_and!.
  - by rewrite E.
  - apply NoDup_ListNoDup, List.NoDup_filter, NoDup_ListNoDup, NoDup_seqZ.
  - intros i. rewrite list_elem_of_In, List.filter_In, <- list_elem_of_In, elem_of_seqZ. by rewrite Z.add_0_l.
Qed.

Lemma leaders_of_is_Some cn obs t i : 0 <= i < n → leads cn obs t i = true → is_Some (leaders_of n cn obs !! t).
Proof.
  intros Hi Hl. rewrite leaders_of_spec. assert (i ∈ List.filter (leads cn obs t) (seqZ 0 n)) as Hin.
  { apply list_elem_of_In, List.filter_In. split; [|done]. apply list_elem_of_In, elem_of_seqZ. lia. }
  destruct (List.filter _ _); [by apply elem_of_nil in Hin|by eexists].
Qed.

Lemma single {A} (l : list A) : NoDup l → (∀ x y, x ∈ l → y ∈ l → x = y) → go_len l <= 1.
Proof.
  intros Hn Hs. destruct l as [|x [|y l]]; unfold go_len; cbn; [lia..|]. exfalso.
  apply NoDup_cons in Hn as [Hx _]. apply Hx. rewrite (Hs x y); [by left|by left|right; by left].
Qed.

(** The peers asked were leaders of one history. *)
Definition one_history (obs : Z → Cluster C) : Prop :=
  (∀ i, 0 <= i < n → role (rf (peers (obs i) i)) = Leader → 0 <= currentTerm (rf (peers (obs i) i)))
  ∧ ∀ i j, 0 <= i < n → 0 <= j < n → role (rf (peers (obs i) i)) = Leader → role (rf (peers (obs j) j)) = Leader →
      currentTerm (rf (peers (obs i) i)) = currentTerm (rf (peers (obs j) j)) → i = j.

Lemma one_history_leaders cn obs t ks : one_history obs → leaders_of n cn obs !! t = Some ks → go_len ks <= 1 ∧ 0 <= t.
Proof.
  intros [Hpos Hsame] (Hne & Hnd & Hel)%leaders_of_Some. split.
  - apply single; [done|]. intros i j [Hi (_ & Hli & <-)%leads_spec]%Hel [Hj (_ & Hlj & Ht)%leads_spec]%Hel. by apply Hsame.
  - destruct ks as [|i ks]; [done|]. destruct (proj1 (Hel i) ltac:(by left)) as [Hi (_ & Hli & <-)%leads_spec]. by apply Hpos.
Qed.

(** The loop finds the last term. *)
Lemma last_term_spec (ls : gmap Z (list Z)) (es : list (Z * list Z)) :
  (∀ t ks, (t, ks) ∈ es → ls !! t = Some ks ∧ go_len ks <= 1 ∧ 0 <= t) →
  ∃ last, foldM (λ last e, if go_len e.2 >? 1 then None else Some (if e.1 >? last then e.1 else last)) (-1) es = Some last
    ∧ (∀ e, e ∈ es → e.1 <= last) ∧ (last = -1 ∧ es = [] ∨ is_Some (ls !! last)).
Proof.
  intros Hes. apply foldM_inv with (P := λ seen last, (∀ e, e ∈ seen → e.1 <= last) ∧ (last = -1 ∧ seen = [] ∨ is_Some (ls !! last))).
  { split; [by intros e ?%elem_of_nil|by left]. }
  intros seen [t ks] rest last Hl [Hmax Hlast]. destruct (Hes t ks) as (Ht & Hlen & H0).
  { rewrite Hl. apply elem_of_app. right. by left. }
  cbn [fst snd]. destruct (go_len ks >? 1) eqn:E; bools; [lia|]. eexists. split; [done|]. split.
  - intros e [He|He%list_elem_of_singleton]%elem_of_app; [specialize (Hmax e He)|subst e; cbn]; destruct (t >? last) eqn:Et; bools; lia.
  - right. destruct (t >? last) eqn:Et; [by rewrite Ht|]. bools. destruct Hlast as [[-> _]|?]; [lia|done].
Qed.

Lemma running_true cn rs : (∀ i, 0 <= i < n → go_index cn i = Some true → go_index rs i = Some true) → running n cn rs = true.
Proof.
  intros Hr. apply forallb_forall. intros i Hi%list_elem_of_In%elem_of_seqZ.
  destruct (go_index cn i) as [[]|] eqn:E; [|done..]. by rewrite (Hr i) by (lia || done).
Qed.

Lemma one_leader_spec `{!MapOrder, !MapOrderLaws} cn rs obs : running n cn rs = true → one_history obs →
  ∃ found, one_leader n cn rs obs = Some found ∧
    match found with
    | None => ∀ t i, 0 <= i < n → leads cn obs t i = false
    | Some i => 0 <= i < n ∧ ∃ t, leads cn obs t i = true ∧ ∀ t' j, 0 <= j < n → leads cn obs t' j = true → t' <= t
    end.
Proof.
  intros Hrun Hh. unfold one_leader. rewrite Hrun. cbn [negb]. set (ls := leaders_of n cn obs).
  assert (∀ e, e ∈ range 0 ls ↔ ls !! e.1 = Some e.2) as Hin.
  { intros [t ks]. rewrite (range_perm 0 ls). apply elem_of_map_to_list. }
  destruct (last_term_spec ls (range 0 ls)) as (last & -> & Hmax & Hlast).
  { intros t ks Ht%Hin. split; [done|]. by eapply one_history_leaders. }
  cbn [mbind option_bind]. case_bool_decide as Hz.
  - exists None. split; [done|]. intros t i Hi. destruct (leads cn obs t i) eqn:E; [exfalso|done].
    apply map_size_empty_inv in Hz. destruct (leaders_of_is_Some cn obs t i Hi E) as [ks Hks]. fold ls in Hks.
    by rewrite Hz, lookup_empty in Hks.
  - assert (is_Some (ls !! last)) as [ks Hks].
    { destruct Hlast as [[_ Hnil]|?]; [|done]. destruct Hz. apply map_size_empty_iff, map_empty. intros t.
      destruct (ls !! t) as [ks|] eqn:E; [|done]. apply (Hin (t, ks)) in E. rewrite Hnil in E. by apply elem_of_nil in E. }
    rewrite Hks. cbn [default]. destruct (leaders_of_Some _ _ _ _ Hks) as (Hne & _ & Hel). destruct ks as [|i ks]; [done|].
    exists (Some i). split; [done|]. destruct (proj1 (Hel i) ltac:(by left)) as [Hi Hld]. split; [done|]. exists last. split; [done|].
    intros t' j Hj Hlj. destruct (leaders_of_is_Some cn obs t' j Hj Hlj) as [ks' Hks']. apply (Hmax (t', ks')). by apply Hin.
Qed.

(** Peers asked one after the other, while the run goes on *)
Definition asked (Ts : Z → Tester (C := C)) : Prop :=
  treachable n snapshot (Ts 0) ∧ ∀ i, 0 <= i → i + 1 < n → rtc (tstep n snapshot) (Ts i) (Ts (i + 1)).

Lemma asked_steps Ts i j : asked Ts → 0 <= i <= j → j < n → rtc (tstep n snapshot) (Ts i) (Ts j).
Proof.
  intros [_ Hs] Hi. replace j with (i + (j - i)) by lia. assert (0 <= j - i) as Hd by lia. revert Hd.
  generalize (j - i) as d. refine (natlike_ind _ _ _); [intros _; rewrite Z.add_0_r; apply rtc_refl|].
  intros d Hd IH Hj. etrans; [apply IH; lia|]. replace (i + Z.succ d) with (i + d + 1) by lia. apply Hs; lia.
Qed.

Lemma asked_inv Ts i : 0 <= n → asked Ts → 0 <= i < n → ∃ L, tester_inv L (Ts i).
Proof.
  intros Hn Ha Hi. destruct (treachable_inv n snapshot _ Hn (proj1 Ha)) as [L0 Ht0].
  destruct (tsteps_inv _ _ _ _ _ Hn Ht0 (asked_steps Ts 0 i Ha ltac:(lia) ltac:(lia))) as (L & _ & Ht). by exists L.
Qed.

(** One sequence of commands explains the logs of all. *)
Lemma asked_cfgs Ts : 0 <= n → asked Ts → ∃ L, ∀ i, 0 <= i < n → cfg_ok L (cfg_of (Ts i)).
Proof.
  intros Hn Ha. destruct (treachable_inv n snapshot _ Hn (proj1 Ha)) as [L0 Ht0].
  assert (∀ d, 0 <= d → d < n → ∃ L, tester_inv L (Ts d) ∧ ∀ i, 0 <= i <= d → cfg_ok L (cfg_of (Ts i))) as Hall.
  { refine (natlike_ind _ _ _).
    - intros _. exists L0. split; [done|]. intros i Hi. assert (i = 0) as -> by lia. by destruct Ht0 as (X & []).
    - intros d Hm IH Hlt. destruct IH as (L & Ht & Hc); [lia|].
      assert (rtc (tstep n snapshot) (Ts d) (Ts (Z.succ d))) as Hs by (apply (proj2 Ha d); lia).
      destruct (tsteps_inv _ _ _ _ _ Hn Ht Hs) as (L' & Hp & Ht'). exists L'. split; [done|]. intros i Hi.
      destruct (decide (i = Z.succ d)) as [->|]; [by destruct Ht' as (X & [])|]. eapply cfg_ok_mono; [exact Hp|]. apply Hc. lia. }
  destruct (decide (n = 0)) as [H0|H0]; [exists []; intros; lia|].
  destruct (Hall (n - 1)) as (L & _ & Hc); [lia|lia|]. exists L. intros i Hi. apply Hc. lia.
Qed.

Lemma asked_history Ts : 0 <= n → asked Ts → one_history (λ i, cluster (Ts i)).
Proof.
  intros Hn Ha. assert (∀ i, 0 <= i < n → ∃ L, tester_inv L (Ts i)) as Hinv by (intros i; by apply asked_inv).
  split.
  - intros i Hi _. destruct (Hinv i Hi) as [L Ht]. destruct (ci_node _ _ (tester_cluster _ _ Ht) i Hi) as (Hwf & _). by apply node_wf_term.
  - assert (∀ i j, 0 <= i <= j → j < n → role (rf (peers (cluster (Ts i)) i)) = Leader → role (rf (peers (cluster (Ts j)) j)) = Leader →
      currentTerm (rf (peers (cluster (Ts i)) i)) = currentTerm (rf (peers (cluster (Ts j)) j)) → i = j) as Hle.
    { intros i j Hi Hj. destruct (Hinv i ltac:(lia)) as [L Ht]. apply (leaders_same L (Ts i) (Ts j) i j Hn Ht); [|lia..].
      by apply asked_steps. }
    intros i j Hi Hj. destruct (Z.le_ge_cases i j); [apply Hle; lia|]. intros. symmetry. apply Hle; [lia|lia|done..].
Qed.
End tester.

Section claims.
Context {C : Type} `{!EqDecision C, !GobCodec (PState C), !GobLaws (PState C), !GobCodec (TSnapshot C), !GobLaws (TSnapshot C)}.
Context (n : Z) (snapshot : bool).
Implicit Types (T : Tester (C := C)).

(** C10: The tests of Raft find no fault.  Take a run of the tests, with any number of
    peers, calls lost, delayed and reordered, peers disconnected, crashed and started
    again.  With the reader that takes no snapshots no reader of an apply channel,
    that of a peer that runs, was crashed or has been replaced, meets a message at
    which the test stops: no two peers deliver different commands at an index, and no
    peer delivers an index before the one ahead of it.  With the reader that takes
    snapshots the same is true of the current channel of every peer in the runs in which
    no reader takes a message after its peer was replaced (otherwise it can fail,
    [stale_reader_stops]): then, too, every message is the one after the last applied,
    every snapshot can be decoded and is of the index it comes with, and the call of
    [rf.Snapshot] returns.  In every run, whatever readers of replaced peers do,
    [nCommitted], which reads the logs one after the other while the run goes on, never
    sees two commands committed at an index. *)
Theorem tester_accepts :
  0 <= n →
  (∀ T, oreachable n snapshot T →
    (∀ i, 0 <= i < n → inbox T i ≠ [] → is_Some (take_message n snapshot i T))
    ∧ (snapshot = false → ∀ k i q, old T !! k = Some (i, q) → q ≠ [] → is_Some (take_old snapshot k T)))
  ∧ ∀ Ts index, asked n snapshot Ts → is_Some (nCommitted n (λ i, cfg_of (Ts i)) index).
Proof.
  intros Hn. split.
  - intros T Hr. destruct (oreachable_inv _ _ _ Hn Hr) as [L Ht]. split.
    + intros i Hi Hne. destruct (inbox T i) as [|m rest] eqn:E; [done|].
      by apply (take_inv _ _ _ L T i m rest Ht Hi E).
    + intros Hs k i q E Hne. destruct q as [|m rest]; [done|].
      by apply (take_old_inv _ _ _ L T k i m rest Ht E).
  - intros Ts index Ha. destruct (asked_cfgs n snapshot Ts Hn Ha) as (L & Hc).
    destruct (nCommitted_entry n snapshot L (λ i, cfg_of (Ts i)) index Hc) as (nd & c & -> & _). by eexists.
Qed.

(** C11: An agreement is for good.  If [one] returns an index for its command, having
    looked at the logs of the peers at any moments of a run, one after the other, then at
    every later moment, after any further crashes, restarts and elections, every log
    that has an entry at the index has this command there. *)
Theorem one_agreement T (cmd : C) expected retry finished attempts index i l :
  0 <= n →
  (∀ ix polls obs j, (ix, polls) ∈ attempts → obs ∈ polls → 0 <= j < n →
     ∃ T0, treachable n snapshot T0 ∧ obs j = cfg_of T0 ∧ rtc (tstep n snapshot) T0 T) →
  one n cmd expected retry finished attempts = Some index → index ≠ -1 →
  go_index (logs (cfg_of T)) i = Some l → l !! index = None ∨ l !! index = Some (Some cmd).
Proof.
  intros Hn Hpolls Hone Hidx Hl. destruct (one_committed _ _ _ _ _ _ _ Hone Hidx) as (polls & obs & nd & Hin & Hobs & Hnc & Hnd & _).
  destruct (nCommitted_seen _ _ _ _ _ Hnc Hnd) as (j & lj & Hj & Hlj & Hv).
  destruct (Hpolls _ _ _ j Hin Hobs Hj) as (T0 & Hr & E & Hsteps). rewrite E in Hlj. destruct (treachable_inv _ _ _ Hn Hr) as [L Ht].
  destruct (tsteps_inv _ _ _ _ _ Hn Ht Hsteps) as (L' & Hp & (X' & [_ _ _ Hc' _ _])). destruct Ht as (X & [_ _ _ Hc _ _]).
  destruct (l !! index) as [v|] eqn:Ev; [right|by left].
  rewrite (logs_entry _ _ _ _ _ _ _ _ Hc' Hl Ev), (entry_of_mono _ _ _ _ _ _ _ _ _ Hp Hc Hlj Hv). f_equal.
  symmetry. by eapply logs_entry.
Qed.

(** C12: One leader.  [checkOneLeader] asks the peers for their terms one after the
    other while the run goes on; the connected peers are running.  It never sees two leaders of one term; it finds no
    leader only if no connected peer said that it was one; and a leader that it finds
    is connected and has the last term of all the leaders seen, whatever the order
    of the map's keys. *)
Theorem one_leader_found `{!MapOrder, !MapOrderLaws} cn rs (Ts : Z → Tester (C := C)) :
  0 <= n → asked n snapshot Ts → (∀ i, 0 <= i < n → go_index cn i = Some true → go_index rs i = Some true) →
  let obs i := cluster (Ts i) in
  ∃ found, one_leader n cn rs obs = Some found ∧
    match found with
    | None => ∀ t i, 0 <= i < n → leads cn obs t i = false
    | Some i => 0 <= i < n ∧ ∃ t, leads cn obs t i = true ∧ ∀ t' j, 0 <= j < n → leads cn obs t' j = true → t' <= t
    end.
Proof. intros Hn Ha Hr obs. exact (one_leader_spec n cn rs obs (running_true n cn rs Hr) (asked_history n snapshot Ts Hn Ha)). Qed.
End claims.

(** ** A run of the tester *)

#[local] Instance tsnapshot_codec : GobCodec (TSnapshot Z) := countable_codec.
#[local] Instance tsnapshot_laws : GobLaws (TSnapshot Z) := countable_laws.

Fixpoint texecs (n : Z) (snapshot : bool) (acts : list (TAction (C := Z))) (T : Tester (C := Z)) : option Tester :=
  match acts with
  | [] => Some T
  | act :: acts => T ← texec n snapshot act T; texecs n snapshot acts T
  end.

Lemma texecs_steps n snapshot acts T T' : texecs n snapshot acts T = Some T' → rtc (tstep n snapshot) T T'.
Proof.
  revert T. induction acts as [|act acts IH]; intros T H; cbn in H; [injection H as ->; apply rtc_refl|].
  destruct (texec n snapshot act T) as [T1|] eqn:E; cbn in H; [|done]. eapply rtc_l; [by exists act|by apply IH].
Qed.

Lemma texecs_app n snapshot acts acts' T : texecs n snapshot (acts ++ acts') T = (T' ← texecs n snapshot acts T; texecs n snapshot acts' T').
Proof.
  revert T. induction acts as [|act acts IH]; intros T; cbn; [done|]. destruct (texec n snapshot act T); cbn; [apply IH|done].
Qed.

Definition tafter (acts : list (TAction (C := Z))) : Tester := default (tinit 3 start_envs) (texecs 3 true acts (tinit 3 start_envs)).
Definition tcompletes (acts : list (TAction (C := Z))) : bool :=
  match texecs 3 true acts (tinit 3 start_envs) with Some _ => true | None => false end.

Lemma tafter_steps acts acts' : tcompletes (acts ++ acts') = true → rtc (tstep 3 true) (tafter acts) (tafter (acts ++ acts')).
Proof.
  unfold tcompletes, tafter. rewrite texecs_app. destruct (texecs 3 true acts _) as [T|]; cbn; [|done].
  destruct (texecs 3 true acts' T) as [T'|] eqn:E; [|done]. intros _. by eapply texecs_steps.
Qed.

Lemma tafter_reachable acts : tcompletes acts = true → treachable 3 true (tafter acts).
Proof. intros H. exists start_envs. by apply (tafter_steps [] acts). Qed.

(** Peer 0 is elected and commits 7; its reader gets it; the peer crashes and comes
    back. *)
Definition telect : list (TAction (C := Z)) := TRaft <$> elect.
Definition tcommit : list (TAction (C := Z)) :=
  telect ++ TStart 0 7 :: (TRaft <$> [ARun 0 late; ARun 0 late; ARun 0 late]) ++ [TDeliver 0].
Definition ttake : list (TAction (C := Z)) := tcommit ++ [TTake 0].
Definition tback : list (TAction (C := Z)) := ttake ++ [TStart1 0 late].

Lemma run_checks : tcompletes tback = true ∧ length (inbox (tafter tcommit) 0) = 1%nat
  ∧ nCommitted 3 (λ _, cfg_of (tafter ttake)) 1 = Some (1, Some 7).
Proof. vm_compute. by split_and!. Qed.

Lemma tafter_orderly acts : tcompletes acts = true → forallb (orderly true) acts = true → oreachable 3 true (tafter acts).
Proof.
  intros Hc Ho. exists start_envs. unfold tcompletes in Hc. unfold tafter.
  destruct (texecs 3 true acts (tinit 3 start_envs)) as [T|] eqn:E; [cbn|done]. clear Hc. revert E Ho.
  generalize (tinit 3 start_envs : Tester (C := Z)) as T0. induction acts as [|act acts IH]; intros T0 E Ho; cbn in E, Ho; [injection E as ->; apply rtc_refl|].
  apply andb_true_iff in Ho as [H1 H2]. destruct (texec 3 true act T0) as [T1|] eqn:E1; cbn in E; [|done].
  eapply rtc_l; [by exists act|by apply IH].
Qed.

(** The log of peer 0 is read before the peer is replaced, the others afterwards. *)
Definition tread (i : Z) : Tester := if i =? 0 then tafter ttake else tafter tback.

Lemma tread_steps i : rtc (tstep 3 true) (tread i) (tafter tback).
Proof.
  unfold tread. destruct (i =? 0); [|apply rtc_refl]. apply (tafter_steps ttake [TStart1 0 late]). vm_compute. reflexivity.
Qed.

Lemma tread_reachable i : treachable 3 true (tread i).
Proof. unfold tread. destruct (i =? 0); apply tafter_reachable; vm_compute; reflexivity. Qed.

Lemma tester_accepts_witness :
  is_Some (take_message 3 true 0 (tafter tcommit)) ∧ is_Some (nCommitted 3 (λ i, cfg_of (tread i)) 1).
Proof.
  destruct (tester_accepts 3 true ltac:(lia)) as [Hread Hcount]. split.
  - assert (oreachable 3 true (tafter tcommit)) as Hr by (apply tafter_orderly; vm_compute; reflexivity).
    destruct (Hread _ Hr) as [Htake _]. apply (Htake 0); [lia|]. vm_compute. discriminate.
  - apply Hcount. split; [apply tread_reachable|]. intros i Hi _.
    unfold tread at 2. rewrite (proj2 (Z.eqb_neq (i + 1) 0)) by lia. apply tread_steps.
Defined.

(** A reader that takes snapshots can outlive its peer.  Peer 0 has delivered 7 and 8;
    its reader has taken 7 when the peer is replaced, and takes 8 when the last index
    applied has been set to 0. *)
Definition tstale : list (TAction (C := Z)) :=
  ttake ++ TStart 0 8 :: (TRaft <$> [ARun 0 late; ARun 0 late; ARun 0 late]) ++ [TDeliver 0; TDeliver 0; TStart1 0 late].

Lemma stale_reader_stops :
  let T := tafter tstale in
  treachable 3 true T ∧ (∃ m, old T = [(0, [m])] ∧ MsgCommand m = Some 8) ∧ take_old true 0 T = None.
Proof.
  cbv zeta. split; [apply tafter_reachable; vm_compute; reflexivity|]. vm_compute. split; [by eexists|done].
Qed.

Lemma seen_polls {A} (o1 o2 : A) ix polls obs :
  (ix, polls) ∈ [(None, []); (Some 1, [o1; o2])] → obs ∈ polls → obs = o1 ∨ obs = o2.
Proof.
  intros [[= -> ->]|[[= -> ->]|?%elem_of_nil]%elem_of_cons]%elem_of_cons Hc; [by apply elem_of_nil in Hc| |done].
  apply elem_of_cons in Hc as [->|?%list_elem_of_singleton]; auto.
Qed.

Definition tattempts : list (option Z * list (Z → config Z)) :=
  [(None, []); (Some 1, [(λ _, cfg_of (tafter tcommit)); (λ i, cfg_of (tread i))])].

Lemma one_agreement_witness :
  one 3 7 1 true true tattempts = Some 1
  ∧ match go_index (logs (cfg_of (tafter tback))) 0 with
    | Some l => l !! 1 = None ∨ l !! 1 = Some (Some 7)
    | None => False
    end.
Proof.
  assert (one 3 7 1 true true tattempts = Some 1) as Hone by (vm_compute; reflexivity).
  split; [exact Hone|]. destruct (go_index (logs (cfg_of (tafter tback))) 0) as [l|] eqn:Hl; [|vm_compute in Hl; discriminate].
  eapply (one_agreement 3 true (tafter tback) 7 1 true true _ 1 0 l); [lia| |exact Hone|lia|exact Hl].
  intros ix polls obs j Hin Hobs Hj. destruct (seen_polls _ _ _ _ _ Hin Hobs) as [-> | ->].
  - exists (tafter tcommit). split_and!; [apply tafter_reachable; vm_compute; reflexivity|done|].
    apply (tafter_steps tcommit [TTake 0; TStart1 0 late]). vm_compute. reflexivity.
  - exists (tread j). split_and!; [apply tread_reachable|done|apply tread_steps].
Defined.

(** Peer 0 is asked before the commit, peers 1 and 2 after it. *)
Definition tasked (i : Z) : Tester := if i =? 0 then tafter telect else tafter tcommit.

Lemma one_leader_found_witness :
  @one_leader Z 3 backward_order [true; true; true] [true; true; true] (λ i, cluster (tasked i)) = Some (Some 0)
  ∧ ∃ found, @one_leader Z 3 backward_order [true; true; true] [true; true; true] (λ i, cluster (tasked i)) = Some found.
Proof.
  split; [vm_compute; reflexivity|].
  assert (asked 3 true tasked) as Ha.
  { assert (tasked 0 = tafter telect ∧ tasked 1 = tafter tcommit ∧ tasked 2 = tafter tcommit) as (H0 & H1 & H2) by (by split_and!).
    split; [rewrite H0; apply (tafter_reachable telect); vm_compute; reflexivity|]. intros i Hi Hin.
    assert (i = 0 ∨ i = 1) as [-> | ->] by lia; [change (0 + 1) with 1; rewrite H0, H1|change (1 + 1) with 2; rewrite H1, H2; apply rtc_refl].
    apply (tafter_steps telect (TStart 0 7 :: (TRaft <$> [ARun 0 late; ARun 0 late; ARun 0 late]) ++ [TDeliver 0])).
    vm_compute. reflexivity. }
  destruct (@one_leader_found Z _ _ _ _ _ 3 true backward_order backward_order_laws [true; true; true] [true; true; true] tasked ltac:(lia) Ha) as (found & Hf & _).
  { intros i Hi _. by assert (i = 0 ∨ i = 1 ∨ i = 2) as [-> |[-> | ->]] by lia. }
  by exists found.
Defined.
