(* ===== verification/ShardConfig.v ===== *)
(** * The test configuration of shardkv

    shardkv/config.go: three controllers and three groups of servers on one network.
    The servers that are started are parameters ([start], [start_ctrler]); persisters
    are pointers into a heap, as in [LabConfig]; random names are arguments. *)

From S2P Require Import Prelude GoStrings Util Labgob Labrpc LabNet RaftState OpServer Clerk ShardCtrler.

#[global] Open Scope Z_scope.

Abbreviation LSys := (Labrpc.Sys (Name := net_name)).
Abbreviation Net := (Labrpc.Network (Name := net_name)).

(** "ctrler" and "server-gid-i" *)
Definition ctrlername (i : Z) : string := "ctrler" +:+ Itoa i.
Definition servername (gid i : Z) : string := ("server-" +:+ Itoa gid) +:+ "-" +:+ Itoa i.

Record group (Srv : Type) := MkGroup {
  gid : Z;
  servers : list (option Srv);
  saved : list (option nat);
  endnames : list (option (list string));
  mendnames : list (option (list string));
}.
Arguments MkGroup {Srv} _ _ _ _ _.
Arguments gid {Srv} _.
Arguments servers {Srv} _.
Arguments saved {Srv} _.
Arguments endnames {Srv} _.
Arguments mendnames {Srv} _.

Record config `{!GoTypes} (Srv Ctrl : Type) := MkConfig {
  sys : LSys;
  nctrlers : Z;
  ctrlerservers : list (option Ctrl);
  mck : Clerk;
  ngroups : Z;
  n : Z;
  groups : list (group Srv);
  clerks : gmap nat (list string);
  nextClientId : Z;
  maxraftstate : Z;
  persisters : gmap nat Persister;
}.
Arguments MkConfig {_ Srv Ctrl} _ _ _ _ _ _ _ _ _ _ _.
Arguments sys {_ Srv Ctrl} _.
Arguments nctrlers {_ Srv Ctrl} _.
Arguments ctrlerservers {_ Srv Ctrl} _.
Arguments mck {_ Srv Ctrl} _.
Arguments ngroups {_ Srv Ctrl} _.
Arguments n {_ Srv Ctrl} _.
Arguments groups {_ Srv Ctrl} _.
Arguments clerks {_ Srv Ctrl} _.
Arguments nextClientId {_ Srv Ctrl} _.
Arguments maxraftstate {_ Srv Ctrl} _.
Arguments persisters {_ Srv Ctrl} _.

Section config.
Context `{!GoTypes} {Srv Ctrl : Type}.
Context (start : Z → Z → nat → Persister → option Srv) (start_ctrler : Z → option Ctrl).
Context (services_of : Srv → list Service) (ctrler_services_of : Ctrl → list Service).
Implicit Types (cfg : config Srv Ctrl) (gg : group Srv).

Definition rn cfg : Net := net (sys cfg).

Definition set_sys cfg (s : LSys) : config Srv Ctrl :=
  MkConfig s (nctrlers cfg) (ctrlerservers cfg) (mck cfg) (ngroups cfg) (n cfg) (groups cfg) (clerks cfg)
    (nextClientId cfg) (maxraftstate cfg) (persisters cfg).
Definition set_rn cfg (r : Net) : config Srv Ctrl := set_sys cfg (MkSys r (heap (sys cfg))).
Definition set_group cfg (gi : Z) gg : option (config Srv Ctrl) :=
  gs ← go_update (groups cfg) gi gg;
  Some (MkConfig (sys cfg) (nctrlers cfg) (ctrlerservers cfg) (mck cfg) (ngroups cfg) (n cfg) gs (clerks cfg)
          (nextClientId cfg) (maxraftstate cfg) (persisters cfg)).

(** The function [make_end] that servers and clerks are given *)
Definition make_end (r : Net) (name : string) (servername : net_name) : option Net :=
  r ← MakeEnd r (end_name name); Some (Enable (Connect r (end_name name) servername) (end_name name) true).

(** The loops that make, connect and enable ends *)
Fixpoint open_ends (r : Net) (names : list string) (j : Z) (server : Z → string) : option Net :=
  match names with
  | [] => Some r
  | x :: names => r ← make_end r x (end_name (server j)); open_ends r names (j + 1) server
  end.

(** ** Clerks *)

(** [endnames] has [n] elements and is written at the indices of the controllers. *)
Definition makeClient cfg (names : list string) : option (config Srv Ctrl * nat) :=
  r ← open_ends (rn cfg) names 0 ctrlername;
  if n cfg <? nctrlers cfg then None
  else
    let ck := fresh (dom (clerks cfg)) in
    let ends := names ++ replicate (Z.to_nat (n cfg - nctrlers cfg)) "" in
    Some (MkConfig (MkSys r (heap (sys cfg))) (nctrlers cfg) (ctrlerservers cfg) (mck cfg) (ngroups cfg) (n cfg)
            (groups cfg) (<[ck := ends]> (clerks cfg)) (nextClientId cfg + 1) (maxraftstate cfg) (persisters cfg), ck).

Definition deleteClient cfg (ck : nat) : config Srv Ctrl :=
  MkConfig (sys cfg) (nctrlers cfg) (ctrlerservers cfg) (mck cfg) (ngroups cfg) (n cfg) (groups cfg)
    (delete ck (clerks cfg)) (nextClientId cfg) (maxraftstate cfg) (persisters cfg).

(** The ends of the clerk that [make_config] keeps *)
Definition shardclerk cfg (names : list string) : option (config Srv Ctrl) :=
  r ← open_ends (rn cfg) names 0 ctrlername; Some (set_rn cfg r).

(** ** Servers *)

(** [gg.saved[i] = gg.saved[i].Copy()], or [MakePersister()] if [make] is set *)
Definition copy_saved cfg gg (i : Z) (make : bool) : option (config Srv Ctrl * group Srv * option nat) :=
  old ← go_index (saved gg) i;
  match old, make with
  | None, false => Some (cfg, gg, None)
  | _, _ =>
    ps ← match old with Some p => Copy <$> persisters cfg !! p | None => Some MakePersister end;
    let p := fresh (dom (persisters cfg)) in
    sv ← go_update (saved gg) i (Some p);
    Some (MkConfig (sys cfg) (nctrlers cfg) (ctrlerservers cfg) (mck cfg) (ngroups cfg) (n cfg) (groups cfg) (clerks cfg)
            (nextClientId cfg) (maxraftstate cfg) (<[p := ps]> (persisters cfg)),
          MkGroup (gid gg) (servers gg) sv (endnames gg) (mendnames gg), Some p)
  end.

Definition ShutdownServer cfg (gi i : Z) : option (config Srv Ctrl) :=
  gg ← go_index (groups cfg) gi;
  row ← go_index (endnames gg) i;
  names ← mapM (go_index (default [] row)) (seqZ 0 (go_len (servers gg)));
  mnames ← go_index (mendnames gg) i;
  let cfg := set_rn cfg (enables false (rn cfg) (names ++ default [] mnames)) in
  let cfg := set_rn cfg (DeleteServer (rn cfg) (end_name (servername (gid gg) i))) in
  '(cfg, gg, _) ← copy_saved cfg gg i false;
  sv ← go_update (servers gg) i None;
  set_group cfg gi (MkGroup (gid gg) sv (saved gg) (endnames gg) (mendnames gg)).

Definition ShutdownGroup cfg (gi : Z) : option (config Srv Ctrl) :=
  foldM (λ cfg i, ShutdownServer cfg gi i) cfg (seqZ 0 (n cfg)).

Definition StartServer cfg (gi i : Z) (names mnames : list string) : option (config Srv Ctrl) :=
  gg ← go_index (groups cfg) gi;
  es ← go_update (endnames gg) i (Some names);
  r ← open_ends (rn cfg) names 0 (servername (gid gg));
  ms ← go_update (mendnames gg) i (Some mnames);
  r ← open_ends r mnames 0 ctrlername;
  '(cfg, gg, p) ← copy_saved (set_rn cfg r) (MkGroup (gid gg) (servers gg) (saved gg) es ms) i true;
  p ← p;
  ps ← persisters cfg !! p;
  srv ← start (gid gg) i p ps;
  sv ← go_update (servers gg) i (Some srv);
  cfg ← set_group cfg gi (MkGroup (gid gg) sv (saved gg) (endnames gg) (mendnames gg));
  Some (set_sys cfg (add_server (sys cfg) (end_name (servername (gid gg) i)) (services_of srv))).

(** [names] are the random names for each server. *)
Definition StartGroup cfg (gi : Z) (names : list (list string * list string)) : option (config Srv Ctrl) :=
  foldM (λ cfg p, StartServer cfg gi p.1 p.2.1 p.2.2) cfg (zip (seqZ 0 (n cfg)) names).

Definition StartCtrlerserver cfg (i : Z) (names : list string) : option (config Srv Ctrl) :=
  r ← open_ends (rn cfg) names 0 ctrlername;
  srv ← start_ctrler i;
  sv ← go_update (ctrlerservers cfg) i (Some srv);
  let s := add_server (MkSys r (heap (sys cfg))) (end_name (ctrlername i)) (ctrler_services_of srv) in
  Some (MkConfig s (nctrlers cfg) sv (mck cfg) (ngroups cfg) (n cfg) (groups cfg) (clerks cfg)
          (nextClientId cfg) (maxraftstate cfg) (persisters cfg)).

(** ** Joining and leaving: what the clerk [mck] sends *)

Definition joinm cfg (gis : list Z) : option Op :=
  entries ← mapM (λ g, gg ← go_index (groups cfg) g; Some (gid gg, servername (gid gg) <$> seqZ 0 (n cfg))) gis;
  Some (clerk_Join (mck cfg) (foldl (λ m e, <[e.1 := e.2]> m) ∅ entries)).
Definition join cfg (gi : Z) : option Op := joinm cfg [gi].

Definition leavem cfg (gis : list Z) : option Op :=
  gids ← mapM (λ g, gg ← go_index (groups cfg) g; Some (gid gg)) gis;
  Some (clerk_Leave (mck cfg) gids).
Definition leave cfg (gi : Z) : option Op := leavem cfg [gi].

(** ** The whole *)

(** One server in [checklogs] *)
Definition check_server cfg gg (i : Z) : option unit :=
  p ← go_index (saved gg) i; p ← p; ps ← persisters cfg !! p;
  if (0 <=? maxraftstate cfg) && (RaftStateSize ps >? 8 * maxraftstate cfg) then None
  else if (maxraftstate cfg <? 0) && (go_len (ReadSnapshot ps) >? 0) then None
  else Some tt.

Definition checklogs cfg : option unit :=
  foldM (λ _ gi, gg ← go_index (groups cfg) gi; foldM (λ _ i, check_server cfg gg i) tt (seqZ 0 (n cfg)))
    tt (seqZ 0 (ngroups cfg)).

Definition checkTimeout (failed : bool) (seconds : Z) : option unit :=
  if negb failed && (seconds >? 120) then None else Some tt.

(** The controllers, killed here, must all have been started. *)
Definition cleanup cfg (failed : bool) (seconds : Z) : option (config Srv Ctrl) :=
  cfg ← foldM ShutdownGroup cfg (seqZ 0 (ngroups cfg));
  _ ← mapM (λ i, mjoin (go_index (ctrlerservers cfg) i)) (seqZ 0 (nctrlers cfg));
  r ← Cleanup (rn cfg);
  _ ← checkTimeout failed seconds;
  Some (set_rn cfg r).

Definition new_group (m nc gi : Z) : group Srv :=
  MkGroup (100 + gi) (replicate (Z.to_nat m) None) (replicate (Z.to_nat m) None) (replicate (Z.to_nat m) None)
    (replicate (Z.to_nat nc) None).

(** The random names: of the controllers' ends, of the clerk's, of the groups'. *)
Record Names := MkNames {
  ctrler_names : list (list string);
  mck_names : list string;
  group_names : list (list (list string * list string));
}.

Definition make_config (m : Z) (unreliable : bool) (maxraft : Z) (ck : Clerk) (nm : Names) : option (config Srv Ctrl) :=
  let cfg := MkConfig (MkSys MakeNetwork ∅) 3 (replicate 3 None) ck 3 m [] ∅ (m + 1000) maxraft ∅ in
  cfg ← foldM (λ cfg p, StartCtrlerserver cfg p.1 p.2) cfg (zip (seqZ 0 3) (ctrler_names nm));
  cfg ← shardclerk cfg (mck_names nm);
  cfg ← foldM (λ cfg p,
                 StartGroup (MkConfig (sys cfg) (nctrlers cfg) (ctrlerservers cfg) (mck cfg) (ngroups cfg) (n cfg)
                    (groups cfg ++ [new_group m 3 p.1]) (clerks cfg) (nextClientId cfg) (maxraftstate cfg) (persisters cfg))
                   p.1 p.2)
          cfg (zip (seqZ 0 3) (group_names nm));
  Some (set_rn cfg (Reliable (rn cfg) (negb unreliable))).
End config.

(** ** What starting a server does *)

(** Servers have different names. *)
Lemma servername_inj g i g' i' : 0 <= i → 0 <= i' → servername g i = servername g' i' → g = g' ∧ i = i'.
Proof.
  intros Hi Hi' E. unfold servername in E. rewrite !dash_cons in E.
  apply last_char_unique in E as [E1 E2]; try by apply Itoa_no_dash.
  split; [|by apply Itoa_inj]. apply Itoa_inj. by simplify_eq.
Qed.

Section start.
Context `{!GoTypes} {Srv Ctrl : Type}.
Context (start : Z → Z → nat → Persister → option Srv) (services_of : Srv → list Service).
Implicit Types (cfg : config Srv Ctrl) (gg : group Srv) (r : Net).

Lemma open_ends_spec r names j server :
  NoDup names → (∀ x, x ∈ names → end_name x ∉ ends r) →
  ∃ r', open_ends r names j server = Some r'
    ∧ ends r' = list_to_set (end_name <$> names) ∪ ends r
    ∧ (∀ (k : nat) x, names !! k = Some x → is_enabled r' (end_name x) = true
         ∧ connections r' !! end_name x = Some (Some (end_name (server (j + Z.of_nat k)))))
    ∧ (∀ e, e ∉ end_name <$> names → is_enabled r' e = is_enabled r e ∧ connections r' !! e = connections r !! e)
    ∧ Labrpc.servers r' = Labrpc.servers r.
Proof.
  revert r j. induction names as [|x names IH]; intros r j Hnd Hfr; cbn [open_ends].
  { exists r. rewrite fmap_nil. split_and!; try done. set_solver. }
  apply NoDup_cons in Hnd as [Hx Hnd]. unfold make_end at 1, MakeEnd at 1. rewrite bool_decide_false by (apply Hfr; by left).
  cbn [mbind option_bind]. set (r1 := Enable _ _ _).
  destruct (IH r1 (j + 1) Hnd) as (r' & Hr & Hends & Hon & Hoff & Hsv).
  { intros y Hy. cbn. rewrite not_elem_of_union, not_elem_of_singleton. split; [by intros ->%(inj end_name)|apply Hfr; by right]. }
  exists r'. rewrite fmap_cons. split_and!; try done.
  - rewrite Hends. cbn. set_solver.
  - intros [|k] y Hy; cbn in Hy.
    + injection Hy as <-. destruct (Hoff (end_name x)) as [-> ->]; [by intros ?%(list_elem_of_fmap_inj_2 _)|].
      unfold is_enabled, r1; cbn. rewrite !lookup_insert_eq. split; [done|]. do 4 f_equal. lia.
    + destruct (Hon k y Hy) as [He Hc]. split; [done|]. rewrite Hc. do 4 f_equal. lia.
  - intros e [Hne He]%not_elem_of_cons. destruct (Hoff e He) as [-> ->].
    unfold is_enabled, r1; cbn. by rewrite !lookup_insert_ne.
Qed.

Lemma is_enabled_AddServer r s p e : is_enabled (AddServer r s p) e = is_enabled r e.
Proof. done. Qed.

(** A server that is started can call every server of its group and every controller,
    and the other ends of the network are as before. *)
Theorem start_connects cfg gi i gg c srv names mnames :
  go_index (groups cfg) gi = Some gg → 0 <= i →
  i < go_len (saved gg) → i < go_len (endnames gg) → i < go_len (mendnames gg) → i < go_len (servers gg) →
  NoDup (names ++ mnames) → (∀ x, x ∈ names ++ mnames → end_name x ∉ ends (rn cfg)) →
  (old ← go_index (saved gg) i; match old with Some p => persisters cfg !! p | None => Some MakePersister end) = Some c →
  start (gid gg) i (fresh (dom (persisters cfg))) c = Some srv →
  ∃ cfg', StartServer start services_of cfg gi i names mnames = Some cfg'
    ∧ (∀ (k : nat) x, names !! k = Some x → is_enabled (rn cfg') (end_name x) = true
         ∧ connections (rn cfg') !! end_name x = Some (Some (end_name (servername (gid gg) (Z.of_nat k)))))
    ∧ (∀ (k : nat) x, mnames !! k = Some x → is_enabled (rn cfg') (end_name x) = true
         ∧ connections (rn cfg') !! end_name x = Some (Some (end_name (ctrlername (Z.of_nat k)))))
    ∧ is_Some (server_of (rn cfg') (end_name (servername (gid gg) i)))
    ∧ ∀ e, e ∉ end_name <$> names ++ mnames →
        is_enabled (rn cfg') e = is_enabled (rn cfg) e ∧ connections (rn cfg') !! e = connections (rn cfg) !! e.
Proof.
  intros Hgg Hi Hs He Hm Hsv Hnd Hfr Hc Hst. apply NoDup_app in Hnd as (Hnd1 & Hdis & Hnd2).
  destruct (open_ends_spec (rn cfg) names 0 (servername (gid gg)) Hnd1) as (r1 & Hr1 & Hends & Hon1 & Hoff1 & Hsv1).
  { intros x Hx. apply Hfr, elem_of_app. auto. }
  destruct (open_ends_spec r1 mnames 0 ctrlername Hnd2) as (r2 & Hr2 & _ & Hon2 & Hoff2 & Hsv2).
  { intros x Hx. rewrite Hends, not_elem_of_union, elem_of_list_to_set. split; [|apply Hfr, elem_of_app; auto].
    rewrite (list_elem_of_fmap_inj end_name). intros Hx'. by apply (Hdis x). }
  unfold StartServer. rewrite Hgg. cbn [mbind option_bind].
  assert (∀ A (l : list A) (x : A), i < go_len l → go_update l i x = Some (<[Z.to_nat i := x]> l)) as Hup.
  { intros A l x Hl. unfold go_update. by rewrite (proj2 (andb_true_iff _ _)) by lia. }
  rewrite Hup by done. cbn [mbind option_bind]. rewrite Hr1. cbn [mbind option_bind]. rewrite Hup by done.
  cbn [mbind option_bind]. rewrite Hr2. cbn [mbind option_bind]. unfold copy_saved. cbn [saved persisters set_rn set_sys].
  destruct (go_index (saved gg) i) as [old|]; cbn [mbind option_bind] in *; [|done].
  set (p := fresh _) in *. rewrite (Hup _ (saved gg)) by done.
  assert ((match old with Some q => Copy <$> persisters cfg !! q | None => Some MakePersister end) = Some c) as Hcopy.
  { destruct old; [rewrite Hc; cbn; by destruct c|done]. }
  assert (is_Some (go_update (groups cfg) gi (MkGroup (gid gg) (<[Z.to_nat i:=Some srv]> (servers gg)) (<[Z.to_nat i:=Some p]> (saved gg))
    (<[Z.to_nat i:=Some names]> (endnames gg)) (<[Z.to_nat i:=Some mnames]> (mendnames gg))))) as [gs Hgs].
  { unfold go_update. apply go_index_lookup in Hgg as [Hgi Hgg]. apply lookup_lt_Some in Hgg.
    rewrite (proj2 (andb_true_iff _ _)) by (unfold go_len; lia). by eexists. }
  destruct old; rewrite Hcopy; cbn [mbind option_bind persisters]; rewrite lookup_insert_eq; cbn [mbind option_bind];
    cbn [gid servers saved endnames mendnames]; rewrite Hst; cbn [mbind option_bind]; rewrite Hup by done;
    cbn [mbind option_bind]; unfold set_group; cbn [groups set_rn set_sys]; rewrite Hgs; cbn [mbind option_bind]; eexists; (split; [done|]); cbn -[fmap].
  all: split_and!.
  all: try (intros k x Hx; rewrite is_enabled_AddServer; by apply Hon2).
  all: try (intros k x Hx; rewrite is_enabled_AddServer; destruct (Hoff2 (end_name x)) as [-> ->]; [|by apply Hon1];
            rewrite (list_elem_of_fmap_inj end_name); apply Hdis; by eapply list_elem_of_lookup_2).
  all: try (unfold server_of; cbn; rewrite lookup_insert_eq; by eexists).
  all: intros e Hne; rewrite fmap_app, not_elem_of_app in Hne; destruct Hne as [H1 H2], (Hoff1 e H1), (Hoff2 e H2);
    rewrite is_enabled_AddServer; split; congruence.
Qed.

(** There are rows of names for three servers ([nctrlers]) in a group, however many
    servers it has: starting a fourth panics. *)
Lemma fourth_server_panics cfg gi i gg names mnames :
  go_index (groups cfg) gi = Some gg → go_len (mendnames gg) <= i →
  StartServer start services_of cfg gi i names mnames = None.
Proof.
  intros Hgg Hi. unfold StartServer. rewrite Hgg. cbn [mbind option_bind].
  destruct (go_update (endnames gg) i _); cbn [mbind option_bind]; [|done].
  destruct (open_ends _ _ _ _); cbn [mbind option_bind]; [|done].
  unfold go_update. by rewrite (proj2 (andb_false_iff _ _)) by lia.
Qed.
End start.
