(* ===== verification/ShardKV.v ===== *)
(** * Package [shardkv] (shardkv/server.go, shardkv/client.go, shardkv/common.go)

    A replica group of the sharded key/value service: its storage, the shards it
    holds, the hand-offs it has received and the ones it still has to make; the
    goroutine that follows the controller's configurations; the clerk.  The
    handlers that wait for Raft and the applier are those of [OpServer].

    A hand-off is the key of a Go map and holds a pointer to its list of shards, so
    two hand-offs are the same key only if they hold the same address.  A
    pointer is an address with the list it points to, which is never written.

    The clerk of the controller, the outcome of remote calls and what Raft
    delivers are inputs.  [applyAddShardsL] releases the lock once its writes are
    done, only to log; it is modelled as one step. *)

From S2P Require Import Prelude Util Labgob OpServer ShardCtrler.
From Stdlib Require Import Ascii.

(** ** Data *)

Inductive OpType := opPut | opAppend | opGet | opAddShards | opRemoveShards | opHandOffDone.

#[global] Instance OpType_eq_dec : EqDecision OpType.
Proof. solve_decision. Defined.

Record LastOp := MkLastOp {
  lo_ClientId : Z;
  lo_OpId : Z;
  lo_GetResult : string;
}.

(** [*[]int]: [None] is nil. *)
Notation pointer := (option (nat * list Z)).

Record Handoff := MkHandoff {
  h_Gid : Z;
  h_ConfigNum : Z;
  h_Shards : pointer;
}.

(** Go's [==] on hand-offs compares the pointers. *)
Definition handoff_eqb (a b : Handoff) : bool :=
  (h_Gid a =? h_Gid b) && (h_ConfigNum a =? h_ConfigNum b) && bool_decide (fst <$> h_Shards a = fst <$> h_Shards b).

Record Op := MkOp {
  op_Type : OpType;
  op_Key : string;
  op_Value : string;
  op_ConfigNum : Z;
  op_Shards : list Z;
  op_Gid : Z;
  op_KVMap : gmap string string;
  op_LastOps : gmap Z LastOp;
  op_Handoff : Handoff;
  op_ClientId : Z;
  op_OpId : Z;
}.

Definition zeroHandoff : Handoff := MkHandoff 0 0 None.

(** [op.isSame(clientId, opId)] *)
Definition isSame (op : Op) (clientId opId : Z) : bool := (op_ClientId op =? clientId) && (op_OpId op =? opId).

Record PutAppendArgs := MkPutAppendArgs {
  pa_Key : string; pa_Value : string; pa_Op : OpType; pa_ClientId : Z; pa_OpId : Z }.
Record GetArgs := MkGetArgs { ga_Key : string; ga_ClientId : Z; ga_OpId : Z }.

Record HandOffShardsArgs := MkHandOffShardsArgs {
  ha_Gid : Z;
  ha_Sid : Z;
  ha_ConfigNum : Z;
  ha_Shards : list Z;
  ha_KVMap : gmap string string;
  ha_LastOps : gmap Z LastOp;
}.

(** The fields of the struct that hold state of the service.  The hand-offs to
    make are the keys of the map [pendingHandoffs], whose values are all
    [true]; [nextPtr] is the next address. *)
Record ShardKV := MkShardKV {
  me : Z;
  gid : Z;
  kvMap : gmap string string;
  validShards : gmap Z bool;
  lastOps : gmap Z LastOp;
  receivedHandoffs : gmap Z (list (list Z));
  pendingHandoffs : list Handoff;
  nextPtr : nat;
  clientId : Z;
  opId : Z;
}.

Definition set_storage (kv : ShardKV) (m : gmap string string) (v : gmap Z bool) (l : gmap Z LastOp)
    (r : gmap Z (list (list Z))) (p : list Handoff) (n : nat) : ShardKV :=
  MkShardKV (me kv) (gid kv) m v l r p n (clientId kv) (opId kv).
Definition set_kvMap (kv : ShardKV) (m : gmap string string) : ShardKV :=
  set_storage kv m (validShards kv) (lastOps kv) (receivedHandoffs kv) (pendingHandoffs kv) (nextPtr kv).
Definition set_lastOps (kv : ShardKV) (l : gmap Z LastOp) : ShardKV :=
  set_storage kv (kvMap kv) (validShards kv) l (receivedHandoffs kv) (pendingHandoffs kv) (nextPtr kv).
Definition set_pending (kv : ShardKV) (p : list Handoff) : ShardKV :=
  set_storage kv (kvMap kv) (validShards kv) (lastOps kv) (receivedHandoffs kv) p (nextPtr kv).

(** [init] *)
Definition init (me gid : Z) : ShardKV := MkShardKV me gid ∅ ∅ ∅ ∅ [] 0 (- gid) 0.

(** ** client.go: shards *)

Definition key2shard (key : string) : Z :=
  let shard := match key with EmptyString => 0 | String c _ => Z.of_N (N_of_ascii c) end in
  Z.rem shard NShards.

(** ** Handlers of the clients *)

(** The operations that [Get] and [PutAppend] hand to [processOpL]. *)
Definition Get (args : GetArgs) : Op :=
  MkOp opGet (ga_Key args) "" 0 [] 0 ∅ ∅ zeroHandoff (ga_ClientId args) (ga_OpId args).
Definition PutAppend (args : PutAppendArgs) : Op :=
  MkOp (pa_Op args) (pa_Key args) (pa_Value args) 0 [] 0 ∅ ∅ zeroHandoff (pa_ClientId args) (pa_OpId args).

(** ** Applier *)

(** [kv.validShards[shard]] *)
Definition validShard (kv : ShardKV) (shard : Z) : bool := default false (validShards kv !! shard).

Definition just_processed (kv : ShardKV) (op : Op) : option LastOp :=
  l ← lastOps kv !! op_ClientId op;
  if isSame op (lo_ClientId l) (lo_OpId l) then Some l else None.

Definition notNewShardsL (kv : ShardKV) (configNum : Z) (newShards : list Z) : bool :=
  existsb (λ shards, bool_decide (shards = newShards)) (default [] (receivedHandoffs kv !! configNum)).

(** The loop over [op.LastOps]: each client is visited once, so the order does
    not matter. *)
Definition merge_lastOps (mine theirs : gmap Z LastOp) : gmap Z LastOp :=
  merge (λ m t, match t with
                | None => m
                | Some l => if lo_OpId l >? default 0 (lo_OpId <$> m) then Some l else m
                end) mine theirs.

(** The loop over [op.KVMap], likewise. *)
Definition merge_kvMap (mine theirs : gmap string string) (shards : list Z) : gmap string string :=
  filter (λ p, InSlice (key2shard p.1) shards = true) theirs ∪ mine.

Definition applyAddShardsL (kv : ShardKV) (op : Op) : ShardKV :=
  if notNewShardsL kv (op_ConfigNum op) (op_Shards op) then kv
  else
    let received := default [] (receivedHandoffs kv !! op_ConfigNum op) ++ [op_Shards op] in
    set_storage kv
      (merge_kvMap (kvMap kv) (op_KVMap op) (op_Shards op))
      (foldl (λ v shard, <[shard := true]> v) (validShards kv) (op_Shards op))
      (merge_lastOps (lastOps kv) (op_LastOps op))
      (<[op_ConfigNum op := received]> (receivedHandoffs kv))
      (pendingHandoffs kv) (nextPtr kv).

Definition removed (kv : ShardKV) (op : Op) : bool := existsb (λ shard, negb (validShard kv shard)) (op_Shards op).

(** [&op.Shards] is a new address: [op] is a variable of the applier's loop. *)
Definition applyRemoveShardsL (kv : ShardKV) (op : Op) : ShardKV :=
  if removed kv op then kv
  else
    let handoff := MkHandoff (op_Gid op) (op_ConfigNum op) (Some (nextPtr kv, op_Shards op)) in
    set_storage kv (kvMap kv) (foldl (λ v shard, delete shard v) (validShards kv) (op_Shards op)) (lastOps kv)
      (receivedHandoffs kv) (handoff :: pendingHandoffs kv) (S (nextPtr kv)).

Definition is_reconf (t : OpType) : bool :=
  match t with opAddShards | opRemoveShards => true | _ => false end.

Definition applyOpL (kv : ShardKV) (op : Op) : ShardKV * (Err * string) :=
  match just_processed kv op with
  | None =>
    if negb (is_reconf (op_Type op)) && negb (validShard kv (key2shard (op_Key op))) then (kv, (ErrWrongGroup, ""))
    else
      let old := default "" (kvMap kv !! op_Key op) in
      let '(kv, (err, value)) :=
        match op_Type op with
        | opPut => (set_kvMap kv (<[op_Key op := op_Value op]> (kvMap kv)), (OK, op_Value op))
        | opAppend =>
          let new := (old +:+ op_Value op)%string in
          (set_kvMap kv (<[op_Key op := new]> (kvMap kv)), (OK, new))
        | opGet => (kv, (if bool_decide (old = ""%string) then ErrNoKey else OK, old))
        | opAddShards => (applyAddShardsL kv op, (OK, ""%string))
        | opRemoveShards => (applyRemoveShardsL kv op, (OK, ""%string))
        | opHandOffDone =>
          (set_pending kv (filter (λ h, handoff_eqb h (op_Handoff op) = false) (pendingHandoffs kv)), (OK, ""%string))
        end in
      (set_lastOps kv (<[op_ClientId op := MkLastOp (op_ClientId op) (op_OpId op) value]> (lastOps kv)), (err, value))
  | Some l => (kv, (OK, lo_GetResult l))
  end.

(** An operation that another replica started was decoded from a message: a
    pointer in it is a new one. *)
Definition decoded (kv : ShardKV) (op : Op) : ShardKV * Op :=
  match h_Shards (op_Handoff op) with
  | None => (kv, op)
  | Some (_, shards) =>
    let h := MkHandoff (h_Gid (op_Handoff op)) (h_ConfigNum (op_Handoff op)) (Some (nextPtr kv, shards)) in
    (set_storage kv (kvMap kv) (validShards kv) (lastOps kv) (receivedHandoffs kv) (pendingHandoffs kv) (S (nextPtr kv)),
     MkOp (op_Type op) (op_Key op) (op_Value op) (op_ConfigNum op) (op_Shards op) (op_Gid op) (op_KVMap op)
       (op_LastOps op) h (op_ClientId op) (op_OpId op))
  end.

(** ** Snapshots *)

(** Pointers are encoded as what they point to. *)
Abbreviation SKSnapshot := (gmap string string * gmap Z bool * gmap Z LastOp * gmap Z (list (list Z))
  * list (Z * Z * option (list Z)))%type.

(** Decoding allocates the lists of shards. *)
Fixpoint alloc_handoffs (n : nat) (hs : list (Z * Z * option (list Z))) : nat * list Handoff :=
  match hs with
  | [] => (n, [])
  | (g, c, s) :: hs =>
    let '(n, p) := match s with Some l => (S n, Some (n, l)) | None => (n, None) end in
    let '(n, hs) := alloc_handoffs n hs in
    (n, MkHandoff g c p :: hs)
  end.

Section snapshots.
Context `{!GobCodec SKSnapshot}.
Context (maxraftstate : Z).

Definition snapshotL (kv : ShardKV) : bytes :=
  gob_encode (kvMap kv, validShards kv, lastOps kv, receivedHandoffs kv,
    (λ h, (h_Gid h, h_ConfigNum h, snd <$> h_Shards h)) <$> pendingHandoffs kv).

Definition readSnapshotL (kv : ShardKV) (snapshot : bytes) : option ShardKV :=
  match snapshot with
  | [] => Some kv
  | _ =>
    '(m, v, l, r, p) ← gob_decode snapshot;
    let '(n, hs) := alloc_handoffs (nextPtr kv) p in
    Some (set_storage kv m v l r hs n)
  end.

Definition takeSnapshot (kv : ShardKV) (raftStateSize : Z) : option bytes :=
  if negb (maxraftstate =? NA) && (raftStateSize >=? maxraftstate) then Some (snapshotL kv) else None.

#[global] Instance shardkv_machine : StateMachine ShardKV Op string := {|
  sm_same op op' := isSame op (op_ClientId op') (op_OpId op');
  sm_cached kv op := lo_GetResult <$> just_processed kv op;
  sm_apply kv op := Some (applyOpL kv op);
  sm_snapshot := takeSnapshot;
  sm_restore := readSnapshotL;
  sm_novalue := "";
|}.

(** ** Start *)

(** The loop of [firstConfigL] over the answers to [Query(1)]. *)
Fixpoint firstConfig_loop (answers : list Config) : option Config :=
  match answers with
  | [] => None
  | config :: answers => if Num config =? 0 then firstConfig_loop answers else Some config
  end.

(** [for shard, gid := range config.Shards { if gid == kv.gid {...} }] *)
Definition own_shards (kv : ShardKV) (shards : list Z) : gmap Z bool :=
  foldl (λ v '(shard, g), if g =? gid kv then <[Z.of_nat shard := true]> v else v) (validShards kv) (imap pair shards).

Definition firstConfigL (kv : ShardKV) (answers : list Config) : option ShardKV :=
  config ← firstConfig_loop answers;
  Some (set_storage kv (kvMap kv) (own_shards kv (Shards config)) (lastOps kv) (receivedHandoffs kv)
    (pendingHandoffs kv) (nextPtr kv)).

Definition start (kv : ShardKV) (answers : list Config) (snapshot : bytes) : option ShardKV :=
  kv ← firstConfigL kv answers; readSnapshotL kv snapshot.

Definition StartServer (me gid : Z) (answers : list Config) (snapshot : bytes) : option ShardKV :=
  start (init me gid) answers snapshot.
End snapshots.

(** ** Reconfiguration *)

(** [reconfigureL] up to the wait: the operation it hands to [rf.Start], if any. *)
Definition reconfigureL (kv : ShardKV) (op : Op) : ShardKV * option Op :=
  let op := MkOp (op_Type op) (op_Key op) (op_Value op) (op_ConfigNum op) (op_Shards op) (op_Gid op) (op_KVMap op)
              (op_LastOps op) (op_Handoff op) (clientId kv) (opId kv) in
  let kv := MkShardKV (me kv) (gid kv) (kvMap kv) (validShards kv) (lastOps kv) (receivedHandoffs kv)
              (pendingHandoffs kv) (nextPtr kv) (clientId kv) (opId kv + 1) in
  match just_processed kv op with
  | Some _ => (kv, None)
  | None => (kv, Some op)
  end.

Definition addShards_op (configNum : Z) (shards : list Z) (m : gmap string string) (l : gmap Z LastOp) : Op :=
  MkOp opAddShards "" "" configNum shards 0 m l zeroHandoff 0 0.
Definition removeShards_op (configNum : Z) (shards : list Z) (g : Z) : Op :=
  MkOp opRemoveShards "" "" configNum shards g ∅ ∅ zeroHandoff 0 0.
Definition handoffDone_op (h : Handoff) : Op := MkOp opHandOffDone "" "" 0 [] 0 ∅ ∅ h 0 0.

Definition addShardsL (kv : ShardKV) (configNum : Z) (shards : list Z) (m : gmap string string) (l : gmap Z LastOp) :=
  reconfigureL kv (addShards_op configNum shards m l).
Definition removeShardsL (kv : ShardKV) (configNum : Z) (shards : list Z) (g : Z) :=
  reconfigureL kv (removeShards_op configNum shards g).
Definition handoffDoneL (kv : ShardKV) (h : Handoff) := reconfigureL kv (handoffDone_op h).

(** [HandOffShards] up to the wait of [addShardsL]: the reply, or the state and the
    operation it waits for. *)
Definition HandOffShards (kv : ShardKV) (isLeader : bool) (args : HandOffShardsArgs) : Err + (ShardKV * option Op) :=
  if negb isLeader then inl ErrWrongLeader
  else if notNewShardsL kv (ha_ConfigNum args) (ha_Shards args) then inl OK
  else inr (addShardsL kv (ha_ConfigNum args) (ha_Shards args) (ha_KVMap args) (ha_LastOps args)).

(** ... and after it; [None] is the empty error. *)
Definition HandOffShards_end (kv : ShardKV) (args : HandOffShardsArgs) : option Err :=
  if notNewShardsL kv (ha_ConfigNum args) (ha_Shards args) then Some OK else None.

(** The first loop of [pollConfig]: the shards of this group that the configuration
    gives to others. *)
Definition moved_shards (kv : ShardKV) (shards : list Z) : gmap Z (list Z) :=
  foldl (λ m '(shard, g),
    if validShard kv (Z.of_nat shard) && negb (g =? gid kv)
    then <[g := default [] (m !! g) ++ [Z.of_nat shard]]> m else m) ∅ (imap pair shards).

(** The removals that [pollConfig] asks for, in the order of the map. *)
Definition pollConfig `{!MapOrder} (t : nat) (kv : ShardKV) (config : Config) : list (Z * list Z) :=
  range t (moved_shards kv (Shards config)).

(** The arguments that [checkPendingHandoffs] makes for a hand-off; a nil pointer
    panics.  [copyKVMap] and [copyLastOps] copy the maps. *)
Definition handoff_args (kv : ShardKV) (h : Handoff) : option HandOffShardsArgs :=
  '(_, shards) ← h_Shards h;
  Some (MkHandOffShardsArgs (gid kv) (me kv) (h_ConfigNum h) shards (kvMap kv) (lastOps kv)).

(** [handOffL]: the servers that were called, until one answers [OK]; [None] while
    the loop goes on. *)
Fixpoint handOffL (servers : list string) (si : nat) (outcomes : list (option Err)) : option (list string) :=
  match outcomes with
  | [] => None
  | outcome :: outcomes =>
    srv ← servers !! si;
    if bool_decide (outcome = Some OK) then Some [srv]
    else
      let si := if (S si <? length servers)%nat then S si else 0%nat in
      called ← handOffL servers si outcomes; Some (srv :: called)
  end.

(** ** The clerk *)

Record Clerk := MkClerk {
  ck_config : Config;
  ck_me : Z;
  groupLeaders : gmap Z Z;
  nextOpId : Z;
}.

Definition MakeClerk (count : Z) (config : Config) : Z * Clerk :=
  let count := count + 1 in
  (count, MkClerk config (Z.rem count 100) ∅ 0).

Definition set_config (ck : Clerk) (config : Config) : Clerk :=
  MkClerk config (ck_me ck) (groupLeaders ck) (nextOpId ck).
Definition set_leader (ck : Clerk) (g leader : Z) : Clerk :=
  MkClerk (ck_config ck) (ck_me ck) (<[g := leader]> (groupLeaders ck)) (nextOpId ck).

Definition changeLeaderL (ck : Clerk) (g nServers : Z) : Clerk :=
  let leader := default 0 (groupLeaders ck !! g) + 1 in
  set_leader ck g (if leader >=? nServers then 0 else leader).

(** What one round of the loop gets: the outcome of the call and the configuration
    that the controller would answer with. *)
Record Round := MkRound {
  r_outcome : option (Err * string);
  r_config : Config;
}.

(** [_sendOpL]: the clerk, the value unless the rounds ran out, and the servers
    called; [None] is a panic. *)
Fixpoint sendOpL_loop (ck : Clerk) (key : string) (rounds : list Round)
    : option (Clerk * option string * list string) :=
  match rounds with
  | [] => Some (ck, None, [])
  | r :: rounds =>
    g ← (Shards (ck_config ck)).[key2shard key];
    match Groups (ck_config ck) !! g with
    | Some servers =>
      let ck := match groupLeaders ck !! g with Some _ => ck | None => set_leader ck g 0 end in
      srv ← servers.[default 0 (groupLeaders ck !! g)];
      match r_outcome r with
      | Some (err, v) =>
        if bool_decide (err = OK) || bool_decide (err = ErrNoKey) then Some (ck, Some v, [srv])
        else
          let ck := if bool_decide (err = ErrWrongGroup) then set_config ck (r_config r)
                    else changeLeaderL ck g (go_len servers) in
          '(ck, v, called) ← sendOpL_loop ck key rounds; Some (ck, v, srv :: called)
      | None =>
        '(ck, v, called) ← sendOpL_loop (changeLeaderL ck g (go_len servers)) key rounds; Some (ck, v, srv :: called)
      end
    | None => sendOpL_loop (set_config ck (r_config r)) key rounds
    end
  end.

Definition sendOpL (ck : Clerk) (key : string) (rounds : list Round) : option (Clerk * option string * list string) :=
  sendOpL_loop (MkClerk (ck_config ck) (ck_me ck) (groupLeaders ck) (nextOpId ck + 1)) key rounds.

(** The arguments that [Get], [Put] and [Append] of the clerk send. *)
Definition clerk_Get (ck : Clerk) (key : string) : GetArgs := MkGetArgs key (ck_me ck) (nextOpId ck).
Definition clerk_PutAppend (ck : Clerk) (key value : string) (op : OpType) : PutAppendArgs :=
  MkPutAppendArgs key value op (ck_me ck) (nextOpId ck).
Definition clerk_Put (ck : Clerk) (key value : string) : PutAppendArgs := clerk_PutAppend ck key value opPut.
Definition clerk_Append (ck : Clerk) (key value : string) : PutAppendArgs := clerk_PutAppend ck key value opAppend.
