(* ===== verification/ShardMessages.v ===== *)
(** * Messages of [shardkv] (shardkv/common.go, shardkv/server.go, shardkv/client.go)

    The strings of operations, arguments and replies, the copies that a hand-off
    sends, and the log methods of a server and a clerk.  The number under which a
    server logs is the one under which its Raft peer does, for groups numbered
    with three digits as the tests number them. *)

From S2P Require Import Prelude GoStrings Util Logging Labgob RaftState RaftMessages ShardKV.
From Stdlib Require Import Ascii.

(** ** Strings *)

Definition OpType_string (t : OpType) : string :=
  match t with
  | opPut => "Put" | opAppend => "Append" | opGet => "Get"
  | opAddShards => "AddShards" | opRemoveShards => "RemoveShards" | opHandOffDone => "HandOffDone"
  end.

Definition PutAppendArgs_String (p : PutAppendArgs) : string :=
  if bool_decide (pa_Op p = opPut)
  then Itoa (pa_ClientId p) +:+ "-" +:+ Itoa (pa_OpId p) +:+ " Put " +:+ pa_Key p +:+ ": " +:+ pa_Value p
  else Itoa (pa_ClientId p) +:+ "-" +:+ Itoa (pa_OpId p) +:+ " Append " +:+ pa_Key p +:+ ": " +:+ pa_Value p.

Definition GetArgs_String (g : GetArgs) : string :=
  Itoa (ga_ClientId g) +:+ "-" +:+ Itoa (ga_OpId g) +:+ " Get " +:+ ga_Key g.

Record OpReply := MkOpReply { or_Err : Err; or_Value : string }.

Definition OpReply_String (o : OpReply) : string := Err_string (or_Err o) +:+ " " +:+ or_Value o.

Definition HandOffShardsArgs_String (h : HandOffShardsArgs) : string :=
  "HandOff " +:+ Itoa (ha_ConfigNum h) +:+ ":" +:+ show_ints (ha_Shards h).

Definition Op_String (op : Op) : string :=
  let content :=
    if bool_decide (op_Type op = opAddShards) then Itoa (op_ConfigNum op) +:+ ": " +:+ show_ints (op_Shards op)
    else if bool_decide (op_Type op = opRemoveShards) || bool_decide (op_Type op = opHandOffDone)
    then Itoa (op_ConfigNum op) +:+ ": " +:+ show_ints (op_Shards op) +:+ " to " +:+ Itoa (op_Gid op)
    else if bool_decide (op_Type op = opGet) then op_Key op
    else op_Key op +:+ ": " +:+ op_Value op in
  Itoa (op_ClientId op) +:+ "-" +:+ Itoa (op_OpId op) +:+ " " +:+ OpType_string (op_Type op) +:+ " " +:+ content.

Definition LastOp_String (l : LastOp) : string := Itoa (lo_ClientId l) +:+ "-" +:+ Itoa (lo_OpId l).

(** The result that the applier hands to the handler; a nil pointer is printed as
    [<nil>]. *)
Record _Result := Mk_Result { r_err : Err; r_value : string; r_op : option Op }.

Definition _Result_String (r : _Result) : string :=
  Err_string (r_err r) +:+ " " +:+ r_value r +:+ " (" +:+ match r_op r with Some op => Op_String op | None => "<nil>" end +:+ ")".

Definition topic (op : Op) : LogTopic :=
  let topic := TKVServer2 in
  if bool_decide (op_Type op = opAddShards) || bool_decide (op_Type op = opRemoveShards) then TConfig2 else topic.

(** ** Copies

    [entries] is the map in the order of the iteration. *)

Definition copyKVMap (entries : list (string * string)) : gmap string string :=
  foldl (λ result '(k, v), <[k := v]> result) ∅ entries.

Definition copyLastOps (entries : list (Z * LastOp)) : gmap Z LastOp :=
  foldl (λ result '(k, v), <[k := v]> result) ∅ entries.

(** ** Log methods *)

Section logs.
Context {A : Type} (s : LogState).
Notation output := (list (string * list A)).

(** [kv.name], which [init] sets *)
Definition server_name (gid me : Z) : string := "GID" +:+ Itoa gid +:+ "-" +:+ Itoa me.

(** The number of a server in the messages *)
Definition peer_number (gid me : Z) : Z := me + Z.rem gid 3 * 3.

Definition server_log (out : output) (time : Z) (name : string) (kv : ShardKV) (verbose : Z) (topic : LogTopic) (format : string) (a : list A) : output :=
  let format := name +:+ ": " +:+ format in
  LogKV s out time verbose topic (peer_number (gid kv) (me kv)) format a.

Definition clerk_log (out : output) (time : Z) (ck : Clerk) (verbose : Z) (topic : LogTopic) (format : string) (a : list A) : output :=
  let format := "KCLNT: " +:+ format in
  LogKVClnt s out time verbose topic (ck_me ck) format a.

Context (string_arg : string → A).

Definition server_lock (out : output) (time : Z) (name : string) (kv : ShardKV) (mu : bool) (method : string) : output * option bool :=
  (server_log out time name kv VExcessive TTrace "acquire lock (%v)" [string_arg method], Lock mu).

Definition server_unlock (out : output) (time : Z) (name : string) (kv : ShardKV) (mu : bool) (method : string) : output * option bool :=
  (server_log out time name kv VExcessive TTrace "release lock (%v)" [string_arg method], Unlock mu).

Definition clerk_lock (out : output) (time : Z) (ck : Clerk) (mu : bool) (method : string) : output * option bool :=
  (clerk_log out time ck VExcessive TTrace "acquire lock (%v)" [string_arg method], Lock mu).

Definition clerk_unlock (out : output) (time : Z) (ck : Clerk) (mu : bool) (method : string) : output * option bool :=
  (clerk_log out time ck VExcessive TTrace "release lock (%v)" [string_arg method], Unlock mu).
End logs.

(** ** The clerk and the server write the same string *)

Lemma shardkv_Get_String g : Op_String (Get g) = GetArgs_String g.
Proof. reflexivity. Qed.

Lemma shardkv_PutAppend_String p : pa_Op p = opPut ∨ pa_Op p = opAppend → Op_String (PutAppend p) = PutAppendArgs_String p.
Proof. unfold Op_String, PutAppendArgs_String. cbn. by intros [-> | ->]. Qed.

Lemma shardkv_Op_String_identifies op op' :
  0 <= op_ClientId op → 0 <= op_ClientId op' → 0 <= op_OpId op → 0 <= op_OpId op' →
  Op_String op = Op_String op' → isSame op (op_ClientId op') (op_OpId op') = true ∧ op_Type op = op_Type op'.
Proof.
  intros Hc Hc' Ho Ho' E. unfold Op_String in E. apply pair_text_inj in E as (E1 & E2 & E); [|done..].
  unfold isSame. rewrite E1, E2, !Z.eqb_refl. split; [done|].
  apply (first_char_unique " ") in E as [E _]; [|by destruct (op_Type op)|by destruct (op_Type op')]. by destruct (op_Type op), (op_Type op').
Qed.

Lemma shardkv_LastOp_String_inj (l l' : LastOp) :
  0 <= lo_ClientId l → 0 <= lo_ClientId l' → LastOp_String l = LastOp_String l' →
  lo_ClientId l = lo_ClientId l' ∧ lo_OpId l = lo_OpId l'.
Proof. intros. by apply pair_inj. Qed.

(** ** A copy is the map *)

Lemma copy_map {K V} `{Countable K} (entries : list (K * V)) (acc : gmap K V) :
  NoDup entries.*1 → (∀ k, k ∈ entries.*1 → acc !! k = None) →
  foldl (λ result '(k, v), <[k := v]> result) acc entries = list_to_map entries ∪ acc.
Proof.
  revert acc. induction entries as [|[k v] entries IH]; intros acc Hnd Ha; cbn.
  - by rewrite (left_id_L ∅ (∪)).
  - apply NoDup_cons in Hnd as [Hk Hnd]. rewrite IH; [|done|].
    + rewrite <- insert_union_r by by apply not_elem_of_list_to_map. by rewrite insert_union_l.
    + intros k' Hk'. rewrite lookup_insert_ne by (intros ->; done). apply Ha. by right.
Qed.

Lemma copy_same {K V} `{Countable K} (m : gmap K V) (entries : list (K * V)) : entries ≡ₚ map_to_list m →
  foldl (λ result '(k, v), <[k := v]> result) ∅ entries = m.
Proof.
  intros Hp. assert (NoDup entries.*1) as Hnd by (rewrite Hp; apply NoDup_fst_map_to_list).
  rewrite copy_map; [|done|by intros; apply lookup_empty]. rewrite (right_id_L ∅ (∪)).
  rewrite (list_to_map_proper _ (map_to_list m)) by done. apply list_to_map_to_list.
Qed.

Lemma copyKVMap_same m entries : entries ≡ₚ map_to_list m → copyKVMap entries = m.
Proof. apply copy_same. Qed.

Lemma copyLastOps_same m entries : entries ≡ₚ map_to_list m → copyLastOps entries = m.
Proof. apply copy_same. Qed.

(** ** The name of a Raft peer *)

Section names.
Context {C A : Type} `{!GobCodec (PState C)} (s : LogState).

Lemma server_name_length gid me : (6 <= String.length (server_name gid me))%nat.
Proof.
  unfold server_name. rewrite !string_length_app. pose proof (Itoa_pos_length gid). pose proof (Itoa_pos_length me). cbn. lia.
Qed.

(** The peer of a server never panics when it logs. *)
Lemma logL_server gid i out time (rf : Raft C) v topic format (a : list A) :
  is_Some (logL s out time (server_name gid i) rf v topic format a).
Proof.
  apply not_eq_None_Some. intros H%logL_panics. pose proof (server_name_length gid i). lia.
Qed.

Lemma MakeName_server env n i ps gid out time : is_Some (initL env n i ps) →
  is_Some (MakeName (C := C) s (A := A) env n i ps (server_name gid i) out time).
Proof.
  intros [rf Hi]. unfold MakeName. rewrite Hi. cbn [mbind option_bind].
  destruct (logL_server gid i out time rf VCrucial TTrace "start peer (Make)" []) as [out' ->]. by eexists.
Qed.

Lemma three_digits gid : 100 <= gid < 1000 → String.length (Itoa gid) = 3%nat.
Proof.
  intros Hg. assert (forallb (λ g, String.length (Itoa g) =? 3)%nat (seqZ 100 900) = true) as H by (vm_compute; reflexivity).
  rewrite forallb_forall in H. apply Nat.eqb_eq, H, list_elem_of_In, elem_of_seqZ. lia.
Qed.

(** A server and its Raft peer log under one number. *)
Lemma logL_same_number gid i out time (rf : Raft C) v topic format (a : list A) : 100 <= gid < 1000 → RaftState.me rf = i →
  logL s out time (server_name gid i) rf v topic format a
  = Some (LogRaft s out time v topic (peer_number gid i) (currentTerm rf) (server_name gid i +:+ ": " +:+ format) a).
Proof.
  intros Hg Hi. pose proof (server_name_length gid i) as Hl. unfold logL. destruct (Nat.eqb_spec (String.length (server_name gid i)) 0); [lia|].
  cbn [negb].
  assert (go_substring (server_name gid i) 0 3 = Some "GID") as E1 by exact (go_substring_middle "" "GID" _).
  assert (go_substring (server_name gid i) 3 6 = Some (Itoa gid)) as E2.
  { pose proof (go_substring_middle "GID" (Itoa gid) ("-" +:+ Itoa i)) as E. rewrite three_digits in E by done. exact E. }
  rewrite E1, E2. cbn [mbind option_bind]. rewrite (String.eqb_refl "GID"). cbn [mbind option_bind].
  change (String.eqb "GID" "CTR") with false. cbv iota.
  rewrite Atoi_Itoa by lia. cbn [default]. by rewrite Hi.
Qed.

(** With fewer digits the dash is read with them, which is no number: the peers of
    group 10 log under their own numbers, the servers three above. *)
Lemma logL_other_number i out time (rf : Raft C) v topic format (a : list A) :
  logL s out time (server_name 10 i) rf v topic format a
  = Some (LogRaft s out time v topic (RaftState.me rf) (currentTerm rf) (server_name 10 i +:+ ": " +:+ format) a)
  ∧ peer_number 10 i = i + 3.
Proof.
  split; [|unfold peer_number; change (Z.rem 10 3) with 1; lia]. pose proof (server_name_length 10 i) as Hl.
  unfold logL. destruct (Nat.eqb_spec (String.length (server_name 10 i)) 0); [lia|]. cbn [negb].
  assert (go_substring (server_name 10 i) 0 3 = Some "GID") as E1 by exact (go_substring_middle "" "GID" _).
  assert (go_substring (server_name 10 i) 3 6 = Some "10-") as E2 by exact (go_substring_middle "GID" "10-" (Itoa i)).
  rewrite E1, E2. cbn [mbind option_bind]. rewrite (String.eqb_refl "GID"). cbn [mbind option_bind].
  change (String.eqb "GID" "CTR") with false. cbv iota.
  change (Atoi "10-") with (@None Z). cbn [default]. change (Z.rem 0 3 * 3) with 0. by rewrite Z.add_0_r.
Qed.
End names.
