(* ===== verification/ShardKVSystem.v ===== *)
(** * The groups of the sharded key/value service together

    Every group is a replicated state machine, so it is one [ShardKV] state on
    which the operations of its log are applied (ShardKVReplica.v has its servers on
    their Raft cluster).  The groups exchange hand-offs:
    a message holds the shards and a copy of the sender's data, it can be
    delivered late, out of order and more than once, and a hand-off that was
    decided once can be sent at any later time (a follower that becomes leader
    sends it again, see [followers_keep_handoffs]).

    The specification is one map.  No assumption is made on the configurations
    after the first, on the identifiers of operations, or on the order of
    hand-offs. *)

From S2P Require Import Prelude Util Labgob ShardCtrler ShardKV.

(** ** The specification: a single map *)

Definition spec_map (m : gmap string string) (op : Op) : gmap string string :=
  match op_Type op with
  | opPut => <[op_Key op := op_Value op]> m
  | opAppend => <[op_Key op := (default "" (m !! op_Key op) +:+ op_Value op)%string]> m
  | _ => m
  end.

Definition spec_reply (m : gmap string string) (op : Op) : Err * string :=
  let old := default ""%string (m !! op_Key op) in
  match op_Type op with
  | opPut => (OK, op_Value op)
  | opAppend => (OK, (old +:+ op_Value op)%string)
  | _ => (if bool_decide (old = ""%string) then ErrNoKey else OK, old)
  end.

Definition is_client (t : OpType) : bool := match t with opPut | opAppend | opGet => true | _ => false end.

(** ** The system *)

(** A hand-off that was decided: from, to, configuration, shards. *)
Record Issue := MkIssue { i_from : Z; i_to : Z; i_config : Z; i_shards : list Z }.

Record System := MkSystem {
  groups : Z → ShardKV;
  issued : list Issue;
  msgs : list (Z * HandOffShardsArgs);   (** receiver and message *)
  served : list Op;                      (** the client operations that took effect *)
}.

Definition with_id (op : Op) (client opid : Z) : Op :=
  MkOp (op_Type op) (op_Key op) (op_Value op) (op_ConfigNum op) (op_Shards op) (op_Gid op) (op_KVMap op)
    (op_LastOps op) (op_Handoff op) client opid.

Definition takes_effect (kv : ShardKV) (op : Op) : bool :=
  match just_processed kv op with Some _ => false | None => validShard kv (key2shard (op_Key op)) end.

Definition set_group (w : System) (g : Z) (kv : ShardKV) : System :=
  MkSystem (<[g := kv]> (groups w)) (issued w) (msgs w) (served w).

(** Group [g] applies an operation of a client. *)
Definition do_client (w : System) (g : Z) (op : Op) : System :=
  MkSystem (<[g := (applyOpL (groups w g) op).1]> (groups w)) (issued w) (msgs w)
    (if takes_effect (groups w g) op then served w ++ [op] else served w).

(** Group [g] applies a removal that [pollConfig] asked for. *)
Definition do_remove (w : System) (g c : Z) (shards : list Z) (target client opid : Z) : System :=
  let op := with_id (removeShards_op c shards target) client opid in
  MkSystem (<[g := (applyOpL (groups w g) op).1]> (groups w))
    (match just_processed (groups w g) op with
     | Some _ => issued w
     | None => if removed (groups w g) op then issued w else MkIssue g target c shards :: issued w
     end) (msgs w) (served w).

Definition do_done (w : System) (g : Z) (h : Handoff) (client opid : Z) : System :=
  set_group w g (applyOpL (groups w g) (with_id (handoffDone_op h) client opid)).1.

(** [checkPendingHandoffs] of a replica of the sender makes the arguments from its
    data and sends them to the receiver. *)
Definition do_send (w : System) (i : Issue) : System :=
  let h := MkHandoff (i_to i) (i_config i) (Some (0%nat, i_shards i)) in
  match handoff_args (groups w (i_from i)) h with
  | Some args => MkSystem (groups w) (issued w) ((i_to i, args) :: msgs w) (served w)
  | None => w
  end.

(** Group [g] applies the operation that [HandOffShards] started for a message. *)
Definition do_add (w : System) (g : Z) (args : HandOffShardsArgs) (client opid : Z) : System :=
  set_group w g (applyOpL (groups w g)
    (with_id (addShards_op (ha_ConfigNum args) (ha_Shards args) (ha_KVMap args) (ha_LastOps args)) client opid)).1.

Inductive sys_step : System → System → Prop :=
  | step_client w g op : is_client (op_Type op) = true → sys_step w (do_client w g op)
  | step_remove w g c shards target client opid : sys_step w (do_remove w g c shards target client opid)
  | step_done w g h client opid : sys_step w (do_done w g h client opid)
  | step_send w i : i ∈ issued w → sys_step w (do_send w i)
  | step_add w g args client opid : (g, args) ∈ msgs w → sys_step w (do_add w g args client opid).

(** Group [g] after [firstConfigL] on the first configuration. *)
Definition initial_group (config : Config) (g : Z) : ShardKV :=
  default (init 0 g) (firstConfigL (init 0 g) [config]).

Definition initial (config : Config) : System := MkSystem (initial_group config) [] [] [].

Definition reachable (config : Config) (w : System) : Prop := rtc sys_step (initial config) w.

Definition spec_state (w : System) : gmap string string := foldl spec_map ∅ (served w).

(** ** Invariant *)

Definition live (w : System) (g c : Z) (shards : list Z) : Prop := notNewShardsL (groups w g) c shards = false.

(** The map [m] has the right data of shard [s]. *)
Definition agrees (w : System) (m : gmap string string) (s : Z) : Prop :=
  ∀ k, key2shard k = s → m !! k = spec_state w !! k.

Record sys_inv (w : System) : Prop := {
  si_owner g g' s : validShard (groups w g) s = true → validShard (groups w g') s = true → g = g';
  si_moving g s i : validShard (groups w g) s = true → i ∈ issued w → live w (i_to i) (i_config i) (i_shards i) →
    s ∉ i_shards i;
  si_unique i j s : i ∈ issued w → j ∈ issued w → live w (i_to i) (i_config i) (i_shards i) →
    live w (i_to j) (i_config j) (i_shards j) → s ∈ i_shards i → s ∈ i_shards j → i = j;
  si_data g s : validShard (groups w g) s = true → agrees w (kvMap (groups w g)) s;
  si_sent i s : i ∈ issued w → live w (i_to i) (i_config i) (i_shards i) → s ∈ i_shards i →
    agrees w (kvMap (groups w (i_from i))) s;
  si_dom g k : is_Some (kvMap (groups w g) !! k) → is_Some (spec_state w !! k);
  si_msg g args : (g, args) ∈ msgs w → live w g (ha_ConfigNum args) (ha_Shards args) →
    (∃ from, MkIssue from g (ha_ConfigNum args) (ha_Shards args) ∈ issued w) ∧
    ∀ s, s ∈ ha_Shards args → agrees w (ha_KVMap args) s;
  si_msg_dom g args k : (g, args) ∈ msgs w → is_Some (ha_KVMap args !! k) → is_Some (spec_state w !! k);
}.

(** What a step may change of a group without the invariant noticing. *)
Record same_data (kv kv' : ShardKV) : Prop := {
  sd_kvMap : kvMap kv' = kvMap kv;
  sd_valid : validShards kv' = validShards kv;
  sd_received : receivedHandoffs kv' = receivedHandoffs kv;
}.

Lemma inv_same_data w g kv' : same_data (groups w g) kv' → sys_inv w → sys_inv (set_group w g kv').
Proof.
  intros [Hm Hv Hr] HI.
  assert (∀ g' s, validShard (groups (set_group w g kv') g') s = validShard (groups w g') s) as Ev.
  { intros g' s. unfold validShard. cbn. destruct (decide (g' = g)) as [->|].
    - by rewrite fn_lookup_insert, Hv.
    - by rewrite fn_lookup_insert_ne. }
  assert (∀ g', kvMap (groups (set_group w g kv') g') = kvMap (groups w g')) as Em.
  { intros g'. cbn. destruct (decide (g' = g)) as [->|]; [by rewrite fn_lookup_insert|by rewrite fn_lookup_insert_ne]. }
  assert (∀ g' c s, live (set_group w g kv') g' c s ↔ live w g' c s) as El.
  { intros g' c s. unfold live, notNewShardsL. cbn. destruct (decide (g' = g)) as [->|].
    - by rewrite fn_lookup_insert, Hr.
    - by rewrite fn_lookup_insert_ne. }
  destruct HI. split.
  - intros g1 g2 s. rewrite !Ev. eauto.
  - intros g1 s i. rewrite Ev, El. eauto.
  - intros i j s. rewrite !El. eauto.
  - intros g1 s. rewrite Ev, Em. exact (si_data0 g1 s).
  - intros i s. rewrite El, Em. exact (si_sent0 i s).
  - intros g1 k. rewrite Em. exact (si_dom0 g1 k).
  - intros g1 args Hin. rewrite El. exact (si_msg0 g1 args Hin).
  - exact si_msg_dom0.
Qed.

(** ** Single operations *)

Lemma validShard_lookup kv s : validShard kv s = true ↔ validShards kv !! s = Some true.
Proof. unfold validShard. destruct (validShards kv !! s) as [[]|]; cbn; split; congruence. Qed.

Lemma apply_client kv op :
  is_client (op_Type op) = true →
  if takes_effect kv op then
    ∃ l, applyOpL kv op = (set_lastOps (set_kvMap kv (spec_map (kvMap kv) op)) l, spec_reply (kvMap kv) op)
  else (applyOpL kv op).1 = kv.
Proof.
  intros Hc. unfold takes_effect, applyOpL, spec_map, spec_reply.
  destruct (just_processed kv op) as [l|]; [done|].
  destruct (op_Type op); try done; cbn [is_reconf negb andb];
    destruct (validShard kv (key2shard (op_Key op))); cbn [negb]; try done; eexists; done.
Qed.

Lemma apply_done_same kv op : op_Type op = opHandOffDone → same_data kv (applyOpL kv op).1.
Proof.
  intros Ht. unfold applyOpL. rewrite Ht. destruct (just_processed kv op); [done|]. cbn [is_reconf negb andb].
  destruct (validShard kv (key2shard (op_Key op))); done.
Qed.

Lemma apply_remove kv op :
  op_Type op = opRemoveShards →
  match just_processed kv op with
  | Some _ => same_data kv (applyOpL kv op).1
  | None => if removed kv op then same_data kv (applyOpL kv op).1
            else kvMap (applyOpL kv op).1 = kvMap kv ∧ receivedHandoffs (applyOpL kv op).1 = receivedHandoffs kv ∧
                 validShards (applyOpL kv op).1 = foldl (λ v shard, delete shard v) (validShards kv) (op_Shards op)
  end.
Proof.
  intros Ht. unfold applyOpL. rewrite Ht. destruct (just_processed kv op); [done|]. cbn [is_reconf negb andb].
  unfold applyRemoveShardsL. by destruct (removed kv op).
Qed.

Lemma apply_add kv op :
  op_Type op = opAddShards →
  let kv' := (applyOpL kv op).1 in
  same_data kv kv' ∨
  notNewShardsL kv (op_ConfigNum op) (op_Shards op) = false ∧
  kvMap kv' = merge_kvMap (kvMap kv) (op_KVMap op) (op_Shards op) ∧
  validShards kv' = foldl (λ v shard, <[shard := true]> v) (validShards kv) (op_Shards op) ∧
  receivedHandoffs kv' =
    <[op_ConfigNum op := default [] (receivedHandoffs kv !! op_ConfigNum op) ++ [op_Shards op]]> (receivedHandoffs kv).
Proof.
  intros Ht kv'. unfold kv', applyOpL. rewrite Ht. destruct (just_processed kv op); [by left|]. cbn [is_reconf negb andb].
  unfold applyAddShardsL. destruct (notNewShardsL kv (op_ConfigNum op) (op_Shards op)) eqn:E; [by left|by right].
Qed.

Lemma lookup_delete_all (v : gmap Z bool) shards s :
  foldl (λ v shard, delete shard v) v shards !! s = if bool_decide (s ∈ shards) then None else v !! s.
Proof.
  revert v. induction shards as [|x shards IH]; intros v; [by rewrite bool_decide_eq_false_2 by set_solver|].
  cbn [foldl]. rewrite IH. destruct (decide (s = x)) as [->|].
  - rewrite lookup_delete_eq, (bool_decide_eq_true_2 (x ∈ x :: shards)) by by left. by case_bool_decide.
  - rewrite lookup_delete_ne by done.
    replace (bool_decide (s ∈ x :: shards)) with (bool_decide (s ∈ shards)); [done|]. apply bool_decide_ext. set_solver.
Qed.

Lemma lookup_insert_all (v : gmap Z bool) shards s :
  foldl (λ v shard, <[shard := true]> v) v shards !! s = if bool_decide (s ∈ shards) then Some true else v !! s.
Proof.
  revert v. induction shards as [|x shards IH]; intros v; [by rewrite bool_decide_eq_false_2 by set_solver|].
  cbn [foldl]. rewrite IH. destruct (decide (s = x)) as [->|].
  - rewrite lookup_insert_eq, (bool_decide_eq_true_2 (x ∈ x :: shards)) by by left. by case_bool_decide.
  - rewrite lookup_insert_ne by done.
    replace (bool_decide (s ∈ x :: shards)) with (bool_decide (s ∈ shards)); [done|]. apply bool_decide_ext. set_solver.
Qed.

(** The data of a shard after a merge: what came with its shard, the rest as it was. *)
Lemma lookup_merge_kvMap mine theirs shards k :
  merge_kvMap mine theirs shards !! k =
  if bool_decide (key2shard k ∈ shards) then match theirs !! k with Some v => Some v | None => mine !! k end
  else mine !! k.
Proof.
  unfold merge_kvMap. rewrite lookup_union, map_lookup_filter. case_bool_decide as Hin.
  - apply InSlice_spec in Hin. destruct (theirs !! k) as [v|]; cbn; [|by destruct (mine !! k)].
    rewrite option_guard_True by done. cbn. by destruct (mine !! k).
  - destruct (theirs !! k) as [v|]; cbn; [|by destruct (mine !! k)].
    rewrite option_guard_False by (by rewrite InSlice_spec). cbn. by destruct (mine !! k).
Qed.

Lemma notNew_received kv kv' c shards :
  receivedHandoffs kv' = <[c := default [] (receivedHandoffs kv !! c) ++ [shards]]> (receivedHandoffs kv) →
  ∀ c' shards', notNewShardsL kv' c' shards' =
    notNewShardsL kv c' shards' || bool_decide (c' = c ∧ shards' = shards).
Proof.
  intros Hr c' shards'. unfold notNewShardsL. rewrite Hr. destruct (decide (c' = c)) as [->|].
  - rewrite lookup_insert_eq. cbn [default from_option id]. rewrite existsb_app. cbn. rewrite orb_false_r. f_equal.
    apply bool_decide_ext. naive_solver.
  - rewrite lookup_insert_ne by done. rewrite (bool_decide_eq_false_2 (c' = c ∧ _)) by tauto. by rewrite orb_false_r.
Qed.

(** ** Steps *)

Section steps.
Context (w : System) (HI : sys_inv w).

Lemma group_at (g g' : Z) kv : <[g := kv]> (groups w) g' = if decide (g' = g) then kv else groups w g'.
Proof using. destruct (decide (g' = g)) as [->|]; [apply fn_lookup_insert|by apply fn_lookup_insert_ne]. Qed.

(** A client operation on a shard that the group holds. *)
Lemma inv_serve g op kv' :
  validShard (groups w g) (key2shard (op_Key op)) = true →
  kvMap kv' = spec_map (kvMap (groups w g)) op → validShards kv' = validShards (groups w g) →
  receivedHandoffs kv' = receivedHandoffs (groups w g) →
  sys_inv (MkSystem (<[g := kv']> (groups w)) (issued w) (msgs w) (served w ++ [op])).
Proof using HI.
  intros Hv Hm Hvs Hr. set (w' := MkSystem _ _ _ _).
  assert (spec_state w' = spec_map (spec_state w) op) as HM by (unfold spec_state; cbn; by rewrite foldl_snoc).
  assert (∀ g' s, validShard (groups w' g') s = validShard (groups w g') s) as Ev.
  { intros g' s. unfold validShard, w'. cbn. rewrite group_at. destruct (decide (g' = g)) as [->|]; [by rewrite Hvs|done]. }
  assert (∀ g' c s, live w' g' c s ↔ live w g' c s) as El.
  { intros g' c s. unfold live, notNewShardsL, w'. cbn. rewrite group_at. destruct (decide (g' = g)) as [->|]; [by rewrite Hr|done]. }
  assert (∀ m k, key2shard k ≠ key2shard (op_Key op) → spec_map m op !! k = m !! k) as Hoff.
  { intros m k Hk. unfold spec_map. destruct (op_Type op); try done; rewrite lookup_insert_ne by congruence; done. }
  assert (∀ m s, s ≠ key2shard (op_Key op) → agrees w m s → agrees w' m s) as Hag.
  { intros m s Hs Ha k Hk. rewrite HM, Hoff by congruence. by apply Ha. }
  assert (∀ m, agrees w m (key2shard (op_Key op)) → agrees w' (spec_map m op) (key2shard (op_Key op))) as Hag'.
  { intros m Ha k Hk. rewrite HM. unfold spec_map.
    rewrite (Ha (op_Key op) eq_refl). specialize (Ha k Hk).
    destruct (op_Type op); try done; (destruct (decide (op_Key op = k)) as [<-|]; [by rewrite !lookup_insert_eq|by rewrite !lookup_insert_ne]). }
  assert (∀ k, is_Some (spec_state w !! k) → is_Some (spec_state w' !! k)) as Hgrow.
  { intros k Hk. rewrite HM. unfold spec_map. destruct (op_Type op); try done; rewrite lookup_insert; case_decide; eauto. }
  split; fold w'.
  - intros g1 g2 s. rewrite !Ev. apply (si_owner _ HI).
  - intros g1 s i. rewrite Ev, El. apply (si_moving _ HI).
  - intros i j s. rewrite !El. apply (si_unique _ HI).
  - intros g1 s. rewrite Ev. intros Hg1. unfold w'. cbn [groups]. rewrite group_at. fold w'. destruct (decide (g1 = g)) as [->|Hne].
    + rewrite Hm. destruct (decide (s = key2shard (op_Key op))) as [->|Hs]; [by apply Hag', (si_data _ HI)|].
      intros k Hk. rewrite Hoff by congruence. apply (Hag _ s Hs); [by apply (si_data _ HI)|done].
    + apply Hag; [|by apply (si_data _ HI)]. intros ->. apply Hne. by eapply (si_owner _ HI).
  - intros i s Hi. rewrite El. intros Hl Hs. cbn [groups w'].
    assert (s ≠ key2shard (op_Key op)) as Hne by (intros ->; by eapply (si_moving _ HI)).
    unfold w'. cbn [groups]. rewrite group_at. fold w'. pose proof (si_sent _ HI i s Hi Hl Hs) as Ha.
    destruct (decide (i_from i = g)) as [He|]; [|by apply Hag]. rewrite Hm. intros k Hk. rewrite Hoff by congruence.
    rewrite He in Ha. by apply (Hag _ s Hne).
  - intros g1 k. unfold w' at 1. cbn [groups]. rewrite group_at. destruct (decide (g1 = g)) as [->|].
    + rewrite Hm. rewrite HM. unfold spec_map. intros Hk.
      assert (is_Some (kvMap (groups w g) !! k) → is_Some (spec_state w !! k)) by apply (si_dom _ HI).
      destruct (op_Type op); try tauto; rewrite lookup_insert in Hk |- *; case_decide; eauto.
    + intros Hk. apply Hgrow. by eapply (si_dom _ HI).
  - intros g1 args Hin. rewrite El. intros Hl. destruct (si_msg _ HI _ _ Hin Hl) as ((from & Hi) & Ha).
    split; [by exists from|]. intros s Hs. apply Hag; [|by apply Ha]. intros ->.
    by apply (si_moving _ HI _ _ _ Hv Hi Hl).
  - intros g1 args k Hin Hk. apply Hgrow. by eapply (si_msg_dom _ HI).
Qed.

(** A removal. *)
Lemma inv_remove g c shards target kv' :
  (∀ s, s ∈ shards → validShard (groups w g) s = true) →
  kvMap kv' = kvMap (groups w g) → receivedHandoffs kv' = receivedHandoffs (groups w g) →
  validShards kv' = foldl (λ v shard, delete shard v) (validShards (groups w g)) shards →
  sys_inv (MkSystem (<[g := kv']> (groups w)) (MkIssue g target c shards :: issued w) (msgs w) (served w)).
Proof using HI.
  intros Hall Hm Hr Hv. set (w' := MkSystem _ _ _ _).
  assert (∀ g' s, validShard (groups w' g') s = true → validShard (groups w g') s = true ∧ (g' = g → s ∉ shards)) as Ev.
  { intros g' s. rewrite !validShard_lookup. unfold w'. cbn. rewrite group_at. destruct (decide (g' = g)) as [->|]; [|done].
    rewrite Hv, lookup_delete_all. case_bool_decide; done. }
  assert (∀ g', kvMap (groups w' g') = kvMap (groups w g')) as Em.
  { intros g'. unfold w'. cbn. rewrite group_at. by destruct (decide (g' = g)) as [->|]. }
  assert (∀ g' c s, live w' g' c s ↔ live w g' c s) as El.
  { intros g' c' s. unfold live, notNewShardsL, w'. cbn. rewrite group_at. destruct (decide (g' = g)) as [->|]; [by rewrite Hr|done]. }
  split; fold w'.
  - intros g1 g2 s [H1 _]%Ev [H2 _]%Ev. by eapply (si_owner _ HI).
  - intros g1 s i [H1 H2]%Ev Hi. rewrite El. cbn in Hi. apply elem_of_cons in Hi as [->|Hi]; [|by apply (si_moving _ HI g1)].
    cbn. intros _ Hs. apply H2; [|done]. eapply (si_owner _ HI); [done|by apply Hall].
  - intros i j s Hi Hj. rewrite !El. cbn in Hi, Hj.
    apply elem_of_cons in Hi as [->|Hi]; apply elem_of_cons in Hj as [->|Hj]; cbn.
    + done.
    + intros _ Hl Hs Hs'. exfalso. by eapply (si_moving _ HI g s j); [apply Hall|..].
    + intros Hl _ Hs Hs'. exfalso. by eapply (si_moving _ HI g s i); [apply Hall|..].
    + by apply (si_unique _ HI).
  - intros g1 s [H1 _]%Ev. rewrite Em. by apply (si_data _ HI).
  - intros i s Hi. rewrite El, Em. cbn in Hi. apply elem_of_cons in Hi as [->|Hi]; [|by apply (si_sent _ HI)].
    cbn. intros _ Hs. by apply (si_data _ HI), Hall.
  - intros g1 k. rewrite Em. apply (si_dom _ HI).
  - intros g1 args Hin. rewrite El. intros Hl. destruct (si_msg _ HI _ _ Hin Hl) as ((from & Hi) & Ha).
    split; [exists from; by right|done].
  - apply (si_msg_dom _ HI).
Qed.

(** A hand-off that the receiver takes. *)
Lemma inv_add g args kv' :
  (g, args) ∈ msgs w → live w g (ha_ConfigNum args) (ha_Shards args) →
  kvMap kv' = merge_kvMap (kvMap (groups w g)) (ha_KVMap args) (ha_Shards args) →
  validShards kv' = foldl (λ v shard, <[shard := true]> v) (validShards (groups w g)) (ha_Shards args) →
  receivedHandoffs kv' = <[ha_ConfigNum args := default [] (receivedHandoffs (groups w g) !! ha_ConfigNum args)
    ++ [ha_Shards args]]> (receivedHandoffs (groups w g)) →
  sys_inv (set_group w g kv').
Proof using HI.
  intros Hin Hlive Hm Hv Hr. destruct (si_msg _ HI _ _ Hin Hlive) as ((from & Hiss) & Hag). set (w' := set_group w g kv').
  set (e := MkIssue from g (ha_ConfigNum args) (ha_Shards args)) in *.
  assert (∀ g' s, validShard (groups w' g') s = true → validShard (groups w g') s = true ∨ g' = g ∧ s ∈ ha_Shards args) as Ev.
  { intros g' s. rewrite !validShard_lookup. unfold w'. cbn. rewrite group_at. destruct (decide (g' = g)) as [->|]; [|by left].
    rewrite Hv, lookup_insert_all. case_bool_decide; auto. }
  assert (∀ g' c s, live w' g' c s → live w g' c s ∧ (g' = g → c = ha_ConfigNum args → s = ha_Shards args → False)) as El.
  { intros g' c s. unfold live, w'. cbn. rewrite group_at. destruct (decide (g' = g)) as [->|]; [|done].
    rewrite (notNew_received _ _ _ _ Hr). rewrite orb_false_iff. intros [H1 H2%bool_decide_eq_false]. split; [done|tauto]. }
  (* no live hand-off shares a shard with this one *)
  assert (∀ i s, i ∈ issued w → live w' (i_to i) (i_config i) (i_shards i) → s ∈ i_shards i → s ∉ ha_Shards args) as Hsep.
  { intros i s Hi Hl Hs Hs'. apply El in Hl as [Hl Hd]. assert (i = e) as -> by (by eapply (si_unique _ HI i e s)). by apply Hd. }
  assert (∀ g' k, (g' = g → key2shard k ∉ ha_Shards args) → kvMap (groups w' g') !! k = kvMap (groups w g') !! k) as Eoff.
  { intros g' k Hk. unfold w'. cbn. rewrite group_at. destruct (decide (g' = g)) as [->|]; [|done].
    rewrite Hm, lookup_merge_kvMap, bool_decide_eq_false_2 by auto. done. }
  split; fold w'.
  - intros g1 g2 s [H1|[-> H1]]%Ev [H2|[-> H2]]%Ev; [by eapply (si_owner _ HI)|..|done];
      exfalso; by eapply (si_moving _ HI _ s e).
  - intros g1 s i [H1|[-> H1]]%Ev Hi Hl.
    + apply El in Hl as [Hl _]. by apply (si_moving _ HI g1).
    + intros Hs. by apply (Hsep i s).
  - intros i j s Hi Hj [Hl _]%El [Hl' _]%El. by apply (si_unique _ HI).
  - intros g1 s Hv1 k Hk. change (spec_state w') with (spec_state w). destruct (decide (g1 = g ∧ s ∈ ha_Shards args)) as [[-> Hs]|Hn].
    + unfold w'. cbn. rewrite group_at, decide_True by done. rewrite Hm, lookup_merge_kvMap, bool_decide_eq_true_2 by congruence.
      rewrite (Hag s Hs k Hk). destruct (spec_state w !! k) as [v|] eqn:E; [done|].
      destruct (kvMap (groups w g) !! k) as [v|] eqn:E'; [|done].
      destruct (si_dom _ HI g k) as [? ?]; [by exists v|congruence].
    + destruct (Ev _ _ Hv1) as [H1|[-> H1]]; [|tauto]. rewrite Eoff; [by apply (si_data _ HI g1 s)|].
      intros -> Hs. apply Hn. subst s. done.
  - intros i s Hi Hl Hs k Hk. change (spec_state w') with (spec_state w). rewrite Eoff.
    + apply (si_sent _ HI i s); [done|by apply El in Hl as [? _]|done|done].
    + intros _. subst s. by apply (Hsep i (key2shard k)).
  - intros g1 k Hk. change (spec_state w') with (spec_state w). revert Hk. unfold w'. cbn. rewrite group_at.
    destruct (decide (g1 = g)) as [->|]; [|apply (si_dom _ HI)]. rewrite Hm, lookup_merge_kvMap.
    case_bool_decide; [|apply (si_dom _ HI)]. destruct (ha_KVMap args !! k) as [v|] eqn:E; [|apply (si_dom _ HI)].
    intros _. eapply (si_msg_dom _ HI); [done|by exists v].
  - intros g1 args' Hin' [Hl _]%El. by apply (si_msg _ HI).
  - apply (si_msg_dom _ HI).
Qed.

(** Sending a hand-off. *)
Lemma inv_send i : i ∈ issued w → sys_inv (do_send w i).
Proof using HI.
  intros Hi. unfold do_send. cbn. split; try apply HI; cbn.
  - intros g args [[= -> ->]|Hin]%elem_of_cons Hl; [|by apply (si_msg _ HI)]. cbn in *. split; [exists (i_from i); by destruct i|].
    intros s Hs. by apply (si_sent _ HI).
  - intros g args k [[= -> ->]|Hin]%elem_of_cons Hk; [by eapply (si_dom _ HI)|by eapply (si_msg_dom _ HI)].
Qed.
End steps.

Lemma inv_step w w' : sys_step w w' → sys_inv w → sys_inv w'.
Proof.
  intros Hs HI. destruct Hs as [w g op Hc|w g c shards target client opid|w g h client opid|w i Hi|w g args client opid Hin];
    unfold do_client, do_remove, do_done, do_add.
  - pose proof (apply_client (groups w g) op Hc) as Ha. destruct (takes_effect (groups w g) op) eqn:E.
    + destruct Ha as [l Ha]. rewrite Ha. unfold takes_effect in E. destruct (just_processed (groups w g) op); [done|].
      by apply inv_serve.
    + rewrite Ha. by apply (inv_same_data w g).
  - set (op := with_id (removeShards_op c shards target) client opid).
    pose proof (apply_remove (groups w g) op eq_refl) as Ha. destruct (just_processed (groups w g) op); [by apply (inv_same_data w g)|].
    destruct (removed (groups w g) op) eqn:Er; [by apply (inv_same_data w g)|]. destruct Ha as (Hm & Hr & Hv).
    apply inv_remove; [done| |done..]. intros s Hs. destruct (validShard (groups w g) s) eqn:Ev; [done|].
    exfalso. assert (removed (groups w g) op = true); [|congruence]. apply existsb_exists. exists s.
    split; [by apply list_elem_of_In|by rewrite Ev].
  - by apply inv_same_data, HI; apply apply_done_same.
  - by apply inv_send.
  - destruct (apply_add (groups w g) (with_id (addShards_op (ha_ConfigNum args) (ha_Shards args) (ha_KVMap args) (ha_LastOps args)) client opid) eq_refl)
      as [Hsame|(Hl & Hm & Hv & Hr)]; [by apply inv_same_data|]. by apply (inv_add w HI g args).
Qed.

(** ** The first configuration *)

Lemma own_shards_lookup kv (l : list (nat * Z)) (v : gmap Z bool) s :
  foldl (λ v '(shard, g), if g =? gid kv then <[Z.of_nat shard := true]> v else v) v l !! s = Some true →
  v !! s = Some true ∨ ∃ n, (n, gid kv) ∈ l ∧ s = Z.of_nat n.
Proof.
  revert v. induction l as [|[n g] l IH]; intros v; [by left|]. cbn [foldl]. intros [H|(n' & H & ->)]%IH.
  - destruct (Z.eqb_spec g (gid kv)) as [->|]; [|by left]. destruct (decide (Z.of_nat n = s)) as [<-|].
    + right. exists n. split; [by left|done].
    + rewrite lookup_insert_ne in H by done. by left.
  - right. exists n'. split; [by right|done].
Qed.

Lemma initial_valid config g s :
  validShard (initial_group config g) s = true → ∃ n, s = Z.of_nat n ∧ Shards config !! n = Some g.
Proof.
  rewrite validShard_lookup. unfold initial_group, firstConfigL. cbn. destruct (Num config =? 0); cbn; [by rewrite lookup_empty|].
  intros [H|(n & H & ->)]%own_shards_lookup; [cbn in H; by rewrite lookup_empty in H|]. cbn in H.
  apply elem_of_lookup_imap in H as (i & x & [= -> ->] & H). by exists i.
Qed.

Lemma inv_initial config : sys_inv (initial config).
Proof.
  assert (∀ g k, kvMap (initial_group config g) !! k = None) as Hm.
  { intros g k. unfold initial_group, firstConfigL. cbn. destruct (Num config =? 0); cbn; apply lookup_empty. }
  split.
  - intros g g' s (n & -> & H)%initial_valid (n' & ? & H')%initial_valid. assert (n' = n) as -> by lia. congruence.
  - intros g s i _ Hi. by apply elem_of_nil in Hi.
  - intros i j s Hi. by apply elem_of_nil in Hi.
  - intros g s _ k _. apply Hm.
  - intros i s Hi. by apply elem_of_nil in Hi.
  - intros g k [v Hv]. cbn [groups initial] in Hv. by rewrite Hm in Hv.
  - intros g args Hin. by apply elem_of_nil in Hin.
  - intros g args k Hin. by apply elem_of_nil in Hin.
Qed.

Lemma inv_reachable config w : reachable config w → sys_inv w.
Proof.
  unfold reachable. revert w. apply (rtc_ind_r (λ w, sys_inv w)); [apply inv_initial|].
  intros w1 w2 _ Hs HI. by eapply inv_step.
Qed.

(** ** What the service promises *)

(** C34: a shard is served by at most one group.  In every reachable state of the
    groups, with client operations, removals and hand-offs interleaved in any
    way and hand-off messages delivered late, out of order and repeatedly, two
    groups that both accept operations on a shard are the same group. *)
Theorem shardkv_single_owner config w g g' s :
  reachable config w → validShard (groups w g) s = true → validShard (groups w g') s = true → g = g'.
Proof. intros Hr. by apply (si_owner _ (inv_reachable _ _ Hr)). Qed.

(** C18: the sharded service behaves like one map.  In every reachable state, a client
    operation that reaches a group is answered as a repetition from [lastOps], or
    refused with ErrWrongGroup and without effect because the group does not hold the
    shard, or it gets the answer of a single map on which the operations that took
    effect so far, in all groups, were applied in their order; and the group's
    data of the shard are then those of that map. *)
Theorem shardkv_refines_map config w g op kv' err v :
  reachable config w → is_client (op_Type op) = true → applyOpL (groups w g) op = (kv', (err, v)) →
  match just_processed (groups w g) op with
  | Some l => kv' = groups w g ∧ err = OK ∧ v = lo_GetResult l
  | None =>
    if validShard (groups w g) (key2shard (op_Key op)) then
      (err, v) = spec_reply (foldl spec_map ∅ (served w)) op ∧
      ∀ k, key2shard k = key2shard (op_Key op) → kvMap kv' !! k = foldl spec_map ∅ (served w ++ [op]) !! k
    else kv' = groups w g ∧ err = ErrWrongGroup ∧ v = ""%string
  end.
Proof.
  intros Hr Hc Ha. pose proof (inv_reachable _ _ Hr) as HI. pose proof (apply_client (groups w g) op Hc) as Hac.
  pose proof (inv_step _ _ (step_client w g op Hc) HI) as HI'. unfold do_client in HI'. unfold takes_effect in *.
  destruct (just_processed (groups w g) op) as [l|] eqn:Ej.
  { unfold applyOpL in Ha. rewrite Ej in Ha. by simplify_eq. }
  destruct (validShard (groups w g) (key2shard (op_Key op))) eqn:Ev.
  - destruct Hac as [l Hac]. rewrite Ha in Hac, HI'. simplify_eq. rewrite H0. split.
    + pose proof (si_data _ HI g _ Ev (op_Key op) eq_refl) as Hk. unfold spec_reply. by rewrite Hk.
    + intros k Hk. pose proof (si_data _ HI' g (key2shard (op_Key op))) as Hd. cbn in Hd. rewrite group_at, decide_True in Hd by done.
      by apply Hd.
  - unfold applyOpL in Ha. rewrite Ej, Ev in Ha. destruct (op_Type op); try done; cbn in Ha; by simplify_eq.
Qed.

(** ** What it does not promise *)

(** The pointers of a replica are below its next address. *)
Definition ptr_ok (kv : ShardKV) : Prop :=
  ∀ h a l, h ∈ pendingHandoffs kv → h_Shards h = Some (a, l) → (a < nextPtr kv)%nat.

Lemma ptr_ok_apply kv op : ptr_ok kv → ptr_ok (applyOpL kv op).1.
Proof.
  intros H. unfold applyOpL. destruct (just_processed kv op); [done|].
  destruct (negb (is_reconf (op_Type op)) && _); [done|]. destruct (op_Type op); try done.
  - unfold applyAddShardsL. by destruct (notNewShardsL _ _ _).
  - unfold applyRemoveShardsL. destruct (removed kv op); [done|]. intros h a l Hh Hp. cbn in *.
    apply elem_of_cons in Hh as [->|Hh]; [cbn in Hp; simplify_eq; lia|]. specialize (H h a l Hh Hp). lia.
  - intros h a l Hh Hp. cbn in Hh. apply list_elem_of_filter in Hh as [_ Hh]. by apply (H h a l).
Qed.

(** A finished hand-off is forgotten only where it was finished.  A replica that
    received the HandOffDone operation in a message decoded a new pointer, so that the
    operation deletes nothing from its map; and even the replica that started it
    refuses it, with ErrWrongGroup, when its group does not hold shard 0 (the
    shard of the empty key). *)
Theorem followers_keep_handoffs kv h p client opid :
  ptr_ok kv → h_Shards h = Some p →
  (let '(kv1, op1) := decoded kv (with_id (handoffDone_op h) client opid) in
   pendingHandoffs (applyOpL kv1 op1).1 = pendingHandoffs kv) ∧
  (just_processed kv (with_id (handoffDone_op h) client opid) = None → validShard kv 0 = false →
   applyOpL kv (with_id (handoffDone_op h) client opid) = (kv, (ErrWrongGroup, ""%string))).
Proof.
  intros Hok Hp. destruct p as [a l]. split.
  - unfold decoded. cbn [op_Handoff with_id handoffDone_op]. rewrite Hp. unfold applyOpL.
    destruct (just_processed _ _); [done|]. cbn -[filter validShard key2shard].
    destruct (validShard _ _); cbn -[filter]; [|done]. apply filter_all. intros h' Hh'. unfold handoff_eqb. cbn.
    rewrite andb_false_iff. right. apply bool_decide_eq_false. destruct (h_Shards h') as [[a' l']|] eqn:E; cbn; [|done].
    intros [= ->]. specialize (Hok h' _ _ Hh' E). lia.
  - intros Hj Hv. unfold applyOpL. rewrite Hj. cbn -[validShard]. change (key2shard "") with 0. by rewrite Hv.
Qed.

(** *** A run: group 1 appends, hands the shard to group 2, and the client repeats *)

Definition all_to_one : Config := MkConfig 1 (replicate 10 1) {[ 1 := ["a"%string]; 2 := ["b"%string] ]}.
Definition append_x : Op := PutAppend (MkPutAppendArgs "x" "a" opAppend 7 0).
Definition put_x : Op := PutAppend (MkPutAppendArgs "x" "a" opPut 7 1).
Definition get_x : Op := Get (MkGetArgs "x" 8 0).
Definition issue_x : Issue := MkIssue 1 2 2 [0].

(** The shard moves from group 1 to group 2. *)
Definition move_x (w : System) : System :=
  let w := do_send (do_remove w 1 2 [0] 2 (-1) 0) issue_x in
  match msgs w with (_, args) :: _ => do_add w 2 args (-2) 0 | [] => w end.

Definition repeated : System := do_client (move_x (do_client (initial all_to_one) 1 append_x)) 2 append_x.
Definition moved : System := move_x (do_client (initial all_to_one) 1 put_x).

Lemma move_x_steps op : op = append_x ∨ op = put_x →
  reachable all_to_one (move_x (do_client (initial all_to_one) 1 op)).
Proof.
  intros Hop. unfold reachable.
  eapply rtc_l; [apply (step_client _ 1 op); by destruct Hop as [->| ->]|].
  eapply rtc_l; [apply (step_remove _ 1 2 [0] 2 (-1) 0)|].
  eapply rtc_l; [apply (step_send _ issue_x); destruct Hop as [->| ->]; by left|].
  eapply rtc_l; [|apply rtc_refl]. apply step_add. by left.
Qed.

(** An operation can take effect twice.  The number of a client's first operation is 0,
    and a group that receives a shard takes over the last operation of a client only
    if its number is greater than the number it knows, which is 0 for a client it does not
    know: after a hand-off the repetition of a first operation is applied again. *)
Theorem double_append :
  reachable all_to_one repeated ∧ served repeated = [append_x; append_x] ∧
  kvMap (groups repeated 2) !! "x"%string = Some "aa"%string.
Proof.
  split; [|split; vm_compute; reflexivity]. unfold reachable, repeated.
  eapply rtc_r; [apply (move_x_steps append_x); by left|by apply step_client].
Qed.

Lemma moved_reachable : reachable all_to_one moved.
Proof. apply move_x_steps. by right. Qed.

Lemma shardkv_single_owner_witness :
  validShard (groups moved 2) 0 = true ∧ ∀ g, validShard (groups moved g) 0 = true → 2 = g.
Proof.
  assert (validShard (groups moved 2) 0 = true) as H2 by (vm_compute; reflexivity).
  split; [exact H2|]. intros g Hg. exact (shardkv_single_owner all_to_one moved 2 g 0 moved_reachable H2 Hg).
Defined.

Lemma shardkv_refines_map_witness : (OK, "a"%string) = spec_reply (foldl spec_map ∅ (served moved)) get_x.
Proof.
  pose proof (shardkv_refines_map all_to_one moved 2 get_x (applyOpL (groups moved 2) get_x).1 OK "a"%string moved_reachable
    eq_refl) as H.
  assert (applyOpL (groups moved 2) get_x = ((applyOpL (groups moved 2) get_x).1, (OK, "a"%string))) as Ha.
  { rewrite (surjective_pairing (applyOpL (groups moved 2) get_x)) at 1. f_equal. }
  specialize (H Ha).
  assert (just_processed (groups moved 2) get_x = None) as Hj by reflexivity. rewrite Hj in H.
  assert (validShard (groups moved 2) (key2shard (op_Key get_x)) = true) as Hv by reflexivity. rewrite Hv in H.
  exact (proj1 H).
Defined.

Definition pending_one : ShardKV := (applyOpL (initial_group all_to_one 1) (with_id (removeShards_op 2 [0] 2) (-1) 0)).1.
Definition handoff_one : Handoff := MkHandoff 2 2 (Some (0%nat, [0])).

Lemma followers_keep_handoffs_witness :
  pendingHandoffs pending_one = [handoff_one] ∧
  applyOpL pending_one (with_id (handoffDone_op handoff_one) (-1) 1) = (pending_one, (ErrWrongGroup, ""%string)).
Proof.
  split; [reflexivity|].
  apply (followers_keep_handoffs pending_one handoff_one (0%nat, [0]) (-1) 1); [|reflexivity|reflexivity|reflexivity].
  intros h a l Hh Hp. apply list_elem_of_singleton in Hh as ->. cbn in Hp. injection Hp as <- <-. vm_compute. constructor.
Defined.
