(* ===== verification/ShardKVReplica.v ===== *)
(** * A group of shardkv on its Raft cluster

    The servers of a group apply the same operations but are not in equal states: the
    keys of [pendingHandoffs] hold pointers, which differ from server to server, so
    that a HandOffDone deletes a hand-off on some of them only.  What they serve
    is equal all the same, and whatever a server holds as pending was issued
    by an operation of the group's log: the interface [Replicas] of a replicated
    service.

    All groups of shardkv/server.go, each a set of servers on a Raft cluster of its own,
    and the hand-offs that they send to each other.  The servers hand to
    [rf.Start] what clients ask for, the removals of [pollConfig], the additions of
    [HandOffShards] for a message that has been sent to the group, and HandOffDone
    ([submits]).  The leader of a group sends a hand-off that is pending at it with
    the data it has at that time; the message arrives late, repeatedly or never.

    [processOpL] and [reconfigureL] are the same up to the numbers of the operation; a
    group's own operations carry the identifier [- gid] and any number. *)

From S2P Require Import Prelude Util Labgob RaftState RaftHandlers RaftLeader RaftNode RaftCluster OpServer Replicated ReplicatedInv ReplicatedSteps ShardCtrler ShardKV ShardKVSystem.

(** ** What a group serves *)

Definition storage (kv : ShardKV) := (kvMap kv, validShards kv, lastOps kv, receivedHandoffs kv).

(** An issued hand-off: receiver, configuration, shards. *)
Notation issue := (Z * Z * list Z)%type.

(** The hand-off that an operation issues *)
Definition issue_of (kv : ShardKV) (op : Op) : list issue :=
  match just_processed kv op, op_Type op with
  | None, opRemoveShards => if removed kv op then [] else [(op_Gid op, op_ConfigNum op, op_Shards op)]
  | _, _ => []
  end.

Definition with_handoff (op : Op) (h : Handoff) : Op :=
  MkOp (op_Type op) (op_Key op) (op_Value op) (op_ConfigNum op) (op_Shards op) (op_Gid op) (op_KVMap op)
    (op_LastOps op) h (op_ClientId op) (op_OpId op).

Lemma storage_eq s t : storage s = storage t →
  kvMap s = kvMap t ∧ validShards s = validShards t ∧ lastOps s = lastOps t ∧ receivedHandoffs s = receivedHandoffs t.
Proof. unfold storage. intros [= -> -> -> ->]. done. Qed.

(** The functions of the storage *)
Lemma just_processed_storage s t op h : storage s = storage t → just_processed s (with_handoff op h) = just_processed t op.
Proof. intros (_ & _ & H & _)%storage_eq. unfold just_processed. by rewrite H. Qed.

Lemma validShard_storage s t x : storage s = storage t → validShard s x = validShard t x.
Proof. intros (_ & H & _)%storage_eq. unfold validShard. by rewrite H. Qed.

Lemma removed_storage s t op h : storage s = storage t → removed s (with_handoff op h) = removed t op.
Proof. intros (_ & H & _)%storage_eq. unfold removed, validShard. cbn. by rewrite H. Qed.

Lemma issue_of_storage s t op h : storage s = storage t → issue_of s (with_handoff op h) = issue_of t op.
Proof. intros H. unfold issue_of. by rewrite (just_processed_storage _ _ _ _ H), (removed_storage _ _ _ _ H). Qed.

(** Results and storage do not depend on the rest of the state, nor on pointers. *)
Lemma applyOpL_storage s t op h : storage s = storage t →
  (applyOpL s (with_handoff op h)).2 = (applyOpL t op).2 ∧ storage (applyOpL s (with_handoff op h)).1 = storage (applyOpL t op).1.
Proof.
  intros H. unfold applyOpL. rewrite (just_processed_storage _ _ _ _ H). destruct (just_processed t op); [done|].
  cbn [with_handoff op_Type op_Key op_Value op_ClientId op_OpId op_Handoff]. rewrite (validShard_storage _ _ _ H).
  destruct (negb (is_reconf (op_Type op)) && _); [done|]. pose proof (removed_storage _ _ op h H) as Hrem.
  apply storage_eq in H as (Hm & Hv & Hl & Hr).
  destruct (op_Type op); cbn; unfold applyAddShardsL, applyRemoveShardsL, notNewShardsL, storage;
    cbn [with_handoff op_ConfigNum op_Shards op_Gid op_KVMap op_LastOps]; rewrite ?Hrem, ?Hm, ?Hr.
  - cbn. by rewrite Hv, Hl, Hr.
  - cbn. by rewrite Hv, Hl, Hr.
  - cbn. by rewrite Hm, Hv, Hl, Hr.
  - destruct (existsb _ _); cbn; by rewrite ?Hm, ?Hv, ?Hl, ?Hr.
  - destruct (removed t op); cbn; by rewrite ?Hm, ?Hv, ?Hl, ?Hr.
  - cbn. by rewrite Hm, Hv, Hl, Hr.
Qed.

(** A new pending hand-off was just issued. *)
Lemma applyOpL_pending kv op h : h ∈ pendingHandoffs (applyOpL kv op).1 →
  h ∈ pendingHandoffs kv ∨ ∃ a shards, h_Shards h = Some (a, shards) ∧ (h_Gid h, h_ConfigNum h, shards) ∈ issue_of kv op.
Proof.
  unfold applyOpL, issue_of. destruct (just_processed kv op); [by left|].
  destruct (negb (is_reconf (op_Type op)) && _); [by left|]. destruct (op_Type op); cbn; try by left.
  - unfold applyAddShardsL. destruct (notNewShardsL _ _ _); by left.
  - unfold applyRemoveShardsL. destruct (removed kv op); [by left|]. cbn.
    intros [->|?]%elem_of_cons; [right|by left]. exists (nextPtr kv), (op_Shards op). split; [done|]. by left.
  - intros [_ ?]%list_elem_of_filter. by left.
Qed.

(** ** The machine *)

Section machine.
Context `{!GobCodec SKSnapshot, !GobLaws SKSnapshot}.
(** The threshold for snapshots, and whether the server still has the value that it
    gave to [rf.Start] itself: otherwise the operation was decoded from a
    message or from the disk. *)
Context (maxraftstate : Z) (own : ShardKV → Op → bool).

Definition group_apply (kv : ShardKV) (op : Op) : ShardKV * (Err * string) :=
  let '(kv, op) := if own kv op then (kv, op) else decoded kv op in applyOpL kv op.

Definition group_machine : StateMachine ShardKV Op string := {|
  sm_same op op' := isSame op (op_ClientId op') (op_OpId op');
  sm_cached kv op := lo_GetResult <$> just_processed kv op;
  sm_apply kv op := Some (group_apply kv op);
  sm_snapshot := takeSnapshot maxraftstate;
  sm_restore := readSnapshotL;
  sm_novalue := ""%string;
|}.
#[local] Existing Instance group_machine.

Lemma decoded_storage kv op : storage (decoded kv op).1 = storage kv ∧ pendingHandoffs (decoded kv op).1 = pendingHandoffs kv
  ∧ ∃ h, (decoded kv op).2 = with_handoff op h.
Proof.
  unfold decoded. destruct (h_Shards (op_Handoff op)) as [[a l]|]; cbn; split_and!; try done; [by eexists|].
  exists (op_Handoff op). by destruct op.
Qed.

Lemma group_apply_spec s t op : storage s = storage t →
  (group_apply s op).2 = (applyOpL t op).2 ∧ storage (group_apply s op).1 = storage (applyOpL t op).1
  ∧ ∀ h, h ∈ pendingHandoffs (group_apply s op).1 →
      h ∈ pendingHandoffs s ∨ ∃ a shards, h_Shards h = Some (a, shards) ∧ (h_Gid h, h_ConfigNum h, shards) ∈ issue_of t op.
Proof.
  intros H. unfold group_apply.
  assert (∃ s1 h1, (if own s op then (s, op) else decoded s op) = (s1, with_handoff op h1) ∧ storage s1 = storage t
    ∧ pendingHandoffs s1 = pendingHandoffs s) as (s1 & h1 & -> & Hs & Hp).
  { destruct (own s op); [exists s, (op_Handoff op); by destruct op|].
    destruct (decoded_storage s op) as (Hs & Hp & h1 & Hh). destruct (decoded s op) as [s1 op1]. cbn in *. subst op1.
    exists s1, h1. by rewrite Hs. }
  destruct (applyOpL_storage _ _ op h1 Hs) as [-> ->]. split_and!; [done..|]. intros h [Hh|(a & l & Hl & Hh)]%applyOpL_pending.
  - left. by rewrite <- Hp.
  - right. exists a, l. by rewrite (issue_of_storage _ _ _ _ Hs) in Hh.
Qed.

(** ** The reference *)

(** The state after operations, without copies *)
Definition run_group (s0 : ShardKV) (ops : list Op) : ShardKV := foldl (λ s op, (applyOpL s op).1) s0 ops.

Fixpoint issues (s0 : ShardKV) (ops : list Op) : list issue :=
  match ops with
  | [] => []
  | op :: ops => issue_of s0 op ++ issues (applyOpL s0 op).1 ops
  end.

Lemma run_group_snoc s0 ops op : run_group s0 (ops ++ [op]) = (applyOpL (run_group s0 ops) op).1.
Proof. unfold run_group. by rewrite foldl_app. Qed.

Lemma issues_snoc s0 ops op : issues s0 (ops ++ [op]) = issues s0 ops ++ issue_of (run_group s0 ops) op.
Proof.
  revert s0. induction ops as [|x ops IH]; intros s0; cbn; [by rewrite app_nil_r|]. by rewrite IH, <- (assoc_L (++)).
Qed.

(** The reference of [Replicated] serves the same. *)
Lemma run_ops_storage s0 ops : ∃ t, run_ops s0 ops = Some t ∧ storage t = storage (run_group s0 ops).
Proof.
  induction ops as [|op ops IH] using rev_ind; [by exists s0|]. destruct IH as (t & Ht & Hs).
  rewrite run_ops_app, Ht, run_group_snoc. cbn. destruct (group_apply_spec t _ op Hs) as (_ & Hs' & _).
  destruct (group_apply t op) as [t' r]. by exists t'.
Qed.

(** A server after operations: it serves what the reference serves, and what is pending was issued. *)
Record group_replica (s0 : ShardKV) (ops : list Op) (s : ShardKV) : Prop := {
  gr_storage : storage s = storage (run_group s0 ops);
  gr_pending h : h ∈ pendingHandoffs s →
    ∃ a shards, h_Shards h = Some (a, shards) ∧ (h_Gid h, h_ConfigNum h, shards) ∈ issues s0 ops;
}.

Lemma alloc_handoffs_elem n l h : h ∈ (alloc_handoffs n l).2 → (h_Gid h, h_ConfigNum h, snd <$> h_Shards h) ∈ l.
Proof.
  revert n. induction l as [|[[g c] s] l IH]; intros n; cbn; [by intros ?%elem_of_nil|].
  destruct s as [sh|]; cbn; destruct (alloc_handoffs _ l) as [m hs] eqn:E; cbn;
    (intros [->|Hh]%elem_of_cons; [by left|right; eapply IH; rewrite E; exact Hh]).
Qed.

Lemma group_snapshot s0 ops s size data s1 : group_replica s0 ops s → takeSnapshot maxraftstate s size = Some data →
  ∃ s', readSnapshotL s1 data = Some s' ∧ group_replica s0 ops s'.
Proof.
  intros [Hs Hp] H. unfold takeSnapshot in H. destruct (_ && _); [|done]. injection H as <-. unfold readSnapshotL, snapshotL.
  set (x := (_, _, _, _, _)). pose proof (gob_nonempty x) as Hne. destruct (gob_encode x) as [|b bs] eqn:E; [done|].
  rewrite <- E, gob_roundtrip. unfold x. cbn [mbind option_bind].
  destruct (alloc_handoffs (nextPtr s1) _) as [m hs] eqn:Ea. eexists. split; [done|]. split; [done|]. cbn. intros h Hh.
  assert (h ∈ (alloc_handoffs (nextPtr s1) ((λ h, (h_Gid h, h_ConfigNum h, snd <$> h_Shards h)) <$> pendingHandoffs s)).2)
    as (h' & Heq & Hh')%alloc_handoffs_elem%list_elem_of_fmap by (by rewrite Ea).
  destruct (Hp h' Hh') as (a & sh & Ha & Hi). injection Heq as Hg Hc Hsh. rewrite Ha in Hsh. cbn in Hsh.
  destruct (h_Shards h) as [[a2 sh2]|]; [|done]. injection Hsh as ->. exists a2, sh. by rewrite Hg, Hc.
Qed.

Definition group_replicas (s0 : ShardKV) (Hs0 : pendingHandoffs s0 = []) : Replicas ShardKV Op string s0.
Proof.
  refine {| replica := group_replica s0 |}.
  - split; [done|]. rewrite Hs0. by intros h ?%elem_of_nil.
  - intros ops s _. destruct (run_ops_storage s0 ops) as (t & -> & _). by eexists.
  - intros ops t s op s' r [Hs Hp] Ht [= Ha]. destruct (run_ops_storage s0 ops) as (t1 & Ht1 & Hs1).
    rewrite Ht in Ht1. injection Ht1 as <-. destruct (group_apply_spec s _ op Hs) as (Hr & Hst & Hpe).
    destruct (group_apply_spec t _ op Hs1) as (Hr1 & _ & _). rewrite Ha in Hr, Hst, Hpe. cbn in *. split.
    + split; [by rewrite run_group_snoc|]. intros h [Hh|(a & l & Hl & Hh)]%Hpe.
      * destruct (Hp h Hh) as (a & l & Hl & Hi). exists a, l. split; [done|]. rewrite issues_snoc, elem_of_app. by left.
      * exists a, l. split; [done|]. rewrite issues_snoc, elem_of_app. by right.
    + exists (group_apply t op).1. rewrite (surjective_pairing (group_apply t op)) at 1. by rewrite Hr1, Hr.
  - intros ops t s op [Hs _] Ht. destruct (run_ops_storage s0 ops) as (t1 & Ht1 & Hs1). rewrite Ht in Ht1. injection Ht1 as <-.
    cbn. f_equal. rewrite <- (just_processed_storage s t op (op_Handoff op)) by congruence. by destruct op.
  - intros ops s size data s1. apply group_snapshot.
  - done.
Defined.
End machine.

(** * All groups *)

(** ** The system *)

Record Net := MkNet {
  worlds : Z → World ShardKV Op string;
  posts : list (Z * HandOffShardsArgs);              (** messages with their receivers *)
  happened : list (list (Z * WEvent Op string));     (** what each step told the outside *)
}.

(** The operations that the servers of group [g] give to Raft; clients have identifiers
    that are not negative ([MakeClerk]), groups have positive ones. *)
Inductive submits (ps : list (Z * HandOffShardsArgs)) (g : Z) : Op → Prop :=
  | submits_client op : is_client (op_Type op) = true → 0 <= op_ClientId op → submits ps g op
  | submits_remove c shards target opid : 0 < g → submits ps g (with_id (removeShards_op c shards target) (- g) opid)
  | submits_add args opid : 0 < g → (g, args) ∈ ps →
      submits ps g (with_id (addShards_op (ha_ConfigNum args) (ha_Shards args) (ha_KVMap args) (ha_LastOps args)) (- g) opid)
  | submits_done h opid : 0 < g → submits ps g (with_id (handoffDone_op h) (- g) opid).

Section net.
Context `{!GobCodec SKSnapshot, !GobLaws SKSnapshot, !GobCodec (PState Op), !GobLaws (PState Op)}.
(** The servers of each group, the threshold for snapshots, which operations a server
    still has in memory ([ShardKVReplica]), and the first configuration. *)
Context (servers : Z → Z) (maxraftstate : Z) (own : ShardKV → Op → bool) (config : Config).
#[local] Instance machine : StateMachine ShardKV Op string := group_machine maxraftstate own.

(** The events that a step added to the trace of a world *)
Definition new_events (g : Z) (X X' : World ShardKV Op string) : list (Z * WEvent Op string) :=
  pair g <$> drop (length (trace X)) (trace X').

Inductive net_step (N : Net) : Net → Prop :=
  | net_group g act X' :
      wexec (servers g) (initial_group config g) act (worlds N g) = Some X' →
      (∀ i op, act = WRpc i op → submits (posts N) g op) →
      net_step N (MkNet (<[g := X']> (worlds N)) (posts N) (happened N ++ [new_events g (worlds N g) X']))
  | net_send g i h args :
      0 <= i < servers g → let kv := state (server (worlds N g) i) in
      h ∈ pendingHandoffs kv → handoff_args kv h = Some args →
      net_step N (MkNet (worlds N) ((h_Gid h, args) :: posts N) (happened N ++ [[]])).

(** All servers of all groups start with the first configuration. *)
Definition net_init (envs : Z → Z → Env) : Net :=
  MkNet (λ g, winit (servers g) (initial_group config g) (envs g)) [] [].

Definition net_reachable (N : Net) : Prop := ∃ envs, rtc net_step (net_init envs) N.

(** ** The specification

    [ops] are the client operations that took effect, in this order.  They
    were called, and every reply [OK] is what a single map answers to an operation with
    the client and the number of the request. *)

Definition map_after (ops : list Op) (p : nat) : gmap string string := foldl spec_map ∅ (take p ops).

Definition one_map_answers (ops : list Op) (op : Op) (v : string) : Prop :=
  ∃ p op', ops !! p = Some op' ∧ isSame op (op_ClientId op') (op_OpId op') = true ∧ v = (spec_reply (map_after ops p) op').2.

Record one_map (ops : list Op) (tr : list (Z * WEvent Op string)) : Prop := {
  om_called op : op ∈ ops → ∃ g i, (g, WCall i op) ∈ tr;
  om_reply g i op v : (g, WReply i op OK v) ∈ tr → 0 <= op_ClientId op → one_map_answers ops op v;
}.

(** At every time the operations that had taken effect explain what had happened. *)
Definition one_map_always (ops : list Op) (steps : list (list (Z * WEvent Op string))) : Prop :=
  ∀ t1 t2, steps = t1 ++ t2 → ∃ ops1, ops1 `prefix_of` ops ∧ one_map ops1 (concat t1).
End net.
