(* ===== verification/ShardKVNetProps.v ===== *)
(** * The sharded service on Raft behaves like one map

    A run of [ShardKVReplica] is followed by a run of the groups of [ShardKVSystem]: when
    the sequence of a group grows, the group there applies the same operations, and
    at once sends all hand-offs that were issued so far, so that whatever a server
    sends later, with data that may be old, was sent there. *)

From S2P Require Import Prelude Util Labgob RaftState RaftHandlers RaftLeader RaftNode RaftCluster OpServer Replicated ReplicatedInv ReplicatedSteps ShardCtrler ShardKV ShardKVSystem ShardKVReplica.

#[local] Arguments initial_group : simpl never.

Implicit Types (w : System) (op : Op) (L ops : list Op).

(** ** The operations that took effect grow *)

Lemma map_after_prefix ops ops' p : ops `prefix_of` ops' → (p <= length ops)%nat → map_after ops' p = map_after ops p.
Proof. intros [k ->] Hp. unfold map_after. by rewrite take_app_le. Qed.

Lemma one_map_answers_prefix ops ops' op v : ops `prefix_of` ops' → one_map_answers ops op v → one_map_answers ops' op v.
Proof.
  intros Hp (p & op' & Hop & Hs & Hv). exists p, op'. split; [by eapply prefix_lookup_Some|]. split; [done|].
  rewrite (map_after_prefix ops); [done|done|]. apply lookup_lt_Some in Hop. lia.
Qed.

(** What is remembered of clients is what the map answered. *)
Definition remembered ops (m : gmap Z LastOp) : Prop := ∀ c l, m !! c = Some l → 0 <= lo_ClientId l →
  ∃ p op', ops !! p = Some op' ∧ isSame op' (lo_ClientId l) (lo_OpId l) = true ∧ lo_GetResult l = (spec_reply (map_after ops p) op').2.

Lemma remembered_prefix ops ops' m : ops `prefix_of` ops' → remembered ops m → remembered ops' m.
Proof.
  intros Hp Hm c l Hl Hc. destruct (Hm c l Hl Hc) as (p & op' & Hop & Hs & Hv). exists p, op'.
  split; [by eapply prefix_lookup_Some|]. split; [done|]. rewrite (map_after_prefix ops); [done|done|]. apply lookup_lt_Some in Hop. lia.
Qed.

Lemma remembered_merge ops m m' : remembered ops m → remembered ops m' → remembered ops (merge_lastOps m m').
Proof.
  intros Hm Hm' c l Hl. unfold merge_lastOps in Hl. rewrite lookup_merge in Hl. unfold diag_None in Hl.
  destruct (m !! c) as [a|] eqn:Ea, (m' !! c) as [b|] eqn:Eb; cbn in Hl; try done.
  - destruct (_ >? _); [injection Hl as <-; by apply (Hm' c)|injection Hl as <-; by apply (Hm c)].
  - injection Hl as <-. by apply (Hm c).
  - destruct (_ >? _); [injection Hl as <-; by apply (Hm' c)|done].
Qed.

Lemma remembered_insert ops m op v : remembered ops m →
  (0 <= op_ClientId op → ∃ p op', ops !! p = Some op' ∧ isSame op' (op_ClientId op) (op_OpId op) = true ∧ v = (spec_reply (map_after ops p) op').2) →
  remembered ops (<[op_ClientId op := MkLastOp (op_ClientId op) (op_OpId op) v]> m).
Proof.
  intros Hm Hv c l [[<- <-]|[_ Hl]]%lookup_insert_Some; [exact Hv|by apply (Hm c)].
Qed.

(** A repetition is answered with what is remembered. *)
Lemma remembered_answers ops kv op l : remembered ops (lastOps kv) → 0 <= op_ClientId op → just_processed kv op = Some l →
  one_map_answers ops op (lo_GetResult l).
Proof.
  intros Hr Hc H. unfold just_processed in H. destruct (lastOps kv !! op_ClientId op) as [l'|] eqn:E; [|done]. cbn in H.
  destruct (isSame op _ _) eqn:Es; [|done]. injection H as ->. unfold isSame in Es. bools.
  destruct (Hr _ _ E) as (p & op' & Hop & Hs & Hv); [lia|]. exists p, op'. split; [done|]. split; [|done].
  unfold isSame in *. bools. apply andb_true_iff. split; apply Z.eqb_eq; congruence.
Qed.

(** ** One operation of the system *)

Definition same_msg (a b : HandOffShardsArgs) : Prop :=
  ha_ConfigNum a = ha_ConfigNum b ∧ ha_Shards a = ha_Shards b ∧ ha_KVMap a = ha_KVMap b ∧ ha_LastOps a = ha_LastOps b.

(** The client operations that an operation adds to those that took effect *)
Definition effect (kv : ShardKV) (op : Op) : list Op :=
  if is_client (op_Type op) && takes_effect kv op then [op] else [].

Definition posted w (ps : list (Z * HandOffShardsArgs)) : Prop :=
  ∀ g args, (g, args) ∈ ps → ∃ args', (g, args') ∈ msgs w ∧ same_msg args args'.

Lemma sys_apply w ps g op : posted w ps → submits ps g op →
  ∃ iss, sys_step w (MkSystem (<[g := (applyOpL (groups w g) op).1]> (groups w)) iss (msgs w) (served w ++ effect (groups w g) op))
    ∧ (∀ i, i ∈ issued w → i ∈ iss) ∧ ∀ tg c sh, (tg, c, sh) ∈ issue_of (groups w g) op → MkIssue g tg c sh ∈ iss.
Proof.
  intros Hps [op' Hc Hid|c shards target opid Hg|args opid Hg Hin|h opid Hg]; unfold effect.
  - exists (issued w). rewrite Hc. split; [|split; [done|]].
    + pose proof (step_client w g op' Hc) as Hs. unfold do_client in Hs. cbn [andb].
      destruct (takes_effect (groups w g) op'); [done|by rewrite app_nil_r].
    + unfold issue_of. intros tg c sh. destruct (just_processed _ _); [by intros ?%elem_of_nil|].
      destruct (op_Type op'); try done; by intros ?%elem_of_nil.
  - pose proof (step_remove w g c shards target (- g) opid) as Hs. unfold do_remove in Hs. cbn [is_client with_id removeShards_op op_Type andb].
    rewrite app_nil_r. eexists. split; [exact Hs|]. unfold issue_of. cbn [with_id removeShards_op op_Type].
    destruct (just_processed _ _); [split; [done|by intros ??? ?%elem_of_nil]|].
    destruct (removed _ _); [split; [done|by intros ??? ?%elem_of_nil]|]. split; [intros i Hi; by right|].
    intros tg c' sh [= -> -> ->]%list_elem_of_singleton. by left.
  - destruct (Hps g args Hin) as (args' & Hin' & Hcn & Hsh & Hm & Hl). pose proof (step_add w g args' (- g) opid Hin') as Hs.
    unfold do_add, set_group in Hs. rewrite <- Hcn, <- Hsh, <- Hm, <- Hl in Hs. exists (issued w).
    cbn [is_client with_id addShards_op op_Type andb]. rewrite app_nil_r. split; [done|]. split; [done|].
    unfold issue_of. intros tg c sh. destruct (just_processed _ _); by intros ?%elem_of_nil.
  - pose proof (step_done w g h (- g) opid) as Hs. unfold do_done, set_group in Hs. exists (issued w).
    cbn [is_client with_id handoffDone_op op_Type andb]. rewrite app_nil_r. split; [done|]. split; [done|].
    unfold issue_of. intros tg c sh. destruct (just_processed _ _); by intros ?%elem_of_nil.
Qed.

(** All hand-offs of a group are sent. *)
Lemma sys_send w g (out : list issue) : (∀ tg c sh, (tg, c, sh) ∈ out → MkIssue g tg c sh ∈ issued w) →
  ∃ ms, rtc sys_step w (MkSystem (groups w) (issued w) ms (served w)) ∧ (∀ m, m ∈ msgs w → m ∈ ms)
    ∧ (∀ h args, (h, args) ∈ ms → (h, args) ∈ msgs w ∨ ha_LastOps args = lastOps (groups w g))
    ∧ ∀ tg c sh, (tg, c, sh) ∈ out → ∃ args, (tg, args) ∈ ms ∧ ha_ConfigNum args = c ∧ ha_Shards args = sh
        ∧ ha_KVMap args = kvMap (groups w g) ∧ ha_LastOps args = lastOps (groups w g).
Proof.
  induction out as [|[[tg c] sh] out IH]; intros His.
  - exists (msgs w). split; [by destruct w|]. split; [done|]. split; [by left|]. by intros tg c sh ?%elem_of_nil.
  - destruct IH as (ms & Hr & Hms & Hnew & Hall); [intros; apply His; by right|].
    pose proof (step_send (MkSystem (groups w) (issued w) ms (served w)) (MkIssue g tg c sh) (His tg c sh ltac:(by left))) as Hs.
    unfold do_send in Hs. cbn in Hs. eexists. split; [eapply rtc_r; [exact Hr|exact Hs]|]. cbn. split; [|split].
    + intros m Hm. right. by apply Hms.
    + intros h args [[= -> ->]|Hin]%elem_of_cons; [by right|by apply Hnew].
    + intros tg' c' sh' [[= -> -> ->]|Hin]%elem_of_cons; [eexists; split; [by left|done]|].
      destruct (Hall _ _ _ Hin) as (args & Ha & Hrest). exists args. split; [by right|done].
Qed.

(** ** A group and its sequence *)

Section follow.
Context (config : Config).
Notation s0 := (initial_group config).
Notation at_ g L := (run_group (s0 g) L).

Lemma initial_pending g : pendingHandoffs (s0 g) = [] ∧ lastOps (s0 g) = ∅.
Proof. unfold initial_group, firstConfigL. cbn. by destruct (Num config =? 0). Qed.

(** The results of a group up to now are answers of the map. *)
Definition result_ok ops (kv : ShardKV) op : Prop :=
  0 <= op_ClientId op → (applyOpL kv op).2.1 = OK → one_map_answers ops op (applyOpL kv op).2.2.

(** Group [g] of [w] has applied [L] and sent what [L] issued, at every time. *)
Record follows w g L : Prop := {
  fo_storage : storage (groups w g) = storage (at_ g L);
  fo_issued tg c sh : (tg, c, sh) ∈ issues (s0 g) L → MkIssue g tg c sh ∈ issued w;
  fo_sent (k : nat) tg c sh : (k <= length L)%nat → (tg, c, sh) ∈ issues (s0 g) (take k L) →
    ∃ args, (tg, args) ∈ msgs w ∧ ha_ConfigNum args = c ∧ ha_Shards args = sh
      ∧ ha_KVMap args = kvMap (at_ g (take k L)) ∧ ha_LastOps args = lastOps (at_ g (take k L));
  fo_last (k : nat) : (k <= length L)%nat → remembered (served w) (lastOps (at_ g (take k L)));
  fo_result (k : nat) op : L !! k = Some op → result_ok (served w) (at_ g (take k L)) op;
}.

Record grows w w' : Prop := {
  gw_issued i : i ∈ issued w → i ∈ issued w';
  gw_msgs m : m ∈ msgs w → m ∈ msgs w';
  gw_served : served w `prefix_of` served w';
}.

Lemma grows_refl w : grows w w.
Proof. by split. Qed.

Lemma grows_trans w w1 w2 : grows w w1 → grows w1 w2 → grows w w2.
Proof. intros [] []. split; [auto|auto|by etrans]. Qed.

Lemma follows_grows w w' g L : grows w w' → groups w' g = groups w g → follows w g L → follows w' g L.
Proof.
  intros [Hi Hm Hs] Hg [Hst His Hse Hl Hr]. split.
  - by rewrite Hg.
  - intros tg c sh Hin. by apply Hi, His.
  - intros k tg c sh Hk Hin. destruct (Hse k tg c sh Hk Hin) as (args & Ha & Hrest). exists args. split; [by apply Hm|done].
  - intros k Hk. eapply remembered_prefix; [done|by apply Hl].
  - intros k op Hop Hc Hok. eapply one_map_answers_prefix; [done|by apply (Hr k op)].
Qed.

Lemma posted_grows w w' ps : grows w w' → posted w ps → posted w' ps.
Proof. intros Hg Hp g args Hin. destruct (Hp g args Hin) as (args' & Ha & Hs). exists args'. split; [by apply Hg|done]. Qed.

(** What is remembered in messages *)
Definition msgs_ok w : Prop := ∀ g args, (g, args) ∈ msgs w → remembered (served w) (ha_LastOps args).

(** A client operation that takes effect is answered by the map. *)
Lemma effect_answer w g op : sys_inv w → is_client (op_Type op) = true → takes_effect (groups w g) op = true →
  (applyOpL (groups w g) op).2 = spec_reply (spec_state w) op
  ∧ lastOps (applyOpL (groups w g) op).1
    = <[op_ClientId op := MkLastOp (op_ClientId op) (op_OpId op) (spec_reply (spec_state w) op).2]> (lastOps (groups w g)).
Proof.
  intros HI Hc Ht. unfold takes_effect in Ht. destruct (just_processed (groups w g) op) eqn:Ej; [done|].
  assert (spec_reply (kvMap (groups w g)) op = spec_reply (spec_state w) op) as Hr.
  { unfold spec_reply. by rewrite (si_data _ HI g _ Ht (op_Key op) eq_refl). }
  rewrite <- Hr. unfold applyOpL, spec_reply. rewrite Ej, Ht. destruct (op_Type op); done.
Qed.

(** What an operation of a group adds to what is remembered *)
Lemma apply_remembered w ps g op : sys_inv w → posted w ps → submits ps g op → msgs_ok w →
  remembered (served w) (lastOps (groups w g)) →
  let ops := served w ++ effect (groups w g) op in
  remembered ops (lastOps (applyOpL (groups w g) op).1) ∧ result_ok ops (groups w g) op.
Proof.
  intros HI Hps Hsub Hms Hrem ops.
  assert (served w `prefix_of` ops) as Hpre by by eexists.
  assert (∀ l, just_processed (groups w g) op = Some l → remembered ops (lastOps (applyOpL (groups w g) op).1) ∧ result_ok ops (groups w g) op) as Hrep.
  { intros l Hl. unfold result_ok, applyOpL. rewrite Hl. cbn. split; [by eapply remembered_prefix|].
    intros Hc _. eapply one_map_answers_prefix; [exact Hpre|]. by eapply remembered_answers. }
  destruct (just_processed (groups w g) op) as [l|] eqn:Ej; [by apply (Hrep l)|]. clear Hrep.
  apply (remembered_prefix _ _ _ Hpre) in Hrem.
  destruct Hsub as [op Hc Hid|c shards target opid Hg|args opid Hg Hin|h opid Hg].
  - destruct (takes_effect (groups w g) op) eqn:Et.
    + destruct (effect_answer w g op HI Hc Et) as [Hr Hl]. unfold result_ok. rewrite Hr, Hl.
      assert (one_map_answers ops op (spec_reply (spec_state w) op).2) as Hans.
      { exists (length (served w)), op. unfold ops, effect. rewrite Hc, Et. cbn [andb]. rewrite list_lookup_middle by done.
        split; [done|]. unfold isSame. rewrite !Z.eqb_refl. split; [done|]. unfold map_after. by rewrite take_app_length. }
      split; [|done]. apply remembered_insert; [done|]. intros _. destruct Hans as (p & op' & Hop & Hs & Hv). exists p, op'.
      split; [done|]. split; [|done]. unfold isSame in *. bools. apply andb_true_iff. split; apply Z.eqb_eq; congruence.
    + unfold takes_effect in Et. rewrite Ej in Et. unfold result_ok, applyOpL. rewrite Ej, Et.
      destruct (op_Type op); try done; cbn; (split; [done|intros _ [=]]).
  - split; [|intros ?; cbn in *; lia]. unfold applyOpL. rewrite Ej. cbn [with_id removeShards_op op_Type is_reconf negb andb].
    apply (remembered_insert _ _ (with_id (removeShards_op c shards target) (- g) opid)); [|cbn; lia].
    unfold applyRemoveShardsL. by destruct (removed _ _).
  - split; [|intros ?; cbn in *; lia]. unfold applyOpL. rewrite Ej. cbn [with_id addShards_op op_Type is_reconf negb andb].
    apply (remembered_insert _ _ (with_id (addShards_op (ha_ConfigNum args) (ha_Shards args) (ha_KVMap args) (ha_LastOps args)) (- g) opid)); [|cbn; lia].
    unfold applyAddShardsL. destruct (notNewShardsL _ _ _); [done|]. cbn. apply remembered_merge; [done|].
    destruct (Hps g args Hin) as (args' & Hin' & _ & _ & _ & ->). eapply remembered_prefix; [exact Hpre|by eapply Hms].
  - split; [|intros ?; cbn in *; lia]. unfold applyOpL. rewrite Ej. cbn [with_id handoffDone_op op_Type is_reconf negb andb].
    destruct (validShard _ _); cbn [negb fst]; [|done].
    by apply (remembered_insert _ _ (with_id (handoffDone_op h) (- g) opid)); [|cbn; lia].
Qed.

Lemma apply_same_storage (kv kv' : ShardKV) op : storage kv = storage kv' →
  (applyOpL kv op).2 = (applyOpL kv' op).2 ∧ storage (applyOpL kv op).1 = storage (applyOpL kv' op).1 ∧ issue_of kv op = issue_of kv' op.
Proof.
  intros Hs. assert (with_handoff op (op_Handoff op) = op) as Hw by by destruct op.
  pose proof (applyOpL_storage kv kv' op (op_Handoff op) Hs) as [Hr Hst]. pose proof (issue_of_storage kv kv' op (op_Handoff op) Hs) as Hi.
  by rewrite Hw in *.
Qed.

(** The data of a sequence that got longer *)
Lemma take_snoc_case {A} (l : list A) x (k : nat) : (k <= length (l ++ [x]))%nat →
  (k <= length l ∧ take k (l ++ [x]) = take k l ∨ k = S (length l) ∧ take k (l ++ [x]) = l ++ [x])%nat.
Proof.
  rewrite length_app. cbn. intros Hk. destruct (decide (k <= length l)%nat); [left; by rewrite take_app_le|right].
  split; [lia|]. apply take_ge. rewrite length_app. cbn. lia.
Qed.

(** The group applies one more operation and sends everything. *)
Lemma advance w ps g L op : sys_inv w → posted w ps → submits ps g op → msgs_ok w → follows w g L →
  ∃ w', rtc sys_step w w' ∧ grows w w' ∧ msgs_ok w' ∧ follows w' g (L ++ [op])
    ∧ (∀ g', g' ≠ g → groups w' g' = groups w g') ∧ ∀ op', op' ∈ served w' → op' ∈ served w ∨ op' = op.
Proof.
  intros HI Hps Hsub Hms [Hst His Hse Hl Hr].
  destruct (sys_apply w ps g op Hps Hsub) as (iss & Hstep & Hold & Hnew).
  assert (remembered (served w) (lastOps (groups w g))) as Hrem.
  { specialize (Hl (length L) ltac:(lia)). rewrite take_ge in Hl by lia. apply storage_eq in Hst as (_ & _ & Heq & _). by rewrite Heq. }
  destruct (apply_remembered w ps g op HI Hps Hsub Hms Hrem) as [Hrem' Hres].
  destruct (apply_same_storage _ _ op Hst) as (Hr2 & Hst2 & Hiss). rewrite <- run_group_snoc in Hst2.
  set (kv1 := (applyOpL (groups w g) op).1) in *. set (ops := served w ++ effect (groups w g) op) in *.
  set (w1 := MkSystem (<[g := kv1]> (groups w)) iss (msgs w) ops) in *.
  assert (groups w1 g = kv1) as Hg1 by apply fn_lookup_insert.
  assert (∀ tg c sh, (tg, c, sh) ∈ issues (s0 g) (L ++ [op]) → MkIssue g tg c sh ∈ iss) as His'.
  { intros tg c sh. rewrite issues_snoc, <- Hiss. intros [Hin|Hin]%elem_of_app; [by apply Hold, His|by apply Hnew]. }
  destruct (sys_send w1 g (issues (s0 g) (L ++ [op])) His') as (ms & Hsend & Hmsold & Hmsnew & Hsent). rewrite Hg1 in *.
  exists (MkSystem (groups w1) iss ms ops). split; [by eapply rtc_l|].
  assert (served w `prefix_of` ops) as Hpre by by eexists.
  pose proof (storage_eq _ _ Hst2) as (Hkm & _ & Hlo & _).
  split; [by split|]. split; [|split; [|split]]; cbn.
  - intros h args [Hin|Heq]%Hmsnew; cbn; [eapply remembered_prefix; [exact Hpre|by eapply Hms]|by rewrite Heq].
  - split; cbn; [by rewrite fn_lookup_insert|done|..].
    + intros k tg c sh [[Hk ->]|[Hk ->]]%take_snoc_case Hin.
      * destruct (Hse k tg c sh Hk Hin) as (args & Ha & Hrest). exists args. split; [by apply Hmsold|done].
      * destruct (Hsent _ _ _ Hin) as (args & Ha & Hc & Hsh & Hkv & Hlast). exists args. by rewrite Hkv, Hlast.
    + intros k [[Hk ->]|[Hk ->]]%take_snoc_case; [eapply remembered_prefix; [exact Hpre|by apply Hl]|]. by rewrite <- Hlo.
    + intros k op' [Hk|(Hlt & Hk)]%lookup_app_Some.
      * pose proof (lookup_lt_Some _ _ _ Hk). rewrite take_app_le by lia. intros Hc Hok.
        eapply one_map_answers_prefix; [exact Hpre|]. by apply (Hr k op').
      * apply list_lookup_singleton_Some in Hk as [Hk <-]. rewrite take_app_le, take_ge by lia. unfold result_ok. by rewrite <- Hr2.
  - intros g' Hne. by apply fn_lookup_insert_ne.
  - intros op'. unfold ops, effect. rewrite elem_of_app. destruct (_ && _); [rewrite list_elem_of_singleton; tauto|].
    intros [?|?%elem_of_nil]; [by left|done].
Qed.

Lemma sys_inv_rtc w w' : rtc sys_step w w' → sys_inv w → sys_inv w'.
Proof. induction 1 as [|w w1 w2 Hs _ IH]; [done|]. intros HI. apply IH. by eapply inv_step. Qed.

(** ... and more operations *)
Lemma advance_all w ps g L ops : sys_inv w → posted w ps → (∀ op, op ∈ ops → submits ps g op) → msgs_ok w → follows w g L →
  ∃ w', rtc sys_step w w' ∧ grows w w' ∧ msgs_ok w' ∧ follows w' g (L ++ ops)
    ∧ (∀ g', g' ≠ g → groups w' g' = groups w g') ∧ ∀ op', op' ∈ served w' → op' ∈ served w ∨ op' ∈ ops.
Proof.
  revert w L. induction ops as [|op ops IH]; intros w L HI Hps Hsub Hms Hf.
  { exists w. rewrite app_nil_r. split_and!; try done. by left. }
  destruct (advance w ps g L op HI Hps (Hsub op ltac:(by left)) Hms Hf) as (w1 & Hr1 & Hg1 & Hms1 & Hf1 & Ho1 & Hs1).
  pose proof (sys_inv_rtc _ _ Hr1 HI) as HI1.
  destruct (IH w1 (L ++ [op]) HI1) as (w2 & Hr2 & Hg2 & Hms2 & Hf2 & Ho2 & Hs2); [by eapply posted_grows|intros; apply Hsub; by right|done..|].
  exists w2. split; [by etrans|]. split; [by eapply grows_trans|]. split; [done|]. rewrite <- (assoc_L (++)) in Hf2. split; [done|]. split.
  - intros g' Hne. by rewrite Ho2, Ho1.
  - intros op' [[?| ->]%Hs1|?]%Hs2; [by left|right; by left|right; by right].
Qed.
End follow.

(** ** The simulation *)

Section simulation.
Context `{!GobCodec SKSnapshot, !GobLaws SKSnapshot, !GobCodec (PState Op), !GobLaws (PState Op)}.
Context (servers : Z → Z) (maxraftstate : Z) (own : ShardKV → Op → bool) (config : Config) (Hn : ∀ g, 0 <= servers g).
#[local] Instance the_machine : StateMachine ShardKV Op string := group_machine maxraftstate own.
#[local] Instance the_replicas g : Replicas ShardKV Op string (initial_group config g) :=
  group_replicas maxraftstate own (initial_group config g) (proj1 (initial_pending config g)).
Notation s0 := (initial_group config).
Implicit Types (N : Net) (X : World ShardKV Op string).

Lemma calls_elem (tr : list (WEvent Op string)) op : op ∈ calls tr ↔ ∃ i, WCall i op ∈ tr.
Proof.
  unfold calls. rewrite list_elem_of_omap. split.
  - intros ([i op'|] & Hin & [= ->]). by exists i.
  - intros [i Hin]. by exists (WCall i op).
Qed.

Lemma answers_same ops op op' v : isSame op (op_ClientId op') (op_OpId op') = true → one_map_answers ops op' v → one_map_answers ops op v.
Proof.
  unfold isSame. intros Hs (p & op2 & Hop & Hs2 & Hv). exists p, op2. split; [done|]. split; [|done].
  unfold isSame in *. bools. apply andb_true_iff. split; apply Z.eqb_eq; congruence.
Qed.

(** Every reply of a group is an answer of the map. *)
Lemma group_answers w g L op v : follows config w g L → answered (s0 g) L op v → 0 <= op_ClientId op → one_map_answers (served w) op v.
Proof.
  intros Hf Ha Hc. destruct Ha as [(k & op' & s & s' & Hk & Hsame & Hrun & Happ)|(k & s & Hk & Hrun & Hca)];
    destruct (run_ops_storage maxraftstate own (s0 g) (take k L)) as (t & Ht & Hst);
    change (run_ops (s0 g) (take k L) = Some t) in Ht; rewrite Hrun in Ht; injection Ht as <-.
  - cbn in Hsame, Happ. injection Happ as Happ. destruct (group_apply_spec own s _ op' Hst) as (Hr & _). rewrite Happ in Hr. cbn in Hr.
    apply (answers_same _ _ op' _ Hsame). pose proof (fo_result _ _ _ _ Hf k op' Hk) as Hres. unfold result_ok in Hres. rewrite <- Hr in Hres.
    apply Hres; [|done]. unfold isSame in Hsame. bools. lia.
  - cbn in Hca. destruct (just_processed s op) as [l|] eqn:Ej; [|done]. injection Hca as <-.
    eapply remembered_answers; [apply (fo_last _ _ _ _ Hf k Hk)|done|].
    rewrite <- (just_processed_storage s _ op (op_Handoff op) Hst). by destruct op.
Qed.

Record sim N w (Ls : Z → list Op) : Prop := {
  sm_world g : world_inv (servers g) (s0 g) (Ls g) (worlds N g);
  sm_sys : reachable config w;
  sm_follows g : follows config w g (Ls g);
  sm_msgs : msgs_ok w;
  sm_posts : posted w (posts N);
  sm_submits g op : op ∈ calls (trace (worlds N g)) → submits (posts N) g op;
  sm_events g e : (g, e) ∈ concat (happened N) ↔ e ∈ trace (worlds N g);
  sm_served op : op ∈ served w → ∃ g i, (g, WCall i op) ∈ concat (happened N);
  sm_always : one_map_always (served w) (happened N);
}.

Lemma sim_one_map N w Ls : (∀ g, world_inv (servers g) (s0 g) (Ls g) (worlds N g)) → (∀ g, follows config w g (Ls g)) →
  (∀ g e, (g, e) ∈ concat (happened N) ↔ e ∈ trace (worlds N g)) →
  (∀ op, op ∈ served w → ∃ g i, (g, WCall i op) ∈ concat (happened N)) → one_map (served w) (concat (happened N)).
Proof.
  intros Hw Hf He Hs. split; [exact Hs|]. intros g i op v Hin%He Hc.
  eapply group_answers; [apply Hf| |exact Hc]. eapply (proj2 (wi_explains _ _ _ _ (Hw g))). exact Hin.
Qed.

(** The explanation of a longer run *)
Lemma always_snoc ops ops' steps es : ops `prefix_of` ops' → one_map_always ops steps → one_map ops' (concat (steps ++ [es])) →
  one_map_always ops' (steps ++ [es]).
Proof.
  intros Hp Ha H t1 t2 Heq. destruct t2 as [|e t2 _] using rev_ind.
  - exists ops'. rewrite app_nil_r in Heq. by subst t1.
  - rewrite (assoc_L (++)) in Heq. apply app_inj_2 in Heq as [Heq _]; [|done]. destruct (Ha _ _ Heq) as (ops1 & Hp1 & Hex).
    exists ops1. split; [by etrans|done].
Qed.

Lemma submits_mono ps ps' g op : (∀ m, m ∈ ps → m ∈ ps') → submits ps g op → submits ps' g op.
Proof. intros Hps []; [by apply submits_client|by apply submits_remove|apply submits_add; auto|by apply submits_done]. Qed.

Lemma sim_init envs : sim (net_init servers config envs) (initial config) (λ _, []).
Proof using Hn GobLaws0 GobLaws1.
  split.
  - intros g. by apply world_inv_init.
  - apply rtc_refl.
  - intros g. split; cbn.
    + done.
    + by intros tg c sh ?%elem_of_nil.
    + intros k tg c sh Hk. assert (k = 0)%nat as -> by lia. by intros ?%elem_of_nil.
    + intros k Hk. rewrite take_nil. cbn. rewrite (proj2 (initial_pending config g)). by intros c l ?%lookup_empty_Some.
    + intros k op Hop. by rewrite lookup_nil in Hop.
  - by intros g args ?%elem_of_nil.
  - by intros g args ?%elem_of_nil.
  - by intros g op ?%elem_of_nil.
  - intros g e. cbn. split; by intros ?%elem_of_nil.
  - by intros op ?%elem_of_nil.
  - intros t1 t2 Heq. exists []. split; [done|]. destruct t1; [|done]. split; [by intros op ?%elem_of_nil|by intros g i op v ?%elem_of_nil].
Qed.

Lemma fn_insert_at {A} (f : Z → A) g g' x : <[g := x]> f g' = if decide (g' = g) then x else f g'.
Proof. destruct (decide (g' = g)) as [->|]; [apply fn_lookup_insert|by apply fn_lookup_insert_ne]. Qed.

(** A step of a group *)
Lemma sim_group N w Ls g act X' : sim N w Ls → wexec (servers g) (s0 g) act (worlds N g) = Some X' →
  (∀ i op, act = WRpc i op → submits (posts N) g op) →
  ∃ w' Ls', sim (MkNet (<[g := X']> (worlds N)) (posts N) (happened N ++ [new_events g (worlds N g) X'])) w' Ls'
    ∧ rtc sys_step w w' ∧ served w `prefix_of` served w'.
Proof using Hn GobLaws0 GobLaws1.
  intros [Hw Hsys Hf Hms Hps Hsub Hev Hsv Hal] Hx Hact.
  destruct (wexec_inv _ _ _ _ _ _ (Hn g) (Hw g) Hx) as (L' & [ops ->] & Hw').
  destruct (wexec_adds _ _ _ _ _ Hx) as (es & Htr & Hes).
  assert (∀ op, op ∈ calls (trace X') → submits (posts N) g op) as Hsub'.
  { intros op. rewrite Htr, calls_app, Hes. intros [Hin|Hin]%elem_of_app; [by apply Hsub|].
    destruct act; try (by apply elem_of_nil in Hin). apply list_elem_of_singleton in Hin as ->. by eapply Hact. }
  pose proof (proj1 (wi_explains _ _ _ _ Hw')) as Hcalled.
  assert (∀ op, op ∈ ops → op ∈ calls (trace X')) as Hops.
  { intros op Hop. eapply elem_of_submseteq; [|apply sublist_submseteq; exact Hcalled]. apply elem_of_app. by right. }
  destruct (advance_all config w (posts N) g (Ls g) ops (inv_reachable _ _ Hsys) Hps (λ op Hop, Hsub' op (Hops op Hop)) Hms (Hf g))
    as (w' & Hr & Hg & Hms' & Hf' & Ho & Hsv').
  set (N' := MkNet _ _ _). set (Ls' := <[g := Ls g ++ ops]> Ls).
  assert (∀ g', worlds N' g' = if decide (g' = g) then X' else worlds N g') as Hwg by (intros g'; apply fn_insert_at).
  assert (∀ g', Ls' g' = if decide (g' = g) then Ls g ++ ops else Ls g') as HLg by (intros g'; apply fn_insert_at).
  assert (∀ g' e, (g', e) ∈ concat (happened N') ↔ e ∈ trace (worlds N' g')) as Hev'.
  { intros g' e. rewrite Hwg. unfold N' at 1. cbn. rewrite concat_app, elem_of_app, Hev. cbn. rewrite app_nil_r. unfold new_events.
    rewrite Htr, drop_app_length, list_elem_of_fmap. destruct (decide (g' = g)) as [->|Hne].
    - rewrite Htr, elem_of_app. split; [intros [?|(x & [= ->] & ?)]; auto|]. intros [?|?]; [by left|right; by exists e].
    - split; [intros [?|(x & [= -> _] & _)]; done|by left]. }
  assert (∀ g', world_inv (servers g') (s0 g') (Ls' g') (worlds N' g')) as Hworlds.
  { intros g'. rewrite Hwg, HLg. destruct (decide (g' = g)) as [->|]; [exact Hw'|apply Hw]. }
  assert (∀ g', follows config w' g' (Ls' g')) as Hfollows.
  { intros g'. rewrite HLg. destruct (decide (g' = g)) as [->|Hne]; [exact Hf'|]. by eapply follows_grows, Hf; [|apply Ho]. }
  assert (∀ op, op ∈ served w' → ∃ g i, (g, WCall i op) ∈ concat (happened N')) as Hserved.
  { intros op [Hin|Hin]%Hsv'.
    - destruct (Hsv op Hin) as (g1 & i & Hin1). exists g1, i. unfold N'. cbn. rewrite concat_app, elem_of_app. by left.
    - destruct (proj1 (calls_elem _ _) (Hops op Hin)) as [i Hi]. exists g, i. apply Hev'. by rewrite Hwg, decide_True. }
  exists w', Ls'. split; [|split; [done|apply Hg]]. split; try done.
  - unfold reachable in *. by etrans.
  - by eapply posted_grows.
  - intros g' op. rewrite Hwg. destruct (decide (g' = g)) as [->|]; [apply Hsub'|apply Hsub].
  - eapply always_snoc; [apply Hg|exact Hal|]. eapply (sim_one_map N' w' Ls'); done.
Qed.

(** A server sends a hand-off. *)
Lemma sim_send N w Ls g i h args : sim N w Ls → 0 <= i < servers g → let kv := state (server (worlds N g) i) in
  h ∈ pendingHandoffs kv → handoff_args kv h = Some args →
  sim (MkNet (worlds N) ((h_Gid h, args) :: posts N) (happened N ++ [[]])) w Ls.
Proof.
  intros [Hw Hsys Hf Hms Hps Hsub Hev Hsv Hal] Hi kv Hh Hargs.
  destruct (wi_server _ _ _ _ (Hw g) i Hi) as [(k & k' & [Hk Hrep _ _ _ _]) _]. destruct Hrep as [Hst Hpend].
  destruct (Hpend h Hh) as (a & shards & Hsh & Hiss). unfold handoff_args in Hargs. rewrite Hsh in Hargs. injection Hargs as <-.
  destruct (fo_sent _ _ _ _ (Hf g) k _ _ _ Hk Hiss) as (args' & Ha & Hc & Hs & Hm & Hl).
  apply storage_eq in Hst as (Hst1 & _ & Hst2 & _).
  assert (concat (happened N ++ [[]]) = concat (happened N)) as Hcat by (rewrite concat_app; cbn; apply app_nil_r).
  split; cbn; try done; rewrite ?Hcat; try done.
  - intros g1 args1 [[= -> ->]|Hin]%elem_of_cons; [|by apply Hps]. exists args'. split; [done|].
    split_and!; cbn; by rewrite ?Hc, ?Hs, ?Hm, ?Hl.
  - intros g1 op Hop. eapply submits_mono; [|by apply Hsub]. intros m Hin. by right.
  - eapply always_snoc; [done|exact Hal|]. rewrite Hcat. by eapply sim_one_map.
Qed.

(** A run of the service is followed by a run of the groups. *)
Lemma net_sim N : net_reachable servers maxraftstate own config N → ∃ w Ls, sim N w Ls.
Proof using Hn GobLaws0 GobLaws1.
  intros [envs Hr]. revert N Hr. apply (rtc_ind_r (λ N, ∃ w Ls, sim N w Ls)).
  - exists (initial config), (λ _, []). apply sim_init.
  - intros N N' _ Hstep (w & Ls & Hsim). destruct Hstep as [g act X' Hx Hact|g i h args Hi kv Hh Ha].
    + destruct (sim_group _ _ _ _ _ _ Hsim Hx Hact) as (w' & Ls' & Hsim' & _). by exists w', Ls'.
    + exists w, Ls. by eapply sim_send.
Qed.
End simulation.

(** ** What the service promises *)

Section promises.
Context `{!GobCodec SKSnapshot, !GobLaws SKSnapshot, !GobCodec (PState Op), !GobLaws (PState Op)}.
Context (servers : Z → Z) (maxraftstate : Z) (own : ShardKV → Op → bool) (config : Config).
#[local] Instance group_server : StateMachine ShardKV Op string := group_machine maxraftstate own.


End promises.
