(* ===== verification/ShardKVRuns.v ===== *)
(** * A run of the sharded service

    Two groups of three servers: a client puts at group 1, the shard is handed to
    group 2, and the client reads there. *)

From S2P Require Import Prelude Util Labgob RaftState RaftHandlers RaftLeader RaftNode RaftCluster RaftClusterInv OpServer Replicated ShardCtrler ShardKV ShardKVSystem ShardKVReplica ShardKVNetProps.

(** ** Encodings *)

#[export] Instance lastop_eq_dec : EqDecision LastOp.
Proof. solve_decision. Defined.
#[export] Instance handoff_eq_dec : EqDecision Handoff.
Proof. solve_decision. Defined.
#[export] Instance op_eq_dec : EqDecision Op.
Proof. solve_decision. Defined.

#[export] Instance optype_countable : Countable OpType.
Proof.
  refine (inj_countable' (λ t, match t with opPut => 0 | opAppend => 1 | opGet => 2 | opAddShards => 3 | opRemoveShards => 4 | opHandOffDone => 5 end)%nat
    (λ n, match n with 0 => opPut | 1 => opAppend | 2 => opGet | 3 => opAddShards | 4 => opRemoveShards | _ => opHandOffDone end)%nat _).
  by intros [].
Defined.
#[export] Instance lastop_countable : Countable LastOp.
Proof. refine (inj_countable' (λ l, (lo_ClientId l, lo_OpId l, lo_GetResult l)) (λ x, MkLastOp x.1.1 x.1.2 x.2) _); by intros []. Defined.
#[export] Instance handoff_countable : Countable Handoff.
Proof. refine (inj_countable' (λ h, (h_Gid h, h_ConfigNum h, h_Shards h)) (λ x, MkHandoff x.1.1 x.1.2 x.2) _); by intros []. Defined.
#[export] Instance op_countable : Countable Op.
Proof.
  refine (inj_countable' (λ o, ((op_Type o, op_Key o, op_Value o, op_ConfigNum o, op_Shards o),
      (op_Gid o, op_KVMap o, op_LastOps o, op_Handoff o, op_ClientId o, op_OpId o)))
    (λ '((a, b, c, d, e), (f, g, h, i, j, k)), MkOp a b c d e f g h i j k) _); by intros [].
Defined.
#[export] Instance op_entry_countable : Countable (LogEntry Op).
Proof.
  refine (inj_countable' (λ e, (Command e, Index e, Term e)) (λ x, MkLogEntry x.1.1 x.1.2 x.2) _); by intros [].
Defined.

#[export] Instance op_pstate_codec : GobCodec (PState Op) := countable_codec.
#[export] Instance op_pstate_laws : GobLaws (PState Op) := countable_laws.
#[export] Instance sk_codec : GobCodec SKSnapshot := countable_codec.
#[export] Instance sk_laws : GobLaws SKSnapshot := countable_laws.

(** ** Steps to evaluate *)

(** [submits] as a test *)
Definition may_submit (ps : list (Z * HandOffShardsArgs)) (g : Z) (op : Op) : bool :=
  match op_Type op with
  | opPut | opAppend | opGet => 0 <=? op_ClientId op
  | opRemoveShards => (0 <? g)
      && bool_decide (op = with_id (removeShards_op (op_ConfigNum op) (op_Shards op) (op_Gid op)) (- g) (op_OpId op))
  | opAddShards => (0 <? g) && existsb (λ m, (m.1 =? g) && bool_decide (op =
      with_id (addShards_op (ha_ConfigNum m.2) (ha_Shards m.2) (ha_KVMap m.2) (ha_LastOps m.2)) (- g) (op_OpId op))) ps
  | opHandOffDone => (0 <? g) && bool_decide (op = with_id (handoffDone_op (op_Handoff op)) (- g) (op_OpId op))
  end.

Lemma may_submit_sound ps g op : may_submit ps g op = true → submits ps g op.
Proof.
  unfold may_submit. intros H. destruct (op_Type op) eqn:Et.
  1-3: apply submits_client; [by rewrite Et|lia].
  - apply andb_prop in H as [Hg ([g' args] & Hin & Hm)%existsb_exists]. apply list_elem_of_In in Hin. cbn in Hm.
    apply andb_prop in Hm as [->%Z.eqb_eq ->%bool_decide_eq_true]. apply (submits_add ps g args); [lia|done].
  - apply andb_prop in H as [Hg ->%bool_decide_eq_true]. apply submits_remove. lia.
  - apply andb_prop in H as [Hg ->%bool_decide_eq_true]. apply submits_done. lia.
Qed.

Inductive NAction :=
  | NGroup (g : Z) (act : WAction Op)
  (** server [i] of group [g] sends its first pending hand-off *)
  | NSend (g i : Z).

Definition two_groups : Z → Z := λ _, 3.
#[local] Instance run_machine : StateMachine ShardKV Op string := group_machine NA (λ _ _, false).

Definition net_exec (config : Config) (act : NAction) (N : Net) : option Net :=
  match act with
  | NGroup g act =>
    X' ← wexec 3 (initial_group config g) act (worlds N g);
    if (match act with WRpc _ op => may_submit (posts N) g op | _ => true end)
    then Some (MkNet (<[g := X']> (worlds N)) (posts N) (happened N ++ [new_events g (worlds N g) X']))
    else None
  | NSend g i =>
    let kv := state (server (worlds N g) i) in
    h ← head (pendingHandoffs kv); args ← handoff_args kv h;
    if in_cluster 3 i then Some (MkNet (worlds N) ((h_Gid h, args) :: posts N) (happened N ++ [[]])) else None
  end.

Fixpoint net_execs (config : Config) (acts : list NAction) (N : Net) : option Net :=
  match acts with
  | [] => Some N
  | act :: acts => N ← net_exec config act N; net_execs config acts N
  end.

Lemma group_execs_run config acts N N' : net_execs config acts N = Some N' → rtc (net_step two_groups NA (λ _ _, false) config) N N'.
Proof.
  revert N. induction acts as [|act acts IH]; intros N H; cbn in H; [by injection H as <-|].
  apply bind_Some in H as (N1 & H1 & H). eapply rtc_l; [|by apply IH]. destruct act as [g act|g i]; cbn in H1.
  - apply bind_Some in H1 as (X' & HX & H1). destruct (match act with WRpc _ op => _ | _ => _ end) eqn:Em; [|done]. injection H1 as <-.
    apply (net_group two_groups NA _ config N g act X' HX). intros i op ->. by apply may_submit_sound.
  - apply bind_Some in H1 as (h & Hh & H1). apply bind_Some in H1 as (args & Ha & H1).
    destruct (in_cluster 3 i) eqn:Ei; [|done]. injection H1 as <-.
    apply (net_send two_groups NA _ config N g i h args); [apply (in_cluster_spec 3); by rewrite Ei| |done].
    destruct (pendingHandoffs _); [done|]. injection Hh as ->. by left.
Qed.

(** ** The run *)

Definition late : Env := MkEnv (10 ^ 12) 5.
Definition elect (g : Z) : list NAction := NGroup g <$> [WRaft (ATick 0 late); WRaft (ARun 0 late); WRaft (ARun 0 late)].
(** Server 0 gets an operation and commits it with server 1, and applies it. *)
Definition submit (g : Z) (op : Op) (n : nat) : list NAction :=
  NGroup g <$> ([WRpc 0 op; WRaft (ARun 0 late); WRaft (ARun 0 late); WRaft (ARun 0 late)]
    ++ replicate n (WDeliver 0) ++ [WTake 0 0; WReceive 0 0; WFinish 0 0]).

Definition remove_0 : Op := with_id (removeShards_op 2 [0] 2) (- 1) 0.
Definition moved_args : HandOffShardsArgs := MkHandOffShardsArgs 1 0 2 [0] {["x"%string := "a"%string]} {[7 := MkLastOp 7 1 "a"%string; -1 := MkLastOp (-1) 0 ""%string]}.
Definition add_0 : Op := with_id (addShards_op 2 [0] (ha_KVMap moved_args) (ha_LastOps moved_args)) (- 2) 0.

Definition hand_over : list NAction :=
  elect 1 ++ submit 1 put_x 1 ++ submit 1 remove_0 2 ++ [NSend 1 0]
  ++ elect 2 ++ submit 2 add_0 1 ++ submit 2 get_x 2.

Definition net0 : Net := net_init two_groups all_to_one (λ _ _, MkEnv 0 3).
Definition handed_over : Net := default net0 (net_execs all_to_one hand_over net0).

Lemma handed_over_reachable : net_reachable two_groups NA (λ _ _, false) all_to_one handed_over.
Proof.
  assert (is_Some (net_execs all_to_one hand_over net0)) as [N HN] by (apply (bool_decide_eq_true_1 (is_Some _)); vm_compute; reflexivity).
  exists (λ _ _, MkEnv 0 3). unfold handed_over. rewrite HN. exact (group_execs_run _ _ _ _ HN).
Qed.

(** The client reads at group 2 what it wrote at group 1. *)
Example handed_over_replies : omap (λ e, match e with (g, WReply _ op err v) => Some (g, op_ClientId op, err, v) | _ => None end) (concat (happened handed_over))
  = [(1, 7, OK, "a"); (1, -1, OK, ""); (2, -2, OK, ""); (2, 8, OK, "a")]%string.
Proof. vm_compute. reflexivity. Qed.


