(* ===== verification/MapReduce.v ===== *)
(** * Package [mr] (mr/coordinator.go, mr/worker.go, mr/rpc.go)

    The coordinator hands out map tasks and then reduce tasks, waits ten seconds
    for each, and counts the tasks that remain.  The worker partitions the
    output of the map function into one file per reduce task, and a reduce task
    sorts and groups what the files of its number hold.

    Files hold texts.  encoding/json is a parameter ([JSON]): the line that [Encode]
    writes for a pair and the pairs that repeated [Decode] yields up to the first error.
    It replaces bytes that are not UTF-8, so that only pairs of valid strings are
    read back as they were written ([JSONLaws]). *)

From S2P Require Import Prelude GoStrings Util.
From Stdlib Require Import Ascii.

(** ** Coordinator *)

Inductive TaskType := MapTask | ReduceTask | NoIdle | Exit.
Inductive TaskState := Idle | InProgress | Completed.

#[global] Instance TaskType_eq_dec : EqDecision TaskType.
Proof. solve_decision. Defined.
#[global] Instance TaskState_eq_dec : EqDecision TaskState.
Proof. solve_decision. Defined.

Record Task := MkTask {
  taskType : TaskType;
  taskState : TaskState;
  taskId : Z;
  fileName : string;
  workerId : Z;
}.

(** [task] and [remain] are maps from the two types of tasks; [waiting] holds
    the goroutines [waitTaskDone] that sleep, by the task they wait for. *)
Record Coordinator := MkCoordinator {
  mapTasks : list Task;
  reduceTasks : list Task;
  remainMap : Z;
  remainReduce : Z;
  nReduce : Z;
  waiting : list (TaskType * nat);
}.

Record GetTaskReply := MkGetTaskReply {
  gt_TaskType : TaskType;
  gt_TaskId : Z;
  gt_FileName : string;
  gt_NReduce : Z;
}.

(** [c.task[taskType]]; the other types have no entry in the map. *)
Definition tasksOf (c : Coordinator) (t : TaskType) : list Task :=
  match t with MapTask => mapTasks c | ReduceTask => reduceTasks c | _ => [] end.
Definition remainOf (c : Coordinator) (t : TaskType) : Z :=
  match t with MapTask => remainMap c | ReduceTask => remainReduce c | _ => 0 end.

Definition setTask (c : Coordinator) (t : TaskType) (k : nat) (task : Task) : Coordinator :=
  match t with
  | MapTask => MkCoordinator (<[k := task]> (mapTasks c)) (reduceTasks c) (remainMap c) (remainReduce c) (nReduce c) (waiting c)
  | ReduceTask => MkCoordinator (mapTasks c) (<[k := task]> (reduceTasks c)) (remainMap c) (remainReduce c) (nReduce c) (waiting c)
  | _ => c
  end.
Definition decRemain (c : Coordinator) (t : TaskType) : Coordinator :=
  match t with
  | MapTask => MkCoordinator (mapTasks c) (reduceTasks c) (remainMap c - 1) (remainReduce c) (nReduce c) (waiting c)
  | ReduceTask => MkCoordinator (mapTasks c) (reduceTasks c) (remainMap c) (remainReduce c - 1) (nReduce c) (waiting c)
  | _ => c
  end.
Definition setWaiting (c : Coordinator) (ws : list (TaskType * nat)) : Coordinator :=
  MkCoordinator (mapTasks c) (reduceTasks c) (remainMap c) (remainReduce c) (nReduce c) ws.

Definition setState (task : Task) (s : TaskState) (w : Z) : Task :=
  MkTask (taskType task) s (taskId task) (fileName task) w.

(** The index of the first idle task; none is the task of type [NoIdle]. *)
Definition chooseTask (tasks : list Task) : option (nat * Task) :=
  list_find (λ task, taskState task = Idle) tasks.

(** The type of task that is handed out next. *)
Definition phase (c : Coordinator) : TaskType :=
  if remainMap c >? 0 then MapTask else if remainReduce c >? 0 then ReduceTask else Exit.

Definition GetTask (c : Coordinator) (worker : Z) : Coordinator * GetTaskReply :=
  match phase c with
  | Exit => (c, MkGetTaskReply Exit 0 "" 0)
  | t =>
    match chooseTask (tasksOf c t) with
    | None => (c, MkGetTaskReply NoIdle 0 "" 0)
    | Some (k, task) =>
      let c := setTask c t k (setState task InProgress worker) in
      let c := setWaiting c ((t, k) :: waiting c) in
      (c, MkGetTaskReply (taskType task) (taskId task) (fileName task) (nReduce c))
    end
  end.

(** [waitTaskDone] when its ten seconds are over. *)
Definition waitTaskDone (c : Coordinator) (t : TaskType) (k : nat) : option Coordinator :=
  task ← tasksOf c t !! k;
  if decide (taskState task = Completed) then Some c
  else Some (setTask c t k (setState task Idle NA)).

(** [None] is the panic on an index out of range. *)
Definition ReportTaskDone (c : Coordinator) (t : TaskType) (id : Z) : option Coordinator :=
  task ← go_index (tasksOf c t) id;
  let k := Z.to_nat id in
  if decide (taskState task = InProgress) then
    let c := setTask c t k (setState task Completed (workerId task)) in
    Some (decRemain c t)
  else Some (setTask c t k (setState task Idle (workerId task))).

Definition Done (c : Coordinator) : bool := (remainMap c <=? 0) && (remainReduce c <=? 0).

Definition MakeCoordinator (files : list string) (nReduce : nat) : Coordinator :=
  MkCoordinator
    (imap (λ i file, MkTask MapTask Idle (Z.of_nat i) file NA) files)
    ((λ i, MkTask ReduceTask Idle (Z.of_nat i) "" NA) <$> seq 0 nReduce)
    (go_len files) (Z.of_nat nReduce) (Z.of_nat nReduce) [].

(** One step: an RPC of a worker, or a timer that expires. *)
Inductive MRAction :=
  | MGet (worker : Z)
  | MReport (t : TaskType) (id : Z)
  | MTimer (k : nat).

Definition mr_exec (act : MRAction) (c : Coordinator) : option Coordinator :=
  match act with
  | MGet worker => Some (GetTask c worker).1
  | MReport t id => ReportTaskDone c t id
  | MTimer k =>
    '(t, i) ← waiting c !! k;
    waitTaskDone (setWaiting c (delete k (waiting c))) t i
  end.

Fixpoint mr_execs (acts : list MRAction) (c : Coordinator) : option Coordinator :=
  match acts with
  | [] => Some c
  | act :: acts => c ← mr_exec act c; mr_execs acts c
  end.

(** ** Worker *)

Record KeyValue := MkKeyValue { Key : string; Value : string }.

Class JSON := {
  json_line : KeyValue → string;
  json_pairs : string → list KeyValue;
}.

Definition valid_pair (kv : KeyValue) : bool := valid_string (Key kv) && valid_string (Value kv).

(** A file of valid pairs that [Encode] has written is read back. *)
Class JSONLaws `{!JSON} := {
  json_pairs_lines kvs : Forall (λ kv, valid_pair kv = true) kvs → json_pairs (lines (json_line <$> kvs)) = kvs;
}.

(** FNV-1a on 32 bits ([hash/fnv]). *)
Definition fnv_prime : Z := 16777619.
Definition fnv_offset : Z := 2166136261.
Definition fnv_step (h : Z) (b : ascii) : Z := Z.lxor h (Z.of_N (N_of_ascii b)) * fnv_prime mod 2 ^ 32.
Fixpoint fnv1a (h : Z) (s : string) : Z :=
  match s with
  | EmptyString => h
  | String b s => fnv1a (fnv_step h b) s
  end.

Definition ihash (key : string) : Z := Z.land (fnv1a fnv_offset key) 2147483647.

(** The loop that encodes every pair into the file of its partition: the texts of the
    files of one map task, in the order of the reduce tasks. *)
Definition add_kv `{!JSON} (n : Z) (files : list string) (kv : KeyValue) : option (list string) :=
  let i := Z.rem (ihash (Key kv)) n in
  file ← go_index files i;
  go_update files i (file +:+ json_line kv).

Fixpoint add_kvs `{!JSON} (n : Z) (files : list string) (kva : list KeyValue) : option (list string) :=
  match kva with
  | [] => Some files
  | kv :: kva => files ← add_kv n files kv; add_kvs n files kva
  end.

Definition writeIntermediateFile `{!JSON} (kva : list KeyValue) (n : Z) : option (list string) :=
  add_kvs n (replicate (Z.to_nat n) "") kva.

(** The loop of [_reducef] over the sorted pairs: a run of equal keys gives one
    call of [reducef]. *)
Fixpoint take_run (key : string) (kva : list KeyValue) : list string * list KeyValue :=
  match kva with
  | kv :: rest =>
    if decide (Key kv = key) then let '(vs, rest') := take_run key rest in (Value kv :: vs, rest')
    else ([], kva)
  | [] => ([], [])
  end.

Fixpoint reduce_runs (fuel : nat) (kva : list KeyValue) : option (list (string * list string)) :=
  match kva with
  | [] => Some []
  | kv :: rest =>
    match fuel with
    | O => None
    | S fuel =>
      let '(vs, rest') := take_run (Key kv) rest in
      runs ← reduce_runs fuel rest';
      Some ((Key kv, Value kv :: vs) :: runs)
    end
  end.

(** The part of [_reducef] after the files are read, which mrsequential shares; [sort] is
    [sort.Sort(ByKey(...))], which is not stable. *)
Definition reduce_pairs (sort : list KeyValue → list KeyValue) (reducef : string → list string → string)
    (kva : list KeyValue) : option (list (string * string)) :=
  let kva := sort kva in
  groups ← reduce_runs (length kva) kva;
  Some (map (λ r : string * list string, (r.1, reducef r.1 r.2)) groups).

(** [_reducef] on the texts of its files, in the order of [Glob] *)
Definition reduce_task `{!JSON} (sort : list KeyValue → list KeyValue) (reducef : string → list string → string)
    (files : list string) : option (list (string * string)) :=
  reduce_pairs sort reducef (concat (json_pairs <$> files)).
