(* ===== verification/MapReduceProps.v ===== *)
(** * Package [mr]: the properties of the coordinator and the worker *)

From S2P Require Import Prelude GoStrings Util MapReduce.
From Stdlib Require Import Ascii.

(** ** The coordinator *)

(** Changing one element changes a count by at most one. *)
Lemma count_insert {A} (P : A → Prop) `{!∀ x, Decision (P x)} (l : list A) k x y :
  l !! k = Some y →
  (length (filter P (<[k := x]> l)) + (if decide (P y) then 1 else 0)
   = length (filter P l) + (if decide (P x) then 1 else 0))%nat.
Proof.
  intros Hk. pose proof (lookup_lt_Some _ _ _ Hk).
  rewrite <- (take_drop_middle l k y Hk) at 2. rewrite insert_take_drop by done.
  rewrite !filter_app, !filter_cons, !length_app. case_decide; case_decide; cbn; lia.
Qed.

Definition unfinished (task : Task) : Prop := taskState task ≠ Completed.
#[global] Instance unfinished_dec task : Decision (unfinished task).
Proof. unfold unfinished. apply _. Defined.

Definition unfinished_tasks (c : Coordinator) (t : TaskType) : list Task := filter unfinished (tasksOf c t).

Record coord_inv (c : Coordinator) : Prop := {
  co_remain t : t = MapTask ∨ t = ReduceTask → remainOf c t = go_len (unfinished_tasks c t);
  (** reduce tasks start when the map tasks are done *)
  co_phase : Exists (λ task, taskState task ≠ Idle) (reduceTasks c) → remainMap c = 0;
  co_waiting t k : (t, k) ∈ waiting c → is_Some (tasksOf c t !! k);
}.

(** A report about a task that is not completed yet. *)
Definition fresh_report (c : Coordinator) (act : MRAction) : Prop :=
  match act with
  | MReport t id => ∃ task, go_index (tasksOf c t) id = Some task ∧ unfinished task
  | _ => True
  end.

Inductive mr_reach (files : list string) (n : nat) : Coordinator → Prop :=
  | mr_start : mr_reach files n (MakeCoordinator files n)
  | mr_step c act c' :
      mr_reach files n c → fresh_report c act → mr_exec act c = Some c' → mr_reach files n c'.

Lemma tasksOf_cases c t k task : tasksOf c t !! k = Some task → t = MapTask ∨ t = ReduceTask.
Proof. destruct t; cbn; auto; by rewrite lookup_nil. Qed.

Lemma tasksOf_setTask c t k task t' :
  t = MapTask ∨ t = ReduceTask →
  tasksOf (setTask c t k task) t' = if decide (t = t') then <[k := task]> (tasksOf c t) else tasksOf c t'.
Proof. by intros [-> | ->]; destruct t'. Qed.

Lemma remainOf_setTask c t k task t' : remainOf (setTask c t k task) t' = remainOf c t'.
Proof. by destruct t, t'. Qed.

Lemma remain_zero c t :
  coord_inv c → t = MapTask ∨ t = ReduceTask → remainOf c t <= 0 ↔ Forall (λ task, taskState task = Completed) (tasksOf c t).
Proof.
  intros Hc Ht. rewrite (co_remain _ Hc t Ht). unfold unfinished_tasks, go_len. split.
  - intros Hl. apply Forall_forall. intros task Hin. destruct (decide (taskState task = Completed)) as [|Hu]; [done|].
    assert (task ∈ filter unfinished (tasksOf c t)) as Hf by by apply list_elem_of_filter.
    destruct (filter unfinished (tasksOf c t)); [by apply elem_of_nil in Hf|cbn in Hl; lia].
  - intros Hall. assert (filter unfinished (tasksOf c t) = []) as ->; [|done].
    destruct (filter unfinished (tasksOf c t)) as [|task l] eqn:E; [done|].
    assert (task ∈ filter unfinished (tasksOf c t)) as [Hu Hin]%list_elem_of_filter by (rewrite E; by left).
    rewrite Forall_forall in Hall. by destruct (Hu (Hall _ Hin)).
Qed.

(** A task that is not completed and stays so, or that completes and is counted. *)
Lemma inv_set_unfinished c t k task task' :
  coord_inv c → tasksOf c t !! k = Some task → unfinished task → unfinished task' →
  (t = ReduceTask → remainMap c = 0 ∨ taskState task' = Idle) → coord_inv (setTask c t k task').
Proof.
  intros Hc Hk Hu Hu' Hph. pose proof (tasksOf_cases _ _ _ _ Hk) as Ht. split.
  - intros t' Ht'. rewrite remainOf_setTask, (co_remain _ Hc t' Ht'). unfold unfinished_tasks, go_len.
    rewrite tasksOf_setTask by done. case_decide as Hd; [subst t'|done].
    pose proof (count_insert unfinished (tasksOf c t) k task' task Hk) as Hn.
    rewrite !decide_True in Hn by done. lia.
  - intros He. change (remainMap (setTask c t k task')) with (remainOf (setTask c t k task') MapTask).
    rewrite remainOf_setTask. cbn. change (reduceTasks (setTask c t k task')) with (tasksOf (setTask c t k task') ReduceTask) in He.
    rewrite tasksOf_setTask in He by done. case_decide as Hd; [subst t|by apply Hc].
    destruct (Hph eq_refl) as [|Hidle]; [done|]. apply Hc.
    apply Exists_exists in He as (x & Hx & Hxi). apply Exists_exists.
    apply elem_of_insert in Hx as [->|Hx]; [done|]. by exists x.
  - intros t' k' Hw. rewrite tasksOf_setTask by done.
    assert ((t', k') ∈ waiting c) as Hw' by (destruct t; done).
    apply (co_waiting _ Hc) in Hw'. case_decide as Hd; [subst t'|done].
    apply lookup_lt_is_Some. rewrite length_insert. by apply lookup_lt_is_Some.
Qed.

Lemma inv_setWaiting c ws :
  coord_inv c → (∀ t k, (t, k) ∈ ws → is_Some (tasksOf c t !! k)) → coord_inv (setWaiting c ws).
Proof. intros [H1 H2 H3] Hw. split; [|done|done]. intros t Ht. destruct t; apply (H1 _ Ht). Qed.

Lemma inv_complete c t k task :
  coord_inv c → tasksOf c t !! k = Some task → taskState task = InProgress →
  coord_inv (decRemain (setTask c t k (setState task Completed (workerId task))) t).
Proof.
  intros Hc Hk Hp. pose proof (tasksOf_cases _ _ _ _ Hk) as Ht.
  set (task' := setState task Completed (workerId task)).
  assert (∀ t', tasksOf (decRemain (setTask c t k task') t) t' = tasksOf (setTask c t k task') t') as Ht'.
  { intros t'. by destruct t, t'. }
  assert (∀ t', remainOf (decRemain (setTask c t k task') t) t' = if decide (t = t') then remainOf c t - 1 else remainOf c t') as Hr.
  { intros t'. destruct Ht as [-> | ->]; by destruct t'. }
  split.
  - intros t' Hcase. rewrite Hr. unfold unfinished_tasks, go_len. rewrite Ht', tasksOf_setTask by done.
    case_decide as Hd; [subst t'|by apply Hc]. rewrite (co_remain _ Hc t Hcase). unfold unfinished_tasks, go_len.
    pose proof (count_insert unfinished (tasksOf c t) k task' task Hk) as Hn.
    rewrite (decide_True (P := unfinished task)) in Hn by (unfold unfinished; congruence).
    rewrite (decide_False (P := unfinished task')) in Hn by (intros Hx; by apply Hx). lia.
  - intros He. change (remainMap ?x) with (remainOf x MapTask). rewrite Hr. cbn [remainOf].
    assert (remainMap c = 0 ∧ t = ReduceTask ∨ t = MapTask ∧ Exists (λ task, taskState task ≠ Idle) (reduceTasks c)) as Hcase.
    { destruct Ht as [-> | ->]; [by right|left]. split; [|done]. apply Hc, Exists_exists. exists task.
      split; [by eapply list_elem_of_lookup_2|congruence]. }
    destruct Hcase as [[H0 ->]|[-> He']]; [done|]. exfalso.
    (* a map task in progress is not finished *)
    pose proof (co_phase _ Hc He') as H0. assert (remainOf c MapTask <= 0) as H1 by (cbn; lia).
    apply (remain_zero c MapTask Hc ltac:(by left)) in H1. rewrite Forall_forall in H1.
    specialize (H1 task ltac:(by eapply list_elem_of_lookup_2)). congruence.
  - intros t' k' Hw. rewrite Ht', tasksOf_setTask by done.
    assert ((t', k') ∈ waiting c) as Hw' by (destruct t; done).
    apply (co_waiting _ Hc) in Hw'. case_decide as Hd; [subst t'|done].
    apply lookup_lt_is_Some. rewrite length_insert. by apply lookup_lt_is_Some.
Qed.

Lemma phase_spec c :
  coord_inv c → match phase c with
  | MapTask => 0 < remainMap c
  | ReduceTask => remainMap c = 0 ∧ 0 < remainReduce c
  | _ => remainMap c = 0 ∧ remainReduce c = 0
  end.
Proof.
  intros Hc. pose proof (co_remain _ Hc MapTask ltac:(by left)) as H1.
  pose proof (co_remain _ Hc ReduceTask ltac:(by right)) as H2. cbn in H1, H2. unfold go_len in *.
  unfold phase. destruct (remainMap c >? 0) eqn:E1; bools; [lia|].
  destruct (remainReduce c >? 0) eqn:E2; bools; lia.
Qed.

Lemma inv_GetTask c worker : coord_inv c → coord_inv (GetTask c worker).1.
Proof.
  intros Hc. unfold GetTask. pose proof (phase_spec c Hc) as Hph.
  assert (phase c = MapTask ∨ phase c = ReduceTask → ∀ k task,
    chooseTask (tasksOf c (phase c)) = Some (k, task) →
    coord_inv (setWaiting (setTask c (phase c) k (setState task InProgress worker))
      ((phase c, k) :: waiting (setTask c (phase c) k (setState task InProgress worker))))) as Hgive.
  { intros Ht k task (Hk & Hidle & _)%list_find_Some.
    apply inv_setWaiting.
    - eapply inv_set_unfinished; [done|exact Hk|unfold unfinished; congruence|done|].
      intros Heq. rewrite Heq in Hph. left. lia.
    - intros t' k' Hin. rewrite tasksOf_setTask by done.
      assert ((t', k') = (phase c, k) ∨ (t', k') ∈ waiting c) as Hcase.
      { apply elem_of_cons in Hin as [|Hin]; [by left|right]. by destruct (phase c). }
      assert (is_Some (tasksOf c t' !! k')) as Hsome.
      { destruct Hcase as [Heq|Hw]; [injection Heq as -> ->; by eexists|by apply Hc]. }
      case_decide as Hd; [|done]. rewrite <- Hd in Hsome.
      apply lookup_lt_is_Some. rewrite length_insert. by apply lookup_lt_is_Some. }
  destruct (phase c) eqn:Ep; try (exfalso; unfold phase in Ep; repeat case_match; done); try done.
  all: destruct (chooseTask _) as [[k task]|] eqn:Ek; [cbn [fst]; apply Hgive; auto|done].
Qed.

Lemma mr_inv_exec act c c' : coord_inv c → fresh_report c act → mr_exec act c = Some c' → coord_inv c'.
Proof.
  intros Hc Hf H. destruct act as [worker|t id|k]; cbn in H.
  - injection H as <-. by apply inv_GetTask.
  - destruct Hf as (task & Hk & Hu). unfold ReportTaskDone in H. rewrite Hk in H. cbn [mbind option_bind] in H.
    apply go_index_lookup in Hk as [_ Hk]. case_decide as Hd; injection H as <-.
    + by apply inv_complete.
    + eapply inv_set_unfinished; [done|done|done|done|]. by right.
  - destruct (waiting c !! k) as [[t i]|] eqn:Ek; cbn in H; [|done].
    assert (coord_inv (setWaiting c (delete k (waiting c)))) as Hc1.
    { apply inv_setWaiting; [done|]. intros t' k' Hin%elem_of_delete. by apply Hc. }
    unfold waitTaskDone in H. destruct (tasksOf _ t !! i) as [task|] eqn:Et; cbn in H; [|done].
    case_decide as Hd; injection H as <-; [done|].
    eapply inv_set_unfinished; [done|done|done|done|]. by right.
Qed.

Lemma inv_start files n : coord_inv (MakeCoordinator files n).
Proof.
  split.
  - intros t [-> | ->]; cbn; unfold unfinished_tasks, go_len; cbn; rewrite filter_all.
    + by rewrite length_imap.
    + intros task [k Hk]%list_elem_of_lookup. rewrite list_lookup_imap in Hk.
      apply fmap_Some in Hk as (file & _ & ->). done.
    + by rewrite length_fmap, length_seq.
    + by intros task (i & -> & _)%list_elem_of_fmap.
  - intros He. exfalso. apply Exists_exists in He as (task & (i & -> & _)%list_elem_of_fmap & Hs). done.
  - by intros t k ?%elem_of_nil.
Qed.

(** Tasks keep their type. *)
Definition typed (c : Coordinator) : Prop :=
  Forall (λ task, taskType task = MapTask) (mapTasks c)
  ∧ Forall (λ task, taskType task = ReduceTask) (reduceTasks c).

Lemma typed_setTask c t k task s w :
  typed c → tasksOf c t !! k = Some task → typed (setTask c t k (setState task s w)).
Proof.
  intros [H1 H2] Hk. destruct t; try done; split; try done.
  - apply Forall_insert; [done|]. rewrite Forall_forall in H1. apply (H1 task). by eapply list_elem_of_lookup_2.
  - apply Forall_insert; [done|]. rewrite Forall_forall in H2. apply (H2 task). by eapply list_elem_of_lookup_2.
Qed.

Lemma mr_reach_types files n c : mr_reach files n c → typed c.
Proof.
  induction 1 as [|c act c' _ IH _ H].
  { split; apply Forall_forall.
    - intros task [k Hk]%list_elem_of_lookup. cbn in Hk. rewrite list_lookup_imap in Hk.
      apply fmap_Some in Hk as (file & _ & ->). done.
    - by intros task (i & -> & _)%list_elem_of_fmap. }
  destruct act as [worker|t id|k]; cbn in H.
  - injection H as <-. unfold GetTask.
    assert (∀ t, typed (match chooseTask (tasksOf c t) with
      | None => (c, MkGetTaskReply NoIdle 0 "" 0)
      | Some (k, task) =>
        (setWaiting (setTask c t k (setState task InProgress worker))
           ((t, k) :: waiting (setTask c t k (setState task InProgress worker))),
         MkGetTaskReply (taskType task) (taskId task) (fileName task)
           (nReduce (setWaiting (setTask c t k (setState task InProgress worker))
             ((t, k) :: waiting (setTask c t k (setState task InProgress worker))))))
      end).1) as Hg.
    { intros t. destruct (chooseTask _) as [[k task]|] eqn:Ek; [|done].
      apply list_find_Some in Ek as (Hk & _). by apply typed_setTask. }
    destruct (phase c); try done; apply Hg.
  - unfold ReportTaskDone in H. destruct (go_index _ id) as [task|] eqn:Ek; cbn in H; [|done].
    apply go_index_lookup in Ek as [_ Ek].
    case_decide; injection H as <-; [|by apply typed_setTask].
    pose proof (typed_setTask c t _ task Completed (workerId task) IH Ek) as Ht. by destruct t.
  - destruct (waiting c !! k) as [[t i]|] eqn:Ek; cbn in H; [|done]. unfold waitTaskDone in H.
    destruct (tasksOf _ t !! i) as [task|] eqn:Et; cbn in H; [|done].
    case_decide; injection H as <-; [done|]. by apply typed_setTask.
Qed.

Lemma mr_reach_inv files n c : mr_reach files n c → coord_inv c.
Proof. induction 1; [apply inv_start|by eapply mr_inv_exec]. Qed.

(** The coordinator finishes exactly when the work is done.  In every run in
    which no worker reports a task that is completed already, [Done] holds
    exactly when all map and all reduce tasks are completed; [GetTask] answers
    [Exit] only then, and hands out a reduce task only when all map tasks are
    completed. *)
Theorem mr_done_iff_completed files n c worker :
  mr_reach files n c →
  (Done c = true ↔ Forall (λ task, taskState task = Completed) (mapTasks c ++ reduceTasks c))
  ∧ (gt_TaskType (GetTask c worker).2 = Exit → Done c = true)
  ∧ (phase c = ReduceTask → Forall (λ task, taskState task = Completed) (mapTasks c)).
Proof.
  intros Hr. pose proof (mr_reach_inv _ _ _ Hr) as Hc.
  pose proof (remain_zero c MapTask Hc ltac:(by left)) as H1.
  pose proof (remain_zero c ReduceTask Hc ltac:(by right)) as H2. cbn in H1, H2.
  assert (Done c = true ↔ Forall (λ task, taskState task = Completed) (mapTasks c ++ reduceTasks c)) as Hd.
  { unfold Done. rewrite andb_true_iff, !Z.leb_le, Forall_app. tauto. }
  pose proof (phase_spec c Hc) as Hph. split_and!; [done| |].
  - intros He. unfold Done. unfold GetTask in He.
    assert (phase c = Exit) as Hx; [|rewrite Hx in Hph; destruct Hph; lia].
    destruct (phase c) eqn:Ep; try done; destruct (chooseTask _) as [[k task]|] eqn:Ek; try done.
    all: apply list_find_Some in Ek as (Hk & _); cbn in He.
    all: pose proof (mr_reach_types _ _ _ Hr) as [Ht1 Ht2].
    + rewrite Forall_forall in Ht1. specialize (Ht1 task ltac:(by eapply list_elem_of_lookup_2)). congruence.
    + rewrite Forall_forall in Ht2. specialize (Ht2 task ltac:(by eapply list_elem_of_lookup_2)). congruence.
  - intros Hp. rewrite Hp in Hph. apply H1. lia.
Qed.

(** A task of worker 1 times out and goes to worker 2; both report it, and so
    does worker 3, who gets it again. *)
Definition late_reports : list MRAction :=
  [MGet 1; MTimer 0; MGet 2; MReport MapTask 0; MReport MapTask 0; MGet 3; MReport MapTask 0;
   MGet 4; MReport ReduceTask 0].

(** A second report of a completed task reopens it, and the count of
    remaining tasks is lowered again when it completes again: in this run, of
    two map tasks and one reduce task, [Done] holds although the second map task
    was never handed out. *)
Theorem early_done :
  ∃ c, mr_execs late_reports (MakeCoordinator ["a"; "b"]%string 1) = Some c
    ∧ Done c = true ∧ taskState <$> mapTasks c !! 1%nat = Some Idle.
Proof. eexists. split; [vm_compute; reflexivity|]. split; reflexivity. Qed.

(** ** The worker *)

Lemma fnv1a_range h s : 0 <= h < 2 ^ 32 → 0 <= fnv1a h s < 2 ^ 32.
Proof.
  revert h. induction s as [|b s IH]; intros h Hh; cbn [fnv1a]; [done|]. apply IH. unfold fnv_step.
  apply Z.mod_pos_bound. lia.
Qed.

(** The hash of a key is a non-negative 31-bit number, so that its remainder
    is the index of a file. *)
Theorem ihash_range key n : 0 < n → 0 <= ihash key < 2 ^ 31 ∧ 0 <= Z.rem (ihash key) n < n.
Proof.
  intros Hn. assert (0 <= ihash key < 2 ^ 31) as Hr.
  { unfold ihash. change 2147483647 with (Z.ones 31). rewrite Z.land_ones by lia.
    apply Z.mod_pos_bound. lia. }
  split; [done|]. apply Z.rem_bound_pos; lia.
Qed.

(** The pairs of a partition. *)
Definition partition_of (n r : Z) (kva : list KeyValue) : list KeyValue :=
  filter (λ kv, Z.rem (ihash (Key kv)) n = r) kva.

Section files.
Context `{!JSON}.

(** What [Encode] writes for some pairs *)
Definition encoded (kvs : list KeyValue) : string := lines (json_line <$> kvs).

Lemma encoded_snoc kvs kv : encoded (kvs ++ [kv]) = encoded kvs +:+ json_line kv.
Proof. unfold encoded. rewrite fmap_app, lines_app. cbn. by rewrite append_empty_r. Qed.

Lemma add_kvs_spec n (files : list (list KeyValue)) kva :
  0 < n → go_len files = n →
  ∃ files', add_kvs n (encoded <$> files) kva = Some (encoded <$> files') ∧ go_len files' = n
    ∧ ∀ (r : nat) f, files !! r = Some f → files' !! r = Some (f ++ partition_of n (Z.of_nat r) kva).
Proof.
  intros Hn. revert files. induction kva as [|kv kva IH]; intros files Hlen; cbn [add_kvs].
  { exists files. split_and!; [done|done|]. intros r f Hf. by rewrite app_nil_r. }
  unfold add_kv. set (i := Z.rem (ihash (Key kv)) n).
  assert (0 <= i < n) as Hi.
  { apply Z.rem_bound_pos; [|lia]. unfold ihash. apply Z.land_nonneg. by right. }
  unfold go_len in Hlen.
  destruct (lookup_lt_is_Some_2 files (Z.to_nat i) ltac:(lia)) as [fi Hfi].
  assert (go_index (encoded <$> files) i = Some (encoded fi)) as ->.
  { apply go_index_lookup. split; [lia|]. by rewrite list_lookup_fmap, Hfi. }
  cbn [mbind option_bind]. rewrite go_update_eq by (unfold go_len; rewrite length_fmap; lia). cbn [mbind option_bind].
  rewrite <- encoded_snoc, <- list_fmap_insert.
  destruct (IH (<[Z.to_nat i := fi ++ [kv]]> files)) as (files' & -> & Hlen' & Hall).
  { unfold go_len. by rewrite length_insert. }
  exists files'. split_and!; [done|done|]. intros r f Hf. unfold partition_of. rewrite filter_cons.
  destruct (decide (r = Z.to_nat i)) as [->|Hne].
  - assert (f = fi) as -> by congruence. rewrite Z2Nat.id by lia. rewrite decide_True by done.
    rewrite (Hall (Z.to_nat i) (fi ++ [kv])) by (apply list_lookup_insert_eq; lia).
    rewrite Z2Nat.id by lia. by rewrite <- (assoc_L (++)).
  - fold i. rewrite decide_False by lia. apply Hall. by rewrite list_lookup_insert_ne.
Qed.

(** A map task writes one file for every reduce task, with the pairs of its partition. *)
Lemma writeIntermediateFile_spec kva n :
  0 < n → ∃ texts, writeIntermediateFile kva n = Some texts ∧ go_len texts = n
    ∧ ∀ r : nat, Z.of_nat r < n → texts !! r = Some (encoded (partition_of n (Z.of_nat r) kva)).
Proof.
  intros Hn. destruct (add_kvs_spec n (replicate (Z.to_nat n) []) kva Hn) as (files & Hr & Hl & Hall).
  { unfold go_len. rewrite length_replicate. lia. }
  rewrite fmap_replicate in Hr. exists (encoded <$> files). split_and!; [done|unfold go_len; by rewrite length_fmap|].
  intros r Hlt. rewrite list_lookup_fmap, (Hall r []); [done|]. apply lookup_replicate_2. lia.
Qed.

Lemma pairs_encoded `{!JSONLaws} n r kva : Forall (λ kv, valid_pair kv = true) kva →
  json_pairs (encoded (partition_of n r kva)) = partition_of n r kva.
Proof.
  intros Hv. apply json_pairs_lines, Forall_forall. intros kv [_ Hin]%list_elem_of_filter. rewrite Forall_forall in Hv. by apply Hv.
Qed.
End files.

(** *** Grouping *)

Definition key_le (a b : KeyValue) : Prop := String.leb (Key a) (Key b) = true.
#[global] Instance key_le_dec a b : Decision (key_le a b).
Proof. unfold key_le. apply _. Defined.

Definition values_of (key : string) (kva : list KeyValue) : list string :=
  Value <$> filter (λ kv, Key kv = key) kva.

Lemma take_run_spec key kva :
  StronglySorted key_le kva → Forall (λ kv, String.leb key (Key kv) = true) kva →
  let '(vs, rest) := take_run key kva in
  vs = values_of key kva ∧ StronglySorted key_le rest ∧ (length rest <= length kva)%nat
  ∧ (∀ k, k ≠ key → values_of k rest = values_of k kva) ∧ values_of key rest = []
  ∧ Forall (λ kv, Key kv ≠ key) rest ∧ (∀ kv, kv ∈ rest → kv ∈ kva).
Proof.
  induction kva as [|kv kva IH]; intros Hs Hf; cbn [take_run].
  { split_and!; try done. }
  apply StronglySorted_cons in Hs as [Hall Hs]. apply Forall_cons in Hf as [Hkv Hf].
  unfold values_of. rewrite filter_cons. destruct (decide (Key kv = key)) as [<-|Hne].
  - specialize (IH Hs Hf). destruct (take_run (Key kv) kva) as [vs rest].
    destruct IH as (-> & Hsr & Hl & Hk & Hno & Hall' & Hin). split_and!; try done.
    + cbn. lia.
    + intros k Hk'. rewrite filter_cons, decide_False by done. by apply Hk.
    + intros x Hx. right. by apply Hin.
  - assert (Forall (λ kv', Key kv' ≠ key) kva) as Hno.
    { apply Forall_forall. intros kv' Hin Heq. apply Hne. rewrite Forall_forall in Hall. specialize (Hall _ Hin).
      unfold key_le in Hall. rewrite Heq in Hall. by apply String.leb_antisym. }
    assert (filter (λ kv, Key kv = key) kva = []) as Hnil.
    { rewrite Forall_forall in Hno. destruct (filter _ kva) as [|x l] eqn:E; [done|].
      assert (x ∈ filter (λ kv, Key kv = key) kva) as [Hx Hin]%list_elem_of_filter by (rewrite E; by left).
      by destruct (Hno x Hin). }
    rewrite Hnil. split_and!; try done.
    + by apply StronglySorted_cons.
    + rewrite filter_cons, decide_False, Hnil by done. done.
    + by constructor.
Qed.

Lemma values_of_nil key kva : key ∉ Key <$> kva → values_of key kva = [].
Proof.
  intros Hno. unfold values_of. destruct (filter _ kva) as [|x l] eqn:E; [done|].
  assert (x ∈ filter (λ kv, Key kv = key) kva) as [Hx Hin]%list_elem_of_filter by (rewrite E; by left).
  destruct Hno. rewrite <- Hx. apply list_elem_of_fmap. eauto.
Qed.

Lemma reduce_runs_spec fuel kva :
  StronglySorted key_le kva → (length kva <= fuel)%nat →
  ∃ groups, reduce_runs fuel kva = Some groups ∧ NoDup groups.*1
    ∧ (∀ k vs, (k, vs) ∈ groups → vs = values_of k kva ∧ k ∈ Key <$> kva)
    ∧ ∀ kv, kv ∈ kva → Key kv ∈ groups.*1.
Proof.
  revert kva. induction fuel as [|fuel IH]; intros kva Hs Hf; destruct kva as [|kv kva]; cbn in Hf; try lia; cbn [reduce_runs].
  1,2: exists []; split_and!; [done|constructor|by intros k vs ?%elem_of_nil|by intros ? ?%elem_of_nil].
  apply StronglySorted_cons in Hs as [Hall Hs].
  pose proof (take_run_spec (Key kv) kva Hs Hall) as Hr. destruct (take_run (Key kv) kva) as [vs rest].
  destruct Hr as (-> & Hsr & Hl & Hk & Hno & Hnk & Hin).
  destruct (IH rest Hsr ltac:(lia)) as (groups & -> & Hnd & Hg & Hcov). cbn [mbind option_bind].
  eexists. split; [done|]. split_and!.
  - cbn. apply NoDup_cons. split; [|done]. intros ([k vs] & Heq & Hkv)%list_elem_of_fmap. cbn in Heq. subst k.
    apply Hg in Hkv as [_ (x & Hx & Hxin)%list_elem_of_fmap]. rewrite Forall_forall in Hnk. by destruct (Hnk x Hxin).
  - intros k vs [Heq|Hkv]%elem_of_cons.
    + injection Heq as -> ->. unfold values_of. rewrite filter_cons, decide_True by done. split; [done|by left].
    + destruct (Hg k vs Hkv) as [-> (x & -> & Hx)%list_elem_of_fmap].
      rewrite Forall_forall in Hnk. specialize (Hnk x Hx). split.
      * unfold values_of. rewrite (filter_cons _ kv), decide_False by congruence. by apply Hk.
      * right. apply list_elem_of_fmap. exists x. split; [done|by apply Hin].
  - intros x [->|Hx]%elem_of_cons; [by left|]. destruct (decide (Key x = Key kv)) as [->|Hne]; [by left|].
    right. assert (values_of (Key x) rest ≠ []) as Hv.
    { rewrite Hk by done. unfold values_of. assert (x ∈ filter (λ y, Key y = Key x) kva) as Hf' by by apply list_elem_of_filter.
      by destruct (filter _ kva); [apply elem_of_nil in Hf'|]. }
    destruct (decide (Key x ∈ Key <$> rest)) as [Hin'|Hn]; [|by destruct (Hv (values_of_nil _ _ Hn))].
    apply list_elem_of_fmap in Hin' as (y & -> & Hy). by apply Hcov.
Qed.

Lemma values_of_perm k l l' : l ≡ₚ l' → values_of k l ≡ₚ values_of k l'.
Proof. intros Hp. unfold values_of. by rewrite Hp. Qed.

Lemma values_of_partition k n r kva :
  values_of k (partition_of n r kva) = if decide (Z.rem (ihash k) n = r) then values_of k kva else [].
Proof.
  unfold values_of, partition_of. induction kva as [|kv kva IH]; [by case_decide|]. rewrite !filter_cons.
  destruct (decide (Z.rem (ihash (Key kv)) n = r)), (decide (Key kv = k)) as [<-|]; rewrite ?filter_cons;
    repeat case_decide; cbn in *; rewrite ?IH; try done; try congruence.
Qed.

Lemma values_of_column k n r outs :
  values_of k (concat (partition_of n r <$> outs)) = if decide (Z.rem (ihash k) n = r) then values_of k (concat outs) else [].
Proof.
  induction outs as [|kva outs IH]; [by case_decide|]. cbn.
  unfold values_of in *. rewrite !filter_app, !fmap_app. rewrite IH.
  pose proof (values_of_partition k n r kva) as Hk. unfold values_of in Hk. rewrite Hk. by case_decide.
Qed.

Lemma key_values k l : k ∈ Key <$> l ↔ values_of k l ≠ [].
Proof.
  split; [|intros Hv; destruct (decide (k ∈ Key <$> l)) as [|Hno]; [done|by destruct (Hv (values_of_nil _ _ Hno))]].
  intros (x & -> & Hx)%list_elem_of_fmap. unfold values_of.
  assert (x ∈ filter (λ y, Key y = Key x) l) as Hf by by apply list_elem_of_filter.
  by destruct (filter _ l); [apply elem_of_nil in Hf|].
Qed.

(** The groups of sorted pairs that are, up to their order, those of partition [r] *)
Lemma partition_groups outs n r sorted :
  sorted ≡ₚ concat (partition_of n r <$> outs) → StronglySorted key_le sorted →
  ∃ groups, reduce_runs (length sorted) sorted = Some groups ∧ NoDup groups.*1
    ∧ ∀ k, if decide (Z.rem (ihash k) n = r ∧ k ∈ Key <$> concat outs)
           then ∃ vs, (k, vs) ∈ groups ∧ vs ≡ₚ values_of k (concat outs)
           else k ∉ groups.*1.
Proof.
  intros Hperm Hsorted.
  assert (∀ k, values_of k sorted ≡ₚ if decide (Z.rem (ihash k) n = r) then values_of k (concat outs) else []) as Hvals.
  { intros k. by rewrite (values_of_perm k _ _ Hperm), values_of_column. }
  destruct (reduce_runs_spec (length sorted) sorted Hsorted ltac:(lia)) as (groups & Hrun & Hnd & Hg & Hcov).
  exists groups. split_and!; [done|done|]. intros k.
  assert (k ∈ groups.*1 ↔ k ∈ Key <$> sorted) as Hin.
  { split; [|by intros (x & -> & Hx)%list_elem_of_fmap; apply Hcov].
    intros ([k' vs] & -> & Hx)%list_elem_of_fmap. by apply (Hg _ _ Hx). }
  rewrite key_values in Hin. specialize (Hvals k).
  destruct (decide (Z.rem (ihash k) n = r ∧ k ∈ Key <$> concat outs)) as [[Hh Hk]|Hd].
  - rewrite decide_True in Hvals by done.
    assert (k ∈ groups.*1) as ([k' vs] & Heq & Hx)%list_elem_of_fmap.
    { apply Hin. intros He. rewrite He in Hvals. apply Permutation_nil in Hvals. by apply key_values in Hk. }
    cbn in Heq. subst k'. exists vs. split; [done|]. destruct (Hg _ _ Hx) as [-> _]. done.
  - rewrite Hin. intros Hne. apply Hne. destruct (decide (Z.rem (ihash k) n = r)) as [Hh|Hh].
    + destruct (decide (k ∈ Key <$> concat outs)) as [Hk|Hk]; [by destruct Hd|].
      rewrite (values_of_nil _ _ Hk) in Hvals. by apply Permutation_nil.
    + by apply Permutation_nil.
Qed.

(** The files of all map tasks, and those of one reduce task among them *)
Lemma map_outputs `{!JSON, !JSONLaws} outs n : 0 < n → (∀ kv, kv ∈ concat outs → valid_pair kv = true) →
  ∃ parts, Forall2 (λ kva texts, writeIntermediateFile kva n = Some texts ∧ go_len texts = n) outs parts
    ∧ ∀ r : nat, Z.of_nat r < n → ∃ column, mapM (λ texts : list string, texts !! r) parts = Some column
        ∧ json_pairs <$> column = partition_of n (Z.of_nat r) <$> outs.
Proof.
  intros Hn. induction outs as [|kva outs IH]; intros Hv.
  { exists []. split; [constructor|]. intros r _. by exists []. }
  cbn in Hv. destruct IH as (parts & Hf & Hc); [intros kv Hin; apply Hv, elem_of_app; by right|].
  destruct (writeIntermediateFile_spec kva n Hn) as (texts & Hw & Hl & Ht). exists (texts :: parts).
  split; [by constructor|]. intros r Hr. destruct (Hc r Hr) as (column & Hm & Hp).
  exists (encoded (partition_of n (Z.of_nat r) kva) :: column). cbn. rewrite Ht by done. cbn. rewrite Hm. cbn. split; [done|].
  rewrite Hp, pairs_encoded; [done|]. apply Forall_forall. intros kv Hin. apply Hv, elem_of_app. by left.
Qed.

(** C31: MapReduce computes what it should.  Let [outs] be the outputs of the map
    tasks, of keys and values that are valid UTF-8 (encoding/json replaces other
    bytes), and [n], at least 1, the number of reduce tasks.  Every map task writes
    exactly [n] files.  Reduce task [r], reading the files of its number, one of each
    map task, in any order and sorting the pairs that it decodes by any sort, ends; it
    calls the reduce function exactly once for each key whose hash falls to it, with
    all the values that any map task emitted for that key, and for no other key. *)
Theorem mapreduce_correct `{!JSON, !JSONLaws} (outs : list (list KeyValue)) n sort reducef :
  0 < n → (∀ kv, kv ∈ concat outs → valid_pair kv = true) →
  (∀ l, sort l ≡ₚ l) → (∀ l, StronglySorted key_le (sort l)) →
  ∃ parts, Forall2 (λ kva texts, writeIntermediateFile kva n = Some texts ∧ go_len texts = n) outs parts
    ∧ ∀ r : nat, Z.of_nat r < n → ∃ column, mapM (λ texts : list string, texts !! r) parts = Some column
      ∧ ∀ texts, texts ≡ₚ column →
        ∃ groups, reduce_task sort reducef texts = Some ((λ g : string * list string, (g.1, reducef g.1 g.2)) <$> groups)
          ∧ NoDup groups.*1
          ∧ ∀ k, if decide (Z.rem (ihash k) n = Z.of_nat r ∧ k ∈ Key <$> concat outs)
                 then ∃ vs, (k, vs) ∈ groups ∧ vs ≡ₚ values_of k (concat outs)
                 else k ∉ groups.*1.
Proof.
  intros Hn Hv Hperm Hsorted. destruct (map_outputs outs n Hn Hv) as (parts & Hf & Hc). exists parts. split; [done|].
  intros r Hr. destruct (Hc r Hr) as (column & Hm & Hp). exists column. split; [done|]. intros texts Ht.
  unfold reduce_task, reduce_pairs. set (sorted := sort (concat (json_pairs <$> texts))).
  destruct (partition_groups outs n (Z.of_nat r) sorted) as (groups & Hrun & Hnd & Hk); [by unfold sorted; rewrite Hperm, Ht, Hp|apply Hsorted|].
  exists groups. rewrite Hrun. by split_and!.
Qed.

(** ** Witnesses *)

Lemma mr_done_iff_completed_witness :
  Done (MakeCoordinator ["a"%string] 1) = true
  ↔ Forall (λ task, taskState task = Completed)
      (mapTasks (MakeCoordinator ["a"%string] 1) ++ reduceTasks (MakeCoordinator ["a"%string] 1)).
Proof.
  apply (mr_done_iff_completed ["a"%string] 1 (MakeCoordinator ["a"%string] 1) 7). apply mr_start.
Defined.

Lemma ihash_range_witness : 0 <= ihash "a" < 2 ^ 31 ∧ 0 <= Z.rem (ihash "a") 10 < 10.
Proof. apply (ihash_range "a" 10). lia. Defined.
