(* ===== verification/MapReduceJob.v ===== *)
(** * A MapReduce job: workers, files and the coordinator together

    mr/worker.go with its files, and main/mrsequential.go.  A worker is the loop
    [Worker] with the place it has reached; every rename, read of a file and call of the
    coordinator is a step.  Workers start and die at any time; the coordinator's
    timers run out at any time.

    The file system maps names to texts and holds what the job writes; [input] is what
    the workers find under the names of the input files.  [mapf] may depend on the order
    in which Go iterates over a map (as that of mrapps/indexer.go does), which its first
    argument stands for; [sort] is [sort.Sort(ByKey(...))]. *)

From stdpp Require Import pretty.
From S2P Require Import Prelude GoStrings Util MapReduce MapReduceProps.
From Stdlib Require Import Ascii.

#[global] Open Scope Z_scope.

(** ** Names *)

(** ["mr-%v-%v"] and ["mr-out-%v"] *)
Definition intermediate_name (m r : Z) : string := "mr-" +:+ Itoa m +:+ "-" +:+ Itoa r.
Definition out_name (r : Z) : string := "mr-out-" +:+ Itoa r.

(** The pattern ["mr-*-%v"] of [filepath.Glob], whose star does not match a slash *)
Definition glob_match (r : Z) (file : string) : bool :=
  let suffix := "-" +:+ Itoa r in
  let k := (String.length file - String.length suffix)%nat in
  (3 + String.length suffix <=? String.length file)%nat
  && bool_decide (String.substring 0 3 file = "mr-")
  && bool_decide (String.substring k (String.length suffix) file = suffix)
  && negb (has_char "/" (String.substring 3 (k - 3) file)).

(** [fmt.Fprintf(ofile, "%v %v\n", key, output)] for every group *)
Definition newline : string := String (ascii_of_nat 10) EmptyString.
Definition out_line (p : string * string) : string := p.1 +:+ " " +:+ p.2 +:+ newline.
Definition out_text (ps : list (string * string)) : string := lines (out_line <$> ps).

Section job.
Context `{!JSON} {O : Type}.
Context (mapf : O → string → string → list KeyValue).
Context (reducef : string → list string → string).
Context (sort : list KeyValue → list KeyValue).
Context (input : string → option string).

(** ** Workers *)

(** The places of [Worker]: before [getTask]; a map task with its file name and
    number of reduce tasks; [writeIntermediateFile] with its temporary files, of
    which some are renamed; a reduce task; its files, to be read and read; its output,
    to be renamed; before [reportTaskDone]; gone. *)
Inductive WPC :=
  | WLoop
  | WMap (m : Z) (file : string) (n : Z)
  | WRename (m : Z) (texts : list string) (k : nat)
  | WReduce (r : Z)
  | WRead (r : Z) (names : list string) (kva : list KeyValue)
  | WWrite (r : Z) (text : string)
  | WReport (t : TaskType) (id : Z)
  | WStopped.

Record Job := MkJob { coord : Coordinator; fs : gmap string string; workers : gmap Z WPC }.

Implicit Types (j : Job).

Definition set_worker j (pid : Z) (p : WPC) : Job := MkJob (coord j) (fs j) (<[pid := p]> (workers j)).
Definition set_coord j (c : Coordinator) : Job := MkJob c (fs j) (workers j).
Definition write_file j (file text : string) : Job := MkJob (coord j) (<[file := text]> (fs j)) (workers j).

(** What the worker does with the answer of [getTask] *)
Definition take_task (rep : GetTaskReply) : WPC :=
  match gt_TaskType rep with
  | MapTask => WMap (gt_TaskId rep) (gt_FileName rep) (gt_NReduce rep)
  | ReduceTask => WReduce (gt_TaskId rep)
  | NoIdle => WLoop
  | Exit => WStopped
  end.

(** [_mapf] and the first half of [writeIntermediateFile]: the temporary files.  The
    process ends when the input cannot be read or an index is out of range. *)
Definition map_task (o : O) (m : Z) (file : string) (n : Z) : WPC :=
  match input file with
  | Some content =>
    match writeIntermediateFile (mapf o file content) n with
    | Some texts => WRename m texts 0
    | None => WStopped
    end
  | None => WStopped
  end.

(** [filepath.Glob] *)
Definition Glob (files : gmap string string) (r : Z) : list string :=
  merge_sort String.le (filter (λ file, glob_match r file = true) (map_to_list files).*1).

(** [_reducef] after the files are read *)
Definition reduce_output (kva : list KeyValue) : option string :=
  ps ← reduce_pairs sort reducef kva;
  Some (out_text ps).

Inductive JAction :=
  | JStart (pid : Z)
  | JStop (pid : Z)                 (* the process ends, at any place *)
  | JGet (pid : Z)                  (* [getTask] *)
  | JMap (pid : Z) (o : O)          (* [_mapf] up to the renames *)
  | JRename (pid : Z)               (* one [os.Rename], or the end of the loop *)
  | JGlob (pid : Z)
  | JRead (pid : Z)                 (* one file, or the sort and the output *)
  | JOut (pid : Z)                  (* [os.Rename] of the output *)
  | JReport (pid : Z) (arrives : bool) (* [reportTaskDone] *)
  | JTimer (k : nat).

Definition job_exec (act : JAction) j : option Job :=
  match act with
  | JStart pid => match workers j !! pid with None => Some (set_worker j pid WLoop) | Some _ => None end
  | JStop pid => match workers j !! pid with Some _ => Some (set_worker j pid WStopped) | None => None end
  | JGet pid =>
    match workers j !! pid with
    | Some WLoop =>
      let '(c, rep) := GetTask (coord j) pid in
      Some (set_worker (set_coord j c) pid (take_task rep))
    | _ => None
    end
  | JMap pid o =>
    match workers j !! pid with
    | Some (WMap m file n) => Some (set_worker j pid (map_task o m file n))
    | _ => None
    end
  | JRename pid =>
    match workers j !! pid with
    | Some (WRename m texts k) =>
      match texts !! k with
      | Some text => Some (set_worker (write_file j (intermediate_name m (Z.of_nat k)) text) pid (WRename m texts (S k)))
      | None => Some (set_worker j pid (WReport MapTask m))
      end
    | _ => None
    end
  | JGlob pid =>
    match workers j !! pid with
    | Some (WReduce r) => Some (set_worker j pid (WRead r (Glob (fs j) r) []))
    | _ => None
    end
  | JRead pid =>
    match workers j !! pid with
    | Some (WRead r (file :: names) kva) =>
      match fs j !! file with
      | Some text => Some (set_worker j pid (WRead r names (kva ++ json_pairs text)))
      | None => Some (set_worker j pid WStopped)
      end
    | Some (WRead r [] kva) =>
      text ← reduce_output kva;
      Some (set_worker j pid (WWrite r text))
    | _ => None
    end
  | JOut pid =>
    match workers j !! pid with
    | Some (WWrite r text) => Some (set_worker (write_file j (out_name r) text) pid (WReport ReduceTask r))
    | _ => None
    end
  | JReport pid arrives =>
    match workers j !! pid with
    | Some (WReport t id) =>
      c ← (if arrives then ReportTaskDone (coord j) t id else Some (coord j));
      Some (set_worker (set_coord j c) pid WLoop)
    | _ => None
    end
  | JTimer k => c ← mr_exec (MTimer k) (coord j); Some (set_coord j c)
  end.

Definition start_job (files : list string) (nReduce : nat) : Job :=
  MkJob (MakeCoordinator files nReduce) ∅ ∅.

(** ** main/mrsequential.go *)

Fixpoint read_inputs (o : O) (files : list string) : option (list KeyValue) :=
  match files with
  | [] => Some []
  | file :: files =>
    content ← input file;
    rest ← read_inputs o files;
    Some (mapf o file content ++ rest)
  end.

(** The lines of [mr-out-0], as pairs *)
Definition mrsequential (o : O) (files : list string) : option (list (string * string)) :=
  intermediate ← read_inputs o files;
  reduce_pairs sort reducef intermediate.
End job.
