(* ===== verification/MapReduceJobProps.v ===== *)
(** * A MapReduce job computes what the sequential program computes

    The files of a job at every moment, through deaths of workers and repeated
    tasks, and the result when the coordinator is done. *)

From stdpp Require Import pretty.
From S2P Require Import Prelude GoStrings Util MapReduce MapReduceProps MapReduceJob.
From Stdlib Require Import Ascii.

#[global] Open Scope Z_scope.

(** ** File names *)

Definition job_name (mid : string) (r : Z) : string := ("mr-" +:+ mid) +:+ String "-" (Itoa r).

Lemma intermediate_job_name m r : intermediate_name m r = job_name (Itoa m) r.
Proof. unfold intermediate_name, job_name. by rewrite append_assoc. Qed.

Lemma out_job_name r : out_name r = job_name "out" r.
Proof. reflexivity. Qed.

Lemma job_name_inj mid r mid' r' : 0 <= r → 0 <= r' → job_name mid r = job_name mid' r' → mid = mid' ∧ r = r'.
Proof.
  intros Hr Hr' E. apply last_char_unique in E as [E1 E2]; try by apply Itoa_no_dash.
  split; [by simplify_eq|by apply Itoa_inj].
Qed.

Lemma intermediate_name_inj m r m' r' : 0 <= r → 0 <= r' →
  intermediate_name m r = intermediate_name m' r' → m = m' ∧ r = r'.
Proof.
  rewrite !intermediate_job_name. intros Hr Hr' E. apply job_name_inj in E as [E ->]; try done.
  split; [by apply Itoa_inj|done].
Qed.

Lemma out_name_inj r r' : 0 <= r → 0 <= r' → out_name r = out_name r' → r = r'.
Proof. intros Hr Hr' E. by apply (job_name_inj "out" r "out" r') in E as [_ ->]. Qed.

Lemma intermediate_not_out m r r' : 0 <= m → 0 <= r → 0 <= r' → intermediate_name m r ≠ out_name r'.
Proof.
  rewrite intermediate_job_name, out_job_name. intros Hm Hr Hr' E. apply job_name_inj in E as [E _]; try done.
  pose proof (Itoa_digits m Hm) as Hd. by rewrite E in Hd.
Qed.

(** The pattern matches the names with its number. *)
Lemma glob_match_name mid r r' : has_char "/" mid = false → 0 <= r → 0 <= r' →
  glob_match r (job_name mid r') = true ↔ r = r'.
Proof.
  intros Hmid Hr Hr'. unfold glob_match. rewrite dash_cons. set (suf := String "-" (Itoa r)). split.
  - rewrite !andb_true_iff, !bool_decide_eq_true, Nat.leb_le. intros [[[Hl _] Es] _].
    set (k := (String.length (job_name mid r') - String.length suf)%nat) in *.
    assert (job_name mid r' = String.substring 0 k (job_name mid r') +:+ suf) as E2.
    { rewrite <- Es. rewrite (substring_split (job_name mid r') k) at 1 by lia. do 2 f_equal. lia. }
    unfold job_name in E2 at 1. unfold suf in E2.
    apply last_char_unique in E2 as [_ E2]; try by apply Itoa_no_dash. symmetry. by apply Itoa_inj.
  - intros <-. unfold job_name. fold suf.
    rewrite !string_length_app. change (String.length "mr-") with 3%nat.
    replace (3 + String.length mid + String.length suf - String.length suf)%nat with (3 + String.length mid)%nat by lia.
    replace (3 + String.length mid - 3)%nat with (String.length mid) by lia.
    rewrite !andb_true_iff, negb_true_iff, !bool_decide_eq_true, Nat.leb_le. split_and!; [lia| | |].
    + by rewrite append_assoc, (substring_app "mr-").
    + replace (3 + String.length mid)%nat with (String.length ("mr-" +:+ mid)) by by rewrite string_length_app.
      by rewrite substring_skip, substring_all.
    + change 3%nat with (String.length "mr-"). by rewrite append_assoc, substring_skip, substring_app.
Qed.

(** ** The reduction depends on the multiset of pairs only *)

Section reduce.
Context (reducef : string → list string → string).
Context (sort : list KeyValue → list KeyValue).
Context (sort_perm : ∀ l, sort l ≡ₚ l) (sort_sorted : ∀ l, StronglySorted key_le (sort l)).
Context (reduce_perm : ∀ k vs vs', vs ≡ₚ vs' → reducef k vs = reducef k vs').

Lemma reduce_runs_keys fuel kva groups k :
  StronglySorted key_le kva → reduce_runs fuel kva = Some groups → k ∈ groups.*1 → k ∈ Key <$> kva.
Proof.
  revert kva groups. induction fuel as [|fuel IH]; intros [|y kva] groups Hs E Hk; cbn in E;
    simplify_eq; try by apply elem_of_nil in Hk.
  apply StronglySorted_cons in Hs as [Hall Hs]. pose proof (take_run_spec (Key y) kva Hs Hall) as Hr.
  destruct (take_run (Key y) kva) as [vs rest]. destruct Hr as (_ & Hsr & _ & _ & _ & _ & Hin).
  apply bind_Some in E as (groups' & E & [= <-]). cbn in Hk. apply elem_of_cons in Hk as [->|Hk]; [by left|right].
  pose proof (IH _ _ Hsr E Hk) as (z & -> & Hz)%list_elem_of_fmap. apply list_elem_of_fmap. eauto.
Qed.

Lemma reduce_runs_sorted fuel kva groups :
  StronglySorted key_le kva → reduce_runs fuel kva = Some groups → StronglySorted String.le groups.*1.
Proof.
  revert kva groups. induction fuel as [|fuel IH]; intros [|kv kva] groups Hs E; cbn in E; simplify_eq; try constructor.
  apply StronglySorted_cons in Hs as [Hall Hs]. pose proof (take_run_spec (Key kv) kva Hs Hall) as Hr.
  destruct (take_run (Key kv) kva) as [vs rest]. destruct Hr as (_ & Hsr & Hl & _ & _ & _ & Hin).
  apply bind_Some in E as (groups' & E & [= <-]). cbn. apply StronglySorted_cons. split; [|by eapply IH].
  apply Forall_forall. intros k Hk.
  pose proof (reduce_runs_keys _ _ _ _ Hsr E Hk) as (x & -> & Hx)%list_elem_of_fmap.
  rewrite Forall_forall in Hall. apply Is_true_true. by apply Hall, Hin.
Qed.

(** The reduction in closed form: the keys in order, each with the reduction of its values *)
Lemma reduce_pairs_spec kva :
  ∃ keys, reduce_pairs sort reducef kva = Some ((λ k, (k, reducef k (values_of k kva))) <$> keys)
    ∧ NoDup keys ∧ StronglySorted String.le keys ∧ ∀ k, k ∈ keys ↔ k ∈ Key <$> kva.
Proof.
  unfold reduce_pairs. pose proof (sort_sorted kva) as Hs. pose proof (sort_perm kva) as Hp.
  destruct (reduce_runs_spec (length (sort kva)) (sort kva) Hs ltac:(lia)) as (groups & Er & Hnd & Hg & Hcov).
  rewrite Er. cbn. exists groups.*1. split_and!; [|done|by eapply reduce_runs_sorted|].
  - f_equal. rewrite <- list_fmap_compose. apply list_fmap_ext. intros i [k vs] Hi. cbn. f_equal.
    apply list_elem_of_lookup_2, Hg in Hi as [-> _]. by apply reduce_perm, values_of_perm.
  - intros k. assert (k ∈ Key <$> kva ↔ k ∈ Key <$> sort kva) as -> by by rewrite Hp. split.
    + by eapply reduce_runs_keys.
    + intros (x & -> & Hx)%list_elem_of_fmap. by apply Hcov.
Qed.

Lemma keys_unique keys keys' : NoDup keys → NoDup keys' → StronglySorted String.le keys → StronglySorted String.le keys' →
  (∀ k : string, k ∈ keys ↔ k ∈ keys') → keys = keys'.
Proof.
  intros. apply (StronglySorted_unique String.le); [done|done|]. by apply NoDup_Permutation.
Qed.

Lemma reduce_pairs_perm kva kva' : kva ≡ₚ kva' → reduce_pairs sort reducef kva = reduce_pairs sort reducef kva'.
Proof.
  intros Hp. destruct (reduce_pairs_spec kva) as (keys & -> & Hn & Hs & Hk).
  destruct (reduce_pairs_spec kva') as (keys' & -> & Hn' & Hs' & Hk').
  rewrite (keys_unique keys' keys); try done.
  - f_equal. apply list_fmap_ext. intros. f_equal. by apply reduce_perm, values_of_perm.
  - intros k. rewrite Hk, Hk'. by rewrite Hp.
Qed.
End reduce.

(** ** The state of the coordinator's tasks *)

Section tasks.
Context (files : list string) (n : nat).
Implicit Types (c : Coordinator) (t : TaskType) (k : nat).

Definition st c t k : option TaskState := taskState <$> tasksOf c t !! k.

(** The tasks are those that [MakeCoordinator] made, whatever their state. *)
Record shape c : Prop := Shape {
  ck_n : nReduce c = Z.of_nat n;
  ck_map k task : mapTasks c !! k = Some task → taskType task = MapTask ∧ taskId task = Z.of_nat k ∧ files !! k = Some (fileName task);
  ck_reduce k task : reduceTasks c !! k = Some task → taskType task = ReduceTask ∧ taskId task = Z.of_nat k ∧ (k < n)%nat;
  ck_maps : length (mapTasks c) = length files;
  ck_reduces : length (reduceTasks c) = n;
}.

Definition coord_ok c : Prop := coord_inv c ∧ shape c.

Definition in_progress c t (id : Z) : Prop := 0 <= id ∧ st c t (Z.to_nat id) = Some InProgress.

(** One task changes its state. *)
Definition changes c c' t k (s : TaskState) : Prop :=
  ∀ t' k', st c' t' k' = if decide ((t', k') = (t, k)) then Some s else st c t' k'.

Lemma st_types c t k s : st c t k = Some s → t = MapTask ∨ t = ReduceTask.
Proof. unfold st. intros (task & Hk & _)%fmap_Some. by eapply tasksOf_cases. Qed.

Lemma setTask_changes c t k task s w : tasksOf c t !! k = Some task → changes c (setTask c t k (setState task s w)) t k s.
Proof.
  intros Hk t' k'. pose proof (tasksOf_cases _ _ _ _ Hk) as Ht. unfold st. rewrite tasksOf_setTask by done.
  destruct (decide (t = t')) as [<-|Hne].
  - destruct (decide (k = k')) as [<-|Hnk].
    + rewrite decide_True, list_lookup_insert_eq by (done || by eapply lookup_lt_Some). done.
    + by rewrite decide_False, list_lookup_insert_ne by congruence.
  - by rewrite decide_False by congruence.
Qed.

Lemma shape_setTask c t k task s w : shape c → tasksOf c t !! k = Some task → shape (setTask c t k (setState task s w)).
Proof.
  intros [Hn Hm Hr Hml Hrl] Hk. split; [by destruct t|..].
  - intros k' task'. destruct t; try apply Hm. cbn in *.
    intros [(<- & <- & _)|[_ H]]%list_lookup_insert_Some; [exact (Hm k task Hk)|by apply Hm].
  - intros k' task'. destruct t; try apply Hr. cbn in *.
    intros [(<- & <- & _)|[_ H]]%list_lookup_insert_Some; [exact (Hr k task Hk)|by apply Hr].
  - destruct t; try done. cbn. by rewrite length_insert.
  - destruct t; try done. cbn. by rewrite length_insert.
Qed.

Lemma shape_setWaiting c ws : shape c → shape (setWaiting c ws).
Proof. intros [? ? ? ? ?]. by split. Qed.

Lemma shape_decRemain c t : shape c → shape (decRemain c t).
Proof. intros [? ? ? ? ?]. by split; destruct t. Qed.

Lemma st_setWaiting c ws t k : st (setWaiting c ws) t k = st c t k.
Proof. by destruct t. Qed.

Lemma st_decRemain c t' t k : st (decRemain c t') t k = st c t k.
Proof. by destruct t', t. Qed.

(** What [GetTask] does: nothing, or it hands out an idle task. *)
Lemma GetTask_effect c pid : coord_ok c → let '(c', rep) := GetTask c pid in
  coord_ok c'
  ∧ ((c' = c ∧ (gt_TaskType rep = NoIdle ∨ gt_TaskType rep = Exit))
     ∨ ∃ t k, st c t k = Some Idle ∧ changes c c' t k InProgress
         ∧ gt_TaskType rep = t ∧ gt_TaskId rep = Z.of_nat k ∧ gt_NReduce rep = Z.of_nat n
         ∧ (t = MapTask → files !! k = Some (gt_FileName rep))).
Proof.
  intros [Hi Hsh]. pose proof (inv_GetTask c pid Hi) as Hinv.
  assert (∀ t, t = MapTask ∨ t = ReduceTask → ∀ k task, chooseTask (tasksOf c t) = Some (k, task) →
    let c1 := setTask c t k (setState task InProgress pid) in let c' := setWaiting c1 ((t, k) :: waiting c1) in
    shape c' ∧ st c t k = Some Idle ∧ changes c c' t k InProgress
      ∧ taskType task = t ∧ taskId task = Z.of_nat k ∧ nReduce c' = Z.of_nat n ∧ (t = MapTask → files !! k = Some (fileName task))) as Hgive.
  { intros t Ht k task (Hk & Hidle & _)%list_find_Some c1 c'.
    assert (shape c') as Hsh' by by apply shape_setWaiting, shape_setTask.
    split_and!; [done| | | | |apply Hsh'|].
    - unfold st. rewrite Hk. cbn. by f_equal.
    - intros t' k'. unfold c'. rewrite st_setWaiting. by apply setTask_changes.
    - destruct Ht as [-> | ->]; [by apply (ck_map _ Hsh k)|by apply (ck_reduce _ Hsh k)].
    - destruct Ht as [-> | ->]; [by apply (ck_map _ Hsh k)|by apply (ck_reduce _ Hsh k)].
    - intros ->. by apply (ck_map _ Hsh k). }
  unfold GetTask in *. destruct (phase c) eqn:Ep; try (by split; [|left; auto]).
  - destruct (chooseTask _) as [[k task]|] eqn:Ek; [|by split; [|left; auto]].
    destruct (Hgive MapTask ltac:(by left) k task Ek) as (? & H2). split; [done|]. right. exists MapTask, k. exact H2.
  - destruct (chooseTask _) as [[k task]|] eqn:Ek; [|by split; [|left; auto]].
    destruct (Hgive ReduceTask ltac:(by right) k task Ek) as (? & H2). split; [done|]. right. exists ReduceTask, k. exact H2.
Qed.

Lemma Report_effect c t id c' : coord_ok c → in_progress c t id → ReportTaskDone c t id = Some c' →
  coord_ok c' ∧ changes c c' t (Z.to_nat id) Completed.
Proof.
  intros [Hi Hsh] [Hid Hst] Hr. unfold st in Hst. apply fmap_Some in Hst as (task & Hk & Hs).
  unfold ReportTaskDone in Hr. assert (go_index (tasksOf c t) id = Some task) as E by by apply go_index_lookup.
  rewrite E in Hr. cbn in Hr. rewrite decide_True in Hr by done. injection Hr as <-.
  split; [split; [by apply inv_complete|by apply shape_decRemain, shape_setTask]|].
  intros t' k'. rewrite st_decRemain. by apply setTask_changes.
Qed.

Lemma Timer_effect c k c' : coord_ok c → mr_exec (MTimer k) c = Some c' →
  ∃ t i, waiting c !! k = Some (t, i) ∧ coord_ok c' ∧
    ((∀ t' k', st c' t' k' = st c t' k') ∨ st c t i ≠ Some Completed ∧ changes c c' t i Idle).
Proof.
  intros [Hi Hsh] He. pose proof (mr_inv_exec (MTimer k) c c' Hi I He) as Hi'. cbn in He.
  apply bind_Some in He as ([t i] & Hw & He). exists t, i. split; [done|]. unfold waitTaskDone in He.
  apply bind_Some in He as (task & Hk & He). case_decide as Hd; injection He as <-.
  - split; [split; [done|by apply shape_setWaiting]|]. left. intros. apply st_setWaiting.
  - split; [split; [done|by apply shape_setTask; [apply shape_setWaiting|]]|]. right.
    assert (tasksOf c t !! i = Some task) as Hk' by by destruct t. split.
    + unfold st. rewrite Hk'. cbn. congruence.
    + intros t' k'. rewrite (setTask_changes _ _ _ _ _ _ Hk). by rewrite st_setWaiting.
Qed.

(** A reduce task is in progress only when all map tasks are completed. *)
Lemma reduce_phase c r m : coord_ok c → in_progress c ReduceTask r → (m < length files)%nat → st c MapTask m = Some Completed.
Proof.
  intros [Hi Hsh] [_ Hr] Hm. unfold st in Hr. apply fmap_Some in Hr as (task & Hk & Hs).
  assert (remainMap c = 0) as H0.
  { apply (co_phase _ Hi), Exists_exists. exists task. split; [by eapply list_elem_of_lookup_2|congruence]. }
  assert (remainOf c MapTask <= 0) as H1 by (cbn; lia). apply (remain_zero c MapTask Hi ltac:(by left)) in H1.
  rewrite <- (ck_maps _ Hsh) in Hm. apply lookup_lt_is_Some in Hm as [task' Hm]. unfold st. cbn. rewrite Hm. cbn. f_equal.
  rewrite Forall_forall in H1. apply H1. by eapply list_elem_of_lookup_2.
Qed.
End tasks.

(** ** The job *)

Section job.
Context `{!JSON, !JSONLaws} {O : Type}.
Context (mapf : O → string → string → list KeyValue) (o0 : O).
Context (reducef : string → list string → string).
Context (sort : list KeyValue → list KeyValue).
Context (input : string → option string).
Context (files : list string) (n : nat).
(** The map function returns the same pairs in any order, sorting sorts, and
    the reduce function does not depend on the order of the values. *)
Context (map_perm : ∀ o f c, mapf o f c ≡ₚ mapf o0 f c).
Context (sort_perm : ∀ l, sort l ≡ₚ l) (sort_sorted : ∀ l, StronglySorted key_le (sort l)).
Context (reduce_perm : ∀ k vs vs', vs ≡ₚ vs' → reducef k vs = reducef k vs').
Context (n_pos : (0 < n)%nat).

Implicit Types (j : Job) (m r : nat).

(** *** What the files should hold *)

(** The pairs of map task [m], and those for reduce task [r] of all map tasks *)
Definition map_pairs m : list KeyValue :=
  match files !! m with
  | Some file => match input file with Some content => mapf o0 file content | None => [] end
  | None => []
  end.
(** What the map tasks emit for the input files is valid UTF-8. *)
Context (emit_valid : ∀ m kv, kv ∈ map_pairs m → valid_pair kv = true).

Definition part m r : list KeyValue := partition_of (Z.of_nat n) (Z.of_nat r) (map_pairs m).
Definition all_parts r : list KeyValue := concat ((λ m, part m r) <$> seq 0 (length files)).

(** The output file of reduce task [r] *)
Definition ref_pairs r : list (string * string) := default [] (reduce_pairs sort reducef (all_parts r)).
Definition ref_text r : string := out_text (ref_pairs r).

(** Reading an output file, whose name the pattern of [Glob] matches too, yields nothing. *)
Context (out_not_json : ∀ r, (r < n)%nat → json_pairs (ref_text r) = []).

Definition iname m r : string := intermediate_name (Z.of_nat m) (Z.of_nat r).
Definition oname r : string := out_name (Z.of_nat r).

Definition good_file (name text : string) : Prop :=
  (∃ m r, (m < length files)%nat ∧ (r < n)%nat ∧ name = iname m r ∧ json_pairs text ≡ₚ part m r)
  ∨ ∃ r, (r < n)%nat ∧ name = oname r ∧ text = ref_text r.

(** *** Workers *)

(** The task a worker works on *)
Definition holds (p : WPC) : option (TaskType * Z) :=
  match p with
  | WMap m _ _ | WRename m _ _ => Some (MapTask, m)
  | WReduce r | WRead r _ _ | WWrite r _ => Some (ReduceTask, r)
  | WReport t id => Some (t, id)
  | WLoop | WStopped => None
  end.

Definition pairs_in (fs : gmap string string) (name : string) : list KeyValue :=
  match fs !! name with Some text => json_pairs text | None => [] end.

Definition written (fs : gmap string string) (m k : nat) : Prop := ∀ r, (r < k)%nat → (r < n)%nat → is_Some (fs !! iname m r).

Definition worker_ok (fs : gmap string string) (p : WPC) : Prop :=
  match p with
  | WMap m file k => k = Z.of_nat n ∧ files !! Z.to_nat m = Some file
  | WRename m texts k => length texts = n ∧ written fs (Z.to_nat m) k
      ∧ ∀ r text, texts !! r = Some text → json_pairs text ≡ₚ part (Z.to_nat m) r
  | WRead r names kva => (∀ name, name ∈ names → is_Some (fs !! name))
      ∧ kva ++ concat (pairs_in fs <$> names) ≡ₚ all_parts (Z.to_nat r)
  | WWrite r text => text = ref_text (Z.to_nat r)
  | WReport MapTask m => written fs (Z.to_nat m) n
  | WReport _ r => is_Some (fs !! oname (Z.to_nat r))
  | WLoop | WReduce _ | WStopped => True
  end.

Record job_inv j : Prop := JobInv {
  ji_coord : coord_ok files n (coord j);
  ji_holds pid p t id : workers j !! pid = Some p → holds p = Some (t, id) → in_progress (coord j) t id;
  ji_unique pid pid' p p' h : workers j !! pid = Some p → workers j !! pid' = Some p' →
    holds p = Some h → holds p' = Some h → pid = pid';
  ji_worker pid p : workers j !! pid = Some p → worker_ok (fs j) p;
  ji_fs name text : fs j !! name = Some text → good_file name text;
  ji_maps m : st (coord j) MapTask m = Some Completed → written (fs j) m n;
  ji_reduces r : st (coord j) ReduceTask r = Some Completed → is_Some (fs j !! oname r);
}.

(** A worker moves on. *)
Lemma inv_worker j pid p : job_inv j → worker_ok (fs j) p →
  (∀ t id, holds p = Some (t, id) → in_progress (coord j) t id
     ∧ ∀ pid' p', pid' ≠ pid → workers j !! pid' = Some p' → holds p' ≠ Some (t, id)) →
  job_inv (set_worker j pid p).
Proof.
  intros [Hc Hh Hu Hw Hf Hm Hr] Hok Hp. split; try done; cbn.
  - intros pid' p' t id [[<- <-]|[Hne Hp']]%lookup_insert_Some; [by apply Hp|by apply (Hh pid' p')].
  - intros pid1 pid2 p1 p2 [t id] [[<- <-]|[Hne1 H1]]%lookup_insert_Some [[<- <-]|[Hne2 H2]]%lookup_insert_Some Ho1 Ho2; try done.
    + by destruct (proj2 (Hp _ _ Ho1) pid2 p2 (not_eq_sym Hne2) H2).
    + by destruct (proj2 (Hp _ _ Ho2) pid1 p1 (not_eq_sym Hne1) H1).
    + by eapply Hu.
  - intros pid' p' [[<- <-]|[_ Hp']]%lookup_insert_Some; [done|by apply (Hw pid')].
Qed.

(** A worker goes on with its task, or gives it up. *)
Lemma inv_worker_same j pid p p' : job_inv j → workers j !! pid = Some p → worker_ok (fs j) p' →
  (holds p' = holds p ∨ holds p' = None) → job_inv (set_worker j pid p').
Proof.
  intros Hj Hp Hok Hh. apply inv_worker; [done|done|]. intros t id E.
  destruct Hh as [Hh|Hh]; rewrite Hh in E; [|done]. split; [by eapply ji_holds|].
  intros pid' p1 Hne H1 E1. apply Hne. by eapply (ji_unique _ Hj pid' pid p1 p).
Qed.

(** Files stay, and a file that is written twice is written with the same pairs. *)
Lemma written_insert fs0 name text m k : written fs0 m k → written (<[name := text]> fs0) m k.
Proof. intros Hw r ? ?. apply lookup_insert_is_Some'. right. by apply Hw. Qed.

Lemma good_out r text : good_file (oname r) text → text = ref_text r.
Proof.
  intros [(m & r' & _ & _ & E & _)|(r' & _ & E & ->)].
  - symmetry in E. by apply intermediate_not_out in E; [|lia..].
  - by apply out_name_inj in E as ->%Nat2Z.inj; [|lia..].
Qed.

Lemma worker_ok_insert fs0 p name text :
  (∀ name text, fs0 !! name = Some text → good_file name text) →
  (∀ id names kva, p = WRead id names kva → ∃ r', name = oname r' ∧ text = ref_text r') →
  worker_ok fs0 p → worker_ok (<[name := text]> fs0) p.
Proof.
  intros Hgood Hread. destruct p as [| |m texts k| |r names kva| |[] id|]; cbn; try done.
  - intros (? & ? & ?). split_and!; try done. by apply written_insert.
  - intros [Hex Hp]. split; [intros x Hx; apply lookup_insert_is_Some'; right; by apply Hex|].
    destruct (Hread _ _ _ eq_refl) as (r' & -> & ->).
    assert (pairs_in (<[oname r' := ref_text r']> fs0) <$> names = pairs_in fs0 <$> names) as ->; [|done].
    apply list_fmap_ext. intros i x Hx%list_elem_of_lookup_2. unfold pairs_in.
    destruct (decide (oname r' = x)) as [<-|Hne]; [|by rewrite lookup_insert_ne].
    rewrite lookup_insert_eq. destruct (Hex _ Hx) as [t Ht]. rewrite Ht. by apply Hgood, good_out in Ht as ->.
  - by apply written_insert.
  - intros. apply lookup_insert_is_Some'. by right.
  - intros. apply lookup_insert_is_Some'. by right.
  - intros. apply lookup_insert_is_Some'. by right.
Qed.

(** A good file is written: an output, or a map output in the map phase. *)
Lemma inv_write j name text : job_inv j → good_file name text →
  ((∃ r', name = oname r' ∧ text = ref_text r') ∨ ∀ id, ¬ in_progress (coord j) ReduceTask id) →
  job_inv (write_file j name text).
Proof.
  intros [Hc Hh Hu Hw Hf Hm Hr] Hg Hcase. split; try done; cbn.
  - intros pid p Hp. apply worker_ok_insert; [done| |by eapply Hw]. intros id names kva ->.
    destruct Hcase as [?|Hno]; [done|]. by destruct (Hno id (Hh _ _ ReduceTask id Hp eq_refl)).
  - intros x t [[<- <-]|[_ Hx]]%lookup_insert_Some; [done|by apply Hf].
  - intros m Hs. by apply written_insert, Hm.
  - intros r Hs. apply lookup_insert_is_Some'. right. by apply Hr.
Qed.

(** *** Reading all files of a reduce task *)

Lemma Glob_names fs0 r : (∀ name text, fs0 !! name = Some text → good_file name text) →
  (∀ m, (m < length files)%nat → written fs0 m n) → (r < n)%nat →
  Glob fs0 (Z.of_nat r) ≡ₚ ((λ m, iname m r) <$> seq 0 (length files)) ++ (if decide (is_Some (fs0 !! oname r)) then [oname r] else []).
Proof.
  intros Hgood Hwr Hr. unfold Glob. rewrite merge_sort_Permutation. apply NoDup_Permutation.
  - apply NoDup_filter, NoDup_fst_map_to_list.
  - apply NoDup_app. split_and!.
    + apply NoDup_fmap_2_strong; [|apply NoDup_seq]. intros m m' _ _ E.
      by apply intermediate_name_inj in E as [->%Nat2Z.inj _]; [|lia..].
    + intros x (m & -> & _)%list_elem_of_fmap. case_decide; [|by apply not_elem_of_nil].
      rewrite list_elem_of_singleton. apply intermediate_not_out; lia.
    + case_decide; [apply NoDup_singleton|apply NoDup_nil_2].
  - intros x. rewrite list_elem_of_filter, elem_of_app.
    assert (x ∈ (map_to_list fs0).*1 ↔ is_Some (fs0 !! x)) as ->.
    { rewrite list_elem_of_fmap. split.
      - intros ([y t] & -> & Hy%elem_of_map_to_list). by exists t.
      - intros [t Ht]. exists (x, t). split; [done|]. by apply elem_of_map_to_list. }
    rewrite list_elem_of_fmap. split.
    + intros [Hmatch [t Ht]]. destruct (Hgood _ _ Ht) as [(m & r' & Hm & Hr' & -> & _)|(r' & Hr' & -> & ->)].
      * left. unfold iname in Hmatch. rewrite intermediate_job_name in Hmatch.
        apply glob_match_name in Hmatch as <-%Nat2Z.inj; [|apply digits_no_slash, Itoa_digits; lia|lia..].
        exists m. split; [done|]. apply elem_of_seq. lia.
      * right. unfold oname in Hmatch. rewrite out_job_name in Hmatch.
        apply glob_match_name in Hmatch as <-%Nat2Z.inj; [|done|lia..].
        rewrite decide_True by eauto. by apply list_elem_of_singleton.
    + intros [(m & -> & [_ Hm]%elem_of_seq)|Hx].
      * split; [|apply Hwr; lia]. unfold iname. rewrite intermediate_job_name.
        apply glob_match_name; [apply digits_no_slash, Itoa_digits; lia|lia..|done].
      * case_decide; [|by apply elem_of_nil in Hx]. apply list_elem_of_singleton in Hx as ->. split; [|done].
        unfold oname. rewrite out_job_name. apply glob_match_name; [done|lia..|done].
Qed.

Lemma pairs_in_iname fs0 m r : (∀ name text, fs0 !! name = Some text → good_file name text) →
  (m < length files)%nat → (r < n)%nat → is_Some (fs0 !! iname m r) → pairs_in fs0 (iname m r) ≡ₚ part m r.
Proof.
  intros Hgood Hm Hr [t Ht]. unfold pairs_in. rewrite Ht.
  destruct (Hgood _ _ Ht) as [(m' & r' & _ & _ & E & Hp)|(r' & _ & E & _)].
  - by apply intermediate_name_inj in E as [->%Nat2Z.inj ->%Nat2Z.inj]; [|lia..].
  - by apply intermediate_not_out in E; [|lia..].
Qed.

Lemma Glob_pairs fs0 r : (∀ name text, fs0 !! name = Some text → good_file name text) →
  (∀ m, (m < length files)%nat → written fs0 m n) → (r < n)%nat →
  concat (pairs_in fs0 <$> Glob fs0 (Z.of_nat r)) ≡ₚ all_parts r.
Proof.
  intros Hgood Hwr Hr. rewrite (Glob_names fs0 r Hgood Hwr Hr). rewrite fmap_app, concat_app.
  assert (concat (pairs_in fs0 <$> (if decide (is_Some (fs0 !! oname r)) then [oname r] else [])) = []) as ->.
  { case_decide as Hd; [|done]. cbn. destruct Hd as [t Ht]. unfold pairs_in. rewrite Ht, app_nil_r.
    apply Hgood, good_out in Ht as ->. by apply out_not_json. }
  rewrite app_nil_r. unfold all_parts. rewrite <- list_fmap_compose.
  assert (∀ ms, Forall (λ m, (m < length files)%nat) ms →
    concat ((pairs_in fs0 ∘ λ m, iname m r) <$> ms) ≡ₚ concat ((λ m, part m r) <$> ms)) as Hms.
  { induction 1 as [|m ms Hm _ IH]; cbn; [done|]. rewrite IH. rewrite pairs_in_iname; try done. by apply Hwr. }
  apply Hms, Forall_forall. intros m [_ Hm]%elem_of_seq. lia.
Qed.

(** *** Preservation *)

Definition held j t (k : nat) : Prop := ∃ pid p, workers j !! pid = Some p ∧ holds p = Some (t, Z.of_nat k).

(** The coordinator changes a task that no worker holds. *)
Lemma inv_coord j c' t k s : job_inv j → coord_ok files n c' → changes (coord j) c' t k s → ¬ held j t k →
  (s = Completed → (t = MapTask → written (fs j) k n) ∧ (t = ReduceTask → is_Some (fs j !! oname k))) →
  job_inv (set_coord j c').
Proof.
  intros [Hc Hh Hu Hw Hf Hm Hr] Hc' Hch Hno Hs. split; try done; cbn.
  - intros pid p t' id Hp Ho. destruct (Hh _ _ _ _ Hp Ho) as [Hid Hst]. split; [done|]. rewrite Hch.
    case_decide as E; [|done]. injection E as -> E. destruct Hno. exists pid, p. split; [done|].
    by rewrite <- E, Z2Nat.id.
  - intros m. rewrite Hch. case_decide as E; [|apply Hm]. intros [= ->]. injection E as <- ->. by apply Hs.
  - intros r. rewrite Hch. case_decide as E; [|apply Hr]. intros [= ->]. injection E as <- ->. by apply Hs.
Qed.

Lemma inv_coord_same j c' : job_inv j → coord_ok files n c' → (∀ t k, st c' t k = st (coord j) t k) → job_inv (set_coord j c').
Proof.
  intros [Hc Hh Hu Hw Hf Hm Hr] Hc' Hst. split; try done; cbn.
  - intros pid p t id Hp Ho. destruct (Hh _ _ _ _ Hp Ho). split; [done|]. by rewrite Hst.
  - intros m. rewrite Hst. apply Hm.
  - intros r. rewrite Hst. apply Hr.
Qed.

Lemma held_in_progress j t k : job_inv j → held j t k → st (coord j) t k = Some InProgress.
Proof. intros Hj (pid & p & Hp & Ho). destruct (ji_holds _ Hj _ _ _ _ Hp Ho) as [_ Hs]. by rewrite Nat2Z.id in Hs. Qed.

Lemma inv_get j pid : job_inv j → workers j !! pid = Some WLoop →
  job_inv (let '(c, rep) := GetTask (coord j) pid in set_worker (set_coord j c) pid (take_task rep)).
Proof.
  intros Hj Hp. pose proof (GetTask_effect files n (coord j) pid (ji_coord _ Hj)) as He.
  destruct (GetTask (coord j) pid) as [c rep].
  destruct He as (Hc & [[-> Ht]|(t & k & Hidle & Hch & Ht & Hid & Hn & Hf)]).
  - apply (inv_worker_same _ _ WLoop); [by apply inv_coord_same|done|..]; unfold take_task; destruct Ht as [Ht | Ht]; rewrite Ht; cbn; auto.
  - assert (¬ held j t k) as Hno by (intros Hh%held_in_progress; congruence).
    assert (job_inv (set_coord j c)) as Hj' by by apply (inv_coord j c t k InProgress).
    assert (t = MapTask ∨ t = ReduceTask) as Htt by by eapply st_types.
    assert (holds (take_task rep) = Some (t, Z.of_nat k)) as Hho.
    { unfold take_task. rewrite Ht, <- Hid. by destruct Htt as [-> | ->]. }
    apply inv_worker; [done| |].
    + unfold take_task. rewrite Ht, Hid, Hn. destruct Htt as [-> | ->]; [|done]. cbn. rewrite Nat2Z.id. auto.
    + rewrite Hho. intros t' id [= <- <-]. split.
      * split; [lia|]. cbn. rewrite Nat2Z.id, Hch. by rewrite decide_True.
      * intros pid' p' _ Hp' Ho'. apply Hno. by exists pid', p'.
Qed.

Lemma inv_report j pid t id c : job_inv j → workers j !! pid = Some (WReport t id) → ReportTaskDone (coord j) t id = Some c →
  job_inv (set_worker (set_coord j c) pid WLoop).
Proof.
  intros Hj Hp Hr. pose proof (ji_holds _ Hj _ _ _ _ Hp eq_refl) as Hip.
  destruct (Report_effect _ _ _ _ _ _ (ji_coord _ Hj) Hip Hr) as [Hc Hch].
  assert (job_inv (set_worker j pid WLoop)) as Hj1 by (by apply (inv_worker_same j pid (WReport t id)); auto).
  apply (inv_coord (set_worker j pid WLoop) c t (Z.to_nat id) Completed); try done.
  - intros (pid' & p' & Hp' & Ho'). cbn in Hp'. rewrite Z2Nat.id in Ho' by apply Hip.
    apply lookup_insert_Some in Hp' as [[_ <-]|[Hne Hp']]; [done|]. apply Hne. by eapply (ji_unique _ Hj pid pid').
  - intros _. pose proof (ji_worker _ Hj _ _ Hp) as Hw. cbn in Hw. split; intros ->; done.
Qed.

Lemma inv_map j pid o (m : Z) file k : job_inv j → workers j !! pid = Some (WMap m file k) →
  job_inv (set_worker j pid (map_task mapf input o m file k)).
Proof.
  intros Hj Hp. pose proof (ji_worker _ Hj _ _ Hp) as [-> Hfile]. unfold map_task.
  apply (inv_worker_same j pid (WMap m file (Z.of_nat n))); [done|done| |];
    (destruct (input file) as [content|] eqn:Ein; [|by auto]);
    destruct (writeIntermediateFile_spec (mapf o file content) (Z.of_nat n) ltac:(lia)) as (parts & -> & Hl & Hparts); [|by auto].
  unfold go_len in Hl. cbn. split_and!; [lia|by intros r ?; lia|].
  intros r text Hr. pose proof (lookup_lt_Some _ _ _ Hr) as Hlt.
  rewrite (Hparts r ltac:(lia)) in Hr. injection Hr as <-.
  assert (map_pairs (Z.to_nat m) = mapf o0 file content) as Hpairs by (unfold map_pairs; by rewrite Hfile, Ein).
  rewrite pairs_encoded.
  - unfold part. rewrite Hpairs. unfold partition_of. by rewrite (map_perm o).
  - apply Forall_forall. intros kv. rewrite (map_perm o), <- Hpairs. apply emit_valid.
Qed.

Lemma inv_rename j pid (m : Z) texts k : job_inv j → workers j !! pid = Some (WRename m texts k) →
  job_inv (match texts !! k with
           | Some text => set_worker (write_file j (intermediate_name m (Z.of_nat k)) text) pid (WRename m texts (S k))
           | None => set_worker j pid (WReport MapTask m)
           end).
Proof.
  intros Hj Hp. pose proof (ji_worker _ Hj _ _ Hp) as (Hl & Hwr & Ht). pose proof (ji_holds _ Hj _ _ _ _ Hp eq_refl) as [Hm Hip].
  destruct (texts !! k) as [text|] eqn:Ek.
  - pose proof (lookup_lt_Some _ _ _ Ek) as Hk.
    assert (Z.to_nat m < length files)%nat as Hmf.
    { unfold st in Hip. apply fmap_Some in Hip as (task & Hlk & _). apply lookup_lt_Some in Hlk.
      destruct (ji_coord _ Hj) as [_ Hsh]. cbn in Hlk. by rewrite (ck_maps _ _ _ Hsh) in Hlk. }
    assert (intermediate_name m (Z.of_nat k) = iname (Z.to_nat m) k) as -> by (unfold iname; by rewrite Z2Nat.id).
    apply (inv_worker_same _ pid (WRename m texts k)); [|done| |by left].
    + apply inv_write; [done| |].
      * left. exists (Z.to_nat m), k. split_and!; try done; [lia|by apply Ht].
      * right. intros r Hr. pose proof (reduce_phase _ _ _ _ _ (ji_coord _ Hj) Hr Hmf) as Hd. congruence.
    + cbn. split_and!; try done. intros r Hr Hrn. destruct (decide (r = k)) as [->|Hne].
      * rewrite lookup_insert_eq. by eexists.
      * apply lookup_insert_is_Some'. right. apply Hwr; lia.
  - apply lookup_ge_None in Ek. apply (inv_worker_same j pid (WRename m texts k)); [done|done| |by left].
    cbn. intros r Hr _. apply Hwr; lia.
Qed.

Lemma inv_glob j pid (r : Z) : job_inv j → workers j !! pid = Some (WReduce r) →
  job_inv (set_worker j pid (WRead r (Glob (fs j) r) [])).
Proof.
  intros Hj Hp. pose proof (ji_holds _ Hj _ _ _ _ Hp eq_refl) as Hip.
  apply (inv_worker_same j pid (WReduce r)); [done|done| |by left]. split.
  - intros name Hn. unfold Glob in Hn. rewrite merge_sort_Permutation in Hn. apply list_elem_of_filter in Hn as [_ Hn].
    apply list_elem_of_fmap in Hn as ([x t] & -> & Hx%elem_of_map_to_list). by exists t.
  - cbn. destruct Hip as [Hr Hst]. rewrite <- (Z2Nat.id r) at 1 by done. apply Glob_pairs; [apply Hj| |].
    + intros m Hm. apply (ji_maps _ Hj), (reduce_phase files n (coord j) r); [apply Hj|done|done].
    + unfold st in Hst. apply fmap_Some in Hst as (task & Hk & _). destruct (ji_coord _ Hj) as [_ Hsh].
      by apply (ck_reduce _ _ _ Hsh) in Hk as (_ & _ & ?).
Qed.

Lemma reduce_output_ref kva r : kva ≡ₚ all_parts r → reduce_output reducef sort kva = Some (ref_text r).
Proof.
  intros Hp. unfold reduce_output, ref_text, ref_pairs.
  rewrite (reduce_pairs_perm reducef sort sort_perm sort_sorted reduce_perm kva (all_parts r) Hp).
  destruct (reduce_pairs_spec reducef sort sort_perm sort_sorted reduce_perm (all_parts r)) as (keys & -> & _). done.
Qed.

Lemma inv_read j pid (r : Z) name names kva text : job_inv j → workers j !! pid = Some (WRead r (name :: names) kva) →
  fs j !! name = Some text → job_inv (set_worker j pid (WRead r names (kva ++ json_pairs text))).
Proof.
  intros Hj Hp Ht. pose proof (ji_worker _ Hj _ _ Hp) as [Hex Hperm].
  apply (inv_worker_same j pid (WRead r (name :: names) kva)); [done|done| |by left]. split.
  - intros x Hx. apply Hex. by right.
  - cbn in Hperm. unfold pairs_in in Hperm at 1. rewrite Ht in Hperm. by rewrite <- (assoc_L (++)).
Qed.

Lemma inv_sort j pid (r : Z) kva : job_inv j → workers j !! pid = Some (WRead r [] kva) →
  ∃ text, reduce_output reducef sort kva = Some text ∧ job_inv (set_worker j pid (WWrite r text)).
Proof.
  intros Hj Hp. pose proof (ji_worker _ Hj _ _ Hp) as [_ Hperm]. cbn in Hperm. rewrite app_nil_r in Hperm.
  exists (ref_text (Z.to_nat r)). split; [by apply reduce_output_ref|].
  by apply (inv_worker_same j pid (WRead r [] kva)); [| | |left].
Qed.

Lemma inv_out j pid (r : Z) text : job_inv j → workers j !! pid = Some (WWrite r text) →
  job_inv (set_worker (write_file j (out_name r) text) pid (WReport ReduceTask r)).
Proof.
  intros Hj Hp. pose proof (ji_worker _ Hj _ _ Hp) as Htext. cbn in Htext.
  pose proof (ji_holds _ Hj _ _ _ _ Hp eq_refl) as [Hr Hst].
  assert (out_name r = oname (Z.to_nat r)) as -> by (unfold oname; by rewrite Z2Nat.id).
  assert (Z.to_nat r < n)%nat as Hrn.
  { unfold st in Hst. apply fmap_Some in Hst as (task & Hk & _). destruct (ji_coord _ Hj) as [_ Hsh].
    by apply (ck_reduce _ _ _ Hsh) in Hk as (_ & _ & ?). }
  apply (inv_worker_same _ pid (WWrite r text)); [|done| |by left].
  - apply inv_write; [done| |]; [right|left]; exists (Z.to_nat r); done.
  - cbn. rewrite lookup_insert_eq. by eexists.
Qed.

(** The timer of a task runs out only when nobody works on it (any more). *)
Definition timely j (act : JAction (O := O)) : Prop :=
  match act with
  | JTimer k => ∀ t i, waiting (coord j) !! k = Some (t, i) → ¬ held j t i
  | _ => True
  end.

Lemma job_inv_step j act j' : job_inv j → timely j act → job_exec mapf reducef sort input act j = Some j' → job_inv j'.
Proof.
  intros Hj Ht He. destruct act as [pid|pid|pid|pid o|pid|pid|pid|pid|pid arrives|k]; cbn in He;
    try (destruct (workers j !! pid) as [p|] eqn:Hp; try done).
  - injection He as <-. by apply inv_worker.
  - injection He as <-. apply (inv_worker_same j pid p); auto; done.
  - destruct p; try done. pose proof (inv_get j pid Hj Hp) as Hg. destruct (GetTask (coord j) pid). by injection He as <-.
  - destruct p; try done. injection He as <-. by apply inv_map.
  - destruct p; try done. pose proof (inv_rename j pid _ _ _ Hj Hp) as Hr. destruct (texts !! k); by injection He as <-.
  - destruct p; try done. injection He as <-. by apply inv_glob.
  - destruct p as [| | | |r [|name names] kva| | |]; try done.
    + destruct (inv_sort j pid r kva Hj Hp) as (text & E & Hj'). rewrite E in He. by injection He as <-.
    + destruct (fs j !! name) as [text|] eqn:E; injection He as <-; [by eapply inv_read|].
      apply (inv_worker_same j pid (WRead r (name :: names) kva)); auto; done.
  - destruct p; try done. injection He as <-. by apply inv_out.
  - destruct p; try done. destruct arrives; cbn in He.
    + destruct (ReportTaskDone (coord j) t id) as [c|] eqn:Er; [|done]. injection He as <-. by eapply inv_report.
    + injection He as <-. assert (set_coord j (coord j) = j) as -> by by destruct j.
      apply (inv_worker_same j pid (WReport t id)); auto; done.
  - apply bind_Some in He as (c & He & [= <-]).
    destruct (Timer_effect _ _ _ _ _ (ji_coord _ Hj) He) as (t & i & Hw & Hc & [Hsame|[_ Hch]]).
    + by apply inv_coord_same.
    + by eapply inv_coord; [| |exact Hch|by apply Ht|].
Qed.

Definition job_step j j' : Prop := ∃ act, timely j act ∧ job_exec mapf reducef sort input act j = Some j'.

Lemma inv_start_job : job_inv (start_job files n).
Proof.
  assert (∀ t k, st (MakeCoordinator files n) t k ≠ Some Completed) as Hst.
  { intros t k (task & Hk & Hs)%fmap_Some. destruct t; cbn in Hk; try (by rewrite lookup_nil in Hk).
    - rewrite list_lookup_imap in Hk. apply fmap_Some in Hk as (f & _ & ->). done.
    - apply list_lookup_fmap_Some in Hk as (i & -> & _). done. }
  split; cbn; try done.
  - split; [apply inv_start|]. split; cbn; [done| | |by rewrite length_imap|by rewrite length_fmap, length_seq].
    + intros k task Hk. rewrite list_lookup_imap in Hk. apply fmap_Some in Hk as (f & Hf & ->). done.
    + intros k task (i & -> & Hi)%list_lookup_fmap_Some. apply lookup_seq in Hi as [-> Hk]. done.
  - intros m H1. by destruct (Hst _ _ H1).
  - intros r H1. by destruct (Hst _ _ H1).
Qed.

Lemma job_reachable_inv j : rtc job_step (start_job files n) j → job_inv j.
Proof.
  assert (∀ j0, rtc job_step j0 j → job_inv j0 → job_inv j) as Hgen; [|by intros Hr; apply (Hgen _ Hr), inv_start_job].
  intros j0 Hr. induction Hr as [|j0 j1 j2 (act & Ht & He) _ IH]; [done|]. intros Hj. apply IH. by eapply job_inv_step.
Qed.

Lemma done_outputs j r : job_inv j → Done (coord j) = true → (r < n)%nat → fs j !! oname r = Some (ref_text r).
Proof.
  intros Hj Hd Hr. destruct (ji_coord _ Hj) as [Hi Hsh].
  assert (st (coord j) ReduceTask r = Some Completed) as Hs.
  { unfold Done in Hd. apply andb_true_iff in Hd as [_ Hd%Z.leb_le].
    apply (remain_zero (coord j) ReduceTask Hi ltac:(by right)) in Hd. rewrite <- (ck_reduces _ _ _ Hsh) in Hr.
    apply lookup_lt_is_Some in Hr as [task Hk]. unfold st. cbn. rewrite Hk. cbn. f_equal.
    rewrite Forall_forall in Hd. apply Hd. by eapply list_elem_of_lookup_2. }
  destruct (ji_reduces _ Hj r Hs) as [text Htext]. rewrite Htext. f_equal. by apply (ji_fs _ Hj), good_out in Htext.
Qed.

(** *** The sequential program *)

Lemma elem_of_all_parts kv r : kv ∈ all_parts r ↔
  Z.rem (ihash (Key kv)) (Z.of_nat n) = Z.of_nat r ∧ ∃ m, (m < length files)%nat ∧ kv ∈ map_pairs m.
Proof.
  unfold all_parts. rewrite list_elem_of_In, in_concat. split.
  - intros (l & Hl%list_elem_of_In & Hkv%list_elem_of_In). apply list_elem_of_fmap in Hl as (m & -> & [_ Hm]%elem_of_seq).
    apply list_elem_of_filter in Hkv as [? ?]. split; [done|]. exists m. split; [lia|done].
  - intros (Hh & m & Hm & Hkv). exists (part m r). rewrite <- !list_elem_of_In. split.
    + apply list_elem_of_fmap. exists m. split; [done|]. apply elem_of_seq. lia.
    + by apply list_elem_of_filter.
Qed.

Lemma values_all_parts k r : Z.rem (ihash k) (Z.of_nat n) = Z.of_nat r →
  values_of k (all_parts r) = values_of k (concat (map_pairs <$> seq 0 (length files))).
Proof.
  intros Hk. unfold all_parts. induction (seq 0 (length files)) as [|m ms IH]; [done|]. cbn.
  unfold values_of in *. rewrite !filter_app, !fmap_app, IH. f_equal.
  pose proof (values_of_partition k (Z.of_nat n) (Z.of_nat r) (map_pairs m)) as Hv. unfold values_of in Hv.
  unfold part. by rewrite Hv, decide_True.
Qed.

Lemma read_inputs_spec o : (∀ file, file ∈ files → is_Some (input file)) →
  ∃ kva, read_inputs mapf input o files = Some kva ∧ kva ≡ₚ concat (map_pairs <$> seq 0 (length files)).
Proof.
  intros Hin. assert (∀ fs0 k, (∀ i f, fs0 !! i = Some f → files !! (k + i)%nat = Some f) → 
    ∃ kva, read_inputs mapf input o fs0 = Some kva ∧ kva ≡ₚ concat (map_pairs <$> seq k (length fs0))) as Hgen.
  2:{ by apply (Hgen files 0%nat). }
  induction fs0 as [|f fs0 IH]; intros k Hf; cbn [read_inputs seq length]; [by exists []|].
  pose proof (Hf 0%nat f eq_refl) as Hk. rewrite Nat.add_0_r in Hk.
  destruct (Hin f ltac:(by eapply list_elem_of_lookup_2)) as [content Hc]. rewrite Hc. cbn.
  destruct (IH (S k)) as (kva & -> & Hp).
  { intros i g Hg. replace (S k + i)%nat with (k + S i)%nat by lia. by apply Hf. }
  cbn. eexists. split; [done|]. unfold map_pairs at 1. rewrite Hk, Hc. rewrite Hp. by rewrite (map_perm o f content).
Qed.

Lemma ref_pairs_elem r k out : (k, out) ∈ ref_pairs r ↔
  Z.rem (ihash k) (Z.of_nat n) = Z.of_nat r ∧ k ∈ Key <$> concat (map_pairs <$> seq 0 (length files))
  ∧ out = reducef k (values_of k (concat (map_pairs <$> seq 0 (length files)))).
Proof.
  unfold ref_pairs. destruct (reduce_pairs_spec reducef sort sort_perm sort_sorted reduce_perm (all_parts r)) as (keys & -> & _ & _ & Hk).
  cbn. rewrite list_elem_of_fmap.
  assert (k ∈ keys ↔ Z.rem (ihash k) (Z.of_nat n) = Z.of_nat r ∧ k ∈ Key <$> concat (map_pairs <$> seq 0 (length files))) as Hkeys.
  { rewrite Hk, !list_elem_of_fmap. split.
    - intros (kv & -> & (Hh & m & Hm & Hkv)%elem_of_all_parts). split; [done|]. exists kv. split; [done|].
      apply list_elem_of_In, in_concat. exists (map_pairs m). rewrite <- !list_elem_of_In. split; [|done].
      apply list_elem_of_fmap. exists m. split; [done|]. apply elem_of_seq. lia.
    - intros [Hh (kv & -> & Hkv)]. exists kv. split; [done|]. apply elem_of_all_parts. split; [done|].
      apply list_elem_of_In, in_concat in Hkv as (l & Hl%list_elem_of_In & Hkv%list_elem_of_In).
      apply list_elem_of_fmap in Hl as (m & -> & [_ Hm]%elem_of_seq). exists m. split; [lia|done]. }
  split.
  - intros (k' & [= -> ->] & Hin). apply Hkeys in Hin as [Hh Hin]. split_and!; try done. by rewrite values_all_parts.
  - intros (Hh & Hin & ->). exists k. split; [by rewrite values_all_parts|]. by apply Hkeys.
Qed.

Lemma ref_pairs_NoDup r : NoDup (ref_pairs r).
Proof.
  unfold ref_pairs. destruct (reduce_pairs_spec reducef sort sort_perm sort_sorted reduce_perm (all_parts r)) as (keys & -> & Hn & _).
  cbn. apply NoDup_fmap_2; [|done]. intros k k' E. by injection E.
Qed.

(** The outputs of all reduce tasks are the output of the sequential program. *)
Lemma ref_pairs_sequential o : (∀ file, file ∈ files → is_Some (input file)) →
  ∃ seqs, mrsequential mapf reducef sort input o files = Some seqs ∧ concat (ref_pairs <$> seq 0 n) ≡ₚ seqs.
Proof.
  intros Hin. destruct (read_inputs_spec o Hin) as (kva & E & Hp). unfold mrsequential. rewrite E. cbn.
  destruct (reduce_pairs_spec reducef sort sort_perm sort_sorted reduce_perm kva) as (keys & -> & Hn & _ & Hk).
  eexists. split; [done|]. apply NoDup_Permutation.
  - assert (∀ rs, NoDup rs → Forall (λ r, (r < n)%nat) rs → NoDup (concat (ref_pairs <$> rs))) as Hnd.
    2:{ apply Hnd; [apply NoDup_seq|]. apply Forall_forall. intros r [_ Hr]%elem_of_seq. lia. }
    induction 1 as [|r rs Hno Hnd IH]; intros Hf; cbn; [apply NoDup_nil_2|]. apply Forall_cons in Hf as [_ Hf].
    apply NoDup_app. split_and!; [apply ref_pairs_NoDup| |by apply IH]. intros [k out] (Hh & _)%ref_pairs_elem Hin'.
    apply list_elem_of_In, in_concat in Hin' as (l & Hl%list_elem_of_In & Hko%list_elem_of_In).
    apply list_elem_of_fmap in Hl as (r' & -> & Hr'). apply ref_pairs_elem in Hko as (Hh' & _).
    assert (r = r') as -> by lia. done.
  - apply NoDup_fmap_2; [|done]. intros k k' Ekk. by injection Ekk.
  - intros [k out]. rewrite list_elem_of_In, in_concat, list_elem_of_fmap. split.
    + intros (l & Hl%list_elem_of_In & Hko%list_elem_of_In). apply list_elem_of_fmap in Hl as (r & -> & _).
      apply ref_pairs_elem in Hko as (_ & Hkin & ->). exists k. split; [|by rewrite Hk, Hp].
      f_equal. apply reduce_perm. by rewrite (values_of_perm k _ _ Hp).
    + intros (k' & [= -> ->] & Hkin). rewrite Hk, Hp in Hkin.
      set (r := Z.to_nat (Z.rem (ihash k') (Z.of_nat n))).
      assert (0 <= Z.rem (ihash k') (Z.of_nat n) < Z.of_nat n) as Hr.
      { apply Z.rem_bound_pos; [|lia]. unfold ihash. apply Z.land_nonneg. by right. }
      exists (ref_pairs r). rewrite <- !list_elem_of_In. split.
      * apply list_elem_of_fmap. exists r. split; [done|]. apply elem_of_seq. lia.
      * apply ref_pairs_elem. split_and!; [unfold r; lia|done|]. apply reduce_perm. by rewrite (values_of_perm k' _ _ Hp).
Qed.

(** C22: a distributed job computes what the sequential program computes.  Take a map
    function that emits the same pairs for a file whenever it is called, in any order,
    keys and values being valid UTF-8 (encoding/json replaces other bytes); a reduce
    function that does not depend on the order of the values; at least one reduce
    task; input files that exist; a [sort] that sorts by keys, stable or not.  Suppose that no
    output file, read as JSON, begins with a pair: the pattern mr-*-r of the
    intermediate files also matches mr-out-r, so that a reduce task that is executed
    again reads it, and what decodes would be reduced too ([null_reduced_again]).  Then
    in every run of coordinator and workers - workers that start, die, lose reports and
    repeat tasks, in any interleaving - in which a task's timer runs out only when no
    worker works on it any more: when the coordinator is done, every output file
    is there, and the lines of all of them are those of mrsequential. *)
Theorem mr_job_correct j o :
  (∀ file, file ∈ files → is_Some (input file)) →
  rtc job_step (start_job files n) j → Done (coord j) = true →
  ∃ outs seqs, length outs = n
    ∧ (∀ (r : nat) ps, outs !! r = Some ps → fs j !! out_name (Z.of_nat r) = Some (out_text ps))
    ∧ mrsequential mapf reducef sort input o files = Some seqs
    ∧ concat outs ≡ₚ seqs.
Proof.
  intros Hin Hr Hd. destruct (ref_pairs_sequential o Hin) as (seqs & Hs & Hp).
  exists (ref_pairs <$> seq 0 n), seqs. split_and!; try done.
  - by rewrite length_fmap, length_seq.
  - intros r ps (r' & -> & [-> Hr']%lookup_seq)%list_lookup_fmap_Some. apply done_outputs; [by apply job_reachable_inv|done|done].
Qed.
End job.
