(* ===== verification/MRApps.v ===== *)
(** * The MapReduce applications (mrapps)

    Word count and indexer, and the applications that the tests use.  Strings are
    cut into runes by [runes], and [IsLetter] is unicode.IsLetter; the instance
    for ASCII texts is at the end. *)

From stdpp Require Import pretty.
From S2P Require Import Prelude GoStrings Util MapReduce MapReduceProps MapReduceJob MapReduceJobProps.
From Stdlib Require Import Ascii.

#[global] Open Scope Z_scope.

(** ** Package strings *)

(** The runes of a string, each with its own bytes. *)
Class Unicode := {
  runes : string → list string;
  IsLetter : string → bool;
}.

(** A byte that is not part of a rune is U+FFFD, which is no letter. *)
Class UnicodeLaws `{!Unicode} := {
  runes_concat s : lines (runes s) = s;
  letter_valid r : IsLetter r = true → valid_string r = true;
}.

(** A text that begins with a word is no JSON pair: what starts with a letter is a
    literal or a syntax error, and of the literals only [null] decodes into a
    structure. *)
Class JSONWords `{!JSON, !Unicode} := {
  json_word r rs rest : Forall (λ r, IsLetter r = true) (r :: rs) → lines (r :: rs) ≠ "null"%string →
    json_pairs (lines (r :: rs) +:+ " " +:+ rest) = [];
}.

(** [strings.FieldsFunc]: the maximal runs of runes that do not satisfy [sep];
    [cur] is the run that is open. *)
Fixpoint fields_from (sep : string → bool) (rs : list string) (cur : option string) : list string :=
  match rs with
  | [] => match cur with Some w => [w] | None => [] end
  | r :: rs =>
    if sep r then match cur with Some w => w :: fields_from sep rs None | None => fields_from sep rs None end
    else fields_from sep rs (Some (default "" cur +:+ r))
  end.

Definition FieldsFunc `{!Unicode} (s : string) (sep : string → bool) : list string := fields_from sep (runes s) None.

(** [strings.Join] *)
Fixpoint Join (l : list string) (sep : string) : string :=
  match l with
  | [] => ""
  | [s] => s
  | s :: l => s +:+ sep +:+ Join l sep
  end.

(** [sort.Strings] *)
Definition Strings (l : list string) : list string := merge_sort String.le l.

(** [strings.Contains] and [strings.HasPrefix] *)
Definition HasPrefix (s pre : string) : bool := String.prefix pre s.
Fixpoint Contains (s sub : string) : bool :=
  HasPrefix s sub || match s with EmptyString => false | String _ s => Contains s sub end.

Section apps.
Context `{!Unicode}.

Definition words_of (contents : string) : list string := FieldsFunc contents (λ r, negb (IsLetter r)).

(** ** wc.go *)
Definition wc_Map (filename contents : string) : list KeyValue := (λ w, MkKeyValue w "1") <$> words_of contents.
Definition wc_Reduce (key : string) (values : list string) : string := Itoa (go_len values).

(** ** indexer.go

    [Map] collects the words as the keys of a map and iterates over it, in the
    order [o]; [fmt.Sprintf("%d %s", ...)]. *)
Record StrOrder := MkStrOrder { reorder : list string → list string; reorder_perm l : reorder l ≡ₚ l }.

Definition indexer_Map (o : StrOrder) (document value : string) : list KeyValue :=
  let m : gmap string bool := foldl (λ m w, <[w := true]> m) ∅ (words_of value) in
  (λ w, MkKeyValue w document) <$> reorder o (map_to_list m).*1.

Definition indexer_Reduce (key : string) (values : list string) : string :=
  let values := Strings values in
  Itoa (go_len values) +:+ " " +:+ Join values ",".

(** ** crash.go and nocrash.go

    [maybeCrash] with its random numbers: the process ends, or goes on after so
    many milliseconds. *)
Definition maybeCrash (rr ms : Z) : option Z :=
  if rr <? 330 then None else if rr <? 660 then Some ms else Some 0.

Definition crash_Map (filename contents : string) : list KeyValue :=
  [MkKeyValue "a" filename; MkKeyValue "b" (Itoa (Z.of_nat (String.length filename)));
   MkKeyValue "c" (Itoa (Z.of_nat (String.length contents))); MkKeyValue "d" "xyzzy"].

Definition crash_Reduce (key : string) (values : list string) : string := Join (Strings values) " ".

(** [false && ...] *)
Definition nocrash_maybeCrash (rr : Z) : option Z := if false && (rr <? 500) then None else Some 0.

Definition nocrash_Map (filename contents : string) : list KeyValue :=
  [MkKeyValue "a" filename; MkKeyValue "b" (Itoa (Z.of_nat (String.length filename)));
   MkKeyValue "c" (Itoa (Z.of_nat (String.length contents))); MkKeyValue "d" "xyzzy"].

Definition nocrash_Reduce (key : string) (values : list string) : string := Join (Strings values) " ".

(** ** early_exit.go

    [Reduce] with the seconds it sleeps *)
Definition early_exit_Map (filename contents : string) : list KeyValue := [MkKeyValue filename "1"].

Definition early_exit_Reduce (key : string) (values : list string) : Z * string :=
  (if Contains key "sherlock" || Contains key "tom" then 3 else 0, Itoa (go_len values)).

(** ** jobcount.go

    [Map] in the process [me] that has called it [count] times: the name of the
    file it writes, the new count and the pairs; [Reduce] on the listing of the directory. *)
Definition jobcount_Map (me count : Z) (filename contents : string) : string * Z * list KeyValue :=
  ("mr-worker-jobcount-" +:+ Itoa me +:+ "-" +:+ Itoa count, count + 1, [MkKeyValue "a" "x"]).

Definition jobcount_Reduce (dir : list string) (key : string) (values : list string) : string :=
  Itoa (go_len (filter (λ f, HasPrefix f "mr-worker-jobcount" = true) dir)).

(** ** mtiming.go and rtiming.go

    [nparallel] in the process [pid]: it writes a file with its name, counts the
    files of living processes (the signal 0 of [syscall.Kill] reaches them),
    sleeps, and removes its file; the other workers go on in between.  The
    directory is the list of the names in it. *)

(** [fmt.Sscanf(name, pre + "%d", &x)] *)
Definition Sscanf_d (name pre : string) : option Z :=
  if HasPrefix name pre then scan_d (String.substring (String.length pre) (String.length name - String.length pre) name) else None.

(** [Readdirnames]: at most [n] names *)
Fixpoint Readdirnames (dir : list string) (n : Z) : list string :=
  match dir with
  | [] => []
  | name :: dir => if n <=? 0 then [] else name :: Readdirnames dir (n - 1)
  end.

Definition worker_file (phase : string) (pid : Z) : string := "mr-worker-" +:+ phase +:+ "-" +:+ Itoa pid.

Definition WriteFile (dir : list string) (name : string) : list string :=
  if decide (name ∈ dir) then dir else dir ++ [name].

(** A name that counts *)
Definition counts (alive : Z → bool) (phase name : string) : bool :=
  match Sscanf_d name ("mr-worker-" +:+ phase +:+ "-") with Some xpid => alive xpid | None => false end.

(** Before the sleep: the directory and the result *)
Definition nparallel (alive : Z → bool) (phase : string) (pid : Z) (dir : list string) : list string * Z :=
  let dir := WriteFile dir (worker_file phase pid) in
  (dir, go_len (filter (λ name, counts alive phase name = true) (Readdirnames dir 1000000))).

(** After it; the removal of a file that is gone panics. *)
Definition nparallel_end (phase : string) (pid : Z) (dir : list string) : option (list string) :=
  if decide (worker_file phase pid ∈ dir) then Some (filter (λ name, name ≠ worker_file phase pid) dir) else None.

(** [Map] with the time of its start, already printed, and the result of [nparallel] *)
Definition mtiming_Map (ts : string) (pid n : Z) (filename contents : string) : list KeyValue :=
  [MkKeyValue ("times-" +:+ Itoa pid) ts; MkKeyValue ("parallel-" +:+ Itoa pid) (Itoa n)].

Definition mtiming_Reduce (key : string) (values : list string) : string := Join (Strings values) " ".

(** [Reduce] with the result of [nparallel] *)
Definition rtiming_Reduce (n : Z) (key : string) (values : list string) : string := Itoa n.

Definition rtiming_Map (filename contents : string) : list KeyValue :=
  (λ k, MkKeyValue k "1") <$> ["a"; "b"; "c"; "d"; "e"; "f"; "g"; "h"; "i"; "j"].

(** ** The workers that run

    [nparallel] counts the living workers of its phase, itself with them. *)

Lemma Readdirnames_all dir n : go_len dir <= n → Readdirnames dir n = dir.
Proof.
  revert n. induction dir as [|x dir IH]; intros n Hn; [done|]. unfold go_len in *. cbn in *.
  destruct (Z.leb_spec n 0); [lia|]. by rewrite IH by lia.
Qed.

Lemma HasPrefix_app a b : HasPrefix (a +:+ b) a = true.
Proof. unfold HasPrefix. induction a as [|c a IH]; appends; [by destruct b|]. by destruct (ascii_dec c c). Qed.

Lemma Sscanf_app pre s : Sscanf_d (pre +:+ s) pre = scan_d s.
Proof.
  unfold Sscanf_d. rewrite HasPrefix_app, string_length_app.
  replace (String.length pre + String.length s - String.length pre)%nat with (String.length s) by lia.
  by rewrite substring_skip, substring_all.
Qed.

Lemma counts_worker alive phase pid : 0 <= pid < 2 ^ 63 → counts alive phase (worker_file phase pid) = alive pid.
Proof. intros Hp. unfold counts, worker_file. by rewrite <- !append_assoc, Sscanf_app, scan_d_Itoa. Qed.

Lemma worker_file_inj phase p q : worker_file phase p = worker_file phase q → p = q.
Proof. unfold worker_file. intros Hf. do 3 apply (inj (String.append _)) in Hf. by apply Itoa_inj. Qed.

Section nparallel.
Context (alive : Z → bool) (phase : string).

Lemma count_workers ps : (∀ p, p ∈ ps → 0 <= p < 2 ^ 63) →
  length (filter (λ name, counts alive phase name = true) (worker_file phase <$> ps)) = length (filter (λ p, alive p = true) ps).
Proof.
  induction ps as [|p ps IH]; intros Hps; [done|]. rewrite fmap_cons, !filter_cons, counts_worker by (apply Hps; by left).
  specialize (IH ltac:(intros q Hq; apply Hps; by right)). destruct (decide (alive p = true)); cbn; by rewrite IH.
Qed.

Lemma count_others names : (∀ f, f ∈ names → HasPrefix f ("mr-worker-" +:+ phase +:+ "-") = false) →
  filter (λ name, counts alive phase name = true) names = [].
Proof.
  induction names as [|f names IH]; intros Hf; [done|]. rewrite filter_cons, decide_False.
  - apply IH. intros g Hg. apply Hf. by right.
  - unfold counts, Sscanf_d. by rewrite Hf by by left.
Qed.

Lemma nparallel_counts pid pids others dir :
  dir ≡ₚ (worker_file phase <$> pids) ++ others → pid ∉ pids →
  (∀ p, p ∈ pid :: pids → 0 <= p < 2 ^ 63) → (∀ f, f ∈ others → HasPrefix f ("mr-worker-" +:+ phase +:+ "-") = false) →
  go_len dir < 1000000 →
  nparallel alive phase pid dir = (dir ++ [worker_file phase pid], go_len (filter (λ p, alive p = true) (pid :: pids))).
Proof.
  intros Hdir Hpid Hpids Hothers Hlen. unfold nparallel, WriteFile. rewrite decide_False.
  2:{ rewrite Hdir, elem_of_app. intros [(p & Hp & Hin)%list_elem_of_fmap|Hin]; [by apply worker_file_inj in Hp as <-|].
      specialize (Hothers _ Hin). unfold worker_file in Hothers. rewrite <- !append_assoc, HasPrefix_app in Hothers. done. }
  rewrite Readdirnames_all by (unfold go_len in *; rewrite length_app; cbn; lia). f_equal. unfold go_len. f_equal.
  assert (dir ++ [worker_file phase pid] ≡ₚ (worker_file phase <$> pid :: pids) ++ others) as -> by (rewrite Hdir; cbn; solve_Permutation).
  by rewrite filter_app, length_app, count_workers, count_others, Nat.add_0_r by done.
Qed.
End nparallel.

(** ** Fields

    The fields are the text without the separators. *)
Lemma fields_from_lines sep rs cur :
  lines (fields_from sep rs cur) = default "" cur +:+ lines (filter (λ r, sep r = false) rs).
Proof.
  revert cur. induction rs as [|r rs IH]; intros cur; cbn [fields_from].
  - destruct cur as [w|]; cbn; [reflexivity|done].
  - rewrite filter_cons. destruct (sep r) eqn:E.
    + rewrite decide_False by congruence. destruct cur as [w|]; cbn; rewrite IH; by rewrite ?append_nil.
    + rewrite decide_True by done. rewrite IH. cbn. by rewrite append_assoc.
Qed.

(** No field is cut or joined: every field is made of adjacent runes of the text. *)
Lemma words_of_letters contents :
  lines (words_of contents) = lines (filter (λ r, IsLetter r = true) (runes contents)).
Proof.
  unfold words_of, FieldsFunc. rewrite fields_from_lines. cbn. rewrite append_nil. f_equal.
  apply list_filter_iff. intros r. by destruct (IsLetter r).
Qed.

(** A word: letters, at least one *)
Definition word (w : string) : Prop := ∃ r rs, w = lines (r :: rs) ∧ Forall (λ r, IsLetter r = true) (r :: rs).

Lemma fields_from_words rs cur w : w ∈ fields_from (λ r, negb (IsLetter r)) rs cur → (∀ c, cur = Some c → word c) → word w.
Proof.
  revert cur. induction rs as [|r rs IH]; intros cur; cbn [fields_from].
  - intros Hw Hc. destruct cur as [c|]; [apply list_elem_of_singleton in Hw as ->; by apply Hc|by apply elem_of_nil in Hw].
  - destruct (IsLetter r) eqn:E; cbn [negb].
    + intros Hw Hc. eapply IH; [exact Hw|]. intros c [= <-]. destruct cur as [c|]; cbn [default].
      * destruct (Hc c eq_refl) as (r0 & rs0 & -> & Hl). exists r0, (rs0 ++ [r]). split.
        -- change (r0 :: rs0 ++ [r]) with ((r0 :: rs0) ++ [r]). rewrite lines_app. cbn. by rewrite append_empty_r.
        -- change (r0 :: rs0 ++ [r]) with ((r0 :: rs0) ++ [r]). apply Forall_app. split; [done|]. by constructor.
      * exists r, []. split; [cbn; by rewrite append_empty_r|by constructor].
    + intros Hw Hc. destruct cur as [c|]; [apply elem_of_cons in Hw as [->|Hw]; [by apply Hc|]|]; by eapply IH.
Qed.

Lemma words_of_words contents w : w ∈ words_of contents → word w.
Proof. intros Hw. by eapply fields_from_words. Qed.

Lemma word_valid `{!UnicodeLaws} w : word w → valid_string w = true.
Proof. intros (r & rs & -> & Hl). apply valid_lines. eapply Forall_impl; [exact Hl|]. intros x. apply letter_valid. Qed.

(** ** Order of the values *)

Lemma Strings_perm l l' : l ≡ₚ l' → Strings l = Strings l'.
Proof.
  intros Hp. unfold Strings. apply (StronglySorted_unique String.le).
  - apply (StronglySorted_merge_sort String.le).
  - apply (StronglySorted_merge_sort String.le).
  - by rewrite !merge_sort_Permutation.
Qed.

Lemma wc_Reduce_perm k vs vs' : vs ≡ₚ vs' → wc_Reduce k vs = wc_Reduce k vs'.
Proof. intros Hp. unfold wc_Reduce, go_len. by rewrite Hp. Qed.

Lemma indexer_Reduce_perm k vs vs' : vs ≡ₚ vs' → indexer_Reduce k vs = indexer_Reduce k vs'.
Proof. intros Hp. unfold indexer_Reduce. by rewrite (Strings_perm _ _ Hp). Qed.

Lemma crash_Reduce_perm k vs vs' : vs ≡ₚ vs' → crash_Reduce k vs = crash_Reduce k vs'.
Proof. intros Hp. unfold crash_Reduce. by rewrite (Strings_perm _ _ Hp). Qed.

(** The words of a text, each once *)
Lemma indexer_keys ws : (map_to_list (foldl (λ (m : gmap string bool) w, <[w := true]> m) ∅ ws)).*1 ≡ₚ remove_dups ws.
Proof.
  apply NoDup_Permutation; [apply NoDup_fst_map_to_list|apply NoDup_remove_dups|]. intros w.
  rewrite elem_of_remove_dups, list_elem_of_fmap.
  assert (∀ m : gmap string bool, is_Some (foldl (λ m w, <[w := true]> m) m ws !! w) ↔ is_Some (m !! w) ∨ w ∈ ws) as Hm.
  { induction ws as [|x ws IH]; intros m; cbn; [rewrite elem_of_nil; tauto|]. rewrite IH, elem_of_cons, lookup_insert_is_Some'. naive_solver. }
  specialize (Hm ∅). rewrite lookup_empty in Hm. split.
  - intros ([x b] & -> & Hx%elem_of_map_to_list). apply mk_is_Some, Hm in Hx as [[? ?]|]; done.
  - intros Hw. destruct (proj2 Hm (or_intror Hw)) as [b Hb]. exists (w, b). split; [done|]. by apply elem_of_map_to_list.
Qed.

Lemma indexer_Map_perm o o' d c : indexer_Map o d c ≡ₚ indexer_Map o' d c.
Proof. unfold indexer_Map. by rewrite !reorder_perm. Qed.

(** ** Jobs *)

Section results.
Context `{!UnicodeLaws, !JSON, !JSONLaws, !JSONWords}.
Context (sort : list KeyValue → list KeyValue) (input : string → option string) (files : list string) (n : nat).
Context (sort_perm : ∀ l, sort l ≡ₚ l) (sort_sorted : ∀ l, StronglySorted key_le (sort l)) (n_pos : (0 < n)%nat).

(** What the map function emits for all files *)
Definition emitted (f : string → string → list KeyValue) : list KeyValue :=
  concat ((λ file, match input file with Some content => f file content | None => [] end) <$> files).

Lemma emitted_map_pairs {O} (mapf : O → string → string → list KeyValue) o0 :
  concat (map_pairs mapf o0 input files <$> seq 0 (length files)) = emitted (mapf o0).
Proof.
  unfold emitted, map_pairs. f_equal.
  assert (∀ fs0 k, (∀ i f, fs0 !! i = Some f → files !! (k + i)%nat = Some f) →
    (λ m, match files !! m with
          | Some file => match input file with Some content => mapf o0 file content | None => [] end
          | None => []
          end) <$> seq k (length fs0)
    = (λ file, match input file with Some content => mapf o0 file content | None => [] end) <$> fs0) as Hgen.
  2:{ by apply (Hgen files 0%nat). }
  induction fs0 as [|f fs0 IH]; intros k Hf; cbn; [done|]. pose proof (Hf 0%nat f eq_refl) as Hk.
  rewrite Nat.add_0_r in Hk. rewrite Hk. f_equal. apply IH. intros i g Hg.
  replace (S k + i)%nat with (k + S i)%nat by lia. by apply Hf.
Qed.

(** The words of all files *)
Definition all_words : list string :=
  concat ((λ file, match input file with Some content => words_of content | None => [] end) <$> files).

Lemma elem_of_all_words w : w ∈ all_words ↔ ∃ file content, file ∈ files ∧ input file = Some content ∧ w ∈ words_of content.
Proof.
  unfold all_words. rewrite list_elem_of_In, in_concat. split.
  - intros (l & (file & -> & Hf)%list_elem_of_In%list_elem_of_fmap & Hw%list_elem_of_In).
    destruct (input file) as [content|] eqn:E; [by exists file, content|by apply elem_of_nil in Hw].
  - intros (file & content & Hf & E & Hw). exists (words_of content). rewrite <- !list_elem_of_In. split; [|done].
    apply list_elem_of_fmap. exists file. by rewrite E.
Qed.

Lemma all_words_words w : w ∈ all_words → word w.
Proof. intros (? & ? & _ & _ & Hw)%elem_of_all_words. by eapply words_of_words. Qed.

Definition occurrences (w : string) (ws : list string) : Z := go_len (filter (λ x, x = w) ws).

Lemma emitted_wc : emitted wc_Map = (λ w, MkKeyValue w "1") <$> all_words.
Proof.
  unfold emitted, all_words. induction files as [|f fs0 IH]; [done|]. cbn. rewrite fmap_app, IH. by destruct (input f).
Qed.

(** An output file whose first word is not [null] is no JSON. *)
Lemma out_not_pairs ps : (∀ p, p ∈ ps → word p.1 ∧ p.1 ≠ "null"%string) → json_pairs (out_text ps) = [].
Proof.
  intros Hps. destruct ps as [|[k out] ps]; [exact (json_pairs_lines [] (List.Forall_nil _))|].
  destruct (Hps (k, out) ltac:(by left)) as [(r & rs & E & Hl) Hne]. cbn [fst] in E, Hne. subst k.
  assert (out_text ((lines (r :: rs), out) :: ps) = lines (r :: rs) +:+ " " +:+ (out +:+ newline) +:+ out_text ps) as ->.
  { unfold out_text. cbn [fmap list_fmap lines foldr]. unfold out_line at 1. cbn [fst snd]. by rewrite !append_assoc. }
  by apply json_word.
Qed.

Lemma job_pairs {O} (mapf : O → string → string → list KeyValue) o0 reducef j (r : nat) :
  (∀ o f c, mapf o f c ≡ₚ mapf o0 f c) → (∀ k vs vs', vs ≡ₚ vs' → reducef k vs = reducef k vs') →
  (∀ kv, kv ∈ emitted (mapf o0) → word (Key kv) ∧ Key kv ≠ "null"%string ∧ valid_string (Value kv) = true) →
  rtc (job_step mapf reducef sort input) (start_job files n) j → Done (coord j) = true → (r < n)%nat →
  ∃ ps, fs j !! out_name (Z.of_nat r) = Some (out_text ps)
    ∧ ∀ k out, (k, out) ∈ ps ↔ Z.rem (ihash k) (Z.of_nat n) = Z.of_nat r
        ∧ k ∈ Key <$> emitted (mapf o0) ∧ out = reducef k (values_of k (emitted (mapf o0))).
Proof.
  intros Hmap Hred Hemit Hr Hd Hrn.
  assert (∀ m kv, kv ∈ map_pairs mapf o0 input files m → valid_pair kv = true) as Hvalid.
  { intros m kv Hkv. destruct (Hemit kv) as (Hw & _ & Hv).
    - rewrite <- emitted_map_pairs, list_elem_of_In, in_concat. exists (map_pairs mapf o0 input files m). rewrite <- !list_elem_of_In.
      split; [|done]. apply list_elem_of_fmap. exists m. split; [done|]. apply elem_of_seq. split; [lia|].
      unfold map_pairs in Hkv. destruct (files !! m) eqn:E; [by apply lookup_lt_Some in E|by apply elem_of_nil in Hkv].
    - unfold valid_pair. by rewrite Hv, word_valid. }
  assert (∀ r k out, (k, out) ∈ ref_pairs mapf o0 reducef sort input files n r ↔ Z.rem (ihash k) (Z.of_nat n) = Z.of_nat r
    ∧ k ∈ Key <$> emitted (mapf o0) ∧ out = reducef k (values_of k (emitted (mapf o0)))) as Hps.
  { intros r' k out. by rewrite ref_pairs_elem, emitted_map_pairs by done. }
  assert (∀ r, (r < n)%nat → json_pairs (ref_text mapf o0 reducef sort input files n r) = []) as Hout.
  { intros r' _. apply out_not_pairs. intros [k out] (_ & (kv & -> & Hkv)%list_elem_of_fmap & _)%Hps. cbn.
    destruct (Hemit kv Hkv) as (? & ? & _). done. }
  exists (ref_pairs mapf o0 reducef sort input files n r). split; [|apply Hps].
  eapply done_outputs; [done| |done|done]. by eapply job_reachable_inv.
Qed.

(** C28: word count.  Take a job with wc.go on input files none of which has the word
    [null] (when it is the first word of an output file that a repeated reduce task
    reads, it is decoded to an empty pair and gets a line, [null_reduced_again]), with
    at least one reduce task, in a run in which the timer of a task runs out only
    when no worker works on it any more.  When the job is done, output file [r] has a
    line for every word of the input files whose hash falls to [r], and no other; the
    line says how often the word occurs in all files together. *)
Theorem wc_job_correct j (r : nat) :
  let mapf := λ _ : unit, wc_Map in
  "null"%string ∉ all_words →
  rtc (job_step mapf wc_Reduce sort input) (start_job files n) j → Done (coord j) = true → (r < n)%nat →
  ∃ ps, fs j !! out_name (Z.of_nat r) = Some (out_text ps)
    ∧ ∀ w out, (w, out) ∈ ps ↔
        Z.rem (ihash w) (Z.of_nat n) = Z.of_nat r ∧ w ∈ all_words ∧ out = Itoa (occurrences w all_words).
Proof.
  intros mapf Hnull Hr Hd Hrn.
  assert (∀ kv, kv ∈ emitted wc_Map → word (Key kv) ∧ Key kv ≠ "null"%string ∧ valid_string (Value kv) = true) as Hemit.
  { rewrite emitted_wc. intros kv (w & -> & Hw)%list_elem_of_fmap. cbn. split_and!; [by apply all_words_words|by intros ->|done]. }
  destruct (job_pairs mapf tt wc_Reduce j r ltac:(done) wc_Reduce_perm Hemit Hr Hd Hrn) as (ps & Hf & Hps).
  exists ps. split; [done|]. intros w out. rewrite Hps. unfold mapf. rewrite emitted_wc.
  assert (w ∈ Key <$> ((λ w, MkKeyValue w "1") <$> all_words) ↔ w ∈ all_words) as ->.
  { rewrite <- list_fmap_compose. unfold compose. cbn. by rewrite list_fmap_id. }
  assert (wc_Reduce w (values_of w ((λ w, MkKeyValue w "1") <$> all_words)) = Itoa (occurrences w all_words)) as ->; [|done].
  unfold wc_Reduce, values_of, occurrences, go_len. rewrite length_fmap. do 2 f_equal. f_equal.
  clear. generalize all_words as ws. induction ws as [|x ws IH]; [done|]. rewrite fmap_cons, !filter_cons. cbn [Key].
  case_decide; cbn [length]; by rewrite IH.
Qed.

(** The input files with the word *)
Definition documents (w : string) : list string :=
  filter (λ file, w ∈ (match input file with Some content => words_of content | None => [] end)) files.

Lemma filter_eq_NoDup (w : string) l : NoDup l → filter (λ x, x = w) l = if decide (w ∈ l) then [w] else [].
Proof.
  induction 1 as [|x l Hx _ IH]; [by rewrite decide_False by apply not_elem_of_nil|]. rewrite filter_cons, IH.
  destruct (decide (x = w)) as [->|Hne].
  - by rewrite decide_False, decide_True by (done || by left).
  - destruct (decide (w ∈ l)); [by rewrite decide_True by by right|]. rewrite decide_False; [done|]. by intros [|]%elem_of_cons.
Qed.

(** Every document gives at most one pair for a word. *)
Lemma values_of_indexer o w d c : values_of w (indexer_Map o d c) ≡ₚ if decide (w ∈ words_of c) then [d] else [].
Proof.
  unfold indexer_Map. rewrite (values_of_perm w _ ((λ w, MkKeyValue w d) <$> remove_dups (words_of c)))
    by by rewrite reorder_perm, indexer_keys.
  assert (∀ l, values_of w ((λ w, MkKeyValue w d) <$> l) = (λ _, d) <$> filter (λ x, x = w) l) as ->.
  { unfold values_of. induction l as [|x l IH]; [done|]. rewrite fmap_cons, !filter_cons. cbn [Key].
    case_decide; cbn [fmap list_fmap Value]; by rewrite ?IH. }
  rewrite filter_eq_NoDup by apply NoDup_remove_dups.
  destruct (decide (w ∈ words_of c)).
  - by rewrite decide_True by by apply elem_of_remove_dups.
  - by rewrite decide_False by by rewrite elem_of_remove_dups.
Qed.

Lemma values_of_app k l l' : values_of k (l ++ l') = values_of k l ++ values_of k l'.
Proof. unfold values_of. by rewrite filter_app, fmap_app. Qed.

Lemma emitted_indexer o w : values_of w (emitted (indexer_Map o)) ≡ₚ documents w.
Proof.
  unfold emitted, documents. induction files as [|f fs0 IH]; [done|]. rewrite fmap_cons. cbn [concat]. rewrite values_of_app, IH, filter_cons.
  destruct (input f) as [c|]; [rewrite values_of_indexer|rewrite decide_False by apply not_elem_of_nil; done]. by case_decide.
Qed.

Lemma emitted_indexer_pair o kv : kv ∈ emitted (indexer_Map o) → Key kv ∈ all_words ∧ Value kv ∈ files.
Proof.
  unfold emitted. rewrite list_elem_of_In, in_concat. intros (l & (file & -> & Hf)%list_elem_of_In%list_elem_of_fmap & Hkv%list_elem_of_In).
  destruct (input file) as [content|] eqn:E; [|by apply elem_of_nil in Hkv]. unfold indexer_Map in Hkv.
  apply list_elem_of_fmap in Hkv as (w & -> & Hw). cbn. split; [|done].
  rewrite reorder_perm, indexer_keys, elem_of_remove_dups in Hw. apply elem_of_all_words. by exists file, content.
Qed.

(** The index.  When a job with indexer.go is done, on input files that have valid names
    and do not have the word [null], output file [r] has a line for every word of the input whose hash falls to [r]: the number of the
    files that contain it and their sorted names, whatever the order in which
    [Map] iterates over its words. *)
Theorem indexer_job_correct (o0 : StrOrder) j (r : nat) :
  "null"%string ∉ all_words → (∀ file, file ∈ files → valid_string file = true) →
  rtc (job_step indexer_Map indexer_Reduce sort input) (start_job files n) j → Done (coord j) = true → (r < n)%nat →
  ∃ ps, fs j !! out_name (Z.of_nat r) = Some (out_text ps)
    ∧ ∀ w out, (w, out) ∈ ps ↔ Z.rem (ihash w) (Z.of_nat n) = Z.of_nat r ∧ documents w ≠ []
        ∧ out = Itoa (go_len (documents w)) +:+ " " +:+ Join (Strings (documents w)) ",".
Proof.
  intros Hnull Hnames Hr Hd Hrn.
  assert (∀ kv, kv ∈ emitted (indexer_Map o0) → word (Key kv) ∧ Key kv ≠ "null"%string ∧ valid_string (Value kv) = true) as Hemit.
  { intros kv [Hk Hv]%emitted_indexer_pair. split_and!; [by apply all_words_words|by intros E; rewrite E in Hk|by apply Hnames]. }
  destruct (job_pairs indexer_Map o0 indexer_Reduce j r (λ o f c, indexer_Map_perm o o0 f c) indexer_Reduce_perm Hemit Hr Hd Hrn)
    as (ps & Hf & Hps).
  exists ps. split; [done|]. intros w out. rewrite Hps, key_values.
  pose proof (emitted_indexer o0 w) as Hp. rewrite (indexer_Reduce_perm w _ _ Hp).
  assert (values_of w (emitted (indexer_Map o0)) ≠ [] ↔ documents w ≠ []) as ->.
  { split; intros Hne E; apply Hne; rewrite E in Hp; [|symmetry in Hp]; by apply Permutation_nil. }
  unfold indexer_Reduce. assert (go_len (Strings (documents w)) = go_len (documents w)) as ->; [|done].
  unfold go_len. f_equal. apply Permutation_length, merge_sort_Permutation.
Qed.
End results.
End apps.
