(* ===== verification/MapReduceRuns.v ===== *)
(** * A MapReduce job with deaths and repeated tasks

    A codec for pairs, ASCII texts, and a run of two input files and two reduce
    tasks in which one worker dies in a map task and another after writing the output of a
    reduce task. *)

From S2P Require Import Prelude GoStrings Util MapReduce MapReduceProps MapReduceJob MapReduceJobProps MRApps.
From Stdlib Require Import Ascii.

(** ** A codec

    A pair is an opening brace and two escaped strings, each with a plus before
    every character and a minus at its end; [null] and a space are an empty pair with
    nothing after it, as the decoder of the worker takes a line that begins so. *)
Fixpoint escape (s : string) : string :=
  match s with EmptyString => "-" | String c s => String "+" (String c (escape s)) end.

Inductive scanning := AtPair | InKey (k : string) | InValue (k v : string).

Fixpoint scan (m : scanning) (s : string) : list KeyValue :=
  match m, s with
  | AtPair, String c s' =>
    if HasPrefix s "null " then [MkKeyValue "" ""] else if Ascii.eqb c "{" then scan (InKey "") s' else []
  | InKey k, String "+" (String c s) => scan (InKey (k +:+ String c EmptyString)) s
  | InKey k, String "-" s => scan (InValue k "") s
  | InValue k v, String "+" (String c s) => scan (InValue k (v +:+ String c EmptyString)) s
  | InValue k v, String "-" s => MkKeyValue k v :: scan AtPair s
  | _, _ => []
  end.

#[local] Instance plain_json : JSON := {|
  json_line kv := String "{" (escape (Key kv) +:+ escape (Value kv));
  json_pairs := scan AtPair;
|}.

Lemma scan_key k s rest : scan (InKey k) (escape s +:+ rest) = scan (InValue (k +:+ s) "") rest.
Proof.
  revert k. induction s as [|c s IH]; intros k; cbn [escape]; rewrite ?append_cons.
  - cbn. by rewrite append_empty_r.
  - cbn. rewrite IH. by rewrite append_assoc.
Qed.

Lemma scan_value k v s rest : scan (InValue k v) (escape s +:+ rest) = MkKeyValue k (v +:+ s) :: scan AtPair rest.
Proof.
  revert v. induction s as [|c s IH]; intros v; cbn [escape]; rewrite ?append_cons.
  - cbn. by rewrite append_empty_r.
  - cbn. rewrite IH. by rewrite append_assoc.
Qed.

#[local] Instance plain_json_laws : JSONLaws.
Proof.
  split. intros kvs _. cbn [json_pairs plain_json]. induction kvs as [|[k v] kvs IH]; [done|].
  rewrite fmap_cons. cbn [lines foldr json_line plain_json Key Value]. rewrite append_cons. cbn [scan].
  rewrite append_assoc, scan_key, scan_value. unfold lines in IH. f_equal. exact IH.
Qed.

(** ** ASCII *)

Fixpoint chars (s : string) : list string :=
  match s with EmptyString => [] | String c s => String c EmptyString :: chars s end.

Definition ascii_letter (s : string) : bool :=
  match s with
  | String c EmptyString => let x := nat_of_ascii c in
      ((65 <=? x) && (x <=? 90))%nat || ((97 <=? x) && (x <=? 122))%nat
  | _ => false
  end.

#[local] Instance ascii_unicode : Unicode := {| runes := chars; IsLetter := ascii_letter |}.

#[local] Instance ascii_unicode_laws : UnicodeLaws.
Proof.
  split.
  - intros s. cbn. induction s as [|c s IH]; [done|]. cbn. unfold lines in IH. rewrite IH. done.
  - intros [|c [|c' r]]; try done. cbn -[Nat.leb]. intros Hl. unfold byte_in.
    assert (nat_of_ascii c <= 127)%nat as Hc%Nat.leb_le.
    { rewrite orb_true_iff, !andb_true_iff, !Nat.leb_le in Hl. lia. }
    by rewrite Hc.
Qed.

Lemma HasPrefix_split p s : HasPrefix s p = true → ∃ rest, s = p +:+ rest.
Proof.
  revert s. induction p as [|c p IH]; intros s H; [by exists s|]. destruct s as [|c' s]; [done|]. cbn in H.
  destruct (ascii_dec c c') as [->|]; [|done]. destruct (IH s H) as [rest ->]. by exists rest.
Qed.

(** A string of letters has no other characters. *)
Lemma letters_no_char c rs : Forall (λ r, ascii_letter r = true) rs → ascii_letter (String c "") = false → has_char c (lines rs) = false.
Proof.
  intros Hrs Hc. induction Hrs as [|r rs Hr _ IH]; [done|]. cbn [lines foldr]. rewrite has_char_app. unfold lines in IH. rewrite IH.
  destruct r as [|c' [|c2 r]]; [done| |done]. cbn [has_char]. destruct (Ascii.eqb_spec c c') as [->|]; [congruence|done].
Qed.

#[local] Instance plain_json_words : JSONWords.
Proof.
  split. intros r rs rest Hl Hne. cbn [json_pairs plain_json]. cbn [IsLetter ascii_unicode] in Hl.
  pose proof (letters_no_char " " _ Hl eq_refl) as Hsp. pose proof (letters_no_char "{" _ Hl eq_refl) as Hbr.
  assert (HasPrefix (lines (r :: rs) +:+ " " +:+ rest) "null " = false) as Hp.
  { destruct (HasPrefix _ _) eqn:E; [|done]. apply HasPrefix_split in E as [rest' E].
    change ("null " +:+ rest') with ("null" +:+ String " " rest') in E. change (" " +:+ rest) with (String " " rest) in E.
    by apply first_char_unique in E as [E _]. }
  destruct (lines (r :: rs)) as [|c w] eqn:Ew.
  - apply Forall_cons in Hl as [Hr _]. destruct r; [done|]. cbn [lines foldr] in Ew. by rewrite append_cons in Ew.
  - rewrite append_cons in *. cbn [scan]. rewrite Hp. cbn [has_char] in Hbr. apply orb_false_iff in Hbr as [Hbr _].
    destruct (Ascii.eqb_spec c "{") as [->|]; [by rewrite Ascii.eqb_refl in Hbr|done].
Qed.

Example words_example : words_of "It was, it is!" = ["It"; "was"; "it"; "is"].
Proof. vm_compute. reflexivity. Qed.

(** ** The run *)

Definition by_key : list KeyValue → list KeyValue := merge_sort key_le.

Lemma by_key_perm l : by_key l ≡ₚ l.
Proof. apply merge_sort_Permutation. Qed.

#[local] Instance key_le_total : Total key_le.
Proof. intros a b. unfold key_le. apply String.leb_total. Qed.
#[local] Instance key_le_trans : Transitive key_le.
Proof.
  intros a b c. unfold key_le. intros H1%Is_true_true H2%Is_true_true. apply Is_true_true.
  by apply (transitivity (R := String.le) (y := Key b)).
Qed.

Lemma by_key_sorted l : StronglySorted key_le (by_key l).
Proof. apply (StronglySorted_merge_sort key_le). Qed.

Definition two_inputs (file : string) : option string :=
  if bool_decide (file = "in0"%string) then Some "to be or not"
  else if bool_decide (file = "in1"%string) then Some "to be" else None.
Definition two_files : list string := ["in0"; "in1"]%string.

Definition do_map {O} (pid : Z) (o : O) : list (JAction (O := O)) :=
  [JGet pid; JMap pid o; JRename pid; JRename pid; JRename pid; JReport pid true].
Definition do_reduce {O} (pid : Z) (reads : nat) : list (JAction (O := O)) :=
  [JGet pid; JGlob pid] ++ replicate (S reads) (JRead pid) ++ [JOut pid].

Definition job_run {O} (o : O) : list (JAction (O := O)) :=
  [JStart 1; JGet 1; JMap 1 o; JRename 1; JStop 1; JTimer 0; JStart 2]
  ++ do_map 2 o ++ do_map 2 o ++ do_reduce 2 2 ++ [JStop 2; JTimer 0; JStart 3]
  ++ do_reduce 3 3 ++ [JReport 3 true] ++ do_reduce 3 2 ++ [JReport 3 true].

Section runs.
Context {O : Type} (mapf : O → string → string → list KeyValue) (reducef : string → list string → string).
Context (input : string → option string).

(** No worker holds the task of the timer that runs out. *)
Definition timelyb (j : Job) (act : JAction (O := O)) : bool :=
  match act with
  | JTimer k =>
    match waiting (coord j) !! k with
    | Some (t, i) => forallb (λ p : Z * WPC, negb (bool_decide (holds p.2 = Some (t, Z.of_nat i)))) (map_to_list (workers j))
    | None => true
    end
  | _ => true
  end.

Lemma timelyb_spec j act : timelyb j act = true → timely j act.
Proof.
  destruct act; try done. cbn. destruct (waiting (coord j) !! k) as [[t i]|]; [|done].
  intros Hall%Is_true_true%forallb_True t' i' [= <- <-] (pid & p & Hp & Ho). rewrite Forall_forall in Hall.
  specialize (Hall (pid, p) ltac:(by apply elem_of_map_to_list)). cbn in Hall. by rewrite bool_decide_eq_true_2 in Hall.
Qed.

Fixpoint job_execs (acts : list (JAction (O := O))) (j : Job) : option Job :=
  match acts with
  | [] => Some j
  | act :: acts => if timelyb j act then j ← job_exec mapf reducef by_key input act j; job_execs acts j else None
  end.

Lemma job_execs_run acts j j' : job_execs acts j = Some j' → rtc (job_step mapf reducef by_key input) j j'.
Proof.
  revert j. induction acts as [|act acts IH]; intros j E; cbn in E; [by simplify_eq|].
  destruct (timelyb j act) eqn:Et; [|done]. apply bind_Some in E as (j1 & E1 & E).
  eapply rtc_l; [by exists act; split; [apply timelyb_spec|]|]. by apply IH.
Qed.

Definition after_job (o : O) : Job := default (start_job two_files 2) (job_execs (job_run o) (start_job two_files 2)).

Lemma after_job_reachable o : is_Some (job_execs (job_run o) (start_job two_files 2)) →
  rtc (job_step mapf reducef by_key input) (start_job two_files 2) (after_job o).
Proof. intros [j E]. unfold after_job. rewrite E. by eapply job_execs_run. Qed.
End runs.

Definition wc_mapf (_ : unit) : string → string → list KeyValue := wc_Map.
Definition wc_end : Job := after_job wc_mapf wc_Reduce two_inputs tt.

Lemma is_Some_bool {A} (o : option A) : (if o then true else false) = true → is_Some o.
Proof. destruct o; [by eexists|done]. Qed.

Lemma wc_end_reachable : rtc (job_step wc_mapf wc_Reduce by_key two_inputs) (start_job two_files 2) wc_end.
Proof. apply after_job_reachable, is_Some_bool. vm_compute. reflexivity. Qed.

Lemma wc_out_not_json r : (r < 2)%nat → json_pairs (ref_text wc_mapf tt wc_Reduce by_key two_inputs two_files 2 r) = [].
Proof. intros Hr. destruct r as [|[|r]]; [vm_compute; reflexivity|vm_compute; reflexivity|lia]. Qed.

Lemma wc_no_null : "null"%string ∉ all_words two_inputs two_files.
Proof. apply (bool_decide_unpack _). vm_compute. exact I. Qed.

Lemma wc_emit_valid m kv : kv ∈ map_pairs wc_mapf tt two_inputs two_files m → valid_pair kv = true.
Proof.
  intros Hkv. assert (∃ l, l ∈ [map_pairs wc_mapf tt two_inputs two_files 0; map_pairs wc_mapf tt two_inputs two_files 1] ∧ kv ∈ l) as (l & Hl & Hin).
  { destruct m as [|[|m]]; [eexists; split; [by left|done]|eexists; split; [right; by left|done]|by apply elem_of_nil in Hkv]. }
  assert (Forall (Forall (λ kv, valid_pair kv = true)) [map_pairs wc_mapf tt two_inputs two_files 0; map_pairs wc_mapf tt two_inputs two_files 1]) as Hall
    by (apply (bool_decide_unpack _); vm_compute; exact I).
  rewrite Forall_forall in Hall. specialize (Hall l Hl). rewrite Forall_forall in Hall. by apply Hall.
Qed.

Lemma two_inputs_exist file : file ∈ two_files → is_Some (two_inputs file).
Proof. intros [->|[->|[]%elem_of_nil]%elem_of_cons]%elem_of_cons; by eexists. Qed.

Lemma wc_map_perm o f c : wc_mapf o f c ≡ₚ wc_mapf tt f c.
Proof. done. Qed.

(** The files of the run *)
Example wc_end_files :
  (fs wc_end !! "mr-out-0"%string, fs wc_end !! "mr-out-1"%string)
  = (Some (out_text [("be", "2"); ("not", "1"); ("or", "1"); ("to", "2")]), Some "")%string.
Proof. vm_compute. reflexivity. Qed.

Lemma mr_job_correct_witness :
  Done (coord wc_end) = true ∧ ∃ outs seqs, length outs = 2%nat
    ∧ (∀ (r : nat) ps, outs !! r = Some ps → fs wc_end !! out_name (Z.of_nat r) = Some (out_text ps))
    ∧ mrsequential wc_mapf wc_Reduce by_key two_inputs tt two_files = Some seqs ∧ concat outs ≡ₚ seqs.
Proof.
  split; [vm_compute; reflexivity|].
  apply (mr_job_correct wc_mapf tt wc_Reduce by_key two_inputs two_files 2 wc_map_perm by_key_perm by_key_sorted
    wc_Reduce_perm); [lia|exact wc_emit_valid|exact wc_out_not_json|exact two_inputs_exist|exact wc_end_reachable|vm_compute; reflexivity].
Defined.

Lemma wc_job_correct_witness :
  ∃ ps, fs wc_end !! out_name 0 = Some (out_text ps)
    ∧ (("be"%string, Itoa 2) ∈ ps ↔ Z.rem (ihash "be") 2 = 0 ∧ "be"%string ∈ all_words two_inputs two_files
       ∧ Itoa 2 = Itoa (occurrences "be" (all_words two_inputs two_files))).
Proof.
  destruct (wc_job_correct by_key two_inputs two_files 2 by_key_perm by_key_sorted ltac:(lia) wc_end 0%nat
    wc_no_null wc_end_reachable) as (ps & Hf & Hps); [vm_compute; reflexivity|lia|].
  exists ps. split; [exact Hf|apply Hps].
Defined.

(** The same run with the indexer *)
Definition same_order : StrOrder := MkStrOrder (λ l, l) (λ l, reflexivity l).
Definition indexer_end : Job := after_job indexer_Map indexer_Reduce two_inputs same_order.

Lemma indexer_end_reachable : rtc (job_step indexer_Map indexer_Reduce by_key two_inputs) (start_job two_files 2) indexer_end.
Proof. apply after_job_reachable, is_Some_bool. vm_compute. reflexivity. Qed.

Lemma two_files_valid file : file ∈ two_files → valid_string file = true.
Proof. intros [->|[->|[]%elem_of_nil]%elem_of_cons]%elem_of_cons; reflexivity. Qed.

Lemma indexer_job_correct_witness :
  documents two_inputs two_files "to" = two_files
  ∧ ∃ ps, fs indexer_end !! out_name 0 = Some (out_text ps)
    ∧ (("to"%string, "2 in0,in1"%string) ∈ ps ↔ Z.rem (ihash "to") 2 = 0 ∧ documents two_inputs two_files "to" ≠ []
       ∧ "2 in0,in1"%string = Itoa (go_len (documents two_inputs two_files "to")) +:+ " "
           +:+ Join (Strings (documents two_inputs two_files "to")) ",").
Proof.
  split; [vm_compute; reflexivity|].
  destruct (indexer_job_correct by_key two_inputs two_files 2 by_key_perm by_key_sorted ltac:(lia) same_order indexer_end 0%nat
    wc_no_null two_files_valid indexer_end_reachable) as (ps & Hf & Hps); [vm_compute; reflexivity|lia|].
  exists ps. split; [exact Hf|apply Hps].
Defined.

(** ** One job in the large *)

Definition outs2 : list (list KeyValue) :=
  [[MkKeyValue "b" "1"; MkKeyValue "a" "1"]; [MkKeyValue "a" "2"]]%string.

Lemma outs2_valid kv : kv ∈ concat outs2 → valid_pair kv = true.
Proof.
  assert (Forall (λ kv, valid_pair kv = true) (concat outs2)) as Hall by (apply (bool_decide_unpack _); vm_compute; exact I).
  rewrite Forall_forall in Hall. apply Hall.
Qed.

Lemma mapreduce_correct_witness :
  ∃ texts groups, reduce_task by_key wc_Reduce texts = Some ((λ g : string * list string, (g.1, wc_Reduce g.1 g.2)) <$> groups)
    ∧ ∃ vs, ("a"%string, vs) ∈ groups ∧ vs ≡ₚ ["1"; "2"]%string.
Proof.
  destruct (mapreduce_correct outs2 1 by_key wc_Reduce) as (parts & _ & Hr); [lia|exact outs2_valid|exact by_key_perm|exact by_key_sorted|].
  destruct (Hr 0%nat ltac:(lia)) as (column & _ & Hc). destruct (Hc column (reflexivity _)) as (groups & Hg & _ & Hk).
  exists column, groups. split; [exact Hg|]. specialize (Hk "a"%string).
  rewrite decide_True in Hk; [|split; [vm_compute; reflexivity|apply (bool_decide_unpack _); vm_compute; exact I]].
  destruct Hk as (vs & Hvs & Hp). exists vs. split; [exact Hvs|]. rewrite Hp. vm_compute. reflexivity.
Defined.

(** ** A word that is JSON

    The first word of the only output file is [null].  A worker writes the file and
    dies before it reports; the reduce task is executed again, on the intermediate file
    and on the output, whose first line is decoded to an empty pair. *)

Definition null_input (file : string) : option string :=
  if bool_decide (file = "in"%string) then Some "null zebra" else None.

Definition null_run : list (JAction (O := unit)) :=
  [JStart 1; JGet 1; JMap 1 tt; JRename 1; JRename 1; JReport 1 true] ++ do_reduce 1 1
  ++ [JStop 1; JTimer 0; JStart 2] ++ do_reduce 2 2 ++ [JReport 2 true].

Definition null_end : Job :=
  default (start_job ["in"%string] 1) (job_execs wc_mapf wc_Reduce null_input null_run (start_job ["in"%string] 1)).

Lemma null_reduced_again :
  rtc (job_step wc_mapf wc_Reduce by_key null_input) (start_job ["in"%string] 1) null_end ∧ Done (coord null_end) = true
  ∧ fs null_end !! out_name 0 = Some (out_text [("", "1"); ("null", "1"); ("zebra", "1")])%string.
Proof.
  split; [|split; vm_compute; reflexivity].
  assert (is_Some (job_execs wc_mapf wc_Reduce null_input null_run (start_job ["in"%string] 1))) as [j E]
    by (apply is_Some_bool; vm_compute; reflexivity).
  unfold null_end. rewrite E. by eapply job_execs_run.
Qed.
