(* ===== verification/Bitset.v ===== *)
(** * porcupine/bitset.go

    The bitsets of the linearizability checker: slices of 64-bit words.  A word is
    a [Z] in [0, 2^64); an index out of range panics ([None]).  The lemmas
    relate the operations to [has], membership of a position in a bitset. *)

From S2P Require Import Prelude.

Notation bitset := (list Z).

(** [newBitset] *)
Definition newBitset (bits : Z) : bitset :=
  let extra := if negb (bits mod 64 =? 0) then 1 else 0 in
  let chunks := bits / 64 + extra in
  replicate (Z.to_nat chunks) 0.

(** [bitsetIndex] *)
Definition bitsetIndex (pos : Z) : Z * Z := (pos / 64, pos mod 64).

(** [copy(dst, src)] overwrites the first [min(len(dst), len(src))] elements. *)
Definition go_copy {A} (dst src : list A) : list A := take (length dst) src ++ drop (length src) dst.

(** [clone] copies the words: later writes to the original do not reach it. *)
Definition clone (b : bitset) : bitset := go_copy (replicate (length b) 0) b.

(** [b.set(pos)] *)
Definition bit_set (b : bitset) (pos : Z) : option bitset :=
  let '(major, minor) := bitsetIndex pos in
  v ← b.[major]; go_update b major (Z.lor v (Z.shiftl 1 minor)).

(** [b.clear(pos)] *)
Definition bit_clear (b : bitset) (pos : Z) : option bitset :=
  let '(major, minor) := bitsetIndex pos in
  v ← b.[major]; go_update b major (Z.ldiff v (Z.shiftl 1 minor)).

(** [b.get(pos)] *)
Definition bit_get (b : bitset) (pos : Z) : option bool :=
  let '(major, minor) := bitsetIndex pos in
  v ← b.[major]; Some (negb (Z.land v (Z.shiftl 1 minor) =? 0)).

(** [bits.OnesCount64] *)
Definition OnesCount64 (v : Z) : Z :=
  foldr (λ k acc, (if Z.testbit v (Z.of_nat k) then 1 else 0) + acc) 0 (seq 0 64).

Definition popcnt (b : bitset) : Z := foldl (λ total v, total + OnesCount64 v) 0 b.

Definition hash (b : bitset) : Z := foldl Z.lxor (popcnt b mod 2 ^ 64) b.

(** [b.equals(b2)] *)
Fixpoint equal_words (b b2 : bitset) : bool :=
  match b, b2 with
  | v :: b, v2 :: b2 => if negb (v =? v2) then false else equal_words b b2
  | _, _ => true
  end.
Definition equals (b b2 : bitset) : bool :=
  if negb (go_len b =? go_len b2) then false else equal_words b b2.

(** ** Words and positions *)

Definition word (v : Z) : Prop := 0 <= v < 2 ^ 64.
Definition bitset_wf (b : bitset) : Prop := Forall word b.

(** [pos] is in the set [b]. *)
Definition has (b : bitset) (pos : Z) : bool :=
  match b.[pos / 64] with Some v => Z.testbit v (pos mod 64) | None => false end.

Lemma clone_eq b : clone b = b.
Proof.
  unfold clone, go_copy. rewrite length_replicate, take_ge, drop_ge, app_nil_r by (rewrite ?length_replicate; lia). done.
Qed.

Lemma equals_eq b b2 : equals b b2 = true ↔ b = b2.
Proof.
  unfold equals, go_len. revert b2. induction b as [|v b IH]; intros [|v2 b2]; try done.
  specialize (IH b2). cbn [length equal_words].
  destruct (Z.eqb_spec (Z.of_nat (length b)) (Z.of_nat (length b2)));
    destruct (Z.eqb_spec (Z.of_nat (S (length b))) (Z.of_nat (S (length b2)))); try lia; cbn [negb] in *.
  - destruct (Z.eqb_spec v v2); cbn; [|by split; intros; simplify_eq]. subst. rewrite IH. split; congruence.
  - split; [done|]. intros [=-> ->]. done.
Qed.

Lemma word_bits v : word v ↔ 0 <= v ∧ ∀ k, 64 <= k → Z.testbit v k = false.
Proof.
  split.
  - intros [H0 H]. split; [done|]. intros k Hk. destruct (Z.eq_dec v 0) as [->|]; [apply Z.bits_0|].
    apply Z.bits_above_log2; [done|]. apply Z.log2_lt_pow2; [lia|]. eapply Z.lt_le_trans; [apply H|].
    apply Z.pow_le_mono_r; lia.
  - intros [H0 H]. split; [done|]. destruct (Z.eq_dec v 0) as [->|]; [lia|].
    apply Z.log2_lt_pow2; [lia|]. destruct (Z.le_gt_cases 64 (Z.log2 v)) as [Hl|]; [|done].
    specialize (H _ Hl). rewrite Z.bit_log2 in H by lia. done.
Qed.

Lemma shiftl_1_testbit m k : 0 <= m → Z.testbit (Z.shiftl 1 m) k = (k =? m).
Proof.
  intros Hm. rewrite Z.shiftl_1_l. destruct (Z.eqb_spec k m) as [->|].
  - by apply Z.pow2_bits_true.
  - apply Z.pow2_bits_false; lia.
Qed.

Lemma word_set v m : word v → 0 <= m < 64 → word (Z.lor v (Z.shiftl 1 m)).
Proof.
  rewrite !word_bits. intros [H0 H] Hm. split.
  - apply Z.lor_nonneg. split; [done|]. apply Z.shiftl_nonneg. lia.
  - intros k Hk. rewrite Z.lor_spec, H, shiftl_1_testbit by lia. cbn. apply Z.eqb_neq. lia.
Qed.

Lemma word_clear v m : word v → 0 <= m < 64 → word (Z.ldiff v (Z.shiftl 1 m)).
Proof.
  rewrite !word_bits. intros [H0 H] Hm. split.
  - apply Z.ldiff_nonneg. by left.
  - intros k Hk. by rewrite Z.ldiff_spec, H.
Qed.

Lemma pos_split p q : 0 <= p → 0 <= q → (p =? q) = (p / 64 =? q / 64) && (p mod 64 =? q mod 64).
Proof.
  intros. pose proof (Z.div_mod p 64). pose proof (Z.div_mod q 64).
  destruct (Z.eqb_spec p q) as [->|]; [by rewrite !Z.eqb_refl|].
  destruct (Z.eqb_spec (p / 64) (q / 64)), (Z.eqb_spec (p mod 64) (q mod 64)); cbn; lia.
Qed.

Section update.
Context (b : bitset) (pos : Z) (Hpos : 0 <= pos < 64 * go_len b).

Lemma word_at : ∃ v, b.[pos / 64] = Some v.
Proof using Hpos.
  apply go_index_lt. split; [apply Z.div_pos; lia|]. apply Z.div_lt_upper_bound; lia.
Qed.

(** A write to one word, as a change of membership. *)
Lemma has_update v x :
  b.[pos / 64] = Some v →
  ∃ b', go_update b (pos / 64) x = Some b' ∧ go_len b' = go_len b ∧ (word x → bitset_wf b → bitset_wf b') ∧
    ∀ q, 0 <= q → has b' q = if q / 64 =? pos / 64 then Z.testbit x (q mod 64) else has b q.
Proof using Hpos.
  intros Hv. assert (0 <= pos / 64 < go_len b) as Hr by (apply go_index_is_Some; eauto).
  exists (<[Z.to_nat (pos / 64) := x]> b). split; [by apply go_update_eq|]. split; [|split].
  - unfold go_len. by rewrite length_insert.
  - intros Hx Hb. by apply Forall_insert.
  - intros q Hq. unfold has, go_index. pose proof (Z.div_pos q 64 Hq ltac:(lia)).
    destruct (Z.ltb_spec (q / 64) 0); [lia|]. unfold go_len in Hr.
    destruct (Z.eqb_spec (q / 64) (pos / 64)) as [->|Hne].
    + rewrite list_lookup_insert_eq by lia. done.
    + rewrite list_lookup_insert_ne by lia. done.
Qed.

Lemma bit_set_spec :
  ∃ b', bit_set b pos = Some b' ∧ go_len b' = go_len b ∧ (bitset_wf b → bitset_wf b') ∧
    ∀ q, 0 <= q → has b' q = (q =? pos) || has b q.
Proof using Hpos.
  destruct word_at as [v Hv]. unfold bit_set, bitsetIndex. rewrite Hv. cbn.
  destruct (has_update v (Z.lor v (Z.shiftl 1 (pos mod 64))) Hv) as (b' & -> & Hl & Hwf & Hh).
  pose proof (Z.mod_pos_bound pos 64 ltac:(lia)).
  exists b'. split; [done|]. split; [done|]. split.
  - intros Hb. apply Hwf; [|done]. apply word_set; [|done].
    apply go_index_lookup in Hv as [_ Hv]. by eapply Forall_lookup_1.
  - intros q Hq. rewrite Hh, (pos_split q pos) by lia. unfold has. destruct (Z.eqb_spec (q / 64) (pos / 64)) as [->|]; [|done].
    rewrite Hv, Z.lor_spec, shiftl_1_testbit by lia. cbn. apply orb_comm.
Qed.

Lemma bit_clear_spec :
  ∃ b', bit_clear b pos = Some b' ∧ go_len b' = go_len b ∧ (bitset_wf b → bitset_wf b') ∧
    ∀ q, 0 <= q → has b' q = negb (q =? pos) && has b q.
Proof using Hpos.
  destruct word_at as [v Hv]. unfold bit_clear, bitsetIndex. rewrite Hv. cbn.
  destruct (has_update v (Z.ldiff v (Z.shiftl 1 (pos mod 64))) Hv) as (b' & -> & Hl & Hwf & Hh).
  pose proof (Z.mod_pos_bound pos 64 ltac:(lia)).
  exists b'. split; [done|]. split; [done|]. split.
  - intros Hb. apply Hwf; [|done]. apply word_clear; [|done].
    apply go_index_lookup in Hv as [_ Hv]. by eapply Forall_lookup_1.
  - intros q Hq. rewrite Hh, (pos_split q pos) by lia. unfold has. destruct (Z.eqb_spec (q / 64) (pos / 64)) as [->|]; [|done].
    rewrite Hv, Z.ldiff_spec, shiftl_1_testbit by lia. cbn. apply andb_comm.
Qed.

Lemma bit_get_spec : bit_get b pos = Some (has b pos).
Proof using Hpos.
  destruct word_at as [v Hv]. unfold bit_get, bitsetIndex, has. rewrite Hv. cbn. f_equal.
  pose proof (Z.mod_pos_bound pos 64 ltac:(lia)).
  assert (Z.land v (Z.shiftl 1 (pos mod 64)) = if Z.testbit v (pos mod 64) then Z.shiftl 1 (pos mod 64) else 0) as ->.
  { apply Z.bits_inj'. intros k Hk. rewrite Z.land_spec, shiftl_1_testbit by lia.
    destruct (Z.eqb_spec k (pos mod 64)) as [->|].
    - destruct (Z.testbit v (pos mod 64)); [|by rewrite Z.bits_0].
      rewrite shiftl_1_testbit by lia. by rewrite Z.eqb_refl.
    - destruct (Z.testbit v (pos mod 64)); rewrite ?Z.bits_0, ?shiftl_1_testbit by lia; rewrite andb_false_r;
        [symmetry; by apply Z.eqb_neq|done]. }
  destruct (Z.testbit v (pos mod 64)); [|done]. rewrite Z.shiftl_1_l.
  pose proof (Z.pow_pos_nonneg 2 (pos mod 64)). destruct (Z.eqb_spec (2 ^ (pos mod 64)) 0); [lia|done].
Qed.
End update.

Lemma newBitset_len n : 0 <= n → n <= 64 * go_len (newBitset n) < n + 64.
Proof.
  intros Hn. unfold newBitset, go_len. rewrite length_replicate. pose proof (Z.div_mod n 64).
  pose proof (Z.mod_pos_bound n 64). pose proof (Z.div_pos n 64).
  destruct (Z.eqb_spec (n mod 64) 0); cbn [negb]; lia.
Qed.

Lemma newBitset_wf n : bitset_wf (newBitset n).
Proof. apply Forall_replicate. unfold word. lia. Qed.

Lemma newBitset_has n q : has (newBitset n) q = false.
Proof.
  unfold has, newBitset. destruct (go_index _ _) as [v|] eqn:E; [|done].
  apply go_index_lookup in E as [_ E]. apply lookup_replicate in E as [-> _]. apply Z.bits_0.
Qed.

(** Clearing a position that was just set gives back the words. *)
Lemma bit_set_clear b pos b' :
  0 <= pos → bitset_wf b → bit_set b pos = Some b' → has b pos = false → bit_clear b' pos = Some b.
Proof.
  unfold bit_set, bit_clear, bitsetIndex, has. intros Hp Hb Hs Hn. destruct (b.[pos / 64]) as [v|] eqn:Hv; [|done].
  cbn in Hs. apply go_update_Some in Hs as [Hr ->]. unfold go_len in Hr.
  pose proof (Z.mod_pos_bound pos 64 ltac:(lia)). apply go_index_lookup in Hv as [_ Hv].
  unfold go_index at 1. destruct (Z.ltb_spec (pos / 64) 0); [lia|]. rewrite list_lookup_insert_eq by lia. cbn.
  rewrite go_update_eq by (unfold go_len; rewrite length_insert; lia). rewrite list_insert_insert_eq. f_equal.
  replace (Z.ldiff _ _) with v; [by apply list_insert_id|]. apply Z.bits_inj'. intros k Hk.
  rewrite Z.ldiff_spec, Z.lor_spec, shiftl_1_testbit by lia. destruct (Z.eqb_spec k (pos mod 64)) as [->|]; cbn.
  - by rewrite andb_false_r.
  - by rewrite orb_false_r, andb_true_r.
Qed.
