(* ===== verification/Porcupine.v ===== *)
(** * porcupine/model.go, porcupine/checker.go, porcupine/porcupine.go, models/kv.go

    The linearizability checker of the labs, and the model of the key/value
    service it is run with.

    The checker works on a doubly linked list of call and return nodes that it
    edits in place.  The nodes are in a store, a list indexed by address; a
    pointer is an [option nat], [None] for [nil], and reading through [nil]
    panics ([None] in the option monad).  [interface{}] values are a type [V],
    states of the model a type [St]; a model's step function can panic, because
    it starts with type assertions.

    [checkSingle] reads a flag that another goroutine may raise: [kill t] is what
    the iteration numbered [t] reads.  Its loop takes fuel; PorcupineSearch.v
    shows that it always ends.  What describes operations and states in words is
    in Visualization.v. *)

From S2P Require Import Prelude Bitset.

(** ** model.go *)

Record Operation (V : Type) := MkOperation {
  ClientId : Z;
  Input : V;
  Call : Z;
  Output : V;
  Return : Z;
}.
Arguments MkOperation {V}. Arguments ClientId {V}. Arguments Input {V}.
Arguments Call {V}. Arguments Output {V}. Arguments Return {V}.

Inductive EventKind := CallEvent | ReturnEvent.

Record Event (V : Type) := MkEvent {
  ev_ClientId : Z;
  ev_Kind : EventKind;
  ev_Value : V;
  ev_Id : Z;
}.
Arguments MkEvent {V}. Arguments ev_ClientId {V}. Arguments ev_Kind {V}.
Arguments ev_Value {V}. Arguments ev_Id {V}.

(** [Model], as the caller writes it: the functions it may leave [nil] are
    options. *)
Record Model (V St : Type) := MkModel {
  Partition : option (list (Operation V) → option (list (list (Operation V))));
  PartitionEvent : option (list (Event V) → option (list (list (Event V))));
  Init : St;
  Step : St → V → V → option (bool * St);
  Equal : option (St → St → bool);
}.
Arguments MkModel {V St}. Arguments Partition {V St}. Arguments PartitionEvent {V St}.
Arguments Init {V St}. Arguments Step {V St}. Arguments Equal {V St}.

Definition NoPartition {V} (history : list (Operation V)) : option (list (list (Operation V))) := Some [history].
Definition NoPartitionEvent {V} (history : list (Event V)) : option (list (list (Event V))) := Some [history].
Definition ShallowEqual {St} `{EqDecision St} (state1 state2 : St) : bool := bool_decide (state1 = state2).

Inductive CheckResult := Unknown | Ok | Illegal.

(** ** checker.go: entries *)

Inductive entryKind := callEntry | returnEntry.

#[global] Instance entryKind_eq_dec : EqDecision entryKind.
Proof. solve_decision. Defined.

Record entry (V : Type) := MkEntry {
  kind : entryKind;
  value : V;
  id : Z;
  time : Z;
  clientId : Z;
}.
Arguments MkEntry {V}. Arguments kind {V}. Arguments value {V}.
Arguments id {V}. Arguments time {V}. Arguments clientId {V}.

(** [byTime.Less] *)
Definition byTime_Less {V} (a b : entry V) : bool :=
  if negb (time a =? time b) then time a <? time b
  else bool_decide (kind a = callEntry) && bool_decide (kind b = returnEntry).

(** [sort.Sort(byTime(entries))]: Go promises a permutation in which no entry is
    less than one before it, and leaves the order of ties open. *)
Class EntrySort (V : Type) := { sort_entries : list (entry V) → list (entry V) }.
Class EntrySortLaws (V : Type) `{!EntrySort V} := {
  sort_entries_perm es : sort_entries es ≡ₚ es;
  sort_entries_sorted es i j a b :
    (i < j)%nat → sort_entries es !! i = Some a → sort_entries es !! j = Some b → byTime_Less b a = false;
}.

(** The loop of [makeEntries]. *)
Fixpoint make_entries_from {V} (id : Z) (history : list (Operation V)) : list (entry V) :=
  match history with
  | [] => []
  | elem :: history =>
      MkEntry callEntry (Input elem) id (Call elem) (ClientId elem)
      :: MkEntry returnEntry (Output elem) id (Return elem) (ClientId elem)
      :: make_entries_from (id + 1) history
  end.

Definition makeEntries {V} `{!EntrySort V} (history : list (Operation V)) : list (entry V) :=
  sort_entries (make_entries_from 0 history).

(** [renumber]: the loop, with the renumbering map [m] and the next id. *)
Fixpoint renumber_loop {V} (m : gmap Z Z) (next : Z) (events : list (Event V)) : list (Event V) :=
  match events with
  | [] => []
  | v :: events =>
      match m !! ev_Id v with
      | Some r => MkEvent (ev_ClientId v) (ev_Kind v) (ev_Value v) r :: renumber_loop m next events
      | None => MkEvent (ev_ClientId v) (ev_Kind v) (ev_Value v) next
                :: renumber_loop (<[ev_Id v := next]> m) (next + 1) events
      end
  end.
Definition renumber {V} (events : list (Event V)) : list (Event V) := renumber_loop ∅ 0 events.

Definition convertEntries {V} (events : list (Event V)) : list (entry V) :=
  imap (λ i elem,
    MkEntry (match ev_Kind elem with ReturnEvent => returnEntry | CallEvent => callEntry end)
      (ev_Value elem) (ev_Id elem) (Z.of_nat i) (ev_ClientId elem)) events.

(** ** checker.go: the linked list *)

Record node (V : Type) := MkNode {
  node_value : option V;
  node_match : option nat;
  node_id : Z;
  next : option nat;
  prev : option nat;
}.
Arguments MkNode {V}. Arguments node_value {V}. Arguments node_match {V}.
Arguments node_id {V}. Arguments next {V}. Arguments prev {V}.

Notation heap V := (list (node V)).

Section linked_list.
Context {V : Type}.
Implicit Types (h : heap V) (p : option nat).

(** [*p], [p.next = x] and [p.prev = x]; [p] may be [nil]. *)
Definition deref h p : option (node V) := l ← p; h !! l.

Definition with_next (nd : node V) (x : option nat) : node V :=
  MkNode (node_value nd) (node_match nd) (node_id nd) x (prev nd).
Definition with_prev (nd : node V) (x : option nat) : node V :=
  MkNode (node_value nd) (node_match nd) (node_id nd) (next nd) x.

Definition set_next h p (x : option nat) : option (heap V) :=
  l ← p; nd ← h !! l; Some (<[l := with_next nd x]> h).
Definition set_prev h p (x : option nat) : option (heap V) :=
  l ← p; nd ← h !! l; Some (<[l := with_prev nd x]> h).

(** [&node{...}] *)
Definition alloc h (nd : node V) : heap V * nat := (h ++ [nd], length h).

Definition insertBefore h (n : nat) (mark : option nat) : option (heap V) :=
  match mark with
  | None => Some h
  | Some _ =>
      beforeMark ← prev <$> deref h mark;
      h ← set_prev h mark (Some n);
      h ← set_next h (Some n) mark;
      match beforeMark with
      | None => Some h
      | Some _ => h ← set_prev h (Some n) beforeMark; set_next h beforeMark (Some n)
      end
  end.

(** [length(n)]: the loop over [n = n.next], with fuel. *)
Fixpoint node_length (fuel : nat) h (n : option nat) : option Z :=
  match n with
  | None => Some 0
  | Some _ =>
      match fuel with
      | O => None
      | S fuel => nd ← deref h n; l ← node_length fuel h (next nd); Some (l + 1)
      end
  end.

(** [makeLinkedEntries]: the loop runs over the entries from the last to the
    first; [root] and the map from ids to return nodes are its variables. *)
Fixpoint makeLinkedEntries (entries : list (entry V)) : option (heap V * option nat * gmap Z nat) :=
  match entries with
  | [] => Some ([], None, ∅)
  | elem :: entries =>
      '(h, root, matches) ← makeLinkedEntries entries;
      match kind elem with
      | returnEntry =>
          let '(h, l) := alloc h (MkNode (Some (value elem)) None (id elem) None None) in
          h ← insertBefore h l root;
          Some (h, Some l, <[id elem := l]> matches)
      | callEntry =>
          let '(h, l) := alloc h (MkNode (Some (value elem)) (matches !! id elem) (id elem) None None) in
          h ← insertBefore h l root;
          Some (h, Some l, matches)
      end
  end.

Definition lift h (entry : nat) : option (heap V) :=
  e ← h !! entry; h ← set_next h (prev e) (next e);
  e ← h !! entry; h ← set_prev h (next e) (prev e);
  e ← h !! entry; let matching := node_match e in
  m ← deref h matching; h ← set_next h (prev m) (next m);
  m ← deref h matching;
  match next m with None => Some h | Some _ => set_prev h (next m) (prev m) end.

Definition unlift h (entry : nat) : option (heap V) :=
  e ← h !! entry; let matching := node_match e in
  m ← deref h matching; h ← set_next h (prev m) matching;
  m ← deref h matching;
  h ← match next m with None => Some h | Some _ => set_prev h (next m) matching end;
  e ← h !! entry; h ← set_next h (prev e) (Some entry);
  e ← h !! entry; set_prev h (next e) (Some entry).
End linked_list.

(** ** checker.go: the search *)

Section checker.
Context {V St : Type} (model_Step : St → V → V → option (bool * St)) (model_Equal : St → St → bool)
  (model_Init : St).

(** [cacheEntry] *)
Notation cacheEntry := (bitset * St)%type.
(** [map[uint64][]cacheEntry] *)
Notation cacheMap := (gmap Z (list cacheEntry)).

Definition bucket (cache : cacheMap) (h : Z) : list cacheEntry := default [] (cache !! h).

Definition cacheContains (cache : cacheMap) (e : cacheEntry) : bool :=
  existsb (λ elem, equals e.1 elem.1 && model_Equal e.2 elem.2) (bucket cache (hash e.1)).

(** The variables of [checkSingle]'s loop.  [longest] holds pointers to slices
    of ids; [seqs] is the store of those slices. *)
Record search := MkSearch {
  nodes : heap V;
  cur : option nat;
  linearized : bitset;
  cache : cacheMap;
  calls : list (nat * St);
  state : St;
  seqs : list (list Z);
  longest : list (option nat);
}.

(** [[]*[]int] as the caller reads it *)
Definition read_longest (c : search) : list (option (nat * list Z)) :=
  (λ p, l ← p; s ← seqs c !! l; Some (l, s)) <$> longest c.

(** [seq[i] = v.entry.id] for all calls *)
Definition call_ids (h : heap V) (cs : list (nat * St)) : option (list Z) :=
  mapM (λ v, node_id <$> h !! v.1) cs.

(** The loop over [calls] that updates [longest]; [made] is the pointer to
    [seq] once it exists. *)
Fixpoint update_longest (h : heap V) (all vs : list (nat * St)) (made : option nat)
    (ss : list (list Z)) (lg : list (option nat)) : option (list (list Z) * list (option nat)) :=
  match vs with
  | [] => Some (ss, lg)
  | v :: vs =>
      i ← node_id <$> h !! v.1;
      p ← lg.[i];
      better ← match p with
               | None => Some true
               | Some l => s ← ss !! l; Some (go_len all >? go_len s)
               end;
      if (better : bool) then
        '(l, ss) ← match made with
                   | Some l => Some (l, ss)
                   | None => seq ← call_ids h all; Some (length ss, ss ++ [seq])
                   end;
        lg ← go_update lg i (Some l);
        update_longest h all vs (Some l) ss lg
      else update_longest h all vs made ss lg
  end.

(** The body of the loop when [entry.match != nil]. *)
Definition try_call (head : nat) (c : search) (entry : nat) (e matching : node V) : option search :=
  input ← node_value e; output ← node_value matching;
  '(ok, newState) ← model_Step (state c) input output;
  if (ok : bool) then
    newLinearized ← bit_set (clone (linearized c)) (node_id e);
    let newCacheEntry := (newLinearized, newState) in
    if negb (cacheContains (cache c) newCacheEntry) then
      let h := hash newLinearized in
      lin ← bit_set (linearized c) (node_id e);
      ns ← lift (nodes c) entry;
      hd ← ns !! head;
      Some (MkSearch ns (next hd) lin (<[h := bucket (cache c) h ++ [newCacheEntry]]> (cache c))
        (calls c ++ [(entry, state c)]) newState (seqs c) (longest c))
    else Some (MkSearch (nodes c) (next e) (linearized c) (cache c) (calls c) (state c) (seqs c) (longest c))
  else Some (MkSearch (nodes c) (next e) (linearized c) (cache c) (calls c) (state c) (seqs c) (longest c)).

(** The body of the loop when [entry.match == nil] and there are calls. *)
Definition backtrack (computePartial : bool) (c : search) : option search :=
  '(ss, lg) ← (if computePartial
               then update_longest (nodes c) (calls c) (calls c) None (seqs c) (longest c)
               else Some (seqs c, longest c));
  callsTop ← (calls c).[go_len (calls c) - 1];
  let entry := callsTop.1 in
  e ← nodes c !! entry;
  lin ← bit_clear (linearized c) (node_id e);
  cs ← slice_to (calls c) (go_len (calls c) - 1);
  ns ← unlift (nodes c) entry;
  e ← ns !! entry;
  Some (MkSearch ns (next e) lin (cache c) cs callsTop.2 ss lg).

Fixpoint check_loop (computePartial : bool) (kill : nat → bool) (head : nat) (fuel t : nat) (c : search)
    : option (bool * search) :=
  match fuel with
  | O => None
  | S fuel =>
      hd ← nodes c !! head;
      match next hd with
      | None => Some (true, c)
      | Some _ =>
          if kill t then Some (false, c) else
          entry ← cur c; e ← nodes c !! entry;
          match node_match e with
          | Some m =>
              matching ← nodes c !! m;
              c ← try_call head c entry e matching;
              check_loop computePartial kill head fuel (S t) c
          | None =>
              if go_len (calls c) =? 0 then Some (false, c)
              else c ← backtrack computePartial c; check_loop computePartial kill head fuel (S t) c
          end
      end
  end.

(** The code before the loop. *)
Definition start_search (history : list (entry V)) : option (nat * search) :=
  '(h, entry, _) ← makeLinkedEntries history;
  l ← node_length (length h) h entry;
  let n := l / 2 in
  let '(h, head) := alloc h (MkNode None None (-1) None None) in
  h ← insertBefore h head entry;
  Some (head, MkSearch h entry (newBitset n) ∅ [] model_Init [] (replicate (Z.to_nat n) None)).

(** [checkSingle].  A panic and exhausted fuel are [None].  A complete
    linearization replaces every element of [longest]. *)
Definition checkSingle (fuel : nat) (history : list (entry V)) (computePartial : bool) (kill : nat → bool)
    : option (bool * list (option (nat * list Z))) :=
  '(head, c) ← start_search history;
  '(ok, c) ← check_loop computePartial kill head fuel 0 c;
  if (ok : bool) then
    seq ← call_ids (nodes c) (calls c);
    Some (true, (λ _, Some (length (seqs c), seq)) <$> longest c)
  else Some (false, read_longest c).
End checker.
Arguments search : clear implicits.

(** ** checker.go: the partitions in parallel

    One goroutine per partition sends its result on a channel; the main loop
    selects between that channel and the timer.  [arrivals] is the order in which
    its [select] proceeds.  The kill flag is raised only when that loop ends,
    so a result it received was computed with the flag down; [kills i] is
    what the goroutine of partition [i] reads otherwise. *)

Inductive Arrival := ResultOf (i : nat) | TimeoutFires.

Record linearizationInfo (V : Type) := MkInfo {
  history : list (list (entry V));
  partialLinearizations : list (list (list Z));
}.
Arguments MkInfo {V}. Arguments history {V}. Arguments partialLinearizations {V}.

(** The main loop: [ok], whether it timed out, and the partitions received. *)
Fixpoint collect (n : Z) (computeInfo : bool) (timeout : Z) (results : list bool) (arrivals : list Arrival)
    (ok : bool) (received : list nat) : option (bool * bool * list nat) :=
  match arrivals with
  | [] => None
  | ResultOf i :: arrivals =>
      result ← results !! i;
      let received := received ++ [i] in
      let ok := ok && result in
      if negb ok && negb computeInfo then Some (ok, false, received)
      else if go_len received >=? n then Some (ok, false, received)
      else collect n computeInfo timeout results arrivals ok received
  | TimeoutFires :: _ => if timeout >? 0 then Some (ok, true, received) else None
  end.

Definition never : nat → bool := λ _, false.

(** The distinct pointers of [longest[i]], and the slices they point to. *)
Definition unique_partials `{!MapOrder} (l : list (option (nat * list Z))) : list (list Z) :=
  let set : gmap Z (list Z) := list_to_map ((λ p, (Z.of_nat p.1, p.2)) <$> omap (λ v, v) l) in
  (range 0 set).*2.

Section parallel.
Context {V St : Type} `{!EqDecision St, !EntrySort V, !MapOrder}.

Definition fillDefault (model : Model V St) : Model V St :=
  MkModel (Some (default NoPartition (Partition model)))
    (Some (default NoPartitionEvent (PartitionEvent model)))
    (Init model) (Step model) (Some (default ShallowEqual (Equal model))).

Definition check_single (model : Model V St) : nat → list (entry V) → bool → (nat → bool) →
    option (bool * list (option (nat * list Z))) :=
  checkSingle (Step model) (default ShallowEqual (Equal model)) (Init model).

Definition checkParallel (fuel : nat) (arrivals : list Arrival) (kills : nat → nat → bool)
    (model : Model V St) (hist : list (list (entry V))) (computeInfo : bool) (timeout : Z)
    : option (CheckResult * linearizationInfo V) :=
  results ← mapM (λ sub, fst <$> check_single model fuel sub computeInfo never) hist;
  '(ok, timedOut, received) ← collect (go_len hist) computeInfo timeout results arrivals true [];
  info ← (if (computeInfo : bool) then
            longest ← mapM (λ p, snd <$> check_single model fuel p.2 computeInfo
                        (if bool_decide (p.1 ∈ received) then never else kills p.1)) (imap pair hist);
            Some (MkInfo hist (unique_partials <$> longest))
          else Some (MkInfo [] []));
  Some (if negb ok then Illegal else if (timedOut : bool) then Unknown else Ok, info).

Definition checkEvents (fuel : nat) (arrivals : list Arrival) (kills : nat → nat → bool)
    (model : Model V St) (hist : list (Event V)) (verbose : bool) (timeout : Z)
    : option (CheckResult * linearizationInfo V) :=
  let model := fillDefault model in
  part ← PartitionEvent model; partitions ← part hist;
  let l := (λ subhistory, convertEntries (renumber subhistory)) <$> partitions in
  checkParallel fuel arrivals kills model l verbose timeout.

Definition checkOperations (fuel : nat) (arrivals : list Arrival) (kills : nat → nat → bool)
    (model : Model V St) (hist : list (Operation V)) (verbose : bool) (timeout : Z)
    : option (CheckResult * linearizationInfo V) :=
  let model := fillDefault model in
  part ← Partition model; partitions ← part hist;
  let l := makeEntries <$> partitions in
  checkParallel fuel arrivals kills model l verbose timeout.

(** ** porcupine.go *)

Definition is_ok (r : CheckResult) : bool := match r with Ok => true | _ => false end.

Definition CheckOperations fuel arrivals kills (model : Model V St) (hist : list (Operation V)) : option bool :=
  '(res, _) ← checkOperations fuel arrivals kills model hist false 0; Some (is_ok res).

Definition CheckOperationsTimeout fuel arrivals kills (model : Model V St) (hist : list (Operation V)) (timeout : Z)
    : option CheckResult :=
  '(res, _) ← checkOperations fuel arrivals kills model hist false timeout; Some res.

Definition CheckOperationsVerbose fuel arrivals kills (model : Model V St) (hist : list (Operation V)) (timeout : Z)
    : option (CheckResult * linearizationInfo V) :=
  checkOperations fuel arrivals kills model hist true timeout.

Definition CheckEvents fuel arrivals kills (model : Model V St) (hist : list (Event V)) : option bool :=
  '(res, _) ← checkEvents fuel arrivals kills model hist false 0; Some (is_ok res).

Definition CheckEventsTimeout fuel arrivals kills (model : Model V St) (hist : list (Event V)) (timeout : Z)
    : option CheckResult :=
  '(res, _) ← checkEvents fuel arrivals kills model hist false timeout; Some res.

Definition CheckEventsVerbose fuel arrivals kills (model : Model V St) (hist : list (Event V)) (timeout : Z)
    : option (CheckResult * linearizationInfo V) :=
  checkEvents fuel arrivals kills model hist true timeout.
End parallel.

(** ** models/kv.go *)

Record KvInput := MkKvInput {
  kv_Op : Z;
  kv_Key : string;
  kv_Value : string;
}.

Record KvOutput := MkKvOutput { out_Value : string }.

(** The dynamic types of the [interface{}] values of a key/value history. *)
Inductive KvAny := AnyInput (i : KvInput) | AnyOutput (o : KvOutput).

(** [v.Input.(KvInput)] and [output.(KvOutput)] *)
Definition asInput (v : KvAny) : option KvInput := match v with AnyInput i => Some i | _ => None end.
Definition asOutput (v : KvAny) : option KvOutput := match v with AnyOutput o => Some o | _ => None end.

(** The loop of [KvModel.Partition] that fills the map. *)
Fixpoint by_key (m : gmap string (list (Operation KvAny))) (history : list (Operation KvAny))
    : option (gmap string (list (Operation KvAny))) :=
  match history with
  | [] => Some m
  | v :: history =>
      inp ← asInput (Input v);
      let key := kv_Key inp in
      by_key (<[key := default [] (m !! key) ++ [v]]> m) history
  end.

Definition string_le (a b : string) : Prop := String.leb a b = true.
#[global] Instance string_le_dec a b : Decision (string_le a b).
Proof. unfold string_le. apply _. Defined.

Definition kv_partition (history : list (Operation KvAny)) : option (list (list (Operation KvAny))) :=
  m ← by_key ∅ history;
  let keys := merge_sort string_le (map_to_list m).*1 in
  Some ((λ k, default [] (m !! k)) <$> keys).

Definition kv_step (st : string) (input output : KvAny) : option (bool * string) :=
  inp ← asInput input; out ← asOutput output;
  Some (if kv_Op inp =? 0 then (bool_decide (out_Value out = st), st)
        else if kv_Op inp =? 1 then (true, kv_Value inp)
        else (true, (st +:+ kv_Value inp)%string)).

Definition KvModel : Model KvAny string :=
  MkModel (Some kv_partition) None ""%string kv_step None.
