(* ===== verification/PorcupineList.v ===== *)
(** * The linked list of the checker

    [seg h p L q]: in the store [h] the nodes [L] form a doubly linked segment
    between [p] and [q].  [lift] takes a call and its return out of the list;
    [unlift] puts them back and restores the store exactly.  [makeLinkedEntries]
    builds the list of the entries, in order. *)

From S2P Require Import Prelude Bitset Porcupine.

Arguments set_next : simpl never.
Arguments set_prev : simpl never.

Section segments.
Context {V : Type}.
Implicit Types (h : heap V) (p q : option nat) (L A B : list nat) (nd : node V).

Definition first (L : list nat) (q : option nat) : option nat := match L with [] => q | y :: _ => Some y end.
Definition final (L : list nat) (p : option nat) : option nat := from_option Some p (last L).

Fixpoint seg h p L q : Prop :=
  match L with
  | [] => True
  | x :: L => (∃ nd, h !! x = Some nd ∧ prev nd = p ∧ next nd = first L q) ∧ seg h (Some x) L q
  end.

(** The fields of a node that the search never writes. *)
Definition stat (nd : node V) : option V * option nat * Z := (node_value nd, node_match nd, node_id nd).

Lemma first_app A B q : first (A ++ B) q = first A (first B q).
Proof. by destruct A. Qed.

Lemma final_snoc A x p : final (A ++ [x]) p = Some x.
Proof. unfold final. by rewrite last_snoc. Qed.

Lemma final_cons A x p : final (x :: A) p = final A (Some x).
Proof. unfold final. rewrite last_cons. by destruct (last A). Qed.

Lemma seg_app h p A B q : seg h p (A ++ B) q ↔ seg h p A (first B q) ∧ seg h (final A p) B q.
Proof.
  revert p. induction A as [|x A IH]; intros p; cbn [seg app]; [tauto|].
  rewrite first_app, final_cons, IH. tauto.
Qed.

Lemma seg_frame h p L q x nd : x ∉ L → seg h p L q → seg (<[x := nd]> h) p L q.
Proof.
  revert p. induction L as [|y L IH]; intros p Hx; [done|]. cbn.
  apply not_elem_of_cons in Hx as [Hne Hx]. intros [(n & Hn & ?) Hs]. split; [|by apply IH].
  exists n. rewrite list_lookup_insert_ne by done. done.
Qed.

Lemma seg_lookup h p L q x : x ∈ L → seg h p L q → is_Some (h !! x).
Proof.
  revert p. induction L as [|y L IH]; intros p; [by intros ?%elem_of_nil|].
  intros [->|Hx]%elem_of_cons [(n & Hn & _) Hs]; [eauto|]. by eapply IH.
Qed.

Lemma seg_last h p A a q nd q' :
  a ∉ A → seg h p (A ++ [a]) q → h !! a = Some nd → seg (<[a := with_next nd q']> h) p (A ++ [a]) q'.
Proof.
  intros Ha. rewrite !seg_app. cbn. intros (Hs & (n & Hn & Hp & Hq) & _) Hnd. simplify_eq.
  split; [by apply seg_frame|]. split; [|done]. eexists.
  rewrite list_lookup_insert_eq by (by eapply lookup_lt_Some). done.
Qed.

Lemma seg_first h p b B q nd p' :
  b ∉ B → seg h p (b :: B) q → h !! b = Some nd → seg (<[b := with_prev nd p']> h) p' (b :: B) q.
Proof.
  intros Hb [(n & Hn & Hp & Hq) Hs] Hnd. simplify_eq. split; [|by apply seg_frame].
  eexists. rewrite list_lookup_insert_eq by (by eapply lookup_lt_Some). done.
Qed.

Lemma stat_insert h x nd nd' :
  h !! x = Some nd → stat nd' = stat nd → stat <$> (<[x := nd']> h) = stat <$> h.
Proof.
  intros Hx He. rewrite list_fmap_insert, He. apply list_insert_id. by rewrite list_lookup_fmap, Hx.
Qed.

(** ** Taking one node out, and putting it back *)

Definition unlink h (x : nat) : option (heap V) :=
  nd ← h !! x; h ← set_next h (prev nd) (next nd);
  nd ← h !! x; match next nd with None => Some h | Some _ => set_prev h (next nd) (prev nd) end.

Definition relink h (x : nat) : option (heap V) :=
  nd ← h !! x; h ← set_next h (prev nd) (Some x);
  nd ← h !! x; match next nd with None => Some h | Some _ => set_prev h (next nd) (Some x) end.

Lemma with_next_id nd x : next nd = x → with_next nd x = nd.
Proof. intros <-. by destruct nd. Qed.
Lemma with_prev_id nd x : prev nd = x → with_prev nd x = nd.
Proof. intros <-. by destruct nd. Qed.

Lemma set_next_eq h l nd x : h !! l = Some nd → set_next h (Some l) x = Some (<[l := with_next nd x]> h).
Proof. intros H. unfold set_next. cbn. by rewrite H. Qed.
Lemma set_prev_eq h l nd x : h !! l = Some nd → set_prev h (Some l) x = Some (<[l := with_prev nd x]> h).
Proof. intros H. unfold set_prev. cbn. by rewrite H. Qed.

Lemma unlink_last h p A a x :
  NoDup (A ++ [a; x]) → seg h p (A ++ [a; x]) None →
  ∃ h', unlink h x = Some h' ∧ seg h' p (A ++ [a]) None ∧ relink h' x = Some h ∧
    h' !! x = h !! x ∧ stat <$> h' = stat <$> h.
Proof.
  intros Hnd Hs. change [a; x] with ([a] ++ [x]) in *. rewrite (assoc_L (++)) in Hs, Hnd.
  apply seg_app in Hs as [Hs [(nx & Hx & Hpx & Hnx) _]]. rewrite final_snoc in Hpx. cbn in Hnx.
  apply NoDup_app in Hnd as (Hnd & Hax & _). assert (a ≠ x) as Hne.
  { intros ->. apply (Hax x); [apply elem_of_app; right|]; by left. }
  apply NoDup_app in Hnd as (_ & HA & _). assert (a ∉ A) by (intros Ha; apply (HA a Ha); by left).
  pose proof Hs as Hs'. apply seg_app in Hs' as [_ [(na & Ha & Hpa & Hna) _]]. cbn in Hna.
  pose proof (lookup_lt_Some _ _ _ Ha) as Hla.
  exists (<[a := with_next na None]> h). unfold unlink, relink. rewrite Hx. cbn. rewrite Hpx, Hnx.
  rewrite (set_next_eq _ _ _ _ Ha). cbn. rewrite !list_lookup_insert_ne by done. rewrite Hx. cbn. rewrite ?Hnx, ?Hpx.
  split; [done|]. split; [by eapply seg_last|]. split; [|split; [done|by eapply stat_insert]].
  erewrite set_next_eq by (by rewrite list_lookup_insert_eq). cbn.
  rewrite list_insert_insert_eq, !list_lookup_insert_ne, Hx by done. cbn. rewrite Hnx.
  f_equal. apply list_insert_id. rewrite Ha. f_equal. by destruct na; simplify_eq/=.
Qed.

Lemma unlink_mid h p A a x b B :
  NoDup (A ++ a :: x :: b :: B) → seg h p (A ++ a :: x :: b :: B) None →
  ∃ h', unlink h x = Some h' ∧ seg h' p (A ++ a :: b :: B) None ∧ relink h' x = Some h ∧
    h' !! x = h !! x ∧ stat <$> h' = stat <$> h.
Proof.
  intros Hnd Hs.
  replace (A ++ a :: x :: b :: B) with ((A ++ [a]) ++ [x] ++ (b :: B)) in * by (by rewrite <- (assoc_L (++))).
  apply seg_app in Hs as [Hs Ht]. rewrite final_snoc in Ht. apply seg_app in Ht as [[(nx & Hx & Hpx & Hnx) _] Ht].
  cbn in Hnx, Hs. change (final [x] (Some a)) with (Some x) in Ht.
  assert (a ∉ A ∧ a ≠ x ∧ a ∉ b :: B ∧ x ∉ A ++ [a] ∧ x ∉ b :: B ∧ b ∉ A ++ [a] ∧ b ∉ B)
    as (HaA & Hax & HaB & HxA & HxB & HbA & HbB).
  { rewrite !NoDup_app in Hnd. destruct Hnd as ((_ & HA & _) & HAx & _ & HxB & HB). apply NoDup_cons in HB as [HbB _].
    split; [intros Ha; apply (HA a Ha); by left|].
    assert (a ∈ A ++ [a]) as Hin by (apply elem_of_app; right; by left).
    split; [intros ->; apply (HAx x Hin); by left|].
    split; [intros Ha; apply (HAx a Hin); by right|].
    split; [intros Hx'; apply (HAx x Hx'); by left|].
    split; [apply HxB; by left|]. split; [|done].
    intros Hb. apply (HAx b Hb). right. by left. }
  pose proof Hs as Hs'. apply seg_app in Hs' as [_ [(na & Ha & Hpa & Hna) _]]. cbn in Hna.
  pose proof Ht as Ht'. destruct Ht' as [(nb & Hb & Hpb & _) _].
  assert (a ≠ b) as Hab by set_solver. assert (x ≠ b) as Hxb by set_solver.
  pose proof (lookup_lt_Some _ _ _ Ha) as Hla. pose proof (lookup_lt_Some _ _ _ Hb) as Hlb.
  exists (<[b := with_prev nb (Some a)]> (<[a := with_next na (Some b)]> h)).
  unfold unlink, relink. rewrite Hx. cbn. rewrite Hpx, Hnx.
  rewrite (set_next_eq _ _ _ _ Ha). cbn. rewrite !list_lookup_insert_ne by done. rewrite Hx. cbn. rewrite ?Hnx, ?Hpx.
  erewrite set_prev_eq by (by rewrite list_lookup_insert_ne).
  split; [done|]. split; [|split; [|split; [done|]]].
  - replace (A ++ a :: b :: B) with ((A ++ [a]) ++ b :: B) by (by rewrite <- (assoc_L (++))).
    apply seg_app. rewrite final_snoc. split.
    + apply seg_frame; [done|]. by eapply seg_last.
    + eapply seg_first; [done| |by rewrite list_lookup_insert_ne]. by apply seg_frame.
  - rewrite ?list_lookup_insert_ne, ?Hx by done. cbn. rewrite ?Hpx. erewrite set_next_eq by (rewrite list_lookup_insert_ne by done; by rewrite list_lookup_insert_eq). cbn.
    rewrite !list_lookup_insert_ne, Hx by done. cbn. rewrite Hnx.
    erewrite set_prev_eq by (rewrite list_lookup_insert_ne by done; rewrite list_lookup_insert_eq; [done|]; by rewrite length_insert).
    f_equal. rewrite (list_insert_insert_ne _ a b) by done. rewrite !list_insert_insert_eq.
    rewrite (list_insert_id h a).
    + apply list_insert_id. rewrite Hb. f_equal. by destruct nb; simplify_eq/=.
    + rewrite Ha. f_equal. by destruct na; simplify_eq/=.
  - rewrite (stat_insert _ b nb); [by apply (stat_insert _ a na)| |done]. by rewrite list_lookup_insert_ne.
Qed.

(** Both cases: [x] may be the last node. *)
Lemma unlink_spec h p A x B :
  A ≠ [] → NoDup (A ++ x :: B) → seg h p (A ++ x :: B) None →
  ∃ h', unlink h x = Some h' ∧ seg h' p (A ++ B) None ∧ relink h' x = Some h ∧
    h' !! x = h !! x ∧ stat <$> h' = stat <$> h.
Proof.
  intros HA. destruct A as [|a A _] using rev_ind; [done|]. rewrite <- !(assoc_L (++)). cbn.
  destruct B as [|b B]; [apply unlink_last|apply unlink_mid].
Qed.

(** [lift] takes the call [e] and its return [m] out; [unlift] undoes it. *)
Lemma lift_spec h A e B m C :
  A ≠ [] → NoDup (A ++ e :: B ++ m :: C) → seg h None (A ++ e :: B ++ m :: C) None →
  node_match <$> h !! e = Some (Some m) →
  ∃ h', lift h e = Some h' ∧ seg h' None (A ++ B ++ C) None ∧ unlift h' e = Some h ∧ stat <$> h' = stat <$> h.
Proof.
  intros HA Hnd Hs Hm. destruct (h !! e) as [ne|] eqn:He; cbn in Hm; [|done]. injection Hm as Hm.
  assert (is_Some (next ne)) as [b Hb].
  { apply seg_app in Hs as [_ [(n & Hn & _ & Hq) _]]. simplify_eq. rewrite Hq. destruct B; cbn; eauto. }
  destruct (unlink_spec h None A e (B ++ m :: C) HA Hnd Hs) as (h1 & Hu1 & Hs1 & Hr1 & He1 & Hst1).
  assert (NoDup ((A ++ B) ++ m :: C)) as Hnd1.
  { rewrite <- (assoc_L (++)). apply NoDup_app in Hnd as (? & HAe & [_ ?]%NoDup_cons).
    apply NoDup_app. split; [done|]. split; [|done]. intros x Hx Hx'. apply (HAe x Hx). by right. }
  rewrite (assoc_L (++)) in Hs1.
  destruct (unlink_spec h1 None (A ++ B) m C) as (h2 & Hu2 & Hs2 & Hr2 & Hm2 & Hst2); [by destruct A|done..|].
  assert (∃ ne2, h2 !! e = Some ne2 ∧ node_match ne2 = Some m) as (ne2 & He2 & Hne2).
  { assert (stat <$> h2 !! e = stat <$> h !! e) as Hst by (rewrite <- !list_lookup_fmap; congruence).
    rewrite He in Hst. destruct (h2 !! e) as [ne2|]; [|done]. unfold stat in Hst. cbn in Hst. simplify_eq. exists ne2. split; congruence. }
  exists h2. split; [|split; [by rewrite <- (assoc_L (++)) in Hs2|split; [|congruence]]].
  - unfold lift. unfold unlink in Hu1, Hu2. rewrite He in *. cbn in *.
    destruct (set_next h (prev ne) (next ne)) as [ha|] eqn:Ea; [|done]. cbn in *.
    destruct (ha !! e) as [ne'|] eqn:Ea'; [|done]. cbn in *.
    assert (next ne' = next ne ∧ node_match ne' = node_match ne) as [Hnn Hmm].
    { unfold set_next in Ea. destruct (prev ne) as [a|]; [|done]. cbn in Ea.
      destruct (h !! a) as [na|] eqn:Ea1; [|done]. cbn in Ea. simplify_eq.
      destruct (decide (a = e)) as [->|].
      - rewrite list_lookup_insert_eq in Ea' by (by eapply lookup_lt_Some). by simplify_eq.
      - rewrite list_lookup_insert_ne in Ea' by done. by simplify_eq. }
    rewrite Hnn, Hb in Hu1. rewrite Hnn, Hb, Hu1. cbn. rewrite He1. cbn. rewrite Hm. cbn. exact Hu2.
  - unfold unlift. rewrite He2. cbn. rewrite Hne2. cbn. unfold relink in Hr1, Hr2.
    destruct (h2 !! m) as [nm|]; [|done]. cbn in *.
    destruct (set_next h2 (prev nm) (Some m)) as [ha|]; [|done]. cbn in *.
    destruct (ha !! m) as [nm'|]; [|done]. cbn in *. rewrite Hr2. cbn. rewrite He1, He in *. cbn in *.
    destruct (set_next h1 (prev ne) (Some e)) as [hb|] eqn:Eb; [|done]. cbn in *.
    destruct (hb !! e) as [ne'|] eqn:Eb'; [|done]. cbn in *.
    destruct (next ne') as [b'|] eqn:Enn; [done|]. exfalso.
    simplify_eq.
Qed.

(** ** Building the list *)

Lemma seg_grow h nd p L q : seg h p L q → seg (h ++ [nd]) p L q.
Proof.
  revert p. induction L as [|x L IH]; intros p; [done|]. cbn. intros [(n & Hn & ?) Hs]. split; [|by apply IH].
  exists n. by rewrite lookup_app_l by (by eapply lookup_lt_Some).
Qed.

Lemma insertBefore_front h L nd :
  NoDup L → seg h None L None → next nd = None → prev nd = None →
  ∃ h', insertBefore (h ++ [nd]) (length h) (head L) = Some h' ∧
    seg h' None (length h :: L) None ∧ stat <$> h' = (stat <$> h) ++ [stat nd].
Proof.
  intros Hnd Hs Hn Hp. assert ((h ++ [nd]) !! length h = Some nd) as Hl by (by rewrite lookup_app_r, Nat.sub_diag by lia).
  pose proof Hs as Hs0. destruct L as [|b L].
  - exists (h ++ [nd]). split; [done|]. split; [|by rewrite fmap_app]. cbn. split; [|done]. eauto.
  - pose proof (seg_grow _ nd _ _ _ Hs) as Hs'. destruct Hs as [(nb & Hb & Hpb & Hnb) _].
    pose proof (lookup_lt_Some _ _ _ Hb) as Hlt. apply NoDup_cons in Hnd as [HbL Hnd].
    assert (length h ∉ b :: L) as Hnew.
    { intros Hin. destruct (seg_lookup _ _ _ _ _ Hin Hs0) as [x Hx%lookup_lt_Some]. lia. }
    assert (b ≠ length h) as Hne by lia.
    assert ((h ++ [nd]) !! b = Some nb) as Hb' by (by rewrite lookup_app_l).
    unfold insertBefore. cbn [head deref mbind option_bind]. rewrite Hb'. cbn. rewrite Hpb.
    erewrite set_prev_eq by done. cbn. erewrite set_next_eq by (by rewrite list_lookup_insert_ne). cbn.
    eexists. split; [done|]. split.
    + split.
      * eexists. rewrite list_lookup_insert_eq by (rewrite length_insert, length_app; cbn; lia). done.
      * apply (seg_frame _ _ (b :: L)); [done|]. by eapply seg_first.
    + rewrite (stat_insert _ _ nd); [|by rewrite list_lookup_insert_ne|done].
      rewrite (stat_insert _ _ nb); [by rewrite fmap_app|done|done].
Qed.

(** The addresses of [n] entries, in list order: the last entry is allocated
    first. *)
Fixpoint locs (n : nat) : list nat := match n with O => [] | S n => n :: locs n end.

(** The return node that a call before [es] is matched with. *)
Fixpoint first_return (es : list (entry V)) (i : Z) : option nat :=
  match es with
  | [] => None
  | e :: es => match kind e with
               | returnEntry => if id e =? i then Some (length es) else first_return es i
               | callEntry => first_return es i
               end
  end.

Definition match_of (e : entry V) (es : list (entry V)) : option nat :=
  match kind e with returnEntry => None | callEntry => first_return es (id e) end.

Fixpoint stats (es : list (entry V)) : list (option V * option nat * Z) :=
  match es with [] => [] | e :: es => stats es ++ [(Some (value e), match_of e es, id e)] end.

Lemma locs_elem n x : x ∈ locs n ↔ (x < n)%nat.
Proof. induction n as [|n IH]; cbn; [rewrite elem_of_nil; lia|]. rewrite elem_of_cons, IH. lia. Qed.

Lemma locs_NoDup n : NoDup (locs n).
Proof. induction n as [|n IH]; [constructor|]. constructor; [rewrite locs_elem; lia|done]. Qed.

Lemma length_locs n : length (locs n) = n.
Proof. induction n; cbn; lia. Qed.

Lemma length_stats es : length (stats es) = length es.
Proof. induction es as [|e es IH]; [done|]. cbn. rewrite length_app, IH. cbn. lia. Qed.

Lemma makeLinkedEntries_spec es :
  ∃ h matches, makeLinkedEntries es = Some (h, head (locs (length es)), matches) ∧
    seg h None (locs (length es)) None ∧ stat <$> h = stats es ∧ ∀ i, matches !! i = first_return es i.
Proof.
  induction es as [|e es (h & ms & IHe & Hs & Hst & Hms)].
  { exists [], ∅. cbn. split; [done|]. split; [done|]. split; [done|]. intros i. apply lookup_empty. }
  assert (length h = length es) as Hl by (rewrite <- (length_stats es), <- Hst; by rewrite length_fmap).
  assert (∀ nd, next nd = None → prev nd = None → stat nd = (Some (value e), match_of e es, id e) →
    ∃ h', insertBefore (h ++ [nd]) (length h) (head (locs (length es))) = Some h' ∧
      seg h' None (locs (length (e :: es))) None ∧ stat <$> h' = stats (e :: es)) as Hfront.
  { intros nd Hn Hp Hnd. destruct (insertBefore_front h _ nd (locs_NoDup _) Hs Hn Hp) as (h' & Hi & Hs' & Hst').
    exists h'. cbn. rewrite Hi, Hst', Hst, Hnd, <- Hl. rewrite Hl in Hs' |- *. done. }
  cbn [makeLinkedEntries]. rewrite IHe. cbn [mbind option_bind alloc].
  unfold match_of in Hfront. destruct (kind e) eqn:Ek.
  - destruct (Hfront (MkNode (Some (value e)) (ms !! id e) (id e) None None)) as (h' & Hi & Hs' & Hst'); [done|done| |].
    { unfold stat. cbn. by rewrite Hms. }
    rewrite Hi. cbn. exists h', ms. rewrite Hl. split; [done|]. split; [done|]. split; [done|].
    intros i. by rewrite Hms, Ek.
  - destruct (Hfront (MkNode (Some (value e)) None (id e) None None)) as (h' & Hi & Hs' & Hst'); [done..|].
    rewrite Hi. cbn. exists h', (<[id e := length h]> ms). rewrite Hl. split; [done|]. split; [done|]. split; [done|].
    intros i. rewrite Ek. destruct (Z.eqb_spec (id e) i) as [->|].
    + by rewrite lookup_insert_eq.
    + by rewrite lookup_insert_ne.
Qed.

Lemma node_length_spec h p L fuel :
  seg h p L None → (length L <= fuel)%nat → node_length fuel h (head L) = Some (Z.of_nat (length L)).
Proof.
  revert p fuel. induction L as [|x L IH]; intros p fuel Hs Hf; [by destruct fuel|].
  destruct fuel as [|fuel]; [cbn in Hf; lia|]. destruct Hs as [(nd & Hx & _ & Hn) Hs]. cbn in Hf |- *.
  rewrite Hx. cbn. rewrite Hn. replace (first L None) with (head L) by (by destruct L).
  rewrite (IH (Some x) fuel Hs) by lia. cbn. f_equal. lia.
Qed.
End segments.
