(* ===== verification/PorcupineSearch.v ===== *)
(** * The search of the linearizability checker

    [completes L s ord]: from the model state [s] the calls [ord], in that order,
    use up the list [L], each taken from the part of the list before the first
    return.  The search, started on [L], ends: with [true] when there is such
    an order, which is then the order of its [calls], and back at the first
    return of the list when there is none.  The cache only ever holds
    configurations that are on the current path or cannot be completed. *)

From S2P Require Import Prelude Bitset Porcupine PorcupineList.

(** What the checker relies on in a model: states that [Equal] accepts take the
    same steps. *)
Class EqualSim {V St} (step : St → V → V → option (bool * St)) (equal : St → St → bool) := {
  equal_sim s t i o s' : equal s t = true → step s i o = Some (true, s') →
    ∃ t', step t i o = Some (true, t') ∧ equal s' t' = true;
}.

Arguments bit_set : simpl never.
Arguments bit_clear : simpl never.

Section search.
Context {V St : Type} (step : St → V → V → option (bool * St)) (equal : St → St → bool).

(** The nodes: what the search never writes of the store, and the list. *)
Context (Σ : list (option V * option nat * Z)) (hd : nat) (L0 : list nat) (n : Z).

Definition nval (x : nat) : option V := p ← Σ !! x; p.1.1.
Definition nmatch (x : nat) : option nat := p ← Σ !! x; p.1.2.
Definition nid (x : nat) : Z := from_option snd 0 (Σ !! x).

(** A list of calls and returns: every call is followed by its return. *)
Record list_wf : Prop := {
  lw_nodup : NoDup (hd :: L0);
  lw_id x : x ∈ L0 → 0 <= nid x < n;
  lw_value x : x ∈ L0 → is_Some (nval x);
  lw_call x m : x ∈ L0 → nmatch x = Some m →
    nid m = nid x ∧ nmatch m = None ∧ ∃ A B C, L0 = A ++ x :: B ++ m :: C;
  lw_return m : m ∈ L0 → nmatch m = None → ∃ x, x ∈ L0 ∧ nmatch x = Some m;
  lw_inj x y : x ∈ L0 → y ∈ L0 → is_Some (nmatch x) → is_Some (nmatch y) → nid x = nid y → x = y;
  lw_step x m s i o : x ∈ L0 → nmatch x = Some m → nval x = Some i → nval m = Some o → is_Some (step s i o);
}.

Inductive completes : list nat → St → list nat → Prop :=
| completes_nil s : completes [] s []
| completes_step A e B m C s i o s' ord :
    (∀ x, x ∈ A → is_Some (nmatch x)) → nmatch e = Some m → nval e = Some i → nval m = Some o →
    step s i o = Some (true, s') → completes (A ++ B ++ C) s' ord →
    completes (A ++ e :: B ++ m :: C) s (e :: ord).

Definition dead (L : list nat) (s : St) : Prop := ∀ ord, ¬ completes L s ord.

Lemma completes_equal `{!EqualSim step equal} L s t ord :
  equal s t = true → completes L s ord → completes L t ord.
Proof.
  intros He Hc. revert t He. induction Hc as [s|A e B m C s i o s' ord HA Hm Hi Ho Hs _ IH]; intros t He; [constructor|].
  destruct (equal_sim _ _ _ _ _ He Hs) as (t' & Ht & He'). econstructor; eauto.
Qed.

(** ** What is left of the list is determined by the bitset *)

Definition rem (b : bitset) : list nat := filter (λ x, has b (nid x) = false) L0.

Lemma app_cons_inj (A A' : list nat) e S S' :
  NoDup (A ++ e :: S) → A ++ e :: S = A' ++ e :: S' → A = A' ∧ S = S'.
Proof.
  revert A'. induction A as [|a A IH]; intros A' Hnd Heq; destruct A' as [|a' A']; simplify_eq/=; [done|..].
  - apply NoDup_cons in Hnd as [Hnd _]. destruct Hnd. apply elem_of_app. right. by left.
  - apply NoDup_cons in Hnd as [Hnd _]. destruct Hnd. apply elem_of_app. right. by left.
  - apply NoDup_cons in Hnd as [_ Hnd]. destruct (IH A' Hnd) as [-> ->]; done.
Qed.

Section wf.
Context (Hwf : list_wf).

Lemma rem_NoDup b : NoDup (rem b).
Proof using Hwf. apply NoDup_filter. pose proof (lw_nodup Hwf) as [_ H]%NoDup_cons. done. Qed.

Lemma rem_elem b x : x ∈ rem b ↔ has b (nid x) = false ∧ x ∈ L0.
Proof. unfold rem. by rewrite list_elem_of_filter. Qed.

(** A call that is left is followed by its return. *)
Lemma rem_split b A e S m :
  rem b = A ++ e :: S → nmatch e = Some m → ∃ B C, S = B ++ m :: C.
Proof using Hwf.
  intros Hr Hm. assert (e ∈ rem b) as [Hb He]%rem_elem by (rewrite Hr; apply elem_of_app; right; by left).
  destruct (lw_call Hwf e m He Hm) as (Hid & _ & A0 & B0 & C0 & HL).
  pose proof (rem_NoDup b) as Hnd. unfold rem in Hr, Hnd. rewrite Hr in Hnd.
  rewrite HL, !filter_app, !filter_cons, !filter_app, !filter_cons in Hr.
  rewrite decide_True in Hr by done. rewrite decide_True in Hr by congruence.
  symmetry in Hr. apply app_cons_inj in Hr as [_ ->]; [eauto|done].
Qed.

(** The nodes with the id of a call are the call and its return. *)
Lemma same_id e m x :
  e ∈ L0 → nmatch e = Some m → x ∈ L0 → nid x = nid e → x = e ∨ x = m.
Proof using Hwf.
  intros He Hm Hx Hid. destruct (nmatch x) as [m'|] eqn:Ex.
  - left. by apply (lw_inj Hwf).
  - destruct (lw_return Hwf x Hx Ex) as (y & Hy & Hym). right.
    destruct (lw_call Hwf y x Hy Hym) as (Hid' & _). assert (y = e) as ->.
    { apply (lw_inj Hwf); [done..|congruence]. }
    congruence.
Qed.

Lemma rem_set b b' A e B m C :
  rem b = A ++ e :: B ++ m :: C → nmatch e = Some m →
  (∀ q, 0 <= q → has b' q = (q =? nid e) || has b q) → rem b' = A ++ B ++ C.
Proof using Hwf.
  intros Hr Hm Hb. assert (e ∈ rem b) as [He HeL]%rem_elem by (rewrite Hr; apply elem_of_app; right; by left).
  destruct (lw_call Hwf e m HeL Hm) as (Hidm & _ & _).
  pose proof (rem_NoDup b) as Hnd.
  assert (rem b' = filter (λ x, nid x ≠ nid e) (rem b)) as ->.
  { unfold rem. rewrite list_filter_filter. apply filter_ext_elem. intros x Hx.
    rewrite Hb by (by apply (lw_id Hwf)). rewrite orb_false_iff, Z.eqb_neq. tauto. }
  assert (∀ x, x ∈ A ++ B ++ C → nid x ≠ nid e) as Hne.
  { intros x Hx Hid. assert (x ∈ rem b) as HxL by (rewrite Hr; set_solver).
    apply rem_elem in HxL as [_ HxL]. rewrite Hr in Hnd.
    rewrite NoDup_app, NoDup_cons, NoDup_app, NoDup_cons in Hnd.
    destruct (same_id e m x HeL Hm HxL Hid) as [->| ->]; set_solver. }
  rewrite Hr, filter_app, filter_cons, filter_app, filter_cons.
  rewrite decide_False by tauto. rewrite decide_False by tauto.
  rewrite !filter_all; [done|..]; intros x Hx; apply Hne; set_solver.
Qed.

Lemma rem_return b A : rem b = A → A ≠ [] → ¬ (∀ x, x ∈ A → is_Some (nmatch x)).
Proof using Hwf.
  intros Hr HA Hall. destruct A as [|e S]; [done|].
  destruct (Hall e ltac:(by left)) as [m Hm]. destruct (rem_split b [] e S m Hr Hm) as (B & C & ->).
  assert (e ∈ rem b) as [_ He]%rem_elem by (rewrite Hr; by left).
  destruct (lw_call Hwf e m He Hm) as (_ & Hm' & _). destruct (Hall m) as [? ?]; [set_solver|congruence].
Qed.

(** How a completion begins. *)
Lemma completes_inv A e B m C s ord :
  NoDup (A ++ e :: B ++ m :: C) → nmatch e = Some m → completes (A ++ e :: B ++ m :: C) s (e :: ord) →
  ∃ i o s', nval e = Some i ∧ nval m = Some o ∧ step s i o = Some (true, s') ∧ completes (A ++ B ++ C) s' ord.
Proof.
  intros Hnd Hm Hc. inversion Hc as [|A' e' B' m' C' s0 i o s' ord' HA' Hm' Hi Ho Hs Hc' HL]; subst.
  assert (m' = m) as -> by congruence.
  symmetry in HL. apply app_cons_inj in HL as [-> HL]; [|done].
  apply app_cons_inj in HL as [-> ->]; [by exists i, o, s'|].
  apply NoDup_app in Hnd as (_ & _ & [_ Hnd]%NoDup_cons). done.
Qed.

(** ** The states of the search *)

Notation search := (search V St).
Implicit Types (c : search).

Record frame c (L : list nat) : Prop := {
  fr_seg : seg (nodes c) None (hd :: L) None;
  fr_stat : stat <$> nodes c = Σ;
  fr_rem : L = rem (linearized c);
  fr_len : n <= 64 * go_len (linearized c);
  fr_wf : bitset_wf (linearized c);
  fr_calls v : v ∈ calls c → v.1 ∈ L0;
  fr_longest : go_len (longest c) = n;
  fr_ptr l : Some l ∈ longest c → (l < length (seqs c))%nat;
}.

Lemma stat_node c L x : frame c L → x ∈ L0 →
  ∃ nd, nodes c !! x = Some nd ∧ node_value nd = nval x ∧ node_match nd = nmatch x ∧ node_id nd = nid x.
Proof using Hwf.
  intros HF Hx. destruct (lw_value Hwf x Hx) as [v Hv]. unfold nval, nmatch, nid in *.
  rewrite <- (fr_stat _ _ HF), list_lookup_fmap in *. destruct (nodes c !! x) as [nd|]; [|done]. by exists nd.
Qed.

Lemma call_ids_ok (h : heap V) (cs : list (nat * St)) :
  (∀ v, v ∈ cs → ∃ nd, h !! v.1 = Some nd ∧ node_id nd = nid v.1) → call_ids h cs = Some (nid <$> cs.*1).
Proof.
  intros Hall. induction cs as [|v cs IH]; [done|]. unfold call_ids in *. cbn.
  destruct (Hall v ltac:(by left)) as (nd & -> & <-). cbn. rewrite IH; [done|]. intros. apply Hall. by right.
Qed.

Lemma update_longest_ok (h : heap V) (all vs : list (nat * St)) made ss (lg : list (option nat)) :
  (∀ v, v ∈ all → ∃ nd, h !! v.1 = Some nd ∧ node_id nd = nid v.1 ∧ 0 <= nid v.1 < go_len lg) → vs ⊆ all →
  (∀ l, Some l ∈ lg → (l < length ss)%nat) → (∀ l, made = Some l → (l < length ss)%nat) →
  ∃ ss' lg', update_longest h all vs made ss lg = Some (ss', lg') ∧ go_len lg' = go_len lg ∧
    (∀ l, Some l ∈ lg' → (l < length ss')%nat).
Proof.
  intros Hall. revert made ss lg Hall. induction vs as [|v vs IH]; intros made ss lg Hall Hvs Hlg Hmade; [cbn; eauto|].
  destruct (Hall v) as (nd & Hv & Hid & Hr); [apply Hvs; by left|]. cbn [update_longest]. rewrite Hv. cbn. rewrite Hid.
  destruct (go_index_lt lg (nid v.1) Hr) as [p Hp]. rewrite Hp. cbn.
  assert (∃ better, match p with None => Some true | Some l => s ← ss !! l; Some (go_len all >? go_len s) end
    = Some better) as [better ->].
  { destruct p as [l|]; [|eauto]. apply go_index_lookup in Hp as [_ Hp]. apply list_elem_of_lookup_2, Hlg in Hp.
    apply lookup_lt_is_Some in Hp as [s ->]. cbn. eauto. }
  cbn. destruct better; [|apply IH; [done|set_solver|done|done]].
  assert (call_ids h all = Some (nid <$> all.*1)) as Hc.
  { apply call_ids_ok. intros w Hw. destruct (Hall w Hw) as (nd' & ? & ? & _). eauto. }
  assert (∃ l ss', match made with Some l => Some (l, ss) | None => seq ← call_ids h all; Some (length ss, ss ++ [seq]) end
    = Some (l, ss') ∧ (l < length ss')%nat ∧ (length ss <= length ss')%nat) as (l & ss' & -> & Hl & Hle).
  { destruct made as [l|]; [exists l, ss; auto|]. rewrite Hc. cbn. eexists _, _. split; [done|]. rewrite length_app. cbn. lia. }
  cbn. rewrite go_update_eq by done. cbn.
  destruct (IH (Some l) ss' (<[Z.to_nat (nid v.1) := Some l]> lg)) as (ss2 & lg2 & -> & Hg2 & Hp2).
  - intros w Hw. unfold go_len. rewrite length_insert. by apply Hall.
  - set_solver.
  - intros l' [[= ->]|Hl']%elem_of_insert; [done|]. specialize (Hlg l' Hl'). lia.
  - intros l' [= <-]. done.
  - exists ss2, lg2. split; [done|]. rewrite Hg2. split; [|done]. unfold go_len. by rewrite length_insert.
Qed.

(** The cache: every configuration with less than [L] left is dead. *)
Definition in_cache c (b : bitset) (s : St) : Prop := ∃ h es, cache c !! h = Some es ∧ (b, s) ∈ es.

Definition cache_ok c (L : list nat) : Prop :=
  ∀ b s, in_cache c b s → (length (rem b) < length L)%nat → dead (rem b) s.

Lemma cacheContains_true c b s :
  cacheContains equal (cache c) (b, s) = true → ∃ s', in_cache c b s' ∧ equal s s' = true.
Proof.
  unfold cacheContains, bucket. rewrite existsb_exists. intros ([b' s'] & Hin & [Hb Hs]%andb_true_iff).
  apply equals_eq in Hb as Hb'. cbn [fst snd] in *. subst b'. exists s'. split; [|done].
  destruct (cache c !! hash b) as [es|] eqn:E; [|done]. exists (hash b), es. split; [done|]. by apply list_elem_of_In.
Qed.

Context (computePartial : bool).
Notation loop := (check_loop step equal computePartial never hd).

(** What the search does from a state: it succeeds, or comes back to the first
    return of its list with everything but the cache and [longest] restored. *)
Definition succeeds c (L : list nat) : Prop := ∃ fuel c' ord,
  (∀ t, loop fuel t c = Some (true, c')) ∧ completes L (state c) ord ∧
  (calls c').*1 = (calls c).*1 ++ ord ∧ stat <$> nodes c' = Σ ∧ go_len (longest c') = n ∧
  (∀ v, v ∈ calls c' → v.1 ∈ L0).

Definition same_place c c' : Prop :=
  nodes c' = nodes c ∧ linearized c' = linearized c ∧ calls c' = calls c ∧ state c' = state c.

Definition cache_grows c c' : Prop := ∀ b s, in_cache c' b s → in_cache c b s ∨ dead (rem b) s.

Definition fails c (L : list nat) : Prop := ∃ k c' r,
  (∀ fuel t, loop (k + fuel) t c = loop fuel (k + t) c') ∧ frame c' L ∧ same_place c c' ∧
  cur c' = Some r ∧ r ∈ L ∧ nmatch r = None ∧ cache_grows c c' ∧ dead L (state c).

Definition outcome c L : Prop := succeeds c L ∨ fails c L.

Lemma L0_of_frame c L x : frame c L → x ∈ L → x ∈ L0.
Proof. intros HF. rewrite (fr_rem _ _ HF). by intros [_ ?]%rem_elem. Qed.

Lemma frame_NoDup c L : frame c L → NoDup (hd :: L).
Proof using Hwf.
  intros HF. apply NoDup_cons. split; [|rewrite (fr_rem _ _ HF); by apply rem_NoDup].
  intros Hin%(L0_of_frame c L); [|done]. by pose proof (lw_nodup Hwf) as [? _]%NoDup_cons.
Qed.

Lemma frame_next c A x S nd :
  frame c (A ++ x :: S) → nodes c !! x = Some nd → next nd = head S.
Proof.
  intros HF Hx. pose proof (fr_seg _ _ HF) as Hs. change (hd :: A ++ x :: S) with ((hd :: A) ++ x :: S) in Hs.
  apply seg_app in Hs as [_ [(nd' & Hx' & _ & Hn) _]]. simplify_eq. rewrite Hn. by destruct S.
Qed.

(** One iteration, up to the choice between a call and a return. *)
Lemma loop_unfold c A x S fuel t :
  frame c (A ++ x :: S) → cur c = Some x →
  ∃ e, nodes c !! x = Some e ∧ node_value e = nval x ∧ node_match e = nmatch x ∧ node_id e = nid x ∧
    next e = head S ∧
    loop (Datatypes.S fuel) t c =
      match node_match e with
      | Some m => matching ← nodes c !! m; c ← try_call step equal hd c x e matching; loop fuel (Datatypes.S t) c
      | None => if go_len (calls c) =? 0 then Some (false, c)
                else c ← backtrack computePartial c; loop fuel (Datatypes.S t) c
      end.
Proof using Hwf.
  intros HF Hcur. assert (x ∈ L0) as HxL by (apply (L0_of_frame _ _ _ HF); apply elem_of_app; right; by left).
  destruct (stat_node c _ x HF HxL) as (e & He & Hv & Hm & Hid).
  exists e. split; [done|]. split; [done|]. split; [done|]. split; [done|].
  split; [by eapply frame_next|]. cbn [check_loop].
  pose proof (fr_seg _ _ HF) as [(nh & Hh & _ & Hnh) _]. rewrite Hh. cbn. rewrite Hnh.
  assert (∃ y, first (A ++ x :: S) None = Some y) as [y ->] by (destruct A; cbn; eauto).
  unfold never. rewrite Hcur. cbn. rewrite He. done.
Qed.

(** Going on to the next entry of the list. *)
Definition advance c (p : option nat) : search :=
  MkSearch (nodes c) p (linearized c) (cache c) (calls c) (state c) (seqs c) (longest c).

Lemma frame_advance c L p : frame c L → frame (advance c p) L.
Proof. intros []. by split. Qed.

Lemma outcome_advance c L p :
  (∀ fuel t, loop (S fuel) t c = loop fuel (S t) (advance c p)) → outcome (advance c p) L → outcome c L.
Proof.
  intros Hstep [(fuel & c' & ord & Hl & ?)|(k & c' & r & Hl & HF & ?)].
  - left. exists (S fuel), c', ord. split; [|done]. intros t. by rewrite Hstep.
  - right. exists (S k), c', r. split; [|done]. intros fuel t. cbn [Nat.add]. rewrite Hstep, Hl. f_equal. lia.
Qed.

(** Taking the call [x] out of the list. *)
Lemma try_call_push c A x B m C e nm i o s' :
  frame c (A ++ x :: B ++ m :: C) → nodes c !! x = Some e → nodes c !! m = Some nm → nmatch x = Some m →
  node_value e = Some i → node_value nm = Some o → node_id e = nid x → step (state c) i o = Some (true, s') →
  ∃ nb, bit_set (linearized c) (nid x) = Some nb ∧ rem nb = A ++ B ++ C ∧
  if cacheContains equal (cache c) (nb, s') then try_call step equal hd c x e nm = Some (advance c (next e))
  else ∃ c1, try_call step equal hd c x e nm = Some c1 ∧ frame c1 (A ++ B ++ C) ∧ cur c1 = head (A ++ B ++ C) ∧
    calls c1 = calls c ++ [(x, state c)] ∧ state c1 = s' ∧ seqs c1 = seqs c ∧ longest c1 = longest c ∧
    cache c1 = <[hash nb := bucket (cache c) (hash nb) ++ [(nb, s')]]> (cache c) ∧
    unlift (nodes c1) x = Some (nodes c) ∧ bit_clear (linearized c1) (nid x) = Some (linearized c).
Proof using Hwf.
  intros HF He Hnm Hm Hi Ho Hid Hstep.
  assert (x ∈ A ++ x :: B ++ m :: C) as Hx by (apply elem_of_app; right; by left).
  assert (x ∈ L0) as HxL by (by eapply L0_of_frame).
  pose proof (lw_id Hwf x HxL) as Hn. pose proof (fr_len _ _ HF) as Hlen.
  destruct (bit_set_spec (linearized c) (nid x) ltac:(lia)) as (nb & Hnb & Hl & Hw & Hh).
  exists nb. split; [done|].
  assert (rem nb = A ++ B ++ C) as Hrem by (eapply rem_set; [by symmetry; apply (fr_rem _ _ HF)|done|done]).
  split; [done|]. unfold try_call. rewrite Hi, Ho. cbn [mbind option_bind]. rewrite Hstep. cbn [mbind option_bind].
  rewrite clone_eq, Hid, Hnb. cbn [mbind option_bind].
  destruct (cacheContains equal (cache c) (nb, s')); cbn; [done|].
  destruct (lift_spec (nodes c) (hd :: A) x B m C) as (h' & Hlift & Hseg & Hun & Hst);
    [done|by apply (frame_NoDup c)|by apply (fr_seg _ _ HF)| |].
  { rewrite He. cbn. f_equal. rewrite <- Hm. destruct (stat_node c _ x HF HxL) as (e' & ? & ? & ? & ?). congruence. }
  rewrite Hlift. cbn. pose proof Hseg as [(nh & Hnh & _ & Hnext) _]. rewrite Hnh. cbn. rewrite Hnext.
  eexists. split; [done|]. split; [split; cbn; try done|].
  - rewrite Hst. by apply (fr_stat _ _ HF).
  - lia.
  - by apply Hw, (fr_wf _ _ HF).
  - intros v [Hv|Hv]%elem_of_app; [by apply (fr_calls _ _ HF)|]. apply list_elem_of_singleton in Hv as ->. done.
  - by apply (fr_longest _ _ HF).
  - by apply (fr_ptr _ _ HF).
  - split; [by destruct (A ++ B ++ C)|]. split; [done|]. split; [done|]. split; [done|]. split; [done|].
    split; [done|]. split; [done|]. cbn. apply bit_set_clear; [lia|by apply (fr_wf _ _ HF)|done|].
    rewrite (fr_rem _ _ HF) in Hx. by apply rem_elem in Hx as [? _].
Qed.

(** Undoing it. *)
Lemma backtrack_pop c c2 A x S L1 :
  frame c (A ++ x :: S) → frame c2 L1 → calls c2 = calls c ++ [(x, state c)] →
  unlift (nodes c2) x = Some (nodes c) → bit_clear (linearized c2) (nid x) = Some (linearized c) →
  ∃ c3, backtrack computePartial c2 = Some c3 ∧ frame c3 (A ++ x :: S) ∧ same_place c c3 ∧ cur c3 = head S ∧
    cache c3 = cache c2.
Proof using Hwf.
  intros HF HF2 Hcalls Hun Hcl. unfold backtrack.
  assert (∃ ss lg, (if computePartial then update_longest (nodes c2) (calls c2) (calls c2) None (seqs c2) (longest c2)
    else Some (seqs c2, longest c2)) = Some (ss, lg) ∧ go_len lg = n ∧ ∀ l, Some l ∈ lg → (l < length ss)%nat)
    as (ss & lg & -> & Hlg & Hptr).
  { destruct computePartial; [|exists (seqs c2), (longest c2); split; [done|]; split;
      [apply (fr_longest _ _ HF2)|apply (fr_ptr _ _ HF2)]].
    destruct (update_longest_ok (nodes c2) (calls c2) (calls c2) None (seqs c2) (longest c2)) as (ss & lg & ? & ? & ?);
      [|done|apply (fr_ptr _ _ HF2)|done|].
    - intros v Hv%(fr_calls _ _ HF2). destruct (stat_node _ _ _ HF2 Hv) as (nd & ? & _ & _ & ?).
      exists nd. rewrite (fr_longest _ _ HF2). split; [done|]. split; [done|]. by apply (lw_id Hwf).
    - exists ss, lg. split; [done|]. split; [|done]. rewrite <- (fr_longest _ _ HF2). done. }
  cbn. assert (x ∈ L0) as HxL by (apply (L0_of_frame _ _ _ HF); apply elem_of_app; right; by left).
  assert (go_len (calls c2) - 1 = go_len (calls c)) as -> by (rewrite Hcalls; unfold go_len; rewrite length_app; cbn; lia).
  rewrite Hcalls, go_index_app_r by lia. rewrite Z.sub_diag. change ([(x, state c)].[0]) with (Some (x, state c)). cbn.
  destruct (stat_node _ _ _ HF2 HxL) as (e2 & -> & _ & _ & Hid2). cbn. rewrite Hid2, Hcl. cbn.
  rewrite slice_to_eq by (unfold go_len; rewrite length_app; cbn; lia). cbn.
  rewrite Hun. cbn. destruct (stat_node _ _ _ HF HxL) as (e & He & _). rewrite He. cbn.
  eexists. split; [done|]. split; [|split; [|split; [by eapply frame_next|done]]].
  - destruct HF. split; cbn; try done. unfold go_len. rewrite Nat2Z.id, take_app_length. done.
  - split; [done|]. split; [done|]. split; [|done]. cbn. unfold go_len. by rewrite Nat2Z.id, take_app_length.
Qed.

(** ** The search decides *)

(** No completion of [L] starts with a call of [A]. *)
Definition excluded (L A : list nat) (s : St) : Prop := ∀ e ord, e ∈ A → ¬ completes L s (e :: ord).

Lemma dead_at_return A r S s :
  NoDup (A ++ r :: S) → nmatch r = None → excluded (A ++ r :: S) A s → dead (A ++ r :: S) s.
Proof.
  intros Hnd Hr HA ord Hc.
  inversion Hc as [? Hnil|A' e B m C s0 i o s' ord' HA' Hm Hi Ho Hs Hc' HL Hs0 Hord]; [by destruct A|]. subst ord s0.
  assert (e ∈ A ++ r :: S) as He by (rewrite <- HL; apply elem_of_app; right; by left).
  apply elem_of_app in He as [He|[->|He]%elem_of_cons]; [by eapply HA|congruence|].
  apply list_elem_of_split in He as (S1 & S2 & ->). assert (r ∈ A') as Hin.
  { replace (A ++ r :: S1 ++ e :: S2) with ((A ++ r :: S1) ++ e :: S2) in *
      by (by rewrite <- (assoc_L (++))).
    symmetry in HL. apply app_cons_inj in HL as [<- _]; [set_solver|done]. }
  destruct (HA' r Hin) as [? ?]. congruence.
Qed.

Lemma excluded_snoc A x B m C s :
  NoDup (A ++ x :: B ++ m :: C) → nmatch x = Some m → excluded (A ++ x :: B ++ m :: C) A s →
  (∀ i o s', nval x = Some i → nval m = Some o → step s i o = Some (true, s') → dead (A ++ B ++ C) s') →
  excluded (A ++ x :: B ++ m :: C) (A ++ [x]) s.
Proof.
  intros Hnd Hm HA Hx e ord [He|He]%elem_of_app; [by apply HA|]. apply list_elem_of_singleton in He as ->. intros Hc.
  destruct (completes_inv A x B m C s ord Hnd Hm Hc) as (i & o & s' & Hi & Ho & Hs & Hc'). by eapply Hx.
Qed.

(** Pushing a configuration keeps the rest of the cache. *)
Lemma in_cache_push c c1 nb s' :
  cache c1 = <[hash nb := bucket (cache c) (hash nb) ++ [(nb, s')]]> (cache c) →
  ∀ b s, in_cache c1 b s → in_cache c b s ∨ (b = nb ∧ s = s').
Proof.
  intros Hc b s (h & es & Hes & Hin). rewrite Hc in Hes. destruct (decide (h = hash nb)) as [->|].
  - rewrite lookup_insert_eq in Hes. injection Hes as <-. unfold bucket in Hin.
    apply elem_of_app in Hin as [Hin|Hin].
    + left. destruct (cache c !! hash nb) as [es|] eqn:E; cbn in Hin; [|by apply elem_of_nil in Hin]. by exists (hash nb), es.
    + apply list_elem_of_singleton in Hin. simplify_eq. by right.
  - rewrite lookup_insert_ne in Hes by done. left. by exists h, es.
Qed.

Context `{!EqualSim step equal}.

(** The search from a call [x] that the model accepts and the cache lets
    through: the subtree, and then the rest of the list. *)
Lemma push_outcome c A x B m C nb s' i o :
  let L := A ++ x :: B ++ m :: C in
  frame c L → nmatch x = Some m → nval x = Some i → nval m = Some o → step (state c) i o = Some (true, s') →
  (∀ y, y ∈ A → is_Some (nmatch y)) → cache_ok c L → rem nb = A ++ B ++ C →
  (∀ c1, frame c1 (A ++ B ++ C) → cur c1 = head (A ++ B ++ C) → cache_ok c1 (A ++ B ++ C) → A ++ B ++ C ≠ [] →
    outcome c1 (A ++ B ++ C)) →
  (∀ c3, frame c3 L → state c3 = state c → cur c3 = head (B ++ m :: C) → cache_ok c3 L →
    dead (A ++ B ++ C) s' → outcome c3 L) →
  ∀ c1, (∀ fuel t, loop (S fuel) t c = loop fuel (S t) c1) →
  frame c1 (A ++ B ++ C) → cur c1 = head (A ++ B ++ C) → calls c1 = calls c ++ [(x, state c)] → state c1 = s' →
  cache c1 = <[hash nb := bucket (cache c) (hash nb) ++ [(nb, s')]]> (cache c) →
  unlift (nodes c1) x = Some (nodes c) → bit_clear (linearized c1) (nid x) = Some (linearized c) →
  outcome c L.
Proof using Hwf.
  intros L HF Hm Hi Ho Hstep HA Hcache Hnb IHsub IHrest c1 Hloop HF1 Hcur1 Hcalls1 Hst1 Hc1 Hun Hcl.
  assert (∀ ord, completes (A ++ B ++ C) s' ord → completes L (state c) (x :: ord)) as Hcomp.
  { intros ord Hord. by econstructor. }
  destruct (decide (A ++ B ++ C = [])) as [Hnil|Hne].
  { left. exists 2%nat, c1, [x]. split; [|split; [|split; [|split; [|split]]]].
    - intros t. rewrite Hloop. cbn. pose proof (fr_seg _ _ HF1) as [(nh & -> & _ & Hnh) _]. cbn.
      rewrite Hnh, Hnil. done.
    - apply Hcomp. rewrite Hnil. constructor.
    - by rewrite Hcalls1, fmap_app.
    - apply (fr_stat _ _ HF1).
    - apply (fr_longest _ _ HF1).
    - apply (fr_calls _ _ HF1). }
  assert (cache_ok c1 (A ++ B ++ C)) as Hok1.
  { intros b s Hin Hlen. destruct (in_cache_push _ _ _ _ Hc1 _ _ Hin) as [Hin'|[-> ->]].
    - apply Hcache; [done|]. unfold L. rewrite !length_app in *. cbn. rewrite length_app. cbn. lia.
    - rewrite Hnb in Hlen. lia. }
  destruct (IHsub c1 HF1 Hcur1 Hok1 Hne) as [(fuel & c' & ord & Hl & Hord & Hcalls' & ?)|
    (k & c2 & r & Hl & HF2 & (Hn2 & Hb2 & Hca2 & Hs2) & Hcur2 & Hr2 & Hmr & Hg2 & Hdead)].
  { left. exists (S fuel), c', (x :: ord). split; [intros t; by rewrite Hloop|]. rewrite Hst1 in Hord.
    split; [by apply Hcomp|]. split; [|done]. by rewrite Hcalls', Hcalls1, fmap_app, <- (assoc_L (++)). }
  destruct (backtrack_pop c c2 A x (B ++ m :: C) (A ++ B ++ C)) as (c3 & Hbt & HF3 & Hsame & Hcur3 & Hc3);
    [done|done|congruence|congruence|congruence|].
  assert (cache_grows c c3) as Hg.
  { intros b s Hin. assert (in_cache c2 b s) as Hin2 by (unfold in_cache; by rewrite <- Hc3).
    destruct (Hg2 b s Hin2) as [Hin1|]; [|by right].
    destruct (in_cache_push _ _ _ _ Hc1 _ _ Hin1) as [|[-> ->]]; [by left|]. right. rewrite Hnb, <- Hst1. done. }
  destruct Hsame as (Hn3 & Hb3 & Hca3 & Hs3).
  assert (∀ fuel t, loop (S (k + S fuel)) t c = loop fuel (S (k + S t)) c3) as Hrun.
  { intros fuel t. rewrite Hloop, Hl. apply list_elem_of_split in Hr2 as (S1 & S2 & HS).
    rewrite HS in HF2. destruct (loop_unfold c2 S1 r S2 fuel (k + S t) HF2 Hcur2) as (e & _ & _ & Hme & _ & _ & ->).
    rewrite Hme, Hmr, Hbt. destruct (Z.eqb_spec (go_len (calls c2)) 0) as [H0|]; [|done].
    rewrite Hca2, Hcalls1 in H0. unfold go_len in H0. rewrite length_app in H0. cbn in H0. lia. }
  destruct (IHrest c3 HF3 Hs3 Hcur3) as [(fuel & c' & ord & Hl3 & Hord & Hcalls' & ?)|
    (k3 & c4 & r4 & Hl4 & HF4 & (Hn4 & Hb4 & Hca4 & Hs4) & Hcur4 & Hr4 & Hmr4 & Hg4 & Hdead4)].
  - intros b s Hin Hlen. destruct (Hg b s Hin); [by apply Hcache|done].
  - by rewrite <- Hst1.
  - left. exists (S (k + S fuel)), c', ord. split; [intros t; by rewrite Hrun|]. rewrite Hs3 in Hord.
    split; [done|]. split; [congruence|done].
  - right. exists (S (k + S k3)), c4, r4. split; [|split; [done|split; [|split; [done|split; [done|split; [done|split]]]]]].
    + intros fuel t. replace (S (k + S k3) + fuel)%nat with (S (k + S (k3 + fuel))) by lia. rewrite Hrun, Hl4. f_equal. lia.
    + unfold same_place. repeat split; congruence.
    + intros b s Hin. destruct (Hg4 b s Hin); [|by right]. by apply Hg.
    + by rewrite <- Hs3.
Qed.

Lemma scan_outcome L :
  (∀ L1 c1, (length L1 < length L)%nat → frame c1 L1 → cur c1 = head L1 → cache_ok c1 L1 → L1 ≠ [] → outcome c1 L1) →
  ∀ R A c, L = A ++ R → L ≠ [] → frame c L → cur c = head R → (∀ y, y ∈ A → is_Some (nmatch y)) →
    excluded L A (state c) → cache_ok c L → outcome c L.
Proof using Hwf EqualSim0.
  intros IHsub R. induction R as [|x R IH]; intros A c HL Hne HF Hcur HA Hex Hok.
  { rewrite app_nil_r in HL. subst A. destruct (rem_return (linearized c) L); [|done|done]. symmetry. apply (fr_rem _ _ HF). }
  subst L. pose proof (frame_NoDup _ _ HF) as [_ Hnd]%NoDup_cons.
  destruct (nmatch x) as [m|] eqn:Hm.
  2:{ right. exists 0%nat, c, x. split; [done|]. split; [done|]. split; [done|]. split; [done|].
      split; [apply elem_of_app; right; by left|]. split; [done|]. split; [intros b s Hin; by left|].
      by apply dead_at_return. }
  destruct (rem_split (linearized c) A x R m) as (B & C & ->); [symmetry; apply (fr_rem _ _ HF)|done|].
  assert (x ∈ L0 ∧ m ∈ L0) as [HxL HmL] by (split; apply (L0_of_frame _ _ _ HF); set_solver).
  destruct (stat_node _ _ _ HF HmL) as (nm & Hnm & Hov & _).
  destruct (lw_value Hwf x HxL) as [i Hi]. destruct (lw_value Hwf m HmL) as [o Ho].
  destruct (lw_step Hwf x m (state c) i o HxL Hm Hi Ho) as [[ok s'] Hstep].
  assert (∃ e, nodes c !! x = Some e ∧ node_value e = Some i ∧ node_id e = nid x ∧ next e = head (B ++ m :: C) ∧
    ∀ fuel t, loop (S fuel) t c = c ← try_call step equal hd c x e nm; loop fuel (S t) c)
    as (e & He & Hie & Hide & Hnext & Hloop).
  { destruct (loop_unfold c A x (B ++ m :: C) 0 0 HF Hcur) as (e & He & Hve & Hme & Hide & Hnext & _).
    exists e. split; [done|]. split; [congruence|]. split; [done|]. split; [done|]. intros fuel t.
    destruct (loop_unfold c A x (B ++ m :: C) fuel t HF Hcur) as (e' & He' & _ & _ & _ & _ & ->).
    replace e' with e by congruence. by rewrite Hme, Hm, Hnm. }
  (* going on with the next entry *)
  assert (∀ c3, frame c3 (A ++ x :: B ++ m :: C) → state c3 = state c → cur c3 = head (B ++ m :: C) →
    cache_ok c3 (A ++ x :: B ++ m :: C) →
    (∀ s1, step (state c) i o = Some (true, s1) → dead (A ++ B ++ C) s1) → outcome c3 (A ++ x :: B ++ m :: C)) as Hrest.
  { intros c3 HF3 Hs3 Hcur3 Hok3 Hdead. apply (IH (A ++ [x])); try done.
    - by rewrite <- (assoc_L (++)).
    - intros y [Hy|Hy]%elem_of_app; [by apply HA|]. apply list_elem_of_singleton in Hy as ->. eauto.
    - rewrite Hs3. apply excluded_snoc; [done..|]. intros i1 o1 s1 Hi1 Ho1 Hs1. apply Hdead. congruence. }
  destruct ok.
  2:{ apply (outcome_advance _ _ (next e)).
      - intros fuel t. rewrite Hloop. unfold try_call. rewrite Hie, Hov, Ho. cbn. by rewrite Hstep.
      - apply Hrest; [by apply frame_advance|done|done|done|]. intros s1 Hs1. congruence. }
  destruct (try_call_push c A x B m C e nm i o s') as (nb & Hnb & Hrem & Htry); [done..|congruence|done|done|].
  destruct (cacheContains equal (cache c) (nb, s')) eqn:Ecache.
  - apply (outcome_advance _ _ (next e)); [intros fuel t; by rewrite Hloop, Htry|].
    apply Hrest; [by apply frame_advance|done|done|done|]. intros s1 Hs1. simplify_eq.
    destruct (cacheContains_true _ _ _ Ecache) as (s2 & Hin & Heq). intros ord Hord.
    apply (completes_equal _ _ _ _ Heq) in Hord. rewrite <- Hrem in Hord. revert Hord. apply Hok; [done|].
    rewrite Hrem, !length_app. cbn. rewrite !length_app. cbn. lia.
  - destruct Htry as (c1 & Htry & HF1 & Hcur1 & Hcalls1 & Hs1 & _ & _ & Hc1 & Hun & Hcl).
    eapply (push_outcome c A x B m C nb s' i o); try done.
    + intros c0 HF0 Hcur0 Hok0 Hne0. apply IHsub; [|done..]. rewrite !length_app. cbn. rewrite !length_app. cbn. lia.
    + intros c3 HF3 Hs3 Hcur3 Hok3 Hdead. apply Hrest; try done. intros s0 Hs0. by simplify_eq.
    + intros fuel t. by rewrite Hloop, Htry.
Qed.

(** From the start of a list the search succeeds exactly when the list can be
    completed. *)
Lemma search_decides L c :
  frame c L → cur c = head L → cache_ok c L → L ≠ [] → outcome c L.
Proof using Hwf EqualSim0.
  remember (length L) as len eqn:Hlen. revert L c Hlen.
  induction len as [len IH] using lt_wf_ind. intros L c Hlen HF Hcur Hok Hne.
  apply (scan_outcome L) with (R := L) (A := []); try done.
  - intros L1 c1 Hlt. rewrite <- Hlen in Hlt. by apply (IH (length L1)).
  - intros y Hy. by apply elem_of_nil in Hy.
  - intros e ord He. by apply elem_of_nil in He.
Qed.
End wf.
End search.
