(* ===== verification/PorcupineOrder.v ===== *)
(** * Completions of the list are linearizations of the history

    [linearization]: an order of all operations of a history that the model
    accepts and that keeps the real-time order.  The orders in which the calls
    of the list can be taken out ([completes]) are the linearizations. *)

From S2P Require Import Prelude Bitset Porcupine PorcupineList PorcupineSearch.

Section linearizability.
Context {V St : Type} (step : St → V → V → option (bool * St)) (init : St).
Implicit Types (ops : list (Operation V)) (lin : list nat).

(** The model accepts the operations [lin] in this order. *)
Fixpoint legal ops (s : St) lin : Prop :=
  match lin with
  | [] => True
  | i :: lin => ∃ op s', ops !! i = Some op ∧ step s (Input op) (Output op) = Some (true, s') ∧ legal ops s' lin
  end.

(** Operation [i] returned before operation [j] was called. *)
Definition precedes ops (i j : nat) : Prop :=
  ∃ a b, ops !! i = Some a ∧ ops !! j = Some b ∧ Return a < Call b.

Record linearization ops lin : Prop := {
  lin_perm : lin ≡ₚ seq 0 (length ops);
  lin_legal : legal ops init lin;
  lin_order p q i j : (p < q)%nat → lin !! p = Some i → lin !! q = Some j → ¬ precedes ops j i;
}.

Definition linearizable ops : Prop := ∃ lin, linearization ops lin.
End linearizability.

(** ** Order in a list *)

Definition before {A} (l : list A) (x y : A) : Prop := ∃ l1 l2 l3, l = l1 ++ x :: l2 ++ y :: l3.

Lemma before_filter {A} (P : A → Prop) `{!∀ x, Decision (P x)} l x y :
  P x → P y → before l x y → before (filter P l) x y.
Proof.
  intros Hx Hy (l1 & l2 & l3 & ->). exists (filter P l1), (filter P l2), (filter P l3).
  by rewrite filter_app, filter_cons_True, filter_app, filter_cons_True.
Qed.

Lemma before_sublist {A} (l k : list A) x y : l `sublist_of` k → before l x y → before k x y.
Proof.
  intros Hs (l1 & l2 & l3 & ->).
  assert ([x; y] `sublist_of` k) as H.
  { etrans; [|done]. apply sublist_inserts_l, sublist_skip, sublist_inserts_l, sublist_skip, sublist_nil_l. }
  apply sublist_cons_l in H as (k1 & k2 & -> & H). apply sublist_cons_l in H as (k3 & k4 & -> & _).
  by exists k1, k3, k4.
Qed.

Lemma before_positions {A} (l : list A) x y :
  before l x y ↔ ∃ p q, (p < q)%nat ∧ l !! p = Some x ∧ l !! q = Some y.
Proof.
  split.
  - intros (l1 & l2 & l3 & ->). exists (length l1), (S (length l1 + length l2)). split; [lia|].
    rewrite list_lookup_middle by done. split; [done|].
    rewrite lookup_app_r by lia. replace (S (length l1 + length l2) - length l1)%nat with (S (length l2)) by lia.
    by apply (list_lookup_middle l2).
  - intros (p & q & Hpq & Hp & Hq). exists (take p l), (take (q - S p) (drop (S p) l)), (drop (S q) l).
    rewrite <- (take_drop_middle l p x Hp) at 1. do 2 f_equal.
    rewrite <- (take_drop_middle (drop (S p) l) (q - S p) y) at 1.
    + f_equal. f_equal. rewrite drop_drop. f_equal. lia.
    + rewrite lookup_drop. rewrite <- Hq. f_equal. lia.
Qed.

Lemma before_NoDup {A} (l : list A) x y p q :
  NoDup l → l !! p = Some x → l !! q = Some y → before l x y ↔ (p < q)%nat.
Proof.
  intros Hnd Hp Hq. rewrite before_positions. split; [|by exists p, q].
  intros (p' & q' & Hpq & Hp' & Hq'). assert (p' = p) as -> by by eapply NoDup_lookup.
  assert (q' = q) as -> by by eapply NoDup_lookup. done.
Qed.

(** ** Completions *)

Section orders.
Context {V St : Type} (step : St → V → V → option (bool * St)).
Context (Σ : list (option V * option nat * Z)) (hd : nat) (L0 : list nat) (n : Z).
Context (Hwf : list_wf step Σ hd L0 n).

Notation nval := (nval Σ).
Notation nmatch := (nmatch Σ).
Notation nid := (nid Σ).
Notation rem := (rem Σ L0).
Notation completes := (completes step Σ).

Fixpoint node_legal (s : St) (ord : list nat) : Prop :=
  match ord with
  | [] => True
  | x :: ord => ∃ m i o s', nmatch x = Some m ∧ nval x = Some i ∧ nval m = Some o ∧
                  step s i o = Some (true, s') ∧ node_legal s' ord
  end.

Definition is_call (x : nat) : Prop := is_Some (nmatch x).
#[local] Instance is_call_dec x : Decision (is_call x) := _.

(** No call is taken after one that was issued when it had returned. *)
Definition node_order (ord : list nat) : Prop :=
  ∀ p q x y m, (p < q)%nat → ord !! p = Some x → ord !! q = Some y → nmatch y = Some m → ¬ before L0 m x.

Lemma node_order_cons x ord :
  node_order (x :: ord) ↔ (∀ y m, y ∈ ord → nmatch y = Some m → ¬ before L0 m x) ∧ node_order ord.
Proof.
  split.
  - intros H. split.
    + intros y m [q Hq]%list_elem_of_lookup. by apply (H 0%nat (S q)); [lia|..].
    + intros p q x' y m Hpq Hp Hq. by apply (H (S p) (S q)); [lia|..].
  - intros [H1 H2] [|p] [|q] x' y m Hpq Hp Hq Hm; try lia; cbn in *.
    + simplify_eq. apply (H1 y); [by eapply list_elem_of_lookup_2|done].
    + apply (H2 p q x' y); [lia|done..].
Qed.

Lemma calls_remove A e B m C :
  nmatch e = Some m → nmatch m = None →
  filter is_call (A ++ e :: B ++ m :: C) ≡ₚ e :: filter is_call (A ++ B ++ C).
Proof.
  intros He Hm. rewrite !filter_app, filter_cons_True by (by exists m).
  rewrite filter_app, filter_cons_False by (unfold is_call; rewrite Hm; by intros [? ?]). solve_Permutation.
Qed.

(** The list after a call was taken out is again given by a bitset. *)
Lemma rem_next b A e B m C :
  n <= 64 * go_len b → rem b = A ++ e :: B ++ m :: C → nmatch e = Some m → e ∈ L0 →
  ∃ b', rem b' = A ++ B ++ C ∧ n <= 64 * go_len b'.
Proof using Hwf.
  intros Hlen Hr Hm He. pose proof (lw_id _ _ _ _ _ Hwf e He).
  destruct (bit_set_spec b (nid e) ltac:(lia)) as (b' & _ & Hl & _ & Hh).
  exists b'. split; [|lia]. by eapply rem_set.
Qed.

Lemma completes_sound L s ord :
  completes L s ord → ∀ b, L = rem b → n <= 64 * go_len b →
  node_legal s ord ∧ ord ≡ₚ filter is_call L ∧ node_order ord.
Proof using Hwf.
  induction 1 as [s|A e B m C s i o s' ord HA Hm Hi Ho Hs Hc IH]; intros b Hb Hlen.
  { split; [done|]. split; [done|]. intros p q x y m Hpq Hp. done. }
  assert (e ∈ rem b) as HeR by (rewrite <- Hb; set_solver). apply rem_elem in HeR as [_ He].
  destruct (lw_call _ _ _ _ _ Hwf e m He Hm) as (_ & Hm' & _).
  destruct (rem_next b A e B m C Hlen (eq_sym Hb) Hm He) as (b' & Hb' & Hlen').
  destruct (IH b' (eq_sym Hb') Hlen') as (Hl & Hp & Ho').
  split; [by exists m, i, o, s'|]. split; [by rewrite calls_remove, Hp|].
  apply node_order_cons. split; [|done]. intros y my Hy Hmy Hbef.
  rewrite Hp in Hy. apply list_elem_of_filter in Hy as [_ Hy].
  assert (y ∈ rem b) as HyR by (rewrite <- Hb; set_solver).
  assert (my ∈ A) as HmyA; [|by destruct (HA my HmyA); destruct (lw_call _ _ _ _ _ Hwf y my) as (_ & ? & _);
    [apply rem_elem in HyR as [_ ?]|..|congruence]].
  apply rem_elem in HyR as [HyR HyL]. destruct (lw_call _ _ _ _ _ Hwf y my HyL Hmy) as (Hid & _ & _).
  destruct (before_filter (λ x, has b (nid x) = false) L0 my e) as (l1 & l2 & l3 & Hl'); [congruence| |done|].
  { assert (e ∈ rem b) as HeR by (rewrite <- Hb; set_solver). by apply rem_elem in HeR as [? _]. }
  pose proof (rem_NoDup _ _ _ _ _ Hwf b) as Hnd. unfold rem in Hb. rewrite Hl' in Hb.
  change (rem b) with (filter (λ x, has b (nid x) = false) L0) in Hnd. rewrite Hl' in Hnd.
  replace (l1 ++ my :: l2 ++ e :: l3) with ((l1 ++ my :: l2) ++ e :: l3) in * by (by rewrite <- (assoc_L (++))).
  symmetry in Hb. apply app_cons_inj in Hb as [<- _]; [|done]. set_solver.
Qed.

(** A return that is left has its call left. *)
Lemma rem_owner b x : x ∈ rem b → ¬ is_call x → ∃ z, nmatch z = Some x ∧ z ∈ filter is_call (rem b).
Proof using Hwf.
  intros [Hb HxL]%rem_elem Hn.
  destruct (lw_return _ _ _ _ _ Hwf x HxL) as (z & HzL & Hz).
  { destruct (nmatch x) eqn:Ex; [|done]. destruct Hn. by exists n0. }
  exists z. split; [done|]. apply list_elem_of_filter. split; [by exists x|].
  destruct (lw_call _ _ _ _ _ Hwf z x HzL Hz) as (Hid & _). apply rem_elem. split; [congruence|done].
Qed.

Lemma completes_intro ord : ∀ b s,
  n <= 64 * go_len b → node_legal s ord → ord ≡ₚ filter is_call (rem b) → node_order ord → completes (rem b) s ord.
Proof using Hwf.
  induction ord as [|e ord IH]; intros b s Hlen Hl Hp Ho.
  { symmetry in Hp. apply Permutation_nil_r in Hp. destruct (rem b) as [|x L] eqn:E; [constructor|]. exfalso.
    destruct (decide (is_call x)) as [Hx|Hx]; [by rewrite filter_cons_True in Hp|].
    destruct (rem_owner b x) as (z & _ & Hz); [rewrite E; by left|done|].
    rewrite E, Hp in Hz. by apply elem_of_nil in Hz. }
  destruct Hl as (m & i & o & s' & Hm & Hi & Hout & Hs & Hl).
  assert (e ∈ filter is_call (rem b)) as [_ He]%list_elem_of_filter by (rewrite <- Hp; by left).
  pose proof (rem_NoDup _ _ _ _ _ Hwf b) as Hnd. apply rem_elem in He as He'. destruct He' as [_ HeL].
  apply list_elem_of_split in He as (A & R & HR).
  destruct (rem_split _ _ _ _ _ Hwf b A e R m HR Hm) as (B & C & ->).
  destruct (lw_call _ _ _ _ _ Hwf e m HeL Hm) as (_ & Hm' & _).
  destruct (rem_next b A e B m C Hlen HR Hm HeL) as (b' & Hb' & Hlen').
  apply node_order_cons in Ho as [Ho1 Ho2].
  rewrite HR. econstructor; [|done..|].
  - intros x Hx. destruct (decide (is_call x)) as [|Hn]; [done|]. exfalso.
    destruct (rem_owner b x) as (z & Hz & Hzc); [rewrite HR; set_solver|done|].
    rewrite <- Hp in Hzc. apply elem_of_cons in Hzc as [->|Hzo].
    + assert (m = x) as -> by congruence. rewrite HR in Hnd. apply NoDup_app in Hnd as (_ & Hd & _).
      apply (Hd x Hx). set_solver.
    + apply (Ho1 z x Hzo Hz). apply (before_sublist (rem b)); [apply sublist_filter|].
      apply list_elem_of_split in Hx as (A1 & A2 & ->). exists A1, A2, (B ++ m :: C).
      by rewrite HR, <- (assoc_L (++)).
  - rewrite <- Hb'. apply IH; [done|done| |done]. rewrite HR, calls_remove in Hp by done.
    rewrite Hb'. by apply Permutation_cons_inv in Hp.
Qed.

(** ** Histories *)

Context (ops : list (Operation V)).

(** The list holds a call and a return for every operation, in the order of time. *)
Record history_wf : Prop := {
  hw_call x m : x ∈ L0 → nmatch x = Some m →
    ∃ i op, ops !! i = Some op ∧ nid x = Z.of_nat i ∧ nval x = Some (Input op) ∧ nval m = Some (Output op);
  hw_all i : (i < length ops)%nat → ∃ x, x ∈ L0 ∧ is_call x ∧ nid x = Z.of_nat i;
  hw_time x y m i j a b : x ∈ L0 → y ∈ L0 → is_call x → nmatch y = Some m →
    nid x = Z.of_nat i → nid y = Z.of_nat j → ops !! i = Some a → ops !! j = Some b →
    before L0 m x ↔ Return b < Call a;
}.

Context (Hhist : history_wf).

Definition idx (x : nat) : nat := Z.to_nat (nid x).

Lemma call_idx x : x ∈ L0 → is_call x →
  ∃ m op, nmatch x = Some m ∧ ops !! idx x = Some op ∧ nid x = Z.of_nat (idx x) ∧
    nval x = Some (Input op) ∧ nval m = Some (Output op).
Proof using Hhist.
  intros Hx [m Hm]. destruct (hw_call Hhist x m Hx Hm) as (i & op & Hi & Hid & Hv & Hvm).
  assert (idx x = i) as Hidx by (unfold idx; rewrite Hid; lia). exists m, op. rewrite Hidx. done.
Qed.

Lemma idx_inj x y : x ∈ L0 → y ∈ L0 → is_call x → is_call y → idx x = idx y → x = y.
Proof using Hwf Hhist.
  intros Hx Hy Hcx Hcy He. apply (lw_inj _ _ _ _ _ Hwf); try done.
  destruct (call_idx x Hx Hcx) as (_ & _ & _ & _ & -> & _).
  destruct (call_idx y Hy Hcy) as (_ & _ & _ & _ & -> & _). by rewrite He.
Qed.

Lemma precedes_before x y m :
  x ∈ L0 → y ∈ L0 → is_call x → nmatch y = Some m → precedes ops (idx y) (idx x) ↔ before L0 m x.
Proof using Hhist.
  intros Hx Hy Hcx Hm. destruct (call_idx x Hx Hcx) as (mx & a & _ & Ha & Hix & _).
  destruct (call_idx y Hy ltac:(by exists m)) as (my & b & _ & Hb & Hiy & _).
  rewrite (hw_time Hhist x y m (idx x) (idx y) a b) by done. unfold precedes. split.
  - intros (b' & a' & ? & ? & ?). by simplify_eq.
  - intros. by exists b, a.
Qed.

Lemma calls_idx : idx <$> filter is_call L0 ≡ₚ seq 0 (length ops).
Proof using Hwf Hhist.
  apply NoDup_Permutation.
  - pose proof (lw_nodup _ _ _ _ _ Hwf) as [_ Hnd]%NoDup_cons.
    assert (∀ l, NoDup l → l ⊆ filter is_call L0 → NoDup (idx <$> l)) as H; [|apply H; [by apply NoDup_filter|done]].
    induction l as [|x l IH]; intros Hl Hs; [constructor|]. apply NoDup_cons in Hl as [Hx Hl]. cbn. constructor.
    + intros (y & He & Hy)%list_elem_of_fmap. apply Hx. replace x with y; [done|].
      assert (x ∈ filter is_call L0) as [? ?]%list_elem_of_filter by (apply Hs; by left).
      assert (y ∈ filter is_call L0) as [? ?]%list_elem_of_filter by (apply Hs; by right).
      by apply idx_inj.
    + apply IH; [done|]. set_solver.
  - apply NoDup_seq.
  - intros i. rewrite elem_of_seq, list_elem_of_fmap. split.
    + intros (x & -> & [Hc Hx]%list_elem_of_filter). destruct (call_idx x Hx Hc) as (_ & op & _ & Hop & _).
      apply lookup_lt_Some in Hop. lia.
    + intros [_ Hi]. destruct (hw_all Hhist i Hi) as (x & Hx & Hc & Hid). exists x. split; [unfold idx; lia|].
      by apply list_elem_of_filter.
Qed.

Lemma node_legal_idx ord s :
  (∀ x, x ∈ ord → x ∈ L0 ∧ is_call x) → node_legal s ord ↔ legal step ops s (idx <$> ord).
Proof using Hhist.
  revert s. induction ord as [|x ord IH]; intros s Hall; [done|]. cbn.
  destruct (Hall x ltac:(by left)) as [Hx Hc]. destruct (call_idx x Hx Hc) as (m & op & Hm & Hop & _ & Hv & Hvm).
  assert (∀ s, node_legal s ord ↔ legal step ops s (idx <$> ord)) as IH'.
  { intros s'. apply IH. intros y Hy. apply Hall. by right. }
  split.
  - intros (m' & i & o & s' & ? & ? & ? & Hs & Hl). simplify_eq. exists op, s'. by rewrite <- IH'.
  - intros (op' & s' & ? & Hs & Hl). simplify_eq. exists m, (Input op), (Output op), s'. by rewrite IH'.
Qed.

Lemma node_order_idx ord :
  (∀ x, x ∈ ord → x ∈ L0 ∧ is_call x) →
  node_order ord ↔ ∀ p q i j, (p < q)%nat → (idx <$> ord) !! p = Some i → (idx <$> ord) !! q = Some j →
    ¬ precedes ops j i.
Proof using Hhist.
  intros Hall. split.
  - intros Ho p q i j Hpq. rewrite !list_lookup_fmap. intros (x & Hp & ->)%fmap_Some_1 (y & Hq & ->)%fmap_Some_1.
    destruct (Hall x) as [Hx Hcx]; [by eapply list_elem_of_lookup_2|].
    destruct (Hall y) as [Hy [m Hm]]; [by eapply list_elem_of_lookup_2|].
    rewrite (precedes_before x y m) by done. by eapply Ho.
  - intros Ho p q x y m Hpq Hp Hq Hm.
    destruct (Hall x) as [Hx Hcx]; [by eapply list_elem_of_lookup_2|].
    destruct (Hall y) as [Hy _]; [by eapply list_elem_of_lookup_2|].
    rewrite <- (precedes_before x y m) by done. apply (Ho p q); [done|..]; by rewrite list_lookup_fmap, ?Hp, ?Hq.
Qed.

Lemma rem_all : rem (newBitset n) = L0.
Proof. apply filter_all. intros x _. apply newBitset_has. Qed.

Context (init : St) (Hn : 0 <= n).

Lemma completes_linearization ord :
  completes L0 init ord → linearization step init ops (idx <$> ord).
Proof using Hwf Hhist Hn.
  intros Hc. destruct (completes_sound _ _ _ Hc (newBitset n)) as (Hl & Hp & Ho); [by rewrite rem_all|by apply newBitset_len|].
  assert (∀ x, x ∈ ord → x ∈ L0 ∧ is_call x) as Hall.
  { intros x Hx. rewrite Hp in Hx. by apply list_elem_of_filter in Hx as [? ?]. }
  split.
  - rewrite Hp. apply calls_idx.
  - by apply node_legal_idx.
  - by apply node_order_idx.
Qed.

Lemma linearization_completes lin :
  linearization step init ops lin → ∃ ord, lin = idx <$> ord ∧ completes L0 init ord.
Proof using Hwf Hhist Hn.
  intros [Hp Hl Ho].
  assert (∃ ord, lin = idx <$> ord ∧ ∀ x, x ∈ ord → x ∈ L0 ∧ is_call x) as (ord & -> & Hall).
  { assert (∀ i, i ∈ lin → (i < length ops)%nat) as Hin.
    { intros i Hi. rewrite Hp in Hi. apply elem_of_seq in Hi. lia. }
    clear Hp Hl Ho. induction lin as [|i lin IH]; [exists []; split; [done|by intros x Hx%elem_of_nil]|].
    destruct IH as (ord & -> & Hall); [intros; apply Hin; by right|].
    destruct (hw_all Hhist i) as (x & Hx & Hc & Hid); [apply Hin; by left|].
    exists (x :: ord). split; [cbn; f_equal; unfold idx; lia|]. intros y [->|Hy]%elem_of_cons; [done|by apply Hall]. }
  exists ord. split; [done|]. rewrite <- rem_all at 1. apply completes_intro; [by apply newBitset_len|by apply node_legal_idx| |by apply node_order_idx].
  rewrite rem_all. apply NoDup_Permutation.
  - apply (NoDup_fmap_1 idx). rewrite Hp. apply NoDup_seq.
  - apply NoDup_filter. by pose proof (lw_nodup _ _ _ _ _ Hwf) as [_ ?]%NoDup_cons.
  - intros x. rewrite list_elem_of_filter. split; [intros Hx; by destruct (Hall x Hx)|]. intros [Hc Hx].
    assert (idx x ∈ idx <$> ord) as (y & He & Hy)%list_elem_of_fmap.
    { rewrite Hp, <- calls_idx. apply list_elem_of_fmap. exists x. split; [done|]. by apply list_elem_of_filter. }
    destruct (Hall y Hy). assert (x = y) as -> by (by apply idx_inj). done.
Qed.
End orders.
