(* ===== verification/PorcupineHist.v ===== *)
(** * Histories as entries

    [makeEntries] gives, for a history in which no operation returns before it is
    called, a list with one call and one return per operation, in the order of
    time; the linked list built from it is well formed ([list_wf]) and
    represents the history ([history_wf]). *)

From S2P Require Import Prelude Bitset Porcupine PorcupineList PorcupineSearch PorcupineOrder.

Section entries.
Context {V : Type} `{!EntrySort V, !EntrySortLaws V}.
Implicit Types (ops : list (Operation V)) (op : Operation V) (e : entry V) (es : list (entry V)).

Definition callE (i : nat) op : entry V := MkEntry callEntry (Input op) (Z.of_nat i) (Call op) (ClientId op).
Definition retE (i : nat) op : entry V := MkEntry returnEntry (Output op) (Z.of_nat i) (Return op) (ClientId op).

Lemma make_entries_elem k ops e :
  e ∈ make_entries_from (Z.of_nat k) ops ↔
  ∃ i op, ops !! i = Some op ∧ (e = callE (k + i) op ∨ e = retE (k + i) op).
Proof.
  revert k. induction ops as [|op ops IH]; intros k; cbn [make_entries_from].
  { rewrite elem_of_nil. split; [done|]. by intros (i & op & ? & _). }
  replace (Z.of_nat k + 1) with (Z.of_nat (S k)) by lia. rewrite !elem_of_cons, IH. split.
  - intros [->|[->|(i & op' & Hop & He)]].
    + exists 0%nat, op. rewrite Nat.add_0_r. split; [done|by left].
    + exists 0%nat, op. rewrite Nat.add_0_r. split; [done|by right].
    + exists (S i), op'. rewrite Nat.add_succ_r. done.
  - intros ([|i] & op' & Hop & He); cbn in Hop.
    + rewrite Nat.add_0_r in He. simplify_eq. tauto.
    + right. right. exists i, op'. rewrite Nat.add_succ_r in He. done.
Qed.

Lemma make_entries_NoDup k ops : NoDup (make_entries_from (Z.of_nat k) ops).
Proof.
  revert k. induction ops as [|op ops IH]; intros k; [constructor|]. cbn [make_entries_from].
  replace (Z.of_nat k + 1) with (Z.of_nat (S k)) by lia.
  constructor; [|constructor; [|by apply IH]]; rewrite ?elem_of_cons, make_entries_elem.
  - intros [?|(i & op' & _ & [?|?])]; [done|..]; unfold callE, retE in *; simplify_eq; lia.
  - intros (i & op' & _ & [?|?]); unfold callE, retE in *; simplify_eq; lia.
Qed.

(** No operation returns before it is called. *)
Definition well_timed ops : Prop := ∀ op, op ∈ ops → Call op <= Return op.

Section history.
Context ops (Htime : well_timed ops).
Notation es := (makeEntries ops).
Notation N := (length (makeEntries ops)).

Lemma entries_elem e : e ∈ es ↔ ∃ i op, ops !! i = Some op ∧ (e = callE i op ∨ e = retE i op).
Proof using EntrySortLaws0. unfold makeEntries. rewrite sort_entries_perm. apply (make_entries_elem 0). Qed.

Lemma entries_NoDup : NoDup es.
Proof using EntrySortLaws0. unfold makeEntries. rewrite sort_entries_perm. apply (make_entries_NoDup 0). Qed.

Lemma entries_pos i op : ops !! i = Some op → (∃ p, es !! p = Some (callE i op)) ∧ (∃ q, es !! q = Some (retE i op)).
Proof using EntrySortLaws0. intros Hi. split; apply list_elem_of_lookup, entries_elem; eauto. Qed.

Lemma entries_pos_inj p q e : es !! p = Some e → es !! q = Some e → p = q.
Proof using EntrySortLaws0. apply NoDup_lookup, entries_NoDup. Qed.

(** A return comes before a call in the list exactly when it does in time. *)
Lemma time_order i j a b p q :
  es !! p = Some (retE i a) → es !! q = Some (callE j b) → (p < q)%nat ↔ Return a < Call b.
Proof using EntrySortLaws0.
  intros Hp Hq. split.
  - intros Hpq. pose proof (sort_entries_sorted _ _ _ _ _ Hpq Hp Hq) as Hs. unfold byTime_Less in Hs. cbn in Hs.
    destruct (Z.eqb_spec (Call b) (Return a)) as [He|]; cbn in Hs; [done|]. bools. lia.
  - intros Hlt. destruct (Nat.lt_trichotomy p q) as [|[->|Hqp]]; [done|unfold retE, callE in *; congruence|].
    pose proof (sort_entries_sorted _ _ _ _ _ Hqp Hq Hp) as Hs. unfold byTime_Less in Hs. cbn in Hs.
    destruct (Z.eqb_spec (Return a) (Call b)); cbn in Hs; [lia|]. bools. lia.
Qed.

Lemma call_before_return i op p q :
  ops !! i = Some op → es !! p = Some (callE i op) → es !! q = Some (retE i op) → (p < q)%nat.
Proof using EntrySortLaws0 Htime.
  intros Hi Hp Hq. pose proof (time_order i i op op q p Hq Hp) as Ht.
  assert (Call op <= Return op) by (apply Htime; by eapply list_elem_of_lookup_2).
  assert (p ≠ q) by (intros ->; unfold retE, callE in *; congruence).
  destruct (Nat.lt_ge_cases q p) as [Hqp|]; [|lia]. apply Ht in Hqp. lia.
Qed.

(** ** The nodes *)

Definition sig : list (option V * option nat * Z) := stats es ++ [(None, None, -1)].

Lemma stats_lookup (l : list (entry V)) p e :
  l !! p = Some e → stats l !! (length l - 1 - p)%nat = Some (Some (value e), match_of e (drop (S p) l), id e).
Proof.
  revert p. induction l as [|e' l IH]; intros [|p] Hp; simplify_eq/=.
  - rewrite lookup_app_r by (rewrite length_stats; lia). rewrite length_stats.
    replace (length l - 0 - 0 - length l)%nat with 0%nat by lia. done.
  - pose proof (lookup_lt_Some _ _ _ Hp). rewrite lookup_app_l by (rewrite length_stats; lia).
    replace (length l - 0 - S p)%nat with (length l - 1 - p)%nat by lia. by apply IH.
Qed.

Lemma node_at p e : es !! p = Some e →
  nval sig (N - 1 - p) = Some (value e) ∧ nmatch sig (N - 1 - p) = match_of e (drop (S p) es) ∧
  nid sig (N - 1 - p) = id e.
Proof.
  intros Hp. pose proof (lookup_lt_Some _ _ _ Hp). unfold nval, nmatch, nid, sig.
  rewrite lookup_app_l by (rewrite length_stats; lia). by rewrite (stats_lookup _ _ _ Hp).
Qed.

Lemma first_return_at (l : list (entry V)) q e :
  l !! q = Some e → kind e = returnEntry →
  (∀ q' e', l !! q' = Some e' → kind e' = returnEntry → id e' = id e → q' = q) →
  first_return l (id e) = Some (length l - 1 - q)%nat.
Proof.
  revert q. induction l as [|e' l IH]; intros [|q] Hq Hk Hu; simplify_eq/=.
  - rewrite Hk, Z.eqb_refl. f_equal. lia.
  - assert (first_return l (id e) = Some (length l - 1 - q)%nat) as ->.
    { apply IH; [done|done|]. intros q' e'' Hq' Hk' Hid'. specialize (Hu (S q') e'' Hq' Hk' Hid'). lia. }
    assert ((match kind e' with returnEntry => id e' =? id e | callEntry => false end) = false) as Hne.
    { destruct (kind e') eqn:Ek; [done|]. apply Z.eqb_neq. intros Hid. by specialize (Hu 0%nat e' eq_refl Ek Hid). }
    pose proof (lookup_lt_Some _ _ _ Hq).
    destruct (kind e'); [f_equal; lia|]. rewrite Hne. f_equal. lia.
Qed.

(** The node of a call is matched with the node of its return. *)
Lemma call_match i op p q :
  ops !! i = Some op → es !! p = Some (callE i op) → es !! q = Some (retE i op) →
  nmatch sig (N - 1 - p) = Some (N - 1 - q)%nat.
Proof using EntrySortLaws0 Htime.
  intros Hi Hp Hq. pose proof (call_before_return i op p q Hi Hp Hq) as Hpq.
  destruct (node_at p _ Hp) as (_ & -> & _). cbn.
  rewrite (first_return_at (drop (S p) es) (q - S p) (retE i op)).
  - rewrite length_drop. f_equal. lia.
  - rewrite lookup_drop. rewrite <- Hq. f_equal. lia.
  - done.
  - intros q' e' Hq' Hk Hid. rewrite lookup_drop in Hq'.
    assert (e' ∈ es) as (j & op' & Hj & [->| ->])%entries_elem by (by eapply list_elem_of_lookup_2); [done|].
    cbn in Hid. assert (j = i) as -> by lia. simplify_eq. pose proof (entries_pos_inj _ _ _ Hq Hq'). lia.
Qed.

Lemma return_match i op q : es !! q = Some (retE i op) → nmatch sig (N - 1 - q) = None.
Proof. intros Hq. by destruct (node_at q _ Hq) as (_ & -> & _). Qed.

Lemma locs_lookup k p : (p < k)%nat → locs k !! p = Some (k - 1 - p)%nat.
Proof.
  revert p. induction k as [|k IH]; intros p Hp; [lia|]. destruct p as [|p]; cbn; [f_equal; lia|].
  rewrite IH by lia. f_equal. lia.
Qed.

(** Every node of the list is the call or the return of an operation. *)
Lemma locs_case x : x ∈ locs N →
  ∃ i op p q, ops !! i = Some op ∧ es !! p = Some (callE i op) ∧ es !! q = Some (retE i op) ∧
    (x = N - 1 - p ∨ x = N - 1 - q)%nat.
Proof using EntrySortLaws0.
  rewrite locs_elem. intros Hx. destruct (lookup_lt_is_Some_2 es (N - 1 - x)) as [e He]; [lia|].
  assert (e ∈ es) as (i & op & Hi & Hcase)%entries_elem by (by eapply list_elem_of_lookup_2).
  destruct (entries_pos i op Hi) as [[p Hp] [q Hq]]. exists i, op, p, q. split; [done|]. split; [done|]. split; [done|].
  destruct Hcase as [->| ->]; [left; rewrite <- (entries_pos_inj _ _ _ He Hp)|right; rewrite <- (entries_pos_inj _ _ _ He Hq)]; lia.
Qed.

Lemma loc_of_pos p e : es !! p = Some e → (N - 1 - p)%nat ∈ locs N.
Proof. intros Hp%lookup_lt_Some. apply locs_elem. lia. Qed.

Lemma before_locs p q : (p < N)%nat → (q < N)%nat → before (locs N) (N - 1 - p)%nat (N - 1 - q)%nat ↔ (p < q)%nat.
Proof. intros Hp Hq. apply before_NoDup; [apply locs_NoDup|by apply locs_lookup..]. Qed.

(** The call nodes. *)
Lemma call_case x m : x ∈ locs N → nmatch sig x = Some m →
  ∃ i op p q, ops !! i = Some op ∧ es !! p = Some (callE i op) ∧ es !! q = Some (retE i op) ∧
    (x = N - 1 - p)%nat ∧ (m = N - 1 - q)%nat.
Proof using EntrySortLaws0 Htime.
  intros Hx Hm. destruct (locs_case x Hx) as (i & op & p & q & Hi & Hp & Hq & [->| ->]).
  - rewrite (call_match i op p q) in Hm by done. exists i, op, p, q. by simplify_eq.
  - by rewrite (return_match i op) in Hm.
Qed.

Context {St : Type} (step : St → V → V → option (bool * St)).

(** The model's step does not panic on the values of the history. *)
Definition well_typed : Prop := ∀ op s, op ∈ ops → is_Some (step s (Input op) (Output op)).

Lemma list_wf_history : well_typed → list_wf step sig N (locs N) (go_len ops).
Proof using EntrySortLaws0 Htime.
  intros Hty. split.
  - apply NoDup_cons. split; [rewrite locs_elem; lia|apply locs_NoDup].
  - intros x Hx. destruct (locs_case x Hx) as (i & op & p & q & Hi%lookup_lt_Some & Hp & Hq & [->| ->]);
      [destruct (node_at p _ Hp) as (_ & _ & ->)|destruct (node_at q _ Hq) as (_ & _ & ->)]; cbn; unfold go_len; lia.
  - intros x Hx. destruct (locs_case x Hx) as (i & op & p & q & Hi & Hp & Hq & [->| ->]);
      [destruct (node_at p _ Hp) as (-> & _ & _)|destruct (node_at q _ Hq) as (-> & _ & _)]; eauto.
  - intros x m Hx Hm. destruct (call_case x m Hx Hm) as (i & op & p & q & Hi & Hp & Hq & -> & ->).
    destruct (node_at p _ Hp) as (_ & _ & ->). destruct (node_at q _ Hq) as (_ & _ & ->).
    split; [done|]. split; [by eapply return_match|]. apply before_locs; [by eapply lookup_lt_Some..|].
    by eapply call_before_return.
  - intros m Hm Hnone. destruct (locs_case m Hm) as (i & op & p & q & Hi & Hp & Hq & [->| ->]).
    + by rewrite (call_match i op p q) in Hnone.
    + exists (N - 1 - p)%nat. split; [by eapply loc_of_pos|]. by eapply call_match.
  - intros x y Hx Hy [mx Hmx] [my Hmy] Hid.
    destruct (call_case x mx Hx Hmx) as (i & a & p & q & Hi & Hp & Hq & -> & _).
    destruct (call_case y my Hy Hmy) as (j & b & p' & q' & Hj & Hp' & Hq' & -> & _).
    destruct (node_at p _ Hp) as (_ & _ & He). destruct (node_at p' _ Hp') as (_ & _ & He'). cbn in He, He'.
    assert (i = j) as -> by lia. simplify_eq. by rewrite (entries_pos_inj _ _ _ Hp Hp').
  - intros x m s i o Hx Hm Hi Ho. destruct (call_case x m Hx Hm) as (k & op & p & q & Hk & Hp & Hq & -> & ->).
    destruct (node_at p _ Hp) as (Hv & _ & _). destruct (node_at q _ Hq) as (Hv' & _ & _). cbn in Hv, Hv'. simplify_eq.
    apply Hty. by eapply list_elem_of_lookup_2.
Qed.

Lemma history_wf_history : history_wf sig (locs N) ops.
Proof using EntrySortLaws0 Htime.
  split.
  - intros x m Hx Hm. destruct (call_case x m Hx Hm) as (i & op & p & q & Hi & Hp & Hq & -> & ->).
    exists i, op. split; [done|]. destruct (node_at p _ Hp) as (-> & _ & ->). by destruct (node_at q _ Hq) as (-> & _ & _).
  - intros i [op Hi]%lookup_lt_is_Some. destruct (entries_pos i op Hi) as [[p Hp] [q Hq]].
    exists (N - 1 - p)%nat. split; [by eapply loc_of_pos|]. split; [eexists; by eapply call_match|].
    by destruct (node_at p _ Hp) as (_ & _ & ->).
  - intros x y m i j a b Hx Hy [mx Hmx] Hm Hxi Hyj Ha Hb.
    destruct (call_case x mx Hx Hmx) as (i' & a' & p & q & Hi & Hp & Hq & -> & _).
    destruct (call_case y m Hy Hm) as (j' & b' & p' & q' & Hj & Hp' & Hq' & -> & ->).
    destruct (node_at p _ Hp) as (_ & _ & He). destruct (node_at p' _ Hp') as (_ & _ & He'). cbn in He, He'.
    assert (i' = i) as -> by lia. assert (j' = j) as -> by lia. simplify_eq.
    rewrite before_locs by (by eapply lookup_lt_Some). by eapply time_order.
Qed.
End history.
End entries.
