(* ===== verification/PorcupineProps.v ===== *)
(** * Correctness of the linearizability checker

    [checkSingle] ends on every history and decides linearizability;
    [checkOperations] combines the verdicts of the partitions; the partition
    of the key/value model splits a history by key. *)

From S2P Require Import Prelude Bitset Porcupine PorcupineList PorcupineSearch PorcupineOrder PorcupineHist.

#[global] Instance shallow_sim {V St} `{EqDecision St} (step : St → V → V → option (bool * St)) :
  EqualSim step ShallowEqual.
Proof.
  split. intros s t i o s' He Hs. apply bool_decide_eq_true in He as ->. exists s'. split; [done|]. by apply bool_decide_eq_true.
Qed.

(** ** Fuel and the kill flag *)

Section loop.
Context {V St : Type} (step : St → V → V → option (bool * St)) (equal : St → St → bool) (cp : bool) (hd : nat).
Notation loop := (check_loop (V := V) step equal cp).

Lemma check_loop_mono kill fuel fuel' t c r :
  loop kill hd fuel t c = Some r → (fuel <= fuel')%nat → loop kill hd fuel' t c = Some r.
Proof.
  revert fuel' t c. induction fuel as [|fuel IH]; intros fuel' t c; [done|]. destruct fuel' as [|fuel']; [lia|].
  intros Hl Hle. cbn [check_loop] in *.
  destruct (nodes c !! hd) as [nh|]; [|done]. cbn in *. destruct (next nh); [|done]. destruct (kill t); [done|].
  destruct (cur c) as [x|]; [|done]. cbn in *. destruct (nodes c !! x) as [e|]; [|done]. cbn in *.
  destruct (node_match e) as [m|].
  - destruct (nodes c !! m) as [nm|]; [|done]. cbn in *.
    destruct (try_call step equal hd c x e nm) as [c1|]; [|done]. cbn in *. apply IH; [done|lia].
  - destruct (go_len (calls c) =? 0); [done|]. destruct (backtrack cp c) as [c1|]; [|done]. cbn in *. apply IH; [done|lia].
Qed.

(** The flag can only turn the answer into [false]. *)
Lemma check_loop_kill kill fuel t t' c b c' :
  loop never hd fuel t c = Some (b, c') →
  ∃ b' c'', loop kill hd fuel t' c = Some (b', c'') ∧ (b' = true → b = true ∧ c'' = c').
Proof.
  revert t t' c. induction fuel as [|fuel IH]; intros t t' c; [done|].
  intros Hl. cbn [check_loop] in *. unfold never in Hl at 1.
  destruct (nodes c !! hd) as [nh|]; [|done]. cbn in *. destruct (next nh); [|by simplify_eq; eauto].
  destruct (kill t'); [by eexists _, _|].
  destruct (cur c) as [x|]; [|done]. cbn in *. destruct (nodes c !! x) as [e|]; [|done]. cbn in *.
  destruct (node_match e) as [m|].
  - destruct (nodes c !! m) as [nm|]; [|done]. cbn in *.
    destruct (try_call step equal hd c x e nm) as [c1|]; [|done]. cbn in *. by eapply IH.
  - destruct (go_len (calls c) =? 0); [simplify_eq; by eexists _, _|].
    destruct (backtrack cp c) as [c1|]; [|done]. cbn in *. by eapply IH.
Qed.
End loop.

(** ** One history *)

Section single.
Context {V St : Type} `{!EntrySort V, !EntrySortLaws V}.
Context (step : St → V → V → option (bool * St)) (equal : St → St → bool) (init : St) `{!EqualSim step equal}.
Implicit Types (ops : list (Operation V)).

Lemma length_makeEntries ops : length (makeEntries ops) = (2 * length ops)%nat.
Proof using EntrySortLaws0.
  unfold makeEntries. rewrite sort_entries_perm. generalize 0. induction ops as [|op ops IH]; intros k; [done|].
  cbn. rewrite IH. lia.
Qed.

(** The state in which the loop starts. *)
Lemma start_search_frame ops :
  let N := length (makeEntries ops) in
  ∃ c, start_search init (makeEntries ops) = Some (N, c) ∧ frame (sig ops) N (locs N) (go_len ops) c (locs N) ∧
    cur c = head (locs N) ∧ cache c = ∅ ∧ calls c = [] ∧ state c = init.
Proof using EntrySortLaws0.
  intros N. destruct (makeLinkedEntries_spec (makeEntries ops)) as (h & ms & Hm & Hs & Hst & _).
  fold N in Hm, Hs. assert (length h = N) as Hlh by (unfold N; rewrite <- length_stats, <- Hst; by rewrite length_fmap).
  destruct (insertBefore_front h (locs N) (MkNode None None (-1) None None)) as (h' & Hi & Hs' & Hst');
    [apply locs_NoDup|done..|].
  assert (Z.of_nat N / 2 = go_len ops) as Hn.
  { unfold N, go_len. rewrite length_makeEntries. rewrite Nat2Z.inj_mul, Z.mul_comm. by rewrite Z.div_mul. }
  unfold start_search. rewrite Hm. cbn. rewrite (node_length_spec h None (locs N)) by (rewrite ?length_locs; done || lia).
  cbn. rewrite Hi, length_locs. cbn. rewrite Hn, Hlh. eexists. split; [done|]. split; [|done].
  rewrite Hlh in Hs'. pose proof (go_len_nonneg ops). split; cbn; try done.
  - by rewrite Hst', Hst.
  - symmetry. by apply rem_all.
  - by apply newBitset_len.
  - apply newBitset_wf.
  - intros v Hv. by apply elem_of_nil in Hv.
  - unfold go_len in *. rewrite length_replicate. lia.
  - intros l Hl%elem_of_replicate_inv. done.
Qed.

Definition Ns ops : nat := length (makeEntries ops).

(** The loop ends, and its answer is whether there is a linearization. *)
Lemma check_loop_decides ops cp :
  well_timed ops → well_typed ops step →
  ∃ c0 fuel b c, start_search init (makeEntries ops) = Some (Ns ops, c0) ∧
    (∀ t, check_loop step equal cp never (Ns ops) fuel t c0 = Some (b, c)) ∧ go_len (longest c) = go_len ops ∧
    if b then ∃ lin, linearization step init ops lin ∧ call_ids (nodes c) (calls c) = Some (Z.of_nat <$> lin)
    else ¬ linearizable step init ops.
Proof using EntrySortLaws0 EqualSim0.
  intros Ht Hty. pose proof (list_wf_history ops Ht step Hty) as Hwf. pose proof (history_wf_history ops Ht) as Hh.
  destruct (start_search_frame ops) as (c0 & Hs & HF & Hcur & Hcache & Hcalls & Hst).
  pose proof (go_len_nonneg ops) as Hnn. fold (Ns ops) in *. exists c0.
  destruct (decide (locs (Ns ops) = [])) as [Hnil|Hne].
  { exists 1%nat, true, c0. split; [done|]. assert (length ops = 0)%nat as H0.
    { apply (f_equal length) in Hnil. rewrite length_locs in Hnil. unfold Ns in Hnil. rewrite length_makeEntries in Hnil. cbn in Hnil. lia. }
    split; [|split; [apply (fr_longest _ _ _ _ _ _ HF)|]].
    - intros t. cbn. pose proof (fr_seg _ _ _ _ _ _ HF) as [(nh & -> & _ & Hn) _]. cbn. by rewrite Hn, Hnil.
    - exists []. rewrite Hcalls. split; [|done]. split; [by rewrite H0|done|]. intros p q i j _ Hp. done. }
  assert (cache_ok step (sig ops) (locs (Ns ops)) c0 (locs (Ns ops))) as Hok.
  { intros b s (h & es & Hes & _). by rewrite Hcache in Hes. }
  destruct (search_decides step equal _ _ _ _ Hwf cp _ _ HF Hcur Hok Hne) as
    [(fuel & c' & ord & Hl & Hord & Hcalls' & Hst' & Hlg & HL0)|(k & c' & r & Hl & HF' & (_ & _ & Hca & _) & Hcur' & Hr & Hmr & _ & Hdead)].
  - exists fuel, true, c'. split; [done|]. split; [done|]. split; [done|]. rewrite Hst in Hord.
    exists (idx (sig ops) <$> ord). split; [by eapply completes_linearization|].
    rewrite Hcalls in Hcalls'. cbn in Hcalls'. 
    assert (∀ v, v ∈ calls c' → ∃ nd, nodes c' !! v.1 = Some nd ∧ node_id nd = nid (sig ops) v.1) as Hids.
    { intros v Hv%HL0. destruct (lw_value _ _ _ _ _ Hwf _ Hv) as [y Hy]. unfold nval, nid in *. rewrite <- Hst', list_lookup_fmap in *.
      destruct (nodes c' !! v.1) as [nd|]; [|done]. by exists nd. }
    rewrite (call_ids_ok (sig ops)) by done. f_equal. rewrite Hcalls', <- list_fmap_compose.
    apply list_fmap_ext. intros i x Hx%list_elem_of_lookup_2. unfold compose, idx.
    assert (x ∈ locs (Ns ops)) as HxL.
    { rewrite <- Hcalls' in Hx. apply list_elem_of_fmap in Hx as (v & -> & Hv). by apply HL0. }
    pose proof (lw_id _ _ _ _ _ Hwf x HxL). lia.
  - exists (k + 1)%nat, false, c'. split; [done|]. split; [|split; [apply (fr_longest _ _ _ _ _ _ HF')|]].
    + intros t. rewrite Hl. apply list_elem_of_split in Hr as (A & R & HR).
      assert (frame (sig ops) (Ns ops) (locs (Ns ops)) (go_len ops) c' (A ++ r :: R)) as HF2 by (by rewrite <- HR).
      destruct (loop_unfold step equal _ _ _ _ Hwf cp c' A r R 0 (k + t) HF2 Hcur') as (e & _ & _ & Hme & _ & _ & ->).
      by rewrite Hme, Hmr, Hca, Hcalls.
    + intros [lin Hlin]. destruct (linearization_completes step _ _ _ _ Hwf ops Hh init Hnn lin Hlin) as (ord & _ & Hord).
      apply (Hdead ord). by rewrite Hst.
Qed.

(** [checkSingle] with enough fuel, whatever the kill flag does. *)
Lemma checkSingle_verdict ops cp :
  well_timed ops → well_typed ops step →
  ∃ fuel0 ok lg, (ok = true ↔ linearizable step init ops) ∧ length lg = length ops ∧
    (ok = true → ∃ lin p, linearization step init ops lin ∧ ∀ x, x ∈ lg → x = Some (p, Z.of_nat <$> lin)) ∧
    ∀ fuel, (fuel0 <= fuel)%nat →
      checkSingle step equal init fuel (makeEntries ops) cp never = Some (ok, lg) ∧
      ∀ kill, ∃ ok' lg', checkSingle step equal init fuel (makeEntries ops) cp kill = Some (ok', lg') ∧
        (ok' = true → ok = true ∧ lg' = lg).
Proof using EntrySortLaws0 EqualSim0.
  intros Ht Hty. destruct (check_loop_decides ops cp Ht Hty) as (c0 & fuel0 & b & c & Hs & Hl & Hlg & Hb).
  assert (∃ lg, (if b then seq ← call_ids (nodes c) (calls c); Some (true, (λ _, Some (length (seqs c), seq)) <$> longest c)
    else Some (false, read_longest c)) = Some (b, lg) ∧ length lg = length ops ∧
    (b = true → ∃ lin p, linearization step init ops lin ∧ ∀ x, x ∈ lg → x = Some (p, Z.of_nat <$> lin)))
    as (lg & Hr & Hlen & Hlin).
  { unfold go_len in Hlg. destruct b.
    - destruct Hb as (lin & Hlin & ->). cbn. eexists. split; [done|]. rewrite length_fmap. split; [lia|].
      intros _. exists lin, (length (seqs c)). split; [done|]. by intros x (y & -> & _)%list_elem_of_fmap.
    - exists (read_longest c). split; [done|]. unfold read_longest. rewrite length_fmap. split; [lia|done]. }
  exists fuel0, b, lg. split; [|split; [done|split; [done|]]].
  { destruct b; [|split; [done|intros Hlin'; by destruct Hb]]. destruct Hb as (lin & ? & _). split; [by exists lin|done]. }
  intros fuel Hf. pose proof (check_loop_mono _ _ _ _ _ _ fuel _ _ _ (Hl 0%nat) Hf) as Hrun. split.
  - unfold checkSingle. rewrite Hs. cbn. rewrite Hrun. cbn. done.
  - intros kill. destruct (check_loop_kill step equal cp (Ns ops) kill fuel 0 0 c0 b c Hrun) as (b' & c'' & Hk & Hbk).
    unfold checkSingle. rewrite Hs. cbn. rewrite Hk. cbn. destruct b'; [|by eexists _, _].
    destruct (Hbk eq_refl) as [-> ->]. exists true, lg. done.
Qed.
End single.

(** C19: the checker decides linearizability.  For a history whose operations do not
    return before they are called and on whose values the model's step does not
    panic, [checkSingle] ends, and it answers [true] exactly when the history has
    a linearization (an order of all operations that the model accepts and that
    keeps the real-time order); the sequence it then reports for every
    operation is such a linearization. *)
Theorem checkSingle_decides {V St : Type} `{!EntrySort V, !EntrySortLaws V}
    (step : St → V → V → option (bool * St)) (equal : St → St → bool) (init : St) `{!EqualSim step equal}
    (ops : list (Operation V)) (cp : bool) :
  well_timed ops → well_typed ops step →
  ∃ fuel0 ok lg, (∀ fuel, (fuel0 <= fuel)%nat →
      checkSingle step equal init fuel (makeEntries ops) cp never = Some (ok, lg)) ∧
    (ok = true ↔ linearizable step init ops) ∧ length lg = length ops ∧
    (ok = true → ∃ lin p, linearization step init ops lin ∧ ∀ x, x ∈ lg → x = Some (p, Z.of_nat <$> lin)).
Proof.
  intros Ht Hty. destruct (checkSingle_verdict step equal init ops cp Ht Hty) as (fuel0 & ok & lg & Hok & Hlen & Hlin & Hf).
  exists fuel0, ok, lg. split; [|done]. intros fuel Hle. by destruct (Hf fuel Hle).
Qed.

(** ** The partitions *)

Arguments checkSingle : simpl never.

Section collecting.
Context (n : nat) (ci : bool) (timeout : Z) (results : list bool) (Hn : length results = n).
Notation collect := (collect (Z.of_nat n) ci timeout results).

Definition all_true (received : list nat) : Prop := ∀ i, i ∈ received → results !! i = Some true.

Lemma collect_spec arrivals ok received ok' to received' :
  collect arrivals ok received = Some (ok', to, received') →
  NoDup (received ++ omap (λ a, match a with ResultOf i => Some i | _ => None end) arrivals) →
  (∀ i, i ∈ received → (i < n)%nat) → (ok = true ↔ all_true received) →
  (ok' = true ↔ all_true received') ∧ NoDup received' ∧ (∀ i, i ∈ received' → (i < n)%nat) ∧
  (to = true → timeout > 0 ∧ TimeoutFires ∈ arrivals) ∧
  (to = false → ok' = true → (n <= length received')%nat).
Proof using Hn.
  revert ok received. induction arrivals as [|[i|] arrivals IH]; intros ok received; [done|..].
  - cbn. destruct (results !! i) as [r|] eqn:Er; [|done]. cbn. intros Hc Hnd Hlt Hok.
    assert (ok && r = true ↔ all_true (received ++ [i])) as Hok1.
    { unfold all_true. rewrite andb_true_iff, Hok. unfold all_true. setoid_rewrite elem_of_app. setoid_rewrite list_elem_of_singleton.
      split; [intros [H1 ->] j [Hj| ->]; [by apply H1|done]|]. intros H. split; [intros j Hj; apply H; by left|].
      specialize (H i ltac:(by right)). congruence. }
    assert (∀ j, j ∈ received ++ [i] → (j < n)%nat) as Hlt1.
    { intros j [Hj|Hj]%elem_of_app; [by apply Hlt|]. apply list_elem_of_singleton in Hj as ->. rewrite <- Hn. by eapply lookup_lt_Some. }
    replace (received ++ i :: omap _ arrivals) with ((received ++ [i]) ++ omap (λ a, match a with ResultOf i => Some i | _ => None end) arrivals)
      in Hnd by (by rewrite <- (assoc_L (++))).
    pose proof (proj1 (NoDup_app _ _) Hnd) as (Hnd1 & _).
    destruct (negb (ok && r) && negb ci) eqn:E1.
    { injection Hc as <- <- <-. split; [done|]. split; [done|]. split; [done|]. split; [done|]. intros _ Ht.
      apply andb_true_iff in E1 as [E1 _]. by rewrite Ht in E1. }
    destruct (go_len (received ++ [i]) >=? Z.of_nat n) eqn:E2.
    { injection Hc as <- <- <-. split; [done|]. split; [done|]. split; [done|]. split; [done|]. intros _ _.
      rewrite Z.geb_leb, Z.leb_le in E2. unfold go_len in E2. lia. }
    destruct (IH _ _ Hc Hnd Hlt1 Hok1) as (? & ? & ? & Hto & ?). split; [done|]. split; [done|]. split; [done|].
    split; [|done]. intros Ht. destruct (Hto Ht). split; [done|]. by right.
  - cbn. destruct (timeout >? 0) eqn:E; [|done]. intros [= <- <- <-] Hnd Hlt Hok.
    split; [done|]. split; [by apply NoDup_app in Hnd as [? _]|]. split; [done|]. split; [|done].
    intros _. split; [by apply Z.gtb_gt|by left].
Qed.

(** Enough distinct results are all results. *)
Lemma received_all received :
  NoDup received → (∀ i, i ∈ received → (i < n)%nat) → (n <= length received)%nat → ∀ i, (i < n)%nat → i ∈ received.
Proof using Hn.
  intros Hnd Hlt Hlen i Hi.
  assert (received ⊆+ seq 0 n) as Hsub.
  { apply NoDup_submseteq; [done|]. intros j Hj. apply elem_of_seq. specialize (Hlt j Hj). lia. }
  assert (received ≡ₚ seq 0 n) as ->; [|apply elem_of_seq; lia].
  apply submseteq_length_Permutation; [done|]. rewrite length_seq. lia.
Qed.

(** If every goroutine reports, the loop ends without the timer. *)
Lemma collect_ends js ok received :
  (∀ i, i ∈ js → (i < n)%nat) → js ≠ [] → (n <= length received + length js)%nat →
  ∃ ok' received', collect (ResultOf <$> js) ok received = Some (ok', false, received').
Proof using Hn.
  revert ok received. induction js as [|i js IH]; intros ok received Hlt Hne Hlen; [done|]. cbn.
  destruct (lookup_lt_is_Some_2 results i) as [r ->]; [rewrite Hn; apply Hlt; by left|]. cbn.
  destruct (negb (ok && r) && negb ci); [eauto|].
  destruct (go_len (received ++ [i]) >=? Z.of_nat n) eqn:E; [eauto|].
  rewrite Z.geb_leb, Z.leb_gt in E. unfold go_len in E. rewrite length_app in E. cbn in E, Hlen.
  apply IH; [intros j Hj; apply Hlt; by right| |rewrite length_app; cbn; lia]. intros ->. cbn in Hlen. lia.
Qed.
End collecting.

Section partitions.
Context {V St : Type} `{!EqDecision St, !EntrySort V, !EntrySortLaws V, !MapOrder}.
Context (model : Model V St).
Notation equal := (default ShallowEqual (Equal model)).
Notation lin_of := (linearizable (Step model) (Init model)).
Context `{!EqualSim (Step model) equal}.

Definition checkable (sub : list (Operation V)) : Prop := well_timed sub ∧ well_typed sub (Step model).

(** The goroutines of all partitions. *)
Lemma partitions_verdict parts cp :
  (∀ sub, sub ∈ parts → checkable sub) →
  ∃ fuel0 oks, Forall2 (λ sub ok, ok = true ↔ lin_of sub) parts oks ∧
    ∀ fuel, (fuel0 <= fuel)%nat →
      mapM (λ sub, fst <$> check_single (fillDefault model) fuel sub cp never) (makeEntries <$> parts) = Some oks ∧
      ∀ kills k, is_Some (mapM (λ p, snd <$> check_single (fillDefault model) fuel p.2 cp (kills p.1))
        (imap (λ i x, (k + i, x)%nat) (makeEntries <$> parts))).
Proof using EntrySortLaws0 EqualSim0.
  induction parts as [|sub parts IH]; intros Hall.
  { exists 0%nat, []. split; [done|]. intros fuel _. split; [done|]. intros kills k. by exists []. }
  destruct (IH ltac:(intros; apply Hall; by right)) as (f1 & oks & H2 & Hf1).
  destruct (Hall sub ltac:(by left)) as [Ht Hty].
  destruct (checkSingle_verdict (Step model) equal (Init model) sub cp Ht Hty) as (f0 & ok & lg & Hok & _ & _ & Hf0).
  exists (f0 + f1)%nat, (ok :: oks). split; [by constructor|]. intros fuel Hle.
  destruct (Hf0 fuel ltac:(lia)) as [Hs Hk]. destruct (Hf1 fuel ltac:(lia)) as [Hm Hks].
  change (check_single (fillDefault model)) with (checkSingle (Step model) equal (Init model)) in *. split.
  - cbn. rewrite Hs. cbn. rewrite Hm. done.
  - intros kills k. cbn. rewrite Nat.add_0_r. destruct (Hk (kills k)) as (ok' & lg' & -> & _). cbn.
    destruct (Hks kills (S k)) as [r Hr].
    replace (imap _ _) with (imap (λ i x, ((S k + i)%nat, x)) (makeEntries <$> parts)).
    + rewrite Hr. by eexists.
    + apply imap_ext. intros i x _. cbn. f_equal. lia.
Qed.

Lemma checkParallel_verdict parts cp :
  (∀ sub, sub ∈ parts → checkable sub) →
  ∃ fuel0 oks, Forall2 (λ sub ok, ok = true ↔ lin_of sub) parts oks ∧
    ∀ fuel arrivals kills timeout, (fuel0 <= fuel)%nat →
      (∀ ok to received, collect (Z.of_nat (length parts)) cp timeout oks arrivals true [] = Some (ok, to, received) →
        ∃ info, checkParallel fuel arrivals kills (fillDefault model) (makeEntries <$> parts) cp timeout =
          Some (if negb ok then Illegal else if (to : bool) then Unknown else Ok, info)) ∧
      (collect (Z.of_nat (length parts)) cp timeout oks arrivals true [] = None →
        checkParallel fuel arrivals kills (fillDefault model) (makeEntries <$> parts) cp timeout = None).
Proof using EntrySortLaws0 EqualSim0.
  intros Hall. destruct (partitions_verdict parts cp Hall) as (fuel0 & oks & H2 & Hf).
  exists fuel0, oks. split; [done|]. intros fuel arrivals kills timeout Hle. destruct (Hf fuel Hle) as [Hm Hk].
  unfold checkParallel. rewrite Hm. cbn [mbind option_bind].
  unfold go_len. rewrite length_fmap. split; [|by intros ->].
  intros ok to received ->. cbn [mbind option_bind]. destruct cp; [|cbn; by eexists].
  destruct (Hk (λ i, if bool_decide (i ∈ received) then never else kills i) 0%nat) as [r Hr].
  replace (imap pair _) with (imap (λ i x, ((0 + i)%nat, x)) (makeEntries <$> parts)) by (apply imap_ext; done).
  rewrite Hr. cbn. by eexists.
Qed.
End partitions.

(** The verdict of [checkOperations].  For any order in which the goroutines
    report and any moment at which the timer fires: [Ok] is only answered when every
    partition of the history is linearizable, [Illegal] only when one is not,
    [Unknown] only when the timer fired; and when all goroutines report (there
    is at least one partition) the checker answers, and not [Unknown]. *)
Lemma checkOperations_cases {V St : Type} `{!EqDecision St, !EntrySort V, !EntrySortLaws V, !MapOrder}
    (model : Model V St) `{!EqualSim (Step model) (default ShallowEqual (Equal model))}
    (hist : list (Operation V)) parts (verbose : bool) :
  default NoPartition (Partition model) hist = Some parts → (∀ sub, sub ∈ parts → checkable model sub) →
  ∃ fuel0, ∀ fuel arrivals kills timeout, (fuel0 <= fuel)%nat →
    NoDup (omap (λ a, match a with ResultOf i => Some i | _ => None end) arrivals) →
    (∀ res info, checkOperations fuel arrivals kills model hist verbose timeout = Some (res, info) →
      match res with
      | Ok => ∀ sub, sub ∈ parts → linearizable (Step model) (Init model) sub
      | Illegal => ∃ sub, sub ∈ parts ∧ ¬ linearizable (Step model) (Init model) sub
      | Unknown => timeout > 0 ∧ TimeoutFires ∈ arrivals
      end) ∧
    (∀ js, parts ≠ [] → js ≡ₚ seq 0 (length parts) → arrivals = ResultOf <$> js →
      ∃ res info, checkOperations fuel arrivals kills model hist verbose timeout = Some (res, info) ∧ res ≠ Unknown).
Proof.
  intros Hpart Hall. destruct (checkParallel_verdict model parts verbose Hall) as (fuel0 & oks & H2 & Hf).
  pose proof (Forall2_length _ _ _ H2) as Hlen. symmetry in Hlen.
  exists fuel0. intros fuel arrivals kills timeout Hle Hnd. destruct (Hf fuel arrivals kills timeout Hle) as [Hsome Hnone].
  unfold checkOperations. cbn [fillDefault Partition mbind option_bind]. rewrite Hpart. cbn [mbind option_bind].
  split.
  - intros res info Hres. destruct (collect _ _ _ _ _ _ _) as [[[ok to] received]|] eqn:Ec; [|by rewrite Hnone in Hres].
    destruct (Hsome _ _ _ eq_refl) as [info' Hs]. rewrite Hs in Hres. simplify_eq.
    destruct (collect_spec _ verbose timeout oks Hlen _ _ _ _ _ _ Ec) as (Hok & Hnd' & Hlt & Hto & Hfull); [done|..].
    { intros i Hi. by apply elem_of_nil in Hi. }
    { split; [intros _ i Hi; by apply elem_of_nil in Hi|done]. }
    destruct ok; cbn [negb].
    + destruct to; [by apply Hto|]. intros sub [i Hi]%list_elem_of_lookup.
      destruct (Forall2_lookup_l _ _ _ _ _ H2 Hi) as (b & Hb & Hiff). apply Hiff.
      assert (i ∈ received) as Hin.
      { eapply (received_all (length parts) oks Hlen); [done|done|by apply Hfull|by eapply lookup_lt_Some]. }
      pose proof (proj1 Hok eq_refl i Hin). congruence.
    + assert (¬ all_true oks received) as Hna by (intros Ha; by apply Hok in Ha).
      assert (∃ i, i ∈ received ∧ oks !! i = Some false) as (i & Hi & Hf0).
      { assert (¬ Forall (λ i, oks !! i = Some true) received) as Hex%not_Forall_Exists by (by rewrite Forall_forall).
        2:{ apply _. }
        apply Exists_exists in Hex as (i & Hi & Hni). exists i. split; [done|].
        destruct (lookup_lt_is_Some_2 oks i) as [[] Hb]; [rewrite Hlen; by apply Hlt|done|done]. }
      destruct (Forall2_lookup_r _ _ _ _ _ H2 Hf0) as (sub & Hsub & Hiff). exists sub.
      split; [by eapply list_elem_of_lookup_2|]. intros Hlin%Hiff. done.
  - intros js Hne His ->. destruct (collect_ends (length parts) verbose timeout oks Hlen js true []) as (ok & received & Ec).
    + intros i Hi. rewrite His in Hi. apply elem_of_seq in Hi. lia.
    + intros ->. apply Permutation_nil_l in His. by destruct parts.
    + rewrite His, length_seq. cbn. lia.
    + destruct (Hsome _ _ _ Ec) as [info ->]. eexists _, info. split; [done|]. by destruct ok.
Qed.

(** ** Partitioning by key *)

Definition key_of (v : Operation KvAny) : option string := kv_Key <$> asInput (Input v).

(** The dynamic types that [KvModel] asserts. *)
Definition kv_typed (v : Operation KvAny) : Prop := is_Some (asInput (Input v)) ∧ is_Some (asOutput (Output v)).

Lemma by_key_spec hist m :
  (∀ v, v ∈ hist → kv_typed v) →
  ∃ m', by_key m hist = Some m' ∧ ∀ k, m' !! k =
    match filter (λ v, key_of v = Some k) hist with
    | [] => m !! k
    | vs => Some (default [] (m !! k) ++ vs)
    end.
Proof.
  revert m. induction hist as [|v hist IH]; intros m Hty; [by exists m|]. cbn [by_key].
  destruct (Hty v ltac:(by left)) as [[inp Hinp] _]. rewrite Hinp. cbn [mbind option_bind].
  destruct (IH (<[kv_Key inp := default [] (m !! kv_Key inp) ++ [v]]> m)) as (m' & -> & Hm').
  { intros; apply Hty; by right. }
  exists m'. split; [done|]. intros k. rewrite Hm', filter_cons.
  assert (key_of v = Some (kv_Key inp)) as -> by (unfold key_of; by rewrite Hinp).
  destruct (decide (Some (kv_Key inp) = Some k)) as [[= <-]|Hne].
  - rewrite lookup_insert_eq. cbn. destruct (filter _ hist); [done|]. by rewrite <- (assoc_L (++)).
  - by rewrite lookup_insert_ne by congruence.
Qed.

#[global] Instance string_le_total : Total string_le.
Proof. intros a b. unfold string_le. destruct (String.leb_total a b); tauto. Qed.

(** [KvModel.Partition] splits a history by key: the sub-histories are those of the
    keys that occur, in the order of the keys, each with all operations on its key in
    their original order, and together they are the whole history. *)
Theorem kv_partition_correct hist :
  (∀ v, v ∈ hist → kv_typed v) →
  ∃ keys, kv_partition hist = Some ((λ k, filter (λ v, key_of v = Some k) hist) <$> keys) ∧
    NoDup keys ∧ Sorted string_le keys ∧ (∀ k, k ∈ keys ↔ ∃ v, v ∈ hist ∧ key_of v = Some k) ∧
    (∀ v, v ∈ hist ↔ ∃ sub, sub ∈ (λ k, filter (λ v, key_of v = Some k) hist) <$> keys ∧ v ∈ sub).
Proof.
  intros Hty. destruct (by_key_spec hist ∅ Hty) as (m & Hm & Hk).
  exists (merge_sort string_le (map_to_list m).*1). unfold kv_partition. rewrite Hm. cbn [mbind option_bind].
  assert (∀ k, k ∈ merge_sort string_le (map_to_list m).*1 ↔ ∃ v, v ∈ hist ∧ key_of v = Some k) as Hkeys.
  { intros k. rewrite merge_sort_Permutation, list_elem_of_fmap. split.
    - intros ([k' vs] & -> & Hin). apply elem_of_map_to_list in Hin. cbn in *. rewrite Hk, lookup_empty in Hin.
      destruct (filter _ hist) as [|v l] eqn:E; [done|].
      assert (v ∈ filter (λ v, key_of v = Some k') hist) as [? ?]%list_elem_of_filter by (rewrite E; by left). eauto.
    - intros (v & Hv & Hkey). specialize (Hk k). rewrite lookup_empty in Hk.
      assert (v ∈ filter (λ v, key_of v = Some k) hist) as Hin by (by apply list_elem_of_filter).
      destruct (filter _ hist) as [|w l]; [by apply elem_of_nil in Hin|]. exists (k, w :: l).
      split; [done|]. by apply elem_of_map_to_list. }
  split; [|split; [|split; [|split; [done|]]]].
  - f_equal. apply list_fmap_ext. intros i k Hi%list_elem_of_lookup_2. rewrite Hk, lookup_empty. by destruct (filter _ hist).
  - rewrite merge_sort_Permutation. apply NoDup_fst_map_to_list.
  - apply Sorted_merge_sort. apply _.
  - intros v. split.
    + intros Hv. destruct (Hty v Hv) as [[inp Hinp] _]. exists (filter (λ v, key_of v = Some (kv_Key inp)) hist).
      assert (key_of v = Some (kv_Key inp)) as Hkey by (unfold key_of; by rewrite Hinp).
      split; [|by apply list_elem_of_filter]. apply list_elem_of_fmap. exists (kv_Key inp). split; [done|].
      apply Hkeys. eauto.
    + by intros (sub & (k & -> & _)%list_elem_of_fmap & [_ ?]%list_elem_of_filter).
Qed.

(** Checking an empty history with [KvModel] and no timeout never ends: there
    is no partition, so no goroutine ever reports, whatever happens; with a timeout the
    answer can only be [Unknown]. *)
Theorem empty_history_blocks `{!EntrySort KvAny, !MapOrder} fuel arrivals kills :
  CheckOperations fuel arrivals kills KvModel [] = None ∧
  ∀ timeout res, CheckOperationsTimeout fuel arrivals kills KvModel [] timeout = Some res → res = Unknown.
Proof.
  assert (∀ timeout, checkOperations fuel arrivals kills KvModel [] false timeout =
    checkParallel fuel arrivals kills (fillDefault KvModel) [] false timeout) as He by reflexivity.
  unfold CheckOperations, CheckOperationsTimeout. split; [|intros timeout res]; rewrite He; unfold checkParallel; cbn.
  - by destruct arrivals as [|[i|] arrivals]; cbn; rewrite ?lookup_nil.
  - destruct arrivals as [|[i|] arrivals]; cbn; rewrite ?lookup_nil; [done|done|].
    destruct (timeout >? 0); cbn; [by intros [= <-]|done].
Qed.

(** ** A history with three clients *)

Definition entry_le {V} (a b : entry V) : Prop := byTime_Less b a = false.
#[export] Instance entry_le_dec {V} (a b : entry V) : Decision (entry_le a b).
Proof. unfold entry_le. apply _. Defined.
#[export] Instance entry_le_total {V} : Total (entry_le (V := V)).
Proof.
  intros a b. unfold entry_le, byTime_Less. destruct (Z.eqb_spec (time a) (time b)), (Z.eqb_spec (time b) (time a)); try congruence; cbn.
  - destruct (kind a), (kind b); cbn; tauto.
  - rewrite !Z.ltb_ge. lia.
Qed.
#[export] Instance entry_le_trans {V} : Transitive (entry_le (V := V)).
Proof.
  intros a b c. unfold entry_le, byTime_Less.
  destruct (Z.eqb_spec (time b) (time a)), (Z.eqb_spec (time c) (time b)), (Z.eqb_spec (time c) (time a)); cbn;
    rewrite ?Z.ltb_ge; destruct (kind a), (kind b), (kind c); cbn; intros; try done; lia.
Qed.

#[export] Instance kv_sort : EntrySort KvAny := {| sort_entries := merge_sort entry_le |}.
#[export] Instance kv_sort_laws : EntrySortLaws KvAny.
Proof.
  split; [intros es; apply merge_sort_Permutation|]. intros es i j a b. apply (merge_sort_ordered entry_le).
Qed.

Definition kv_op (client kind : Z) (key val out : string) (call ret : Z) : Operation KvAny :=
  MkOperation client (AnyInput (MkKvInput kind key val)) call (AnyOutput (MkKvOutput out)) ret.

(** An overlapping put, append and two gets on one key; the second get reads a
    value that no order explains in [bad_history]. *)
Definition good_history : list (Operation KvAny) :=
  [kv_op 0 1 "x" "a" "" 0 10; kv_op 1 0 "x" "" "a" 5 7; kv_op 2 2 "x" "b" "" 6 12; kv_op 1 0 "x" "" "ab" 8 13]%string.
Definition bad_history : list (Operation KvAny) :=
  [kv_op 0 1 "x" "a" "" 0 10; kv_op 1 0 "x" "" "a" 5 7; kv_op 2 2 "x" "b" "" 6 12; kv_op 1 0 "x" "" "" 8 13]%string.

Lemma checkSingle_decides_witness :
  ∃ fuel0 ok lg, (∀ fuel, (fuel0 <= fuel)%nat →
      checkSingle kv_step ShallowEqual ""%string fuel (makeEntries good_history) true never = Some (ok, lg)) ∧
    (ok = true ↔ linearizable kv_step ""%string good_history) ∧ length lg = 4%nat ∧
    (ok = true → ∃ lin p, linearization kv_step ""%string good_history lin ∧ ∀ x, x ∈ lg → x = Some (p, Z.of_nat <$> lin)).
Proof.
  apply (checkSingle_decides kv_step ShallowEqual ""%string good_history true).
  - intros op Hop. unfold good_history in Hop. set_unfold. destruct_or?; subst; cbn; lia.
  - intros op s Hop. unfold good_history in Hop. set_unfold. destruct_or?; subst; cbn; eauto.
Defined.

Lemma bad_history_checked : ∃ fuel0, ∀ fuel, (fuel0 <= fuel)%nat →
  ∃ res info, @checkOperations _ _ _ _ forward_order fuel [ResultOf 0] (λ _, never) KvModel bad_history true 0 = Some (res, info)
    ∧ res ≠ Unknown.
Proof.
  assert (default NoPartition (Partition KvModel) bad_history = Some [bad_history]) as Hp by (vm_compute; reflexivity).
  destruct (@checkOperations_cases _ _ _ _ _ forward_order KvModel _ bad_history [bad_history] true Hp) as [fuel0 Hf].
  - intros sub Hsub. set_unfold in Hsub. destruct Hsub as [->|[]]. split.
    + intros op Hop. unfold bad_history in Hop. set_unfold. destruct_or?; subst; cbn; lia.
    + intros op s Hop. unfold bad_history in Hop. set_unfold. destruct_or?; subst; cbn; eauto.
  - exists fuel0. intros fuel Hle. destruct (Hf fuel [ResultOf 0] (λ _, never) 0 Hle) as [_ Hr].
    + apply NoDup_singleton.
    + by apply (Hr [0%nat]).
Qed.

Lemma kv_partition_correct_witness :
  ∃ keys, kv_partition good_history = Some ((λ k, filter (λ v, key_of v = Some k) good_history) <$> keys) ∧
    NoDup keys ∧ Sorted string_le keys ∧ (∀ k, k ∈ keys ↔ ∃ v, v ∈ good_history ∧ key_of v = Some k) ∧
    (∀ v, v ∈ good_history ↔ ∃ sub, sub ∈ (λ k, filter (λ v, key_of v = Some k) good_history) <$> keys ∧ v ∈ sub).
Proof.
  apply kv_partition_correct. intros v Hv. unfold good_history in Hv. set_unfold.
  destruct_or?; subst; split; cbn; eauto.
Defined.

Example checker_verdicts :
  option_map fst (@CheckOperationsVerbose _ _ _ _ forward_order 100 [ResultOf 0] (λ _, never) KvModel good_history 0) = Some Ok ∧
  option_map fst (@CheckOperationsVerbose _ _ _ _ forward_order 100 [ResultOf 0] (λ _, never) KvModel bad_history 0) = Some Illegal.
Proof. vm_compute. done. Qed.
