(* ===== verification/KVLocality.v ===== *)
(** * The partitions of a key/value history

    The checker gets a history split by key and a model of one key.  Locality: the
    partitions are linearizable one by one exactly when the whole history is
    linearizable with a model of the whole map ([kv_local]), so that the verdict is
    about the history that was recorded. *)

From S2P Require Import Prelude Bitset Porcupine PorcupineSearch PorcupineOrder PorcupineHist PorcupineProps.

(** ** Linearizations as lists of operations *)

Section ordered.
Context {V St : Type} (step : St → V → V → option (bool * St)) (init : St).
Implicit Types (ops l : list (Operation V)).

(** [b] did not return before [a] was called. *)
Definition not_before (a b : Operation V) : Prop := ¬ Return b < Call a.

Fixpoint legal_ops (s : St) l : Prop :=
  match l with
  | [] => True
  | op :: l => ∃ s', step s (Input op) (Output op) = Some (true, s') ∧ legal_ops s' l
  end.

Definition picks ops (lin : list nat) l : Prop := Forall2 (λ j op, ops !! j = Some op) lin l.

Lemma legal_picks ops s lin l : picks ops lin l → legal step ops s lin ↔ legal_ops s l.
Proof.
  intros Hp. revert s. induction Hp as [|j op lin l Hj _ IH]; intros s; cbn; [done|]. setoid_rewrite IH. split.
  - intros (op' & s' & Hop & H). rewrite Hj in Hop. injection Hop as <-. by exists s'.
  - intros (s' & H). by exists op, s'.
Qed.

Lemma order_picks ops lin l : picks ops lin l →
  (∀ p q i j, (p < q)%nat → lin !! p = Some i → lin !! q = Some j → ¬ precedes ops j i) ↔ StronglySorted not_before l.
Proof.
  intros Hp. rewrite StronglySorted_lookups. split.
  - intros Ho p q a b Hpq Ha Hb Hlt. destruct (Forall2_lookup_r _ _ _ _ _ Hp Ha) as (i & Hi & Hai).
    destruct (Forall2_lookup_r _ _ _ _ _ Hp Hb) as (j & Hj & Hbj). apply (Ho p q i j Hpq Hi Hj). by exists b, a.
  - intros Hs p q i j Hpq Hi Hj (b & a & Hb & Ha & Hlt). destruct (Forall2_lookup_l _ _ _ _ _ Hp Hi) as (a' & Ha' & Hai).
    destruct (Forall2_lookup_l _ _ _ _ _ Hp Hj) as (b' & Hb' & Hbj). simplify_eq. by apply (Hs p q a b).
Qed.

Lemma omap_lookup_seq {A} (l l' : list A) : omap (λ j, (l' ++ l) !! j) (seq (length l') (length l)) = l.
Proof.
  revert l'. induction l as [|x l IH]; intros l'; [done|]. cbn. rewrite list_lookup_middle by done. f_equal.
  specialize (IH (l' ++ [x])). rewrite length_app, Nat.add_1_r, <- (assoc_L (++)) in IH. exact IH.
Qed.

Lemma picks_perm ops lin : lin ≡ₚ seq 0 (length ops) → ∃ l, picks ops lin l ∧ l ≡ₚ ops.
Proof.
  intros Hp. exists (omap (λ j, ops !! j) lin). split; [|pose proof (omap_lookup_seq ops []) as Ho; cbn in Ho; by rewrite Hp, Ho].
  assert (Forall (λ j, (j < length ops)%nat) lin) as Hlt by (apply Forall_forall; intros j; rewrite Hp; intros ?%elem_of_seq; lia).
  clear Hp. induction Hlt as [|j lin Hj _ IH]; [constructor|]. destruct (lookup_lt_is_Some_2 ops j Hj) as [op Hop].
  cbn. rewrite Hop. by constructor.
Qed.

Lemma linearizable_ops ops :
  linearizable step init ops ↔ ∃ l, l ≡ₚ ops ∧ legal_ops init l ∧ StronglySorted not_before l.
Proof.
  split.
  - intros (lin & [Hperm Hl Ho]). destruct (picks_perm ops lin Hperm) as (l & Hp & Hlp). exists l. split; [done|].
    split; [by eapply legal_picks|by eapply order_picks].
  - intros (l & Hlp & Hl & Ho). symmetry in Hlp. destruct (permutation_indices _ _ Hlp) as (lin & Hperm & Hp). exists lin. split; [done| |].
    + by eapply legal_picks.
    + by eapply order_picks.
Qed.
End ordered.

(** ** The model of the whole map *)

(** Keys that have not been written hold the empty string, [Init] of [KvModel]. *)
Definition kv_map_step (m : gmap string string) (input output : KvAny) : option (bool * gmap string string) :=
  inp ← asInput input;
  '(ok, st) ← kv_step (default "" (m !! kv_Key inp)) input output;
  Some (ok, <[kv_Key inp := st]> m).

Definition on (k : string) (l : list (Operation KvAny)) : list (Operation KvAny) := filter (λ v, key_of v = Some k) l.

Implicit Types (l ops : list (Operation KvAny)) (v : Operation KvAny) (m : gmap string string).

(** An accepted step of the map is one of the model of its key. *)
Lemma kv_map_step_key m m' v : kv_map_step m (Input v) (Output v) = Some (true, m') ↔
  ∃ k st, key_of v = Some k ∧ kv_step (default "" (m !! k)) (Input v) (Output v) = Some (true, st) ∧ m' = <[k := st]> m.
Proof.
  unfold kv_map_step, key_of. destruct (asInput (Input v)) as [inp|] eqn:Ei; cbn; [|naive_solver].
  destruct (kv_step _ _ _) as [[ok st]|] eqn:Es; cbn; split.
  - intros [= -> <-]. by exists (kv_Key inp), st.
  - intros (k & st' & [= <-] & Hst & ->). rewrite Es in Hst. by injection Hst as -> ->.
  - done.
  - intros (k & st' & [= <-] & Hst & ->). by rewrite Es in Hst.
Qed.

(** A run of the map is, on each key, a run of the model of the key. *)
Lemma legal_on k l m : legal_ops kv_map_step m l → legal_ops kv_step (default "" (m !! k)) (on k l).
Proof.
  revert m. induction l as [|v l IH]; intros m; [done|]. cbn [legal_ops].
  intros (m' & (k' & st & Hk & Hst & ->)%kv_map_step_key & Hl). specialize (IH _ Hl). unfold on. rewrite filter_cons.
  destruct (decide (key_of v = Some k)) as [Hkk|Hne].
  - rewrite Hk in Hkk. injection Hkk as ->. rewrite lookup_insert_eq in IH. by exists st.
  - rewrite lookup_insert_ne in IH by congruence. done.
Qed.

Lemma sorted_filter {A} (R : relation A) (P : A → Prop) `{!∀ x, Decision (P x)} (l : list A) : StronglySorted R l → StronglySorted R (filter P l).
Proof.
  induction 1 as [|x l Hs IH Hx]; [constructor|]. rewrite filter_cons. case_decide; [|done]. constructor; [done|].
  apply Forall_forall. intros y [_ Hy]%list_elem_of_filter. rewrite Forall_forall in Hx. by apply Hx.
Qed.

Lemma least_return l : l ≠ [] → ∃ x, x ∈ l ∧ ∀ y, y ∈ l → Return x <= Return y.
Proof.
  induction l as [|x l IH]; intros Hne; [done|]. destruct (decide (l = [])) as [->|Hl].
  { exists x. split; [by left|]. intros y ->%list_elem_of_singleton. lia. }
  destruct (IH Hl) as (z & Hz & Hmin). destruct (decide (Return x <= Return z)).
  - exists x. split; [by left|]. intros y [->|Hy]%elem_of_cons; [lia|]. specialize (Hmin y Hy). lia.
  - exists z. split; [by right|]. intros y [->|Hy]%elem_of_cons; [lia|by apply Hmin].
Qed.

(** ** From the keys to the map *)

(** The orders of the keys, as far as they have not been merged *)
Record merging m (rest : list (Operation KvAny)) (by_k : string → list (Operation KvAny)) : Prop := {
  mg_typed v : v ∈ rest → kv_typed v;
  mg_timed : well_timed rest;
  mg_perm k : by_k k ≡ₚ on k rest;
  mg_legal k : legal_ops kv_step (default "" (m !! k)) (by_k k);
  mg_order k : StronglySorted not_before (by_k k);
}.

(** Some operation that is next on its key was called before every other one returned. *)
Lemma next_operation m rest by_k : merging m rest by_k → rest ≠ [] →
  ∃ k v l, by_k k = v :: l ∧ v ∈ rest ∧ key_of v = Some k ∧ ∀ y, y ∈ rest → not_before v y.
Proof.
  intros [Hty Ht Hp _ Ho] Hne. destruct (least_return rest Hne) as (x & Hx & Hmin).
  destruct (Hty x Hx) as [[inp Hinp] _]. assert (key_of x = Some (kv_Key inp)) as Hk by (unfold key_of; by rewrite Hinp).
  set (k := kv_Key inp) in *. assert (x ∈ by_k k) as Hxk by (rewrite Hp; by apply list_elem_of_filter).
  destruct (by_k k) as [|v l] eqn:E; [by apply elem_of_nil in Hxk|].
  assert (v ∈ on k rest) as [Hkv Hv]%list_elem_of_filter by (rewrite <- Hp, E; by left).
  exists k, v, l. split; [done|]. split; [done|]. split; [done|]. intros y Hy Hlt. specialize (Hmin y Hy). specialize (Ho k).
  rewrite E in Ho. apply StronglySorted_cons in Ho as [Ho _]. rewrite Forall_forall in Ho. pose proof (Ht x Hx).
  apply elem_of_cons in Hxk as [->|Hxl]; [lia|]. apply (Ho x Hxl). lia.
Qed.

(** It is taken out. *)
Lemma merging_step m v k l by_k rest : merging m (v :: rest) by_k → by_k k = v :: l → key_of v = Some k →
  ∃ m', kv_map_step m (Input v) (Output v) = Some (true, m') ∧ merging m' rest (λ k', if decide (k' = k) then l else by_k k').
Proof.
  intros [Hty Ht Hp Hl Ho] Hk Hkey. pose proof (Hl k) as Hlk. rewrite Hk in Hlk. destruct Hlk as (st & Hst & Hlk).
  exists (<[k := st]> m). split; [apply kv_map_step_key; eauto|]. split.
  - intros y Hy. apply Hty. by right.
  - intros y Hy. apply Ht. by right.
  - intros k'. specialize (Hp k'). unfold on in *. rewrite filter_cons in Hp. destruct (decide (k' = k)) as [->|Hne].
    + rewrite decide_True, Hk in Hp by done. by apply (inj (cons v)) in Hp.
    + by rewrite decide_False in Hp by congruence.
  - intros k'. destruct (decide (k' = k)) as [->|Hne]; [by rewrite lookup_insert_eq|by rewrite lookup_insert_ne by done].
  - intros k'. destruct (decide (k' = k)) as [->|Hne]; [|done]. specialize (Ho k). rewrite Hk in Ho. by apply StronglySorted_cons in Ho as [_ ?].
Qed.

Lemma merge_keys n m rest by_k : length rest = n → merging m rest by_k →
  ∃ l, l ≡ₚ rest ∧ legal_ops kv_map_step m l ∧ StronglySorted not_before l.
Proof.
  revert m rest by_k. induction n as [|n IH]; intros m rest by_k Hlen Hmg.
  { apply length_zero_iff_nil in Hlen as ->. exists []. split; [done|]. split; [done|constructor]. }
  destruct (next_operation _ _ _ Hmg) as (k & v & l & Hk & Hv & Hkey & Hnext); [by intros ->|].
  apply elem_of_Permutation in Hv as [rest' Hperm].
  assert (merging m (v :: rest') by_k) as Hmg'.
  { destruct Hmg as [Hty Ht Hp Hl Ho]. split; [intros y; rewrite <- Hperm; apply Hty|intros y; rewrite <- Hperm; apply Ht| |done|done].
    intros k'. unfold on. rewrite <- Hperm. apply Hp. }
  destruct (merging_step _ _ _ _ _ _ Hmg' Hk Hkey) as (m' & Hstep & Hmg'').
  destruct (IH m' rest' _ ltac:(rewrite Hperm in Hlen; cbn in Hlen; lia) Hmg'') as (l' & Hl' & Hlegal & Hsorted).
  exists (v :: l'). split; [by rewrite Hperm, Hl'|]. split; [by exists m'|]. constructor; [done|].
  apply Forall_forall. intros y. rewrite Hl'. intros Hy. apply Hnext. rewrite Hperm. by right.
Qed.

(** An order for every key, the empty one for keys that do not occur *)
Lemma choose_orders (P : string → list (Operation KvAny) → Prop) (ks : list string) :
  (∀ k, ∃ l, P k l) → (∀ k, k ∉ ks → P k []) → ∃ by_k, ∀ k, P k (by_k k).
Proof.
  intros Hex. revert P Hex. induction ks as [|x ks IH]; intros P Hex Hempty; [exists (λ _, []); intros k; apply Hempty, not_elem_of_nil|].
  destruct (Hex x) as [lx Hx]. destruct (IH (λ k l, k = x ∨ P k l)) as [f Hf].
  - intros k. destruct (Hex k) as [l Hl]. exists l. by right.
  - intros k Hk. destruct (decide (k = x)); [by left|right]. apply Hempty. by apply not_elem_of_cons.
  - exists (λ k, if decide (k = x) then lx else f k). intros k. destruct (decide (k = x)) as [->|Hne]; [done|]. by destruct (Hf k).
Qed.

Lemma on_absent k ops : k ∉ omap key_of ops → on k ops = [].
Proof.
  intros Hk. destruct (on k ops) as [|v l] eqn:E; [done|]. destruct Hk.
  assert (v ∈ on k ops) as [Hv Hin]%list_elem_of_filter by (rewrite E; by left). apply list_elem_of_omap. by exists v.
Qed.

Lemma linearizable_nil : linearizable kv_step "" [].
Proof. apply linearizable_ops. exists []. split; [done|]. split; [done|constructor]. Qed.

(** Locality *)
Lemma keys_linearizable ops : (∀ v, v ∈ ops → kv_typed v) → well_timed ops →
  linearizable kv_map_step ∅ ops ↔ ∀ k, linearizable kv_step "" (on k ops).
Proof.
  intros Hty Ht. setoid_rewrite linearizable_ops. split.
  - intros (l & Hperm & Hl & Ho) k. exists (on k l). split; [unfold on; by rewrite Hperm|].
    split; [by apply (legal_on k) in Hl|by apply sorted_filter].
  - intros Hall.
    assert (∃ by_k, ∀ k, by_k k ≡ₚ on k ops ∧ legal_ops kv_step "" (by_k k) ∧ StronglySorted not_before (by_k k)) as [by_k Hby].
    { apply (choose_orders (λ k l, l ≡ₚ on k ops ∧ legal_ops kv_step "" l ∧ StronglySorted not_before l) (omap key_of ops)); [done|].
      intros k ->%on_absent. split; [done|]. split; [done|constructor]. }
    apply (merge_keys (length ops) ∅ ops by_k eq_refl). split; [done|done|apply Hby| |apply Hby]. intros k. rewrite lookup_empty. apply Hby.
Qed.

(** The keys that occur *)
Definition keys_of ops : list string := remove_dups (omap key_of ops).

(** What [KvModel.Partition] returns is linearizable part by part exactly when the history is. *)
Lemma kv_local hist : (∀ v, v ∈ hist → kv_typed v) → well_timed hist →
  ∃ parts, kv_partition hist = Some parts ∧ length parts = length (keys_of hist) ∧ (∀ sub, sub ∈ parts → checkable KvModel sub)
    ∧ (linearizable kv_map_step ∅ hist ↔ ∀ sub, sub ∈ parts → linearizable kv_step "" sub).
Proof.
  intros Hty Ht. destruct (kv_partition_correct hist Hty) as (keys & Hpart & Hnd & _ & Hkeys & _).
  assert (∀ k, k ∈ keys ↔ k ∈ omap key_of hist) as Hk by (intros k; by rewrite Hkeys, list_elem_of_omap).
  exists ((λ k, on k hist) <$> keys). split; [done|]. split; [|split].
  - rewrite length_fmap. apply Permutation_length, NoDup_Permutation; [done|apply NoDup_remove_dups|].
    intros k. unfold keys_of. by rewrite Hk, elem_of_remove_dups.
  - intros sub (k & -> & _)%list_elem_of_fmap. split; [intros v [_ Hv]%list_elem_of_filter; by apply Ht|].
    intros v st [_ Hv]%list_elem_of_filter. destruct (Hty v Hv) as [[i Hi] [o Ho]].
    cbn. unfold kv_step. rewrite Hi, Ho. by eexists.
  - rewrite keys_linearizable by done. split.
    + by intros Hall sub (k & -> & _)%list_elem_of_fmap.
    + intros Hall k. destruct (decide (k ∈ keys)) as [Hin|Hno].
      * apply Hall. by apply (list_elem_of_fmap_2 (λ k, on k hist)).
      * rewrite on_absent by (by rewrite <- Hk). apply linearizable_nil.
Qed.

(** C20: the verdict on a key/value history is about the whole history.  Take a
    history that is not empty (on an empty one the check waits for its timer,
    [empty_history_blocks]), in which no operation returns before it is called
    and every one has an input and an output of the types of [KvModel].  Whatever
    the order in which the partitions report and whenever the timer fires: with
    [KvModel], [Ok] is only answered for a history that is linearizable as a history
    of a map from keys to values, [Illegal] only for one that is not, [Unknown] only
    when the timer fired; and when the checks of all keys report, the answer is
    [Ok] or [Illegal]. *)
Theorem kv_check_decides `{!EntrySort KvAny, !EntrySortLaws KvAny, !MapOrder} hist verbose :
  (∀ v, v ∈ hist → kv_typed v) → well_timed hist → hist ≠ [] →
  ∃ fuel0, ∀ fuel arrivals kills timeout, (fuel0 <= fuel)%nat →
    NoDup (omap (λ a, match a with ResultOf i => Some i | _ => None end) arrivals) →
    (∀ res info, checkOperations fuel arrivals kills KvModel hist verbose timeout = Some (res, info) →
      match res with
      | Ok => linearizable kv_map_step ∅ hist
      | Illegal => ¬ linearizable kv_map_step ∅ hist
      | Unknown => timeout > 0 ∧ TimeoutFires ∈ arrivals
      end) ∧
    (∀ js, js ≡ₚ seq 0 (length (keys_of hist)) → arrivals = ResultOf <$> js →
      ∃ res info, checkOperations fuel arrivals kills KvModel hist verbose timeout = Some (res, info) ∧ res ≠ Unknown).
Proof.
  intros Hty Ht Hne. destruct (kv_local hist Hty Ht) as (parts & Hpart & Hlen & Hall & Hloc).
  destruct (checkOperations_cases KvModel hist parts verbose Hpart Hall) as [fuel0 Hf]. exists fuel0.
  intros fuel arrivals kills timeout Hle Hnd. destruct (Hf fuel arrivals kills timeout Hle Hnd) as [Hres Hends]. split.
  - intros res info Hrun. specialize (Hres res info Hrun). destruct res; [done|by apply Hloc|].
    destruct Hres as (sub & Hsub & Hno). intros Hlin. apply Hno. by apply Hloc.
  - intros js Hjs. apply Hends; [|by rewrite Hlen]. intros ->.
    destruct hist as [|v hist]; [done|]. destruct (Hty v ltac:(by left)) as [[inp Hinp] _].
    assert (kv_Key inp ∈ keys_of (v :: hist)) as Hin.
    { unfold keys_of. apply elem_of_remove_dups, list_elem_of_omap. exists v. split; [by left|]. unfold key_of. by rewrite Hinp. }
    destruct (keys_of (v :: hist)); [by apply elem_of_nil in Hin|done].
Qed.

(** Two keys: the append on [y] is seen before the put on [x] has returned. *)
Definition two_keys : list (Operation KvAny) :=
  [kv_op 0 1 "x" "a" "" 0 10; kv_op 1 2 "y" "b" "" 1 3; kv_op 2 0 "y" "" "b" 2 4; kv_op 1 0 "x" "" "" 5 6]%string.

Lemma kv_check_decides_witness : ∃ fuel0, ∀ fuel, (fuel0 <= fuel)%nat →
  ∃ res info, @checkOperations _ _ _ kv_sort forward_order fuel [ResultOf 1; ResultOf 0] (λ _, never) KvModel two_keys false 0
    = Some (res, info) ∧ res ≠ Unknown.
Proof.
  destruct (@kv_check_decides kv_sort kv_sort_laws forward_order two_keys false) as [fuel0 Hf].
  - intros op Hop. unfold two_keys in Hop. set_unfold. destruct_or?; subst; (split; by eexists).
  - intros op Hop. unfold two_keys in Hop. set_unfold. destruct_or?; subst; cbn; lia.
  - done.
  - exists fuel0. intros fuel Hle.
    destruct (Hf fuel [ResultOf 1; ResultOf 0] (λ _, never) 0 Hle) as [_ Hends]; [by apply (bool_decide_unpack _)|].
    apply (Hends [1; 0]%nat); [|done]. apply perm_swap.
Defined.
