(* ===== verification/KVCheck.v ===== *)
(** * The checker accepts what kvraft does

    kvraft/test_test.go logs every operation of the clerks with the times of its call
    and its return, and gives the log to [porcupine.CheckOperationsVerbose] with
    [models.KvModel].  The composition: a log of a run of the service in
    [KVLinear] is never found [Illegal], and [Ok] is the answer once all partitions
    have been checked. *)

From S2P Require Import Prelude Bitset Porcupine PorcupineSearch PorcupineOrder PorcupineHist PorcupineProps Util Labgob RaftState RaftHandlers RaftLeader RaftNode RaftCluster OpServer Replicated ReplicatedInv ReplicatedSteps Sessions KVRaft KVLinear.

(** ** Logs *)

(** An operation of a clerk, the value that it returned, and the times *)
Record Logged := MkLogged {
  lg_op : Op;
  lg_value : string;
  lg_client : Z;
  lg_start : Z;
  lg_end : Z;
}.

(** The wrappers [Get], [Put] and [Append] of the test *)
Definition log_Append (e : Logged) : Operation KvAny :=
  let op := lg_op e in
  match op_Type op with
  | opGet => MkOperation (lg_client e) (AnyInput (MkKvInput 0 (op_Key op) "")) (lg_start e)
               (AnyOutput (MkKvOutput (lg_value e))) (lg_end e)
  | opPut => MkOperation (lg_client e) (AnyInput (MkKvInput 1 (op_Key op) (op_Value op))) (lg_start e)
               (AnyOutput (MkKvOutput "")) (lg_end e)
  | opAppend => MkOperation (lg_client e) (AnyInput (MkKvInput 2 (op_Key op) (op_Value op))) (lg_start e)
               (AnyOutput (MkKvOutput "")) (lg_end e)
  end.

(** The log of a trace whose events happened at the times [clock]: a clerk looks at
    the clock before its first RPC and after a reply [OK]; all operations that write
    are in the log, and no operation is there twice. *)
Record recorded (tr : list (WEvent Op string)) (clock : nat → Z) (h : list Logged) : Prop := {
  rc_clock p q : (p <= q)%nat → clock p <= clock q;
  rc_once : NoDup (lg_op <$> h);
  rc_start e p i : e ∈ h → tr !! p = Some (WCall i (lg_op e)) → lg_start e <= clock p;
  rc_end e : e ∈ h → ∃ q i, tr !! q = Some (WReply i (lg_op e) OK (lg_value e)) ∧ clock q <= lg_end e;
  rc_writes op : op ∈ calls tr → op_Type op ≠ opGet → op ∈ lg_op <$> h;
}.

(** ** A linearization of the log of one key *)

Section key.
Context (tr : list (WEvent Op string)) (clock : nat → Z) (h : list Logged) (ops : list Op) (key : string).
Context (Hrec : recorded tr clock h) (Hlin : kv_linearization tr ops).

Definition on_key (e : Logged) : Prop := op_Key (lg_op e) = key.
#[local] Instance on_key_dec e : Decision (on_key e) := decide (op_Key (lg_op e) = key).

(** The log of the key, and its operations in the order of the linearization *)
Definition sub_log : list Logged := filter on_key h.
Definition sub_op (op : Op) : Prop := op ∈ lg_op <$> sub_log.
#[local] Instance sub_op_dec op : Decision (sub_op op) := decide (op ∈ lg_op <$> sub_log).

Lemma sub_op_elem op : sub_op op ↔ ∃ e, e ∈ h ∧ lg_op e = op ∧ op_Key op = key.
Proof.
  unfold sub_op, sub_log. rewrite list_elem_of_fmap. split.
  - intros (e & -> & [Hk He]%list_elem_of_filter). by exists e.
  - intros (e & He & <- & Hk). exists e. split; [done|]. by apply list_elem_of_filter.
Qed.

Lemma recorded_in_ops e : e ∈ h → ∃ k, ops !! k = Some (lg_op e)
  ∧ (op_Type (lg_op e) = opGet → lg_value e = default "" (foldl spec_map ∅ (take k ops) !! op_Key (lg_op e))).
Proof using Hrec Hlin.
  intros He. destruct (rc_end _ _ _ Hrec e He) as (q & i & Hq & _).
  eapply (kl_reply _ _ Hlin). by eapply list_elem_of_lookup_2.
Qed.

Lemma NoDup_sub_log : NoDup (lg_op <$> sub_log).
Proof using Hrec.
  unfold sub_log. pose proof (rc_once _ _ _ Hrec) as Hnd. clear - Hnd. induction h as [|e l IH]; [apply NoDup_nil_2|].
  rewrite fmap_cons in Hnd. apply NoDup_cons in Hnd as [He Hnd]. rewrite filter_cons. case_decide; [|by apply IH].
  rewrite fmap_cons. apply NoDup_cons. split; [|by apply IH].
  intros (e' & Heq & [_ Hin]%list_elem_of_filter)%list_elem_of_fmap. apply He. rewrite Heq. by apply list_elem_of_fmap_2.
Qed.

Lemma sub_ops_perm : lg_op <$> sub_log ≡ₚ filter sub_op ops.
Proof using Hrec Hlin.
  apply NoDup_Permutation; [apply NoDup_sub_log|apply NoDup_filter, Hlin|].
  intros op. rewrite list_elem_of_filter. change (op ∈ lg_op <$> sub_log) with (sub_op op). split; [|tauto]. intros Hs. split; [done|].
  apply sub_op_elem in Hs as (e & He & <- & _). destruct (recorded_in_ops e He) as (k & Hk & _). by eapply list_elem_of_lookup_2.
Qed.

(** Operations that are not in the log of the key leave the key alone. *)
Lemma other_op m op : op ∈ ops → ¬ sub_op op → spec_map m op !! key = m !! key.
Proof using Hrec Hlin.
  intros Hin Hno. unfold spec_map. destruct (op_Type op) eqn:E; [| |done];
    (rewrite lookup_insert_ne; [done|]; intros Hk; apply Hno, sub_op_elem;
     destruct (proj1 (list_elem_of_fmap _ _ _) (rc_writes _ _ _ Hrec op (kl_called _ _ Hlin op Hin) ltac:(congruence))) as (e & -> & He); by exists e).
Qed.

(** The model accepts an operation of the log at its place. *)
Lemma step_accepts e (k : nat) : e ∈ h → on_key e → ops !! k = Some (lg_op e) →
  let m := foldl spec_map ∅ (take k ops) in
  kv_step (default "" (m !! key)) (Input (log_Append e)) (Output (log_Append e))
  = Some (true, default "" (spec_map m (lg_op e) !! key)).
Proof using Hrec Hlin.
  intros He Hk Hat m. destruct (recorded_in_ops e He) as (k' & Hk' & Hget).
  assert (k' = k) as -> by (eapply NoDup_lookup; [apply Hlin|done..]). fold m in Hget. unfold on_key in Hk.
  unfold kv_step, log_Append, spec_map. destruct (op_Type (lg_op e)) eqn:E; cbn.
  - by rewrite Hk, lookup_insert_eq.
  - by rewrite Hk, lookup_insert_eq.
  - rewrite <- Hk, Hget by done. by rewrite bool_decide_true.
Qed.

Lemma legal_from (k : nat) js : (k <= length ops)%nat →
  Forall2 (λ j op, (lg_op <$> sub_log) !! j = Some op) js (filter sub_op (drop k ops)) →
  legal kv_step (log_Append <$> sub_log) (default "" (foldl spec_map ∅ (take k ops) !! key)) js.
Proof using Hrec Hlin.
  intros Hk. remember (length ops - k)%nat as d eqn:Hd. revert k Hk Hd js. induction d as [|d IH]; intros k Hk Hd js Hjs.
  { rewrite drop_ge in Hjs by lia. by inversion Hjs; subst. }
  destruct (lookup_lt_is_Some_2 ops k) as [op Hop]; [lia|]. rewrite (drop_S _ _ _ Hop), filter_cons in Hjs.
  specialize (IH (S k) ltac:(lia) ltac:(lia)). rewrite (take_S_r _ _ _ Hop), foldl_app in IH. cbn in IH.
  destruct (decide (sub_op op)) as [Hs|Hs].
  - inversion Hjs as [|j ? js' ? Hj Hjs']; subst. rewrite list_lookup_fmap in Hj.
    destruct (sub_log !! j) as [e|] eqn:He; [|done]. injection Hj as <-.
    pose proof (list_elem_of_lookup_2 _ _ _ He) as [Hke Hin]%list_elem_of_filter.
    cbn. exists (log_Append e), (default "" (spec_map (foldl spec_map ∅ (take k ops)) (lg_op e) !! key)).
    split_and!; [by rewrite list_lookup_fmap, He|by apply step_accepts|by apply IH].
  - rewrite other_op in IH; [by apply IH|by eapply list_elem_of_lookup_2|done].
Qed.

(** A reply comes before the calls that the clocks put after it. *)
Lemma end_before_start a b (k k' : nat) : a ∈ h → b ∈ h → lg_end a < lg_start b →
  ops !! k = Some (lg_op a) → ops !! k' = Some (lg_op b) → (k < k')%nat.
Proof using Hrec Hlin.
  intros Ha Hb Hlt Hk Hk'. destruct (rc_end _ _ _ Hrec a Ha) as (q & i & Hq & Hcl).
  eapply (kl_real_time _ _ Hlin (take (S q) tr) (drop (S q) tr) i (lg_op a) (lg_value a) (lg_op b)); [by rewrite take_drop| | |done|done].
  - apply (list_elem_of_lookup_2 _ q). rewrite lookup_take_lt by lia. done.
  - unfold calls. intros (ev & [p Hp]%list_elem_of_lookup & Hev)%list_elem_of_omap. destruct ev as [j op|]; [|done]. injection Hev as ->.
    pose proof (lookup_lt_Some _ _ _ Hp) as Hpl. rewrite length_take in Hpl. rewrite lookup_take_lt in Hp by lia.
    pose proof (rc_start _ _ _ Hrec b p j Hb Hp). pose proof (rc_clock _ _ _ Hrec p q ltac:(lia)). lia.
Qed.

Lemma sub_linearizable : PorcupineOrder.linearizable kv_step "" (log_Append <$> sub_log).
Proof using Hrec Hlin.
  destruct (permutation_indices _ _ sub_ops_perm) as (js & Hperm & Hjs). exists js. split.
  - rewrite Hperm. by rewrite !length_fmap.
  - by apply (legal_from 0); [lia|].
  - intros p q i j Hpq Hi Hj (a & b & Ha & Hb & Hlt). rewrite list_lookup_fmap in Ha, Hb.
    destruct (sub_log !! j) as [ea|] eqn:Ea; [|done]. destruct (sub_log !! i) as [eb|] eqn:Eb; [|done].
    injection Ha as <-. injection Hb as <-.
    destruct (Forall2_lookup_l _ _ _ _ _ Hjs Hi) as (opb & Hopb & Hib). destruct (Forall2_lookup_l _ _ _ _ _ Hjs Hj) as (opa & Hopa & Hia).
    rewrite list_lookup_fmap, Eb in Hib. rewrite list_lookup_fmap, Ea in Hia. injection Hib as <-. injection Hia as <-.
    destruct (filter_positions _ _ _ _ _ _ Hpq Hopb Hopa) as (k' & k & Hkk & Hk' & Hk).
    apply list_elem_of_lookup_2, list_elem_of_filter in Ea as [_ Ea], Eb as [_ Eb].
    assert (lg_end ea < lg_start eb) as Hlt'.
    { unfold log_Append in Hlt. destruct (op_Type (lg_op ea)), (op_Type (lg_op eb)); exact Hlt. }
    pose proof (end_before_start ea eb k k' Ea Eb Hlt' Hk Hk'). lia.
Qed.
End key.

(** ** The verdict *)

(** The keys that occur in a log *)
Definition log_keys (h : list Logged) : list string := remove_dups ((λ e, op_Key (lg_op e)) <$> h).

Lemma log_timed tr clock h ops e : recorded tr clock h → kv_linearization tr ops → e ∈ h → lg_start e <= lg_end e.
Proof.
  intros Hrec Hlin He. destruct (decide (lg_start e <= lg_end e)) as [|Hlt]; [done|].
  destruct (recorded_in_ops tr clock h ops Hrec Hlin e He) as (k & Hk & _).
  pose proof (end_before_start tr clock h ops Hrec Hlin e e k k He He ltac:(lia) Hk Hk). lia.
Qed.

Lemma log_typed e : kv_typed (log_Append e).
Proof. unfold log_Append, kv_typed. destruct (op_Type (lg_op e)); cbn; eauto. Qed.

Lemma log_key e : key_of (log_Append e) = Some (op_Key (lg_op e)).
Proof. unfold log_Append, key_of. by destruct (op_Type (lg_op e)). Qed.

(** The partitions are the logs of the keys, and each is linearizable. *)
Lemma log_partitions tr clock h ops : recorded tr clock h → kv_linearization tr ops →
  ∃ parts, kv_partition (log_Append <$> h) = Some parts ∧ length parts = length (log_keys h)
    ∧ ∀ sub, sub ∈ parts → checkable KvModel sub ∧ PorcupineOrder.linearizable kv_step "" sub.
Proof.
  intros Hrec Hlin. destruct (kv_partition_correct (log_Append <$> h)) as (keys & Hpart & Hnd & _ & Hkeys & _).
  { intros v (e & -> & _)%list_elem_of_fmap. apply log_typed. }
  exists ((λ k, filter (λ v, key_of v = Some k) (log_Append <$> h)) <$> keys). split_and!; [done| |].
  - rewrite length_fmap. unfold log_keys. apply Permutation_length, NoDup_Permutation; [done|apply NoDup_remove_dups|].
    intros k. rewrite Hkeys, elem_of_remove_dups, list_elem_of_fmap. split.
    + intros (v & (e & -> & He)%list_elem_of_fmap & Hk). rewrite log_key in Hk. injection Hk as <-. by exists e.
    + intros (e & -> & He). exists (log_Append e). split; [by apply list_elem_of_fmap_2|apply log_key].
  - intros sub (k & -> & _)%list_elem_of_fmap.
    assert (filter (λ v, key_of v = Some k) (log_Append <$> h) = log_Append <$> sub_log h k) as ->.
    { unfold sub_log, on_key, on_key_dec. clear. induction h as [|e l IH]; [done|]. rewrite fmap_cons, !filter_cons.
      destruct (decide (op_Key (lg_op e) = k)) as [Hk|Hk].
      - rewrite decide_True by (rewrite log_key; by rewrite Hk). by rewrite fmap_cons, IH.
      - rewrite decide_False by (rewrite log_key; by intros [= ?]). done. }
    split; [split|by eapply sub_linearizable].
    + intros v (e & -> & [_ He]%list_elem_of_filter)%list_elem_of_fmap. pose proof (log_timed _ _ _ _ _ Hrec Hlin He).
      unfold log_Append. by destruct (op_Type (lg_op e)).
    + intros v st (e & -> & _)%list_elem_of_fmap. unfold log_Append, KvModel, kv_step. destruct (op_Type (lg_op e)); cbn; eauto.
Qed.

Section check.
Context `{!GobCodec KVSnapshot, !GobLaws KVSnapshot, !GobCodec (PState Op), !GobLaws (PState Op)}.
Context `{!EntrySort KvAny, !EntrySortLaws KvAny, !MapOrder}.
(** [n] servers with the threshold [maxraftstate] for snapshots. *)
Context (n maxraftstate : Z).
#[local] Instance machine : StateMachine KVServer Op string := kv_machine maxraftstate.

(** C8: the checker accepts what kvraft does.  Take a run of any number of servers in
    which, at the servers, no RPC of an operation arrives after one of a later
    operation of the same client, and a log of it, not empty, that the wrappers of
    the test write, with all operations answered OK and the writes complete.  (On an
    empty log the check blocks until its timer fires, [empty_history_blocks].)
    Then, whatever the order in which the
    partitions are checked and wherever the timer fires, [checkOperations] with
    [KvModel] does not find the history [Illegal]; when the checks of all keys report,
    it answers [Ok]. *)
Theorem kv_checker_accepts (X : World KVServer Op string) clock h verbose :
  0 <= n → wreachable n kv_init X → client_order (calls (trace X)) → recorded (trace X) clock h → h ≠ [] →
  ∃ fuel0, ∀ fuel arrivals kills timeout, (fuel0 <= fuel)%nat →
    NoDup (omap (λ a, match a with ResultOf i => Some i | _ => None end) arrivals) →
    (∀ res info, checkOperations fuel arrivals kills KvModel (log_Append <$> h) verbose timeout = Some (res, info) → res ≠ Illegal)
    ∧ ∀ js, js ≡ₚ seq 0 (length (log_keys h)) → arrivals = ResultOf <$> js →
        ∃ info, checkOperations fuel arrivals kills KvModel (log_Append <$> h) verbose timeout = Some (Ok, info).
Proof.
  intros Hn Hr Ho Hrec Hne. destruct (replies_linearize n maxraftstate X Hn Hr Ho) as [ops Hlin].
  destruct (log_partitions _ _ _ _ Hrec Hlin) as (parts & Hpart & Hlen & Hparts).
  assert (parts ≠ []) as Hp.
  { intros ->. destruct h as [|e h]; [done|]. symmetry in Hlen. apply length_zero_iff_nil in Hlen.
    assert (op_Key (lg_op e) ∈ log_keys (e :: h)) as Hin; [|rewrite Hlen in Hin; by apply elem_of_nil in Hin].
    unfold log_keys. rewrite elem_of_remove_dups. apply list_elem_of_fmap. exists e. split; [done|by left]. }
  destruct (checkOperations_cases KvModel (log_Append <$> h) parts verbose Hpart) as [fuel0 Hf]; [by apply Hparts|].
  exists fuel0. intros fuel arrivals kills timeout Hle Hnd. destruct (Hf fuel arrivals kills timeout Hle Hnd) as [Hres Hall].
  assert (∀ res info, checkOperations fuel arrivals kills KvModel (log_Append <$> h) verbose timeout = Some (res, info) → res ≠ Illegal) as Hni.
  { intros res info Hrun ->. destruct (Hres _ _ Hrun) as (sub & Hsub & Hno). by apply Hno, Hparts. }
  split; [done|]. intros js Hjs Harr. destruct (Hall js Hp) as (res & info & Hrun & Hunk); [by rewrite Hlen|done|].
  exists info. pose proof (Hni _ _ Hrun). by destruct res.
Qed.
End check.

(** ** A log *)

Definition put_get_log : list Logged := [MkLogged put_a "" 0 0 1; MkLogged get_x "a" 1 2 3].

Lemma put_get_recorded : recorded (trace (kv_world put_get)) Z.of_nat put_get_log.
Proof.
  rewrite put_get_trace. split.
  - intros p q. lia.
  - apply (bool_decide_eq_true_1 (NoDup _)). vm_compute. reflexivity.
  - intros e p i He Hp. set_unfold in He.
    destruct He as [->|[->|[]]]; do 4 (destruct p as [|p]; cbn in *; [simplify_eq; lia|]); done.
  - intros e He. set_unfold in He. destruct He as [->|[->|[]]]; [exists 1%nat, 0|exists 3%nat, 0]; (split; [done|cbn; lia]).
  - intros op Hop _. change (calls _) with [put_a; get_x] in Hop. done.
Qed.

Lemma kv_checker_accepts_witness :
  ∃ fuel0, ∀ fuel, (fuel0 <= fuel)%nat →
    ∃ info, @checkOperations _ _ _ kv_sort forward_order fuel [ResultOf 0] (λ _, never) KvModel
      [MkOperation 0 (AnyInput (MkKvInput 1 "x" "a")) 0 (AnyOutput (MkKvOutput "")) 1;
       MkOperation 1 (AnyInput (MkKvInput 0 "x" "")) 2 (AnyOutput (MkKvOutput "a")) 3]%string true 0 = Some (Ok, info).
Proof.
  destruct (@kv_checker_accepts _ _ _ _ kv_sort kv_sort_laws forward_order 3 1 (kv_world put_get) Z.of_nat put_get_log true)
    as [fuel0 Hf]; [lia| |apply put_get_order|apply put_get_recorded|done|].
  - apply kv_world_reachable. vm_compute. reflexivity.
  - exists fuel0. intros fuel Hle. destruct (Hf fuel [ResultOf 0] (λ _, never) 0 Hle) as [_ Hok]; [apply NoDup_singleton|].
    exact (Hok [0%nat] (Permutation_refl _) eq_refl).
Defined.
