(* ===== verification/PorcupinePartials.v ===== *)
(** * What the checker reports are legal sequences

    Besides the verdict, [checkSingle] returns for every operation the longest sequence
    with it that the search had found.  Whatever the verdict, and also when the
    search is killed, the model accepts these sequences ([checkSingle_partials]). *)

From S2P Require Import Prelude Bitset Porcupine PorcupineList PorcupineSearch PorcupineOrder PorcupineHist PorcupineProps.

(** ** The search never writes values, matches and ids *)

Section static.
Context {V : Type}.
Implicit Types (h : heap V).

Lemma set_next_stat h p x h' : set_next h p x = Some h' → stat <$> h' = stat <$> h.
Proof.
  unfold set_next. destruct p as [l|]; [|done]. cbn. destruct (h !! l) as [nd|] eqn:E; [|done]. cbn. intros [= <-].
  by eapply stat_insert.
Qed.

Lemma set_prev_stat h p x h' : set_prev h p x = Some h' → stat <$> h' = stat <$> h.
Proof.
  unfold set_prev. destruct p as [l|]; [|done]. cbn. destruct (h !! l) as [nd|] eqn:E; [|done]. cbn. intros [= <-].
  by eapply stat_insert.
Qed.

(** Goes through a sequence of reads and writes of the store. *)
Ltac walk := repeat (match goal with
  | H : (_ ≫= _) = Some _ |- _ => apply bind_Some in H as (? & ? & H)
  | H : match ?o with Some _ => _ | None => _ end = Some _ |- _ => destruct o
  | H : Some _ = Some _ |- _ => injection H as <-
  | H : set_next _ _ _ = Some _ |- _ => apply set_next_stat in H
  | H : set_prev _ _ _ = Some _ |- _ => apply set_prev_stat in H
  end).

Lemma lift_stat h x h' : lift h x = Some h' → stat <$> h' = stat <$> h.
Proof. unfold lift. intros H. walk; congruence. Qed.

Lemma unlift_stat h x h' : unlift h x = Some h' → stat <$> h' = stat <$> h.
Proof. unfold unlift. intros H. walk; congruence. Qed.
End static.

Section partials.
Context {V St : Type} (step : St → V → V → option (bool * St)) (equal : St → St → bool) (init : St).
Context (Σ : list (option V * option nat * Z)).
Implicit Types (c : search V St) (cs : list (nat * St)) (h : heap V).

(** ** Paths

    The calls [cs], each with the state before it, lead from [s] to [s']. *)

Definition takes (s : St) (x : nat) (s' : St) : Prop :=
  ∃ m i o, nmatch Σ x = Some m ∧ nval Σ x = Some i ∧ nval Σ m = Some o ∧ step s i o = Some (true, s').

Fixpoint path (s : St) cs (s' : St) : Prop :=
  match cs with
  | [] => s' = s
  | (x, s0) :: cs => s0 = s ∧ ∃ s1, takes s x s1 ∧ path s1 cs s'
  end.

Lemma path_snoc s cs x s1 s2 : path s cs s1 → takes s1 x s2 → path s (cs ++ [(x, s1)]) s2.
Proof.
  revert s. induction cs as [|[y s0] cs IH]; intros s Hp Ht; cbn in *.
  - subst s1. split; [done|]. by exists s2.
  - destruct Hp as [-> (s3 & Hy & Hp)]. split; [done|]. exists s3. auto.
Qed.

Lemma path_snoc_inv s cs x s1 s2 : path s (cs ++ [(x, s1)]) s2 → path s cs s1.
Proof.
  revert s. induction cs as [|[y s0] cs IH]; intros s Hp; cbn in *.
  - by destruct Hp as [-> _].
  - destruct Hp as [-> (s3 & Hy & Hp)]. split; [done|]. exists s3. auto.
Qed.

(** A sequence of ids that was stored is that of a path. *)
Definition stored (seq : list Z) : Prop := ∃ cs s, path init cs s ∧ seq = nid Σ <$> cs.*1.

Record good c : Prop := {
  gd_stat : stat <$> nodes c = Σ;
  gd_path : path init (calls c) (state c);
  gd_seqs seq : seq ∈ seqs c → stored seq;
}.

Lemma node_static h x nd : stat <$> h = Σ → h !! x = Some nd →
  nval Σ x = node_value nd ∧ nmatch Σ x = node_match nd ∧ nid Σ x = node_id nd.
Proof. intros <- Hx. unfold nval, nmatch, nid. by rewrite list_lookup_fmap, Hx. Qed.

Lemma call_ids_path h cs seq : stat <$> h = Σ → call_ids h cs = Some seq → seq = nid Σ <$> cs.*1.
Proof.
  intros Hst. unfold call_ids. revert seq. induction cs as [|[x s] cs IH]; intros seq; cbn; [by intros [= <-]|].
  destruct (h !! x) as [nd|] eqn:Hx; cbn; [|done]. destruct (mapM _ cs) as [l|]; cbn; [|done]. intros [= <-].
  destruct (node_static h x nd Hst Hx) as (_ & _ & ->). f_equal. by apply IH.
Qed.

Lemma update_longest_stored h all vs made ss lg ss' lg' :
  stat <$> h = Σ → (∃ s, path init all s) → (∀ seq, seq ∈ ss → stored seq) →
  update_longest h all vs made ss lg = Some (ss', lg') → ∀ seq, seq ∈ ss' → stored seq.
Proof.
  intros Hst [s Hp]. revert made ss lg. induction vs as [|v vs IH]; intros made ss lg Hss H; cbn [update_longest] in H.
  { by injection H as <- _. }
  apply bind_Some in H as (i & _ & H). apply bind_Some in H as (p & _ & H). apply bind_Some in H as (better & _ & H).
  destruct better; [|by eapply IH].
  apply bind_Some in H as ([l ss1] & Hmade & H). apply bind_Some in H as (lg1 & _ & H). eapply IH; [|exact H].
  destruct made as [l'|]; [by injection Hmade as _ <-|].
  apply bind_Some in Hmade as (seq & Hseq & Hmade). injection Hmade as _ <-.
  intros seq' [?| ->%list_elem_of_singleton]%elem_of_app; [auto|]. exists all, s. split; [done|]. by eapply call_ids_path.
Qed.

(** ** The invariant of the search *)

Lemma try_call_good head c x e m nm c' : nodes c !! x = Some e → node_match e = Some m → nodes c !! m = Some nm →
  good c → try_call step equal head c x e nm = Some c' → good c'.
Proof.
  intros Hx Hm Hnm [Hst Hp Hss] H. unfold try_call in H.
  apply bind_Some in H as (i & Hi & H). apply bind_Some in H as (o & Ho & H).
  apply bind_Some in H as ([ok s'] & Hstep & H). destruct ok; [|injection H as <-; by split].
  apply bind_Some in H as (nb & _ & H). destruct (negb _); [|injection H as <-; by split].
  apply bind_Some in H as (lin & _ & H). apply bind_Some in H as (ns & Hns & H). apply bind_Some in H as (nh & _ & H).
  injection H as <-. split; cbn; [by rewrite (lift_stat _ _ _ Hns)| |done].
  apply path_snoc; [done|]. destruct (node_static _ _ _ Hst Hx) as (Hv & Hma & _). destruct (node_static _ _ _ Hst Hnm) as (Hvm & _ & _).
  exists m, i, o. by rewrite Hma, Hv, Hvm.
Qed.

Lemma backtrack_good cp c c' : good c → backtrack cp c = Some c' → good c'.
Proof.
  intros [Hst Hp Hss] H. unfold backtrack in H. apply bind_Some in H as ([ss lg] & Hlg & H).
  apply bind_Some in H as ([x s] & Htop & H). apply bind_Some in H as (e & _ & H). apply bind_Some in H as (lin & _ & H).
  apply bind_Some in H as (cs & Hcs & H). apply bind_Some in H as (ns & Hns & H). apply bind_Some in H as (e' & _ & H).
  injection H as <-. split; cbn.
  - by rewrite (unlift_stat _ _ _ Hns).
  - apply slice_to_Some in Hcs as [Hle ->]. apply go_index_lookup in Htop as [H0 Htop].
    assert (calls c = take (Z.to_nat (go_len (calls c) - 1)) (calls c) ++ [(x, s)]) as Heq.
    { rewrite <- (take_S_r _ _ _ Htop). symmetry. apply take_ge. unfold go_len. lia. }
    rewrite Heq in Hp. by eapply path_snoc_inv.
  - destruct cp; [|by injection Hlg as <- _]. eapply update_longest_stored; [exact Hst|by eexists|exact Hss|exact Hlg].
Qed.

Lemma check_loop_good cp kill head fuel t c b c' :
  good c → check_loop step equal cp kill head fuel t c = Some (b, c') → good c'.
Proof.
  revert t c. induction fuel as [|fuel IH]; intros t c Hg H; [done|]. cbn [check_loop] in H.
  apply bind_Some in H as (nh & _ & H). destruct (next nh); [|by injection H as _ <-].
  destruct (kill t); [by injection H as _ <-|].
  apply bind_Some in H as (x & _ & H). apply bind_Some in H as (e & He & H). destruct (node_match e) as [m|] eqn:Em.
  - apply bind_Some in H as (nm & Hnm & H). apply bind_Some in H as (c1 & Hc1 & H).
    eapply IH; [|exact H].
    eapply try_call_good; [exact He|exact Em|exact Hnm|exact Hg|exact Hc1].
  - destruct (go_len (calls c) =? 0); [by injection H as _ <-|].
    apply bind_Some in H as (c1 & Hc1 & H). eapply IH; [|exact H]. by eapply backtrack_good.
Qed.

(** All sequences that [longest] holds at the end *)
Lemma read_longest_stored c l p seq : good c → l = read_longest c → Some (p, seq) ∈ l → stored seq.
Proof.
  intros [_ _ Hss] -> (o & Ho & _)%list_elem_of_fmap. destruct o as [q|]; cbn in Ho; [|done].
  destruct (seqs c !! q) as [s|] eqn:E; cbn in Ho; [|done]. injection Ho as -> ->.
  apply Hss. by eapply list_elem_of_lookup_2.
Qed.
End partials.

(** ** The sequences in terms of the history *)

Section report.
Context {V St : Type} `{!EntrySort V, !EntrySortLaws V}.
Context (step : St → V → V → option (bool * St)) (equal : St → St → bool) (init : St).
Implicit Types (ops : list (Operation V)).

Lemma path_legal ops s cs s' : well_timed ops → path step (sig ops) s cs s' →
  ∃ js, nid (sig ops) <$> cs.*1 = Z.of_nat <$> js ∧ legal step ops s js.
Proof using EntrySortLaws0.
  intros Ht. revert s. induction cs as [|[x s0] cs IH]; intros s Hp; cbn in Hp; [by exists []|].
  destruct Hp as [-> (s1 & (m & i & o & Hm & Hi & Ho & Hstep) & Hp)]. destruct (IH s1 Hp) as (js & Hids & Hlegal).
  assert (x ∈ locs (length (makeEntries ops))) as Hx.
  { apply locs_elem. unfold nmatch, sig in Hm. destruct (_ !! x) as [y|] eqn:E; [|done]. cbn in Hm.
    destruct (decide (x < length (makeEntries ops))%nat) as [|Hge]; [done|].
    rewrite lookup_app_r in E by (rewrite length_stats; lia). rewrite length_stats in E.
    apply list_lookup_singleton_Some in E as [_ <-]. done. }
  destruct (call_case ops Ht x m Hx Hm) as (k & op & p & q & Hk & Hp' & Hq & -> & ->).
  destruct (node_at ops p _ Hp') as (Hv & _ & Hid). destruct (node_at ops q _ Hq) as (Hv' & _ & _).
  rewrite Hi in Hv. rewrite Ho in Hv'. injection Hv as ->. injection Hv' as ->. cbn in Hid, Hstep.
  exists (k :: js). cbn. split; [by rewrite Hid, <- Hids|]. by exists op, s1.
Qed.

Lemma start_search_seqs (hist : list (entry V)) hd (c : search V St) : start_search init hist = Some (hd, c) → seqs c = [].
Proof.
  intros H. unfold start_search in H. apply bind_Some in H as ([[h root] ms] & _ & H). apply bind_Some in H as (l & _ & H).
  destruct (alloc h _) as [h1 head]. apply bind_Some in H as (h2 & _ & H). by injection H as _ <-.
Qed.

Lemma checkSingle_partials ops fuel cp kill ok lg p ids : well_timed ops →
  checkSingle step equal init fuel (makeEntries ops) cp kill = Some (ok, lg) → Some (p, ids) ∈ lg →
  ∃ js, ids = Z.of_nat <$> js ∧ legal step ops init js.
Proof using EntrySortLaws0.
  intros Ht H Hin. unfold checkSingle in H. destruct (start_search_frame init ops) as (c0 & Hs & HF & _ & _ & Hcalls & Hst).
  rewrite Hs in H. cbn in H. apply bind_Some in H as ([ok' c] & Hl & H).
  assert (good step init (sig ops) c0) as Hg0.
  { split; [by apply (fr_stat _ _ _ _ _ _ HF)|by rewrite Hcalls, Hst|].
    rewrite (start_search_seqs _ _ _ Hs). by intros seq ?%elem_of_nil. }
  pose proof (check_loop_good _ _ _ _ _ _ _ _ _ _ _ _ Hg0 Hl) as Hg.
  assert (stored step init (sig ops) ids) as (cs & s & Hp & ->); [|by eapply path_legal].
  destruct ok'; [|injection H as _ Hlg; by eapply read_longest_stored].
  apply bind_Some in H as (seq & Hseq & H). injection H as _ <-. apply list_elem_of_fmap in Hin as (o & [= -> ->] & _).
  exists (calls c), (state c). split; [apply Hg|]. eapply call_ids_path; [apply Hg|done].
Qed.
End report.
