(* ===== verification/Visualization.v ===== *)
(** * porcupine/visualization.go and the descriptions of models/kv.go

    The data that the visualization of a checked history shows: a row for
    every operation, the partial linearizations with a description of the state
    after each step, and for every operation the longest one it is part of.  The
    functions with which a model describes operations and states are in the
    record [Describe]; they can panic.  The input is an [option]: [None] is
    the [nil] that a map returns for an absent key.  The HTML page, its
    script, the JSON encoding and the files are not modelled.

    The theorem: on what the checker returns for a history,
    [computeVisualizationData] never panics, shows every operation with its times,
    replays partial linearizations that the model accepts, and refers every
    operation to a longest one with it. *)

From S2P Require Import Prelude GoStrings Bitset Porcupine PorcupineList PorcupineSearch PorcupineOrder PorcupineHist PorcupineProps PorcupinePartials.

(** ** model.go: the description functions *)

(** [fmt.Sprintf("%v", x)] at a type *)
Class GoFmt (A : Type) := { fmt_v : A → string }.

(** [DescribeOperation] and [DescribeState] of [Model], which may be [nil] *)
Record Describe (V St : Type) := MkDescribe {
  DescribeOperation : option (option V → V → option string);
  DescribeState : option (St → option string);
}.
Arguments MkDescribe {V St}. Arguments DescribeOperation {V St}. Arguments DescribeState {V St}.

Section defaults.
Context {V St : Type} `{!GoFmt V, !GoFmt St}.

Definition DefaultDescribeOperation (input : option V) (output : V) : option string :=
  Some (match input with Some i => fmt_v i | None => "<nil>"%string end +:+ " -> " +:+ fmt_v output).

Definition DefaultDescribeState (state : St) : option string := Some (fmt_v state).

Definition fillDefault_describe (d : Describe V St) : Describe V St :=
  MkDescribe (Some (default DefaultDescribeOperation (DescribeOperation d)))
    (Some (default DefaultDescribeState (DescribeState d))).
End defaults.

(** ** The data *)

Record historyElement := MkHistoryElement {
  he_ClientId : Z;
  Start : Z;
  End : Z;
  Description : string;
}.
(** [make([]historyElement, n)] *)
Definition zero_element : historyElement := MkHistoryElement 0 0 0 "".

Record linearizationStep := MkLinearizationStep {
  Index : Z;
  StateDescription : string;
}.
Notation partialLinearization := (list linearizationStep).

Record partitionVisualizationData := MkPartitionData {
  History : list historyElement;
  PartialLinearizations : list partialLinearization;
  Largest : gmap Z Z;
}.

(** [sort.Slice] with the longer slices first *)
Class LengthSort := { sort_by_length : list (list Z) → list (list Z) }.
Class LengthSortLaws `{!LengthSort} := {
  sort_by_length_perm l : sort_by_length l ≡ₚ l;
  sort_by_length_sorted l i j a b :
    (i < j)%nat → sort_by_length l !! i = Some a → sort_by_length l !! j = Some b → (length b <= length a)%nat;
}.

(** ** computeVisualizationData *)

Section compute.
Context {V St : Type} (model_Step : St → V → V → option (bool * St)) (model_Init : St).
Context (describe_op : option V → V → option string) (describe_state : St → option string).

(** [history], [callValue] and [returnValue] *)
Notation rows := (list historyElement * gmap Z V * gmap Z V)%type.

(** The body of the loop over the entries of a partition *)
Definition show_entry (r : rows) (elem : entry V) : option rows :=
  let '(hs, callValue, returnValue) := r in
  match kind elem with
  | callEntry =>
      e ← hs.[id elem];
      hs ← go_update hs (id elem) (MkHistoryElement (clientId elem) (time elem) (End e) (Description e));
      Some (hs, <[id elem := value elem]> callValue, returnValue)
  | returnEntry =>
      e ← hs.[id elem];
      text ← describe_op (callValue !! id elem) (value elem);
      hs ← go_update hs (id elem) (MkHistoryElement (he_ClientId e) (Start e) (time elem) text);
      Some (hs, callValue, <[id elem := value elem]> returnValue)
  end.

Definition show_history (hist : list (entry V)) : option rows :=
  foldM show_entry (replicate (Z.to_nat (go_len hist / 2)) zero_element, ∅, ∅) hist.

(** [largestIndex] and [largestSize] *)
Notation largest := (gmap Z Z * gmap Z Z)%type.

Definition note_largest (i size : Z) (lg : largest) (histId : Z) : largest :=
  let '(largestIndex, largestSize) := lg in
  if default 0 (largestSize !! histId) <? size
  then (<[histId := i]> largestIndex, <[histId := size]> largestSize) else lg.

(** The loop over a partial linearization, the [i]-th; a step that the model
    refuses is a panic, like a step on [nil]. *)
Fixpoint replay (callValue returnValue : gmap Z V) (i size : Z) (st : St) (lg : largest) (partial : list Z)
    : option (partialLinearization * largest) :=
  match partial with
  | [] => Some ([], lg)
  | histId :: partial =>
      input ← callValue !! histId; output ← returnValue !! histId;
      '(ok, st) ← model_Step st input output;
      if (ok : bool) then
        stateDesc ← describe_state st;
        '(lin, lg) ← replay callValue returnValue i size st (note_largest i size lg histId) partial;
        Some (MkLinearizationStep histId stateDesc :: lin, lg)
      else None
  end.

Fixpoint replay_all (callValue returnValue : gmap Z V) (i : Z) (lg : largest) (partials : list (list Z))
    : option (list partialLinearization * largest) :=
  match partials with
  | [] => Some ([], lg)
  | partial :: partials =>
      '(lin, lg) ← replay callValue returnValue i (go_len partial) model_Init lg partial;
      '(lins, lg) ← replay_all callValue returnValue (i + 1) lg partials;
      Some (lin :: lins, lg)
  end.

Context `{!LengthSort}.

Definition partition_data (hist : list (entry V)) (partials : list (list Z)) : option partitionVisualizationData :=
  '(hs, callValue, returnValue) ← show_history hist;
  '(lins, (largestIndex, _)) ← replay_all callValue returnValue 0 (∅, ∅) (sort_by_length partials);
  Some (MkPartitionData hs lins largestIndex).
End compute.

Section visualization.
Context {V St : Type} `{!EqDecision St, !GoFmt V, !GoFmt St, !LengthSort}.

(** [info.partialLinearizations[partition]] panics when it is missing. *)
Definition computeVisualizationData (model : Model V St) (d : Describe V St) (info : linearizationInfo V)
    : option (list partitionVisualizationData) :=
  let model := fillDefault model in
  let d := fillDefault_describe d in
  describe_op ← DescribeOperation d; describe_state ← DescribeState d;
  mapM (λ p : nat * list (entry V),
      partials ← partialLinearizations info !! p.1;
      partition_data (Step model) (Init model) describe_op describe_state p.2 partials)
    (imap pair (history info)).
End visualization.

(** ** models/kv.go: DescribeOperation *)

Definition kv_DescribeOperation (input : option KvAny) (output : KvAny) : option string :=
  inp ← (i ← input; asInput i); out ← asOutput output;
  Some (if kv_Op inp =? 0 then ("get('" +:+ kv_Key inp +:+ "') -> '" +:+ out_Value out +:+ "'")%string
        else if kv_Op inp =? 1 then ("put('" +:+ kv_Key inp +:+ "', '" +:+ kv_Value inp +:+ "')")%string
        else if kv_Op inp =? 2 then ("append('" +:+ kv_Key inp +:+ "', '" +:+ kv_Value inp +:+ "')")%string
        else "<invalid>"%string).

(** [KvModel] leaves [DescribeState] out. *)
Definition KvDescribe : Describe KvAny string := MkDescribe (Some kv_DescribeOperation) None.

(** [%v] of the values of a key/value history: structs print their fields in braces. *)
#[global] Instance kv_fmt : GoFmt KvAny := {|
  fmt_v v := match v with
    | AnyInput i => ("{" +:+ Itoa (kv_Op i) +:+ " " +:+ kv_Key i +:+ " " +:+ kv_Value i +:+ "}")%string
    | AnyOutput o => ("{" +:+ out_Value o +:+ "}")%string
    end |}.
#[global] Instance string_fmt : GoFmt string := {| fmt_v s := s |}.

(** A sort to evaluate with *)
Definition longer (a b : list Z) : Prop := (length b <= length a)%nat.
#[global] Instance longer_dec a b : Decision (longer a b).
Proof. unfold longer. apply _. Defined.
Definition merge_length_sort : LengthSort := {| sort_by_length := merge_sort longer |}.
#[global] Instance longer_total : Total longer.
Proof. intros a b. unfold longer. lia. Qed.
#[global] Instance longer_trans : Transitive longer.
Proof. intros a b c. unfold longer. lia. Qed.

Lemma merge_length_sort_laws : @LengthSortLaws merge_length_sort.
Proof. split; [intros l; apply merge_sort_Permutation|]. intros l i j a b. apply (merge_sort_ordered longer). Qed.

(** * What is shown *)

Section rows.
Context {V : Type} `{!EntrySort V, !EntrySortLaws V}.
Context (describe_op : option V → V → option string).
Implicit Types (ops : list (Operation V)).

(** ** Rows *)

(** The row of an operation *)
Definition row_of (op : Operation V) (he : historyElement) : Prop :=
  he_ClientId he = ClientId op ∧ Start he = Call op ∧ End he = Return op
  ∧ describe_op (Some (Input op)) (Output op) = Some (Description he).

Definition describable ops : Prop := ∀ op, op ∈ ops → is_Some (describe_op (Some (Input op)) (Output op)).

(** After the entries [seen]: what is written of operation [i]. *)
Record shown ops (seen : list (entry V)) (r : list historyElement * gmap Z V * gmap Z V) : Prop := {
  sh_len : length r.1.1 = length ops;
  sh_call i op he : ops !! i = Some op → r.1.1 !! i = Some he → callE i op ∈ seen →
    he_ClientId he = ClientId op ∧ Start he = Call op ∧ r.1.2 !! Z.of_nat i = Some (Input op);
  sh_return i op he : ops !! i = Some op → r.1.1 !! i = Some he → retE i op ∈ seen →
    End he = Return op ∧ describe_op (Some (Input op)) (Output op) = Some (Description he)
    ∧ r.2 !! Z.of_nat i = Some (Output op);
}.

Lemma callE_inj i j (op op' : Operation V) : callE i op = callE j op' → i = j.
Proof. unfold callE. intros. simplify_eq. lia. Qed.
Lemma retE_inj i j (op op' : Operation V) : retE i op = retE j op' → i = j.
Proof. unfold retE. intros. simplify_eq. lia. Qed.

Lemma show_call ops seen hs cv rv k op : ops !! k = Some op → shown ops seen (hs, cv, rv) →
  ∃ r, show_entry describe_op (hs, cv, rv) (callE k op) = Some r ∧ shown ops (seen ++ [callE k op]) r.
Proof.
  intros Hop [Hlen Hc Hr]. cbn in *. pose proof (lookup_lt_Some _ _ _ Hop) as Hk.
  destruct (lookup_lt_is_Some_2 hs k ltac:(lia)) as [he Hhe].
  unfold show_entry. cbn [kind callE id value clientId time]. rewrite go_index_nat, Hhe. cbn [mbind option_bind].
  rewrite go_update_eq by (unfold go_len; lia). rewrite Nat2Z.id. cbn. eexists. split; [done|]. split; cbn.
  - by rewrite length_insert.
  - intros i op' he' Hi Hhe' [Hin|Heq%list_elem_of_singleton]%elem_of_app.
    + destruct (decide (i = k)) as [->|Hne].
      * rewrite list_lookup_insert_eq in Hhe' by lia. simplify_eq. by rewrite lookup_insert_eq.
      * rewrite list_lookup_insert_ne in Hhe' by done. rewrite lookup_insert_ne by lia. by eapply Hc.
    + apply callE_inj in Heq as ->. rewrite list_lookup_insert_eq in Hhe' by lia. simplify_eq. by rewrite lookup_insert_eq.
  - intros i op' he' Hi Hhe' [Hin|Heq%list_elem_of_singleton]%elem_of_app; [|done].
    destruct (decide (i = k)) as [->|Hne].
    + rewrite list_lookup_insert_eq in Hhe' by lia. simplify_eq. cbn. by eapply Hr.
    + rewrite list_lookup_insert_ne in Hhe' by done. by eapply Hr.
Qed.

Lemma show_return ops seen hs cv rv k op : ops !! k = Some op → describable ops → callE k op ∈ seen →
  shown ops seen (hs, cv, rv) →
  ∃ r, show_entry describe_op (hs, cv, rv) (retE k op) = Some r ∧ shown ops (seen ++ [retE k op]) r.
Proof.
  intros Hop Hd Hseen [Hlen Hc Hr]. cbn in *. pose proof (lookup_lt_Some _ _ _ Hop) as Hk.
  destruct (lookup_lt_is_Some_2 hs k ltac:(lia)) as [he Hhe]. destruct (Hc _ _ _ Hop Hhe Hseen) as (_ & _ & Hcv).
  destruct (Hd op ltac:(by eapply list_elem_of_lookup_2)) as [text Htext].
  unfold show_entry. cbn [kind retE id value clientId time]. rewrite go_index_nat, Hhe. cbn [mbind option_bind].
  rewrite Hcv, Htext. cbn [mbind option_bind].
  rewrite go_update_eq by (unfold go_len; lia). rewrite Nat2Z.id. cbn. eexists. split; [done|]. split; cbn.
  - by rewrite length_insert.
  - intros i op' he' Hi Hhe' [Hin|Heq%list_elem_of_singleton]%elem_of_app; [|done].
    destruct (decide (i = k)) as [->|Hne].
    + rewrite list_lookup_insert_eq in Hhe' by lia. simplify_eq. cbn. by eapply Hc.
    + rewrite list_lookup_insert_ne in Hhe' by done. by eapply Hc.
  - intros i op' he' Hi Hhe' Hin.
    destruct (decide (i = k)) as [->|Hne].
    + rewrite list_lookup_insert_eq in Hhe' by lia. simplify_eq. by rewrite lookup_insert_eq.
    + rewrite list_lookup_insert_ne in Hhe' by done. rewrite lookup_insert_ne by lia.
      apply elem_of_app in Hin as [Hin|Heq%list_elem_of_singleton]; [by eapply Hr|]. by apply retE_inj in Heq.
Qed.

(** Every row is filled in, and the values of all operations are known. *)
Lemma show_history_rows ops : well_timed ops → describable ops →
  ∃ hs cv rv, show_history describe_op (makeEntries ops) = Some (hs, cv, rv) ∧ Forall2 row_of ops hs
    ∧ ∀ i op, ops !! i = Some op → cv !! Z.of_nat i = Some (Input op) ∧ rv !! Z.of_nat i = Some (Output op).
Proof using EntrySortLaws0.
  intros Ht Hd.
  destruct (foldM_inv (show_entry describe_op) (shown ops) (makeEntries ops)
    (replicate (Z.to_nat (go_len (makeEntries ops) / 2)) zero_element, ∅, ∅)) as ([[hs cv] rv] & Hrun & [Hlen Hc Hr]).
  - split; cbn; [|by intros ??? _ _ ?%elem_of_nil..].
    rewrite length_replicate. unfold go_len. rewrite length_makeEntries, Nat2Z.inj_mul, Z.mul_comm, Z.div_mul by done. lia.
  - intros seen e rest [[hs cv] rv] Hes Hsh.
    assert (e ∈ makeEntries ops) as (k & op & Hop & He)%entries_elem by (rewrite Hes; set_solver).
    destruct He as [->| ->]; [by apply show_call|]. apply show_return; [done..| |done].
    destruct (entries_pos ops k op Hop) as [[p Hp] _].
    assert (makeEntries ops !! length seen = Some (retE k op)) as Hq by (by rewrite Hes, list_lookup_middle).
    pose proof (call_before_return ops Ht k op p _ Hop Hp Hq). rewrite Hes, lookup_app_l in Hp by done. by eapply list_elem_of_lookup_2.
  - exists hs, cv, rv. split; [done|]. cbn in *.
    assert (∀ i op he, ops !! i = Some op → hs !! i = Some he →
      row_of op he ∧ cv !! Z.of_nat i = Some (Input op) ∧ rv !! Z.of_nat i = Some (Output op)) as Hrow.
    { intros i op he Hi Hhe. destruct (Hc i op he) as (? & ? & ?); [done..|apply entries_elem; eauto|].
      destruct (Hr i op he) as (? & ? & ?); [done..|apply entries_elem; eauto|]. done. }
    split.
    + apply Forall2_same_length_lookup_2; [done|]. intros i op he Hi Hhe. by eapply Hrow.
    + intros i op Hi. pose proof (lookup_lt_Some _ _ _ Hi). destruct (lookup_lt_is_Some_2 hs i ltac:(lia)) as [he Hhe].
      by eapply Hrow.
Qed.

End rows.

(** ** Replays *)

Section replay.
Context {V St : Type} (step : St → V → V → option (bool * St)) (describe_state : St → option string).
Implicit Types (ops : list (Operation V)).

(** The steps that are shown: the model accepts the operations in this order,
    and each step has the description of the state after it. *)
Fixpoint plays ops (s : St) (lin : list linearizationStep) : Prop :=
  match lin with
  | [] => True
  | l :: lin => ∃ (i : nat) op s', Index l = Z.of_nat i ∧ ops !! i = Some op ∧ step s (Input op) (Output op) = Some (true, s')
      ∧ describe_state s' = Some (StateDescription l) ∧ plays ops s' lin
  end.

Section replays.
Context ops (callValue returnValue : gmap Z V).
Context (Hv : ∀ i op, ops !! i = Some op →
  callValue !! Z.of_nat i = Some (Input op) ∧ returnValue !! Z.of_nat i = Some (Output op)).
Context (Hd : ∀ s, is_Some (describe_state s)).

Lemma replay_legal i size s lg js : legal step ops s js →
  ∃ lin, replay step describe_state callValue returnValue i size s lg (Z.of_nat <$> js)
      = Some (lin, foldl (note_largest i size) lg (Z.of_nat <$> js))
    ∧ Index <$> lin = Z.of_nat <$> js ∧ plays ops s lin.
Proof using Hv Hd.
  revert s lg. induction js as [|j js IH]; intros s lg; [by exists []|].
  intros (op & s' & Hop & Hstep & Hl). destruct (Hv _ _ Hop) as [Hc Hr]. destruct (Hd s') as [text Htext].
  destruct (IH s' (note_largest i size lg (Z.of_nat j)) Hl) as (lin & Hlin & Hix & Hp).
  exists (MkLinearizationStep (Z.of_nat j) text :: lin). cbn. rewrite Hc, Hr. cbn. rewrite Hstep. cbn. rewrite Htext. cbn.
  rewrite Hlin. cbn. split; [done|]. split; [by rewrite Hix|]. by exists j, op, s'.
Qed.
End replays.
End replay.

(** ** The largest linearization with an operation *)

Definition best (ps : list (list Z)) (id i : Z) : Prop :=
  ∃ p, ps.[i] = Some p ∧ id ∈ p ∧ ∀ p', p' ∈ ps → id ∈ p' → (length p' <= length p)%nat.

(** After the linearizations [ps] *)
Definition noted (ps : list (list Z)) (lg : gmap Z Z * gmap Z Z) : Prop := ∀ id,
  match lg.1 !! id with
  | None => lg.2 !! id = None ∧ ∀ p, p ∈ ps → id ∉ p
  | Some i => best ps id i ∧ (p ← ps.[i]; Some (go_len p)) = lg.2 !! id
  end.

Lemma note_at i size lg x id :
  let lg' := note_largest i size lg x in
  (lg'.1 !! id, lg'.2 !! id) =
    if decide (id = x ∧ default 0 (lg.2 !! id) < size) then (Some i, Some size) else (lg.1 !! id, lg.2 !! id).
Proof.
  destruct lg as [li ls]. cbn. destruct (Z.ltb_spec (default 0 (ls !! x)) size) as [Hlt|Hge]; case_decide as Hd; cbn.
  - destruct Hd as [-> _]. by rewrite !lookup_insert_eq.
  - destruct (decide (id = x)) as [->|Hne]; [by destruct Hd|]. by rewrite !lookup_insert_ne by done.
  - destruct Hd as [-> ?]. lia.
  - done.
Qed.

Lemma notes_at i size lg ids id :
  let lg' := foldl (note_largest i size) lg ids in
  (lg'.1 !! id, lg'.2 !! id) =
    if decide (id ∈ ids ∧ default 0 (lg.2 !! id) < size) then (Some i, Some size) else (lg.1 !! id, lg.2 !! id).
Proof.
  revert lg. induction ids as [|x ids IH]; intros lg; cbn [foldl].
  { rewrite decide_False; [done|]. by intros [?%elem_of_nil _]. }
  cbn zeta in *. rewrite IH. pose proof (note_at i size lg x id) as Hx. cbn zeta in Hx.
  destruct (decide (id = x ∧ _)) as [[-> Hlt]|Hn]; injection Hx as -> ->; cbn [default].
  - rewrite decide_False by (cbn; lia). by rewrite decide_True by (split; [by left|done]).
  - apply decide_ext. rewrite elem_of_cons. tauto.
Qed.

Lemma go_index_keeps {A} (l k : list A) i x : l.[i] = Some x → (l ++ k).[i] = Some x.
Proof. intros [H0 Hi]%go_index_lookup. apply go_index_lookup. split; [done|]. by apply lookup_app_l_Some. Qed.

Lemma best_app ps p id i : best ps id i → (∀ q, ps.[i] = Some q → id ∈ p → (length p <= length q)%nat) → best (ps ++ [p]) id i.
Proof.
  intros (q & Hq & Hin & Hmax) Hp. exists q. split; [by apply go_index_keeps|]. split; [done|].
  intros p' [?| ->%list_elem_of_singleton]%elem_of_app Hp'; [by apply Hmax|by apply Hp].
Qed.

Lemma noted_snoc ps p lg : noted ps lg → noted (ps ++ [p]) (foldl (note_largest (go_len ps) (go_len p)) lg p).
Proof.
  intros Hn id. specialize (Hn id). pose proof (notes_at (go_len ps) (go_len p) lg p id) as Ha. cbn zeta in Ha.
  case_decide as Hd; injection Ha as -> ->.
  - destruct Hd as [Hin Hlt].
    assert ((ps ++ [p]).[go_len ps] = Some p) as Hp by (unfold go_len; rewrite go_index_nat; by apply list_lookup_middle).
    split; [|by rewrite Hp]. exists p. split; [done|]. split; [done|].
    intros p' [Hp'| ->%list_elem_of_singleton]%elem_of_app Hin'; [|done].
    destruct (lg.1 !! id) as [i|]; [|by destruct (proj2 Hn _ Hp')].
    destruct Hn as [(q & Hq & _ & Hmax) Hs]. rewrite Hq in Hs. cbn in Hs. rewrite <- Hs in Hlt. cbn in Hlt.
    specialize (Hmax _ Hp' Hin'). unfold go_len in Hlt. lia.
  - destruct (lg.1 !! id) as [i|].
    + destruct Hn as [Hb Hs]. destruct Hb as (q & Hq & Hb). rewrite Hq in Hs. cbn in Hs. split.
      * apply best_app; [by exists q|]. intros q' Hq' Hin. rewrite Hq in Hq'. injection Hq' as <-.
        destruct (decide (length p <= length q)%nat); [done|]. destruct Hd. split; [done|].
        rewrite <- Hs. cbn. unfold go_len. lia.
      * by rewrite (go_index_keeps _ _ _ _ Hq).
    + destruct Hn as [Hs Hno]. split; [done|]. intros p' [Hp'| ->%list_elem_of_singleton]%elem_of_app; [by apply Hno|].
      intros Hin. destruct Hd. split; [done|]. rewrite Hs. cbn. destruct p; [by apply elem_of_nil in Hin|]. unfold go_len. cbn. lia.
Qed.

(** The operations of a partial linearization that is shown *)
Definition shown_ids (lin : list linearizationStep) : list Z := Index <$> lin.

Lemma length_shown_ids lin : length (shown_ids lin) = length lin.
Proof. apply length_fmap. Qed.

Section all_replays.
Context {V St : Type} (step : St → V → V → option (bool * St)) (init : St) (describe_state : St → option string).
Context (ops : list (Operation V)) (callValue returnValue : gmap Z V).
Context (Hv : ∀ i op, ops !! i = Some op →
  callValue !! Z.of_nat i = Some (Input op) ∧ returnValue !! Z.of_nat i = Some (Output op)).
Context (Hd : ∀ s, is_Some (describe_state s)).

(** A sequence of ids that the model accepts *)
Definition accepted (ids : list Z) : Prop := ∃ js, ids = Z.of_nat <$> js ∧ legal step ops init js.

Lemma replay_all_accepted before ps lg : Forall accepted ps → noted before lg →
  ∃ lins lg', replay_all step init describe_state callValue returnValue (go_len before) lg ps = Some (lins, lg')
    ∧ shown_ids <$> lins = ps ∧ Forall (plays step describe_state ops init) lins ∧ noted (before ++ ps) lg'.
Proof using Hv Hd.
  revert before lg. induction ps as [|p ps IH]; intros before lg Hacc Hn.
  { exists [], lg. by rewrite app_nil_r. }
  inversion Hacc as [|?? (js & -> & Hl) Hacc']; subst.
  destruct (replay_legal step describe_state ops callValue returnValue Hv Hd (go_len before) (go_len (Z.of_nat <$> js)) init lg js Hl)
    as (lin & Hlin & Hix & Hp).
  destruct (IH (before ++ [Z.of_nat <$> js]) _ Hacc' (noted_snoc _ _ _ Hn)) as (lins & lg' & Hlins & Hixs & Hps & Hn').
  exists (lin :: lins), lg'. cbn. rewrite Hlin. cbn.
  replace (go_len before + 1) with (go_len (before ++ [Z.of_nat <$> js])) by (unfold go_len; rewrite length_app; cbn; lia).
  rewrite Hlins. cbn. split; [done|]. unfold shown_ids at 1. rewrite Hix, Hixs. split; [done|]. split; [by constructor|].
  by rewrite <- (assoc_L (++)) in Hn'.
Qed.
End all_replays.

(** ** A partition *)

Section partition.
Context {V St : Type} `{!EntrySort V, !EntrySortLaws V, !LengthSort} `{LSL : !LengthSortLaws}.
Context (step : St → V → V → option (bool * St)) (init : St).
Context (describe_op : option V → V → option string) (describe_state : St → option string).
Implicit Types (ops : list (Operation V)).

(** What is shown of the operations of a partition: a row for each of them;
    partial linearizations that the model accepts, the longest first; for each
    operation that is in one of them, the index of a longest one with it. *)
Record displays ops (partials : list (list Z)) (pd : partitionVisualizationData) : Prop := {
  dp_rows : Forall2 (row_of describe_op) ops (History pd);
  dp_partials : shown_ids <$> PartialLinearizations pd ≡ₚ partials;
  dp_plays lin : lin ∈ PartialLinearizations pd → plays step describe_state ops init lin;
  dp_sorted i j a b : (i < j)%nat → PartialLinearizations pd !! i = Some a → PartialLinearizations pd !! j = Some b →
    (length b <= length a)%nat;
  dp_largest id i : Largest pd !! id = Some i → ∃ lin, (PartialLinearizations pd).[i] = Some lin ∧ id ∈ shown_ids lin
    ∧ ∀ lin', lin' ∈ PartialLinearizations pd → id ∈ shown_ids lin' → (length lin' <= length lin)%nat;
  dp_none id : Largest pd !! id = None → ∀ lin, lin ∈ PartialLinearizations pd → id ∉ shown_ids lin;
}.

Lemma partition_displays ops partials : well_timed ops → describable describe_op ops → (∀ s, is_Some (describe_state s)) →
  Forall (accepted step init ops) partials →
  ∃ pd, partition_data step init describe_op describe_state (makeEntries ops) partials = Some pd ∧ displays ops partials pd.
Proof using EntrySortLaws0 LSL.
  intros Ht Hd Hds Hacc. destruct (show_history_rows describe_op ops Ht Hd) as (hs & cv & rv & Hhist & Hrows & Hv).
  destruct (replay_all_accepted step init describe_state ops cv rv Hv Hds [] (sort_by_length partials) (∅, ∅))
    as (lins & [li ls] & Hlins & Hix & Hplays & Hn).
  { by rewrite sort_by_length_perm. }
  { intros id. cbn. rewrite !lookup_empty. split; [done|]. by intros ? ?%elem_of_nil. }
  exists (MkPartitionData hs lins li). unfold partition_data. rewrite Hhist. cbn [mbind option_bind].
  change (go_len []) with 0 in Hlins. rewrite Hlins. split; [done|]. cbn in Hn.
  assert (∀ lin, lin ∈ lins → (shown_ids lin) ∈ sort_by_length partials) as Hin.
  { intros lin Hlin. rewrite <- Hix. by apply (list_elem_of_fmap_2 shown_ids). }
  split; cbn; [done| | | | |].
  - rewrite Hix. apply sort_by_length_perm.
  - by apply Forall_forall.
  - intros i j a b Hij Ha Hb. pose proof (sort_by_length_sorted partials i j (shown_ids a) (shown_ids b) Hij) as Hs.
    rewrite <- Hix, !list_lookup_fmap, Ha, Hb in Hs; cbn in Hs; rewrite !length_shown_ids in Hs. by apply Hs.
  - intros id i Hi. specialize (Hn id). cbn in Hn. rewrite Hi in Hn. destruct Hn as [(p & Hp & Hidp & Hmax) _].
    apply go_index_lookup in Hp as [H0 Hp]. rewrite <- Hix, list_lookup_fmap in Hp.
    destruct (lins !! Z.to_nat i) as [lin|] eqn:Hlin; [|done]. injection Hp as <-. exists lin.
    split; [by apply go_index_lookup|]. split; [done|]. intros lin' Hl Hid. specialize (Hmax _ (Hin _ Hl) Hid).
    by rewrite !length_shown_ids in Hmax.
  - intros id Hi lin Hlin. specialize (Hn id). cbn in Hn. rewrite Hi in Hn. apply Hn. by apply Hin.
Qed.
End partition.

(** ** What the checker returns *)

(** The results in an order of arrival *)
Definition reported (arrivals : list Arrival) : list nat :=
  omap (λ a, match a with ResultOf i => Some i | TimeoutFires => None end) arrivals.

Section info.
Context {V St : Type} `{!EqDecision St, !EntrySort V, !EntrySortLaws V} {MO : MapOrder} `{MOL : !MapOrderLaws}.
Context (model : Model V St).
Notation equal := (default ShallowEqual (Equal model)).
Notation check_one := (checkSingle (Step model) equal (Init model)).

Lemma checkSingle_mono fuel fuel' es cp kill r :
  check_one fuel es cp kill = Some r → (fuel <= fuel')%nat → check_one fuel' es cp kill = Some r.
Proof.
  unfold checkSingle. intros (p & Hp & H)%bind_Some Hle. rewrite Hp. destruct p as [hd c].
  apply bind_Some in H as (q & Hq & H). cbn [mbind option_bind].
  by rewrite (check_loop_mono _ _ _ _ _ _ fuel' _ _ _ Hq Hle).
Qed.

Lemma unique_partials_elem lg ids : ids ∈ unique_partials lg → ∃ p, Some (p, ids) ∈ lg.
Proof using MOL.
  unfold unique_partials. rewrite range_perm. intros ([k s] & -> & Hin)%list_elem_of_fmap.
  apply elem_of_map_to_list, elem_of_list_to_map_2, list_elem_of_fmap in Hin as ([p s'] & [= -> ->] & Hin).
  apply list_elem_of_omap in Hin as (o & Ho & ->). by exists p.
Qed.

Lemma unique_partials_one lg p ids : lg ≠ [] → (∀ x, x ∈ lg → x = Some (p, ids)) → unique_partials lg = [ids].
Proof using MOL.
  intros Hne Hall. unfold unique_partials.
  assert (list_to_map ((λ q : nat * list Z, (Z.of_nat q.1, q.2)) <$> omap (λ v, v) lg) =@{gmap Z (list Z)} {[Z.of_nat p := ids]}) as ->.
  { destruct lg as [|x lg]; [done|]. clear Hne. revert x Hall. induction lg as [|y lg IH]; intros x Hall.
    - by rewrite (Hall x) by by left.
    - rewrite (Hall x) by by left. cbn. specialize (IH y). cbn in IH. rewrite IH by (intros z Hz; apply Hall; by right).
      apply insert_singleton_eq. }
  pose proof (range_perm 0 {[Z.of_nat p := ids]}) as Hp. rewrite map_to_list_singleton in Hp.
  apply Permutation_singleton_r in Hp. by rewrite Hp.
Qed.

(** The call of [checkSingle] whose sequences are reported for a partition *)
Definition reports (fuel : nat) (res : CheckResult) (sub : list (Operation V)) (partials : list (list Z)) : Prop :=
  ∃ kill ok lg, check_one fuel (makeEntries sub) true kill = Some (ok, lg) ∧ partials = unique_partials lg
    ∧ (res = Ok → ok = true).

Lemma checkParallel_info fuel arrivals kills parts timeout res info : NoDup (reported arrivals) →
  checkParallel fuel arrivals kills (fillDefault model) (makeEntries <$> parts) true timeout = Some (res, info) →
  history info = makeEntries <$> parts ∧ Forall2 (reports fuel res) parts (partialLinearizations info).
Proof.
  intros Hnd H. unfold checkParallel in H. change (check_single (fillDefault model)) with check_one in H.
  apply bind_Some in H as (results & Hresults & H). apply bind_Some in H as ([[ok to] received] & Hc & H).
  apply bind_Some in H as (info' & Hinfo & H). injection H as <- <-.
  apply bind_Some in Hinfo as (lgs & Hlgs & Hinfo). injection Hinfo as <-. cbn [history partialLinearizations].
  split; [done|]. apply mapM_Some in Hresults, Hlgs.
  assert (length results = length parts) as Hlr by (rewrite <- (Forall2_length _ _ _ Hresults); apply length_fmap).
  unfold go_len in Hc. rewrite length_fmap in Hc.
  destruct (collect_spec _ _ _ _ Hlr _ _ _ _ _ _ Hc) as (Hok & Hnd' & Hlt & _ & Hfull); [done|by intros ? ?%elem_of_nil| |].
  { split; [by intros _ ? ?%elem_of_nil|done]. }
  apply Forall2_fmap_r. apply Forall2_same_length_lookup_2.
  { rewrite <- (Forall2_length _ _ _ Hlgs). by rewrite length_imap, length_fmap. }
  intros i sub lg Hsub Hlg. destruct (Forall2_lookup_r _ _ _ _ _ Hlgs Hlg) as ([i' es] & Hi & Hrun).
  rewrite list_lookup_imap, list_lookup_fmap, Hsub in Hi. injection Hi as <- <-. cbn [fst snd] in Hrun.
  apply fmap_Some in Hrun as ([b lg'] & Hrun & ->). exists (if bool_decide (i ∈ received) then never else kills i), b, lg'.
  split; [done|]. split; [done|]. intros Hres. destruct ok, to; try done.
  assert (i ∈ received) as Hi.
  { eapply (received_all _ _ Hlr); [done|done|by apply Hfull|by eapply lookup_lt_Some]. }
  rewrite bool_decide_true in Hrun by done. pose proof (proj1 Hok eq_refl i Hi) as Ht.
  destruct (Forall2_lookup_r _ _ _ _ _ Hresults Ht) as (es & Hes & Hr). rewrite list_lookup_fmap, Hsub in Hes. injection Hes as <-.
  rewrite Hrun in Hr. by injection Hr.
Qed.

(** The model accepts everything that is reported. *)
Lemma reports_accepted fuel res sub partials : well_timed sub → reports fuel res sub partials →
  Forall (accepted (Step model) (Init model) sub) partials.
Proof using EntrySortLaws0 MOL.
  intros Ht (kill & ok & lg & Hrun & -> & _). apply Forall_forall. intros ids [p Hp]%unique_partials_elem.
  by eapply checkSingle_partials.
Qed.

(** With the answer [Ok] the report on a partition is one linearization. *)
Lemma reports_ok fuel sub partials `{!EqualSim (Step model) equal} : checkable model sub → sub ≠ [] →
  reports fuel Ok sub partials → ∃ js, partials = [Z.of_nat <$> js] ∧ linearization (Step model) (Init model) sub js.
Proof using EntrySortLaws0 MOL.
  intros [Ht Hty] Hne (kill & ok & lg & Hrun & -> & Hok). specialize (Hok eq_refl) as ->.
  destruct (checkSingle_verdict (Step model) equal (Init model) sub true Ht Hty) as (fuel0 & ok & lg0 & _ & Hlen & Hlin & Hf).
  destruct (Hf (fuel0 + fuel)%nat ltac:(lia)) as [_ Hk]. destruct (Hk kill) as (ok' & lg' & Hrun' & Hok').
  rewrite (checkSingle_mono _ (fuel0 + fuel) _ _ _ _ Hrun) in Hrun' by lia. injection Hrun' as <- <-.
  destruct (Hok' eq_refl) as [-> ->]. destruct (Hlin eq_refl) as (js & p & Hjs & Hall). exists js. split; [|done].
  eapply unique_partials_one; [|exact Hall]. intros ->. by destruct sub.
Qed.
End info.

(** C21: the visualization of a checked history.  Whatever the checker
    answered, and wherever the timer stopped it, the visualization does not panic
    on the report of a verbose check: for each partition it shows the operations with their
    client, times and description, and linearizations that the model
    accepts, with the states they lead to and the longest first, each
    operation referred to a longest one with it.  After the answer [Ok] one
    linearization of all operations is shown. *)
Theorem visualization_correct {V St : Type} `{!EqDecision St, !EntrySort V, !EntrySortLaws V, !GoFmt V, !GoFmt St}
    {MO : MapOrder} `{!MapOrderLaws} {LS : LengthSort} `{!LengthSortLaws}
    (model : Model V St) `{!EqualSim (Step model) (default ShallowEqual (Equal model))} (d : Describe V St)
    (hist : list (Operation V)) parts fuel arrivals kills timeout res info :
  let describe_op := default DefaultDescribeOperation (DescribeOperation d) in
  let describe_state := default DefaultDescribeState (DescribeState d) in
  default NoPartition (Partition model) hist = Some parts →
  (∀ sub, sub ∈ parts → checkable model sub ∧ describable describe_op sub) → (∀ s, is_Some (describe_state s)) →
  NoDup (reported arrivals) →
  checkOperations fuel arrivals kills model hist true timeout = Some (res, info) →
  ∃ data, computeVisualizationData model d info = Some data ∧ length data = length parts ∧
    ∀ i sub, parts !! i = Some sub → ∃ pd partials, data !! i = Some pd ∧ partialLinearizations info !! i = Some partials
      ∧ displays (Step model) (Init model) describe_op describe_state sub partials pd
      ∧ (res = Ok → sub ≠ [] → ∃ lin js, PartialLinearizations pd = [lin] ∧ shown_ids lin = Z.of_nat <$> js
          ∧ linearization (Step model) (Init model) sub js).
Proof.
  cbn zeta. intros Hpart Hall Hds Hnd Hrun.
  unfold checkOperations in Hrun. cbn [fillDefault Partition mbind option_bind] in Hrun. rewrite Hpart in Hrun. cbn [mbind option_bind] in Hrun.
  destruct (checkParallel_info model fuel arrivals kills parts timeout res info Hnd Hrun) as [Hh Hrep].
  unfold computeVisualizationData. cbn [fillDefault_describe DescribeOperation DescribeState mbind option_bind]. rewrite Hh.
  pose (data_of := λ p : nat * list (entry V), partials ← partialLinearizations info !! p.1;
    partition_data (Step model) (Init model) (default DefaultDescribeOperation (DescribeOperation d))
      (default DefaultDescribeState (DescribeState d)) p.2 partials).
  assert (∀ i sub, parts !! i = Some sub → ∃ pd partials, data_of (i, makeEntries sub) = Some pd
      ∧ partialLinearizations info !! i = Some partials
      ∧ displays (Step model) (Init model) (default DefaultDescribeOperation (DescribeOperation d))
        (default DefaultDescribeState (DescribeState d)) sub partials pd) as Hone.
  { intros i sub Hi. destruct (Forall2_lookup_l _ _ _ _ _ Hrep Hi) as (partials & Hp & Hr).
    destruct (Hall sub ltac:(by eapply list_elem_of_lookup_2)) as [[Ht _] Hd].
    destruct (partition_displays (Step model) (Init model) _ _ sub partials Ht Hd Hds) as (pd & Hpd & Hdisp).
    { by eapply reports_accepted. }
    exists pd, partials. split; [|done]. unfold data_of. cbn. by rewrite Hp. }
  assert (is_Some (mapM data_of (imap pair (makeEntries <$> parts)))) as [data Hdata].
  { apply mapM_is_Some_2, Forall_lookup_2. intros i p Hp. rewrite list_lookup_imap, list_lookup_fmap in Hp.
    destruct (parts !! i) as [sub|] eqn:Hi; [|done]. injection Hp as <-. destruct (Hone i sub Hi) as (pd & partials & Hpd & _). by exists pd. }
  exists data. split; [done|]. apply mapM_Some in Hdata. split; [by rewrite <- (Forall2_length _ _ _ Hdata), length_imap, length_fmap|].
  intros i sub Hi. destruct (Hone i sub Hi) as (pd & partials & Hpd & Hp & Hdisp). exists pd, partials.
  assert (data !! i = Some pd) as Hdi.
  { destruct (Forall2_lookup_l _ _ _ i (i, makeEntries sub) Hdata) as (pd' & Hpd' & Heq); [by rewrite list_lookup_imap, list_lookup_fmap, Hi|].
    rewrite Hpd in Heq. by injection Heq as <-. }
  split; [done|]. split; [done|]. split; [done|]. intros -> Hne.
  destruct (Forall2_lookup_l _ _ _ _ _ Hrep Hi) as (partials' & Hp' & Hr). rewrite Hp in Hp'. injection Hp' as <-.
  destruct (reports_ok model fuel sub partials ltac:(by apply Hall; eapply list_elem_of_lookup_2) Hne Hr) as (js & -> & Hjs).
  pose proof (dp_partials _ _ _ _ _ _ _ Hdisp) as Hperm. apply Permutation_singleton_r in Hperm.
  destruct (PartialLinearizations pd) as [|lin [|]]; try done. injection Hperm as Hlin. by exists lin, js.
Qed.

(** The values that [KvModel] asserts can be described. *)
Lemma kv_describable ops : (∀ v, v ∈ ops → kv_typed v) → describable kv_DescribeOperation ops.
Proof.
  intros Hty op Hop. destruct (Hty op Hop) as [[i Hi] [o Ho]]. unfold kv_DescribeOperation.
  cbn [mbind option_bind]. rewrite Hi, Ho. by eexists.
Qed.

(** The report on a history that is not linearizable, and what is shown of it *)
Definition bad_report : CheckResult * linearizationInfo KvAny :=
  default (Ok, MkInfo [] [])
    (@checkOperations _ _ _ _ forward_order 100 [ResultOf 0] (λ _, never) KvModel bad_history true 0).

Example bad_shown :
  (data ← @computeVisualizationData _ _ _ _ _ merge_length_sort KvModel KvDescribe bad_report.2;
   Some (map (λ pd, (map Description (History pd), map (map StateDescription) (PartialLinearizations pd))) data))
  = Some [(["put('x', 'a')"; "get('x') -> 'a'"; "append('x', 'b')"; "get('x') -> ''"], [["a"; "a"; "ab"]])]%string.
Proof. vm_compute. reflexivity. Qed.

Lemma visualization_correct_witness :
  ∃ pd, @computeVisualizationData _ _ _ _ _ merge_length_sort KvModel KvDescribe bad_report.2 = Some [pd]
    ∧ displays kv_step ""%string kv_DescribeOperation DefaultDescribeState bad_history [[0; 1; 2]] pd.
Proof.
  assert (∀ op, op ∈ bad_history → kv_typed op) as Hty.
  { intros op Hop. unfold bad_history in Hop. set_unfold. destruct_or?; subst; (split; by eexists). }
  destruct (@visualization_correct _ _ _ _ kv_sort_laws _ _ forward_order forward_order_laws merge_length_sort
    merge_length_sort_laws KvModel _ KvDescribe bad_history [bad_history] 100 [ResultOf 0] (λ _, never) 0
    bad_report.1 bad_report.2) as (data & Hdata & Hlen & Hall).
  - vm_compute. reflexivity.
  - intros sub Hsub. set_unfold in Hsub. destruct Hsub as [->|[]]. split; [split|by apply kv_describable].
    + intros op Hop. unfold bad_history in Hop. set_unfold. destruct_or?; subst; cbn; lia.
    + intros op s Hop. unfold bad_history in Hop. set_unfold. destruct_or?; subst; cbn; eauto.
  - intros s. by eexists.
  - apply (NoDup_singleton 0%nat).
  - vm_compute. reflexivity.
  - destruct (Hall 0%nat _ eq_refl) as (pd & partials & Hpd & Hp & Hd & _). exists pd.
    destruct data as [|pd' [|? ?]]; [discriminate Hlen| |discriminate Hlen]. injection Hpd as ->. split; [exact Hdata|].
    assert (partialLinearizations bad_report.2 !! 0%nat = Some [[0; 1; 2]]) as Hq by (vm_compute; reflexivity).
    rewrite Hp in Hq. injection Hq as ->. exact Hd.
Defined.
